(* ===== verification/_CoqProject ===== *)
-Q . S2P
Prelude.v
BoardTypes.v
Image.v
Classify.v
Counter.v
Render.v
Validate.v
Recognize.v
Rules.v
GameText.v
Wire.v
Runtime.v
Bridge.v
Flow.v
Orchestrator.v
Broadcast.v
Team.v
Members.v
ChatWire.v
History.v
Collector.v
Chat.v
ChatFacts.v
Mirror.v
JsText.v
MemoryStore.v
MemoryService.v
Memory.v
MemoryFacts.v
MemoryLog.v
Wiki.v
SessionConfig.v
Session.v
SessionFacts.v
SessionChecks.v
LlmStream.v
GlmWire.v
OpencodeWire.v
LlmRequest.v
GlmRequest.v
OpencodeRequest.v
LlmRequestFacts.v
Adapter.v
Sts2Drive.v
Sts2DriveFacts.v
Sts2.v
JsJson.v
Resolver.v
GrpcResolver.v
Presets.v
PresetStores.v
PresetsFacts.v
ServerNames.v
PresetServer.v
PresetServerFacts.v
TeamServer.v
TeamServerFacts.v
Hooks.v
HooksFacts.v
Assembly.v
AssemblyFacts.v
WebApi.v
ChatView.v
Panel.v
WebApp.v
Views.v
MemoryView.v
WikiView.v
PresetsView.v
Bootstrap.v
Daemon.v
Servers.v
Config.v
Logs.v
Tools.v
Databases.v
GrpcRuntime.v
AdapterHttp.v
DesktopApp.v
Cli.v
