(* ===== verification/Prelude.v ===== *)
(** * Verification of the saolei game agent

    A Rocq development of the core logic of the repository: the minesweeper
    ("saolei") agent, from the pixels of a screenshot to the team that plays, the
    plugins the team runs on, the server that hosts teams, the store of the web page
    that shows them and the memory library their members use.  This file is the root
    of the library: it documents the whole development and holds what all the other
    files share.

    ** The program

    - [projects/game/pkg/saolei-board/src/core]: recognition of a board from a
      screenshot (decoding, cell classification, mine counter), the same-game
      check, the win test and the text board.
    - [common/js/dsh-plugins/saolei/game/src/game]: the game runtime behind the
      agent's tools: move validation, dispatch to the desktop, recognition of the
      answer, log, statistics and result texts.
    - [common/js/dsh-plugins/desktop-bridge/src]: the sessions' desktop connections
      and the dispatch of operations to them.
    - [common/js/dsh-plugins/saolei/loop/src]: the team loop that alternates the
      planning, playing, announcing and reviewing activities of its members.
    - [common/js/dsh-plugins/team/src]: the group chat through which the members
      hear of each other's productions.
    - [projects/game/agent_v2/src]: the server.  A session owns a team: its
      materialization and replacement, the streams of its clients, the history of
      what its members produce and the translation of their events into frames.
    - [projects/game/web/frontend/src/store/chat.ts]: the reducer that rebuilds the
      conversation in the page from the frames.
    - [common/js/memory/src]: the memory and wiki tools over their two remote stores.
    - [common/js/dsh-plugins/llm-glm/src], [common/js/dsh-plugins/llm-opencode-go/src]:
      the model adapters: requests, response streams, calls.
    - [common/js/dsh-plugins/saolei/hooks/src], [.../saolei/tools/src]: the scripts a
      planner runs after a batch, and the tools of the game.
    - [common/js/dsh-plugins/sts2/loop/src]: the loop of a single agent.
    - [common/js/dsh-plugins/preset-authoring/src]: stored presets and the registry.
    - [projects/game/web/frontend/src]: the application, its panels and views, and the
      clients of its calls; [projects/game/desktop/frontend/src]: the desktop terminal.
    - [common/js/resolver/src], [common/js/grpc/resolver/src],
      [common/js/dsh-plugins/grpc-runtime/src], [common/js/mongo/src],
      [common/js/redis/src]: how services and databases are found and called.
    - [common/js/bootstrap/src], [common/js/config/src], [common/js/logs/src]: how a
      process starts, supervises and stops what it runs, is configured, and logs.

    A screenshot reaches [SaoleiBoard] (recognize.ts), whose [GameState] the
    runtime keeps; [saolei_operate] validates each operation on the last state,
    dispatches a click at the pixel [center] computes through the desktop bridge,
    and recognizes the screenshot of the receipt; the record of a finished game is
    the fact the flow of the loop reads to announce and review it.  The
    orchestrator feeds the flow one wake at a time and runs the turn it starts on a
    member; a member takes its input from the team service, which derives it from
    the logs of the others, and its productions are broadcast in turn.  The server
    subscribes to the members' events through the team plugin; a collector per member
    turns them into frames and merged history, which go to every attached stream; the
    page folds the frames, and backfills from the listed history.  The gRPC faces of
    the server validate names and requests before they reach the sessions and the
    presets; every service is composed by the bootstrap, reads its configuration, and
    finds the others through the resolver.

    ** The files

    - [Prelude]: JavaScript numbers, loops, strings, tactics and shared lemmas.
    - [BoardTypes]: types.ts and geometry.ts; well-formed states.
    - [Image]: decode.ts, over an interface for the third-party PNG decoder.
    - [Classify]: classify.ts, with a specification as a decision table.
    - [Counter]: counter.ts; the seven-segment display as a specification.
    - [Render]: render.ts.
    - [Validate]: validate.ts and win.ts.
    - [Recognize]: recognize.ts, [recognizeBoard] and the class [SaoleiBoard].
    - [Rules]: board.ts and geometry.ts of the game plugin.
    - [GameText]: text.ts.
    - [Wire]: wire.ts, the parts and frames exchanged with the desktop.
    - [Runtime]: runtime.ts; the class [GameRuntime] over the interfaces
      [SaoleiBoardApi] (recognition engine) and [RuntimeEnv] (desktop, clock,
      subscriber), with the specification of a batch.
    - [Bridge]: bridge.ts; the class [DesktopBridge] and its runs as sequences of
      requests, receipts, timer and abort events.
    - [Flow]: flow.ts and member.ts; the generic flow runtime and the saolei graph.
    - [Orchestrator]: orchestrator.ts; the serialized pump and the requests around
      it, as a step relation over the flow.
    - [Broadcast]: broadcast.ts and section.ts of the team plugin.
    - [Team]: team.ts; the class [Team] over a store of team and member states, and
      its runs as sequences of operations and logged events.
    - [Members]: announcer.ts and agent-member.ts.
    - [ChatWire]: the frames and messages, as conversation.ts declares them.
    - [History], [Collector]: history.ts; the class [TeamHistory] over a heap of
      shared messages, the class [MemberCollector], and their host's runs.
    - [Chat], [ChatFacts]: chat.ts, the reducer and the class [ChatStore]; facts.
    - [Mirror]: the composition of [History], [Collector] and [Chat].
    - [JsText]: UTF-16 strings and a small effect type for calls that throw.
    - [MemoryStore], [MemoryService]: store.ts, both clients; the interfaces of a
      lawful store and a lawful service, and the instance that relates them.
    - [Memory], [MemoryFacts], [MemoryLog]: operations.ts, face.ts, snapshot.ts and
      tool.ts; against a healthy store, then against any store.
    - [Wiki]: wiki-operations.ts and wiki-tools.ts.
    - [SessionConfig]: session.ts, names, scenes (scenes.ts) and validation.
    - [Session]: session.ts, the class [TeamSessions]; its entries live on a heap and
      are named by generation.
    - [SessionFacts], [SessionChecks]: facts about runs; about requests and reads.
    - [LlmStream]: the chunks of a model call and their protocol, as an automaton.
    - [GlmWire], [OpencodeWire]: wire.ts of each adapter, with the protocol.
    - [LlmRequest], [GlmRequest], [OpencodeRequest], [LlmRequestFacts]: serialize.ts of
      each adapter, over the options they share.
    - [Adapter]: adapter.ts, over the interface of a lawful wire, which both are.
    - [Sts2Drive], [Sts2DriveFacts], [Sts2]: drive.ts, orchestrator.ts and events.ts of
      the sts2 loop, over the interface of a lawful agent.
    - [JsJson]: the JSON text of a string, its order, numerals.
    - [Resolver], [GrpcResolver]: the resolvers of services, and of gRPC channels (one
      model for both classes, the instance being optional).
    - [Presets], [PresetStores], [PresetsFacts]: derive.ts, store.ts, store.mongo.ts and
      index.ts of the preset authoring, over lawful stores and registries.
    - [ServerNames], [PresetServer], [PresetServerFacts], [TeamServer],
      [TeamServerFacts]: server.ts of agent_v2, its names and statuses, its preset face
      and its team face.
    - [Hooks], [HooksFacts]: registry.ts, sandbox.ts, tool.ts, handler.ts of the hooks.
    - [Assembly], [AssemblyFacts]: materialization and disposal in orchestrator.ts.
    - [WebApi]: the API clients of the web page; [ChatView], [Panel], [WebApp]: the
      conversation, its panel and the application; [Views], [MemoryView], [WikiView],
      [PresetsView]: the management views.
    - [Bootstrap], [Daemon], [Servers]: bootstrap.ts, daemon.ts, and the server
      components with health.ts.
    - [Config], [Logs], [Tools]: merge.ts and index.ts; logger.ts, reporter.ts and
      context.ts; the tools of the game.
    - [Databases]: target.ts, credentials.ts and client.ts of mongo and redis.
    - [GrpcRuntime]: channel.ts, client.ts and unary.ts of the client runtime.
    - [AdapterHttp]: the HTTP side of both adapters.
    - [DesktopApp]: App.svelte, the desktop terminal.
    - [Cli]: cli.ts, the command line of the board library.

    ** How the code is rendered

    Integral numbers are [Z]; the 32-bit conversions of the bitwise operators
    are written out ([to_int32]), and the one division whose rounding matters
    ([round2_ratio]) works on binary64 values.  The other ratios of the code are
    compared with thresholds only and are exact rationals.  A union of literals
    is an inductive type; an object is a record; a class is a record of its
    fields and one function per method.  A read outside an array, a rejected
    decode or any other exception is [None] (or a constructor of the result
    type), and theorems show where well-formed inputs exclude it.  Loops are
    folds over the list of the values of their variable, or structural
    recursion on the list they walk, so no fuel is needed; the page walks of the
    memory library, whose length is the server's choice, take fuel, as does the loop
    that extends a short password digest.  Asynchronous calls
    of the runtime run to their end, the outside world being threaded through
    them; where interleaving matters (bridge, orchestrator, members, team, sessions,
    assembly, chat store, panels and views, terminal, bootstrap, daemon, gRPC resolver)
    the suspension points are states and the stretches between them are steps, taken
    in any order the code allows.  A shared mutable object has a reference.  Texts
    are lists of UTF-16 units in the files over [JsText], where the units matter, and
    strings of UTF-8 bytes elsewhere.

    ** What the theorems show

    - Recognition: the region of a cell is read inside the buffer; the classifier
      follows its decision table; the counter round-trips and fabricates no
      digit; a default recognition yields a well-formed state; updates are
      accepted exactly for same-game states and revealed cells are permanent;
      the text board is aligned and loses nothing.
    - Rules: validation decides legality, its rejections are triaged as
      documented, the status is a loss-first trichotomy, clicks land on the cells
      the recognizer reads, statistics never report a NaN on won preset boards.
    - Runtime: [operate] refines a specification of a batch that is written apart from
      it, the log, the event and the answer included; the invariant of
      all reachable runtimes; the end of a game is recorded once; a finished
      board dispatches nothing; what a batch failing midway leaves behind.
    - Flow: frozen flows keep their place and retries are transparent in any
      graph; in the saolei graph decisions follow the edges, every record gets
      one announcement and one review, and the team rests at every fifth review.
    - Bridge: every dispatch is answered exactly once, by its own receipt, its
      timeout, its abort, a failed write or the end of its connection, and leaves
      no timer or listener behind.
    - Orchestrator: at most one turn in flight and no wake lost; failures suspend
      the continuation; cancelling freezes in place a flow that is not frozen, and
      leaves a frozen one as it is, even during a recovery turn.
    - Team: what a drain delivers, exactly once; the live relay agrees with the
      derivation; registration replaces rosters and leaks nothing.
    - Members: announcements are ordered and not repeated; a turn reports what
      happened in it; an interrupted input is replayed exactly.
    - History and collectors: on the stream of a team every turn opens once, is framed
      by its role, numbers its blocks in sequence and closes once.
    - Chat store: an invariant of all its runs; frames fanned out on several streams
      take effect once, as long as each has arrived on all of them before the next; the end of a stream keeps what was shown.  With the server
      side: a page that follows the stream agrees with the listed history.
    - Memory: over a healthy store that lists the whole collection a call refines its
      specification on the multiset of notes, but for an add whose digest is the id of
      an entry replaced since; over any store its reads and writes are bounded and its error reports
      exactly what was applied; page walks end on servers whose tokens advance.
    - Wiki: a write upserts by normalized title, and what was written reads back.
    - Sessions: one live team per session through refreshes and shutdown; a stream's
      protocol and its completeness; every attached stream is settled as long as
      disposals succeed; which requests are accepted; whom a member read is about.
    - Model adapters: the chunks of both wires keep to one protocol whatever is sent
      and however it is cut; a call over a lawful wire returns only after a finish;
      requests carry the conversation, the same from both adapters; the key of a call
      is in its Authorization header only.
    - Second loop: no input is lost or repeated, a driver implements its specification,
      dispose releases every agent.
    - Presets: the registry stays in step with the store, whatever fails, but for the
      registrations whose unregistration threw, which nobody holds; the Mongo store
      agrees with the one in memory; created presets read back through the server, pages
      give every preset once.
    - Team face: an update is queued exactly when the session layer would accept it; a
      Send call is frames and at most one end.
    - Hooks: they leave the game alone, unless a script stalls the process where the
      budget does not reach; their tool refines an ordered list; bounds.
    - Assembly, for calls that do not overlap: a team is there whole or not at all; a
      materialization settles; disposal releases everything once.
    - Web page: bytes of a stream read back however they are cut; the view shows every
      entry once, but for what a folded turn hides, and the steps of the live turns
      that are not entries yet; a send wins over a backfill; panels live as long as their sessions;
      the memories shown are of the selected preset.
    - Desktop terminal: page, logger, backend and drawer stay in step.
    - Services: what came up is stopped in reverse, the health endpoint first, and a run
      resolves only when everything came up and stopped without an error, each failure
      being reported; pauses and restarts are bounded; a configured value wins; targets parse
      to well-formed parts and the clients agree with the resolver on them; channel
      statuses are up to date; there is one open channel per target.
    - Lemmas outside these groups show where the code and its comments part, each on a
      concrete run: stale responses, inherited properties, undocumented throws.

    ** Bounds

    [Image.image_addressable] limits an image buffer to 2^31 bytes, the size up
    to which the 32-bit pixel index does not wrap.  The accuracy of the average
    is computed for up to 300 operations on the 10, 40 and 99 mines of the
    preset boards.  The fuel of a page walk is a bound on the requests made; enough is
    any number above the number of pages ([MemoryLog.listMemories_terminates]), and
    more changes nothing.  The fuel of a password is its least length, 24: every round
    over a digest that is not empty adds a character ([Databases.derived_password]).
    The await count of a materialization is at most eight
    ([AssemblyFacts.materialize_settles]).

    ** What is not modelled

    The PNG decoder, base64 decoding, the streams, timers and UUIDs of the host,
    the agents (inbox, status, model) and their session logs and the remote memory
    services are parameters or effects, as are, for the sessions, the preset store and
    the model catalog.  Unicode
    normalization, case conversion, hashing and HMAC are parameters, as are JSON.parse,
    Date.parse, the YAML parser, the script interpreter (scripts act by what they return,
    throw or fail to end, not through host objects or microtasks), the Mongo driver, the preset
    registry, the channel constructor and the proto loader, and the event-source
    parser and the text decoder, by what they deliver.

    Some interleavings are left out: the operations of the preset service run one after
    the other, a materialization of the second loop is one transaction ([Session]
    serializes it), disposers run in the order they were added.  The messages that land
    in a recovery turn and the last error are in [Orchestrator], not in [Assembly].

    What remains is not modelled because it is wiring or I/O: the plugin entries and
    manifests, the composition of the memory library, the process start of agent_v2 and
    its shipped rows, the adapter of the game scene, the health handle of the bootstrap, the OpenTelemetry exporter, the markup
    and style of the React and Svelte pages, the bindings of the desktop shell, and the
    experimental programs.  The programs in Go are another language and
    are not modelled. *)

From Stdlib Require Export ZArith Lia.
From stdpp Require Export gmap strings list pretty.

#[global] Open Scope Z_scope.

(** ** JavaScript numbers

    An integral JavaScript number is a [Z]; [jsnum] adds the [NaN] that
    [Number(...)] yields on a string that is not a numeral.  [-0] and [0] are
    the same value here: the code compares with [===], which identifies them. *)
Inductive jsnum : Type :=
| JNum (z : Z)
| JNaN.

#[global] Instance jsnum_eq_dec : EqDecision jsnum.
Proof. solve_decision. Defined.

Definition jsnum_lift2 (f : Z → Z → Z) (a b : jsnum) : jsnum :=
  match a, b with
  | JNum x, JNum y => JNum (f x y)
  | _, _ => JNaN
  end.

(** [a === b] on numbers: [NaN] equals nothing, itself included. *)
Definition jsnum_seq (a : jsnum) (b : Z) : bool :=
  match a with
  | JNum x => x =? b
  | JNaN => false
  end.

(** The 32-bit signed conversion the bitwise operators apply to their operand. *)
Definition to_int32 (v : Z) : Z :=
  (v + 2 ^ 31) mod 2 ^ 32 - 2 ^ 31.

(** ** Loops

    [zrange lo hi] enumerates the values of the loop variable of
    [for (let i = lo; i < hi; i++)]; [coords] enumerates the pairs of the nested
    loop [for y { for x { ... } }] in execution order. *)
Definition zrange (lo hi : Z) : list Z := seqZ lo (hi - lo).

Definition coords (x0 x1 y0 y1 : Z) : list (Z * Z) :=
  y ← zrange y0 y1; x ← zrange x0 x1; [(x, y)].

(** [l[i]] on an array: [None] when the index names no element. *)
Definition zget {A} (l : list A) (i : Z) : option A :=
  if 0 <=? i then l !! Z.to_nat i else None.

(** A loop whose body may throw: [None] stops the run. *)
Fixpoint foldM {S A} (f : S → A → option S) (s : S) (l : list A) : option S :=
  match l with
  | [] => Some s
  | a :: l => s' ← f s a; foldM f s' l
  end.

(** The counting loop [for (...) if (p) n++]. *)
Definition countM {A} (p : A → option bool) (l : list A) : option Z :=
  foldM (λ n a, b ← p a; Some (if (b : bool) then n + 1 else n)) 0 l.

Definition countb {A} (p : A → bool) (l : list A) : Z :=
  Z.of_nat (length (List.filter p l)).

(** ** Strings *)

(** [String(n)] of an integral number. *)
Definition num_str (n : Z) : string := pretty n.

Fixpoint str_repeat (s : string) (n : nat) : string :=
  match n with
  | O => ""
  | S n => s +:+ str_repeat s n
  end.

(** [s.padStart(w, c)] and [s.padEnd(w, c)] for a one-character filler. *)
Definition padStart (w : Z) (c : string) (s : string) : string :=
  str_repeat c (Z.to_nat (w - Z.of_nat (String.length s))) +:+ s.

Definition padEnd (w : Z) (c : string) (s : string) : string :=
  s +:+ str_repeat c (Z.to_nat (w - Z.of_nat (String.length s))).

(** [lines.join(sep)]. *)
Definition join (sep : string) (l : list string) : string := String.concat sep l.

Definition slen (s : string) : Z := Z.of_nat (String.length s).

(** A newline. *)
Definition nl : string := String (Ascii.ascii_of_nat 10) "".

(** ** Automation *)

Create HintDb js.

(** Split every hypothesis that is a conjunction, an existential or an equation
    between constructors, and finish the arithmetic. *)
Ltac crush :=
  repeat match goal with
  | H : _ ∧ _ |- _ => destruct H
  | H : ∃ _, _ |- _ => destruct H
  | H : is_Some _ |- _ => destruct H
  end; simplify_eq/=; try done; try lia.

(** Case-split the scrutinee of a [match] or an [if] of a hypothesis or of the
    goal, remembering the equation. *)
Ltac split_match :=
  match goal with
  | H : context [match ?x with _ => _ end] |- _ => destruct x eqn:?
  | |- context [match ?x with _ => _ end] => destruct x eqn:?
  end.

Ltac case_all := repeat (split_match; simplify_eq/=).

(** Turn the boolean comparisons of the hypotheses into propositions. *)
Ltac to_prop :=
  repeat match goal with
  | H : (_ && _) = true |- _ => apply andb_true_iff in H as [? ?]
  | H : (_ || _) = false |- _ => apply orb_false_iff in H as [? ?]
  | H : negb _ = true |- _ => apply negb_true_iff in H
  | H : negb _ = false |- _ => apply negb_false_iff in H
  | H : (_ <? _) = true |- _ => apply Z.ltb_lt in H
  | H : (_ <? _) = false |- _ => apply Z.ltb_ge in H
  | H : (_ <=? _) = true |- _ => apply Z.leb_le in H
  | H : (_ <=? _) = false |- _ => apply Z.leb_gt in H
  | H : (_ =? _) = true |- _ => apply Z.eqb_eq in H
  | H : (_ =? _) = false |- _ => apply Z.eqb_neq in H
  end.

(** An equality between closed terms, by evaluation. *)
Ltac vm_refl := match goal with |- @eq ?A _ ?b => vm_cast_no_check (@eq_refl A b) end.

(** Membership in a list written out. *)
Ltac in_list := apply list_elem_of_In; simpl; tauto.

(** ** Lemmas on numbers *)

Lemma to_int32_small v : - 2 ^ 31 ≤ v < 2 ^ 31 → to_int32 v = v.
Proof. intros ?. unfold to_int32. rewrite Z.mod_small; lia. Qed.

Lemma to_int32_range v : - 2 ^ 31 ≤ to_int32 v < 2 ^ 31.
Proof. unfold to_int32. pose proof (Z.mod_pos_bound (v + 2 ^ 31) (2 ^ 32)). lia. Qed.

#[export] Hint Resolve to_int32_range : js.

(** ** Lemmas on loops *)

Lemma elem_of_zrange lo hi i : i ∈ zrange lo hi ↔ lo ≤ i < hi.
Proof. unfold zrange. rewrite elem_of_seqZ. lia. Qed.

Lemma length_zrange lo hi : length (zrange lo hi) = Z.to_nat (hi - lo).
Proof. unfold zrange. apply length_seqZ. Qed.

Lemma lookup_zrange lo hi (i : nat) (v : Z) :
  zrange lo hi !! i = Some v ↔ v = lo + Z.of_nat i ∧ Z.of_nat i < hi - lo.
Proof. unfold zrange. rewrite lookup_seqZ. lia. Qed.

Lemma elem_of_coords x0 x1 y0 y1 x y :
  (x, y) ∈ coords x0 x1 y0 y1 ↔ x0 ≤ x < x1 ∧ y0 ≤ y < y1.
Proof.
  unfold coords. rewrite list_elem_of_bind. split.
  - intros (y' & Hin & Hy). apply list_elem_of_bind in Hin as (x' & Hin & Hx).
    apply list_elem_of_singleton in Hin. simplify_eq.
    rewrite elem_of_zrange in Hx, Hy. lia.
  - intros [Hx Hy]. exists y. rewrite elem_of_zrange. split; [|lia].
    apply list_elem_of_bind. exists x. rewrite elem_of_zrange.
    split; [|lia]. apply list_elem_of_singleton. done.
Qed.

Lemma length_coords x0 x1 y0 y1 :
  length (coords x0 x1 y0 y1) = (Z.to_nat (x1 - x0) * Z.to_nat (y1 - y0))%nat.
Proof.
  unfold coords. rewrite Nat.mul_comm, <- (length_zrange y0 y1).
  induction (zrange y0 y1) as [|y ys IH]; [done|].
  change ((length ((x ← zrange x0 x1; [(x, y)]) ++
    (y ← ys; x ← zrange x0 x1; [(x, y)])) = S (length ys) * Z.to_nat (x1 - x0))%nat).
  rewrite length_app, IH. simpl. f_equal.
  rewrite <- length_zrange. clear.
  induction (zrange x0 x1) as [|x xs IH]; [done|].
  change (S (length (x ← xs; [(x, y)])) = S (length xs)). by rewrite IH.
Qed.

Lemma zget_Some {A} (l : list A) i a :
  zget l i = Some a ↔ 0 ≤ i ∧ l !! Z.to_nat i = Some a.
Proof.
  unfold zget. destruct (Z.leb_spec 0 i); [by split; [|intros []]|].
  split; [done|]. intros []. lia.
Qed.

Lemma zget_range {A} (l : list A) i :
  is_Some (zget l i) ↔ 0 ≤ i < Z.of_nat (length l).
Proof.
  unfold zget. destruct (Z.leb_spec 0 i).
  - rewrite lookup_lt_is_Some. lia.
  - split; [by intros []|lia].
Qed.

Lemma zget_elem_of {A} (l : list A) i a : zget l i = Some a → a ∈ l.
Proof. rewrite zget_Some. intros [_ H]. by eapply list_elem_of_lookup_2. Qed.

Lemma foldM_app {S A} (f : S → A → option S) s l1 l2 :
  foldM f s (l1 ++ l2) = s' ← foldM f s l1; foldM f s' l2.
Proof.
  revert s. induction l1 as [|a l1 IH]; intros s; [done|].
  simpl. destruct (f s a); [apply IH|done].
Qed.

(** The rule for a loop with an invariant over the part already processed. *)
Lemma foldM_ind {S A} (P : list A → S → Prop) (f : S → A → option S) s l s' :
  P [] s →
  (∀ l1 a s1 s2, P l1 s1 → a ∈ l → f s1 a = Some s2 → P (l1 ++ [a]) s2) →
  foldM f s l = Some s' → P l s'.
Proof.
  intros Hs Hstep.
  assert (∀ l1 l2 s1, P l1 s1 → l2 ⊆ l → foldM f s1 l2 = Some s' → P (l1 ++ l2) s')
    as Hgen.
  { intros l1 l2. revert l1. induction l2 as [|a l2 IH]; intros l1 s1 HP Hsub Hf; simpl in Hf.
    - simplify_eq. by rewrite app_nil_r.
    - destruct (f s1 a) as [s2|] eqn:E; simplify_eq/=.
      replace (l1 ++ a :: l2) with ((l1 ++ [a]) ++ l2) by by rewrite <- app_assoc.
      eapply IH; [|set_solver|exact Hf]. eapply Hstep; [done|set_solver|done]. }
  intros Hf. by apply (Hgen [] l s).
Qed.

Lemma foldM_total {S A} (f : S → A → option S) s l :
  (∀ s a, a ∈ l → is_Some (f s a)) → is_Some (foldM f s l).
Proof.
  revert s. induction l as [|a l IH]; intros s Hf; simpl; [done|].
  destruct (Hf s a) as [s' ->]; [set_solver|]. apply IH. set_solver.
Qed.

(** A loop whose body never throws is the fold of its pure body. *)
Lemma foldM_pure {S A} (f : S → A → option S) (g : S → A → S) s l :
  (∀ s a, a ∈ l → f s a = Some (g s a)) → foldM f s l = Some (fold_left g l s).
Proof.
  revert s. induction l as [|a l IH]; intros s Hf; simpl; [done|].
  rewrite Hf by set_solver. simpl. apply IH. set_solver.
Qed.

Lemma countb_app {A} (p : A → bool) l1 l2 :
  countb p (l1 ++ l2) = countb p l1 + countb p l2.
Proof. unfold countb. rewrite List.filter_app, length_app. lia. Qed.

Lemma countb_snoc {A} (p : A → bool) l a :
  countb p (l ++ [a]) = countb p l + (if p a then 1 else 0).
Proof. rewrite countb_app. unfold countb. simpl. destruct (p a); simpl; lia. Qed.

Lemma countb_bounds {A} (p : A → bool) l : 0 ≤ countb p l ≤ Z.of_nat (length l).
Proof. unfold countb. pose proof (List.filter_length_le p l). lia. Qed.

Lemma countb_ext {A} (p q : A → bool) l :
  (∀ a, a ∈ l → p a = q a) → countb p l = countb q l.
Proof.
  unfold countb. induction l as [|a l IH]; intros H; [done|]. simpl.
  rewrite (H a) by set_solver.
  assert (length (List.filter p l) = length (List.filter q l)).
  { apply Nat2Z.inj, IH. intros b Hb. apply H. set_solver. }
  destruct (q a); simpl; lia.
Qed.

Lemma countM_pure {A} (p : A → option bool) (q : A → bool) l :
  (∀ a, a ∈ l → p a = Some (q a)) → countM p l = Some (countb q l).
Proof.
  intros Hp. unfold countM.
  rewrite (foldM_pure _ (λ n a, if q a then n + 1 else n)).
  - f_equal. induction l as [|a l IH] using rev_ind; [done|].
    rewrite fold_left_app, countb_snoc, IH by set_solver. simpl. case_match; lia.
  - intros n a Ha. by rewrite (Hp a Ha).
Qed.


(** ** Lemmas on strings *)

Lemma str_length_app s t :
  String.length (s +:+ t) = (String.length s + String.length t)%nat.
Proof. induction s as [|c s IH]; [done|]. simpl. by rewrite IH. Qed.

Lemma str_length_repeat c n :
  String.length (str_repeat c n) = (n * String.length c)%nat.
Proof. induction n as [|n IH]; [done|]. simpl. by rewrite str_length_app, IH. Qed.

Lemma str_cons_app c s t : String c s +:+ t = String c (s +:+ t).
Proof. done. Qed.

Lemma str_nil_app t : "" +:+ t = t.
Proof. done. Qed.

Lemma str_app_assoc (s t u : string) : (s +:+ t) +:+ u = s +:+ (t +:+ u).
Proof. induction s as [|c s IH]; [done|]. by rewrite !str_cons_app, IH. Qed.

Lemma slen_app s t : slen (s +:+ t) = slen s + slen t.
Proof. unfold slen. rewrite str_length_app. lia. Qed.

Lemma slen_nonneg s : 0 ≤ slen s.
Proof. unfold slen. lia. Qed.

Lemma slen_padStart w c s : slen c = 1 → slen (padStart w c s) = Z.max w (slen s).
Proof.
  unfold slen, padStart. intros Hc.
  rewrite str_length_app, str_length_repeat. nia.
Qed.

Lemma slen_join_cons sep s t l :
  slen (join sep (s :: t :: l)) = slen s + slen sep + slen (join sep (t :: l)).
Proof.
  unfold join.
  change (String.concat sep (s :: t :: l))
    with (s +:+ (sep +:+ String.concat sep (t :: l))).
  rewrite !slen_app. lia.
Qed.

(** A line of [n] slots of the same width joined by one-character separators. *)
Lemma slen_join_const sep w l :
  l ≠ [] → Forall (λ s, slen s = w) l →
  slen (join sep l) = Z.of_nat (length l) * w + (Z.of_nat (length l) - 1) * slen sep.
Proof.
  intros Hne H. induction H as [|s l Hs H IH]; [done|].
  destruct l as [|t l]; [unfold join; simpl; lia|].
  rewrite slen_join_cons, IH, Hs by done. simpl length. lia.
Qed.

(** *** The decimal rendering of a number *)

Lemma pretty_N_go_length x s :
  String.length (pretty_N_go x s) = (String.length (pretty_N_go x "") + String.length s)%nat.
Proof.
  revert s. induction (N.lt_wf_0 x) as [x _ IH]; intros s.
  destruct (decide (x = 0)%N) as [->|Hx].
  { by rewrite !pretty_N_go_0. }
  rewrite !(pretty_N_go_step x) by lia.
  assert (x `div` 10 < x)%N by (apply N.div_lt; lia).
  rewrite (IH _ H (String _ s)), (IH _ H (String _ "")). simpl. lia.
Qed.

Lemma pretty_N_go_mono x y :
  (x ≤ y)%N → (String.length (pretty_N_go x "") ≤ String.length (pretty_N_go y ""))%nat.
Proof.
  revert x. induction (N.lt_wf_0 y) as [y _ IH]; intros x Hxy.
  destruct (decide (x = 0)%N) as [->|Hx].
  { rewrite pretty_N_go_0. simpl. lia. }
  rewrite (pretty_N_go_step x), (pretty_N_go_step y) by lia.
  rewrite (pretty_N_go_length (x `div` 10)), (pretty_N_go_length (y `div` 10)). simpl.
  apply Nat.add_le_mono_r, IH; [apply N.div_lt; lia|].
  apply N.Div0.div_le_mono. lia.
Qed.

Lemma num_str_inj : Inj (=) (=) num_str.
Proof. intros x y. unfold num_str. apply pretty_Z_inj. Qed.

Lemma num_str_length_mono x y : 0 ≤ x ≤ y → slen (num_str x) ≤ slen (num_str y).
Proof.
  intros H. unfold slen, num_str. apply inj_le.
  assert (∀ n : N, String.length (pretty n)
    = Nat.max 1 (String.length (pretty_N_go n ""))) as Hn.
  { intros n. unfold pretty, pretty_N. case_decide as E.
    - subst n. by rewrite pretty_N_go_0.
    - rewrite pretty_N_go_step by lia. rewrite pretty_N_go_length. simpl. lia. }
  assert (∀ n : Z, 0 ≤ n → pretty n = pretty (Z.to_N n)) as Hz.
  { intros [|p|p] ?; [done|done|lia]. }
  rewrite (Hz x), (Hz y), !Hn by lia.
  apply Nat.max_le_compat_l, pretty_N_go_mono. lia.
Qed.

(** ** Row-major buffers *)

Lemma mapM_total {A B} (f : A → option B) l :
  (∀ a, a ∈ l → is_Some (f a)) → is_Some (mapM f l).
Proof.
  induction l as [|a l IH]; intros Hf; simpl; [done|].
  destruct (Hf a) as [y ->]; [set_solver|].
  destruct IH as [k ->]; [set_solver|]. done.
Qed.

Lemma mapM_length {A B} (f : A → option B) l k : mapM f l = Some k → length k = length l.
Proof. rewrite mapM_Some. intros H. symmetry. by eapply Forall2_length. Qed.

Lemma mapM_lookup {A B} (f : A → option B) l k i a :
  mapM f l = Some k → l !! i = Some a → ∃ y, k !! i = Some y ∧ f a = Some y.
Proof. rewrite mapM_Some. intros H Ha. by eapply Forall2_lookup_l in H. Qed.

(** [mapM] over a range, read back through [zget]. *)
Lemma mapM_zrange_zget {B} (f : Z → option B) n k i :
  mapM f (zrange 0 n) = Some k → 0 ≤ i < n → zget k i = f i.
Proof.
  intros Hk Hi.
  destruct (mapM_lookup f _ k (Z.to_nat i) i Hk) as (y & Hy & ->).
  { apply lookup_zrange. lia. }
  apply zget_Some. split; [lia|done].
Qed.

Lemma length_concat_const {A} (ll : list (list A)) w :
  Forall (λ row, length row = w) ll → length (concat ll) = (length ll * w)%nat.
Proof.
  induction 1 as [|row ll Hrow _ IH]; [done|]. simpl. rewrite length_app, IH, Hrow. done.
Qed.

Lemma lookup_concat_const {A} (ll : list (list A)) w y x row :
  Forall (λ row, length row = w) ll → ll !! y = Some row → (x < w)%nat →
  concat ll !! (y * w + x)%nat = row !! x.
Proof.
  intros H. revert y. induction H as [|row0 ll Hrow H IH]; intros y Hy Hx; [done|].
  destruct y as [|y]; simplify_eq/=.
  - by rewrite lookup_app_l by lia.
  - rewrite lookup_app_r by lia. rewrite <- (IH y) by done. f_equal. lia.
Qed.

(** The element at row-major index [y * w + x] of the concatenated rows is the
    [x]-th element of the [y]-th row. *)
Lemma zget_concat {A} (ll : list (list A)) w y x row :
  0 ≤ x < w → Forall (λ row, Z.of_nat (length row) = w) ll →
  zget ll y = Some row → zget (concat ll) (y * w + x) = zget row x.
Proof.
  intros Hx H [Hy Hrow]%zget_Some.
  assert (∀ i, 0 ≤ i → ∀ l : list A, zget l i = l !! Z.to_nat i) as E.
  { intros i Hi l. unfold zget. by rewrite (proj2 (Z.leb_le 0 i)). }
  rewrite !E by nia.
  replace (Z.to_nat (y * w + x)) with (Z.to_nat y * Z.to_nat w + Z.to_nat x)%nat by nia.
  apply lookup_concat_const; [|done|lia].
  eapply Forall_impl; [done|]. intros l. simpl. lia.
Qed.

Lemma Forall2_impl_elem {A B} (P Q : A → B → Prop) l k :
  Forall2 P l k → (∀ x y, x ∈ l → P x y → Q x y) → Forall2 Q l k.
Proof.
  induction 1 as [|x y l k Hxy _ IH]; intros Himp; constructor.
  - apply Himp; [by constructor|done].
  - apply IH. intros x' y' Hx. apply Himp. by constructor.
Qed.
