(* ===== verification/BoardTypes.v ===== *)
(** * Data types and layout of the board recognition library

    The types of [projects/game/pkg/saolei-board/src/core/types.ts] and the
    screenshot-space layout of [geometry.ts] in the same directory.

    A union of string literals is an enumeration ([Num3] stands for the literal
    ["3"]); [status_name] gives the literal back.  Pixel coordinates, channel
    values and counts are [Z].  The two ratios of the profiles
    ([segmentOnRatio] and the means) are rationals [Q]: see [Classify] and
    [Counter] for why no decision of the code can tell them from doubles. *)

From Stdlib Require Import QArith.
From S2P Require Import Prelude.

#[local] Open Scope Z_scope.

(** ** types.ts *)

Inductive CellStatus : Type :=
| INITIAL
| Num0 | Num1 | Num2 | Num3 | Num4 | Num5 | Num6 | Num7 | Num8
| FLAG
| HIT_MINE
| MINE
| UNKNOWN.

#[global] Instance CellStatus_eq_dec : EqDecision CellStatus.
Proof. solve_decision. Defined.

Definition status_code (s : CellStatus) : nat :=
  match s with
  | INITIAL => 0 | Num0 => 1 | Num1 => 2 | Num2 => 3 | Num3 => 4 | Num4 => 5
  | Num5 => 6 | Num6 => 7 | Num7 => 8 | Num8 => 9 | FLAG => 10
  | HIT_MINE => 11 | MINE => 12 | UNKNOWN => 13
  end.

Definition status_decode (n : nat) : CellStatus :=
  match n with
  | 0 => INITIAL | 1 => Num0 | 2 => Num1 | 3 => Num2 | 4 => Num3 | 5 => Num4
  | 6 => Num5 | 7 => Num6 | 8 => Num7 | 9 => Num8 | 10 => FLAG
  | 11 => HIT_MINE | 12 => MINE | _ => UNKNOWN
  end%nat.

#[global] Instance CellStatus_countable : Countable CellStatus.
Proof.
  refine (inj_countable' status_code status_decode _). by intros [].
Defined.

(** The literal a status is in the source. *)
Definition status_name (s : CellStatus) : string :=
  match s with
  | INITIAL => "INITIAL"
  | Num0 => "0" | Num1 => "1" | Num2 => "2" | Num3 => "3" | Num4 => "4"
  | Num5 => "5" | Num6 => "6" | Num7 => "7" | Num8 => "8"
  | FLAG => "FLAG"
  | HIT_MINE => "HIT_MINE"
  | MINE => "MINE"
  | UNKNOWN => "UNKNOWN"
  end.

(** [Number(cell)] on a digit literal; the other literals are not numerals. *)
Definition status_number (s : CellStatus) : jsnum :=
  match s with
  | Num0 => JNum 0 | Num1 => JNum 1 | Num2 => JNum 2 | Num3 => JNum 3
  | Num4 => JNum 4 | Num5 => JNum 5 | Num6 => JNum 6 | Num7 => JNum 7
  | Num8 => JNum 8
  | _ => JNaN
  end.

(** [{ decoded: true; value }] or [{ decoded: false }]. *)
Inductive MineCounter : Type :=
| Decoded (value : jsnum)
| Undecoded.

(** The grid is indexed [[y][x]]; [mineCounter] is optional. *)
Record GameState : Type := mkGameState {
  width : Z;
  height : Z;
  grid : list (list CellStatus);
  mineCounter : option MineCounter;
}.

#[global] Instance MineCounter_eq_dec : EqDecision MineCounter.
Proof. solve_decision. Defined.

#[global] Instance GameState_eq_dec : EqDecision GameState.
Proof. solve_decision. Defined.

Record RGB : Type := mkRGB { r : Z; g : Z; b : Z }.

#[global] Instance RGB_eq_dec : EqDecision RGB.
Proof. solve_decision. Defined.

Record BoardGeometry : Type := mkBoardGeometry {
  originXPx : Z;
  originYPx : Z;
  cellSizePx : Z;
}.

(** [Partial<BoardGeometry>]: every field optional. *)
Record PartialGeometry : Type := mkPartialGeometry {
  p_originXPx : option Z;
  p_originYPx : option Z;
  p_cellSizePx : option Z;
}.

Record NumberRef : Type := mkNumberRef {
  ref_status : CellStatus;
  ref_color : RGB;
}.

Record ColorProfile : Type := mkColorProfile {
  background : RGB;
  glyphThreshold : Z;
  minGlyphPixels : Z;
  bevelWhiteChannelMin : Z;
  bevelWhiteMinPixels : Z;
  bevelBorderMargin : Z;
  mineBlackChannelMax : Z;
  flagRedMinR : Z;
  flagRedMaxG : Z;
  flagRedMaxB : Z;
  flagMinPixels : Z;
  numberRefs : list NumberRef;
  mineRef : RGB;
  minePixelThreshold : Z;
  redBgThreshold : Z;
}.

Inductive SegmentId : Type := seg_a | seg_b | seg_c | seg_d | seg_e | seg_f | seg_g.

#[global] Instance SegmentId_eq_dec : EqDecision SegmentId.
Proof. solve_decision. Defined.

(** The name of a segment, as the glyph keys spell it. *)
Definition segment_name (s : SegmentId) : string :=
  match s with
  | seg_a => "a" | seg_b => "b" | seg_c => "c" | seg_d => "d"
  | seg_e => "e" | seg_f => "f" | seg_g => "g"
  end.

Record SegmentCore : Type := mkCore { core_x0 : Z; core_x1 : Z; core_y0 : Z; core_y1 : Z }.

Record CounterProfile : Type := mkCounterProfile {
  regionX : Z;
  regionY : Z;
  regionW : Z;
  regionH : Z;
  cellOrigins : list (Z * Z);
  cellW : Z;
  cellH : Z;
  segments : SegmentId → SegmentCore;
  redMinR : Z;
  redMaxG : Z;
  redMaxB : Z;
  segmentOnRatio : Q;
}.

(** Options of [recognizeBoard] and of [SaoleiBoard.init]; every field is
    optional. *)
Record RecognizeOptions : Type := mkRecognizeOptions {
  opt_geometry : option PartialGeometry;
  opt_profile : option ColorProfile;
  opt_counterProfile : option CounterProfile;
  opt_width : option Z;
  opt_height : option Z;
}.

Definition no_options : RecognizeOptions := mkRecognizeOptions None None None None None.

(** ** geometry.ts *)

Definition DEFAULT_GEOMETRY : BoardGeometry := mkBoardGeometry 24 200 32.

(** [{ ...DEFAULT_GEOMETRY, ...override }]. *)
Definition resolveGeometry (override : option PartialGeometry) : BoardGeometry :=
  match override with
  | None => DEFAULT_GEOMETRY
  | Some o =>
      mkBoardGeometry
        (default (originXPx DEFAULT_GEOMETRY) (p_originXPx o))
        (default (originYPx DEFAULT_GEOMETRY) (p_originYPx o))
        (default (cellSizePx DEFAULT_GEOMETRY) (p_cellSizePx o))
  end.

(** [Math.floor(a / b)] is [Z.div] for the non-zero cell sizes in use. *)
Definition detectBoardSize (imgWidth imgHeight : Z) (geometry : BoardGeometry) : Z * Z :=
  (Z.max 1 ((imgWidth - originXPx geometry) / cellSizePx geometry),
   Z.max 1 ((imgHeight - originYPx geometry) / cellSizePx geometry)).

Definition cellOrigin (x y : Z) (geometry : BoardGeometry) : Z * Z :=
  (originXPx geometry + x * cellSizePx geometry,
   originYPx geometry + y * cellSizePx geometry).

(** ** Well-formed states

    What the interface promises of a [GameState] and every producer establishes:
    [height] rows of [width] cells. *)
Definition state_wf (s : GameState) : Prop :=
  0 ≤ width s ∧ 0 ≤ height s ∧
  Z.of_nat (length (grid s)) = height s ∧
  Forall (λ row, Z.of_nat (length row) = width s) (grid s).

Definition state_wfb (s : GameState) : bool :=
  (0 <=? width s) && (0 <=? height s) &&
  (Z.of_nat (length (grid s)) =? height s) &&
  forallb (λ row, Z.of_nat (length row) =? width s) (grid s).

(** [state.grid[y][x]]: [None] when the row or the cell is missing. *)
Definition cell_at (s : GameState) (x y : Z) : option CellStatus :=
  row ← zget (grid s) y; zget row x.

(** Every cell of the grid, row by row: the cells [for (const row of state.grid)
    for (const cell of row)] visits. *)
Definition all_cells (s : GameState) : list CellStatus := concat (grid s).

(** ** Lemmas *)

Lemma state_wfb_correct s : state_wfb s = true ↔ state_wf s.
Proof.
  unfold state_wfb, state_wf.
  rewrite !andb_true_iff, !Z.leb_le, Z.eqb_eq, List.forallb_forall, Forall_forall.
  setoid_rewrite <- list_elem_of_In. setoid_rewrite Z.eqb_eq. tauto.
Qed.

#[global] Instance state_wf_dec s : Decision (state_wf s).
Proof.
  refine (match state_wfb s as b return state_wfb s = b → _ with
          | true => λ H, left (proj1 (state_wfb_correct s) H)
          | false => λ H, right _
          end eq_refl).
  intros Hwf%state_wfb_correct. congruence.
Defined.

(** Inside the board every cell exists. *)
Lemma cell_at_Some s x y :
  state_wf s → 0 ≤ x < width s → 0 ≤ y < height s → is_Some (cell_at s x y).
Proof.
  intros (_ & _ & Hh & Hrows) Hx Hy. unfold cell_at.
  destruct (proj2 (zget_range (grid s) y)) as [row Hrow]; [lia|].
  rewrite Hrow. simpl. apply zget_range.
  rewrite Forall_forall in Hrows. rewrite (Hrows row); [lia|].
  by eapply zget_elem_of.
Qed.

Lemma cell_at_elem s x y c : cell_at s x y = Some c → c ∈ all_cells s.
Proof.
  unfold cell_at, all_cells. intros H.
  destruct (zget (grid s) y) as [row|] eqn:Hrow; simplify_eq/=.
  apply list_elem_of_In, in_concat. exists row.
  split; apply list_elem_of_In; by eapply zget_elem_of.
Qed.

(** Every visited cell has coordinates inside the board. *)
Lemma all_cells_cell_at s c :
  state_wf s → c ∈ all_cells s →
  ∃ x y, 0 ≤ x < width s ∧ 0 ≤ y < height s ∧ cell_at s x y = Some c.
Proof.
  intros (_ & _ & Hh & Hrows) Hc. unfold all_cells in Hc.
  apply list_elem_of_In, in_concat in Hc as (row & Hrow & Hc).
  apply list_elem_of_In, list_elem_of_lookup in Hrow as [iy Hiy].
  apply list_elem_of_In, list_elem_of_lookup in Hc as [ix Hix].
  pose proof (lookup_lt_Some _ _ _ Hiy). pose proof (lookup_lt_Some _ _ _ Hix).
  rewrite Forall_lookup in Hrows. pose proof (Hrows _ _ Hiy) as Hw. simpl in Hw.
  exists (Z.of_nat ix), (Z.of_nat iy). split; [lia|]. split; [lia|].
  assert (zget (grid s) (Z.of_nat iy) = Some row) as E.
  { apply zget_Some. rewrite Nat2Z.id. split; [lia|done]. }
  unfold cell_at. rewrite E. simpl.
  apply zget_Some. rewrite Nat2Z.id. split; [lia|done].
Qed.

#[export] Hint Resolve cell_at_Some : js.
