(* ===== verification/Image.v ===== *)
(** * Decoded images and raw pixel access

    [projects/game/pkg/saolei-board/src/core/decode.ts].  The PNG decoder
    ([pngjs]) is not part of the repository: it is the parameter
    [png_sync_read], which answers [None] on bytes it rejects (it throws). *)

From S2P Require Import Prelude BoardTypes.

Record DecodedImage : Type := mkImage {
  img_width : Z;
  img_height : Z;
  img_data : list Z;
}.

(** A [Buffer]: the bytes of an encoded screenshot. *)
Definition png_bytes : Type := list Z.

(** The third-party decoder, [PNG.sync.read]. *)
Class PngDecoder : Type := {
  png_sync_read : png_bytes → option DecodedImage;
}.

Definition decodePng `{PngDecoder} (bytes : png_bytes) : option DecodedImage :=
  png ← png_sync_read bytes;
  Some (mkImage (img_width png) (img_height png) (img_data png)).

(** [(width * y + x) << 2]: the shift works on 32-bit signed integers. *)
Definition pixelIndex (width x y : Z) : Z :=
  to_int32 (Z.shiftl (to_int32 (width * y + x)) 2).

(** [data[i]], [data[i+1]], [data[i+2]]; [None] when an index names no byte (the
    channels would be [undefined]). *)
Definition getRGB (data : list Z) (width x y : Z) : option RGB :=
  let i := pixelIndex width x y in
  r ← zget data i;
  g ← zget data (i + 1);
  b ← zget data (i + 2);
  Some (mkRGB r g b).

Definition black : RGB := mkRGB 0 0 0.

Definition extractCellRegion (img : DecodedImage) (originX originY cellSize : Z)
    : option (list RGB * Z * Z) :=
  rows ← mapM (λ dy,
    let py := originY + dy in
    if (py <? 0) || (img_height img <=? py) then
      Some (map (λ _, black) (zrange 0 cellSize))
    else
      mapM (λ dx,
        let px := originX + dx in
        if (px <? 0) || (img_width img <=? px) then Some black
        else getRGB (img_data img) (img_width img) px py)
        (zrange 0 cellSize))
    (zrange 0 cellSize);
  Some (concat rows, cellSize, cellSize).

(** ** Well-formed images

    The [DecodedImage] contract: RGBA bytes, [length = width * height * 4]; and
    the size limit below which the 32-bit pixel index does not wrap. *)
Definition image_wf (img : DecodedImage) : Prop :=
  0 ≤ img_width img ∧ 0 ≤ img_height img ∧
  Z.of_nat (length (img_data img)) = img_width img * img_height img * 4 ∧
  Forall (λ v, 0 ≤ v < 256) (img_data img).

Definition image_addressable (img : DecodedImage) : Prop :=
  img_width img * img_height img * 4 ≤ 2 ^ 31.

(** The pixel an image shows at [(px, py)]: black outside it. *)
Definition pixel_or_black (img : DecodedImage) (px py : Z) : option RGB :=
  if (0 <=? px) && (px <? img_width img) && (0 <=? py) && (py <? img_height img)
  then getRGB (img_data img) (img_width img) px py
  else Some black.

(** ** Lemmas *)

(** No wrap-around below 2^31 bytes. *)
Lemma pixelIndex_nowrap w h x y :
  0 ≤ x < w → 0 ≤ y < h → w * h * 4 ≤ 2 ^ 31 →
  pixelIndex w x y = 4 * (w * y + x) ∧ 4 * (w * y + x) + 4 ≤ w * h * 4.
Proof.
  intros Hx Hy Hsz. assert (0 ≤ w * y + x ∧ w * y + x + 1 ≤ w * h) as [? ?] by nia.
  unfold pixelIndex. rewrite (to_int32_small (w * y + x)) by lia.
  rewrite Z.shiftl_mul_pow2 by lia. rewrite to_int32_small; lia.
Qed.

Lemma getRGB_in_range img x y :
  image_wf img → image_addressable img →
  0 ≤ x < img_width img → 0 ≤ y < img_height img →
  ∃ p, getRGB (img_data img) (img_width img) x y = Some p ∧
       0 ≤ r p < 256 ∧ 0 ≤ g p < 256 ∧ 0 ≤ b p < 256.
Proof.
  intros (_ & _ & Hlen & Hbytes) Hsz Hx Hy. unfold getRGB.
  destruct (pixelIndex_nowrap _ _ _ _ Hx Hy Hsz) as [-> Hin].
  set (i := 4 * (img_width img * y + x)) in *.
  assert (0 ≤ i) by (unfold i; nia).
  assert (∀ j, i ≤ j < i + 4 → ∃ v, zget (img_data img) j = Some v ∧ 0 ≤ v < 256) as Hget.
  { intros j Hj. destruct (proj2 (zget_range (img_data img) j)) as [v Hv]; [lia|].
    exists v. split; [done|]. rewrite Forall_forall in Hbytes.
    apply Hbytes. by eapply zget_elem_of. }
  destruct (Hget i) as (vr & -> & ?); [lia|].
  destruct (Hget (i + 1)) as (vg & -> & ?); [lia|].
  destruct (Hget (i + 2)) as (vb & -> & ?); [lia|].
  by exists (mkRGB vr vg vb).
Qed.

Lemma pixel_or_black_total img px py :
  image_wf img → image_addressable img → is_Some (pixel_or_black img px py).
Proof.
  intros Hwf Hsz. unfold pixel_or_black. case_match eqn:E; [|done]. to_prop.
  destruct (getRGB_in_range img px py) as (p & -> & _); [done|done|lia|lia|done].
Qed.

(** One row of the extracted region. *)
Lemma extract_row_spec img originX py cellSize row :
  (if (py <? 0) || (img_height img <=? py) then
     Some (map (λ _, black) (zrange 0 cellSize))
   else
     mapM (λ dx,
       let px := originX + dx in
       if (px <? 0) || (img_width img <=? px) then Some black
       else getRGB (img_data img) (img_width img) px py)
       (zrange 0 cellSize)) = Some row →
  length row = Z.to_nat cellSize ∧
  ∀ dx, 0 ≤ dx < cellSize → zget row dx = pixel_or_black img (originX + dx) py.
Proof.
  unfold pixel_or_black. case_match eqn:Hy; intros Hrow.
  - simplify_eq. split; [by rewrite length_map, length_zrange, Z.sub_0_r|].
    intros dx Hdx.
    replace (_ && _ && _ && _) with false by (apply orb_true_iff in Hy; lia).
    apply zget_Some. split; [lia|]. rewrite list_lookup_fmap.
    rewrite (proj2 (lookup_zrange 0 cellSize (Z.to_nat dx) dx)); [done|lia].
  - to_prop. split.
    { apply mapM_length in Hrow. by rewrite Hrow, length_zrange, Z.sub_0_r. }
    intros dx Hdx. rewrite (mapM_zrange_zget _ _ _ _ Hrow Hdx).
    destruct (Z.ltb_spec (originX + dx) 0), (Z.leb_spec (img_width img) (originX + dx)); simpl;
      case_match eqn:E; try done; lia.
Qed.

(** On a well-formed addressable image no read leaves the buffer. *)
Lemma extract_total img originX originY cellSize :
  image_wf img → image_addressable img →
  is_Some (extractCellRegion img originX originY cellSize).
Proof.
  intros Hwf Hsz. unfold extractCellRegion.
  match goal with |- context [mapM ?f ?l] => destruct (mapM_total f l) as [rows ->] end;
    [|done].
  intros dy _. case_match eqn:Hy; [done|].
  apply mapM_total. intros dx _. simpl. case_match eqn:Hx; [done|]. to_prop.
  destruct (getRGB_in_range img (originX + dx) (originY + dy)) as (p & -> & _);
    [done|done|lia|lia|done].
Qed.

Lemma extract_inv img originX originY cellSize pixels w h :
  extractCellRegion img originX originY cellSize = Some (pixels, w, h) →
  w = cellSize ∧ h = cellSize ∧ length pixels = (Z.to_nat cellSize * Z.to_nat cellSize)%nat ∧
  ∀ dx dy, 0 ≤ dx < cellSize → 0 ≤ dy < cellSize →
    zget pixels (dy * cellSize + dx) = pixel_or_black img (originX + dx) (originY + dy).
Proof.
  unfold extractCellRegion. intros Hex.
  destruct (mapM _ _) as [rows|] eqn:Hrows; simplify_eq/=.
  assert (Forall (λ row, Z.of_nat (length row) = w) rows ∨ w < 0) as Hlen.
  { destruct (Z.ltb_spec w 0) as [|Hw]; [by right|left].
    apply mapM_Some in Hrows. apply Forall_forall. intros row Hrow.
    apply list_elem_of_lookup in Hrow as [i Hi].
    destruct (Forall2_lookup_r _ _ _ _ _ Hrows Hi) as (dy & Hdy & Hf).
    apply extract_row_spec in Hf as [-> _]. lia. }
  pose proof (mapM_length _ _ _ Hrows) as Hn. rewrite length_zrange, Z.sub_0_r in Hn.
  split_and!; [done|done| |].
  - destruct Hlen as [Hlen|Hneg].
    + rewrite (length_concat_const rows (Z.to_nat w)), Hn; [done|].
      eapply Forall_impl; [done|]. simpl. lia.
    + replace (Z.to_nat w) with 0%nat in * by lia.
      by apply nil_length_inv in Hn as ->.
  - intros dx dy Hdx Hdy. destruct Hlen as [Hlen|]; [|lia].
    destruct (proj2 (zget_range rows dy)) as [row Hrow]; [lia|].
    rewrite (zget_concat rows w dy dx row) by done.
    rewrite (mapM_zrange_zget _ _ _ _ Hrows Hdy) in Hrow.
    by apply extract_row_spec in Hrow as [_ ->].
Qed.

#[export] Hint Resolve extract_total pixel_or_black_total : js.

(** ** Properties *)

(** Extracting a cell region from a well-formed image whose buffer is below
    2^31 bytes reads no byte outside the buffer, returns exactly
    [cellSize * cellSize] pixels, and puts at row-major index
    [dy * cellSize + dx] the image's pixel at [(originX + dx, originY + dy)], or
    black where the region leaves the image. *)
Theorem extractCellRegion_spec img originX originY cellSize :
  image_wf img → image_addressable img →
  ∃ pixels, extractCellRegion img originX originY cellSize = Some (pixels, cellSize, cellSize) ∧
    length pixels = (Z.to_nat cellSize * Z.to_nat cellSize)%nat ∧
    ∀ dx dy, 0 ≤ dx < cellSize → 0 ≤ dy < cellSize →
      ∃ p, zget pixels (dy * cellSize + dx) = Some p ∧
           pixel_or_black img (originX + dx) (originY + dy) = Some p.
Proof.
  intros Hwf Hsz. destruct (extract_total img originX originY cellSize) as [[[pixels w] h] Hex];
    [done|done|].
  apply extract_inv in Hex as Hinv. destruct Hinv as (-> & -> & Hlen & Hget).
  exists pixels. split_and!; [done|done|]. intros dx dy Hdx Hdy.
  destruct (pixel_or_black_total img (originX + dx) (originY + dy)) as [p Hp]; [done|done|].
  exists p. by rewrite Hget, Hp.
Qed.

(** A 2x2 image, read at a 3x3 region that overhangs it. *)
Definition sample_image : DecodedImage :=
  mkImage 2 2 [10; 20; 30; 255; 40; 50; 60; 255; 70; 80; 90; 255; 100; 110; 120; 255].

Lemma extractCellRegion_spec_witness :
  image_wf sample_image ∧ image_addressable sample_image ∧
  ∃ pixels, extractCellRegion sample_image 1 1 2 = Some (pixels, 2, 2) ∧
    length pixels = (Z.to_nat 2 * Z.to_nat 2)%nat ∧
    ∀ dx dy, 0 ≤ dx < 2 → 0 ≤ dy < 2 →
      ∃ p, zget pixels (dy * 2 + dx) = Some p ∧
           pixel_or_black sample_image (1 + dx) (1 + dy) = Some p.
Proof.
  assert (image_wf sample_image) as Hwf.
  { unfold image_wf, sample_image. simpl. split_and!; try lia.
    repeat (apply Forall_cons; split; [lia|]). by apply Forall_nil. }
  assert (image_addressable sample_image) as Hsz.
  { unfold image_addressable, sample_image. simpl. lia. }
  split; [exact Hwf|]. split; [exact Hsz|].
  exact (extractCellRegion_spec sample_image 1 1 2 Hwf Hsz).
Defined.

(** Beyond the limit the index wraps: the same formula goes negative. *)
Example pixelIndex_wraps : pixelIndex 30000 0 17896 = -2147447296.
Proof. reflexivity. Qed.
