(* ===== verification/Classify.v ===== *)
(** * Single-cell classification

    [projects/game/pkg/saolei-board/src/core/classify.ts].

    Channel values, counts and thresholds are integers.  The two quotients of
    the code are kept as exact rationals: the mean colour (diagnostics only) and
    the border redness, whose sum of half-integers is kept doubled.  The only
    decision taken on them compares [sum / n] with an integer threshold; the
    sum is exact in a double and rounding is monotone, so the comparison on
    rationals has the answer of the comparison on doubles.  The square root of
    the glyph test is compared with an integer threshold and is replaced by the
    comparison of the squares. *)

From Stdlib Require Import QArith.
From S2P Require Import Prelude BoardTypes.

#[local] Open Scope Z_scope.

Definition DEFAULT_COLOR_PROFILE : ColorProfile := {|
  background := mkRGB 192 192 192;
  glyphThreshold := 40;
  minGlyphPixels := 8;
  bevelWhiteChannelMin := 240;
  bevelWhiteMinPixels := 8;
  bevelBorderMargin := 4;
  mineBlackChannelMax := 60;
  flagRedMinR := 150;
  flagRedMaxG := 100;
  flagRedMaxB := 100;
  flagMinPixels := 5;
  numberRefs := [
    mkNumberRef Num1 (mkRGB 0 0 255);
    mkNumberRef Num2 (mkRGB 0 128 0);
    mkNumberRef Num3 (mkRGB 255 0 0);
    mkNumberRef Num4 (mkRGB 0 0 128);
    mkNumberRef Num5 (mkRGB 128 0 0);
    mkNumberRef Num6 (mkRGB 0 128 128);
    mkNumberRef Num7 (mkRGB 0 0 0);
    mkNumberRef Num8 (mkRGB 128 128 128)
  ];
  mineRef := mkRGB 0 0 0;
  minePixelThreshold := 80;
  redBgThreshold := 120;
|}.

Definition distSq (p q : RGB) : Z :=
  let dr := r p - r q in
  let dg := g p - g q in
  let db := b p - b q in
  dr * dr + dg * dg + db * db.

(** [Math.sqrt(d) > t] for an integer [d >= 0]. *)
Definition sqrt_gt (d t : Z) : bool := if t <? 0 then true else t * t <? d.

Definition idx (cx cy w : Z) : Z := cy * w + cx.

(** [sum / n] for a count [n > 0]. *)
Definition ratio (sum n : Z) : Q := sum # Z.to_pos n.

Definition regionMean (pixels : list RGB) (w h x0 y0 x1 y1 : Z) : option (Q * Q * Q) :=
  '(sr, sg, sb, n) ← foldM (λ '(sr, sg, sb, n) '(cx, cy),
    if (cx <? 0) || (w <=? cx) || (cy <? 0) || (h <=? cy) then Some (sr, sg, sb, n)
    else
      p ← zget pixels (idx cx cy w);
      Some (sr + r p, sg + g p, sb + b p, n + 1))
    (0, 0, 0, 0) (coords x0 x1 y0 y1);
  Some (if n =? 0 then (0%Q, 0%Q, 0%Q) else (ratio sr n, ratio sg n, ratio sb n)).

Record Region : Type := mkRegion { reg_x0 : Z; reg_y0 : Z; reg_x1 : Z; reg_y1 : Z }.

Definition centerRegion (w h : Z) : Region :=
  let margin := Z.min w h / 4 in
  mkRegion margin margin (w - margin) (h - margin).

Definition center_coords (c : Region) : list (Z * Z) :=
  coords (reg_x0 c) (reg_x1 c) (reg_y0 c) (reg_y1 c).

Definition in_center (c : Region) (cx cy : Z) : bool :=
  (reg_x0 c <=? cx) && (cx <? reg_x1 c) && (reg_y0 c <=? cy) && (cy <? reg_y1 c).

(** The sum of [p.r - (p.g + p.b) / 2], doubled, over the count. *)
Definition borderRedness (pixels : list RGB) (w h : Z) (center : Region) : option Q :=
  '(sum2, n) ← foldM (λ '(sum2, n) '(cx, cy),
    if in_center center cx cy then Some (sum2, n)
    else
      p ← zget pixels (idx cx cy w);
      Some (sum2 + (2 * r p - (g p + b p)), n + 1))
    (0, 0) (coords 0 w 0 h);
  Some (if 0 <? n then ratio sum2 (2 * n) else 0%Q).

Record CellClassifyDiagnostics : Type := mkDiagnostics {
  d_centerMean : Q * Q * Q;
  d_beveled : bool;
  d_glyphPixels : Z;
  d_blackPixels : Z;
  d_redPixels : Z;
  d_winnerRef : option string;
  d_bgRedness : Q;
}.

(** The pixel tests of the three scans. *)
Definition is_white (pr : ColorProfile) (p : RGB) : bool :=
  let wmin := bevelWhiteChannelMin pr in
  (wmin <=? r p) && (wmin <=? g p) && (wmin <=? b p).

Definition in_border (bm w h cx cy : Z) : bool :=
  (cx <? bm) || (w - bm <=? cx) || (cy <? bm) || (h - bm <=? cy).

Definition is_red (pr : ColorProfile) (p : RGB) : bool :=
  (flagRedMinR pr <=? r p) && (g p <=? flagRedMaxG pr) && (b p <=? flagRedMaxB pr).

Definition is_black (pr : ColorProfile) (p : RGB) : bool :=
  let bmax := mineBlackChannelMax pr in
  (r p <=? bmax) && (g p <=? bmax) && (b p <=? bmax).

Definition is_glyph (pr : ColorProfile) (p : RGB) : bool :=
  sqrt_gt (distSq p (background pr)) (glyphThreshold pr).

(** [d < nearestD] where [nearestD] starts at [Infinity] ([None]). *)
Definition closer (d : Z) (nearestD : option Z) : bool :=
  match nearestD with None => true | Some nd => d <? nd end.

(** One iteration of the nearest-reference scan. *)
Definition nearest_step (p : RGB) (acc : NumberRef * option Z) (ref : NumberRef)
    : NumberRef * option Z :=
  let '(nearest, nearestD) := acc in
  let d := distSq p (ref_color ref) in
  if closer d nearestD then (ref, Some d) else (nearest, nearestD).

(** The nearest reference of one glyph pixel; [None]: no reference at all, on
    which [nearest.status] throws. *)
Definition nearest_ref (refs : list NumberRef) (p : RGB) : option NumberRef :=
  match refs with
  | [] => None
  | ref0 :: _ =>
      Some (fst (fold_left (nearest_step p) refs (ref0, None)))
  end.

Record VoteState : Type := mkVotes {
  votes : gmap CellStatus Z;
  bestStatus : CellStatus;
  bestVotes : Z;
}.

Definition vote (refs : list NumberRef) (v : VoteState) (p : RGB) : option VoteState :=
  nearest ← nearest_ref refs p;
  let k := ref_status nearest in
  let n := default 0 (votes v !! k) + 1 in
  let votes' := <[k := n]> (votes v) in
  Some (if bestVotes v <? n then mkVotes votes' k n
        else mkVotes votes' (bestStatus v) (bestVotes v)).

Definition vote_all (refs : list NumberRef) (glyphs : list RGB) : option VoteState :=
  foldM (vote refs) (mkVotes ∅ UNKNOWN (-1)) glyphs.

Definition classifyCell (pixels : list RGB) (width height : Z) (profile : ColorProfile)
    : option (CellStatus * CellClassifyDiagnostics) :=
  let center := centerRegion width height in
  centerMean ← regionMean pixels width height
    (reg_x0 center) (reg_y0 center) (reg_x1 center) (reg_y1 center);
  (* bevel test: white pixels of the border ring *)
  whitePixels ← countM (λ '(cx, cy),
    if in_border (bevelBorderMargin profile) width height cx cy
    then p ← zget pixels (idx cx cy width); Some (is_white profile p)
    else Some false) (coords 0 width 0 height);
  let beveled := bevelWhiteMinPixels profile <=? whitePixels in
  (* flag glyph: red pixels of the centre *)
  redPixels ← countM (λ '(cx, cy),
    p ← zget pixels (idx cx cy width); Some (is_red profile p)) (center_coords center);
  if beveled then
    Some (if flagMinPixels profile <=? redPixels then FLAG else INITIAL,
          mkDiagnostics centerMean beveled 0 0 redPixels None 0%Q)
  else
    (* one scan of the centre: glyph pixels and near-black pixels *)
    '(blackPixels, glyphPixels) ← foldM (λ '(black, glyphs) '(cx, cy),
      p ← zget pixels (idx cx cy width);
      Some (if is_black profile p then black + 1 else black,
            if is_glyph profile p then glyphs ++ [p] else glyphs))
      (0, []) (center_coords center);
    bgRedness ← borderRedness pixels width height center;
    let glyphCount := Z.of_nat (length glyphPixels) in
    if minePixelThreshold profile <=? blackPixels then
      Some (if Qle_bool (inject_Z (redBgThreshold profile)) bgRedness then HIT_MINE else MINE,
            mkDiagnostics centerMean beveled glyphCount blackPixels redPixels
              (Some "__MINE__"%string) bgRedness)
    else if glyphCount <? minGlyphPixels profile then
      Some (Num0, mkDiagnostics centerMean beveled glyphCount blackPixels redPixels
              None bgRedness)
    else
      v ← vote_all (numberRefs profile) glyphPixels;
      Some (bestStatus v,
            mkDiagnostics centerMean beveled glyphCount blackPixels redPixels
              (Some (status_name (bestStatus v))) bgRedness).

(** ** Specification

    The classifier as a decision table over four counts of the pixel buffer, the
    border redness and the plurality vote of the glyph pixels. *)

Definition buffer_wf (pixels : list RGB) (w h : Z) : Prop :=
  0 ≤ w ∧ 0 ≤ h ∧ Z.of_nat (length pixels) = w * h.

(** The pixel at [(cx, cy)] of a buffer (black when there is none). *)
Definition pixel (pixels : list RGB) (w : Z) (c : Z * Z) : RGB :=
  default (mkRGB 0 0 0) (zget pixels (idx (c.1) (c.2) w)).

Definition white_count (pr : ColorProfile) (pixels : list RGB) (w h : Z) : Z :=
  countb (λ c, in_border (bevelBorderMargin pr) w h (c.1) (c.2) && is_white pr (pixel pixels w c))
    (coords 0 w 0 h).

Definition center_pixels (pixels : list RGB) (w h : Z) : list RGB :=
  map (pixel pixels w) (center_coords (centerRegion w h)).

Definition border_pixels (pixels : list RGB) (w h : Z) : list RGB :=
  map (pixel pixels w)
    (List.filter (λ c, negb (in_center (centerRegion w h) (c.1) (c.2))) (coords 0 w 0 h)).

Definition glyphs_of (pr : ColorProfile) (pixels : list RGB) (w h : Z) : list RGB :=
  List.filter (is_glyph pr) (center_pixels pixels w h).

(** Twice the redness of a pixel: [2R - (G + B)]. *)
Definition redness2 (p : RGB) : Z := 2 * r p - (g p + b p).

Definition redness (ps : list RGB) : Q :=
  match ps with
  | [] => 0%Q
  | _ => ratio (foldr Z.add 0 (map redness2 ps)) (2 * Z.of_nat (length ps))
  end.

(** [ref] is nearest to [p] among [refs]. *)
Definition nearest_to (refs : list NumberRef) (p : RGB) (ref : NumberRef) : Prop :=
  ref ∈ refs ∧ ∀ ref', ref' ∈ refs → distSq p (ref_color ref) ≤ distSq p (ref_color ref').

(** The votes a status gets: the pixels whose nearest reference carries it. *)
Definition votes_for (refs : list NumberRef) (glyphs : list RGB) (s : CellStatus) : Z :=
  countb (λ p, match nearest_ref refs p with
               | Some ref => bool_decide (ref_status ref = s)
               | None => false
               end) glyphs.

Definition plurality (refs : list NumberRef) (glyphs : list RGB) (s : CellStatus) : Prop :=
  0 < votes_for refs glyphs s ∧ ∀ s', votes_for refs glyphs s' ≤ votes_for refs glyphs s.

Inductive classified (pr : ColorProfile) (pixels : list RGB) (w h : Z) : CellStatus → Prop :=
| cl_flag :
    bevelWhiteMinPixels pr ≤ white_count pr pixels w h →
    flagMinPixels pr ≤ countb (is_red pr) (center_pixels pixels w h) →
    classified pr pixels w h FLAG
| cl_initial :
    bevelWhiteMinPixels pr ≤ white_count pr pixels w h →
    countb (is_red pr) (center_pixels pixels w h) < flagMinPixels pr →
    classified pr pixels w h INITIAL
| cl_hit_mine :
    white_count pr pixels w h < bevelWhiteMinPixels pr →
    minePixelThreshold pr ≤ countb (is_black pr) (center_pixels pixels w h) →
    (inject_Z (redBgThreshold pr) <= redness (border_pixels pixels w h))%Q →
    classified pr pixels w h HIT_MINE
| cl_mine :
    white_count pr pixels w h < bevelWhiteMinPixels pr →
    minePixelThreshold pr ≤ countb (is_black pr) (center_pixels pixels w h) →
    (redness (border_pixels pixels w h) < inject_Z (redBgThreshold pr))%Q →
    classified pr pixels w h MINE
| cl_blank :
    white_count pr pixels w h < bevelWhiteMinPixels pr →
    countb (is_black pr) (center_pixels pixels w h) < minePixelThreshold pr →
    Z.of_nat (length (glyphs_of pr pixels w h)) < minGlyphPixels pr →
    classified pr pixels w h Num0
| cl_number s :
    white_count pr pixels w h < bevelWhiteMinPixels pr →
    countb (is_black pr) (center_pixels pixels w h) < minePixelThreshold pr →
    minGlyphPixels pr ≤ Z.of_nat (length (glyphs_of pr pixels w h)) →
    plurality (numberRefs pr) (glyphs_of pr pixels w h) s →
    classified pr pixels w h s.

(** ** Lemmas *)

Lemma pixel_read pixels w h cx cy :
  buffer_wf pixels w h → 0 ≤ cx < w → 0 ≤ cy < h →
  zget pixels (idx cx cy w) = Some (pixel pixels w (cx, cy)).
Proof.
  intros (_ & _ & Hlen) Hx Hy. unfold pixel. simpl.
  destruct (proj2 (zget_range pixels (idx cx cy w))) as [p ->]; [unfold idx; nia|done].
Qed.

Lemma center_inside w h c :
  0 ≤ w → 0 ≤ h → c ∈ center_coords (centerRegion w h) → c ∈ coords 0 w 0 h.
Proof.
  intros Hw Hh. destruct c as [x y]. unfold center_coords, centerRegion. simpl.
  rewrite !elem_of_coords. assert (0 ≤ Z.min w h / 4) by (apply Z.div_pos; lia). lia.
Qed.

Lemma center_read pixels w h cx cy :
  buffer_wf pixels w h → (cx, cy) ∈ center_coords (centerRegion w h) →
  zget pixels (idx cx cy w) = Some (pixel pixels w (cx, cy)).
Proof.
  intros Hwf Hc. destruct (Hwf) as (? & ? & _).
  apply center_inside, elem_of_coords in Hc as [? ?]; [|done|done]. by eapply pixel_read.
Qed.

Lemma regionMean_total pixels w h x0 y0 x1 y1 :
  buffer_wf pixels w h → is_Some (regionMean pixels w h x0 y0 x1 y1).
Proof.
  intros Hwf. unfold regionMean.
  match goal with |- context [foldM ?f ?s ?l] =>
    destruct (foldM_total f s l) as [[[[sr sg] sb] n] ->] end; [|done].
  intros [[[sr sg] sb] n] [cx cy] _. case_match eqn:E; [done|]. to_prop.
  rewrite (pixel_read pixels w h) by (done || lia). done.
Qed.

(** Folding two accumulators at once. *)
Lemma fold_pair_count_filter {A} (p q : A → bool) (l : list A) n acc :
  fold_left (λ '(n, acc) a, (if p a then n + 1 else n, if q a then acc ++ [a] else acc)) l (n, acc)
  = (n + countb p l, acc ++ List.filter q l).
Proof.
  revert n acc. induction l as [|a l IH]; intros n acc; simpl.
  - unfold countb. simpl. by rewrite Z.add_0_r, app_nil_r.
  - rewrite IH. unfold countb. simpl.
    destruct (p a), (q a); simpl; rewrite ?length_cons, <- ?app_assoc; simpl;
      f_equal; lia.
Qed.

Lemma center_scan pr pixels w h :
  buffer_wf pixels w h →
  foldM (λ '(black, glyphs) '(cx, cy),
      p ← zget pixels (idx cx cy w);
      Some (if is_black pr p then black + 1 else black,
            if is_glyph pr p then glyphs ++ [p] else glyphs))
    (0, []) (center_coords (centerRegion w h))
  = Some (countb (is_black pr) (center_pixels pixels w h), glyphs_of pr pixels w h).
Proof.
  intros Hwf.
  rewrite (foldM_pure _ (λ '(n, acc) c,
    (if is_black pr (pixel pixels w c) then n + 1 else n,
     if is_glyph pr (pixel pixels w c) then acc ++ [pixel pixels w c] else acc))).
  - f_equal. unfold glyphs_of, center_pixels.
    assert (∀ (l : list (Z * Z)) (s : Z * list RGB),
      fold_left (λ '(n, acc) c,
        (if is_black pr (pixel pixels w c) then n + 1 else n,
         if is_glyph pr (pixel pixels w c) then acc ++ [pixel pixels w c] else acc)) l s =
      fold_left (λ '(n, acc) a, (if is_black pr a then n + 1 else n,
         if is_glyph pr a then acc ++ [a] else acc)) (map (pixel pixels w) l) s) as E.
    { induction l as [|c l IH]; intros [n acc]; [done|]. simpl. apply IH. }
    by rewrite E, fold_pair_count_filter.
  - intros [n acc] [cx cy] Hc. by rewrite (center_read pixels w h) by done.
Qed.

Lemma borderRedness_eq pixels w h :
  buffer_wf pixels w h →
  borderRedness pixels w h (centerRegion w h) = Some (redness (border_pixels pixels w h)).
Proof.
  intros Hwf. unfold borderRedness.
  rewrite (foldM_pure _ (λ '(s2, n) c,
    if in_center (centerRegion w h) (c.1) (c.2) then (s2, n)
    else (s2 + redness2 (pixel pixels w c), n + 1))).
  - assert (∀ l s2 n,
      fold_left (λ '(s2, n) (c : Z * Z), if in_center (centerRegion w h) (c.1) (c.2) then (s2, n)
        else (s2 + redness2 (pixel pixels w c), n + 1)) l (s2, n)
      = let ps := map (pixel pixels w)
          (List.filter (λ c : Z * Z, negb (in_center (centerRegion w h) (c.1) (c.2))) l) in
        (s2 + foldr Z.add 0 (map redness2 ps), n + Z.of_nat (length ps))) as E.
    { induction l as [|c l IH]; intros s2 n; simpl; [f_equal; lia|].
      destruct (in_center _ _ _); simpl; rewrite IH; simpl; f_equal; lia. }
    rewrite E. fold (border_pixels pixels w h). simpl.
    unfold redness. destruct (border_pixels pixels w h) as [|p ps]; [done|].
    rewrite (proj2 (Z.ltb_lt 0 _)) by (simpl; lia). f_equal.
  - intros [s2 n] [cx cy] Hc. simpl. destruct (in_center _ _ _); [done|].
    rewrite elem_of_coords in Hc. by rewrite (pixel_read pixels w h) by (done || lia).
Qed.

(** Once a reference has been met, the running distance is its distance and the
    scan keeps the minimum. *)
Lemma nearest_scan p l n0 :
  ∃ n, fold_left (nearest_step p) l (n0, Some (distSq p (ref_color n0)))
         = (n, Some (distSq p (ref_color n))) ∧
       nearest_to (n0 :: l) p n.
Proof.
  revert n0. induction l as [|a l IH]; intros n0; simpl.
  - exists n0. split; [done|]. split; [set_solver|].
    intros ref' ->%list_elem_of_singleton. done.
  - destruct (Z.ltb_spec (distSq p (ref_color a)) (distSq p (ref_color n0))) as [Hlt|Hge].
    + destruct (IH a) as (n & -> & Hin & Hmin). exists n. split; [done|].
      split; [set_solver|]. intros ref' [->|Hr]%elem_of_cons; [|by apply Hmin].
      specialize (Hmin a ltac:(set_solver)). lia.
    + destruct (IH n0) as (n & -> & Hin & Hmin). exists n. split; [done|].
      split; [set_solver|].
      intros ref' [->|[->|Hr]%elem_of_cons]%elem_of_cons; [apply Hmin; set_solver| |].
      * specialize (Hmin n0 ltac:(set_solver)). lia.
      * apply Hmin. set_solver.
Qed.

Lemma nearest_ref_spec refs p ref : nearest_ref refs p = Some ref → nearest_to refs p ref.
Proof.
  unfold nearest_ref. destruct refs as [|ref0 refs]; [done|]. intros [= <-].
  destruct (nearest_scan p refs ref0) as (n & Hn & Hnear).
  simpl. by rewrite Hn.
Qed.

Lemma nearest_ref_total refs p : refs ≠ [] → is_Some (nearest_ref refs p).
Proof. by destruct refs. Qed.

(** The state of the vote after the glyphs [l]. *)
Definition vote_inv (refs : list NumberRef) (l : list RGB) (v : VoteState) : Prop :=
  (∀ s, default 0 (votes v !! s) = votes_for refs l s) ∧
  (∀ s, votes_for refs l s ≤ Z.max 0 (bestVotes v)) ∧
  (l ≠ [] → 0 < bestVotes v ∧ bestVotes v = votes_for refs l (bestStatus v)) ∧
  (l = [] → bestVotes v = -1).

Lemma vote_inv_step refs l p v v' :
  vote_inv refs l v → vote refs v p = Some v' → vote_inv refs (l ++ [p]) v'.
Proof.
  intros (Hmap & Hmax & Hbest & Hnil) Hv. unfold vote in Hv.
  destruct (nearest_ref refs p) as [ref|] eqn:Href; simplify_eq/=.
  set (k := ref_status ref) in *.
  assert (∀ s, votes_for refs (l ++ [p]) s = votes_for refs l s + (if bool_decide (k = s) then 1 else 0))
    as Hsnoc.
  { intros s. unfold votes_for. rewrite countb_snoc, Href. done. }
  assert (Hmap' : ∀ s, default 0 (<[k:=default 0 (votes v !! k) + 1]> (votes v) !! s)
    = votes_for refs (l ++ [p]) s).
  { intros s. rewrite Hsnoc. destruct (decide (k = s)) as [<-|Hne].
    - rewrite lookup_insert_eq, bool_decide_true by done. simpl. by rewrite Hmap.
    - rewrite lookup_insert_ne, bool_decide_false by done. rewrite Hmap. lia. }
  assert (0 ≤ votes_for refs l k) by apply countb_bounds.
  assert (l = [] ∨ l ≠ []) as Hl by (destruct l; naive_solver).
  rewrite Hmap. destruct (Z.ltb_spec (bestVotes v) (votes_for refs l k + 1)) as [Hlt|Hge];
    (split_and!; simpl; [intros s; rewrite <- Hmap'; by rewrite <- Hmap| | |by destruct l]).
  - intros s. rewrite Hsnoc. specialize (Hmax s). case_bool_decide; subst; lia.
  - intros _. split; [lia|]. rewrite Hsnoc, bool_decide_true by done. done.
  - intros s. rewrite Hsnoc. specialize (Hmax s). case_bool_decide; subst; lia.
  - intros _. destruct Hl as [Hl|Hl]; [specialize (Hnil Hl); lia|].
    destruct (Hbest Hl) as [Hpos Heq]. split; [done|].
    rewrite Hsnoc. case_bool_decide as E; [|lia]. rewrite Heq, E in *. lia.
Qed.

Lemma vote_all_inv refs glyphs v : vote_all refs glyphs = Some v → vote_inv refs glyphs v.
Proof.
  unfold vote_all. apply (foldM_ind (vote_inv refs)).
  - by split_and!.
  - intros l1 p v1 v2 Hinv _ Hv. by eapply vote_inv_step.
Qed.

Lemma vote_all_total refs glyphs : refs ≠ [] → is_Some (vote_all refs glyphs).
Proof.
  intros Hrefs. apply foldM_total. intros v p _. unfold vote.
  destruct (nearest_ref_total refs p Hrefs) as [ref ->]. done.
Qed.

Lemma vote_all_plurality refs glyphs v :
  glyphs ≠ [] → vote_all refs glyphs = Some v → plurality refs glyphs (bestStatus v).
Proof.
  intros Hne (_ & Hmax & Hbest & _)%vote_all_inv. destruct (Hbest Hne) as [Hpos Heq].
  split; [lia|]. intros s. specialize (Hmax s). lia.
Qed.

(** A status that gets a vote is one of the references'. *)
Lemma plurality_ref refs glyphs s :
  plurality refs glyphs s → ∃ ref, ref ∈ refs ∧ ref_status ref = s.
Proof.
  intros [Hpos _]. unfold votes_for, countb in Hpos.
  destruct (List.filter _ glyphs) as [|p ps] eqn:E; [done|].
  assert (In p (p :: ps)) as Hin by by left. rewrite <- E in Hin.
  apply filter_In in Hin as [_ Hp].
  destruct (nearest_ref refs p) as [ref|] eqn:Href; [|done].
  apply bool_decide_eq_true in Hp. exists ref. split; [|done].
  by apply nearest_ref_spec in Href as [? _].
Qed.

(** ** Properties *)

Lemma white_scan pr pixels w h :
  buffer_wf pixels w h →
  countM (λ '(cx, cy),
    if in_border (bevelBorderMargin pr) w h cx cy
    then p ← zget pixels (idx cx cy w); Some (is_white pr p)
    else Some false) (coords 0 w 0 h) = Some (white_count pr pixels w h).
Proof.
  intros Hwf. apply countM_pure. intros [cx cy] [? ?]%elem_of_coords. simpl.
  destruct (in_border _ _ _ _ _); [|done]. by rewrite (pixel_read pixels w h) by done.
Qed.

Lemma red_scan pr pixels w h :
  buffer_wf pixels w h →
  countM (λ '(cx, cy), p ← zget pixels (idx cx cy w); Some (is_red pr p))
    (center_coords (centerRegion w h))
  = Some (countb (is_red pr) (center_pixels pixels w h)).
Proof.
  intros Hwf. rewrite (countM_pure _ (λ c, is_red pr (pixel pixels w c))).
  - f_equal. unfold center_pixels, countb.
    induction (center_coords _) as [|c l IH]; [done|]. simpl.
    destruct (is_red _ _); simpl; lia.
  - intros [cx cy] Hc. by rewrite (center_read pixels w h) by done.
Qed.

(** The classifier's decision, with the bevel diagnostic that explains it. *)
Lemma classify_decides pr pixels w h :
  buffer_wf pixels w h → numberRefs pr ≠ [] → 0 < minGlyphPixels pr →
  ∃ s d, classifyCell pixels w h pr = Some (s, d) ∧ classified pr pixels w h s ∧
    d_beveled d = (bevelWhiteMinPixels pr <=? white_count pr pixels w h).
Proof.
  intros Hwf Hrefs Hmin. unfold classifyCell.
  destruct (regionMean_total pixels w h
    (reg_x0 (centerRegion w h)) (reg_y0 (centerRegion w h))
    (reg_x1 (centerRegion w h)) (reg_y1 (centerRegion w h)) Hwf) as [mean ->].
  simpl. rewrite white_scan, red_scan by done. simpl.
  destruct (Z.leb_spec (bevelWhiteMinPixels pr) (white_count pr pixels w h)) as [Hw|Hw].
  { destruct (Z.leb_spec (flagMinPixels pr) (countb (is_red pr) (center_pixels pixels w h)));
      do 2 eexists; split_and!; try done; by constructor. }
  rewrite center_scan by done. simpl. rewrite borderRedness_eq by done. simpl.
  destruct (Z.leb_spec (minePixelThreshold pr) (countb (is_black pr) (center_pixels pixels w h))).
  { destruct (Qle_bool _ _) eqn:Hq; do 2 eexists; split_and!; try done.
    - apply cl_hit_mine; [done|done|]. by apply Qle_bool_iff.
    - apply cl_mine; [done|done|]. apply Qnot_le_lt. intros Hle%Qle_bool_iff. congruence. }
  destruct (Z.ltb_spec (Z.of_nat (length (glyphs_of pr pixels w h))) (minGlyphPixels pr)).
  { do 2 eexists; split_and!; try done. by apply cl_blank. }
  destruct (vote_all_total (numberRefs pr) (glyphs_of pr pixels w h) Hrefs) as [v Hv].
  rewrite Hv. simpl. do 2 eexists. split_and!; [done| |done].
  apply cl_number; [done|done|done|]. apply vote_all_plurality; [|done].
  intros E. rewrite E in *. simpl in *. lia.
Qed.

Lemma default_profile_ok :
  numberRefs DEFAULT_COLOR_PROFILE ≠ [] ∧ 0 < minGlyphPixels DEFAULT_COLOR_PROFILE.
Proof. by split. Qed.

Lemma default_ref_status ref :
  ref ∈ numberRefs DEFAULT_COLOR_PROFILE →
  ref_status ref ∈ [Num1; Num2; Num3; Num4; Num5; Num6; Num7; Num8].
Proof.
  simpl. intros H. repeat (apply elem_of_cons in H as [->|H]; [simpl; set_solver|]).
  by apply elem_of_nil in H.
Qed.

(** On a pixel buffer of [w * h] pixels and a profile with at least one
    reference colour and a positive glyph minimum, [classifyCell] reads only
    pixels of the buffer, returns, and its status is the one the decision table
    prescribes: bevelled cells are flags or unopened by their red count; then a
    dense black blob is a mine, triggered when the border redness reaches the
    threshold; then few glyph pixels are a blank; else the number most glyph
    pixels are nearest to. *)
Theorem classifyCell_refines pr pixels w h :
  buffer_wf pixels w h → numberRefs pr ≠ [] → 0 < minGlyphPixels pr →
  ∃ s d, classifyCell pixels w h pr = Some (s, d) ∧ classified pr pixels w h s.
Proof.
  intros Hwf Hrefs Hmin.
  destruct (classify_decides pr pixels w h Hwf Hrefs Hmin) as (s & d & ? & ? & _).
  by exists s, d.
Qed.

(** A 4x4 all-white cell with a red 2x2 centre: the flag glyph. *)
Definition sample_cell : list RGB :=
  let W := mkRGB 255 255 255 in let R := mkRGB 255 0 0 in
  [W; W; W; W; W; R; R; W; W; R; R; W; W; W; W; W].

Definition small_profile : ColorProfile := {|
  background := mkRGB 192 192 192; glyphThreshold := 40; minGlyphPixels := 1;
  bevelWhiteChannelMin := 240; bevelWhiteMinPixels := 8; bevelBorderMargin := 1;
  mineBlackChannelMax := 60; flagRedMinR := 150; flagRedMaxG := 100; flagRedMaxB := 100;
  flagMinPixels := 4; numberRefs := numberRefs DEFAULT_COLOR_PROFILE;
  mineRef := mkRGB 0 0 0; minePixelThreshold := 3; redBgThreshold := 120;
|}.

Lemma classifyCell_refines_witness :
  buffer_wf sample_cell 4 4 ∧ numberRefs small_profile ≠ [] ∧ 0 < minGlyphPixels small_profile ∧
  fst <$> classifyCell sample_cell 4 4 small_profile = Some FLAG ∧
  ∃ s d, classifyCell sample_cell 4 4 small_profile = Some (s, d) ∧
    classified small_profile sample_cell 4 4 s.
Proof.
  assert (buffer_wf sample_cell 4 4) as Hwf by (unfold buffer_wf; simpl; lia).
  assert (numberRefs small_profile ≠ []) as Hrefs by discriminate.
  assert (0 < minGlyphPixels small_profile) as Hmin by (simpl; lia).
  split; [exact Hwf|]. split; [exact Hrefs|]. split; [exact Hmin|].
  split; [vm_compute; reflexivity|].
  exact (classifyCell_refines small_profile sample_cell 4 4 Hwf Hrefs Hmin).
Defined.

(** With the shipped profile every cell gets a definite status: [UNKNOWN] is
    never produced, however ambiguous the pixels, and the two unopened statuses
    [INITIAL] and [FLAG] are produced exactly on the cells whose bevel test
    succeeds. *)
Theorem classifyCell_default_known pixels w h :
  buffer_wf pixels w h →
  ∃ s d, classifyCell pixels w h DEFAULT_COLOR_PROFILE = Some (s, d) ∧
    s ≠ UNKNOWN ∧ (d_beveled d = true ↔ s = INITIAL ∨ s = FLAG).
Proof.
  intros Hwf. destruct default_profile_ok as [Hrefs Hmin].
  destruct (classify_decides _ _ _ _ Hwf Hrefs Hmin) as (s & d & Hc & Hs & Hb).
  exists s, d. split; [done|]. rewrite Hb, Z.leb_le. clear Hc Hb.
  inversion Hs as [| | | | |? ? ? ? Hp]; subst; try (split; [done|]; naive_solver lia).
  destruct (plurality_ref _ _ _ Hp) as (ref & Href & <-).
  apply default_ref_status in Href. split; [intros E; rewrite E in Href; set_solver|].
  split; [lia|]. intros [E|E]; rewrite E in Href; set_solver.
Qed.

Lemma classifyCell_default_known_witness :
  buffer_wf sample_cell 4 4 ∧
  ∃ s d, classifyCell sample_cell 4 4 DEFAULT_COLOR_PROFILE = Some (s, d) ∧
    s ≠ UNKNOWN ∧ (d_beveled d = true ↔ s = INITIAL ∨ s = FLAG).
Proof.
  assert (buffer_wf sample_cell 4 4) as Hwf by (unfold buffer_wf; simpl; lia).
  split; [exact Hwf|]. exact (classifyCell_default_known sample_cell 4 4 Hwf).
Defined.
