(* ===== verification/Counter.v ===== *)
(** * The mine counter

    [projects/game/pkg/saolei-board/src/core/counter.ts]: the three-digit
    seven-segment display of the game, decoded into the number it shows.

    The quotient [redCount / total] of two pixel counts is kept as an exact
    rational; it is only compared with the ratio of the profile.  For the ratio
    [1/2] of the default profile (and any ratio a double represents) rounding is
    monotone and no quotient of counts this small rounds onto the threshold, so
    the comparison has the answer of the comparison on doubles. *)

From Stdlib Require Import QArith.
From S2P Require Import Prelude BoardTypes Image.

#[local] Open Scope Z_scope.

Definition default_segments (s : SegmentId) : SegmentCore :=
  match s with
  | seg_a => mkCore 2 19 0 1
  | seg_g => mkCore 2 19 20 21
  | seg_d => mkCore 2 19 40 41
  | seg_f => mkCore 0 5 4 17
  | seg_b => mkCore 16 21 4 17
  | seg_e => mkCore 0 5 24 37
  | seg_c => mkCore 16 21 24 37
  end.

Definition DEFAULT_COUNTER_PROFILE : CounterProfile := {|
  regionX := 32; regionY := 120; regionW := 82; regionH := 50;
  cellOrigins := [(38, 126); (64, 126); (90, 126)];
  cellW := 22; cellH := 42;
  segments := default_segments;
  redMinR := 150; redMaxG := 80; redMaxB := 80;
  segmentOnRatio := (1 # 2)%Q;
|}.

Definition SEGMENT_IDS : list SegmentId :=
  [seg_a; seg_b; seg_c; seg_d; seg_e; seg_f; seg_g].

Definition GLYPH_TABLE : list (string * string) := [
  ("abcdef", "0");
  ("bc", "1");
  ("abdeg", "2");
  ("abcdg", "3");
  ("bcfg", "4");
  ("acdfg", "5");
  ("acdefg", "6");
  ("abc", "7");
  ("abcdefg", "8");
  ("abcdfg", "9");
  ("g", "-")
]%string.

(** [GLYPH_TABLE.get(key) ?? null]. *)
Definition glyph_get (key : string) : option string :=
  snd <$> List.find (λ kv, bool_decide (kv.1 = key)) GLYPH_TABLE.

Definition isSegmentOn (img : DecodedImage) (cellX cellY : Z) (core : SegmentCore)
    (profile : CounterProfile) : option bool :=
  '(redCount, total) ← foldM (λ '(redCount, total) '(dx, dy),
    let px := cellX + dx in
    let py := cellY + dy in
    if (px <? 0) || (img_width img <=? px) || (py <? 0) || (img_height img <=? py)
    then Some (redCount, total + 1)
    else
      p ← getRGB (img_data img) (img_width img) px py;
      Some (if (redMinR profile <=? r p) && (g p <=? redMaxG profile) && (b p <=? redMaxB profile)
            then redCount + 1 else redCount, total + 1))
    (0, 0) (coords (core_x0 core) (core_x1 core + 1) (core_y0 core) (core_y1 core + 1));
  if total =? 0 then Some false
  else Some (negb (Qle_bool (redCount # Z.to_pos total) (segmentOnRatio profile))).

(** The glyph of one digit cell: [Some None] is the [null] of an unknown
    pattern. *)
Definition decodeCell (img : DecodedImage) (cellX cellY : Z) (profile : CounterProfile)
    : option (option string) :=
  onKey ← foldM (λ onKey segId,
    on ← isSegmentOn img cellX cellY (segments profile segId) profile;
    Some (if (on : bool) then (onKey +:+ segment_name segId)%string else onKey))
    ""%string SEGMENT_IDS;
  Some (glyph_get onKey).

(** [Number(g)] of a glyph; [None] is the [undefined] of a missing element. *)
Definition glyph_number (g : option string) : jsnum :=
  match g with
  | Some "0" => JNum 0 | Some "1" => JNum 1 | Some "2" => JNum 2 | Some "3" => JNum 3
  | Some "4" => JNum 4 | Some "5" => JNum 5 | Some "6" => JNum 6 | Some "7" => JNum 7
  | Some "8" => JNum 8 | Some "9" => JNum 9
  | _ => JNaN
  end%string.

Definition jsadd := jsnum_lift2 Z.add.
Definition jsmul (k : Z) (n : jsnum) : jsnum := jsnum_lift2 Z.mul (JNum k) n.

Definition counter_value (glyphs : list string) : jsnum :=
  let g0 := glyphs !! 0%nat in
  let g1 := glyphs !! 1%nat in
  let g2 := glyphs !! 2%nat in
  if bool_decide (g0 = Some "-"%string)
  then jsmul (-1) (jsadd (jsmul 10 (glyph_number g1)) (glyph_number g2))
  else jsadd (jsadd (jsmul 100 (glyph_number g0)) (jsmul 10 (glyph_number g1)))
             (glyph_number g2).

Definition decodeMineCounter (img : DecodedImage) (profile : CounterProfile)
    : option MineCounter :=
  glyphs ← mapM (λ '(x, y), decodeCell img x y profile) (cellOrigins profile);
  Some (match mapM (λ g : option string, g) glyphs with
        | None => Undecoded                      (* glyphs.some(g => g === null) *)
        | Some glyphs => Decoded (counter_value glyphs)
        end).

(** ** Specification: the seven-segment display *)

Inductive Glyph : Type := Digit (d : Z) | Minus.

(** The reference segment sets of a digit and of the minus sign. *)
Definition segments_of (gl : Glyph) : list SegmentId :=
  match gl with
  | Digit 0 => [seg_a; seg_b; seg_c; seg_d; seg_e; seg_f]
  | Digit 1 => [seg_b; seg_c]
  | Digit 2 => [seg_a; seg_b; seg_d; seg_e; seg_g]
  | Digit 3 => [seg_a; seg_b; seg_c; seg_d; seg_g]
  | Digit 4 => [seg_b; seg_c; seg_f; seg_g]
  | Digit 5 => [seg_a; seg_c; seg_d; seg_f; seg_g]
  | Digit 6 => [seg_a; seg_c; seg_d; seg_e; seg_f; seg_g]
  | Digit 7 => [seg_a; seg_b; seg_c]
  | Digit 8 => [seg_a; seg_b; seg_c; seg_d; seg_e; seg_f; seg_g]
  | Digit 9 => [seg_a; seg_b; seg_c; seg_d; seg_f; seg_g]
  | Digit _ => []
  | Minus => [seg_g]
  end.

Definition glyph_ok (gl : Glyph) : Prop :=
  match gl with Digit d => 0 ≤ d ≤ 9 | Minus => True end.

(** The cell at [(x, y)] of the image is lit exactly on the segments [on]. *)
Definition lit (img : DecodedImage) (pr : CounterProfile) (x y : Z) (on : SegmentId → bool) : Prop :=
  ∀ s, isSegmentOn img x y (segments pr s) pr = Some (on s).

(** The cell shows the glyph. *)
Definition shows (img : DecodedImage) (pr : CounterProfile) (xy : Z * Z) (gl : Glyph) : Prop :=
  lit img pr (xy.1) (xy.2) (λ s, bool_decide (s ∈ segments_of gl)).

(** What the game displays for a count [v] between [-99] and [999]. *)
Definition display (v : Z) : Glyph * Glyph * Glyph :=
  if v <? 0 then (Minus, Digit (- v / 10), Digit (- v mod 10))
  else (Digit (v / 100), Digit (v / 10 mod 10), Digit (v mod 10)).

Definition glyph_str (gl : Glyph) : string :=
  match gl with Digit d => num_str d | Minus => "-" end.

(** ** Lemmas *)

Lemma isSegmentOn_total img x y core pr :
  image_wf img → image_addressable img → is_Some (isSegmentOn img x y core pr).
Proof.
  intros Hwf Hsz. unfold isSegmentOn.
  match goal with |- context [foldM ?f ?s ?l] =>
    destruct (foldM_total f s l) as [[n t] ->] end.
  - intros [n t] [dx dy] _. simpl. case_match eqn:E; [done|]. to_prop.
    destruct (getRGB_in_range img (x + dx) (y + dy)) as (p & -> & _); [done|done|lia|lia|done].
  - simpl. by case_match.
Qed.

Lemma lit_exists img pr x y :
  image_wf img → image_addressable img → ∃ on, lit img pr x y on.
Proof.
  intros Hwf Hsz.
  exists (λ s, default false (isSegmentOn img x y (segments pr s) pr)). intros s.
  destruct (isSegmentOn_total img x y (segments pr s) pr Hwf Hsz) as [v ->]. done.
Qed.

(** The key the decoder builds from the lit segments. *)
Definition key_of (on : SegmentId → bool) : string :=
  fold_left (λ k s, if on s then (k +:+ segment_name s)%string else k) SEGMENT_IDS ""%string.

Lemma decodeCell_lit img pr x y on :
  lit img pr x y on → decodeCell img x y pr = Some (glyph_get (key_of on)).
Proof.
  intros Hlit. unfold decodeCell.
  rewrite (foldM_pure _ (λ k s, if on s then (k +:+ segment_name s)%string else k)); [done|].
  intros k s _. by rewrite (Hlit s).
Qed.

Definition all_glyphs : list Glyph :=
  Minus :: map Digit [0; 1; 2; 3; 4; 5; 6; 7; 8; 9].

Lemma all_glyphs_ok gl : glyph_ok gl → gl ∈ all_glyphs.
Proof.
  destruct gl as [d|]; simpl; intros; [|set_solver].
  assert (d = 0 ∨ d = 1 ∨ d = 2 ∨ d = 3 ∨ d = 4 ∨ d = 5 ∨ d = 6 ∨ d = 7 ∨ d = 8 ∨ d = 9)
    by lia.
  destruct_or!; subst; set_solver.
Qed.

Definition same_segments (on : SegmentId → bool) (gl : Glyph) : bool :=
  forallb (λ s, Bool.eqb (on s) (bool_decide (s ∈ segments_of gl))) SEGMENT_IDS.

Lemma same_segments_spec on gl :
  same_segments on gl = true ↔ ∀ s, on s = bool_decide (s ∈ segments_of gl).
Proof.
  unfold same_segments. rewrite List.forallb_forall. split.
  - intros H s. apply Bool.eqb_prop, H. destruct s; simpl; tauto.
  - intros H s _. rewrite H. apply Bool.eqb_reflx.
Qed.

(** The table maps the pattern of each glyph to it, and every other of the 128
    patterns to nothing. *)
Lemma glyph_get_key on :
  glyph_get (key_of on) = glyph_str <$> List.find (same_segments on) all_glyphs.
Proof.
  unfold key_of, same_segments, SEGMENT_IDS. simpl fold_left. simpl forallb.
  destruct (on seg_a), (on seg_b), (on seg_c), (on seg_d), (on seg_e), (on seg_f), (on seg_g);
    vm_compute; reflexivity.
Qed.

Definition glyph_of (on : SegmentId → bool) : option Glyph :=
  List.find (same_segments on) all_glyphs.

Lemma glyph_of_Some on gl :
  glyph_of on = Some gl → glyph_ok gl ∧ ∀ s, on s = bool_decide (s ∈ segments_of gl).
Proof.
  unfold glyph_of. intros H. apply find_some in H as [Hin Hs].
  split; [|by apply same_segments_spec].
  simpl in Hin. destruct_or!; subst; simpl; try lia; done.
Qed.

(** Distinct glyphs have distinct segment sets. *)
Lemma glyph_of_shown gl :
  glyph_ok gl → glyph_of (λ s, bool_decide (s ∈ segments_of gl)) = Some gl.
Proof.
  intros Hok%all_glyphs_ok. unfold glyph_of.
  repeat (apply elem_of_cons in Hok as [->|Hok]; [vm_compute; reflexivity|]).
  by apply elem_of_nil in Hok.
Qed.

(** The decoder over three cells whose lit segments are known. *)
Lemma decode_three img pr o0 o1 o2 on0 on1 on2 :
  cellOrigins pr = [o0; o1; o2] →
  lit img pr (o0.1) (o0.2) on0 → lit img pr (o1.1) (o1.2) on1 → lit img pr (o2.1) (o2.2) on2 →
  decodeMineCounter img pr = Some
    match glyph_of on0, glyph_of on1, glyph_of on2 with
    | Some g0, Some g1, Some g2 => Decoded (counter_value (map glyph_str [g0; g1; g2]))
    | _, _, _ => Undecoded
    end.
Proof.
  intros Ho H0 H1 H2. unfold decodeMineCounter. rewrite Ho.
  destruct o0 as [x0 y0], o1 as [x1 y1], o2 as [x2 y2].
  cbn [mapM fst snd] in *.
  rewrite (decodeCell_lit _ _ _ _ _ H0), (decodeCell_lit _ _ _ _ _ H1),
    (decodeCell_lit _ _ _ _ _ H2), !glyph_get_key.
  fold (glyph_of on0) (glyph_of on1) (glyph_of on2).
  by destruct (glyph_of on0), (glyph_of on1), (glyph_of on2).
Qed.

(** The number three shown glyphs decode to. *)
Definition shown_value (g0 g1 g2 : Glyph) : jsnum :=
  match g0, g1, g2 with
  | Minus, Digit d1, Digit d2 => JNum (- (10 * d1 + d2))
  | Digit d0, Digit d1, Digit d2 => JNum (100 * d0 + 10 * d1 + d2)
  | _, _, _ => JNaN
  end.

Lemma counter_value_shown g0 g1 g2 :
  glyph_ok g0 → glyph_ok g1 → glyph_ok g2 →
  counter_value (map glyph_str [g0; g1; g2]) = shown_value g0 g1 g2.
Proof.
  assert (∀ gl, glyph_ok gl → glyph_number (Some (glyph_str gl)) =
    match gl with Digit d => JNum d | Minus => JNaN end) as Hn.
  { intros gl Hok%all_glyphs_ok.
    repeat (apply elem_of_cons in Hok as [->|Hok]; [vm_compute; reflexivity|]).
    by apply elem_of_nil in Hok. }
  assert (∀ d, glyph_ok (Digit d) → Some (glyph_str (Digit d)) ≠ Some "-"%string) as Hd.
  { intros d Hok E. specialize (Hn _ Hok). rewrite E in Hn. done. }
  intros H0 H1 H2. unfold counter_value.
  change (map glyph_str [g0; g1; g2] !! 0%nat) with (Some (glyph_str g0)).
  change (map glyph_str [g0; g1; g2] !! 1%nat) with (Some (glyph_str g1)).
  change (map glyph_str [g0; g1; g2] !! 2%nat) with (Some (glyph_str g2)).
  rewrite !Hn by done. destruct g0 as [d0|].
  - rewrite bool_decide_false by by apply Hd. destruct g1, g2; done.
  - rewrite bool_decide_true by done. by destruct g1, g2.
Qed.

Lemma display_ok v :
  -99 ≤ v ≤ 999 → let '(g0, g1, g2) := display v in
  glyph_ok g0 ∧ glyph_ok g1 ∧ glyph_ok g2 ∧ shown_value g0 g1 g2 = JNum v.
Proof.
  intros Hv. unfold display. destruct (Z.ltb_spec v 0); simpl;
    split_and!; try done; try f_equal; Z.to_euclidean_division_equations; lia.
Qed.

Lemma display_of_shown g0 g1 g2 v :
  glyph_ok g0 → glyph_ok g1 → glyph_ok g2 → shown_value g0 g1 g2 = JNum v →
  -99 ≤ v ≤ 999 ∧ (display v = (g0, g1, g2) ∨ v = 0 ∧ (g0, g1, g2) = (Minus, Digit 0, Digit 0)).
Proof.
  intros H0 H1 H2 Hv. destruct g0 as [d0|], g1 as [d1|], g2 as [d2|]; simplify_eq/=.
  - split; [lia|]. left. unfold display. rewrite (proj2 (Z.ltb_ge _ _)) by lia.
    repeat f_equal; Z.to_euclidean_division_equations; lia.
  - split; [lia|]. destruct (decide (10 * d1 + d2 = 0)) as [E|E].
    + right. split; [lia|]. assert (d1 = 0 ∧ d2 = 0) as [-> ->] by lia. done.
    + left. unfold display. rewrite (proj2 (Z.ltb_lt _ _)) by lia.
      repeat f_equal; Z.to_euclidean_division_equations; lia.
Qed.

(** ** Properties *)

(** The decoder reads back every number the display can show: when the three
    cells light up the segments of the display of [v], for any [v] from [-99] to
    [999], the decoded counter is [v]. *)
Theorem decodeMineCounter_roundtrip img pr o0 o1 o2 g0 g1 g2 v :
  cellOrigins pr = [o0; o1; o2] → -99 ≤ v ≤ 999 → display v = (g0, g1, g2) →
  shows img pr o0 g0 → shows img pr o1 g1 → shows img pr o2 g2 →
  decodeMineCounter img pr = Some (Decoded (JNum v)).
Proof.
  intros Ho Hv Hd H0 H1 H2.
  pose proof (display_ok v Hv) as Hok. rewrite Hd in Hok. destruct Hok as (? & ? & ? & Hval).
  rewrite (decode_three img pr o0 o1 o2 _ _ _ Ho H0 H1 H2), !glyph_of_shown by done.
  by rewrite counter_value_shown, Hval.
Qed.

(** A counter whose cells are 7-pixel rows, one pixel per segment, showing the
    over-flagged count [-5]. *)
Definition tiny_counter : CounterProfile := {|
  regionX := 0; regionY := 0; regionW := 7; regionH := 3;
  cellOrigins := [(0, 0); (0, 1); (0, 2)]; cellW := 7; cellH := 1;
  segments := λ s, match s with
    | seg_a => mkCore 0 0 0 0 | seg_b => mkCore 1 1 0 0 | seg_c => mkCore 2 2 0 0
    | seg_d => mkCore 3 3 0 0 | seg_e => mkCore 4 4 0 0 | seg_f => mkCore 5 5 0 0
    | seg_g => mkCore 6 6 0 0 end;
  redMinR := 150; redMaxG := 80; redMaxB := 80; segmentOnRatio := (1 # 2)%Q;
|}.

Definition lit_row (gl : Glyph) : list Z :=
  concat (map (λ s, if bool_decide (s ∈ segments_of gl) then [255; 0; 0; 255] else [0; 0; 0; 255])
    SEGMENT_IDS).

Definition counter_image (g0 g1 g2 : Glyph) : DecodedImage :=
  mkImage 7 3 (lit_row g0 ++ lit_row g1 ++ lit_row g2).

Lemma decodeMineCounter_roundtrip_witness :
  -99 ≤ -5 ≤ 999 ∧
  decodeMineCounter (counter_image Minus (Digit 0) (Digit 5)) tiny_counter
    = Some (Decoded (JNum (-5))).
Proof.
  split; [lia|].
  apply (decodeMineCounter_roundtrip _ tiny_counter (0, 0) (0, 1) (0, 2)
    Minus (Digit 0) (Digit 5) (-5));
    [reflexivity|lia|reflexivity| | |]; intros []; vm_compute; reflexivity.
Defined.

(** No digit is fabricated: on a well-formed image a decoded integer [v] is
    in [-99 .. 999] and the three cells light exactly the segments of its
    display, the one other display of a decoded integer being [-00], which reads
    as zero. *)
Theorem decodeMineCounter_sound img pr o0 o1 o2 v :
  image_wf img → image_addressable img → cellOrigins pr = [o0; o1; o2] →
  decodeMineCounter img pr = Some (Decoded (JNum v)) →
  -99 ≤ v ≤ 999 ∧
  ∃ g0 g1 g2, shows img pr o0 g0 ∧ shows img pr o1 g1 ∧ shows img pr o2 g2 ∧
    (display v = (g0, g1, g2) ∨ v = 0 ∧ (g0, g1, g2) = (Minus, Digit 0, Digit 0)).
Proof.
  intros Hwf Hsz Ho Hdec.
  destruct (lit_exists img pr (o0.1) (o0.2) Hwf Hsz) as [on0 H0].
  destruct (lit_exists img pr (o1.1) (o1.2) Hwf Hsz) as [on1 H1].
  destruct (lit_exists img pr (o2.1) (o2.2) Hwf Hsz) as [on2 H2].
  rewrite (decode_three img pr o0 o1 o2 on0 on1 on2 Ho H0 H1 H2) in Hdec.
  destruct (glyph_of on0) as [g0|] eqn:E0; [|done].
  destruct (glyph_of on1) as [g1|] eqn:E1; [|done].
  destruct (glyph_of on2) as [g2|] eqn:E2; [|done].
  apply glyph_of_Some in E0 as [? Hs0], E1 as [? Hs1], E2 as [? Hs2].
  rewrite counter_value_shown in Hdec by done.
  destruct (display_of_shown g0 g1 g2 v) as [Hrange Hshown]; [done..|congruence|].
  split; [done|]. exists g0, g1, g2.
  split_and!; [| | |done]; intros s;
    [rewrite (H0 s), Hs0|rewrite (H1 s), Hs1|rewrite (H2 s), Hs2]; done.
Qed.

(** The image showing [v] through the tiny profile. *)
Definition sample_counter : DecodedImage := counter_image (Digit 0) (Digit 1) (Digit 0).

Lemma sample_counter_wf : image_wf sample_counter ∧ image_addressable sample_counter.
Proof.
  unfold image_wf, image_addressable. change (img_width sample_counter) with 7.
  change (img_height sample_counter) with 3. split_and!; try lia.
  - reflexivity.
  - apply List.Forall_forall. intros v Hv.
    assert (forallb (λ v, (0 <=? v) && (v <? 256)) (img_data sample_counter) = true) as Hall
      by (vm_compute; reflexivity).
    rewrite List.forallb_forall in Hall. specialize (Hall v Hv). to_prop. lia.
Qed.

Lemma decodeMineCounter_sound_witness :
  image_wf sample_counter ∧ image_addressable sample_counter ∧
  decodeMineCounter sample_counter tiny_counter = Some (Decoded (JNum 10)) ∧
  -99 ≤ 10 ≤ 999 ∧
  ∃ g0 g1 g2, shows sample_counter tiny_counter (0, 0) g0 ∧
    shows sample_counter tiny_counter (0, 1) g1 ∧ shows sample_counter tiny_counter (0, 2) g2 ∧
    (display 10 = (g0, g1, g2) ∨ 10 = 0 ∧ (g0, g1, g2) = (Minus, Digit 0, Digit 0)).
Proof.
  destruct sample_counter_wf as [Hwf Hsz].
  assert (decodeMineCounter sample_counter tiny_counter = Some (Decoded (JNum 10))) as Hdec
    by (vm_compute; reflexivity).
  split; [exact Hwf|]. split; [exact Hsz|]. split; [exact Hdec|].
  exact (decodeMineCounter_sound sample_counter tiny_counter (0, 0) (0, 1) (0, 2) 10
    Hwf Hsz eq_refl Hdec).
Defined.

(** A minus sign anywhere but in the first cell decodes to [NaN]. *)
Example decode_misplaced_minus :
  decodeMineCounter (counter_image (Digit 0) Minus (Digit 5)) tiny_counter = Some (Decoded JNaN).
Proof. vm_compute. reflexivity. Qed.

(** The pattern [-00] decodes to zero. *)
Example decode_minus_zero :
  decodeMineCounter (counter_image Minus (Digit 0) (Digit 0)) tiny_counter
    = Some (Decoded (JNum 0)).
Proof. vm_compute. reflexivity. Qed.
