(* ===== verification/Render.v ===== *)
(** * The text board

    [projects/game/pkg/saolei-board/src/core/render.ts]. *)

From Stdlib Require Import Ascii.
From S2P Require Import Prelude BoardTypes.

Definition SYMBOLS (s : CellStatus) : string :=
  match s with
  | INITIAL => "*"
  | Num0 => "0" | Num1 => "1" | Num2 => "2" | Num3 => "3" | Num4 => "4"
  | Num5 => "5" | Num6 => "6" | Num7 => "7" | Num8 => "8"
  | FLAG => "F"
  | HIT_MINE => "X"
  | MINE => "M"
  | UNKNOWN => "?"
  end.

(** [SYMBOLS[status] ?? "?"]: the table is total. *)
Definition cellSymbol (status : CellStatus) : string := SYMBOLS status.

Definition col_label (x : Z) : string := "col" +:+ num_str x.
Definition row_label (y : Z) : string := "row" +:+ num_str y.

Definition index_label_width (width height : Z) : Z :=
  let maxIndex := Z.max (width - 1) (height - 1) in
  Z.max (slen (col_label maxIndex)) (slen (row_label maxIndex)).

(** The token table; [tokenAt] may throw. *)
Definition grid_tokens (width height : Z) (tokenAt : Z → Z → option string)
    : option (list (list string)) :=
  mapM (λ y, mapM (λ x, tokenAt x y) (zrange 0 width)) (zrange 0 height).

Definition max_token_width (tokens : list (list string)) : Z :=
  fold_left (λ m token, if m <? slen token then slen token else m) (concat tokens) 0.

Definition column_width (width height : Z) (tokens : list (list string)) : Z :=
  Z.max 1 (Z.max (index_label_width width height) (max_token_width tokens)).

Definition align_row (columnWidth : Z) (slots : list string) : string :=
  join " " (map (padStart columnWidth " ") slots).

Definition header_slots (width : Z) : list string := "" :: map col_label (zrange 0 width).

Definition grid_lines (width height : Z) (tokens : list (list string)) : list string :=
  let columnWidth := column_width width height tokens in
  align_row columnWidth (header_slots width) ::
  zip_with (λ y row, align_row columnWidth (row_label y :: row)) (zrange 0 height) tokens.

Definition renderGridWithRuler (width height : Z) (tokenAt : Z → Z → option string)
    : option string :=
  tokens ← grid_tokens width height tokenAt;
  Some (join nl (grid_lines width height tokens)).

(** [state.grid[y]?.[x] ?? "UNKNOWN"]. *)
Definition cell_or_unknown (s : GameState) (x y : Z) : CellStatus :=
  default UNKNOWN (cell_at s x y).

Definition board_header (s : GameState) : string :=
  "board size " +:+ num_str (width s) +:+ "*" +:+ num_str (height s) +:+ nl +:+ nl.

Definition renderBoardText (s : GameState) : string :=
  board_header s +:+
  default "" (renderGridWithRuler (width s) (height s)
    (λ x y, Some (cellSymbol (cell_or_unknown s x y)))).

(** ** Lemmas on the layout *)

Lemma max_token_width_ge tokens row token :
  row ∈ tokens → token ∈ row → slen token ≤ max_token_width tokens.
Proof.
  intros Hrow Htok. unfold max_token_width.
  assert (∀ l m, m ≤ fold_left (λ m t, if m <? slen t then slen t else m) l m ∧
    ∀ t, t ∈ l → slen t ≤ fold_left (λ m t, if m <? slen t then slen t else m) l m) as H.
  { induction l as [|a l IH]; intros m; simpl; [split; [lia|set_solver]|].
    destruct (IH (if m <? slen a then slen a else m)) as [H1 H2].
    destruct (Z.ltb_spec m (slen a)); (split; [lia|]);
      intros t [->|Ht]%elem_of_cons; first [lia|by apply H2]. }
  apply (H (concat tokens) 0), list_elem_of_In, in_concat. exists row.
  split; by apply list_elem_of_In.
Qed.

Lemma label_width_col w h x :
  0 ≤ x < w → slen (col_label x) ≤ index_label_width w h.
Proof.
  intros Hx. unfold index_label_width, col_label. rewrite !slen_app.
  pose proof (num_str_length_mono x (Z.max (w - 1) (h - 1))). lia.
Qed.

Lemma label_width_row w h y :
  0 ≤ y < h → slen (row_label y) ≤ index_label_width w h.
Proof.
  intros Hy. unfold index_label_width, row_label. rewrite !slen_app.
  pose proof (num_str_length_mono y (Z.max (w - 1) (h - 1))). lia.
Qed.

Lemma slen_align_row cw n slots :
  0 < n → Z.of_nat (length slots) = n → Forall (λ s, slen s ≤ cw) slots →
  slen (align_row cw slots) = n * cw + (n - 1).
Proof.
  intros Hn Hlen Hs. unfold align_row. rewrite (slen_join_const _ cw).
  - rewrite length_map, Hlen. change (slen " ") with 1. by rewrite Z.mul_1_r.
  - by destruct slots; simpl in *; lia || done.
  - apply Forall_map. eapply Forall_impl; [done|]. intros s Hle. simpl.
    rewrite slen_padStart by done. simpl in Hle. lia.
Qed.

Lemma grid_tokens_shape w h tokenAt tokens :
  0 ≤ w → 0 ≤ h → grid_tokens w h tokenAt = Some tokens →
  Z.of_nat (length tokens) = h ∧ Forall (λ row, Z.of_nat (length row) = w) tokens.
Proof.
  intros Hw Hh Ht. split.
  - apply mapM_length in Ht. rewrite Ht, length_zrange. lia.
  - apply mapM_Some in Ht. apply Forall_forall. intros row Hrow.
    apply list_elem_of_lookup in Hrow as [i Hi].
    destruct (Forall2_lookup_r _ _ _ _ _ Ht Hi) as (y & _ & Hy).
    apply mapM_length in Hy. rewrite Hy, length_zrange. lia.
Qed.

(** The slots of one rendered line fit the column width. *)
Lemma header_fits w h tokens :
  Forall (λ s, slen s ≤ column_width w h tokens) (header_slots w).
Proof.
  unfold header_slots, column_width. apply Forall_cons. split.
  - change (slen "") with 0. lia.
  - apply Forall_map, Forall_forall. intros x Hx%elem_of_zrange. simpl.
    pose proof (label_width_col w h x Hx). lia.
Qed.

Lemma row_fits w h tokens y row :
  0 ≤ y < h → row ∈ tokens →
  Forall (λ s, slen s ≤ column_width w h tokens) (row_label y :: row).
Proof.
  intros Hy Hrow. unfold column_width. apply Forall_cons. split.
  - pose proof (label_width_row w h y Hy). lia.
  - apply Forall_forall. intros t Ht. pose proof (max_token_width_ge _ _ _ Hrow Ht). lia.
Qed.

(** Every line of the grid has the same length. *)
Lemma grid_lines_uniform w h tokenAt tokens :
  0 ≤ w → 0 ≤ h → grid_tokens w h tokenAt = Some tokens →
  length (grid_lines w h tokens) = S (Z.to_nat h) ∧
  Forall (λ line, slen line = (w + 1) * column_width w h tokens + w) (grid_lines w h tokens).
Proof.
  intros Hw Hh Ht. destruct (grid_tokens_shape _ _ _ _ Hw Hh Ht) as [Hlen Hrows].
  unfold grid_lines. split.
  - simpl. rewrite length_zip_with, length_zrange. lia.
  - apply Forall_cons. split.
    + rewrite (slen_align_row _ (w + 1)); [lia|lia| |apply header_fits].
      unfold header_slots. simpl. rewrite length_map, length_zrange. lia.
    + apply Forall_forall. intros line Hline.
      apply elem_of_lookup_zip_with in Hline as (i & y & row & -> & Hy & Hrow).
      apply lookup_zrange in Hy.
      assert (row ∈ tokens) as Hin by by eapply list_elem_of_lookup_2.
      rewrite Forall_forall in Hrows. specialize (Hrows row Hin). simpl in Hrows.
      rewrite (slen_align_row _ (w + 1)); [lia|lia|cbn [length]; lia|].
      eapply row_fits; [|exact Hin]; lia.
Qed.

(** ** Lemmas on reading a text back *)

Lemma str_app_inj_len (s1 s2 t1 t2 : string) :
  slen s1 = slen s2 → s1 +:+ t1 = s2 +:+ t2 → s1 = s2 ∧ t1 = t2.
Proof.
  revert s2. induction s1 as [|c s1 IH]; intros [|c2 s2] Hlen H; unfold slen in *;
    rewrite ?str_cons_app, ?str_nil_app in *; simpl in *; try lia; [done|].
  injection H as -> H. destruct (IH s2) as [-> ->]; [unfold slen; lia|done|done].
Qed.

(** Joined slots of a common width are recovered slot by slot. *)
Lemma join_inj sep w l1 l2 :
  length l1 = length l2 → Forall (λ s, slen s = w) l1 → Forall (λ s, slen s = w) l2 →
  join sep l1 = join sep l2 → l1 = l2.
Proof.
  revert l2. induction l1 as [|s1 l1 IH]; intros [|s2 l2] Hlen H1 H2 H; simplify_eq/=; [done|].
  apply Forall_cons in H1 as [Hs1 H1], H2 as [Hs2 H2].
  destruct l1 as [|t1 l1], l2 as [|t2 l2]; try done; [by unfold join in H; simpl in H; subst|].
  change (s1 +:+ (sep +:+ join sep (t1 :: l1)) = s2 +:+ (sep +:+ join sep (t2 :: l2))) in H.
  apply str_app_inj_len in H as [-> H]; [|congruence].
  apply str_app_inj_len in H as [_ H]; [|done].
  f_equal. by apply IH.
Qed.

Lemma padStart_inj w c s t : slen s = slen t → padStart w c s = padStart w c t → s = t.
Proof.
  unfold padStart. intros Hlen H. unfold slen in Hlen.
  replace (Z.of_nat (String.length t)) with (Z.of_nat (String.length s)) in H by lia.
  by apply str_app_inj_len in H as [_ ?].
Qed.

Lemma cellSymbol_inj : Inj (=) (=) cellSymbol.
Proof. intros [] []; done. Qed.

Lemma slen_cellSymbol c : slen (cellSymbol c) = 1.
Proof. by destruct c. Qed.

(** *** Decimal numerals hold no separator *)

Fixpoint str_free (c : ascii) (s : string) : Prop :=
  match s with
  | EmptyString => True
  | String c' s => c' ≠ c ∧ str_free c s
  end.

Lemma str_free_split c s1 s2 t1 t2 :
  str_free c s1 → str_free c s2 →
  s1 +:+ String c t1 = s2 +:+ String c t2 → s1 = s2 ∧ t1 = t2.
Proof.
  revert s2. induction s1 as [|c1 s1 IH]; intros [|c2 s2] H1 H2 H;
    rewrite ?str_cons_app, ?str_nil_app in H; simpl in H1, H2.
  - by simplify_eq.
  - destruct H2 as [H2 _]. by simplify_eq.
  - destruct H1 as [H1 _]. by simplify_eq.
  - destruct H1 as [_ H1], H2 as [_ H2]. injection H as -> H.
    destruct (IH s2 H1 H2 H) as [-> ->]. done.
Qed.

Definition numeral_free (c : ascii) : Prop :=
  c ≠ "-"%char ∧ ∀ n, pretty_N_char n ≠ c.

Lemma str_free_pretty_N_go c n s :
  numeral_free c → str_free c s → str_free c (pretty_N_go n s).
Proof.
  intros [_ Hc]. revert s. induction (N.lt_wf_0 n) as [n _ IH]; intros s Hs.
  destruct (decide (n = 0)%N) as [->|Hn]; [by rewrite pretty_N_go_0|].
  rewrite pretty_N_go_step by lia. apply IH; [apply N.div_lt; lia|].
  split; [apply Hc|done].
Qed.

Lemma str_free_num_str c n : numeral_free c → str_free c (num_str n).
Proof.
  intros Hc.
  assert (∀ n : N, str_free c (pretty n)) as HN.
  { intros m. unfold pretty, pretty_N. case_decide.
    - split; [apply (proj2 Hc 0%N)|done].
    - by apply str_free_pretty_N_go. }
  unfold num_str. destruct n as [|p|p].
  - exact (HN 0%N).
  - exact (HN (N.pos p)).
  - change (pretty (Z.neg p)) with (String "-"%char (pretty (N.pos p))).
    split; [by destruct Hc as [Hc _]; congruence|apply HN].
Qed.

Lemma numeral_free_star : numeral_free "*"%char.
Proof. split; [done|]. intros n. unfold pretty_N_char. by repeat case_match. Qed.

Lemma numeral_free_nl : numeral_free (ascii_of_nat 10).
Proof. split; [done|]. intros n. unfold pretty_N_char. by repeat case_match. Qed.

(** The header is recovered from the text. *)
Lemma board_header_inj s1 s2 t1 t2 :
  board_header s1 +:+ t1 = board_header s2 +:+ t2 →
  width s1 = width s2 ∧ height s1 = height s2 ∧ t1 = t2.
Proof.
  unfold board_header. rewrite !str_app_assoc. intros H.
  apply str_app_inj_len in H as [_ H]; [|done].
  apply str_free_split in H as [Hw H];
    [|apply str_free_num_str, numeral_free_star..].
  rewrite ?str_nil_app in H.
  apply str_free_split in H as [Hh H];
    [|apply str_free_num_str, numeral_free_nl..].
  rewrite ?str_nil_app in H.
  apply num_str_inj in Hw, Hh. apply str_app_inj_len in H as [_ H]; done.
Qed.

(** The tokens of the board grid: the symbol of every cell. *)
Definition board_tokens (s : GameState) : list (list string) := map (map cellSymbol) (grid s).

Lemma board_tokens_eq s :
  state_wf s →
  grid_tokens (width s) (height s) (λ x y, Some (cellSymbol (cell_or_unknown s x y)))
    = Some (board_tokens s).
Proof.
  intros (Hw & Hh & Hlen & Hrows). unfold grid_tokens. apply mapM_Some, Forall2_same_length_lookup.
  split; [unfold board_tokens; rewrite length_map, length_zrange; lia|].
  intros i y trow Hy Htrow. apply lookup_zrange in Hy as [-> Hi].
  unfold board_tokens in Htrow. apply list_lookup_fmap_Some in Htrow as (row & -> & Hrow).
  rewrite Forall_lookup in Hrows. specialize (Hrows _ _ Hrow). simpl in Hrows.
  apply mapM_Some, Forall2_same_length_lookup.
  split; [rewrite length_map, length_zrange; lia|].
  intros j x tok Hx Htok. apply lookup_zrange in Hx as [-> Hj].
  apply list_lookup_fmap_Some in Htok as (c & -> & Hc).
  unfold cell_or_unknown, cell_at.
  assert (zget (grid s) (0 + Z.of_nat i) = Some row) as ->.
  { apply zget_Some. split; [lia|]. by rewrite Z.add_0_l, Nat2Z.id. }
  simpl. assert (zget row (0 + Z.of_nat j) = Some c) as ->; [|done].
  apply zget_Some. split; [lia|]. by rewrite Z.add_0_l, Nat2Z.id.
Qed.

Lemma board_token_width s : max_token_width (board_tokens s) ≤ 1.
Proof.
  unfold max_token_width, board_tokens.
  assert (∀ l, Forall (λ t, slen t = 1) l → ∀ m, m ≤ 1 →
    fold_left (λ m t, if m <? slen t then slen t else m) l m ≤ 1) as H.
  { induction 1 as [|t l Ht _ IH]; intros m Hm; [done|]. simpl. apply IH.
    case_match; lia. }
  apply H; [|lia]. apply Forall_concat, Forall_map, Forall_forall. intros row _. simpl.
  apply Forall_map, Forall_forall. intros c _. apply slen_cellSymbol.
Qed.

(** With one-character tokens only the labels decide the column width. *)
Lemma board_column_width w h s :
  column_width w h (board_tokens s) = Z.max 1 (index_label_width w h).
Proof.
  unfold column_width. pose proof (board_token_width s). lia.
Qed.

Lemma align_row_inj cw l1 l2 :
  length l1 = length l2 → Forall (λ s, slen s ≤ cw) l1 → Forall (λ s, slen s ≤ cw) l2 →
  align_row cw l1 = align_row cw l2 → map (padStart cw " ") l1 = map (padStart cw " ") l2.
Proof.
  intros Hlen H1 H2 H.
  assert (∀ l, Forall (λ s, slen s ≤ cw) l → Forall (λ s, slen s = cw) (map (padStart cw " ") l))
    as Hpad.
  { intros l Hl. apply Forall_map. eapply Forall_impl; [done|]. intros s Hs. simpl in *.
    rewrite slen_padStart by done. lia. }
  apply (join_inj " " cw); [by rewrite !length_map|by apply Hpad|by apply Hpad|done].
Qed.

Lemma render_board_eq s :
  state_wf s →
  renderBoardText s =
    board_header s +:+ join nl (grid_lines (width s) (height s) (board_tokens s)).
Proof.
  intros Hwf. unfold renderBoardText, renderGridWithRuler.
  by rewrite (board_tokens_eq s Hwf).
Qed.

(** Equal lines carry equal token rows. *)
Lemma grid_lines_inj w h tok1 tok2 :
  0 ≤ w → column_width w h tok1 = column_width w h tok2 →
  Z.of_nat (length tok1) = h → Z.of_nat (length tok2) = h →
  Forall (λ row, Z.of_nat (length row) = w) tok1 →
  Forall (λ row, Z.of_nat (length row) = w) tok2 →
  Forall (Forall (λ t, slen t = 1)) tok1 → Forall (Forall (λ t, slen t = 1)) tok2 →
  grid_lines w h tok1 = grid_lines w h tok2 → tok1 = tok2.
Proof.
  intros Hw Hcw Hl1 Hl2 Hr1 Hr2 Ht1 Ht2 H. unfold grid_lines in H. rewrite <- Hcw in H.
  apply (f_equal tail) in H; simpl in H. apply list_eq_same_length with (n := Z.to_nat h); [lia|lia|].
  intros i row1 row2 Hi Hrow1 Hrow2.
  assert (zrange 0 h !! i = Some (0 + Z.of_nat i)) as Hy by (apply lookup_zrange; lia).
  assert (∀ tok row, tok !! i = Some row →
    zip_with (λ y row, align_row (column_width w h tok1) (row_label y :: row)) (zrange 0 h) tok !! i
    = Some (align_row (column_width w h tok1) (row_label (0 + Z.of_nat i) :: row))) as Hzip.
  { intros tok row Hrow. by rewrite lookup_zip_with, Hy; simpl; rewrite Hrow. }
  pose proof (f_equal (.!! i) H) as Hline. simpl in Hline.
  rewrite (Hzip _ _ Hrow1), (Hzip _ _ Hrow2) in Hline. injection Hline as Hline.
  rewrite Forall_lookup in Hr1, Hr2, Ht1, Ht2.
  specialize (Hr1 _ _ Hrow1). specialize (Hr2 _ _ Hrow2). simpl in Hr1, Hr2.
  specialize (Ht1 _ _ Hrow1). specialize (Ht2 _ _ Hrow2).
  apply align_row_inj in Hline; [|simpl; lia| |].
  - injection Hline as Hline. apply list_eq_same_length with (n := Z.to_nat w); [lia|lia|].
    intros j t1 t2 Hj Hj1 Hj2.
    pose proof (f_equal (.!! j) Hline) as Htok. simpl in Htok.
    rewrite !list_lookup_fmap, Hj1, Hj2 in Htok. injection Htok as Htok.
    rewrite Forall_lookup in Ht1, Ht2. apply padStart_inj in Htok; [done|].
    by rewrite (Ht1 _ _ Hj1), (Ht2 _ _ Hj2).
  - eapply row_fits; [|by eapply list_elem_of_lookup_2]. lia.
  - rewrite Hcw. eapply row_fits; [|by eapply list_elem_of_lookup_2]. lia.
Qed.

Lemma board_tokens_slen s : Forall (Forall (λ t, slen t = 1)) (board_tokens s).
Proof.
  apply Forall_map, Forall_forall. intros row _. simpl.
  apply Forall_map, Forall_forall. intros c _. apply slen_cellSymbol.
Qed.

Lemma board_tokens_shape s :
  state_wf s → Z.of_nat (length (board_tokens s)) = height s ∧
  Forall (λ row, Z.of_nat (length row) = width s) (board_tokens s).
Proof.
  intros (_ & _ & Hlen & Hrows). unfold board_tokens. rewrite length_map. split; [done|].
  apply Forall_map. eapply Forall_impl; [done|]. intros row Hrow. simpl in *.
  by rewrite length_map.
Qed.

(** ** Properties *)

(** The rendered grid is a rectangle: for [0 <= w], [0 <= h] and a token
    resolver that answers on the board, the text is the newline-joined list of
    exactly [h + 1] lines, and every line has the same length, [w + 1] slots of
    the column width and [w] separators, so that the labels stand above and
    beside their cells. *)
Theorem renderGridWithRuler_aligned w h tokenAt :
  0 ≤ w → 0 ≤ h →
  (∀ x y, 0 ≤ x < w → 0 ≤ y < h → is_Some (tokenAt x y)) →
  ∃ lines cw, renderGridWithRuler w h tokenAt = Some (join nl lines) ∧
    index_label_width w h ≤ cw ∧
    length lines = S (Z.to_nat h) ∧
    Forall (λ line, slen line = (w + 1) * cw + w) lines.
Proof.
  intros Hw Hh Htok. unfold renderGridWithRuler.
  assert (is_Some (grid_tokens w h tokenAt)) as [tokens Ht].
  { apply mapM_total. intros y Hy%elem_of_zrange. apply mapM_total.
    intros x Hx%elem_of_zrange. by apply Htok. }
  exists (grid_lines w h tokens), (column_width w h tokens). rewrite Ht.
  split; [done|]. split; [unfold column_width; lia|]. by eapply grid_lines_uniform.
Qed.

Lemma renderGridWithRuler_aligned_witness :
  0 ≤ 3 ∧ 0 ≤ 2 ∧
  ∃ lines cw, renderGridWithRuler 3 2 (λ x y, Some (num_str (x - y))) = Some (join nl lines) ∧
    index_label_width 3 2 ≤ cw ∧ length lines = S (Z.to_nat 2) ∧
    Forall (λ line, slen line = (3 + 1) * cw + 3) lines.
Proof.
  split; [lia|]. split; [lia|].
  apply (renderGridWithRuler_aligned 3 2 (λ x y, Some (num_str (x - y)))); [lia|lia|].
  intros x y _ _. by eexists.
Defined.

(** The text board loses nothing: two well-formed states with the same text
    have the same dimensions and the same grid. *)
Theorem renderBoardText_injective s1 s2 :
  state_wf s1 → state_wf s2 → renderBoardText s1 = renderBoardText s2 →
  width s1 = width s2 ∧ height s1 = height s2 ∧ grid s1 = grid s2.
Proof.
  intros Hwf1 Hwf2. rewrite !render_board_eq by done. intros H.
  apply board_header_inj in H as (Hw & Hh & H). split; [done|]. split; [done|].
  destruct (Hwf1) as (Hw0 & Hh0 & _).
  destruct (board_tokens_shape s1 Hwf1), (board_tokens_shape s2 Hwf2).
  destruct (grid_lines_uniform _ _ _ _ Hw0 Hh0 (board_tokens_eq s1 Hwf1)) as [Hn1 Hu1].
  rewrite Hw in Hw0. rewrite Hh in Hh0.
  destruct (grid_lines_uniform _ _ _ _ Hw0 Hh0 (board_tokens_eq s2 Hwf2)) as [Hn2 Hu2].
  rewrite board_column_width in Hu1, Hu2. rewrite <- Hw, <- Hh in *.
  eapply join_inj in H; [|congruence|exact Hu1|exact Hu2].
  apply grid_lines_inj in H; try done; try apply board_tokens_slen;
    try by rewrite !board_column_width.
  assert (Inj (=) (=) (fmap (M:=list) (fmap (M:=list) cellSymbol))) as Hinj
    by apply list_fmap_eq_inj, list_fmap_eq_inj, cellSymbol_inj.
  by apply Hinj.
Qed.

Definition sample_state : GameState :=
  mkGameState 2 2 [[INITIAL; Num1]; [FLAG; Num8]] (Some (Decoded (JNum 1))).

Definition sample_state' : GameState :=
  mkGameState 2 2 [[INITIAL; Num1]; [FLAG; Num8]] None.

Lemma renderBoardText_injective_witness :
  state_wf sample_state ∧ state_wf sample_state' ∧
  renderBoardText sample_state = renderBoardText sample_state' ∧
  width sample_state = width sample_state' ∧ height sample_state = height sample_state' ∧
  grid sample_state = grid sample_state'.
Proof.
  assert (state_wf sample_state) as H1 by (apply state_wfb_correct; reflexivity).
  assert (state_wf sample_state') as H2 by (apply state_wfb_correct; reflexivity).
  split; [exact H1|]. split; [exact H2|]. split; [reflexivity|].
  exact (renderBoardText_injective sample_state sample_state' H1 H2 eq_refl).
Defined.

Example render_sample :
  renderBoardText sample_state =
  ("board size 2*2" +:+ nl +:+ nl +:+
   "     col0 col1" +:+ nl +:+
   "row0    *    1" +:+ nl +:+
   "row1    F    8")%string.
Proof. vm_compute. reflexivity. Qed.
