(* ===== verification/Validate.v ===== *)
(** * Same-game validation and the win predicate

    [projects/game/pkg/saolei-board/src/core/validate.ts] and [win.ts] in the
    same directory. *)

From S2P Require Import Prelude BoardTypes.

(** ** validate.ts *)

Definition REVEALED (s : CellStatus) : bool :=
  match s with
  | Num0 | Num1 | Num2 | Num3 | Num4 | Num5 | Num6 | Num7 | Num8
  | HIT_MINE | MINE => true
  | _ => false
  end.

Inductive CompatKind : Type := KDimension | KState.

#[global] Instance CompatKind_eq_dec : EqDecision CompatKind.
Proof. solve_decision. Defined.

Inductive Compatibility : Type :=
| CompatOk
| CompatBad (kind : CompatKind) (reason : string).

Definition dims_str (w h : Z) : string := num_str w +:+ "x" +:+ num_str h.

(** The two errors [updateFromScreenshot] throws, with their messages. *)
Inductive BoardError : Type :=
| BoardDimensionMismatchError (prev_w prev_h next_w next_h : Z)
| BoardStateIncompatibleError (reason : string).

Definition board_error_message (e : BoardError) : string :=
  match e with
  | BoardDimensionMismatchError pw ph nw nh =>
      "board size changed: " +:+ dims_str pw ph +:+ " -> " +:+ dims_str nw nh +:+
      "; re-initialize with SaoleiBoard.init"
  | BoardStateIncompatibleError reason =>
      "incompatible state transition (" +:+ reason +:+
      "); re-initialize with SaoleiBoard.init for a new game"
  end.

Definition permanent_reason (x y : Z) (a b : CellStatus) : string :=
  "cell (" +:+ num_str x +:+ "," +:+ num_str y +:+ "): " +:+ status_name a +:+ " -> " +:+
  status_name b +:+ " (revealed cells are permanent)".

Definition compatibleCell (x y : Z) (a b : CellStatus) : Compatibility :=
  if bool_decide (a = b) then CompatOk
  else if bool_decide (a = UNKNOWN) || bool_decide (b = UNKNOWN) then CompatOk
  else if REVEALED a then CompatBad KState (permanent_reason x y a b)
  else CompatOk.

(** The nested loop with its early return on the first bad cell. *)
Fixpoint check_cells (prev next : GameState) (cells : list (Z * Z)) : option Compatibility :=
  match cells with
  | [] => Some CompatOk
  | (x, y) :: cells =>
      a ← cell_at prev x y;
      b ← cell_at next x y;
      match compatibleCell x y a b with
      | CompatOk => check_cells prev next cells
      | bad => Some bad
      end
  end.

Definition checkCompatible (prev next : GameState) : option Compatibility :=
  if negb (width prev =? width next) || negb (height prev =? height next) then
    Some (CompatBad KDimension
      ("board size " +:+ dims_str (width prev) (height prev) +:+ " -> " +:+
       dims_str (width next) (height next)))
  else
    check_cells prev next (coords 0 (width prev) 0 (height prev)).

(** ** win.ts *)

Definition NON_WIN_CELLS (s : CellStatus) : bool :=
  match s with
  | INITIAL | HIT_MINE | MINE | UNKNOWN => true
  | _ => false
  end.

(** [state.mineCounter?.decoded === true && state.mineCounter.value === 0]. *)
Definition counter_is_zero (c : option MineCounter) : bool :=
  match c with
  | Some (Decoded v) => jsnum_seq v 0
  | _ => false
  end.

Definition isWin (s : GameState) : bool :=
  if existsb NON_WIN_CELLS (all_cells s) then false else counter_is_zero (mineCounter s).

(** ** Lemmas *)

(** What one cell may do within a game. *)
Definition cell_step (a b : CellStatus) : Prop :=
  a = b ∨ a = UNKNOWN ∨ b = UNKNOWN ∨ REVEALED a = false.

#[global] Instance cell_step_dec a b : Decision (cell_step a b).
Proof. unfold cell_step. apply _. Defined.

Lemma compatibleCell_ok x y a b : compatibleCell x y a b = CompatOk ↔ cell_step a b.
Proof.
  unfold compatibleCell, cell_step. repeat case_bool_decide; simpl; try naive_solver.
  destruct (REVEALED a); naive_solver.
Qed.

Lemma compatibleCell_bad x y a b :
  ¬ cell_step a b → compatibleCell x y a b = CompatBad KState (permanent_reason x y a b).
Proof.
  unfold compatibleCell, cell_step. intros H. repeat case_bool_decide; simpl; try naive_solver.
  destruct (REVEALED a); naive_solver.
Qed.

(** The scan over a list of cells both states have. *)
Lemma check_cells_spec prev next cells :
  Forall (λ c, is_Some (cell_at prev (c.1) (c.2)) ∧ is_Some (cell_at next (c.1) (c.2))) cells →
  (check_cells prev next cells = Some CompatOk ∧
   ∀ x y a b, (x, y) ∈ cells → cell_at prev x y = Some a → cell_at next x y = Some b → cell_step a b)
  ∨ ∃ x y a b, (x, y) ∈ cells ∧ cell_at prev x y = Some a ∧ cell_at next x y = Some b ∧
      ¬ cell_step a b ∧
      check_cells prev next cells = Some (CompatBad KState (permanent_reason x y a b)).
Proof.
  induction 1 as [|[x y] cells [[a Ha] [b Hb]] _ IH]; simpl in *; [left; set_solver|].
  rewrite Ha, Hb. simpl. destruct (decide (cell_step a b)) as [Hs|Hs].
  - rewrite (proj2 (compatibleCell_ok x y a b) Hs).
    destruct IH as [[-> Hall]|(x' & y' & a' & b' & Hin & ?)].
    + left. split; [done|]. intros x' y' a' b' [E|Hin]%elem_of_cons ? ?; [|eauto].
      injection E as -> ->. congruence.
    + right. exists x', y', a', b'. split; [set_solver|done].
  - right. exists x, y, a, b. rewrite (compatibleCell_bad x y a b Hs).
    split_and!; [set_solver|done..].
Qed.

Lemma board_cells_present prev next :
  state_wf prev → state_wf next → width prev = width next → height prev = height next →
  Forall (λ c, is_Some (cell_at prev (c.1) (c.2)) ∧ is_Some (cell_at next (c.1) (c.2)))
    (coords 0 (width prev) 0 (height prev)).
Proof.
  intros Hp Hn Hw Hh. apply Forall_forall. intros [x y] [? ?]%elem_of_coords. simpl.
  split; apply cell_at_Some; [done|lia|lia|done|lia|lia].
Qed.

(** The verdict on two well-formed states, in one of three forms. *)
Lemma checkCompatible_cases prev next :
  state_wf prev → state_wf next →
  ((width prev ≠ width next ∨ height prev ≠ height next) ∧
   ∃ reason, checkCompatible prev next = Some (CompatBad KDimension reason))
  ∨ (width prev = width next ∧ height prev = height next ∧
     checkCompatible prev next = Some CompatOk ∧
     ∀ x y a b, cell_at prev x y = Some a → cell_at next x y = Some b →
       0 ≤ x < width prev → 0 ≤ y < height prev → cell_step a b)
  ∨ (width prev = width next ∧ height prev = height next ∧
     ∃ x y a b, 0 ≤ x < width prev ∧ 0 ≤ y < height prev ∧
       cell_at prev x y = Some a ∧ cell_at next x y = Some b ∧ ¬ cell_step a b ∧
       checkCompatible prev next = Some (CompatBad KState (permanent_reason x y a b))).
Proof.
  intros Hp Hn. unfold checkCompatible.
  destruct (Z.eqb_spec (width prev) (width next)) as [Hw|Hw]; simpl;
    [|left; split; [by left|by eexists]].
  destruct (Z.eqb_spec (height prev) (height next)) as [Hh|Hh]; simpl;
    [|left; split; [by right|by eexists]].
  right. destruct (check_cells_spec prev next _ (board_cells_present _ _ Hp Hn Hw Hh))
    as [[Hok Hall]|(x & y & a & b & Hin & Ha & Hb & Hs & Hbad)].
  - left. split_and!; [done..|]. intros x y a b Ha Hb Hx Hy.
    eapply Hall; [|done|done]. by apply elem_of_coords.
  - right. split_and!; [done..|]. apply elem_of_coords in Hin as [? ?].
    by exists x, y, a, b.
Qed.

Lemma existsb_cells (p : CellStatus → bool) s :
  existsb p (all_cells s) = true ↔ ∃ c, c ∈ all_cells s ∧ p c = true.
Proof. rewrite existsb_exists. by setoid_rewrite list_elem_of_In. Qed.

(** ** Properties *)

(** Two well-formed recognized states are accepted as the same game exactly
    when they have the same dimensions and every cell either is unchanged, is or
    becomes [UNKNOWN], or was not revealed; in particular the check never reads
    outside the two grids. *)
Theorem checkCompatible_iff prev next :
  state_wf prev → state_wf next →
  (checkCompatible prev next = Some CompatOk ↔
   width prev = width next ∧ height prev = height next ∧
   ∀ x y, 0 ≤ x < width prev → 0 ≤ y < height prev →
     ∃ a b, cell_at prev x y = Some a ∧ cell_at next x y = Some b ∧ cell_step a b).
Proof.
  intros Hp Hn. pose proof (checkCompatible_cases prev next Hp Hn) as Hcases.
  split.
  - intros Hok. destruct Hcases as [(_ & ? & ?)|[(Hw & Hh & _ & Hall)|(_ & _ & H)]];
      [congruence| |naive_solver].
    split_and!; [done..|]. intros x y Hx Hy.
    destruct (cell_at_Some prev x y) as [a Ha]; [done|done|done|].
    destruct (cell_at_Some next x y) as [b Hb]; [done|lia|lia|].
    exists a, b. naive_solver.
  - intros (Hw & Hh & Hall).
    destruct Hcases as [([] & _)|[(_ & _ & ? & _)|(_ & _ & x & y & a & b & Hx & Hy & Ha & Hb & Hs & _)]];
      [done..|]. destruct (Hall x y Hx Hy) as (a' & b' & ? & ? & ?). simplify_eq. done.
Qed.

Definition opening : GameState := mkGameState 2 1 [[INITIAL; INITIAL]] None.
Definition revealed : GameState := mkGameState 2 1 [[Num1; FLAG]] None.

Lemma checkCompatible_iff_witness :
  state_wf opening ∧ state_wf revealed ∧
  (checkCompatible opening revealed = Some CompatOk ↔
   width opening = width revealed ∧ height opening = height revealed ∧
   ∀ x y, 0 ≤ x < width opening → 0 ≤ y < height opening →
     ∃ a b, cell_at opening x y = Some a ∧ cell_at revealed x y = Some b ∧ cell_step a b) ∧
  checkCompatible opening revealed = Some CompatOk ∧
  checkCompatible revealed opening ≠ Some CompatOk.
Proof.
  assert (state_wf opening) as H1 by (apply state_wfb_correct; reflexivity).
  assert (state_wf revealed) as H2 by (apply state_wfb_correct; reflexivity).
  split; [exact H1|]. split; [exact H2|].
  split; [exact (checkCompatible_iff opening revealed H1 H2)|].
  split; [vm_compute; reflexivity|vm_compute; discriminate].
Defined.

(** A board is reported won exactly when every cell is a revealed number or a
    flag and the counter was decoded to a value equal to zero: an absent or
    undecodable counter, an unopened, unknown or mine cell each deny the win. *)
Lemma isWin_iff s :
  isWin s = true ↔
  (∀ c, c ∈ all_cells s →
     c ∈ [Num0; Num1; Num2; Num3; Num4; Num5; Num6; Num7; Num8; FLAG]) ∧
  mineCounter s = Some (Decoded (JNum 0)).
Proof.
  unfold isWin. split.
  - destruct (existsb NON_WIN_CELLS (all_cells s)) eqn:E; [done|]. intros Hc. split.
    + intros c Hin. assert (NON_WIN_CELLS c = false) as Hn.
      { apply not_true_is_false. intros Hn.
        assert (existsb NON_WIN_CELLS (all_cells s) = true); [|congruence].
        apply existsb_cells. by exists c. }
      destruct c; try done; set_solver.
    + destruct (mineCounter s) as [[[z|]|]|]; try done. simpl in Hc. to_prop. congruence.
  - intros [Hall ->]. simpl.
    destruct (existsb NON_WIN_CELLS (all_cells s)) eqn:E; [|done].
    apply existsb_cells in E as (c & Hin%Hall & Hn). destruct c; try done; set_solver.
Qed.
