(* ===== verification/Recognize.v ===== *)
(** * Board recognition and the stateful board

    [projects/game/pkg/saolei-board/src/core/recognize.ts]: a screenshot becomes
    a [GameState]; [SaoleiBoard] keeps the current state of one game and accepts
    only screenshots of the same game. *)

From Stdlib Require Import QArith.
From S2P Require Import Prelude BoardTypes Image Classify Counter Render Validate.

#[local] Open Scope Z_scope.

Record CellDiagInternal : Type := mkCellDiag {
  cd_x : Z;
  cd_y : Z;
  cd_status : CellStatus;
  cd_diag : CellClassifyDiagnostics;
}.

Record RecognizeResult : Type := mkResult {
  res_state : GameState;
  res_diagnostics : option (list (list CellDiagInternal));
}.

(** [width && height]: both given and both non-zero. *)
Definition truthy (v : option Z) : option Z :=
  match v with
  | Some n => if n =? 0 then None else Some n
  | None => None
  end.

Definition board_size (options : RecognizeOptions) (img : DecodedImage) (geometry : BoardGeometry)
    : Z * Z :=
  match truthy (opt_width options), truthy (opt_height options) with
  | Some w, Some h => (w, h)
  | _, _ => detectBoardSize (img_width img) (img_height img) geometry
  end.

(** One iteration of the cell loop. *)
Definition recognize_cell (img : DecodedImage) (geometry : BoardGeometry) (profile : ColorProfile)
    (x y : Z) : option (CellStatus * CellClassifyDiagnostics) :=
  let '(ox, oy) := cellOrigin x y geometry in
  '(pixels, w, h) ← extractCellRegion img ox oy (cellSizePx geometry);
  classifyCell pixels w h profile.

Definition recognize_cells (img : DecodedImage) (geometry : BoardGeometry) (profile : ColorProfile)
    (w h : Z) : option (list (list (CellStatus * CellClassifyDiagnostics))) :=
  mapM (λ y, mapM (λ x, recognize_cell img geometry profile x y) (zrange 0 w)) (zrange 0 h).

Definition diag_rows (cells : list (list (CellStatus * CellClassifyDiagnostics)))
    : list (list CellDiagInternal) :=
  zip_with (λ y row,
    zip_with (λ x '(status, d), mkCellDiag x y status d) (zrange 0 (Z.of_nat (length row))) row)
    (zrange 0 (Z.of_nat (length cells))) cells.

Section Recognize.
Context `{PngDecoder}.

Definition recognizeBoard (png : png_bytes) (options : RecognizeOptions)
    (collectDiagnostics : bool) : option RecognizeResult :=
  let geometry := resolveGeometry (opt_geometry options) in
  let profile := default DEFAULT_COLOR_PROFILE (opt_profile options) in
  let counterProfile := default DEFAULT_COUNTER_PROFILE (opt_counterProfile options) in
  img ← decodePng png;
  let '(w, h) := board_size options img geometry in
  cells ← recognize_cells img geometry profile w h;
  counter ← decodeMineCounter img counterProfile;
  Some (mkResult (mkGameState w h (map (map fst) cells) (Some counter))
          (if collectDiagnostics then Some (diag_rows cells) else None)).

(** ** SaoleiBoard *)

Record SaoleiBoard : Type := mkBoard {
  sb_width : Z;
  sb_height : Z;
  sb_geometry : BoardGeometry;
  sb_profile : ColorProfile;
  sb_counterProfile : CounterProfile;
  sb_current : GameState;
}.

(** A full geometry passed where a partial one is expected. *)
Definition full_geometry (geo : BoardGeometry) : PartialGeometry :=
  mkPartialGeometry (Some (originXPx geo)) (Some (originYPx geo)) (Some (cellSizePx geo)).

Definition board_init (png : png_bytes) (options : RecognizeOptions) : option SaoleiBoard :=
  let geometry := resolveGeometry (opt_geometry options) in
  let profile := default DEFAULT_COLOR_PROFILE (opt_profile options) in
  let counterProfile := default DEFAULT_COUNTER_PROFILE (opt_counterProfile options) in
  res ← recognizeBoard png
    (mkRecognizeOptions (Some (full_geometry geometry)) (Some profile) (Some counterProfile)
      (opt_width options) (opt_height options)) false;
  let state := res_state res in
  Some (mkBoard (width state) (height state) geometry profile counterProfile state).

(** What [updateFromScreenshot] does: return, throw one of its two errors, or
    throw out of the recognition. *)
Inductive UpdateOutcome : Type :=
| Updated (state : GameState)
| Rejected (err : BoardError)
| RecognitionThrew.

Definition updateFromScreenshot (board : SaoleiBoard) (png : png_bytes)
    : SaoleiBoard * UpdateOutcome :=
  match recognizeBoard png
    (mkRecognizeOptions (Some (full_geometry (sb_geometry board))) (Some (sb_profile board))
      (Some (sb_counterProfile board)) None None) false with
  | None => (board, RecognitionThrew)
  | Some res =>
      let next := res_state res in
      match checkCompatible (sb_current board) next with
      | None => (board, RecognitionThrew)
      | Some (CompatBad KDimension _) =>
          (board, Rejected (BoardDimensionMismatchError
            (sb_width board) (sb_height board) (width next) (height next)))
      | Some (CompatBad KState reason) => (board, Rejected (BoardStateIncompatibleError reason))
      | Some CompatOk =>
          (mkBoard (sb_width board) (sb_height board) (sb_geometry board) (sb_profile board)
             (sb_counterProfile board) next, Updated next)
      end
  end.

Definition board_renderText (board : SaoleiBoard) : string := renderBoardText (sb_current board).

Definition board_dimensions (board : SaoleiBoard) : Z * Z := (sb_width board, sb_height board).

(** The accepted updates of one game, as a chain of boards. *)
Inductive same_game : SaoleiBoard → list GameState → SaoleiBoard → Prop :=
| game_start board : same_game board [] board
| game_step board png board' s states board'' :
    updateFromScreenshot board png = (board', Updated s) →
    same_game board' states board'' →
    same_game board (s :: states) board''.

End Recognize.

(** ** Hypotheses on the decoder and on the profiles *)

(** What [pngjs] documents: RGBA bytes, four per pixel. *)
Class PngDecoderLaws `{PngDecoder} : Prop := {
  png_read_wf bytes img : png_sync_read bytes = Some img → image_wf img;
}.

(** The profiles the recognizer can work with, and a screenshot small enough to
    be addressed. *)
Definition profile_ok (pr : ColorProfile) : Prop := numberRefs pr ≠ [] ∧ 0 < minGlyphPixels pr.

Definition screenshot_ok `{PngDecoder} (png : png_bytes) : Prop :=
  ∀ img, png_sync_read png = Some img → image_addressable img.

(** ** Lemmas *)

Lemma region_buffer_wf img ox oy cs pixels w h :
  0 ≤ cs → extractCellRegion img ox oy cs = Some (pixels, w, h) → buffer_wf pixels w h.
Proof.
  intros Hcs Hex. apply extract_inv in Hex as (-> & -> & Hlen & _).
  split_and!; [done|done|]. rewrite Hlen. lia.
Qed.

(** One cell: the pixels of its square are classified. *)
Lemma recognize_cell_spec img geo pr x y :
  image_wf img → image_addressable img → profile_ok pr → 0 ≤ cellSizePx geo →
  ∃ pixels s d,
    extractCellRegion img (originXPx geo + x * cellSizePx geo) (originYPx geo + y * cellSizePx geo)
      (cellSizePx geo) = Some (pixels, cellSizePx geo, cellSizePx geo) ∧
    recognize_cell img geo pr x y = Some (s, d) ∧
    classified pr pixels (cellSizePx geo) (cellSizePx geo) s.
Proof.
  intros Hwf Hsz [Hrefs Hmin] Hcs. unfold recognize_cell, cellOrigin.
  destruct (extract_total img (originXPx geo + x * cellSizePx geo)
    (originYPx geo + y * cellSizePx geo) (cellSizePx geo) Hwf Hsz) as [[[pixels w] h] Hex].
  pose proof (region_buffer_wf _ _ _ _ _ _ _ Hcs Hex) as Hbuf.
  apply extract_inv in Hex as Hinv. destruct Hinv as (-> & -> & _).
  destruct (classify_decides _ _ _ _ Hbuf Hrefs Hmin) as (s & d & Hc & Hs & _).
  exists pixels, s, d. rewrite Hex. simpl. by rewrite Hc.
Qed.

Lemma recognize_cells_spec img geo pr w h :
  image_wf img → image_addressable img → profile_ok pr → 0 ≤ cellSizePx geo → 0 ≤ w → 0 ≤ h →
  ∃ cells, recognize_cells img geo pr w h = Some cells ∧
    Z.of_nat (length cells) = h ∧ Forall (λ row, Z.of_nat (length row) = w) cells ∧
    ∀ x y, 0 ≤ x < w → 0 ≤ y < h →
      ∃ row, zget cells y = Some row ∧ zget row x = recognize_cell img geo pr x y.
Proof.
  intros Hwf Hsz Hpr Hcs Hw Hh. unfold recognize_cells.
  match goal with |- context [mapM ?f ?l] => destruct (mapM_total f l) as [cells Hcells] end.
  { intros y _. apply mapM_total. intros x _.
    destruct (recognize_cell_spec img geo pr x y) as (? & s & d & _ & -> & _); done. }
  exists cells. split; [done|]. pose proof (mapM_length _ _ _ Hcells) as Hlen.
  rewrite length_zrange in Hlen. split; [lia|]. split.
  - apply mapM_Some in Hcells. apply Forall_forall. intros row Hrow.
    apply list_elem_of_lookup in Hrow as [i Hi].
    destruct (Forall2_lookup_r _ _ _ _ _ Hcells Hi) as (y & _ & Hy).
    apply mapM_length in Hy. rewrite Hy, length_zrange. lia.
  - intros x y Hx Hy. destruct (proj2 (zget_range cells y)) as [row Hrow]; [lia|].
    exists row. split; [done|].
    rewrite (mapM_zrange_zget _ _ _ _ Hcells Hy) in Hrow.
    by apply (mapM_zrange_zget _ _ _ _ Hrow).
Qed.

Lemma zget_map {A B} (f : A → B) l i : zget (map f l) i = f <$> zget l i.
Proof. unfold zget. destruct (0 <=? i); [|done]. apply list_lookup_fmap. Qed.

Lemma detect_positive img geo :
  0 ≤ (board_size no_options img geo).1 ∧ 0 ≤ (board_size no_options img geo).2.
Proof. unfold board_size, detectBoardSize. simpl. lia. Qed.

Lemma recognize_no_diag `{PngDecoder} png options res :
  recognizeBoard png options false = Some res → res_diagnostics res = None.
Proof. unfold recognizeBoard. intros. by repeat (case_match || simplify_option_eq). Qed.

Section Laws.
Context `{PngDecoderLaws}.

(** The parts of a recognized state. *)
Lemma recognize_spec png options collect img :
  png_sync_read png = Some img → screenshot_ok png →
  let geo := resolveGeometry (opt_geometry options) in
  let pr := default DEFAULT_COLOR_PROFILE (opt_profile options) in
  let cp := default DEFAULT_COUNTER_PROFILE (opt_counterProfile options) in
  profile_ok pr → 0 ≤ cellSizePx geo →
  0 ≤ (board_size options img geo).1 → 0 ≤ (board_size options img geo).2 →
  ∃ res, recognizeBoard png options collect = Some res ∧
    state_wf (res_state res) ∧
    (width (res_state res), height (res_state res)) = board_size options img geo ∧
    mineCounter (res_state res) = decodeMineCounter img cp ∧
    ∀ x y, 0 ≤ x < width (res_state res) → 0 ≤ y < height (res_state res) →
      ∃ pixels s, cell_at (res_state res) x y = Some s ∧
        extractCellRegion img (originXPx geo + x * cellSizePx geo)
          (originYPx geo + y * cellSizePx geo) (cellSizePx geo)
          = Some (pixels, cellSizePx geo, cellSizePx geo) ∧
        classified pr pixels (cellSizePx geo) (cellSizePx geo) s.
Proof.
  intros Hread Hok geo pr cp Hpr Hcs Hw Hh.
  pose proof (png_read_wf _ _ Hread) as Hwf. pose proof (Hok _ Hread) as Hsz.
  unfold recognizeBoard, decodePng. fold geo pr cp. rewrite Hread. simpl.
  set (img' := mkImage (img_width img) (img_height img) (img_data img)).
  assert (img' = img) as -> by by destruct img.
  destruct (board_size options img geo) as [w h] eqn:Hbs. simpl in Hw, Hh.
  destruct (recognize_cells_spec img geo pr w h) as (cells & Hc & Hl & Hrows & Hget); [done..|].
  rewrite Hc. simpl.
  assert (is_Some (decodeMineCounter img cp)) as [counter Hcounter].
  { unfold decodeMineCounter. destruct (mapM_total (λ '(x, y), decodeCell img x y cp)
      (cellOrigins cp)) as [glyphs ->]; [|done].
    intros [x y] _. destruct (lit_exists img cp x y Hwf Hsz) as [on Hon].
    by rewrite (decodeCell_lit _ _ _ _ _ Hon). }
  rewrite Hcounter. simpl. eexists. split; [done|]. simpl. split_and!; [|done|done|].
  - unfold state_wf. simpl. split_and!; [done|done|by rewrite length_map|].
    apply Forall_map. eapply Forall_impl; [done|]. intros row Hrow. simpl in *.
    by rewrite length_map.
  - intros x y Hx Hy. destruct (Hget x y Hx Hy) as (row & Hrow & Hcell).
    destruct (recognize_cell_spec img geo pr x y) as (pixels & s & d & Hex & Hrc & Hs); [done..|].
    exists pixels, s. split_and!; [|done|done].
    unfold cell_at. simpl. rewrite zget_map, Hrow. simpl.
    by rewrite zget_map, Hcell, Hrc.
Qed.

(** What the fixed parameters of a board must satisfy for its recognition to
    work; [board_init] establishes it from its options. *)
Definition board_wf (board : SaoleiBoard) : Prop :=
  profile_ok (sb_profile board) ∧ 0 ≤ cellSizePx (sb_geometry board) ∧
  state_wf (sb_current board) ∧
  sb_width board = width (sb_current board) ∧ sb_height board = height (sb_current board).

Lemma resolve_full geo : resolveGeometry (Some (full_geometry geo)) = geo.
Proof. by destruct geo. Qed.

(** A recognized screenshot of a running game is well-formed. *)
Lemma update_recognizes board png res :
  board_wf board → screenshot_ok png →
  recognizeBoard png (mkRecognizeOptions (Some (full_geometry (sb_geometry board)))
    (Some (sb_profile board)) (Some (sb_counterProfile board)) None None) false = Some res →
  state_wf (res_state res).
Proof.
  intros (Hpr & Hcs & _) Hok Hres.
  destruct (png_sync_read png) as [img|] eqn:Hread.
  - destruct (recognize_spec png (mkRecognizeOptions (Some (full_geometry (sb_geometry board)))
      (Some (sb_profile board)) (Some (sb_counterProfile board)) None None) false img)
      as (res' & Hres' & Hwf & _); simpl; rewrite ?resolve_full; try done.
    + apply detect_positive.
    + apply detect_positive.
    + congruence.
  - unfold recognizeBoard, decodePng in Hres. by rewrite Hread in Hres.
Qed.

(** The outcomes of an update, each with what it says. *)
Lemma update_cases board png :
  board_wf board → screenshot_ok png →
  (∃ s, updateFromScreenshot board png =
      (mkBoard (sb_width board) (sb_height board) (sb_geometry board) (sb_profile board)
         (sb_counterProfile board) s, Updated s) ∧
    state_wf s ∧ width s = sb_width board ∧ height s = sb_height board ∧
    ∀ x y a b, 0 ≤ x < sb_width board → 0 ≤ y < sb_height board →
      cell_at (sb_current board) x y = Some a → cell_at s x y = Some b → cell_step a b)
  ∨ (∃ err, updateFromScreenshot board png = (board, Rejected err))
  ∨ updateFromScreenshot board png = (board, RecognitionThrew).
Proof.
  intros Hbw Hok. destruct (Hbw) as (_ & _ & Hcur & Hw & Hh). unfold updateFromScreenshot.
  destruct (recognizeBoard _ _ _) as [res|] eqn:Hres; [|by right; right].
  pose proof (update_recognizes _ _ _ Hbw Hok Hres) as Hnext.
  destruct (checkCompatible_cases _ _ Hcur Hnext)
    as [(_ & reason & ->)|[(Ew & Eh & -> & Hall)|(_ & _ & x & y & a & b & _ & _ & _ & _ & _ & ->)]].
  - right. left. by eexists.
  - left. exists (res_state res). split; [done|]. split; [done|].
    split; [congruence|]. split; [congruence|].
    intros x y a b Hx Hy Ha Hb. eapply Hall; [done|done| |]; congruence.
  - right. left. by eexists.
Qed.

(** An accepted update keeps the board well-formed. *)
Lemma update_wf board png board' s :
  board_wf board → screenshot_ok png →
  updateFromScreenshot board png = (board', Updated s) →
  board_wf board' ∧ sb_current board' = s ∧
  sb_width board' = sb_width board ∧ sb_height board' = sb_height board ∧
  ∀ x y a b, 0 ≤ x < sb_width board → 0 ≤ y < sb_height board →
    cell_at (sb_current board) x y = Some a → cell_at s x y = Some b → cell_step a b.
Proof.
  intros Hbw Hok Hup. destruct (update_cases board png Hbw Hok)
    as [(s' & Hs & Hwf & Hw & Hh & Hall)|[[err Herr]|Hthrow]]; [|congruence..].
  rewrite Hs in Hup. simplify_eq. split_and!; [|done..].
  destruct Hbw as (? & ? & _). unfold board_wf. simpl. split_and!; congruence || done.
Qed.

End Laws.

(** ** A decoder to compute with

    A raw format: the width, the height, then the RGBA bytes.  It rejects images
    that are not well-formed or not addressable, so it satisfies the decoder's
    contract. *)
Module Samples.

Definition image_wfb (img : DecodedImage) : bool :=
  (0 <=? img_width img) && (0 <=? img_height img) &&
  (Z.of_nat (length (img_data img)) =? img_width img * img_height img * 4) &&
  (img_width img * img_height img * 4 <=? 2 ^ 31) &&
  forallb (λ v, (0 <=? v) && (v <? 256)) (img_data img).

#[export] Instance raw_decoder : PngDecoder := {
  png_sync_read bytes :=
    match bytes with
    | w :: h :: data =>
        let img := mkImage w h data in if image_wfb img then Some img else None
    | _ => None
    end;
}.

Definition encode_raw (img : DecodedImage) : png_bytes :=
  img_width img :: img_height img :: img_data img.

#[export] Instance raw_decoder_laws : PngDecoderLaws.
Proof.
  split. intros bytes img. simpl. destruct bytes as [|w [|h data]]; [done..|].
  destruct (image_wfb (mkImage w h data)) eqn:E; [|done].
  intros [= <-]. unfold image_wfb in E. to_prop. split_and!; [done..|].
  apply List.Forall_forall. intros v Hv.
  match goal with Hall : forallb _ _ = true |- _ =>
    rewrite List.forallb_forall in Hall; specialize (Hall v Hv) end.
  to_prop. done.
Qed.

(** One column of 4x4 cells below a 7x3 counter; a cell is one colour, or an
    unopened cell with its white ring. *)
Definition geometry4 : PartialGeometry := mkPartialGeometry (Some 0) (Some 3) (Some 4).

Definition pad_row (l : list Z) : list Z := l ++ repeat 0 (28 - length l).

Definition solid_cell (p : RGB) : list (list Z) :=
  let px := [r p; g p; b p; 255] in repeat (pad_row (px ++ px ++ px ++ px)) 4.

Definition unopened_cell : list (list Z) :=
  let W := [255; 255; 255; 255] in let G := [192; 192; 192; 255] in
  [pad_row (W ++ W ++ W ++ W); pad_row (W ++ G ++ G ++ W);
   pad_row (W ++ G ++ G ++ W); pad_row (W ++ W ++ W ++ W)].

(** The screenshot of a column of cells, the counter showing [001]. *)
Definition shot (cells : list (list (list Z))) : DecodedImage :=
  mkImage 7 (3 + 4 * Z.of_nat (length cells))
    (lit_row (Digit 0) ++ lit_row (Digit 0) ++ lit_row (Digit 1) ++ concat (concat cells)).

Definition blue : RGB := mkRGB 0 0 255.
Definition green : RGB := mkRGB 0 128 0.

Definition options4 : RecognizeOptions :=
  mkRecognizeOptions (Some geometry4) (Some small_profile) (Some tiny_counter) None None.

Definition shot_start : png_bytes := encode_raw $ shot [solid_cell blue; unopened_cell].
Definition shot_next : png_bytes := encode_raw $ shot [solid_cell blue; solid_cell green].
Definition shot_other : png_bytes := encode_raw $ shot [unopened_cell; unopened_cell].
Definition shot_tall : png_bytes := encode_raw $ shot [solid_cell blue; unopened_cell; unopened_cell].

Definition current_after (o : option SaoleiBoard) : option (list (list CellStatus)) :=
  (λ bd, grid (sb_current bd)) <$> o.

Example start_recognized :
  current_after (board_init shot_start options4) = Some [[Num1]; [INITIAL]].
Proof. vm_compute. reflexivity. Qed.

Definition start_board : SaoleiBoard :=
  default (mkBoard 0 0 DEFAULT_GEOMETRY small_profile tiny_counter (mkGameState 0 0 [] None))
    (board_init shot_start options4).

Lemma raw_small (png : png_bytes) : screenshot_ok png.
Proof.
  intros img Hread. simpl in Hread. destruct png as [|w [|h data]]; [done..|].
  destruct (image_wfb (mkImage w h data)) eqn:E; [|done].
  injection Hread as <-. unfold image_wfb in E. to_prop. done.
Qed.

Lemma start_board_wf : board_wf start_board.
Proof.
  assert (state_wfb (sb_current start_board) = true) as Hwf by (vm_compute; reflexivity).
  unfold board_wf, profile_ok. split_and!.
  - vm_compute. discriminate.
  - vm_compute. reflexivity.
  - vm_compute. discriminate.
  - by apply state_wfb_correct.
  - vm_compute. reflexivity.
  - vm_compute. reflexivity.
Qed.

End Samples.

(** ** Properties *)

Import Samples.

Section Properties.
Context `{PngDecoderLaws}.

(** Recognizing a readable screenshot with the default options succeeds and
    yields a well-formed state: its dimensions are the ones the screenshot size
    detects, its counter is the decoded counter of the same image, and every
    cell carries the status the decision table gives the pixels of its square. *)
Theorem recognizeBoard_default png img :
  png_sync_read png = Some img → image_addressable img →
  ∃ s, recognizeBoard png no_options false = Some (mkResult s None) ∧
    state_wf s ∧
    (width s, height s) = detectBoardSize (img_width img) (img_height img) DEFAULT_GEOMETRY ∧
    mineCounter s = decodeMineCounter img DEFAULT_COUNTER_PROFILE ∧
    ∀ x y, 0 ≤ x < width s → 0 ≤ y < height s →
      ∃ pixels c, cell_at s x y = Some c ∧
        extractCellRegion img (24 + x * 32) (200 + y * 32) 32 = Some (pixels, 32, 32) ∧
        classified DEFAULT_COLOR_PROFILE pixels 32 32 c.
Proof.
  intros Hread Hsz. assert (screenshot_ok png) as Hok by (intros i Hi; congruence).
  destruct (recognize_spec png no_options false img Hread Hok) as (res & Hres & Hrest);
    [exact default_profile_ok|simpl; lia|apply detect_positive..|].
  exists (res_state res). split; [|exact Hrest].
  rewrite Hres. f_equal. apply recognize_no_diag in Hres. destruct res. simpl in *. congruence.
Qed.

(** Revealed cells are permanent across any sequence of accepted
    screenshots of one game: as long as no accepted screenshot read the cell as
    [UNKNOWN], a revealed cell still has its status at the end, whatever number
    of intermediate steps were skipped; the dimensions never change. *)
Theorem revealed_permanent board states board' x y c :
  board_wf board → (∀ png, screenshot_ok png) → same_game board states board' →
  0 ≤ x < sb_width board → 0 ≤ y < sb_height board →
  cell_at (sb_current board) x y = Some c → REVEALED c = true →
  (∀ s, s ∈ states → cell_at s x y ≠ Some UNKNOWN) →
  cell_at (sb_current board') x y = Some c ∧
  sb_width board' = sb_width board ∧ sb_height board' = sb_height board.
Proof.
  intros Hbw Hok Hgame Hx Hy Hc Hrev. revert Hbw Hx Hy Hc.
  induction Hgame as [board|board png board' s states board'' Hup Hgame IH];
    intros Hbw Hx Hy Hc Hunk; [done|].
  destruct (update_wf _ _ _ _ Hbw (Hok png) Hup) as (Hbw' & Hcur & Hw & Hh & Hstep).
  rewrite <- Hw, <- Hh. apply IH; [done|congruence|congruence| |set_solver].
  destruct Hbw' as (_ & _ & Hwf' & Ew & Eh).
  destruct (cell_at_Some (sb_current board') x y Hwf') as [c' Hc']; [congruence..|].
  assert (c' = c) as ->; [|done]. rewrite Hcur in Hc'.
  destruct (Hstep x y c c' Hx Hy Hc Hc') as [?|[->|[->|?]]]; [congruence|done| |congruence].
  exfalso. apply (Hunk s); [set_solver|done].
Qed.

(** A rejected update changes nothing and says why.  On a readable
    screenshot exactly one of three things happens: the state is accepted and
    stored; or the detected dimensions differ from the stored state's and the
    dimension error carries both sizes; or a revealed cell changed and the state
    error names the cell and its two statuses. *)
Theorem update_outcomes board png img :
  board_wf board → png_sync_read png = Some img → image_addressable img →
  let '(w, h) := detectBoardSize (img_width img) (img_height img) (sb_geometry board) in
  let '(board', outcome) := updateFromScreenshot board png in
  (outcome = Updated (sb_current board') ∧ w = sb_width board ∧ h = sb_height board)
  ∨ (board' = board ∧ (w ≠ sb_width board ∨ h ≠ sb_height board) ∧
     outcome = Rejected (BoardDimensionMismatchError (sb_width board) (sb_height board) w h))
  ∨ (board' = board ∧ w = sb_width board ∧ h = sb_height board ∧
     ∃ x y a b, 0 ≤ x < w ∧ 0 ≤ y < h ∧ cell_at (sb_current board) x y = Some a ∧
       REVEALED a = true ∧ b ≠ a ∧
       outcome = Rejected (BoardStateIncompatibleError (permanent_reason x y a b))).
Proof.
  intros (Hpr & Hcs & Hcur & Hw & Hh) Hread Hsz.
  assert (screenshot_ok png) as Hok by (intros i Hi; congruence).
  destruct (recognize_spec png (mkRecognizeOptions (Some (full_geometry (sb_geometry board)))
      (Some (sb_profile board)) (Some (sb_counterProfile board)) None None) false img Hread Hok)
    as (res & Hres & Hwf & Hdim & _); rewrite ?resolve_full; [done|done|apply detect_positive..|].
  simpl opt_geometry in Hdim. rewrite resolve_full in Hdim. cbn [board_size opt_width opt_height truthy] in Hdim.
  rewrite <- Hdim. unfold updateFromScreenshot. rewrite Hres.
  destruct (checkCompatible_cases _ _ Hcur Hwf)
    as [([E|E] & reason & ->)|[(Ew & Eh & -> & _)|
        (Ew & Eh & x & y & a & b & Hx & Hy & Ha & _ & Hs & ->)]].
  - right. left. split; [done|]. split; [left; congruence|done].
  - right. left. split; [done|]. split; [right; congruence|done].
  - left. split; [done|]. split; congruence.
  - right. right. split_and!; [done|congruence|congruence|].
    exists x, y, a, b. unfold cell_step in Hs. split_and!; try lia; try done.
    + destruct (REVEALED a) eqn:E; [done|]. exfalso. tauto.
    + intros E. apply Hs. by left.
Qed.

(** Dimensions given to [SaoleiBoard.init] are not kept for the updates: a
    board initialized with an explicit size other than the detected one rejects
    the very screenshot it was initialized from. *)
Theorem init_override_blocks_updates png img options w h board :
  png_sync_read png = Some img → image_addressable img →
  opt_width options = Some w → opt_height options = Some h → 0 < w → 0 < h →
  detectBoardSize (img_width img) (img_height img) (resolveGeometry (opt_geometry options)) ≠ (w, h) →
  profile_ok (default DEFAULT_COLOR_PROFILE (opt_profile options)) →
  0 ≤ cellSizePx (resolveGeometry (opt_geometry options)) →
  board_init png options = Some board →
  ∃ w' h', updateFromScreenshot board png =
    (board, Rejected (BoardDimensionMismatchError w h w' h')).
Proof.
  intros Hread Hsz Ew Eh Hw Hh Hdet Hpr Hcs Hinit.
  assert (screenshot_ok png) as Hok by (intros i Hi; congruence).
  set (geo := resolveGeometry (opt_geometry options)) in *.
  set (pr := default DEFAULT_COLOR_PROFILE (opt_profile options)) in *.
  set (cp := default DEFAULT_COUNTER_PROFILE (opt_counterProfile options)).
  destruct (recognize_spec png (mkRecognizeOptions (Some (full_geometry geo)) (Some pr) (Some cp)
      (opt_width options) (opt_height options)) false img Hread Hok)
    as (res & Hres & Hwf & Hdim & _);
    simpl opt_geometry; rewrite ?resolve_full; [done|done| | |].
  1, 2: unfold board_size; simpl; rewrite Ew, Eh; simpl;
    rewrite (proj2 (Z.eqb_neq w 0)), (proj2 (Z.eqb_neq h 0)) by lia; simpl; lia.
  unfold board_init in Hinit. fold geo pr cp in Hinit. rewrite Hres in Hinit. simplify_eq/=.
  rewrite ?resolve_full in Hdim. unfold board_size in Hdim. simpl in Hdim.
  rewrite Ew, Eh in Hdim. simpl in Hdim.
  rewrite (proj2 (Z.eqb_neq w 0)), (proj2 (Z.eqb_neq h 0)) in Hdim by lia.
  injection Hdim as Hw' Hh'.
  destruct (recognize_spec png (mkRecognizeOptions (Some (full_geometry geo)) (Some pr) (Some cp)
      None None) false img Hread Hok) as (res2 & Hres2 & Hwf2 & Hdim2 & _);
    simpl opt_geometry; rewrite ?resolve_full; [done|done|apply detect_positive..|].
  unfold updateFromScreenshot. simpl. rewrite Hres2.
  simpl opt_geometry in Hdim2. rewrite resolve_full in Hdim2.
  cbn [board_size opt_width opt_height truthy] in Hdim2.
  destruct (checkCompatible_cases _ _ Hwf Hwf2)
    as [(_ & reason & ->)|[(E1 & E2 & _)|(E1 & E2 & _)]].
  - rewrite Hw', Hh'. by do 2 eexists.
  - exfalso. apply Hdet. rewrite <- Hdim2, <- E1, <- E2. congruence.
  - exfalso. apply Hdet. rewrite <- Hdim2, <- E1, <- E2. congruence.
Qed.

End Properties.

(** ** Witnesses *)

Definition dark_image : DecodedImage := mkImage 1 1 [0; 0; 0; 255].
Definition dark_shot : png_bytes := encode_raw dark_image.
Definition other_image : DecodedImage := shot [unopened_cell; unopened_cell].

Lemma recognizeBoard_default_witness :
  png_sync_read (PngDecoder := raw_decoder) dark_shot = Some dark_image ∧
  image_addressable dark_image ∧
  ∃ s, recognizeBoard (H := raw_decoder) dark_shot no_options false = Some (mkResult s None) ∧
    state_wf s ∧
    (width s, height s) = detectBoardSize 1 1 DEFAULT_GEOMETRY ∧
    mineCounter s = decodeMineCounter dark_image DEFAULT_COUNTER_PROFILE ∧
    ∀ x y, 0 ≤ x < width s → 0 ≤ y < height s →
      ∃ pixels c, cell_at s x y = Some c ∧
        extractCellRegion dark_image (24 + x * 32) (200 + y * 32) 32 = Some (pixels, 32, 32) ∧
        classified DEFAULT_COLOR_PROFILE pixels 32 32 c.
Proof.
  assert (image_addressable dark_image) as Hsz by (vm_compute; discriminate).
  split; [reflexivity|]. split; [exact Hsz|].
  exact (recognizeBoard_default (H := raw_decoder) dark_shot dark_image eq_refl Hsz).
Defined.

Definition next_board : SaoleiBoard := (updateFromScreenshot (H := raw_decoder) start_board shot_next).1.
Definition next_state : GameState := sb_current next_board.

Lemma sample_game : same_game (H := raw_decoder) start_board [next_state] next_board.
Proof. apply (game_step (H := raw_decoder) _ shot_next next_board); [vm_compute; reflexivity|constructor]. Qed.

Lemma revealed_permanent_witness :
  board_wf start_board ∧ cell_at (sb_current start_board) 0 0 = Some Num1 ∧
  cell_at (sb_current next_board) 0 0 = Some Num1 ∧
  sb_width next_board = sb_width start_board ∧ sb_height next_board = sb_height start_board.
Proof.
  split; [exact start_board_wf|]. split; [vm_compute; reflexivity|].
  apply (revealed_permanent (H := raw_decoder) start_board [next_state] next_board 0 0 Num1
    start_board_wf raw_small sample_game).
  - vm_compute. split; [discriminate|reflexivity].
  - vm_compute. split; [discriminate|reflexivity].
  - vm_compute. reflexivity.
  - reflexivity.
  - intros s Hs. apply list_elem_of_singleton in Hs as ->. vm_compute. discriminate.
Defined.

(** The same screenshot two cells taller is a dimension error; one whose blue
    "1" is unopened again is a state error. *)
Example update_taller :
  (updateFromScreenshot (H := raw_decoder) start_board shot_tall).2 = Rejected (BoardDimensionMismatchError 1 2 1 3).
Proof. vm_compute. reflexivity. Qed.

Example update_other_game :
  (updateFromScreenshot (H := raw_decoder) start_board shot_other).2
    = Rejected (BoardStateIncompatibleError "cell (0,0): 1 -> INITIAL (revealed cells are permanent)").
Proof. vm_compute. reflexivity. Qed.

Lemma update_outcomes_witness :
  board_wf start_board ∧ image_addressable other_image ∧
  let '(w, h) := detectBoardSize (img_width other_image) (img_height other_image)
                   (sb_geometry start_board) in
  let '(board', outcome) := updateFromScreenshot (H := raw_decoder) start_board shot_other in
  (outcome = Updated (sb_current board') ∧ w = sb_width start_board ∧ h = sb_height start_board)
  ∨ (board' = start_board ∧ (w ≠ sb_width start_board ∨ h ≠ sb_height start_board) ∧
     outcome = Rejected
       (BoardDimensionMismatchError (sb_width start_board) (sb_height start_board) w h))
  ∨ (board' = start_board ∧ w = sb_width start_board ∧ h = sb_height start_board ∧
     ∃ x y a b, 0 ≤ x < w ∧ 0 ≤ y < h ∧ cell_at (sb_current start_board) x y = Some a ∧
       REVEALED a = true ∧ b ≠ a ∧
       outcome = Rejected (BoardStateIncompatibleError (permanent_reason x y a b))).
Proof.
  assert (image_addressable other_image) as Hsz by (vm_compute; discriminate).
  split; [exact start_board_wf|]. split; [exact Hsz|].
  refine (update_outcomes (H := raw_decoder) start_board shot_other other_image start_board_wf _ Hsz).
  vm_compute. reflexivity.
Defined.

(** [SaoleiBoard.init(shot, { width: 1, height: 1 })] on the two-cell column. *)
Definition options_override : RecognizeOptions :=
  mkRecognizeOptions (Some geometry4) (Some small_profile) (Some tiny_counter) (Some 1) (Some 1).

Definition override_board : SaoleiBoard :=
  default start_board (board_init (H := raw_decoder) shot_start options_override).

Lemma init_override_blocks_updates_witness :
  board_init (H := raw_decoder) shot_start options_override = Some override_board ∧
  ∃ w' h', updateFromScreenshot (H := raw_decoder) override_board shot_start =
    (override_board, Rejected (BoardDimensionMismatchError 1 1 w' h')).
Proof.
  assert (board_init (H := raw_decoder) shot_start options_override = Some override_board) as Hinit
    by (vm_compute; reflexivity).
  split; [exact Hinit|].
  apply (init_override_blocks_updates (H := raw_decoder) shot_start (shot [solid_cell blue; unopened_cell]) options_override 1 1);
    [vm_compute; reflexivity|vm_compute; discriminate|reflexivity|reflexivity|lia|lia
    |vm_compute; discriminate| |vm_compute; discriminate|exact Hinit].
  split; [discriminate|reflexivity].
Defined.
