(* ===== verification/Rules.v ===== *)
(** * Game rules

    [common/js/dsh-plugins/saolei/game/src/game/board.ts] and [geometry.ts] in
    the same directory: the pre-dispatch validation table, the triage sets of a
    batch, the status derivation, the statistics and the click geometry.

    A read of [grid[y][x]] outside the grid throws or gives [undefined]; the
    definitions answer [None] there, and the theorems show that well-formed
    states never reach it.  The quotient of the statistics is computed on the
    binary64 values of the language ([SpecFloat], 53-bit precision). *)

From Stdlib Require Import SpecFloat QArith Qabs Qround.
From S2P Require Import Prelude BoardTypes Validate.

#[local] Open Scope Z_scope.

(** ** geometry.ts *)

Definition BOARD_ORIGIN_X_PX : Z := 24.
Definition BOARD_ORIGIN_Y_PX_SCREENSHOT : Z := 200.
Definition CHROME_OFFSET_Y_PX : Z := 96.
Definition BOARD_ORIGIN_Y_PX : Z := BOARD_ORIGIN_Y_PX_SCREENSHOT - CHROME_OFFSET_Y_PX.
Definition CELL_SIZE_PX : Z := 32.

(** [CELL_SIZE_PX / 2] is the integer 16. *)
Definition center (x y : Z) : Z * Z :=
  (BOARD_ORIGIN_X_PX + x * CELL_SIZE_PX + CELL_SIZE_PX / 2,
   BOARD_ORIGIN_Y_PX + y * CELL_SIZE_PX + CELL_SIZE_PX / 2).

Definition WINDOW_MESSAGE : string := "MOUSE_INPUT_METHOD_WINDOW_MESSAGE".

(** ** board.ts *)

Inductive OperationType : Type := click | flag | chord.

#[global] Instance OperationType_eq_dec : EqDecision OperationType.
Proof. solve_decision. Defined.

Inductive MoveRejection : Type :=
| no_active_game
| out_of_bounds
| game_over
| game_won
| cell_already_revealed
| cell_is_flagged
| cannot_flag_revealed
| chord_requires_number
| chord_no_unrevealed_neighbor.

#[global] Instance MoveRejection_eq_dec : EqDecision MoveRejection.
Proof. solve_decision. Defined.

Inductive MoveVerdict : Type :=
| MoveOk
| MoveRejected (reason : MoveRejection).

#[global] Instance MoveVerdict_eq_dec : EqDecision MoveVerdict.
Proof. solve_decision. Defined.

Definition SKIP_REASONS (r : MoveRejection) : bool :=
  match r with
  | cell_already_revealed | cell_is_flagged | cannot_flag_revealed
  | chord_requires_number | chord_no_unrevealed_neighbor => true
  | _ => false
  end.

Definition STOP_REASONS (r : MoveRejection) : bool :=
  match r with
  | out_of_bounds | no_active_game | game_over | game_won => true
  | _ => false
  end.

Definition REVEALED_NUMBERS (s : CellStatus) : bool :=
  match s with
  | Num0 | Num1 | Num2 | Num3 | Num4 | Num5 | Num6 | Num7 | Num8 => true
  | _ => false
  end.

Definition CHORD_NUMBERS (s : CellStatus) : bool :=
  match s with
  | Num1 | Num2 | Num3 | Num4 | Num5 | Num6 | Num7 | Num8 => true
  | _ => false
  end.

Definition TERMINAL_CELLS (s : CellStatus) : bool :=
  match s with
  | HIT_MINE | MINE => true
  | _ => false
  end.

Definition NEIGHBOR_OFFSETS : list (Z * Z) :=
  [(-1, -1); (0, -1); (1, -1); (-1, 0); (1, 0); (-1, 1); (0, 1); (1, 1)].

Definition isTerminalState (s : GameState) : bool := existsb TERMINAL_CELLS (all_cells s).

Inductive GameStatus : Type := won | lost | playing.

#[global] Instance GameStatus_eq_dec : EqDecision GameStatus.
Proof. solve_decision. Defined.

Definition gameStatus (s : GameState) : GameStatus :=
  if isTerminalState s then lost else if isWin s then won else playing.

(** [Record<OperationType, number>]. *)
Record OpCounts : Type := mkOpCounts { n_click : Z; n_flag : Z; n_chord : Z }.

Definition zero_counts : OpCounts := mkOpCounts 0 0 0.

Definition count_op (t : OperationType) (c : OpCounts) : OpCounts :=
  match t with
  | click => mkOpCounts (n_click c + 1) (n_flag c) (n_chord c)
  | flag => mkOpCounts (n_click c) (n_flag c + 1) (n_chord c)
  | chord => mkOpCounts (n_click c) (n_flag c) (n_chord c + 1)
  end.

Definition total_counts (c : OpCounts) : Z := n_click c + n_flag c + n_chord c.

(** *** Binary64 arithmetic *)

Definition float : Type := spec_float.
Definition float_of_Z (z : Z) : float := binary_normalize 53 1024 z 0 false.
Definition fdiv : float → float → float := SFdiv 53 1024.
Definition fmul : float → float → float := SFmul 53 1024.

(** The exact value of a finite float. *)
Definition float_val (f : float) : option Q :=
  match f with
  | S754_zero _ => Some 0%Q
  | S754_finite s m e =>
      let z := if s then Z.neg m else Z.pos m in
      Some (if 0 <=? e then inject_Z (z * 2 ^ e) else z # Z.to_pos (2 ^ (- e)))
  | _ => None
  end.

(** [Math.round]: the integer nearest, ties towards plus infinity. *)
Definition math_round (f : float) : option Z :=
  (λ q, Qfloor (q + (1 # 2))) <$> float_val f.

Inductive AvgOps : Type := AvgNA | Avg (v : float).

Record GameStats : Type := mkGameStats {
  operationCount : Z;
  operationsByType : OpCounts;
  correctFlags : option jsnum;
  avgOpsPerMine : AvgOps;
}.

(** [Math.round((operationCount / correctFlags) * 100) / 100]. *)
Definition round2_ratio (a b : Z) : AvgOps :=
  match math_round (fmul (fdiv (float_of_Z a) (float_of_Z b)) (float_of_Z 100)) with
  | Some n => Avg (fdiv (float_of_Z n) (float_of_Z 100))
  | None => AvgNA
  end.

Definition count_cells (c : CellStatus) (s : GameState) : Z :=
  countb (λ c', bool_decide (c' = c)) (all_cells s).

Definition computeGameStats (initState : option GameState) (finalState : GameState)
    (opCount : Z) (byType : OpCounts) : GameStats :=
  let correct :=
    match initState ≫= mineCounter with
    | Some (Decoded totalMines) =>
        Some (jsnum_lift2 Z.sub (jsnum_lift2 Z.sub totalMines (JNum (count_cells MINE finalState)))
                (JNum (count_cells HIT_MINE finalState)))
    | _ => None
    end in
  let avg :=
    match correct with
    | Some (JNum n) => if 0 <? n then round2_ratio opCount n else AvgNA
    | _ => AvgNA
    end in
  mkGameStats opCount byType correct avg.

(** *** Neighbours and moves *)

Definition neighbor_coords (s : GameState) (x y : Z) : list (Z * Z) :=
  List.filter (λ '(nx, ny), (0 <=? nx) && (0 <=? ny) && (nx <? width s) && (ny <? height s))
    (map (λ '(dx, dy), (x + dx, y + dy)) NEIGHBOR_OFFSETS).

Definition neighbors (s : GameState) (x y : Z) : option (list CellStatus) :=
  mapM (λ '(nx, ny), cell_at s nx ny) (neighbor_coords s x y).

Definition initial_or_unknown (c : CellStatus) : bool :=
  bool_decide (c = INITIAL) || bool_decide (c = UNKNOWN).

Definition hasInitialOrUnknownNeighbor (s : GameState) (x y : Z) : option bool :=
  existsb initial_or_unknown <$> neighbors s x y.

(** The per-type rule on the target cell. *)
Definition validate_cell (s : GameState) (tool : OperationType) (x y : Z) (cell : CellStatus)
    : option MoveVerdict :=
  match tool with
  | click =>
      Some (if REVEALED_NUMBERS cell then MoveRejected cell_already_revealed
            else if bool_decide (cell = FLAG) then MoveRejected cell_is_flagged
            else MoveOk)
  | flag =>
      Some (if REVEALED_NUMBERS cell then MoveRejected cannot_flag_revealed else MoveOk)
  | chord =>
      if negb (CHORD_NUMBERS cell) then Some (MoveRejected chord_requires_number)
      else
        has ← hasInitialOrUnknownNeighbor s x y;
        Some (if (has : bool) then MoveOk else MoveRejected chord_no_unrevealed_neighbor)
  end.

Definition validateMove (s : GameState) (tool : OperationType) (x y : Z) : option MoveVerdict :=
  if (x <? 0) || (y <? 0) || (width s <=? x) || (height s <=? y) then
    Some (MoveRejected out_of_bounds)
  else if isTerminalState s then Some (MoveRejected game_over)
  else if isWin s then Some (MoveRejected game_won)
  else
    cell ← cell_at s x y;
    if bool_decide (cell = UNKNOWN) then Some MoveOk
    else validate_cell s tool x y cell.

Definition remainTokenAt (s : GameState) (x y : Z) : option string :=
  cell ← cell_at s x y;
  if CHORD_NUMBERS cell then
    ns ← neighbors s x y;
    let flagCount := countb (λ c, bool_decide (c = FLAG)) ns in
    match status_number cell with
    | JNum n => Some (num_str (n - flagCount))
    | JNaN => Some "NaN"%string
    end
  else Some "-"%string.

(** ** Lemmas *)

Lemma neighbor_coords_spec s x y nx ny :
  (nx, ny) ∈ neighbor_coords s x y ↔
  Z.abs (nx - x) ≤ 1 ∧ Z.abs (ny - y) ≤ 1 ∧ (nx, ny) ≠ (x, y) ∧
  0 ≤ nx < width s ∧ 0 ≤ ny < height s.
Proof.
  unfold neighbor_coords. rewrite list_elem_of_In, filter_In, in_map_iff.
  rewrite !andb_true_iff, !Z.leb_le, !Z.ltb_lt. split.
  - intros [([dx dy] & [= <- <-] & Hin) Hb].
    assert (- 1 ≤ dx ≤ 1 ∧ - 1 ≤ dy ≤ 1 ∧ (dx ≠ 0 ∨ dy ≠ 0)) as (? & ? & Hd).
    { simpl in Hin. destruct_or!; simplify_eq; lia. }
    split_and!; try lia. intros E. injection E as ??. lia.
  - intros (Hx & Hy & Hne & ? & ?). split; [|lia].
    exists (nx - x, ny - y). split; [f_equal; lia|].
    assert (nx - x ≠ 0 ∨ ny - y ≠ 0) as Hd.
    { destruct (decide (nx = x)), (decide (ny = y)); subst; try lia. done. }
    assert (nx - x = -1 ∨ nx - x = 0 ∨ nx - x = 1) as Ex by lia.
    assert (ny - y = -1 ∨ ny - y = 0 ∨ ny - y = 1) as Ey by lia.
    simpl. destruct Ex as [Ex|[Ex|Ex]], Ey as [Ey|[Ey|Ey]]; rewrite Ex, Ey in *; tauto || lia.
Qed.

Lemma neighbors_total s x y : state_wf s → is_Some (neighbors s x y).
Proof.
  intros Hwf. apply mapM_total. intros [nx ny] (_ & _ & _ & ? & ?)%neighbor_coords_spec.
  by apply cell_at_Some.
Qed.

Lemma neighbors_elem s x y ns c :
  neighbors s x y = Some ns →
  (c ∈ ns ↔ ∃ nx ny, (nx, ny) ∈ neighbor_coords s x y ∧ cell_at s nx ny = Some c).
Proof.
  intros H%mapM_Some. split.
  - intros [i Hi]%list_elem_of_lookup.
    destruct (Forall2_lookup_r _ _ _ _ _ H Hi) as ([nx ny] & Hc & Hcell).
    exists nx, ny. split; [by eapply list_elem_of_lookup_2|done].
  - intros (nx & ny & [i Hi]%list_elem_of_lookup & Hcell).
    destruct (Forall2_lookup_l _ _ _ _ _ H Hi) as (c' & Hc' & Hcell').
    simplify_eq. by eapply list_elem_of_lookup_2.
Qed.

(** Some neighbour on the board is unopened or unknown. *)
Definition open_neighbor (s : GameState) (x y : Z) : Prop :=
  ∃ nx ny c, Z.abs (nx - x) ≤ 1 ∧ Z.abs (ny - y) ≤ 1 ∧ (nx, ny) ≠ (x, y) ∧
    0 ≤ nx < width s ∧ 0 ≤ ny < height s ∧ cell_at s nx ny = Some c ∧ c ∈ [INITIAL; UNKNOWN].

Lemma has_open_neighbor s x y :
  state_wf s →
  ∃ has, hasInitialOrUnknownNeighbor s x y = Some has ∧ (has = true ↔ open_neighbor s x y).
Proof.
  intros Hwf. unfold hasInitialOrUnknownNeighbor.
  destruct (neighbors_total s x y Hwf) as [ns Hns]. rewrite Hns. simpl.
  eexists. split; [done|]. rewrite existsb_exists. split.
  - intros (c & Hin & Hc). apply list_elem_of_In, (neighbors_elem s x y ns c Hns) in Hin
      as (nx & ny & (? & ? & ? & ? & ?)%neighbor_coords_spec & Hcell).
    exists nx, ny, c. split_and!; try done; try lia.
    unfold initial_or_unknown in Hc. apply orb_true_iff in Hc as [Hc|Hc];
      apply bool_decide_eq_true in Hc as ->; set_solver.
  - intros (nx & ny & c & ? & ? & ? & ? & ? & Hcell & Hc). exists c. split.
    + apply list_elem_of_In, (neighbors_elem s x y ns c Hns).
      exists nx, ny. by rewrite neighbor_coords_spec.
    + unfold initial_or_unknown. apply orb_true_iff. rewrite !bool_decide_eq_true. set_solver.
Qed.

Lemma isTerminal_iff s : isTerminalState s = true ↔ ∃ c, c ∈ all_cells s ∧ c ∈ [HIT_MINE; MINE].
Proof.
  unfold isTerminalState. rewrite existsb_cells. split.
  - intros (c & Hc & Ht). exists c. destruct c; try done; set_solver.
  - intros (c & Hc & Ht). exists c. split; [done|]. destruct c; try done; set_solver.
Qed.

(** A won board is not a lost one: the two terminal verdicts exclude each other. *)
Lemma isWin_not_terminal s : isWin s = true → isTerminalState s = false.
Proof.
  intros Hwin. apply not_true_is_false. intros (c & Hin & Hc)%isTerminal_iff.
  unfold isWin in Hwin. destruct (existsb NON_WIN_CELLS (all_cells s)) eqn:E; [done|].
  assert (existsb NON_WIN_CELLS (all_cells s) = true); [|congruence].
  apply existsb_cells. exists c. split; [done|]. destruct c; try done; set_solver.
Qed.

Lemma status_playing s : gameStatus s = playing ↔ isTerminalState s = false ∧ isWin s = false.
Proof. unfold gameStatus. destruct (isTerminalState s), (isWin s); naive_solver. Qed.

Lemma playing_cell s x y c :
  gameStatus s = playing → cell_at s x y = Some c → c ≠ MINE ∧ c ≠ HIT_MINE.
Proof.
  intros [Ht _]%status_playing Hc%cell_at_elem.
  split; intros ->; apply not_true_iff_false in Ht; apply Ht, isTerminal_iff;
    eexists; (split; [exact Hc|set_solver]).
Qed.

(** The target rule of each operation on a board in play. *)
Definition legal_target (s : GameState) (tool : OperationType) (x y : Z) (c : CellStatus) : Prop :=
  c = UNKNOWN ∨
  match tool with
  | click => c = INITIAL
  | flag => c = INITIAL ∨ c = FLAG
  | chord => c ∈ [Num1; Num2; Num3; Num4; Num5; Num6; Num7; Num8] ∧ open_neighbor s x y
  end.

Lemma validate_cell_spec s tool x y c :
  state_wf s → c ≠ UNKNOWN → c ≠ MINE → c ≠ HIT_MINE →
  ∃ v, validate_cell s tool x y c = Some v ∧
    (v = MoveOk ↔ legal_target s tool x y c) ∧
    (∀ r, v = MoveRejected r → SKIP_REASONS r = true).
Proof.
  intros Hwf Hu Hm Hh. unfold validate_cell, legal_target. destruct tool.
  - eexists. split; [done|]. destruct c; simpl; naive_solver.
  - eexists. split; [done|]. destruct c; simpl; naive_solver.
  - destruct (has_open_neighbor s x y Hwf) as (has & Hhas & Hiff).
    destruct (CHORD_NUMBERS c) eqn:E; simpl.
    + rewrite Hhas. simpl. eexists. split; [done|].
      assert (c ∈ [Num1; Num2; Num3; Num4; Num5; Num6; Num7; Num8])
        by (destruct c; try done; set_solver).
      destruct has; naive_solver.
    + eexists. split; [done|]. split; [|naive_solver]. split; [done|].
      intros [|[Hin _]]; [done|]. exfalso. destruct c; try done; set_solver.
Qed.

(** Every verdict on a well-formed state. *)
Lemma validateMove_cases s tool x y :
  state_wf s →
  (¬ (0 ≤ x < width s ∧ 0 ≤ y < height s) ∧
   validateMove s tool x y = Some (MoveRejected out_of_bounds)) ∨
  (0 ≤ x < width s ∧ 0 ≤ y < height s ∧ gameStatus s = lost ∧
   validateMove s tool x y = Some (MoveRejected game_over)) ∨
  (0 ≤ x < width s ∧ 0 ≤ y < height s ∧ gameStatus s = won ∧
   validateMove s tool x y = Some (MoveRejected game_won)) ∨
  (0 ≤ x < width s ∧ 0 ≤ y < height s ∧ gameStatus s = playing ∧
   ∃ c v, cell_at s x y = Some c ∧ validateMove s tool x y = Some v ∧
     (v = MoveOk ↔ legal_target s tool x y c) ∧
     (∀ r, v = MoveRejected r → SKIP_REASONS r = true)).
Proof.
  intros Hwf. unfold validateMove.
  destruct ((x <? 0) || (y <? 0) || (width s <=? x) || (height s <=? y)) eqn:Hb.
  { left. split; [|done]. rewrite !orb_true_iff in Hb. lia. }
  to_prop. right. unfold gameStatus.
  destruct (isTerminalState s) eqn:Ht; [left; split_and!; lia || done|]. right.
  destruct (isWin s) eqn:Hw; [left; split_and!; lia || done|]. right.
  destruct (cell_at_Some s x y Hwf) as [c Hc]; [lia|lia|]. rewrite Hc. simpl.
  split_and!; try lia; [done|].
  assert (gameStatus s = playing) as Hpl by by apply status_playing.
  destruct (playing_cell _ _ _ _ Hpl Hc) as [Hm Hh].
  case_bool_decide as Eu; simpl.
  - exists c, MoveOk. split_and!; [done|done| |done]. split; [|done]. intros _. by left.
  - destruct (validate_cell_spec s tool x y c Hwf Eu Hm Hh) as (v & ? & ? & ?). by exists c, v.
Qed.

(** Reading [neighbors] through a boolean test. *)
Lemma neighbors_exists (p : CellStatus → bool) s x y ns :
  neighbors s x y = Some ns →
  (existsb p ns = true ↔
   ∃ nx ny c, (nx, ny) ∈ neighbor_coords s x y ∧ cell_at s nx ny = Some c ∧ p c = true).
Proof.
  intros Hns. rewrite existsb_exists. split.
  - intros (c & Hin & Hc). apply list_elem_of_In, (neighbors_elem s x y ns c Hns) in Hin. naive_solver.
  - intros (nx & ny & c & Hin & Hcell & Hc). exists c. split; [|done].
    apply list_elem_of_In, (neighbors_elem s x y ns c Hns). naive_solver.
Qed.

Lemma validateMove_total s tool x y : state_wf s → is_Some (validateMove s tool x y).
Proof.
  intros Hwf. destruct (validateMove_cases s tool x y Hwf)
    as [[_ ->]|[(_ & _ & _ & ->)|[(_ & _ & _ & ->)|(_ & _ & _ & c & v & _ & -> & _)]]]; eauto.
Qed.

(** An accepted move targets a cell of a board in play. *)
Lemma validateMove_ok s tool x y :
  state_wf s → validateMove s tool x y = Some MoveOk →
  0 ≤ x < width s ∧ 0 ≤ y < height s ∧ gameStatus s = playing ∧
  ∃ c, cell_at s x y = Some c ∧ legal_target s tool x y c.
Proof.
  intros Hwf Hok. destruct (validateMove_cases s tool x y Hwf)
    as [[_ E]|[(_ & _ & _ & E)|[(_ & _ & _ & E)|(? & ? & ? & c & v & ? & E & ? & _)]]];
    rewrite E in Hok; simplify_eq. split_and!; [lia..|done|]. exists c. naive_solver.
Qed.

(** ** Properties *)

(** C38: pre-dispatch validation decides legality.  On a well-formed state
    [validateMove] answers, and it accepts exactly the moves inside the board,
    on a board still in play, whose target cell allows the operation: any
    operation on an [UNKNOWN] cell, a click on an unopened cell, a flag toggle
    on an unopened or flagged one, a chord on a 1..8 with an unopened or
    unknown neighbour on the board. *)
Theorem validateMove_decides_legality s tool x y (Hwf : state_wf s) :
  ∃ v, validateMove s tool x y = Some v ∧
    (v = MoveOk ↔
     0 ≤ x < width s ∧ 0 ≤ y < height s ∧ gameStatus s = playing ∧
     ∃ c, cell_at s x y = Some c ∧ legal_target s tool x y c).
Proof.
  destruct (validateMove_cases s tool x y Hwf)
    as [[Hout E]|[(? & ? & Hl & E)|[(? & ? & Hw & E)|(? & ? & Hp & c & v & Hc & E & Hiff & _)]]];
    rewrite E; eexists; (split; [done|]).
  - split; [done|]. intros (? & ? & _). exfalso. tauto.
  - split; [done|]. intros (_ & _ & ? & _). congruence.
  - split; [done|]. intros (_ & _ & ? & _). congruence.
  - rewrite Hiff. split; [by eauto 7|]. intros (_ & _ & _ & c' & ? & ?). by simplify_eq.
Qed.

(** The triage of a rejection.  The reasons [validateMove] produces are
    split by the two sets: a reason is a harmless skip exactly when the target
    is on the board and the game is still in play, and it stops the batch in
    every other case; [no_active_game] is never produced by the validation. *)
Theorem rejection_triage s tool x y reason
    (Hwf : state_wf s) (Hrej : validateMove s tool x y = Some (MoveRejected reason)) :
  (SKIP_REASONS reason = true ↔
   0 ≤ x < width s ∧ 0 ≤ y < height s ∧ gameStatus s = playing) ∧
  STOP_REASONS reason = negb (SKIP_REASONS reason) ∧
  reason ≠ no_active_game.
Proof.
  destruct (validateMove_cases s tool x y Hwf)
    as [[Hout E]|[(? & ? & Hl & E)|[(? & ? & Hw & E)|(? & ? & Hp & c & v & Hc & E & _ & Hskip)]]];
    rewrite E in Hrej; injection Hrej as Hrej; subst; simpl.
  - split_and!; [|done..]. split; [done|]. intros (? & ? & _). exfalso. tauto.
  - split_and!; [|done..]. split; [done|]. intros (_ & _ & ?). congruence.
  - split_and!; [|done..]. split; [done|]. intros (_ & _ & ?). congruence.
  - specialize (Hskip _ eq_refl). split_and!; [naive_solver|by destruct reason|by destruct reason].
Qed.

(** A 3x2 board in play: a 1 with an unopened and a flagged neighbour. *)
Definition sample_state : GameState :=
  mkGameState 3 2 [[Num1; INITIAL; FLAG]; [Num0; Num2; Num1]] None.

Lemma sample_state_wf : state_wf sample_state.
Proof. by apply state_wfb_correct. Qed.

Lemma validateMove_decides_legality_witness :
  state_wf sample_state ∧
  validateMove sample_state chord 0 0 = Some MoveOk ∧
  ∃ v, validateMove sample_state flag 1 0 = Some v ∧
    (v = MoveOk ↔
     0 ≤ 1 < width sample_state ∧ 0 ≤ 0 < height sample_state ∧ gameStatus sample_state = playing ∧
     ∃ c, cell_at sample_state 1 0 = Some c ∧ legal_target sample_state flag 1 0 c).
Proof.
  split; [apply sample_state_wf|]. split; [reflexivity|].
  apply (validateMove_decides_legality sample_state flag 1 0), sample_state_wf.
Defined.

Lemma rejection_triage_witness :
  validateMove sample_state click 2 0 = Some (MoveRejected cell_is_flagged) ∧
  SKIP_REASONS cell_is_flagged = true.
Proof.
  split; [reflexivity|].
  apply (rejection_triage sample_state click 2 0 cell_is_flagged); [apply sample_state_wf|reflexivity|].
  simpl. split_and!; lia || reflexivity.
Defined.

(** A click lands on the cell it names.  The client-space point [center]
    computes, moved back to screenshot space by the chrome height, falls in the
    pixel square the recognizer reads for cell [(x', y')] under its default
    geometry exactly when that cell is [(x, y)]. *)
Theorem center_hits_recognized_cell x y x' y' :
  let p := center x y in
  let o := cellOrigin x' y' DEFAULT_GEOMETRY in
  (o.1 ≤ p.1 < o.1 + cellSizePx DEFAULT_GEOMETRY ∧
   o.2 ≤ p.2 + CHROME_OFFSET_Y_PX < o.2 + cellSizePx DEFAULT_GEOMETRY)
  ↔ (x', y') = (x, y).
Proof.
  cbv [center cellOrigin DEFAULT_GEOMETRY originXPx originYPx cellSizePx fst snd
       BOARD_ORIGIN_X_PX BOARD_ORIGIN_Y_PX BOARD_ORIGIN_Y_PX_SCREENSHOT CHROME_OFFSET_Y_PX CELL_SIZE_PX].
  change (32 / 2) with 16. split; [intros ?; f_equal; lia|intros [= -> ->]; lia].
Qed.

(** The numbers on which the remaining-mines grid is computed. *)
Lemma chord_number c :
  CHORD_NUMBERS c = true → ∃ n, 1 ≤ n ≤ 8 ∧ status_number c = JNum n.
Proof. destruct c; try done; intros _; eexists; (split; [|reflexivity]); lia. Qed.

Lemma neighbors_length s x y ns : neighbors s x y = Some ns → (length ns ≤ 8)%nat.
Proof.
  intros H%mapM_length. rewrite H. unfold neighbor_coords.
  etransitivity; [apply List.filter_length_le|]. by rewrite List.length_map.
Qed.

(** The remaining-mines token.  On a cell of a well-formed state the token
    of [saolei_remain] is ["-"] unless the cell is a number 1..8, and then it is
    the number minus the flagged neighbours on the board, a value between -7
    and 8. *)
Theorem remainTokenAt_spec s x y
    (Hwf : state_wf s) (Hx : 0 ≤ x < width s) (Hy : 0 ≤ y < height s) :
  ∃ c ns, cell_at s x y = Some c ∧ neighbors s x y = Some ns ∧
    ((CHORD_NUMBERS c = false ∧ remainTokenAt s x y = Some "-"%string) ∨
     (CHORD_NUMBERS c = true ∧ ∃ n,
        status_number c = JNum (n + countb (λ c', bool_decide (c' = FLAG)) ns) ∧
        -7 ≤ n ≤ 8 ∧ remainTokenAt s x y = Some (num_str n))).
Proof.
  destruct (cell_at_Some s x y Hwf Hx Hy) as [c Hc].
  destruct (neighbors_total s x y Hwf) as [ns Hns].
  exists c, ns. split_and!; [done..|]. unfold remainTokenAt. rewrite Hc. simpl.
  destruct (CHORD_NUMBERS c) eqn:E; [right|left; done].
  destruct (chord_number c E) as (n & Hn & Hnum). split; [done|].
  rewrite Hns. simpl. rewrite Hnum.
  pose proof (countb_bounds (λ c', bool_decide (c' = FLAG)) ns) as Hb.
  pose proof (neighbors_length _ _ _ _ Hns).
  eexists. split_and!; [..|done]; [f_equal; lia|lia|lia].
Qed.

Lemma remainTokenAt_spec_witness :
  ∃ c ns, cell_at sample_state 1 1 = Some c ∧ neighbors sample_state 1 1 = Some ns ∧
    ((CHORD_NUMBERS c = false ∧ remainTokenAt sample_state 1 1 = Some "-"%string) ∨
     (CHORD_NUMBERS c = true ∧ ∃ n,
        status_number c = JNum (n + countb (λ c', bool_decide (c' = FLAG)) ns) ∧
        -7 ≤ n ≤ 8 ∧ remainTokenAt sample_state 1 1 = Some (num_str n))).
Proof. apply (remainTokenAt_spec sample_state 1 1); [apply sample_state_wf|simpl; lia..]. Defined.

(** *** Statistics *)

(** The exact value of a reported average. *)
Definition avg_val (a : AvgOps) : option Q :=
  match a with
  | Avg f => float_val f
  | AvgNA => None
  end.

(** [|q - a/n| <= 0.005 + 2^-40], on the exact rationals. *)
Definition avg_close (a n : Z) (q : Q) : bool :=
  Qle_bool (Qabs (q - (a # Z.to_pos n))) ((5 # 1000) + (1 # 2 ^ 40)).

Definition avg_ok (a n : Z) : bool :=
  match avg_val (round2_ratio a n) with
  | Some q => avg_close a n q
  | None => false
  end.

(** The mine totals of the beginner, intermediate and expert boards, and a bound
    on the operations of a game. *)
Definition preset_mines : list Z := [10; 40; 99].
Definition max_ops : Z := 300.

Definition avg_table (mines : list Z) (ops : Z) : bool :=
  forallb (λ n, forallb (λ a, avg_ok a n) (zrange 0 ops)) mines.

Lemma avg_table_spec mines ops a n :
  avg_table mines ops = true → n ∈ mines → 0 ≤ a < ops → avg_ok a n = true.
Proof.
  unfold avg_table. rewrite List.forallb_forall. intros H Hn%list_elem_of_In Ha.
  specialize (H n Hn). rewrite List.forallb_forall in H.
  by apply H, list_elem_of_In, elem_of_zrange.
Qed.

Lemma avg_presets : avg_table preset_mines max_ops = true.
Proof. vm_compute. reflexivity. Qed.

(** The end-of-game statistics.  [correctFlags] is the initial counter
    minus the exposed mines of the final board, and [null] when there is no
    initial board or its counter was not decoded; [avgOpsPerMine] is ["N/A"]
    whenever [correctFlags] is not a positive number, and no [NaN] or infinity
    is reported for a game of fewer than 300 operations won on one of the
    preset boards: there it is within half a hundredth (plus the representation
    error) of the exact quotient.  The counts are passed on unchanged. *)
Theorem computeGameStats_spec init final opCount byType :
  let st := computeGameStats init final opCount byType in
  operationCount st = opCount ∧ operationsByType st = byType ∧
  correctFlags st =
    match init ≫= mineCounter with
    | Some (Decoded (JNum m)) => Some (JNum (m - count_cells MINE final - count_cells HIT_MINE final))
    | Some (Decoded JNaN) => Some JNaN
    | _ => None
    end ∧
  ((∀ n, correctFlags st = Some (JNum n) → n ≤ 0) → avgOpsPerMine st = AvgNA) ∧
  (∀ n, correctFlags st = Some (JNum n) → n ∈ preset_mines → 0 ≤ opCount < max_ops →
     ∃ q, avg_val (avgOpsPerMine st) = Some q ∧ avg_close opCount n q = true).
Proof.
  unfold computeGameStats. simpl. split_and!; [done|done| | |].
  - destruct (init ≫= mineCounter) as [[[]|]|]; reflexivity.
  - destruct (init ≫= mineCounter) as [[[m|]|]|]; simpl; try done. intros H.
    specialize (H _ eq_refl). destruct (Z.ltb_spec 0 (m - count_cells MINE final - count_cells HIT_MINE final));
      [lia|done].
  - intros n -> Hn Hops. pose proof (avg_table_spec _ _ _ _ avg_presets Hn Hops) as H.
    assert ((0 <? n) = true) as -> by (unfold preset_mines in Hn; set_unfold in Hn; lia).
    unfold avg_ok in H. destruct (avg_val (round2_ratio opCount n)) as [q|]; [|done]. by exists q.
Qed.

(** 41 operations for 40 mines are 1.025 operations per mine; the binary64
    product falls just under 102.5 and the reported average is 1.02, the same
    value as for the exact decimal 1.02. *)
Example avg_rounds_down : round2_ratio 41 40 = round2_ratio 102 100.
Proof. vm_compute. reflexivity. Qed.

(** The derived status is loss-first and its values exclude each other: a
    board is lost exactly when some cell shows a mine; it is won exactly when
    every cell is a revealed number or a flag and the counter was decoded to
    zero (an absent or undecodable counter, an unopened, unknown or mine cell
    each deny the win); it is in play in every other case. *)
Theorem gameStatus_spec s :
  (gameStatus s = lost ↔ ∃ c, c ∈ all_cells s ∧ c ∈ [HIT_MINE; MINE]) ∧
  (gameStatus s = won ↔
     (∀ c, c ∈ all_cells s → c ∈ [Num0; Num1; Num2; Num3; Num4; Num5; Num6; Num7; Num8; FLAG]) ∧
     mineCounter s = Some (Decoded (JNum 0))) ∧
  (gameStatus s = playing ↔ gameStatus s ≠ lost ∧ gameStatus s ≠ won).
Proof.
  rewrite <- isTerminal_iff, <- isWin_iff. unfold gameStatus.
  pose proof (isWin_not_terminal s).
  destruct (isTerminalState s), (isWin s); naive_solver.
Qed.
