(* ===== verification/GameText.v ===== *)
(** * Result texts of the game tools

    [common/js/dsh-plugins/saolei/game/src/game/text.ts]: the bodies the tools
    return to the model.  A template literal is a concatenation; a string is its
    UTF-8 bytes (the code only concatenates them). *)

From S2P Require Import Prelude BoardTypes Render Validate Rules.

#[local] Open Scope Z_scope.
#[local] Open Scope string_scope.

Definition INIT_OUTCOME : string := "new game started".
Definition REJECT_PREFIX : string := "rejected:".
Definition UNRECOGNIZABLE_OUTCOME : string := "unable to recognize board".
Definition REMAIN_OUTCOME : string := "saolei_remain → computed".

Definition REMAIN_LEGEND : string :=
  "legend: each value = mines still unmarked around that number cell = " +:+
  "cell number − adjacent flags (0 or negative when over-flagged); it is " +:+
  "NOT the count of flags. Columns are x and rows are y — the same (x, y) " +:+
  "as saolei_operate.".

(** The literals the enumerations stand for. *)
Definition op_name (t : OperationType) : string :=
  match t with click => "click" | flag => "flag" | chord => "chord" end.

Definition status_str (s : GameStatus) : string :=
  match s with won => "won" | lost => "lost" | playing => "playing" end.

Definition reason_str (r : MoveRejection) : string :=
  match r with
  | no_active_game => "no_active_game"
  | out_of_bounds => "out_of_bounds"
  | game_over => "game_over"
  | game_won => "game_won"
  | cell_already_revealed => "cell_already_revealed"
  | cell_is_flagged => "cell_is_flagged"
  | cannot_flag_revealed => "cannot_flag_revealed"
  | chord_requires_number => "chord_requires_number"
  | chord_no_unrevealed_neighbor => "chord_no_unrevealed_neighbor"
  end.

(** An operation of a batch ([CellOperation], and [StoppedOp] which has the same
    fields). *)
Record CellOperation : Type := mkOp { op_type : OperationType; op_x : Z; op_y : Z }.

#[global] Instance CellOperation_eq_dec : EqDecision CellOperation.
Proof. solve_decision. Defined.

(** [MoveRejection | "won" | "lost"]. *)
Inductive StopReason : Type :=
| StopRejected (reason : MoveRejection)
| StopEnded (status : GameStatus).

Definition stop_reason_str (r : option StopReason) : string :=
  match r with
  | Some (StopRejected r) => reason_str r
  | Some (StopEnded s) => status_str s
  | None => "null"
  end.

Definition status_line (s : GameState) : string := "game status: " +:+ status_str (gameStatus s).

Definition initSuccessText (s : GameState) : string :=
  INIT_OUTCOME +:+ nl +:+ status_line s +:+ nl +:+ nl +:+ renderBoardText s.

Definition operate_line (executed skipped : Z) (stoppedOp : option CellOperation)
    (stoppedReason : option StopReason) : string :=
  match stoppedOp with
  | Some op =>
      "saolei_operate → stopped at " +:+ op_name (op_type op) +:+ "(" +:+ num_str (op_x op) +:+
      "," +:+ num_str (op_y op) +:+ ") (" +:+ stop_reason_str stoppedReason +:+ ")"
  | None =>
      if (0 <? skipped)%Z then
        "saolei_operate → executed " +:+ num_str executed +:+ " ops, skipped " +:+
        num_str skipped +:+ " no-op ops"
      else "saolei_operate → executed " +:+ num_str executed +:+ " ops"
  end.

Definition operateResultText (executed skipped : Z) (s : GameState)
    (stoppedOp : option CellOperation) (stoppedReason : option StopReason) : string :=
  operate_line executed skipped stoppedOp stoppedReason +:+ nl +:+
  status_line s +:+ nl +:+ nl +:+ renderBoardText s.

Definition rejectionText (reason : MoveRejection) (s : option GameState) : string :=
  match s with
  | None =>
      REJECT_PREFIX +:+ " " +:+ reason_str reason +:+ nl +:+ nl +:+
      "call saolei_init first to start a game."
  | Some s =>
      REJECT_PREFIX +:+ " " +:+ reason_str reason +:+ nl +:+
      status_line s +:+ nl +:+ nl +:+ renderBoardText s +:+ nl +:+
      "valid range: x 0.." +:+ num_str (width s - 1) +:+ ", y 0.." +:+ num_str (height s - 1)
  end.

Definition unrecognizableText : string :=
  UNRECOGNIZABLE_OUTCOME +:+ nl +:+ nl +:+ "call saolei_init to start a new game.".

(** [None] when [remainTokenAt] reads outside the grid. *)
Definition remainText (s : GameState) : option string :=
  remain ← renderGridWithRuler (width s) (height s) (remainTokenAt s);
  Some (REMAIN_OUTCOME +:+ nl +:+ status_line s +:+ nl +:+ nl +:+
        "board size " +:+ num_str (width s) +:+ "*" +:+ num_str (height s) +:+ nl +:+
        REMAIN_LEGEND +:+ nl +:+ nl +:+ remain).

(** [GameEventRecord] of runtime.ts. *)
Record GameEventRecord : Type := mkEvent {
  ev_status : GameStatus;
  ev_stats : GameStats;
  ev_endedAt : Z;
}.

Definition gameStatsText (record : GameEventRecord) : string :=
  let result := if bool_decide (ev_status record = won) then "胜利" else "失败" in
  let st := ev_stats record in
  "本局游戏结束：" +:+ result +:+ "。" +:+ nl +:+
  "本局共执行 " +:+ num_str (operationCount st) +:+ " 个操作：click " +:+
  num_str (n_click (operationsByType st)) +:+ " 次、flag " +:+
  num_str (n_flag (operationsByType st)) +:+ " 次、chord " +:+
  num_str (n_chord (operationsByType st)) +:+ " 次。".
