(* ===== verification/Wire.v ===== *)
(** * Wire types of the desktop bridge

    [common/js/dsh-plugins/desktop-bridge/src/wire.ts].  A member declared
    [?: T | null] is an [option]: the code reads both absent forms the same way
    ([??], or truthiness of an object). *)

From S2P Require Import Prelude.

#[local] Open Scope Z_scope.

Inductive ToolResultStatus : Type := STATUS_UNSPECIFIED | STATUS_SUCCEEDED | STATUS_FAILED.

#[global] Instance ToolResultStatus_eq_dec : EqDecision ToolResultStatus.
Proof. solve_decision. Defined.

Inductive StatusSignalStatus : Type := SIGNAL_UNSPECIFIED | SIGNAL_ACTIVE | SIGNAL_IDLE.

(** [data] is base64 text. *)
Record OperationScreenshot : Type := mkScreenshot {
  os_data : string;
  os_widthPx : Z;
  os_heightPx : Z;
}.

Record OperationResult : Type := mkOpResult {
  or_status : ToolResultStatus;
  or_message : string;
  or_screenshot : option OperationScreenshot;
}.

(** [Uint8Array | string]. *)
Inductive ImageData : Type :=
| DataBytes (bytes : list Z)
| DataText (text : string).

(** The members of [WireImagePart] the bridge reads. *)
Record WireImagePart : Type := mkImagePart {
  ip_data : option ImageData;
  ip_widthPx : option Z;
  ip_heightPx : option Z;
}.

Record WireFlowResultPart : Type := mkResultPart {
  rp_toolId : option string;
  rp_status : option ToolResultStatus;
  rp_message : option string;
  rp_screenshot : option WireImagePart;
}.

Record WireMouseMovePart : Type := mkMouseMove {
  mm_toolId : option string;
  mm_xPx : option Z;
  mm_yPx : option Z;
  mm_method : option string;
}.

Record WireMouseClickPart : Type := mkMouseClick {
  mc_toolId : option string;
  mc_click : option string;
  mc_method : option string;
}.

Record WireKeyboardPressPart : Type := mkKeyboardPress {
  kp_toolId : option string;
  kp_key : option string;
}.

Record WireMouseMoveAndClickPart : Type := mkMoveAndClick {
  mac_toolId : option string;
  mac_xPx : option Z;
  mac_yPx : option Z;
  mac_click : option string;
  mac_method : option string;
}.

(** The oneof members of a [FlowPart]; of the three signals the bridge reads
    their presence, and the status it writes. *)
Record WireFlowPart : Type := mkFlowPart {
  fp_mouseMove : option WireMouseMovePart;
  fp_mouseClick : option WireMouseClickPart;
  fp_keyboardPress : option WireKeyboardPressPart;
  fp_mouseMoveAndClick : option WireMouseMoveAndClickPart;
  fp_wait : bool;
  fp_warn : bool;
  fp_status : option StatusSignalStatus;
  fp_flowResult : option WireFlowResultPart;
}.

(** Object literals with a single member. *)
Definition keyboardPress (p : WireKeyboardPressPart) : WireFlowPart :=
  mkFlowPart None None (Some p) None false false None None.

Definition mouseMoveAndClick (p : WireMouseMoveAndClickPart) : WireFlowPart :=
  mkFlowPart None None None (Some p) false false None None.

Definition statusPart (s : StatusSignalStatus) : WireFlowPart :=
  mkFlowPart None None None None false false (Some s) None.

(** [BridgeUserFrame]: the payload; [flowParts?.parts ?? []] of a present
    payload. *)
Record BridgeUserFrame : Type := mkUserFrame { uf_flowParts : option (option (list WireFlowPart)) }.

Record BridgeTeamFrame : Type := mkTeamFrame {
  tf_sessionId : string;
  tf_templateId : string;
  tf_frameId : string;
  tf_seconds : Z;
  tf_nanos : Z;
  tf_parts : list WireFlowPart;
}.
