(* ===== verification/Runtime.v ===== *)
(** * The game runtime

    [common/js/dsh-plugins/saolei/game/src/game/runtime.ts], with the
    recognition seam of [board.ts] in the same directory.

    The collaborators are interfaces: [SaoleiBoardApi] is the recognition
    engine (its state is what the closure of [createDefaultBoardApi] captures)
    and [RuntimeEnv] is the rest of the world: the desktop dispatch, the
    clock, the board-change subscriber and [Buffer.from(data, "base64")], which
    Node implements.  The world is threaded through every call that reaches it.

    The methods are [async]; a tool awaits one call before the agent starts the
    next, so a call runs to its end against the fields it started from.  The
    abort signal is only handed on to [dispatch], where it is part of the world. *)

From S2P Require Import Prelude BoardTypes Image Classify Validate Recognize Rules GameText Wire.

#[local] Open Scope Z_scope.

(** ** The recognition seam *)

(** [SaoleiBoardApi]: a recognition that throws answers [None]. *)
Class SaoleiBoardApi : Type := {
  api_state : Type;
  api_init : api_state → png_bytes → api_state * option GameState;
  api_update : api_state → png_bytes → api_state * option GameState;
}.

(** What the runtime relies on: recognized boards are well-formed. *)
Class SaoleiBoardApiLaws `{SaoleiBoardApi} : Type := {
  api_inv : api_state → Prop;
  api_init_wf a png a' o :
    api_inv a → api_init a png = (a', o) → api_inv a' ∧ ∀ s, o = Some s → state_wf s;
  api_update_wf a png a' o :
    api_inv a → api_update a png = (a', o) → api_inv a' ∧ ∀ s, o = Some s → state_wf s;
}.

(** [createDefaultBoardApi]: the captured [board] starts as [null]. *)
Section DefaultApi.
Context `{PngDecoder}.

Definition default_api_init (board : option SaoleiBoard) (png : png_bytes)
    : option SaoleiBoard * option GameState :=
  match board_init png no_options with
  | Some b => (Some b, Some (sb_current b))
  | None => (board, None)
  end.

Definition default_api_update (board : option SaoleiBoard) (png : png_bytes)
    : option SaoleiBoard * option GameState :=
  match board with
  | None => (None, None)
  | Some b =>
      match updateFromScreenshot b png with
      | (b', Updated s) => (Some b', Some s)
      | (b', _) => (Some b', None)
      end
  end.

Definition createDefaultBoardApi : SaoleiBoardApi :=
  {| api_state := option SaoleiBoard;
     api_init := default_api_init;
     api_update := default_api_update |}.

End DefaultApi.

(** ** Data *)

Definition KEY_F2 : string := "KEYBOARD_KEY_F2".

Definition OPERATION_ACTIONS (t : OperationType) : string :=
  match t with
  | click => "MOUSE_CLICK_ACTION_LEFT_CLICK"
  | flag => "MOUSE_CLICK_ACTION_RIGHT_CLICK"
  | chord => "MOUSE_CLICK_ACTION_LEFT_RIGHT_PRESS"
  end.

Inductive OperateInput : Type :=
| Single (op : CellOperation)
| Batch (operations : list CellOperation).

(** [concludesTurn] is present only as [true]. *)
Inductive ToolOutcome : Type :=
| ToolText (text : string) (concludesTurn : bool)
| ToolError (message : string).

Record GameLogEntry : Type := mkEntry {
  le_tool : string;
  le_operations : option (list CellOperation);
  le_state : GameState;
  le_status : GameStatus;
}.

Class RuntimeEnv : Type := {
  W : Type;
  env_dispatch : W → WireFlowPart → W * OperationResult;
  env_now : W → Z;
  (** The subscriber, if any; [false] when it throws. *)
  env_onBoardChange : option (W → GameLogEntry → W * bool);
  env_from_base64 : string → png_bytes;
}.

Section Runtime.
Context `{SaoleiBoardApi} `{RuntimeEnv}.

(** The private fields of [GameRuntime], with the engine's captured state. *)
Record GameRuntime : Type := mkRuntime {
  recognized : option GameState;
  initState : option GameState;
  rt_operationCount : Z;
  rt_operationsByType : OpCounts;
  gameLog : list GameLogEntry;
  gameEvent : option GameEventRecord;
  boardApi : api_state;
}.

(** A freshly constructed runtime. *)
Definition new_runtime (a : api_state) : GameRuntime :=
  mkRuntime None None 0 zero_counts [] None a.

Definition concludeMarker (s : GameState) : bool :=
  match gameStatus s with won | lost => true | playing => false end.

Definition set_recognized (rt : GameRuntime) (s : option GameState) (a : api_state) : GameRuntime :=
  mkRuntime s (initState rt) (rt_operationCount rt) (rt_operationsByType rt) (gameLog rt)
    (gameEvent rt) a.

(** [recognize]: [!data] holds of an absent screenshot and of empty data. *)
Definition recognize (rt : GameRuntime) (result : OperationResult)
    (recognizer : api_state → png_bytes → api_state * option GameState)
    : GameRuntime * option GameState :=
  match os_data <$> or_screenshot result with
  | None | Some EmptyString => (set_recognized rt None (boardApi rt), None)
  | Some data =>
      let '(a, o) := recognizer (boardApi rt) (env_from_base64 data) in
      (set_recognized rt o a, o)
  end.

Definition start_game (rt : GameRuntime) (s : GameState) : GameRuntime :=
  mkRuntime (recognized rt) (Some s) 0 zero_counts
    [mkEntry "saolei_init" None s playing] (gameEvent rt) (boardApi rt).

Definition init (rt : GameRuntime) (w : W) : GameRuntime * W * ToolOutcome :=
  let '(w, result) := env_dispatch w (keyboardPress (mkKeyboardPress None (Some KEY_F2))) in
  match or_status result with
  | STATUS_FAILED => (rt, w, ToolError (or_message result))
  | _ =>
      match recognize rt result api_init with
      | (rt, None) => (rt, w, ToolText unrecognizableText false)
      | (rt, Some s) => (start_game rt s, w, ToolText (initSuccessText s) (concludeMarker s))
      end
  end.

(** [OpExecution]; [kind_threw] is a [TypeError] of the validation, which a
    well-formed state never produces. *)
Inductive OpExecution : Type :=
| kind_ok (s : GameState) (status : GameStatus)
| kind_skip (reason : MoveRejection)
| kind_stop (reason : MoveRejection)
| kind_dispatch_failed (message : string)
| kind_unrecognizable
| kind_threw.

Definition count_operation (rt : GameRuntime) (t : OperationType) : GameRuntime :=
  mkRuntime (recognized rt) (initState rt) (rt_operationCount rt + 1)
    (count_op t (rt_operationsByType rt)) (gameLog rt) (gameEvent rt) (boardApi rt).

Definition op_part (op : CellOperation) : WireFlowPart :=
  let '(xPx, yPx) := center (op_x op) (op_y op) in
  mouseMoveAndClick (mkMoveAndClick None (Some xPx) (Some yPx)
    (Some (OPERATION_ACTIONS (op_type op))) (Some WINDOW_MESSAGE)).

Definition executeOperation (rt : GameRuntime) (w : W) (op : CellOperation)
    : GameRuntime * W * OpExecution :=
  match recognized rt with
  | None => (rt, w, kind_stop no_active_game)
  | Some s =>
      match validateMove s (op_type op) (op_x op) (op_y op) with
      | None => (rt, w, kind_threw)
      | Some (MoveRejected reason) =>
          (rt, w, if SKIP_REASONS reason then kind_skip reason else kind_stop reason)
      | Some MoveOk =>
          let '(w, result) := env_dispatch w (op_part op) in
          match or_status result with
          | STATUS_FAILED => (rt, w, kind_dispatch_failed (or_message result))
          | _ =>
              match recognize rt result api_update with
              | (rt, None) => (rt, w, kind_unrecognizable)
              | (rt, Some s) => (count_operation rt (op_type op), w, kind_ok s (gameStatus s))
              end
          end
      end
  end.

(** How the batch loop ends: through its bound or a [break], with the local
    variables of [operate]; or through a [return] or an exception. *)
Record BatchLocals : Type := mkLocals {
  executed : Z;
  skipped : Z;
  stoppedOp : option CellOperation;
  stoppedReason : option StopReason;
  endedStatus : option GameStatus;
}.

Definition no_locals : BatchLocals := mkLocals 0 0 None None None.

Inductive LoopExit : Type :=
| LoopDone (l : BatchLocals)
| LoopDispatchFailed (message : string)
| LoopUnrecognizable
| LoopThrew.

Fixpoint operate_loop (ops : list CellOperation) (l : BatchLocals) (rt : GameRuntime) (w : W)
    : GameRuntime * W * LoopExit :=
  match ops with
  | [] => (rt, w, LoopDone l)
  | op :: ops =>
      let '(rt, w, result) := executeOperation rt w op in
      match result with
      | kind_ok s status =>
          if bool_decide (status ≠ playing) then
            (rt, w, LoopDone (mkLocals (executed l + 1) (skipped l) (Some op)
                                (Some (StopEnded status)) (Some status)))
          else
            operate_loop ops (mkLocals (executed l + 1) (skipped l) (stoppedOp l)
                                (stoppedReason l) (endedStatus l)) rt w
      | kind_skip _ =>
          operate_loop ops (mkLocals (executed l) (skipped l + 1) (stoppedOp l)
                              (stoppedReason l) (endedStatus l)) rt w
      | kind_stop reason =>
          (rt, w, LoopDone (mkLocals (executed l) (skipped l) (Some op)
                              (Some (StopRejected reason)) (endedStatus l)))
      | kind_dispatch_failed message => (rt, w, LoopDispatchFailed message)
      | kind_unrecognizable => (rt, w, LoopUnrecognizable)
      | kind_threw => (rt, w, LoopThrew)
      end
  end.

Definition push_log (rt : GameRuntime) (e : GameLogEntry) : GameRuntime :=
  mkRuntime (recognized rt) (initState rt) (rt_operationCount rt) (rt_operationsByType rt)
    (gameLog rt ++ [e]) (gameEvent rt) (boardApi rt).

Definition set_event (rt : GameRuntime) (e : GameEventRecord) : GameRuntime :=
  mkRuntime (recognized rt) (initState rt) (rt_operationCount rt) (rt_operationsByType rt)
    (gameLog rt) (Some e) (boardApi rt).

(** The result of an [async] method: the outcome, or a rejected promise. *)
Inductive CallResult : Type :=
| Returned (o : ToolOutcome)
| Threw.

(** The board-change call: on the committed entry, for a batch that executed
    something and left the game in play. *)
Definition publish (l : BatchLocals) (entry : GameLogEntry) (w : W) : W * bool :=
  match env_onBoardChange with
  | Some f =>
      if (0 <? executed l) && bool_decide (le_status entry = playing) then f w entry else (w, true)
  | None => (w, true)
  end.

(** The terminal tail. *)
Definition end_game (l : BatchLocals) (finalState : GameState) (rt : GameRuntime) (w : W)
    : GameRuntime :=
  match endedStatus l with
  | Some status =>
      let stats := computeGameStats (initState rt) finalState (rt_operationCount rt)
                     (rt_operationsByType rt) in
      push_log (set_event rt (mkEvent status stats (env_now w)))
        (mkEntry "(game-end)" None finalState status)
  | None => rt
  end.

(** The code after the loop. *)
Definition finish_batch (ops : list CellOperation) (l : BatchLocals) (rt : GameRuntime) (w : W)
    : GameRuntime * W * CallResult :=
  match recognized rt with
  | None => (rt, w, Returned (ToolText (rejectionText no_active_game None) false))
  | Some finalState =>
      let entry := mkEntry "saolei_operate" (Some ops) finalState (gameStatus finalState) in
      let rt := push_log rt entry in
      let '(w, returned) := publish l entry w in
      if (returned : bool) then
        (end_game l finalState rt w, w,
         Returned (ToolText (operateResultText (executed l) (skipped l) finalState
                               (stoppedOp l) (stoppedReason l))
                    (concludeMarker finalState)))
      else (rt, w, Threw)
  end.

Definition input_operations (input : OperateInput) : list CellOperation :=
  match input with
  | Single op => [op]
  | Batch ops => ops
  end.

Definition operate (rt : GameRuntime) (w : W) (input : OperateInput)
    : GameRuntime * W * CallResult :=
  match input_operations input with
  | [] =>
      match recognized rt with
      | None => (rt, w, Returned (ToolText (rejectionText no_active_game None) false))
      | Some s => (rt, w, Returned (ToolText (operateResultText 0 0 s None None) (concludeMarker s)))
      end
  | ops =>
      match operate_loop ops no_locals rt w with
      | (rt, w, LoopDone l) => finish_batch ops l rt w
      | (rt, w, LoopDispatchFailed message) => (rt, w, Returned (ToolError message))
      | (rt, w, LoopUnrecognizable) => (rt, w, Returned (ToolText unrecognizableText false))
      | (rt, w, LoopThrew) => (rt, w, Threw)
      end
  end.

Definition remain (rt : GameRuntime) : CallResult :=
  match recognized rt with
  | None => Returned (ToolText (rejectionText no_active_game None) false)
  | Some s =>
      match remainText s with
      | Some text => Returned (ToolText text false)
      | None => Threw
      end
  end.

Definition peekGameEvent (rt : GameRuntime) : option GameEventRecord := gameEvent rt.

Definition peekGameLog (rt : GameRuntime) : list GameLogEntry := gameLog rt.

End Runtime.

(** ** Specification of a batch

    What [saolei_operate] promises, in terms of the board rules and not of the
    code's reason codes: each operation is judged on the board recognized just
    before it. *)
Section Spec.
Context `{SaoleiBoardApi} `{RuntimeEnv}.

Definition on_board (s : GameState) (op : CellOperation) : Prop :=
  0 ≤ op_x op < width s ∧ 0 ≤ op_y op < height s.

(** The board is in play and the target allows the operation. *)
Definition legal (s : GameState) (op : CellOperation) : Prop :=
  on_board s op ∧ gameStatus s = playing ∧
  ∃ c, cell_at s (op_x op) (op_y op) = Some c ∧
    legal_target s (op_type op) (op_x op) (op_y op) c.

Inductive BatchEnd : Type :=
| EndNormal
| EndStopped (op : CellOperation) (reason : MoveRejection)
| EndGame (op : CellOperation) (status : GameStatus)
| EndFailed (message : string)
| EndUnrecognizable.

(** What a screenshot shows: the board the engine makes of it, or none when there is
    nothing to look at; the engine's state moves with it, the rest stays. *)
Inductive seen (rt : GameRuntime) (result : OperationResult) : GameRuntime → option GameState → Prop :=
| seen_nothing :
    default EmptyString (os_data <$> or_screenshot result) = EmptyString →
    seen rt result
      (mkRuntime None (initState rt) (rt_operationCount rt) (rt_operationsByType rt) (gameLog rt)
         (gameEvent rt) (boardApi rt)) None
| seen_screenshot data a o :
    os_data <$> or_screenshot result = Some data → data ≠ EmptyString →
    api_update (boardApi rt) (env_from_base64 data) = (a, o) →
    seen rt result
      (mkRuntime o (initState rt) (rt_operationCount rt) (rt_operationsByType rt) (gameLog rt)
         (gameEvent rt) a) o.

(** One operation more, of its type. *)
Definition counted (rt : GameRuntime) (t : OperationType) : GameRuntime :=
  let one t' : Z := if bool_decide (t' = t) then 1 else 0 in
  let c := rt_operationsByType rt in
  mkRuntime (recognized rt) (initState rt) (rt_operationCount rt + 1)
    (mkOpCounts (n_click c + one click) (n_flag c + one flag) (n_chord c + one chord))
    (gameLog rt) (gameEvent rt) (boardApi rt).

(** [batch ops rt w rt' w' e k fin]: from [rt] and [w] the batch leads to [rt']
    and [w'], having executed [e] operations and skipped [k]. *)
Inductive batch : list CellOperation → GameRuntime → W → GameRuntime → W → Z → Z → BatchEnd → Prop :=
| batch_nil rt w : batch [] rt w rt w 0 0 EndNormal
| batch_inactive op ops rt w :
    recognized rt = None →
    batch (op :: ops) rt w rt w 0 0 (EndStopped op no_active_game)
| batch_off_board op ops rt w s :
    recognized rt = Some s → ¬ on_board s op →
    batch (op :: ops) rt w rt w 0 0 (EndStopped op out_of_bounds)
| batch_over op ops rt w s :
    recognized rt = Some s → on_board s op → gameStatus s = lost →
    batch (op :: ops) rt w rt w 0 0 (EndStopped op game_over)
| batch_won op ops rt w s :
    recognized rt = Some s → on_board s op → gameStatus s = won →
    batch (op :: ops) rt w rt w 0 0 (EndStopped op game_won)
| batch_skip op ops rt w rt' w' s e k fin :
    recognized rt = Some s → on_board s op → gameStatus s = playing → ¬ legal s op →
    batch ops rt w rt' w' e k fin →
    batch (op :: ops) rt w rt' w' e (k + 1) fin
| batch_failed op ops rt w w' s result :
    recognized rt = Some s → legal s op →
    env_dispatch w (op_part op) = (w', result) → or_status result = STATUS_FAILED →
    batch (op :: ops) rt w rt w' 0 0 (EndFailed (or_message result))
| batch_unrecognizable op ops rt w rt' w' s result :
    recognized rt = Some s → legal s op →
    env_dispatch w (op_part op) = (w', result) → or_status result ≠ STATUS_FAILED →
    seen rt result rt' None →
    batch (op :: ops) rt w rt' w' 0 0 EndUnrecognizable
| batch_ends op ops rt w rt' w' s s' result :
    recognized rt = Some s → legal s op →
    env_dispatch w (op_part op) = (w', result) → or_status result ≠ STATUS_FAILED →
    seen rt result rt' (Some s') → gameStatus s' ≠ playing →
    batch (op :: ops) rt w (counted rt' (op_type op)) w' 1 0 (EndGame op (gameStatus s'))
| batch_executes op ops rt w rt' w' rt'' w'' s s' result e k fin :
    recognized rt = Some s → legal s op →
    env_dispatch w (op_part op) = (w', result) → or_status result ≠ STATUS_FAILED →
    seen rt result rt' (Some s') → gameStatus s' = playing →
    batch ops (counted rt' (op_type op)) w' rt'' w'' e k fin →
    batch (op :: ops) rt w rt'' w'' (e + 1) k fin.

(** *** What the call answers and commits once the batch is over *)

Definition over (s : GameState) : bool := bool_decide (gameStatus s ≠ playing).

Definition batch_record (ops : list CellOperation) (s : GameState) : GameLogEntry :=
  mkEntry "saolei_operate" (Some ops) s (gameStatus s).

Definition logged (rt : GameRuntime) (entries : list GameLogEntry) (ev : option GameEventRecord) : GameRuntime :=
  mkRuntime (recognized rt) (initState rt) (rt_operationCount rt) (rt_operationsByType rt)
    (gameLog rt ++ entries) ev (boardApi rt).

(** The subscriber, if there is one, is told of a batch that executed something and
    left the game in play; it may throw. *)
Definition told (ops : list CellOperation) (e : Z) (s : GameState) (w : W) : W * bool :=
  match env_onBoardChange with
  | Some subscriber =>
      if bool_decide (0 < e ∧ gameStatus s = playing) then subscriber w (batch_record ops s) else (w, true)
  | None => (w, true)
  end.

(** A batch that leaves a board and does not end its game: one entry, the
    subscriber, the answer. *)
Definition reported (ops : list CellOperation) (e k : Z) (s : GameState)
    (stopped : option CellOperation) (reason : option StopReason) (rt : GameRuntime) (w : W)
    : GameRuntime * W * CallResult :=
  let '(w, returned) := told ops e s w in
  (logged rt [batch_record ops s] (gameEvent rt), w,
   if (returned : bool) then Returned (ToolText (operateResultText e k s stopped reason) (over s)) else Threw).

Definition batch_result (ops : list CellOperation) (e k : Z) (fin : BatchEnd)
    (rt : GameRuntime) (w : W) : GameRuntime * W * CallResult :=
  match fin, recognized rt with
  | EndFailed message, _ => (rt, w, Returned (ToolError message))
  | EndUnrecognizable, _ => (rt, w, Returned (ToolText unrecognizableText false))
  | _, None => (rt, w, Returned (ToolText (rejectionText no_active_game None) false))
  | EndNormal, Some s =>
      if bool_decide (ops = []) then (rt, w, Returned (ToolText (operateResultText 0 0 s None None) (over s)))
      else reported ops e k s None None rt w
  | EndStopped op reason, Some s => reported ops e k s (Some op) (Some (StopRejected reason)) rt w
  | EndGame op status, Some s =>
      (logged rt [batch_record ops s; mkEntry "(game-end)" None s status]
         (Some (mkEvent status
            (computeGameStats (initState rt) s (rt_operationCount rt) (rt_operationsByType rt)) (env_now w))), w,
       Returned (ToolText (operateResultText e k s (Some op) (Some (StopEnded status))) true))
  end.

End Spec.

(** ** Lemmas *)

Section Lemmas.
Context `{SaoleiBoardApiLaws} `{RuntimeEnv}.

Definition rt_wf (rt : GameRuntime) : Prop :=
  api_inv (boardApi rt) ∧ ∀ s, recognized rt = Some s → state_wf s.

Lemma recognize_fields rt result recognizer rt' o :
  recognize rt result recognizer = (rt', o) →
  recognized rt' = o ∧ initState rt' = initState rt ∧
  rt_operationCount rt' = rt_operationCount rt ∧
  rt_operationsByType rt' = rt_operationsByType rt ∧
  gameLog rt' = gameLog rt ∧ gameEvent rt' = gameEvent rt.
Proof. unfold recognize. intros Hr. case_all; done. Qed.

Lemma recognize_update_wf rt result rt' o :
  rt_wf rt → recognize rt result api_update = (rt', o) → rt_wf rt'.
Proof.
  intros [Hinv _] Hr. unfold recognize in Hr.
  destruct (os_data <$> or_screenshot result) as [[|a data]|]; simplify_eq/=; [by split| |by split].
  destruct (api_update (boardApi rt) _) as [a' o'] eqn:E; simplify_eq/=.
  destruct (api_update_wf _ _ _ _ Hinv E). by split.
Qed.

Lemma recognize_init_wf rt result rt' o :
  rt_wf rt → recognize rt result api_init = (rt', o) → rt_wf rt'.
Proof.
  intros [Hinv _] Hr. unfold recognize in Hr.
  destruct (os_data <$> or_screenshot result) as [[|a data]|]; simplify_eq/=; [by split| |by split].
  destruct (api_init (boardApi rt) _) as [a' o'] eqn:E; simplify_eq/=.
  destruct (api_init_wf _ _ _ _ Hinv E). by split.
Qed.

Lemma recognize_seen rt result rt' o : recognize rt result api_update = (rt', o) ↔ seen rt result rt' o.
Proof.
  unfold recognize. split.
  - destruct (os_data <$> or_screenshot result) as [[|c data]|] eqn:E.
    1, 3: intros [= <- <-]; apply seen_nothing; by rewrite E.
    destruct (api_update _ _) as [a o'] eqn:Ea. intros [= <- <-]. by apply (seen_screenshot _ _ _ _ _ E).
  - intros [Hno|data a o' -> Hne Ha]; [by destruct (os_data <$> or_screenshot result) as [[|]|]|].
    destruct data; [done|]. by rewrite Ha.
Qed.

Lemma counted_eq rt t : counted rt t = count_operation rt t.
Proof. unfold counted, count_operation, count_op. destruct t; cbn; by rewrite !Z.add_0_r. Qed.

Lemma seen_fields rt result rt' o :
  seen rt result rt' o →
  recognized rt' = o ∧ initState rt' = initState rt ∧
  rt_operationCount rt' = rt_operationCount rt ∧
  rt_operationsByType rt' = rt_operationsByType rt ∧
  gameLog rt' = gameLog rt ∧ gameEvent rt' = gameEvent rt.
Proof. intros Hr%recognize_seen. by eapply recognize_fields. Qed.

Lemma seen_wf rt result rt' o : rt_wf rt → seen rt result rt' o → rt_wf rt'.
Proof. intros Hwf Hr%recognize_seen. by eapply recognize_update_wf. Qed.

(** The validation verdict in terms of legality. *)
Lemma validate_op s op :
  state_wf s →
  (¬ on_board s op ∧
   validateMove s (op_type op) (op_x op) (op_y op) = Some (MoveRejected out_of_bounds)) ∨
  (on_board s op ∧ gameStatus s = lost ∧
   validateMove s (op_type op) (op_x op) (op_y op) = Some (MoveRejected game_over)) ∨
  (on_board s op ∧ gameStatus s = won ∧
   validateMove s (op_type op) (op_x op) (op_y op) = Some (MoveRejected game_won)) ∨
  (on_board s op ∧ gameStatus s = playing ∧ ¬ legal s op ∧ ∃ r, SKIP_REASONS r = true ∧
   validateMove s (op_type op) (op_x op) (op_y op) = Some (MoveRejected r)) ∨
  (legal s op ∧ validateMove s (op_type op) (op_x op) (op_y op) = Some MoveOk).
Proof.
  intros Hwf. unfold on_board, legal.
  destruct (validateMove_cases s (op_type op) (op_x op) (op_y op) Hwf)
    as [[? ?]|[(? & ? & ? & ?)|[(? & ? & ? & ?)|(? & ? & Hp & c & v & Hc & Hv & Hiff & Hskip)]]];
    [tauto|tauto|tauto|].
  do 3 right. destruct v as [|r].
  - right. split; [|done]. split_and!; try done; try lia. exists c. naive_solver.
  - left. split_and!; try done; try lia; [|by eauto].
    intros (_ & _ & c' & Hc' & Hl). simplify_eq. by apply Hiff in Hl.
Qed.

Lemma loop_locals_step ops : ∀ l rt w,
  operate_loop ops l rt w =
  let '(rt', w', ex) := operate_loop ops no_locals rt w in
  (rt', w',
   match ex with
   | LoopDone l' =>
       LoopDone (mkLocals (executed l + executed l') (skipped l + skipped l')
         (match stoppedOp l' with Some op => Some op | None => stoppedOp l end)
         (match stoppedReason l' with Some r => Some r | None => stoppedReason l end)
         (match endedStatus l' with Some s => Some s | None => endedStatus l end))
   | _ => ex
   end).
Proof.
  induction ops as [|op ops IH]; intros l rt w; simpl.
  - destruct l; simpl. by rewrite !Z.add_0_r.
  - destruct (executeOperation rt w op) as [[rt1 w1] [s st|r|r|m| |]]; simpl; try done.
    + case_bool_decide; simpl; [by rewrite Z.add_0_r|].
      rewrite (IH (mkLocals _ _ _ _ _)), (IH (mkLocals 1 _ _ _ _)).
      destruct (operate_loop ops no_locals rt1 w1) as [[rt2 w2] [l'| | |]]; simpl; try done.
      f_equal; f_equal; f_equal; (lia || by repeat case_match).
    + rewrite (IH (mkLocals _ _ _ _ _)), (IH (mkLocals 0 _ _ _ _)).
      destruct (operate_loop ops no_locals rt1 w1) as [[rt2 w2] [l'| | |]]; simpl; try done.
      f_equal; f_equal; f_equal; (lia || by repeat case_match).
    + f_equal; f_equal; f_equal; (lia || done).
Qed.

(** *** The loop runs the specification *)

Definition batch_locals (e k : Z) (fin : BatchEnd) : BatchLocals :=
  match fin with
  | EndStopped op reason => mkLocals e k (Some op) (Some (StopRejected reason)) None
  | EndGame op status => mkLocals e k (Some op) (Some (StopEnded status)) (Some status)
  | _ => mkLocals e k None None None
  end.

(** What the code after the loop makes of its exit. *)
Definition after_loop (ops : list CellOperation) (e k : Z) (fin : BatchEnd)
    (rt : GameRuntime) (w : W) : GameRuntime * W * CallResult :=
  match fin with
  | EndFailed message => (rt, w, Returned (ToolError message))
  | EndUnrecognizable => (rt, w, Returned (ToolText unrecognizableText false))
  | _ => finish_batch ops (batch_locals e k fin) rt w
  end.

Definition loop_exit (e k : Z) (fin : BatchEnd) : LoopExit :=
  match fin with
  | EndFailed message => LoopDispatchFailed message
  | EndUnrecognizable => LoopUnrecognizable
  | _ => LoopDone (batch_locals e k fin)
  end.

Lemma validate_legal s op :
  state_wf s → legal s op → validateMove s (op_type op) (op_x op) (op_y op) = Some MoveOk.
Proof.
  intros Hwf Hl. assert (gameStatus s = playing) by apply Hl.
  assert (on_board s op) by apply Hl.
  destruct (validate_op s op Hwf) as [[? _]|[(_ & ? & _)|[(_ & ? & _)|[(_ & _ & ? & _)|[_ ?]]]]];
    congruence || tauto.
Qed.

Lemma validate_skip s op :
  state_wf s → on_board s op → gameStatus s = playing → ¬ legal s op →
  ∃ r, SKIP_REASONS r = true ∧
    validateMove s (op_type op) (op_x op) (op_y op) = Some (MoveRejected r).
Proof.
  intros Hwf ???.
  destruct (validate_op s op Hwf) as [[? _]|[(_ & ? & _)|[(_ & ? & _)|[(_ & _ & _ & ?)|[? _]]]]];
    congruence || tauto.
Qed.

(** What one operation does, by legality. *)
Lemma exec_legal rt w op s w' result :
  rt_wf rt → recognized rt = Some s → legal s op →
  env_dispatch w (op_part op) = (w', result) →
  executeOperation rt w op =
    match or_status result with
    | STATUS_FAILED => (rt, w', kind_dispatch_failed (or_message result))
    | _ => match recognize rt result api_update with
           | (rt', None) => (rt', w', kind_unrecognizable)
           | (rt', Some s') => (count_operation rt' (op_type op), w', kind_ok s' (gameStatus s'))
           end
    end.
Proof.
  intros [_ Hwf] Hr Hl Hd. unfold executeOperation.
  by rewrite Hr, (validate_legal s op (Hwf s Hr) Hl), Hd.
Qed.

(** The answer of an operation whose dispatch did not fail. *)
Lemma exec_sent rt w op s w' result rt' o :
  rt_wf rt → recognized rt = Some s → legal s op →
  env_dispatch w (op_part op) = (w', result) → or_status result ≠ STATUS_FAILED →
  seen rt result rt' o →
  executeOperation rt w op =
    match o with
    | None => (rt', w', kind_unrecognizable)
    | Some s' => (counted rt' (op_type op), w', kind_ok s' (gameStatus s'))
    end.
Proof.
  intros Hwf Hr Hl Hd Hst Ho%recognize_seen. rewrite (exec_legal _ _ _ _ _ _ Hwf Hr Hl Hd), Ho.
  rewrite counted_eq. destruct (or_status result); done.
Qed.

Lemma counted_wf rt t : rt_wf rt → rt_wf (counted rt t).
Proof. done. Qed.

Lemma batch_wf ops rt w rt' w' e k fin :
  batch ops rt w rt' w' e k fin → rt_wf rt → rt_wf rt'.
Proof.
  induction 1; intros Hwf; eauto using seen_wf, counted_wf.
Qed.

Lemma loop_step_ok op ops rt w rt1 w1 s :
  executeOperation rt w op = (rt1, w1, kind_ok s playing) →
  operate_loop (op :: ops) no_locals rt w =
    operate_loop ops (mkLocals 1 0 None None None) rt1 w1.
Proof. intros E. simpl. by rewrite E. Qed.

Lemma loop_step_skip op ops rt w r :
  executeOperation rt w op = (rt, w, kind_skip r) →
  operate_loop (op :: ops) no_locals rt w =
    operate_loop ops (mkLocals 0 1 None None None) rt w.
Proof. intros E. simpl. by rewrite E. Qed.

(** Counting a head operation in front of a finished run. *)
Lemma loop_exit_shift de dk ops rt w rt' w' e k fin :
  operate_loop ops no_locals rt w = (rt', w', loop_exit e k fin) →
  operate_loop ops (mkLocals de dk None None None) rt w = (rt', w', loop_exit (de + e) (dk + k) fin).
Proof. intros E. rewrite loop_locals_step, E. by destruct fin. Qed.

Lemma batch_loop ops rt w rt' w' e k fin :
  batch ops rt w rt' w' e k fin → rt_wf rt →
  operate_loop ops no_locals rt w = (rt', w', loop_exit e k fin).
Proof.
  induction 1 as [rt w|op ops rt w Hr|op ops rt w s Hr Hb|op ops rt w s Hr Hb Hs
    |op ops rt w s Hr Hb Hs|op ops rt w rt' w' s e k fin Hr Hb Hs Hl _ IH
    |op ops rt w w' s res Hr Hl Hd Hst|op ops rt w rt' w' s res Hr Hl Hd Hst Ho
    |op ops rt w rt' w' s s' res Hr Hl Hd Hst Ho Hs
    |op ops rt w rt' w' rt'' w'' s s' res e k fin Hr Hl Hd Hst Ho Hs _ IH]; intros Hwf.
  - done.
  - simpl. unfold executeOperation. by rewrite Hr.
  - destruct (validate_op s op (proj2 Hwf s Hr)) as [[? E]|[(? & _)|[(? & _)|[(? & _)|[[? _] _]]]]];
      try tauto. simpl. unfold executeOperation. by rewrite Hr, E.
  - destruct (validate_op s op (proj2 Hwf s Hr)) as [[? _]|[(? & ? & E)|[(_ & ? & _)|[(_ & ? & _)|[[_ [? _]] _]]]]];
      try tauto; try congruence. simpl. unfold executeOperation. by rewrite Hr, E.
  - destruct (validate_op s op (proj2 Hwf s Hr)) as [[? _]|[(_ & ? & _)|[(? & ? & E)|[(_ & ? & _)|[[_ [? _]] _]]]]];
      try tauto; try congruence. simpl. unfold executeOperation. by rewrite Hr, E.
  - destruct (validate_skip s op (proj2 Hwf s Hr) Hb Hs Hl) as (r & Hskip & E).
    rewrite (loop_step_skip op ops rt w r)
      by (unfold executeOperation; by rewrite Hr, E, Hskip).
    rewrite (Z.add_comm k 1). by apply (loop_exit_shift 0 1), IH.
  - simpl. rewrite (exec_legal _ _ _ _ _ _ Hwf Hr Hl Hd), Hst. done.
  - simpl. by rewrite (exec_sent _ _ _ _ _ _ _ _ Hwf Hr Hl Hd Hst Ho).
  - simpl. rewrite (exec_sent _ _ _ _ _ _ _ _ Hwf Hr Hl Hd Hst Ho).
    rewrite bool_decide_eq_true_2 by done. done.
  - pose proof (exec_sent _ _ _ _ _ _ _ _ Hwf Hr Hl Hd Hst Ho) as E. simpl in E. rewrite Hs in E.
    rewrite (loop_step_ok _ _ _ _ _ _ _ E), (Z.add_comm e 1).
    by apply (loop_exit_shift 1 0), IH, counted_wf, (seen_wf rt res _ (Some s')).
Qed.

(** Every batch has a run. *)
Lemma batch_total ops : ∀ rt w,
  rt_wf rt → ∃ rt' w' e k fin, batch ops rt w rt' w' e k fin.
Proof.
  induction ops as [|op ops IH]; intros rt w Hwf; [by do 5 eexists; constructor|].
  destruct (recognized rt) as [s|] eqn:Hr; [|by do 5 eexists; apply batch_inactive].
  destruct (validate_op s op (proj2 Hwf s Hr))
    as [[? _]|[(? & ? & _)|[(? & ? & _)|[(? & ? & ? & _)|[Hl _]]]]].
  - do 5 eexists. by eapply batch_off_board.
  - do 5 eexists. by eapply batch_over.
  - do 5 eexists. by eapply batch_won.
  - destruct (IH rt w Hwf) as (rt' & w' & e & k & fin & Hrun).
    do 5 eexists. by eapply batch_skip.
  - destruct (env_dispatch w (op_part op)) as [w' res] eqn:Hd.
    assert (or_status res = STATUS_FAILED ∨ or_status res ≠ STATUS_FAILED) as [Hst|Hst]
      by (destruct (or_status res); auto).
    { do 5 eexists. by eapply batch_failed. }
    destruct (recognize rt res api_update) as [rt' [s'|]] eqn:Ho; apply recognize_seen in Ho.
    2: { do 5 eexists. by eapply batch_unrecognizable. }
    destruct (decide (gameStatus s' = playing)) as [Hs|Hs].
    2: { do 5 eexists. by eapply batch_ends. }
    destruct (IH (counted rt' (op_type op)) w')
      as (rt'' & w'' & e & k & fin & Hrun); [by eapply counted_wf, seen_wf|].
    do 5 eexists. by eapply batch_executes.
Qed.

Lemma operate_batch ops rt w rt' w' e k fin :
  ops ≠ [] → rt_wf rt → batch ops rt w rt' w' e k fin →
  operate rt w (Batch ops) = after_loop ops e k fin rt' w'.
Proof.
  intros Hne Hwf Hrun. unfold operate, after_loop.
  destruct ops as [|op ops]; [done|]. cbn [input_operations].
  rewrite (batch_loop _ _ _ _ _ _ _ _ Hrun Hwf). by destruct fin.
Qed.

(** *** What a batch changes *)

Lemma total_count_op t c : total_counts (count_op t c) = total_counts c + 1.
Proof. unfold total_counts. destruct t; simpl; lia. Qed.

Lemma batch_effects ops rt w rt' w' e k fin :
  batch ops rt w rt' w' e k fin →
  initState rt' = initState rt ∧ gameLog rt' = gameLog rt ∧ gameEvent rt' = gameEvent rt ∧
  rt_operationCount rt' = rt_operationCount rt + e ∧
  total_counts (rt_operationsByType rt') = total_counts (rt_operationsByType rt) + e ∧
  0 ≤ e ∧ 0 ≤ k ∧ e + k ≤ Z.of_nat (length ops).
Proof.
  induction 1; rewrite ?length_cons;
    repeat match goal with
    | Ho : seen _ _ _ _ |- _ =>
        apply seen_fields in Ho as (? & ? & ? & Ho & ? & ?); apply (f_equal total_counts) in Ho
    end; destruct_and?; rewrite ?counted_eq in *; simpl in *; rewrite ?total_count_op in *;
    split_and!; lia || congruence.
Qed.

(** The board at the end of a run, by the way it ended. *)
Lemma batch_end_board ops rt w rt' w' e k fin :
  batch ops rt w rt' w' e k fin →
  match fin with
  | EndGame op status =>
      1 ≤ e ∧ op ∈ ops ∧ status ≠ playing ∧ ∃ s, recognized rt' = Some s ∧ gameStatus s = status
  | EndStopped _ no_active_game => recognized rt' = None
  | EndUnrecognizable => recognized rt' = None
  | EndStopped _ game_over => ∃ s, recognized rt' = Some s ∧ gameStatus s = lost
  | EndStopped _ game_won => ∃ s, recognized rt' = Some s ∧ gameStatus s = won
  | EndStopped op _ => ∃ s, recognized rt' = Some s ∧ ¬ on_board s op
  | EndFailed _ => ∃ s, recognized rt' = Some s ∧ gameStatus s = playing
  | EndNormal => recognized rt' = None → ops = []
  end.
Proof.
  induction 1 as [rt w|op ops rt w Hr|op ops rt w s Hr Hb|op ops rt w s Hr Hb Hs
    |op ops rt w s Hr Hb Hs|op ops rt w rt' w' s e k fin Hr Hb Hs Hl Hrun IH
    |op ops rt w w' s res Hr Hl Hd Hst|op ops rt w rt' w' s res Hr Hl Hd Hst Ho
    |op ops rt w rt' w' s s' res Hr Hl Hd Hst Ho Hs
    |op ops rt w rt' w' rt'' w'' s s' res e k fin Hr Hl Hd Hst Ho Hs Hrun IH]; eauto.
  - destruct fin as [| |op' st| |]; try done.
    + intros Hn. specialize (IH Hn) as ->. inversion Hrun; subst. congruence.
    + destruct IH as (? & ? & IH). split_and!; [done|by apply list_elem_of_further|apply IH..].
  - exists s. split; [done|]. apply Hl.
  - by apply seen_fields in Ho as [? _].
  - apply seen_fields in Ho as [Ho _]. split_and!; [lia|by apply list_elem_of_here|done|].
    by exists s'.
  - destruct fin as [| |op' st| |]; try done.
    + intros Hn. specialize (IH Hn) as ->. inversion Hrun; subst. simpl in Hn.
      apply seen_fields in Ho as [Ho _]. congruence.
    + destruct IH as (? & ? & IH). split_and!; [lia|by apply list_elem_of_further|apply IH..].
Qed.

(** On a board that is not in play nothing is dispatched. *)
Lemma batch_over_board ops rt w rt' w' e k fin s :
  batch ops rt w rt' w' e k fin → ops ≠ [] →
  recognized rt = Some s → gameStatus s ≠ playing →
  rt' = rt ∧ w' = w ∧ e = 0 ∧ k = 0 ∧ ∃ op reason, fin = EndStopped op reason ∧ head ops = Some op.
Proof.
  intros Hrun Hne Hr Hs. destruct Hrun; simplify_eq; try done; try (by eauto 10).
  all: match goal with Hl : legal _ _ |- _ => by destruct Hl as (_ & ? & _) end.
Qed.

Lemma finish_batch_fields ops l rt w rt' w' res :
  finish_batch ops l rt w = (rt', w', res) →
  recognized rt' = recognized rt ∧ initState rt' = initState rt ∧
  rt_operationCount rt' = rt_operationCount rt ∧
  rt_operationsByType rt' = rt_operationsByType rt ∧ boardApi rt' = boardApi rt.
Proof.
  unfold finish_batch, end_game. intros Hf.
  destruct (recognized rt) as [s|] eqn:Hr; simplify_eq/=; [|done].
  destruct (publish _ _ _) as [w1 [|]]; simplify_eq/=; [|done].
  by destruct (endedStatus l).
Qed.

End Lemmas.

(** ** The default engine meets the interface

    Against a decoder that keeps its contract and screenshots small enough to be
    addressed. *)
Section DefaultLaws.
Context `{PngDecoderLaws} (Hsmall : ∀ png, screenshot_ok png).

Lemma board_init_wf png board : board_init png no_options = Some board → board_wf board.
Proof.
  intros Hinit. unfold board_init in Hinit. cbn [no_options opt_geometry opt_profile opt_counterProfile
    opt_width opt_height default] in Hinit.
  set (opts := mkRecognizeOptions _ _ _ _ _) in Hinit.
  destruct (png_sync_read png) as [img|] eqn:Hread.
  - destruct (recognize_spec png opts false img Hread (Hsmall png)) as (res & Hres & Hwf & _);
      [exact default_profile_ok|simpl; lia|apply detect_positive..|].
    rewrite Hres in Hinit. simplify_eq/=.
    unfold board_wf. simpl. split_and!; [exact default_profile_ok|lia|done..].
  - unfold recognizeBoard, decodePng in Hinit. by rewrite Hread in Hinit.
Qed.

#[global] Instance default_api_laws : @SaoleiBoardApiLaws createDefaultBoardApi.
Proof.
  refine (Build_SaoleiBoardApiLaws createDefaultBoardApi
    (λ b : option SaoleiBoard, ∀ bd, b = Some bd → board_wf bd) _ _).
  - intros a png a' o Ha Hi. cbn in Hi. unfold default_api_init in Hi.
    destruct (board_init png no_options) as [b|] eqn:E; simplify_eq; [|done].
    apply board_init_wf in E. split; [naive_solver|]. intros s [= <-]. apply E.
  - intros a png a' o Ha Hi. cbn in Hi. unfold default_api_update in Hi.
    destruct a as [b|]; simplify_eq; [|done]. specialize (Ha b eq_refl).
    destruct (update_cases b png Ha (Hsmall png)) as [(s & Hup & Hrest)|[[err Hup]|Hup]];
      rewrite Hup in Hi; simplify_eq; [|naive_solver..].
    apply update_wf in Hup as (Hb & _); [|done..]. split; [naive_solver|].
    intros s' [= <-]. apply Hrest.
Qed.
End DefaultLaws.

(** ** Properties *)

Section Properties.
Context `{SaoleiBoardApiLaws} `{RuntimeEnv}.

(** One call of the runtime's interface, whatever it answers. *)
Inductive rt_step : GameRuntime → GameRuntime → Prop :=
| step_init rt w rt' w' o : init rt w = (rt', w', o) → rt_step rt rt'
| step_operate rt w input rt' w' res : operate rt w input = (rt', w', res) → rt_step rt rt'.

(** A log entry after the first: a batch, or the end of the game. *)
Definition step_entry (e : GameLogEntry) : Prop :=
  le_status e = gameStatus (le_state e) ∧
  ((le_tool e = "saolei_operate" ∧ ∃ ops, ops ≠ [] ∧ le_operations e = Some ops) ∨
   (le_tool e = "(game-end)" ∧ le_operations e = None ∧ le_status e ≠ playing)).

Record rt_inv (rt : GameRuntime) : Prop := {
  inv_wf : rt_wf rt;
  inv_counts : total_counts (rt_operationsByType rt) = rt_operationCount rt;
  inv_nonneg : 0 ≤ rt_operationCount rt;
  inv_started :
    match initState rt with
    | None => recognized rt = None ∧ gameLog rt = [] ∧ rt_operationCount rt = 0
    | Some s0 => ∃ steps, gameLog rt = mkEntry "saolei_init" None s0 playing :: steps ∧
        Forall step_entry steps
    end;
  inv_event ev : gameEvent rt = Some ev →
    ev_status ev ≠ playing ∧ 0 < operationCount (ev_stats ev) ∧
    total_counts (operationsByType (ev_stats ev)) = operationCount (ev_stats ev);
}.

Lemma new_runtime_inv a : api_inv a → rt_inv (new_runtime a).
Proof. intros Ha. by split. Qed.

Lemma init_inv rt w rt' w' o : rt_inv rt → init rt w = (rt', w', o) → rt_inv rt'.
Proof.
  intros [Hwf Hc Hn Hs He] Hi. unfold init in Hi.
  destruct (env_dispatch w (keyboardPress (mkKeyboardPress None (Some KEY_F2)))) as [w1 res].
  assert (rt' = rt ∨ ∃ rt1 o1, recognize rt res api_init = (rt1, o1) ∧
    rt' = match o1 with Some s => start_game rt1 s | None => rt1 end) as [->|(rt1 & o1 & Hr & ->)].
  { destruct (or_status res), (recognize rt res api_init) as [rt1 [s|]]; simplify_eq; eauto. }
  { by split. }
  pose proof (recognize_init_wf _ _ _ _ Hwf Hr) as Hwf1.
  apply recognize_fields in Hr as (Er & Ei & Eo & Et & El & Ee).
  destruct o1 as [s|]; split; simpl; rewrite ?Eo, ?Et, ?Ei, ?El, ?Ee; try done.
  - by exists [].
  - destruct (initState rt); [done|]. naive_solver.
Qed.

(** Appending step entries to the log of a started game. *)
Lemma started_app rt rt' s es :
  rt_inv rt → recognized rt = Some s → initState rt' = initState rt →
  gameLog rt' = gameLog rt ++ es → Forall step_entry es →
  ∃ s0 steps, initState rt' = Some s0 ∧
    gameLog rt' = mkEntry "saolei_init" None s0 playing :: steps ∧ Forall step_entry steps.
Proof.
  intros [_ _ _ Hs _] Hr -> -> Hes. destruct (initState rt) as [s0|]; [|naive_solver].
  destruct Hs as (steps & -> & Hsteps). exists s0, (steps ++ es).
  split_and!; [done|done|]. by apply Forall_app.
Qed.

Lemma batch_inv ops rt w rt' w' e k fin :
  rt_inv rt → batch ops rt w rt' w' e k fin → rt_inv rt' ∧ 0 ≤ e.
Proof.
  intros [Hwf Hc Hn Hs He] Hrun.
  pose proof (batch_effects _ _ _ _ _ _ _ _ Hrun) as (Ei & El & Ee & Eo & Et & ? & ? & _).
  split; [|lia]. split; [by eapply batch_wf|lia|lia| |by rewrite Ee].
  rewrite Ei, El. destruct (initState rt); [done|]. destruct Hs as (Hr & -> & Ho).
  assert (e = 0 ∧ rt' = rt) as [-> ->]; [|done]. destruct Hrun; simplify_eq; done.
Qed.

Lemma end_entry s status : gameStatus s = status → status ≠ playing →
  step_entry (mkEntry "(game-end)" None s status).
Proof. intros Hs Hne. split; [done|]. by right. Qed.

Lemma operate_entry s ops : ops ≠ [] →
  step_entry (mkEntry "saolei_operate" (Some ops) s (gameStatus s)).
Proof. intros Hne. split; [done|]. left. split; [done|]. by exists ops. Qed.

(** What the tail of [operate] commits. *)
Lemma finish_batch_inv ops e k fin rt w rt' w' res :
  rt_inv rt → ops ≠ [] → 0 ≤ e →
  (∀ op status, fin = EndGame op status → 1 ≤ e ∧ e ≤ rt_operationCount rt ∧ status ≠ playing ∧
     ∃ s, recognized rt = Some s ∧ gameStatus s = status) →
  finish_batch ops (batch_locals e k fin) rt w = (rt', w', res) → rt_inv rt'.
Proof.
  intros Hinv Hne He Hfin Hf. unfold finish_batch in Hf.
  destruct (recognized rt) as [s|] eqn:Hr; simplify_eq/=; [|done].
  pose proof (operate_entry s ops Hne) as Hentry.
  destruct (publish _ _ _) as [w1 [|]]; simplify_eq/=.
  - destruct (endedStatus (batch_locals e k fin)) as [status|] eqn:Hend.
    + destruct fin; simplify_eq/=. destruct (Hfin _ _ eq_refl) as (? & ? & Hst & s' & Es & <-).
      assert (s' = s) as -> by congruence. pose proof (end_entry s _ eq_refl Hst) as Hend'.
      destruct (Hinv) as [Hwf Hc Hn _ _]. split; simpl; [done|done|done| |].
      * destruct (started_app rt (push_log (push_log rt _) (mkEntry "(game-end)" None s (gameStatus s))) s
          [_; _] Hinv Hr eq_refl (eq_sym (app_assoc _ [_] [_])) (Forall_cons_2 _ _ _ Hentry (Forall_cons_2 _ _ _ Hend' (Forall_nil_2 _))))
          as (s0 & steps & E0 & El & Hall). simpl in E0, El. rewrite E0. by exists steps.
      * intros ev [= <-]. simpl. split_and!; [done|lia|done].
    + unfold end_game. rewrite Hend. destruct (Hinv) as [Hwf Hc Hn _ Hev]. split; simpl; try done.
      destruct (started_app rt (push_log rt _) s [_] Hinv Hr eq_refl eq_refl (Forall_cons_2 _ _ _ Hentry (Forall_nil_2 _)))
        as (s0 & steps & E0 & El & Hall). simpl in E0, El. rewrite E0. by exists steps.
  - destruct (Hinv) as [Hwf Hc Hn _ Hev]. split; simpl; try done.
    destruct (started_app rt (push_log rt _) s [_] Hinv Hr eq_refl eq_refl (Forall_cons_2 _ _ _ Hentry (Forall_nil_2 _)))
      as (s0 & steps & E0 & El & Hall). simpl in E0, El. rewrite E0. by exists steps.
Qed.


Lemma operate_as_batch rt w input :
  operate rt w input = operate rt w (Batch (input_operations input)).
Proof. by destruct input. Qed.

Lemma after_loop_inv ops e k fin rt w rt1 w1 rt' w' res :
  rt_inv rt → ops ≠ [] → batch ops rt w rt1 w1 e k fin →
  after_loop ops e k fin rt1 w1 = (rt', w', res) → rt_inv rt'.
Proof.
  intros Hinv Hne Hrun Hres. pose proof (batch_inv _ _ _ _ _ _ _ _ Hinv Hrun) as [Hinv1 He].
  pose proof (batch_end_board _ _ _ _ _ _ _ _ Hrun) as Hend.
  pose proof (batch_effects _ _ _ _ _ _ _ _ Hrun) as (_ & _ & _ & Eo & _).
  pose proof (inv_nonneg _ Hinv).
  assert (rt' = rt1 ∨ finish_batch ops (batch_locals e k fin) rt1 w1 = (rt', w', res)) as [->|Hf]
    by (destruct fin; simplify_eq/=; auto); [done|].
  eapply (finish_batch_inv _ e k fin); [exact Hinv1|done|done| |exact Hf].
  intros op status ->. destruct Hend as (? & _ & ? & ?). split_and!; [lia|lia|done|done].
Qed.

Lemma operate_inv rt w input rt' w' res :
  rt_inv rt → operate rt w input = (rt', w', res) → rt_inv rt'.
Proof.
  intros Hinv. rewrite operate_as_batch.
  destruct (decide (input_operations input = [])) as [->|Hne].
  - unfold operate. simpl. intros Ho. destruct (recognized rt); by simplify_eq.
  - destruct (batch_total (input_operations input) rt w (inv_wf _ Hinv)) as (rt1 & w1 & e & k & fin & Hrun).
    rewrite (operate_batch _ _ _ _ _ _ _ _ Hne (inv_wf _ Hinv) Hrun).
    by eapply after_loop_inv.
Qed.

(** From a board in play, every end but the end of the game leaves a board in
    play, or none. *)
Lemma batch_playing ops rt w rt' w' e k fin s0 :
  batch ops rt w rt' w' e k fin → recognized rt = Some s0 → gameStatus s0 = playing →
  match fin with
  | EndGame _ _ => True
  | _ => ∀ s, recognized rt' = Some s → gameStatus s = playing
  end.
Proof.
  intros Hrun. revert s0.
  induction Hrun; intros s0 Hr0 Hs0; simplify_eq; try congruence; eauto.
  1: by eapply IHHrun.
  all: match goal with Ho : seen _ _ _ _ |- _ => apply seen_fields in Ho as [? _] end;
    congruence || by eapply IHHrun.
Qed.

(** The code after the loop commits and answers what is specified. *)
Lemma after_loop_spec ops rt w rt' w' e k fin :
  ops ≠ [] → batch ops rt w rt' w' e k fin →
  after_loop ops e k fin rt' w' = batch_result ops e k fin rt' w'.
Proof.
  intros Hne Hrun. pose proof (batch_end_board _ _ _ _ _ _ _ _ Hrun) as Hend.
  assert (Hover : ∀ s, concludeMarker s = over s) by (intros s; unfold concludeMarker, over; by destruct (gameStatus s)).
  assert (Htold : ∀ s l, executed l = e → publish l (batch_record ops s) w' = told ops e s w').
  { intros s l <-. unfold publish, told. destruct env_onBoardChange; [|done]. cbn [le_status batch_record].
    destruct (Z.ltb_spec 0 (executed l)), (decide (gameStatus s = playing));
      by rewrite ?bool_decide_eq_true_2, ?bool_decide_eq_false_2 by (done || tauto || lia). }
  destruct fin as [|op reason|op status| |]; try done; unfold after_loop, finish_batch, batch_result;
    (destruct (recognized rt') as [s|] eqn:Hr; [|done]); fold (batch_record ops s).
  - rewrite bool_decide_eq_false_2 by done. unfold reported. rewrite Htold, Hover by done.
    destruct (told _ _ _ _) as [w'' [|]]; unfold push_log, logged; by rewrite ?Hr.
  - unfold reported. rewrite Htold, Hover by done. destruct (told _ _ _ _) as [w'' [|]]; unfold push_log, logged; by rewrite ?Hr.
  - destruct Hend as (_ & _ & Hst & s' & [= <-] & Hs). rewrite Htold, Hover by done.
    unfold told, over. rewrite Hs. rewrite (bool_decide_eq_false_2 (0 < e ∧ status = playing)) by (by intros [_ ?]).
    rewrite (bool_decide_eq_true_2 (status ≠ playing)) by done.
    destruct env_onBoardChange; unfold end_game, push_log, set_event, logged; cbn; by rewrite Hr, <- app_assoc.
Qed.

(** C1: refinement.  On a well-formed runtime, [saolei_operate] performs
    exactly a run of the specified batch, single operation, list or empty list
    alike: operations are judged in order, each on the board recognized just before
    it, skips and dispatches are the ones the rules prescribe, and what is
    committed to the log, the counters and the recorded end of the game, what the
    subscriber is told and what the call answers are those specified for the
    run.  A run exists for every input, so the call always returns or throws, and
    any run gives the same result. *)
Theorem operate_refines_batch rt w input (Hwf : rt_wf rt) :
  let ops := input_operations input in
  (∃ rt' w' e k fin, batch ops rt w rt' w' e k fin) ∧
  (∀ rt' w' e k fin, batch ops rt w rt' w' e k fin →
     operate rt w input = batch_result ops e k fin rt' w').
Proof.
  split; [by apply batch_total|]. intros rt' w' e k fin Hrun. rewrite operate_as_batch.
  destruct (decide (input_operations input = [])) as [Hnil|Hne].
  - rewrite Hnil in *. inversion Hrun; subst. unfold operate, batch_result. cbn [input_operations].
    destruct (recognized rt') as [s|]; [|done]. unfold concludeMarker, over. by destruct (gameStatus s).
  - rewrite (operate_batch _ _ _ _ _ _ _ _ Hne Hwf Hrun). by eapply after_loop_spec.
Qed.

(** C5: invariant of the reachable runtimes.  Whatever the desktop, the
    recognizer and the subscriber answer, after any sequence of calls: the
    per-type counters sum to the operation count; the log is empty until a game
    has started, and then starts with that game's [saolei_init] entry on its
    initial board, followed by batch and game-end entries whose status is the
    status of their board; no board is held before the first game; and a
    recorded game end is won or lost, with at least one operation and consistent
    counters. *)
Theorem runtime_invariant a rt
    (Ha : api_inv a) (Hreach : rtc rt_step (new_runtime a) rt) : rt_inv rt.
Proof.
  pose proof (new_runtime_inv a Ha) as Hinv. revert Hinv.
  induction Hreach as [|rt1 rt2 rt3 Hstep _ IH]; intros Hinv; [done|].
  apply IH. destruct Hstep; [by eapply init_inv|by eapply operate_inv].
Qed.

(** Nothing is dispatched on a finished game.  On a won or lost board
    [saolei_operate] leaves the world, the board, the counters and the recorded
    event as they are, appends one log entry, and answers a stop at its first
    operation, concluding the turn. *)
Theorem finished_board_dispatches_nothing rt w op ops s
    (Hwf : rt_wf rt) (Hr : recognized rt = Some s) (Hs : gameStatus s ≠ playing) :
  ∃ reason,
    operate rt w (Batch (op :: ops)) =
      (push_log rt (mkEntry "saolei_operate" (Some (op :: ops)) s (gameStatus s)), w,
       Returned (ToolText (operateResultText 0 0 s (Some op) (Some (StopRejected reason))) true)) ∧
    reason ∈ [out_of_bounds; game_over; game_won].
Proof.
  destruct (batch_total (op :: ops) rt w Hwf) as (rt' & w' & e & k & fin & Hrun).
  rewrite (operate_batch (op :: ops) _ _ _ _ _ _ _ ltac:(done) Hwf Hrun).
  pose proof (batch_over_board _ _ _ _ _ _ _ _ _ Hrun ltac:(done) Hr Hs)
    as (-> & -> & -> & -> & op' & reason & -> & [= <-]).
  exists reason. split.
  - unfold after_loop, finish_batch. rewrite Hr. cbn [batch_locals].
    unfold publish. cbn [executed]. change (0 <? 0) with false. rewrite andb_false_l.
    assert (concludeMarker s = true) as -> by (unfold concludeMarker; by destruct (gameStatus s)).
    by destruct env_onBoardChange.
  - inversion Hrun; subst; simplify_eq; try congruence;
      try in_list.
    match goal with Hl : legal _ _ |- _ => by destruct Hl as (_ & ? & _) end.
Qed.

(** A batch that fails in the middle commits its effects but not its
    record.  When a dispatch fails or a screenshot is not recognized after [e]
    executed operations, those operations stay counted, while the log, the
    recorded event and the subscriber (part of the world) are left as the loop
    left them: no entry is written for a batch that changed the board. *)
Theorem failed_batch_unlogged rt w ops rt' w' e k fin
    (Hwf : rt_wf rt) (Hne : ops ≠ []) (Hrun : batch ops rt w rt' w' e k fin)
    (Hfail : fin = EndUnrecognizable ∨ ∃ message, fin = EndFailed message) :
  (operate rt w (Batch ops)).1 = (rt', w') ∧
  rt_operationCount rt' = rt_operationCount rt + e ∧
  gameLog rt' = gameLog rt ∧ gameEvent rt' = gameEvent rt ∧
  (fin = EndUnrecognizable → recognized rt' = None).
Proof.
  rewrite (operate_batch _ _ _ _ _ _ _ _ Hne Hwf Hrun).
  pose proof (batch_effects _ _ _ _ _ _ _ _ Hrun) as (_ & -> & -> & -> & _).
  pose proof (batch_end_board _ _ _ _ _ _ _ _ Hrun) as Hend.
  destruct Hfail as [->|[m ->]]; by split_and!.
Qed.

(** The end of a game is recorded once, with the statistics of that game.
    From a board in play, either the call leaves the game undecided (a board
    still in play, or none) and the recorded event is unchanged; or the board
    it leaves is won or lost, the event holds that status and the statistics
    computed from the game's initial board, this board and the counters after
    the last operation, the log ends with the batch entry and the game-end
    entry, and the answer concludes the turn. *)
Theorem game_end_recorded rt w ops rt' w' res s0
    (Hwf : rt_wf rt) (Hr : recognized rt = Some s0) (Hs0 : gameStatus s0 = playing)
    (Hop : operate rt w (Batch ops) = (rt', w', res)) :
  (gameEvent rt' = gameEvent rt ∧ ∀ s, recognized rt' = Some s → gameStatus s = playing) ∨
  (∃ s t text, recognized rt' = Some s ∧ gameStatus s ≠ playing ∧
     gameEvent rt' = Some (mkEvent (gameStatus s)
       (computeGameStats (initState rt) s (rt_operationCount rt') (rt_operationsByType rt')) t) ∧
     gameLog rt' = gameLog rt ++
       [mkEntry "saolei_operate" (Some ops) s (gameStatus s);
        mkEntry "(game-end)" None s (gameStatus s)] ∧
     rt_operationCount rt < rt_operationCount rt' ∧
     res = Returned (ToolText text true)).
Proof.
  destruct (decide (ops = [])) as [->|Hne].
  { unfold operate in Hop. simpl in Hop. rewrite Hr in Hop. simplify_eq. left.
    split; [done|]. naive_solver. }
  destruct (batch_total ops rt w Hwf) as (rt1 & w1 & e & k & fin & Hrun).
  rewrite (operate_batch _ _ _ _ _ _ _ _ Hne Hwf Hrun) in Hop.
  pose proof (batch_effects _ _ _ _ _ _ _ _ Hrun) as (Ei & El & Ee & Eo & _).
  pose proof (batch_end_board _ _ _ _ _ _ _ _ Hrun) as Hend.
  pose proof (batch_playing _ _ _ _ _ _ _ _ _ Hrun Hr Hs0) as Hplay.
  assert ((∃ op st, fin = EndGame op st) ∨ ((∀ s, recognized rt1 = Some s → gameStatus s = playing) ∧
    (rt' = rt1 ∨ ∃ l, endedStatus l = None ∧ finish_batch ops l rt1 w1 = (rt', w', res))))
    as [(op & st & ->)|[Hpl Hcases]].
  { destruct fin; simplify_eq/=; eauto; right; (split; [done|]); right;
      eexists; (split; [|exact Hop]); done. }
  - right. destruct Hend as (? & _ & Hst & s & Es & <-). simpl in Hop. unfold finish_batch in Hop.
    rewrite Es in Hop. unfold publish in Hop. cbn [executed le_status] in Hop.
    rewrite (bool_decide_eq_false_2 _ Hst), andb_false_r in Hop.
    assert (concludeMarker s = true) as Hc by (unfold concludeMarker; by destruct (gameStatus s)).
    rewrite Hc in Hop. destruct env_onBoardChange; simplify_eq/=; eexists s, _, _;
      (split_and!; [done|done|by rewrite Ei|by rewrite El, <- app_assoc|lia|done]).
  - left. destruct Hcases as [->|(l & Hl & Hf)]; [done|].
    pose proof (finish_batch_fields _ _ _ _ _ _ _ Hf) as (-> & _). split; [|done].
    rewrite <- Ee. unfold finish_batch, end_game in Hf. rewrite Hl in Hf.
    destruct (recognized rt1); simplify_eq; [|done]. destruct (publish _ _ _) as [? [|]]; by simplify_eq.
Qed.

End Properties.

(** ** Witnesses: a scripted desktop and recognizer *)

Module Script.

(** The recognizer answers the boards of a list in turn, and then throws. *)
Definition pop_board (l : list (option GameState)) (_ : png_bytes)
    : list (option GameState) * option GameState :=
  match l with
  | [] => ([], None)
  | o :: l => (l, o)
  end.

#[export] Instance script_api : SaoleiBoardApi :=
  {| api_state := list (option GameState); api_init := pop_board; api_update := pop_board |}.

Definition boards_wf (l : list (option GameState)) : Prop :=
  Forall (λ o, ∀ s, o = Some s → state_wf s) l.

Lemma pop_board_wf a png a' o :
  boards_wf a → pop_board a png = (a', o) → boards_wf a' ∧ ∀ s, o = Some s → state_wf s.
Proof.
  intros Ha Hp. destruct a as [|o' l]; simplify_eq/=; [by split|].
  by apply Forall_cons in Ha as [? ?].
Qed.

#[export] Instance script_laws : SaoleiBoardApiLaws := {|
  api_inv := boards_wf;
  api_init_wf := pop_board_wf;
  api_update_wf := pop_board_wf
|}.

(** The desktop answers the results of a list in turn, and then is gone. *)
Definition gone : OperationResult := mkOpResult STATUS_FAILED "desktop disconnected" None.
Definition shown : OperationResult := mkOpResult STATUS_SUCCEEDED "" (Some (mkScreenshot "iVBO" 1 1)).

#[export] Instance script_env : RuntimeEnv := {|
  W := list OperationResult;
  env_dispatch w part := match w with [] => ([], gone) | res :: w => (w, res) end;
  env_now w := Z.of_nat (length w);
  env_onBoardChange := Some (λ w entry, (w, true));
  env_from_base64 data := []
|}.

Definition fresh_board : GameState :=
  mkGameState 2 1 [[INITIAL; INITIAL]] (Some (Decoded (JNum 1))).
Definition opened_board : GameState :=
  mkGameState 2 1 [[Num1; INITIAL]] (Some (Decoded (JNum 1))).
Definition won_board : GameState := mkGameState 2 1 [[Num1; FLAG]] (Some (Decoded (JNum 0))).

Definition script : list (option GameState) := [Some fresh_board; Some opened_board; Some won_board].

Lemma board_wf_b s : state_wfb s = true → ∀ s', Some s = Some s' → state_wf s'.
Proof. intros H s' [= <-]. by apply state_wfb_correct. Qed.

Ltac boards := repeat (apply Forall_cons_2; [by apply board_wf_b|]); apply Forall_nil_2.

Lemma script_wf : boards_wf script.
Proof. boards. Qed.

(** A desktop that answers one screenshot, and one that is gone. *)
Definition one_shot : @W script_env := [shown].
Definition no_shot : @W script_env := [].

(** After [saolei_init]; after one click; after the winning flag. *)
Definition started : GameRuntime := (init (new_runtime script) one_shot).1.1.
Definition opened : GameRuntime := (operate started one_shot (Single (mkOp click 0 0))).1.1.
Definition finished : GameRuntime := (operate opened one_shot (Single (mkOp flag 1 0))).1.1.

Lemma started_reachable : rtc rt_step (new_runtime script) started.
Proof. eapply rtc_once, (step_init _ one_shot). unfold started. by vm_compute. Qed.

Lemma opened_reachable : rtc rt_step (new_runtime script) opened.
Proof.
  eapply rtc_r; [exact started_reachable|].
  eapply (step_operate _ one_shot (Single (mkOp click 0 0))). by vm_compute.
Qed.

Lemma finished_reachable : rtc rt_step (new_runtime script) finished.
Proof.
  eapply rtc_r; [exact opened_reachable|].
  eapply (step_operate _ one_shot (Single (mkOp flag 1 0))). by vm_compute.
Qed.

Lemma started_wf : rt_wf started.
Proof.
  split; [|intros s [= <-]; by apply state_wfb_correct].
  change (boards_wf [Some opened_board; Some won_board]). boards.
Qed.

Lemma opened_wf : rt_wf opened.
Proof.
  split; [|intros s [= <-]; by apply state_wfb_correct].
  change (boards_wf [Some won_board]). boards.
Qed.

Lemma finished_wf : rt_wf finished.
Proof.
  split; [|intros s [= <-]; by apply state_wfb_correct].
  change (boards_wf []). boards.
Qed.

(** A batch whose second dispatch fails: the first click stays counted. *)
Definition two_ops : list CellOperation := [mkOp click 0 0; mkOp flag 1 0].
Definition half_done : GameRuntime := (operate_loop two_ops no_locals started one_shot).1.1.

Lemma two_ops_fail :
  batch two_ops started one_shot half_done no_shot (0 + 1) 0 (EndFailed "desktop disconnected").
Proof.
  eapply (batch_executes _ _ _ _ _ no_shot _ _ fresh_board opened_board shown); try done.
  - split_and!; [by vm_compute..|done|]. exists INITIAL. split; [done|]. by right.
  - by eapply (seen_screenshot _ _ "iVBO").
  - eapply (batch_failed _ _ _ _ no_shot opened_board gone); try done.
    split_and!; [by vm_compute..|done|]. exists INITIAL. split; [done|]. right. by left.
Qed.

End Script.

Import Script.

Lemma operate_refines_batch_witness :
  rt_wf started ∧
  (∃ rt' w' e k fin, batch two_ops started one_shot rt' w' e k fin) ∧
  (∀ rt' w' e k fin, batch two_ops started one_shot rt' w' e k fin →
     operate started one_shot (Batch two_ops) = batch_result two_ops e k fin rt' w').
Proof.
  split; [exact started_wf|].
  exact (operate_refines_batch started one_shot (Batch two_ops) started_wf).
Defined.

Lemma runtime_invariant_witness : rt_operationCount finished = 2 ∧ rt_inv finished.
Proof.
  split; [vm_compute; reflexivity|].
  exact (runtime_invariant script finished script_wf finished_reachable).
Defined.

Lemma finished_board_dispatches_nothing_witness :
  gameStatus won_board = won ∧
  ∃ reason,
    operate finished one_shot (Batch two_ops) =
      (push_log finished (mkEntry "saolei_operate" (Some two_ops) won_board won), one_shot,
       Returned (ToolText (operateResultText 0 0 won_board (Some (mkOp click 0 0))
                             (Some (StopRejected reason))) true)) ∧
    reason ∈ [out_of_bounds; game_over; game_won].
Proof.
  split; [reflexivity|].
  exact (finished_board_dispatches_nothing finished one_shot (mkOp click 0 0) [mkOp flag 1 0] won_board
    finished_wf eq_refl ltac:(discriminate)).
Defined.

Lemma failed_batch_unlogged_witness :
  (operate started one_shot (Batch two_ops)).1 = (half_done, no_shot) ∧
  rt_operationCount half_done = rt_operationCount started + (0 + 1) ∧
  gameLog half_done = gameLog started ∧ gameEvent half_done = gameEvent started ∧
  (EndFailed "desktop disconnected" = EndUnrecognizable → recognized half_done = None).
Proof.
  apply (failed_batch_unlogged started one_shot two_ops half_done no_shot (0 + 1) 0 _ started_wf
    ltac:(discriminate) two_ops_fail).
  right. by eexists.
Defined.

Lemma game_end_recorded_witness :
  operate opened one_shot (Batch [mkOp flag 1 0]) =
    (finished, no_shot, Returned (ToolText (operateResultText 1 0 won_board (Some (mkOp flag 1 0))
                                         (Some (StopEnded won))) true)) ∧
  ((gameEvent finished = gameEvent opened ∧
    ∀ s, recognized finished = Some s → gameStatus s = playing) ∨
   (∃ s t text, recognized finished = Some s ∧ gameStatus s ≠ playing ∧
     gameEvent finished = Some (mkEvent (gameStatus s)
       (computeGameStats (initState opened) s (rt_operationCount finished)
          (rt_operationsByType finished)) t) ∧
     gameLog finished = gameLog opened ++
       [mkEntry "saolei_operate" (Some [mkOp flag 1 0]) s (gameStatus s);
        mkEntry "(game-end)" None s (gameStatus s)] ∧
     rt_operationCount opened < rt_operationCount finished ∧
     Returned (ToolText (operateResultText 1 0 won_board (Some (mkOp flag 1 0))
                           (Some (StopEnded won))) true) = Returned (ToolText text true))).
Proof.
  assert (operate opened one_shot (Batch [mkOp flag 1 0]) =
    (finished, no_shot, Returned (ToolText (operateResultText 1 0 won_board (Some (mkOp flag 1 0))
                                         (Some (StopEnded won))) true))) as Hop
    by (vm_compute; reflexivity).
  split; [exact Hop|].
  exact (game_end_recorded opened one_shot [mkOp flag 1 0] finished no_shot _ opened_board
    opened_wf eq_refl eq_refl Hop).
Defined.
