(* ===== verification/Bridge.v ===== *)
(** * The desktop bridge

    [common/js/dsh-plugins/desktop-bridge/src/bridge.ts]: the registry of desktop
    connections and the dispatch pipeline, as a state machine.

    Connections, promises and abort signals are objects: they are numbered, the
    two first in the order of their creation.  The timers, the abort listeners
    and the heartbeat intervals the code registers with the host are part of the
    state; what it does to the outside (frames written, streams ended, promises
    resolved, replies) is the list of effects of each operation.  The log calls
    are left out.

    The map of maps [pending] is one list in insertion order, each entry with
    its session and tool id; the map of a session is the sub-list of its
    entries, in the same order. *)

From S2P Require Import Prelude Wire.

#[local] Open Scope Z_scope.

(** ** Constants *)

Definition DISPATCH_TIMEOUT_MS : Z := 1200000.
Definition HEARTBEAT_INTERVAL_MS : Z := 10000.
Definition INVALID_ARGUMENT : Z := 3.
Definition FAILED_PRECONDITION : Z := 9.

(** ** State *)

Definition key : Type := string * string.

(** [PendingDispatch]: the promise it resolves and the signal it listens to. *)
Record PendingDispatch : Type := mkPending {
  pd_key : key;
  pd_call : nat;
  pd_signal : option nat;
}.

Record Connection : Type := mkConnection { conn_id : nat; conn_stream : nat }.

Record DesktopBridge : Type := mkBridge {
  connections : gmap string Connection;
  pending : list PendingDispatch;
  next_conn : nat;
  next_call : nat;
  heartbeats : gset nat;
  timers : gset key;
  listeners : list (nat * key);
  aborted_signals : gset nat;
}.

Definition new_bridge : DesktopBridge := mkBridge ∅ [] 0 0 ∅ ∅ [] ∅.

Inductive Effect : Type :=
| EndStream (stream : nat)
| WriteFrame (stream : nat) (frame : BridgeTeamFrame)
| Resolve (call : nat) (result : OperationResult)
| Reply (err : option (Z * string)).

(** What a stream write may do: return, throw an [Error], throw something else. *)
Inductive WriteResult : Type :=
| WriteOk
| WriteThrewError (message : string)
| WriteThrewOther.

(** The answers of the host during one operation. *)
Record Host : Type := mkHost {
  h_toolId : string;
  h_frameId : string;
  h_now : Z;
  h_write : WriteResult;
}.

(** ** Conversions *)

Definition base64_char (n : Z) : string :=
  let alphabet := "ABCDEFGHIJKLMNOPQRSTUVWXYZabcdefghijklmnopqrstuvwxyz0123456789+/" in
  String.substring (Z.to_nat n) 1 alphabet.

(** [Buffer.from(bytes).toString("base64")]. *)
Fixpoint base64 (bytes : list Z) : string :=
  match bytes with
  | [] => ""
  | [a] =>
      base64_char (Z.shiftr a 2) +:+ base64_char (Z.shiftl (Z.land a 3) 4) +:+ "=="
  | [a; b] =>
      base64_char (Z.shiftr a 2) +:+
      base64_char (Z.lor (Z.shiftl (Z.land a 3) 4) (Z.shiftr b 4)) +:+
      base64_char (Z.shiftl (Z.land b 15) 2) +:+ "="
  | a :: b :: c :: bytes =>
      base64_char (Z.shiftr a 2) +:+
      base64_char (Z.lor (Z.shiftl (Z.land a 3) 4) (Z.shiftr b 4)) +:+
      base64_char (Z.lor (Z.shiftl (Z.land b 15) 2) (Z.shiftr c 6)) +:+
      base64_char (Z.land c 63) +:+ base64 bytes
  end.

Definition toOperationScreenshot (source : WireImagePart) : OperationScreenshot :=
  let encoded :=
    match ip_data source with
    | Some (DataText text) => text
    | Some (DataBytes bytes) => base64 bytes
    | None => base64 []
    end in
  mkScreenshot encoded (default 0 (ip_widthPx source)) (default 0 (ip_heightPx source)).

(** The operation member of a part, as the part with that member stamped with a
    tool id: [operationPart(part)] followed by [toolPart.toolId = toolId]. *)
Definition stamp_operation (toolId : string) (p : WireFlowPart) : option WireFlowPart :=
  match fp_mouseMove p, fp_mouseClick p, fp_keyboardPress p, fp_mouseMoveAndClick p with
  | Some m, mc, kp, mac =>
      Some (mkFlowPart (Some (mkMouseMove (Some toolId) (mm_xPx m) (mm_yPx m) (mm_method m)))
              mc kp mac (fp_wait p) (fp_warn p) (fp_status p) (fp_flowResult p))
  | None, Some m, kp, mac =>
      Some (mkFlowPart None (Some (mkMouseClick (Some toolId) (mc_click m) (mc_method m)))
              kp mac (fp_wait p) (fp_warn p) (fp_status p) (fp_flowResult p))
  | None, None, Some m, mac =>
      Some (mkFlowPart None None (Some (mkKeyboardPress (Some toolId) (kp_key m)))
              mac (fp_wait p) (fp_warn p) (fp_status p) (fp_flowResult p))
  | None, None, None, Some m =>
      Some (mkFlowPart None None None
              (Some (mkMoveAndClick (Some toolId) (mac_xPx m) (mac_yPx m) (mac_click m) (mac_method m)))
              (fp_wait p) (fp_warn p) (fp_status p) (fp_flowResult p))
  | None, None, None, None => None
  end.

(** [/^templates\/([^/]+)\//.exec(sessionName)?.[1] ?? ""]. *)
Definition template_of (sessionName : string) : string :=
  if String.prefix "templates/" sessionName then
    let rest := String.substring 10 (String.length sessionName - 10) sessionName in
    match String.index 0 "/" rest with
    | Some (S n) => String.substring 0 (S n) rest
    | _ => ""
    end
  else "".

(** The clock is positive, so [%] is the remainder of the division. *)
Definition buildFlowFrame (h : Host) (sessionName : string) (parts : list WireFlowPart)
    : BridgeTeamFrame :=
  mkTeamFrame sessionName (template_of sessionName) (h_frameId h)
    (h_now h / 1000) (h_now h mod 1000 * 1000000) parts.

(** ** Updates of the state *)

Definition set_pending (b : DesktopBridge) (p : list PendingDispatch) : DesktopBridge :=
  mkBridge (connections b) p (next_conn b) (next_call b) (heartbeats b) (timers b) (listeners b)
    (aborted_signals b).

Definition set_connections (b : DesktopBridge) (c : gmap string Connection) : DesktopBridge :=
  mkBridge c (pending b) (next_conn b) (next_call b) (heartbeats b) (timers b) (listeners b)
    (aborted_signals b).

Definition set_heartbeats (b : DesktopBridge) (hb : gset nat) : DesktopBridge :=
  mkBridge (connections b) (pending b) (next_conn b) (next_call b) hb (timers b) (listeners b)
    (aborted_signals b).

(** [setTimeout] and [clearTimeout] of a dispatch. *)
Definition set_timer (b : DesktopBridge) (k : key) : DesktopBridge :=
  mkBridge (connections b) (pending b) (next_conn b) (next_call b) (heartbeats b)
    ({[k]} ∪ timers b) (listeners b) (aborted_signals b).

Definition clear_timer (b : DesktopBridge) (k : key) : DesktopBridge :=
  mkBridge (connections b) (pending b) (next_conn b) (next_call b) (heartbeats b)
    (timers b ∖ {[k]}) (listeners b) (aborted_signals b).

(** [signal?.addEventListener("abort", onAbort)] and its removal. *)
Definition add_listener (b : DesktopBridge) (signal : option nat) (k : key) : DesktopBridge :=
  mkBridge (connections b) (pending b) (next_conn b) (next_call b) (heartbeats b) (timers b)
    (listeners b ++ match signal with Some s => [(s, k)] | None => [] end) (aborted_signals b).

Definition remove_listener (b : DesktopBridge) (k : key) : DesktopBridge :=
  mkBridge (connections b) (pending b) (next_conn b) (next_call b) (heartbeats b) (timers b)
    (filter (λ l, l.2 ≠ k) (listeners b)) (aborted_signals b).

Definition find_pending (b : DesktopBridge) (k : key) : option PendingDispatch :=
  List.find (λ p, bool_decide (pd_key p = k)) (pending b).

(** [sessionPending.delete(toolId)]. *)
Definition delete_pending (b : DesktopBridge) (k : key) : DesktopBridge :=
  set_pending b (filter (λ p, pd_key p ≠ k) (pending b)).

(** The clean-up of a settled dispatch. *)
Definition settle (b : DesktopBridge) (k : key) : DesktopBridge :=
  remove_listener (clear_timer (delete_pending b k) k) k.

Definition failed_result (message : string) : OperationResult :=
  mkOpResult STATUS_FAILED message None.

(** ** Operations *)

(** [writeStatus]: a write that throws is tolerated. *)
Definition writeStatus (h : Host) (sessionName : string) (c : Connection) : list Effect :=
  let frame := buildFlowFrame h sessionName [statusPart SIGNAL_ACTIVE] in
  match h_write h with
  | WriteOk => [WriteFrame (conn_stream c) frame]
  | _ => []
  end.

(** A failing [previous.stream.end()] is tolerated too. *)
Definition attach (h : Host) (b : DesktopBridge) (sessionName : string) (stream : nat)
    : DesktopBridge * list Effect :=
  let '(b, ended) :=
    match connections b !! sessionName with
    | Some previous =>
        (set_heartbeats (set_connections b (delete sessionName (connections b)))
           (heartbeats b ∖ {[conn_id previous]}),
         [EndStream (conn_stream previous)])
    | None => (b, [])
    end in
  let c := mkConnection (next_conn b) stream in
  (mkBridge (<[sessionName := c]> (connections b)) (pending b) (S (next_conn b)) (next_call b)
     ({[conn_id c]} ∪ heartbeats b) (timers b) (listeners b) (aborted_signals b),
   ended ++ writeStatus h sessionName c).

(** [if (!sessionName)]: absent or empty. *)
Definition nonempty (s : option string) : option string :=
  match s with
  | Some EmptyString | None => None
  | Some s => Some s
  end.

Definition Stream (h : Host) (b : DesktopBridge) (session : option string) (stream : nat)
    : DesktopBridge * list Effect :=
  match nonempty session with
  | None => (b, [EndStream stream])
  | Some sessionName => attach h b sessionName stream
  end.

Definition isDesktopConnected (b : DesktopBridge) (sessionName : string) : bool :=
  bool_decide (is_Some (connections b !! sessionName)).

(** The interval of a connection ticks. *)
Definition heartbeat_tick (h : Host) (b : DesktopBridge) (sessionName : string) (c : Connection)
    : DesktopBridge * list Effect :=
  (b, if bool_decide (conn_id c ∈ heartbeats b) then writeStatus h sessionName c else []).

Definition count_call (b : DesktopBridge) : DesktopBridge :=
  mkBridge (connections b) (pending b) (next_conn b) (S (next_call b)) (heartbeats b) (timers b)
    (listeners b) (aborted_signals b).

Definition is_aborted (b : DesktopBridge) (signal : option nat) : bool :=
  match signal with
  | Some s => bool_decide (s ∈ aborted_signals b)
  | None => false
  end.

(** The promise of the call is number [next_call]. *)
Definition dispatch (h : Host) (b : DesktopBridge) (sessionName : string) (part : WireFlowPart)
    (signal : option nat) : DesktopBridge * list Effect :=
  let call := next_call b in
  let b := count_call b in
  match stamp_operation (h_toolId h) part with
  | None => (b, [Resolve call (failed_result "invalid tool part")])
  | Some part =>
      match connections b !! sessionName with
      | None => (b, [Resolve call (failed_result "desktop disconnected")])
      | Some connection =>
          if is_aborted b signal then (b, [Resolve call (failed_result "aborted")])
          else
            let k := (sessionName, h_toolId h) in
            let b := add_listener (set_timer b k) signal k in
            let b := set_pending b (pending b ++ [mkPending k call signal]) in
            match h_write h with
            | WriteOk =>
                (b, [WriteFrame (conn_stream connection) (buildFlowFrame h sessionName [part])])
            | WriteThrewError message => (settle b k, [Resolve call (failed_result message)])
            | WriteThrewOther => (settle b k, [Resolve call (failed_result "stream write error")])
            end
      end
  end.

(** The timer of a dispatch fires. *)
Definition on_timeout (b : DesktopBridge) (k : key) : DesktopBridge * list Effect :=
  if bool_decide (k ∈ timers b) then
    let b := clear_timer b k in
    match find_pending b k with
    | Some p =>
        (remove_listener (delete_pending b k) k,
         [Resolve (pd_call p) (failed_result "operation timed out")])
    | None => (b, [])
    end
  else (b, []).

(** The abort listener of a dispatch runs; [{ once: true }] removes it. *)
Definition on_abort (b : DesktopBridge) (k : key) : DesktopBridge * list Effect :=
  let b := remove_listener b k in
  match find_pending b k with
  | Some p => (clear_timer (delete_pending b k) k, [Resolve (pd_call p) (failed_result "aborted")])
  | None => (b, [])
  end.

Fixpoint on_aborts (b : DesktopBridge) (ks : list key) : DesktopBridge * list Effect :=
  match ks with
  | [] => (b, [])
  | k :: ks =>
      let '(b, effs) := on_abort b k in
      let '(b, effs') := on_aborts b ks in (b, effs ++ effs')
  end.

(** [controller.abort()]: the listeners run in their order of registration. *)
Definition abort_signal (b : DesktopBridge) (signal : nat) : DesktopBridge * list Effect :=
  let ks := map snd (filter (λ l, l.1 = signal) (listeners b)) in
  on_aborts
    (mkBridge (connections b) (pending b) (next_conn b) (next_call b) (heartbeats b) (timers b)
       (listeners b) ({[signal]} ∪ aborted_signals b)) ks.

Definition handleResult (b : DesktopBridge) (sessionName : string) (result : WireFlowResultPart)
    : DesktopBridge * list Effect :=
  match nonempty (rp_toolId result) with
  | None => (b, [])
  | Some toolId =>
      let k := (sessionName, toolId) in
      match find_pending b k with
      | None => (b, [])
      | Some p =>
          (settle b k,
           [Resolve (pd_call p)
              (mkOpResult (default STATUS_UNSPECIFIED (rp_status result))
                 (default "" (rp_message result))
                 (toOperationScreenshot <$> rp_screenshot result))])
      end
  end.

(** [routeFrame]: only receipts do more than logging. *)
Fixpoint route_parts (b : DesktopBridge) (sessionName : string) (parts : list WireFlowPart)
    : DesktopBridge * list Effect :=
  match parts with
  | [] => (b, [])
  | part :: parts =>
      let '(b, effs) :=
        match fp_flowResult part with
        | Some result => handleResult b sessionName result
        | None => (b, [])
        end in
      let '(b, effs') := route_parts b sessionName parts in (b, effs ++ effs')
  end.

Definition routeFrame (b : DesktopBridge) (sessionName : string) (frame : BridgeUserFrame)
    : DesktopBridge * list Effect :=
  match uf_flowParts frame with
  | None => (b, [])
  | Some parts => route_parts b sessionName (default [] parts)
  end.

Definition SendFrame (b : DesktopBridge) (session : option string) (frame : option BridgeUserFrame)
    : DesktopBridge * list Effect :=
  match nonempty session with
  | None => (b, [Reply (Some (INVALID_ARGUMENT, "session must not be empty"))])
  | Some sessionName =>
      match frame ≫= λ f, (λ _, f) <$> uf_flowParts f with
      | None => (b, [Reply (Some (INVALID_ARGUMENT, "frame.flow_parts must be present"))])
      | Some frame =>
          match connections b !! sessionName with
          | None => (b, [Reply (Some (FAILED_PRECONDITION, "desktop stream not active"))])
          | Some _ =>
              let '(b, effs) := routeFrame b sessionName frame in (b, effs ++ [Reply None])
          end
      end
  end.

(** The settling loop over a copy of the session's entries. *)
Fixpoint settle_all (b : DesktopBridge) (ps : list PendingDispatch) : DesktopBridge * list Effect :=
  match ps with
  | [] => (b, [])
  | p :: ps =>
      let '(b, effs) := settle_all (settle b (pd_key p)) ps in
      (b, Resolve (pd_call p) (failed_result "desktop disconnected") :: effs)
  end.

Definition pendingOf (b : DesktopBridge) (sessionName : string) : list PendingDispatch :=
  filter (λ p, (pd_key p).1 = sessionName) (pending b).

Definition disconnect (b : DesktopBridge) (sessionName : string) (connection : nat)
    : DesktopBridge * list Effect :=
  match connections b !! sessionName with
  | Some c =>
      if bool_decide (conn_id c = connection) then
        let b := set_heartbeats (set_connections b (delete sessionName (connections b)))
                   (heartbeats b ∖ {[connection]}) in
        settle_all b (pendingOf b sessionName)
      else (b, [])
  | None => (b, [])
  end.

(** ** Events and histories *)

Inductive bridge_event : Type :=
| EvStream (h : Host) (session : option string) (stream : nat)
| EvSendFrame (session : option string) (frame : option BridgeUserFrame)
| EvDispatch (h : Host) (sessionName : string) (part : WireFlowPart) (signal : option nat)
| EvTimeout (k : key)
| EvAbort (signal : nat)
| EvDisconnect (sessionName : string) (connection : nat)
| EvHeartbeat (h : Host) (sessionName : string) (c : Connection).

Definition run_event (b : DesktopBridge) (ev : bridge_event) : DesktopBridge * list Effect :=
  match ev with
  | EvStream h session stream => Stream h b session stream
  | EvSendFrame session frame => SendFrame b session frame
  | EvDispatch h s part signal => dispatch h b s part signal
  | EvTimeout k => on_timeout b k
  | EvAbort signal => abort_signal b signal
  | EvDisconnect s connection => disconnect b s connection
  | EvHeartbeat h s c => heartbeat_tick h b s c
  end.

(** [randomUUID] gives no tool id that is in flight. *)
Definition fresh_ids (b : DesktopBridge) (ev : bridge_event) : Prop :=
  match ev with
  | EvDispatch h s _ _ => (s, h_toolId h) ∉ map pd_key (pending b)
  | _ => True
  end.

Inductive reach : list Effect → DesktopBridge → Prop :=
| reach_new : reach [] new_bridge
| reach_step hist b ev b' effs :
    reach hist b → fresh_ids b ev → run_event b ev = (b', effs) → reach (hist ++ effs) b'.

(** The promises an effect list resolves, and those still pending. *)
Definition resolved (effs : list Effect) : list nat :=
  omap (λ e, match e with Resolve call _ => Some call | _ => None end) effs.

Definition calls (b : DesktopBridge) : list nat := map pd_call (pending b).

(** ** Invariant *)

Definition listener_of (p : PendingDispatch) : option (nat * key) :=
  (λ s, (s, pd_key p)) <$> pd_signal p.

(** What is registered with the host is what is in flight, no more and no less. *)
Record bridge_inv (b : DesktopBridge) : Prop := {
  inv_keys : NoDup (map pd_key (pending b));
  inv_timers : timers b = list_to_set (map pd_key (pending b));
  inv_listeners : listeners b = omap listener_of (pending b);
  inv_signals p s : p ∈ pending b → pd_signal p = Some s → s ∉ aborted_signals b;
  inv_connected p : p ∈ pending b → is_Some (connections b !! (pd_key p).1);
  inv_heartbeats i :
    i ∈ heartbeats b ↔ ∃ s c, connections b !! s = Some c ∧ conn_id c = i;
  inv_ids s c : connections b !! s = Some c → (conn_id c < next_conn b)%nat;
  inv_distinct s s' c c' :
    connections b !! s = Some c → connections b !! s' = Some c' → conn_id c = conn_id c' → s = s';
}.

(** ** Lemmas *)

Lemma resolved_app e1 e2 : resolved (e1 ++ e2) = resolved e1 ++ resolved e2.
Proof. unfold resolved. by rewrite omap_app. Qed.

Lemma find_pending_Some b k p :
  find_pending b k = Some p → p ∈ pending b ∧ pd_key p = k.
Proof.
  unfold find_pending. intros [Hin Hk]%List.find_some.
  apply bool_decide_eq_true in Hk. by apply list_elem_of_In in Hin.
Qed.

Lemma find_pending_None b k :
  find_pending b k = None → k ∉ map pd_key (pending b).
Proof.
  intros Hn Hin. apply list_elem_of_fmap in Hin as (p & -> & Hp).
  apply list_elem_of_In in Hp. pose proof (List.find_none _ _ Hn _ Hp) as Hf. simpl in Hf.
  by apply bool_decide_eq_false in Hf.
Qed.

Lemma filter_all {A} (P : A → Prop) `{∀ x, Decision (P x)} (l : list A) :
  Forall P l → filter P l = l.
Proof. induction 1; [done|]. rewrite filter_cons_True by done. by f_equal. Qed.

(** Taking an entry out of a list with distinct keys. *)
Lemma delete_perm (ps : list PendingDispatch) p :
  NoDup (map pd_key ps) → p ∈ ps → ps ≡ₚ p :: filter (λ q, pd_key q ≠ pd_key p) ps.
Proof.
  induction ps as [|q ps IH]; intros Hnd Hin; [by apply elem_of_nil in Hin|].
  simpl in Hnd. apply NoDup_cons in Hnd as [Hq Hnd].
  apply elem_of_cons in Hin as [->|Hin].
  - rewrite filter_cons_False by tauto.
    rewrite filter_all; [done|]. apply Forall_forall. intros x Hx Heq.
    apply Hq. rewrite <- Heq. by apply list_elem_of_fmap_2.
  - rewrite filter_cons_True.
    + rewrite Permutation_swap. constructor. by apply IH.
    + intros Heq. apply Hq. rewrite Heq. by apply list_elem_of_fmap_2.
Qed.

Lemma map_filter_key (ps : list PendingDispatch) k :
  map pd_key (filter (λ q, pd_key q ≠ k) ps) = filter (λ k', k' ≠ k) (map pd_key ps).
Proof.
  induction ps as [|q ps IH]; [done|]. simpl. destruct (decide (pd_key q ≠ k)).
  - rewrite !filter_cons_True by done. simpl. by rewrite IH.
  - by rewrite !filter_cons_False by done.
Qed.

Lemma omap_filter_listener (ps : list PendingDispatch) k :
  omap listener_of (filter (λ q, pd_key q ≠ k) ps) =
  filter (λ l, l.2 ≠ k) (omap listener_of ps).
Proof.
  induction ps as [|q ps IH]; [done|].
  assert (∀ l, listener_of q = Some l → l.2 = pd_key q) as Hl.
  { unfold listener_of. intros l. destruct (pd_signal q); simpl; [by intros [= <-]|done]. }
  destruct (decide (pd_key q ≠ k)) as [Hk|Hk].
  - rewrite filter_cons_True by done. simpl. destruct (listener_of q) as [l|]; [|done].
    rewrite filter_cons_True by (rewrite (Hl l); done). f_equal. apply IH.
  - rewrite filter_cons_False by done. simpl. destruct (listener_of q) as [l|]; [|done].
    by rewrite filter_cons_False by (rewrite (Hl l); done).
Qed.

(** The state after an entry left the three registries. *)
Lemma settle_inv b k : bridge_inv b → bridge_inv (settle b k).
Proof.
  intros [Hk Ht Hl Hs Hc Hh Hi Hd]. split; simpl; try done.
  - rewrite map_filter_key. by apply NoDup_filter.
  - rewrite map_filter_key, Ht. apply set_eq. intros x.
    rewrite elem_of_difference, !elem_of_list_to_set, list_elem_of_filter. set_solver.
  - by rewrite Hl, omap_filter_listener.
  - intros p s [_ Hp]%list_elem_of_filter. by apply Hs.
  - intros p [_ Hp]%list_elem_of_filter. by apply Hc.
Qed.

Lemma settle_calls b k p :
  bridge_inv b → find_pending b k = Some p →
  pd_call p :: calls (settle b k) ≡ₚ calls b.
Proof.
  intros Hinv [Hin <-]%find_pending_Some. unfold calls. simpl.
  symmetry. rewrite (delete_perm (pending b) p) at 1; [done|apply Hinv|done].
Qed.

(** An operation that creates no promise: it keeps the invariant, and the
    promises it resolves are exactly those it takes out of the pending ones. *)
Definition settles (b : DesktopBridge) (r : DesktopBridge * list Effect) : Prop :=
  bridge_inv r.1 ∧ resolved r.2 ++ calls r.1 ≡ₚ calls b ∧ next_call r.1 = next_call b.

Lemma settles_refl b : bridge_inv b → settles b (b, []).
Proof. intros. by split_and!. Qed.

Lemma settles_app b b1 e1 b2 e2 :
  settles b (b1, e1) → settles b1 (b2, e2) → settles b (b2, e1 ++ e2).
Proof.
  intros (_ & Hp1 & Hn1) (Hinv & Hp2 & Hn2). simpl in *. split_and!; simpl; [done| |congruence].
  by rewrite resolved_app, <- app_assoc, Hp2.
Qed.

Lemma settles_one b k p result :
  bridge_inv b → find_pending b k = Some p →
  settles b (settle b k, [Resolve (pd_call p) result]).
Proof.
  intros Hinv Hf. split_and!; simpl; [by apply settle_inv| |done].
  by apply settle_calls.
Qed.

Lemma on_timeout_settles b k : bridge_inv b → settles b (on_timeout b k).
Proof.
  intros Hinv. unfold on_timeout. case_bool_decide as Hk; [|by apply settles_refl].
  rewrite (inv_timers _ Hinv), elem_of_list_to_set in Hk.
  change (find_pending (clear_timer b k) k) with (find_pending b k).
  destruct (find_pending b k) as [p|] eqn:Hf; [exact (settles_one b k p _ Hinv Hf)|].
  by apply find_pending_None in Hf.
Qed.

Lemma remove_listener_absent b k :
  bridge_inv b → find_pending b k = None → remove_listener b k = b.
Proof.
  intros Hinv Hf%find_pending_None. unfold remove_listener.
  rewrite filter_all; [by destruct b|]. rewrite (inv_listeners _ Hinv). apply Forall_forall.
  intros l (p & Hp & Hl)%list_elem_of_omap <-. apply Hf.
  unfold listener_of in Hl. destruct (pd_signal p); simplify_eq/=. by apply list_elem_of_fmap_2.
Qed.

Lemma on_abort_settles b k : bridge_inv b → settles b (on_abort b k).
Proof.
  intros Hinv. unfold on_abort. change (find_pending (remove_listener b k) k) with (find_pending b k).
  destruct (find_pending b k) as [p|] eqn:Hf; [exact (settles_one b k p _ Hinv Hf)|].
  rewrite remove_listener_absent by done. by apply settles_refl.
Qed.

Lemma on_aborts_settles ks : ∀ b, bridge_inv b → settles b (on_aborts b ks).
Proof.
  induction ks as [|k ks IH]; intros b Hinv; [by apply settles_refl|]. simpl.
  pose proof (on_abort_settles b k Hinv) as Hs. destruct (on_abort b k) as [b1 e1].
  specialize (IH b1 (proj1 Hs)). destruct (on_aborts b1 ks) as [b2 e2]. by eapply settles_app.
Qed.

Lemma handleResult_settles b s result : bridge_inv b → settles b (handleResult b s result).
Proof.
  intros Hinv. unfold handleResult. destruct (nonempty _) as [t|]; [|by apply settles_refl].
  destruct (find_pending b (s, t)) as [p|] eqn:Hf; [by apply settles_one|by apply settles_refl].
Qed.

Lemma route_parts_settles s parts : ∀ b, bridge_inv b → settles b (route_parts b s parts).
Proof.
  induction parts as [|part parts IH]; intros b Hinv; [by apply settles_refl|]. simpl.
  assert (settles b (match fp_flowResult part with
    | Some result => handleResult b s result | None => (b, []) end)) as Hs
    by (destruct (fp_flowResult part); [by apply handleResult_settles|by apply settles_refl]).
  destruct (match fp_flowResult part with Some _ => _ | None => _ end) as [b1 e1].
  specialize (IH b1 (proj1 Hs)). destruct (route_parts b1 s parts) as [b2 e2]. by eapply settles_app.
Qed.

Lemma SendFrame_settles b session frame : bridge_inv b → settles b (SendFrame b session frame).
Proof.
  intros Hinv. unfold SendFrame.
  assert (∀ err, settles b (b, [Reply err])) as Hreply by (intros; by split_and!).
  destruct (nonempty session) as [s|]; [|done]. destruct (_ ≫= _) as [f|]; [|done].
  destruct (connections b !! s); [|done].
  assert (settles b (routeFrame b s f)) as Hs.
  { unfold routeFrame. destruct (uf_flowParts f); [by apply route_parts_settles|by apply settles_refl]. }
  destruct (routeFrame b s f) as [b1 e1]. eapply settles_app; [done|].
  destruct Hs. by split_and!.
Qed.

(** The settling loop, over entries that are all in flight. *)
Lemma settle_all_spec ps : ∀ b,
  bridge_inv b → NoDup (map pd_key ps) → (∀ p, p ∈ ps → p ∈ pending b) →
  settles b (settle_all b ps) ∧
  (settle_all b ps).2 =
    map (λ p, Resolve (pd_call p) (failed_result "desktop disconnected")) ps ∧
  pending (settle_all b ps).1 = filter (λ p, pd_key p ∉ map pd_key ps) (pending b) ∧
  connections (settle_all b ps).1 = connections b.
Proof.
  induction ps as [|p ps IH]; intros b Hinv Hnd Hin; simpl.
  { split_and!; [by apply settles_refl|done| |done]. symmetry. apply filter_all, Forall_forall.
    intros q _ Hq. by apply elem_of_nil in Hq. }
  apply NoDup_cons in Hnd as [Hp Hnd].
  assert (p ∈ pending b) as Hpb by (apply Hin, list_elem_of_here).
  assert (find_pending b (pd_key p) = Some p) as Hf.
  { destruct (find_pending b (pd_key p)) as [q|] eqn:Hf.
    - apply find_pending_Some in Hf as [Hq Hkey]. f_equal.
      pose proof (delete_perm _ _ (inv_keys _ Hinv) Hpb) as Hperm.
      rewrite Hperm in Hq. apply elem_of_cons in Hq as [->|[Hne _]%list_elem_of_filter]; done.
    - apply find_pending_None in Hf. destruct Hf. by apply list_elem_of_fmap_2. }
  destruct (IH (settle b (pd_key p))) as (Hs & He & Hpend & Hc); [by apply settle_inv|done| |].
  { intros q Hq. simpl. apply list_elem_of_filter. split.
    - intros Heq. apply Hp. rewrite <- Heq. by apply list_elem_of_fmap_2.
    - apply Hin. by apply list_elem_of_further. }
  destruct (settle_all (settle b (pd_key p)) ps) as [b' effs]. simpl in *.
  split_and!; [|by f_equal| |done].
  - refine (settles_app b (settle b (pd_key p)) [Resolve (pd_call p) _] b' effs _ Hs).
    by apply settles_one.
  - rewrite Hpend, list_filter_filter. apply list_filter_iff. intros q.
    rewrite not_elem_of_cons. tauto.
Qed.

Lemma filter_ext_in {A} (P Q : A → Prop) `{∀ x, Decision (P x)} `{∀ x, Decision (Q x)} (l : list A) :
  (∀ x, x ∈ l → P x ↔ Q x) → filter P l = filter Q l.
Proof.
  induction l as [|a l IH]; intros Hiff; [done|].
  assert (P a ↔ Q a) as Ha by (apply Hiff, list_elem_of_here).
  assert (filter P l = filter Q l) as Hl by (apply IH; intros; by apply Hiff, list_elem_of_further).
  destruct (decide (P a)) as [Hp|Hp].
  - rewrite !filter_cons_True by tauto. by rewrite Hl.
  - rewrite !filter_cons_False by tauto. done.
Qed.

Definition with_connections (b : DesktopBridge) (c : gmap string Connection) (hb : gset nat)
    : DesktopBridge := set_heartbeats (set_connections b c) hb.

(** The settling loop does not look at the connections. *)
Lemma settle_all_connections c hb ps : ∀ b,
  settle_all (with_connections b c hb) ps =
    (with_connections (settle_all b ps).1 c hb, (settle_all b ps).2).
Proof.
  induction ps as [|p ps IH]; intros b; [done|]. simpl.
  change (settle (with_connections b c hb) (pd_key p)) with (with_connections (settle b (pd_key p)) c hb).
  rewrite IH. by destruct (settle_all (settle b (pd_key p)) ps).
Qed.

Lemma settle_all_heartbeats ps : ∀ b, heartbeats (settle_all b ps).1 = heartbeats b.
Proof.
  induction ps as [|p ps IH]; intros b; [done|]. simpl. specialize (IH (settle b (pd_key p))).
  by destruct (settle_all (settle b (pd_key p)) ps).
Qed.

(** Dropping a connection with no dispatch in flight. *)
Lemma drop_connection_inv b s c :
  bridge_inv b → connections b !! s = Some c → (∀ p, p ∈ pending b → (pd_key p).1 ≠ s) →
  bridge_inv (with_connections b (delete s (connections b)) (heartbeats b ∖ {[conn_id c]})).
Proof.
  intros [Hk Ht Hl Hs Hc Hh Hi Hd] Hcs Hno. split; simpl; try done.
  - intros p Hp. rewrite lookup_delete_ne; [by apply Hc|]. intros E. by apply (Hno p Hp).
  - intros i. rewrite elem_of_difference, elem_of_singleton, Hh. split.
    + intros [(s' & c' & Hs' & <-) Hne]. exists s', c'. split; [|done].
      apply lookup_delete_Some. split; [|done]. intros ->. by simplify_eq.
    + intros (s' & c' & [Hne Hs']%lookup_delete_Some & <-). split; [by exists s', c'|].
      intros E. apply Hne. by eapply Hd.
  - intros s' c' [_ Hs']%lookup_delete_Some. by eapply Hi.
  - intros s1 s2 c1 c2 [_ H1]%lookup_delete_Some [_ H2]%lookup_delete_Some. by apply Hd.
Qed.

Lemma disconnect_live b s c :
  bridge_inv b → connections b !! s = Some c →
  let r := disconnect b s (conn_id c) in
  settles b r ∧
  r.2 = map (λ p, Resolve (pd_call p) (failed_result "desktop disconnected")) (pendingOf b s) ∧
  pending r.1 = filter (λ p, (pd_key p).1 ≠ s) (pending b) ∧
  connections r.1 = delete s (connections b).
Proof.
  intros Hinv Hc. unfold disconnect. rewrite Hc, bool_decide_eq_true_2 by done.
  change (set_heartbeats _ _) with
    (with_connections b (delete s (connections b)) (heartbeats b ∖ {[conn_id c]})).
  change (pendingOf (with_connections b _ _) s) with (pendingOf b s).
  rewrite settle_all_connections. unfold pendingOf.
  destruct (settle_all_spec (filter (λ p, (pd_key p).1 = s) (pending b)) b Hinv)
    as (Hs & He & Hp & Hconn).
  - pose proof (inv_keys _ Hinv) as Hnd. revert Hnd. generalize (pending b). intros l.
    induction l as [|q l IH]; [done|]. simpl. intros [Hq Hnd]%NoDup_cons.
    destruct (decide ((pd_key q).1 = s)).
    + rewrite filter_cons_True by done. apply NoDup_cons. split; [|by apply IH].
      intros (q' & Eq & [_ Hin]%list_elem_of_filter)%list_elem_of_fmap.
      apply Hq. rewrite Eq. by apply list_elem_of_fmap_2.
    + rewrite filter_cons_False by done. by apply IH.
  - by intros p [_ ?]%list_elem_of_filter.
  - assert (pending (settle_all b (filter (λ p, (pd_key p).1 = s) (pending b))).1
      = filter (λ p, (pd_key p).1 ≠ s) (pending b)) as Hrest.
    { rewrite Hp. apply filter_ext_in. intros p Hin. split.
      - intros Hn Es. apply Hn. apply list_elem_of_fmap_2, list_elem_of_filter. done.
      - intros Hn (q & Eq & [Es _]%list_elem_of_filter)%list_elem_of_fmap. congruence. }
    destruct Hs as (Hinv' & Hperm & Hnext). simpl. split_and!; [|done|done|done].
    split_and!; simpl; [|done|done]. rewrite <- Hconn.
    rewrite <- (settle_all_heartbeats (filter (λ p, (pd_key p).1 = s) (pending b)) b).
    apply drop_connection_inv; [done|by rewrite Hconn|].
    intros p. rewrite Hrest. by intros [? _]%list_elem_of_filter.
Qed.

Lemma disconnect_settles b s i : bridge_inv b → settles b (disconnect b s i).
Proof.
  intros Hinv. destruct (connections b !! s) as [c|] eqn:Hc.
  - destruct (decide (conn_id c = i)) as [<-|Hne]; [by apply disconnect_live|].
    unfold disconnect. rewrite Hc, bool_decide_eq_false_2 by done. by apply settles_refl.
  - unfold disconnect. rewrite Hc. by apply settles_refl.
Qed.

Lemma writeStatus_resolved h s c : resolved (writeStatus h s c) = [].
Proof. unfold writeStatus. by destruct (h_write h). Qed.

Lemma attach_settles h b s stream : bridge_inv b → settles b (attach h b s stream).
Proof.
  intros [Hk Ht Hl Hs Hc Hh Hi Hd]. unfold attach.
  set (b1 := match connections b !! s with Some _ => _ | None => _ end).
  assert (∃ ended, b1 = (with_connections b (delete s (connections b))
      (heartbeats b ∖ match connections b !! s with Some c => {[conn_id c]} | None => ∅ end), ended) ∧
    resolved ended = []) as (ended & -> & Hres).
  { unfold b1, with_connections. destruct (connections b !! s) as [c|] eqn:E; [by eexists|].
    exists []. split; [|done]. rewrite delete_id by done. destruct b; simpl.
    by rewrite difference_empty_L. }
  unfold settles. simpl. split_and!; [|by rewrite resolved_app, writeStatus_resolved, app_nil_r, Hres|done].
  split; simpl; try done.
  - intros p Hp. destruct (decide (s = (pd_key p).1)) as [->|Hne].
    + rewrite lookup_insert_eq. by eexists.
    + rewrite lookup_insert_ne, lookup_delete_ne by done. by apply Hc.
  - intros i. rewrite elem_of_union, elem_of_difference, elem_of_singleton, Hh. split.
    + intros [->|[(s' & c' & Hs' & <-) Hne]].
      * exists s. eexists. by rewrite lookup_insert_eq.
      * exists s', c'. split; [|done]. destruct (decide (s = s')) as [->|Hss].
        { rewrite Hs' in Hne. set_solver. }
        by rewrite lookup_insert_ne, lookup_delete_ne.
    + intros (s' & c' & [[<- <-]|[Hss Hs']]%lookup_insert_Some & <-); [by left|].
      apply lookup_delete_Some in Hs' as [_ Hs']. right. split; [by exists s', c'|].
      destruct (connections b !! s) as [c|] eqn:E; [|set_solver].
      intros Hid%elem_of_singleton. apply Hss. by eapply Hd.
  - intros s' c' [[<- <-]|[_ [_ Hs']%lookup_delete_Some]]%lookup_insert_Some; simpl; [lia|].
    apply Hi in Hs'. lia.
  - intros s1 s2 c1 c2 [[<- <-]|[H1 [_ E1]%lookup_delete_Some]]%lookup_insert_Some
      [[<- <-]|[H2 [_ E2]%lookup_delete_Some]]%lookup_insert_Some Hid; [done| | |by eapply Hd].
    + apply Hi in E2. simpl in Hid. lia.
    + apply Hi in E1. simpl in Hid. lia.
Qed.

(** A dispatch creates one promise. *)
Lemma dispatch_creates h b s part signal :
  bridge_inv b → (s, h_toolId h) ∉ map pd_key (pending b) →
  let r := dispatch h b s part signal in
  bridge_inv r.1 ∧ resolved r.2 ++ calls r.1 ≡ₚ calls b ++ [next_call b] ∧
  next_call r.1 = S (next_call b).
Proof.
  intros Hinv Hfresh. unfold dispatch.
  assert (bridge_inv (count_call b)) as Hb by (destruct Hinv; by split).
  assert (∀ message, let r := (count_call b, [Resolve (next_call b) (failed_result message)]) in
    bridge_inv r.1 ∧ resolved r.2 ++ calls r.1 ≡ₚ calls b ++ [next_call b] ∧
    next_call r.1 = S (next_call b)) as Hfail.
  { intros message. simpl. split_and!; [done| |done]. apply Permutation_cons_append. }
  destruct (stamp_operation _ _) as [part'|]; [|apply Hfail].
  change (connections (count_call b)) with (connections b).
  destruct (connections b !! s) as [c|] eqn:Hc; [|apply Hfail].
  change (is_aborted (count_call b) signal) with (is_aborted b signal).
  destruct (is_aborted b signal) eqn:Hab; [apply Hfail|].
  set (k := (s, h_toolId h)). set (p := mkPending k (next_call b) signal).
  set (b2 := set_pending _ _).
  assert (bridge_inv b2) as Hinv2.
  { destruct Hb as [Hk Ht Hl Hs Hcn Hh Hi Hd]. simpl in *. split; simpl; try done.
    - rewrite map_app. apply NoDup_app. split_and!; [done| |apply NoDup_singleton].
      intros x Hx ->%list_elem_of_singleton. done.
    - rewrite map_app, list_to_set_app_L, Ht. simpl. set_solver.
    - rewrite omap_app, Hl. f_equal. unfold listener_of. simpl. by destruct signal.
    - intros q sg [Hq| ->%list_elem_of_singleton]%elem_of_app; [by apply Hs|].
      simpl. intros ->. simpl in Hab. by apply bool_decide_eq_false in Hab.
    - intros q [Hq| ->%list_elem_of_singleton]%elem_of_app; [by apply Hcn|]. by exists c. }
  assert (calls b2 = calls b ++ [next_call b]) as Hcalls by (unfold calls; simpl; by rewrite map_app).
  assert (find_pending b2 k = Some p) as Hf.
  { destruct (find_pending b2 k) as [q|] eqn:Hf.
    - apply find_pending_Some in Hf as [[Hq| ->%list_elem_of_singleton]%elem_of_app Hkey]; [|done].
      destruct Hfresh. fold k. rewrite <- Hkey. by apply list_elem_of_fmap_2.
    - apply find_pending_None in Hf. destruct Hf. simpl. rewrite map_app.
      apply elem_of_app. right. by apply list_elem_of_singleton. }
  assert (∀ message, let r := (settle b2 k, [Resolve (next_call b) (failed_result message)]) in
    bridge_inv r.1 ∧ resolved r.2 ++ calls r.1 ≡ₚ calls b ++ [next_call b] ∧
    next_call r.1 = S (next_call b)) as Hthrow.
  { intros message. destruct (settles_one b2 k p (failed_result message) Hinv2 Hf) as (? & Hp & ?).
    rewrite Hcalls in Hp. by split_and!. }
  destruct (h_write h); [|apply Hthrow..]. simpl. split_and!; [done| |done]. by rewrite Hcalls.
Qed.

(** The abort listeners: what stays pending, and what they do not look at. *)
Definition with_aborted (b : DesktopBridge) (ab : gset nat) : DesktopBridge :=
  mkBridge (connections b) (pending b) (next_conn b) (next_call b) (heartbeats b) (timers b)
    (listeners b) ab.

Lemma on_aborts_aborted ab ks : ∀ b,
  on_aborts (with_aborted b ab) ks = (with_aborted (on_aborts b ks).1 ab, (on_aborts b ks).2).
Proof.
  induction ks as [|k ks IH]; intros b; [done|]. simpl. unfold on_abort.
  change (find_pending (remove_listener (with_aborted b ab) k) k) with (find_pending (remove_listener b k) k).
  destruct (find_pending (remove_listener b k) k) as [p|].
  - change (clear_timer (delete_pending (remove_listener (with_aborted b ab) k) k) k)
      with (with_aborted (clear_timer (delete_pending (remove_listener b k) k) k) ab).
    rewrite IH. by destruct (on_aborts _ ks).
  - change (remove_listener (with_aborted b ab) k) with (with_aborted (remove_listener b k) ab).
    rewrite IH. by destruct (on_aborts _ ks).
Qed.

Lemma on_aborts_rest ks : ∀ b,
  pending (on_aborts b ks).1 = filter (λ p, pd_key p ∉ ks) (pending b) ∧
  aborted_signals (on_aborts b ks).1 = aborted_signals b.
Proof.
  induction ks as [|k ks IH]; intros b; simpl.
  { split; [|done]. symmetry. apply filter_all, Forall_forall.
    intros p _ Hp. by apply elem_of_nil in Hp. }
  assert (pending (on_abort b k).1 = filter (λ p, pd_key p ≠ k) (pending b) ∧
    aborted_signals (on_abort b k).1 = aborted_signals b) as [Hp Ha].
  { unfold on_abort. change (find_pending (remove_listener b k) k) with (find_pending b k).
    destruct (find_pending b k) as [p|] eqn:Hf; [done|]. split; [|done]. simpl. symmetry.
    apply filter_all, Forall_forall. intros p Hp <-. apply find_pending_None in Hf.
    apply Hf. by apply list_elem_of_fmap_2. }
  destruct (on_abort b k) as [b1 e1]. specialize (IH b1). destruct (on_aborts b1 ks) as [b2 e2].
  simpl in *. destruct IH as [-> ->]. split; [|done].
  rewrite Hp, list_filter_filter. apply list_filter_iff. intros p. rewrite not_elem_of_cons. tauto.
Qed.

Lemma abort_signal_settles b signal : bridge_inv b → settles b (abort_signal b signal).
Proof.
  intros Hinv. unfold abort_signal.
  change (mkBridge _ _ _ _ _ _ _ _) with (with_aborted b ({[signal]} ∪ aborted_signals b)).
  set (ks := map snd _). rewrite on_aborts_aborted.
  destruct (on_aborts_settles ks b Hinv) as ([Hk Ht Hl Hs Hc Hh Hi Hd] & Hperm & Hnext).
  destruct (on_aborts_rest ks b) as [Hp Ha].
  split_and!; simpl; [|done|done]. split; simpl; try done.
  intros p sg Hin Hsg. rewrite not_elem_of_union, not_elem_of_singleton. split.
  - intros ->. rewrite Hp in Hin. apply list_elem_of_filter in Hin as [Hno Hin]. apply Hno.
    unfold ks. apply list_elem_of_fmap. exists (signal, pd_key p). split; [done|].
    apply list_elem_of_filter. split; [done|]. rewrite (inv_listeners _ Hinv).
    apply list_elem_of_omap. exists p. split; [done|]. unfold listener_of. by rewrite Hsg.
  - rewrite <- Ha. by eapply Hs.
Qed.

(** *** Every event *)

Lemma event_step b ev :
  bridge_inv b → fresh_ids b ev →
  let r := run_event b ev in
  bridge_inv r.1 ∧
  resolved r.2 ++ calls r.1 ≡ₚ calls b ++ seq (next_call b) (next_call r.1 - next_call b) ∧
  (next_call b ≤ next_call r.1)%nat.
Proof.
  intros Hinv Hfresh.
  assert (∀ r, settles b r → bridge_inv r.1 ∧
    resolved r.2 ++ calls r.1 ≡ₚ calls b ++ seq (next_call b) (next_call r.1 - next_call b) ∧
    (next_call b ≤ next_call r.1)%nat) as Hsettles.
  { intros r (? & ? & ->). split_and!; [done| |lia]. by rewrite Nat.sub_diag, app_nil_r. }
  destruct ev as [h session stream|session frame|h s part signal|k|signal|s i|h s c]; simpl.
  - apply Hsettles. unfold Stream. destruct (nonempty session); [by apply attach_settles|by split_and!].
  - by apply Hsettles, SendFrame_settles.
  - destruct (dispatch_creates h b s part signal Hinv Hfresh) as (? & Hp & ->).
    split_and!; [done| |lia]. by replace (S (next_call b) - next_call b)%nat with 1%nat by lia.
  - by apply Hsettles, on_timeout_settles.
  - by apply Hsettles, abort_signal_settles.
  - by apply Hsettles, disconnect_settles.
  - apply (Hsettles (heartbeat_tick h b s c)). unfold heartbeat_tick.
    split_and!; simpl; [done| |done]. case_bool_decide; [by rewrite writeStatus_resolved|done].
Qed.

Lemma new_bridge_inv : bridge_inv new_bridge.
Proof.
  split; simpl; try done.
  - apply NoDup_nil_2.
  - intros p Hp. by apply elem_of_nil in Hp.
  - intros i. split; [by intros ?%elem_of_empty|]. intros (s & c & Hs & _). by rewrite lookup_empty in Hs.
Qed.

(** ** Properties *)

Lemma reach_inv hist b :
  reach hist b →
  bridge_inv b ∧ resolved hist ++ calls b ≡ₚ seq 0 (next_call b).
Proof.
  induction 1 as [|hist b ev b' effs _ [Hinv Hperm] Hfresh Hrun].
  { split; [apply new_bridge_inv|done]. }
  pose proof (event_step b ev Hinv Hfresh) as (Hinv' & Hp & Hle). rewrite Hrun in Hinv', Hp, Hle.
  simpl in *. split; [done|]. rewrite resolved_app, <- app_assoc, Hp, app_assoc, Hperm.
  rewrite <- seq_app. by replace (next_call b + (next_call b' - next_call b))%nat with (next_call b') by lia.
Qed.

(** C36: every dispatch is answered exactly once.  After any sequence of streams,
    uplink frames, dispatches, timeouts, aborts and disconnects, the promises
    resolved so far and those in flight are together each dispatch once: none is
    resolved twice and none is lost.  What is in flight is registered with the
    host exactly: one armed timer each (so the answer comes at the latest with
    the timeout), one abort listener each that has a signal, a live connection of
    its session, and one heartbeat per live connection. *)
Theorem dispatches_answered_exactly_once hist b (Hreach : reach hist b) :
  resolved hist ++ calls b ≡ₚ seq 0 (next_call b) ∧
  timers b = list_to_set (map pd_key (pending b)) ∧
  listeners b = omap listener_of (pending b) ∧
  (∀ p, p ∈ pending b → is_Some (connections b !! (pd_key p).1)) ∧
  (∀ i, i ∈ heartbeats b ↔ ∃ s c, connections b !! s = Some c ∧ conn_id c = i).
Proof. destruct (reach_inv _ _ Hreach) as [[] ?]. by split_and!. Qed.

(** Compare-and-delete.  The end of a superseded connection changes nothing;
    the end of the live one removes it and answers every dispatch in flight of
    its session, in order, "desktop disconnected", leaving the dispatches and the
    connections of the other sessions alone. *)
Theorem disconnect_settles_its_session hist b s i (Hreach : reach hist b) :
  let '(b', effs) := disconnect b s i in
  ((∀ c, connections b !! s = Some c → conn_id c ≠ i) → b' = b ∧ effs = []) ∧
  (∀ c, connections b !! s = Some c → conn_id c = i →
     effs = map (λ p, Resolve (pd_call p) (failed_result "desktop disconnected")) (pendingOf b s) ∧
     pending b' = filter (λ p, (pd_key p).1 ≠ s) (pending b) ∧
     connections b' = delete s (connections b)).
Proof.
  destruct (reach_inv _ _ Hreach) as [Hinv _].
  destruct (disconnect b s i) as [b' effs] eqn:Hd. split.
  - intros Hne. unfold disconnect in Hd. destruct (connections b !! s) as [c|] eqn:Hc; [|by simplify_eq].
    rewrite bool_decide_eq_false_2 in Hd by (by apply Hne). by simplify_eq.
  - intros c Hc <-. pose proof (disconnect_live b s c Hinv Hc) as (_ & He & Hp & Hconn).
    by rewrite Hd in He, Hp, Hconn.
Qed.

(** Receipts find their dispatch.  An uplink receipt with the tool id of a
    dispatch in flight of its session answers that dispatch with the receipt's
    status, message and screenshot and takes it, and it only, out of flight,
    whichever connection the dispatch went out on; any other receipt changes
    nothing. *)
Theorem receipt_answers_its_dispatch hist b s result
    (Hreach : reach hist b) :
  let '(b', effs) := handleResult b s result in
  (∀ p toolId, p ∈ pending b → pd_key p = (s, toolId) → rp_toolId result = Some toolId → toolId ≠ "" →
     effs = [Resolve (pd_call p)
       (mkOpResult (default STATUS_UNSPECIFIED (rp_status result)) (default "" (rp_message result))
          (toOperationScreenshot <$> rp_screenshot result))] ∧
     pending b' = filter (λ q, pd_key q ≠ (s, toolId)) (pending b)) ∧
  ((∀ p toolId, p ∈ pending b → rp_toolId result = Some toolId → pd_key p ≠ (s, toolId)) →
     b' = b ∧ effs = []).
Proof.
  destruct (reach_inv _ _ Hreach) as [Hinv _].
  destruct (handleResult b s result) as [b' effs] eqn:Hh. unfold handleResult in Hh. split.
  - intros p t Hp Hk Ht Hne. rewrite Ht in Hh. destruct t as [|ch t]; [done|]. simpl in Hh.
    destruct (find_pending b (s, String ch t)) as [q|] eqn:Hf.
    + apply find_pending_Some in Hf as [Hq Hqk]. simplify_eq. split; [|done].
      assert (q = p) as ->; [|done].
      pose proof (delete_perm _ _ (inv_keys _ Hinv) Hp) as Hperm. rewrite Hperm in Hq.
      apply elem_of_cons in Hq as [->|[Hn _]%list_elem_of_filter]; [done|]. congruence.
    + apply find_pending_None in Hf. destruct Hf. rewrite <- Hk. by apply list_elem_of_fmap_2.
  - intros Hno. destruct (nonempty (rp_toolId result)) as [t|] eqn:Ht; [|by simplify_eq].
    assert (rp_toolId result = Some t) as Hrt
      by (destruct (rp_toolId result) as [[]|]; simpl in Ht; congruence).
    destruct (find_pending b (s, t)) as [q|] eqn:Hf; [|by simplify_eq].
    apply find_pending_Some in Hf as [Hq Hqk]. by destruct (Hno q t Hq Hrt).
Qed.

(** ** Witnesses: two dispatches across a takeover *)

Fixpoint run_all (hist : list Effect) (b : DesktopBridge) (evs : list bridge_event)
    : list Effect * DesktopBridge :=
  match evs with
  | [] => (hist, b)
  | ev :: evs => let '(b, effs) := run_event b ev in run_all (hist ++ effs) b evs
  end.

#[global] Instance fresh_ids_dec b ev : Decision (fresh_ids b ev).
Proof. destruct ev; apply _. Defined.

Fixpoint all_fresh (b : DesktopBridge) (evs : list bridge_event) : bool :=
  match evs with
  | [] => true
  | ev :: evs => bool_decide (fresh_ids b ev) && all_fresh (run_event b ev).1 evs
  end.

Lemma run_all_reach evs : ∀ hist b,
  reach hist b → all_fresh b evs = true →
  reach (run_all hist b evs).1 (run_all hist b evs).2.
Proof.
  induction evs as [|ev evs IH]; intros hist b Hr Hf; [done|]. simpl in *.
  apply andb_true_iff in Hf as [Hev%bool_decide_eq_true Hf].
  destruct (run_event b ev) as [b' effs] eqn:E. apply IH; [by eapply reach_step|done].
Qed.

Definition host (id : string) : Host := mkHost id "frame" 1700000000123 WriteOk.
Definition press : WireFlowPart := keyboardPress (mkKeyboardPress None (Some "KEYBOARD_KEY_F2")).
Definition team : string := "templates/saolei/sessions/s1".

(** Connection 0 takes two dispatches, connection 1 takes over. *)
Definition sample_events : list bridge_event :=
  [EvStream (host "") (Some team) 10; EvDispatch (host "t1") team press (Some 5%nat);
   EvDispatch (host "t2") team press None; EvStream (host "") (Some team) 11].

Definition sample_hist : list Effect := (run_all [] new_bridge sample_events).1.
Definition sample_bridge : DesktopBridge := (run_all [] new_bridge sample_events).2.

Lemma sample_reach : reach sample_hist sample_bridge.
Proof. apply run_all_reach; [constructor|by vm_compute]. Qed.

Definition receipt (id : string) : WireFlowResultPart :=
  mkResultPart (Some id) (Some STATUS_SUCCEEDED) None
    (Some (mkImagePart (Some (DataBytes [77; 97; 110; 33])) None None)).

Example template_sample : template_of team = "saolei". Proof. reflexivity. Qed.
Example base64_sample : base64 [77; 97; 110; 33] = "TWFuIQ==". Proof. reflexivity. Qed.

Lemma dispatches_answered_exactly_once_witness :
  calls sample_bridge = [0; 1]%nat ∧
  (resolved sample_hist ++ calls sample_bridge ≡ₚ seq 0 (next_call sample_bridge) ∧
   timers sample_bridge = list_to_set (map pd_key (pending sample_bridge)) ∧
   listeners sample_bridge = omap listener_of (pending sample_bridge) ∧
   (∀ p, p ∈ pending sample_bridge → is_Some (connections sample_bridge !! (pd_key p).1)) ∧
   (∀ i, i ∈ heartbeats sample_bridge ↔
      ∃ s c, connections sample_bridge !! s = Some c ∧ conn_id c = i)).
Proof.
  split; [reflexivity|].
  exact (dispatches_answered_exactly_once sample_hist sample_bridge sample_reach).
Defined.

Lemma disconnect_settles_its_session_witness :
  (disconnect sample_bridge team 0).2 = [] ∧
  resolved (disconnect sample_bridge team 1).2 = [0; 1]%nat ∧
  let '(b', effs) := disconnect sample_bridge team 1 in
  ((∀ c, connections sample_bridge !! team = Some c → conn_id c ≠ 1%nat) →
     b' = sample_bridge ∧ effs = []) ∧
  (∀ c, connections sample_bridge !! team = Some c → conn_id c = 1%nat →
     effs = map (λ p, Resolve (pd_call p) (failed_result "desktop disconnected"))
              (pendingOf sample_bridge team) ∧
     pending b' = filter (λ p, (pd_key p).1 ≠ team) (pending sample_bridge) ∧
     connections b' = delete team (connections sample_bridge)).
Proof.
  split; [reflexivity|]. split; [reflexivity|].
  exact (disconnect_settles_its_session sample_hist sample_bridge team 1 sample_reach).
Defined.

Lemma receipt_answers_its_dispatch_witness :
  resolved (handleResult sample_bridge team (receipt "t1")).2 = [0%nat] ∧
  let '(b', effs) := handleResult sample_bridge team (receipt "t1") in
  (∀ p toolId, p ∈ pending sample_bridge → pd_key p = (team, toolId) →
     rp_toolId (receipt "t1") = Some toolId → toolId ≠ "" →
     effs = [Resolve (pd_call p)
       (mkOpResult (default STATUS_UNSPECIFIED (rp_status (receipt "t1")))
          (default "" (rp_message (receipt "t1")))
          (toOperationScreenshot <$> rp_screenshot (receipt "t1")))] ∧
     pending b' = filter (λ q, pd_key q ≠ (team, toolId)) (pending sample_bridge)) ∧
  ((∀ p toolId, p ∈ pending sample_bridge → rp_toolId (receipt "t1") = Some toolId →
      pd_key p ≠ (team, toolId)) → b' = sample_bridge ∧ effs = []).
Proof.
  split; [reflexivity|].
  exact (receipt_answers_its_dispatch sample_hist sample_bridge team (receipt "t1") sample_reach).
Defined.
