(* ===== verification/Flow.v ===== *)
(** * The flow layer of the team loop

    [common/js/dsh-plugins/saolei/loop/src/flow.ts] and the vocabulary of
    [member.ts] in the same directory: the activity graph, the facts its edges
    read, and the decision entry that turns a wake into the next directive.

    A terminal record is an object the code compares by identity ([!==]): the
    model takes a type [R] of references with decidable equality.  The getter
    [terminal] reads the runtime at every access; a decision is synchronous, so
    one value serves all the reads of a decision, and [with_terminal] installs
    it. *)

From S2P Require Import Prelude.

#[local] Open Scope Z_scope.

(** ** member.ts *)

Inductive MemberId : Type := player | planner | announcer.

#[global] Instance MemberId_eq_dec : EqDecision MemberId.
Proof. solve_decision. Defined.

Inductive LoopErrorCode : Type :=
| TRANSIENT | QUOTA | CREDENTIAL | CONFIG | INPUT_TOO_LARGE | INTERNAL.

#[global] Instance LoopErrorCode_eq_dec : EqDecision LoopErrorCode.
Proof. solve_decision. Defined.

Record FailureDetail : Type := mkDetail {
  engineCode : option string;
  fd_message : string;
}.

#[global] Instance FailureDetail_eq_dec : EqDecision FailureDetail.
Proof. solve_decision. Defined.

Inductive Outcome : Type :=
| settled
| resting
| failed (code : LoopErrorCode) (detail : FailureDetail)
| aborted.

#[global] Instance Outcome_eq_dec : EqDecision Outcome.
Proof. solve_decision. Defined.

(** ** The generic flow runtime *)

Record Facts (R : Type) : Type := mkFacts {
  terminal : option R;
  reviewed : option R;
  rounds : Z;
  statsSentFor : option R;
}.
Arguments mkFacts {R}.
Arguments terminal {R}.
Arguments reviewed {R}.
Arguments rounds {R}.
Arguments statsSentFor {R}.

Record Activity (R Id M : Type) : Type := mkActivity {
  act_id : Id;
  act_member : M;
  act_driverless : bool;
  act_onEnter : option (Facts R → Facts R);
  act_onSettle : option (Facts R → Facts R);
  act_next : Facts R → option Id;
}.
Arguments mkActivity {R Id M}.
Arguments act_id {R Id M}.
Arguments act_member {R Id M}.
Arguments act_driverless {R Id M}.
Arguments act_onEnter {R Id M}.
Arguments act_onSettle {R Id M}.
Arguments act_next {R Id M}.

Inductive FlowDecision (Id : Type) : Type :=
| start (activity : Id)
| rest_decision
| frozen.
Arguments start {Id}.
Arguments rest_decision {Id}.
Arguments frozen {Id}.

Record FrozenError : Type := mkFrozen { fe_code : LoopErrorCode; fe_detail : FailureDetail }.

Section Flow.
Context {R Id M : Type} (activities : Id → Activity R Id M).

(** The private fields of [Flow]. *)
Record Flow : Type := mkFlow {
  currentPosition : Id;
  currentOutcome : option Outcome;
  currentFrozenError : option FrozenError;
  retrying : bool;
  currentFacts : Facts R;
}.

Definition new_flow (facts : Facts R) (initial : Id) : Flow :=
  mkFlow initial None None false facts.

Definition position (f : Flow) : Id := currentPosition f.

Definition activity (f : Flow) : Activity R Id M := activities (currentPosition f).

Definition activeMemberId (f : Flow) : M := act_member (activity f).

Definition lastOutcome (f : Flow) : option Outcome := currentOutcome f.

Definition frozenError (f : Flow) : option FrozenError := currentFrozenError f.

Definition paused (f : Flow) : bool :=
  match currentOutcome f with
  | Some (failed _ _) | Some aborted => true
  | _ => false
  end.

(** [hook?.(facts)]. *)
Definition run_hook (hook : option (Facts R → Facts R)) (facts : Facts R) : Facts R :=
  match hook with Some h => h facts | None => facts end.

Definition judge (f : Flow) : Flow * FlowDecision Id :=
  let current := activities (currentPosition f) in
  let target := default (currentPosition f) (act_next current (currentFacts f)) in
  (mkFlow target None (currentFrozenError f) (retrying f)
     (run_hook (act_onEnter (activities target)) (currentFacts f)),
   start target).

(** The [if (wake !== null)] block. *)
Definition absorb_wake (f : Flow) (wake : Outcome) : Flow :=
  match wake with
  | settled =>
      mkFlow (currentPosition f) (Some wake) None (retrying f)
        (run_hook (act_onSettle (activities (currentPosition f))) (currentFacts f))
  | failed code detail =>
      mkFlow (currentPosition f) (Some wake) (Some (mkFrozen code detail)) (retrying f)
        (currentFacts f)
  | aborted => mkFlow (currentPosition f) (Some wake) None (retrying f) (currentFacts f)
  | resting =>
      mkFlow (currentPosition f) (Some wake) (currentFrozenError f) (retrying f) (currentFacts f)
  end.

Definition set_retrying (f : Flow) (b : bool) : Flow :=
  mkFlow (currentPosition f) (currentOutcome f) (currentFrozenError f) b (currentFacts f).

Definition decide_wake (f : Flow) (wake : option Outcome) : Flow * FlowDecision Id :=
  let wasRetry := retrying f in
  let f := set_retrying f false in
  let f := match wake with Some o => absorb_wake f o | None => f end in
  if paused f then
    match wake with
    | None => (set_retrying f true, start (currentPosition f))
    | Some _ => (f, frozen)
    end
  else if bool_decide (wake = Some resting) && negb wasRetry then (f, rest_decision)
  else judge f.

Definition freezeAborted (f : Flow) : Flow :=
  mkFlow (currentPosition f) (Some aborted) None (retrying f) (currentFacts f).

(** What the getter [terminal] reads from now on. *)
Definition with_terminal (t : option R) (f : Flow) : Flow :=
  let facts := currentFacts f in
  mkFlow (currentPosition f) (currentOutcome f) (currentFrozenError f) (retrying f)
    (mkFacts t (reviewed facts) (rounds facts) (statsSentFor facts)).

End Flow.
Arguments mkFlow {R Id}.
Arguments currentPosition {R Id}.
Arguments currentOutcome {R Id}.
Arguments currentFrozenError {R Id}.
Arguments retrying {R Id}.
Arguments currentFacts {R Id}.

(** ** The saolei graph *)

Definition ROUND_STOP_INTERVAL : Z := 5.

Inductive SaoleiActivityId : Type := plan | play | announce | review | rest.

#[global] Instance SaoleiActivityId_eq_dec : EqDecision SaoleiActivityId.
Proof. solve_decision. Defined.

Section Saolei.
Context {R : Type} `{EqDecision R}.

Definition hasUnreviewedTerminal (facts : Facts R) : bool :=
  bool_decide (terminal facts ≠ None) && bool_decide (terminal facts ≠ reviewed facts).

Definition set_statsSentFor (facts : Facts R) : Facts R :=
  mkFacts (terminal facts) (reviewed facts) (rounds facts) (terminal facts).

Definition settle_review (facts : Facts R) : Facts R :=
  mkFacts (terminal facts) (terminal facts) (rounds facts + 1) (statsSentFor facts).

Definition clear_rounds (facts : Facts R) : Facts R :=
  mkFacts (terminal facts) (reviewed facts) 0 (statsSentFor facts).

Definition SAOLEI_ACTIVITIES (id : SaoleiActivityId) : Activity R SaoleiActivityId MemberId :=
  match id with
  | plan => mkActivity plan planner false None None (λ _, Some play)
  | play =>
      mkActivity play player false None None
        (λ facts, Some (if hasUnreviewedTerminal facts then announce else play))
  | announce =>
      mkActivity announce announcer false None (Some set_statsSentFor) (λ _, Some review)
  | review =>
      mkActivity review planner false None (Some settle_review)
        (λ facts, Some (if rounds facts <? ROUND_STOP_INTERVAL then play else rest))
  | rest =>
      mkActivity rest player true (Some clear_rounds) None
        (λ facts, Some (if hasUnreviewedTerminal facts then announce else play))
  end.

Definition SaoleiFacts (readTerminal : option R) : Facts R := mkFacts readTerminal None 0 None.

Definition createSaoleiFlow (readTerminal : option R) : Flow :=
  new_flow (SaoleiFacts readTerminal) plan.

(** One call of the decision entry, with the value [terminal] reads. *)
Definition decide_flow (t : option R) (f : Flow) (wake : option Outcome)
    : Flow * FlowDecision SaoleiActivityId :=
  decide_wake SAOLEI_ACTIVITIES (with_terminal t f) wake.

End Saolei.

(** ** Lemmas on the generic runtime *)

Section FlowLemmas.
Context {R Id M : Type} (activities : Id → Activity R Id M).

Implicit Types f : Flow (R := R) (Id := Id).

(** A wake that reports an interruption: a failure or an abort. *)
Definition interruption (o : Outcome) : bool :=
  match o with failed _ _ | aborted => true | _ => false end.

Lemma decide_interruption f o :
  interruption o = true →
  ∃ f', decide_wake activities f (Some o) = (f', frozen) ∧ paused f' = true ∧
    currentPosition f' = currentPosition f ∧ currentFacts f' = currentFacts f ∧
    currentOutcome f' = Some o ∧ retrying f' = false.
Proof. intros Ho. destruct o; try done; by eexists. Qed.

Lemma decide_external_paused f :
  paused f = true →
  decide_wake activities f None = (set_retrying f true, start (currentPosition f)).
Proof. intros Hp. unfold decide_wake, paused in *. by destruct f as [? [[]|] ? ? ?]. Qed.

(** A settled wake does not read what earlier failures left behind. *)
Lemma decide_settled f f' :
  currentPosition f = currentPosition f' → currentFacts f = currentFacts f' →
  decide_wake activities f (Some settled) = decide_wake activities f' (Some settled).
Proof. destruct f, f'. simpl. by intros -> ->. Qed.

(** Interruptions with the external wakes that restart after them. *)
Fixpoint decide_all (f : Flow) (wakes : list (option Outcome)) : Flow * list (FlowDecision Id) :=
  match wakes with
  | [] => (f, [])
  | wake :: wakes =>
      let '(f, d) := decide_wake activities f wake in
      let '(f, ds) := decide_all f wakes in (f, d :: ds)
  end.

Definition keeps_frozen (wake : option Outcome) : bool :=
  match wake with None => true | Some o => interruption o end.

Lemma frozen_stays f wakes :
  paused f = true → forallb keeps_frozen wakes = true →
  let '(f', ds) := decide_all f wakes in
  paused f' = true ∧ currentPosition f' = currentPosition f ∧ currentFacts f' = currentFacts f ∧
  Forall (λ d, d = frozen ∨ d = start (currentPosition f)) ds.
Proof.
  revert f. induction wakes as [|wake wakes IH]; intros f Hp Hall; simpl; [done|].
  simpl in Hall. apply andb_true_iff in Hall as [Hw Hall].
  destruct wake as [o|].
  - destruct (decide_interruption f o Hw) as (f' & -> & Hp' & Epos & Efacts & _).
    specialize (IH f' Hp' Hall). destruct (decide_all f' wakes) as [f'' ds].
    rewrite Epos, Efacts in IH. destruct IH as (? & ? & ? & ?). split_and!; auto.
  - rewrite (decide_external_paused f Hp).
    specialize (IH (set_retrying f true) Hp Hall).
    destruct (decide_all (set_retrying f true) wakes) as [f'' ds]. simpl in IH.
    destruct IH as (? & ? & ? & ?). split_and!; auto.
Qed.

(** A frozen flow keeps its place.  In any activity graph, once an activity
    failed or was aborted, any sequence of further failures, aborts and external
    wakes leaves the position and the facts untouched: every directive is either
    to stay frozen or to restart the very activity that was interrupted. *)
Theorem frozen_keeps_place f o wakes
    (Ho : interruption o = true) (Hall : forallb keeps_frozen wakes = true) :
  let '(f', ds) := decide_all f (Some o :: wakes) in
  paused f' = true ∧ currentPosition f' = currentPosition f ∧ currentFacts f' = currentFacts f ∧
  Forall (λ d, d = frozen ∨ d = start (currentPosition f)) ds.
Proof.
  simpl. destruct (decide_interruption f o Ho) as (f1 & -> & Hp & Epos & Efacts & _).
  pose proof (frozen_stays f1 wakes Hp Hall) as Hst.
  destruct (decide_all f1 wakes) as [f' ds]. rewrite Epos, Efacts in Hst.
  destruct Hst as (? & ? & ? & ?). split_and!; auto.
Qed.

(** Failures are transparent to the flow.  In any activity graph, when the
    restarted activity finally settles, the flow and its directive are exactly
    what they would have been had the activity settled the first time: the
    settle hook runs once and the edge is judged once, whatever interruptions
    and restarts came before. *)
Theorem retry_is_transparent f o wakes
    (Ho : interruption o = true) (Hall : forallb keeps_frozen wakes = true) :
  decide_wake activities (decide_all f (Some o :: wakes)).1 (Some settled) =
  decide_wake activities f (Some settled).
Proof.
  simpl. destruct (decide_interruption f o Ho) as (f1 & -> & Hp & Epos & Efacts & _).
  pose proof (frozen_stays f1 wakes Hp Hall) as Hst.
  destruct (decide_all f1 wakes) as [f' ds]. destruct Hst as (_ & E1 & E2 & _). simpl.
  apply decide_settled; congruence.
Qed.

End FlowLemmas.

(** ** The saolei graph: properties *)

Section SaoleiProps.
Context {R : Type} `{EqDecision R}.

Implicit Types f : Flow (R := R) (Id := SaoleiActivityId).

(** The edge table. *)
Definition saolei_edge (a b : SaoleiActivityId) : bool :=
  match a, b with
  | plan, play | play, play | play, announce | announce, review
  | review, play | review, rest | rest, announce | rest, play => true
  | _, _ => false
  end.

(** What happens to a flow: a decision, or the cancel of a quiescent team. *)
Inductive flow_event : Type :=
| EvDecide (t : option R) (wake : option Outcome)
| EvFreeze.

Definition run_event f (ev : flow_event) : Flow :=
  match ev with
  | EvDecide t wake => (decide_flow t f wake).1
  | EvFreeze => freezeAborted f
  end.

(** The completed reviews and the entries into [rest] along a run. *)
Definition completes_review f (ev : flow_event) : Z :=
  match ev with
  | EvDecide _ (Some settled) => if bool_decide (currentPosition f = review) then 1 else 0
  | _ => 0
  end.

Definition enters_rest f (ev : flow_event) : Z :=
  if bool_decide (currentPosition f = review) &&
     bool_decide (currentPosition (run_event f ev) = rest) then 1 else 0.

Fixpoint run_counting f (evs : list flow_event) : Flow * Z * Z :=
  match evs with
  | [] => (f, 0, 0)
  | ev :: evs =>
      let '(f', reviews, rests) := run_counting (run_event f ev) evs in
      (f', completes_review f ev + reviews, enters_rest f ev + rests)
  end.

(** The shape of one decision. *)
Lemma decide_flow_cases t f wake :
  let '(f', d) := decide_flow t f wake in
  (currentPosition f' = currentPosition f ∧ rounds (currentFacts f') = rounds (currentFacts f) ∧
   reviewed (currentFacts f') = reviewed (currentFacts f) ∧
   wake ≠ Some settled ∧ d ∈ [frozen; rest_decision; start (currentPosition f)]) ∨
  (∃ facts, facts = run_hook (match wake with
                    | Some settled => act_onSettle (SAOLEI_ACTIVITIES (currentPosition f))
                    | _ => None end) (currentFacts (with_terminal t f)) ∧
   act_next (SAOLEI_ACTIVITIES (currentPosition f)) facts = Some (currentPosition f') ∧
   currentFacts f' = run_hook (act_onEnter (SAOLEI_ACTIVITIES (currentPosition f'))) facts ∧
   d = start (currentPosition f') ∧ currentOutcome f' = None ∧ retrying f' = false).
Proof.
  unfold decide_flow, decide_wake. destruct f as [pos out err ret facts].
  destruct wake as [[| |code detail|]|], out as [[]|], ret; simpl;
    try (left; split_and!; [done..|in_list]);
    right; (eexists; split; [reflexivity|]); destruct pos; done.
Qed.

Lemma next_edge pos (facts : Facts R) pos' :
  act_next (SAOLEI_ACTIVITIES pos) facts = Some pos' → saolei_edge pos pos' = true.
Proof.
  destruct pos; simpl; intros [= <-]; try done;
    [by destruct (hasUnreviewedTerminal facts)|by destruct (rounds facts <? _)
    |by destruct (hasUnreviewedTerminal facts)].
Qed.

(** The flow moves along the edges of the activity graph only.  Every
    decision either stays at the current activity, restarting it or resting, or
    follows one of the eight edges and starts its target. *)
Theorem decisions_follow_edges t f wake :
  let '(f', d) := decide_flow t f wake in
  (currentPosition f' = currentPosition f ∧
     d ∈ [frozen; rest_decision; start (currentPosition f)]) ∨
  (saolei_edge (currentPosition f) (currentPosition f') = true ∧ d = start (currentPosition f')).
Proof.
  pose proof (decide_flow_cases t f wake) as Hc. destruct (decide_flow t f wake) as [f' d].
  destruct Hc as [(? & _ & _ & _ & ?)|(facts & _ & Hn & _ & ? & _)]; [by left|right].
  split; [by eapply next_edge|done].
Qed.

Lemma count_step f ev :
  0 ≤ rounds (currentFacts f) < ROUND_STOP_INTERVAL →
  0 ≤ rounds (currentFacts (run_event f ev)) < ROUND_STOP_INTERVAL ∧
  rounds (currentFacts f) + completes_review f ev =
    ROUND_STOP_INTERVAL * enters_rest f ev + rounds (currentFacts (run_event f ev)).
Proof.
  intros Hr. unfold enters_rest, completes_review.
  destruct ev as [t wake|]; simpl.
  2: { destruct (currentPosition f); simpl; lia. }
  pose proof (decide_flow_cases t f wake) as Hc. destruct (decide_flow t f wake) as [f' d]. simpl.
  destruct Hc as [(-> & -> & _ & Hw & _)|(facts & Hfacts & Hn & -> & _)].
  - split; [done|]. destruct wake as [[]|]; try done; destruct (currentPosition f); simpl; lia.
  - unfold ROUND_STOP_INTERVAL in *. generalize dependent (currentPosition f').
    intros pos' Hn. apply next_edge in Hn as He.
    destruct (currentPosition f), pos'; try done; clear He;
      destruct wake as [[]|]; subst facts; simpl in *; try lia;
      match goal with
      | Hn : Some (if ?a <? ROUND_STOP_INTERVAL then _ else _) = _ |- _ =>
          destruct (Z.ltb_spec a ROUND_STOP_INTERVAL); unfold ROUND_STOP_INTERVAL in *; done || lia
      end.
Qed.

(** The natural stop.  Whatever the outcomes, the external wakes, the
    cancels and the records, between 0 and 4 rounds are pending at any time, and
    the completed reviews are five per entry into [rest] plus the pending ones:
    the team rests after exactly every fifth completed review. *)
Theorem rests_every_fifth_review t evs :
  let '(f, reviews, rests) := run_counting (createSaoleiFlow t) evs in
  0 ≤ rounds (currentFacts f) < ROUND_STOP_INTERVAL ∧
  reviews = ROUND_STOP_INTERVAL * rests + rounds (currentFacts f).
Proof.
  enough (∀ f, 0 ≤ rounds (currentFacts f) < ROUND_STOP_INTERVAL →
    let '(f', reviews, rests) := run_counting f evs in
    0 ≤ rounds (currentFacts f') < ROUND_STOP_INTERVAL ∧
    rounds (currentFacts f) + reviews = ROUND_STOP_INTERVAL * rests + rounds (currentFacts f')) as Hgen.
  { specialize (Hgen (createSaoleiFlow t)). simpl in Hgen.
    destruct (run_counting (createSaoleiFlow t) evs) as [[f reviews] rests].
    apply Hgen. unfold ROUND_STOP_INTERVAL. lia. }
  induction evs as [|ev evs IH]; intros f Hr; simpl; [lia|].
  destruct (count_step f ev Hr) as [Hr' Heq]. specialize (IH _ Hr').
  destruct (run_counting (run_event f ev) evs) as [[f' reviews] rests]. lia.
Qed.


(** Driving activities that all settle, while the runtime's record is [t]. *)
Fixpoint drive_settled (n : nat) (t : option R) f : Flow * list (FlowDecision SaoleiActivityId) :=
  match n with
  | O => (f, [])
  | S n =>
      let '(f, d) := decide_flow t f (Some settled) in
      let '(f, ds) := drive_settled n t f in (f, d :: ds)
  end.

Lemma play_until_record n t f :
  currentPosition f = play → reviewed (currentFacts f) = t →
  (drive_settled n t f).2 = repeat (start play) n.
Proof.
  revert f. induction n as [|n IH]; intros f Hpos Hrev; [done|]. simpl.
  unfold decide_flow, decide_wake. destruct f as [pos out err ret facts]. simpl in Hpos, Hrev.
  subst pos. simpl. unfold hasUnreviewedTerminal. simpl.
  rewrite (bool_decide_eq_false_2 (t ≠ reviewed facts)) by (intros Hne; by apply Hne).
  rewrite andb_false_r. simpl.
  match goal with |- context [drive_settled n t ?f'] => specialize (IH f' eq_refl Hrev) end.
  destruct (drive_settled n t _) as [f' ds]. simpl in *. by rewrite IH.
Qed.

(** One round.  When a play activity settles and the runtime holds a record
    not reviewed yet, the flow announces it, reviews it, and goes on to the next
    game, or to rest after the fifth round; the record is then marked announced
    and reviewed, and as long as it stays the latest one, play follows play:
    every record gets exactly one announcement and one review. *)
Theorem record_announced_and_reviewed_once r f n
    (Hpos : currentPosition f = play) (Hnew : reviewed (currentFacts f) ≠ Some r) :
  let '(f', ds) := drive_settled 3 (Some r) f in
  let last := rounds (currentFacts f) + 1 <? ROUND_STOP_INTERVAL in
  ds = [start announce; start review; start (if last then play else rest)] ∧
  reviewed (currentFacts f') = Some r ∧ statsSentFor (currentFacts f') = Some r ∧
  rounds (currentFacts f') = (if last then rounds (currentFacts f) + 1 else 0) ∧
  (last = true → (drive_settled n (Some r) f').2 = repeat (start play) n).
Proof.
  destruct f as [pos out err ret [t0 rev rnds sent]]. simpl in Hpos, Hnew. subst pos.
  cbn [drive_settled]. unfold decide_flow, decide_wake. simpl.
  unfold hasUnreviewedTerminal. simpl.
  rewrite (bool_decide_eq_true_2 (Some r ≠ rev)) by congruence. simpl.
  destruct (rnds + 1 <? ROUND_STOP_INTERVAL); simpl; split_and!; try done.
  intros _. by apply play_until_record.
Qed.

End SaoleiProps.

(** A failed play, its restart by a delivery, and a restart that finds nothing to
    execute: the flow goes on, the last outcome is cleared, and the frozen error
    is still the old failure. *)
Example stale_frozen_error :
  let boom := failed TRANSIENT (mkDetail None "timeout") in
  let f0 := (decide_flow None (createSaoleiFlow (None : option nat)) (Some settled)).1 in
  let f := (decide_flow None (decide_flow None (decide_flow None f0 (Some boom)).1 None).1
              (Some resting)).1 in
  paused f = false ∧ lastOutcome f = None ∧
  frozenError f = Some (mkFrozen TRANSIENT (mkDetail None "timeout")).
Proof. by vm_compute. Qed.

(** ** Witnesses *)

Definition boom : Outcome := failed TRANSIENT (mkDetail None "timeout").

(** A flow at [play] with a first record, numbered 7. *)
Definition playing_flow : Flow (R := nat) := mkFlow play None None false (SaoleiFacts None).

Lemma frozen_keeps_place_witness :
  let '(f', ds) := decide_all SAOLEI_ACTIVITIES playing_flow [Some boom; None; Some aborted] in
  ds = [frozen; start play; frozen] ∧ paused f' = true ∧ currentPosition f' = play ∧
  currentFacts f' = currentFacts playing_flow ∧ Forall (λ d, d = frozen ∨ d = start play) ds.
Proof.
  split; [reflexivity|].
  exact (frozen_keeps_place SAOLEI_ACTIVITIES playing_flow boom [None; Some aborted] eq_refl eq_refl).
Defined.

Lemma retry_is_transparent_witness :
  decide_wake SAOLEI_ACTIVITIES (decide_all SAOLEI_ACTIVITIES playing_flow [Some boom; None]).1
    (Some settled) = decide_wake SAOLEI_ACTIVITIES playing_flow (Some settled).
Proof.
  exact (retry_is_transparent SAOLEI_ACTIVITIES playing_flow boom [None] eq_refl eq_refl).
Defined.

Lemma record_announced_and_reviewed_once_witness :
  let '(f', ds) := drive_settled 3 (Some 7%nat) playing_flow in
  ds = [start announce; start review; start play] ∧ reviewed (currentFacts f') = Some 7%nat ∧
  statsSentFor (currentFacts f') = Some 7%nat ∧ rounds (currentFacts f') = 1 ∧
  (true = true → (drive_settled 2 (Some 7%nat) f').2 = repeat (start play) 2).
Proof.
  exact (record_announced_and_reviewed_once 7%nat playing_flow 2 eq_refl ltac:(discriminate)).
Defined.
