(* ===== verification/Orchestrator.v ===== *)
(** * The orchestrator's pump

    [common/js/dsh-plugins/saolei/loop/src/orchestrator.ts]: what surrounds the
    flow: accepting user messages, cancelling, disposing, and the serialized pump
    that feeds the flow one wake at a time and runs what it starts.

    The pump is an [async] loop: its suspension points are states of the model
    ([PumpExternal], [PumpDrive]), and the stretches of code between them are
    single steps ([PumpLoop], [PumpExecute]) during which no request is handled,
    since promise continuations run before the next request.  A member is an
    interface: whether a turn of it is in flight is part of the state, how a turn
    ends and whether a call throws is chosen by the step.  Building the members
    (compose, presets, team registration) is in [Assembly.v]: the initial state is
    the one a successful [materialize] leaves. *)

From S2P Require Import Prelude Flow.

#[local] Open Scope Z_scope.

(** ** Data *)

Inductive OrchestrationPhase : Type := planning | playing_phase | reviewing.

Definition phaseOfActivity (position : SaoleiActivityId) : OrchestrationPhase :=
  match position with
  | plan => planning
  | review => reviewing
  | play | rest | announce => playing_phase
  end.

Inductive OrchestratorFailureOrigin : Type := member_turn | orchestration.

Record OrchestratorFailure : Type := mkFailure {
  of_member : option MemberId;
  of_phase : OrchestrationPhase;
  of_code : LoopErrorCode;
  of_origin : OrchestratorFailureOrigin;
  of_detail : FailureDetail;
}.

Inductive Pump : Type :=
| PumpNone
| PumpLoop
| PumpExecute
| PumpExternal (m : MemberId)
| PumpDrive (m : MemberId).

#[global] Instance Pump_eq_dec : EqDecision Pump.
Proof. solve_decision. Defined.

Section Orchestrator.
Context {R Msg : Type} `{EqDecision R}.

(** The fields of [TeamOrchestrator]; [busy] and [aborting] are the members'
    turns in flight and their latched interruptions. *)
Record TeamOrchestrator : Type := mkOrch {
  flow : Flow (R := R) (Id := SaoleiActivityId);
  landed : list Msg;
  lastError : option OrchestratorFailure;
  pump : Pump;
  externalPending : bool;
  pendingOutcome : option Outcome;
  disposed : bool;
  busy : MemberId → bool;
  aborting : MemberId → bool;
}.

Definition new_orchestrator (t : option R) : TeamOrchestrator :=
  mkOrch (createSaoleiFlow t) [] None PumpNone false None false (λ _, false) (λ _, false).

Definition active (o : TeamOrchestrator) : MemberId := activeMemberId SAOLEI_ACTIVITIES (flow o).

(** *** Field updates *)

Definition set_flow (o : TeamOrchestrator) f : TeamOrchestrator :=
  mkOrch f (landed o) (lastError o) (pump o) (externalPending o) (pendingOutcome o) (disposed o)
    (busy o) (aborting o).
Definition set_landed (o : TeamOrchestrator) l : TeamOrchestrator :=
  mkOrch (flow o) l (lastError o) (pump o) (externalPending o) (pendingOutcome o) (disposed o)
    (busy o) (aborting o).
Definition set_lastError (o : TeamOrchestrator) e : TeamOrchestrator :=
  mkOrch (flow o) (landed o) e (pump o) (externalPending o) (pendingOutcome o) (disposed o)
    (busy o) (aborting o).
Definition set_pump (o : TeamOrchestrator) p : TeamOrchestrator :=
  mkOrch (flow o) (landed o) (lastError o) p (externalPending o) (pendingOutcome o) (disposed o)
    (busy o) (aborting o).
Definition set_external (o : TeamOrchestrator) b : TeamOrchestrator :=
  mkOrch (flow o) (landed o) (lastError o) (pump o) b (pendingOutcome o) (disposed o)
    (busy o) (aborting o).
Definition set_outcome (o : TeamOrchestrator) w : TeamOrchestrator :=
  mkOrch (flow o) (landed o) (lastError o) (pump o) (externalPending o) w (disposed o)
    (busy o) (aborting o).

(** A turn of [m] starts: [abortRequested] is cleared. *)
Definition start_turn (o : TeamOrchestrator) (m : MemberId) : TeamOrchestrator :=
  mkOrch (flow o) (landed o) (lastError o) (pump o) (externalPending o) (pendingOutcome o) (disposed o)
    (λ m', if bool_decide (m' = m) then true else busy o m')
    (λ m', if bool_decide (m' = m) then false else aborting o m').

(** A turn of [m] has settled. *)
Definition end_turn (o : TeamOrchestrator) (m : MemberId) : TeamOrchestrator :=
  mkOrch (flow o) (landed o) (lastError o) (pump o) (externalPending o) (pendingOutcome o) (disposed o)
    (λ m', if bool_decide (m' = m) then false else busy o m')
    (λ m', if bool_decide (m' = m) then false else aborting o m').

(** [execution.abort()]: latched while a turn is in flight. *)
Definition abort_member (o : TeamOrchestrator) (m : MemberId) : TeamOrchestrator :=
  mkOrch (flow o) (landed o) (lastError o) (pump o) (externalPending o) (pendingOutcome o) (disposed o)
    (busy o) (λ m', if bool_decide (m' = m) then aborting o m' || busy o m' else aborting o m').

(** *** Failures *)

Definition settleError (o : TeamOrchestrator) (outcome : Outcome) : TeamOrchestrator :=
  match outcome with
  | settled | resting | aborted => set_lastError o None
  | failed _ _ => o
  end.

Definition recordFailure (o : TeamOrchestrator) (m : option MemberId) (code : LoopErrorCode)
    (detail : FailureDetail) (origin : OrchestratorFailureOrigin) : TeamOrchestrator :=
  set_lastError o
    (Some (mkFailure m (phaseOfActivity (currentPosition (flow o))) code origin detail)).

(** [orchestrationFailure(err)] and its outcome: the code is [INTERNAL]. *)
Definition orchestration_detail (message : string) : FailureDetail := mkDetail None message.
Definition failureOutcome (message : string) : Outcome := failed INTERNAL (orchestration_detail message).

Definition record_orchestration (o : TeamOrchestrator) (m : option MemberId) (message : string)
    : TeamOrchestrator :=
  recordFailure o m INTERNAL (orchestration_detail message) orchestration.

(** [settleError(outcome)] and the recording of a failed member turn. *)
Definition report (o : TeamOrchestrator) (m : MemberId) (outcome : Outcome) : TeamOrchestrator :=
  match outcome with
  | failed code detail => recordFailure o (Some m) code detail member_turn
  | _ => settleError o outcome
  end.

(** *** Requests *)

(** How [binding.member.deliver(message)] goes; a throw may come before or after
    the landed messages were taken. *)
Inductive DeliverResult : Type :=
| Delivered
| DeliverThrew (message : string) (took_landed : bool).

Inductive SubmitResult : Type :=
| Accepted (queued : bool)
| SubmitDisposed.

Definition consumes (m : MemberId) : bool := negb (bool_decide (m = announcer)).

Definition requestPump (o : TeamOrchestrator) : TeamOrchestrator :=
  if disposed o then o
  else match pump o with PumpNone => set_pump o PumpLoop | _ => o end.

(** A delivery to an agent takes the landed messages and, when it is quiescent,
    opens a turn; an announce-only member ignores it. *)
Definition deliver_effect (o : TeamOrchestrator) (m : MemberId) : TeamOrchestrator :=
  if consumes m then
    let o := set_landed o [] in if busy o m then o else start_turn o m
  else o.

Definition submit (o : TeamOrchestrator) (t : option R) (d : DeliverResult)
    : TeamOrchestrator * SubmitResult :=
  if disposed o then (o, SubmitDisposed)
  else
    let m := active o in
    let queued := busy o m in
    match d with
    | DeliverThrew message took =>
        let o := if took then set_landed o [] else o in
        let o := record_orchestration o None message in
        (set_flow o (decide_flow t (flow o) (Some (failureOutcome message))).1, Accepted queued)
    | Delivered =>
        let o := deliver_effect o m in
        if queued then (o, Accepted true)
        else (requestPump (set_external o true), Accepted false)
    end.

(** [unclaimed] are the user messages in the active agent's inbox. *)
Definition cancel (o : TeamOrchestrator) (unclaimed : list Msg) : TeamOrchestrator * list Msg :=
  if disposed o then (o, [])
  else if paused (flow o) then (o, [])
  else
    let m := active o in
    let dropped := if consumes m then unclaimed else [] in
    let o := abort_member (set_landed o (landed o ++ dropped)) m in
    if busy o m && consumes m then (o, dropped)
    else (set_flow o (freezeAborted (flow o)), dropped).

(** The synchronous part of [dispose]: the in-flight agent is interrupted. *)
Definition dispose (o : TeamOrchestrator) : TeamOrchestrator :=
  if disposed o then o
  else
    let o := mkOrch (flow o) [] (lastError o) (pump o) (externalPending o) (pendingOutcome o) true
               (busy o) (aborting o) in
    if busy o player then abort_member o player
    else if busy o planner then abort_member o planner else o.

(** *** The read face *)

Definition MEMBER_IDS : list MemberId := [player; planner; announcer].

(** The first member whose turn is in flight. *)
Definition busyMember (o : TeamOrchestrator) : option MemberId :=
  snd <$> list_find (λ m, busy o m = true) MEMBER_IDS.

Record OrchestratorSnapshot : Type := mkSnapshot {
  sn_materialized : bool;
  sn_phase : option OrchestrationPhase;
  sn_active : option MemberId;
  sn_activation : MemberId;
  sn_paused : bool;
  sn_queued : Z;
  sn_failed : bool;
  sn_lastError : option OrchestratorFailure;
}.

(** [snapshot()] of a materialized team; [pendingInput] are the members' counts. *)
Definition snapshot (o : TeamOrchestrator) (pendingInput : MemberId → Z) : OrchestratorSnapshot :=
  mkSnapshot true (Some (phaseOfActivity (currentPosition (flow o)))) (busyMember o) (active o) (paused (flow o))
    (match busyMember o with Some m => pendingInput m | None => 0 end)
    (bool_decide (is_Some (lastError o))) (lastError o).

(** Before materialization and after disposal there is no flow and no member. *)
Definition no_team_snapshot (failure : option OrchestratorFailure) : OrchestratorSnapshot :=
  mkSnapshot false None None planner false 0 (bool_decide (is_Some failure)) failure.

(** *** The pump *)

(** [flow.decide(wake)]: a start is executed, anything else ends the pump. *)
Definition decide_with (o : TeamOrchestrator) (t : option R) (wake : option Outcome)
    : TeamOrchestrator :=
  let '(f, d) := decide_flow t (flow o) wake in
  set_pump (set_flow o f) (match d with start _ => PumpExecute | _ => PumpNone end).

(** The top of the loop. *)
Definition loop_top (o : TeamOrchestrator) (t : option R) : TeamOrchestrator :=
  if disposed o then set_pump o PumpNone
  else if externalPending o then set_pump (set_external o false) (PumpExternal (active o))
  else decide_with (set_outcome o None) t (pendingOutcome o).

(** [whenSettled()] of a delivery-started turn returned. *)
Definition external_resume (o : TeamOrchestrator) (t : option R) (m : MemberId) (outcome : Outcome)
    : TeamOrchestrator :=
  if disposed o then set_pump o PumpNone
  else decide_with (report o m outcome) t (match outcome with settled => None | _ => Some outcome end).

(** It threw. *)
Definition external_throw (o : TeamOrchestrator) (t : option R) (m : MemberId) (message : string)
    : TeamOrchestrator :=
  let o := record_orchestration o (Some m) message in
  set_pump (set_flow o (decide_flow t (flow o) (Some (failureOutcome message))).1) PumpNone.

(** [execute()] returned [outcome]. *)
Definition drive_result (o : TeamOrchestrator) (outcome : Outcome) : TeamOrchestrator :=
  if disposed o then set_pump o PumpNone
  else set_pump (set_outcome o (Some outcome)) PumpLoop.

Definition drive_done (o : TeamOrchestrator) (m : MemberId) (outcome : Outcome) : TeamOrchestrator :=
  drive_result (report o m outcome) outcome.

Definition drive_throw (o : TeamOrchestrator) (m : MemberId) (message : string) : TeamOrchestrator :=
  drive_result (record_orchestration o (Some m) message) (failureOutcome message).

(** *** Steps *)

(** Requests are handled while the pump is absent or suspended on a turn in
    flight; an await of a member with no turn is already resolved. *)
Definition quiet (o : TeamOrchestrator) : Prop :=
  match pump o with
  | PumpNone => True
  | PumpLoop | PumpExecute => False
  | PumpExternal m | PumpDrive m => busy o m = true
  end.

Inductive ostep : TeamOrchestrator → TeamOrchestrator → Prop :=
| o_submit o t d : quiet o → ostep o (submit o t d).1
| o_cancel o unclaimed : quiet o → ostep o (cancel o unclaimed).1
| o_dispose o : quiet o → ostep o (dispose o)
| o_loop o t : pump o = PumpLoop → ostep o (loop_top o t)
| o_rest o :
    pump o = PumpExecute → act_driverless (activity SAOLEI_ACTIVITIES (flow o)) = true →
    ostep o (drive_result o resting)
| o_announce o outcome :
    pump o = PumpExecute → act_driverless (activity SAOLEI_ACTIVITIES (flow o)) = false →
    active o = announcer → (outcome = settled ∨ ∃ d, outcome = failed INTERNAL d) →
    ostep o (drive_done o announcer outcome)
| o_drive_empty o :
    pump o = PumpExecute → act_driverless (activity SAOLEI_ACTIVITIES (flow o)) = false →
    active o ≠ announcer → landed o = [] → ostep o (drive_done o (active o) resting)
| o_drive_start o :
    pump o = PumpExecute → act_driverless (activity SAOLEI_ACTIVITIES (flow o)) = false →
    active o ≠ announcer → busy o (active o) = false →
    ostep o (set_pump (start_turn (set_landed o []) (active o)) (PumpDrive (active o)))
| o_drive_throw o message (took_landed : bool) :
    pump o = PumpExecute → act_driverless (activity SAOLEI_ACTIVITIES (flow o)) = false →
    active o ≠ announcer →
    ostep o (drive_throw (if took_landed then set_landed o [] else o) (active o) message)
| o_turn_driven o m outcome :
    pump o = PumpDrive m → busy o m = true → outcome ≠ resting →
    (aborting o m = true → outcome = aborted) → ostep o (drive_done (end_turn o m) m outcome)
| o_turn_driven_throw o m message :
    pump o = PumpDrive m → busy o m = true → ostep o (drive_throw (end_turn o m) m message)
| o_turn_external o t m outcome :
    pump o = PumpExternal m → busy o m = true → outcome ≠ resting →
    (aborting o m = true → outcome = aborted) → ostep o (external_resume (end_turn o m) t m outcome)
| o_turn_external_throw o t m message :
    pump o = PumpExternal m → busy o m = true → ostep o (external_throw (end_turn o m) t m message)
| o_external_idle o t m :
    pump o = PumpExternal m → busy o m = false → ostep o (external_resume o t m resting).

End Orchestrator.
Arguments TeamOrchestrator : clear implicits.

(** ** Invariant *)

Section Invariant.
Context {R Msg : Type} `{EqDecision R}.

Implicit Types o : TeamOrchestrator R Msg.

Record orch_inv o : Prop := {
  oi_busy m : busy o m = true →
    m ≠ announcer ∧ m = active o ∧
    (pump o = PumpDrive m ∨ pump o = PumpExternal m ∨ (pump o = PumpLoop ∧ externalPending o = true));
  oi_drive m : pump o = PumpDrive m → busy o m = true;
  oi_external m : pump o = PumpExternal m → m = active o;
  oi_pending : externalPending o = true → pump o = PumpLoop;
  oi_outcome w : pendingOutcome o = Some w → pump o = PumpLoop ∧ externalPending o = false;
  oi_loop : pump o = PumpLoop → externalPending o = true ∨ is_Some (pendingOutcome o);
  oi_execute : disposed o = false → pump o = PumpExecute → lastError o = None;
  oi_failed w : disposed o = false → pendingOutcome o = Some w →
    lastError o = None ∨ ∃ code detail, w = failed code detail;
  oi_disposed : disposed o = true → pump o ≠ PumpLoop ∧ pump o ≠ PumpExecute;
  oi_frozen : disposed o = false → pump o = PumpNone → lastError o ≠ None → paused (flow o) = true;
}.

Lemma new_orchestrator_inv t : orch_inv (new_orchestrator t).
Proof. by split. Qed.

(** What a decision does to the flow, seen from the pump. *)
Lemma decide_kinds t (f : Flow (R := R)) wake :
  let '(f', d) := decide_flow t f wake in
  match wake with
  | Some (failed _ _) | Some aborted =>
      d = frozen ∧ paused f' = true ∧ currentPosition f' = currentPosition f
  | _ => True
  end ∧
  (d = rest_decision → wake = Some resting ∧ paused f' = false ∧ currentPosition f' = currentPosition f) ∧
  (d = frozen → ∃ w, wake = Some w ∧ interruption w = true).
Proof.
  unfold decide_flow, decide_wake. destruct f as [pos out err ret facts].
  destruct wake as [[| |code detail|]|], out as [[]|], ret; simpl; naive_solver.
Qed.

(** The pump right after a decision. *)
Lemma decide_with_cases o t wake :
  (lastError o = None ∨ ∃ code detail, wake = Some (failed code detail)) →
  let o' := decide_with o t wake in
  (pump o' = PumpExecute ∧ lastError o' = None) ∨
  (pump o' = PumpNone ∧ (lastError o' ≠ None → paused (flow o') = true)).
Proof.
  intros Herr. unfold decide_with. pose proof (decide_kinds t (flow o) wake) as Hk.
  destruct (decide_flow t (flow o) wake) as [f d]. destruct Hk as (Hw & Hr & Hf). simpl.
  destruct Herr as [Herr|(code & detail & ->)].
  - destruct d; simpl; [by left|right|right]; (split; [done|]); intros; by destruct (lastError o).
  - destruct Hw as (-> & Hp & _). right. simpl. by split.
Qed.


(** No turn in flight and no wake waiting. *)
Definition calm o : Prop :=
  (∀ m, busy o m = false) ∧ externalPending o = false ∧ pendingOutcome o = None.

Definition error_of o (wake : option Outcome) : Prop :=
  lastError o = None ∨ ∃ code detail, wake = Some (failed code detail).

Lemma decide_with_inv o t wake :
  calm o → disposed o = false → error_of o wake → orch_inv (decide_with o t wake).
Proof.
  intros (Hb & He & Hp) Hnd Herr.
  assert (disposed (decide_with o t wake) = disposed o ∧ busy (decide_with o t wake) = busy o ∧
    externalPending (decide_with o t wake) = externalPending o ∧
    pendingOutcome (decide_with o t wake) = pendingOutcome o) as (Ed & Eb & Ee & Ep)
    by (unfold decide_with; by destruct (decide_flow t (flow o) wake)).
  assert (pump (decide_with o t wake) = PumpExecute ∨ pump (decide_with o t wake) = PumpNone) as Hpump
    by (unfold decide_with; destruct (decide_flow t (flow o) wake) as [? []]; auto).
  split; rewrite ?Ed, ?Eb, ?Ee, ?Ep, ?He, ?Hp, ?Hnd; try done.
  - intros m. by rewrite Hb.
  - intros m E. destruct Hpump; congruence.
  - intros m E. destruct Hpump; congruence.
  - intros E. destruct Hpump; congruence.
  - intros _ E. destruct (decide_with_cases o t wake Herr) as [[_ ?]|[E' _]]; congruence.
  - intros _ E. destruct (decide_with_cases o t wake Herr) as [[E' _]|[_ ?]]; [congruence|done].
Qed.

Lemma pump_none_inv o : calm o → disposed o = true → orch_inv (set_pump o PumpNone).
Proof.
  intros (Hb & He & Hp) Hd. split; simpl; rewrite ?Hd, ?He, ?Hp; try done. intros m. by rewrite Hb.
Qed.

Lemma drive_result_inv o outcome :
  calm o → (disposed o = false → error_of o (Some outcome)) → orch_inv (drive_result o outcome).
Proof.
  intros Hcalm Herr. unfold drive_result. destruct (disposed o) eqn:Hd; [by apply pump_none_inv|].
  destruct Hcalm as (Hb & He & Hp). split; simpl; rewrite ?He, ?Hd; try done.
  - intros m. by rewrite Hb.
  - by right.
  - intros w _ [= <-]. destruct (Herr eq_refl) as [?|(c & d & [= ->])]; [by left|right; eauto].
Qed.

(** Taking the failure or clearing it, by the outcome. *)
Lemma report_error o m outcome : error_of (report o m outcome) (Some outcome).
Proof. destruct outcome; simpl; [by left|by left|right; eauto|by left]. Qed.

Lemma report_calm o m outcome : calm o → calm (report o m outcome).
Proof. by destruct outcome. Qed.

Lemma report_disposed o m outcome : disposed (report o m outcome) = disposed o.
Proof. by destruct outcome. Qed.

Lemma drive_done_inv o m outcome : calm o → orch_inv (drive_done o m outcome).
Proof.
  intros Hcalm. apply drive_result_inv; [by apply report_calm|]. intros _. apply report_error.
Qed.

Lemma drive_throw_inv o m message : calm o → orch_inv (drive_throw o m message).
Proof. intros Hcalm. apply drive_result_inv; [done|]. intros _. right. by do 2 eexists. Qed.

Lemma external_resume_inv o t m outcome : calm o → orch_inv (external_resume o t m outcome).
Proof.
  intros Hcalm. unfold external_resume. destruct (disposed o) eqn:Hd; [by apply pump_none_inv|].
  apply decide_with_inv; [by apply report_calm|by rewrite report_disposed|].
  destruct outcome; simpl; [by left|by left|right; eauto|by left].
Qed.

Lemma external_throw_inv o t m message : calm o → orch_inv (external_throw o t m message).
Proof.
  intros (Hb & He & Hp). unfold external_throw.
  change (flow (record_orchestration o (Some m) message)) with (flow o).
  pose proof (decide_kinds t (flow o) (Some (failureOutcome message))) as Hk.
  destruct (decide_flow t (flow o) (Some (failureOutcome message))) as [f d].
  destruct Hk as [(_ & Hpz & _) _]. simpl.
  split; simpl; rewrite ?He, ?Hp; try done. intros m'. by rewrite Hb.
Qed.

(** When the awaited turn ends nothing else is in flight. *)
Lemma end_turn_calm o m :
  orch_inv o → (pump o = PumpDrive m ∨ pump o = PumpExternal m) → calm (end_turn o m).
Proof.
  intros Hinv Hp. split_and!; simpl.
  - intros m'. case_bool_decide as Hm; [done|]. destruct (busy o m') eqn:Hb; [|done]. exfalso.
    destruct (oi_busy _ Hinv m' Hb) as (_ & _ & [E|[E|[E _]]]); destruct Hp; congruence.
  - destruct (externalPending o) eqn:E; [|done]. apply (oi_pending _ Hinv) in E.
    destruct Hp; congruence.
  - destruct (pendingOutcome o) eqn:E; [|done]. apply (oi_outcome _ Hinv) in E as [E _].
    destruct Hp; congruence.
Qed.

Lemma execute_calm o : orch_inv o → pump o = PumpExecute → calm o.
Proof.
  intros Hinv Hp. split_and!.
  - intros m. destruct (busy o m) eqn:Hb; [|done]. exfalso.
    destruct (oi_busy _ Hinv m Hb) as (_ & _ & [E|[E|[E _]]]); congruence.
  - destruct (externalPending o) eqn:E; [|done]. apply (oi_pending _ Hinv) in E. congruence.
  - destruct (pendingOutcome o) eqn:E; [|done]. apply (oi_outcome _ Hinv) in E as [E _]. congruence.
Qed.

Lemma loop_top_inv o t : orch_inv o → pump o = PumpLoop → orch_inv (loop_top o t).
Proof.
  intros Hinv Hp. unfold loop_top. destruct (disposed o) eqn:Hd.
  { by destruct (oi_disposed _ Hinv Hd) as [? _]. }
  destruct (externalPending o) eqn:He.
  - assert (pendingOutcome o = None) as Hw.
    { destruct (pendingOutcome o) eqn:E; [|done]. apply (oi_outcome _ Hinv) in E as [_ E]. congruence. }
    split; simpl; rewrite ?Hw; try done.
    + intros m Hb. destruct (oi_busy _ Hinv m Hb) as (? & ? & _). split_and!; [done|done|].
      right. left. by subst.
    + by intros m [= <-].
  - assert (∀ m, busy o m = false) as Hb.
    { intros m. destruct (busy o m) eqn:Hb; [|done]. exfalso.
      destruct (oi_busy _ Hinv m Hb) as (_ & _ & [E|[E|[_ E]]]); congruence. }
    apply decide_with_inv; [by split_and!|done|].
    destruct (oi_loop _ Hinv Hp) as [?|[w Hw]]; [congruence|].
    destruct (oi_failed _ Hinv w Hd Hw) as [?|(c & dt & ->)]; [by left|right]. simpl. rewrite Hw. eauto.
Qed.

(** *** Requests *)

Lemma quiet_idle o : orch_inv o → quiet o → busy o (active o) = false → pump o = PumpNone.
Proof.
  intros Hinv Hq Hb. unfold quiet in Hq. destruct (pump o) eqn:Hp; try done; exfalso.
  all: destruct (oi_busy _ Hinv _ Hq) as (_ & -> & _); congruence.
Qed.

Lemma idle_all o : orch_inv o → busy o (active o) = false → ∀ m, busy o m = false.
Proof.
  intros Hinv Hb m. destruct (busy o m) eqn:E; [|done].
  destruct (oi_busy _ Hinv m E) as (_ & -> & _). congruence.
Qed.

Lemma rest_calm o : orch_inv o → pump o = PumpNone → calm o.
Proof.
  intros Hinv Hp. split_and!.
  - intros m. destruct (busy o m) eqn:Hb; [|done]. exfalso.
    destruct (oi_busy _ Hinv m Hb) as (_ & _ & [E|[E|[E _]]]); congruence.
  - destruct (externalPending o) eqn:E; [|done]. apply (oi_pending _ Hinv) in E. congruence.
  - destruct (pendingOutcome o) eqn:E; [|done]. apply (oi_outcome _ Hinv) in E as [E _]. congruence.
Qed.

(** A change that keeps the pump, the turns and the active member. *)
Lemma requests_inv o o' :
  orch_inv o → quiet o → pump o' = pump o → busy o' = busy o → active o' = active o →
  externalPending o' = externalPending o → pendingOutcome o' = pendingOutcome o →
  (disposed o' = false → pump o = PumpNone → lastError o' ≠ None → paused (flow o') = true) →
  orch_inv o'.
Proof.
  intros Hinv Hq Ep Eb Ea Ee Ew Hz.
  assert (pump o ≠ PumpLoop ∧ pump o ≠ PumpExecute) as [Hl Hx]
    by (unfold quiet in Hq; destruct (pump o); naive_solver).
  split; rewrite ?Ep, ?Eb, ?Ea, ?Ee, ?Ew; try done.
  - by apply oi_busy.
  - by apply oi_drive.
  - by apply oi_external.
  - by apply oi_pending.
  - by apply oi_outcome.
  - intros w _ Hw. by destruct (oi_outcome _ Hinv w Hw) as [? _].
Qed.

Lemma submit_inv o t d : orch_inv o → quiet o → orch_inv (submit o t d).1.
Proof.
  intros Hinv Hq. unfold submit. destruct (disposed o) eqn:Hd; [done|]. destruct d as [|message took].
  - destruct (busy o (active o)) eqn:Hb; simpl.
    + unfold deliver_effect. simpl. rewrite Hb.
      destruct (consumes (active o)); [|done]. apply (requests_inv o); try done.
      intros _ Hp He. by apply (oi_frozen _ Hinv).
    + pose proof (quiet_idle o Hinv Hq Hb) as Hp. pose proof (idle_all o Hinv Hb) as Hi.
      destruct (rest_calm o Hinv Hp) as (_ & _ & Hw).
      unfold deliver_effect, consumes, requestPump. simpl. rewrite Hb.
      case_bool_decide as Ha; simpl; rewrite ?Hd, ?Hp.
      all: split; simpl; rewrite ?Hw, ?Hd; try done; try (by left); intros m; rewrite ?Hi; try done.
      case_bool_decide as Hm; [|done]. subst. intros _. by split_and!; [..|right; right].
  - pose proof (decide_kinds t (flow o) (Some (failureOutcome message))) as Hk.
    destruct (decide_flow t (flow o) (Some (failureOutcome message))) as [f dd] eqn:Ef.
    destruct Hk as [(_ & Hz & Hpos) _].
    assert (∀ o1, flow o1 = f → active o1 = active o) as Hact.
    { intros o1 E1. unfold active, activeMemberId. rewrite E1. unfold activity. by rewrite Hpos. }
    apply (requests_inv o); try done; destruct took; simpl; rewrite ?Ef; try done; by apply Hact.
Qed.

Lemma cancel_inv o unclaimed : orch_inv o → quiet o → orch_inv (cancel o unclaimed).1.
Proof.
  intros Hinv Hq. unfold cancel. destruct (disposed o) eqn:Hd; [done|].
  destruct (paused (flow o)) eqn:Hz; [done|].
  simpl. destruct (busy o (active o) && consumes (active o)) eqn:Hb; simpl.
  - apply (requests_inv o); try done; simpl. intros _ Hp He. by apply (oi_frozen _ Hinv).
  - apply (requests_inv o); done.
Qed.

Lemma dispose_inv o : orch_inv o → quiet o → orch_inv (dispose o).
Proof.
  intros Hinv Hq. unfold dispose. destruct (disposed o) eqn:Hd; [done|]. simpl.
  assert (pump o ≠ PumpLoop ∧ pump o ≠ PumpExecute) as [Hl Hx]
    by (unfold quiet in Hq; destruct (pump o); naive_solver).
  destruct Hinv. destruct (busy o player), (busy o planner); split; simpl; naive_solver.
Qed.

(** *** Steps *)

Lemma drive_start_inv o :
  orch_inv o → pump o = PumpExecute → active o ≠ announcer →
  orch_inv (set_pump (start_turn (set_landed o []) (active o)) (PumpDrive (active o))).
Proof.
  intros Hinv Hp Ha. destruct (execute_calm o Hinv Hp) as (Hb & He & Hw).
  assert (disposed o = false) as Hd.
  { destruct (disposed o) eqn:Hd; [|done]. by destruct (oi_disposed _ Hinv Hd). }
  split; simpl; rewrite ?He, ?Hw, ?Hd; try done.
  - intros m. rewrite Hb. case_bool_decide as Hm; [|done]. subst. intros _. split_and!; auto.
  - intros m [= <-]. by rewrite bool_decide_true.
Qed.

Lemma ostep_inv o o' : ostep o o' → orch_inv o → orch_inv o'.
Proof.
  intros Hs Hinv. inversion Hs; subst; clear Hs.
  - by apply submit_inv.
  - by apply cancel_inv.
  - by apply dispose_inv.
  - by apply loop_top_inv.
  - pose proof (execute_calm o Hinv ltac:(done)). apply drive_result_inv; [done|].
    intros Hd. left. by apply oi_execute.
  - apply drive_done_inv, execute_calm; done.
  - apply drive_done_inv, execute_calm; done.
  - by apply drive_start_inv.
  - apply drive_throw_inv. pose proof (execute_calm o Hinv ltac:(done)). by destruct took_landed.
  - apply drive_done_inv, end_turn_calm; auto.
  - apply drive_throw_inv, end_turn_calm; auto.
  - apply external_resume_inv, end_turn_calm; auto.
  - apply external_throw_inv, end_turn_calm; auto.
  - apply external_resume_inv. split_and!.
    + intros m'. destruct (busy o m') eqn:Hb; [|done]. exfalso.
      destruct (oi_busy _ Hinv m' Hb) as (_ & Hm & _). rewrite (oi_external _ Hinv m) in *; congruence.
    + destruct (externalPending o) eqn:E; [|done]. apply (oi_pending _ Hinv) in E. congruence.
    + destruct (pendingOutcome o) eqn:E; [|done]. apply (oi_outcome _ Hinv) in E as [E _]. congruence.
Qed.

Lemma reachable_inv t o : rtc ostep (new_orchestrator t) o → orch_inv o.
Proof.
  intros Hr. assert (orch_inv (new_orchestrator (Msg := Msg) t)) as H0 by apply new_orchestrator_inv.
  revert H0. induction Hr as [|o1 o2 o3 Hs _ IH]; [done|]. intros H1. apply IH. by eapply ostep_inv.
Qed.

End Invariant.

(** ** Cancelling a turn in flight *)

Section Cancel.
Context {R Msg : Type} `{EqDecision R}.

Implicit Types o : TeamOrchestrator R Msg.

(** The place of a flow: its position and the facts it has consumed. *)
Definition place (f : Flow (R := R) (Id := SaoleiActivityId)) : SaoleiActivityId * option R * Z * option R :=
  (currentPosition f, reviewed (currentFacts f), rounds (currentFacts f),
   statsSentFor (currentFacts f)).

Lemma decide_interrupted t f w :
  interruption w = true →
  let '(f', d) := decide_flow t f (Some w) in
  d = frozen ∧ paused f' = true ∧ place f' = place f.
Proof.
  unfold decide_flow, decide_wake. destruct f as [pos out err ret facts].
  by destruct w; intros; simpl.
Qed.

Lemma place_active o o' : place (flow o') = place (flow o) → active o' = active o.
Proof. unfold active, activeMemberId, activity, place. by intros [= -> _ _ _]. Qed.

(** The turn is in flight with its interruption latched. *)
Definition cancelling p o : Prop :=
  place (flow o) = p ∧ busy o (active o) = true ∧ aborting o (active o) = true.

(** The turn is over and the flow frozen, or about to be. *)
Definition stopped p o : Prop :=
  place (flow o) = p ∧ calm (set_outcome o None) ∧
  ((pump o = PumpNone ∧ (disposed o = true ∨ paused (flow o) = true)) ∨
   (pump o = PumpLoop ∧ ∃ w, pendingOutcome o = Some w ∧ interruption w = true)).

Lemma cancelling_request p o o' :
  cancelling p o → place (flow o') = place (flow o) → busy o' = busy o →
  (∀ m, aborting o m = true → busy o m = true → aborting o' m = true) → cancelling p o'.
Proof.
  intros (Hpl & Hb & Ha) E Eb Hab. pose proof (place_active _ _ E) as Eact.
  split_and!; [congruence|by rewrite Eb, Eact|]. rewrite Eact. by apply Hab.
Qed.

Lemma submit_cancelling p o t d : cancelling p o → cancelling p (submit o t d).1.
Proof.
  intros Hc. pose proof Hc as (_ & Hb & _). unfold submit. destruct (disposed o); [done|].
  destruct d as [|message took]; simpl.
  - rewrite Hb. unfold deliver_effect. simpl. rewrite Hb.
    destruct (consumes (active o)); [|done]. by apply (cancelling_request p o).
  - pose proof (decide_interrupted t (flow o) (failureOutcome message) eq_refl) as Hd.
    destruct (decide_flow t (flow o) (Some (failureOutcome message))) as [f dd] eqn:Ef.
    destruct Hd as (_ & _ & Epl).
    apply (cancelling_request p o); try done; destruct took; simpl; by rewrite ?Ef.
Qed.

Lemma cancel_cancelling p o u : orch_inv o → cancelling p o → cancelling p (cancel o u).1.
Proof.
  intros Hinv Hc. pose proof Hc as (_ & Hb & _). unfold cancel.
  destruct (disposed o); [done|]. destruct (paused (flow o)); [done|].
  destruct (oi_busy _ Hinv _ Hb) as (Ha & _ & _). simpl. unfold consumes.
  rewrite Hb, bool_decide_false by done. simpl. apply (cancelling_request p o); try done.
  intros m Hm Hbm. simpl. case_bool_decide; [|done]. by rewrite Hm.
Qed.

Lemma dispose_cancelling p o : cancelling p o → cancelling p (dispose o).
Proof.
  intros Hc. unfold dispose. destruct (disposed o); [done|]. simpl.
  destruct (busy o player), (busy o planner).
  all: apply (cancelling_request p o); try done; intros m Hm Hbm; simpl; case_bool_decide; by rewrite ?Hm.
Qed.

Lemma drive_result_stopped p o w :
  interruption w = true → place (flow o) = p → calm o → stopped p (drive_result o w).
Proof.
  intros Hw Hp (Hb & He & Hn). unfold drive_result. destruct (disposed o) eqn:Hd.
  - split_and!; [done|by split_and!|]. left. split; [done|by left].
  - split_and!; [done|by split_and!|]. right. split; [done|]. by exists w.
Qed.

Lemma decide_stopped p o t w :
  interruption w = true → place (flow o) = p → calm o → stopped p (decide_with o t (Some w)).
Proof.
  intros Hw Hp (Hb & He & Hn). unfold decide_with. pose proof (decide_interrupted t (flow o) w Hw) as Hd.
  destruct (decide_flow t (flow o) (Some w)) as [f d]. destruct Hd as (-> & Hz & Epl).
  split_and!; [by rewrite <- Hp|by split_and!|]. left. split; [done|by right].
Qed.

(** A step of a cancelled orchestrator, until it rests. *)
Lemma cancel_step p o o' :
  orch_inv o → cancelling p o ∨ (stopped p o ∧ pump o ≠ PumpNone) → ostep o o' →
  cancelling p o' ∨ stopped p o'.
Proof.
  intros Hinv Hc Hs. destruct Hc as [Hc|[(Hpl & (Hb & He & _) & Hst) Hp]].
  - pose proof Hc as (Hpl & Hb & Hab).
    assert (∀ m, busy o m = true → m = active o) as Hact by (intros m Hm; by apply (oi_busy _ Hinv)).
    inversion Hs; subst; clear Hs.
    all: try (pose proof (execute_calm o Hinv ltac:(done)) as (Hnb & _); by rewrite Hnb in Hb).
    + left. by apply submit_cancelling.
    + left. by apply cancel_cancelling.
    + left. by apply dispose_cancelling.
    + left. unfold loop_top. destruct (disposed o) eqn:Hd; [by destruct (oi_disposed _ Hinv Hd)|].
      destruct (oi_busy _ Hinv _ Hb) as (_ & _ & [E|[E|[_ E]]]); [congruence|congruence|].
      rewrite E. by apply (cancelling_request (place (flow o)) o).
    + right. assert (m = active o) as -> by auto. match goal with H : aborting o _ = true → _ |- _ => rewrite H by done end.
      apply drive_result_stopped; [done|done|]. apply report_calm, end_turn_calm; auto.
    + right. apply drive_result_stopped; [done|done|]. by apply (end_turn_calm o m); auto.
    + right. assert (m = active o) as -> by auto. match goal with H : aborting o _ = true → _ |- _ => rewrite H by done end. unfold external_resume.
      pose proof (end_turn_calm o (active o) Hinv ltac:(auto)) as Hcalm.
      destruct (disposed (end_turn o (active o))) eqn:Hd.
      * split_and!; [done|by destruct Hcalm as (? & ? & ?)|]. left. split; [done|by left].
      * by apply decide_stopped.
    + right. unfold external_throw.
      pose proof (end_turn_calm o m Hinv ltac:(auto)) as (Hb' & He' & _).
      pose proof (decide_interrupted t (flow o) (failureOutcome message) eq_refl) as Hd.
      change (flow (record_orchestration (end_turn o m) (Some m) message)) with (flow o).
      destruct (decide_flow t (flow o) (Some (failureOutcome message))) as [f dd].
      destruct Hd as (_ & Hz & Epl). split_and!; [done|by split_and!|]. left. split; [done|by right].
    + rewrite (oi_external _ Hinv m) in * by done. congruence.
  - destruct Hst as [[E _]|(E & w & Hw & Hi)]; [done|].
    inversion Hs; subst; clear Hs; try (unfold quiet in *; rewrite E in *; congruence || done).
    right. unfold loop_top. destruct (disposed o) eqn:Hd; [by destruct (oi_disposed _ Hinv Hd)|].
    simpl in He. rewrite He, Hw. by apply decide_stopped.
Qed.

Lemma cancel_in_flight o u :
  orch_inv o → disposed o = false → paused (flow o) = false → busy o (active o) = true →
  cancel o u = (abort_member (set_landed o (landed o ++ u)) (active o), u) ∧
  cancelling (place (flow o)) (abort_member (set_landed o (landed o ++ u)) (active o)).
Proof.
  intros Hinv Hd Hz Hb. destruct (oi_busy _ Hinv _ Hb) as (Ha & _ & _). split.
  - unfold cancel, consumes. rewrite Hd, Hz. simpl. rewrite Hb. by rewrite bool_decide_false.
  - split_and!; [done|done|].
    change (active (abort_member _ _)) with (active o). simpl.
    by rewrite bool_decide_true, Hb, orb_true_r.
Qed.

(** Steps up to the pump's rest. *)
Definition pumping o o' : Prop := ostep o o' ∧ pump o ≠ PumpNone.

Lemma cancelling_run p o o' :
  orch_inv o → cancelling p o ∨ stopped p o → rtc pumping o o' →
  (cancelling p o' ∨ stopped p o') ∧ orch_inv o'.
Proof.
  intros Hinv Hc Hr. revert Hinv Hc. induction Hr as [|o1 o1' o2 [Hs Hn] _ IH]; [done|].
  intros Hinv Hc. apply IH; [by eapply ostep_inv|]. apply (cancel_step p o1); [done| |done].
  destruct Hc; auto.
Qed.

Lemma stopping_summary o o2 :
  cancelling (place (flow o)) o2 ∨ stopped (place (flow o)) o2 → orch_inv o2 →
  place (flow o2) = place (flow o) ∧
  (∀ m, busy o2 m = true → m = active o ∧ aborting o2 m = true) ∧
  (pump o2 = PumpNone → disposed o2 = true ∨ paused (flow o2) = true).
Proof.
  intros [(Hpl & Hb & Ha)|(Hpl & (Hb & _) & Hst)] Hinv.
  - rewrite (place_active _ _ Hpl) in Hb, Ha. split_and!; [done| |].
    + intros m Hm. destruct (oi_busy _ Hinv m Hm) as (_ & -> & _).
      by rewrite (place_active _ _ Hpl).
    + intros Hp. destruct (rest_calm o2 Hinv Hp) as (Hn & _). by rewrite Hn in Hb.
  - split_and!; [done| |].
    + intros m Hm. simpl in Hb. by rewrite Hb in Hm.
    + intros Hp. destruct Hst as [[_ ?]|[E _]]; [done|congruence].
Qed.

End Cancel.

(** ** Properties *)

Section Properties.
Context {R Msg : Type} `{EqDecision R}.

Implicit Types o : TeamOrchestrator R Msg.

(** C35: one turn at a time.  In every state the orchestrator reaches, under any
    interleaving of user messages, cancels and disposal with the pump, at most
    one member's turn is in flight; it is a turn of the active member, never of
    the announcer, and the pump is awaiting it or is about to.  A wake waits in
    [externalPending] or in [pendingOutcome], never in both, and only at the top
    of the pump's loop: no wake is lost and none is left over. *)
Theorem one_turn_at_a_time t o (Hr : rtc ostep (new_orchestrator t) o) :
  (∀ m m', busy o m = true → busy o m' = true → m = m') ∧
  (∀ m, busy o m = true →
    m ≠ announcer ∧ m = active o ∧
    (pump o = PumpDrive m ∨ pump o = PumpExternal m ∨ (pump o = PumpLoop ∧ externalPending o = true))) ∧
  (pump o = PumpLoop ↔ externalPending o = true ∨ is_Some (pendingOutcome o)) ∧
  ¬ (externalPending o = true ∧ is_Some (pendingOutcome o)).
Proof.
  pose proof (reachable_inv t o Hr) as Hinv. split_and!.
  - intros m m' Hm Hm'. destruct (oi_busy _ Hinv m Hm) as (_ & -> & _).
    by destruct (oi_busy _ Hinv m' Hm') as (_ & -> & _).
  - by apply oi_busy.
  - split; [by apply oi_loop|]. intros [E|[w E]]; [by apply (oi_pending _ Hinv)|].
    by apply (oi_outcome _ Hinv) in E as [? _].
  - intros [E [w Ew]]. apply (oi_outcome _ Hinv) in Ew as [_ ?]. congruence.
Qed.

(** The snapshot agrees with itself: the member shown active is the activation, and
    what is shown at rest after a failure is a frozen flow with nothing in flight. *)
Lemma snapshot_consistent t o pendingInput (Hr : rtc ostep (new_orchestrator t) o) :
  let sn := snapshot o pendingInput in
  (∀ m, sn_active sn = Some m ↔ busy o m = true) ∧ (∀ m, sn_active sn = Some m → m = sn_activation sn) ∧
  (sn_active sn = None → sn_queued sn = 0) ∧
  (disposed o = false → pump o = PumpNone → sn_failed sn = true → sn_paused sn = true ∧ sn_active sn = None).
Proof.
  pose proof (reachable_inv t o Hr) as Hinv.
  assert (∀ m, busyMember o = Some m ↔ busy o m = true) as Hbusy.
  { intros m. unfold busyMember. rewrite fmap_Some. split.
    - intros ([i m'] & (_ & Hb & _)%list_find_Some & ->). done.
    - intros Hb. destruct (list_find_elem_of (λ m, busy o m = true) MEMBER_IDS m) as [[i m'] E]; [by destruct m; in_list|done|].
      exists (i, m'). split; [done|]. apply list_find_Some in E as (_ & Hb' & _).
      destruct (oi_busy _ Hinv m Hb) as (_ & -> & _). by destruct (oi_busy _ Hinv m' Hb') as (_ & -> & _). }
  intros sn. split_and!; simpl.
  - exact Hbusy.
  - intros m Hm. apply Hbusy in Hm. by destruct (oi_busy _ Hinv m Hm) as (_ & ? & _).
  - by intros ->.
  - intros Hd Hp Hf. apply bool_decide_eq_true in Hf as [e He]. split; [apply (oi_frozen _ Hinv Hd Hp); by rewrite He|].
    destruct (busyMember o) as [m|] eqn:E; [|done]. pose proof (proj1 (Hbusy m) eq_refl) as Hm.
    destruct (rest_calm o Hinv Hp) as [Hb _]. by rewrite Hb in Hm.
Qed.

(** A failure suspends the automatic continuation.  When the pump rests
    with a failure recorded, the flow is frozen, no turn is in flight, and
    nothing but a user message or disposal changes the orchestrator. *)
Theorem failure_suspends t o (Hr : rtc ostep (new_orchestrator t) o)
    (Hp : pump o = PumpNone) (Hd : disposed o = false) (He : lastError o ≠ None) :
  paused (flow o) = true ∧ (∀ m, busy o m = false) ∧
  ∀ o', ostep o o' → o' = o ∨ o' = dispose o ∨ ∃ t' d, o' = (submit o t' d).1.
Proof.
  pose proof (reachable_inv t o Hr) as Hinv. pose proof (oi_frozen _ Hinv Hd Hp He) as Hz.
  split_and!; [done|by apply rest_calm|].
  intros o' Hs. inversion Hs; subst; try congruence; [by right; right; eauto| |by right; left].
  left. unfold cancel. by rewrite Hd, Hz.
Qed.

(** C37: cancelling freezes in place, a flow that is not frozen.  Cancelling the turn
    in flight of such a flow lands the unclaimed user messages and leaves the flow as
    it is; from there, whatever requests come and however the turn ends, the flow keeps
    its position and the facts it has consumed, no other turn starts, and when the pump
    comes to rest the flow is frozen (unless the orchestrator was disposed).
    Cancelling such a flow with nothing in flight freezes it at once.  A frozen flow,
    and a disposed orchestrator, are left exactly as they are: the turn in flight of a
    frozen flow that recovers runs on ([recovery_turn_ignores_cancel] below). *)
Theorem cancel_freezes_in_place t o u (Hr : rtc ostep (new_orchestrator t) o) (Hq : quiet o) :
  if disposed o || paused (flow o) then cancel o u = (o, [])
  else if busy o (active o) then
    landed (cancel o u).1 = landed o ++ u ∧ (cancel o u).2 = u ∧ flow (cancel o u).1 = flow o ∧
    ∀ o2, rtc pumping (cancel o u).1 o2 →
      place (flow o2) = place (flow o) ∧
      (∀ m, busy o2 m = true → m = active o ∧ aborting o2 m = true) ∧
      (pump o2 = PumpNone → disposed o2 = true ∨ paused (flow o2) = true)
  else flow (cancel o u).1 = freezeAborted (flow o) ∧ place (flow (cancel o u).1) = place (flow o).
Proof.
  pose proof (reachable_inv t o Hr) as Hinv. destruct (disposed o) eqn:Hd; [unfold cancel; by rewrite Hd|].
  destruct (paused (flow o)) eqn:Hz; [unfold cancel; by rewrite Hd, Hz|]. simpl. destruct (busy o (active o)) eqn:Hb.
  - pose proof (cancel_inv o u Hinv Hq) as Hinv1.
    pose proof (cancel_in_flight o u Hinv Hd Hz Hb) as (E & Hc).
    rewrite E in *. split_and!; [done..|]. intros o2 Hp.
    destruct (cancelling_run _ _ _ Hinv1 (or_introl Hc) Hp) as [H2 Hinv2].
    by apply stopping_summary.
  - unfold cancel. rewrite Hd, Hz. simpl. by rewrite Hb.
Qed.

(** While a frozen flow recovers, cancel does nothing.  A user message to a
    frozen orchestrator opens a turn of the agent that was interrupted; until
    that turn ends the flow still reads as frozen, so [cancel] returns without
    interrupting the turn and without landing the unclaimed messages. *)
Theorem recovery_turn_ignores_cancel t o (Hr : rtc ostep (new_orchestrator t) o)
    (Hp : pump o = PumpNone) (Hd : disposed o = false) (Hz : paused (flow o) = true)
    (Ha : active o ≠ announcer) t1 t2 :
  let o' := loop_top (submit o t1 Delivered).1 t2 in
  rtc ostep (new_orchestrator t) o' ∧ quiet o' ∧ busy o' (active o) = true ∧
  active o' = active o ∧ ∀ u, cancel o' u = (o', []).
Proof.
  pose proof (rest_calm o (reachable_inv t o Hr) Hp) as (Hb & He & Hw). intros o'.
  assert (o' = set_pump (set_external (start_turn (set_landed o []) (active o)) false)
    (PumpExternal (active o))) as E.
  { unfold o', submit, loop_top, deliver_effect, consumes, requestPump. rewrite Hd. simpl.
    rewrite Hb, bool_decide_false by done. simpl. by rewrite Hd, Hp; simpl; rewrite Hd. }
  split_and!.
  - eapply rtc_r, o_loop; [eapply rtc_r, o_submit; [done|by unfold quiet; rewrite Hp]|].
    unfold submit, deliver_effect, consumes, requestPump. rewrite Hd. simpl.
    rewrite Hb, bool_decide_false by done. simpl. by rewrite Hd, Hp.
  - rewrite E. unfold quiet. simpl. by rewrite bool_decide_true.
  - rewrite E. simpl. by rewrite bool_decide_true.
  - by rewrite E.
  - intros u. rewrite E. unfold cancel. simpl. by rewrite Hd, Hz.
Qed.

End Properties.

(** ** Witnesses *)

Section Witnesses.

(** Records and messages are numbered. *)
Definition w_start : TeamOrchestrator nat nat := new_orchestrator None.

(** The first user message opened the planner's turn and the pump awaits it. *)
Definition w_planning : TeamOrchestrator nat nat := loop_top (submit w_start None Delivered).1 None.

(** The planner's turn failed. *)
Definition w_failed : TeamOrchestrator nat nat :=
  external_resume (end_turn w_planning planner) None planner
    (failed TRANSIENT (mkDetail None "timeout")).

Lemma w_planning_reachable : rtc ostep (new_orchestrator None) w_planning.
Proof.
  eapply rtc_l; [by apply (o_submit w_start None Delivered)|]. by apply rtc_once, o_loop.
Qed.

Lemma w_failed_reachable : rtc ostep (new_orchestrator None) w_failed.
Proof. eapply rtc_r; [apply w_planning_reachable|]. by apply o_turn_external. Qed.

Lemma one_turn_at_a_time_witness :
  busy w_planning planner = true ∧ pump w_planning = PumpExternal planner ∧
  ∀ m, busy w_planning m = true → planner = m.
Proof.
  split_and!; [reflexivity..|]. intros m Hm.
  exact (proj1 (one_turn_at_a_time None w_planning w_planning_reachable) planner m eq_refl Hm).
Defined.

Lemma failure_suspends_witness :
  lastError w_failed ≠ None ∧ paused (flow w_failed) = true ∧ busy w_failed planner = false.
Proof.
  split; [discriminate|].
  destruct (failure_suspends None w_failed w_failed_reachable eq_refl eq_refl ltac:(discriminate))
    as (H1 & H2 & _).
  split; [exact H1|exact (H2 planner)].
Defined.

Lemma cancel_freezes_in_place_witness :
  quiet w_planning ∧ landed (cancel w_planning [5%nat]).1 = [5%nat] ∧
  let o2 := external_resume (end_turn (cancel w_planning [5%nat]).1 planner) None planner aborted in
  place (flow o2) = place (flow w_planning) ∧ pump o2 = PumpNone ∧
  (disposed o2 = true ∨ paused (flow o2) = true).
Proof.
  split; [reflexivity|].
  pose proof (cancel_freezes_in_place None w_planning [5%nat] w_planning_reachable eq_refl) as (H1 & _ & _ & H2).
  split; [exact H1|]. intros o2.
  destruct (H2 o2) as (H3 & _ & H4); [|split; [exact H3|split; [reflexivity|exact (H4 eq_refl)]]].
  apply rtc_once. split; [|discriminate]. by apply o_turn_external.
Defined.

Lemma recovery_turn_ignores_cancel_witness :
  let o' := loop_top (submit w_failed None Delivered).1 None in
  busy o' planner = true ∧ cancel o' [5%nat] = (o', []).
Proof.
  destruct (recovery_turn_ignores_cancel None w_failed w_failed_reachable eq_refl eq_refl eq_refl
    ltac:(discriminate) None None) as (_ & _ & H1 & _ & H2).
  split; [exact H1|exact (H2 [5%nat])].
Defined.

End Witnesses.

