(* ===== verification/Broadcast.v ===== *)
(** * Broadcast units

    [common/js/dsh-plugins/team/src/broadcast.ts] and [section.ts]: the units a
    member's log yields (a speech, or a tool call paired with its result), the
    anchors a log has consumed, and the rendering of a unit.

    The third-party session vocabulary is reduced to what the code reads: a
    content block is a text or something else, kept as its JSON form; a message
    source is a team broadcast or another kind.  Event times and sequence numbers
    are integers, and the roles given to [tagName] are ASCII strings. *)

From S2P Require Import Prelude.

(** ** Session events *)

Inductive ContentBlock : Type :=
| TextBlock (text : string)
| OtherBlock (json : string).

Record AssistantMessage : Type := mkAssistant { am_id : string; am_content : list ContentBlock }.

Record ToolResultMessage : Type := mkToolResult {
  trm_toolCallId : string;
  trm_content : list ContentBlock;
}.

Record TeamBroadcastSource : Type := mkBroadcastSource {
  bs_role : string;
  bs_senderSessionId : string;
  bs_messageId : string;
  bs_context : option string;
}.

Inductive MessageSource : Type :=
| TeamBroadcast (source : TeamBroadcastSource)
| SourceOther (kind : string).

Inductive EventData : Type :=
| AssistantEvent (message : AssistantMessage)
| ToolCallEvent (callId name arguments : string)
| ToolResultEvent (message : ToolResultMessage)
| UserEvent (source : MessageSource)
| OtherEvent (type : string).

Record SessionEvent : Type := mkEvent { ev_data : EventData; ev_time : Z; ev_seq : Z }.

(** A message built for a member: its text and its source. *)
Record UserMessage : Type := mkUserMessage { um_text : string; um_source : MessageSource }.

(** ** Units *)

Inductive UnitKind : Type := kind_message | kind_tool.

Record BroadcastUnit : Type := mkUnit {
  u_kind : UnitKind;
  u_anchor : string;
  u_time : Z;
  u_seq : Z;
}.

#[global] Instance UnitKind_eq_dec : EqDecision UnitKind.
Proof. solve_decision. Defined.
#[global] Instance BroadcastUnit_eq_dec : EqDecision BroadcastUnit.
Proof. solve_decision. Defined.

(** *** Role tags *)

Definition char_in (lo hi : Z) (c : Ascii.ascii) : bool :=
  let n := Z.of_nat (Ascii.nat_of_ascii c) in (lo <=? n) && (n <=? hi).

Definition is_space (c : Ascii.ascii) : bool := char_in 9 13 c || char_in 32 32 c.
Definition is_dash (c : Ascii.ascii) : bool := char_in 45 45 c.

(** [[a-z0-9_-]] *)
Definition tag_char (c : Ascii.ascii) : bool :=
  char_in 97 122 c || char_in 48 57 c || char_in 95 95 c || is_dash c.

Definition to_lower (c : Ascii.ascii) : Ascii.ascii :=
  if char_in 65 90 c then Ascii.ascii_of_nat (Ascii.nat_of_ascii c + 32) else c.

Definition dash : Ascii.ascii := Ascii.ascii_of_nat 45.

(** Dropping the leading characters of a class. *)
Fixpoint drop_leading (p : Ascii.ascii → bool) (l : list Ascii.ascii) : list Ascii.ascii :=
  match l with
  | c :: l' => if p c then drop_leading p l' else l
  | [] => []
  end.

Definition strip (p : Ascii.ascii → bool) (l : list Ascii.ascii) : list Ascii.ascii :=
  reverse (drop_leading p (reverse (drop_leading p l))).

(** [.replace(/[^a-z0-9_-]+/g, "-")]: each maximal run becomes one dash. *)
Fixpoint replace_runs (in_run : bool) (l : list Ascii.ascii) : list Ascii.ascii :=
  match l with
  | [] => []
  | c :: l =>
      if tag_char c then c :: replace_runs false l
      else if in_run then replace_runs true l else dash :: replace_runs true l
  end.

Definition tagName (role : string) : string :=
  let trimmed := strip is_space (String.list_ascii_of_string role) in
  let normalized := strip is_dash (replace_runs false (map to_lower trimmed)) in
  match normalized with
  | [] => "member"
  | _ => String.string_of_list_ascii normalized
  end.

(** *** Bodies *)

Definition block_text (b : ContentBlock) : option string :=
  match b with TextBlock t => Some t | OtherBlock _ => None end.

Definition messageBody (message : AssistantMessage) : string :=
  join (nl +:+ nl) (omap block_text (am_content message)).

Definition toolResultBody (message : ToolResultMessage) : string :=
  join nl (map (λ b, match b with TextBlock t => t | OtherBlock json => json end)
             (trm_content message)).

(** *** Derivation *)

(** One event of the walk: the calls waiting for their result, and the units. *)
Definition derive_step (s : gmap string (Z * Z) * list BroadcastUnit) (e : SessionEvent)
    : gmap string (Z * Z) * list BroadcastUnit :=
  let '(calls, units) := s in
  match ev_data e with
  | AssistantEvent m =>
      if bool_decide (messageBody m = "") then s
      else (calls, units ++ [mkUnit kind_message (am_id m) (ev_time e) (ev_seq e)])
  | ToolCallEvent callId _ _ => (<[callId := (ev_time e, ev_seq e)]> calls, units)
  | ToolResultEvent m =>
      match calls !! trm_toolCallId m with
      | None => s
      | Some (time, seq) =>
          (delete (trm_toolCallId m) calls,
           units ++ [mkUnit kind_tool (trm_toolCallId m) time seq])
      end
  | UserEvent _ | OtherEvent _ => s
  end.

Definition derive_all (events : list SessionEvent) : gmap string (Z * Z) * list BroadcastUnit :=
  fold_left derive_step events (∅, []).

Definition deriveUnits (events : list SessionEvent) : list BroadcastUnit := (derive_all events).2.

(** The anchor a logged event consumes, if any. *)
Definition consumed_anchor (e : SessionEvent) : option string :=
  match ev_data e with
  | UserEvent (TeamBroadcast s) => Some (bs_messageId s)
  | _ => None
  end.

Definition consumedAnchors (events : list SessionEvent) : gset string :=
  list_to_set (omap consumed_anchor events).

Definition compareUnits (a b : BroadcastUnit) : Z :=
  if u_time a - u_time b =? 0 then u_seq a - u_seq b else u_time a - u_time b.

(** *** Rendering *)

Definition findAssistantMessage (events : list SessionEvent) (anchor : string) : option AssistantMessage :=
  head (omap (λ e, match ev_data e with
                   | AssistantEvent m => if bool_decide (am_id m = anchor) then Some m else None
                   | _ => None
                   end) events).

Definition findToolCall (events : list SessionEvent) (anchor : string) : option (string * string) :=
  head (omap (λ e, match ev_data e with
                   | ToolCallEvent callId name arguments =>
                       if bool_decide (callId = anchor) then Some (name, arguments) else None
                   | _ => None
                   end) events).

Definition findToolResult (events : list SessionEvent) (anchor : string) : option ToolResultMessage :=
  head (omap (λ e, match ev_data e with
                   | ToolResultEvent m => if bool_decide (trm_toolCallId m = anchor) then Some m else None
                   | _ => None
                   end) events).

(** One tag pair around a body. *)
Definition tag_pair (tag body : string) : string :=
  "<" +:+ tag +:+ ">" +:+ nl +:+ body +:+ nl +:+ "</" +:+ tag +:+ ">".

(** [None] is the error on an anchor the log does not hold. *)
Definition renderBroadcast (role : string) (unit : BroadcastUnit) (senderEvents : list SessionEvent)
    (context : option string) : option string :=
  let tag := tagName role in
  match u_kind unit with
  | kind_message =>
      message ← findAssistantMessage senderEvents (u_anchor unit);
      Some (tag_pair (tag +:+ "-message") (messageBody message))
  | kind_tool =>
      call ← findToolCall senderEvents (u_anchor unit);
      result ← findToolResult senderEvents (u_anchor unit);
      let lines := match context with None => [] | Some c => ["context: " +:+ c] end ++
        ["tool: " +:+ call.1; "args: " +:+ call.2; "result: " +:+ toolResultBody result] in
      Some (tag_pair (tag +:+ "-tool-call") (join nl lines))
  end.

Definition buildBroadcastMessage (role : string) (unit : BroadcastUnit) (senderSessionId : string)
    (senderEvents : list SessionEvent) (context : option string) : option UserMessage :=
  text ← renderBroadcast role unit senderEvents context;
  Some (mkUserMessage text
    (TeamBroadcast (mkBroadcastSource role senderSessionId (u_anchor unit) context))).

(** *** The team section *)

Record TeamSectionMember : Type := mkSectionMember { sm_role : string; sm_summary : string }.

Definition renderTeamSection (goal : string) (members : list TeamSectionMember) : string :=
  let roster := join nl (map (λ m, "- [" +:+ sm_role m +:+ "] " +:+ sm_summary m) members) in
  join nl [
    "## 团队";
    "";
    "你所在的团队目标：" +:+ goal;
    "";
    "团队成员：";
    roster;
    "";
    "其他成员的输出会以群聊广播消息发送给你，正文由标签对包裹、原样呈现（不截断、不摘要、不含思考）：";
    "- 发言：`<角色-message>…</角色-message>` 之间为发言原文；";
    "- 工具调用：`<角色-tool-call>…</角色-tool-call>` 之间依次为 `tool:`、`args:`、`result:`（工具名、完整参数原文、完整结果原文）；广播方提供上下文时 `context: 局 id` 行位于 `tool:` 之前。";
    "- 这些标签格式只用于系统向你呈现他人的输出：你自己的输出不需要、也不应该使用 `<角色-message>`/`<角色-tool-call>` 等标签自我包装（正文直接输出，工具调用按工具协议发起）。";
    "消息正文中的 @角色 是发送者的表达：广播面向全体成员，系统不按 @ 定向投递。"].

(** ** Role tags: lemmas *)

Section Strip.
Context (p : Ascii.ascii → bool).

Lemma drop_leading_head l c l' : drop_leading p l = c :: l' → p c = false.
Proof. induction l as [|d l IH]; simpl; [done|]. destruct (p d) eqn:E; [done|]. by intros [= <- _]. Qed.

Lemma drop_leading_suffix l : ∃ k, l = k ++ drop_leading p l.
Proof.
  induction l as [|c l [k IH]]; simpl; [by exists []|]. destruct (p c); [|by exists []].
  exists (c :: k). simpl. by f_equal.
Qed.

Lemma drop_leading_id c l : p c = false → drop_leading p (c :: l) = c :: l.
Proof. simpl. by intros ->. Qed.

Lemma strip_sub l c : c ∈ strip p l → c ∈ l.
Proof.
  unfold strip. rewrite elem_of_reverse. intros Hc.
  destruct (drop_leading_suffix (reverse (drop_leading p l))) as [k1 E1].
  destruct (drop_leading_suffix l) as [k2 E2].
  rewrite E2. apply elem_of_app. right. apply elem_of_reverse. rewrite E1. apply elem_of_app. by right.
Qed.

(** The ends of a stripped list are outside the class. *)
Lemma strip_last l c : last (strip p l) = Some c → p c = false.
Proof.
  unfold strip. rewrite last_reverse. destruct (drop_leading p (reverse _)) as [|d l'] eqn:E; [done|].
  intros [= ->]. by eapply drop_leading_head.
Qed.

Lemma strip_head l c : head (strip p l) = Some c → p c = false.
Proof.
  unfold strip. destruct (drop_leading_suffix (reverse (drop_leading p l))) as [k E].
  destruct (drop_leading p (reverse (drop_leading p l))) as [|d l'] eqn:E2; [done|].
  rewrite head_reverse. intros Hl.
  assert (head (drop_leading p l) = Some c) as Hh.
  { rewrite <- last_reverse, E. by rewrite last_app, Hl. }
  destruct (drop_leading p l) as [|d' l''] eqn:E3; [done|]. injection Hh as ->.
  by eapply drop_leading_head.
Qed.

Lemma strip_id l :
  (∀ c, head l = Some c → p c = false) → (∀ c, last l = Some c → p c = false) → strip p l = l.
Proof.
  intros Hh Hl. unfold strip. destruct l as [|c l]; [done|].
  rewrite (drop_leading_id c l) by auto.
  destruct (reverse (c :: l)) as [|d l'] eqn:E; [by apply (f_equal reverse) in E; rewrite reverse_involutive in E|].
  assert (p d = false) as Hd by (apply Hl; rewrite <- head_reverse, E; done).
  rewrite drop_leading_id, <- E by done. apply reverse_involutive.
Qed.
End Strip.

Lemma replace_runs_chars b l : Forall (λ c, tag_char c = true) (replace_runs b l).
Proof.
  revert b. induction l as [|c l IH]; intros b; simpl; [constructor|].
  destruct (tag_char c) eqn:E; [by constructor|]. destruct b; [done|]. by constructor.
Qed.

Lemma replace_runs_id b l : Forall (λ c, tag_char c = true) l → replace_runs b l = l.
Proof. intros Hl. revert b. induction Hl as [|c l Hc _ IH]; intros b; simpl; [done|]. by rewrite Hc, IH. Qed.

Lemma tag_char_lower c : tag_char c = true → to_lower c = c ∧ is_space c = false.
Proof.
  unfold tag_char, to_lower, is_space, is_dash, char_in. intros Hc.
  repeat (rewrite orb_true_iff in Hc || rewrite andb_true_iff in Hc || rewrite Z.leb_le in Hc).
  split.
  - destruct (_ && _) eqn:E; [|done]. apply andb_true_iff in E. rewrite !Z.leb_le in E. lia.
  - apply orb_false_iff. rewrite !andb_false_iff, !Z.leb_gt. lia.
Qed.

Definition tag_word (s : list Ascii.ascii) : Prop :=
  s ≠ [] ∧ Forall (λ c, tag_char c = true) s ∧
  (∀ c, head s = Some c → is_dash c = false) ∧ (∀ c, last s = Some c → is_dash c = false).

Lemma tag_word_chars s c : tag_word s → c ∈ s → to_lower c = c ∧ is_space c = false.
Proof.
  intros (_ & Hc & _) Hin. apply tag_char_lower. rewrite Forall_forall in Hc. by apply Hc.
Qed.

Lemma elem_of_head_last {A} (l : list A) c : head l = Some c ∨ last l = Some c → c ∈ l.
Proof.
  intros [E|E]; [destruct l; [done|]; injection E as ->; by constructor|].
  rewrite last_lookup in E. by eapply list_elem_of_lookup_2.
Qed.

Lemma tagName_fixed s :
  tag_word s → tagName (String.string_of_list_ascii s) = String.string_of_list_ascii s.
Proof.
  intros Hw. unfold tagName. rewrite String.list_ascii_of_string_of_list_ascii.
  rewrite (strip_id is_space s) by (intros c E; apply (tag_word_chars s c Hw), elem_of_head_last; auto).
  assert (map to_lower s = s) as ->.
  { rewrite <- (list_fmap_id s) at 2. apply list_fmap_ext. intros i c E.
    apply (tag_word_chars s c Hw). by eapply list_elem_of_lookup_2. }
  destruct Hw as (Hne & Hc & Hh & Hl). rewrite replace_runs_id by done.
  rewrite strip_id by done. by destruct s.
Qed.

Lemma tagName_word role : tag_word (String.list_ascii_of_string (tagName role)).
Proof.
  unfold tagName. set (r := replace_runs false _).
  assert (Forall (λ c, tag_char c = true) (strip is_dash r)) as Hc.
  { apply Forall_forall. intros c Hin. apply strip_sub in Hin. revert c Hin.
    apply Forall_forall, replace_runs_chars. }
  pose proof (strip_head is_dash r) as Hh. pose proof (strip_last is_dash r) as Hl.
  destruct (strip is_dash r) as [|c l] eqn:E.
  - repeat split; [done|by repeat constructor|..]; by intros c [= <-].
  - rewrite String.list_ascii_of_string_of_list_ascii. by repeat split.
Qed.

(** A role tag is a token: whatever the role, it is a non-empty word of
    lower-case letters, digits, underscores and dashes that neither begins nor
    ends with a dash, and it is its own tag. *)
Theorem tagName_token role :
  let s := String.list_ascii_of_string (tagName role) in
  s ≠ [] ∧ Forall (λ c, tag_char c = true) s ∧
  (∀ c, head s = Some c → is_dash c = false) ∧ (∀ c, last s = Some c → is_dash c = false) ∧
  tagName (tagName role) = tagName role.
Proof.
  intros s. pose proof (tagName_word role) as Hw. destruct Hw as (? & ? & ? & ?) eqn:E. clear E.
  split_and!; [done..|]. rewrite <- (String.string_of_list_ascii_of_string (tagName role)) at 1.
  rewrite tagName_fixed by apply tagName_word. apply String.string_of_list_ascii_of_string.
Qed.

(** ** Derivation: lemmas *)

Lemma derive_all_snoc es e : derive_all (es ++ [e]) = derive_step (derive_all es) e.
Proof. unfold derive_all. by rewrite fold_left_app. Qed.

(** The specification.  A call is open when it is the latest event of its id and
    no result has answered it; [rev_log] is the log from its latest event. *)
Fixpoint open_call (rev_log : list SessionEvent) (id : string) : option (Z * Z) :=
  match rev_log with
  | [] => None
  | e :: rev_log =>
      match ev_data e with
      | ToolCallEvent callId _ _ =>
          if bool_decide (callId = id) then Some (ev_time e, ev_seq e) else open_call rev_log id
      | ToolResultEvent m =>
          if bool_decide (trm_toolCallId m = id) then None else open_call rev_log id
      | _ => open_call rev_log id
      end
  end.

(** The unit an event completes, given what was logged before it. *)
Definition unit_of (before : list SessionEvent) (e : SessionEvent) : option BroadcastUnit :=
  match ev_data e with
  | AssistantEvent m =>
      if bool_decide (messageBody m = "") then None
      else Some (mkUnit kind_message (am_id m) (ev_time e) (ev_seq e))
  | ToolResultEvent m =>
      '(time, seq) ← open_call (reverse before) (trm_toolCallId m);
      Some (mkUnit kind_tool (trm_toolCallId m) time seq)
  | _ => None
  end.

Lemma derive_calls es id : (derive_all es).1 !! id = open_call (reverse es) id.
Proof.
  induction es as [|e es IH] using rev_ind; [done|].
  rewrite derive_all_snoc, reverse_snoc. destruct (derive_all es) as [calls units]. simpl in *.
  unfold derive_step. destruct (ev_data e) as [m|c n a|m|src|ty]; simpl; [|..]; try done.
  - by case_bool_decide.
  - case_bool_decide as Hc; subst; [by rewrite lookup_insert_eq|by rewrite lookup_insert_ne].
  - destruct (calls !! trm_toolCallId m) as [[t q]|] eqn:E; simpl; case_bool_decide as Hc; subst.
    + by rewrite lookup_delete_eq.
    + by rewrite lookup_delete_ne.
    + done.
    + done.
Qed.

Lemma deriveUnits_snoc es e :
  deriveUnits (es ++ [e]) = deriveUnits es ++ option_list (unit_of es e).
Proof.
  unfold deriveUnits, unit_of. rewrite derive_all_snoc.
  destruct (derive_all es) as [calls units] eqn:E. simpl.
  assert (∀ id, calls !! id = open_call (reverse es) id) as Hc
    by (intros id; rewrite <- derive_calls; by rewrite E).
  destruct (ev_data e); simpl; rewrite ?app_nil_r; try done.
  - case_bool_decide; simpl; by rewrite ?app_nil_r.
  - rewrite <- Hc. destruct (calls !! _) as [[t q]|]; simpl; by rewrite ?app_nil_r.
Qed.

Definition unit_at (es : list SessionEvent) (i : nat) : option BroadcastUnit :=
  e ← es !! i; unit_of (take i es) e.

(** The one-pass derivation is the declarative one: going through the log,
    an event contributes a unit exactly when it is a speech with text, or a
    result whose id has a call not yet answered (the latest such call gives the
    unit its place); nothing else contributes. *)
Theorem deriveUnits_spec es : deriveUnits es = omap (unit_at es) (seq 0 (length es)).
Proof.
  induction es as [|e es IH] using rev_ind; [done|].
  rewrite deriveUnits_snoc, IH, length_app, seq_app, omap_app. simpl. f_equal.
  - apply list_omap_ext, Forall_Forall2_diag, Forall_seq. intros i Hi. unfold unit_at.
    by rewrite lookup_app_l, take_app_le by lia.
  - unfold unit_at. rewrite lookup_app_r, Nat.sub_diag, take_app_length by lia. simpl.
    by destruct (unit_of es e).
Qed.

Lemma elem_of_deriveUnits es u :
  u ∈ deriveUnits es ↔ ∃ before e after, es = before ++ e :: after ∧ unit_of before e = Some u.
Proof.
  induction es as [|e es IH] using rev_ind.
  - split; [by intros ?%elem_of_nil|]. intros (b & e & a & E & _). by destruct b.
  - rewrite deriveUnits_snoc, elem_of_app, IH. split.
    + intros [(b & e' & a & -> & Hu)|Hu].
      * exists b, e', (a ++ [e]). by rewrite <- app_assoc.
      * exists es, e, []. split; [done|]. destruct (unit_of es e); [|by apply elem_of_nil in Hu].
        by apply list_elem_of_singleton in Hu as ->.
    + intros (b & e' & a & E & Hu). destruct a as [|x a] using rev_ind.
      * apply app_inj_tail in E as [-> ->]. right. rewrite Hu. by constructor.
      * left. rewrite app_comm_cons, app_assoc in E. apply app_inj_tail in E as [-> _]. eauto.
Qed.

Lemma open_call_elem rev_log id t q :
  open_call rev_log id = Some (t, q) →
  ∃ e name arguments, e ∈ rev_log ∧ ev_data e = ToolCallEvent id name arguments ∧
    ev_time e = t ∧ ev_seq e = q.
Proof.
  induction rev_log as [|e l IH]; simpl; [done|].
  assert (open_call l id = Some (t, q) → ∃ e' name arguments, e' ∈ e :: l ∧
    ev_data e' = ToolCallEvent id name arguments ∧ ev_time e' = t ∧ ev_seq e' = q) as Hrec.
  { intros (e' & n & a & ? & ?)%IH. exists e', n, a. split; [by constructor|done]. }
  destruct (ev_data e) eqn:E; try done; case_bool_decide; subst; try done.
  intros [= <- <-]. eexists _, _, _. split; [by constructor|done].
Qed.

(** Reading a unit back. *)
Lemma head_omap_unique {B K} (f : SessionEvent → option B) (key : SessionEvent → option K) k es e m :
  (∀ e' m', f e' = Some m' → key e' = Some k) → NoDup (omap key es) →
  e ∈ es → f e = Some m → head (omap f es) = Some m.
Proof.
  intros Hk. induction es as [|e0 es IH]; [by intros _ ?%elem_of_nil|].
  simpl. intros Hnd Hin Hf. destruct (f e0) as [m0|] eqn:E0; simpl.
  - apply elem_of_cons in Hin as [->|Hin]; [congruence|]. exfalso.
    rewrite (Hk _ _ E0) in Hnd. apply NoDup_cons in Hnd as [Hn _]. apply Hn.
    apply list_elem_of_omap. exists e. by eauto.
  - apply elem_of_cons in Hin as [->|Hin]; [congruence|]. apply IH; [|done|done].
    destruct (key e0); [by apply NoDup_cons in Hnd as [_ ?]|done].
Qed.

Lemma head_omap_some {B} (f : SessionEvent → option B) es e :
  e ∈ es → is_Some (f e) → is_Some (head (omap f es)).
Proof.
  intros Hin [m Hf]. destruct (omap f es) as [|b l] eqn:E; [|by eexists].
  assert (m ∈ omap f es) as Hm by (apply list_elem_of_omap; eauto). rewrite E in Hm.
  by apply elem_of_nil in Hm.
Qed.

(** Any unit derived from a log renders from it. *)
Lemma derived_unit_some role es ctx u :
  u ∈ deriveUnits es → is_Some (renderBroadcast role u es ctx).
Proof.
  intros (b & e & a & -> & Hu)%elem_of_deriveUnits. unfold unit_of in Hu. unfold renderBroadcast.
  assert (∀ x, x ∈ reverse b → x ∈ b ++ e :: a) as Hb
    by (intros x; rewrite elem_of_reverse, elem_of_app; by left).
  assert (e ∈ b ++ e :: a) as He by (apply elem_of_app; right; by constructor).
  destruct (ev_data e) as [m|c n g|m|src|ty] eqn:E; try done.
  - case_bool_decide; [done|]. injection Hu as <-. simpl.
    destruct (head_omap_some (λ e, match ev_data e with
      | AssistantEvent m' => if bool_decide (am_id m' = am_id m) then Some m' else None
      | _ => None end) _ e He) as [m' Hm']; [rewrite E; rewrite bool_decide_true by done; eauto|].
    unfold findAssistantMessage. rewrite Hm'. simpl. eauto.
  - destruct (open_call (reverse b) (trm_toolCallId m)) as [[t q]|] eqn:Eo; [|done].
    simpl in Hu. injection Hu as <-. simpl.
    destruct (open_call_elem _ _ _ _ Eo) as (c & n & g & Hc & Ec & _).
    destruct (head_omap_some (λ e, match ev_data e with
      | ToolCallEvent callId name arguments =>
          if bool_decide (callId = trm_toolCallId m) then Some (name, arguments) else None
      | _ => None end) _ c (Hb c Hc)) as [ca Hca]; [rewrite Ec, bool_decide_true by done; eauto|].
    destruct (head_omap_some (λ e, match ev_data e with
      | ToolResultEvent m' =>
          if bool_decide (trm_toolCallId m' = trm_toolCallId m) then Some m' else None
      | _ => None end) _ e He) as [r Hr]; [rewrite E, bool_decide_true by done; eauto|].
    unfold findToolCall, findToolResult. rewrite Hca. simpl. rewrite Hr. simpl. eauto.
Qed.

(** The identities of a log, per kind of event. *)
Definition speech_id (e : SessionEvent) : option string :=
  match ev_data e with AssistantEvent m => Some (am_id m) | _ => None end.
Definition call_id (e : SessionEvent) : option string :=
  match ev_data e with ToolCallEvent callId _ _ => Some callId | _ => None end.
Definition result_id (e : SessionEvent) : option string :=
  match ev_data e with ToolResultEvent m => Some (trm_toolCallId m) | _ => None end.

(** Identities are used once per kind in the log. *)
Definition distinct_ids (es : list SessionEvent) : Prop :=
  NoDup (omap speech_id es) ∧ NoDup (omap call_id es) ∧ NoDup (omap result_id es).

#[global] Instance distinct_ids_dec es : Decision (distinct_ids es).
Proof. apply _. Defined.

Lemma findAssistantMessage_unique es e m :
  NoDup (omap speech_id es) → e ∈ es → ev_data e = AssistantEvent m →
  findAssistantMessage es (am_id m) = Some m.
Proof.
  intros Hnd Hin E. apply (head_omap_unique _ speech_id (am_id m) es e); [|done|done|].
  - intros e' m'. simpl. unfold speech_id. destruct (ev_data e'); try done. case_bool_decide; [intros _; by f_equal|done].
  - by rewrite E, bool_decide_true.
Qed.

Lemma findToolCall_unique es e id name arguments :
  NoDup (omap call_id es) → e ∈ es → ev_data e = ToolCallEvent id name arguments →
  findToolCall es id = Some (name, arguments).
Proof.
  intros Hnd Hin E. apply (head_omap_unique _ call_id id es e); [|done|done|].
  - intros e' m'. simpl. unfold call_id. destruct (ev_data e'); try done. case_bool_decide; [intros _; by f_equal|done].
  - by rewrite E, bool_decide_true.
Qed.

Lemma findToolResult_unique es e m :
  NoDup (omap result_id es) → e ∈ es → ev_data e = ToolResultEvent m →
  findToolResult es (trm_toolCallId m) = Some m.
Proof.
  intros Hnd Hin E. apply (head_omap_unique _ result_id (trm_toolCallId m) es e); [|done|done|].
  - intros e' m'. simpl. unfold result_id. destruct (ev_data e'); try done. case_bool_decide; [intros _; by f_equal|done].
  - by rewrite E, bool_decide_true.
Qed.

(** Distinct identities yield distinct units. *)
Lemma derived_kind_anchor es u :
  u ∈ deriveUnits es →
  match u_kind u with
  | kind_message => u_anchor u ∈ omap speech_id es
  | kind_tool => u_anchor u ∈ omap result_id es
  end.
Proof.
  intros (b & e & a & -> & Hu)%elem_of_deriveUnits. unfold unit_of in Hu.
  assert (e ∈ b ++ e :: a) as He by (apply elem_of_app; right; by constructor).
  destruct (ev_data e) as [m|c n g|m|src|ty] eqn:E; try done.
  - case_bool_decide; [done|]. injection Hu as <-. simpl. apply list_elem_of_omap. exists e.
    split; [done|]. unfold speech_id. by rewrite E.
  - destruct (open_call _ _) as [[t q]|]; [|done]. injection Hu as <-. simpl.
    apply list_elem_of_omap. exists e. split; [done|]. unfold result_id. by rewrite E.
Qed.

Lemma deriveUnits_nodup es : distinct_ids es → NoDup (deriveUnits es).
Proof.
  induction es as [|e es IH] using rev_ind; [constructor|].
  intros (Hs & Hc & Hr). rewrite omap_app, NoDup_app in Hs, Hc, Hr.
  destruct Hs as (Hs & Hs' & _), Hc as (Hc & _ & _), Hr as (Hr & Hr' & _).
  rewrite deriveUnits_snoc. apply NoDup_app. split_and!; [by apply IH|..].
  - intros u Hu Hn. apply derived_kind_anchor in Hu.
    destruct (unit_of es e) as [u'|] eqn:E; [|by apply elem_of_nil in Hn].
    apply list_elem_of_singleton in Hn as ->. unfold unit_of in E.
    destruct (ev_data e) as [m|c n g|m|src|ty] eqn:Ee; try done.
    + case_bool_decide; [done|]. injection E as <-. simpl in Hu. apply (Hs' _ Hu).
      simpl. unfold speech_id. rewrite Ee. by constructor.
    + destruct (open_call _ _) as [[t q]|]; [|done]. injection E as <-. simpl in Hu. apply (Hr' _ Hu).
      simpl. unfold result_id. rewrite Ee. by constructor.
  - destruct (unit_of es e); [apply NoDup_singleton|constructor].
Qed.

(** The lines of a tool unit. *)
Definition tool_lines (context : option string) (name arguments result : string) : string :=
  join nl (match context with None => [] | Some c => ["context: " +:+ c] end ++
           ["tool: " +:+ name; "args: " +:+ arguments; "result: " +:+ result]).

(** A unit reads back verbatim.  In a log whose identities are not reused,
    every derived unit renders the very production it stands for: a speech its
    text, a tool unit the name and arguments of the call whose place it takes and
    the result that answered it. *)
Theorem derived_unit_verbatim role es ctx u (Hd : distinct_ids es) (Hu : u ∈ deriveUnits es) :
  match u_kind u with
  | kind_message =>
      ∃ e m, e ∈ es ∧ ev_data e = AssistantEvent m ∧
        u = mkUnit kind_message (am_id m) (ev_time e) (ev_seq e) ∧ messageBody m ≠ "" ∧
        renderBroadcast role u es ctx = Some (tag_pair (tagName role +:+ "-message") (messageBody m))
  | kind_tool =>
      ∃ c id name arguments r m, c ∈ es ∧ ev_data c = ToolCallEvent id name arguments ∧
        r ∈ es ∧ ev_data r = ToolResultEvent m ∧ trm_toolCallId m = id ∧
        u = mkUnit kind_tool id (ev_time c) (ev_seq c) ∧
        renderBroadcast role u es ctx =
          Some (tag_pair (tagName role +:+ "-tool-call")
                  (tool_lines ctx name arguments (toolResultBody m)))
  end.
Proof.
  destruct Hd as (Hs & Hc & Hr). apply elem_of_deriveUnits in Hu as (b & e & a & Ees & Hu).
  assert (e ∈ es) as He by (rewrite Ees; apply elem_of_app; right; by constructor).
  unfold unit_of in Hu. destruct (ev_data e) as [m|c n g|m|src|ty] eqn:E; try done.
  - case_bool_decide as Hb; [done|]. injection Hu as <-. simpl. exists e, m. split_and!; [done..|].
    unfold renderBroadcast. simpl. by rewrite (findAssistantMessage_unique es e m).
  - destruct (open_call _ _) as [[t q]|] eqn:Eo; [|done]. injection Hu as <-. simpl.
    destruct (open_call_elem _ _ _ _ Eo) as (c & n & g & Hin & Ec & <- & <-).
    assert (c ∈ es) as Hces by (rewrite elem_of_reverse in Hin; rewrite Ees; apply elem_of_app; by left).
    exists c, (trm_toolCallId m), n, g, e, m. split_and!; [done..|].
    unfold renderBroadcast. simpl.
    by rewrite (findToolCall_unique es c _ n g), (findToolResult_unique es e m).
Qed.

(** ** Witnesses *)

(** A speech, a call, an empty assistant message, and the result of the call. *)
Definition sample_log : list SessionEvent :=
  [mkEvent (AssistantEvent (mkAssistant "m1" [TextBlock "left corner"; OtherBlock "{}"])) 10 1;
   mkEvent (ToolCallEvent "c1" "saolei_operate" "{op}") 11 2;
   mkEvent (AssistantEvent (mkAssistant "m2" [OtherBlock "{}"])) 11 3;
   mkEvent (ToolResultEvent (mkToolResult "c1" [TextBlock "ok"])) 15 4].

Definition sample_unit : BroadcastUnit := mkUnit kind_tool "c1" 11 2.

Example sample_units : deriveUnits sample_log = [mkUnit kind_message "m1" 10 1; sample_unit].
Proof. by vm_compute. Qed.

Example sample_tags : (tagName " Player One! ", tagName "--") = ("player-one", "member").
Proof. by vm_compute. Qed.

Lemma derived_unit_verbatim_witness :
  distinct_ids sample_log ∧ sample_unit ∈ deriveUnits sample_log ∧
  ∃ c id name arguments r m, c ∈ sample_log ∧ ev_data c = ToolCallEvent id name arguments ∧
    r ∈ sample_log ∧ ev_data r = ToolResultEvent m ∧ trm_toolCallId m = id ∧
    sample_unit = mkUnit kind_tool id (ev_time c) (ev_seq c) ∧
    renderBroadcast "player" sample_unit sample_log None =
      Some (tag_pair (tagName "player" +:+ "-tool-call")
              (tool_lines None name arguments (toolResultBody m))).
Proof.
  assert (distinct_ids sample_log) as Hd by (by apply (bool_decide_unpack _); vm_compute).
  assert (sample_unit ∈ deriveUnits sample_log) as Hu
    by (rewrite sample_units; right; left).
  split; [exact Hd|]. split; [exact Hu|].
  exact (derived_unit_verbatim "player" sample_log None sample_unit Hd Hu).
Defined.
