(* ===== verification/Team.v ===== *)
(** * The team service

    [common/js/dsh-plugins/team/src/team.ts], the class [Team]: registration of
    members, relay of their productions, the unified event stream and [drain].

    A [TeamState] is shared by every entry of [byMember] and by the handles, so it
    lives in a store under a reference; a [MemberState] carries its own reference,
    which the callbacks captured by its subscriptions compare with the state found
    in the map.  A JavaScript [Map] is an association list in insertion order.  The
    logs of the members belong to the world: the code reads them through live
    getters, and every operation that reads one takes them as an argument.  What
    the member faces do with a delivered message, a section text or a stream event
    is theirs: those calls are effects or entries of a registry. *)

From stdpp Require Import sorting.
From S2P Require Import Prelude Broadcast.

(** ** Data *)

(** Which optional faces the source implements; [src_consumes] is
    [consumes !== false]. *)
Record TeamMemberSource : Type := mkSource {
  src_id : string;
  src_subscribe : bool;
  src_live : bool;
  src_deliverInFlight : bool;
  src_sectionTarget : bool;
  src_consumes : bool;
}.

Record TeamMemberRegistration : Type := mkRegistration {
  reg_source : TeamMemberSource;
  reg_role : string;
  reg_summary : string;
}.

Record TeamRegistration : Type := mkTeamRegistration {
  tr_goal : string;
  tr_members : list TeamMemberRegistration;
  tr_context : option string;
}.

Record PendingUnit : Type := mkPendingUnit {
  pu_unit : BroadcastUnit;
  pu_senderSessionId : string;
  pu_senderRole : string;
}.

Record MemberState : Type := mkMember {
  ms_ref : nat;
  registration : TeamMemberRegistration;
  sectionText : string;
  pending : list PendingUnit;
  drained : gset string;
  pendingCalls : gmap string (Z * Z);
}.

Definition ms_source (m : MemberState) : TeamMemberSource := reg_source (registration m).
Definition ms_id (m : MemberState) : string := src_id (ms_source m).
Definition ms_role (m : MemberState) : string := reg_role (registration m).

Record TeamState : Type := mkTeamState {
  goal : string;
  context : option string;
  members : list (string * MemberState);
  consumers : list nat;
}.

(** The service and what it registered with the outside: the subscriptions to the
    sources' logs and live faces, and the section texts, all by member state. *)
Record Team : Type := mkTeam {
  byMember : gmap string nat;
  teams : gmap nat TeamState;
  next_ref : nat;
  log_subs : list (string * nat);
  live_subs : list (string * nat);
  sections : gmap nat string;
}.

Definition new_team : Team := mkTeam ∅ ∅ 0 [] [] ∅.

(** *** Maps in insertion order *)

Fixpoint map_get {V} (l : list (string * V)) (k : string) : option V :=
  match l with
  | [] => None
  | (k', v) :: l => if bool_decide (k' = k) then Some v else map_get l k
  end.

Fixpoint map_set {V} (l : list (string * V)) (k : string) (v : V) : list (string * V) :=
  match l with
  | [] => [(k, v)]
  | (k', v') :: l => if bool_decide (k' = k) then (k', v) :: l else (k', v') :: map_set l k v
  end.

Definition map_delete {V} (l : list (string * V)) (k : string) : list (string * V) :=
  filter (λ kv, kv.1 ≠ k) l.

(** *** Field updates *)

Definition set_byMember (T : Team) b : Team :=
  mkTeam b (teams T) (next_ref T) (log_subs T) (live_subs T) (sections T).
Definition put_team (T : Team) (r : nat) (t : TeamState) : Team :=
  mkTeam (byMember T) (<[r := t]> (teams T)) (next_ref T) (log_subs T) (live_subs T) (sections T).
Definition set_sections (T : Team) s : Team :=
  mkTeam (byMember T) (teams T) (next_ref T) (log_subs T) (live_subs T) s.
Definition set_subs (T : Team) ls vs : Team :=
  mkTeam (byMember T) (teams T) (next_ref T) ls vs (sections T).
Definition new_ref (T : Team) : Team :=
  mkTeam (byMember T) (teams T) (S (next_ref T)) (log_subs T) (live_subs T) (sections T).

Definition set_members (t : TeamState) ms : TeamState :=
  mkTeamState (goal t) (context t) ms (consumers t).
Definition set_consumers (t : TeamState) cs : TeamState :=
  mkTeamState (goal t) (context t) (members t) cs.

Definition set_queue (m : MemberState) ps dr : MemberState :=
  mkMember (ms_ref m) (registration m) (sectionText m) ps dr (pendingCalls m).
Definition set_calls (m : MemberState) cs : MemberState :=
  mkMember (ms_ref m) (registration m) (sectionText m) (pending m) (drained m) cs.
Definition set_registration (m : MemberState) reg text : MemberState :=
  mkMember (ms_ref m) reg text (pending m) (drained m) (pendingCalls m).

(** [this.byMember.get(id)], dereferenced. *)
Definition get_team (T : Team) (id : string) : option (nat * TeamState) :=
  r ← byMember T !! id; t ← teams T !! r; Some (r, t).

(** ** Derived pending lists *)

Section Logs.
Context (logs : string → list SessionEvent).

Definition compare_pending (a b : PendingUnit) : Z := compareUnits (pu_unit a) (pu_unit b).

(** [Array.prototype.sort], which is stable. *)
Fixpoint insert_pending (p : PendingUnit) (l : list PendingUnit) : list PendingUnit :=
  match l with
  | [] => [p]
  | q :: l' => if compare_pending p q <=? 0 then p :: l else q :: insert_pending p l'
  end.
Definition sort_pending (l : list PendingUnit) : list PendingUnit := foldr insert_pending [] l.

Definition tag_unit (sender : MemberState) (u : BroadcastUnit) : PendingUnit :=
  mkPendingUnit u (ms_id sender) (ms_role sender).

(** The units of [sender] that [m] has neither consumed nor drained. *)
Definition units_for (consumed dr : gset string) (m sender : MemberState) : list PendingUnit :=
  if bool_decide (ms_ref sender = ms_ref m) then []
  else map (tag_unit sender)
         (filter (λ u, u_anchor u ∉ consumed ∧ u_anchor u ∉ dr) (deriveUnits (logs (ms_id sender)))).

Definition rebuild (t : TeamState) (m : MemberState) : MemberState :=
  let consumed := consumedAnchors (logs (ms_id m)) in
  let dr := drained m ∖ consumed in
  set_queue m (sort_pending (concat (map (λ s, units_for consumed dr m s.2) (members t)))) dr.

Definition reconcile (T : Team) (m : MemberState) : MemberState :=
  if src_consumes (ms_source m) then
    match get_team T (ms_id m) with
    | None => m
    | Some (_, t) => rebuild t m
    end
  else m.

(** [None] when the sender's log does not hold the unit. *)
Definition buildMessage (t : TeamState) (p : PendingUnit) : option UserMessage :=
  buildBroadcastMessage (pu_senderRole p) (pu_unit p) (pu_senderSessionId p)
    (match map_get (members t) (pu_senderSessionId p) with
     | Some sender => logs (ms_id sender)
     | None => []
     end) (context t).

(** ** Drain *)

Inductive DrainResult : Type :=
| Drained (messages : list UserMessage)
| NotRegistered
| AnnounceOnly
| BuildFailed.

(** The loop over the units: the anchors marked and the messages, up to the first
    build that throws. *)
Fixpoint drain_units (t : TeamState) (units : list PendingUnit) (dr : gset string)
    (messages : list UserMessage) : gset string * DrainResult :=
  match units with
  | [] => (dr, Drained messages)
  | p :: units =>
      match buildMessage t p with
      | None => (dr, BuildFailed)
      | Some message => drain_units t units (dr ∪ {[u_anchor (pu_unit p)]}) (messages ++ [message])
      end
  end.

Definition update_member (T : Team) (r : nat) (t : TeamState) (id : string) (m : MemberState) : Team :=
  put_team T r (set_members t (map_set (members t) id m)).

Definition drain (T : Team) (id : string) : Team * DrainResult :=
  match get_team T id with
  | None => (T, NotRegistered)
  | Some (r, t) =>
      match map_get (members t) id with
      | None => (T, NotRegistered)
      | Some state =>
          if src_consumes (ms_source state) then
            let state := reconcile T state in
            let '(dr, result) := drain_units t (pending state) (drained state) [] in
            (update_member T r t id (set_queue state [] dr), result)
          else (T, AnnounceOnly)
      end
  end.

End Logs.

(** ** Registration *)

Definition registerSection (T : Team) (ref : nat) (reg : TeamMemberRegistration) (text : string) : Team :=
  if src_sectionTarget (reg_source reg) then set_sections T (<[ref := text]> (sections T)) else T.

Definition createMember (T : Team) (reg : TeamMemberRegistration) (text : string) : Team * MemberState :=
  let ref := next_ref T in
  let src := reg_source reg in
  let T := registerSection (new_ref T) ref reg text in
  (set_subs T
     (if src_subscribe src then log_subs T ++ [(src_id src, ref)] else log_subs T)
     (if src_live src then live_subs T ++ [(src_id src, ref)] else live_subs T),
   mkMember ref reg text [] ∅ ∅).

(** [sectionOff()] removes the section the state registered. *)
Definition refreshMember (T : Team) (m : MemberState) (reg : TeamMemberRegistration) (text : string)
    : Team * MemberState :=
  if bool_decide (sectionText m = text) then (T, set_registration m reg (sectionText m))
  else (registerSection (set_sections T (delete (ms_ref m) (sections T))) (ms_ref m) reg text,
        set_registration m reg text).

(** Drop the subscriptions and the section of a member state. *)
Definition release (T : Team) (ref : nat) : Team :=
  set_subs (set_sections T (delete ref (sections T)))
    (filter (λ s, s.2 ≠ ref) (log_subs T)) (filter (λ s, s.2 ≠ ref) (live_subs T)).

Definition dropMember (T : Team) (id : string) : Team :=
  match byMember T !! id with
  | None => T
  | Some r =>
      let T := set_byMember T (delete id (byMember T)) in
      match teams T !! r with
      | None => T
      | Some t =>
          match map_get (members t) id with
          | None => T
          | Some state =>
              release (put_team T r (set_members t (map_delete (members t) id))) (ms_ref state)
          end
      end
  end.

Inductive RegisterResult : Type :=
| Registered (team : nat)
| NoMembers
| ListedTwice (id : string)
| MixedTeams.

(** The first id listed twice. *)
Fixpoint listed_twice (seen : gset string) (ids : list string) : option string :=
  match ids with
  | [] => None
  | id :: ids => if bool_decide (id ∈ seen) then Some id else listed_twice (seen ∪ {[id]}) ids
  end.

(** [None] is the error on members of different teams. *)
Fixpoint resolveTeam (T : Team) (ids : list string) (found : option nat) : option (option nat) :=
  match ids with
  | [] => Some found
  | id :: ids =>
      match byMember T !! id with
      | None => resolveTeam T ids found
      | Some r =>
          match found with
          | None => resolveTeam T ids (Some r)
          | Some f => if bool_decide (f = r) then resolveTeam T ids (Some r) else None
          end
      end
  end.

Definition ids_of (reg : TeamRegistration) : list string := map (src_id ∘ reg_source) (tr_members reg).

(** The body of the loop over [registration.members]. *)
Definition register_member (r : nat) (text : string) (T : Team) (reg : TeamMemberRegistration) : Team :=
  let id := src_id (reg_source reg) in
  match teams T !! r with
  | None => T
  | Some t =>
      let '(T, m) := match map_get (members t) id with
                     | None => createMember T reg text
                     | Some existing => refreshMember T existing reg text
                     end in
      let T := update_member T r t id m in
      set_byMember T (<[id := r]> (byMember T))
  end.

Definition drop_absent (T : Team) (r : nat) (ids : list string) : Team :=
  match teams T !! r with
  | None => T
  | Some t => fold_left dropMember (filter (λ id, id ∉ ids) (map fst (members t))) T
  end.

Definition reconcile_all (logs : string → list SessionEvent) (T : Team) (r : nat) : Team :=
  match teams T !! r with
  | None => T
  | Some t => put_team T r (set_members t (map (λ km, (km.1, reconcile logs T km.2)) (members t)))
  end.

(** The resolved team with its goal and context, a fresh one when there is none. *)
Definition open_team (T : Team) (found : option nat) (reg : TeamRegistration) : Team * nat :=
  let '(T, r, t) := match found ≫= (λ r, t ← teams T !! r; Some (r, t)) with
                    | Some (r, t) => (T, r, t)
                    | None => (new_ref T, next_ref T, mkTeamState "" None [] [])
                    end in
  (put_team T r (mkTeamState (tr_goal reg) (tr_context reg) (members t) (consumers t)), r).

Definition section_text (reg : TeamRegistration) : string :=
  renderTeamSection (tr_goal reg)
    (map (λ m, mkSectionMember (reg_role m) (reg_summary m)) (tr_members reg)).

Definition register (logs : string → list SessionEvent) (T : Team) (reg : TeamRegistration)
    : Team * RegisterResult :=
  match tr_members reg with
  | [] => (T, NoMembers)
  | _ =>
      match listed_twice ∅ (ids_of reg) with
      | Some id => (T, ListedTwice id)
      | None =>
          match resolveTeam T (ids_of reg) None with
          | None => (T, MixedTeams)
          | Some found =>
              let '(T, r) := open_team T found reg in
              let T := fold_left (register_member r (section_text reg)) (tr_members reg) T in
              let T := drop_absent T r (ids_of reg) in
              (reconcile_all logs T r, Registered r)
          end
      end
  end.

(** [TeamHandle.dispose]. *)
Definition disposeTeam (T : Team) (r : nat) : Team :=
  match teams T !! r with
  | None => T
  | Some t =>
      let T := fold_left dropMember (map fst (members t)) T in
      match teams T !! r with
      | None => T
      | Some t => put_team T r (set_consumers t [])
      end
  end.

(** ** Productions *)

Section Productions.
Context {Live : Type}.

Inductive TeamMemberEvent : Type :=
| LogEvent (role memberId : string) (event : SessionEvent)
| LiveEvent (role memberId : string) (event : Live).

Inductive TeamEffect : Type :=
| Notified (consumer : nat) (event : TeamMemberEvent)
| DeliveredInFlight (member : string) (message : UserMessage).

(** [streamOf(team).subscribe] and its teardown. *)
Definition stream_subscribe (T : Team) (r : nat) (consumer : nat) : Team :=
  match teams T !! r with
  | None => T
  | Some t => if bool_decide (consumer ∈ consumers t) then T
              else put_team T r (set_consumers t (consumers t ++ [consumer]))
  end.
Definition stream_unsubscribe (T : Team) (r : nat) (consumer : nat) : Team :=
  match teams T !! r with
  | None => T
  | Some t => put_team T r (set_consumers t (filter (λ c, c ≠ consumer) (consumers t)))
  end.

(** The state a callback captured, when it is still the registered one. *)
Definition captured (T : Team) (sub : string * nat) : option (nat * TeamState * MemberState) :=
  '(r, t) ← get_team T sub.1; m ← map_get (members t) sub.1;
  if bool_decide (ms_ref m = sub.2) then Some (r, t, m) else None.

Definition notifyStream (T : Team) (sub : string * nat) (event : string → TeamMemberEvent)
    : list TeamEffect :=
  match captured T sub with
  | None => []
  | Some (_, t, m) => map (λ c, Notified c (event (ms_role m))) (consumers t)
  end.

(** The loop of [relay]; the flag tells whether every message was built. *)
Fixpoint relay_loop (logs : string → list SessionEvent) (t : TeamState) (sender : MemberState)
    (u : BroadcastUnit) (ms : list (string * MemberState))
    : list (string * MemberState) * list TeamEffect * bool :=
  match ms with
  | [] => ([], [], true)
  | (id, receiver) :: ms =>
      if bool_decide (id = ms_id sender) || negb (src_consumes (ms_source receiver))
         || bool_decide (u_anchor u ∈ drained receiver)
      then let '(ms, effs, ok) := relay_loop logs t sender u ms in ((id, receiver) :: ms, effs, ok)
      else
        let p := tag_unit sender u in
        let receiver := set_queue receiver (pending receiver ++ [p]) (drained receiver) in
        let deliver := bool_decide (u_kind u = kind_message) && src_deliverInFlight (ms_source receiver) in
        match (if deliver then (message ← buildMessage logs t p; Some [DeliveredInFlight (ms_id receiver) message])
               else Some []) with
        | None => ((id, receiver) :: ms, [], false)
        | Some eff =>
            let '(ms, effs, ok) := relay_loop logs t sender u ms in
            ((id, receiver) :: ms, eff ++ effs, ok)
        end
  end.

Definition relay (logs : string → list SessionEvent) (T : Team) (r : nat) (t : TeamState)
    (sender : MemberState) (u : BroadcastUnit) : Team * list TeamEffect * bool :=
  let '(ms, effs, ok) := relay_loop logs t sender u (members t) in
  (put_team T r (set_members t ms), effs, ok).

(** Update the calls the sender waits for. *)
Definition set_pendingCalls (T : Team) (r : nat) (id : string) (calls : gmap string (Z * Z)) : Team :=
  match teams T !! r with
  | None => T
  | Some t =>
      match map_get (members t) id with
      | None => T
      | Some m => update_member T r t id (set_calls m calls)
      end
  end.

Definition onMemberEvent (logs : string → list SessionEvent) (T : Team) (sub : string * nat)
    (e : SessionEvent) : Team * list TeamEffect * bool :=
  match captured T sub with
  | None => (T, [], true)
  | Some (r, t, m) =>
      match ev_data e with
      | AssistantEvent msg =>
          if bool_decide (messageBody msg = "") then (T, [], true)
          else relay logs T r t m (mkUnit kind_message (am_id msg) (ev_time e) (ev_seq e))
      | ToolCallEvent callId _ _ =>
          (set_pendingCalls T r sub.1 (<[callId := (ev_time e, ev_seq e)]> (pendingCalls m)), [], true)
      | ToolResultEvent msg =>
          let callId := trm_toolCallId msg in
          match pendingCalls m !! callId with
          | None => (T, [], true)
          | Some (time, seq) =>
              let '(T, effs, ok) := relay logs T r t m (mkUnit kind_tool callId time seq) in
              if ok then (set_pendingCalls T r sub.1 (delete callId (pendingCalls m)), effs, true)
              else (T, effs, false)
          end
      | UserEvent _ | OtherEvent _ => (T, [], true)
      end
  end.

(** The callback of a log subscription. *)
Definition log_callback (logs : string → list SessionEvent) (T : Team) (sub : string * nat)
    (e : SessionEvent) : Team * list TeamEffect :=
  let '(T, effs, ok) := onMemberEvent logs T sub e in
  (T, effs ++ if ok then notifyStream T sub (λ role, LogEvent role sub.1 e) else []).

(** The callbacks of a source's subscriptions, from a snapshot. *)
Definition log_callbacks (logs : string → list SessionEvent) (T : Team) (id : string) (e : SessionEvent)
    : Team * list TeamEffect :=
  fold_left (λ '(T, effs) sub, let '(T, effs') := log_callback logs T sub e in (T, effs ++ effs'))
    (filter (λ s, s.1 = id) (log_subs T)) (T, []).

Definition live_callbacks (T : Team) (id : string) (l : Live) : list TeamEffect :=
  concat (map (λ sub, notifyStream T sub (λ role, LiveEvent role sub.1 l))
            (filter (λ s, s.1 = id) (live_subs T))).

(** ** Runs *)

Record World : Type := mkWorld {
  w_team : Team;
  w_logs : gmap string (list SessionEvent);
}.

Definition log_of (w : World) (id : string) : list SessionEvent := default [] (w_logs w !! id).

(** An event is logged first and notified then, or not notified at all. *)
Inductive Op : Type :=
| OpRegister (reg : TeamRegistration)
| OpDispose (team : nat)
| OpAgentDisposed (id : string)
| OpEvent (id : string) (e : SessionEvent) (notified : bool)
| OpLive (id : string) (l : Live)
| OpDrain (id : string)
| OpSubscribe (team consumer : nat)
| OpUnsubscribe (team consumer : nat).

Definition log_event (w : World) (id : string) (e : SessionEvent) : World :=
  mkWorld (w_team w) (<[id := log_of w id ++ [e]]> (w_logs w)).

Definition with_team (w : World) (T : Team) : World := mkWorld T (w_logs w).

Definition run_op (w : World) (op : Op) : World * list TeamEffect :=
  match op with
  | OpRegister reg => (with_team w (register (log_of w) (w_team w) reg).1, [])
  | OpDispose r => (with_team w (disposeTeam (w_team w) r), [])
  | OpAgentDisposed id => (with_team w (dropMember (w_team w) id), [])
  | OpEvent id e notified =>
      let w := log_event w id e in
      if notified then
        let '(T, effs) := log_callbacks (log_of w) (w_team w) id e in (with_team w T, effs)
      else (w, [])
  | OpLive id l => (w, live_callbacks (w_team w) id l)
  | OpDrain id => (with_team w (drain (log_of w) (w_team w) id).1, [])
  | OpSubscribe r c => (with_team w (stream_subscribe (w_team w) r c), [])
  | OpUnsubscribe r c => (with_team w (stream_unsubscribe (w_team w) r c), [])
  end.

Definition run_ops (w : World) (ops : list Op) : World := fold_left (λ w op, (run_op w op).1) ops w.

End Productions.

(** ** Lemmas on insertion-ordered maps *)

Section Maps.
Context {V : Type}.
Implicit Types l : list (string * V).

Lemma map_get_set l k v k' :
  map_get (map_set l k v) k' = if bool_decide (k' = k) then Some v else map_get l k'.
Proof.
  induction l as [|[k0 v0] l IH]; simpl.
  - repeat case_bool_decide; congruence.
  - destruct (decide (k0 = k)) as [->|Hk].
    + rewrite (bool_decide_true (k = k)) by done. simpl. repeat case_bool_decide; congruence.
    + rewrite (bool_decide_false (k0 = k)) by done. simpl. rewrite IH.
      repeat case_bool_decide; congruence.
Qed.

Lemma map_get_delete l k k' :
  map_get (map_delete l k) k' = if bool_decide (k' = k) then None else map_get l k'.
Proof.
  unfold map_delete. induction l as [|[k0 v0] l IH]; simpl; [by case_bool_decide|].
  destruct (decide (k0 = k)) as [->|Hk].
  - rewrite filter_cons_False by (by intros []). rewrite IH. repeat case_bool_decide; congruence.
  - rewrite filter_cons_True by done. simpl. rewrite IH. repeat case_bool_decide; congruence.
Qed.

Lemma map_get_keys l k : is_Some (map_get l k) ↔ k ∈ map fst l.
Proof.
  induction l as [|[k0 v0] l IH]; simpl.
  - split; [by intros []|by intros ?%elem_of_nil].
  - rewrite elem_of_cons. case_bool_decide; subst; [naive_solver|]. rewrite IH. naive_solver.
Qed.

Lemma map_get_elem l k v : map_get l k = Some v → (k, v) ∈ l.
Proof.
  induction l as [|[k0 v0] l IH]; simpl; [done|]. case_bool_decide; subst.
  - intros [= ->]. by constructor.
  - intros ?. constructor. auto.
Qed.

Lemma map_get_nodup l k v : NoDup (map fst l) → (k, v) ∈ l → map_get l k = Some v.
Proof.
  induction l as [|[k0 v0] l IH]; simpl; [by intros _ ?%elem_of_nil|].
  intros [Hn Hd]%NoDup_cons [[= -> ->]|Hin]%elem_of_cons; [by rewrite bool_decide_true|].
  rewrite bool_decide_false; [auto|]. intros ->. apply Hn. apply list_elem_of_fmap. by exists (k, v).
Qed.

Lemma map_set_keys_in l k v : k ∈ map fst l → map fst (map_set l k v) = map fst l.
Proof.
  induction l as [|[k0 v0] l IH]; simpl; [by intros ?%elem_of_nil|].
  case_bool_decide; [done|]. rewrite elem_of_cons. simpl. intros [->|?]; [done|]. by rewrite IH.
Qed.

Lemma map_set_keys_new l k v : k ∉ map fst l → map fst (map_set l k v) = map fst l ++ [k].
Proof.
  induction l as [|[k0 v0] l IH]; simpl; [done|]. rewrite not_elem_of_cons. intros [Hk Hl].
  rewrite bool_decide_false by done. simpl. by rewrite IH.
Qed.

Lemma map_delete_keys l k : map fst (map_delete l k) = filter (λ k', k' ≠ k) (map fst l).
Proof.
  unfold map_delete. induction l as [|[k0 v0] l IH]; simpl; [done|].
  destruct (decide (k0 = k)) as [->|Hk].
  - by rewrite !filter_cons_False by (by intros []).
  - rewrite !filter_cons_True by done. simpl. by rewrite IH.
Qed.

Lemma map_get_map (f : string * V → V) l k :
  map_get (map (λ kv, (kv.1, f kv)) l) k = (λ v, f (k, v)) <$> map_get l k.
Proof.
  induction l as [|[k0 v0] l IH]; simpl; [done|]. by case_bool_decide; subst.
Qed.
End Maps.

(** ** Lemmas on sorting *)

Definition pending_le (a b : PendingUnit) : Prop := compare_pending a b ≤ 0.

Lemma compare_pending_le a b :
  pending_le a b ↔
  u_time (pu_unit a) < u_time (pu_unit b) ∨
  (u_time (pu_unit a) = u_time (pu_unit b) ∧ u_seq (pu_unit a) ≤ u_seq (pu_unit b)).
Proof. unfold pending_le, compare_pending, compareUnits. destruct (Z.eqb_spec (u_time (pu_unit a) - u_time (pu_unit b)) 0); lia. Qed.

#[global] Instance pending_le_trans : Transitive pending_le.
Proof. intros a b c. rewrite !compare_pending_le. lia. Qed.

Lemma insert_pending_perm p l : insert_pending p l ≡ₚ p :: l.
Proof.
  induction l as [|q l IH]; simpl; [done|]. destruct (_ <=? 0); [done|].
  rewrite IH. apply perm_swap.
Qed.

Lemma sort_pending_perm l : sort_pending l ≡ₚ l.
Proof. induction l as [|p l IH]; simpl; [done|]. by rewrite insert_pending_perm, IH. Qed.

Lemma insert_pending_sorted p l :
  StronglySorted pending_le l → StronglySorted pending_le (insert_pending p l).
Proof.
  induction 1 as [|q l Hl IH Hq]; simpl; [by repeat constructor|].
  destruct (Z.leb_spec (compare_pending p q) 0) as [Hle|Hgt].
  - constructor; [by constructor|]. constructor; [done|].
    eapply Forall_impl; [exact Hq|]. intros x Hx. by etransitivity.
  - constructor; [done|]. rewrite insert_pending_perm. constructor; [|done].
    rewrite compare_pending_le. unfold compare_pending, compareUnits in Hgt.
    destruct (Z.eqb_spec (u_time (pu_unit p) - u_time (pu_unit q)) 0); lia.
Qed.

Lemma sort_pending_sorted l : StronglySorted pending_le (sort_pending l).
Proof. induction l; simpl; [constructor|]. by apply insert_pending_sorted. Qed.

(** ** Invariant *)

Definition member_of (T : Team) (id : string) : option MemberState :=
  '(r, t) ← get_team T id; map_get (members t) id.

(** [byMember] and the member maps of the teams describe the same registrations. *)
Record team_wf (T : Team) : Prop := {
  wf_by id r : byMember T !! id = Some r ↔ ∃ t, teams T !! r = Some t ∧ id ∈ map fst (members t);
  wf_nodup r t : teams T !! r = Some t → NoDup (map fst (members t));
  wf_fresh r : is_Some (teams T !! r) → (r < next_ref T)%nat;
}.

Lemma new_team_wf : team_wf new_team.
Proof.
  split; simpl.
  - intros id r. rewrite lookup_empty. split; [done|]. intros (t & E & _). by rewrite lookup_empty in E.
  - intros r t. by rewrite lookup_empty.
  - intros r. rewrite lookup_empty. by intros [].
Qed.

Lemma get_team_Some T id r t :
  get_team T id = Some (r, t) ↔ byMember T !! id = Some r ∧ teams T !! r = Some t.
Proof.
  unfold get_team. destruct (byMember T !! id) as [r'|]; simpl; [|naive_solver].
  destruct (teams T !! r') as [t'|] eqn:E; simpl; naive_solver.
Qed.

Lemma member_of_Some T id m :
  member_of T id = Some m ↔
  ∃ r t, byMember T !! id = Some r ∧ teams T !! r = Some t ∧ map_get (members t) id = Some m.
Proof.
  unfold member_of. destruct (get_team T id) as [[r t]|] eqn:E; simpl.
  - apply get_team_Some in E as [E1 E2]. naive_solver.
  - split; [done|]. intros (r & t & E1 & E2 & _).
    by rewrite (proj2 (get_team_Some T id r t)) in E.
Qed.

Lemma member_of_team T r t id m :
  team_wf T → teams T !! r = Some t → map_get (members t) id = Some m →
  byMember T !! id = Some r ∧ member_of T id = Some m.
Proof.
  intros Hwf Ht Hm. assert (byMember T !! id = Some r) as Hb.
  { apply (wf_by _ Hwf). exists t. split; [done|]. apply map_get_keys. by rewrite Hm. }
  split; [done|]. apply member_of_Some. eauto.
Qed.

(** A registered id has a state. *)
Lemma member_of_by T id : team_wf T → is_Some (member_of T id) ↔ is_Some (byMember T !! id).
Proof.
  intros Hwf. split.
  - intros [m (r & t & E & _)%member_of_Some]. eauto.
  - intros [r Hr]. destruct (proj1 (wf_by _ Hwf id r) Hr) as (t & Ht & Hin).
    apply map_get_keys in Hin as [m Hm]. exists m. apply member_of_Some. eauto.
Qed.

(** Replacing a team by one with the same member ids. *)
Lemma put_team_wf T r t t' :
  team_wf T → teams T !! r = Some t → map fst (members t') = map fst (members t) →
  team_wf (put_team T r t').
Proof.
  intros Hwf Ht Hk. split; simpl.
  - intros id r'. rewrite (wf_by _ Hwf). destruct (decide (r' = r)) as [->|Hr].
    + rewrite lookup_insert_eq, Ht. split; intros (t0 & [= <-] & Hin); eexists; (split; [done|]); congruence.
    + by rewrite lookup_insert_ne.
  - intros r' t0. destruct (decide (r' = r)) as [->|Hr].
    + rewrite lookup_insert_eq. intros [= <-]. rewrite Hk. by apply (wf_nodup _ Hwf r).
    + rewrite lookup_insert_ne by done. apply (wf_nodup _ Hwf).
  - intros r'. destruct (decide (r' = r)) as [->|Hr].
    + intros _. apply (wf_fresh _ Hwf). by rewrite Ht.
    + rewrite lookup_insert_ne by done. apply (wf_fresh _ Hwf).
Qed.

Lemma put_team_member T r t t' id :
  teams T !! r = Some t →
  member_of (put_team T r t') id =
  if bool_decide (byMember T !! id = Some r) then map_get (members t') id else member_of T id.
Proof.
  intros Ht. unfold member_of, get_team. simpl. destruct (byMember T !! id) as [r'|] eqn:Eb; simpl; [|by rewrite ?bool_decide_false].
  destruct (decide (r' = r)) as [->|Hr].
  - rewrite bool_decide_true by done. by rewrite lookup_insert_eq.
  - rewrite bool_decide_false by congruence. by rewrite lookup_insert_ne.
Qed.

Lemma update_member_member T r t id m id' :
  byMember T !! id = Some r → teams T !! r = Some t →
  member_of (update_member T r t id m) id' = if bool_decide (id' = id) then Some m else member_of T id'.
Proof.
  intros Hb Ht. unfold update_member. rewrite (put_team_member T r t) by done. simpl.
  rewrite map_get_set. case_bool_decide as H1.
  - case_bool_decide; [done|]. symmetry. unfold member_of, get_team. by rewrite H1; simpl; rewrite Ht.
  - case_bool_decide; [congruence|done].
Qed.

Lemma update_member_wf T r t id m :
  team_wf T → teams T !! r = Some t → id ∈ map fst (members t) → team_wf (update_member T r t id m).
Proof. intros Hwf Ht Hin. apply (put_team_wf T r t); [done..|]. simpl. by apply map_set_keys_in. Qed.

(** *** Registry *)

Section Registry.
(** The sources of the members: a given id always names the same source. *)
Context (src : string → TeamMemberSource) (src_id_ok : ∀ id, src_id (src id) = id).

Definition reg_ok (reg : TeamRegistration) : Prop :=
  Forall (λ m, reg_source m = src (src_id (reg_source m))) (tr_members reg).

(** Every subscription and section belongs to a registered member, under the
    reference of its state; announce-only members have nothing pending. *)
Record team_ok (T : Team) : Prop := {
  ok_wf : team_wf T;
  ok_id id m : member_of T id = Some m → ms_source m = src id ∧ (ms_ref m < next_ref T)%nat;
  ok_ref id id' m m' :
    member_of T id = Some m → member_of T id' = Some m' → ms_ref m = ms_ref m' → id = id';
  ok_log id ref :
    (id, ref) ∈ log_subs T ↔ src_subscribe (src id) = true ∧ ms_ref <$> member_of T id = Some ref;
  ok_live id ref :
    (id, ref) ∈ live_subs T ↔ src_live (src id) = true ∧ ms_ref <$> member_of T id = Some ref;
  ok_nodup : NoDup (log_subs T) ∧ NoDup (live_subs T);
  ok_sections ref text :
    sections T !! ref = Some text ↔
    ∃ id m, member_of T id = Some m ∧ ms_ref m = ref ∧ src_sectionTarget (src id) = true ∧
      sectionText m = text;
  ok_quiet id m :
    member_of T id = Some m → src_consumes (src id) = false → pending m = [] ∧ drained m = ∅;
}.

Lemma new_team_ok : team_ok new_team.
Proof.
  assert (∀ id, member_of new_team id = None) as E
    by (intros id; unfold member_of, get_team; simpl; by rewrite lookup_empty).
  split; try (intros *; rewrite ?E; done).
  - apply new_team_wf.
  - intros id ref. rewrite E. split; [by intros ?%elem_of_nil|by intros [_ ?]].
  - intros id ref. rewrite E. split; [by intros ?%elem_of_nil|by intros [_ ?]].
  - split; constructor.
  - intros ref text. simpl. rewrite lookup_empty. split; [done|]. intros (id & m & Em & _).
    by rewrite E in Em.
Qed.

(** How a member's state may change while it stays registered. *)
Record keeps (logs : string → list SessionEvent) (id : string) (m m' : MemberState) : Prop := {
  k_ref : ms_ref m' = ms_ref m;
  k_drained : drained m ⊆ drained m' ∪ consumedAnchors (logs id);
}.

(** The changes that touch neither the registrations nor the sections. *)
Record stays (logs : string → list SessionEvent) (id : string) (m m' : MemberState) : Prop := {
  s_keeps : keeps logs id m m';
  s_source : ms_source m' = ms_source m;
  s_text : sectionText m' = sectionText m;
  s_quiet : src_consumes (ms_source m) = false → pending m' = pending m ∧ drained m' = drained m;
}.

Lemma stays_refl logs id m : stays logs id m m.
Proof using. repeat split. apply union_subseteq_l. Qed.

(** [T'] comes after [T]: a state of [T'] that is not fresh was in [T], and its
    drained anchors were only dropped when its log consumed them. *)
Record evolves (logs : string → list SessionEvent) (T T' : Team) : Prop := {
  ev_next : (next_ref T ≤ next_ref T')%nat;
  ev_member id m' :
    member_of T' id = Some m' → (ms_ref m' < next_ref T)%nat →
    ∃ m, member_of T id = Some m ∧ keeps logs id m m';
}.

Lemma evolves_refl logs T : evolves logs T T.
Proof using.
  split; [done|]. intros id m' Hm _. exists m'. split; [done|]. split; [done|]. apply union_subseteq_l.
Qed.

Lemma evolves_trans logs T1 T2 T3 : evolves logs T1 T2 → evolves logs T2 T3 → evolves logs T1 T3.
Proof using.
  intros [N1 M1] [N2 M2]. split; [by etransitivity|]. intros id m3 H3 Hlt.
  destruct (M2 id m3 H3 ltac:(by eapply Nat.lt_le_trans)) as (m2 & H2 & [K1 K2]).
  destruct (M1 id m2 H2 ltac:(by rewrite <- K1)) as (m1 & H1 & [K3 K4]).
  exists m1. split; [done|]. split; [by rewrite K1|].
  etransitivity; [exact K4|]. apply union_least; [exact K2|apply union_subseteq_r].
Qed.

(** A change of member states only. *)
Lemma stays_ok logs T T' :
  team_ok T → team_wf T' → next_ref T' = next_ref T → log_subs T' = log_subs T →
  live_subs T' = live_subs T → sections T' = sections T →
  (∀ id, option_Forall2 (stays logs id) (member_of T id) (member_of T' id)) →
  team_ok T' ∧ evolves logs T T'.
Proof.
  intros Hok Hwf En El Ev Es Hst.
  assert (∀ id m', member_of T' id = Some m' → ∃ m, member_of T id = Some m ∧ stays logs id m m') as Hback.
  { intros id m' Hm. specialize (Hst id). rewrite Hm in Hst. inversion Hst; subst. eauto. }
  assert (∀ id, ms_ref <$> member_of T' id = ms_ref <$> member_of T id) as Href.
  { intros id. destruct (Hst id) as [m m' [[] _ _ _]|]; simpl; congruence. }
  split; [split|split].
  - done.
  - intros id m' Hm. destruct (Hback _ _ Hm) as (m & Hm0 & [[Er _] Esrc _ _]).
    rewrite En, Er, Esrc. by apply (ok_id _ Hok).
  - intros id id' m1 m2 H1 H2 E. destruct (Hback _ _ H1) as (n1 & Hn1 & [[E1 _] _ _ _]).
    destruct (Hback _ _ H2) as (n2 & Hn2 & [[E2 _] _ _ _]).
    eapply (ok_ref _ Hok); [done..|congruence].
  - intros id ref. rewrite El, Href. apply (ok_log _ Hok).
  - intros id ref. rewrite Ev, Href. apply (ok_live _ Hok).
  - rewrite El, Ev. apply (ok_nodup _ Hok).
  - intros ref text. rewrite Es, (ok_sections _ Hok). split.
    + intros (id & m & Hm & Er & Ht & Ex). specialize (Hst id). rewrite Hm in Hst.
      inversion Hst as [? m' [[Er' _] _ Et _]|]; subst. exists id, m'. split_and!; congruence.
    + intros (id & m' & Hm & Er & Ht & Ex). destruct (Hback _ _ Hm) as (m & Hm0 & [[Er' _] _ Et _]).
      exists id, m. split_and!; congruence.
  - intros id m' Hm Hc. destruct (Hback _ _ Hm) as (m & Hm0 & [_ _ _ Hq]).
    destruct (ok_id _ Hok _ _ Hm0) as [Esrc _]. rewrite Esrc in Hq. destruct (Hq Hc) as [-> ->].
    by apply (ok_quiet _ Hok id).
  - by rewrite En.
  - intros id m' Hm _. destruct (Hback _ _ Hm) as (m & Hm0 & [? _ _ _]). eauto.
Qed.

(** Replacing one member's state. *)
Lemma update_member_ok logs T r t id m m' :
  team_ok T → byMember T !! id = Some r → teams T !! r = Some t → map_get (members t) id = Some m →
  stays logs id m m' → team_ok (update_member T r t id m') ∧ evolves logs T (update_member T r t id m').
Proof.
  intros Hok Hb Ht Hm Hst. apply (stays_ok logs T); try done.
  - apply update_member_wf; [apply Hok|done|]. apply map_get_keys. by rewrite Hm.
  - intros id'. rewrite (update_member_member T r t) by done. case_bool_decide as E.
    + subst. rewrite (proj2 (member_of_Some T id m)) by eauto. by constructor.
    + destruct (member_of T id'); constructor. apply stays_refl.
Qed.

(** Replacing the members of a team pointwise. *)
Lemma put_members_ok logs T r t g c cs ms :
  team_ok T → teams T !! r = Some t →
  Forall2 (λ km km', km'.1 = km.1 ∧ stays logs km.1 km.2 km'.2) (members t) ms →
  team_ok (put_team T r (mkTeamState g c ms cs)) ∧ evolves logs T (put_team T r (mkTeamState g c ms cs)).
Proof.
  intros Hok Ht Hms.
  assert (map fst ms = map fst (members t) ∧
    ∀ id, option_Forall2 (stays logs id) (map_get (members t) id) (map_get ms id)) as [Hk Hg].
  { clear -Hms. induction Hms as [|[k m] [k' m'] l l' [Ek Hs] _ [IH1 IH2]]; simpl in *; [by split; [|constructor]|].
    subst. split; [by f_equal|]. intros id. case_bool_decide; subst; [by constructor|done]. }
  apply (stays_ok logs T); try done.
  - apply (put_team_wf T r t); [apply Hok|done..].
  - intros id. rewrite (put_team_member T r t) by done. simpl. case_bool_decide as E.
    + unfold member_of, get_team. rewrite E. simpl. rewrite Ht. apply Hg.
    + destruct (member_of T id); constructor. apply stays_refl.
Qed.

(** *** Pending lists and productions *)

Lemma reconcile_stays logs T id m : ms_id m = id → stays logs id m (reconcile logs T m).
Proof.
  intros <-. unfold reconcile. destruct (src_consumes (ms_source m)) eqn:Ec; [|apply stays_refl].
  destruct (get_team T (ms_id m)) as [[r t]|]; [|apply stays_refl].
  split; [split|..]; simpl; try done; [|congruence].
  intros a Ha. destruct (decide (a ∈ consumedAnchors (logs (ms_id m)))); set_solver.
Qed.

Lemma drain_units_grows logs t units dr msgs : dr ⊆ (drain_units logs t units dr msgs).1.
Proof.
  revert dr msgs. induction units as [|p l IH]; intros dr msgs; simpl; [done|].
  destruct (buildMessage logs t p); [|done]. specialize (IH (dr ∪ {[u_anchor (pu_unit p)]}) (msgs ++ [u])).
  set_solver.
Qed.

Lemma drain_ok logs T id : team_ok T → team_ok (drain logs T id).1 ∧ evolves logs T (drain logs T id).1.
Proof.
  intros Hok. unfold drain. destruct (get_team T id) as [[r t]|] eqn:Eg; [|by split; [|apply evolves_refl]].
  apply get_team_Some in Eg as [Hb Ht].
  destruct (map_get (members t) id) as [m|] eqn:Em; [|by split; [|apply evolves_refl]].
  destruct (src_consumes (ms_source m)) eqn:Ec; [|by split; [|apply evolves_refl]].
  destruct (drain_units _ _ _ _ _) as [dr result] eqn:Ed. simpl.
  destruct (ok_id _ Hok id m) as [Esrc _]; [apply member_of_Some; eauto|].
  destruct (reconcile_stays logs T id m) as [[K1 K2] E1 E2 _]; [unfold ms_id; by rewrite Esrc|].
  pose proof (drain_units_grows logs t (pending (reconcile logs T m)) (drained (reconcile logs T m)) []) as Hg.
  rewrite Ed in Hg. simpl in Hg.
  apply (update_member_ok logs T r t id m); [done..|].
  split; [split|..]; simpl; [done|set_solver|done|done|congruence].
Qed.

Section Productions.
Context {Live : Type}.

Lemma relay_loop_stays logs t sender u ms :
  Forall2 (λ km km', km'.1 = km.1 ∧ stays logs km.1 km.2 km'.2) ms
    (relay_loop (Live := Live) logs t sender u ms).1.1.
Proof.
  induction ms as [|[id m] ms IH]; simpl; [constructor|].
  destruct (relay_loop logs t sender u ms) as [[ms' effs] ok] eqn:E. simpl in IH.
  destruct (bool_decide (id = ms_id sender) || negb (src_consumes (ms_source m))
    || bool_decide (u_anchor u ∈ drained m)) eqn:Eb.
  { constructor; [|done]. split; [done|]. apply stays_refl. }
  apply orb_false_iff in Eb as [[_ Hc%negb_false_iff]%orb_false_iff _].
  assert (stays logs id m (set_queue m (pending m ++ [tag_unit sender u]) (drained m))) as Hm
    by (split; [split|..]; simpl; [done|set_solver|done|done|congruence]).
  destruct (if _ && _ then _ else _) as [eff|]; simpl; (constructor; [done|]); [done|].
  clear. induction ms; constructor; [|done]. split; [done|apply stays_refl].
Qed.

Lemma relay_ok logs T r t sender u :
  team_ok T → teams T !! r = Some t →
  team_ok (relay (Live := Live) logs T r t sender u).1.1 ∧
  evolves logs T (relay (Live := Live) logs T r t sender u).1.1.
Proof.
  intros Hok Ht. unfold relay. pose proof (relay_loop_stays logs t sender u (members t)) as Hl.
  destruct (relay_loop logs t sender u (members t)) as [[ms effs] ok]. simpl in *.
  by apply (put_members_ok logs T r t).
Qed.

Lemma set_pendingCalls_ok logs T r id calls :
  team_ok T → team_ok (set_pendingCalls T r id calls) ∧ evolves logs T (set_pendingCalls T r id calls).
Proof.
  intros Hok. unfold set_pendingCalls. destruct (teams T !! r) as [t|] eqn:Ht; [|by split; [|apply evolves_refl]].
  destruct (map_get (members t) id) as [m|] eqn:Em; [|by split; [|apply evolves_refl]].
  destruct (member_of_team T r t id m) as [Hb _]; [apply Hok|done..|].
  apply (update_member_ok logs T r t id m); [done..|]. split; [split|..]; simpl; set_solver.
Qed.

Lemma captured_Some T sub r t m :
  captured T sub = Some (r, t, m) ↔
  byMember T !! sub.1 = Some r ∧ teams T !! r = Some t ∧ map_get (members t) sub.1 = Some m ∧
  ms_ref m = sub.2.
Proof.
  unfold captured. destruct (get_team T sub.1) as [[r' t']|] eqn:E; simpl.
  - apply get_team_Some in E as [E1 E2]. destruct (map_get (members t') sub.1) as [m'|] eqn:Em; simpl.
    + case_bool_decide; naive_solver.
    + naive_solver.
  - split; [done|]. intros (E1 & E2 & _). by rewrite (proj2 (get_team_Some T sub.1 r t)) in E.
Qed.

Lemma onMemberEvent_ok logs T sub e :
  team_ok T →
  team_ok (onMemberEvent (Live := Live) logs T sub e).1.1 ∧
  evolves logs T (onMemberEvent (Live := Live) logs T sub e).1.1.
Proof.
  intros Hok. assert (team_ok T ∧ evolves logs T T) as Hsame by (split; [done|apply evolves_refl]).
  unfold onMemberEvent. destruct (captured T sub) as [[[r t] m]|] eqn:Ec; [|done].
  apply captured_Some in Ec as (Hb & Ht & Hm & Hr).
  destruct (ev_data e) as [msg|c n a|msg|?|?]; [..|done|done].
  - case_bool_decide; [done|]. by apply relay_ok.
  - by apply set_pendingCalls_ok.
  - destruct (pendingCalls m !! _) as [[time seq]|]; [|done].
    pose proof (relay_ok logs T r t m (mkUnit kind_tool (trm_toolCallId msg) time seq) Hok Ht) as [H1 H2].
    destruct (relay _ _ _ _ _ _) as [[T1 effs] ok]. simpl in *. destruct ok; simpl; [|done].
    destruct (set_pendingCalls_ok logs T1 r sub.1 (delete (trm_toolCallId msg) (pendingCalls m)) H1).
    split; [done|]. by eapply evolves_trans.
Qed.

Lemma log_callbacks_ok logs T id e :
  team_ok T →
  team_ok (log_callbacks (Live := Live) logs T id e).1 ∧
  evolves logs T (log_callbacks (Live := Live) logs T id e).1.
Proof.
  intros Hok. unfold log_callbacks. generalize (filter (λ s : string * nat, s.1 = id) (log_subs T)).
  intros subs. generalize ([] : list (TeamEffect (Live := Live))). revert T Hok.
  induction subs as [|sub subs IH]; intros T Hok effs; simpl; [by split; [|apply evolves_refl]|].
  unfold log_callback at 2 4. destruct (onMemberEvent_ok logs T sub e Hok) as [H1 H2].
  destruct (onMemberEvent logs T sub e) as [[T1 effs1] ok]. simpl in H1, H2.
  destruct (IH T1 H1 (effs ++ effs1 ++ if ok then notifyStream T1 sub (λ role, LogEvent role sub.1 e) else []))
    as [H3 H4].
  split; [done|]. by eapply evolves_trans.
Qed.

End Productions.

Lemma set_consumers_ok logs T r t cs :
  team_ok T → teams T !! r = Some t →
  team_ok (put_team T r (set_consumers t cs)) ∧ evolves logs T (put_team T r (set_consumers t cs)).
Proof.
  intros Hok Ht. apply (put_members_ok logs T r t); [done..|].
  induction (members t); constructor; [|done]. split; [done|apply stays_refl].
Qed.

(** *** Dropping members *)

Lemma dropMember_other T id : byMember T !! id = None → dropMember T id = T.
Proof. unfold dropMember. by intros ->. Qed.

(** What dropping a registered member leaves. *)
Record dropped (T T' : Team) (id : string) (ref : nat) : Prop := {
  d_by : byMember T' = delete id (byMember T);
  d_next : next_ref T' = next_ref T;
  d_log : log_subs T' = filter (λ s, s.2 ≠ ref) (log_subs T);
  d_live : live_subs T' = filter (λ s, s.2 ≠ ref) (live_subs T);
  d_sections : sections T' = delete ref (sections T);
}.

Lemma dropMember_spec T id m :
  team_ok T → member_of T id = Some m →
  dropped T (dropMember T id) id (ms_ref m) ∧ team_wf (dropMember T id) ∧
  ∀ id', member_of (dropMember T id) id' = if bool_decide (id' = id) then None else member_of T id'.
Proof.
  intros Hok Hm. pose proof (ok_wf _ Hok) as Hwf.
  apply member_of_Some in Hm as (r & t & Hb & Ht & Hm).
  unfold dropMember. rewrite Hb. simpl. rewrite Ht, Hm. split; [done|].
  assert (∀ id' r', byMember T !! id' = Some r' → r' = r → id' ∈ map fst (members t)) as Hin.
  { intros id' r' Hb' ->. destruct (proj1 (wf_by _ Hwf id' r) Hb') as (t' & Ht' & ?). congruence. }
  split.
  - split; simpl.
    + intros id' r'. rewrite lookup_delete_Some, (wf_by _ Hwf). destruct (decide (r' = r)) as [->|Hr].
      * rewrite lookup_insert_eq, Ht. split.
        -- intros [Hne (t' & [= <-] & Hi)]. eexists. split; [done|]. simpl.
           rewrite map_delete_keys. apply list_elem_of_filter. auto.
        -- intros (t' & [= <-] & Hi). simpl in Hi.
           rewrite map_delete_keys in Hi. apply list_elem_of_filter in Hi as [Hne Hi]. eauto.
      * rewrite lookup_insert_ne by done. split; [tauto|]. intros Hx. split; [|done].
        intros ->. apply (wf_by _ Hwf) in Hx. congruence.
    + intros r' t'. destruct (decide (r' = r)) as [->|Hr].
      * rewrite lookup_insert_eq. intros [= <-]. simpl. rewrite map_delete_keys.
        apply NoDup_filter. by apply (wf_nodup _ Hwf r).
      * rewrite lookup_insert_ne by done. apply (wf_nodup _ Hwf).
    + intros r'. destruct (decide (r' = r)) as [->|Hr]; [intros _; apply (wf_fresh _ Hwf); by rewrite Ht|].
      rewrite lookup_insert_ne by done. apply (wf_fresh _ Hwf).
  - intros id'. unfold member_of, get_team. simpl. destruct (decide (id' = id)) as [->|Hne].
    + by rewrite lookup_delete_eq, bool_decide_true.
    + rewrite lookup_delete_ne, bool_decide_false by done.
      destruct (byMember T !! id') as [r'|] eqn:Eb; simpl; [|done].
      destruct (decide (r' = r)) as [->|Hr]; [|by rewrite lookup_insert_ne].
      rewrite lookup_insert_eq, Ht. simpl. by rewrite map_get_delete, bool_decide_false.
Qed.

Lemma dropMember_ok logs T id : team_ok T → team_ok (dropMember T id) ∧ evolves logs T (dropMember T id).
Proof.
  intros Hok. destruct (member_of T id) as [m|] eqn:Hm.
  2:{ rewrite dropMember_other; [by split; [|apply evolves_refl]|].
      apply eq_None_not_Some. intros Hs. apply member_of_by in Hs; [|apply Hok]. by rewrite Hm in Hs; destruct Hs. }
  destruct (dropMember_spec T id m Hok Hm) as ([_ En El Ev Es] & Hwf & Hmem).
  assert (∀ id' m', member_of (dropMember T id) id' = Some m' → id' ≠ id ∧ member_of T id' = Some m') as Hback
    by (intros id' m'; rewrite Hmem; case_bool_decide; [done|auto]).
  assert (∀ id' m', member_of T id' = Some m' → ms_ref m' = ms_ref m → id' = id) as Huniq
    by (intros id' m' Hm' E; by apply (ok_ref _ Hok id' id m' m)).
  assert (∀ id' ref, ms_ref <$> member_of (dropMember T id) id' = Some ref ↔
    ref ≠ ms_ref m ∧ ms_ref <$> member_of T id' = Some ref) as Href.
  { intros id' ref. rewrite Hmem. case_bool_decide as E; simpl.
    - subst. rewrite Hm. simpl. split; [done|]. by intros [? [= <-]].
    - split; [|tauto]. intros Hx. split; [|done]. intros ->.
      destruct (member_of T id') as [m'|] eqn:E'; [|done]. simpl in Hx. injection Hx as Hx.
      by apply E, (Huniq _ m'). }
  split; [split|split].
  - done.
  - intros id' m' [_ Hm']%Hback. rewrite En. by apply (ok_id _ Hok).
  - intros id1 id2 m1 m2 [_ H1]%Hback [_ H2]%Hback. by apply (ok_ref _ Hok).
  - intros id' ref. rewrite El, list_elem_of_filter, (ok_log _ Hok), Href. simpl. tauto.
  - intros id' ref. rewrite Ev, list_elem_of_filter, (ok_live _ Hok), Href. simpl. tauto.
  - rewrite El, Ev. by split; apply NoDup_filter, Hok.
  - intros ref text. rewrite Es, lookup_delete_Some, (ok_sections _ Hok). split.
    + intros (Hne & id' & m' & Hm' & Er & Hrest). exists id', m'. split; [|done].
      rewrite Hmem, bool_decide_false; [done|]. intros ->. congruence.
    + intros (id' & m' & [Hne Hm']%Hback & Er & Hrest). split; [|by exists id', m'].
      intros E. apply Hne, (Huniq _ m'); congruence.
  - intros id' m' [_ Hm']%Hback. by apply (ok_quiet _ Hok).
  - by rewrite En.
  - intros id' m' [_ Hm']%Hback _. exists m'. split; [done|]. apply stays_refl.
Qed.

Lemma fold_dropMember_ok logs ids T :
  team_ok T → team_ok (fold_left dropMember ids T) ∧ evolves logs T (fold_left dropMember ids T).
Proof.
  revert T. induction ids as [|id ids IH]; intros T Hok; simpl; [by split; [|apply evolves_refl]|].
  destruct (dropMember_ok logs T id Hok) as [H1 H2]. destruct (IH _ H1) as [H3 H4].
  split; [done|]. by eapply evolves_trans.
Qed.

Lemma disposeTeam_ok logs T r : team_ok T → team_ok (disposeTeam T r) ∧ evolves logs T (disposeTeam T r).
Proof.
  intros Hok. unfold disposeTeam. destruct (teams T !! r) as [t|]; [|by split; [|apply evolves_refl]].
  destruct (fold_dropMember_ok logs (map fst (members t)) T Hok) as [H1 H2].
  destruct (teams _ !! r) as [t'|] eqn:Ht'; [|done].
  destruct (set_consumers_ok logs _ r t' [] H1 Ht') as [H3 H4].
  split; [done|]. by eapply evolves_trans.
Qed.

(** *** Registering members *)

Definition opens (T : Team) (id : string) (r : nat) : Prop :=
  byMember T !! id = None ∨ byMember T !! id = Some r.

(** What registering one member does to the registry. *)
Record registers (logs : string → list SessionEvent) (T T' : Team) (id : string) (r : nat) : Prop := {
  r_ok : team_ok T';
  r_evolves : evolves logs T T';
  r_team : is_Some (teams T' !! r);
  r_by id' : byMember T' !! id' = if bool_decide (id' = id) then Some r else byMember T !! id';
  r_other id' : id' ≠ id → member_of T' id' = member_of T id';
}.

Section Create.
Context (T : Team) (r : nat) (t : TeamState) (reg : TeamMemberRegistration) (text : string).
Context (Hok : team_ok T) (Ht : teams T !! r = Some t) (Hsrc : reg_source reg = src (src_id (reg_source reg))).
Context (Hnew : byMember T !! src_id (reg_source reg) = None).

#[local] Abbreviation id := (src_id (reg_source reg)).

Definition created : Team :=
  let '(T1, m) := createMember T reg text in
  set_byMember (update_member T1 r t id m) (<[id := r]> (byMember T1)).

Lemma created_fields :
  byMember created = <[id := r]> (byMember T) ∧
  teams created = <[r := set_members t (map_set (members t) id (mkMember (next_ref T) reg text [] ∅ ∅))]> (teams T) ∧
  next_ref created = S (next_ref T) ∧
  log_subs created = (if src_subscribe (reg_source reg) then log_subs T ++ [(id, next_ref T)] else log_subs T) ∧
  live_subs created = (if src_live (reg_source reg) then live_subs T ++ [(id, next_ref T)] else live_subs T) ∧
  sections created = (if src_sectionTarget (reg_source reg) then <[next_ref T := text]> (sections T) else sections T).
Proof.
  unfold created, createMember, registerSection. simpl.
  by destruct (src_sectionTarget (reg_source reg)).
Qed.

Lemma created_member id' :
  member_of created id' =
  if bool_decide (id' = id) then Some (mkMember (next_ref T) reg text [] ∅ ∅) else member_of T id'.
Proof.
  destruct created_fields as (Eb & Et & _). unfold member_of, get_team. rewrite Eb, Et.
  destruct (decide (id' = id)) as [->|Hne].
  - rewrite lookup_insert_eq, bool_decide_true by done. simpl. rewrite lookup_insert_eq. simpl.
    by rewrite map_get_set, bool_decide_true.
  - rewrite lookup_insert_ne, bool_decide_false by done.
    destruct (byMember T !! id') as [r'|]; simpl; [|done].
    destruct (decide (r' = r)) as [->|Hr]; [|by rewrite lookup_insert_ne].
    rewrite lookup_insert_eq, Ht. simpl. by rewrite map_get_set, bool_decide_false.
Qed.

Lemma created_wf : team_wf created.
Proof.
  destruct created_fields as (Eb & Et & En & _). pose proof (ok_wf _ Hok) as Hwf.
  assert (id ∉ map fst (members t)) as Hk.
  { intros Hin. assert (byMember T !! id = Some r) by (apply (wf_by _ Hwf); eauto). congruence. }
  split; rewrite ?Eb, ?Et, ?En.
  - intros id' r'. destruct (decide (id' = id)) as [->|Hne].
    + rewrite lookup_insert_eq. split.
      * intros [= <-]. rewrite lookup_insert_eq. eexists. split; [done|]. simpl.
        rewrite map_set_keys_new by done. apply elem_of_app. right. by constructor.
      * intros (t' & Ht' & Hin). f_equal. destruct (decide (r' = r)) as [->|Hr]; [done|].
        rewrite lookup_insert_ne in Ht' by done.
        assert (byMember T !! id = Some r') by (apply (wf_by _ Hwf); eauto). congruence.
    + rewrite lookup_insert_ne, (wf_by _ Hwf) by done. destruct (decide (r' = r)) as [->|Hr].
      * rewrite lookup_insert_eq, Ht. split; intros (t' & [= <-] & Hin); eexists; (split; [done|]);
          simpl in *; rewrite map_set_keys_new, elem_of_app, list_elem_of_singleton in *; tauto.
      * by rewrite lookup_insert_ne.
  - intros r' t'. destruct (decide (r' = r)) as [->|Hr].
    + rewrite lookup_insert_eq. intros [= <-]. simpl. rewrite map_set_keys_new by done.
      apply NoDup_app. split_and!; [by apply (wf_nodup _ Hwf r)| |apply NoDup_singleton].
      intros x Hx. by intros ->%list_elem_of_singleton.
    + rewrite lookup_insert_ne by done. apply (wf_nodup _ Hwf).
  - intros r' Hs. assert (r' < next_ref T)%nat; [|lia]. apply (wf_fresh _ Hwf).
    destruct (decide (r' = r)) as [->|Hr]; [by rewrite Ht|by rewrite lookup_insert_ne in Hs].
Qed.

Lemma created_back id' m' :
  member_of created id' = Some m' →
  (id' = id ∧ m' = mkMember (next_ref T) reg text [] ∅ ∅) ∨ (id' ≠ id ∧ member_of T id' = Some m').
Proof. rewrite created_member. case_bool_decide; naive_solver. Qed.

Lemma created_none : member_of T id = None.
Proof.
  destruct (member_of T id) as [m|] eqn:E; [|done].
  apply member_of_Some in E as (? & ? & E & _). congruence.
Qed.

Lemma created_old id' m' : member_of T id' = Some m' → (ms_ref m' < next_ref T)%nat.
Proof. intros H'. by apply (ok_id _ Hok id'). Qed.

(** A list of subscriptions, per face: [b] tells whether the source has it. *)
Lemma created_subs (b : bool) (face : TeamMemberSource → bool) (l : list (string * nat)) :
  b = face (src id) → NoDup l →
  (∀ id' ref, (id', ref) ∈ l ↔ face (src id') = true ∧ ms_ref <$> member_of T id' = Some ref) →
  let l' := if b then l ++ [(id, next_ref T)] else l in
  NoDup l' ∧
  ∀ id' ref, (id', ref) ∈ l' ↔ face (src id') = true ∧ ms_ref <$> member_of created id' = Some ref.
Proof.
  intros -> Hnd Hl l'.
  assert (∀ id' ref, ms_ref <$> member_of created id' = Some ref ↔
    (id' = id ∧ ref = next_ref T) ∨ ms_ref <$> member_of T id' = Some ref) as Href.
  { intros id' ref. rewrite created_member. case_bool_decide as E; simpl; [subst|naive_solver].
    rewrite created_none. simpl. naive_solver. }
  split.
  - unfold l'. destruct (face (src id)); [|done].
    apply NoDup_app. split_and!; [done| |apply NoDup_singleton].
    intros x Hx. intros ->%list_elem_of_singleton. apply Hl in Hx as [_ Hx]. by rewrite created_none in Hx.
  - intros id' ref. rewrite Href. unfold l'.
    destruct (face (src id)) eqn:E; rewrite ?elem_of_app, Hl, ?list_elem_of_singleton.
    + split; [intros [?|[= -> ->]]; tauto|]. intros [? [[-> ->]|?]]; tauto.
    + split; [tauto|]. intros [? [[-> ->]|?]]; [congruence|tauto].
Qed.

Lemma created_sections ref text' :
  sections created !! ref = Some text' ↔
  ∃ i m, member_of created i = Some m ∧ ms_ref m = ref ∧ src_sectionTarget (src i) = true ∧
    sectionText m = text'.
Proof.
  destruct created_fields as (_ & _ & _ & _ & _ & ->).
  assert (src_sectionTarget (reg_source reg) = src_sectionTarget (src id)) as -> by by rewrite <- Hsrc.
  assert ((if src_sectionTarget (src id) then <[next_ref T:=text]> (sections T) else sections T) !! ref
    = Some text' ↔ (src_sectionTarget (src id) = true ∧ ref = next_ref T ∧ text' = text) ∨
    sections T !! ref = Some text') as ->.
  { destruct (src_sectionTarget (src id)); [|naive_solver]. rewrite lookup_insert_Some. split.
    - naive_solver.
    - intros [(_ & -> & ->)|E]; [by left|right]. split; [|done]. intros <-.
      apply (ok_sections _ Hok) in E as (i & m & Hm & Er & _). apply created_old in Hm. lia. }
  rewrite (ok_sections _ Hok). split.
  - intros [(Htg & -> & ->)|(i & m & Hm & Hrest)].
    + eexists id, _. by rewrite created_member, bool_decide_true.
    + exists i, m. rewrite created_member, bool_decide_false; [by split|].
      intros ->. by rewrite created_none in Hm.
  - intros (i & m & [[-> ->]|[Hne Hm]]%created_back & Er & Htg & Ex); simpl in *; [left; auto|right; eauto 6].
Qed.

Lemma created_ok logs : registers logs T created id r.
Proof.
  destruct created_fields as (Eb & Et & En & El & Ev & _).
  destruct (ok_nodup _ Hok) as [Hnl Hnv].
  destruct (created_subs (src_subscribe (reg_source reg)) src_subscribe (log_subs T)) as [Hl1 Hl2];
    [by rewrite <- Hsrc|done|apply (ok_log _ Hok)|].
  destruct (created_subs (src_live (reg_source reg)) src_live (live_subs T)) as [Hv1 Hv2];
    [by rewrite <- Hsrc|done|apply (ok_live _ Hok)|].
  rewrite <- El in Hl1, Hl2. rewrite <- Ev in Hv1, Hv2.
  split; [split|split| | |]; try done.
  - apply created_wf.
  - intros id' m' [[-> ->]|[_ Hm']]%created_back; rewrite En; [split; [done|simpl; lia]|].
    destruct (ok_id _ Hok _ _ Hm'). split; [done|lia].
  - intros id1 id2 m1 m2 H1 H2 E. apply created_back in H1, H2.
    destruct H1 as [[-> ->]|[_ H1]], H2 as [[-> ->]|[_ H2]]; simpl in E; [done|..].
    + apply created_old in H2. lia.
    + apply created_old in H1. lia.
    + by apply (ok_ref _ Hok id1 id2 m1 m2).
  - apply created_sections.
  - intros id' m' [[-> ->]|[_ Hm']]%created_back; [done|]. by apply (ok_quiet _ Hok).
  - rewrite En. lia.
  - intros id' m' [[-> ->]|[_ Hm']]%created_back Hl; [simpl in Hl; lia|]. exists m'.
    split; [done|]. apply stays_refl.
  - rewrite Et, lookup_insert_eq. eauto.
  - intros id'. rewrite Eb. case_bool_decide; subst; [by rewrite lookup_insert_eq|by rewrite lookup_insert_ne].
  - intros id' Hne. by rewrite created_member, bool_decide_false.
Qed.
End Create.

Section Refresh.
Context (T : Team) (r : nat) (t : TeamState) (m : MemberState) (reg : TeamMemberRegistration) (text : string).
Context (Hok : team_ok T) (Ht : teams T !! r = Some t) (Hsrc : reg_source reg = src (src_id (reg_source reg))).
Context (Hm : map_get (members t) (src_id (reg_source reg)) = Some m).

#[local] Abbreviation id := (src_id (reg_source reg)).

Definition refreshed : Team :=
  let '(T1, m') := refreshMember T m reg text in
  set_byMember (update_member T1 r t id m') (<[id := r]> (byMember T1)).

Lemma refreshed_state : byMember T !! id = Some r ∧ member_of T id = Some m.
Proof. apply (member_of_team T r t); [apply Hok|done|done]. Qed.

Lemma section_of_member ref text' :
  sections T !! ref = Some text' → ref = ms_ref m →
  src_sectionTarget (src id) = true ∧ text' = sectionText m.
Proof.
  destruct refreshed_state as [_ Hmem].
  intros (i & n & Hn & Er & Htg & <-)%(ok_sections _ Hok) ->.
  pose proof (ok_ref _ Hok i id n m Hn Hmem Er) as ->. split; [done|congruence].
Qed.

Lemma refreshed_fields :
  byMember refreshed = byMember T ∧
  teams refreshed = <[r := set_members t (map_set (members t) id (set_registration m reg text))]> (teams T) ∧
  next_ref refreshed = next_ref T ∧ log_subs refreshed = log_subs T ∧ live_subs refreshed = live_subs T ∧
  ∀ ref text', sections refreshed !! ref = Some text' ↔
    (src_sectionTarget (src id) = true ∧ ref = ms_ref m ∧ text' = text) ∨
    (ref ≠ ms_ref m ∧ sections T !! ref = Some text').
Proof.
  destruct refreshed_state as [Hb Hmem]. unfold refreshed, refreshMember. case_bool_decide as Etext.
  - simpl. rewrite Etext. split_and!; try done; [by apply insert_id|].
    intros ref text'. split.
    + intros E. destruct (decide (ref = ms_ref m)) as [Er|]; [left|by right].
      destruct (section_of_member ref text' E Er). split_and!; congruence.
    + intros [(Htg & -> & ->)|[_ ?]]; [|done]. apply (ok_sections _ Hok). by exists id, m.
  - assert (src_sectionTarget (reg_source reg) = src_sectionTarget (src id)) as E by by rewrite <- Hsrc.
    unfold registerSection. rewrite E. destruct (src_sectionTarget (src id)) eqn:Htg; simpl.
    + split_and!; try done; [by apply insert_id|]. intros ref text'.
      rewrite lookup_insert_Some, lookup_delete_Some. naive_solver.
    + split_and!; try done; [by apply insert_id|]. intros ref text'.
      rewrite lookup_delete_Some. naive_solver.
Qed.

Lemma refreshed_member id' :
  member_of refreshed id' =
  if bool_decide (id' = id) then Some (set_registration m reg text) else member_of T id'.
Proof.
  destruct refreshed_fields as (Eb & Et & _). destruct refreshed_state as [Hb _].
  unfold member_of, get_team. rewrite Eb, Et. destruct (decide (id' = id)) as [->|Hne].
  - rewrite Hb, bool_decide_true by done. simpl. rewrite lookup_insert_eq. simpl.
    by rewrite map_get_set, bool_decide_true.
  - rewrite bool_decide_false by done. destruct (byMember T !! id') as [r'|]; simpl; [|done].
    destruct (decide (r' = r)) as [->|Hr]; [|by rewrite lookup_insert_ne].
    rewrite lookup_insert_eq, Ht. simpl. by rewrite map_get_set, bool_decide_false.
Qed.

Lemma refreshed_ok logs : registers logs T refreshed id r.
Proof.
  destruct refreshed_fields as (Eb & Et & En & El & Ev & Es). destruct refreshed_state as [Hb Hmem].
  destruct (ok_id _ Hok id m Hmem) as [Em Hlt].
  assert (∀ id' m', member_of refreshed id' = Some m' → ∃ m0, member_of T id' = Some m0 ∧
    ms_ref m' = ms_ref m0 ∧ ms_source m' = ms_source m0 ∧ pending m' = pending m0 ∧ drained m' = drained m0) as Hback.
  { intros id' m'. rewrite refreshed_member. case_bool_decide as E; [|by eauto 10]. subst.
    intros [= <-]. exists m. split_and!; try done. unfold ms_source at 1. simpl. congruence. }
  assert (∀ id', ms_ref <$> member_of refreshed id' = ms_ref <$> member_of T id') as Href.
  { intros id'. rewrite refreshed_member. case_bool_decide; [|done]. subst. by rewrite Hmem. }
  split; [split|split| | |].
  - assert (team_wf (update_member T r t id (set_registration m reg text))) as [W1 W2 W3].
    { apply update_member_wf; [apply Hok|done|]. apply map_get_keys. by rewrite Hm. }
    simpl in *. split; by rewrite ?Eb, ?Et, ?En.
  - intros id' m' (m0 & H0 & -> & -> & _)%Hback. rewrite En. by apply (ok_id _ Hok).
  - intros id1 id2 m1 m2 (n1 & H1 & -> & _)%Hback (n2 & H2 & -> & _)%Hback. by apply (ok_ref _ Hok).
  - intros id' ref. rewrite El, Href. apply (ok_log _ Hok).
  - intros id' ref. rewrite Ev, Href. apply (ok_live _ Hok).
  - rewrite El, Ev. apply (ok_nodup _ Hok).
  - intros ref text'. rewrite Es, (ok_sections _ Hok). split.
    + intros [(Htg & -> & ->)|(Hne & i & n & Hn & Er & Hrest)].
      * eexists id, _. by rewrite refreshed_member, bool_decide_true.
      * exists i, n. rewrite refreshed_member, bool_decide_false by congruence. by split.
    + intros (i & n & Hn & Er & Htg & Ex). rewrite refreshed_member in Hn. case_bool_decide as Ei.
      * subst i. injection Hn as <-. left. by subst.
      * right. split; [|by exists i, n]. intros E. apply Ei. apply (ok_ref _ Hok i id n m); congruence.
  - intros id' m' (m0 & H0 & _ & _ & -> & ->)%Hback. by apply (ok_quiet _ Hok).
  - by rewrite En.
  - intros id' m' (m0 & H0 & Er & _ & _ & Ed)%Hback _. exists m0. split; [done|]. split; [done|].
    rewrite Ed. apply union_subseteq_l.
  - rewrite Et, lookup_insert_eq. eauto.
  - intros id'. rewrite Eb. case_bool_decide; by subst.
  - intros id' Hne. by rewrite refreshed_member, bool_decide_false.
Qed.
End Refresh.

(** The state a registration leaves its member in. *)
Definition enrolled (T : Team) (reg : TeamMemberRegistration) (text : string) : Prop :=
  ∃ m, member_of T (src_id (reg_source reg)) = Some m ∧ registration m = reg ∧ sectionText m = text.

Lemma register_member_ok logs T r reg text :
  team_ok T → is_Some (teams T !! r) → reg_source reg = src (src_id (reg_source reg)) →
  opens T (src_id (reg_source reg)) r →
  registers logs T (register_member r text T reg) (src_id (reg_source reg)) r ∧
  enrolled (register_member r text T reg) reg text.
Proof.
  intros Hok [t Ht] Hsrc Hop. unfold register_member. rewrite Ht.
  destruct (map_get (members t) (src_id (reg_source reg))) as [m|] eqn:Em.
  - split; [by apply (refreshed_ok T r t m reg text)|].
    pose proof (refreshed_member T r t m reg text Hok Ht Hsrc Em (src_id (reg_source reg))) as E.
    rewrite bool_decide_true in E by done. eexists. split; [exact E|done].
  - pose proof (created_member T r t reg text Ht (src_id (reg_source reg))) as E.
    rewrite bool_decide_true in E by done. split; [|eexists; split; [exact E|done]].
    apply (created_ok T r t reg text); [done..|]. destruct Hop as [?|Hb]; [done|].
    apply (wf_by _ (ok_wf _ Hok)) in Hb as (t' & Ht' & Hin). rewrite Ht in Ht'. injection Ht' as <-.
    apply map_get_keys in Hin as [m Hm']. congruence.
Qed.

(** *** [register] *)

Lemma resolveTeam_spec T ids found found' :
  resolveTeam T ids found = Some found' →
  (found = None ∨ found' = found) ∧
  (∀ id, id ∈ ids → byMember T !! id = None ∨ (is_Some found' ∧ byMember T !! id = found')) ∧
  (found' = found ∨ ∃ id, byMember T !! id = found').
Proof.
  revert found. induction ids as [|id ids IH]; intros found; simpl.
  - intros [= <-]. split_and!; [by right|by intros ? ?%elem_of_nil|by left].
  - setoid_rewrite elem_of_cons. destruct (byMember T !! id) as [r|] eqn:Er.
    + destruct found as [f|]; [case_bool_decide; [subst|done]|]; intros (H1 & H2 & H3)%IH.
      * destruct H1 as [?| ->]; [done|]. split_and!; [by right| |by left].
        intros i [->|Hi]; [right; by split|by apply H2].
      * destruct H1 as [?| ->]; [done|]. split_and!; [by left| |right; by exists id].
        intros i [->|Hi]; [right; by split|by apply H2].
    + intros (H1 & H2 & H3)%IH. split_and!; [done| |done]. intros i [->|Hi]; [by left|by apply H2].
Qed.

Lemma open_team_ok logs T found reg T' r :
  team_ok T → (∀ f, found = Some f → is_Some (teams T !! f)) → open_team T found reg = (T', r) →
  team_ok T' ∧ evolves logs T T' ∧ is_Some (teams T' !! r) ∧ byMember T' = byMember T ∧
  (found = None ∨ found = Some r).
Proof.
  intros Hok Hf. pose proof (ok_wf _ Hok) as Hwf. unfold open_team. destruct found as [f|]; simpl.
  - destruct (Hf f eq_refl) as [t Ht]. rewrite Ht. simpl. intros [= <- <-].
    destruct (put_members_ok logs T f t (tr_goal reg) (tr_context reg) (consumers t) (members t) Hok Ht) as [H1 H2].
    { induction (members t); constructor; [|done]. split; [done|apply stays_refl]. }
    split_and!; [done|done| |done|by right]. simpl. rewrite lookup_insert_eq. eauto.
  - intros [= <- <-].
    assert (∀ id, byMember T !! id ≠ Some (next_ref T)) as Hnb.
    { intros id Hb. apply (wf_by _ Hwf) in Hb as (t & Ht & _).
      pose proof (wf_fresh _ Hwf _ (mk_is_Some _ _ Ht)). lia. }
    set (T' := put_team _ _ _).
    assert (∀ id, member_of T' id = member_of T id) as Hmem.
    { intros id. unfold member_of, get_team. simpl. destruct (byMember T !! id) as [r|] eqn:E; simpl; [|done].
      rewrite lookup_insert_ne; [done|]. intros <-. by apply (Hnb id). }
    split_and!; [..|by left].
    + destruct Hok. split; try done.
      * split; simpl.
        -- intros id r. rewrite (wf_by _ Hwf). destruct (decide (r = next_ref T)) as [->|Hr].
           ++ rewrite lookup_insert_eq. split.
              ** intros Hx. apply (wf_by _ Hwf) in Hx. by apply Hnb in Hx.
              ** intros (t & [= <-] & Hx). by apply elem_of_nil in Hx.
           ++ by rewrite lookup_insert_ne.
        -- intros r t. destruct (decide (r = next_ref T)) as [->|Hr].
           ++ rewrite lookup_insert_eq. intros [= <-]. constructor.
           ++ rewrite lookup_insert_ne by done. apply (wf_nodup _ Hwf).
        -- intros r. destruct (decide (r = next_ref T)) as [->|Hr]; [simpl; lia|].
           rewrite lookup_insert_ne by done. intros Hs. pose proof (wf_fresh _ Hwf r Hs). lia.
      * intros id m. rewrite Hmem. intros Hm. destruct (ok_id0 _ _ Hm). split; [done|simpl; lia].
      * intros id id' m m'. rewrite !Hmem. apply ok_ref0.
      * intros id ref. rewrite Hmem. apply ok_log0.
      * intros id ref. rewrite Hmem. apply ok_live0.
      * intros ref text. setoid_rewrite Hmem. apply ok_sections0.
      * intros id m. rewrite Hmem. apply ok_quiet0.
    + split; simpl; [lia|]. intros id m. rewrite Hmem. intros Hm _. exists m. split; [done|]. apply stays_refl.
    + simpl. rewrite lookup_insert_eq. eauto.
    + done.
Qed.

Lemma register_members_ok logs T r text regs :
  team_ok T → is_Some (teams T !! r) →
  Forall (λ reg, reg_source reg = src (src_id (reg_source reg))) regs →
  (∀ reg, reg ∈ regs → opens T (src_id (reg_source reg)) r) →
  let T' := fold_left (register_member r text) regs T in
  team_ok T' ∧ evolves logs T T' ∧ is_Some (teams T' !! r) ∧
  (∀ id, byMember T' !! id =
    if bool_decide (id ∈ map (src_id ∘ reg_source) regs) then Some r else byMember T !! id) ∧
  (∀ id, id ∉ map (src_id ∘ reg_source) regs → member_of T' id = member_of T id) ∧
  (NoDup (map (src_id ∘ reg_source) regs) → ∀ reg, reg ∈ regs → enrolled T' reg text).
Proof.
  revert T. induction regs as [|reg regs IH]; intros T Hok Hr Hsrc Hop; simpl.
  { split_and!; [done|apply evolves_refl|done| |done|by intros _ ? ?%elem_of_nil]. intros id. by rewrite ?bool_decide_false by apply not_elem_of_nil. }
  inversion Hsrc as [|? ? Hs1 Hs2]; subst.
  destruct (register_member_ok logs T r reg text) as [[H1 H2 H3 H4 H4'] (n & Hn & Hn')];
    [done..|apply Hop; by constructor|].
  destruct (IH (register_member r text T reg)) as (H5 & H6 & H7 & H8 & H9 & H10); [done|done|done| |].
  { intros reg' Hin. unfold opens. rewrite H4. case_bool_decide; [by right|]. apply Hop. by constructor. }
  split_and!; [done|by eapply evolves_trans|done|..].
  - intros id. rewrite H8, H4. repeat case_bool_decide; set_solver.
  - intros id [Hne Hni]%not_elem_of_cons. rewrite H9 by done. by apply H4'.
  - intros [Hni Hnd]%NoDup_cons reg' [->|Hin]%elem_of_cons; [|by apply H10].
    exists n. split; [|done]. by rewrite H9.
Qed.

Lemma reconcile_all_ok logs T r :
  team_ok T → team_ok (reconcile_all logs T r) ∧ evolves logs T (reconcile_all logs T r).
Proof.
  intros Hok. unfold reconcile_all. destruct (teams T !! r) as [t|] eqn:Ht; [|by split; [|apply evolves_refl]].
  apply (put_members_ok logs T r t); [done..|].
  assert (∀ km, km ∈ members t → ms_id km.2 = km.1) as Hid.
  { intros [id m] Hin. destruct (member_of_team T r t id m) as [_ Hm]; [apply Hok|done| |].
    - apply map_get_nodup; [by apply (wf_nodup _ (ok_wf _ Hok) r)|done].
    - destruct (ok_id _ Hok _ _ Hm) as [E _]. simpl. unfold ms_id. by rewrite E. }
  clear -Hid src_id_ok. induction (members t) as [|[id m] l IH]; constructor.
  - split; [done|]. apply reconcile_stays, (Hid (id, m)). by constructor.
  - apply IH. intros km Hin. apply Hid. by constructor.
Qed.

Lemma listed_twice_None seen ids :
  listed_twice seen ids = None → NoDup ids ∧ ∀ id, id ∈ ids → id ∉ seen.
Proof.
  clear src src_id_ok.
  revert seen. induction ids as [|id ids IH]; intros seen; simpl; [by split; [constructor|intros ? ?%elem_of_nil]|].
  case_bool_decide; [done|]. intros [H1 H2]%IH. split.
  - constructor; [|done]. intros Hin. apply H2 in Hin. set_solver.
  - intros i [->|Hi]%elem_of_cons; [done|]. apply H2 in Hi. set_solver.
Qed.

Lemma fold_dropMember_by ids T id :
  byMember (fold_left dropMember ids T) !! id = if bool_decide (id ∈ ids) then None else byMember T !! id.
Proof.
  clear src src_id_ok.
  revert T. induction ids as [|i ids IH]; intros T; simpl; [by rewrite ?bool_decide_false by apply not_elem_of_nil|].
  rewrite IH. assert (byMember (dropMember T i) = delete i (byMember T)) as ->.
  { unfold dropMember. destruct (byMember T !! i) as [r|] eqn:E; [|by rewrite delete_id].
    simpl. destruct (teams T !! r) as [t|]; [|done]. by destruct (map_get (members t) i). }
  destruct (decide (id = i)) as [->|Hne].
  - rewrite lookup_delete_eq. repeat case_bool_decide; set_solver.
  - rewrite lookup_delete_ne by done. repeat case_bool_decide; set_solver.
Qed.

Lemma register_ok logs T reg :
  team_ok T → reg_ok reg → team_ok (register logs T reg).1 ∧ evolves logs T (register logs T reg).1.
Proof.
  intros Hok Hreg. assert (team_ok T ∧ evolves logs T T) as Hsame by (split; [done|apply evolves_refl]).
  unfold register. destruct (tr_members reg) as [|m0 ms] eqn:Ems; [done|]. rewrite <- Ems.
  destruct (listed_twice ∅ (ids_of reg)); [done|].
  destruct (resolveTeam T (ids_of reg) None) as [found|] eqn:Ef; [|done].
  apply resolveTeam_spec in Ef as (_ & Hopens & Hfound).
  destruct (open_team T found reg) as [T1 r] eqn:Eo.
  destruct (open_team_ok logs T found reg T1 r) as (H1 & H2 & H3 & H4 & H5); [done| |done|].
  { intros f ->. destruct Hfound as [|[id Hid]]; [done|].
    apply (wf_by _ (ok_wf _ Hok)) in Hid as (t & -> & _). eauto. }
  destruct (register_members_ok logs T1 r (section_text reg) (tr_members reg)) as (H6 & H7 & H8 & H9 & _ & _);
    [done..| |].
  { intros m Hin. unfold opens. rewrite H4.
    destruct (Hopens (src_id (reg_source m))) as [?|[[f ->] ?]]; [|by left|right].
    - unfold ids_of. apply list_elem_of_fmap. by exists m.
    - destruct H5 as [?|[= ->]]; done. }
  set (T2 := fold_left _ _ _) in *. simpl.
  assert (team_ok (drop_absent T2 r (ids_of reg)) ∧ evolves logs T2 (drop_absent T2 r (ids_of reg))) as [H10 H11].
  { unfold drop_absent. destruct (teams T2 !! r); [by apply fold_dropMember_ok|by split; [|apply evolves_refl]]. }
  destruct (reconcile_all_ok logs (drop_absent T2 r (ids_of reg)) r H10) as [H12 H13].
  split; [done|]. eauto using evolves_trans.
Qed.

End Registry.

(** ** Runs *)

Section Runs.
Context (src : string → TeamMemberSource) (src_id_ok : ∀ id, src_id (src id) = id).
Context {Live : Type}.

Implicit Types (w : World) (op : Op (Live := Live)).

Definition new_world : World := mkWorld new_team ∅.

Definition op_ok op : Prop :=
  match op with OpRegister reg => reg_ok src reg | _ => True end.

Definition world_ok w : Prop := team_ok src (w_team w).

Lemma consumed_snoc w id e id' :
  consumedAnchors (log_of w id') ⊆ consumedAnchors (log_of (log_event w id e) id').
Proof.
  unfold log_of at 2. simpl. destruct (decide (id' = id)) as [->|Hne].
  - rewrite lookup_insert_eq. simpl. unfold consumedAnchors. rewrite omap_app, list_to_set_app_L. set_solver.
  - by rewrite lookup_insert_ne.
Qed.

Lemma run_op_ok w op :
  world_ok w → op_ok op →
  world_ok (run_op w op).1 ∧ evolves (log_of (run_op w op).1) (w_team w) (w_team (run_op w op).1) ∧
  ∀ id, consumedAnchors (log_of w id) ⊆ consumedAnchors (log_of (run_op w op).1 id).
Proof.
  intros Hw Hop. unfold world_ok in *. destruct op as [reg|r|id|id e []|id l|id|r c|r c]; simpl.
  - destruct (register_ok src src_id_ok (log_of w) (w_team w) reg Hw Hop). by split_and!.
  - destruct (disposeTeam_ok src (log_of w) (w_team w) r Hw). by split_and!.
  - destruct (dropMember_ok src (log_of w) (w_team w) id Hw). by split_and!.
  - destruct (log_callbacks_ok src src_id_ok (Live := Live) (log_of (log_event w id e)) (w_team w) id e Hw).
    destruct (log_callbacks _ _ _ _) as [T effs] eqn:E. simpl in *. split_and!; [done|done|].
    intros id'. apply consumed_snoc.
  - split_and!; [done|apply evolves_refl|]. intros id'. apply consumed_snoc.
  - split_and!; [done|apply evolves_refl|done].
  - destruct (drain_ok src src_id_ok (log_of w) (w_team w) id Hw). by split_and!.
  - unfold stream_subscribe. destruct (teams (w_team w) !! r) as [t|] eqn:Ht; [|by split_and!; [|apply evolves_refl|]].
    case_bool_decide; [by split_and!; [|apply evolves_refl|]|].
    destruct (set_consumers_ok src (log_of w) (w_team w) r t (consumers t ++ [c]) Hw Ht). by split_and!.
  - unfold stream_unsubscribe. destruct (teams (w_team w) !! r) as [t|] eqn:Ht; [|by split_and!; [|apply evolves_refl|]].
    destruct (set_consumers_ok src (log_of w) (w_team w) r t (filter (λ c', c' ≠ c) (consumers t)) Hw Ht).
    by split_and!.
Qed.

Lemma run_ops_ok w ops : world_ok w → Forall op_ok ops → world_ok (run_ops w ops).
Proof.
  revert w. induction ops as [|op ops IH]; intros w Hw Hops; [done|].
  inversion Hops; subst. apply IH; [|done]. by apply run_op_ok.
Qed.

(** An anchor a member has taken: drained, or consumed in its log, as long as the
    member stays registered under the same state. *)
Definition taken w (id : string) (ref : nat) (a : string) : Prop :=
  (ref < next_ref (w_team w))%nat ∧
  ∀ m, member_of (w_team w) id = Some m → ms_ref m = ref →
    a ∈ drained m ∨ a ∈ consumedAnchors (log_of w id).

Lemma run_op_taken w op id ref a :
  world_ok w → op_ok op → taken w id ref a → taken (run_op w op).1 id ref a.
Proof.
  intros Hw Hop [Hlt Ht]. destruct (run_op_ok w op Hw Hop) as (_ & [Hn Hev] & Hc).
  split; [lia|]. intros m' Hm' Hr. destruct (Hev id m' Hm' ltac:(lia)) as (m & Hm & [Er Ed]).
  destruct (Ht m Hm ltac:(congruence)) as [Ha|Ha]; [apply Ed in Ha; set_solver|].
  right. by apply Hc.
Qed.

Lemma run_ops_taken w ops id ref a :
  world_ok w → Forall op_ok ops → taken w id ref a → taken (run_ops w ops) id ref a.
Proof.
  revert w. induction ops as [|op ops IH]; intros w Hw Hops Ht; [done|].
  inversion Hops; subst. apply IH; [by apply run_op_ok|done|]. by apply run_op_taken.
Qed.

(** *** Drain *)

Definition anchor_of (p : PendingUnit) : string := u_anchor (pu_unit p).

Lemma elem_of_candidates logs (t : TeamState) (m : MemberState) consumed dr p :
  p ∈ concat (map (λ s, units_for logs consumed dr m s.2) (members t)) ↔
  ∃ id s u, (id, s) ∈ members t ∧ ms_ref s ≠ ms_ref m ∧ u ∈ deriveUnits (logs (ms_id s)) ∧
    u_anchor u ∉ consumed ∧ u_anchor u ∉ dr ∧ p = tag_unit s u.
Proof.
  rewrite list_elem_of_In, in_concat. split.
  - intros (l & Hl & Hp). apply in_map_iff in Hl as ([id s] & <- & Hin).
    unfold units_for in Hp. simpl in Hp. case_bool_decide; [done|].
    apply in_map_iff in Hp as (u & <- & Hu). apply list_elem_of_In, list_elem_of_filter in Hu as [[] Hu].
    apply list_elem_of_In in Hin. exists id, s, u. by split_and!.
  - intros (id & s & u & Hin & Hr & Hu & Hc & Hd & ->).
    eexists. split; [apply in_map_iff; exists (id, s); split; [done|by apply list_elem_of_In]|].
    unfold units_for. simpl. rewrite bool_decide_false by done. apply in_map_iff. exists u. split; [done|].
    apply list_elem_of_In, list_elem_of_filter. by split_and!.
Qed.

Lemma drain_units_total logs t units dr msgs :
  (∀ p, p ∈ units → is_Some (buildMessage logs t p)) →
  ∃ ms, drain_units logs t units dr msgs =
    (dr ∪ list_to_set (map anchor_of units), Drained (msgs ++ ms)) ∧
    Forall2 (λ p m, buildMessage logs t p = Some m) units ms.
Proof.
  revert dr msgs. induction units as [|p units IH]; intros dr msgs Hall; simpl.
  - exists []. rewrite app_nil_r. split; [|constructor]. f_equal. set_solver.
  - destruct (Hall p) as [m Hm]; [by constructor|]. rewrite Hm.
    destruct (IH (dr ∪ {[u_anchor (pu_unit p)]}) (msgs ++ [m])) as (ms & -> & Hms).
    { intros q Hq. apply Hall. by constructor. }
    exists (m :: ms). split; [|by constructor]. rewrite <- app_assoc. simpl. f_equal.
    unfold anchor_of at 2. set_solver.
Qed.

(** A unit of a registered sender builds. *)
Lemma build_total logs (T : Team) r t id s u :
  team_ok src T → teams T !! r = Some t → map_get (members t) id = Some s →
  u ∈ deriveUnits (logs id) →
  ∃ text, buildMessage logs t (tag_unit s u) =
    Some (mkUserMessage text (TeamBroadcast (mkBroadcastSource (ms_role s) id (u_anchor u) (context t)))) ∧
    renderBroadcast (ms_role s) u (logs id) (context t) = Some text.
Proof.
  intros Hok Ht Hs Hu. destruct (member_of_team T r t id s (ok_wf _ _ Hok) Ht Hs) as [_ Hm].
  destruct (ok_id _ _ Hok id s Hm) as [Esrc _].
  assert (ms_id s = id) as Hid by (unfold ms_id; by rewrite Esrc).
  destruct (derived_unit_some (ms_role s) (logs id) (context t) u Hu) as [text Htext].
  exists text. split; [|done]. unfold buildMessage, tag_unit, buildBroadcastMessage. simpl.
  by rewrite Hid, Hs, Hid, Htext.
Qed.

Definition due logs (t : TeamState) (m : MemberState) : list PendingUnit :=
  pending (rebuild logs t m).

Lemma elem_of_due logs (T : Team) r t id m p :
  team_ok src T → teams T !! r = Some t → map_get (members t) id = Some m →
  p ∈ due logs t m ↔
  ∃ id' s u, map_get (members t) id' = Some s ∧ id' ≠ id ∧ u ∈ deriveUnits (logs id') ∧
    u_anchor u ∉ consumedAnchors (logs id) ∧ u_anchor u ∉ drained m ∧ p = tag_unit s u.
Proof.
  intros Hok Ht Hm.
  assert (∀ i n, map_get (members t) i = Some n → member_of T i = Some n ∧ ms_id n = i) as Hi.
  { intros i n Hn. destruct (member_of_team T r t i n (ok_wf _ _ Hok) Ht Hn) as [_ Hmem].
    split; [done|]. destruct (ok_id _ _ Hok i n Hmem) as [E _]. unfold ms_id. by rewrite E. }
  destruct (Hi _ _ Hm) as [Hmem Hid].
  unfold due. simpl. rewrite sort_pending_perm, elem_of_candidates, Hid. split.
  - intros (id' & s & u & Hin & Hr & Hu & Hc & Hd & ->).
    assert (map_get (members t) id' = Some s) as Hs
      by (apply map_get_nodup; [by apply (wf_nodup _ (ok_wf _ _ Hok) r)|done]).
    destruct (Hi _ _ Hs) as [Hms Eid]. rewrite Eid in Hu. exists id', s, u. split_and!; try done.
    + intros ->. congruence.
    + set_solver.
  - intros (id' & s & u & Hs & Hne & Hu & Hc & Hd & ->). destruct (Hi _ _ Hs) as [Hms Eid].
    exists id', s, u. rewrite Eid. split_and!; try done; [by apply map_get_elem| |set_solver].
    intros Er. by apply Hne, (ok_ref _ _ Hok id' id s m).
Qed.

Lemma drain_registered logs (T : Team) id m :
  team_ok src T → member_of T id = Some m → src_consumes (src id) = true →
  ∃ r t msgs, byMember T !! id = Some r ∧ teams T !! r = Some t ∧ map_get (members t) id = Some m ∧
    (drain logs T id).2 = Drained msgs ∧
    Forall2 (λ p msg, buildMessage logs t p = Some msg) (due logs t m) msgs ∧
    ∀ id', member_of (drain logs T id).1 id' =
      if bool_decide (id' = id) then
        Some (set_queue m [] (drained m ∖ consumedAnchors (logs id) ∪ list_to_set (map anchor_of (due logs t m))))
      else member_of T id'.
Proof.
  intros Hok Hm Hc. destruct (ok_id _ _ Hok id m Hm) as [Esrc _].
  assert (ms_id m = id) as Hid by (unfold ms_id; by rewrite Esrc).
  apply member_of_Some in Hm as (r & t & Hb & Ht & Hm).
  destruct (drain_units_total logs t (due logs t m) (drained m ∖ consumedAnchors (logs id)) [])
    as (msgs & Ed & Hmsgs).
  { intros p Hp. apply (elem_of_due logs T r t id m p) in Hp as (id' & s & u & Hs & _ & Hu & _ & _ & ->); [|done..].
    destruct (build_total logs T r t id' s u Hok Ht Hs Hu) as (text & -> & _). eauto. }
  assert (pending (reconcile logs T m) = due logs t m ∧
    drained (reconcile logs T m) = drained m ∖ consumedAnchors (logs id)) as [Ep Edr].
  { unfold reconcile, due. rewrite Esrc, Hc, Hid, (proj2 (get_team_Some T id r t)) by done. simpl.
    by rewrite Hid. }
  assert (drain logs T id = (update_member T r t id (set_queue (reconcile logs T m) []
      (drained m ∖ consumedAnchors (logs id) ∪ list_to_set (map anchor_of (due logs t m)))), Drained msgs)) as E.
  { unfold drain. rewrite (proj2 (get_team_Some T id r t)) by done. simpl. rewrite Hm, Esrc, Hc, Ep, Edr.
    by rewrite Ed. }
  exists r, t, msgs. split_and!; [done..|by rewrite E|done|].
  intros id'. rewrite E. simpl. rewrite (update_member_member T r t) by done.
  case_bool_decide; [|done]. f_equal. unfold reconcile. rewrite Esrc, Hc.
  by rewrite Hid, (proj2 (get_team_Some T id r t)) by done.
Qed.

Lemma due_nodup logs (T : Team) r t id m :
  team_ok src T → teams T !! r = Some t → map_get (members t) id = Some m →
  (∀ i, distinct_ids (logs i)) → NoDup (due logs t m).
Proof.
  intros Hok Ht Hm Hd. unfold due. simpl. rewrite sort_pending_perm.
  generalize (consumedAnchors (logs (ms_id m))). intros C. generalize (drained m ∖ C). intros D.
  assert (∀ km, km ∈ members t → ms_id km.2 = km.1) as Hid.
  { intros [i n] Hin. destruct (member_of_team T r t i n (ok_wf _ _ Hok) Ht) as [_ Hn].
    - apply map_get_nodup; [by apply (wf_nodup _ (ok_wf _ _ Hok) r)|done].
    - destruct (ok_id _ _ Hok i n Hn) as [E _]. simpl. unfold ms_id. by rewrite E. }
  pose proof (wf_nodup _ (ok_wf _ _ Hok) r t Ht) as Hnd. clear -Hid Hnd Hd.
  assert (∀ s p, p ∈ units_for logs C D m s → pu_senderSessionId p = ms_id s) as Hsender.
  { intros s p. unfold units_for. case_bool_decide; [by intros ?%elem_of_nil|].
    intros Hp. apply list_elem_of_fmap in Hp as (u & -> & _). done. }
  induction (members t) as [|[i n] l IH]; simpl in *; [constructor|].
  apply NoDup_cons in Hnd as [Hi Hnd]. apply NoDup_app. split_and!.
  - unfold units_for. case_bool_decide; [constructor|]. apply NoDup_fmap_2.
    + by intros u u' [= ->].
    + by apply NoDup_filter, deriveUnits_nodup.
  - intros p Hp%Hsender Hq. rewrite list_elem_of_In, in_concat in Hq. destruct Hq as (l' & Hl & Hq).
    apply in_map_iff in Hl as ([i' n'] & <- & Hin). apply list_elem_of_In, Hsender in Hq. simpl in Hq.
    apply list_elem_of_In in Hin. apply Hi.
    pose proof (Hid (i, n) ltac:(by constructor)) as E1. pose proof (Hid (i', n') ltac:(by constructor)) as E2.
    simpl in *. assert (i = i') as -> by congruence. apply list_elem_of_fmap. by exists (i', n').
  - apply IH; [|done]. intros km Hkm. apply Hid. by constructor.
Qed.

(** Drain delivers what is due.  In every reachable state, draining a
    registered consuming member never fails: it returns one message per unit
    that another member of its team has produced and that this member has neither
    drained nor consumed in its log, and no other; the messages come in the order
    of the productions (by time, then sequence number), each attributed to its
    sender, anchored at its unit and rendered from the sender's log.  When the
    logs reuse no identity, no unit is delivered twice in one drain. *)
Theorem drain_delivers ops id m (Hops : Forall op_ok ops)
    (Hm : member_of (w_team (run_ops new_world ops)) id = Some m) (Hc : src_consumes (src id) = true) :
  let w := run_ops new_world ops in
  ∃ us msgs ctx, (drain (log_of w) (w_team w) id).2 = Drained msgs ∧ StronglySorted pending_le us ∧
    Forall2 (λ p msg,
      um_source msg = TeamBroadcast (mkBroadcastSource (pu_senderRole p) (pu_senderSessionId p) (anchor_of p) ctx) ∧
      renderBroadcast (pu_senderRole p) (pu_unit p) (log_of w (pu_senderSessionId p)) ctx = Some (um_text msg))
      us msgs ∧
    (∀ p, p ∈ us ↔ ∃ id' s u,
      member_of (w_team w) id' = Some s ∧ byMember (w_team w) !! id' = byMember (w_team w) !! id ∧ id' ≠ id ∧
      u ∈ deriveUnits (log_of w id') ∧ u_anchor u ∉ consumedAnchors (log_of w id) ∧
      u_anchor u ∉ drained m ∧ p = mkPendingUnit u id' (ms_role s)) ∧
    ((∀ i, distinct_ids (log_of w i)) → NoDup us).
Proof.
  intros w. assert (world_ok w) as Hok by (apply run_ops_ok; [apply new_team_ok|done]).
  unfold world_ok in Hok. fold w in Hm.
  destruct (drain_registered (log_of w) (w_team w) id m Hok Hm Hc) as (r & t & msgs & Hb & Ht & Hg & Ed & Hmsgs & _).
  assert (∀ id' s, map_get (members t) id' = Some s ↔
    member_of (w_team w) id' = Some s ∧ byMember (w_team w) !! id' = byMember (w_team w) !! id) as Hmem.
  { intros id' s. rewrite Hb. split.
    - intros Hs. by destruct (member_of_team _ r t id' s (ok_wf _ _ Hok) Ht Hs).
    - intros [(r' & t' & Hb' & Ht' & Hs)%member_of_Some E]. congruence. }
  assert (∀ id' s, map_get (members t) id' = Some s → ms_id s = id') as Hid.
  { intros id' s [Hs _]%Hmem. destruct (ok_id _ _ Hok _ _ Hs) as [E _]. unfold ms_id. by rewrite E. }
  exists (due (log_of w) t m), msgs, (context t). split_and!; [done|apply sort_pending_sorted|..].
  - apply (Forall2_impl_elem _ _ _ _ Hmsgs). intros p msg Hp Hbuild.
    apply (elem_of_due (log_of w) (w_team w) r t id m p) in Hp as (id' & s & u & Hs & _ & Hu & _ & _ & ->);
      [|done..].
    destruct (build_total (log_of w) (w_team w) r t id' s u Hok Ht Hs Hu) as (text & E & Htext).
    rewrite E in Hbuild. injection Hbuild as <-. unfold tag_unit. simpl. by rewrite (Hid _ _ Hs).
  - intros p. rewrite (elem_of_due (log_of w) (w_team w) r t id m) by done. split.
    + intros (id' & s & u & Hs & Hne & Hu & Hcon & Hdr & ->). pose proof (Hid _ _ Hs) as E.
      apply Hmem in Hs as [Hs Es]. exists id', s, u. unfold tag_unit. rewrite E. by split_and!.
    + intros (id' & s & u & Hs & Es & Hne & Hu & Hcon & Hdr & ->).
      assert (map_get (members t) id' = Some s) as Hs' by (by apply Hmem).
      exists id', s, u. unfold tag_unit. rewrite (Hid _ _ Hs'). by split_and!.
  - intros Hd. by apply (due_nodup (log_of w) (w_team w) r t id m).
Qed.

(** The anchor a message consumes once it is in a log. *)
Definition msg_anchor (msg : UserMessage) : option string :=
  match um_source msg with TeamBroadcast b => Some (bs_messageId b) | SourceOther _ => None end.

Lemma buildMessage_anchor logs t p msg : buildMessage logs t p = Some msg → msg_anchor msg = Some (anchor_of p).
Proof.
  unfold buildMessage, buildBroadcastMessage. destruct (renderBroadcast _ _ _ _); [|done]. by intros [= <-].
Qed.

Lemma drained_anchor logs (T : Team) id m msgs msg a :
  team_ok src T → member_of T id = Some m → src_consumes (src id) = true →
  (drain logs T id).2 = Drained msgs → msg ∈ msgs → msg_anchor msg = Some a →
  a ∉ drained m ∧ a ∉ consumedAnchors (logs id) ∧
  ∃ m', member_of (drain logs T id).1 id = Some m' ∧ a ∈ drained m'.
Proof.
  intros Hok Hm Hc Hd Hin Ha.
  destruct (drain_registered logs T id m Hok Hm Hc) as (r & t & msgs' & Hb & Ht & Hg & Ed & Hmsgs & Hmem).
  rewrite Hd in Ed. injection Ed as <-.
  apply list_elem_of_lookup in Hin as [i Hi].
  destruct (Forall2_lookup_r _ _ _ _ _ Hmsgs Hi) as (p & Hp & Hbuild).
  apply buildMessage_anchor in Hbuild. rewrite Ha in Hbuild. injection Hbuild as ->.
  apply list_elem_of_lookup_2 in Hp. split_and!.
  - apply (elem_of_due logs T r t id m p) in Hp as (_ & s & u & _ & _ & _ & _ & ? & ->); done.
  - apply (elem_of_due logs T r t id m p) in Hp as (_ & s & u & _ & _ & _ & ? & _ & ->); done.
  - rewrite Hmem, bool_decide_true by done. eexists. split; [done|]. simpl.
    apply elem_of_union_r, elem_of_list_to_set, list_elem_of_fmap. by exists p.
Qed.

(** No broadcast is delivered twice.  Once a drain has returned a message to a
    member, no later drain of that member returns a message with the same anchor,
    whatever happens in between (productions, missed notifications, drains,
    refreshed registrations, failures to inject), as long as the member stays
    registered: from the moment it is drained the anchor is marked, and the mark
    is only cleared by its appearance in the member's log. *)
Theorem drained_once ops id m msgs msg a ops' m' msgs' msg'
    (Hops : Forall op_ok ops) (Hops' : Forall op_ok ops') (Hc : src_consumes (src id) = true) :
  let w := run_ops new_world ops in
  let w' := run_ops (run_op w (OpDrain (Live := Live) id)).1 ops' in
  member_of (w_team w) id = Some m → (drain (log_of w) (w_team w) id).2 = Drained msgs →
  msg ∈ msgs → msg_anchor msg = Some a →
  member_of (w_team w') id = Some m' → ms_ref m' = ms_ref m →
  (drain (log_of w') (w_team w') id).2 = Drained msgs' → msg' ∈ msgs' → msg_anchor msg' ≠ Some a.
Proof.
  intros w w' Hm Hd Hin Ha Hm' Hr Hd' Hin' Ha'.
  assert (world_ok w) as Hok by (apply run_ops_ok; [apply new_team_ok|done]).
  pose proof (run_op_ok w (OpDrain (Live := Live) id) Hok I) as (Hok1 & [Hnext _] & _).
  destruct (drained_anchor _ _ _ _ _ _ _ Hok Hm Hc Hd Hin Ha) as (_ & _ & m1 & Hm1 & Ha1).
  assert (taken (run_op w (OpDrain (Live := Live) id)).1 id (ms_ref m) a) as Ht.
  { split.
    - destruct (ok_id _ _ Hok id m Hm). eapply Nat.lt_le_trans; [done|exact Hnext].
    - simpl. intros m2 Hm2 _. left. by simplify_eq. }
  apply (run_ops_taken _ ops') in Ht as [_ Ht]; [|done..].
  assert (world_ok w') as Hok' by (by apply run_ops_ok).
  destruct (drained_anchor _ _ _ _ _ _ _ Hok' Hm' Hc Hd' Hin' Ha') as (Hn1 & Hn2 & _).
  destruct (Ht m' Hm' Hr); contradiction.
Qed.

(** *** The live relay *)

(** Which members a unit reaches, what it does to them, and what they are handed. *)
Definition reaches (sender : MemberState) (u : BroadcastUnit) (km : string * MemberState) : bool :=
  negb (bool_decide (km.1 = ms_id sender)) && src_consumes (ms_source km.2) &&
  negb (bool_decide (u_anchor u ∈ drained km.2)).

Definition receive (sender : MemberState) (u : BroadcastUnit) (km : string * MemberState) : MemberState :=
  if reaches sender u km then set_queue km.2 (pending km.2 ++ [tag_unit sender u]) (drained km.2) else km.2.

Definition handed (sender : MemberState) (u : BroadcastUnit) (message : UserMessage) (km : string * MemberState)
    : list (TeamEffect (Live := Live)) :=
  if reaches sender u km && bool_decide (u_kind u = kind_message) && src_deliverInFlight (ms_source km.2)
  then [DeliveredInFlight (ms_id km.2) message] else [].

Lemma relay_loop_total logs t sender u message ms :
  buildMessage logs t (tag_unit sender u) = Some message →
  relay_loop (Live := Live) logs t sender u ms =
    (map (λ km, (km.1, receive sender u km)) ms, concat (map (handed sender u message) ms), true).
Proof.
  intros Hb. induction ms as [|[id m] ms IH]; simpl; [done|]. rewrite IH.
  assert (bool_decide (id = ms_id sender) || negb (src_consumes (ms_source m)) ||
    bool_decide (u_anchor u ∈ drained m) = negb (reaches sender u (id, m))) as ->
    by (unfold reaches; simpl; by rewrite !negb_andb, !negb_involutive).
  assert (receive sender u (id, m) = if reaches sender u (id, m)
    then set_queue m (pending m ++ [tag_unit sender u]) (drained m) else m) as -> by done.
  assert (handed sender u message (id, m) = if reaches sender u (id, m) &&
    bool_decide (u_kind u = kind_message) && src_deliverInFlight (ms_source m)
    then [DeliveredInFlight (ms_id m) message] else []) as -> by done.
  destruct (reaches sender u (id, m)); simpl; [|done]. rewrite Hb. simpl.
  unfold ms_source, set_queue at 1 3. simpl.
  by destruct (bool_decide (u_kind u = kind_message) && src_deliverInFlight (reg_source (registration m))).
Qed.

(** The callback of a registered member's log. *)
Lemma own_log_subs (T : Team) id m :
  team_ok src T → member_of T id = Some m → src_subscribe (src id) = true →
  filter (λ s : string * nat, s.1 = id) (log_subs T) = [(id, ms_ref m)].
Proof.
  intros Hok Hm Hs. destruct (ok_nodup _ _ Hok) as [Hnd _].
  assert ((id, ms_ref m) ∈ filter (λ s : string * nat, s.1 = id) (log_subs T)) as Hin.
  { apply list_elem_of_filter. split; [done|]. apply (ok_log _ _ Hok). by rewrite Hm. }
  assert (∀ s, s ∈ filter (λ s : string * nat, s.1 = id) (log_subs T) → s = (id, ms_ref m)) as Hall.
  { intros [i ref] [E Hl]%list_elem_of_filter. simpl in E. subst i. apply (ok_log _ _ Hok) in Hl as [_ Hl].
    rewrite Hm in Hl. by injection Hl as <-. }
  apply (NoDup_filter (λ s : string * nat, s.1 = id)) in Hnd.
  destruct (filter _ (log_subs T)) as [|s1 l]; [by apply elem_of_nil in Hin|].
  rewrite (Hall s1) by constructor. f_equal. destruct l as [|s2 l]; [done|]. exfalso.
  apply NoDup_cons in Hnd as [Hn _]. apply Hn. rewrite (Hall s1) by constructor.
  rewrite <- (Hall s2) by (right; left). by constructor.
Qed.

(** What one notified event does, for the registered sender [m]. *)
Record relayed (logs : string → list SessionEvent) (T : Team) (id : string) (m : MemberState)
    (us : list BroadcastUnit) (calls : gmap string (Z * Z))
    (r : Team * list (TeamEffect (Live := Live)) * bool) : Prop := {
  rl_sent : r.2 = true;
  rl_by : byMember r.1.1 = byMember T;
  rl_calls : ∃ m', member_of r.1.1 id = Some m' ∧ pendingCalls m' = calls ∧
    ms_ref m' = ms_ref m ∧ ms_role m' = ms_role m;
  rl_others id' s : member_of T id' = Some s → byMember T !! id' = byMember T !! id → id' ≠ id →
    member_of r.1.1 id' = Some (fold_left (λ s u, receive m u (id', s)) us s);
  rl_consumers r' t : byMember T !! id = Some r' → teams T !! r' = Some t →
    consumers <$> teams r.1.1 !! r' = Some (consumers t);
  rl_handed id' message : DeliveredInFlight id' message ∈ r.1.2 ↔
    ∃ s u, us = [u] ∧ member_of T id' = Some s ∧ byMember T !! id' = byMember T !! id ∧
      reaches m u (id', s) = true ∧ u_kind u = kind_message ∧ src_deliverInFlight (src id') = true ∧
      ∃ r' t, byMember T !! id = Some r' ∧ teams T !! r' = Some t ∧
        buildMessage logs t (tag_unit m u) = Some message;
}.

Lemma relay_relayed logs (T : Team) r t id m u :
  team_ok src T → byMember T !! id = Some r → teams T !! r = Some t → map_get (members t) id = Some m →
  u ∈ deriveUnits (logs id) →
  relayed logs T id m [u] (pendingCalls m) (relay logs T r t m u).
Proof.
  intros Hok Hb Ht Hm Hu. pose proof (ok_wf _ _ Hok) as Hwf.
  destruct (build_total logs T r t id m u Hok Ht Hm Hu) as (text & Hbuild & _).
  assert (∀ i n, map_get (members t) i = Some n ↔ member_of T i = Some n ∧ byMember T !! i = byMember T !! id) as Hmem.
  { intros i n. rewrite Hb. split.
    - intros Hn. by destruct (member_of_team _ r t i n Hwf Ht Hn).
    - intros [(r' & t' & Hb' & Ht' & Hn)%member_of_Some E]. congruence. }
  assert (∀ i n, map_get (members t) i = Some n → ms_source n = src i ∧ ms_id n = i) as Hid.
  { intros i n [Hn _]%Hmem. destruct (ok_id _ _ Hok _ _ Hn) as [E _]. split; [done|]. unfold ms_id. by rewrite E. }
  set (message := mkUserMessage _ _) in Hbuild.
  unfold relay. rewrite (relay_loop_total _ _ _ _ _ _ Hbuild). simpl.
  assert (∀ i, member_of (put_team T r (set_members t (map (λ km, (km.1, receive m u km)) (members t)))) i =
    if bool_decide (byMember T !! i = Some r) then (λ n, receive m u (i, n)) <$> map_get (members t) i
    else member_of T i) as Hget.
  { intros i. rewrite (put_team_member T r t) by done. simpl. by rewrite map_get_map. }
  split; simpl; [done|done|..].
  - rewrite Hget, bool_decide_true, Hm by done. eexists. split; [done|].
    destruct (Hid _ _ Hm) as [_ Em]. unfold receive, reaches. simpl. by rewrite Em, bool_decide_true.
  - intros i s Hs Es Hne. rewrite Hget, Es, bool_decide_true by done.
    by rewrite (proj2 (Hmem i s)) by done.
  - intros r' t' Hb' Ht'. simplify_eq. by rewrite lookup_insert_eq.
  - intros i msg. rewrite list_elem_of_In, in_concat. split.
    + intros (l & Hl & Hin). apply in_map_iff in Hl as ([i' n] & <- & Hl). apply list_elem_of_In in Hl, Hin.
      apply map_get_nodup in Hl; [|by apply (wf_nodup _ Hwf r)]. destruct (Hid _ _ Hl) as [Esrc Eid].
      unfold handed in Hin. destruct (_ && _) eqn:E; [|by apply elem_of_nil in Hin].
      apply list_elem_of_singleton in Hin. injection Hin as -> ->. rewrite Eid.
      apply andb_true_iff in E as [[Hr Hk%bool_decide_eq_true]%andb_true_iff Hf]. simpl in Hf.
      rewrite Esrc in Hf. destruct (proj1 (Hmem _ _) Hl) as [H1 H2].
      exists n, u. split_and!; try done. by exists r, t.
    + intros (s & u' & [= <-] & Hs & Es & Hr & Hk & Hf & r' & t' & Hb' & Ht' & Hmsg).
      assert (map_get (members t) i = Some s) as Hi by (by apply Hmem). destruct (Hid _ _ Hi) as [Esrc Eid].
      eexists. split; [apply in_map_iff; exists (i, s); split; [done|]; by apply list_elem_of_In, map_get_elem|].
      unfold handed. simpl. rewrite Hr, Esrc, Hf, bool_decide_true, Eid by done. simpl. left.
      assert (t' = t) as -> by congruence. congruence.
Qed.

Lemma idle_relayed logs (T : Team) id m :
  member_of T id = Some m → relayed logs T id m [] (pendingCalls m) (T, [], true).
Proof.
  intros Hm. split; simpl; try done.
  - by exists m.
  - intros r t _ ->. done.
  - intros id' msg. split; [by intros ?%elem_of_nil|]. by intros (s & u & ? & _).
Qed.

Lemma calls_relayed logs (T T1 : Team) id m us calls calls' effs r :
  team_ok src T1 → byMember T !! id = Some r → is_Some (teams T !! r) →
  relayed logs T id m us calls (T1, effs, true) →
  relayed logs T id m us calls' (set_pendingCalls T1 r id calls', effs, true).
Proof.
  intros Hok1 Hb [t Ht] [_ Hby (m1 & Hm1 & _ & Er & Ero) Hoth Hcons Hh]. simpl in *.
  apply member_of_Some in Hm1 as (r1 & t1 & Hb1 & Ht1 & Hm1). rewrite Hby, Hb in Hb1. injection Hb1 as <-.
  assert (∀ i, member_of (set_pendingCalls T1 r id calls') i =
    if bool_decide (i = id) then Some (set_calls m1 calls') else member_of T1 i) as Hget.
  { intros i. unfold set_pendingCalls. rewrite Ht1, Hm1. apply update_member_member; [congruence|done]. }
  split; simpl; [done| | | | |done].
  - unfold set_pendingCalls. by rewrite Ht1, Hm1.
  - rewrite Hget, bool_decide_true by done. by eexists.
  - intros i s Hs Es Hne. rewrite Hget, bool_decide_false by done. by apply Hoth.
  - intros r' t' Hb' Ht'. specialize (Hcons r' t' Hb' Ht'). unfold set_pendingCalls. rewrite Ht1, Hm1. simpl.
    assert (r' = r) as -> by congruence. rewrite lookup_insert_eq. simpl. by rewrite Ht1 in Hcons.
Qed.

(** The id a result answers. *)
Definition answered_id (e : SessionEvent) : string :=
  match ev_data e with ToolResultEvent msg => trm_toolCallId msg | _ => "" end.

Lemma event_relayed logs (T : Team) id m log e :
  team_ok src T → member_of T id = Some m → logs id = log ++ [e] →
  pendingCalls m = (derive_all log).1 →
  relayed logs T id m (option_list (unit_of log e)) (derive_all (log ++ [e])).1
    (onMemberEvent logs T (id, ms_ref m) e).
Proof.
  intros Hok Hm Hlog Hcalls. pose proof (idle_relayed logs T id m Hm) as Hidle.
  pose proof Hm as (r & t & Hb & Ht & Hg)%member_of_Some.
  assert (∀ u, unit_of log e = Some u → u ∈ deriveUnits (logs id)) as Hderived.
  { intros u Hu. rewrite Hlog, deriveUnits_snoc, Hu. apply elem_of_app. right. by constructor. }
  assert (pendingCalls m !! answered_id e = open_call (reverse log) (answered_id e)) as Hopen
    by (by rewrite Hcalls, derive_calls).
  rewrite derive_all_snoc. unfold onMemberEvent.
  rewrite (proj2 (captured_Some T (id, ms_ref m) r t m)) by done.
  unfold derive_step, unit_of, answered_id in *.
  destruct (derive_all log) as [calls units]. simpl in Hcalls. subst calls.
  destruct (ev_data e) as [msg|c n a|msg|?|?]; simpl; try done.
  - case_bool_decide; simpl; [done|]. apply relay_relayed; [done..|]. by apply Hderived.
  - apply (calls_relayed logs T T id m [] (pendingCalls m)); [done|done|by rewrite Ht|done].
  - rewrite <- Hopen. destruct (pendingCalls m !! trm_toolCallId msg) as [[time seq]|] eqn:Ec; simpl; [|done].
    rewrite <- Hopen in Hderived. simpl in Hderived.
    pose proof (relay_relayed logs T r t id m _ Hok Hb Ht Hg (Hderived _ eq_refl)) as Hrel.
    destruct (relay_ok src src_id_ok (Live := Live) logs T r t m (mkUnit kind_tool (trm_toolCallId msg) time seq) Hok Ht)
      as [Hok1 _].
    destruct (relay _ _ _ _ _ _) as [[T1 effs] ok]. pose proof (rl_sent _ _ _ _ _ _ _ Hrel) as E. simpl in E, Hok1.
    subst ok. apply (calls_relayed logs T T1 id m _ (pendingCalls m)); [done|done|by rewrite Ht|done].
Qed.

(** The live relay is the derivation, one event at a time.  When a registered
    member's log event is notified and the service's waiting calls agree with the
    log, the relay never fails, the calls agree again, and every other consuming
    member of the team gets on its pending list exactly the units by which the
    derivation of the sender's log has grown (those it has not drained).  A speech
    is handed at once to exactly the receivers with an in-flight face, as the very
    message a drain would build, and every consumer of the team's stream is told
    of the event under the sender's role and id. *)
Theorem live_relay_is_derivation ops id m e (Hops : Forall op_ok ops)
    (Hm : member_of (w_team (run_ops new_world ops)) id = Some m) (Hsub : src_subscribe (src id) = true)
    (Hcalls : pendingCalls m = (derive_all (log_of (run_ops new_world ops) id)).1) :
  let w := run_ops new_world ops in
  let '(w', effs) := run_op w (OpEvent (Live := Live) id e true) in
  let us := option_list (unit_of (log_of w id) e) in
  let peer id' s := member_of (w_team w) id' = Some s ∧ id' ≠ id ∧
    byMember (w_team w) !! id' = byMember (w_team w) !! id ∧ src_consumes (src id') = true in
  deriveUnits (log_of w' id) = deriveUnits (log_of w id) ++ us ∧
  (∃ m', member_of (w_team w') id = Some m' ∧ pendingCalls m' = (derive_all (log_of w' id)).1) ∧
  (∀ id' s, peer id' s → ∃ s', member_of (w_team w') id' = Some s' ∧
    pending s' = pending s ++ map (tag_unit m) (filter (λ u, u_anchor u ∉ drained s) us)) ∧
  (∀ id' message, DeliveredInFlight id' message ∈ effs ↔ ∃ s u, peer id' s ∧ us = [u] ∧
    u_kind u = kind_message ∧ u_anchor u ∉ drained s ∧ src_deliverInFlight (src id') = true ∧
    ∃ r t, get_team (w_team w) id = Some (r, t) ∧
      buildMessage (log_of w') t (tag_unit m u) = Some message) ∧
  (∀ c r t, get_team (w_team w) id = Some (r, t) → c ∈ consumers t →
    Notified c (LogEvent (ms_role m) id e) ∈ effs).
Proof.
  intros w. assert (world_ok w) as Hok by (apply run_ops_ok; [apply new_team_ok|done]). unfold world_ok in Hok.
  fold w in Hm, Hcalls. destruct (ok_id _ _ Hok id m Hm) as [Esrc _].
  assert (ms_id m = id) as Hid by (unfold ms_id; by rewrite Esrc).
  assert (log_of (log_event w id e) id = log_of w id ++ [e]) as Hlog
    by (unfold log_of at 1; simpl; by rewrite lookup_insert_eq).
  pose proof (event_relayed (log_of (log_event w id e)) (w_team w) id m (log_of w id) e Hok Hm Hlog Hcalls) as Hrel.
  simpl. unfold log_callbacks. rewrite (own_log_subs _ _ _ Hok Hm Hsub). simpl. unfold log_callback.
  change (log_of (log_event w id e)) with (λ i, log_of (log_event w id e) i) in *.
  destruct (onMemberEvent _ _ _ _) as [[T1 effs] ok] eqn:Eon. simpl.
  destruct Hrel as [Hsent Hby (m1 & Hm1 & Hc1 & Hr1 & Hrole) Hoth Hcons Hh]. simpl in *. subst ok.
  change (log_of (with_team (log_event w id e) T1)) with (log_of (log_event w id e)).
  rewrite Hlog. split_and!.
  - apply deriveUnits_snoc.
  - by exists m1.
  - intros id' s (Hs & Hne & Hb & Hc). eexists. split; [by apply Hoth|].
    destruct (ok_id _ _ Hok id' s Hs) as [Es _].
    destruct (unit_of (log_of w id) e) as [u|]; simpl; [|by rewrite app_nil_r].
    unfold receive, reaches. simpl. rewrite Hid, bool_decide_false, Es, Hc by done. simpl.
    destruct (decide (u_anchor u ∈ drained s)) as [Hd|Hd].
    + rewrite bool_decide_true by done. simpl. rewrite filter_cons_False by tauto. by rewrite app_nil_r.
    + rewrite bool_decide_false by done. simpl. by rewrite filter_cons_True.
  - intros id' message. rewrite elem_of_app. split.
    + intros [H1|H1].
      * apply Hh in H1 as (s & u & Eu & Hs & Hb & Hre & Hk & Hf & r & t & Hbr & Ht & Hmsg).
        unfold reaches in Hre. simpl in Hre. destruct (ok_id _ _ Hok id' s Hs) as [Es _].
        rewrite Hid, Es in Hre.
        apply andb_true_iff in Hre as [[Hne%negb_true_iff%bool_decide_eq_false Hc]%andb_true_iff
          Hd%negb_true_iff%bool_decide_eq_false]. exists s, u. split_and!; try done.
        exists r, t. split; [by apply get_team_Some|done].
      * unfold notifyStream in H1. destruct (captured _ _) as [[[r t] n]|]; [|by apply elem_of_nil in H1].
        apply list_elem_of_fmap in H1 as (c & ? & _). done.
    + intros (s & u & (Hs & Hne & Hb & Hc) & Eu & Hk & Hd & Hf & r & t & [Hbr Ht]%get_team_Some & Hmsg). left.
      apply Hh. exists s, u. split_and!; try done; [|by exists r, t].
      unfold reaches. simpl. destruct (ok_id _ _ Hok id' s Hs) as [Es _].
      by rewrite Hid, bool_decide_false, Es, Hc, bool_decide_false by done.
  - intros c r t [Hbr Ht]%get_team_Some Hin. apply elem_of_app. right.
    pose proof Hm1 as (r1 & t1 & Hb1 & Ht1 & Hg1)%member_of_Some.
    specialize (Hcons r t Hbr Ht). assert (r1 = r) as -> by congruence. rewrite Ht1 in Hcons.
    injection Hcons as Hcons. unfold notifyStream.
    rewrite (proj2 (captured_Some T1 (id, ms_ref m) r t1 m1)) by done. simpl.
    rewrite Hcons, Hrole. apply list_elem_of_fmap. by exists c.
Qed.

(** *** Registration *)

Lemma dropMember_member (T : Team) id id' :
  team_ok src T → member_of (dropMember T id) id' = if bool_decide (id' = id) then None else member_of T id'.
Proof.
  intros Hok. destruct (member_of T id) as [m|] eqn:Hm; [by apply (dropMember_spec src T id m)|].
  rewrite dropMember_other; [case_bool_decide; by subst|].
  apply eq_None_not_Some. intros Hs. apply member_of_by in Hs; [|apply Hok]. rewrite Hm in Hs. by destruct Hs.
Qed.

Lemma fold_dropMember_member (T : Team) ids id :
  team_ok src T →
  member_of (fold_left dropMember ids T) id = if bool_decide (id ∈ ids) then None else member_of T id.
Proof.
  revert T. induction ids as [|i ids IH]; intros T Hok; simpl; [by rewrite ?bool_decide_false by apply not_elem_of_nil|].
  rewrite IH, dropMember_member by (done || by apply (dropMember_ok src (λ _, []))).
  repeat case_bool_decide; set_solver.
Qed.

Lemma reconcile_same logs T m :
  registration (reconcile logs T m) = registration m ∧ sectionText (reconcile logs T m) = sectionText m.
Proof. unfold reconcile. destruct (src_consumes _); [|done]. by destruct (get_team T (ms_id m)) as [[]|]. Qed.

Lemma reconcile_all_member logs T r id m :
  team_ok src T → member_of T id = Some m →
  ∃ m', member_of (reconcile_all logs T r) id = Some m' ∧ registration m' = registration m ∧
    sectionText m' = sectionText m.
Proof.
  intros Hok Hm. unfold reconcile_all. destruct (teams T !! r) as [t|] eqn:Ht; [|by exists m].
  rewrite (put_team_member T r t) by done. case_bool_decide as Hb; [|by exists m].
  pose proof Hm as (r' & t' & Hb' & Ht' & Hg)%member_of_Some. simplify_eq.
  simpl. rewrite map_get_map, Hg. simpl. eexists. split; [done|]. apply reconcile_same.
Qed.

Lemma reconcile_all_by logs T r : byMember (reconcile_all logs T r) = byMember T.
Proof. unfold reconcile_all. by destruct (teams T !! r). Qed.

Lemma resolveTeam_None T ids found :
  resolveTeam T ids found = None →
  ∃ id r, id ∈ ids ∧ byMember T !! id = Some r ∧
    (found = Some r → False) ∧ (found = None → ∃ id' r', id' ∈ ids ∧ byMember T !! id' = Some r' ∧ r' ≠ r).
Proof.
  revert found. induction ids as [|i ids IH]; intros found; simpl; [done|].
  destruct (byMember T !! i) as [r|] eqn:Er.
  - destruct found as [f|].
    + case_bool_decide as Hf.
      * subst. intros (id & r' & ? & ? & ? & _)%IH. exists id, r'. split_and!; [by constructor|done|done|done].
      * intros _. exists i, r. split_and!; [by constructor|done|congruence|done].
    + intros (id & r' & ? & ? & Hne & _)%IH. exists id, r'. split_and!; [by constructor|done|done|].
      intros _. exists i, r. split_and!; [by constructor|done|]. intros ->. by apply Hne.
  - intros (id & r & ? & ? & ? & H4)%IH. exists id, r. split_and!; [by constructor|done|done|].
    intros E. destruct (H4 E) as (id' & r' & ? & ? & ?). exists id', r'. split_and!; [by constructor|done..].
Qed.

Lemma listed_twice_Some seen ids id :
  listed_twice seen ids = Some id → NoDup ids → ∃ id, id ∈ ids ∧ id ∈ seen.
Proof.
  revert seen. induction ids as [|i ids IH]; intros seen; simpl; [done|].
  case_bool_decide as Hi; [intros _ _; exists i; split; [by constructor|done]|].
  intros H1 [Hn Hnd]%NoDup_cons. destruct (IH _ H1 Hnd) as (j & Hj & Hs).
  exists j. split; [by constructor|]. apply elem_of_union in Hs as [?|E%elem_of_singleton]; [done|]. by subst.
Qed.

(** What a registration builds before the pending lists are reconciled. *)
Lemma register_body (logs : string → list SessionEvent) (T : Team) reg found T1 r :
  team_ok src T → reg_ok src reg → NoDup (ids_of reg) →
  resolveTeam T (ids_of reg) None = Some found → open_team T found reg = (T1, r) →
  let T3 := drop_absent (fold_left (register_member r (section_text reg)) (tr_members reg) T1) r (ids_of reg) in
  team_ok src T3 ∧
  (∀ id, byMember T3 !! id = Some r ↔ id ∈ ids_of reg) ∧
  (∀ m, m ∈ tr_members reg → enrolled T3 m (section_text reg)) ∧
  (∀ id r', r' ≠ r → byMember T3 !! id = Some r' ↔ byMember T !! id = Some r').
Proof.
  intros Hok Hreg Hnd Ef Eo. apply resolveTeam_spec in Ef as (_ & Hopens & Hfound).
  destruct (open_team_ok src logs T found reg T1 r) as (H1 & _ & H3 & H4 & H5); [done| |done|].
  { intros f ->. destruct Hfound as [|[id Hid]]; [done|].
    apply (wf_by _ (ok_wf _ _ Hok)) in Hid as (t & -> & _). eauto. }
  destruct (register_members_ok src src_id_ok logs T1 r (section_text reg) (tr_members reg))
    as (H6 & _ & [t2 Ht2] & H8 & _ & H10); [done..| |].
  { intros m Hin. unfold opens. rewrite H4.
    destruct (Hopens (src_id (reg_source m))) as [?|[[f ->] ?]]; [|by left|right].
    - unfold ids_of. apply list_elem_of_fmap. by exists m.
    - destruct H5 as [?|[= ->]]; done. }
  set (T2 := fold_left _ _ T1) in *. fold (ids_of reg) in H8, H10. intros T3.
  set (absent := filter (λ id, id ∉ ids_of reg) (map fst (members t2))).
  assert (T3 = fold_left dropMember absent T2) as -> by (unfold T3, drop_absent; by rewrite Ht2).
  assert (∀ id, id ∈ absent → id ∉ ids_of reg ∧ byMember T2 !! id = Some r) as Habsent.
  { intros id [Hni Hk]%list_elem_of_filter. split; [done|]. apply (wf_by _ (ok_wf _ _ H6)). eauto. }
  split_and!; [by apply (fold_dropMember_ok src logs)|..].
  - intros id. rewrite fold_dropMember_by. split.
    + case_bool_decide as Ha; [done|]. intros Hb. destruct (decide (id ∈ ids_of reg)); [done|]. exfalso.
      apply Ha, list_elem_of_filter. split; [done|]. apply (wf_by _ (ok_wf _ _ H6)) in Hb as (t & Ht & ?).
      congruence.
    + intros Hin. rewrite bool_decide_false by (by intros [? _]%Habsent). by rewrite H8, bool_decide_true.
  - intros m Hin. destruct (H10 Hnd m Hin) as (n & Hn & ?). exists n. split; [|done].
    rewrite fold_dropMember_member, bool_decide_false; [done| |done].
    intros [Hni _]%Habsent. apply Hni. apply list_elem_of_fmap. by exists m.
  - intros id r' Hne. rewrite fold_dropMember_by, H8, H4. split; [repeat case_bool_decide; congruence|].
    intros Hb. assert (id ∉ ids_of reg) as Hni.
    { intros Hin. destruct (Hopens id Hin) as [?|[_ E]], H5 as [?|?]; congruence. }
    rewrite !bool_decide_false; [done|done|]. intros [_ Hk]%Habsent.
    rewrite H8, bool_decide_false, H4 in Hk by done. congruence.
Qed.

(** Registration replaces the roster.  A registration that succeeds leaves in
    its team exactly the members it lists, each with the new role and summary and
    with the section text of the new roster; every id belonging to another team
    keeps it.  It is refused exactly when it lists no member, lists an id twice, or
    mixes members of different teams, and a refusal changes nothing. *)
Theorem register_roster ops reg (Hops : Forall op_ok ops) (Hreg : reg_ok src reg) :
  let w := run_ops new_world ops in
  let '(T', result) := register (log_of w) (w_team w) reg in
  let ids := ids_of reg in
  match result with
  | Registered r =>
      (∀ id, byMember T' !! id = Some r ↔ id ∈ ids) ∧
      (∀ m, m ∈ tr_members reg → enrolled T' m (section_text reg)) ∧
      (∀ id r', r' ≠ r → byMember T' !! id = Some r' ↔ byMember (w_team w) !! id = Some r')
  | NoMembers => T' = w_team w ∧ ids = []
  | ListedTwice id => T' = w_team w ∧ ¬ NoDup ids
  | MixedTeams => T' = w_team w ∧ NoDup ids ∧ ∃ id id' r r', id ∈ ids ∧ id' ∈ ids ∧ r ≠ r' ∧
      byMember (w_team w) !! id = Some r ∧ byMember (w_team w) !! id' = Some r'
  end.
Proof.
  intros w. assert (world_ok w) as Hok by (apply run_ops_ok; [apply new_team_ok|done]). unfold world_ok in Hok.
  unfold register. destruct (tr_members reg) as [|m0 ms] eqn:Ems.
  { simpl. unfold ids_of. by rewrite Ems. }
  rewrite <- Ems. clear Ems m0 ms.
  destruct (listed_twice ∅ (ids_of reg)) as [id|] eqn:El.
  { split; [done|]. intros Hnd. destruct (listed_twice_Some _ _ _ El Hnd) as (? & _ & ?). set_solver. }
  apply listed_twice_None in El as [Hnd _].
  destruct (resolveTeam (w_team w) (ids_of reg) None) as [found|] eqn:Ef.
  2:{ split_and!; [done|done|]. apply resolveTeam_None in Ef as (id & r & ? & ? & _ & H4).
      destruct (H4 eq_refl) as (id' & r' & ? & ? & ?). by exists id', id, r', r. }
  destruct (open_team (w_team w) found reg) as [T1 r] eqn:Eo.
  destruct (register_body (log_of w) (w_team w) reg found T1 r Hok Hreg Hnd Ef Eo) as (H1 & H2 & H3 & H4).
  simpl. rewrite reconcile_all_by. split_and!; [done| |done].
  intros m Hin. destruct (H3 m Hin) as (n & Hn & Hreg1 & Hreg2).
  destruct (reconcile_all_member (log_of w) _ r (src_id (reg_source m)) n H1 Hn) as (n' & Hn' & E1 & E2).
  exists n'. split_and!; congruence.
Qed.

(** Registrations leak nothing.  In every reachable state each member with a
    log face has exactly one log subscription and each member with a live face
    exactly one live subscription, each member with a section target has exactly
    one registered section, holding its current section text, and there is no
    other subscription or section: dropping, disposing and refreshing release
    what they replace.  An announce-only member never has anything pending. *)
Theorem registrations_leak_nothing ops (Hops : Forall op_ok ops) :
  let T := w_team (run_ops new_world ops) in
  NoDup (log_subs T) ∧ NoDup (live_subs T) ∧
  (∀ id ref, (id, ref) ∈ log_subs T ↔ src_subscribe (src id) = true ∧ ms_ref <$> member_of T id = Some ref) ∧
  (∀ id ref, (id, ref) ∈ live_subs T ↔ src_live (src id) = true ∧ ms_ref <$> member_of T id = Some ref) ∧
  (∀ ref text, sections T !! ref = Some text ↔ ∃ id m, member_of T id = Some m ∧ ms_ref m = ref ∧
    src_sectionTarget (src id) = true ∧ sectionText m = text) ∧
  (∀ id id' m m', member_of T id = Some m → member_of T id' = Some m' → ms_ref m = ms_ref m' → id = id') ∧
  (∀ id m, member_of T id = Some m → src_consumes (src id) = false → pending m = []).
Proof.
  intros T. assert (team_ok src T) as Hok by (apply run_ops_ok; [apply new_team_ok|done]).
  destruct (ok_nodup _ _ Hok). split_and!; try done.
  - apply (ok_log _ _ Hok).
  - apply (ok_live _ _ Hok).
  - apply (ok_sections _ _ Hok).
  - apply (ok_ref _ _ Hok).
  - intros id m Hm Hc. by destruct (ok_quiet _ _ Hok id m Hm Hc).
Qed.

End Runs.

(** ** Witnesses *)

Section Witnesses.

(** A player, a planner and an announce-only announcer. *)
Definition sample_src (id : string) : TeamMemberSource :=
  mkSource id true (bool_decide (id ≠ "s/announcer")) (bool_decide (id ≠ "s/announcer"))
    (bool_decide (id ≠ "s/announcer")) (bool_decide (id ≠ "s/announcer")).

Definition sample_reg : TeamRegistration :=
  mkTeamRegistration "win"
    [mkRegistration (sample_src "s/player") "player" "plays";
     mkRegistration (sample_src "s/planner") "planner" "plans";
     mkRegistration (sample_src "s/announcer") "announcer" "announces"] None.

Definition speech (id text : string) (time : Z) : SessionEvent :=
  mkEvent (AssistantEvent (mkAssistant id [TextBlock text])) time 1.

(** The announcer's speech is notified; the player's later one is not. *)
Definition sample_ops : list (Op (Live := Z)) :=
  [OpRegister sample_reg; OpSubscribe 0 7; OpEvent "s/announcer" (speech "m1" "won" 20) true;
   OpEvent "s/player" (speech "m2" "thanks" 10) false].

Definition some_member : MemberState := mkMember 0 (mkRegistration (sample_src "") "" "") "" [] ∅ ∅.
Definition sample_member (ops : list (Op (Live := Z))) (id : string) : MemberState :=
  default some_member (member_of (w_team (run_ops new_world ops)) id).

Lemma sample_src_id id : src_id (sample_src id) = id.
Proof. done. Qed.

Lemma sample_reg_ok : reg_ok sample_src sample_reg.
Proof. by repeat constructor. Qed.

Lemma sample_ops_ok : Forall (op_ok sample_src) sample_ops.
Proof. repeat constructor; done. Qed.

(** The planner gets both, in the order of their times. *)
Example sample_drain :
  (drain (log_of (run_ops new_world sample_ops)) (w_team (run_ops new_world sample_ops)) "s/planner").2 =
  Drained
    [mkUserMessage ("<player-message>" +:+ nl +:+ "thanks" +:+ nl +:+ "</player-message>")
       (TeamBroadcast (mkBroadcastSource "player" "s/player" "m2" None));
     mkUserMessage ("<announcer-message>" +:+ nl +:+ "won" +:+ nl +:+ "</announcer-message>")
       (TeamBroadcast (mkBroadcastSource "announcer" "s/announcer" "m1" None))].
Proof. by vm_compute. Qed.

Lemma drain_delivers_witness :
  let w := run_ops new_world sample_ops in
  ∃ us msgs, (drain (log_of w) (w_team w) "s/planner").2 = Drained msgs ∧ length us = length msgs ∧
    StronglySorted pending_le us.
Proof.
  destruct (drain_delivers sample_src sample_src_id sample_ops "s/planner"
    (sample_member sample_ops "s/planner") sample_ops_ok ltac:(by vm_compute) eq_refl)
    as (us & msgs & ctx & H1 & H2 & H3 & _).
  exists us, msgs. split; [exact H1|]. split; [exact (Forall2_length _ _ _ H3)|exact H2].
Defined.

(** After the drain the planner's log takes the first broadcast, and the player
    speaks again: a second drain returns the new speech only. *)
Definition later_ops : list (Op (Live := Z)) :=
  [OpEvent "s/planner" (mkEvent (UserEvent (TeamBroadcast (mkBroadcastSource "player" "s/player" "m2" None))) 30 1) true;
   OpRegister sample_reg; OpEvent "s/player" (speech "m3" "next" 40) true].

Definition drained_msgs (ops : list (Op (Live := Z))) (id : string) : list UserMessage :=
  match (drain (log_of (run_ops new_world ops)) (w_team (run_ops new_world ops)) id).2 with
  | Drained msgs => msgs
  | _ => []
  end.

Lemma drained_once_witness :
  let ops' := sample_ops ++ OpDrain "s/planner" :: later_ops in
  map msg_anchor (drained_msgs ops' "s/planner") = [Some "m3"] ∧
  ∀ msg', msg' ∈ drained_msgs ops' "s/planner" → msg_anchor msg' ≠ Some "m1".
Proof.
  split; [vm_compute; reflexivity|]. intros msg' Hin.
  assert (Forall (op_ok sample_src) later_ops) as Hl by (repeat constructor; done).
  eapply (drained_once sample_src sample_src_id sample_ops "s/planner"
    (sample_member sample_ops "s/planner") (drained_msgs sample_ops "s/planner")
    (default (mkUserMessage "" (SourceOther "")) (drained_msgs sample_ops "s/planner" !! 1%nat)) "m1" later_ops
    (sample_member (sample_ops ++ OpDrain "s/planner" :: later_ops) "s/planner") _ msg'
    sample_ops_ok Hl eq_refl);
    [by vm_compute|by vm_compute|by (apply (list_elem_of_lookup_2 _ 1); vm_compute)|by vm_compute|by vm_compute
    |by vm_compute|by vm_compute|exact Hin].
Defined.

(** A speech of the player, notified. *)
Lemma live_relay_is_derivation_witness :
  let w := run_ops new_world sample_ops in
  let '(w', effs) := run_op w (OpEvent (Live := Z) "s/player" (speech "m3" "next" 40) true) in
  deriveUnits (log_of w' "s/player") =
    deriveUnits (log_of w "s/player") ++ [mkUnit kind_message "m3" 40 1] ∧
  Notified 7 (LogEvent "player" "s/player" (speech "m3" "next" 40)) ∈ effs.
Proof.
  pose proof (live_relay_is_derivation sample_src sample_src_id sample_ops "s/player"
    (sample_member sample_ops "s/player") (speech "m3" "next" 40) sample_ops_ok
    ltac:(by vm_compute) eq_refl ltac:(by vm_compute)) as H.
  cbv zeta in H |- *.
  destruct (run_op _ _) as [w' effs]. destruct H as (H1 & _ & _ & _ & H2). split; [exact H1|].
  refine (H2 7%nat 0%nat _ _ _); [vm_compute; reflexivity|by vm_compute; left].
Defined.

Lemma register_roster_witness :
  let w := run_ops new_world sample_ops in
  let '(T', result) := register (log_of w) (w_team w) sample_reg in
  result = Registered 0 ∧ ∀ id, byMember T' !! id = Some 0%nat ↔ id ∈ ids_of sample_reg.
Proof.
  pose proof (register_roster sample_src sample_src_id sample_ops sample_reg sample_ops_ok sample_reg_ok) as H.
  cbv zeta in H |- *.
  assert ((register (log_of (run_ops new_world sample_ops)) (w_team (run_ops new_world sample_ops)) sample_reg).2
    = Registered 0) as E by by vm_compute.
  destruct (register _ _ _) as [T' result]. simpl in E. subst result. destruct H as (H1 & _).
  split; [reflexivity|exact H1].
Defined.

Lemma registrations_leak_nothing_witness :
  let T := w_team (run_ops new_world sample_ops) in
  length (log_subs T) = 3%nat ∧ length (live_subs T) = 2%nat ∧ NoDup (log_subs T) ∧ NoDup (live_subs T).
Proof.
  split; [vm_compute; reflexivity|]. split; [vm_compute; reflexivity|].
  destruct (registrations_leak_nothing sample_src sample_src_id sample_ops sample_ops_ok) as (H1 & H2 & _).
  split; [exact H1|exact H2].
Defined.

End Witnesses.
