(* ===== verification/Members.v ===== *)
(** * The members of the team loop

    [common/js/dsh-plugins/saolei/loop/src/announcer.ts] ([AnnouncerMember]) and
    [agent-member.ts] ([AgentMember]), the two implementations of the member
    interface the flow and the orchestrator drive.

    The agent behind an [AgentMember] is third-party: the calls made on it are
    effects, and its inbox and status are read as arguments.  A turn is
    asynchronous: [startTurn] runs to its first [await] in one step, and the end of
    the turn (the agent falls idle, or a call threw) is another. *)

From S2P Require Import Prelude Flow Broadcast GameText.
From stdpp Require Import sorting.

#[local] Open Scope Z_scope.

(** ** The announcer *)

Section Announcer.
(** Terminal records are compared by identity: [R] are their references. *)
Context {R : Type} `{EqDecision R} (record_of : R → GameEventRecord).

(** Listeners are numbered. *)
Record AnnouncerMember : Type := mkAnnouncer {
  a_log : list SessionEvent;
  listeners : list nat;
  announced : option R;
  a_seq : Z;
  lastTime : Z;
}.

Definition new_announcer : AnnouncerMember := mkAnnouncer [] [] None 0 0.

Definition a_subscribe (a : AnnouncerMember) (l : nat) : AnnouncerMember :=
  mkAnnouncer (a_log a) (if bool_decide (l ∈ listeners a) then listeners a else listeners a ++ [l])
    (announced a) (a_seq a) (lastTime a).
Definition a_unsubscribe (a : AnnouncerMember) (l : nat) : AnnouncerMember :=
  mkAnnouncer (a_log a) (filter (λ l', l' ≠ l) (listeners a)) (announced a) (a_seq a) (lastTime a).

Definition announcement (id : string) (time seq : Z) (text : string) : SessionEvent :=
  Broadcast.mkEvent (AssistantEvent (mkAssistant id [TextBlock text])) time seq.

(** [id] is the minted message id and [now] the clock; [thrown] names the first
    listener that throws, with its message.  Results: the member, the listeners
    called, and the message of the error if the call throws. *)
Definition announce (a : AnnouncerMember) (id : string) (now : Z) (thrown : option (nat * string))
    (text : string) : AnnouncerMember * list nat * option string :=
  if bool_decide (text = "") then (a, [], Some "announcer: announcement text must not be empty")
  else
    let seq := a_seq a + 1 in
    let time := Z.max (lastTime a + 1) (now + 1) in
    let a := mkAnnouncer (a_log a ++ [announcement id time seq text]) (listeners a) (announced a) seq time in
    match thrown with
    | Some (k, message) =>
        if bool_decide (k < length (listeners a))%nat then (a, take (S k) (listeners a), Some message)
        else (a, listeners a, None)
    | None => (a, listeners a, None)
    end.

Definition announcer_drive (a : AnnouncerMember) (peek : option R) (id : string) (now : Z)
    (thrown : option (nat * string)) : AnnouncerMember * list nat * Outcome :=
  match peek with
  | None => (a, [], settled)
  | Some r =>
      if bool_decide (announced a = Some r) then (a, [], settled)
      else
        let '(a, called, err) := announce a id now thrown (gameStatsText (record_of r)) in
        match err with
        | None => (mkAnnouncer (a_log a) (listeners a) (Some r) (a_seq a) (lastTime a), called, settled)
        | Some message => (a, called, failed INTERNAL (mkDetail None message))
        end
  end.

(** The operations of a run. *)
Inductive announcer_op : Type :=
| AnnounceText (id : string) (now : Z) (thrown : option (nat * string)) (text : string)
| AnnounceDrive (peek : option R) (id : string) (now : Z) (thrown : option (nat * string))
| AnnounceSubscribe (l : nat)
| AnnounceUnsubscribe (l : nat).

Definition announcer_step (a : AnnouncerMember) (op : announcer_op) : AnnouncerMember :=
  match op with
  | AnnounceText id now thrown text => (announce a id now thrown text).1.1
  | AnnounceDrive peek id now thrown => (announcer_drive a peek id now thrown).1.1
  | AnnounceSubscribe l => a_subscribe a l
  | AnnounceUnsubscribe l => a_unsubscribe a l
  end.

Definition op_now (op : announcer_op) : option Z :=
  match op with
  | AnnounceText _ now _ _ | AnnounceDrive _ _ now _ => Some now
  | _ => None
  end.

Definition announcer_run (a : AnnouncerMember) (ops : list announcer_op) : AnnouncerMember :=
  fold_left announcer_step ops a.

End Announcer.
Arguments AnnouncerMember : clear implicits.
Arguments announcer_op : clear implicits.

(** ** The agent member *)

(** A message has the identity its inbox knows it by. *)
Record AgentMessage : Type := mkMessage { mg_id : string; mg_message : UserMessage }.

Definition is_broadcast (m : AgentMessage) : bool :=
  match um_source (mg_message m) with TeamBroadcast _ => true | SourceOther _ => false end.

Inductive AgentCall : Type :=
| CallRemove (id : string)
| CallInject (m : AgentMessage)
| CallFollowup (m : AgentMessage)
| CallSteer (m : AgentMessage).

Record TurnFailure : Type := mkTurnFailure { tf_engineCode : option string; tf_message : string }.

Definition TRANSIENT_ENGINE_CODES : list string :=
  ["RATE_LIMIT"; "SERVER"; "TIMEOUT"; "TRANSPORT"; "EMPTY_RESPONSE"].
Definition QUOTA_ENGINE_CODES : list string := ["QUOTA"; "ACCOUNT_QUOTA"].
Definition CREDENTIAL_ENGINE_CODES : list string := ["INVALID_CREDENTIAL"; "MISSING_CREDENTIAL"; "AUTH"].
Definition CONFIG_ENGINE_CODES : list string :=
  ["NO_ADAPTER"; "INVALID_REQUEST"; "UNSUPPORTED_CONTENT"; "UNSUPPORTED"].
Definition INPUT_TOO_LARGE_ENGINE_CODES : list string := ["CONTEXT_WINDOW_EXCEEDED"; "IMAGE_OFFLOAD_REQUIRED"].

Definition mapEngineCode (code : option string) : LoopErrorCode :=
  match code with
  | None => INTERNAL
  | Some c =>
      if bool_decide (c ∈ TRANSIENT_ENGINE_CODES) then TRANSIENT
      else if bool_decide (c ∈ QUOTA_ENGINE_CODES) then QUOTA
      else if bool_decide (c ∈ CREDENTIAL_ENGINE_CODES) then CREDENTIAL
      else if bool_decide (c ∈ CONFIG_ENGINE_CODES) || String.prefix "HTTP_" c then CONFIG
      else if bool_decide (c ∈ INPUT_TOO_LARGE_ENGINE_CODES) then INPUT_TOO_LARGE
      else INTERNAL
  end.

(** [activeTurn] is the turn in flight with its [hold] flag. *)
Record AgentMember : Type := mkAgentMember {
  activeTurn : option bool;
  held : option (list AgentMessage);
  steered : list AgentMessage;
  lastTurnFailure : option TurnFailure;
  abortRequested : bool;
}.

Definition new_agent_member : AgentMember := mkAgentMember None None [] None false.

Definition agent_busy (m : AgentMember) : bool := bool_decide (activeTurn m ≠ None).
Definition pendingInput (m : AgentMember) : Z := Z.of_nat (length (steered m)).

(** *** Starting a turn *)

(** [inbox.nextStep] and [inbox.nextTurn], and [agent.status === "idle"]. *)
Record AgentView : Type := mkView {
  v_nextStep : list AgentMessage;
  v_nextTurn : list AgentMessage;
  v_idle : bool;
}.

Definition sweepBroadcastResidue (v : AgentView) : list AgentCall :=
  map (λ m, CallRemove (mg_id m)) (filter (λ m, is_broadcast m = true) (v_nextStep v ++ v_nextTurn v)).

(** Inject all but the last, follow up with the last. *)
Fixpoint batch (messages : list AgentMessage) : list AgentCall :=
  match messages with
  | [] => []
  | [m] => [CallFollowup m]
  | m :: messages => CallInject m :: batch messages
  end.

Inductive StartResult : Type :=
| Started (calls : list AgentCall)
| TurnInFlight
| NotQuiescent.

Definition startTurn (m : AgentMember) (v : AgentView) (messages : list AgentMessage) (hold : bool)
    : AgentMember * StartResult :=
  if agent_busy m then (m, TurnInFlight)
  else if negb (v_idle v) then (m, NotQuiescent)
  else (mkAgentMember (Some hold) (if hold then Some messages else held m) (steered m) None false,
        Started (sweepBroadcastResidue v ++ batch messages)).

(** [drained] and [landed] are what the drain and the landed flush return. *)
Definition defaultInput (m : AgentMember) (drained landed : list AgentMessage)
    : AgentMember * list AgentMessage :=
  match drained ++ landed with
  | [] =>
      (mkAgentMember (activeTurn m) None (steered m) (lastTurnFailure m) (abortRequested m),
       default [] (held m))
  | fresh => (m, fresh)
  end.

Inductive DriveResult : Type :=
| DriveResting
| DriveStart (result : StartResult).

Definition agent_drive (m : AgentMember) (v : AgentView) (drained landed : list AgentMessage)
    : AgentMember * DriveResult :=
  let '(m, messages) := defaultInput m drained landed in
  match messages with
  | [] => (m, DriveResting)
  | _ => let '(m, r) := startTurn m v messages true in (m, DriveStart r)
  end.

(** While a turn is in flight the landed messages join it and the message steers. *)
Definition deliver (m : AgentMember) (v : AgentView) (drained landed : list AgentMessage)
    (message : AgentMessage) : AgentMember * StartResult :=
  if agent_busy m then
    (mkAgentMember (activeTurn m) (held m) (steered m ++ [message]) (lastTurnFailure m) (abortRequested m),
     Started (map CallInject landed ++ [CallSteer message]))
  else startTurn m v (drained ++ landed ++ [message]) false.

(** A failing injection is swallowed. *)
Definition deliverInFlight (m : AgentMember) (message : AgentMessage) : list AgentCall :=
  if agent_busy m then [CallInject message] else [].

Definition abort (m : AgentMember) : AgentMember :=
  mkAgentMember (activeTurn m) (held m) (steered m) (lastTurnFailure m)
    (abortRequested m || agent_busy m).

(** The [agent/error] subscription. *)
Definition on_error (m : AgentMember) (f : TurnFailure) : AgentMember :=
  mkAgentMember (activeTurn m) (held m) (steered m) (Some f) (abortRequested m).

(** *** Ending a turn *)

(** The rest of [runTurn] once the agent is idle. *)
Definition turn_idle (m : AgentMember) (hold : bool) : AgentMember * Outcome :=
  let outcome :=
    if abortRequested m then aborted
    else match lastTurnFailure m with
         | Some f => failed (mapEngineCode (tf_engineCode f)) (mkDetail (tf_engineCode f) (tf_message f))
         | None => settled
         end in
  (mkAgentMember None (if hold && bool_decide (outcome = settled) then None else held m) [] None false,
   outcome).

(** A call on the agent threw: the turn's promise rejects. *)
Definition turn_throw (m : AgentMember) : AgentMember :=
  mkAgentMember None (held m) (steered m) (lastTurnFailure m) (abortRequested m).

(** *** Runs *)

(** What happens to a member besides the flow's drives. *)
Inductive agent_op : Type :=
| ADeliver (v : AgentView) (drained landed : list AgentMessage) (message : AgentMessage)
| AAbort
| AError (f : TurnFailure)
| AIdle
| AThrow.

Definition agent_step (m : AgentMember) (op : agent_op) : AgentMember :=
  match op with
  | ADeliver v drained landed message => (deliver m v drained landed message).1
  | AAbort => abort m
  | AError f => on_error m f
  | AIdle => match activeTurn m with Some hold => (turn_idle m hold).1 | None => m end
  | AThrow => match activeTurn m with Some _ => turn_throw m | None => m end
  end.

Definition agent_run (m : AgentMember) (ops : list agent_op) : AgentMember := fold_left agent_step ops m.

Definition ends_turn (op : agent_op) : bool := match op with AIdle | AThrow => true | _ => false end.

(** ** The announcer: properties *)

Section AnnouncerProperties.
Context {R : Type} `{EqDecision R} (record_of : R → GameEventRecord).

Implicit Types a : AnnouncerMember R.

Record announcer_inv a : Prop := {
  ai_seq : a_seq a = Z.of_nat (length (a_log a));
  ai_seqs : map ev_seq (a_log a) = seqZ 1 (a_seq a);
  ai_times : StronglySorted Z.lt (map ev_time (a_log a));
  ai_last : Forall (λ e, ev_time e ≤ lastTime a) (a_log a);
  ai_units : deriveUnits (a_log a) =
    omap (λ e, match ev_data e with
               | AssistantEvent m => Some (mkUnit kind_message (am_id m) (ev_time e) (ev_seq e))
               | _ => None
               end) (a_log a);
  ai_speech : Forall (λ e, ∃ id text, ev_data e = AssistantEvent (mkAssistant id [TextBlock text])) (a_log a);
}.

Lemma new_announcer_inv : announcer_inv new_announcer.
Proof. split; by try constructor. Qed.

Lemma StronglySorted_snoc (l : list Z) x :
  StronglySorted Z.lt l → Forall (λ y, y < x) l → StronglySorted Z.lt (l ++ [x]).
Proof.
  induction 1 as [|y l Hl IH Hy]; intros Hx; simpl; [by repeat constructor|].
  inversion Hx; subst. constructor; [by apply IH|]. apply Forall_app. split; [done|by repeat constructor].
Qed.

(** An announcement: refused on an empty text, otherwise one event on the log. *)
Lemma announce_cases a id now thrown text :
  let a' := (announce a id now thrown text).1.1 in
  (text = "" ∧ a' = a ∧ is_Some (announce a id now thrown text).2) ∨
  (text ≠ "" ∧
   a' = mkAnnouncer (a_log a ++ [announcement id (Z.max (lastTime a + 1) (now + 1)) (a_seq a + 1) text])
          (listeners a) (announced a) (a_seq a + 1) (Z.max (lastTime a + 1) (now + 1))).
Proof.
  unfold announce. case_bool_decide; [left; by eauto|right; split; [done|]].
  destruct thrown as [[k message]|]; [|done]. by case_bool_decide.
Qed.

Lemma announced_inv a id now text ann :
  text ≠ "" → announcer_inv a →
  announcer_inv (mkAnnouncer (a_log a ++ [announcement id (Z.max (lastTime a + 1) (now + 1)) (a_seq a + 1) text])
    (listeners a) ann (a_seq a + 1) (Z.max (lastTime a + 1) (now + 1))).
Proof.
  intros Ht [I1 I2 I3 I4 I5 I6]. split; simpl.
  - rewrite length_app. simpl. lia.
  - rewrite map_app, I2. simpl. rewrite (seqZ_app 1 (a_seq a) 1) by lia. f_equal.
    unfold seqZ. simpl. f_equal. lia.
  - rewrite map_app. apply StronglySorted_snoc; [done|]. apply Forall_fmap.
    eapply Forall_impl; [exact I4|]. simpl. intros e He. lia.
  - apply Forall_app. split; [|by repeat constructor]. eapply Forall_impl; [exact I4|]. simpl. lia.
  - rewrite deriveUnits_snoc, omap_app, I5. f_equal. unfold unit_of. simpl.
    by rewrite bool_decide_false.
  - apply Forall_app. split; [done|]. repeat constructor. by eexists _, _.
Qed.

Lemma inv_announced a ann :
  announcer_inv a → announcer_inv (mkAnnouncer (a_log a) (listeners a) ann (a_seq a) (lastTime a)).
Proof. by intros []. Qed.

(** One step: the log keeps or grows by one event, later than the clock. *)
Lemma announcer_step_inv a op :
  announcer_inv a →
  announcer_inv (announcer_step record_of a op) ∧
  (a_log (announcer_step record_of a op) = a_log a ∨
   ∃ e, a_log (announcer_step record_of a op) = a_log a ++ [e] ∧ ∀ now, op_now op = Some now → now < ev_time e).
Proof.
  intros Hinv. destruct op as [id now thrown text|peek id now thrown|l|l]; simpl.
  - destruct (announce_cases a id now thrown text) as [(_ & -> & _)|(Ht & ->)]; [split; [done|by left]|].
    split; [by apply announced_inv|]. right. eexists. split; [done|]. simpl. intros ? [= <-]. lia.
  - unfold announcer_drive. destruct peek as [r|]; [|split; [done|by left]].
    case_bool_decide; [split; [done|by left]|].
    destruct (announce_cases a id now thrown (gameStatsText (record_of r))) as [(_ & E & _)|(Ht & E)].
    all: destruct (announce _ _ _ _ _) as [[a' called] [message|]]; simpl in *; subst a'.
    + split; [done|by left].
    + split; [by apply inv_announced|by left].
    + split; [by apply announced_inv|]. right. eexists. split; [done|]. simpl. intros ? [= <-]. lia.
    + split; [by apply inv_announced, announced_inv|]. right. eexists. split; [done|]. simpl. intros ? [= <-]. lia.
  - split; [by destruct Hinv|by left].
  - split; [by destruct Hinv|by left].
Qed.

(** The announcements sort after everything said so far.  Whatever the clock
    does and whoever announces (the announce activity or the hooks), the log holds
    one derivable unit per announcement, numbered 1, 2, 3, ..., with strictly
    increasing times, and each announcement is stamped later than the clock at
    its production: among units ordered by time it comes after every event
    already logged, those of the same millisecond included. *)
Theorem announcements_in_order ops op :
  let a := announcer_run record_of new_announcer ops in
  let a' := announcer_step record_of a op in
  map ev_seq (a_log a) = seqZ 1 (Z.of_nat (length (a_log a))) ∧
  StronglySorted Z.lt (map ev_time (a_log a)) ∧
  map u_seq (deriveUnits (a_log a)) = map ev_seq (a_log a) ∧
  (a_log a' = a_log a ∨
   ∃ e, a_log a' = a_log a ++ [e] ∧ ∀ now, op_now op = Some now → now < ev_time e).
Proof.
  intros a a'. assert (announcer_inv a) as Hinv.
  { unfold a, announcer_run. clear a a'. assert (announcer_inv (@new_announcer R)) as H0 by apply new_announcer_inv.
    revert H0. generalize (@new_announcer R). induction ops as [|op' ops IH]; intros a0 H0; simpl; [done|].
    apply IH. by apply announcer_step_inv. }
  split_and!.
  - rewrite <- (ai_seq _ Hinv). apply (ai_seqs _ Hinv).
  - apply (ai_times _ Hinv).
  - rewrite (ai_units _ Hinv). pose proof (ai_speech _ Hinv) as Hs. clear -Hs.
    induction Hs as [|e l (id & text & E) _ IH]; simpl; [done|]. rewrite E. simpl. by f_equal.
  - by apply announcer_step_inv.
Qed.

(** The drives of an announcer whose listeners do not throw. *)
Definition drives (ps : list (option R * string * Z)) : list (announcer_op R) :=
  map (λ p, AnnounceDrive p.1.1 p.1.2 p.2 None) ps.

(** A record seen again without another in between is not new. *)
Fixpoint fresh_records (last : option R) (l : list R) : list R :=
  match l with
  | [] => []
  | r :: l => if bool_decide (last = Some r) then fresh_records last l else r :: fresh_records (Some r) l
  end.

Definition event_text (e : SessionEvent) : option string :=
  match ev_data e with AssistantEvent m => Some (messageBody m) | _ => None end.

Lemma gameStatsText_nonempty rec : gameStatsText rec ≠ "".
Proof. by unfold gameStatsText. Qed.

Lemma drive_fresh a r id now :
  announced a ≠ Some r →
  (announcer_drive record_of a (Some r) id now None).2 = settled ∧
  (announcer_drive record_of a (Some r) id now None).1.1 =
    mkAnnouncer (a_log a ++ [announcement id (Z.max (lastTime a + 1) (now + 1)) (a_seq a + 1)
                               (gameStatsText (record_of r))])
      (listeners a) (Some r) (a_seq a + 1) (Z.max (lastTime a + 1) (now + 1)).
Proof.
  intros Hr. unfold announcer_drive, announce. rewrite bool_decide_false by done.
  rewrite bool_decide_false by apply gameStatsText_nonempty. done.
Qed.

(** Each terminal record is announced once.  Over any sequence of drives the
    announcements are exactly the records the drives found, each once however
    often it is seen again, in order, with the summary of its game. *)
Theorem records_announced_once ps :
  omap event_text (a_log (announcer_run record_of new_announcer (drives ps))) =
  map (gameStatsText ∘ record_of) (fresh_records None (omap (λ p, p.1.1) ps)).
Proof.
  assert (∀ a, omap event_text (a_log (announcer_run record_of a (drives ps))) =
    omap event_text (a_log a) ++ map (gameStatsText ∘ record_of) (fresh_records (announced a) (omap (λ p, p.1.1) ps))) as H;
    [|by rewrite H].
  induction ps as [|[[[r|] id] now] ps IH]; intros a; [by rewrite app_nil_r| |apply IH].
  change (announcer_run record_of a (drives ((Some r, id, now) :: ps))) with
    (announcer_run record_of (announcer_drive record_of a (Some r) id now None).1.1 (drives ps)).
  rewrite IH.
  destruct (decide (announced a = Some r)) as [Hr|Hr].
  - assert (announcer_drive record_of a (Some r) id now None = (a, [], settled)) as ->
      by (unfold announcer_drive; by rewrite bool_decide_true).
    simpl. by rewrite bool_decide_true.
  - destruct (drive_fresh a r id now Hr) as [_ ->]. simpl.
    rewrite (bool_decide_false (announced a = Some r)) by done.
    rewrite omap_app. simpl. by rewrite <- app_assoc.
Qed.

(** A listener that throws: the announcement is on the log, the drive fails, and
    the restarted drive announces the record again. *)
Lemma thrown_drive_repeats a r id id' now now' k message :
  announced a ≠ Some r → (k < length (listeners a))%nat →
  let '(a1, _, outcome) := announcer_drive record_of a (Some r) id now (Some (k, message)) in
  let a2 := (announcer_drive record_of a1 (Some r) id' now' None).1.1 in
  outcome = failed INTERNAL (mkDetail None message) ∧
  omap event_text (a_log a2) =
    omap event_text (a_log a) ++ [gameStatsText (record_of r); gameStatsText (record_of r)].
Proof.
  intros Hr Hk. unfold announcer_drive, announce.
  rewrite !(bool_decide_false (_ = "")) by apply gameStatsText_nonempty.
  rewrite (bool_decide_false (announced a = _)) by done. rewrite bool_decide_true by done. simpl.
  rewrite bool_decide_false by done. simpl. split; [done|]. rewrite !omap_app. simpl. by rewrite <- app_assoc.
Qed.

End AnnouncerProperties.

(** ** The agent member: properties *)

Section AgentProperties.

Implicit Types m : AgentMember.

(** A turn's batch: the stale broadcasts of the inbox are removed first and the
    user messages left in place; then the whole input goes in, in order, the last
    message waking the agent. *)
Lemma batch_messages messages :
  omap (λ c, match c with CallInject x | CallFollowup x => Some x | _ => None end) (batch messages) = messages.
Proof. induction messages as [|x [|y l] IH]; simpl in *; [done|done|]. by f_equal. Qed.

Lemma batch_wakes messages :
  messages ≠ [] → ∃ l x, messages = l ++ [x] ∧ batch messages = map CallInject l ++ [CallFollowup x].
Proof.
  induction messages as [|x [|y l] IH]; [done| |]; intros _.
  - by exists [], x.
  - destruct IH as (l' & z & E1 & E2); [done|]. exists (x :: l'), z. split; [by rewrite E1|].
    change (batch (x :: y :: l)) with (CallInject x :: batch (y :: l)). by rewrite E2.
Qed.

Lemma startTurn_start m v messages hold calls m' :
  startTurn m v messages hold = (m', Started calls) →
  activeTurn m = None ∧ v_idle v = true ∧ activeTurn m' = Some hold ∧
  held m' = (if hold then Some messages else held m) ∧ lastTurnFailure m' = None ∧ abortRequested m' = false ∧
  calls = sweepBroadcastResidue v ++ batch messages.
Proof.
  unfold startTurn, agent_busy. case_bool_decide as Hb; [done|]. destruct (v_idle v); simpl; [|done].
  intros [= <- <-]. by split_and!.
Qed.

(** While a turn is in flight, and it has not ended. *)
Lemma in_turn m hold ops :
  activeTurn m = Some hold → forallb (negb ∘ ends_turn) ops = true →
  let m' := agent_run m ops in
  activeTurn m' = Some hold ∧ held m' = held m ∧
  abortRequested m' = abortRequested m || existsb (λ op, match op with AAbort => true | _ => false end) ops ∧
  lastTurnFailure m' = default (lastTurnFailure m)
    (Some <$> last (omap (λ op, match op with AError f => Some f | _ => None end) ops)).
Proof.
  revert m. induction ops as [|op ops IH]; intros m Ht; simpl; [by rewrite orb_false_r|].
  intros [Hop Hops]%andb_true_iff.
  assert (agent_busy m = true) as Hb by (unfold agent_busy; rewrite Ht; by apply bool_decide_true).
  change (agent_run m (op :: ops)) with (agent_run (agent_step m op) ops).
  destruct op as [v drained landed message| |f| |]; simpl in Hop; try done.
  - destruct (IH (agent_step m (ADeliver v drained landed message))) as (H1 & H2 & H3 & H4);
      [simpl; unfold deliver; by rewrite Hb|done|].
    split_and!; [done|by rewrite H2; simpl; unfold deliver; rewrite Hb|rewrite H3|rewrite H4];
      simpl; unfold deliver; by rewrite Hb.
  - destruct (IH (agent_step m AAbort)) as (H1 & H2 & H3 & H4); [done|done|].
    split_and!; [done|done| |done]. rewrite H3. simpl. by rewrite Hb, !orb_true_r.
  - destruct (IH (agent_step m (AError f))) as (H1 & H2 & H3 & H4); [done|done|].
    split_and!; [done|done|done|]. rewrite H4. simpl omap. rewrite last_cons.
    by destruct (last _).
Qed.

(** A turn reports what happened in it.  Whatever a turn is started for and
    whatever happened before it, its outcome is [aborted] if an interruption was
    latched during it, otherwise the failure of the last error the agent raised
    during it, otherwise [settled]. *)
Theorem turn_outcome m0 v messages hold calls m ops
    (Hs : startTurn m0 v messages hold = (m, Started calls))
    (Hops : forallb (negb ∘ ends_turn) ops = true) :
  let m' := agent_run m ops in
  activeTurn m' = Some hold ∧
  (turn_idle m' hold).2 =
    if existsb (λ op, match op with AAbort => true | _ => false end) ops then aborted
    else match last (omap (λ op, match op with AError f => Some f | _ => None end) ops) with
         | Some f => failed (mapEngineCode (tf_engineCode f)) (mkDetail (tf_engineCode f) (tf_message f))
         | None => settled
         end.
Proof.
  apply startTurn_start in Hs as (_ & _ & Ht & _ & Hf & Ha & _).
  destruct (in_turn m hold ops Ht Hops) as (H1 & _ & H3 & H4). split; [done|].
  unfold turn_idle. simpl. rewrite H3, Ha, H4, Hf. simpl. by destruct (last _).
Qed.

(** Between the flow's drives the held input stays. *)
Lemma deliveries_keep_held m ops :
  (∀ hold, activeTurn m = Some hold → hold = false) →
  held (agent_run m ops) = held m ∧ (∀ hold, activeTurn (agent_run m ops) = Some hold → hold = false).
Proof.
  revert m. induction ops as [|op ops IH]; intros m Hf; simpl; [done|].
  assert (held (agent_step m op) = held m ∧
    ∀ hold, activeTurn (agent_step m op) = Some hold → hold = false) as [E1 E2].
  { destruct op as [v drained landed message| |f| |]; simpl; try done.
    - unfold deliver. destruct (agent_busy m) eqn:Hb; [done|]. unfold startTurn. rewrite Hb.
      destruct (v_idle v); simpl; [|done]. split; [done|]. by intros hold [= <-].
    - destruct (activeTurn m) as [hold|] eqn:E; [|by rewrite E].
      rewrite (Hf hold eq_refl). unfold turn_idle. simpl. done.
    - destruct (activeTurn m) as [hold|] eqn:E; [done|by rewrite E]. }
  destruct (IH _ E2) as [H1 H2]. split; [by rewrite H1|done].
Qed.

(** Whether the operation ends the drive's turn by settling it. *)
Definition completes (m : AgentMember) (op : agent_op) : bool :=
  match op with AIdle => bool_decide ((turn_idle m true).2 = settled) | _ => false end.

(** An interrupted activity is replayed exactly.  The input of a flow drive is
    lost only by settling: after its turn was in flight ([es1]) and ended
    ([op], idle or by a throw), and whatever deliveries, turns of theirs, aborts
    and errors follow ([es2]), the next drive with nothing fresh rests if the turn
    had settled, and otherwise starts a turn with the very same input, which it
    holds in turn. *)
Theorem interrupted_input_replayed m0 v0 messages calls m es1 op es2 v
    (Hs : startTurn m0 v0 messages true = (m, Started calls)) (Hne : messages ≠ [])
    (H1 : forallb (negb ∘ ends_turn) es1 = true) (Hop : ends_turn op = true)
    (Hq : activeTurn (agent_run m (es1 ++ op :: es2)) = None) (Hv : v_idle v = true) :
  let m' := agent_run m (es1 ++ op :: es2) in
  if completes (agent_run m es1) op then (agent_drive m' v [] []).2 = DriveResting
  else ∃ m'', agent_drive m' v [] [] =
    (m'', DriveStart (Started (sweepBroadcastResidue v ++ batch messages))) ∧ held m'' = Some messages.
Proof.
  intros m'. fold m' in Hq. apply startTurn_start in Hs as (_ & _ & Ht & Hh & _).
  destruct (in_turn m true es1 Ht H1) as (Ht1 & Hh1 & _ & _). rewrite Hh in Hh1.
  assert (m' = agent_run (agent_step (agent_run m es1) op) es2) as E
    by (unfold m', agent_run; by rewrite fold_left_app).
  assert (activeTurn (agent_step (agent_run m es1) op) = None ∧
    held (agent_step (agent_run m es1) op) =
      if completes (agent_run m es1) op then None else Some messages) as [Ht2 Hh2].
  { destruct op; simpl in Hop; try done; simpl; rewrite Ht1; simpl; (split; [done|]); [|done].
    by rewrite Hh1. }
  destruct (deliveries_keep_held (agent_step (agent_run m es1) op) es2) as [Hh3 _]; [by rewrite Ht2|].
  rewrite <- E, Hh2 in Hh3. assert (agent_busy m' = false) as Hb
    by (unfold agent_busy; apply bool_decide_false; rewrite Hq; tauto).
  unfold agent_drive, defaultInput. simpl. rewrite Hh3.
  destruct (completes _ _); simpl; [done|].
  destruct messages as [|x l]; [done|]. unfold startTurn, agent_busy. simpl. rewrite Hq.
  rewrite bool_decide_false by tauto. rewrite Hv. simpl. eexists. split; done.
Qed.

(** Fresh input takes the place of the held one: it starts the turn, and the held
    set is overwritten without having been replayed. *)
Lemma fresh_input_drops_held m v fresh old :
  fresh ≠ [] → held m = Some old → activeTurn m = None → v_idle v = true →
  ∃ m', agent_drive m v fresh [] =
    (m', DriveStart (Started (sweepBroadcastResidue v ++ batch fresh))) ∧ held m' = Some fresh.
Proof.
  intros Hf Hh Ht Hv. unfold agent_drive, defaultInput. rewrite app_nil_r.
  destruct fresh as [|x l]; [done|]. unfold startTurn, agent_busy. rewrite Ht, bool_decide_false by tauto.
  rewrite Hv. simpl. by eexists.
Qed.

(** The classes of engine codes: the tables are disjoint, so their order in the
    chain does not matter, and everything else is [INTERNAL]. *)
Lemma mapEngineCode_classes c :
  mapEngineCode (Some c) =
    (if bool_decide (c ∈ INPUT_TOO_LARGE_ENGINE_CODES) then INPUT_TOO_LARGE
     else if bool_decide (c ∈ CONFIG_ENGINE_CODES) || String.prefix "HTTP_" c then CONFIG
     else if bool_decide (c ∈ CREDENTIAL_ENGINE_CODES) then CREDENTIAL
     else if bool_decide (c ∈ QUOTA_ENGINE_CODES) then QUOTA
     else if bool_decide (c ∈ TRANSIENT_ENGINE_CODES) then TRANSIENT
     else INTERNAL).
Proof.
  destruct (decide (c ∈ TRANSIENT_ENGINE_CODES ++ QUOTA_ENGINE_CODES ++ CREDENTIAL_ENGINE_CODES ++
    CONFIG_ENGINE_CODES ++ INPUT_TOO_LARGE_ENGINE_CODES)) as [Hc|Hc].
  - repeat (apply elem_of_cons in Hc as [->|Hc]; [by vm_compute|]). by apply elem_of_nil in Hc.
  - rewrite !not_elem_of_app in Hc. destruct Hc as (? & ? & ? & ? & ?).
    unfold mapEngineCode. rewrite !bool_decide_false by done. done.
Qed.

End AgentProperties.

(** ** Witnesses *)

Section Witnesses.

Definition sample_message (id : string) : AgentMessage :=
  mkMessage id (mkUserMessage id (SourceOther "user")).

(** An idle agent whose inbox still holds a broadcast. *)
Definition sample_view : AgentView :=
  mkView [mkMessage "b1" (mkUserMessage "old" (TeamBroadcast (mkBroadcastSource "player" "s/player" "m1" None)))]
    [sample_message "u0"] true.

Definition sample_input : list AgentMessage := [sample_message "u1"; sample_message "u2"].

Definition sample_calls : list AgentCall :=
  [CallRemove "b1"; CallInject (sample_message "u1"); CallFollowup (sample_message "u2")].

Definition sample_turn (hold : bool) : AgentMember :=
  (startTurn new_agent_member sample_view sample_input hold).1.

Definition sample_error : agent_op := AError (mkTurnFailure (Some "HTTP_503") "unavailable").

Lemma turn_outcome_witness :
  let m' := agent_run (sample_turn true) [sample_error] in
  (turn_idle m' true).2 = failed CONFIG (mkDetail (Some "HTTP_503") "unavailable").
Proof.
  destruct (turn_outcome new_agent_member sample_view sample_input true sample_calls (sample_turn true)
    [sample_error] eq_refl eq_refl) as [_ H].
  exact H.
Defined.

(** The turn fails, a user message runs a turn of its own, and the drive restarts. *)
Lemma interrupted_input_replayed_witness :
  let m' := agent_run (sample_turn true)
    ([sample_error] ++ AIdle :: [ADeliver sample_view [] [] (sample_message "u9"); AIdle]) in
  ∃ m'', agent_drive m' sample_view [] [] =
    (m'', DriveStart (Started (sweepBroadcastResidue sample_view ++ batch sample_input))) ∧
    held m'' = Some sample_input.
Proof.
  exact (interrupted_input_replayed new_agent_member sample_view sample_input sample_calls (sample_turn true)
    [sample_error] AIdle [ADeliver sample_view [] [] (sample_message "u9"); AIdle] sample_view
    eq_refl ltac:(discriminate) eq_refl eq_refl eq_refl eq_refl).
Defined.

End Witnesses.
