(* ===== verification/ChatWire.v ===== *)
(** * The frames of the team stream

    The vocabulary the conversation server and the web client share: the protojson
    projection of [projects/game/web/frontend/src/api/conversation.ts], which is
    also the shape of the objects [projects/game/agent_v2/src/history.ts] builds.
    The payload of a frame is a oneof, so it is one value of an inductive type;
    [None] stands for a branch the consumer does not know. *)

From S2P Require Import Prelude.

#[local] Open Scope Z_scope.

(** The names of the enum values the code compares. *)
Definition TOOL_STATUS_RUNNING : string := "TOOL_STATUS_RUNNING".
Definition TOOL_STATUS_FAILED : string := "TOOL_STATUS_FAILED".
Definition TOOL_STATUS_SUCCEEDED : string := "TOOL_STATUS_SUCCEEDED".

Inductive BlockType : Type :=
| BLOCK_TYPE_UNSPECIFIED
| BLOCK_TYPE_TEXT
| BLOCK_TYPE_THINK
| BLOCK_TYPE_TOOL_CALL.

Inductive TurnStatus : Type :=
| TURN_STATUS_UNSPECIFIED
| TURN_STATUS_COMPLETED
| TURN_STATUS_ERROR
| TURN_STATUS_ABORTED
| TURN_STATUS_CANCELED.

Inductive Role : Type :=
| ROLE_UNSPECIFIED
| ROLE_USER
| ROLE_AGENT.

#[export] Instance BlockType_eq_dec : EqDecision BlockType.
Proof. solve_decision. Defined.
#[export] Instance TurnStatus_eq_dec : EqDecision TurnStatus.
Proof. solve_decision. Defined.
#[export] Instance Role_eq_dec : EqDecision Role.
Proof. solve_decision. Defined.

Record ToolCallBlock : Type := mkToolCall {
  tc_toolId : string;
  tc_name : string;
  tc_argsJson : string;
  tc_status : string;
  tc_result : option string;
}.

Inductive ContentBlock : Type :=
| TextBlock (content : string)
| ThinkBlock (content : string)
| ToolBlock (call : ToolCallBlock)
| UnknownBlock.

(** Timestamps are compared by nobody: [ts_seconds] and [ts_nanos] as built. *)
Record Timestamp : Type := mkTimestamp { ts_seconds : Z; ts_nanos : Z }.

Record HistoryMessage : Type := mkHistoryMessage {
  hm_messageId : option string;
  hm_role : Role;
  hm_createTime : option Timestamp;
  hm_blocks : list ContentBlock;
  hm_interrupted : option bool;
}.

#[export] Instance ToolCallBlock_eq_dec : EqDecision ToolCallBlock.
Proof. solve_decision. Defined.
#[export] Instance ContentBlock_eq_dec : EqDecision ContentBlock.
Proof. solve_decision. Defined.
#[export] Instance Timestamp_eq_dec : EqDecision Timestamp.
Proof. solve_decision. Defined.
#[export] Instance HistoryMessage_eq_dec : EqDecision HistoryMessage.
Proof. solve_decision. Defined.

Definition set_blocks (m : HistoryMessage) (blocks : list ContentBlock) : HistoryMessage :=
  mkHistoryMessage (hm_messageId m) (hm_role m) (hm_createTime m) blocks (hm_interrupted m).

(** protojson writes the 64-bit [seq] as a decimal string. *)
Inductive wire_int : Type :=
| WireNumber (n : Z)
| WireString (s : string).

Record TeamMessage : Type := mkTeamMessage {
  tm_member : option string;
  tm_message : HistoryMessage;
  tm_seq : wire_int;
}.

Record MemberViewEvent : Type := mkMemberViewEvent {
  mv_member : option string;
  mv_sender : option string;
  mv_message : HistoryMessage;
}.

Record BlockStartEvent : Type := mkBlockStart {
  bs_index : Z;
  bs_type : BlockType;
  bs_toolId : option string;
  bs_name : option string;
  bs_step : option Z;
}.

Record BlockDeltaEvent : Type := mkDelta { bd_index : Z; bd_text : string; bd_step : option Z }.
Record BlockEndEvent : Type := mkBlockEnd { be_index : Z; be_block : ContentBlock; be_step : option Z }.
Record ToolResultEvent : Type := mkToolResult { tr_toolId : string; tr_status : string; tr_result : string }.

Record TurnUsage : Type := mkUsage {
  tu_inputTokens : string;
  tu_outputTokens : string;
  tu_reasoningTokens : option string;
}.

Record ErrorView : Type := mkError { er_code : string; er_message : string }.

Record TurnEndEvent : Type := mkTurnEnd {
  te_status : TurnStatus;
  te_error : option ErrorView;
  te_usage : option TurnUsage;
}.

Inductive Payload : Type :=
| Queued (position : Z)
| TeamMessageFrame (f : TeamMessage)
| MemberViewFrame (f : MemberViewEvent)
| TurnStart
| BlockStart (e : BlockStartEvent)
| Delta (e : BlockDeltaEvent)
| BlockEnd (e : BlockEndEvent)
| TurnEnd (e : TurnEndEvent)
| ToolResult (e : ToolResultEvent).

Record ChatEvent : Type := mkChatEvent {
  ev_session : option string;
  ev_turnId : option string;
  ev_member : option string;
  ev_payload : option Payload;
}.

(** The reserved producer of user input. *)
Definition USER_MEMBER : string := "user".

(** ** Numbers on the wire

    [Number(s)] on the numerals the server writes: decimal digits with an
    optional sign; any other string is [NaN]. *)
Definition digit_value (c : Ascii.ascii) : option Z :=
  let n := Z.of_nat (Ascii.nat_of_ascii c) - 48 in
  if (0 <=? n) && (n <=? 9) then Some n else None.

Fixpoint parse_digits (acc : Z) (s : string) : option Z :=
  match s with
  | EmptyString => Some acc
  | String c s => d ← digit_value c; parse_digits (10 * acc + d) s
  end.

(** The sign, code 45. *)
Definition minus : Ascii.ascii := Ascii.ascii_of_nat 45.

Definition parse_natural (s : string) : jsnum :=
  match parse_digits 0 s with Some n => JNum n | None => JNaN end.

Definition js_number (s : string) : jsnum :=
  match s with
  | EmptyString => JNum 0
  | String c s' =>
      if bool_decide (c = minus) then
        match parse_natural s' with
        | JNum n => if bool_decide (s' = "") then JNaN else JNum (- n)
        | JNaN => JNaN
        end
      else parse_natural s
  end.

Definition seqOf (seq : option wire_int) : jsnum :=
  match seq with
  | Some (WireNumber n) => JNum n
  | Some (WireString s) => js_number s
  | None => JNum 0
  end.

(** ** Numerals *)

Lemma digit_value_char (x : N) :
  digit_value (pretty_N_char (x `mod` 10)) = Some (Z.of_N (x `mod` 10)).
Proof.
  assert (Hlt : (x `mod` 10 < 10)%N) by (apply N.mod_lt; lia).
  revert Hlt; generalize (x `mod` 10)%N as d; intros d Hlt.
  assert (Hd : In d [0;1;2;3;4;5;6;7;8;9]%N) by (simpl; lia).
  simpl in Hd; repeat (destruct Hd as [<-|Hd]; [reflexivity|]); destruct Hd.
Qed.

Lemma parse_digits_pretty_go (x : N) (s : string) :
  (0 < x)%N → parse_digits 0 (pretty_N_go x s) = parse_digits (Z.of_N x) s.
Proof.
  revert s; induction (N.lt_wf_0 x) as [x _ IH]; intros s Hx.
  rewrite pretty_N_go_step by done.
  destruct (decide (x < 10)%N) as [Hlt|Hge].
  - rewrite (N.div_small x 10) by done.
    rewrite pretty_N_go_0; simpl; rewrite digit_value_char; simpl.
    by rewrite N.mod_small.
  - rewrite IH; [|apply N.div_lt; lia|apply N.div_str_pos; lia].
    simpl; rewrite digit_value_char; simpl; f_equal.
    rewrite (N.div_mod x 10) at 3 by lia; lia.
Qed.

Lemma pretty_N_char_not_minus d : pretty_N_char d ≠ minus.
Proof. unfold pretty_N_char; by repeat case_match. Qed.

Lemma pretty_N_go_head (x : N) (c : Ascii.ascii) (s : string) :
  c ≠ minus → ∃ c' s', pretty_N_go x (String c s) = String c' s' ∧ c' ≠ minus.
Proof.
  revert c s; induction (N.lt_wf_0 x) as [x _ IH]; intros c s Hc.
  destruct (decide (x = 0%N)) as [->|Hx]; [rewrite pretty_N_go_0; eauto|].
  rewrite pretty_N_go_step by lia.
  apply IH; [apply N.div_lt; lia|apply pretty_N_char_not_minus].
Qed.

(** A natural number survives the trip through its protojson string. *)
Lemma js_number_num_str (n : Z) : 0 < n → js_number (num_str n) = JNum n.
Proof.
  intros Hn; destruct n as [|p|p]; [lia| |lia].
  change (num_str (Z.pos p)) with (pretty_N_go (N.pos p) "").
  assert (Hhd : ∃ c s, pretty_N_go (N.pos p) "" = String c s ∧ c ≠ minus).
  { rewrite pretty_N_go_step by done. apply pretty_N_go_head, pretty_N_char_not_minus. }
  destruct Hhd as (c & s & Heq & Hc).
  unfold js_number; rewrite Heq, bool_decide_false by done.
  unfold parse_natural; rewrite <- Heq, parse_digits_pretty_go by done; reflexivity.
Qed.

Lemma seqOf_num_str (n : Z) : 0 < n → seqOf (Some (WireString (num_str n))) = JNum n.
Proof. apply js_number_num_str. Qed.

#[export] Hint Rewrite seqOf_num_str using lia : wire.
