(* ===== verification/History.v ===== *)
(** * The history projections of a team

    [projects/game/agent_v2/src/history.ts], first half: the class [TeamHistory]
    and the mappings from the harness vocabulary to the frames.

    The messages of the history are shared objects: the merged sequence and the
    member views hold references to them, and settling a tool result mutates the
    object both see.  [heap] holds the messages in the order they are built and a
    reference is a position of it.  [sunk] is the sequence of frames handed to the
    sink, each serialized at that moment. *)

From S2P Require Import Prelude ChatWire.

#[local] Open Scope Z_scope.

(** ** The harness vocabulary *)

Record DshContentBlockView : Type := mkBlockView {
  cv_type : string;
  cv_text : option string;
  cv_id : option string;
  cv_name : option string;
  cv_arguments : option string;
}.

Record DshTokenUsage : Type := mkTokenUsage {
  inputTokens : Z;
  outputTokens : Z;
  reasoningTokens : option Z;
}.

Record DshStreamChunk : Type := mkChunk {
  ck_type : string;
  ck_index : option Z;
  ck_text : option string;
  ck_blockType : option string;
  ck_id : option string;
  ck_name : option string;
  ck_argumentsDelta : option string;
  ck_block : option DshContentBlockView;
  ck_usage : option DshTokenUsage;
}.

Record UserMessageEvent : Type := mkUserMessage {
  ue_content : list DshContentBlockView;
  ue_kind : string;
  ue_role : option string;
}.

(** [x ?? ""] *)
Definition or_empty (s : option string) : string := default "" s.
Definition or_zero (n : option Z) : Z := default 0 n.

Definition broadcastSender (role : option string) : string :=
  match role with
  | None => "user"
  | Some r => if bool_decide (r = "") then "user" else r
  end.

Definition BLOCK_TYPES (blockType : string) : option BlockType :=
  if bool_decide (blockType = "text") then Some BLOCK_TYPE_TEXT
  else if bool_decide (blockType = "reasoning") then Some BLOCK_TYPE_THINK
  else if bool_decide (blockType = "tool-call") then Some BLOCK_TYPE_TOOL_CALL
  else None.

(** [ms] is the reading of the clock. *)
Definition nowTimestamp (ms : Z) : Timestamp := mkTimestamp (ms / 1000) (ms mod 1000 * 1000000).

Definition blockToContentBlock (block : DshContentBlockView) : option ContentBlock :=
  if bool_decide (cv_type block = "text") then Some (TextBlock (or_empty (cv_text block)))
  else if bool_decide (cv_type block = "reasoning") then Some (ThinkBlock (or_empty (cv_text block)))
  else if bool_decide (cv_type block = "tool-call") then
    Some (ToolBlock (mkToolCall (or_empty (cv_id block)) (or_empty (cv_name block))
      (or_empty (cv_arguments block)) TOOL_STATUS_RUNNING None))
  else None.

Definition mk_frame (session turnId : string) (p : Payload) : ChatEvent :=
  mkChatEvent (Some session) (Some turnId) None (Some p).

(** [remapIndex] has the effect of registering the index, so it passes a state and
    is called only where the code calls it. *)
Definition chunkToChatEvent {S} (remapIndex : S → Z → S * Z) (s : S) (chunk : DshStreamChunk)
    (session turnId : string) (step : Z) : S * option ChatEvent :=
  let index := or_zero (ck_index chunk) in
  if bool_decide (ck_type chunk = "block-start") then
    match BLOCK_TYPES (or_empty (ck_blockType chunk)) with
    | None => (s, None)
    | Some bt =>
        let '(s, i) := remapIndex s index in
        let tool := bool_decide (ck_blockType chunk = Some "tool-call") in
        (s, Some (mk_frame session turnId (BlockStart (mkBlockStart i bt
          (if tool then Some (or_empty (ck_id chunk)) else None)
          (if tool then Some (or_empty (ck_name chunk)) else None) (Some step)))))
    end
  else if bool_decide (ck_type chunk = "text-delta" ∨ ck_type chunk = "reasoning-delta") then
    let '(s, i) := remapIndex s index in
    (s, Some (mk_frame session turnId (Delta (mkDelta i (or_empty (ck_text chunk)) (Some step)))))
  else if bool_decide (ck_type chunk = "tool-call-delta") then
    let '(s, i) := remapIndex s index in
    (s, Some (mk_frame session turnId (Delta (mkDelta i (or_empty (ck_argumentsDelta chunk)) (Some step)))))
  else if bool_decide (ck_type chunk = "block-end") then
    match ck_block chunk ≫= blockToContentBlock with
    | None => (s, None)
    | Some block =>
        let '(s, i) := remapIndex s index in
        (s, Some (mk_frame session turnId (BlockEnd (mkBlockEnd i block (Some step)))))
    end
  else (s, None).

Definition usageToProto (usage : option DshTokenUsage) : option TurnUsage :=
  u ← usage;
  Some (mkUsage (num_str (inputTokens u)) (num_str (outputTokens u)) (num_str <$> reasoningTokens u)).

(** ** [TeamHistory] *)

Record MergeRef : Type := mkMergeRef { me_member : string; me_ref : nat; me_seq : Z }.
Record ViewRef : Type := mkViewRef { ve_ref : nat; ve_sender : string }.

#[export] Instance MergeRef_eq_dec : EqDecision MergeRef.
Proof. solve_decision. Defined.

Record TeamHistory : Type := mkHistory {
  h_session : string;
  heap : list HistoryMessage;
  merge : list MergeRef;
  views : gmap string (list ViewRef);
  nextSeq : Z;
  nextMessageId : Z;
  sunk : list ChatEvent;
}.

Definition new_TeamHistory (session : string) : TeamHistory :=
  mkHistory session [] [] ∅ 1 1 [].

(** What the list methods return: references followed. *)
Record TeamMergeEntry : Type := mkMergeEntry {
  mg_member : string;
  mg_message : HistoryMessage;
  mg_seq : Z;
}.
Record MemberViewEntry : Type := mkViewEntry { vw_message : HistoryMessage; vw_sender : string }.

(** The value of a reference; every reference of a history names a message. *)
Definition blank : HistoryMessage := mkHistoryMessage None ROLE_UNSPECIFIED None [] None.
Definition deref (h : TeamHistory) (r : nat) : HistoryMessage := default blank (heap h !! r).

Definition sink (h : TeamHistory) (e : ChatEvent) : TeamHistory :=
  mkHistory (h_session h) (heap h) (merge h) (views h) (nextSeq h) (nextMessageId h) (sunk h ++ [e]).

Definition newMessage (h : TeamHistory) (now : Z) (role : Role) (blocks : list ContentBlock)
    (interrupted : bool) : TeamHistory * nat :=
  let message := mkHistoryMessage (Some ("m" +:+ num_str (nextMessageId h))) role
    (Some (nowTimestamp now)) blocks (if interrupted then Some true else None) in
  (mkHistory (h_session h) (heap h ++ [message]) (merge h) (views h) (nextSeq h)
     (nextMessageId h + 1) (sunk h), length (heap h)).

Definition team_message_frame (session member : string) (message : HistoryMessage) (seq : Z) : ChatEvent :=
  mkChatEvent (Some session) None None
    (Some (TeamMessageFrame (mkTeamMessage (Some member) message (WireString (num_str seq))))).

Definition appendMerge (h : TeamHistory) (member : string) (r : nat) : TeamHistory * MergeRef :=
  let entry := mkMergeRef member r (nextSeq h) in
  let h' := mkHistory (h_session h) (heap h) (merge h ++ [entry]) (views h) (nextSeq h + 1)
    (nextMessageId h) (sunk h) in
  (sink h' (team_message_frame (h_session h) member (deref h r) (me_seq entry)), entry).

Definition pushView (h : TeamHistory) (role : string) (entry : ViewRef) : TeamHistory :=
  mkHistory (h_session h) (heap h) (merge h)
    (match views h !! role with
     | None => <[role := [entry]]> (views h)
     | Some view => <[role := view ++ [entry]]> (views h)
     end) (nextSeq h) (nextMessageId h) (sunk h).

Definition appendUser (h : TeamHistory) (now : Z) (text : string) : TeamHistory * MergeRef :=
  let '(h, r) := newMessage h now ROLE_USER [TextBlock text] false in
  appendMerge h "user" r.

Definition appendMemberOutput (h : TeamHistory) (now : Z) (role : string)
    (content : list DshContentBlockView) (interrupted recordView : bool) : TeamHistory * option MergeRef :=
  let blocks := omap blockToContentBlock content in
  if bool_decide (blocks = []) then (h, None)
  else
    let '(h, r) := newMessage h now ROLE_AGENT blocks interrupted in
    let '(h, entry) := appendMerge h role r in
    (if recordView then pushView h role (mkViewRef r role) else h, Some entry).

Definition appendAnnouncement (h : TeamHistory) (now : Z) (role text : string) : TeamHistory * MergeRef :=
  let '(h, r) := newMessage h now ROLE_AGENT [TextBlock text] false in
  appendMerge h role r.

Definition user_text_block (block : DshContentBlockView) : option ContentBlock :=
  if bool_decide (cv_type block = "text") then Some (TextBlock (or_empty (cv_text block))) else None.

Definition member_view_frame (session member sender : string) (message : HistoryMessage) : ChatEvent :=
  mkChatEvent (Some session) None None
    (Some (MemberViewFrame (mkMemberViewEvent (Some member) (Some sender) message))).

Definition appendMemberViewUser (h : TeamHistory) (now : Z) (role : string) (event : UserMessageEvent)
    (recordView : bool) : TeamHistory :=
  if negb recordView then h
  else if bool_decide (ue_kind event ≠ "user" ∧ ue_kind event ≠ "team-broadcast") then h
  else
    let blocks := omap user_text_block (ue_content event) in
    if bool_decide (blocks = []) then h
    else
      let '(h, r) := newMessage h now ROLE_USER blocks false in
      let sender := if bool_decide (ue_kind event = "team-broadcast") then broadcastSender (ue_role event)
        else "user" in
      let h := pushView h role (mkViewRef r sender) in
      sink h (member_view_frame (h_session h) role sender (deref h r)).

(** The last running call block of that id takes the result. *)
Definition is_running (toolId : string) (b : ContentBlock) : bool :=
  match b with
  | ToolBlock c => bool_decide (tc_toolId c = toolId) && bool_decide (tc_status c = TOOL_STATUS_RUNNING)
  | _ => false
  end.

Definition settle_block (status result : string) (b : ContentBlock) : ContentBlock :=
  match b with
  | ToolBlock c => ToolBlock (mkToolCall (tc_toolId c) (tc_name c) (tc_argsJson c) status (Some result))
  | _ => b
  end.

Fixpoint settle_last (toolId status result : string) (blocks : list ContentBlock) : option (list ContentBlock) :=
  match blocks with
  | [] => None
  | b :: rest =>
      match settle_last toolId status result rest with
      | Some rest' => Some (b :: rest')
      | None => if is_running toolId b then Some (settle_block status result b :: rest) else None
      end
  end.

(** The scan of the merged sequence, newest entry first. *)
Fixpoint settle_scan (h : TeamHistory) (role toolId status result : string) (entries : list MergeRef)
    : option (nat * list ContentBlock) :=
  match entries with
  | [] => None
  | entry :: rest =>
      if bool_decide (me_member entry = role) then
        match settle_last toolId status result (hm_blocks (deref h (me_ref entry))) with
        | Some blocks => Some (me_ref entry, blocks)
        | None => settle_scan h role toolId status result rest
        end
      else settle_scan h role toolId status result rest
  end.

Definition settleToolResult (h : TeamHistory) (role toolId status result : string) : TeamHistory * bool :=
  match settle_scan h role toolId status result (reverse (merge h)) with
  | None => (h, false)
  | Some (r, blocks) =>
      (mkHistory (h_session h) (<[r := set_blocks (deref h r) blocks]> (heap h)) (merge h) (views h)
         (nextSeq h) (nextMessageId h) (sunk h), true)
  end.

Definition listTeamMessages (h : TeamHistory) : list TeamMergeEntry :=
  (λ e, mkMergeEntry (me_member e) (deref h (me_ref e)) (me_seq e)) <$> merge h.

Definition listMemberMessages (h : TeamHistory) (role : string) : list MemberViewEntry :=
  (λ e, mkViewEntry (deref h (ve_ref e)) (ve_sender e)) <$> default [] (views h !! role).

(** ** Lemmas *)

(** The frames with no turn: merge entries and consumed inputs. *)
Definition team_level (e : ChatEvent) : Prop := ev_turnId e = None ∧ ev_member e = None.

(** A history write that hands out only team-level frames. *)
Definition writes_team_level (h h' : TeamHistory) : Prop :=
  ∃ fs, sunk h' = sunk h ++ fs ∧ Forall team_level fs ∧ h_session h' = h_session h.

Lemma writes_refl h : writes_team_level h h.
Proof. exists []; rewrite app_nil_r; auto. Qed.

Lemma writes_trans h1 h2 h3 :
  writes_team_level h1 h2 → writes_team_level h2 h3 → writes_team_level h1 h3.
Proof.
  intros (f & H1 & F1 & S1) (g & H2 & F2 & S2).
  exists (f ++ g); rewrite H2, H1, <- app_assoc, Forall_app, S2; auto.
Qed.

Lemma newMessage_writes h now role blocks i :
  writes_team_level h (newMessage h now role blocks i).1.
Proof. exists []; simpl; rewrite app_nil_r; auto. Qed.

Lemma sink_writes h e : team_level e → writes_team_level h (sink h e).
Proof. intros He; exists [e]; simpl; auto. Qed.

Lemma appendMerge_writes h member r : writes_team_level h (appendMerge h member r).1.
Proof. eexists [_]; simpl; repeat split; repeat constructor. Qed.

Lemma pushView_writes h role e : writes_team_level h (pushView h role e).
Proof. exists []; simpl; rewrite app_nil_r; auto. Qed.

#[export] Hint Resolve writes_refl newMessage_writes sink_writes appendMerge_writes pushView_writes : history.

Lemma appendMemberOutput_writes h now role content i rv :
  writes_team_level h (appendMemberOutput h now role content i rv).1.
Proof.
  unfold appendMemberOutput; case_bool_decide; [auto with history|].
  destruct (newMessage _ _ _ _ _) as [h1 r] eqn:E1.
  destruct (appendMerge h1 role r) as [h2 e] eqn:E2.
  eapply writes_trans; [apply (newMessage_writes h now ROLE_AGENT (omap blockToContentBlock content) i)|].
  rewrite E1; eapply writes_trans; [apply (appendMerge_writes h1 role r)|]; rewrite E2.
  destruct rv; simpl; auto with history.
Qed.

Lemma appendUser_writes h now text : writes_team_level h (appendUser h now text).1.
Proof. eapply writes_trans; [apply newMessage_writes|apply appendMerge_writes]. Qed.

Lemma appendAnnouncement_writes h now role text :
  writes_team_level h (appendAnnouncement h now role text).1.
Proof. eapply writes_trans; [apply newMessage_writes|apply appendMerge_writes]. Qed.

Lemma appendMemberViewUser_writes h now role e rv :
  writes_team_level h (appendMemberViewUser h now role e rv).
Proof.
  unfold appendMemberViewUser; destruct rv; simpl; [|auto with history].
  case_bool_decide; [auto with history|]; case_bool_decide; [auto with history|].
  eexists [_]; simpl; repeat split; repeat constructor.
Qed.

Lemma settleToolResult_sunk h role toolId status result :
  sunk (settleToolResult h role toolId status result).1 = sunk h ∧
  h_session (settleToolResult h role toolId status result).1 = h_session h.
Proof. unfold settleToolResult; by destruct (settle_scan _ _ _ _ _ _) as [[]|]. Qed.

Lemma settleToolResult_writes h role toolId status result :
  writes_team_level h (settleToolResult h role toolId status result).1.
Proof.
  destruct (settleToolResult_sunk h role toolId status result) as [H1 H2].
  exists []; rewrite app_nil_r; auto.
Qed.

#[export] Hint Resolve appendMemberOutput_writes appendUser_writes appendAnnouncement_writes
  appendMemberViewUser_writes settleToolResult_writes : history.

(** The block frames, with the index and the step they carry. *)
Definition block_frame (i : Z) (step : Z) (pl : Payload) : Prop :=
  match pl with
  | BlockStart b => bs_index b = i ∧ bs_step b = Some step
  | Delta d => bd_index d = i ∧ bd_step d = Some step
  | BlockEnd b => be_index b = i ∧ be_step b = Some step
  | _ => False
  end.

(** A chunk is dropped, or becomes one block frame at the index it is given. *)
Lemma chunkToChatEvent_cases {S} (remap : S → Z → S * Z) s chunk session turnId step :
  chunkToChatEvent remap s chunk session turnId step = (s, None) ∨
  ∃ pl, block_frame (remap s (or_zero (ck_index chunk))).2 step pl ∧
    chunkToChatEvent remap s chunk session turnId step =
      ((remap s (or_zero (ck_index chunk))).1, Some (mk_frame session turnId pl)).
Proof.
  unfold chunkToChatEvent.
  destruct (remap s (or_zero (ck_index chunk))) as [s' i]; simpl.
  repeat case_bool_decide; repeat case_match; simplify_eq; auto; right; eexists; (split; [|reflexivity]); done.
Qed.
