(* ===== verification/Collector.v ===== *)
(** * The collector of one member's events

    [projects/game/agent_v2/src/history.ts], second half: the class
    [MemberCollector], which turns the envelopes of the team's member event stream
    into member frames and history entries.  It shares the history and the sink
    with the collectors of the other members, so its handlers pass a
    [TeamHistory] along.  [now] and [uuid] are what the clock and [randomUUID]
    would answer during the call (at most one reading of each is used). *)

From S2P Require Import Prelude ChatWire History.

#[local] Open Scope Z_scope.

(** ** The events *)

Record DshLlmFailureView : Type := mkFailureView { fv_code : option string; fv_message : option string }.

(** An [unknown] error: nothing, an object, or a primitive given by [String(error)]. *)
Inductive js_error : Type :=
| ErrNone
| ErrObject (view : DshLlmFailureView)
| ErrPrimitive (text : string).

Inductive DshSessionEvent : Type :=
| SE_UserMessage (e : UserMessageEvent)
| SE_AssistantMessage (content : list DshContentBlockView) (usage : option DshTokenUsage) (interrupted : option bool)
| SE_ToolCall
| SE_ToolResult (toolCallId : option string) (isError : option bool) (content : option (list DshContentBlockView))
| SE_TurnEnd (reason : option (option string * option DshLlmFailureView))
| SE_Other (type : string).

Record DshAssistantStreamFrame : Type := mkStreamFrame {
  sf_type : string;
  sf_attemptId : option string;
  sf_step : option Z;
  sf_chunk : option DshStreamChunk;
}.

Inductive TeamLiveEvent : Type :=
| LiveStream (frame : option DshAssistantStreamFrame)
| LiveStatus (status : string)
| LiveError (error : js_error).

Inductive Channel : Type :=
| LogChannel (e : DshSessionEvent)
| LiveChannel (e : TeamLiveEvent).

Record TeamMemberEvent : Type := mkEnvelope {
  en_role : string;
  en_memberId : string;
  en_channel : Channel;
}.

(** ** The state *)

Inductive OutcomeStatus : Type := COMPLETED | ERROR | ABORTED | CANCELED.

#[export] Instance OutcomeStatus_eq_dec : EqDecision OutcomeStatus.
Proof. solve_decision. Defined.

Record TurnOutcome : Type := mkOutcome { oc_status : OutcomeStatus; oc_error : option ErrorView }.

Record ActiveMemberTurn : Type := mkActive {
  at_turnId : string;
  at_usage : option DshTokenUsage;
  at_failure : option ErrorView;
  at_step : option Z;
  at_localIndexes : gmap Z Z;
  at_nextIndex : Z;
  at_pending : list (Z * DshContentBlockView);
}.

Record MemberCollector : Type := mkCollector {
  mc_memberId : string;
  mc_role : string;
  mc_session : string;
  mc_recordView : bool;
  mc_active : option ActiveMemberTurn;
  mc_pendingOutcome : option TurnOutcome;
  mc_attempts : gmap string Z;
}.

Definition new_MemberCollector (memberId role session : string) (recordView : bool) : MemberCollector :=
  mkCollector memberId role session recordView None None ∅.

Definition set_active (c : MemberCollector) (a : option ActiveMemberTurn) : MemberCollector :=
  mkCollector (mc_memberId c) (mc_role c) (mc_session c) (mc_recordView c) a (mc_pendingOutcome c) (mc_attempts c).
Definition set_outcome (c : MemberCollector) (o : option TurnOutcome) : MemberCollector :=
  mkCollector (mc_memberId c) (mc_role c) (mc_session c) (mc_recordView c) (mc_active c) o (mc_attempts c).
Definition set_attempts (c : MemberCollector) (m : gmap string Z) : MemberCollector :=
  mkCollector (mc_memberId c) (mc_role c) (mc_session c) (mc_recordView c) (mc_active c) (mc_pendingOutcome c) m.

Definition with_usage (a : ActiveMemberTurn) u :=
  mkActive (at_turnId a) u (at_failure a) (at_step a) (at_localIndexes a) (at_nextIndex a) (at_pending a).
Definition with_failure (a : ActiveMemberTurn) f :=
  mkActive (at_turnId a) (at_usage a) f (at_step a) (at_localIndexes a) (at_nextIndex a) (at_pending a).
Definition with_pending (a : ActiveMemberTurn) p :=
  mkActive (at_turnId a) (at_usage a) (at_failure a) (at_step a) (at_localIndexes a) (at_nextIndex a) p.
Definition with_indexes (a : ActiveMemberTurn) m n :=
  mkActive (at_turnId a) (at_usage a) (at_failure a) (at_step a) m n (at_pending a).

(** A member frame of a turn. *)
Definition member_frame (c : MemberCollector) (turnId : string) (p : Payload) : ChatEvent :=
  mkChatEvent (Some (mc_session c)) (Some turnId) (Some (mc_role c)) (Some p).

(** ** The turn *)

Definition ensureActive (c : MemberCollector) (h : TeamHistory) (uuid : string)
    : MemberCollector * TeamHistory * ActiveMemberTurn :=
  match mc_active c with
  | Some a => (c, h, a)
  | None =>
      let a := mkActive uuid None None None ∅ 0 [] in
      (set_active c (Some a), sink h (member_frame c uuid TurnStart), a)
  end.

Definition enterStep (c : MemberCollector) (h : TeamHistory) (uuid : string) (step : Z)
    : MemberCollector * TeamHistory :=
  let '(c, h, a) := ensureActive c h uuid in
  if bool_decide (at_step a = Some step) then (c, h)
  else (set_active c (Some (mkActive (at_turnId a) (at_usage a) (at_failure a) (Some step) ∅ (at_nextIndex a) [])), h).

Definition remapIndex (a : ActiveMemberTurn) (localIndex : Z) : ActiveMemberTurn * Z :=
  match at_localIndexes a !! localIndex with
  | Some assigned => (a, assigned)
  | None =>
      let global := at_nextIndex a in
      (with_indexes a (<[localIndex := global]> (at_localIndexes a)) (global + 1), global)
  end.

(** [view.text += text]: an absent text reads as the word undefined. *)
Definition append_text (view : DshContentBlockView) (text : string) : DshContentBlockView :=
  mkBlockView (cv_type view) (Some (default "undefined" (cv_text view) +:+ text))
    (cv_id view) (cv_name view) (cv_arguments view).

Definition findPending (index : Z) (p : list (Z * DshContentBlockView)) : option DshContentBlockView :=
  snd <$> (list_find (λ e, e.1 = index) p ≫= λ r, Some r.2).

(** The first entry of that index is the object [findPending] returns. *)
Fixpoint append_pending (index : Z) (text : string) (p : list (Z * DshContentBlockView)) :=
  match p with
  | [] => []
  | (i, view) :: p =>
      if bool_decide (i = index) then (i, append_text view text) :: p
      else (i, view) :: append_pending index text p
  end.

Definition delta_pending (index : Z) (kind text : string) (p : list (Z * DshContentBlockView)) :=
  match findPending index p with
  | Some _ => append_pending index text p
  | None => p ++ [(index, append_text (mkBlockView kind (Some "") None None None) text)]
  end.

Definition end_pending (index : Z) (block : DshContentBlockView) (p : list (Z * DshContentBlockView)) :=
  match findPending index p with
  | Some _ => filter (λ e, e.1 ≠ index) p ++ [(index, block)]
  | None => p ++ [(index, block)]
  end.

Definition chunk_pending (chunk : DshStreamChunk) (p : list (Z * DshContentBlockView)) :=
  let index := or_zero (ck_index chunk) in
  if bool_decide (ck_type chunk = "reasoning-delta") then
    delta_pending index "reasoning" (or_empty (ck_text chunk)) p
  else if bool_decide (ck_type chunk = "text-delta") then
    delta_pending index "text" (or_empty (ck_text chunk)) p
  else if bool_decide (ck_type chunk = "block-end") then
    match ck_block chunk with Some block => end_pending index block p | None => p end
  else p.

Definition label (c : MemberCollector) (e : ChatEvent) : ChatEvent :=
  mkChatEvent (ev_session e) (ev_turnId e) (Some (mc_role c)) (ev_payload e).

Definition onChunk (c : MemberCollector) (h : TeamHistory) (uuid : string) (chunk : DshStreamChunk) (step : Z)
    : MemberCollector * TeamHistory :=
  let '(c, h, a) := ensureActive c h uuid in
  if bool_decide (ck_type chunk = "usage") then (set_active c (Some (with_usage a (ck_usage chunk))), h)
  else
    let a := with_pending a (chunk_pending chunk (at_pending a)) in
    let '(a, event) := chunkToChatEvent remapIndex a chunk (mc_session c) (at_turnId a) step in
    (set_active c (Some a),
     match event with Some e => sink h (label c e) | None => h end).

Definition onAssistantStream (c : MemberCollector) (h : TeamHistory) (uuid : string)
    (frame : option DshAssistantStreamFrame) : MemberCollector * TeamHistory :=
  match frame with
  | None => (c, h)
  | Some f =>
      match sf_attemptId f with
      | None => (c, h)
      | Some id =>
          if bool_decide (sf_type f = "start") then
            match sf_step f with
            | None => (c, h)
            | Some step => enterStep (set_attempts c (<[id := step]> (mc_attempts c))) h uuid step
            end
          else if bool_decide (sf_type f = "chunk") then
            match mc_attempts c !! id, sf_chunk f with
            | Some step, Some chunk => onChunk c h uuid chunk step
            | _, _ => (c, h)
            end
          else (set_attempts c (delete id (mc_attempts c)), h)
      end
  end.

Definition toFailure (e : js_error) : option DshLlmFailureView :=
  match e with
  | ErrNone => None
  | ErrObject v => Some v
  | ErrPrimitive s => Some (mkFailureView (Some "UNKNOWN") (Some s))
  end.

(** The first failure wins. *)
Definition recordFailure (c : MemberCollector) (failure : option DshLlmFailureView) : MemberCollector :=
  match mc_active c, failure with
  | Some a, Some f =>
      match at_failure a with
      | Some _ => c
      | None => set_active c (Some (with_failure a
          (Some (mkError (default "UNKNOWN" (fv_code f)) (or_empty (fv_message f))))))
      end
  | _, _ => c
  end.

Definition text_of (b : DshContentBlockView) : string :=
  if bool_decide (cv_type b = "text") then or_empty (cv_text b) else "".

Definition onToolResult (c : MemberCollector) (h : TeamHistory) (uuid : string)
    (toolCallId : option string) (isError : option bool) (content : option (list DshContentBlockView))
    : MemberCollector * TeamHistory :=
  let toolId := or_empty toolCallId in
  let status := if default false isError then TOOL_STATUS_FAILED else TOOL_STATUS_SUCCEEDED in
  let result := join "" (text_of <$> default [] content) in
  let h := (settleToolResult h (mc_role c) toolId status result).1 in
  let '(c, h, a) := ensureActive c h uuid in
  (c, sink h (member_frame c (at_turnId a) (ToolResult (mkToolResult toolId status result)))).

Definition wire_status (s : OutcomeStatus) : TurnStatus :=
  match s with
  | COMPLETED => TURN_STATUS_COMPLETED
  | ERROR => TURN_STATUS_ERROR
  | ABORTED => TURN_STATUS_ABORTED
  | CANCELED => TURN_STATUS_CANCELED
  end.

(** The terminal outcome of a turn falling idle. *)
Definition turn_outcome (c : MemberCollector) (a : ActiveMemberTurn) : TurnOutcome :=
  match mc_pendingOutcome c with
  | Some o => o
  | None =>
      match at_failure a with
      | None => mkOutcome COMPLETED None
      | Some f => mkOutcome ERROR (Some f)
      end
  end.

Definition turn_end_frame (c : MemberCollector) (a : ActiveMemberTurn) (o : TurnOutcome) : ChatEvent :=
  member_frame c (at_turnId a) (TurnEnd (mkTurnEnd (wire_status (oc_status o)) (oc_error o)
    (if bool_decide (oc_status o = COMPLETED) then usageToProto (at_usage a) else None))).

Definition onStatus (c : MemberCollector) (h : TeamHistory) (now : Z) (uuid : string) (status : string)
    : MemberCollector * TeamHistory :=
  if bool_decide (status = "running") then let '(c, h, _) := ensureActive c h uuid in (c, h)
  else if bool_decide (status ≠ "idle") then (c, h)
  else
    match mc_active c with
    | None => (c, h)
    | Some a =>
        let outcome := turn_outcome c a in
        let blocks := snd <$> at_pending a in
        let c' := set_outcome (set_active c None) None in
        let h := if bool_decide (is_Some (at_failure a)) && bool_decide (oc_status outcome = ERROR)
              && bool_decide (blocks ≠ [])
          then (appendMemberOutput h now (mc_role c) blocks true (mc_recordView c)).1 else h in
        (c', sink h (turn_end_frame c a outcome))
    end.

Definition onSessionEvent (c : MemberCollector) (h : TeamHistory) (now : Z) (uuid : string)
    (e : DshSessionEvent) : MemberCollector * TeamHistory :=
  match e with
  | SE_UserMessage ue => (c, appendMemberViewUser h now (mc_role c) ue (mc_recordView c))
  | SE_AssistantMessage content usage interrupted =>
      let '(c, h, a) := ensureActive c h uuid in
      let a := with_pending (with_usage a (match usage with Some u => Some u | None => at_usage a end)) [] in
      (set_active c (Some a),
       (appendMemberOutput h now (mc_role c) content (bool_decide (interrupted = Some true)) (mc_recordView c)).1)
  | SE_ToolCall => (c, h)
  | SE_ToolResult toolCallId isError content => onToolResult c h uuid toolCallId isError content
  | SE_TurnEnd (Some (Some kind, error)) =>
      (if bool_decide (kind = "error") then recordFailure c error else c, h)
  | SE_TurnEnd _ => (c, h)
  | SE_Other _ => (c, h)
  end.

Definition onLiveEvent (c : MemberCollector) (h : TeamHistory) (now : Z) (uuid : string)
    (e : TeamLiveEvent) : MemberCollector * TeamHistory :=
  match e with
  | LiveStream frame => onAssistantStream c h uuid frame
  | LiveStatus status => onStatus c h now uuid status
  | LiveError error => (recordFailure c (toFailure error), h)
  end.

Definition applyEvent (c : MemberCollector) (h : TeamHistory) (now : Z) (uuid : string)
    (envelope : TeamMemberEvent) : MemberCollector * TeamHistory :=
  if bool_decide (en_memberId envelope ≠ mc_memberId c) then (c, h)
  else
    match en_channel envelope with
    | LogChannel e => onSessionEvent c h now uuid e
    | LiveChannel e => onLiveEvent c h now uuid e
    end.

Definition markOutcome (c : MemberCollector) (o : TurnOutcome) : MemberCollector := set_outcome c (Some o).

Definition collector_dispose (c : MemberCollector) : MemberCollector :=
  mkCollector (mc_memberId c) (mc_role c) (mc_session c) (mc_recordView c) None None ∅.

(** ** The collectors of a team

    The host dispatches each envelope to one collector; all share the history. *)

Record Host : Type := mkHost { hs_collectors : list MemberCollector; hs_history : TeamHistory }.

Inductive host_op : Type :=
| HostEvent (k : nat) (now : Z) (uuid : string) (e : TeamMemberEvent)
| HostMark (k : nat) (o : TurnOutcome)
| HostUser (now : Z) (text : string)
| HostAnnounce (now : Z) (role text : string).

Definition host_step (s : Host) (op : host_op) : Host :=
  match op with
  | HostEvent k now uuid e =>
      match hs_collectors s !! k with
      | None => s
      | Some c =>
          let '(c, h) := applyEvent c (hs_history s) now uuid e in
          mkHost (<[k := c]> (hs_collectors s)) h
      end
  | HostMark k o => mkHost (alter (λ c, markOutcome c o) k (hs_collectors s)) (hs_history s)
  | HostUser now text => mkHost (hs_collectors s) (appendUser (hs_history s) now text).1
  | HostAnnounce now role text => mkHost (hs_collectors s) (appendAnnouncement (hs_history s) now role text).1
  end.

Definition host_run (s : Host) (ops : list host_op) : Host := fold_left host_step ops s.

Definition op_uuid (op : host_op) : list string :=
  match op with HostEvent _ _ uuid _ => [uuid] | _ => [] end.

(** A chunk is in order when its attempt is the one whose step is current. *)
Definition chunk_in_order (c : MemberCollector) (e : TeamMemberEvent) : bool :=
  match en_channel e with
  | LiveChannel (LiveStream (Some f)) =>
      if bool_decide (sf_type f = "chunk") then
        match sf_attemptId f ≫= λ id, mc_attempts c !! id with
        | Some step => bool_decide ((mc_active c ≫= at_step) = Some step)
        | None => true
        end
      else true
  | _ => true
  end.

Definition op_in_order (s : Host) (op : host_op) : bool :=
  match op with
  | HostEvent k _ _ e => match hs_collectors s !! k with Some c => chunk_in_order c e | None => true end
  | _ => true
  end.

Fixpoint run_in_order (s : Host) (ops : list host_op) : bool :=
  match ops with
  | [] => true
  | op :: ops => op_in_order s op && run_in_order (host_step s op) ops
  end.

(** ** The life of a turn on the wire

    The frames of one turn id, as an automaton: opened once, labelled with one
    role, block indexes handed out in sequence, each owned by the step in which it
    was first seen, closed once. *)
Inductive phase : Type :=
| NotStarted
| Running (role : string) (steps : list Z)
| Ended.

Definition use_index (steps : list Z) (index : Z) (step : option Z) : option (list Z) :=
  s ← step;
  if index =? Z.of_nat (length steps) then Some (steps ++ [s])
  else match zget steps index with
       | Some s' => if s' =? s then Some steps else None
       | None => None
       end.

Definition phase_step (t : string) (p : phase) (e : ChatEvent) : option phase :=
  if bool_decide (ev_turnId e = Some t) then
    match p, ev_payload e with
    | NotStarted, Some TurnStart => r ← ev_member e; Some (Running r [])
    | Running r steps, Some pl =>
        if bool_decide (ev_member e = Some r) then
          match pl with
          | BlockStart b => s ← use_index steps (bs_index b) (bs_step b); Some (Running r s)
          | Delta d => s ← use_index steps (bd_index d) (bd_step d); Some (Running r s)
          | BlockEnd b => s ← use_index steps (be_index b) (be_step b); Some (Running r s)
          | ToolResult _ => Some p
          | TurnEnd _ => Some Ended
          | _ => None
          end
        else None
    | _, _ => None
    end
  else Some p.

Definition turn_phase (t : string) (fs : list ChatEvent) : option phase := foldM (phase_step t) NotStarted fs.

(** ** Lemmas *)

(** The automaton state of an active turn. *)
Definition tracks (a : ActiveMemberTurn) (role : string) (p : phase) : Prop :=
  ∃ steps, p = Running role steps ∧ at_nextIndex a = Z.of_nat (length steps) ∧
    ∀ l g, at_localIndexes a !! l = Some g → ∃ s, at_step a = Some s ∧ zget steps g = Some s.

Definition at_phase (closed : bool) (id : string) (c : MemberCollector) (p : phase) : Prop :=
  match mc_active c with
  | Some a => at_turnId a = id ∧ tracks a (mc_role c) p
  | None => p = NotStarted ∨ (closed = true ∧ p = Ended)
  end.

(** A piece of a handler that emits frames of the turn [id] only, as the automaton
    allows. *)
Definition moves (closed : bool) (id : string) (c : MemberCollector) (h : TeamHistory)
    (c' : MemberCollector) (h' : TeamHistory) : Prop :=
  mc_role c' = mc_role c ∧ mc_memberId c' = mc_memberId c ∧
  ∃ fs, sunk h' = sunk h ++ fs ∧
    Forall (λ e, ev_turnId e = None ∨ ev_turnId e = Some id) fs ∧
    ∀ p, at_phase false id c p →
      ∃ p', foldM (phase_step id) p fs = Some p' ∧ at_phase closed id c' p'.

Lemma at_phase_weaken id c p : at_phase false id c p → ∀ b, at_phase b id c p.
Proof. unfold at_phase; destruct (mc_active c); naive_solver. Qed.

Lemma moves_trans b id c1 h1 c2 h2 c3 h3 :
  moves false id c1 h1 c2 h2 → moves b id c2 h2 c3 h3 → moves b id c1 h1 c3 h3.
Proof.
  intros (R1 & M1 & f1 & S1 & F1 & P1) (R2 & M2 & f2 & S2 & F2 & P2).
  split; [congruence|]; split; [congruence|].
  exists (f1 ++ f2); rewrite S2, S1, <- app_assoc, Forall_app; repeat split; auto.
  intros p Hp; destruct (P1 p Hp) as (p1 & E1 & A1); destruct (P2 p1 A1) as (p2 & E2 & A2).
  exists p2; split; [|done]. by rewrite foldM_app, E1.
Qed.

Lemma moves_weaken id c h c' h' : moves false id c h c' h' → ∀ b, moves b id c h c' h'.
Proof.
  intros (R & M & fs & S & F & P) b; split; [done|]; split; [done|]; exists fs; repeat split; auto.
  intros p Hp; destruct (P p Hp) as (p' & ? & ?); eauto using at_phase_weaken.
Qed.

Lemma phase_step_other t p e : ev_turnId e ≠ Some t → phase_step t p e = Some p.
Proof. intros He; unfold phase_step; by rewrite bool_decide_false. Qed.

Lemma phase_others t p fs : Forall (λ e, ev_turnId e ≠ Some t) fs → foldM (phase_step t) p fs = Some p.
Proof.
  induction 1 as [|e fs He _ IH]; [done|]; cbn [foldM].
  rewrite phase_step_other by done; apply IH.
Qed.

Lemma phase_team_level t p fs : Forall team_level fs → foldM (phase_step t) p fs = Some p.
Proof.
  intros H; apply phase_others; eapply Forall_impl; [done|]. intros e [He _]; by rewrite He.
Qed.

(** A collector step that changes the turn in a way the automaton does not see and
    writes team-level frames only. *)
Lemma moves_writes id c h c' h' :
  mc_role c' = mc_role c → mc_memberId c' = mc_memberId c →
  writes_team_level h h' →
  (∀ p, at_phase false id c p → at_phase false id c' p) →
  moves false id c h c' h'.
Proof.
  intros R M (fs & S & F & _) P; split; [done|]; split; [done|]; exists fs; split; [done|]; split.
  - eapply Forall_impl; [done|]. intros e [? _]; auto.
  - intros p Hp; exists p; split; [by apply phase_team_level|auto].
Qed.

Lemma moves_refl id c h : moves false id c h c h.
Proof. apply moves_writes; auto with history. Qed.

(** The turn a call can touch. *)
Definition turn_id (c : MemberCollector) (uuid : string) : string :=
  match mc_active c with Some a => at_turnId a | None => uuid end.

Lemma ensureActive_moves c h uuid :
  let '(c', h', a) := ensureActive c h uuid in
  moves false (turn_id c uuid) c h c' h' ∧ mc_active c' = Some a ∧ at_turnId a = turn_id c uuid ∧
  mc_attempts c' = mc_attempts c ∧ mc_session c' = mc_session c ∧ mc_recordView c' = mc_recordView c ∧
  mc_pendingOutcome c' = mc_pendingOutcome c.
Proof.
  unfold ensureActive, turn_id; destruct (mc_active c) as [a|] eqn:Ha; [auto 10 using moves_refl|].
  split; [|done]; split; [done|]; split; [done|].
  exists [member_frame c uuid TurnStart]; split; [done|]; split; [by repeat constructor; right|].
  intros p Hp; unfold at_phase in Hp; rewrite Ha in Hp; destruct Hp as [->|[? _]]; [|done].
  exists (Running (mc_role c) []); split.
  - simpl; unfold phase_step; simpl; by rewrite bool_decide_true.
  - split; [done|]; exists []; repeat split; intros l g Hlg; simpl in Hlg; by rewrite lookup_empty in Hlg.
Qed.

Lemma at_phase_active b id c a p :
  mc_active c = Some a → at_phase b id c p ↔ at_turnId a = id ∧ tracks a (mc_role c) p.
Proof. intros Ha; unfold at_phase; by rewrite Ha. Qed.

(** Changing fields of the turn the automaton does not track. *)
Lemma moves_set_active id c h a a' :
  mc_active c = Some a → at_turnId a' = at_turnId a →
  (∀ r p, tracks a r p → tracks a' r p) →
  moves false id c h (set_active c (Some a')) h.
Proof.
  intros Ha Hid Ht; apply moves_writes; [done|done|apply writes_refl|].
  intros p; rewrite (at_phase_active _ _ _ a) by done; rewrite (at_phase_active _ _ _ a') by done.
  rewrite Hid; intros [? ?]; auto.
Qed.

Lemma tracks_new_step a s r p :
  tracks a r p →
  tracks (mkActive (at_turnId a) (at_usage a) (at_failure a) (Some s) ∅ (at_nextIndex a) []) r p.
Proof.
  intros (steps & -> & Hn & _); exists steps; repeat split; [done|].
  intros l g Hlg; simpl in Hlg; by rewrite lookup_empty in Hlg.
Qed.

Lemma enterStep_moves c h uuid step :
  let '(c', h') := enterStep c h uuid step in moves false (turn_id c uuid) c h c' h'.
Proof.
  unfold enterStep; pose proof (ensureActive_moves c h uuid) as HE.
  destruct (ensureActive c h uuid) as [[c1 h1] a]; destruct HE as (HM & Ha & Hid & _).
  case_bool_decide; [done|].
  eapply moves_trans; [done|]; eapply moves_set_active; [done|done|apply tracks_new_step].
Qed.

(** Handing out an index keeps the table and the automaton in step. *)
Lemma remapIndex_tracks a l r p s :
  tracks a r p → at_step a = Some s →
  let '(a', i) := remapIndex a l in
  at_turnId a' = at_turnId a ∧
  ∃ steps steps', p = Running r steps ∧ use_index steps i (Some s) = Some steps' ∧
    tracks a' r (Running r steps').
Proof.
  intros (steps & -> & Hn & Hl) Hs; unfold remapIndex.
  destruct (at_localIndexes a !! l) as [g|] eqn:Hg.
  - split; [done|]; exists steps, steps; split; [done|]; split; [|by exists steps].
    destruct (Hl l g Hg) as (s' & Hs' & Hz); simplify_eq.
    unfold use_index; simpl.
    destruct (Z.eqb_spec g (Z.of_nat (length steps))) as [->|Hne].
    + exfalso. apply zget_Some in Hz; rewrite Nat2Z.id in Hz. destruct Hz as [_ Hz].
      apply lookup_lt_Some in Hz; lia.
    + by rewrite Hz, Z.eqb_refl.
  - split; [done|]; exists steps, (steps ++ [s]); split; [done|]; split.
    + unfold use_index; simpl; by rewrite Hn, Z.eqb_refl.
    + exists (steps ++ [s]); split; [done|]; split; [rewrite length_app; simpl; lia|].
      intros l' g; simpl; rewrite lookup_insert_Some; intros [[<- <-]|[_ Hl']].
      * exists s; split; [done|]. rewrite Hn; apply zget_Some; split; [lia|].
        rewrite Nat2Z.id; by apply list_lookup_middle.
      * destruct (Hl l' g Hl') as (s' & ? & Hz); exists s'; split; [done|].
        apply zget_Some in Hz as [? Hz]; apply zget_Some; split; [done|]; by apply lookup_app_l_Some.
Qed.

Lemma block_frame_phase id e r steps steps' i s pl :
  ev_turnId e = Some id → ev_member e = Some r → ev_payload e = Some pl →
  block_frame i s pl → use_index steps i (Some s) = Some steps' →
  phase_step id (Running r steps) e = Some (Running r steps').
Proof.
  intros Ht Hm Hp Hb Hu; unfold phase_step.
  rewrite bool_decide_true, Hp, bool_decide_true by done.
  destruct pl; simpl in Hb; try done; destruct Hb as [-> ->]; by rewrite Hu.
Qed.

Lemma onChunk_moves c h uuid chunk step :
  (mc_active c ≫= at_step) = Some step →
  let '(c', h') := onChunk c h uuid chunk step in moves false (turn_id c uuid) c h c' h'.
Proof.
  intros Hstep. destruct (mc_active c) as [a|] eqn:Ha; [|done]; simpl in Hstep.
  unfold onChunk, ensureActive, turn_id; rewrite Ha; cbn iota beta.
  case_bool_decide; [by eapply moves_set_active; [done|..]|].
  set (a1 := with_pending a _).
  destruct (chunkToChatEvent_cases remapIndex a1 chunk (mc_session c) (at_turnId a1) step)
    as [->|(pl & Hpl & ->)]; [by eapply moves_set_active; [done|..]|].
  split; [done|]; split; [done|].
  eexists [_]; split; [done|]; split; [by repeat constructor; right|].
  intros p Hp; rewrite (at_phase_active _ _ _ a) in Hp by done; destruct Hp as [_ Hp].
  pose proof (remapIndex_tracks a1 (or_zero (ck_index chunk)) (mc_role c) p step Hp Hstep) as HR.
  destruct (remapIndex a1 _) as [a2 i]; destruct HR as (Hid & steps & steps' & -> & Hu & Ht).
  exists (Running (mc_role c) steps'); split.
  - cbn [foldM]; erewrite block_frame_phase; done.
  - rewrite (at_phase_active _ _ _ a2) by done; auto.
Qed.

Lemma onAssistantStream_moves c h uuid f :
  chunk_in_order c (mkEnvelope "" "" (LiveChannel (LiveStream f))) = true →
  let '(c', h') := onAssistantStream c h uuid f in moves false (turn_id c uuid) c h c' h'.
Proof.
  unfold onAssistantStream, chunk_in_order; simpl; intros Hord.
  destruct f as [f|]; [|apply moves_refl].
  destruct (sf_attemptId f) as [id|] eqn:Hid; [|apply moves_refl]; simpl in Hord.
  destruct (bool_decide (sf_type f = "start")); [destruct (sf_step f) as [step|]; [|apply moves_refl]|].
  - pose proof (enterStep_moves (set_attempts c (<[id:=step]> (mc_attempts c))) h uuid step) as HE.
    destruct (enterStep _ _ _ _) as [c' h']; apply HE.
  - destruct (bool_decide (sf_type f = "chunk")).
    + destruct (mc_attempts c !! id) as [step|]; [|apply moves_refl].
      destruct (sf_chunk f) as [chunk|]; [|apply moves_refl].
      apply onChunk_moves; by apply bool_decide_eq_true in Hord.
    + by apply moves_writes; auto with history.
Qed.

Lemma recordFailure_moves id c h f : moves false id c h (recordFailure c f) h.
Proof.
  unfold recordFailure; destruct (mc_active c) as [a|] eqn:Ha; [|apply moves_refl].
  destruct f as [f|]; [|apply moves_refl].
  destruct (at_failure a); [apply moves_refl|]; by eapply moves_set_active; [done|..].
Qed.

Lemma onToolResult_moves c h uuid i er ct :
  let '(c', h') := onToolResult c h uuid i er ct in moves false (turn_id c uuid) c h c' h'.
Proof.
  unfold onToolResult.
  set (status := if default false er then _ else _); set (result := join "" _).
  set (h0 := (settleToolResult h (mc_role c) (or_empty i) status result).1).
  pose proof (ensureActive_moves c h0 uuid) as HE.
  destruct (ensureActive c h0 uuid) as [[c1 h1] a]; destruct HE as (HM & Ha & Hid & _).
  eapply moves_trans; [apply (moves_writes _ c h c h0); auto; apply settleToolResult_writes|].
  eapply moves_trans; [done|].
  split; [done|]; split; [done|]; eexists [_]; split; [done|].
  rewrite Hid; split; [by repeat constructor; right|].
  intros p Hp; exists p; split; [|done].
  rewrite (at_phase_active _ _ _ a) in Hp by done; destruct Hp as [_ (steps & -> & _)].
  cbn [foldM]; unfold phase_step; simpl; by rewrite !bool_decide_true.
Qed.

Lemma onStatus_moves c h now uuid status :
  let '(c', h') := onStatus c h now uuid status in moves true (turn_id c uuid) c h c' h'.
Proof.
  unfold onStatus; case_bool_decide as Hr.
  { pose proof (ensureActive_moves c h uuid) as HE.
    destruct (ensureActive c h uuid) as [[c1 h1] a]; destruct HE as [HE _]; by apply moves_weaken. }
  case_bool_decide; [by apply moves_weaken, moves_refl|].
  destruct (mc_active c) as [a|] eqn:Ha; [|by apply moves_weaken, moves_refl].
  cbn zeta. match goal with |- context [sink ?h1 _] => set (h2 := h1) end.
  assert (HW : writes_team_level h h2) by (subst h2; split_match; auto with history).
  eapply moves_trans; [apply (moves_writes _ c h c h2); auto|].
  split; [done|]; split; [done|]; eexists [_]; split; [done|].
  unfold turn_id; rewrite Ha; split; [by repeat constructor; right|].
  intros p Hp; rewrite (at_phase_active _ _ _ a) in Hp by done; destruct Hp as [_ (steps & -> & _)].
  exists Ended; split; [|right; done].
  cbn [foldM]; unfold phase_step; simpl; by rewrite !bool_decide_true.
Qed.

Lemma onSessionEvent_moves c h now uuid e :
  let '(c', h') := onSessionEvent c h now uuid e in moves false (turn_id c uuid) c h c' h'.
Proof.
  destruct e as [ue|content usage i| |id er ct|[[[kind|] error]|]|]; simpl; try apply moves_refl.
  - apply moves_writes; auto with history.
  - pose proof (ensureActive_moves c h uuid) as HE.
    destruct (ensureActive c h uuid) as [[c1 h1] a]; destruct HE as (HM & Ha & _).
    eapply moves_trans; [done|].
    eapply moves_trans; [by eapply moves_set_active; [done|..]|].
    apply moves_writes; auto with history.
  - apply onToolResult_moves.
  - case_bool_decide; [apply recordFailure_moves|apply moves_refl].
Qed.

(** One envelope moves the turn of its collector along the automaton. *)
Lemma applyEvent_moves c h now uuid e :
  chunk_in_order c e = true →
  let '(c', h') := applyEvent c h now uuid e in moves true (turn_id c uuid) c h c' h'.
Proof.
  intros Hord; unfold applyEvent; case_bool_decide; [by apply moves_weaken, moves_refl|].
  destruct (en_channel e) as [se|[f|status|err]] eqn:Hch; simpl.
  - pose proof (onSessionEvent_moves c h now uuid se) as HS.
    destruct (onSessionEvent _ _ _ _ _); by apply moves_weaken.
  - pose proof (onAssistantStream_moves c h uuid f) as HS.
    unfold chunk_in_order in *; rewrite Hch in Hord; specialize (HS Hord).
    destruct (onAssistantStream _ _ _ _); by apply moves_weaken.
  - apply onStatus_moves.
  - apply moves_weaken, recordFailure_moves.
Qed.

(** ** The turns of a team on its stream *)

Definition idle_collector (c : MemberCollector) : Prop := mc_active c = None.

Definition drives (c : MemberCollector) (t : string) : Prop :=
  ∃ a, mc_active c = Some a ∧ at_turnId a = t.

Definition tracked (t : string) (c : MemberCollector) (fs : list ChatEvent) : Prop :=
  ∃ a p, mc_active c = Some a ∧ turn_phase t fs = Some p ∧ tracks a (mc_role c) p.

(** [used] are the identities [randomUUID] has been asked for. *)
Record host_inv (used : list string) (s : Host) : Prop := {
  hi_used : ∀ c t, c ∈ hs_collectors s → drives c t → t ∈ used;
  hi_inj : ∀ i j c d t, hs_collectors s !! i = Some c → hs_collectors s !! j = Some d →
    drives c t → drives d t → i = j;
  hi_fresh : ∀ t, t ∉ used → turn_phase t (sunk (hs_history s)) = Some NotStarted;
  hi_tracked : ∀ c t, c ∈ hs_collectors s → drives c t → tracked t c (sunk (hs_history s));
  hi_closed : ∀ t, (∀ c, c ∈ hs_collectors s → ¬ drives c t) →
    turn_phase t (sunk (hs_history s)) = Some NotStarted ∨ turn_phase t (sunk (hs_history s)) = Some Ended;
}.

Lemma turn_phase_app t fs gs p :
  turn_phase t fs = Some p → turn_phase t (fs ++ gs) = foldM (phase_step t) p gs.
Proof. intros H; unfold turn_phase in *; by rewrite foldM_app, H. Qed.

Lemma turn_phase_others t fs gs :
  Forall (λ e, ev_turnId e ≠ Some t) gs → turn_phase t (fs ++ gs) = turn_phase t fs.
Proof.
  intros H; unfold turn_phase; rewrite foldM_app.
  destruct (foldM _ _ fs); [by apply phase_others|done].
Qed.

(** A write of team-level frames, the collectors driving the same turns. *)
Lemma host_inv_writes used used' s cs h :
  host_inv used s → used ⊆ used' → writes_team_level (hs_history s) h →
  Forall2 (λ c c', mc_active c' = mc_active c ∧ mc_role c' = mc_role c) (hs_collectors s) cs →
  host_inv used' (mkHost cs h).
Proof.
  intros [Hu Hi Hf Ht Hc] Hsub (fs & Hs & Hl & _) Hcs.
  assert (Hph : ∀ t, turn_phase t (sunk h) = turn_phase t (sunk (hs_history s))).
  { intros t; rewrite Hs; apply turn_phase_others.
    eapply Forall_impl; [done|]; intros e [He _]; by rewrite He. }
  assert (Hback : ∀ i c', cs !! i = Some c' → ∃ c, hs_collectors s !! i = Some c ∧
    mc_active c' = mc_active c ∧ mc_role c' = mc_role c).
  { intros i c' Hi'; destruct (Forall2_lookup_r _ _ _ _ _ Hcs Hi') as (c & ? & ? & ?); eauto. }
  assert (Hdr : ∀ c c', mc_active c' = mc_active c → ∀ t, drives c' t → drives c t).
  { intros c c' Hcc t (a & ? & ?); exists a; split; congruence. }
  constructor; simpl.
  - intros c' t Hin Hd; apply list_elem_of_lookup in Hin as [i Hi'].
    destruct (Hback _ _ Hi') as (c & Hc0 & Ha & _); apply Hsub.
    eapply Hu; eauto using list_elem_of_lookup_2.
  - intros i j c' d' t Hi' Hj' Hd1 Hd2.
    destruct (Hback _ _ Hi') as (c & ? & ? & _); destruct (Hback _ _ Hj') as (d & ? & ? & _).
    eapply Hi; eauto.
  - intros t Htu; rewrite Hph; apply Hf; auto.
  - intros c' t Hin Hd; apply list_elem_of_lookup in Hin as [i Hi'].
    destruct (Hback _ _ Hi') as (c & Hc0 & Ha & Hr).
    destruct (Ht c t) as (a & p & Hact & Hp & Htr); [eauto using list_elem_of_lookup_2|eauto|].
    exists a, p; rewrite Ha, Hr, Hph; auto.
  - intros t Hno; rewrite Hph; apply Hc; intros c Hin Hd.
    apply list_elem_of_lookup in Hin as [i Hi'].
    destruct (Forall2_lookup_l _ _ _ _ _ Hcs Hi') as (c' & Hc' & Ha & _).
    apply (Hno c'); [eauto using list_elem_of_lookup_2|].
    destruct Hd as (a & ? & ?); exists a; split; congruence.
Qed.

Lemma drives_unique c t t' : drives c t → drives c t' → t = t'.
Proof. intros (a & Ha & <-) (b & Hb & <-); congruence. Qed.

Lemma elem_of_insert_split {A} (l : list A) i x y :
  y ∈ <[i := x]> l → (y = x ∧ (i < length l)%nat) ∨ ∃ j, j ≠ i ∧ l !! j = Some y.
Proof.
  intros Hy; apply list_elem_of_lookup in Hy as [j Hj].
  apply list_lookup_insert_Some in Hj as [(-> & -> & ?)|[? ?]]; [left|right]; eauto.
Qed.

(** What one envelope reaching collector [k] does to the turns. *)
Lemma event_effect used s k c c' h' uuid :
  host_inv used s → uuid ∉ used → hs_collectors s !! k = Some c →
  moves true (turn_id c uuid) c (hs_history s) c' h' →
  turn_id c uuid ∈ uuid :: used ∧
  (∀ t, drives c' t → t = turn_id c uuid) ∧
  (∃ p, turn_phase (turn_id c uuid) (sunk h') = Some p ∧ at_phase true (turn_id c uuid) c' p) ∧
  (∀ t, t ≠ turn_id c uuid → turn_phase t (sunk h') = turn_phase t (sunk (hs_history s))) ∧
  (∀ j d, j ≠ k → hs_collectors s !! j = Some d → ¬ drives d (turn_id c uuid)).
Proof.
  intros [Hu Hi Hf Ht Hc] Hnew Hk (Hr & _ & fs & Hs & Hfs & HP).
  assert (Hkc : c ∈ hs_collectors s) by eauto using list_elem_of_lookup_2.
  assert (Hphase : ∃ p, turn_phase (turn_id c uuid) (sunk (hs_history s)) = Some p ∧
    at_phase false (turn_id c uuid) c p).
  { unfold turn_id, at_phase; destruct (mc_active c) as [a|] eqn:Ha.
    - destruct (Ht c (at_turnId a)) as (a' & p & ? & ? & ?); [done|by exists a|]; simplify_eq; eauto.
    - exists NotStarted; split; [|auto]; by apply Hf. }
  destruct Hphase as (p & Hp & Hat); destruct (HP p Hat) as (p' & Hp' & Hat').
  split; [|split; [|split; [|split]]].
  - unfold turn_id; destruct (mc_active c) as [a|] eqn:Ha; [right|left].
    apply (Hu c); [done|]; by exists a.
  - intros t (a & Ha & <-); rewrite (at_phase_active _ _ _ a) in Hat' by done; by destruct Hat'.
  - exists p'; split; [|done]; rewrite Hs; by erewrite turn_phase_app.
  - intros t Hne; rewrite Hs; apply turn_phase_others.
    eapply Forall_impl; [done|]; intros e [->| ->]; congruence.
  - intros j d Hjk Hj Hd; unfold turn_id in *; destruct (mc_active c) as [a|] eqn:Ha.
    + apply Hjk; eapply Hi; [done|done|done|]; by exists a.
    + apply Hnew, (Hu d); eauto using list_elem_of_lookup_2.
Qed.

Lemma host_inv_event used s k c c' h' uuid :
  host_inv used s → uuid ∉ used → hs_collectors s !! k = Some c →
  moves true (turn_id c uuid) c (hs_history s) c' h' →
  host_inv (uuid :: used) (mkHost (<[k := c']> (hs_collectors s)) h').
Proof.
  intros HI Hnew Hk HM.
  destruct (event_effect _ _ _ _ _ _ _ HI Hnew Hk HM) as (Hid & Hdr & (p' & Hnow & Hat') & Hoth & Hother).
  destruct HI as [Hu Hi Hf Ht Hc]; set (id := turn_id c uuid) in *.
  constructor; simpl.
  - intros d t Hin Hd; apply elem_of_insert_split in Hin as [[-> _]|(j & Hj & Hl)].
    + by rewrite (Hdr _ Hd).
    + right; eauto using list_elem_of_lookup_2.
  - intros i j d1 d2 t H1 H2 D1 D2.
    apply list_lookup_insert_Some in H1 as [(<- & -> & _)|[Hik H1]];
      apply list_lookup_insert_Some in H2 as [(<- & -> & _)|[Hjk H2]]; [done| | |by eapply Hi].
    + rewrite (Hdr _ D1) in D2; exfalso; by eapply (Hother j).
    + rewrite (Hdr _ D2) in D1; exfalso; by eapply (Hother i).
  - intros t Htu; assert (t ≠ id) by (intros ->; done).
    rewrite Hoth by done; apply Hf; intros ?; apply Htu; by right.
  - intros d t Hin Hd; apply elem_of_insert_split in Hin as [[-> _]|(j & Hj & Hl)].
    + rewrite (Hdr _ Hd); destruct Hd as (a & Ha & _); exists a, p'; split_and!; [done|done|].
      rewrite (at_phase_active _ _ _ a) in Hat' by done; by destruct Hat'.
    + assert (t ≠ id) by (intros ->; by eapply Hother).
      destruct (Ht d t) as (a & q & ? & ? & ?); [eauto using list_elem_of_lookup_2|done|].
      exists a, q; rewrite Hoth by done; auto.
  - intros t Hno; destruct (decide (t = id)) as [->|Hne].
    + rewrite Hnow; unfold at_phase in Hat'; destruct (mc_active c') as [a|] eqn:Ha; [|naive_solver].
      exfalso; apply (Hno c'); [|exists a; split; [done|by destruct Hat']].
      apply list_elem_of_lookup_2 with k, list_lookup_insert_eq; by eapply lookup_lt_Some.
    + rewrite Hoth by done; apply Hc; intros d Hin Hd.
      apply list_elem_of_lookup in Hin as [j Hj]; destruct (decide (j = k)) as [->|Hjk].
      * simplify_eq; apply Hne; subst id; unfold turn_id; destruct Hd as (a & Ha & <-); by rewrite Ha.
      * apply (Hno d); [|done]; apply list_elem_of_lookup_2 with j; by rewrite list_lookup_insert_ne.
Qed.

Lemma same_collectors (cs : list MemberCollector) :
  Forall2 (λ c c', mc_active c' = mc_active c ∧ mc_role c' = mc_role c) cs cs.
Proof. induction cs; auto. Qed.

Lemma host_inv_step used s op :
  host_inv used s → (∀ u, u ∈ op_uuid op → u ∉ used) → op_in_order s op = true →
  host_inv (op_uuid op ++ used) (host_step s op).
Proof.
  intros HI Hnew Hord; destruct op as [k now uuid e|k o|now text|now role text]; simpl in *.
  - destruct (hs_collectors s !! k) as [c|] eqn:Hk.
    + pose proof (applyEvent_moves c (hs_history s) now uuid e Hord) as HM.
      destruct (applyEvent c (hs_history s) now uuid e) as [c' h'].
      eapply host_inv_event; eauto. apply Hnew; by left.
    + destruct s as [cs h]; eapply host_inv_writes; [done|set_solver|apply writes_refl|apply same_collectors].
  - eapply host_inv_writes; [done|done|apply writes_refl|].
    apply Forall2_same_length_lookup; split; [by rewrite length_alter|].
    intros i c c' Hc Hc'; rewrite list_lookup_alter in Hc'; case_decide; simplify_eq; [|auto].
    rewrite Hc in Hc'; by simplify_eq/=.
  - eapply host_inv_writes; [done|done|apply appendUser_writes|apply same_collectors].
  - eapply host_inv_writes; [done|done|apply appendAnnouncement_writes|apply same_collectors].
Qed.

Lemma host_inv_run used s ops :
  host_inv used s → NoDup (mjoin (op_uuid <$> ops)) → (∀ u, u ∈ mjoin (op_uuid <$> ops) → u ∉ used) →
  run_in_order s ops = true → ∃ used', host_inv used' (host_run s ops).
Proof.
  revert used s; induction ops as [|op ops IH]; intros used s HI Hnd Hnew Hord; [by exists used|].
  simpl in *; apply andb_true_iff in Hord as [Ho1 Ho2].
  apply NoDup_app in Hnd as (_ & Hdisj & Hnd).
  apply (IH (op_uuid op ++ used) (host_step s op)); [|done| |done].
  - apply host_inv_step; [done| |done]; intros u Hu; apply Hnew, elem_of_app; auto.
  - intros u Hu; rewrite elem_of_app; intros [Hu'|Hu']; [by eapply Hdisj|].
    eapply Hnew; [|done]; apply elem_of_app; auto.
Qed.

Lemma host_inv_start s :
  Forall idle_collector (hs_collectors s) → sunk (hs_history s) = [] → host_inv [] s.
Proof.
  intros Hidle Hs.
  assert (Hno : ∀ c t, c ∈ hs_collectors s → ¬ drives c t).
  { intros c t Hin (a & Ha & _); rewrite Forall_forall in Hidle.
    apply Hidle in Hin; unfold idle_collector in Hin; congruence. }
  constructor.
  - intros c t Hin Hd; exfalso; by eapply Hno.
  - intros i j c d t Hc _ Hd; exfalso; eapply Hno; [by eapply list_elem_of_lookup_2|done].
  - intros t _; by rewrite Hs.
  - intros c t Hin Hd; exfalso; by eapply Hno.
  - intros t _; left; by rewrite Hs.
Qed.

(** ** Properties *)

(** C9: On the stream of a team every turn is opened once, every frame of it bears
    the role that opened it, block indexes are handed out in sequence and each
    belongs to one step, it is closed once, and it is open exactly while a
    collector drives it: for any members and any interleaving of their events, as
    long as the identities minted are distinct and the chunks of a step arrive
    while it is current. *)
Theorem turns_well_formed (s : Host) (ops : list host_op) (t : string) :
  Forall idle_collector (hs_collectors s) → sunk (hs_history s) = [] →
  NoDup (mjoin (op_uuid <$> ops)) → run_in_order s ops = true →
  ∃ p, turn_phase t (sunk (hs_history (host_run s ops))) = Some p ∧
    ∀ role, (∃ steps, p = Running role steps) ↔
      ∃ c, c ∈ hs_collectors (host_run s ops) ∧ drives c t ∧ mc_role c = role.
Proof.
  intros Hidle Hsunk Hnd Hord.
  destruct (host_inv_run [] s ops (host_inv_start s Hidle Hsunk) Hnd ltac:(set_solver) Hord)
    as (used & [Hu Hi Hf Ht Hc]).
  destruct (decide (Exists (λ c, (at_turnId <$> mc_active c) = Some t) (hs_collectors (host_run s ops))))
    as [Hex|Hno].
  - apply Exists_exists in Hex as (c & Hin & Hact).
    apply fmap_Some in Hact as (a & Ha & Hid).
    assert (Hd : drives c t) by (by exists a).
    destruct (Ht c t Hin Hd) as (a' & p & Ha' & Hp & steps & -> & _); exists (Running (mc_role c) steps).
    split; [done|]; intros role; split.
    + intros (steps' & [=]); subst; eauto.
    + intros (d & Hin' & Hd' & <-); exists steps.
      apply list_elem_of_lookup in Hin as [i Hci]; apply list_elem_of_lookup in Hin' as [j Hdj].
      assert (i = j) by (by eapply Hi); subst; by simplify_eq.
  - assert (Hnd' : ∀ c, c ∈ hs_collectors (host_run s ops) → ¬ drives c t).
    { intros c Hin (a & Ha & Hid); apply Hno, Exists_exists; exists c; rewrite Ha; simpl; by rewrite Hid. }
    assert (Hp : ∃ p, turn_phase t (sunk (hs_history (host_run s ops))) = Some p ∧
      ∀ role steps, p ≠ Running role steps) by (destruct (Hc t Hnd'); naive_solver).
    destruct Hp as (p & Hp & Hne); exists p; split; [done|]; intros role; split.
    + intros (steps & ->); exfalso; by eapply Hne.
    + intros (c & Hin & Hd & _); exfalso; by eapply Hnd'.
Qed.

(** A short activity of two members: the player streams one step and calls a tool,
    the planner fails after a streamed prefix. *)
Definition demo_block (type : string) (text id : option string) : DshContentBlockView :=
  mkBlockView type text id None None.
Definition demo_chunk (type : string) (index : Z) (text blockType : option string)
    (block : option DshContentBlockView) : DshStreamChunk :=
  mkChunk type (Some index) text blockType None None None block None.
Definition demo_live (role id : string) (e : TeamLiveEvent) : TeamMemberEvent := mkEnvelope role id (LiveChannel e).
Definition demo_log (role id : string) (e : DshSessionEvent) : TeamMemberEvent := mkEnvelope role id (LogChannel e).
Definition demo_stream (type attempt : string) (step : option Z) (chunk : option DshStreamChunk) : TeamLiveEvent :=
  LiveStream (Some (mkStreamFrame type (Some attempt) step chunk)).

Definition demo_host : Host :=
  mkHost [new_MemberCollector "a1" "player" "s" true; new_MemberCollector "a2" "planner" "s" true]
    (new_TeamHistory "s").

Definition demo_ops : list host_op :=
  [HostUser 1000 "play";
   HostEvent 0 2000 "u1" (demo_live "player" "a1" (LiveStatus "running"));
   HostEvent 0 2001 "u2" (demo_log "player" "a1" (SE_UserMessage (mkUserMessage [demo_block "text" (Some "play") None] "user" None)));
   HostEvent 0 2002 "u3" (demo_live "player" "a1" (demo_stream "start" "t1" (Some 1) None));
   HostEvent 0 2003 "u4" (demo_live "player" "a1" (demo_stream "chunk" "t1" None (Some (demo_chunk "block-start" 0 None (Some "text") None))));
   HostEvent 0 2004 "u5" (demo_live "player" "a1" (demo_stream "chunk" "t1" None (Some (demo_chunk "text-delta" 0 (Some "ok") None None))));
   HostEvent 0 2005 "u6" (demo_live "player" "a1" (demo_stream "chunk" "t1" None (Some (demo_chunk "block-end" 1 None None (Some (demo_block "tool-call" None (Some "c1")))))));
   HostEvent 0 2006 "u7" (demo_log "player" "a1" (SE_AssistantMessage [demo_block "text" (Some "ok") None; demo_block "tool-call" None (Some "c1")] None None));
   HostEvent 0 2007 "u8" (demo_log "player" "a1" (SE_ToolResult (Some "c1") None (Some [demo_block "text" (Some "done") None])));
   HostAnnounce 2008 "announcer" "won";
   HostEvent 1 2009 "u9" (demo_live "planner" "a2" (demo_stream "start" "t2" (Some 1) None));
   HostEvent 1 2010 "u10" (demo_live "planner" "a2" (demo_stream "chunk" "t2" None (Some (demo_chunk "reasoning-delta" 0 (Some "hm") None None))));
   HostEvent 1 2011 "u11" (demo_live "planner" "a2" (LiveError (ErrPrimitive "boom")));
   HostEvent 1 2012 "u12" (demo_live "planner" "a2" (LiveStatus "idle"));
   HostEvent 0 2013 "u13" (demo_live "player" "a1" (LiveStatus "idle"))].

Lemma turns_well_formed_witness :
  run_in_order demo_host demo_ops = true ∧
  ∃ p, turn_phase "u1" (sunk (hs_history (host_run demo_host demo_ops))) = Some p ∧
    ∀ role, (∃ steps, p = Running role steps) ↔
      ∃ c, c ∈ hs_collectors (host_run demo_host demo_ops) ∧ drives c "u1" ∧ mc_role c = role.
Proof.
  split; [vm_compute; reflexivity|].
  apply (turns_well_formed demo_host demo_ops "u1"); [by repeat constructor|reflexivity| |vm_compute; reflexivity].
  apply (bool_decide_unpack _); vm_compute; reflexivity.
Defined.
