(* ===== verification/Chat.v ===== *)
(** * The chat state of the web client

    [projects/game/web/frontend/src/store/chat.ts]: the reducer that folds the
    frames of the team streams into the conversation a page shows, and the class
    [ChatStore] that feeds it with the streams of several sends.

    The state is immutable in the code; records whose optional marks are absent
    or [true] carry booleans here.  A sequence number is what [seqOf] reads, so it
    may be [NaN]. *)

From S2P Require Import Prelude ChatWire.

#[local] Open Scope Z_scope.

(** ** Data *)

Record QueuedMsg : Type := mkQueued { q_text : string; q_position : Z }.

Inductive DraftKind : Type := TEXT | THINK.

#[export] Instance DraftKind_eq_dec : EqDecision DraftKind.
Proof. solve_decision. Defined.

Inductive BlockDraft : Type :=
| TextDraft (index : Z) (type : DraftKind) (text : string)
| ToolDraft (index : Z) (toolId name args status : string) (result : option string).

Definition draft_index (b : BlockDraft) : Z :=
  match b with TextDraft i _ _ => i | ToolDraft i _ _ _ _ _ => i end.

Record StepDraft : Type := mkStep { sd_step : Z; sd_blocks : list BlockDraft; sd_settled : bool }.

Record LiveMemberTurn : Type := mkLive {
  lt_member : string;
  lt_turnId : string;
  lt_steps : list StepDraft;
  lt_fixedSteps : nat;
  lt_owners : gmap string Z;
}.

Record TeamMessageEntry : Type := mkEntry {
  te_member : string;
  te_message : HistoryMessage;
  te_seq : jsnum;
  te_projected : bool;
  te_open : bool;
}.

Record MemberViewEntry : Type := mkView {
  me_message : HistoryMessage;
  me_sender : string;
  me_projected : bool;
  me_open : bool;
}.

Record ChatState : Type := mkState {
  cs_history : list TeamMessageEntry;
  cs_memberHistory : gmap string (list MemberViewEntry);
  cs_live : list LiveMemberTurn;
  cs_queue : list QueuedMsg;
  cs_error : option string;
  cs_canceled : bool;
}.

Definition EMPTY_STATE : ChatState := mkState [] ∅ [] [] None false.

#[export] Instance BlockDraft_eq_dec : EqDecision BlockDraft.
Proof. solve_decision. Defined.
#[export] Instance StepDraft_eq_dec : EqDecision StepDraft.
Proof. solve_decision. Defined.
#[export] Instance LiveMemberTurn_eq_dec : EqDecision LiveMemberTurn.
Proof. solve_decision. Defined.
#[export] Instance TeamMessageEntry_eq_dec : EqDecision TeamMessageEntry.
Proof. solve_decision. Defined.
#[export] Instance MemberViewEntry_eq_dec : EqDecision MemberViewEntry.
Proof. solve_decision. Defined.

Definition with_steps (t : LiveMemberTurn) steps :=
  mkLive (lt_member t) (lt_turnId t) steps (lt_fixedSteps t) (lt_owners t).
Definition with_owners (t : LiveMemberTurn) owners :=
  mkLive (lt_member t) (lt_turnId t) (lt_steps t) (lt_fixedSteps t) owners.
Definition with_fixed (t : LiveMemberTurn) n :=
  mkLive (lt_member t) (lt_turnId t) (lt_steps t) n (lt_owners t).

Definition with_live (s : ChatState) live :=
  mkState (cs_history s) (cs_memberHistory s) live (cs_queue s) (cs_error s) (cs_canceled s).
Definition with_error (s : ChatState) error :=
  mkState (cs_history s) (cs_memberHistory s) (cs_live s) (cs_queue s) error (cs_canceled s).
Definition with_views (s : ChatState) views :=
  mkState (cs_history s) views (cs_live s) (cs_queue s) (cs_error s) (cs_canceled s).

(** ** Drafts *)

Definition blockKey (step index : Z) : string := num_str step +:+ ":" +:+ num_str index.

Definition claimBlock (owners : gmap string Z) (key : string) (streamId : Z) : gmap string Z :=
  match owners !! key with None => <[key := streamId]> owners | Some _ => owners end.

Definition draft_content (b : BlockDraft) : ContentBlock :=
  match b with
  | ToolDraft _ toolId name args status result => ToolBlock (mkToolCall toolId name args status result)
  | TextDraft _ THINK text => ThinkBlock text
  | TextDraft _ TEXT text => TextBlock text
  end.

Definition liveBlocksToContentBlocks (blocks : list BlockDraft) : list ContentBlock := draft_content <$> blocks.

Definition blockStartDraft (e : BlockStartEvent) : BlockDraft :=
  if bool_decide (bs_type e = BLOCK_TYPE_TOOL_CALL) then
    ToolDraft (bs_index e) (default "" (bs_toolId e)) (default "" (bs_name e)) "" TOOL_STATUS_RUNNING None
  else TextDraft (bs_index e) (if bool_decide (bs_type e = BLOCK_TYPE_THINK) then THINK else TEXT) "".

Definition block_text (block : ContentBlock) : string :=
  match block with ThinkBlock t => t | TextBlock t => t | _ => "" end.

Definition blockEndTerminal (draft : BlockDraft) (block : ContentBlock) : BlockDraft :=
  match block with
  | ToolBlock c =>
      ToolDraft (draft_index draft) (tc_toolId c) (tc_name c) (tc_argsJson c) (tc_status c) (tc_result c)
  | _ =>
      match draft with
      | ToolDraft _ _ _ _ _ _ => draft
      | TextDraft i k _ => TextDraft i k (block_text block)
      end
  end.

Definition settleDraft (toolId status result : string) (draft : BlockDraft) : BlockDraft :=
  match draft with
  | ToolDraft i id name args st _ =>
      if bool_decide (id = toolId) && bool_decide (st = TOOL_STATUS_RUNNING)
      then ToolDraft i id name args status (Some result) else draft
  | TextDraft _ _ _ => draft
  end.

Definition eventStep (step : option Z) : Z := default 0 step.

Definition append_block (draft : BlockDraft) (s : StepDraft) : StepDraft :=
  mkStep (sd_step s) (sd_blocks s ++ [draft]) (sd_settled s).
Definition settle_step (s : StepDraft) : StepDraft := mkStep (sd_step s) (sd_blocks s) true.

Definition appendBlockStart (steps : list StepDraft) (step : Z) (draft : BlockDraft) : list StepDraft :=
  match list_find (λ s, sd_step s = step) steps with
  | Some (_, group) =>
      if existsb (λ b, draft_index b =? draft_index draft) (sd_blocks group) then steps
      else (λ s, if sd_step s =? step then append_block draft s else s) <$> steps
  | None => (settle_step <$> steps) ++ [mkStep step [draft] false]
  end.

Definition mapStepBlocks (f : list BlockDraft → list BlockDraft) (step : Z) (steps : list StepDraft) : list StepDraft :=
  (λ s, if sd_step s =? step then mkStep (sd_step s) (f (sd_blocks s)) (sd_settled s) else s) <$> steps.

Definition extend_draft (text : string) (b : BlockDraft) : BlockDraft :=
  match b with
  | ToolDraft i id name args st r => ToolDraft i id name (args +:+ text) st r
  | TextDraft i k t => TextDraft i k (t +:+ text)
  end.

Definition on_index (i : Z) (f : BlockDraft → BlockDraft) (blocks : list BlockDraft) : list BlockDraft :=
  (λ b, if draft_index b =? i then f b else b) <$> blocks.

(** ** Tool results in the merged sequence and in the views *)

Definition running_call (toolId : string) (b : ContentBlock) : bool :=
  match b with
  | ToolBlock c => bool_decide (tc_toolId c = toolId) && bool_decide (tc_status c = TOOL_STATUS_RUNNING)
  | _ => false
  end.

Definition settle_content (toolId status result : string) (b : ContentBlock) : ContentBlock :=
  match b with
  | ToolBlock c =>
      if running_call toolId b
      then ToolBlock (mkToolCall (tc_toolId c) (tc_name c) (tc_argsJson c) status (Some result)) else b
  | _ => b
  end.

Definition settle_message (toolId status result : string) (m : HistoryMessage) : HistoryMessage :=
  if existsb (running_call toolId) (hm_blocks m)
  then set_blocks m (settle_content toolId status result <$> hm_blocks m) else m.

Definition settleHistoryEntry (toolId status result : string) (e : TeamMessageEntry) : TeamMessageEntry :=
  mkEntry (te_member e) (settle_message toolId status result (te_message e)) (te_seq e) (te_projected e) (te_open e).

Definition settle_view (toolId status result : string) (e : MemberViewEntry) : MemberViewEntry :=
  mkView (settle_message toolId status result (me_message e)) (me_sender e) (me_projected e) (me_open e).

Definition settleMemberHistory (toolId status result : string) (views : gmap string (list MemberViewEntry))
    (member : string) : gmap string (list MemberViewEntry) :=
  match views !! member with
  | None => views
  | Some view => <[member := settle_view toolId status result <$> view]> views
  end.

(** The loop over [Object.keys(memberHistory)]. *)
Definition settle_views (toolId status result : string) (views : gmap string (list MemberViewEntry))
    : gmap string (list MemberViewEntry) :=
  fold_left (settleMemberHistory toolId status result) ((map_to_list views).*1) views.

Definition settle_turn (toolId status result : string) (t : LiveMemberTurn) : LiveMemberTurn :=
  with_steps t ((λ s, mkStep (sd_step s) (settleDraft toolId status result <$> sd_blocks s) (sd_settled s)) <$> lt_steps t).

(** ** Turns *)

(** One history message per step; the last is marked when the turn was interrupted. *)
Definition step_message (interrupted : bool) (s : StepDraft) : HistoryMessage :=
  mkHistoryMessage None ROLE_AGENT None (liveBlocksToContentBlocks (sd_blocks s))
    (if interrupted then Some true else None).

Fixpoint stepsToHistory (interrupted : bool) (steps : list StepDraft) : list HistoryMessage :=
  match steps with
  | [] => []
  | [s] => [step_message interrupted s]
  | s :: steps => step_message false s :: stepsToHistory interrupted steps
  end.

(** [a > b], [Math.min] and [a - 1] on numbers that may be [NaN]. *)
Definition js_gt (a b : jsnum) : bool :=
  match a, b with JNum x, JNum y => y <? x | _, _ => false end.
Definition js_min : jsnum → jsnum → jsnum := jsnum_lift2 Z.min.
Definition js_pred (a : jsnum) : jsnum := jsnum_lift2 Z.sub a (JNum 1).
Definition js_eq (a b : jsnum) : bool :=
  match a, b with JNum x, JNum y => x =? y | _, _ => false end.

Fixpoint insertBySeq (history : list TeamMessageEntry) (entry : TeamMessageEntry) : list TeamMessageEntry :=
  match history with
  | [] => [entry]
  | e :: history =>
      if js_gt (te_seq e) (te_seq entry) then entry :: e :: history else e :: insertBySeq history entry
  end.

Definition eventMember (s : ChatState) (e : ChatEvent) : option string :=
  match ev_member e with
  | Some m =>
      if bool_decide (m ≠ "") then Some m
      else match cs_live s with [t] => Some (lt_member t) | _ => None end
  | None => match cs_live s with [t] => Some (lt_member t) | _ => None end
  end.

(** The position of the draft, [None] for -1. *)
Definition findLiveTurn (s : ChatState) (member : option string) (turnId : string) : option nat :=
  m ← member; fst <$> list_find (λ t, lt_member t = m ∧ lt_turnId t = turnId) (cs_live s).

Fixpoint project_from (seq : jsnum) (member : string) (messages : list HistoryMessage) : list TeamMessageEntry :=
  match messages with
  | [] => []
  | m :: messages =>
      let seq := js_pred seq in mkEntry member m seq true false :: project_from seq member messages
  end.

Definition projectTail (history : list TeamMessageEntry) (member : string) (messages : list HistoryMessage)
    : list TeamMessageEntry :=
  project_from (fold_left (λ m e, js_min m (te_seq e)) history (JNum 0)) member messages.

Definition view_of (views : gmap string (list MemberViewEntry)) (member : string) : list MemberViewEntry :=
  default [] (views !! member).

(** Whether the view already holds a message of that identity. *)
Definition holds_message (view : list MemberViewEntry) (m : HistoryMessage) : bool :=
  match hm_messageId m with
  | Some id =>
      bool_decide (id ≠ "") && existsb (λ e, bool_decide (hm_messageId (me_message e) = Some id)) view
  | None => false
  end.

Definition appendMemberInputView (views : gmap string (list MemberViewEntry)) (member : string)
    (message : HistoryMessage) (sender : string) : gmap string (list MemberViewEntry) :=
  let view := view_of views member in
  if holds_message view message then views
  else <[member := view ++ [mkView message sender false false]]> views.

(** Replaces the first entry marked as a projection; [None] when there is none. *)
Fixpoint replace_projected {E} (projected : E → bool) (entry : E) (l : list E) : option (list E) :=
  match l with
  | [] => None
  | e :: l => if projected e then Some (entry :: l) else cons e <$> replace_projected projected entry l
  end.

Definition appendMemberView (views : gmap string (list MemberViewEntry)) (member : string)
    (message : HistoryMessage) (open : bool) : gmap string (list MemberViewEntry) :=
  let view := view_of views member in
  if holds_message view message then views
  else
    <[member := match replace_projected me_projected (mkView message member false false) view with
                | Some view' => view'
                | None => view ++ [mkView message member false open]
                end]> views.

Definition projectMemberTail (views : gmap string (list MemberViewEntry)) (member : string)
    (messages : list HistoryMessage) : gmap string (list MemberViewEntry) :=
  <[member := view_of views member ++ ((λ m, mkView m member true false) <$> messages)]> views.

Definition clear_entry_open (e : TeamMessageEntry) : TeamMessageEntry :=
  mkEntry (te_member e) (te_message e) (te_seq e) (te_projected e) false.
Definition clear_view_open (e : MemberViewEntry) : MemberViewEntry :=
  mkView (me_message e) (me_sender e) (me_projected e) false.

Definition clearMemberOpen (s : ChatState) (member : string) : ChatState :=
  mkState ((λ e, if bool_decide (te_member e = member) then clear_entry_open e else e) <$> cs_history s)
    (match cs_memberHistory s !! member with
     | None => cs_memberHistory s
     | Some view => <[member := clear_view_open <$> view]> (cs_memberHistory s)
     end) (cs_live s) (cs_queue s) (cs_error s) (cs_canceled s).

Definition clearAllMemberOpen (views : gmap string (list MemberViewEntry)) : gmap string (list MemberViewEntry) :=
  (λ view : list MemberViewEntry, clear_view_open <$> view) <$> views.

Definition closeLiveTurn (s : ChatState) (index : nat) (interrupted : bool) : ChatState :=
  match cs_live s !! index with
  | None => s
  | Some turn =>
      let live := delete index (cs_live s) in
      let closed := clearMemberOpen s (lt_member turn) in
      let pending := drop (lt_fixedSteps turn) (lt_steps turn) in
      if bool_decide (pending = []) then with_live closed live
      else
        let messages := stepsToHistory interrupted pending in
        mkState (cs_history closed ++ projectTail (cs_history closed) (lt_member turn) messages)
          (projectMemberTail (cs_memberHistory closed) (lt_member turn) messages)
          live (cs_queue closed) (cs_error closed) (cs_canceled closed)
  end.

Fixpoint consumeFixedStep (live : list LiveMemberTurn) (member : string) : list LiveMemberTurn :=
  match live with
  | [] => []
  | t :: live =>
      if bool_decide (lt_member t = member ∧ (lt_fixedSteps t < length (lt_steps t))%nat)
      then with_fixed t (Nat.min (S (lt_fixedSteps t)) (length (lt_steps t))) :: live
      else t :: consumeFixedStep live member
  end.

Definition first_text (blocks : list ContentBlock) : string :=
  match omap (λ b, match b with TextBlock t => Some t | _ => None end) blocks with
  | t :: _ => t
  | [] => ""
  end.

Fixpoint remove_text (text : string) (queue : list QueuedMsg) : list QueuedMsg :=
  match queue with
  | [] => []
  | q :: queue => if bool_decide (q_text q = text) then queue else q :: remove_text text queue
  end.

Definition consumeQueueText (queue : list QueuedMsg) (message : HistoryMessage) : list QueuedMsg :=
  remove_text (first_text (hm_blocks message)) queue.

(** ** The reducer *)

Definition has_live (s : ChatState) (member : string) : bool :=
  existsb (λ t, bool_decide (lt_member t = member)) (cs_live s).

Definition known_seq (history : list TeamMessageEntry) (seq : jsnum) : bool :=
  existsb (λ e, negb (te_projected e) && js_eq (te_seq e) seq) history.

Definition reduce_team_message (s : ChatState) (f : TeamMessage) : ChatState :=
  let member := default "" (tm_member f) in
  if bool_decide (member = "") then s
  else
    let seq := seqOf (Some (tm_seq f)) in
    if known_seq (cs_history s) seq then s
    else
      let open := bool_decide (member ≠ USER_MEMBER) && has_live s member in
      let entry := mkEntry member (tm_message f) seq false false in
      let history :=
        match replace_projected (λ e, te_projected e && bool_decide (te_member e = member)) entry (cs_history s) with
        | Some h => h
        | None => insertBySeq (cs_history s) (mkEntry member (tm_message f) seq false open)
        end in
      let views :=
        if bool_decide (member = USER_MEMBER) then cs_memberHistory s
        else appendMemberView (cs_memberHistory s) member (tm_message f) open in
      mkState history views (consumeFixedStep (cs_live s) member) (cs_queue s) (cs_error s) (cs_canceled s).

Definition reduce_member_view (s : ChatState) (f : MemberViewEvent) : ChatState :=
  let member := default "" (mv_member f) in
  if bool_decide (member = "" ∨ member = USER_MEMBER) then s
  else
    let views := appendMemberInputView (cs_memberHistory s) member (mv_message f) (default "" (mv_sender f)) in
    let queue := if bool_decide (mv_sender f = Some "user") then consumeQueueText (cs_queue s) (mv_message f)
      else cs_queue s in
    mkState (cs_history s) views (cs_live s) queue (cs_error s) (cs_canceled s).

Definition reduce_turn_start (s : ChatState) (e : ChatEvent) : ChatState :=
  match eventMember s e with
  | None => s
  | Some member =>
      let turnId := default "" (ev_turnId e) in
      match findLiveTurn s (Some member) turnId with
      | Some _ => s
      | None =>
          mkState (cs_history s) (cs_memberHistory s) (cs_live s ++ [mkLive member turnId [] 0 ∅])
            (cs_queue s) None false
      end
  end.

Definition reduce_block_start (s : ChatState) (e : ChatEvent) (b : BlockStartEvent) (streamId : Z) : ChatState :=
  match findLiveTurn s (eventMember s e) (default "" (ev_turnId e)) with
  | None => s
  | Some index =>
      let step := eventStep (bs_step b) in
      with_live s (alter (λ t,
        with_owners (with_steps t (appendBlockStart (lt_steps t) step (blockStartDraft b)))
          (claimBlock (lt_owners t) (blockKey step (bs_index b)) streamId)) index (cs_live s))
  end.

Definition reduce_delta (s : ChatState) (e : ChatEvent) (d : BlockDeltaEvent) (streamId : Z) : ChatState :=
  match findLiveTurn s (eventMember s e) (default "" (ev_turnId e)) with
  | None => s
  | Some index =>
      let step := eventStep (bd_step d) in
      let key := blockKey step (bd_index d) in
      let owner := (cs_live s !! index) ≫= λ t, lt_owners t !! key in
      if bool_decide (is_Some owner ∧ owner ≠ Some streamId) then s
      else
        with_live s (alter (λ t,
          with_owners (with_steps t (mapStepBlocks (on_index (bd_index d) (extend_draft (bd_text d))) step (lt_steps t)))
            (claimBlock (lt_owners t) key streamId)) index (cs_live s))
  end.

Definition reduce_block_end (s : ChatState) (e : ChatEvent) (b : BlockEndEvent) (streamId : Z) : ChatState :=
  match findLiveTurn s (eventMember s e) (default "" (ev_turnId e)) with
  | None => s
  | Some index =>
      let step := eventStep (be_step b) in
      with_live s (alter (λ t,
        with_owners (with_steps t (mapStepBlocks (on_index (be_index b) (λ d, blockEndTerminal d (be_block b))) step (lt_steps t)))
          (claimBlock (lt_owners t) (blockKey step (be_index b)) streamId)) index (cs_live s))
  end.

Definition reduce_tool_result (s : ChatState) (r : ToolResultEvent) : ChatState :=
  let settle {A} (f : string → string → string → A) := f (tr_toolId r) (tr_status r) (tr_result r) in
  mkState (settle settleHistoryEntry <$> cs_history s) (settle settle_views (cs_memberHistory s))
    (settle settle_turn <$> cs_live s) (cs_queue s) (cs_error s) (cs_canceled s).

(** The fallback text of a failed turn, in UTF-8. *)
Definition turn_failed_text : string := "对话回合失败".

Definition reduce_turn_end (s : ChatState) (e : ChatEvent) (t : TurnEndEvent) : ChatState :=
  let index := findLiveTurn s (eventMember s e) (default "" (ev_turnId e)) in
  let close interrupted := match index with None => s | Some i => closeLiveTurn s i interrupted end in
  match ChatWire.te_status t with
  | TURN_STATUS_COMPLETED => close false
  | TURN_STATUS_ERROR =>
      with_error (close true)
        (Some (match ChatWire.te_error t with Some v => er_message v | None => turn_failed_text end))
  | TURN_STATUS_CANCELED =>
      let next := close true in
      mkState (cs_history next) (cs_memberHistory next) (cs_live next) [] (cs_error next) true
  | TURN_STATUS_ABORTED => EMPTY_STATE
  | TURN_STATUS_UNSPECIFIED => s
  end.

Definition reduceEvent (s : ChatState) (e : ChatEvent) (queuedText : string) (streamId : Z) : ChatState :=
  match ev_payload e with
  | Some (Queued position) =>
      mkState (cs_history s) (cs_memberHistory s) (cs_live s) (cs_queue s ++ [mkQueued queuedText position])
        (cs_error s) (cs_canceled s)
  | Some (TeamMessageFrame f) => reduce_team_message s f
  | Some (MemberViewFrame f) => reduce_member_view s f
  | Some TurnStart => reduce_turn_start s e
  | Some (BlockStart b) => reduce_block_start s e b streamId
  | Some (Delta d) => reduce_delta s e d streamId
  | Some (BlockEnd b) => reduce_block_end s e b streamId
  | Some (ToolResult r) => reduce_tool_result s r
  | Some (TurnEnd t) => reduce_turn_end s e t
  | None => s
  end.

(** ** [ChatStore]

    The listeners are only called; [consumed] is the local variable of each send
    that is under way. *)
Record ChatStore : Type := mkStore {
  st_state : ChatState;
  st_sendTexts : list string;
  st_nextStreamId : Z;
  st_activeStreamId : Z;
  st_consumed : gmap Z bool;
}.

Definition new_ChatStore : ChatStore := mkStore EMPTY_STATE [] 0 0 ∅.

Definition set_state (c : ChatStore) (s : ChatState) : ChatStore :=
  mkStore s (st_sendTexts c) (st_nextStreamId c) (st_activeStreamId c) (st_consumed c).

Definition store_apply (c : ChatStore) (e : ChatEvent) (queuedText : string) (streamId : Z) : ChatStore :=
  set_state c (reduceEvent (st_state c) e queuedText streamId).

Definition store_applyEvent (c : ChatStore) (e : ChatEvent) : ChatStore := store_apply c e "" 0.

(** [sort] with the comparator [a.seq - b.seq]: stable; its order is not specified
    when a sequence number is [NaN], which the server never sends. *)
Fixpoint insert_sorted (e : TeamMessageEntry) (l : list TeamMessageEntry) : list TeamMessageEntry :=
  match l with
  | [] => [e]
  | e' :: l => if js_gt (te_seq e) (te_seq e') then e' :: insert_sorted e l else e :: e' :: l
  end.

Definition sort_entries (l : list TeamMessageEntry) : list TeamMessageEntry := foldr insert_sorted [] l.

Definition listed_entry (m : TeamMessage) : option TeamMessageEntry :=
  let member := default "" (tm_member m) in
  if bool_decide (member = "") then None
  else Some (mkEntry member (tm_message m) (seqOf (Some (tm_seq m))) false false).

Definition loadHistory (c : ChatStore) (messages : list TeamMessage) : ChatStore :=
  set_state c (mkState (sort_entries (omap listed_entry messages))
    (clearAllMemberOpen (cs_memberHistory (st_state c))) [] [] None false).

(** The identity of a message that has one. *)
Definition message_id (m : HistoryMessage) : option string :=
  match hm_messageId m with
  | Some id => if bool_decide (id = "") then None else Some id
  | None => None
  end.

Definition keep_local (serverIds : list string) (e : MemberViewEntry) : bool :=
  negb (me_projected e) &&
  match message_id (me_message e) with None => true | Some id => negb (bool_decide (id ∈ serverIds)) end.

Definition loadMemberHistory (c : ChatStore) (member : string) (messages : list (HistoryMessage * option string))
    : ChatStore :=
  let server := (λ m, mkView m.1 (default "" m.2) false false) <$> messages in
  let serverIds := omap (λ e, message_id (me_message e)) server in
  let local := List.filter (keep_local serverIds) (view_of (cs_memberHistory (st_state c)) member) in
  set_state c (with_views (st_state c) (<[member := server ++ local]> (cs_memberHistory (st_state c)))).

Definition clearMemberHistory (c : ChatStore) : ChatStore :=
  set_state c (with_views (st_state c) ∅).

Definition release_turn (streamId : Z) (t : LiveMemberTurn) : LiveMemberTurn :=
  with_owners t (filter (λ p, p.2 ≠ streamId) (lt_owners t)).

Definition releaseStreamOwnership (c : ChatStore) (streamId : Z) : ChatStore :=
  set_state c (with_live (st_state c) (release_turn streamId <$> cs_live (st_state c))).

Definition close_turn (interrupted : bool) (s : ChatState) (t : LiveMemberTurn) : ChatState :=
  match list_find (λ t', lt_member t' = lt_member t ∧ lt_turnId t' = lt_turnId t) (cs_live s) with
  | Some (index, _) => closeLiveTurn s index interrupted
  | None => s
  end.

Definition closePendingTurns (c : ChatStore) (interrupted : bool) : ChatStore :=
  set_state c (fold_left (close_turn interrupted) (cs_live (st_state c)) (st_state c)).

(** *** [send], cut at its suspensions: the call, each event, the end, an error. *)

Definition send_start (c : ChatStore) (text : string) : ChatStore * Z :=
  let streamId := st_nextStreamId c + 1 in
  (mkStore (st_state c) (st_sendTexts c ++ [text]) streamId streamId (<[streamId := false]> (st_consumed c)), streamId).

Definition consumeSendText (c : ChatStore) (streamId : Z) : ChatStore * string :=
  (mkStore (st_state c) (tail (st_sendTexts c)) (st_nextStreamId c) (st_activeStreamId c)
     (<[streamId := true]> (st_consumed c)), default "" (head (st_sendTexts c))).

Definition is_consumed (c : ChatStore) (streamId : Z) : bool := default false (st_consumed c !! streamId).

Definition consume_if_needed (c : ChatStore) (streamId : Z) : ChatStore :=
  if is_consumed c streamId then c else (consumeSendText c streamId).1.

Definition send_event (c : ChatStore) (streamId : Z) (e : ChatEvent) : ChatStore :=
  match ev_payload e with
  | Some (Queued _) =>
      let '(c, queuedText) := consumeSendText c streamId in store_apply c e queuedText streamId
  | _ => store_apply (consume_if_needed c streamId) e "" streamId
  end.

Definition send_end (c : ChatStore) (streamId : Z) : ChatStore :=
  let c := consume_if_needed c streamId in
  if st_activeStreamId c =? streamId then closePendingTurns c true
  else releaseStreamOwnership c streamId.

Definition send_error (c : ChatStore) (streamId : Z) (message : string) : ChatStore :=
  let c := consume_if_needed c streamId in
  if st_activeStreamId c =? streamId then
    let c := closePendingTurns c true in set_state c (with_error (st_state c) (Some message))
  else releaseStreamOwnership c streamId.
