(* ===== verification/ChatFacts.v ===== *)
(** * Properties of the chat state

    Theorems on the reducer and the store of [Chat]: frames fanned out on several
    concurrent streams take effect once, the open marks of the entries follow the
    turns, and closing a turn loses none of its content. *)

From S2P Require Import Prelude ChatWire Chat.

#[local] Open Scope Z_scope.

(** ** Turn keys

    Turns are looked up by member and turn id; the lookups read nothing else. *)

Definition turn_key (t : LiveMemberTurn) : string * string := (lt_member t, lt_turnId t).
Definition keys (s : ChatState) : list (string * string) := turn_key <$> cs_live s.

Lemma list_find_fmap_pred {A B} (f : A → B) (P : A → Prop) (Q : B → Prop)
    `{∀ a, Decision (P a)} `{∀ b, Decision (Q b)} (l : list A) :
  (∀ a, P a ↔ Q (f a)) → fst <$> list_find P l = fst <$> list_find Q (f <$> l).
Proof.
  intros HPQ; induction l as [|a l IH]; [done|]; rewrite fmap_cons; cbn [list_find].
  destruct (decide (P a)) as [Hp|Hp], (decide (Q (f a))) as [Hq|Hq]; try (exfalso; naive_solver); [done|].
  destruct (list_find P l) as [[i x]|], (list_find Q (f <$> l)) as [[j y]|]; simplify_eq/=; congruence.
Qed.

Lemma findLiveTurn_keys s m t :
  findLiveTurn s m t = m' ← m; fst <$> list_find (λ k, k = (m', t)) (keys s).
Proof.
  destruct m as [m|]; [|done]; unfold findLiveTurn, keys; simpl.
  apply list_find_fmap_pred; intros [? ? ? ? ?]; unfold turn_key; simpl; naive_solver.
Qed.

Lemma eventMember_keys s s' e : keys s = keys s' → eventMember s e = eventMember s' e.
Proof.
  intros Hk; unfold eventMember.
  assert (Hm : (match cs_live s with [t] => Some (lt_member t) | _ => None end) =
               (match cs_live s' with [t] => Some (lt_member t) | _ => None end)).
  { unfold keys, turn_key in Hk.
    destruct (cs_live s) as [|? [|]], (cs_live s') as [|? [|]]; simplify_eq/=; congruence. }
  by rewrite Hm.
Qed.

(** The turn a frame addresses. *)
Definition target (s : ChatState) (e : ChatEvent) : option nat :=
  findLiveTurn s (eventMember s e) (default "" (ev_turnId e)).

Lemma target_keys s s' e : keys s = keys s' → target s e = target s' e.
Proof.
  intros Hk; unfold target; rewrite (eventMember_keys s s' e Hk), !findLiveTurn_keys; by rewrite Hk.
Qed.

Lemma fmap_alter_same {A B} (g : A → B) (f : A → A) i (l : list A) :
  (∀ a, g (f a) = g a) → g <$> alter f i l = g <$> l.
Proof.
  intros Hg; revert i; induction l as [|a l IH]; intros [|i]; try done.
  - change (alter f 0%nat (a :: l)) with (f a :: l); by rewrite !fmap_cons, Hg.
  - change (alter f (S i) (a :: l)) with (a :: alter f i l); by rewrite !fmap_cons, IH.
Qed.

Lemma fmap_fmap_same {A B} (g : A → B) (f : A → A) (l : list A) :
  (∀ a, g (f a) = g a) → g <$> (f <$> l) = g <$> l.
Proof. intros Hg; rewrite <- list_fmap_compose; apply list_fmap_ext; intros; apply Hg. Qed.

Lemma keys_alter s f i : (∀ t, turn_key (f t) = turn_key t) → keys (with_live s (alter f i (cs_live s))) = keys s.
Proof. apply fmap_alter_same. Qed.

Lemma fmap_again {A} (f : A → A) (l : list A) : (∀ a, f (f a) = f a) → f <$> (f <$> l) = f <$> l.
Proof. intros H; rewrite <- list_fmap_compose; apply list_fmap_ext; intros; apply H. Qed.

(** ** Forgetting the block owners *)

Definition erase_turn (t : LiveMemberTurn) : LiveMemberTurn := with_owners t ∅.
Definition erase (s : ChatState) : ChatState := with_live s (erase_turn <$> cs_live s).

Lemma keys_erase s : keys (erase s) = keys s.
Proof. unfold keys, erase; simpl; by apply fmap_fmap_same. Qed.

Lemma erase_erase s : erase (erase s) = erase s.
Proof. destruct s; unfold erase; simpl; f_equal; rewrite <- list_fmap_compose; by apply list_fmap_ext. Qed.

(** One frame of one stream, on states without owners: what the client would do if
    it knew that every frame reaches it once. *)
Definition reduce1 (s : ChatState) (e : ChatEvent) : ChatState := erase (reduceEvent s e "" 0).

(** The frames the server writes to every stream, as it writes them: numbered merge
    entries, identified member views. *)
Definition fanned_out (e : ChatEvent) : bool :=
  match ev_payload e with
  | Some (Queued _) => false
  | Some (TeamMessageFrame f) => match seqOf (Some (tm_seq f)) with JNum _ => true | JNaN => false end
  | Some (MemberViewFrame f) => bool_decide (default "" (hm_messageId (mv_message f)) ≠ "")
  | _ => true
  end.

Definition is_delta (e : ChatEvent) : bool :=
  match ev_payload e with Some (Delta _) => true | _ => false end.

(** The delivery of one frame to several streams, in some order. *)
Definition deliver (s : ChatState) (p : ChatEvent * list Z) : ChatState :=
  fold_left (λ s k, reduceEvent s p.1 "" k) p.2 s.

(** The sound states: one draft per turn key, distinct texts in the queue, blocks
    owned by streams of [ks]. *)
Record sound (ks : list Z) (s : ChatState) : Prop := {
  so_keys : NoDup (keys s);
  so_queue : NoDup (q_text <$> cs_queue s);
  so_owners : ∀ t key k, t ∈ cs_live s → lt_owners t !! key = Some k → k ∈ ks;
}.

(** ** A frame delivered again *)

Lemma js_eq_refl n : js_eq (JNum n) (JNum n) = true.
Proof. apply Z.eqb_refl. Qed.

Lemma elem_of_insertBySeq e l x : x ∈ insertBySeq l e ↔ x = e ∨ x ∈ l.
Proof. induction l as [|y l IH]; simpl; [set_solver|]; case_match; set_solver. Qed.

Lemma replace_projected_elem {E} (p : E → bool) e l l' : replace_projected p e l = Some l' → e ∈ l'.
Proof.
  revert l'; induction l as [|x l IH]; intros l' H; simpl in H; [done|].
  case_match; simplify_eq; [left|]. apply fmap_Some in H as (k & Hk & ->); right; eauto.
Qed.

Lemma known_seq_spec history n :
  known_seq history (JNum n) = true ↔ ∃ e, e ∈ history ∧ te_projected e = false ∧ te_seq e = JNum n.
Proof.
  unfold known_seq; rewrite existsb_exists; setoid_rewrite <- list_elem_of_In; split.
  - intros (e & He & H); apply andb_true_iff in H as [Hp Hs]; apply negb_true_iff in Hp.
    exists e; split_and!; [done..|]. destruct (te_seq e); [|done]. by apply Z.eqb_eq in Hs; subst.
  - intros (e & He & Hp & Hs); exists e; split; [done|]; by rewrite Hp, Hs, js_eq_refl.
Qed.

Lemma team_message_known s f n :
  default "" (tm_member f) ≠ "" → seqOf (Some (tm_seq f)) = JNum n →
  known_seq (cs_history (reduce_team_message s f)) (JNum n) = true.
Proof.
  intros Hm Hn; unfold reduce_team_message; rewrite bool_decide_false, Hn by done.
  destruct (known_seq (cs_history s) (JNum n)) eqn:Hk; [done|]; simpl.
  apply known_seq_spec.
  destruct (replace_projected _ _ _) as [h|] eqn:Hr.
  - eexists; split; [by eapply replace_projected_elem|done].
  - eexists; split; [apply elem_of_insertBySeq; by left|done].
Qed.

Lemma team_message_again s f n :
  seqOf (Some (tm_seq f)) = JNum n →
  reduce_team_message (reduce_team_message s f) f = reduce_team_message s f.
Proof.
  intros Hn; destruct (decide (default "" (tm_member f) = "")) as [He|He].
  - unfold reduce_team_message; by rewrite !bool_decide_true.
  - unfold reduce_team_message at 1; rewrite bool_decide_false, Hn by done.
    by rewrite team_message_known.
Qed.

Lemma view_of_insert views m v : view_of (<[m := v]> views) m = v.
Proof. unfold view_of; by rewrite lookup_insert_eq. Qed.

Lemma holds_message_snoc view m sender p o :
  default "" (hm_messageId m) ≠ "" → holds_message (view ++ [mkView m sender p o]) m = true.
Proof.
  intros Hid; unfold holds_message; destruct (hm_messageId m) as [id|] eqn:Hm; [|done]; simpl in Hid.
  rewrite bool_decide_true, existsb_app by done; simpl.
  rewrite (bool_decide_true (hm_messageId m = Some id)) by done; by rewrite orb_true_r.
Qed.

Lemma input_view_again views member m sender :
  default "" (hm_messageId m) ≠ "" →
  let views' := appendMemberInputView views member m sender in
  appendMemberInputView views' member m sender = views'.
Proof.
  intros Hid; simpl; unfold appendMemberInputView at 2 3.
  destruct (holds_message (view_of views member) m) eqn:Hh; unfold appendMemberInputView; [by rewrite Hh|].
  by rewrite view_of_insert, holds_message_snoc.
Qed.

Lemma remove_text_absent text q : text ∉ (q_text <$> q) → remove_text text q = q.
Proof.
  induction q as [|x q IH]; [done|]; simpl; intros Hn; case_bool_decide; [set_solver|].
  f_equal; apply IH; set_solver.
Qed.

Lemma remove_text_again text q :
  NoDup (q_text <$> q) → remove_text text (remove_text text q) = remove_text text q.
Proof.
  induction q as [|x q IH]; [done|]; rewrite fmap_cons, NoDup_cons; intros [Hx Hq]; simpl.
  case_bool_decide as Ht; [subst; by apply remove_text_absent|].
  simpl; rewrite bool_decide_false by done; by rewrite IH.
Qed.

Lemma remove_text_NoDup text q : NoDup (q_text <$> q) → NoDup (q_text <$> remove_text text q).
Proof.
  intros Hq; eapply sublist_NoDup; [done|]; clear.
  induction q as [|x q IH]; [done|]; simpl; case_bool_decide; rewrite ?fmap_cons; by constructor.
Qed.

Lemma member_view_again s f :
  default "" (hm_messageId (mv_message f)) ≠ "" → NoDup (q_text <$> cs_queue s) →
  reduce_member_view (reduce_member_view s f) f = reduce_member_view s f.
Proof.
  intros Hid Hq; destruct (decide (default "" (mv_member f) = "" ∨ default "" (mv_member f) = USER_MEMBER)).
  - unfold reduce_member_view; by rewrite !bool_decide_true.
  - unfold reduce_member_view at 1; rewrite bool_decide_false by done.
    unfold reduce_member_view; rewrite bool_decide_false by done; cbv zeta; cbn [cs_history cs_memberHistory cs_live cs_queue cs_error cs_canceled].
    rewrite input_view_again by done; f_equal.
    case_bool_decide; [|done]; by apply remove_text_again.
Qed.

Lemma find_key_app l k : fst <$> list_find (λ x : string * string, x = k) (l ++ [k]) ≠ None.
Proof.
  destruct (list_find (λ x, x = k) (l ++ [k])) as [p|] eqn:E; [done|].
  apply list_find_None in E; rewrite Forall_forall in E; exfalso; apply (E k); set_solver.
Qed.

Lemma turn_start_again s e : reduce_turn_start (reduce_turn_start s e) e = reduce_turn_start s e.
Proof.
  unfold reduce_turn_start at 2 3.
  destruct (eventMember s e) as [m|] eqn:Hm; [|unfold reduce_turn_start; by rewrite Hm].
  destruct (findLiveTurn s (Some m) (default "" (ev_turnId e))) as [i|] eqn:Hf.
  { unfold reduce_turn_start; by rewrite Hm, Hf. }
  set (s' := mkState _ _ _ _ _ _); unfold reduce_turn_start.
  destruct (eventMember s' e) as [m'|] eqn:Hm'; [|done].
  assert (m' = m) as ->.
  { unfold eventMember in Hm, Hm'; subst s'; simpl in Hm'.
    destruct (ev_member e) as [x|]; [case_bool_decide; [congruence|]|];
      destruct (cs_live s) as [|t [|]]; simpl in *; congruence. }
  destruct (findLiveTurn s' (Some m) (default "" (ev_turnId e))) as [i|] eqn:Hf'; [done|].
  exfalso; rewrite findLiveTurn_keys in Hf'; unfold keys in Hf'; simpl in Hf'.
  rewrite fmap_app in Hf'; by apply find_key_app in Hf'.
Qed.

Lemma alter_again {A} (f g : A → A) i (l : list A) :
  (∀ a, f (g a) = g a) → alter f i (alter g i l) = alter g i l.
Proof.
  intros H; revert i; induction l as [|a l IH]; intros [|i]; try done.
  - change (f (g a) :: l = g a :: l); by rewrite H.
  - change (a :: alter f i (alter g i l) = a :: alter g i l); by rewrite IH.
Qed.

Lemma alter_same {A} (f g : A → A) i (l : list A) :
  (∀ a, f a = g a) → alter f i l = alter g i l.
Proof.
  intros H; revert i; induction l as [|a l IH]; intros [|i]; try done.
  - change (f a :: l = g a :: l); by rewrite H.
  - change (a :: alter f i l = a :: alter g i l); by rewrite IH.
Qed.

Lemma claim_again o key k k' : claimBlock (claimBlock o key k) key k' = claimBlock o key k.
Proof.
  unfold claimBlock at 2 3; destruct (o !! key) as [x|] eqn:Ho; unfold claimBlock; [by rewrite Ho|].
  by rewrite lookup_insert_eq.
Qed.

(** The three block operations have this shape. *)
Definition edit_turn (f : list StepDraft → list StepDraft) (key : string) (k : Z) (t : LiveMemberTurn) : LiveMemberTurn :=
  with_owners (with_steps t (f (lt_steps t))) (claimBlock (lt_owners t) key k).

Definition edit_target (s : ChatState) (e : ChatEvent) (f : list StepDraft → list StepDraft) (key : string) (k : Z) : ChatState :=
  match target s e with None => s | Some i => with_live s (alter (edit_turn f key k) i (cs_live s)) end.

Lemma keys_edit s e f key k : keys (edit_target s e f key k) = keys s.
Proof. unfold edit_target; destruct (target s e); [by apply keys_alter|done]. Qed.

Lemma edit_again s e f key k k' :
  (∀ l, f (f l) = f l) → edit_target (edit_target s e f key k) e f key k' = edit_target s e f key k.
Proof.
  intros Hf; unfold edit_target at 1; rewrite (target_keys _ s) by apply keys_edit.
  unfold edit_target; destruct (target s e) as [i|]; [|done]; unfold with_live; simpl; f_equal.
  apply alter_again; intros t; unfold edit_turn; simpl; by rewrite Hf, claim_again.
Qed.

Lemma block_start_edit s e b k :
  reduce_block_start s e b k =
  edit_target s e (λ l, appendBlockStart l (eventStep (bs_step b)) (blockStartDraft b))
    (blockKey (eventStep (bs_step b)) (bs_index b)) k.
Proof. done. Qed.

Lemma block_end_edit s e b k :
  reduce_block_end s e b k =
  edit_target s e (mapStepBlocks (on_index (be_index b) (λ d, blockEndTerminal d (be_block b))) (eventStep (be_step b)))
    (blockKey (eventStep (be_step b)) (be_index b)) k.
Proof. done. Qed.

Lemma find_step_app l step d :
  (∀ s, s ∈ l → sd_step s ≠ step) →
  list_find (λ s, sd_step s = step) (l ++ [mkStep step d false]) = Some (length l, mkStep step d false).
Proof.
  intros H; apply list_find_Some; split_and!; [by apply list_lookup_middle|done|].
  intros j s Hj Hlt; apply H. rewrite lookup_app_l in Hj by done; by eapply list_elem_of_lookup_2.
Qed.

Lemma find_step_map l step f i g :
  (∀ s, sd_step (f s) = sd_step s) →
  list_find (λ s, sd_step s = step) l = Some (i, g) →
  list_find (λ s, sd_step s = step) (f <$> l) = Some (i, f g).
Proof.
  intros Hf H; apply list_find_Some in H as (Hi & Hs & Hb); apply list_find_Some; split_and!.
  - by rewrite list_lookup_fmap, Hi.
  - by rewrite Hf.
  - intros j s Hj Hlt; rewrite list_lookup_fmap in Hj; apply fmap_Some in Hj as (s' & Hj & ->).
    rewrite Hf; eauto.
Qed.

Lemma append_again step d l :
  appendBlockStart (appendBlockStart l step d) step d = appendBlockStart l step d.
Proof.
  unfold appendBlockStart at 2 3; destruct (list_find _ l) as [[i g]|] eqn:Hf.
  - destruct (existsb _ (sd_blocks g)) eqn:He; unfold appendBlockStart; [by rewrite Hf, He|].
    erewrite find_step_map; [|intros s; by case_match|done].
    apply list_find_Some in Hf as (_ & -> & _); rewrite Z.eqb_refl; simpl.
    rewrite existsb_app; simpl; by rewrite Z.eqb_refl, orb_true_r.
  - apply list_find_None in Hf; rewrite Forall_forall in Hf.
    unfold appendBlockStart; rewrite find_step_app; [simpl; by rewrite Z.eqb_refl|].
    intros s (s' & -> & Hs')%list_elem_of_fmap; simpl; by apply Hf.
Qed.

Lemma mapStep_again step f l : (∀ bs, f (f bs) = f bs) → mapStepBlocks f step (mapStepBlocks f step l) = mapStepBlocks f step l.
Proof.
  intros Hf; unfold mapStepBlocks; rewrite <- list_fmap_compose; apply list_fmap_ext; intros i s _; simpl.
  destruct (sd_step s =? step) eqn:E; simpl; rewrite E; [by rewrite Hf|done].
Qed.

Lemma blockEnd_index d b : draft_index (blockEndTerminal d b) = draft_index d.
Proof. by destruct b, d. Qed.

Lemma blockEnd_again d b : blockEndTerminal (blockEndTerminal d b) b = blockEndTerminal d b.
Proof. by destruct b, d. Qed.

Lemma on_index_again i f bs :
  (∀ d, draft_index (f d) = draft_index d) → (∀ d, f (f d) = f d) → on_index i f (on_index i f bs) = on_index i f bs.
Proof.
  intros Hi Hf; unfold on_index; rewrite <- list_fmap_compose; apply list_fmap_ext; intros j d _; simpl.
  destruct (draft_index d =? i) eqn:E; [by rewrite Hi, E, Hf|by rewrite E].
Qed.

(** *** Tool results *)

Lemma settle_content_again id st r b : settle_content id st r (settle_content id st r b) = settle_content id st r b.
Proof.
  destruct b as [| |c|]; try done; simpl.
  destruct (bool_decide (tc_toolId c = id) && bool_decide (tc_status c = TOOL_STATUS_RUNNING)) eqn:E; simpl;
    [|by rewrite E].
  by case_match.
Qed.

Lemma settle_content_id id st r b : running_call id b = false → settle_content id st r b = b.
Proof. destruct b as [| |c|]; try done; simpl; by intros ->. Qed.

Lemma existsb_false {A} (p : A → bool) l : existsb p l = false ↔ ∀ a, a ∈ l → p a = false.
Proof.
  induction l as [|a l IH]; simpl; [set_solver|].
  rewrite orb_false_iff, IH; set_solver.
Qed.

(** The guard of [settle_message] never matters. *)
Lemma settle_message_fmap id st r m :
  settle_message id st r m = set_blocks m (settle_content id st r <$> hm_blocks m).
Proof.
  unfold settle_message; destruct (existsb _ _) eqn:E; [done|].
  rewrite existsb_false in E; destruct m as [mid ro ct bl int]; unfold set_blocks; simpl in *; f_equal.
  symmetry; rewrite <- (list_fmap_id bl) at 2; apply list_fmap_ext; intros i b Hb.
  apply settle_content_id, E; by eapply list_elem_of_lookup_2.
Qed.

Lemma settle_message_again id st r m : settle_message id st r (settle_message id st r m) = settle_message id st r m.
Proof.
  rewrite !settle_message_fmap; unfold set_blocks; simpl; f_equal.
  apply fmap_again; intros; apply settle_content_again.
Qed.

Lemma settle_views_lookup id st r views m :
  settle_views id st r views !! m = (λ v : list MemberViewEntry, settle_view id st r <$> v) <$> views !! m.
Proof.
  unfold settle_views.
  assert (Hgen : ∀ ms vs, NoDup ms →
    fold_left (settleMemberHistory id st r) ms vs !! m =
    (if bool_decide (m ∈ ms) then (λ v : list MemberViewEntry, settle_view id st r <$> v) <$> vs !! m else vs !! m)).
  { induction ms as [|x ms IH]; intros vs Hnd; simpl; [done|].
    apply NoDup_cons in Hnd as [Hx Hnd]; rewrite IH by done; unfold settleMemberHistory.
    destruct (decide (x = m)) as [->|Hxm].
    - rewrite bool_decide_false, bool_decide_true by set_solver.
      destruct (vs !! m) eqn:E; rewrite ?E; [by rewrite lookup_insert_eq|done].
    - rewrite (bool_decide_ext (m ∈ ms) (m ∈ x :: ms)) by set_solver.
      destruct (vs !! x); [by rewrite lookup_insert_ne|done]. }
  rewrite Hgen by apply NoDup_fst_map_to_list.
  case_bool_decide as Hin; [done|].
  destruct (views !! m) as [v|] eqn:E; [|done]; exfalso; apply Hin, list_elem_of_fmap.
  exists (m, v); split; [done|]; by apply elem_of_map_to_list.
Qed.

Lemma settle_views_again id st r views : settle_views id st r (settle_views id st r views) = settle_views id st r views.
Proof.
  apply map_eq; intros m; rewrite !settle_views_lookup.
  destruct (views !! m) as [v|]; simpl; [|done]; f_equal; apply fmap_again.
  intros e; unfold settle_view; simpl; by rewrite settle_message_again.
Qed.

Lemma settleDraft_again id st r d : settleDraft id st r (settleDraft id st r d) = settleDraft id st r d.
Proof.
  destruct d as [|i tid name args s res]; [done|]; simpl.
  destruct (bool_decide (tid = id) && bool_decide (s = TOOL_STATUS_RUNNING)) eqn:E; simpl; [|by rewrite E].
  by case_match.
Qed.

Lemma tool_result_again s r : reduce_tool_result (reduce_tool_result s r) r = reduce_tool_result s r.
Proof.
  unfold reduce_tool_result; simpl; f_equal; [|apply settle_views_again|].
  - apply fmap_again; intros e; unfold settleHistoryEntry; simpl; by rewrite settle_message_again.
  - apply fmap_again; intros t; unfold settle_turn, with_steps; simpl; f_equal.
    apply fmap_again; intros d; simpl; f_equal; apply fmap_again; intros; apply settleDraft_again.
Qed.

(** *** Turn ends *)

Lemma delete_beyond {A} i (l : list A) : (length l ≤ i)%nat → delete i l = l.
Proof.
  revert i; induction l as [|a l IH]; intros [|i] Hi; simpl in Hi; try lia; try done.
  change (a :: delete i l = a :: l); by rewrite IH by lia.
Qed.

Lemma closeLiveTurn_live s i b : cs_live (closeLiveTurn s i b) = delete i (cs_live s).
Proof.
  unfold closeLiveTurn; destruct (cs_live s !! i) as [t|] eqn:Hi.
  - by case_bool_decide.
  - by rewrite delete_beyond by (by apply lookup_ge_None).
Qed.

Lemma fmap_delete {A B} (f : A → B) i (l : list A) : f <$> delete i l = delete i (f <$> l).
Proof.
  revert i; induction l as [|a l IH]; intros [|i]; try done.
  change (f a :: (f <$> delete i l) = f a :: delete i (f <$> l)); by rewrite IH.
Qed.

Lemma elem_of_delete_NoDup {A} (l : list A) i a : NoDup l → l !! i = Some a → a ∉ delete i l.
Proof.
  revert i; induction l as [|b l IH]; intros [|i] Hnd Hi; simpl in Hi; try done;
    apply NoDup_cons in Hnd as [Hb Hnd]; simplify_eq; [done|].
  change (a ∉ b :: delete i l); apply not_elem_of_cons; split; [|by apply IH].
  intros ->; by apply Hb, list_elem_of_lookup_2 with i.
Qed.

Lemma find_key_None (l : list (string * string)) k : k ∉ l → list_find (λ x, x = k) l = None.
Proof. intros H; apply list_find_None, Forall_forall; intros x Hx ->; done. Qed.

Lemma find_target_key s m t i :
  findLiveTurn s (Some m) t = Some i → keys s !! i = Some (m, t).
Proof.
  rewrite findLiveTurn_keys; simpl; intros H; apply fmap_Some in H as ([j k] & H & ->).
  by apply list_find_Some in H as (? & -> & _).
Qed.

(** A closed turn is not found again. *)
Lemma target_closed s s' e i :
  NoDup (keys s) → target s e = Some i → cs_live s' = delete i (cs_live s) → target s' e = None.
Proof.
  unfold target; intros Hnd Hi Hl.
  destruct (eventMember s e) as [m|] eqn:Hm; [|done].
  apply find_target_key in Hi.
  assert (Hk : keys s' = delete i (keys s)) by (unfold keys; by rewrite Hl, fmap_delete).
  destruct (eventMember s' e) as [m'|] eqn:Hm'; [|done].
  assert (m' = m) as ->.
  { unfold keys in Hi; unfold eventMember in Hm, Hm'; rewrite Hl in Hm'.
    destruct (ev_member e) as [x|]; [case_bool_decide; [congruence|]|];
      (destruct (cs_live s) as [|t [|]]; [done| |done]); simplify_eq;
      (assert (i = 0%nat) as -> by (apply lookup_lt_Some in Hi; simpl in Hi; lia)); done. }
  rewrite findLiveTurn_keys, Hk; simpl; rewrite find_key_None; [done|].
  by apply elem_of_delete_NoDup.
Qed.

Lemma with_error_twice s a : with_error (with_error s a) a = with_error s a.
Proof. done. Qed.

Definition close_target (s : ChatState) (e : ChatEvent) (interrupted : bool) : ChatState :=
  match target s e with None => s | Some i => closeLiveTurn s i interrupted end.

Lemma close_target_again s s' e b :
  NoDup (keys s) → cs_live s' = cs_live (close_target s e b) → close_target s' e b = s'.
Proof.
  intros Hnd Hl; unfold close_target in *; destruct (target s e) as [i|] eqn:Ht.
  - by rewrite (target_closed s s' e i Hnd Ht) by (by rewrite Hl, closeLiveTurn_live).
  - rewrite (target_keys s' s), Ht; [done|]; unfold keys; by rewrite Hl.
Qed.

Lemma turn_end_again s e t : NoDup (keys s) → reduce_turn_end (reduce_turn_end s e t) e t = reduce_turn_end s e t.
Proof.
  intros Hnd; unfold reduce_turn_end; fold (target s e).
  destruct (ChatWire.te_status t); try done.
  - apply (close_target_again s); [done|done].
  - set (err := Some _).
    change (with_error (close_target (with_error (close_target s e true) err) e true) err =
      with_error (close_target s e true) err).
    by rewrite (close_target_again s).
  - set (cancel := λ n, mkState (cs_history n) (cs_memberHistory n) (cs_live n) [] (cs_error n) true).
    change (cancel (close_target (cancel (close_target s e true)) e true) = cancel (close_target s e true)).
    by rewrite (close_target_again s).
Qed.

(** A frame that is no delta has no further effect when another stream brings it. *)
Lemma reduce_again ks s e k k' :
  sound ks s → fanned_out e = true → is_delta e = false →
  reduceEvent (reduceEvent s e "" k) e "" k' = reduceEvent s e "" k.
Proof.
  intros [Hk Hq _] Hf Hd; unfold reduceEvent, fanned_out, is_delta in *.
  destruct (ev_payload e) as [[| f | f | | b | | b | t | r]|]; try done.
  - destruct (seqOf _) as [n|] eqn:Hn; [|done]; by eapply team_message_again.
  - apply member_view_again; [by apply bool_decide_eq_true in Hf|done].
  - apply turn_start_again.
  - rewrite !block_start_edit; apply edit_again; intros; apply append_again.
  - rewrite !block_end_edit; apply edit_again; intros; apply mapStep_again; intros.
    apply on_index_again; intros; [apply blockEnd_index|apply blockEnd_again].
  - by apply turn_end_again.
  - apply tool_result_again.
Qed.

(** ** Owners are only read by deltas *)


Definition bare_edit (f : list StepDraft → list StepDraft) (t : LiveMemberTurn) : LiveMemberTurn :=
  mkLive (lt_member t) (lt_turnId t) (f (lt_steps t)) (lt_fixedSteps t) ∅.

Lemma fmap_alter_commute {A B} (g : A → B) (f : A → A) (h : B → B) i (l : list A) :
  (∀ a, g (f a) = h (g a)) → g <$> alter f i l = alter h i (g <$> l).
Proof.
  intros H; revert i; induction l as [|a l IH]; intros [|i]; try done.
  - change (g (f a) :: (g <$> l) = h (g a) :: (g <$> l)); by rewrite H.
  - change (g a :: (g <$> alter f i l) = g a :: alter h i (g <$> l)); by rewrite IH.
Qed.

Lemma erase_alter f key k i (l : list LiveMemberTurn) :
  erase_turn <$> alter (edit_turn f key k) i l = alter (bare_edit f) i (erase_turn <$> l).
Proof. by apply fmap_alter_commute. Qed.

Lemma erase_twice (l : list LiveMemberTurn) : erase_turn <$> (erase_turn <$> l) = erase_turn <$> l.
Proof. by apply fmap_again. Qed.

Lemma erase_edit s e f key k : erase (edit_target s e f key k) = erase (edit_target (erase s) e f key 0).
Proof.
  unfold edit_target; rewrite (target_keys (erase s) s) by apply keys_erase.
  destruct (target s e) as [i|]; [|by rewrite erase_erase].
  unfold erase, with_live; simpl; f_equal; by rewrite !erase_alter, erase_twice.
Qed.

Lemma has_live_erase s m : has_live (erase s) m = has_live s m.
Proof. unfold has_live; simpl; induction (cs_live s) as [|t l IH]; [done|]; simpl; by f_equal. Qed.

Lemma consume_erase (l : list LiveMemberTurn) m : erase_turn <$> consumeFixedStep (erase_turn <$> l) m = erase_turn <$> consumeFixedStep l m.
Proof. induction l as [|t l IH]; [done|]; simpl; case_bool_decide; simpl; f_equal; [|apply IH]. by rewrite <- list_fmap_compose. Qed.

Lemma close_erase s i b : erase (closeLiveTurn s i b) = erase (closeLiveTurn (erase s) i b).
Proof.
  unfold closeLiveTurn; simpl; rewrite list_lookup_fmap.
  destruct (cs_live s !! i) as [t|]; simpl; [|by rewrite erase_erase].
  case_bool_decide; unfold erase, with_live; simpl; f_equal;
    rewrite <- fmap_delete, <- list_fmap_compose; by apply list_fmap_ext.
Qed.

Lemma eventMember_erase s e : eventMember (erase s) e = eventMember s e.
Proof. apply eventMember_keys, keys_erase. Qed.

Lemma find_erase s m t : findLiveTurn (erase s) m t = findLiveTurn s m t.
Proof. by rewrite !findLiveTurn_keys, keys_erase. Qed.

Lemma reduce_erase s e k : is_delta e = false → erase (reduceEvent s e "" k) = reduce1 (erase s) e.
Proof.
  unfold reduce1, reduceEvent, is_delta; intros Hd.
  destruct (ev_payload e) as [[| f | f | | b | | b | t | r]|]; try done.
  - by rewrite <- (erase_erase (mkState _ _ (cs_live s) _ _ _)).
  - unfold reduce_team_message; rewrite has_live_erase; simpl.
    case_bool_decide; [by rewrite erase_erase|]; case_match; [by rewrite erase_erase|].
    unfold erase, with_live; simpl; f_equal; by rewrite consume_erase.
  - unfold reduce_member_view; simpl; case_bool_decide; [by rewrite erase_erase|].
    unfold erase, with_live; simpl; f_equal; symmetry; apply erase_twice.
  - unfold reduce_turn_start; rewrite eventMember_erase.
    destruct (eventMember s e); [|by rewrite erase_erase]; rewrite find_erase.
    destruct (findLiveTurn s _ _); [by rewrite erase_erase|].
    unfold erase, with_live; simpl; f_equal; rewrite !fmap_app; f_equal; symmetry; apply erase_twice.
  - rewrite !block_start_edit; apply erase_edit.
  - rewrite !block_end_edit; apply erase_edit.
  - unfold reduce_turn_end; rewrite eventMember_erase, find_erase; fold (target s e).
    destruct (ChatWire.te_status t), (target s e) as [i|]; rewrite ?erase_erase; try done;
      try apply close_erase;
      match goal with
      | |- context [closeLiveTurn s i true] => pose proof (close_erase s i true) as HE
      | _ => pose proof (erase_erase s) as HE
      end; unfold erase, with_error, with_live in *; simpl in *; injection HE; intros; f_equal; congruence.
  - unfold reduce_tool_result; simpl; unfold erase, with_live; simpl; f_equal.
    rewrite <- !list_fmap_compose; by apply list_fmap_ext.
  - by rewrite erase_erase.
Qed.

(** ** Deltas *)

Definition delta_key (d : BlockDeltaEvent) : string := blockKey (eventStep (bd_step d)) (bd_index d).
Definition delta_edit (d : BlockDeltaEvent) : list StepDraft → list StepDraft :=
  mapStepBlocks (on_index (bd_index d) (extend_draft (bd_text d))) (eventStep (bd_step d)).

(** The stream that owns the block of a key in the turn a frame addresses. *)
Definition owner_of (s : ChatState) (e : ChatEvent) (key : string) : option Z :=
  i ← target s e; t ← cs_live s !! i; lt_owners t !! key.

Lemma target_lookup s e i : target s e = Some i → ∃ t, cs_live s !! i = Some t.
Proof.
  unfold target; destruct (eventMember s e); [|done]; intros H; apply find_target_key in H.
  unfold keys in H; rewrite list_lookup_fmap in H; apply fmap_Some in H as (t & ? & _); eauto.
Qed.

Lemma delta_own s e d k :
  owner_of s e (delta_key d) = None ∨ owner_of s e (delta_key d) = Some k →
  reduce_delta s e d k = edit_target s e (delta_edit d) (delta_key d) k.
Proof.
  unfold owner_of, reduce_delta, edit_target; fold (target s e).
  destruct (target s e) as [i|]; [|done]; simpl; intros Ho; fold (delta_key d).
  destruct (cs_live s !! i ≫= λ t, lt_owners t !! delta_key d) as [o|] eqn:E.
  - rewrite bool_decide_false; [done|]. destruct Ho; [congruence|]. intros [_ ?]; congruence.
  - rewrite bool_decide_false; [done|]. intros [[? ?] _]; congruence.
Qed.

Lemma delta_foreign s e d k o :
  owner_of s e (delta_key d) = Some o → o ≠ k → reduce_delta s e d k = s.
Proof.
  unfold owner_of, reduce_delta; fold (target s e).
  destruct (target s e) as [i|]; [|done]; simpl; intros Ho Hne; fold (delta_key d).
  rewrite Ho, bool_decide_true; [done|]. split; [done|congruence].
Qed.

Lemma owner_after s e f key k :
  target s e ≠ None → owner_of s e key = None ∨ owner_of s e key = Some k →
  owner_of (edit_target s e f key k) e key = Some k.
Proof.
  intros Ht Ho; unfold owner_of at 1; rewrite (target_keys _ s) by apply keys_edit.
  unfold owner_of, edit_target in *; destruct (target s e) as [i|] eqn:Hi; [|done]; simpl in *.
  destruct (target_lookup s e i Hi) as [t Hl]; rewrite Hl in Ho; simpl in Ho.
  rewrite list_lookup_alter_eq, Hl; simpl; unfold claimBlock.
  destruct Ho as [Ho|Ho]; rewrite Ho; [by rewrite lookup_insert_eq|done].
Qed.

Lemma owner_erase s e key : owner_of (erase s) e key = None.
Proof.
  unfold owner_of; destruct (target (erase s) e) as [i|]; [|done]; simpl; rewrite list_lookup_fmap.
  by destruct (cs_live s !! i).
Qed.

Lemma reduce_delta_frame s e d k :
  ev_payload e = Some (Delta d) → reduceEvent s e "" k = reduce_delta s e d k.
Proof. intros Hp; unfold reduceEvent; by rewrite Hp. Qed.

(** The stream that applies a delta does so as a stream alone would. *)
Lemma delta_hit s e d k :
  ev_payload e = Some (Delta d) →
  owner_of s e (delta_key d) = None ∨ owner_of s e (delta_key d) = Some k →
  erase (reduceEvent s e "" k) = reduce1 (erase s) e.
Proof.
  intros Hp Hk; unfold reduce1; rewrite !(reduce_delta_frame _ _ d) by done.
  rewrite delta_own by done; rewrite delta_own by (left; apply owner_erase); apply erase_edit.
Qed.

(** Streams that do not own the block leave the state as it is, and so does a delta
    for no turn. *)
Lemma deliver_foreign s e d o ks :
  ev_payload e = Some (Delta d) → owner_of s e (delta_key d) = Some o → o ∉ ks → deliver s (e, ks) = s.
Proof.
  intros Hp Ho; unfold deliver; cbn [fst snd]; induction ks as [|k ks IH]; intros Hks; [done|]; cbn [fold_left].
  rewrite (reduce_delta_frame _ _ d), (delta_foreign _ _ _ _ o) by (done || set_solver); apply IH; set_solver.
Qed.

Lemma deliver_no_target s e d ks :
  ev_payload e = Some (Delta d) → target s e = None → deliver s (e, ks) = s.
Proof.
  intros Hp Ht; unfold deliver; cbn [fst snd]; induction ks as [|k ks IH]; [done|]; cbn [fold_left].
  rewrite (reduce_delta_frame _ _ d) by done; unfold reduce_delta; fold (target s e); rewrite Ht; apply IH.
Qed.

Lemma deliver_app s e ks1 ks2 : deliver s (e, ks1 ++ ks2) = deliver (deliver s (e, ks1)) (e, ks2).
Proof. unfold deliver; cbn [fst snd]; apply fold_left_app. Qed.

Lemma deliver_cons s e k ks : deliver s (e, k :: ks) = deliver (reduceEvent s e "" k) (e, ks).
Proof. done. Qed.

(** The streams before the one that applies a delta, and those after it. *)
Lemma deliver_around s e d ks1 k ks2 :
  ev_payload e = Some (Delta d) → k ∉ ks2 → deliver s (e, ks1) = s →
  owner_of s e (delta_key d) = None ∨ owner_of s e (delta_key d) = Some k →
  erase (deliver s (e, ks1 ++ k :: ks2)) = reduce1 (erase s) e.
Proof.
  intros Hp Hk H1 Hown; rewrite deliver_app, H1, deliver_cons, <- (delta_hit s e d k Hp Hown); f_equal.
  destruct (target s e) as [i|] eqn:Ht.
  - apply (deliver_foreign _ e d k); [done| |done].
    rewrite (reduce_delta_frame _ _ d), delta_own by done; apply owner_after; [by rewrite Ht|done].
  - apply (deliver_no_target _ e d); [done|].
    by rewrite <- Ht, (reduce_delta_frame _ _ d), delta_own by done; apply target_keys, keys_edit.
Qed.

Lemma deliver_delta s e d ks :
  ev_payload e = Some (Delta d) → NoDup ks → ks ≠ [] →
  (∀ o, owner_of s e (delta_key d) = Some o → o ∈ ks) →
  erase (deliver s (e, ks)) = reduce1 (erase s) e.
Proof.
  intros Hp Hnd Hne Ho; destruct (owner_of s e (delta_key d)) as [o|] eqn:Hown.
  - destruct (list_elem_of_split ks o (Ho o eq_refl)) as (ks1 & ks2 & ->).
    apply NoDup_app in Hnd as (_ & Hdis & Hnd); apply NoDup_cons in Hnd as [? _].
    apply (deliver_around _ _ d); [done|done| |auto]. eapply deliver_foreign; [done|done|set_solver].
  - destruct ks as [|k ks]; [done|]; apply NoDup_cons in Hnd as [? _].
    apply (deliver_around s e d [] k ks); auto.
Qed.

(** ** Soundness is kept *)

Definition live_sound (ks : list Z) (live : list LiveMemberTurn) : Prop :=
  NoDup (turn_key <$> live) ∧ ∀ t key k, t ∈ live → lt_owners t !! key = Some k → k ∈ ks.

Lemma sound_live ks s : sound ks s ↔ live_sound ks (cs_live s) ∧ NoDup (q_text <$> cs_queue s).
Proof. split; [intros [? ? ?]; done|intros [[? ?] ?]; by constructor]. Qed.

Lemma live_sound_map ks (f : LiveMemberTurn → LiveMemberTurn) live :
  (∀ t, turn_key (f t) = turn_key t) → (∀ t, lt_owners (f t) = lt_owners t) →
  live_sound ks live → live_sound ks (f <$> live).
Proof.
  intros Hk Ho [H1 H2]; split; [by rewrite fmap_fmap_same|].
  intros t key k (t' & -> & Ht')%list_elem_of_fmap; rewrite Ho; eauto.
Qed.

Lemma consume_keys (live : list LiveMemberTurn) m : turn_key <$> consumeFixedStep live m = turn_key <$> live.
Proof.
  induction live as [|t l IH]; [done|]; cbn [consumeFixedStep].
  by case_bool_decide; rewrite !fmap_cons; [|rewrite IH].
Qed.

Lemma live_sound_consume ks live m : live_sound ks live → live_sound ks (consumeFixedStep live m).
Proof.
  intros [H1 H2]; split.
  - by rewrite consume_keys.
  - intros t key k Ht; revert Ht; clear H1; induction live as [|x l IH]; [by intros ?%elem_of_nil|]; simpl.
    case_bool_decide; intros [->|Ht]%elem_of_cons; intros Hk.
    + by apply (H2 x key); [left|].
    + eapply H2; [right|]; done.
    + by apply (H2 x key); [left|].
    + apply IH; [|done|done]. intros; eapply H2; [right|]; done.
Qed.

Lemma live_sound_delete ks live i : live_sound ks live → live_sound ks (delete i live).
Proof.
  intros [H1 H2]; split.
  - rewrite fmap_delete; eapply sublist_NoDup; [done|apply sublist_delete].
  - intros t key k Ht; apply H2; by eapply elem_of_submseteq, sublist_submseteq, sublist_delete.
Qed.

Lemma sound_edit ks s e f key k : k ∈ ks → sound ks s → sound ks (edit_target s e f key k).
Proof.
  intros Hk Hs; pose proof Hs as [H1 H2 H3]; constructor.
  - by rewrite keys_edit.
  - unfold edit_target; by destruct (target s e).
  - unfold edit_target; destruct (target s e) as [i|]; [|done]; simpl.
    intros t key' k' Ht; apply list_elem_of_lookup in Ht as [j Hj].
    rewrite list_lookup_alter in Hj; case_decide; [|by eapply H3, list_elem_of_lookup_2].
    apply fmap_Some in Hj as (t' & Ht' & ->); simpl; unfold claimBlock.
    destruct (lt_owners t' !! key) eqn:E; [by eapply H3, list_elem_of_lookup_2|].
    rewrite lookup_insert_Some; intros [[_ <-]|[_ Ho]]; [done|by eapply H3; [eapply list_elem_of_lookup_2|]].
Qed.

Lemma close_sound ks s i b : sound ks s → sound ks (closeLiveTurn s i b).
Proof.
  rewrite !sound_live; intros [Hl Hq]; split; [rewrite closeLiveTurn_live; by apply live_sound_delete|].
  unfold closeLiveTurn; destruct (cs_live s !! i); [|done]; by case_bool_decide.
Qed.

Lemma turn_start_sound ks s e : sound ks s → sound ks (reduce_turn_start s e).
Proof.
  intros Hs; pose proof Hs as [H1 H2 H3]; unfold reduce_turn_start.
  destruct (eventMember s e) as [m|]; [|done].
  destruct (findLiveTurn s (Some m) _) as [i|] eqn:Hf; [done|].
  apply sound_live; split; [|done]; split.
  - cbn [cs_live]; rewrite fmap_app; apply NoDup_app; split_and!; [done| |apply NoDup_singleton].
    intros x Hx ->%list_elem_of_singleton; rewrite findLiveTurn_keys in Hf; simpl in Hf.
    apply fmap_None, list_find_None in Hf; rewrite Forall_forall in Hf; by apply (Hf _ Hx).
  - intros t key k [Ht| ->%list_elem_of_singleton]%elem_of_app Hk; [by eapply H3|].
    simpl in Hk; by rewrite lookup_empty in Hk.
Qed.

Lemma member_view_sound ks s f : sound ks s → sound ks (reduce_member_view s f).
Proof.
  rewrite !sound_live; intros [Hl Hq]; unfold reduce_member_view; case_bool_decide; [done|]; split; [done|]; simpl.
  case_bool_decide; [|done]; by apply remove_text_NoDup.
Qed.

Lemma reduce_sound ks s e k : k ∈ ks → fanned_out e = true → sound ks s → sound ks (reduceEvent s e "" k).
Proof.
  intros Hk Hf Hs; pose proof Hs as Hs'; apply sound_live in Hs' as [Hl Hq].
  unfold reduceEvent, fanned_out in *.
  destruct (ev_payload e) as [[| f | f | | b | d | b | t | r]|] eqn:Hp; try done.
  - unfold reduce_team_message; case_bool_decide; [done|]; destruct (known_seq _ _); [done|].
    apply sound_live; split; [by apply live_sound_consume|done].
  - by apply member_view_sound.
  - by apply turn_start_sound.
  - rewrite block_start_edit; by apply sound_edit.
  - destruct (owner_of s e (delta_key d)) as [o|] eqn:Ho; [destruct (decide (o = k)) as [->|Hne]|].
    + rewrite delta_own by auto; by apply sound_edit.
    + by erewrite delta_foreign.
    + rewrite delta_own by auto; by apply sound_edit.
  - rewrite block_end_edit; by apply sound_edit.
  - assert (Hc : ∀ b, sound ks (close_target s e b))
      by (intros; unfold close_target; destruct (target s e); [by apply close_sound|done]).
    unfold reduce_turn_end; fold (target s e); destruct (ChatWire.te_status t); try done.
    + apply (Hc false).
    + destruct (Hc true); by constructor.
    + constructor; [apply NoDup_nil_2|apply NoDup_nil_2|]. intros ? ? ? ?%elem_of_nil; done.
    + destruct (Hc true); constructor; try done; apply NoDup_nil_2.
  - apply sound_live; split; [by apply live_sound_map|done].
Qed.

Lemma deliver_sound ks s e ks' :
  ks' ⊆ ks → fanned_out e = true → sound ks s → sound ks (deliver s (e, ks')).
Proof.
  revert s; induction ks' as [|k ks' IH]; intros s Hsub Hf Hs; [done|].
  rewrite deliver_cons; apply IH; [set_solver|done|]; apply reduce_sound; [set_solver|done|done].
Qed.

(** A frame that is no delta, delivered by several streams. *)
Lemma deliver_other ks s e k ks' :
  sound ks s → k ∈ ks → ks' ⊆ ks → fanned_out e = true → is_delta e = false →
  deliver s (e, k :: ks') = reduceEvent s e "" k.
Proof.
  intros Hs Hk Hsub Hf Hd; rewrite deliver_cons.
  induction ks' as [|k' ks' IH]; [done|]; rewrite deliver_cons.
  rewrite (reduce_again ks) by done; apply IH; set_solver.
Qed.

Lemma deliver_once ks s e ks' :
  sound ks s → ks' ≡ₚ ks → NoDup ks → ks ≠ [] → fanned_out e = true →
  erase (deliver s (e, ks')) = reduce1 (erase s) e.
Proof.
  intros Hs Hperm Hnd Hne Hf.
  assert (Hin : ∀ k, k ∈ ks' ↔ k ∈ ks) by (intros k; by rewrite Hperm).
  assert (Hne' : ks' ≠ []) by (intros ->; by apply Permutation_nil_l in Hperm).
  destruct (is_delta e) eqn:Hd.
  - unfold is_delta in Hd; destruct (ev_payload e) as [[]|] eqn:Hp; try done.
    eapply deliver_delta; [done|by rewrite Hperm|done|].
    intros o Ho; apply Hin; unfold owner_of in Ho.
    destruct (target s e) as [i|]; [|done]; simpl in Ho.
    destruct (cs_live s !! i) as [t|] eqn:Ht; [|done]; simpl in Ho.
    eapply so_owners; [done|by eapply list_elem_of_lookup_2|done].
  - destruct ks' as [|k ks']; [done|].
    rewrite (deliver_other ks); [by apply reduce_erase|done|apply Hin; by left| |done|done].
    intros x Hx; apply Hin; by right.
Qed.

(** C10: As long as every frame has arrived on all the streams before the next one
    arrives on any, and from a state with one draft per turn, no text twice in the
    queue and blocks owned by these streams (the initial state is one), frames fanned
    out on several streams take effect once: whatever the order in which each frame
    reaches the client on the streams, the conversation is the one a single stream
    would give; only the bookkeeping of block owners differs.
    A stream that lags behind does repeat effects ([lagging_turn_reopens],
    [repeated_view_drops_chip]). *)
Theorem fan_out_exactly_once (ks : list Z) (s : ChatState) (frames : list (ChatEvent * list Z)) :
  sound ks s → NoDup ks → ks ≠ [] →
  Forall (λ p, fanned_out p.1 = true ∧ p.2 ≡ₚ ks) frames →
  erase (fold_left deliver frames s) = fold_left reduce1 (frames.*1) (erase s).
Proof.
  intros Hs Hnd Hne Hf; revert s Hs; induction Hf as [|[e ks'] frames [Hf Hp] _ IH]; intros s Hs; [done|].
  rewrite fmap_cons; cbn [fold_left fst snd] in *.
  rewrite IH; [by rewrite (deliver_once ks)|].
  apply deliver_sound; [|done|done]; intros k; by rewrite Hp.
Qed.

Lemma fan_out_exactly_once_witness :
  let frame p := mkChatEvent None (Some "t1") (Some "player") (Some p) in
  let frames := [(frame TurnStart, [1; 2]);
    (frame (BlockStart (mkBlockStart 0 BLOCK_TYPE_TEXT None None (Some 1))), [2; 1]);
    (frame (Delta (mkDelta 0 "he" (Some 1))), [1; 2]); (frame (Delta (mkDelta 0 "y" (Some 1))), [2; 1])] in
  lt_steps <$> cs_live (fold_left deliver frames EMPTY_STATE) = [[mkStep 1 [TextDraft 0 TEXT "hey"] false]] ∧
  erase (fold_left deliver frames EMPTY_STATE) = fold_left reduce1 (frames.*1) (erase EMPTY_STATE).
Proof.
  split; [vm_compute; reflexivity|].
  apply (fan_out_exactly_once [1; 2] EMPTY_STATE); [|apply (bool_decide_unpack _); vm_compute; reflexivity|done|].
  - constructor; [apply NoDup_nil_2|apply NoDup_nil_2|by intros ? ? ? ?%elem_of_nil].
  - repeat (apply Forall_cons; split; [split; [reflexivity|]; cbn [snd]; try reflexivity; apply perm_swap|]); apply Forall_nil; done.
Defined.

(** The order of arrival matters: a turn that has ended is opened again by its start
    that arrives late on another stream. *)
Lemma lagging_turn_reopens :
  let frame p := mkChatEvent None (Some "t1") (Some "player") (Some p) in
  let start := frame TurnStart in
  let ended := frame (TurnEnd (mkTurnEnd TURN_STATUS_COMPLETED None None)) in
  cs_live (fold_left deliver [(start, [1; 2]); (ended, [1; 2])] EMPTY_STATE) = [] ∧
  length (cs_live (fold_left deliver [(start, [1]); (ended, [1]); (start, [2])] EMPTY_STATE)) = 1%nat.
Proof. vm_compute; auto. Qed.

(** The guard on the queue is needed: the chip of a queued message is taken out once
    per stream, although the view is guarded by the identity of the message.  With
    two chips of one text and two streams, one consumption removes both. *)
Lemma repeated_view_drops_chip :
  let chips := [mkQueued "go" 1; mkQueued "go" 2] in
  let s := mkState [] ∅ [] chips None false in
  let m := mkHistoryMessage (Some "m5") ROLE_USER None [TextBlock "go"] None in
  let e := mkChatEvent None None None (Some (MemberViewFrame (mkMemberViewEvent (Some "player") (Some "user") m))) in
  cs_queue (deliver s (e, [1])) = [mkQueued "go" 2] ∧ cs_queue (deliver s (e, [1; 2])) = [] ∧
  cs_memberHistory (deliver s (e, [1])) = cs_memberHistory (deliver s (e, [1; 2])).
Proof. vm_compute; auto. Qed.

(** ** The store *)

Inductive store_op : Type :=
| StSend (text : string)
| StEvent (streamId : Z) (e : ChatEvent)
| StEnd (streamId : Z)
| StFail (streamId : Z) (message : string)
| StInject (e : ChatEvent)
| StLoad (messages : list TeamMessage)
| StLoadMember (member : string) (messages : list (HistoryMessage * option string))
| StClearMembers.

Definition store_step (c : ChatStore) (op : store_op) : ChatStore :=
  match op with
  | StSend text => (send_start c text).1
  | StEvent k e => send_event c k e
  | StEnd k => send_end c k
  | StFail k m => send_error c k m
  | StInject e => store_applyEvent c e
  | StLoad ms => loadHistory c ms
  | StLoadMember m ms => loadMemberHistory c m ms
  | StClearMembers => clearMemberHistory c
  end.

Definition store_run (c : ChatStore) (ops : list store_op) : ChatStore := fold_left store_step ops c.

(** An entry marked open belongs to a member with a live turn; a projection is never
    marked; turns have distinct keys and consolidate no more steps than they have. *)
Record chat_inv (s : ChatState) : Prop := {
  ci_history : ∀ e, e ∈ cs_history s → te_open e = true → te_projected e = false ∧ has_live s (te_member e) = true;
  ci_views : ∀ m view e, cs_memberHistory s !! m = Some view → e ∈ view → me_open e = true →
    me_projected e = false ∧ has_live s m = true;
  ci_keys : NoDup (keys s);
  ci_fixed : ∀ t, t ∈ cs_live s → (lt_fixedSteps t ≤ length (lt_steps t))%nat;
}.

Lemma has_live_spec s m : has_live s m = true ↔ ∃ t, t ∈ cs_live s ∧ lt_member t = m.
Proof.
  unfold has_live; rewrite existsb_exists; setoid_rewrite <- list_elem_of_In.
  split; intros (t & ? & H); exists t; split; [done|by apply bool_decide_eq_true in H|done|by apply bool_decide_eq_true].
Qed.

Lemma has_live_keys s m : has_live s m = true ↔ m ∈ (keys s).*1.
Proof.
  rewrite has_live_spec; unfold keys; rewrite <- list_fmap_compose, list_elem_of_fmap.
  split; intros (t & H1 & H2); exists t; [by subst|done].
Qed.

(** What stays when only the drafts inside the turns change. *)
Lemma chat_inv_live s live :
  chat_inv s → turn_key <$> live = keys s →
  (∀ t, t ∈ live → (lt_fixedSteps t ≤ length (lt_steps t))%nat) → chat_inv (with_live s live).
Proof.
  intros [H1 H2 H3 H4] Hk Hf.
  assert (Hl : ∀ m, has_live s m = true → has_live (with_live s live) m = true).
  { intros m; rewrite !has_live_keys; unfold keys at 2; simpl; by rewrite Hk. }
  constructor; simpl; [| |by unfold keys; simpl; rewrite Hk|done].
  - intros e He Ho; destruct (H1 e He Ho); auto.
  - intros m view e Hv He Ho; destruct (H2 m view e Hv He Ho); auto.
Qed.

Lemma fixed_map (f : LiveMemberTurn → LiveMemberTurn) (live : list LiveMemberTurn) :
  (∀ t, t ∈ live → (lt_fixedSteps t ≤ length (lt_steps t))%nat) →
  (∀ t, lt_fixedSteps (f t) = lt_fixedSteps t) → (∀ t, (length (lt_steps t) ≤ length (lt_steps (f t)))%nat) →
  ∀ t, t ∈ f <$> live → (lt_fixedSteps t ≤ length (lt_steps t))%nat.
Proof.
  intros H Hf Hl t (t' & -> & Ht)%list_elem_of_fmap; rewrite Hf; specialize (H t' Ht); specialize (Hl t'); lia.
Qed.

Lemma length_appendBlockStart l step d : (length l ≤ length (appendBlockStart l step d))%nat.
Proof.
  unfold appendBlockStart; destruct (list_find _ l) as [[i g]|].
  - destruct (existsb _ _); [done|]; by rewrite length_fmap.
  - rewrite length_app, length_fmap; simpl; lia.
Qed.

Lemma chat_inv_edit s e f key k :
  (∀ l, (length l ≤ length (f l))%nat) → chat_inv s → chat_inv (edit_target s e f key k).
Proof.
  intros Hf Hs; unfold edit_target; destruct (target s e) as [i|]; [|done].
  apply chat_inv_live; [done|by apply fmap_alter_same|].
  intros t Ht; apply list_elem_of_lookup in Ht as [j Hj]; rewrite list_lookup_alter in Hj.
  destruct Hs as [_ _ _ H4]; case_decide.
  - apply fmap_Some in Hj as (t' & Ht' & ->); simpl.
    specialize (H4 t' (list_elem_of_lookup_2 _ _ _ Ht')); specialize (Hf (lt_steps t')); lia.
  - apply H4; by eapply list_elem_of_lookup_2.
Qed.

Lemma replace_projected_cases {E} (p : E → bool) x l l' y :
  replace_projected p x l = Some l' → y ∈ l' → y = x ∨ y ∈ l.
Proof.
  revert l'; induction l as [|z l IH]; intros l' H Hy; simpl in H; [done|].
  case_match; simplify_eq; [set_solver|]; apply fmap_Some in H as (k & Hk & ->).
  apply elem_of_cons in Hy as [->|Hy]; [set_solver|]; destruct (IH k Hk Hy); set_solver.
Qed.

Lemma appendMemberView_cases views m msg open m' view' e :
  appendMemberView views m msg open !! m' = Some view' → e ∈ view' →
  (∃ view, views !! m' = Some view ∧ e ∈ view) ∨ (m' = m ∧ me_projected e = false ∧ (me_open e = true → open = true)).
Proof.
  unfold appendMemberView; destruct (holds_message _ _); [eauto|].
  rewrite lookup_insert_Some; intros [[<- <-]|[_ Hv]] He; [|eauto].
  assert (Hold : e ∈ view_of views m → ∃ view, views !! m = Some view ∧ e ∈ view).
  { unfold view_of; destruct (views !! m) as [v|]; simpl; [eauto|by intros ?%elem_of_nil]. }
  destruct (replace_projected _ _ _) as [v|] eqn:Hr.
  - destruct (replace_projected_cases _ _ _ _ _ Hr He) as [->|?]; [right; done|auto].
  - apply elem_of_app in He as [He| ->%list_elem_of_singleton]; [auto|right; done].
Qed.

Lemma consume_fixed (live : list LiveMemberTurn) m :
  (∀ t, t ∈ live → (lt_fixedSteps t ≤ length (lt_steps t))%nat) →
  ∀ t, t ∈ consumeFixedStep live m → (lt_fixedSteps t ≤ length (lt_steps t))%nat.
Proof.
  induction live as [|x l IH]; intros H t Ht; [by apply elem_of_nil in Ht|]; cbn [consumeFixedStep] in Ht.
  case_bool_decide as Hx; apply elem_of_cons in Ht as [->|Ht]; [apply Nat.le_min_r| | |];
    [apply H; by right|apply H; by left|apply IH; [intros; apply H; by right|done]].
Qed.

Lemma chat_inv_team_message s f : chat_inv s → chat_inv (reduce_team_message s f).
Proof.
  intros Hs; unfold reduce_team_message; case_bool_decide; [done|]; destruct (known_seq _ _); [done|].
  set (member := default "" (tm_member f)) in *; set (open := bool_decide (member ≠ USER_MEMBER) && has_live s member).
  assert (Hopen : open = true → has_live s member = true) by (subst open; intros [_ ?]%andb_true_iff; done).
  assert (Hs' : chat_inv (with_live s (consumeFixedStep (cs_live s) member))).
  { apply chat_inv_live; [done|apply consume_keys|apply consume_fixed, Hs]. }
  assert (Hl : ∀ m, has_live s m = true → has_live (with_live s (consumeFixedStep (cs_live s) member)) m = true).
  { intros m; rewrite !has_live_keys; unfold keys; simpl; by rewrite consume_keys. }
  pose proof Hs' as [H1 H2 H3 H4]; constructor; [| |done|done].
  - intros e He Ho; cbn [cs_history] in He.
    destruct (replace_projected _ _ _) as [h|] eqn:Hr.
    + destruct (replace_projected_cases _ _ _ _ _ Hr He) as [->|?]; [done|by apply H1].
    + apply elem_of_insertBySeq in He as [->|He]; [|by apply H1]; split; [done|apply Hl; auto].
  - intros m view e Hv He Ho; cbn [cs_memberHistory] in Hv; case_bool_decide; [by eapply H2|].
    destruct (appendMemberView_cases _ _ _ _ _ _ _ Hv He) as [(v & ? & ?)|(-> & ? & ?)]; [by eapply H2|split; [done|apply Hl; auto]].
Qed.

Lemma chat_inv_member_view s f : chat_inv s → chat_inv (reduce_member_view s f).
Proof.
  intros [H1 H2 H3 H4]; unfold reduce_member_view; case_bool_decide; [by constructor|].
  constructor; [done| |done|done]; intros m view e Hv He Ho; cbn [cs_memberHistory] in Hv.
  unfold appendMemberInputView in Hv; destruct (holds_message _ _); [by eapply H2|].
  apply lookup_insert_Some in Hv as [[<- <-]|[_ Hv]]; [|by eapply H2].
  apply elem_of_app in He as [He| ->%list_elem_of_singleton]; [|done].
  unfold view_of in He; destruct (cs_memberHistory s !! _) as [v|] eqn:E; [by eapply H2|by apply elem_of_nil in He].
Qed.

Lemma chat_inv_turn_start s e : chat_inv s → chat_inv (reduce_turn_start s e).
Proof.
  intros Hs; unfold reduce_turn_start; destruct (eventMember s e) as [m|]; [|done].
  destruct (findLiveTurn s (Some m) _) as [i|] eqn:Hf; [done|].
  set (t0 := mkLive m _ [] 0 ∅); destruct Hs as [H1 H2 H3 H4].
  assert (Hl : ∀ m', has_live s m' = true → has_live (with_live s (cs_live s ++ [t0])) m' = true).
  { intros m'; rewrite !has_live_spec; intros (t & ? & ?); exists t; split; [simpl; apply elem_of_app; auto|done]. }
  constructor.
  - intros e' He Ho; destruct (H1 e' He Ho); split; [done|by apply Hl].
  - intros m' view e' Hv He Ho; destruct (H2 m' view e' Hv He Ho); split; [done|by apply Hl].
  - unfold keys; cbn [cs_live]; rewrite fmap_app; apply NoDup_app; split_and!; [done| |apply NoDup_singleton].
    intros x Hx ->%list_elem_of_singleton; rewrite findLiveTurn_keys in Hf; simpl in Hf.
    apply fmap_None, list_find_None in Hf; rewrite Forall_forall in Hf; by apply (Hf _ Hx).
  - intros t [Ht| ->%list_elem_of_singleton]%elem_of_app; [by apply H4|simpl; lia].
Qed.

Lemma project_from_marks seq m ms e : e ∈ project_from seq m ms → te_projected e = true ∧ te_open e = false.
Proof.
  revert seq; induction ms as [|x ms IH]; intros seq He; simpl in He; [by apply elem_of_nil in He|].
  apply elem_of_cons in He as [->|He]; [done|by eapply IH].
Qed.

Lemma elem_of_delete_other (live : list LiveMemberTurn) i t t' :
  live !! i = Some t → t' ∈ live → lt_member t' ≠ lt_member t → t' ∈ delete i live.
Proof.
  revert i; induction live as [|x l IH]; intros [|i] Hi Ht Hne; simpl in Hi; simplify_eq.
  - apply elem_of_cons in Ht as [->|Ht]; [done|exact Ht].
  - change (t' ∈ x :: delete i l); apply elem_of_cons in Ht as [->|Ht]; [by left|right; by eapply IH].
Qed.

(** The marks that survive the end of a turn of [m] are those of other members. *)
Lemma clearMemberOpen_marks s m :
  chat_inv s →
  (∀ e, e ∈ cs_history (clearMemberOpen s m) → te_open e = true →
     te_projected e = false ∧ has_live s (te_member e) = true ∧ te_member e ≠ m) ∧
  (∀ m' view e, cs_memberHistory (clearMemberOpen s m) !! m' = Some view → e ∈ view → me_open e = true →
     me_projected e = false ∧ has_live s m' = true ∧ m' ≠ m).
Proof.
  intros [H1 H2 _ _]; split.
  - intros e He Ho; cbn [clearMemberOpen cs_history] in He.
    apply list_elem_of_fmap in He as (e' & -> & He'); case_bool_decide as Hm; [done|].
    destruct (H1 e' He' Ho); auto.
  - intros m' view e Hv He Ho; cbn [clearMemberOpen cs_memberHistory] in Hv.
    assert (Hclear : ∀ v : list MemberViewEntry, e ∈ clear_view_open <$> v → False)
      by (intros v (e' & -> & _)%list_elem_of_fmap; done).
    destruct (decide (m' = m)) as [->|Hm].
    + destruct (cs_memberHistory s !! m) as [v|] eqn:E; [|congruence].
      rewrite lookup_insert_eq in Hv; simplify_eq; exfalso; by eapply Hclear.
    + destruct (cs_memberHistory s !! m) as [v|]; [rewrite lookup_insert_ne in Hv by done|];
        destruct (H2 m' view e Hv He Ho); auto.
Qed.

Lemma chat_inv_close s i b : chat_inv s → chat_inv (closeLiveTurn s i b).
Proof.
  intros Hs; destruct (cs_live s !! i) as [t|] eqn:Ht; [|unfold closeLiveTurn; by rewrite Ht].
  destruct (clearMemberOpen_marks s (lt_member t) Hs) as [C1 C2].
  pose proof (closeLiveTurn_live s i b) as Hlive.
  assert (Hl : ∀ s' m', cs_live s' = delete i (cs_live s) → has_live s m' = true → m' ≠ lt_member t → has_live s' m' = true).
  { intros s' m' Hl; rewrite !has_live_spec; intros (t' & Hin & Hm) Hne; exists t'; split; [|done].
    rewrite Hl; eapply elem_of_delete_other; [done|done|by rewrite Hm]. }
  destruct Hs as [_ _ H3 H4]; constructor.
  - intros e He Ho.
    assert (e ∈ cs_history (clearMemberOpen s (lt_member t)) → te_projected e = false ∧ has_live (closeLiveTurn s i b) (te_member e) = true) as Hold.
    { intros Hin; destruct (C1 e Hin Ho) as (? & ? & ?); split; [done|by apply Hl]. }
    unfold closeLiveTurn in He; rewrite Ht in He; case_bool_decide; [by apply Hold|].
    apply elem_of_app in He as [He|He]; [by apply Hold|].
    destruct (project_from_marks _ _ _ _ He); congruence.
  - intros m' view e Hv He Ho.
    assert (∀ v, cs_memberHistory (clearMemberOpen s (lt_member t)) !! m' = Some v → e ∈ v →
      me_projected e = false ∧ has_live (closeLiveTurn s i b) m' = true) as Hold.
    { intros v Hin Hev; destruct (C2 m' v e Hin Hev Ho) as (? & ? & ?); split; [done|by apply Hl]. }
    unfold closeLiveTurn in Hv; rewrite Ht in Hv; case_bool_decide; [by eapply Hold|].
    cbn [cs_memberHistory] in Hv; unfold projectMemberTail in Hv.
    apply lookup_insert_Some in Hv as [[<- <-]|[_ Hv]]; [|by eapply Hold].
    apply elem_of_app in He as [He|(? & -> & _)%list_elem_of_fmap]; [|done].
    unfold view_of in He; destruct (cs_memberHistory (clearMemberOpen s _) !! _) as [v|] eqn:E;
      [by eapply Hold|by apply elem_of_nil in He].
  - unfold keys; rewrite Hlive, fmap_delete; eapply sublist_NoDup; [done|apply sublist_delete].
  - rewrite Hlive; intros t' Ht'; apply H4; by eapply elem_of_submseteq, sublist_submseteq, sublist_delete.
Qed.

Lemma chat_inv_flags s q e c :
  chat_inv s → chat_inv (mkState (cs_history s) (cs_memberHistory s) (cs_live s) q e c).
Proof. intros [H1 H2 H3 H4]; by constructor. Qed.

Lemma chat_inv_tool_result s r : chat_inv s → chat_inv (reduce_tool_result s r).
Proof.
  intros Hs; pose proof Hs as [H1 H2 H3 H4].
  assert (Hk : keys (reduce_tool_result s r) = keys s) by (by apply fmap_fmap_same).
  assert (Hl : ∀ m, has_live s m = true → has_live (reduce_tool_result s r) m = true)
    by (intros m; by rewrite !has_live_keys, Hk).
  constructor; [| |by rewrite Hk|].
  - intros e (e' & -> & He')%list_elem_of_fmap Ho; destruct (H1 e' He' Ho); split; [done|by apply Hl].
  - intros m view e Hv He Ho; cbn [reduce_tool_result cs_memberHistory] in Hv; rewrite settle_views_lookup in Hv.
    apply fmap_Some in Hv as (v & Hv & ->); apply list_elem_of_fmap in He as (e' & -> & He').
    destruct (H2 m v e' Hv He' Ho); split; [done|by apply Hl].
  - cbn [reduce_tool_result cs_live]; apply fixed_map; [done|done|].
    intros t; simpl; by rewrite length_fmap.
Qed.

Lemma chat_inv_empty : chat_inv EMPTY_STATE.
Proof.
  constructor; [by intros ? ?%elem_of_nil|intros ? ? ? Hv; simpl in Hv; by rewrite lookup_empty in Hv|apply NoDup_nil_2|by intros ? ?%elem_of_nil].
Qed.

Lemma chat_inv_turn_end s e t : chat_inv s → chat_inv (reduce_turn_end s e t).
Proof.
  intros Hs; unfold reduce_turn_end; fold (target s e).
  assert (Hc : ∀ b, chat_inv (close_target s e b))
    by (intros; unfold close_target; destruct (target s e); [by apply chat_inv_close|done]).
  destruct (ChatWire.te_status t); [done|apply (Hc false)|apply (chat_inv_flags _ _ _ _ (Hc true))
    |apply chat_inv_empty|apply (chat_inv_flags _ _ _ _ (Hc true))].
Qed.

Lemma length_mapStepBlocks f step l : (length l ≤ length (mapStepBlocks f step l))%nat.
Proof. unfold mapStepBlocks; by rewrite length_fmap. Qed.

(** The reducer preserves the invariant, whatever frame comes on whatever stream. *)
Lemma chat_inv_reduce s e q k : chat_inv s → chat_inv (reduceEvent s e q k).
Proof.
  intros Hs; unfold reduceEvent; destruct (ev_payload e) as [[| f | f | | b | d | b | t | r]|]; [| | | | | | | | |done].
  - by apply chat_inv_flags.
  - by apply chat_inv_team_message.
  - by apply chat_inv_member_view.
  - by apply chat_inv_turn_start.
  - rewrite block_start_edit; apply chat_inv_edit; [intros; apply length_appendBlockStart|done].
  - destruct (owner_of s e (delta_key d)) as [o|] eqn:Ho; [destruct (decide (o = k)) as [->|Hne]|].
    + rewrite delta_own by auto; apply chat_inv_edit; [intros; apply length_mapStepBlocks|done].
    + by erewrite delta_foreign.
    + rewrite delta_own by auto; apply chat_inv_edit; [intros; apply length_mapStepBlocks|done].
  - rewrite block_end_edit; apply chat_inv_edit; [intros; apply length_mapStepBlocks|done].
  - by apply chat_inv_turn_end.
  - by apply chat_inv_tool_result.
Qed.

Lemma close_turn_head b s t live : cs_live s = t :: live → close_turn b s t = closeLiveTurn s 0 b.
Proof.
  intros Hl; unfold close_turn; rewrite Hl; simpl; by rewrite decide_True.
Qed.

(** Closing the pending turns takes them one by one from the front. *)
Lemma close_turns_ind (P : ChatState → Prop) b s :
  (∀ s, P s → P (closeLiveTurn s 0 b)) → P s → P (fold_left (close_turn b) (cs_live s) s).
Proof.
  intros Hstep; remember (cs_live s) as live eqn:Hl; revert s Hl.
  induction live as [|t live IH]; intros s Hl Hs; [done|]; cbn [fold_left].
  rewrite (close_turn_head b s t live) by done; apply IH; [|by apply Hstep].
  by rewrite closeLiveTurn_live, <- Hl.
Qed.

Lemma chat_inv_drop_open s history views q e c :
  (∀ x, x ∈ history → te_open x = false) → (∀ m v x, views !! m = Some v → x ∈ v → me_open x = false) →
  chat_inv s → chat_inv (mkState history views [] q e c).
Proof.
  intros Hh Hv _; constructor.
  - intros x Hx Ho; rewrite Hh in Ho; done.
  - intros m v x Hm Hx Ho; by rewrite (Hv m v) in Ho.
  - apply NoDup_nil_2.
  - by intros ? ?%elem_of_nil.
Qed.

Lemma elem_of_sort_entries l x : x ∈ sort_entries l → x ∈ l.
Proof.
  assert (Hins : ∀ e k, x ∈ insert_sorted e k → x = e ∨ x ∈ k).
  { intros e k; induction k as [|y k IH]; simpl; [set_solver|]; case_match; set_solver. }
  induction l as [|y l IH]; [done|]; simpl; intros H; destruct (Hins _ _ H); set_solver.
Qed.

Lemma store_run_inv (c : ChatStore) (ops : list store_op) :
  chat_inv (st_state c) → chat_inv (st_state (store_run c ops)).
Proof.
  unfold store_run; revert c; induction ops as [|op ops IH]; intros c Hc; [done|]; apply IH; clear IH.
  assert (Hcons : ∀ k, st_state (consume_if_needed c k) = st_state c)
    by (intros k; unfold consume_if_needed; by destruct (is_consumed c k)).
  assert (Hrel : ∀ c' k, chat_inv (st_state c') → chat_inv (st_state (releaseStreamOwnership c' k))).
  { intros c' k Hs; apply chat_inv_live; [done|by apply fmap_fmap_same|].
    apply fixed_map; [apply Hs|done|done]. }
  assert (Hclose : ∀ c', chat_inv (st_state c') → chat_inv (st_state (closePendingTurns c' true)))
    by (intros c' Hs; simpl; apply close_turns_ind; [intros; by apply chat_inv_close|done]).
  destruct op as [text|k e|k|k m|e|ms|m ms|]; simpl.
  - done.
  - unfold send_event; destruct (ev_payload e) as [[]|]; simpl; rewrite ?Hcons; by apply chat_inv_reduce.
  - unfold send_end; case_match; [apply Hclose|apply Hrel]; by rewrite Hcons.
  - unfold send_error; case_match; [|apply Hrel; by rewrite Hcons].
    apply chat_inv_flags, Hclose; by rewrite Hcons.
  - by apply chat_inv_reduce.
  - eapply chat_inv_drop_open; [| |done].
    + intros x Hx%elem_of_sort_entries; apply list_elem_of_omap in Hx as (y & _ & Hy).
      unfold listed_entry in Hy; case_bool_decide; by simplify_eq.
    + intros m v x; unfold clearAllMemberOpen; rewrite lookup_fmap.
      intros (w & _ & ->)%fmap_Some (y & -> & _)%list_elem_of_fmap; done.
  - destruct Hc as [H1 H2 H3 H4]; constructor; [done| |done|done].
    intros m' v e; cbn [with_views cs_memberHistory]; rewrite lookup_insert_Some.
    intros [[<- <-]|[_ Hv]] He Ho; [|by eapply H2].
    apply elem_of_app in He as [(y & -> & _)%list_elem_of_fmap|He]; [done|].
    apply list_elem_of_In, filter_In in He as [He _]; apply list_elem_of_In in He.
    unfold view_of in He; destruct (cs_memberHistory _ !! _) as [w|] eqn:E; [by eapply H2|by apply elem_of_nil in He].
  - destruct Hc as [H1 H2 H3 H4]; constructor; [done| |done|done].
    intros m v e Hv; cbn [with_views cs_memberHistory] in Hv; by rewrite lookup_empty in Hv.
Qed.

(** C34: However sends, frames of any streams, stream ends, errors, backfills and
    resets follow one another, an entry bears the open mark only while its member
    has a live turn, a placeholder never does, live turns have distinct keys and
    count at most their own steps as consolidated. *)
Theorem store_invariant (ops : list store_op) : chat_inv (st_state (store_run new_ChatStore ops)).
Proof. apply store_run_inv, chat_inv_empty. Qed.

(** ** What a stream leaves behind *)

(** The content of the entries, in the order of the page. *)
Definition shown (history : list TeamMessageEntry) : list (string * list ContentBlock) :=
  (λ e, (te_member e, hm_blocks (te_message e))) <$> history.

Definition tail_content (t : LiveMemberTurn) : list (string * list ContentBlock) :=
  (λ s, (lt_member t, liveBlocksToContentBlocks (sd_blocks s))) <$> drop (lt_fixedSteps t) (lt_steps t).

Lemma shown_clear s m : shown (cs_history (clearMemberOpen s m)) = shown (cs_history s).
Proof.
  unfold shown; cbn [clearMemberOpen cs_history]; rewrite <- list_fmap_compose.
  apply list_fmap_ext; intros i e _; simpl; by case_bool_decide.
Qed.

Lemma stepsToHistory_blocks b steps :
  hm_blocks <$> stepsToHistory b steps = (λ s, liveBlocksToContentBlocks (sd_blocks s)) <$> steps.
Proof.
  induction steps as [|s [|s' steps] IH]; [done|done|].
  change (liveBlocksToContentBlocks (sd_blocks s) :: (hm_blocks <$> stepsToHistory b (s' :: steps)) =
    liveBlocksToContentBlocks (sd_blocks s) :: ((λ s, liveBlocksToContentBlocks (sd_blocks s)) <$> s' :: steps)).
  by rewrite IH.
Qed.

Lemma shown_project seq m ms : shown (project_from seq m ms) = (λ x, (m, hm_blocks x)) <$> ms.
Proof. revert seq; induction ms as [|x ms IH]; intros seq; [done|]; simpl; by rewrite IH. Qed.

Lemma shown_close s t live b :
  cs_live s = t :: live → shown (cs_history (closeLiveTurn s 0 b)) = shown (cs_history s) ++ tail_content t.
Proof.
  intros Hl; unfold closeLiveTurn; rewrite Hl; cbn [lookup list_lookup]; unfold tail_content.
  case_bool_decide as Hp.
  - rewrite Hp; cbn [with_live cs_history]; by rewrite shown_clear, app_nil_r.
  - cbn [cs_history]; unfold shown at 1; rewrite fmap_app; fold (shown (cs_history (clearMemberOpen s (lt_member t)))).
    rewrite shown_clear; f_equal; unfold projectTail.
    match goal with |- _ <$> project_from ?x _ _ = _ => fold (shown (project_from x (lt_member t) (stepsToHistory b (drop (lt_fixedSteps t) (lt_steps t))))) end.
    rewrite shown_project.
    rewrite (list_fmap_compose hm_blocks (pair (lt_member t))), stepsToHistory_blocks, <- list_fmap_compose; done.
Qed.

Lemma close_all_shown b live s :
  cs_live s = live →
  cs_live (fold_left (close_turn b) live s) = [] ∧
  shown (cs_history (fold_left (close_turn b) live s)) = shown (cs_history s) ++ (live ≫= tail_content).
Proof.
  revert s; induction live as [|t live IH]; intros s Hl; [simpl; by rewrite app_nil_r|]; cbn [fold_left].
  rewrite (close_turn_head b s t live) by done.
  destruct (IH (closeLiveTurn s 0 b)) as [H1 H2]; [by rewrite closeLiveTurn_live, Hl|].
  split; [done|]; rewrite H2, (shown_close s t live) by done; cbn [mbind list_bind]; by rewrite app_assoc.
Qed.

(** When the newest stream ends, in order or with an error, no draft stays
    behind: everything the page showed is in the merged sequence, the steps not yet
    consolidated following it turn by turn and step by step with their very blocks,
    and a superseded stream changes nothing the page shows. *)
Theorem stream_end_keeps_content (c : ChatStore) (k : Z) (message : string) :
  let s := st_state c in
  (if st_activeStreamId c =? k then
     Forall (λ c', cs_live (st_state c') = [] ∧
       shown (cs_history (st_state c')) = shown (cs_history s) ++ (cs_live s ≫= tail_content))
       [send_end c k; send_error c k message]
   else Forall (λ c', erase (st_state c') = erase s) [send_end c k; send_error c k message]).
Proof.
  assert (Hst : st_state (consume_if_needed c k) = st_state c)
    by (unfold consume_if_needed; by destruct (is_consumed c k)).
  assert (Hac : st_activeStreamId (consume_if_needed c k) = st_activeStreamId c)
    by (unfold consume_if_needed; by destruct (is_consumed c k)).
  simpl; destruct (st_activeStreamId c =? k) eqn:Hk; repeat constructor;
    unfold send_end, send_error; rewrite Hac, Hk; simpl; rewrite Hst; try (by apply close_all_shown);
    unfold erase; simpl; f_equal; rewrite <- list_fmap_compose; by apply list_fmap_ext.
Qed.
