(* ===== verification/Mirror.v ===== *)
(** * The client mirrors the server

    The server side ([History], [Collector]) hands frames to its sink; the client
    side ([Chat]) folds them.  The merged sequence a page builds from the stream is
    the one the server would list. *)

From S2P Require Import Prelude ChatWire History Collector Chat ChatFacts.

#[local] Open Scope Z_scope.

(** ** The two sequences *)

(** An entry as both sides know it: producer, message, sequence number. *)
Definition real_entry (e : TeamMessageEntry) : option (string * HistoryMessage * jsnum) :=
  if te_projected e then None else Some (te_member e, te_message e, te_seq e).

(** The entries of a page that came from the server. *)
Definition real (s : ChatState) : list (string * HistoryMessage * jsnum) := omap real_entry (cs_history s).

Definition listed (h : TeamHistory) : list (string * HistoryMessage * jsnum) :=
  (λ e, (mg_member e, mg_message e, JNum (mg_seq e))) <$> listTeamMessages h.

(** The response of ListTeamMessages. *)
Definition to_wire (e : TeamMergeEntry) : TeamMessage :=
  mkTeamMessage (Some (mg_member e)) (mg_message e) (WireString (num_str (mg_seq e))).

(** A stream followed from its first frame. *)
Definition feed (s : ChatState) (fs : list ChatEvent) : ChatState :=
  fold_left (λ s e, reduceEvent s e "" 1) fs s.

(** ** The runs considered

    A tool result answers the one running call of its id, made by the same member;
    no team is torn down (an aborted turn clears the page); producers have names. *)
Definition running_sites (h : TeamHistory) (toolId : string) : list string :=
  merge h ≫= λ e, (λ _, me_member e) <$> List.filter (is_running toolId) (hm_blocks (deref h (me_ref e))).

Definition paired (h : TeamHistory) (role toolId : string) : bool :=
  bool_decide (running_sites h toolId = [] ∨ running_sites h toolId = [role]).

Definition op_regular (s : Host) (op : host_op) : bool :=
  match op with
  | HostEvent k _ _ e =>
      match hs_collectors s !! k with
      | None => true
      | Some c =>
          bool_decide (mc_role c ≠ "") &&
          match en_channel e with
          | LogChannel (SE_ToolResult id _ _) => paired (hs_history s) (mc_role c) (or_empty id)
          | _ => true
          end
      end
  | HostMark _ o => bool_decide (oc_status o ≠ ABORTED)
  | HostUser _ _ => true
  | HostAnnounce _ role _ => bool_decide (role ≠ "")
  end.

Fixpoint run_regular (s : Host) (ops : list host_op) : bool :=
  match ops with
  | [] => true
  | op :: ops => op_regular s op && run_regular (host_step s op) ops
  end.

(** ** The history stays well formed *)

Record hist_inv (h : TeamHistory) : Prop := {
  hv_seq : 0 < nextSeq h;
  hv_lt : ∀ e, e ∈ merge h → me_seq e < nextSeq h ∧ (me_ref e < length (heap h))%nat;
  hv_named : ∀ e, e ∈ merge h → me_member e ≠ "" ∧ 0 < me_seq e;
  hv_refs : NoDup (me_ref <$> merge h);
}.

(** ** How the frames act on the real entries *)

Lemma real_app s1 s2 : omap real_entry (s1 ++ s2) = omap real_entry s1 ++ omap real_entry s2.
Proof. apply omap_app. Qed.

Lemma real_project seq m ms : omap real_entry (project_from seq m ms) = [].
Proof. revert seq; induction ms as [|x ms IH]; intros seq; [done|]; apply IH. Qed.

Lemma omap_fmap_same {A B} (f : A → option B) (g : A → A) (l : list A) :
  (∀ a, f (g a) = f a) → omap f (g <$> l) = omap f l.
Proof. intros H; induction l as [|a l IH]; [done|]; rewrite fmap_cons; cbn; by rewrite H, IH. Qed.

Lemma real_clear s m : real (clearMemberOpen s m) = real s.
Proof. unfold real; simpl; apply omap_fmap_same; intros e; by case_bool_decide. Qed.

Lemma real_close s i b : real (closeLiveTurn s i b) = real s.
Proof.
  unfold closeLiveTurn; destruct (cs_live s !! i) as [t|]; [|done].
  case_bool_decide; [apply (real_clear s (lt_member t))|].
  rewrite <- (real_clear s (lt_member t)); unfold real; cbn [cs_history].
  unfold projectTail; by rewrite real_app, real_project, app_nil_r.
Qed.

(** Frames that neither carry an entry nor settle a call. *)
Definition neutral (e : ChatEvent) : Prop :=
  match ev_payload e with
  | Some (TeamMessageFrame _) | Some (ToolResult _) => False
  | Some (TurnEnd t) => ChatWire.te_status t ≠ TURN_STATUS_ABORTED
  | _ => True
  end.

Lemma real_edit s e f key k : real (edit_target s e f key k) = real s.
Proof. unfold edit_target; by destruct (target s e). Qed.

Lemma real_neutral s e k : neutral e → real (reduceEvent s e "" k) = real s.
Proof.
  unfold neutral, reduceEvent; destruct (ev_payload e) as [[| f | f | | b | d | b | t | r]|]; try done.
  - intros _; unfold reduce_member_view; by case_bool_decide.
  - intros _; unfold reduce_turn_start; destruct (eventMember s e); [|done]; by destruct (findLiveTurn _ _ _).
  - intros _; rewrite block_start_edit; apply real_edit.
  - intros _; unfold reduce_delta; destruct (findLiveTurn _ _ _); [|done]; by case_bool_decide.
  - intros _; rewrite block_end_edit; apply real_edit.
  - unfold reduce_turn_end; fold (target s e); intros Hne.
    assert (Hc : ∀ b, real (close_target s e b) = real s)
      by (intros; unfold close_target; destruct (target s e); [apply real_close|done]).
    destruct (ChatWire.te_status t); try done; [apply (Hc false)|apply (Hc true)|apply (Hc true)].
Qed.

Lemma real_insertBySeq l e : omap real_entry (insertBySeq l e) ≡ₚ omap real_entry (e :: l).
Proof.
  induction l as [|x l IH]; [done|]; simpl; case_match; [done|].
  cbn [omap list_omap]; destruct (real_entry x); [|exact IH].
  rewrite IH; cbn [omap list_omap]; destruct (real_entry e); [apply perm_swap|done].
Qed.

Lemma real_replace p x l l' :
  (∀ e, p e = true → te_projected e = true) → replace_projected p x l = Some l' →
  omap real_entry l' ≡ₚ omap real_entry (x :: l).
Proof.
  intros Hp; revert l'; induction l as [|y l IH]; intros l' H; simpl in H; [done|].
  destruct (p y) eqn:Hy; simplify_eq.
  - assert (Hn : real_entry y = None) by (unfold real_entry; by rewrite (Hp y Hy)).
    cbn [omap list_omap]; by rewrite Hn.
  - apply fmap_Some in H as (k & Hk & ->); specialize (IH k Hk).
    cbn [omap list_omap]; destruct (real_entry y); [|exact IH].
    rewrite IH; cbn [omap list_omap]; destruct (real_entry x); [apply perm_swap|done].
Qed.

(** A new entry joins the real ones. *)
Lemma real_team_message s session member m seq k :
  member ≠ "" → 0 < seq → (∀ x, x ∈ real s → x.2 ≠ JNum seq) →
  real (reduceEvent s (team_message_frame session member m seq) "" k) ≡ₚ (member, m, JNum seq) :: real s.
Proof.
  intros Hm Hseq Hnew; unfold reduceEvent, team_message_frame; simpl; unfold reduce_team_message; simpl.
  rewrite bool_decide_false by done; cbv zeta; rewrite js_number_num_str by done.
  destruct (known_seq (cs_history s) (JNum seq)) eqn:Hk.
  { apply known_seq_spec in Hk as (e & He & Hp & Hs); exfalso.
    apply (Hnew (te_member e, te_message e, te_seq e)); [|done].
    apply list_elem_of_omap; exists e; split; [done|]; unfold real_entry; by rewrite Hp. }
  unfold real; cbn [cs_history]; destruct (replace_projected _ _ _) as [l|] eqn:Hr.
  - by rewrite (real_replace _ _ _ _ (λ e He, proj1 (andb_prop _ _ He)) Hr).
  - by rewrite real_insertBySeq.
Qed.

Lemma real_tool_result s e r k :
  ev_payload e = Some (ToolResult r) →
  real (reduceEvent s e "" k) =
  (λ x, (x.1.1, settle_message (tr_toolId r) (tr_status r) (tr_result r) x.1.2, x.2)) <$> real s.
Proof.
  intros Hp; unfold reduceEvent; rewrite Hp; unfold real; cbn [reduce_tool_result cs_history].
  induction (cs_history s) as [|x l IH]; [done|]; rewrite fmap_cons; cbn [omap list_omap]; rewrite IH.
  by destruct x as [m msg q [] o].
Qed.

(** ** The server side *)

Definition mirrors (s : ChatState) (h : TeamHistory) : Prop := real s ≡ₚ listed h.

(** A piece of server work whose frames keep a client in agreement. *)
Definition syncs (h h' : TeamHistory) : Prop :=
  hist_inv h → hist_inv h' ∧
  ∃ fs, sunk h' = sunk h ++ fs ∧ Forall (λ e, ∀ p, ev_payload e ≠ Some (Queued p)) fs ∧
    ∀ s, mirrors s h → mirrors (feed s fs) h'.

Lemma syncs_refl h : syncs h h.
Proof. intros Hh; split; [done|]; exists []; rewrite app_nil_r; auto. Qed.

Lemma syncs_trans h1 h2 h3 : syncs h1 h2 → syncs h2 h3 → syncs h1 h3.
Proof.
  intros H12 H23 H1; destruct (H12 H1) as (H2 & f & S1 & Q1 & P1).
  destruct (H23 H2) as (H3 & g & S2 & Q2 & P2); split; [done|].
  exists (f ++ g); rewrite S2, S1, <- app_assoc, Forall_app; split_and!; [done..|].
  intros s Hs; unfold feed; rewrite fold_left_app; by apply P2, P1.
Qed.

Lemma listed_alt h : listed h = (λ e, (me_member e, deref h (me_ref e), JNum (me_seq e))) <$> merge h.
Proof. unfold listed, listTeamMessages; by rewrite <- list_fmap_compose. Qed.

Lemma listed_same h h' :
  merge h' = merge h → (∀ e, e ∈ merge h → deref h' (me_ref e) = deref h (me_ref e)) → listed h' = listed h.
Proof.
  intros Hm Hd; rewrite !listed_alt, Hm; apply list_fmap_ext; intros i e He.
  by rewrite Hd by (by eapply list_elem_of_lookup_2).
Qed.

Lemma syncs_sink h e : neutral e → (∀ p, ev_payload e ≠ Some (Queued p)) → syncs h (sink h e).
Proof.
  intros Hn Hq [H1 H2 HN H3]; split; [by constructor|]; exists [e]; split_and!; [done|by constructor|].
  intros s Hs; unfold mirrors, feed; simpl; by rewrite real_neutral.
Qed.

(** A message under construction: on the heap, not yet referenced. *)
Lemma newMessage_inv h now role blocks i :
  hist_inv h →
  let '(h', r) := newMessage h now role blocks i in
  hist_inv h' ∧ listed h' = listed h ∧ (r < length (heap h'))%nat ∧ r ∉ me_ref <$> merge h'.
Proof.
  intros [H1 H2 HN H3]; simpl; split_and!.
  - constructor; [done| |done|done]; intros e He; destruct (H2 e He); simpl; rewrite length_app; simpl; split; [done|lia].
  - apply listed_same; [done|]; intros e He; destruct (H2 e He); unfold deref; simpl; by rewrite lookup_app_l.
  - rewrite length_app; simpl; lia.
  - intros (e & Hr & He)%list_elem_of_fmap; destruct (H2 e He); lia.
Qed.

Lemma listed_fresh h x : hist_inv h → x ∈ listed h → x.2 ≠ JNum (nextSeq h).
Proof.
  intros [_ H2 _ _]; rewrite listed_alt; intros (e & -> & He)%list_elem_of_fmap.
  destruct (H2 e He); simpl; intros [=]; lia.
Qed.

Lemma syncs_append h now role blocks i member :
  member ≠ "" → syncs h (appendMerge (newMessage h now role blocks i).1 member (newMessage h now role blocks i).2).1.
Proof.
  intros Hm Hh; pose proof (newMessage_inv h now role blocks i Hh) as HN.
  destruct (newMessage h now role blocks i) as [h1 r] eqn:E; destruct HN as (Hh1 & Hl & Hr & Hnr); cbn [fst snd].
  assert (Hs : sunk h1 = sunk h) by (unfold newMessage in E; by simplify_eq).
  pose proof Hh1 as [H1 H2 HN H3]; split.
  - constructor; simpl; [lia| | |].
    + intros e [He| ->%list_elem_of_singleton]%elem_of_app; [destruct (H2 e He); split; [lia|done]|simpl; split; [lia|done]].
    + intros e [He| ->%list_elem_of_singleton]%elem_of_app; [by apply HN|done].
    + rewrite fmap_app; apply NoDup_app; split_and!; [done| |apply NoDup_singleton].
      intros x Hx ->%list_elem_of_singleton; done.
  - eexists [_]; split_and!; [simpl; by rewrite Hs|by repeat constructor|].
    intros s Hms; unfold mirrors, feed; cbn [fold_left].
    rewrite real_team_message; [|done|done|].
    + rewrite Hms, <- Hl, !listed_alt; simpl; rewrite fmap_app; simpl.
      rewrite Permutation_app_comm; done.
    + intros x Hx; rewrite Hms, <- Hl in Hx; by apply listed_fresh.
Qed.

Lemma syncs_silent h h' :
  sunk h' = sunk h → (hist_inv h → hist_inv h' ∧ listed h' = listed h) → syncs h h'.
Proof.
  intros Hs HI Hh; destruct (HI Hh) as [Hh' Hl]; split; [done|].
  exists []; rewrite app_nil_r; split_and!; [done..|]. intros s; unfold mirrors; by rewrite Hl.
Qed.

Lemma syncs_pushView h role e : syncs h (pushView h role e).
Proof. apply syncs_silent; [done|]; intros [H1 H2 HN H3]; split; [by constructor|done]. Qed.

Lemma syncs_newMessage h now role blocks i : syncs h (newMessage h now role blocks i).1.
Proof.
  apply syncs_silent; [done|]; intros Hh.
  by destruct (newMessage_inv h now role blocks i Hh) as (? & ? & _).
Qed.

Lemma syncs_output h now role content i rv :
  role ≠ "" → syncs h (appendMemberOutput h now role content i rv).1.
Proof.
  intros Hr; unfold appendMemberOutput; case_bool_decide; [apply syncs_refl|].
  pose proof (syncs_append h now ROLE_AGENT (omap blockToContentBlock content) i role Hr) as HS.
  destruct (newMessage h now ROLE_AGENT _ i) as [h1 r]; cbn [fst snd] in HS.
  destruct (appendMerge h1 role r) as [h2 e]; destruct rv; [|done].
  eapply syncs_trans; [done|apply syncs_pushView].
Qed.

Lemma syncs_view_user h now role e rv : syncs h (appendMemberViewUser h now role e rv).
Proof.
  unfold appendMemberViewUser; destruct rv; [|apply syncs_refl]; simpl negb; cbn iota.
  case_bool_decide; [apply syncs_refl|]; case_bool_decide; [apply syncs_refl|].
  pose proof (syncs_newMessage h now ROLE_USER (omap user_text_block (ue_content e)) false) as HS.
  destruct (newMessage h now ROLE_USER _ false) as [h1 r].
  eapply syncs_trans; [done|]; eapply syncs_trans; [apply syncs_pushView|].
  by apply syncs_sink.
Qed.

(** *** Tool results *)

Lemma is_running_call id b : is_running id b = running_call id b.
Proof. by destruct b. Qed.

Lemma settle_last_none id st r blocks :
  (∀ b, b ∈ blocks → is_running id b = false) → settle_last id st r blocks = None.
Proof.
  induction blocks as [|b blocks IH]; [done|]; intros H; simpl.
  rewrite IH by (intros; apply H; by right); by rewrite H by left.
Qed.

Lemma settle_last_one id st r p b s :
  is_running id b = true → (∀ b', b' ∈ s → is_running id b' = false) →
  settle_last id st r (p ++ b :: s) = Some (p ++ settle_block st r b :: s).
Proof.
  intros Hb Hs; induction p as [|x p IH]; simpl; [|by rewrite IH].
  rewrite settle_last_none by done; by rewrite Hb.
Qed.

Lemma bind_nil {A B} (f : A → list B) l : l ≫= f = [] ↔ ∀ a, a ∈ l → f a = [].
Proof.
  induction l as [|a l IH]; simpl; [set_solver|].
  rewrite app_nil, IH; split; [intros [? ?] b [->|?]%elem_of_cons; auto|intros H; split; [apply H; by left|]].
  intros b Hb; apply H; by right.
Qed.

Lemma bind_singleton {A B} (f : A → list B) l x :
  l ≫= f = [x] → ∃ l1 a l2, l = l1 ++ a :: l2 ∧ f a = [x] ∧ (∀ b, b ∈ l1 ++ l2 → f b = []).
Proof.
  induction l as [|a l IH]; [done|]; simpl; intros H; destruct (f a) as [|y k] eqn:E; simpl in H.
  - destruct (IH H) as (l1 & b & l2 & -> & Hb & Ho); exists (a :: l1), b, l2; split_and!; [done..|].
    intros c [->|Hc]%elem_of_cons; auto.
  - injection H as -> H; apply app_nil in H as [-> H]; exists [], a, l; split_and!; [done..|].
    by apply bind_nil.
Qed.

Lemma filter_nil_false {A} (p : A → bool) l : List.filter p l = [] ↔ ∀ a, a ∈ l → p a = false.
Proof.
  induction l as [|a l IH]; simpl; [set_solver|].
  destruct (p a) eqn:E; [split; [done|intros H; rewrite H in E; [done|by left]]|].
  rewrite IH; set_solver.
Qed.

Lemma filter_single {A} (p : A → bool) l x :
  List.filter p l = [x] → ∃ l1 l2, l = l1 ++ x :: l2 ∧ p x = true ∧ ∀ b, b ∈ l1 ++ l2 → p b = false.
Proof.
  induction l as [|a l IH]; [done|]; simpl; destruct (p a) eqn:E; intros H.
  - injection H as <- H; exists [], l; split_and!; [done..|]; by apply filter_nil_false.
  - destruct (IH H) as (l1 & l2 & -> & Hx & Ho); exists (a :: l1), l2; split_and!; [done..|].
    intros b [->|Hb]%elem_of_cons; auto.
Qed.

(** A message with no running call of that id is not touched on either side. *)
Lemma settle_message_id id st r m :
  (∀ b, b ∈ hm_blocks m → is_running id b = false) → settle_message id st r m = m.
Proof.
  intros H; unfold settle_message; replace (existsb _ _) with false; [done|]; symmetry.
  apply existsb_false; intros b Hb; rewrite <- is_running_call; auto.
Qed.

Lemma settle_message_one id st r m p b s :
  hm_blocks m = p ++ b :: s → is_running id b = true → (∀ b', b' ∈ p ++ s → is_running id b' = false) →
  settle_message id st r m = set_blocks m (p ++ settle_block st r b :: s).
Proof.
  intros Hm Hb Ho; rewrite settle_message_fmap, Hm; f_equal.
  assert (Hid : ∀ l : list ContentBlock, (∀ b', b' ∈ l → is_running id b' = false) → settle_content id st r <$> l = l).
  { intros l Hl; rewrite <- (list_fmap_id l) at 2; apply list_fmap_ext; intros i x Hx.
    apply settle_content_id; rewrite <- is_running_call; apply Hl; by eapply list_elem_of_lookup_2. }
  rewrite fmap_app, fmap_cons, !Hid by (intros; apply Ho, elem_of_app; auto).
  do 2 f_equal. rewrite is_running_call in Hb; destruct b; simpl in *; try done; by rewrite Hb.
Qed.

Lemma settle_scan_none h role id st r entries :
  (∀ e, e ∈ entries → ∀ b, b ∈ hm_blocks (deref h (me_ref e)) → is_running id b = false) →
  settle_scan h role id st r entries = None.
Proof.
  induction entries as [|e entries IH]; [done|]; intros H; simpl.
  rewrite settle_last_none by (intros; eapply H; [by left|done]).
  rewrite IH by (intros; eapply H; [by right|done]); by case_bool_decide.
Qed.

Lemma settle_scan_app h role id st r l1 l2 :
  settle_scan h role id st r l1 = None →
  settle_scan h role id st r (l1 ++ l2) = settle_scan h role id st r l2.
Proof.
  induction l1 as [|e l1 IH]; [done|]; simpl; case_bool_decide; [|done].
  by destruct (settle_last _ _ _ _).
Qed.

Definition settle_listed (id st r : string) (x : string * HistoryMessage * jsnum) :=
  (x.1.1, settle_message id st r x.1.2, x.2).

(** No block of the entry is a running call of that id. *)
Definition settled_for (h : TeamHistory) (id : string) (e : MergeRef) : Prop :=
  ∀ b, b ∈ hm_blocks (deref h (me_ref e)) → is_running id b = false.

(** The one running call of an id, in the middle of the merged sequence. *)
Lemma settle_single h role id st r l1 e l2 p b s :
  hist_inv h → merge h = l1 ++ e :: l2 → me_member e = role →
  hm_blocks (deref h (me_ref e)) = p ++ b :: s → is_running id b = true →
  (∀ b', b' ∈ p ++ s → is_running id b' = false) →
  (∀ x, x ∈ l1 ++ l2 → settled_for h id x) →
  let h' := (settleToolResult h role id st r).1 in
  hist_inv h' ∧ listed h' = settle_listed id st r <$> listed h.
Proof.
  intros [H1 H2 HN H3] Hm He Hbl Hb Hrest Ho; unfold settleToolResult.
  assert (Hlt : (me_ref e < length (heap h))%nat) by (apply H2; rewrite Hm; set_solver).
  rewrite Hm, reverse_app, reverse_cons, <- app_assoc, settle_scan_app
    by (apply settle_scan_none; intros x Hx; apply Ho; set_solver).
  cbn [app settle_scan]; rewrite bool_decide_true by done.
  rewrite Hbl, settle_last_one by (done || (intros; apply Hrest; set_solver)).
  set (m' := set_blocks _ _); cbn [fst].
  rewrite Hm, fmap_app, fmap_cons in H3; pose proof H3 as (Hn1 & Hn12 & [Hne Hn2]%NoDup_cons)%NoDup_app.
  assert (Hother : ∀ x, x ∈ l1 ++ l2 → me_ref x ≠ me_ref e).
  { intros x [Hx|Hx]%elem_of_app Heq; [eapply (Hn12 (me_ref e))|apply Hne]; rewrite <- ?Heq; try left; by apply list_elem_of_fmap_2. }
  split.
  { constructor; cbn [nextSeq heap merge]; [done| |by rewrite <- Hm|by rewrite fmap_app, fmap_cons].
    intros x Hx; rewrite length_insert; apply H2; by rewrite Hm. }
  rewrite !listed_alt; cbn [merge]; rewrite Hm, <- list_fmap_compose.
  apply list_fmap_ext; intros i x Hx; apply list_elem_of_lookup_2 in Hx.
  unfold settle_listed; cbn [fst snd compose]; unfold deref at 1; cbn [heap].
  destruct (decide (x = e)) as [->|Hxe].
  - rewrite list_lookup_insert_eq by done; cbn [default].
    by rewrite (settle_message_one id st r _ p b s) by done.
  - assert (Hx' : x ∈ l1 ++ l2) by set_solver.
    rewrite list_lookup_insert_ne by (by apply not_eq_sym, Hother); fold (deref h (me_ref x)).
    by rewrite settle_message_id by (by apply Ho).
Qed.

(** Under the pairing of calls and results, the newest match of the server is the
    only match of the client. *)
Lemma settle_paired h role id st r :
  hist_inv h → paired h role id = true →
  let h' := (settleToolResult h role id st r).1 in
  hist_inv h' ∧ listed h' = settle_listed id st r <$> listed h.
Proof.
  intros Hh Hp; apply bool_decide_eq_true in Hp.
  assert (Hno : ∀ e, (λ _ : ContentBlock, me_member e) <$> List.filter (is_running id) (hm_blocks (deref h (me_ref e))) = [] →
    settled_for h id e).
  { intros e He b; apply fmap_nil_inv in He; by apply filter_nil_false. }
  destruct Hp as [Hp|Hp]; unfold running_sites in Hp.
  - rewrite bind_nil in Hp; unfold settleToolResult.
    rewrite settle_scan_none by (intros e He; apply Hno, Hp; by apply elem_of_reverse).
    cbn [fst]; split; [done|]; rewrite listed_alt, <- list_fmap_compose; apply list_fmap_ext; intros i e He.
    unfold settle_listed; simpl; rewrite settle_message_id; [done|].
    apply Hno, Hp; by eapply list_elem_of_lookup_2.
  - apply bind_singleton in Hp as (l1 & e & l2 & Hm & He & Ho).
    destruct (List.filter (is_running id) (hm_blocks (deref h (me_ref e)))) as [|b [|]] eqn:Hf; [done| |done].
    injection He as He; apply filter_single in Hf as (p & s & Hbl & Hb & Hrest).
    eapply settle_single; [done|done|done|done|done|done|]; intros x Hx; by apply Hno, Ho.
Qed.

(** A settlement and the frames up to the tool result it announces. *)
Lemma syncs_tool_result h role id st r fs e h' :
  paired h role id = true →
  let h0 := (settleToolResult h role id st r).1 in
  sunk h' = sunk h ++ fs ++ [e] → Forall neutral fs → Forall (λ e, ∀ p, ev_payload e ≠ Some (Queued p)) fs →
  ev_payload e = Some (ToolResult (mkToolResult id st r)) →
  (hist_inv h0 → hist_inv h' ∧ listed h' = listed h0) → syncs h h'.
Proof.
  simpl; intros Hp Hs Hn Hq He HI Hh; destruct (settle_paired h role id st r Hh Hp) as [Hh0 Hl0].
  destruct (HI Hh0) as [Hh' Hl']; split; [done|]; exists (fs ++ [e]); split_and!; [done| |].
  - apply Forall_app; split; [done|]; repeat constructor; intros p; congruence.
  - intros s Hms; unfold feed; rewrite fold_left_app; cbn [fold_left]; unfold mirrors.
    rewrite (real_tool_result _ e (mkToolResult id st r)) by done; rewrite Hl', Hl0.
    assert (Hfs : ∀ s0, real (fold_left (λ s e, reduceEvent s e "" 1) fs s0) = real s0).
    { clear -Hn; induction Hn as [|x fs Hx _ IH]; intros s0; [done|]; cbn [fold_left]; rewrite IH; by apply real_neutral. }
    rewrite Hfs; by apply fmap_Permutation.
Qed.

(** *** The handlers *)

Lemma syncs_ensure c h uuid : syncs h (ensureActive c h uuid).1.2.
Proof. unfold ensureActive; destruct (mc_active c); [apply syncs_refl|by apply syncs_sink]. Qed.

Definition never_aborted (c : MemberCollector) : Prop :=
  ∀ o, mc_pendingOutcome c = Some o → oc_status o ≠ ABORTED.

Lemma chunk_frame_neutral {S} (remap : S → Z → S * Z) s chunk session turnId step e :
  (chunkToChatEvent remap s chunk session turnId step).2 = Some e →
  ∃ i pl, block_frame i step pl ∧ ev_payload e = Some pl.
Proof.
  destruct (chunkToChatEvent_cases remap s chunk session turnId step) as [->|(pl & Hpl & ->)]; [done|].
  intros [= <-]; eauto.
Qed.

Lemma syncs_chunk c h uuid chunk step : syncs h (onChunk c h uuid chunk step).2.
Proof.
  unfold onChunk; pose proof (syncs_ensure c h uuid) as HE.
  destruct (ensureActive c h uuid) as [[c1 h1] a]; cbn [fst snd] in HE.
  case_bool_decide; [done|].
  pose proof (chunk_frame_neutral remapIndex (with_pending a (chunk_pending chunk (at_pending a))) chunk
    (mc_session c1) (at_turnId (with_pending a (chunk_pending chunk (at_pending a)))) step) as HC.
  destruct (chunkToChatEvent _ _ _ _ _ _) as [a' [e|]]; [|done]; cbn [snd] in HC |- *.
  destruct (HC e eq_refl) as (i & pl & Hb & Hpl).
  eapply syncs_trans; [done|]; apply syncs_sink; unfold neutral, label; cbn [ev_payload]; rewrite Hpl;
    by destruct pl.
Qed.

Lemma syncs_stream c h uuid f : syncs h (onAssistantStream c h uuid f).2.
Proof.
  unfold onAssistantStream; destruct f as [f|]; [|apply syncs_refl].
  destruct (sf_attemptId f) as [id|]; [|apply syncs_refl]; case_bool_decide.
  - destruct (sf_step f) as [step|]; [|apply syncs_refl]; unfold enterStep.
    pose proof (syncs_ensure (set_attempts c (<[id:=step]> (mc_attempts c))) h uuid) as HE.
    destruct (ensureActive _ _ _) as [[c1 h1] a]; by case_bool_decide.
  - case_bool_decide; [|apply syncs_refl].
    destruct (mc_attempts c !! id); [|apply syncs_refl]; destruct (sf_chunk f); [|apply syncs_refl].
    apply syncs_chunk.
Qed.

Lemma syncs_status c h now uuid status :
  mc_role c ≠ "" → never_aborted c → syncs h (onStatus c h now uuid status).2.
Proof.
  intros Hr Hna; unfold onStatus; case_bool_decide.
  { pose proof (syncs_ensure c h uuid) as HE; by destruct (ensureActive c h uuid) as [[c1 h1] a]. }
  case_bool_decide; [apply syncs_refl|]; destruct (mc_active c) as [a|]; [|apply syncs_refl]; cbn [snd].
  eapply syncs_trans; [|apply syncs_sink; [|done]].
  - split_match; [by apply syncs_output|apply syncs_refl].
  - unfold neutral; simpl; unfold turn_outcome.
    destruct (mc_pendingOutcome c) as [o|] eqn:Ho; [|by destruct (at_failure a)].
    specialize (Hna o Ho); by destruct (oc_status o).
Qed.

Lemma syncs_log c h now uuid e :
  mc_role c ≠ "" →
  (∀ id er ct, e = SE_ToolResult id er ct → paired h (mc_role c) (or_empty id) = true) →
  syncs h (onSessionEvent c h now uuid e).2.
Proof.
  intros Hr Hp; destruct e as [ue|content usage i| |id er ct|[[[kind|] error]|]|]; simpl; try apply syncs_refl.
  - apply syncs_view_user.
  - pose proof (syncs_ensure c h uuid) as HE; pose proof (ensureActive_moves c h uuid) as HM.
    destruct (ensureActive c h uuid) as [[c1 h1] a]; destruct HM as ((Hrole & _) & _).
    eapply syncs_trans; [done|]; apply syncs_output; by rewrite Hrole.
  - specialize (Hp _ _ _ eq_refl); unfold onToolResult, ensureActive.
    destruct (settleToolResult_sunk h (mc_role c) (or_empty id) (if default false er then TOOL_STATUS_FAILED else TOOL_STATUS_SUCCEEDED)
      (join "" (text_of <$> default [] ct))) as [Hs _].
    destruct (mc_active c) as [a|]; cbn [snd].
    + eapply (syncs_tool_result _ _ _ _ _ []); [exact Hp|simpl; by rewrite Hs|done|done|done|].
      intros [? ? ? ?]; by split.
    + eapply (syncs_tool_result _ _ _ _ _ [member_frame c uuid TurnStart]);
        [exact Hp|simpl; rewrite Hs, <- app_assoc; done|by repeat constructor|by repeat constructor|done|].
      intros [? ? ? ?]; by split.
Qed.

(** A handler keeps the role of its collector and never latches an outcome. *)
Definition keeps (c c' : MemberCollector) : Prop :=
  mc_role c' = mc_role c ∧ (mc_pendingOutcome c' = mc_pendingOutcome c ∨ mc_pendingOutcome c' = None).

Lemma ensure_keeps c h uuid : keeps c (ensureActive c h uuid).1.1.
Proof. unfold ensureActive; destruct (mc_active c); split; auto. Qed.

Lemma recordFailure_keeps c f : keeps c (recordFailure c f).
Proof. unfold recordFailure; repeat case_match; split; auto. Qed.

#[local] Ltac destruct_ensure :=
  match goal with
  | |- context [ensureActive ?c ?h ?u] =>
      let HE := fresh "HE" in
      pose proof (ensure_keeps c h u) as HE; destruct (ensureActive c h u) as [[? ?] ?]
  end.

Lemma keeps_refl c : keeps c c.
Proof. split; auto. Qed.

Lemma log_keeps c h now uuid e : keeps c (onSessionEvent c h now uuid e).1.
Proof.
  destruct e as [ue|content usage i| |id er ct|[[[kind|] error]|]|]; simpl; try apply keeps_refl.
  - by destruct_ensure.
  - unfold onToolResult; by destruct_ensure.
  - destruct (bool_decide _); [apply recordFailure_keeps|apply keeps_refl].
Qed.

Lemma stream_keeps c h uuid f : keeps c (onAssistantStream c h uuid f).1.
Proof.
  unfold onAssistantStream; destruct f as [f|]; [|apply keeps_refl].
  destruct (sf_attemptId f) as [id|]; [|apply keeps_refl]; destruct (bool_decide _).
  - destruct (sf_step f) as [step|]; [|apply keeps_refl]; unfold enterStep.
    destruct_ensure; destruct (bool_decide _); exact HE.
  - destruct (bool_decide _); [|by split; auto].
    destruct (mc_attempts c !! id); [|apply keeps_refl]; destruct (sf_chunk f); [|apply keeps_refl].
    unfold onChunk; destruct_ensure; destruct (bool_decide _); [exact HE|].
    destruct (chunkToChatEvent _ _ _ _ _ _); exact HE.
Qed.

Lemma applyEvent_keeps c h now uuid e : keeps c (applyEvent c h now uuid e).1.
Proof.
  unfold applyEvent; case_bool_decide; [apply keeps_refl|].
  destruct (en_channel e) as [se|[f|status|err]]; simpl.
  - apply log_keeps.
  - apply stream_keeps.
  - unfold onStatus; destruct (bool_decide _); [by destruct_ensure|].
    destruct (bool_decide _); [apply keeps_refl|]; destruct (mc_active c); by split; auto.
  - apply recordFailure_keeps.
Qed.

Lemma syncs_apply c h now uuid e :
  mc_role c ≠ "" → never_aborted c →
  (∀ id er ct, en_channel e = LogChannel (SE_ToolResult id er ct) → paired h (mc_role c) (or_empty id) = true) →
  syncs h (applyEvent c h now uuid e).2.
Proof.
  intros Hr Hna Hp; unfold applyEvent; case_bool_decide; [apply syncs_refl|].
  destruct (en_channel e) as [se|[f|status|err]] eqn:Hch; simpl.
  - apply syncs_log; [done|]; intros; subst; by eapply Hp.
  - apply syncs_stream.
  - by apply syncs_status.
  - apply syncs_refl.
Qed.

Lemma syncs_step s op :
  op_regular s op = true → Forall never_aborted (hs_collectors s) →
  syncs (hs_history s) (hs_history (host_step s op)) ∧ Forall never_aborted (hs_collectors (host_step s op)).
Proof.
  intros Hop Hna; destruct op as [k now uuid e|k o|now text|now role text]; simpl in *.
  - destruct (hs_collectors s !! k) as [c|] eqn:Hk; [|split; [apply syncs_refl|done]].
    apply andb_true_iff in Hop as [Hr Hp]; apply bool_decide_eq_true in Hr.
    rewrite Forall_lookup in Hna; pose proof (Hna k c Hk) as Hc.
    pose proof (syncs_apply c (hs_history s) now uuid e Hr Hc) as HS.
    pose proof (applyEvent_keeps c (hs_history s) now uuid e) as [_ HK].
    destruct (applyEvent c (hs_history s) now uuid e) as [c' h']; cbn [fst snd] in *; split.
    + apply HS; intros id er ct Hch; by rewrite Hch in Hp.
    + apply Forall_lookup; intros j d [(<- & -> & _)|[_ Hd]]%list_lookup_insert_Some; [|by eapply Hna].
      intros o Ho; destruct HK as [HK|HK]; rewrite HK in Ho; [by apply Hc|done].
  - apply bool_decide_eq_true in Hop; split; [apply syncs_refl|].
    apply Forall_lookup; intros j d Hd; rewrite list_lookup_alter in Hd; rewrite Forall_lookup in Hna.
    case_decide; [|by eapply Hna]; apply fmap_Some in Hd as (c & Hc & ->).
    intros o' [= <-]; done.
  - split; [|done]; by apply (syncs_append (hs_history s) now ROLE_USER [TextBlock text] false "user").
  - split; [|done]; apply bool_decide_eq_true in Hop.
    by apply (syncs_append (hs_history s) now ROLE_AGENT [TextBlock text] false role).
Qed.

Lemma syncs_run s ops :
  run_regular s ops = true → Forall never_aborted (hs_collectors s) →
  syncs (hs_history s) (hs_history (host_run s ops)).
Proof.
  revert s; induction ops as [|op ops IH]; intros s Hr Hna; [apply syncs_refl|].
  simpl in Hr; apply andb_true_iff in Hr as [H1 H2]; destruct (syncs_step s op H1 Hna) as [HS Hna'].
  eapply syncs_trans; [done|]; by apply IH.
Qed.

(** ** The stream and the list *)

Lemma send_events_state c k fs :
  Forall (λ e, ∀ p, ev_payload e ≠ Some (Queued p)) fs →
  st_state (fold_left (λ c e, send_event c k e) fs c) = fold_left (λ s e, reduceEvent s e "" k) fs (st_state c).
Proof.
  intros Hq; revert c; induction Hq as [|e fs He _ IH]; intros c; [done|]; cbn [fold_left]; rewrite IH; f_equal.
  unfold send_event; destruct (ev_payload e) as [[p| | | | | | | |]|]; try (by exfalso; eapply He);
    simpl; unfold consume_if_needed; by destruct (is_consumed c k).
Qed.

Lemma sort_entries_perm l : sort_entries l ≡ₚ l.
Proof.
  assert (Hins : ∀ e k, insert_sorted e k ≡ₚ e :: k).
  { intros e k; induction k as [|y k IH]; simpl; [done|]; case_match; [|done]. rewrite IH; apply perm_swap. }
  induction l as [|y l IH]; [done|]; simpl; by rewrite Hins, IH.
Qed.

Lemma real_backfill h c :
  hist_inv h →
  real (st_state (loadHistory c (to_wire <$> listTeamMessages h))) ≡ₚ listed h.
Proof.
  intros [_ _ Hm _]; unfold real, loadHistory; simpl; rewrite sort_entries_perm; rewrite listed_alt.
  unfold listTeamMessages; induction (merge h) as [|e l IH]; [done|]; rewrite !fmap_cons.
  cbn [omap list_omap]; destruct (Hm e) as [Hn Hs]; [by left|].
  unfold listed_entry at 1; simpl; rewrite bool_decide_false, js_number_num_str by done; simpl.
  apply Permutation_cons; [done|]; apply IH; intros x Hx; apply Hm; by right.
Qed.

(** C2: The page that followed the stream and the page that asked for the list agree:
    after any regular activity of a team, the server entries in a client fed the
    frames through its store are exactly those of the sequence the server lists (one
    client entry per server entry, same producer, same sequence number, same message
    with the same tool results), which is also what a backfill would install. *)
Theorem stream_agrees_with_list (s : Host) (ops : list host_op) (text : string) (c : ChatStore) :
  hs_history s = new_TeamHistory (h_session (hs_history s)) →
  Forall never_aborted (hs_collectors s) → run_regular s ops = true →
  let h := hs_history (host_run s ops) in
  let '(c0, k) := send_start new_ChatStore text in
  let page := st_state (fold_left (λ c e, send_event c k e) (sunk h) c0) in
  real page ≡ₚ listed h ∧
  real page ≡ₚ real (st_state (loadHistory c (to_wire <$> listTeamMessages h))).
Proof.
  intros Hs Hna Hr.
  assert (Hinv : hist_inv (hs_history s)).
  { rewrite Hs; constructor; simpl; [lia|by intros ? ?%elem_of_nil|by intros ? ?%elem_of_nil|apply NoDup_nil_2]. }
  destruct (syncs_run s ops Hr Hna Hinv) as (Hinv' & fs & Hsunk & Hq & Hmir).
  assert (Hempty : sunk (hs_history s) = []) by (by rewrite Hs).
  rewrite Hempty in Hsunk; simpl in Hsunk; simpl.
  rewrite Hsunk, send_events_state by done; simpl.
  assert (Hreal : real (feed EMPTY_STATE fs) ≡ₚ listed (hs_history (host_run s ops))).
  { apply Hmir; unfold mirrors; rewrite Hs; done. }
  split; [done|]. etrans; [done|]. symmetry; by apply real_backfill.
Qed.

Lemma stream_agrees_with_list_witness :
  run_regular demo_host demo_ops = true ∧
  let h := hs_history (host_run demo_host demo_ops) in
  let '(c0, k) := send_start new_ChatStore "play" in
  let page := st_state (fold_left (λ c e, send_event c k e) (sunk h) c0) in
  real page ≡ₚ listed h ∧
  real page ≡ₚ real (st_state (loadHistory new_ChatStore (to_wire <$> listTeamMessages h))).
Proof.
  split; [vm_compute; reflexivity|].
  apply (stream_agrees_with_list demo_host demo_ops "play" new_ChatStore);
    [reflexivity|by repeat constructor|vm_compute; reflexivity].
Defined.
