(* ===== verification/JsText.v ===== *)
(** * JavaScript text and effects

    Strings as sequences of UTF-16 code units, with the string methods the
    memory library uses, and the effects of its asynchronous functions: a
    computation threads the outside world, may throw, and — when it waits for a
    server to stop sending pages — may run out of the fuel given to its loop. *)

From S2P Require Import Prelude.

(** ** Strings of UTF-16 code units *)

Definition jstr : Type := list Z.

(** A literal of the source that is plain ASCII. *)
Definition js (s : string) : jstr :=
  (λ a, Z.of_nat (Ascii.nat_of_ascii a)) <$> String.list_ascii_of_string s.

(** White space and line terminators of the language, the characters [trim]
    removes. *)
Definition js_spaces : list Z :=
  [9; 10; 11; 12; 13; 32; 160; 0x1680; 0x2000; 0x2001; 0x2002; 0x2003; 0x2004; 0x2005; 0x2006;
   0x2007; 0x2008; 0x2009; 0x200A; 0x2028; 0x2029; 0x202F; 0x205F; 0x3000; 0xFEFF].

Definition is_js_space (c : Z) : bool := bool_decide (c ∈ js_spaces).

Fixpoint trimStart (s : jstr) : jstr :=
  match s with
  | [] => []
  | c :: s' => if is_js_space c then trimStart s' else s
  end.

Definition trimEnd (s : jstr) : jstr := reverse (trimStart (reverse s)).

Definition trim (s : jstr) : jstr := trimEnd (trimStart s).

(** [s.includes(t)]. *)
Fixpoint includes (s t : jstr) : bool :=
  bool_decide (t `prefix_of` s) || match s with [] => false | _ :: s' => includes s' t end.

(** [s.lastIndexOf(c)] for a string of one code unit, -1 when absent. *)
Fixpoint lastIndexOf (s : jstr) (c : Z) : Z :=
  match s with
  | [] => -1
  | d :: s' =>
      let i := lastIndexOf s' c in
      if 0 <=? i then i + 1 else if d =? c then 0 else -1
  end.

(** [s.slice(i)] and [s.slice(0, n)] for indexes that are not negative. *)
Definition slice_from (s : jstr) (i : Z) : jstr := drop (Z.to_nat i) s.
Definition slice_to (s : jstr) (n : Z) : jstr := take (Z.to_nat n) s.

Definition jlen (s : jstr) : Z := Z.of_nat (length s).

Definition is_high_surrogate (c : Z) : bool := (0xD800 <=? c) && (c <=? 0xDBFF).
Definition is_low_surrogate (c : Z) : bool := (0xDC00 <=? c) && (c <=? 0xDFFF).

(** [[...s]]: the code points, a surrogate pair being one and a lone surrogate
    standing for itself. *)
Fixpoint code_points (s : jstr) : list Z :=
  match s with
  | [] => []
  | c :: s' =>
      match s' with
      | d :: s'' =>
          if is_high_surrogate c && is_low_surrogate d
          then 0x10000 + (c - 0xD800) * 0x400 + (d - 0xDC00) :: code_points s''
          else c :: code_points s'
      | [] => [c]
      end
  end.

(** [Buffer.byteLength(s, "utf8")]; a lone surrogate is encoded as U+FFFD. *)
Definition utf8_bytes (p : Z) : Z :=
  if p <? 0x80 then 1 else if p <? 0x800 then 2 else if p <? 0x10000 then 3 else 4.
Definition byteLength (s : jstr) : Z := foldr Z.add 0 (utf8_bytes <$> code_points s).

Fixpoint jjoin (sep : jstr) (l : list jstr) : jstr :=
  match l with
  | [] => []
  | [s] => s
  | s :: l' => s ++ sep ++ jjoin sep l'
  end.

(** [`${n}`] for an integer. *)
Definition jnum (n : Z) : jstr := js (num_str n).

Definition jnl : jstr := [10].

(** ** Thrown values and effects *)

(** A thrown value: an [Error] with its message, or anything else with its
    string conversion; gRPC errors carry a status code. *)
Inductive Thrown : Type :=
| ThrownError (code : option Z) (message : jstr)
| ThrownOther (code : option Z) (text : jstr).

Definition thrown_code (e : Thrown) : option Z :=
  match e with ThrownError c _ => c | ThrownOther c _ => c end.

(** errors.ts [describeErr]. *)
Definition describeErr (e : Thrown) : jstr :=
  match e with ThrownError _ m => m | ThrownOther _ t => t end.

(** [new Error(message)]. *)
Definition new_Error (message : jstr) : Thrown := ThrownError None message.

Inductive Outcome (A : Type) : Type :=
| Returned (a : A)
| Threw (e : Thrown)
| OutOfFuel.
#[global] Arguments Returned {A} a.
#[global] Arguments Threw {A} e.
#[global] Arguments OutOfFuel {A}.

(** An asynchronous function over a world [W]. *)
Definition Eff (W A : Type) : Type := W → Outcome A * W.

#[global] Instance eff_ret {W} : MRet (Eff W) := λ A a w, (Returned a, w).
#[global] Instance eff_bind {W} : MBind (Eff W) := λ A B f m w,
  match m w with
  | (Returned a, w') => f a w'
  | (Threw e, w') => (Threw e, w')
  | (OutOfFuel, w') => (OutOfFuel, w')
  end.
Definition throw {W A} (e : Thrown) : Eff W A := λ w, (Threw e, w).

(** [try { m } catch (e) { h(e) }]. *)
Definition try_catch {W A} (m : Eff W A) (h : Thrown → Eff W A) : Eff W A := λ w,
  match m w with
  | (Threw e, w') => h e w'
  | r => r
  end.

(** ** Facts *)

Lemma includes_spec s t : includes s t = true ↔ ∃ l r, s = l ++ t ++ r.
Proof.
  induction s as [|c s IH]; simpl.
  - rewrite orb_false_r, bool_decide_eq_true; split.
    + intros [r Hr]; by exists [], r.
    + intros (l & r & Heq); destruct l, t; simplify_eq/=; by exists [].
  - rewrite orb_true_iff, bool_decide_eq_true, IH; split.
    + intros [[r Hr]|(l & r & ->)]; [by exists [], r|by exists (c :: l), r].
    + intros ([|d l] & r & Heq); simplify_eq/=; [left; by exists r|right; eauto].
Qed.

Lemma trimStart_suffix s : trimStart s `suffix_of` s.
Proof. induction s as [|c s IH]; simpl; [done|]; case_match; [by apply suffix_cons_r|done]. Qed.

Lemma trimStart_head s c s' : trimStart s = c :: s' → is_js_space c = false.
Proof. induction s as [|d s IH]; simpl; [done|]; case_match; naive_solver. Qed.

Lemma trimStart_idemp s : trimStart (trimStart s) = trimStart s.
Proof.
  destruct (trimStart s) as [|c s'] eqn:E; [done|]; simpl.
  by rewrite (trimStart_head _ _ _ E).
Qed.

Lemma trimEnd_prefix s : trimEnd s `prefix_of` s.
Proof.
  unfold trimEnd; destruct (trimStart_suffix (reverse s)) as [l Hl].
  exists (reverse l); by rewrite <- reverse_app, <- Hl, reverse_involutive.
Qed.

(** A trimmed string: no white space at either end. *)
Definition trimmed (s : jstr) : Prop := trimStart s = s ∧ trimEnd s = s.

Lemma trimStart_prefix_fixed s t : trimStart s = s → t `prefix_of` s → trimStart t = t.
Proof.
  intros Hs [r ->]; destruct t as [|c t]; [done|]; simpl in *.
  destruct (is_js_space c) eqn:Hc; [exfalso|done].
  apply (f_equal (hd 0)) in Hs; simpl in Hs.
  destruct (trimStart (t ++ r)) as [|d u] eqn:E.
  - simpl in Hs; subst c; by vm_compute in Hc.
  - simpl in Hs; subst d; apply trimStart_head in E; congruence.
Qed.

Lemma trim_trimmed s : trimmed (trim s).
Proof.
  unfold trim; split.
  - apply (trimStart_prefix_fixed (trimStart s)); [apply trimStart_idemp|apply trimEnd_prefix].
  - unfold trimEnd; by rewrite reverse_involutive, trimStart_idemp.
Qed.

Lemma trimmed_trim s : trimmed s → trim s = s.
Proof. intros [H1 H2]; unfold trim; by rewrite H1, H2. Qed.

Lemma trim_idemp s : trim (trim s) = trim s.
Proof. apply trimmed_trim, trim_trimmed. Qed.

Lemma code_points_length s : (length (code_points s) ≤ length s)%nat.
Proof.
  induction s as [s IH] using (induction_ltof1 _ length); unfold ltof in IH.
  destruct s as [|c [|d s]]; simpl; [lia..|].
  case_match; simpl.
  - specialize (IH s); simpl in IH; lia.
  - specialize (IH (d :: s)); simpl in IH; lia.
Qed.

Lemma lastIndexOf_absent s c : c ∉ s → lastIndexOf s c = -1.
Proof.
  induction s as [|d s IH]; simpl; [done|]; rewrite not_elem_of_cons; intros [Hc Hs].
  rewrite IH by done; simpl; by destruct (Z.eqb_spec d c).
Qed.

Lemma lastIndexOf_app s c t : c ∉ t → lastIndexOf (s ++ c :: t) c = jlen s.
Proof.
  intros Ht; unfold jlen; induction s as [|d s IH]; simpl.
  - by rewrite (lastIndexOf_absent t), Z.eqb_refl.
  - rewrite IH; destruct (Z.leb_spec 0 (Z.of_nat (length s))); lia.
Qed.

(** What follows the last separator, and the whole string without one. *)
Lemma after_last_app s c t : c ∉ t → slice_from (s ++ c :: t) (lastIndexOf (s ++ c :: t) c + 1) = t.
Proof.
  intros Ht; rewrite lastIndexOf_app by done; unfold slice_from, jlen.
  rewrite Z2Nat.inj_add, Nat2Z.id by lia; change (Z.to_nat 1) with 1%nat.
  rewrite cons_middle, app_assoc, drop_app_length'; [done|].
  rewrite length_app; done.
Qed.

#[export] Hint Resolve trim_trimmed : js.
#[export] Hint Rewrite trim_idemp trimStart_idemp : js.
