(* ===== verification/MemoryStore.v ===== *)
(** * The store adapters of the memory library (store.ts)

    [MemoryServiceCalls] and [WikiServiceCalls] are the service clients, already
    under the injected unary policy: one effect per remote call.  [memory_client]
    and [wiki_client] are the classes [MemoryClient] and [WikiClient], which
    build resource names and requests and walk pages; they implement the
    interfaces [MemoryStoreRpcs] and [WikiStore] the operations are written
    against. *)

From S2P Require Import Prelude JsText.

(** ** Memories *)

Record MemoryEntry : Type := mkEntry { memory_id : jstr; content : jstr }.

#[global] Instance MemoryEntry_eq_dec : EqDecision MemoryEntry.
Proof. solve_decision. Defined.

Definition slash : Z := 47.

Definition presetName (template preset : jstr) : jstr :=
  js "templates/" ++ template ++ js "/presets/" ++ preset.

Definition memoryName (template preset memoryId : jstr) : jstr :=
  presetName template preset ++ js "/memories/" ++ memoryId.

Definition parseMemoryName (name : jstr) : jstr := slice_from name (lastIndexOf name slash + 1).

Record ListedMemory : Type := mkListed { lm_name : option jstr; lm_content : option jstr }.

Record ListMemoriesOptions : Type := mkListOptions { orderBy : option jstr; pageSize : option Z }.
Definition no_options : ListMemoriesOptions := mkListOptions None None.

Record CreateMemoryRequest : Type := mkCreateMemory {
  cm_parent : jstr;
  cm_memoryId : jstr;
  cm_name : jstr;
  cm_content : jstr;
}.
Record UpdateMemoryRequest : Type := mkUpdateMemory {
  um_name : jstr;
  um_content : jstr;
  um_paths : list jstr;
}.
Record DeleteMemoryRequest : Type := mkDeleteMemory { dm_name : jstr }.
Record ListMemoriesRequest : Type := mkListMemories {
  lq_parent : jstr;
  lq_pageToken : option jstr;
  lq_pageSize : option Z;
  lq_orderBy : option jstr;
}.
Record ListMemoriesResponse : Type := mkListResponse {
  lr_memories : list ListedMemory;
  lr_nextPageToken : option jstr;
}.

(** The calls of the memory service, and the seam the operations consume. *)
Class MemoryServiceCalls (W : Type) := {
  rpc_createMemory : CreateMemoryRequest → Eff W unit;
  rpc_updateMemory : UpdateMemoryRequest → Eff W unit;
  rpc_deleteMemory : DeleteMemoryRequest → Eff W unit;
  rpc_listMemories : ListMemoriesRequest → Eff W (option ListMemoriesResponse);
}.

Class MemoryStoreRpcs (W : Type) := {
  createMemory : jstr → jstr → jstr → jstr → Eff W unit;
  updateMemory : jstr → jstr → jstr → jstr → Eff W unit;
  deleteMemory : jstr → jstr → jstr → Eff W unit;
  listMemories : jstr → jstr → ListMemoriesOptions → Eff W (list MemoryEntry);
}.

(** A page token travels only when it is not empty ([pageToken || undefined]). *)
Definition token_field (t : jstr) : option jstr := if bool_decide (t = []) then None else Some t.

Definition listed_entry (m : ListedMemory) : option MemoryEntry :=
  match lm_name m, lm_content m with
  | Some n, Some c => Some (mkEntry (parseMemoryName n) c)
  | _, _ => None
  end.

Definition response_entries (r : option ListMemoriesResponse) : list MemoryEntry :=
  match r with Some r => omap listed_entry (lr_memories r) | None => [] end.

Section MemoryClient.
Context {W : Type} `{MemoryServiceCalls W}.

Definition client_createMemory (template preset memoryId content : jstr) : Eff W unit :=
  rpc_createMemory (mkCreateMemory (presetName template preset) memoryId
    (memoryName template preset memoryId) content).

Definition client_updateMemory (template preset memoryId content : jstr) : Eff W unit :=
  rpc_updateMemory (mkUpdateMemory (memoryName template preset memoryId) content [js "content"]).

Definition client_deleteMemory (template preset memoryId : jstr) : Eff W unit :=
  rpc_deleteMemory (mkDeleteMemory (memoryName template preset memoryId)).

(** The page loop; a server that never stops handing out tokens exhausts any
    fuel. *)
Fixpoint list_pages (fuel : nat) (parent : jstr) (options : ListMemoriesOptions)
    (entries : list MemoryEntry) (pageToken : jstr) : Eff W (list MemoryEntry) :=
  match fuel with
  | O => λ w, (OutOfFuel, w)
  | S fuel =>
      response ← rpc_listMemories
        (mkListMemories parent (token_field pageToken) (pageSize options) (orderBy options));
      let entries := entries ++ response_entries response in
      let pageToken :=
        if bool_decide (is_Some (pageSize options)) then []
        else default [] (response ≫= lr_nextPageToken) in
      if 0 <? jlen pageToken then list_pages fuel parent options entries pageToken
      else mret entries
  end.

Definition client_listMemories (fuel : nat) (template preset : jstr)
    (options : ListMemoriesOptions) : Eff W (list MemoryEntry) :=
  list_pages fuel (presetName template preset) options [] [].

(** The class [MemoryClient], its page loop run on the given fuel. *)
Definition memory_client (fuel : nat) : MemoryStoreRpcs W := {|
  createMemory := client_createMemory;
  updateMemory := client_updateMemory;
  deleteMemory := client_deleteMemory;
  listMemories := client_listMemories fuel;
|}.
End MemoryClient.

(** ** Wikis *)

Definition wikiName (template wikiId : jstr) : jstr :=
  js "templates/" ++ template ++ js "/wikis/" ++ wikiId.

Definition parseWikiName (name : jstr) : jstr := slice_from name (lastIndexOf name slash + 1).

Record WikiSummary : Type := mkSummary { ws_name : jstr; ws_title : jstr }.
Record Wiki : Type := mkWiki { wk_name : jstr; wk_title : jstr; wk_content : jstr }.
Record PageOptions : Type := mkPageOptions { po_pageSize : option Z; po_pageToken : option jstr }.
Record SearchWikisPage : Type := mkSearchPage { sp_wikis : list WikiSummary; sp_nextPageToken : jstr }.
Record ListWikisPage : Type := mkListPage { lp_wikis : list Wiki; lp_nextPageToken : jstr }.

#[global] Instance WikiSummary_eq_dec : EqDecision WikiSummary.
Proof. solve_decision. Defined.

Record ListedWikiSummary : Type := mkListedSummary { ls_name : option jstr; ls_title : option jstr }.
Record ListedWiki : Type := mkListedWiki {
  lw_name : option jstr;
  lw_title : option jstr;
  lw_content : option jstr;
}.
Record SearchWikisRequest : Type := mkSearchWikis {
  sq_parent : jstr;
  sq_query : jstr;
  sq_pageToken : option jstr;
  sq_pageSize : option Z;
}.
Record SearchWikisResponse : Type := mkSearchResponse {
  sr_wikis : list ListedWikiSummary;
  sr_nextPageToken : option jstr;
}.
Record CreateWikiRequest : Type := mkCreateWiki {
  cw_parent : jstr;
  cw_wikiId : jstr;
  cw_name : jstr;
  cw_title : jstr;
  cw_content : jstr;
}.
Record UpdateWikiRequest : Type := mkUpdateWiki {
  uw_name : jstr;
  uw_content : jstr;
  uw_paths : list jstr;
}.
Record ListWikisRequest : Type := mkListWikis {
  wq_parent : jstr;
  wq_pageToken : option jstr;
  wq_pageSize : option Z;
}.
Record ListWikisResponse : Type := mkListWikisResponse {
  wr_wikis : list ListedWiki;
  wr_nextPageToken : option jstr;
}.

Class WikiServiceCalls (W : Type) := {
  rpc_searchWikis : SearchWikisRequest → Eff W (option SearchWikisResponse);
  rpc_getWiki : jstr → Eff W (option ListedWiki);
  rpc_createWiki : CreateWikiRequest → Eff W unit;
  rpc_updateWiki : UpdateWikiRequest → Eff W unit;
  rpc_deleteWiki : jstr → Eff W unit;
  rpc_listWikis : ListWikisRequest → Eff W (option ListWikisResponse);
}.

Class WikiStore (W : Type) := {
  searchWikis : jstr → jstr → PageOptions → Eff W SearchWikisPage;
  getWiki : jstr → jstr → Eff W Wiki;
  createWiki : jstr → jstr → jstr → jstr → Eff W unit;
  updateWiki : jstr → jstr → jstr → Eff W unit;
  deleteWiki : jstr → jstr → Eff W unit;
  listWikis : jstr → PageOptions → Eff W ListWikisPage;
}.

Definition listed_summary (s : ListedWikiSummary) : option WikiSummary :=
  match ls_name s, ls_title s with
  | Some n, Some t => Some (mkSummary n t)
  | _, _ => None
  end.

Definition listed_wiki (w : ListedWiki) : option Wiki :=
  match lw_name w, lw_title w with
  | Some n, Some t => Some (mkWiki n t (default [] (lw_content w)))
  | _, _ => None
  end.

(** [options?.pageToken || undefined]. *)
Definition page_token (o : PageOptions) : option jstr := po_pageToken o ≫= token_field.

Section WikiClient.
Context {W : Type} `{WikiServiceCalls W}.

Definition templateName (template : jstr) : jstr := js "templates/" ++ template.

Definition client_searchWikis (template query : jstr) (o : PageOptions) : Eff W SearchWikisPage :=
  response ← rpc_searchWikis (mkSearchWikis (templateName template) query (page_token o) (po_pageSize o));
  mret (mkSearchPage (default [] (omap listed_summary ∘ sr_wikis <$> response))
    (default [] (response ≫= sr_nextPageToken))).

Definition client_getWiki (template wikiId : jstr) : Eff W Wiki :=
  let name := wikiName template wikiId in
  response ← rpc_getWiki name;
  mret (mkWiki (default name (response ≫= lw_name)) (default [] (response ≫= lw_title))
    (default [] (response ≫= lw_content))).

Definition client_createWiki (template wikiId title content : jstr) : Eff W unit :=
  rpc_createWiki (mkCreateWiki (templateName template) wikiId (wikiName template wikiId) title content).

Definition client_updateWiki (template wikiId content : jstr) : Eff W unit :=
  rpc_updateWiki (mkUpdateWiki (wikiName template wikiId) content [js "content"]).

Definition client_deleteWiki (template wikiId : jstr) : Eff W unit :=
  rpc_deleteWiki (wikiName template wikiId).

Definition client_listWikis (template : jstr) (o : PageOptions) : Eff W ListWikisPage :=
  response ← rpc_listWikis (mkListWikis (templateName template) (page_token o) (po_pageSize o));
  mret (mkListPage (default [] (omap listed_wiki ∘ wr_wikis <$> response))
    (default [] (response ≫= wr_nextPageToken))).

(** The class [WikiClient]. *)
Definition wiki_client : WikiStore W := {|
  searchWikis := client_searchWikis;
  getWiki := client_getWiki;
  createWiki := client_createWiki;
  updateWiki := client_updateWiki;
  deleteWiki := client_deleteWiki;
  listWikis := client_listWikis;
|}.
End WikiClient.
