(* ===== verification/MemoryService.v ===== *)
(** * What the memory service promises, and the client that relies on it

    [LawfulService] states the documented behaviour of the remote calls (AIP-133,
    AIP-134, AIP-135, AIP-132: create refuses a taken id with ALREADY_EXISTS,
    update and delete address an existing resource, list pages through the
    collection), [LawfulStore] what the operations need of the store interface;
    the client adapter turns the first into the second.  The walk of the pages
    terminates on every server whose tokens advance. *)

From S2P Require Import Prelude JsText MemoryStore.

Definition ALREADY_EXISTS : Z := 6.

(** The entries of a listing are the contents of a collection. *)
Definition entry_pair (e : MemoryEntry) : jstr * jstr := (memory_id e, content e).

Definition listed (es : list MemoryEntry) (m : gmap jstr jstr) : Prop :=
  NoDup (memory_id <$> es) ∧ list_to_map (entry_pair <$> es) = m.

Definition no_slash (s : jstr) : Prop := slash ∉ s.

(** ** The store, as the operations see it *)

Class LawfulStore (W : Type) (S : MemoryStoreRpcs W) := {
  contents : W → jstr → jstr → gmap jstr jstr;
  room : nat;
  law_list t p w :
    (size (contents w t p) ≤ room)%nat →
    ∃ es w', listMemories t p no_options w = (Returned es, w') ∧
      listed es (contents w t p) ∧ contents w' t p = contents w t p;
  law_create t p id c w :
    no_slash id → contents w t p !! id = None →
    ∃ w', createMemory t p id c w = (Returned tt, w') ∧ contents w' t p = <[id:=c]> (contents w t p);
  law_conflict t p id c w :
    no_slash id → is_Some (contents w t p !! id) →
    ∃ e w', createMemory t p id c w = (Threw e, w') ∧ thrown_code e = Some ALREADY_EXISTS ∧
      contents w' t p = contents w t p;
  law_update t p id c w :
    is_Some (contents w t p !! id) →
    ∃ w', updateMemory t p id c w = (Returned tt, w') ∧ contents w' t p = <[id:=c]> (contents w t p);
  law_delete t p id w :
    is_Some (contents w t p !! id) →
    ∃ w', deleteMemory t p id w = (Returned tt, w') ∧ contents w' t p = delete id (contents w t p);
}.

(** ** The service *)

Section Pages.
Context {W : Type} `{MemoryServiceCalls W}.

Definition next_token (r : option ListMemoriesResponse) : jstr := default [] (r ≫= lr_nextPageToken).

(** The pages a server hands out from a token on: their entries, their number and
    the world after them. *)
Inductive Pages (parent : jstr) : jstr → W → list MemoryEntry → nat → W → Prop :=
| Pages_last token w r w' :
    rpc_listMemories (mkListMemories parent (token_field token) None None) w = (Returned r, w') →
    next_token r = [] →
    Pages parent token w (response_entries r) 1 w'
| Pages_more token w r w1 es n w' :
    rpc_listMemories (mkListMemories parent (token_field token) None None) w = (Returned r, w1) →
    next_token r ≠ [] →
    Pages parent (next_token r) w1 es n w' →
    Pages parent token w (response_entries r ++ es) (S n) w'.

Lemma jlen_pos (s : jstr) : (0 <? jlen s) = bool_decide (s ≠ []).
Proof. by destruct s. Qed.

(** One request, from the loop. *)
Lemma list_pages_step fuel parent o es token w :
  list_pages (S fuel) parent o es token w =
  match rpc_listMemories (mkListMemories parent (token_field token) (pageSize o) (orderBy o)) w with
  | (Returned r, w') =>
      if bool_decide (is_Some (pageSize o) ∨ next_token r = [])
      then (Returned (es ++ response_entries r), w')
      else list_pages fuel parent o (es ++ response_entries r) (next_token r) w'
  | (Threw e, w') => (Threw e, w')
  | (OutOfFuel, w') => (OutOfFuel, w')
  end.
Proof.
  cbn [list_pages]; unfold mbind, eff_bind.
  destruct (rpc_listMemories _ w) as [[r| |] w']; [|done..].
  rewrite jlen_pos; fold (next_token r).
  destruct (decide (is_Some (pageSize o))) as [Ho|Ho].
  - rewrite !(bool_decide_eq_true_2 (is_Some _)) by done.
    by rewrite (bool_decide_eq_true_2 (_ ∨ _)) by tauto.
  - rewrite !(bool_decide_eq_false_2 (is_Some _)) by done.
    destruct (decide (next_token r = [])) as [Hn|Hn].
    + rewrite (bool_decide_eq_false_2 (next_token r ≠ [])), (bool_decide_eq_true_2 (_ ∨ _)) by tauto; done.
    + rewrite (bool_decide_eq_true_2 (next_token r ≠ [])), (bool_decide_eq_false_2 (_ ∨ _)) by tauto; done.
Qed.

(** With enough fuel the loop returns the entries of all the pages, in order. *)
Lemma list_pages_walks parent token w es n w' fuel acc :
  Pages parent token w es n w' → (n ≤ fuel)%nat →
  list_pages fuel parent no_options acc token w = (Returned (acc ++ es), w').
Proof.
  intros Hp; revert fuel acc.
  induction Hp as [token w r w' Hr Hn|token w r w1 es n w' Hr Hn _ IH]; intros fuel acc Hf;
    (destruct fuel as [|fuel]; [lia|]); rewrite list_pages_step; cbn [pageSize orderBy no_options]; rewrite Hr.
  - by rewrite bool_decide_eq_true_2 by tauto.
  - rewrite bool_decide_eq_false_2 by (intros [[? ?]|?]; done).
    rewrite IH by lia; by rewrite app_assoc.
Qed.

End Pages.

Class LawfulService (W : Type) (C : MemoryServiceCalls W) := {
  stored : W → jstr → gmap jstr jstr;
  stored_ids w (parent id : jstr) : is_Some (stored w parent !! id) → no_slash id;
  service_list parent w : ∃ es n w', Pages parent [] w es n w' ∧
    (n ≤ S (size (stored w parent)))%nat ∧ listed es (stored w parent) ∧ stored w' parent = stored w parent;
  service_create (parent id c : jstr) w :
    no_slash id → stored w parent !! id = None →
    ∃ w', rpc_createMemory (mkCreateMemory parent id (parent ++ js "/memories/" ++ id) c) w = (Returned tt, w') ∧
      stored w' parent = <[id:=c]> (stored w parent);
  service_conflict (parent id c : jstr) w :
    no_slash id → is_Some (stored w parent !! id) →
    ∃ e w', rpc_createMemory (mkCreateMemory parent id (parent ++ js "/memories/" ++ id) c) w = (Threw e, w') ∧
      thrown_code e = Some ALREADY_EXISTS ∧ stored w' parent = stored w parent;
  service_update (parent id c : jstr) w :
    is_Some (stored w parent !! id) →
    ∃ w', rpc_updateMemory (mkUpdateMemory (parent ++ js "/memories/" ++ id) c [js "content"]) w = (Returned tt, w') ∧
      stored w' parent = <[id:=c]> (stored w parent);
  service_delete (parent id : jstr) w :
    is_Some (stored w parent !! id) →
    ∃ w', rpc_deleteMemory (mkDeleteMemory (parent ++ js "/memories/" ++ id)) w = (Returned tt, w') ∧
      stored w' parent = delete id (stored w parent);
}.

Lemma memoryName_parent t p id : memoryName t p id = presetName t p ++ js "/memories/" ++ id.
Proof. done. Qed.

(** The client over a lawful service is a lawful store for every collection
    smaller than its fuel. *)
#[global] Program Instance client_lawful {W C} (L : LawfulService W C) (fuel : nat) :
    LawfulStore W (memory_client (S fuel)) := {|
  contents w t p := stored w (presetName t p);
  room := fuel;
|}.
Next Obligation.
  intros W C L fuel t p w Hs.
  destruct (service_list (presetName t p) w) as (es & n & w' & Hp & Hn & Hl & Hw).
  exists es, w'; split_and!; [|done|done].
  apply (list_pages_walks _ [] w es n w' (S fuel) []); [done|change (size (stored w (presetName t p)) ≤ fuel)%nat in Hs; lia].
Qed.
Next Obligation. intros W C L fuel t p id c w; apply service_create. Qed.
Next Obligation. intros W C L fuel t p id c w; apply service_conflict. Qed.
Next Obligation. intros W C L fuel t p id c w; apply service_update. Qed.
Next Obligation. intros W C L fuel t p id w; apply service_delete. Qed.

(** ** Names *)

Lemma parseMemoryName_memory parent id : no_slash id → parseMemoryName (parent ++ js "/memories/" ++ id) = id.
Proof.
  intros Hid; unfold parseMemoryName.
  change (js "/memories/") with (js "/memories" ++ [slash]).
  rewrite <- (app_assoc (js "/memories")), app_assoc; apply after_last_app, Hid.
Qed.

(** ** The walk terminates *)

Section Termination.
Context {W : Type} `{MemoryServiceCalls W}.

(** The tokens of a server advance: a page that is not the last leaves strictly
    less to walk. *)
Definition tokens_advance (left : W → jstr → jstr → nat) : Prop :=
  ∀ parent token size order w r w',
    rpc_listMemories (mkListMemories parent (token_field token) size order) w = (Returned r, w') →
    next_token r ≠ [] → (left w' parent (next_token r) < left w parent token)%nat.

Lemma list_pages_enough left parent o : tokens_advance left →
  (∀ q w, (rpc_listMemories q w).1 ≠ OutOfFuel) →
  ∀ n acc token w, (left w parent token < n)%nat →
    (list_pages n parent o acc token w).1 ≠ OutOfFuel ∧
    ∀ k, list_pages (n + k) parent o acc token w = list_pages n parent o acc token w.
Proof.
  intros Hadv Hrpc n; induction n as [|n IH]; intros acc token w Hn; [lia|].
  specialize (Hrpc (mkListMemories parent (token_field token) (pageSize o) (orderBy o)) w) as Hr.
  split; [|intros k; rewrite Nat.add_succ_l]; rewrite !list_pages_step;
    destruct (rpc_listMemories _ w) as [[r|e|] w'] eqn:E; try done;
    (case_bool_decide as Hd; [done|]); (assert (Hlt := Hadv _ _ _ _ _ _ _ E ltac:(tauto)));
    apply IH; (lia || done).
Qed.

End Termination.

(** ** A server

    A concrete service: collections by parent, listed two by two, a page token
    being as long as the offset it stands for. *)

Notation DemoStore := (gmap jstr (gmap jstr jstr)).

#[global] Instance no_slash_dec s : Decision (no_slash s).
Proof. unfold no_slash; apply _. Defined.

Definition demo_stored (w : DemoStore) (parent : jstr) : gmap jstr jstr :=
  filter (λ kv, no_slash kv.1) (default ∅ (w !! parent)).

Definition demo_set (w : DemoStore) (parent : jstr) (m : gmap jstr jstr) : DemoStore := <[parent:=m]> w.

(** The parent and the id of a resource name. *)
Definition split_name (name : jstr) : jstr * jstr :=
  let i := lastIndexOf name slash in (slice_to name (i - 9), slice_from name (i + 1)).

Definition demo_token (offset : nat) : jstr := replicate offset 48.

Definition demo_page (l : list (jstr * jstr)) (parent : jstr) (offset : nat) : ListMemoriesResponse :=
  mkListResponse
    ((λ kv, mkListed (Some (parent ++ js "/memories/" ++ kv.1)) (Some kv.2)) <$> take 2 (drop offset l))
    (Some (if (offset + 2 <? length l)%nat then demo_token (offset + 2) else [])).

Definition not_found : Thrown := ThrownError (Some 5) (js "NOT_FOUND").
Definition already_exists : Thrown := ThrownError (Some ALREADY_EXISTS) (js "ALREADY_EXISTS").

Definition demo_create (q : CreateMemoryRequest) : Eff DemoStore unit := λ w,
  let m := demo_stored w (cm_parent q) in
  match m !! cm_memoryId q with
  | Some _ => (Threw already_exists, w)
  | None => (Returned tt, demo_set w (cm_parent q) (<[cm_memoryId q := cm_content q]> m))
  end.

Definition demo_update (q : UpdateMemoryRequest) : Eff DemoStore unit := λ w,
  let '(parent, id) := split_name (um_name q) in
  let m := demo_stored w parent in
  match m !! id with
  | Some _ => (Returned tt, demo_set w parent (<[id := um_content q]> m))
  | None => (Threw not_found, w)
  end.

Definition demo_delete (q : DeleteMemoryRequest) : Eff DemoStore unit := λ w,
  let '(parent, id) := split_name (dm_name q) in
  let m := demo_stored w parent in
  match m !! id with
  | Some _ => (Returned tt, demo_set w parent (delete id m))
  | None => (Threw not_found, w)
  end.

Definition demo_list (q : ListMemoriesRequest) : Eff DemoStore (option ListMemoriesResponse) := λ w,
  (Returned (Some (demo_page (map_to_list (demo_stored w (lq_parent q))) (lq_parent q)
    (length (default [] (lq_pageToken q))))), w).

Definition demo_service : MemoryServiceCalls DemoStore := {|
  rpc_createMemory := demo_create;
  rpc_updateMemory := demo_update;
  rpc_deleteMemory := demo_delete;
  rpc_listMemories := demo_list;
|}.

Lemma split_name_eq parent id : no_slash id → split_name (parent ++ js "/memories/" ++ id) = (parent, id).
Proof.
  intros Hid; unfold split_name.
  change (js "/memories/") with (js "/memories" ++ [slash]).
  rewrite <- (app_assoc (js "/memories")), app_assoc; f_equal; [|by apply after_last_app].
  change ([slash] ++ id) with (slash :: id); rewrite lastIndexOf_app by done.
  unfold slice_to, jlen; rewrite length_app; change (length (js "/memories")) with 9%nat.
  replace (Z.to_nat _) with (length parent) by lia.
  by rewrite <- app_assoc, take_app_length.
Qed.

Lemma demo_stored_set w parent m :
  (∀ id, is_Some (m !! id) → no_slash id) → demo_stored (demo_set w parent m) parent = m.
Proof.
  intros Hm; unfold demo_stored, demo_set; rewrite lookup_insert_eq; simpl.
  apply map_filter_id; intros id c Hc; apply Hm; by exists c.
Qed.

Lemma demo_ids w parent id : is_Some (demo_stored w parent !! id) → no_slash id.
Proof. intros [c Hc]; unfold demo_stored in Hc; by apply map_lookup_filter_Some in Hc as [_ ?]. Qed.

Lemma demo_entries l parent offset :
  Forall (λ kv : jstr * jstr, no_slash kv.1) l →
  response_entries (Some (demo_page l parent offset)) =
  (λ kv, mkEntry kv.1 kv.2) <$> take 2 (drop offset l).
Proof.
  intros Hl; unfold response_entries, demo_page; cbn [lr_memories].
  assert (Hs : Forall (λ kv : jstr * jstr, no_slash kv.1) (take 2 (drop offset l)))
    by by apply Forall_take, Forall_drop.
  induction Hs as [|[k c] r Hk _ IH]; [done|]; rewrite !fmap_cons, <- IH; cbn [omap list_omap].
  unfold listed_entry; cbn [lm_name lm_content fst snd]; by rewrite parseMemoryName_memory.
Qed.

Lemma token_field_length t : length (default [] (token_field t)) = length t.
Proof. unfold token_field; by case_bool_decide; simplify_eq/=. Qed.

Lemma demo_pages w parent (l := map_to_list (demo_stored w parent)) :
  Forall (λ kv : jstr * jstr, no_slash kv.1) l →
  ∀ d offset, (length l - offset ≤ d)%nat → ∃ n,
    @Pages _ demo_service parent (demo_token offset) w ((λ kv, mkEntry kv.1 kv.2) <$> drop offset l) n w ∧
    (n ≤ S d)%nat.
Proof.
  intros Hl d; induction d as [d IH] using lt_wf_ind; intros offset Hd.
  set (r := demo_page l parent offset).
  assert (Hr : @rpc_listMemories _ demo_service
      (mkListMemories parent (token_field (demo_token offset)) None None) w = (Returned (Some r), w))
    by (unfold rpc_listMemories, demo_service, demo_list; cbn [lq_parent lq_pageToken];
        rewrite token_field_length; unfold demo_token; by rewrite length_replicate).
  assert (He := demo_entries l parent offset Hl); fold r in He.
  destruct (Nat.ltb_spec (offset + 2) (length l)) as [Hlt|Hge].
  - assert (Hn : next_token (Some r) = demo_token (offset + 2))
      by (unfold next_token, r, demo_page; cbn [mbind option_bind lr_nextPageToken default];
        by rewrite (proj2 (Nat.ltb_lt (offset + 2) (length l)) Hlt)).
    destruct (IH (d - 2)%nat ltac:(lia) (offset + 2)%nat ltac:(lia)) as (n & Hp & Hle).
    exists (S n); split; [|lia].
    rewrite <- (take_drop 2 (drop offset l)), fmap_app, <- He, drop_drop.
    eapply Pages_more; [done|by rewrite Hn, Nat.add_comm|by rewrite Hn].
  - exists 1%nat; split; [|lia].
    rewrite <- (take_ge (drop offset l) 2), <- He by (rewrite length_drop; lia).
    eapply Pages_last; [done|]; unfold next_token, r, demo_page; cbn [mbind option_bind lr_nextPageToken default].
    by rewrite (proj2 (Nat.ltb_ge (offset + 2) (length l)) Hge).
Qed.

Lemma demo_listed (m : gmap jstr jstr) : listed ((λ kv, mkEntry kv.1 kv.2) <$> map_to_list m) m.
Proof.
  split; rewrite <- list_fmap_compose.
  - apply NoDup_fst_map_to_list.
  - rewrite <- (list_to_map_to_list m) at 2; f_equal.
    induction (map_to_list m) as [|[k c] l IH]; [done|]; by rewrite fmap_cons, IH.
Qed.

#[global] Program Instance demo_lawful : LawfulService DemoStore demo_service := {| stored := demo_stored |}.
Next Obligation. intros w parent id; apply demo_ids. Qed.
Next Obligation.
  intros parent w; set (l := map_to_list (demo_stored w parent)).
  assert (Hl : Forall (λ kv : jstr * jstr, no_slash kv.1) l).
  { apply Forall_forall; intros [k c] Hk; apply elem_of_map_to_list in Hk.
    by apply (demo_ids w parent); exists c. }
  destruct (demo_pages w parent Hl (length l) 0 (Nat.le_sub_l _ _)) as (n & Hp & Hn).
  exists ((λ kv, mkEntry kv.1 kv.2) <$> l), n, w; split_and!; [done| |apply demo_listed|done].
  by unfold l in Hn; rewrite length_map_to_list in Hn.
Qed.
Next Obligation.
  intros parent id c w Hid Hn; cbn; unfold demo_create; cbn; rewrite Hn.
  eexists; split; [done|]; apply demo_stored_set; intros id' [c' Hc'].
  apply lookup_insert_Some in Hc' as [[<- _]|[_ Hc']]; [done|]; by apply (demo_ids w parent); exists c'.
Qed.
Next Obligation.
  intros parent id c w Hid [c' Hc']; cbn; unfold demo_create; cbn; rewrite Hc'; by eexists _, _.
Qed.
Next Obligation.
  intros parent id c w [c' Hc']; unfold rpc_updateMemory, demo_service, demo_update; cbn [um_name um_content].
  assert (Hid : no_slash id) by (by apply (demo_ids w parent); exists c').
  rewrite split_name_eq, Hc' by done.
  eexists; split; [done|]; apply demo_stored_set; intros id' [d Hd].
  apply lookup_insert_Some in Hd as [[<- _]|[_ Hd]]; [done|]; by apply (demo_ids w parent); exists d.
Qed.
Next Obligation.
  intros parent id w [c' Hc']; unfold rpc_deleteMemory, demo_service, demo_delete; cbn [dm_name].
  assert (Hid : no_slash id) by (by apply (demo_ids w parent); exists c').
  rewrite split_name_eq, Hc' by done.
  eexists; split; [done|]; apply demo_stored_set; intros id' [d Hd].
  apply lookup_delete_Some in Hd as [_ Hd]; by apply (demo_ids w parent); exists d.
Qed.

(** The offsets of the server advance. *)
Lemma demo_advance :
  @tokens_advance _ demo_service
    (λ w parent token, size (demo_stored w parent) - length token)%nat.
Proof.
  intros parent token size order w r w' Hr Hn.
  unfold rpc_listMemories, demo_service, demo_list in Hr; cbn [lq_parent lq_pageToken] in Hr; simplify_eq.
  revert Hn; unfold next_token, demo_page; cbn [mbind option_bind lr_nextPageToken default].
  rewrite token_field_length, length_map_to_list.
  destruct (Nat.ltb_spec (length token + 2) (base.size (demo_stored w' parent))); [|done].
  intros _; unfold id, demo_token; rewrite length_replicate; lia.
Qed.

(** A digest that can be computed: a letter for every code unit. *)
Definition demo_digest (c : jstr) : jstr := (λ x, x `mod` 26 + 97) <$> c.

Lemma demo_digest_no_slash c : no_slash (demo_digest c).
Proof.
  unfold no_slash, demo_digest; rewrite list_elem_of_fmap; intros (x & Hx & _).
  unfold slash in Hx; pose proof (Z.mod_pos_bound x 26); lia.
Qed.

Definition demo_template : jstr := js "saolei".
Definition demo_preset : jstr := js "player".

Definition demo_world (m : gmap jstr jstr) : DemoStore := {[ presetName demo_template demo_preset := m ]}.

(** Five notes of a collection, listed in three pages. *)
Definition demo_notes : DemoStore :=
  demo_world (list_to_map [(js "a", js "flag corners"); (js "b", js "open edges"); (js "c", js "count twice");
                           (js "d", js "flag last"); (js "e", js "stay calm")]).

(** One note, stored under its digest. *)
Definition demo_single : DemoStore := demo_world {[ demo_digest (js "x") := js "x" ]}.
