(* ===== verification/Memory.v ===== *)
(** * The memory tool's operations (operations.ts, face.ts, snapshot.ts, tool.ts)

    One call of the tool is a single add, replace or remove, or a batch.  The
    operations are written against the store interface; the digest of the
    standard library of the host is a parameter. *)

From S2P Require Import Prelude JsText MemoryStore.

(** ** Arguments and result texts *)

Definition MEMORY_ACTIONS : list jstr := [js "add"; js "replace"; js "remove"].

Definition MEMORY_CONTENT_MAX_RUNES : Z := 1024.

Record MemoryOp : Type := mkOp {
  op_action : jstr;
  op_content : option jstr;
  op_old_text : option jstr;
}.

Record MemoryToolArgs : Type := mkArgs {
  ma_action : option jstr;
  ma_content : option jstr;
  ma_old_text : option jstr;
  ma_operations : option (list MemoryOp);
}.

Definition preview (content : jstr) : jstr :=
  let width := 80 in
  if width <? jlen content then slice_to content width ++ js "..." else content.

Definition renderEntries (entries : list MemoryEntry) : jstr :=
  if bool_decide (entries = []) then js "(no entries)"
  else jjoin jnl ((λ e, js "- " ++ content e) <$> entries).

Inductive Match : Type :=
| Matched (entry : MemoryEntry)
| MatchError (error : jstr).

(** The size of [new Set(contents)] is more than one. *)
Definition distinct_contents (entries : list MemoryEntry) : bool :=
  (1 <? length (remove_dups (content <$> entries)))%nat.

Definition matchBySubstring (entries : list MemoryEntry) (oldText : jstr) : Match :=
  let old := trim oldText in
  if bool_decide (old = []) then
    MatchError (js "memory: old_text cannot be empty. Check the current entries and retry:" ++ jnl
                ++ renderEntries entries)
  else
    let hits := filter (λ e, includes (content e) old = true) entries in
    match hits with
    | [] =>
        MatchError (js "memory: no entry matched '" ++ old ++ js "'. Check the current entries and retry with a more specific old_text:"
                    ++ jnl ++ renderEntries entries)
    | hit :: _ =>
        if (1 <? length hits)%nat && distinct_contents hits then
          MatchError (js "memory: multiple entries matched '" ++ old
                      ++ js "'. Be more specific (matched previews):" ++ jnl
                      ++ jjoin jnl ((λ e, js "- " ++ preview (content e)) <$> hits))
        else Matched hit
    end.

Definition ADDED_TEXT : jstr := js "memory added".
Definition REPLACED_TEXT : jstr := js "memory replaced".
Definition REMOVED_TEXT : jstr := js "memory removed".
Definition DEDUPE_TEXT : jstr := js "memory already exists (no duplicate added)".
Definition INVALID_CALL_TEXT : jstr :=
  js "memory: invalid call. Use action=add/replace/remove with content/old_text, or operations (batch).".
Definition AMBIGUOUS_ARGS_TEXT : jstr :=
  js "memory: provide EITHER action/content/old_text (single operation) OR operations (batch), not both.".
Definition MISSING_ARGS_TEXT : jstr :=
  js "memory: provide EITHER action/content/old_text (single operation) OR operations (batch).".
Definition EMPTY_CONTENT_TEXT : jstr := js "memory: content cannot be empty".
Definition EMPTY_BATCH_TEXT : jstr := js "memory: operations list is empty".

Definition countRunes (value : jstr) : Z := Z.of_nat (length (code_points value)).

Definition contentLimitSentence (count : Z) : jstr :=
  js "memory: content exceeds " ++ jnum MEMORY_CONTENT_MAX_RUNES ++ js " characters (got " ++ jnum count
  ++ js "). Keep entries short; store longer knowledge with wiki_write".
Definition contentLimitText (count : Z) : jstr := contentLimitSentence count ++ js ".".

(** ** The positions of an interrupted batch *)

Definition render_run (start stop : Z) : jstr :=
  if start =? stop then jnum start else jnum start ++ js "-" ++ jnum stop.

Fixpoint position_parts (start stop : Z) (positions : list Z) : list jstr :=
  match positions with
  | [] => [render_run start stop]
  | position :: rest =>
      if position =? stop + 1 then position_parts start position rest
      else render_run start stop :: position_parts position position rest
  end.

(** Called with at least one position. *)
Definition formatAppliedPositions (positions : list Z) : jstr :=
  match positions with
  | [] => []
  | start :: rest => jjoin (js ", ") (position_parts start start rest)
  end.

(** ** The operations *)

Inductive MemoryWrite : Type :=
| WriteCreate (id content : jstr) (opIndex : Z)
| WriteUpdate (id content : jstr) (opIndex : Z)
| WriteDelete (id : jstr) (opIndex : Z).

Definition write_index (w : MemoryWrite) : Z :=
  match w with WriteCreate _ _ i | WriteUpdate _ _ i | WriteDelete _ i => i end.

(** What one operation of a batch comes to in the preflight: an error reason, or
    the new working copy and the write it queues. *)
Inductive Preflight : Type :=
| Rejected (reason : jstr)
| Accepted (working : list MemoryEntry) (write : option MemoryWrite).

Section Operations.
Context (sha256_hex : jstr → jstr).

Definition generateMemoryId (content : jstr) : jstr := slice_to (sha256_hex content) 32.

(** [entries.findIndex((e) => e.memory_id === id)], as an index of the list. *)
Definition findIndex (working : list MemoryEntry) (id : jstr) : nat :=
  default (length working) (fst <$> list_find (λ e, memory_id e = id) working).

Definition preflight_add (working : list MemoryEntry) (op : MemoryOp) (i : Z) : Preflight :=
  let text := trim (default [] (op_content op)) in
  if bool_decide (text = []) then Rejected (js "content is required")
  else if MEMORY_CONTENT_MAX_RUNES <? countRunes text then Rejected (contentLimitSentence (countRunes text))
  else if bool_decide (text ∈ content <$> working) then Accepted working None
  else
    let id := generateMemoryId text in
    Accepted (working ++ [mkEntry id text]) (Some (WriteCreate id text i)).

Definition preflight_replace (working : list MemoryEntry) (op : MemoryOp) (i : Z) : Preflight :=
  let oldText := default [] (op_old_text op) in
  let text := trim (default [] (op_content op)) in
  if bool_decide (trim oldText = []) then Rejected (js "old_text is required")
  else if bool_decide (text = []) then
    Rejected (js "content is required (use action=remove to delete)")
  else if MEMORY_CONTENT_MAX_RUNES <? countRunes text then Rejected (contentLimitSentence (countRunes text))
  else
    match matchBySubstring working oldText with
    | MatchError error => Rejected error
    | Matched entry =>
        Accepted (<[findIndex working (memory_id entry) := mkEntry (memory_id entry) text]> working)
          (Some (WriteUpdate (memory_id entry) text i))
    end.

Definition preflight_remove (working : list MemoryEntry) (op : MemoryOp) (i : Z) : Preflight :=
  let oldText := default [] (op_old_text op) in
  if bool_decide (trim oldText = []) then Rejected (js "old_text is required")
  else
    match matchBySubstring working oldText with
    | MatchError error => Rejected error
    | Matched entry =>
        Accepted (delete (findIndex working (memory_id entry)) working)
          (Some (WriteDelete (memory_id entry) i))
    end.

Definition preflight_op (working : list MemoryEntry) (op : MemoryOp) (i : Z) : Preflight :=
  if bool_decide (op_action op = js "add") then preflight_add working op i
  else if bool_decide (op_action op = js "replace") then preflight_replace working op i
  else if bool_decide (op_action op = js "remove") then preflight_remove working op i
  else Rejected (js "unknown action '" ++ op_action op ++ js "' (use add, replace, or remove)").

(** The preflight loop: the writes queued, or the position and reason of the
    first operation refused. *)
Fixpoint preflight (working : list MemoryEntry) (operations : list MemoryOp) (i : Z)
    : (jstr * jstr) + list MemoryWrite :=
  match operations with
  | [] => inr []
  | op :: operations =>
      match preflight_op working op i with
      | Rejected reason => inl (js "operation " ++ jnum (i + 1), reason)
      | Accepted working write =>
          match preflight working operations (i + 1) with
          | inl error => inl error
          | inr writes => inr (option_list write ++ writes)
          end
      end
  end.

Definition batchError (entries : list MemoryEntry) (pos reason : jstr) : jstr :=
  js "memory: " ++ pos ++ js " failed: " ++ reason ++ js ". No operations were applied. Current entries:"
  ++ jnl ++ renderEntries entries.

Section Calls.
Context {W : Type} `{MemoryStoreRpcs W}.

Definition applyAdd (template preset content' : jstr) : Eff W jstr :=
  let text := trim content' in
  if bool_decide (text = []) then mret EMPTY_CONTENT_TEXT
  else if MEMORY_CONTENT_MAX_RUNES <? countRunes text then mret (contentLimitText (countRunes text))
  else
    entries ← listMemories template preset no_options;
    if bool_decide (text ∈ content <$> entries) then mret DEDUPE_TEXT
    else
      try_catch
        (_ ← createMemory template preset (generateMemoryId text) text; mret ADDED_TEXT)
        (λ err, if bool_decide (thrown_code err = Some 6) then mret DEDUPE_TEXT else throw err).

Definition applyReplace (template preset oldText content' : jstr) : Eff W jstr :=
  let text := trim content' in
  if bool_decide (text = []) then
    mret (EMPTY_CONTENT_TEXT ++ js " (use action=remove to delete entries)")
  else if MEMORY_CONTENT_MAX_RUNES <? countRunes text then mret (contentLimitText (countRunes text))
  else
    entries ← listMemories template preset no_options;
    match matchBySubstring entries oldText with
    | MatchError error => mret error
    | Matched entry =>
        _ ← updateMemory template preset (memory_id entry) text; mret REPLACED_TEXT
    end.

Definition applyRemove (template preset oldText : jstr) : Eff W jstr :=
  entries ← listMemories template preset no_options;
  match matchBySubstring entries oldText with
  | MatchError error => mret error
  | Matched entry => _ ← deleteMemory template preset (memory_id entry); mret REMOVED_TEXT
  end.

Definition perform (template preset : jstr) (write : MemoryWrite) : Eff W unit :=
  match write with
  | WriteCreate id text _ => createMemory template preset id text
  | WriteUpdate id text _ => updateMemory template preset id text
  | WriteDelete id _ => deleteMemory template preset id
  end.

Definition commit_error (applied : list Z) (err : Thrown) : Thrown :=
  if bool_decide (applied = []) then err
  else
    let one := bool_decide (length applied = 1%nat) in
    new_Error (describeErr err ++ js "; " ++ js (if one then "operation" else "operations") ++ js " "
      ++ formatAppliedPositions applied ++ js " " ++ js (if one then "was" else "were")
      ++ js " applied before the failure").

(** The commit loop, with the positions applied so far. *)
Fixpoint commit (template preset : jstr) (applied : list Z) (writes : list MemoryWrite) : Eff W unit :=
  match writes with
  | [] => mret tt
  | write :: writes =>
      _ ← try_catch (perform template preset write) (λ err, throw (commit_error applied err));
      commit template preset (applied ++ [write_index write + 1]) writes
  end.

Definition applyBatch (template preset : jstr) (operations : list MemoryOp) : Eff W jstr :=
  if bool_decide (length operations = 0%nat) then mret EMPTY_BATCH_TEXT
  else
    entries ← listMemories template preset no_options;
    match preflight entries operations 0 with
    | inl (pos, reason) => mret (batchError entries pos reason)
    | inr writes =>
        _ ← commit template preset [] writes;
        mret (js "memory: applied " ++ jnum (Z.of_nat (length writes)) ++ js " operation(s)")
    end.

Definition applyMemoryCall (template preset : jstr) (args : MemoryToolArgs) : Eff W jstr :=
  match ma_action args, ma_operations args with
  | Some _, Some _ => mret AMBIGUOUS_ARGS_TEXT
  | None, None => mret MISSING_ARGS_TEXT
  | None, Some operations => applyBatch template preset operations
  | Some action, None =>
      if bool_decide (action = js "add") then applyAdd template preset (default [] (ma_content args))
      else if bool_decide (action = js "replace") then
        applyReplace template preset (default [] (ma_old_text args)) (default [] (ma_content args))
      else if bool_decide (action = js "remove") then
        applyRemove template preset (default [] (ma_old_text args))
      else mret INVALID_CALL_TEXT
  end.
End Calls.
End Operations.

(** ** The snapshot and the face *)

Definition SNAPSHOT_ORDER_BY : jstr := js "update_time desc".
Definition SNAPSHOT_ENTRY_LIMIT : Z := 10.

(** The heading of the section, four CJK characters and a full-width colon. *)
Definition snapshot_heading : jstr := [0x957F; 0x671F; 0x8BB0; 0x5FC6; 0xFF1A].

Definition renderMemorySnapshot (entries : list MemoryEntry) : jstr :=
  if bool_decide (entries = []) then []
  else snapshot_heading ++ jnl ++ jjoin jnl (content <$> entries).

Record MemoryScope : Type := mkScope { sc_template : jstr; sc_preset : jstr }.

(** A face closes over its snapshot text. *)
Record MemoryFace : Type := mkFace { face_scope : MemoryScope; snapshotText : jstr }.

Definition createMemoryFace (scope : MemoryScope) : MemoryFace := mkFace scope [].

Section Face.
Context (sha256_hex : jstr → jstr) {W : Type} `{MemoryStoreRpcs W}.

(** [prefetch] writes the cache only after the read resolved. *)
Definition prefetch (face : MemoryFace) : W → Outcome unit * MemoryFace * W := λ w,
  let scope := face_scope face in
  match listMemories (sc_template scope) (sc_preset scope)
          (mkListOptions (Some SNAPSHOT_ORDER_BY) (Some SNAPSHOT_ENTRY_LIMIT)) w with
  | (Returned entries, w') => (Returned tt, mkFace scope (renderMemorySnapshot entries), w')
  | (Threw e, w') => (Threw e, face, w')
  | (OutOfFuel, w') => (OutOfFuel, face, w')
  end.

Definition applyCall (face : MemoryFace) (args : MemoryToolArgs) : Eff W jstr :=
  applyMemoryCall sha256_hex (sc_template (face_scope face)) (sc_preset (face_scope face)) args.

(** A text between double quotes. *)
Definition quoted (s : jstr) : jstr := 34 :: s ++ [34].

(** An execution names its agent, and the agent's context may hold a face. *)
Record ToolRunContext : Type := mkRun { run_agent : option (jstr * option MemoryFace) }.

Definition MEMORY_TOOL_NAME : jstr := js "memory".

Definition resolveMemoryFace (exec : ToolRunContext) (toolName : jstr) : Eff W MemoryFace :=
  match run_agent exec with
  | None =>
      throw (new_Error (toolName ++ js " tool requires an agent caller: no agent on the tool execution"))
  | Some (id, None) =>
      throw (new_Error (js "memory tools require the agent-scoped " ++ quoted (js "memory") ++ js " service; agent "
      ++ quoted id ++ js " has none" ++ jnl
      ++ js "(the team-layer materialization setup registers it from the memory capability mount)"))
  | Some (_, Some face) => mret face
  end.

Definition executeMemoryTool (args : MemoryToolArgs) (exec : ToolRunContext) : Eff W jstr :=
  try_catch
    (face ← resolveMemoryFace exec MEMORY_TOOL_NAME; applyCall face args)
    (λ err, mret (js "memory failed: " ++ describeErr err)).
End Face.
