(* ===== verification/MemoryFacts.v ===== *)
(** * What the memory tool promises

    A collection is, for the model that uses the tool, a multiset of notes:
    [spec_ops] says what a call does to it.  The operations refine that
    specification on every lawful store; whatever the store does, what they write
    respects the bounds, and what they report about an interrupted batch is what
    happened. *)

From stdpp Require Import gmultiset.
From S2P Require Import Prelude JsText MemoryStore MemoryService Memory.

#[local] Open Scope Z_scope.

(** ** The specification *)

Definition notes_of (m : gmap jstr jstr) : gmultiset jstr := list_to_set_disj (map_to_list m).*2.

(** The one content a locator designates. *)
Definition located (X : gmultiset jstr) (old : jstr) : option jstr :=
  match elements (filter (λ c, includes c old = true) (dom X : gset jstr)) with
  | [c] => Some c
  | _ => None
  end.

(** A content that may be stored: not blank, and within the bound. *)
Definition storable (text : jstr) : bool :=
  bool_decide (text ≠ []) && (countRunes text <=? MEMORY_CONTENT_MAX_RUNES).

Definition spec_op (X : gmultiset jstr) (op : MemoryOp) : option (gmultiset jstr) :=
  let text := trim (default [] (op_content op)) in
  let old := trim (default [] (op_old_text op)) in
  if bool_decide (op_action op = js "add") then
    if storable text then Some (if bool_decide (text ∈ X) then X else {[+ text +]} ⊎ X) else None
  else if bool_decide (op_action op = js "replace") then
    if bool_decide (old ≠ []) && storable text
    then c ← located X old; Some ({[+ text +]} ⊎ (X ∖ {[+ c +]})) else None
  else if bool_decide (op_action op = js "remove") then
    if bool_decide (old ≠ []) then c ← located X old; Some (X ∖ {[+ c +]}) else None
  else None.

Definition spec_ops (X : gmultiset jstr) (ops : list MemoryOp) : option (gmultiset jstr) :=
  foldM spec_op X ops.

(** The operations a call carries: one, a batch, or none when the forms are mixed. *)
Definition call_operations (args : MemoryToolArgs) : list MemoryOp :=
  match ma_action args, ma_operations args with
  | Some action, None => [mkOp action (ma_content args) (ma_old_text args)]
  | None, Some ops => ops
  | _, _ => []
  end.

(** ** Working copies *)

Definition notes (es : list MemoryEntry) : gmultiset jstr := list_to_set_disj (content <$> es).

Lemma notes_perm es es' : es ≡ₚ es' → notes es = notes es'.
Proof. intros Hp; unfold notes; apply list_to_set_disj_perm; by rewrite Hp. Qed.

Lemma notes_cons e es : notes (e :: es) = {[+ content e +]} ⊎ notes es.
Proof. done. Qed.

Lemma elem_of_notes c es : c ∈ notes es ↔ c ∈ content <$> es.
Proof. apply elem_of_list_to_set_disj. Qed.

Lemma listed_perm es es' m : es ≡ₚ es' → listed es m → listed es' m.
Proof.
  intros Hp [Hnd <-]; split; [by rewrite <- Hp|].
  apply list_to_map_proper; [|by rewrite Hp].
  rewrite <- list_fmap_compose; by rewrite <- Hp.
Qed.

Lemma listed_notes es m : listed es m → notes_of m = notes es.
Proof.
  intros [Hnd <-]; unfold notes_of, notes; apply list_to_set_disj_perm.
  rewrite map_to_list_to_map by (by rewrite <- list_fmap_compose).
  by rewrite <- list_fmap_compose.
Qed.

Lemma listed_lookup es m e : listed es m → e ∈ es → m !! memory_id e = Some (content e).
Proof.
  intros [Hnd <-] He; apply elem_of_list_to_map_1; [by rewrite <- list_fmap_compose|].
  apply list_elem_of_fmap; by exists e.
Qed.

Lemma listing_fresh es m id : listed es m → id ∉ memory_id <$> es → m !! id = None.
Proof.
  intros [Hnd <-] Hid; apply not_elem_of_list_to_map_1; by rewrite <- list_fmap_compose.
Qed.

Lemma listed_add es m id text :
  listed es m → id ∉ memory_id <$> es → listed (mkEntry id text :: es) (<[id:=text]> m).
Proof. intros [Hnd <-] Hid; split; [|done]; rewrite fmap_cons; by constructor. Qed.

Lemma listed_replace e es m text :
  listed (e :: es) m → listed (mkEntry (memory_id e) text :: es) (<[memory_id e:=text]> m).
Proof. intros [Hnd <-]; split; [done|]; simpl; by rewrite insert_insert_eq. Qed.

Lemma listed_remove e es m : listed (e :: es) m → listed es (delete (memory_id e) m).
Proof.
  intros [Hnd <-]; rewrite fmap_cons, NoDup_cons in Hnd; destruct Hnd as [He Hnd]; split; [done|]; simpl.
  rewrite delete_insert_id; [done|]; apply not_elem_of_list_to_map_1; by rewrite <- list_fmap_compose.
Qed.

(** The entry an id designates in a copy without repeated ids. *)
Lemma findIndex_spec es e : NoDup (memory_id <$> es) → e ∈ es → es !! findIndex es (memory_id e) = Some e.
Proof.
  intros Hnd He; unfold findIndex.
  destruct (list_find _ es) as [[i e']|] eqn:E.
  - apply list_find_Some in E as (Hi & Hid & _); simpl.
    apply list_elem_of_lookup_1 in He as [j Hj].
    assert (i = j) as -> by (eapply (NoDup_lookup _ _ _ (memory_id e) Hnd); rewrite list_lookup_fmap;
      [rewrite Hi|rewrite Hj]; simpl; congruence).
    congruence.
  - exfalso; eapply list_find_None in E; rewrite Forall_forall in E; by apply (E e He).
Qed.

Lemma insert_delete_perm {A} (l : list A) i x y :
  l !! i = Some y → <[i:=x]> l ≡ₚ x :: delete i l.
Proof.
  intros Hi; rewrite (insert_take_drop l i x) by (by apply lookup_lt_Some in Hi).
  by rewrite delete_take_drop, Permutation_middle.
Qed.

(** ** Locating an entry *)

Lemma head_filter_find {A} (P : A → Prop) `{!∀ x, Decision (P x)} (l : list A) :
  head (filter P l) = snd <$> list_find P l.
Proof.
  induction l as [|x l IH]; [done|]; rewrite filter_cons; simpl; case_decide; [done|]; rewrite IH.
  by destruct (list_find P l) as [[]|].
Qed.

Lemma located_spec X old c :
  located X old = Some c ↔ (c ∈ X ∧ includes c old = true) ∧ ∀ d, d ∈ X → includes d old = true → d = c.
Proof.
  unfold located; set (F := filter _ _).
  assert (HF : ∀ d, d ∈ F ↔ d ∈ X ∧ includes d old = true)
    by (intros d; unfold F; rewrite elem_of_filter, gmultiset_elem_of_dom; tauto).
  split.
  - destruct (elements F) as [|d [|? ?]] eqn:E; intros [= <-].
    assert (HE : ∀ x, x ∈ F ↔ x = d)
      by (intros x; rewrite <- elem_of_elements, E, list_elem_of_singleton; done).
    split; [by apply HF, HE|]; intros x Hx Hi; apply HE, HF; tauto.
  - intros [Hc Hu].
    assert (F = {[c]}) as -> by (apply set_eq; intros x; rewrite HF, elem_of_singleton; naive_solver).
    by rewrite elements_singleton.
Qed.

Lemma distinct_contents_spec es e :
  e ∈ es → distinct_contents es = false ↔ ∀ e', e' ∈ es → content e' = content e.
Proof.
  intros He; unfold distinct_contents; set (l := content <$> es).
  assert (Hl : content e ∈ remove_dups l)
    by (apply elem_of_remove_dups, list_elem_of_fmap; by exists e).
  pose proof (NoDup_remove_dups l) as Hnd.
  rewrite Nat.ltb_ge; split.
  - intros Hlen e' He'.
    assert (He1 : content e' ∈ remove_dups l)
      by (apply elem_of_remove_dups, list_elem_of_fmap; by exists e').
    destruct (remove_dups l) as [|x [|y k]]; simpl in Hlen; [by apply elem_of_nil in Hl| |lia].
    apply list_elem_of_singleton in Hl, He1; congruence.
  - intros Hall.
    assert (Hx : ∀ x, x ∈ remove_dups l → x = content e)
      by (intros x; rewrite elem_of_remove_dups; unfold l; rewrite list_elem_of_fmap; intros (e' & -> & He'); auto).
    destruct (remove_dups l) as [|x [|y k]]; simpl; [lia..|exfalso].
    rewrite (Hx x), (Hx y) in Hnd by set_solver; apply NoDup_cons in Hnd; set_solver.
Qed.

(** The match designates the entry the specification locates. *)
Lemma matchBySubstring_spec es oldText :
  trim oldText ≠ [] →
  match matchBySubstring es oldText with
  | Matched e => e ∈ es ∧ located (notes es) (trim oldText) = Some (content e)
  | MatchError _ => located (notes es) (trim oldText) = None
  end.
Proof.
  intros Hold; unfold matchBySubstring; rewrite bool_decide_eq_false_2 by done.
  set (old := trim oldText); set (hits := filter _ es).
  assert (Hh : ∀ e, e ∈ hits ↔ includes (content e) old = true ∧ e ∈ es)
    by (intros e; unfold hits; by rewrite list_elem_of_filter).
  assert (Hn : ∀ c, c ∈ notes es ∧ includes c old = true ↔ ∃ e, e ∈ hits ∧ content e = c).
  { intros c; rewrite elem_of_notes, list_elem_of_fmap; setoid_rewrite Hh; naive_solver. }
  destruct hits as [|hit rest] eqn:Eh.
  - apply eq_None_not_Some; intros [c Hc]; apply located_spec in Hc as [Hc _].
    apply Hn in Hc as (e & He & _); by apply elem_of_nil in He.
  - assert (Hin : hit ∈ hit :: rest) by left.
    destruct ((1 <? length (hit :: rest))%nat && distinct_contents (hit :: rest)) eqn:Ed.
    + apply andb_prop in Ed as [_ Ed]; apply eq_None_not_Some; intros [c Hc].
      apply located_spec in Hc as [_ Hu]; apply not_false_iff_true in Ed; apply Ed.
      apply (distinct_contents_spec _ hit Hin); intros e' He'.
      assert (Hall : ∀ e, e ∈ hit :: rest → content e = c)
        by (intros e He; destruct (proj2 (Hn (content e))) as [? ?]; [by exists e|by apply Hu]).
      by rewrite (Hall hit), (Hall e').
    + assert (Hall : ∀ e', e' ∈ hit :: rest → content e' = content hit).
      { apply andb_false_iff in Ed as [Ed|Ed].
        - apply Nat.ltb_ge in Ed; destruct rest as [|? ?]; simpl in Ed; [|lia].
          intros e' He'; apply list_elem_of_singleton in He'; by subst.
        - by apply distinct_contents_spec. }
      split; [by apply Hh|]; apply located_spec; split; [apply Hn; by exists hit|].
      intros d Hd Hi; destruct (proj1 (Hn d) (conj Hd Hi)) as (e & He & <-); auto.
Qed.

(** ** One operation of a batch *)

Section Refinement.
Context (sha256_hex : jstr → jstr) (Hhex : ∀ c, no_slash (sha256_hex c)).

(** An add whose digest is already the id of an entry with another content: the
    store refuses it. *)
Definition stale_add (working : list MemoryEntry) (op : MemoryOp) : bool :=
  let text := trim (default [] (op_content op)) in
  bool_decide (op_action op = js "add") && storable text && bool_decide (text ∉ content <$> working)
  && bool_decide (generateMemoryId sha256_hex text ∈ memory_id <$> working).

(** The entry a locator designates: the first with the one content it designates. *)
Definition designated (es : list MemoryEntry) (old : jstr) : option (nat * MemoryEntry) :=
  if bool_decide (old ≠ []) then c ← located (notes es) old; list_find (λ e, content e = c) es else None.

(** What one operation makes of the entries, ids included. *)
Definition spec_entries (es : list MemoryEntry) (op : MemoryOp) : option (list MemoryEntry) :=
  let text := trim (default [] (op_content op)) in
  let old := trim (default [] (op_old_text op)) in
  if bool_decide (op_action op = js "add") then
    if storable text
    then Some (if bool_decide (text ∈ content <$> es) then es else es ++ [mkEntry (generateMemoryId sha256_hex text) text])
    else None
  else if bool_decide (op_action op = js "replace") then
    if storable text
    then p ← designated es old; Some (<[p.1 := mkEntry (memory_id p.2) text]> es) else None
  else if bool_decide (op_action op = js "remove") then p ← designated es old; Some (delete p.1 es)
  else None.

(** The operations before the first add the store refuses, if one is reached. *)
Fixpoint before_stale (es : list MemoryEntry) (ops : list MemoryOp) : option (list MemoryOp) :=
  match ops with
  | [] => None
  | op :: ops =>
      if stale_add es op then Some []
      else es ← spec_entries es op; cons op <$> before_stale es ops
  end.

Definition apply_write (m : gmap jstr jstr) (w : MemoryWrite) : gmap jstr jstr :=
  match w with
  | WriteCreate id text _ | WriteUpdate id text _ => <[id:=text]> m
  | WriteDelete id _ => delete id m
  end.

(** A write the service accepts. *)
Definition valid_write (m : gmap jstr jstr) (w : MemoryWrite) : Prop :=
  match w with
  | WriteCreate id _ _ => no_slash id ∧ m !! id = None
  | WriteUpdate id _ _ | WriteDelete id _ => is_Some (m !! id)
  end.

(** The copy follows the writes and the specification. *)
Definition step_ok (working : list MemoryEntry) (m : gmap jstr jstr) (op : MemoryOp) (r : Preflight) : Prop :=
  match r with
  | Rejected _ => spec_op (notes working) op = None
  | Accepted working' write =>
      spec_op (notes working) op = Some (notes working') ∧
      Forall (valid_write m) (option_list write) ∧
      listed working' (foldl apply_write m (option_list write))
  end.

Lemma generateMemoryId_no_slash c : no_slash (generateMemoryId sha256_hex c).
Proof.
  unfold generateMemoryId, slice_to; intros Hs; apply (Hhex c).
  apply list_elem_of_In in Hs; apply list_elem_of_In.
  rewrite <- (take_drop (Z.to_nat 32) (sha256_hex c)); apply in_or_app; by left.
Qed.

Lemma storable_checks text :
  storable text = negb (bool_decide (text = [])) && negb (MEMORY_CONTENT_MAX_RUNES <? countRunes text).
Proof.
  unfold storable; rewrite bool_decide_not, Z.leb_antisym; done.
Qed.

Lemma preflight_add_ok working m op i :
  op_action op = js "add" → listed working m → stale_add working op = false →
  step_ok working m op (preflight_add sha256_hex working op i).
Proof.
  intros Hop Hl Hs; unfold preflight_add, step_ok, spec_op; unfold stale_add in Hs.
  rewrite Hop, storable_checks in *; rewrite (bool_decide_eq_true_2 (js "add" = js "add")) in * by done.
  set (text := trim _) in *.
  destruct (decide (text = [])) as [Ht|Ht]; [by rewrite !(bool_decide_eq_true_2 (text = [])) by done|].
  rewrite !(bool_decide_eq_false_2 (text = [])) in * by done; simpl in *.
  destruct (MEMORY_CONTENT_MAX_RUNES <? countRunes text); simpl in *; [done|].
  rewrite (bool_decide_ext (text ∈ notes working) (text ∈ content <$> working)) by apply elem_of_notes.
  destruct (decide (text ∈ content <$> working)) as [Hin|Hin].
  - rewrite !(bool_decide_eq_true_2 (text ∈ content <$> working)) by done; by simpl.
  - rewrite !(bool_decide_eq_false_2 (text ∈ content <$> working)) by done.
    rewrite (bool_decide_eq_true_2 (text ∉ _)) in Hs by done; apply bool_decide_eq_false in Hs; simpl.
    assert (Hp : mkEntry (generateMemoryId sha256_hex text) text :: working
      ≡ₚ working ++ [mkEntry (generateMemoryId sha256_hex text) text]) by apply Permutation_cons_append.
    split_and!.
    + by rewrite <- (notes_perm _ _ Hp).
    + constructor; [|done]; split; [apply generateMemoryId_no_slash|by eapply listing_fresh].
    + eapply listed_perm; [done|by apply listed_add].
Qed.

(** What a match leaves: the entry first, and the rest of the copy. *)
Lemma matched_split working m e :
  listed working m → e ∈ working →
  ∃ i rest, findIndex working (memory_id e) = i ∧ working !! i = Some e ∧ delete i working = rest ∧
    working ≡ₚ e :: rest ∧ listed (e :: rest) m.
Proof.
  intros Hl He; assert (Hi := findIndex_spec working e (proj1 Hl) He).
  eexists _, _; split_and!; [done..| |]; [by apply delete_Permutation|].
  eapply listed_perm; [by apply delete_Permutation|done].
Qed.

Lemma preflight_replace_ok working m op i :
  op_action op = js "replace" → listed working m → step_ok working m op (preflight_replace working op i).
Proof.
  intros Hop Hl; unfold preflight_replace, step_ok, spec_op; cbv zeta.
  rewrite Hop, storable_checks in *.
  rewrite (bool_decide_eq_false_2 (js "replace" = js "add")), (bool_decide_eq_true_2 (js "replace" = _)) by done.
  set (text := trim (default [] (op_content op))) in *.
  destruct (decide (trim (default [] (op_old_text op)) = [])) as [Ho|Ho].
  { by rewrite (bool_decide_eq_true_2 (trim _ = [])), (bool_decide_eq_false_2 (trim _ ≠ [])) by tauto. }
  rewrite (bool_decide_eq_false_2 (trim _ = [])), (bool_decide_eq_true_2 (trim _ ≠ [])) by done.
  destruct (decide (text = [])) as [Ht|Ht]; [by rewrite !(bool_decide_eq_true_2 (text = [])) by done|].
  rewrite !(bool_decide_eq_false_2 (text = [])) by done; simpl.
  destruct (MEMORY_CONTENT_MAX_RUNES <? countRunes text); simpl; [done|].
  pose proof (matchBySubstring_spec working (default [] (op_old_text op)) Ho) as Hm.
  destruct (matchBySubstring working _) as [e|]; [|by rewrite Hm].
  destruct Hm as [He ->]; destruct (matched_split working m e Hl He) as (j & rest & -> & Hj & Hr & Hp & Hle).
  assert (Hp' : <[j := mkEntry (memory_id e) text]> working ≡ₚ mkEntry (memory_id e) text :: rest)
    by (rewrite <- Hr; by eapply insert_delete_perm).
  simpl; split_and!.
  - rewrite (notes_perm _ _ Hp), (notes_perm _ _ Hp'), !notes_cons; simpl; do 2 f_equal; multiset_solver.
  - constructor; [|done]; exists (content e); eapply listed_lookup; [done|left].
  - eapply listed_perm; [by symmetry|by apply listed_replace].
Qed.

Lemma preflight_remove_ok working m op i :
  op_action op = js "remove" → listed working m → step_ok working m op (preflight_remove working op i).
Proof.
  intros Hop Hl; unfold preflight_remove, step_ok, spec_op; cbv zeta; rewrite Hop.
  rewrite !(bool_decide_eq_false_2 (js "remove" = js _)), (bool_decide_eq_true_2 (js "remove" = js "remove")) by done.
  destruct (decide (trim (default [] (op_old_text op)) = [])) as [Ho|Ho].
  { by rewrite (bool_decide_eq_true_2 (trim _ = [])), (bool_decide_eq_false_2 (trim _ ≠ [])) by tauto. }
  rewrite (bool_decide_eq_false_2 (trim _ = [])), (bool_decide_eq_true_2 (trim _ ≠ [])) by done.
  pose proof (matchBySubstring_spec working (default [] (op_old_text op)) Ho) as Hm.
  destruct (matchBySubstring working _) as [e|]; [|by rewrite Hm].
  destruct Hm as [He ->]; destruct (matched_split working m e Hl He) as (j & rest & -> & Hj & -> & Hp & Hle).
  simpl; split_and!.
  - rewrite (notes_perm _ _ Hp), notes_cons; f_equal; multiset_solver.
  - constructor; [|done]; exists (content e); eapply listed_lookup; [done|left].
  - by apply listed_remove.
Qed.

(** The first of the entries a locator matches is the one it designates. *)
Lemma matched_designated es oldText :
  NoDup (memory_id <$> es) →
  designated es (trim oldText) =
  match matchBySubstring es oldText with
  | Matched e => Some (findIndex es (memory_id e), e)
  | MatchError _ => None
  end.
Proof.
  intros Hnd; unfold designated; destruct (decide (trim oldText = [])) as [Ho|Ho].
  { unfold matchBySubstring; by rewrite (bool_decide_eq_true_2 (trim oldText = [])), (bool_decide_eq_false_2 (trim oldText ≠ [])) by tauto. }
  rewrite (bool_decide_eq_true_2 (trim oldText ≠ [])) by done.
  pose proof (matchBySubstring_spec es oldText Ho) as Hm.
  destruct (matchBySubstring es oldText) as [e|] eqn:E; [|by rewrite Hm]; destruct Hm as [He Hl]; rewrite Hl; simpl.
  assert (Hf : list_find (λ x, content x = content e) es = list_find (λ x, includes (content x) (trim oldText) = true) es).
  { apply located_spec in Hl as [[_ Hc] Hu]; clear -Hc Hu. unfold notes in Hu.
    assert (Hu' : ∀ x, x ∈ es → includes (content x) (trim oldText) = true ↔ content x = content e).
    { intros x Hx; split; [|by intros E; rewrite E].
      apply Hu, elem_of_notes, list_elem_of_fmap; eauto. }
    clear Hu; induction es as [|x es IH]; [done|]; simpl.
    pose proof (Hu' x ltac:(left)) as Hx; rewrite IH by (intros; apply Hu'; by right).
    repeat case_decide; tauto. }
  assert (Hh : head (filter (λ x, includes (content x) (trim oldText) = true) es) = Some e).
  { revert E; unfold matchBySubstring; rewrite bool_decide_eq_false_2 by done.
    destruct (filter _ es); [done|]; destruct (_ && _); [done|]; by intros [= ->]. }
  rewrite Hf; rewrite head_filter_find in Hh; apply fmap_Some in Hh as ([k x] & Hk & ->); rewrite Hk; simpl.
  apply list_find_Some in Hk as (Hk & _ & _); repeat f_equal.
  assert (Hi := findIndex_spec es x Hnd He).
  eapply (NoDup_lookup _ _ _ (memory_id x) Hnd); rewrite list_lookup_fmap; [by rewrite Hk|by rewrite Hi].
Qed.

(** The preflight makes of its copy what the specification makes of the entries. *)
Lemma preflight_entries es op i :
  NoDup (memory_id <$> es) →
  spec_entries es op =
  match preflight_op sha256_hex es op i with Accepted es' _ => Some es' | Rejected _ => None end.
Proof.
  intros Hnd; unfold spec_entries, preflight_op; rewrite !storable_checks, !matched_designated by done.
  unfold preflight_add, preflight_replace, preflight_remove; cbv zeta.
  set (text := trim (default [] (op_content op))); set (old := default [] (op_old_text op)).
  assert (Hm : trim old = [] → ∃ e, matchBySubstring es old = MatchError e)
    by (intros Ho; unfold matchBySubstring; rewrite (bool_decide_eq_true_2 (trim old = [])) by done; eauto).
  destruct (bool_decide (op_action op = js "add")).
  { destruct (bool_decide (text = [])), (MEMORY_CONTENT_MAX_RUNES <? countRunes text); try done; simpl.
    by case_bool_decide. }
  destruct (bool_decide (op_action op = js "replace")), (bool_decide (op_action op = js "remove")); try done;
    destruct (decide (trim old = [])) as [Ho|Ho].
  all: try (destruct (Hm Ho) as [e ->]; rewrite (bool_decide_eq_true_2 (trim old = [])) by done).
  all: try rewrite (bool_decide_eq_false_2 (trim old = [])) by done.
  all: destruct (bool_decide (text = [])), (MEMORY_CONTENT_MAX_RUNES <? countRunes text); try done; simpl.
  all: by destruct (matchBySubstring es old).
Qed.

Lemma preflight_op_ok working m op i :
  listed working m → stale_add working op = false → step_ok working m op (preflight_op sha256_hex working op i).
Proof.
  intros Hl Hs; unfold preflight_op.
  case_bool_decide as H1; [by apply preflight_add_ok|].
  case_bool_decide as H2; [by apply preflight_replace_ok|].
  case_bool_decide as H3; [by apply preflight_remove_ok|].
  unfold step_ok, spec_op; by rewrite !bool_decide_eq_false_2.
Qed.

Fixpoint valid_writes (m : gmap jstr jstr) (ws : list MemoryWrite) : Prop :=
  match ws with
  | [] => True
  | w :: ws => valid_write m w ∧ valid_writes (apply_write m w) ws
  end.

(** ** A whole batch *)

Lemma preflight_ok ops : ∀ working m i,
  listed working m → before_stale working ops = None →
  match preflight sha256_hex working ops i with
  | inl _ => spec_ops (notes working) ops = None
  | inr writes => valid_writes m writes ∧
      ∃ working', spec_ops (notes working) ops = Some (notes working') ∧
        listed working' (foldl apply_write m writes)
  end.
Proof.
  induction ops as [|op ops IH]; intros working m i Hl Hs; cbn [preflight before_stale] in *.
  { split; [done|]; by exists working. }
  destruct (stale_add working op) eqn:Ha; [done|].
  pose proof (preflight_op_ok working m op i Hl Ha) as Hop; unfold spec_ops; cbn [foldM].
  rewrite (preflight_entries working op i (proj1 Hl)) in Hs.
  destruct (preflight_op sha256_hex working op i) as [|working' write]; simpl in Hop, Hs.
  { by rewrite Hop. }
  destruct Hop as (Hsp & Hv & Hl'); rewrite Hsp; simpl.
  apply fmap_None in Hs; specialize (IH working' _ (i + 1) Hl' Hs).
  destruct (preflight sha256_hex working' ops (i + 1)) as [|writes]; [done|].
  rewrite foldl_app; destruct IH as [Hvs IH]; split; [|done].
  destruct write; simpl in *; [split; [by inversion Hv|done]|done].
Qed.

(** The write a stale add queues is one the store refuses. *)
Lemma stale_write working m op i :
  listed working m → stale_add working op = true →
  ∃ working' id text, preflight_op sha256_hex working op i = Accepted working' (Some (WriteCreate id text i)) ∧
    no_slash id ∧ is_Some (m !! id).
Proof.
  unfold stale_add; intros Hl Hs.
  rewrite storable_checks, !andb_true_iff, !negb_true_iff, !bool_decide_eq_true, bool_decide_eq_false in Hs.
  destruct Hs as [[[Ha [Hne Hlen]] Hnin] Hid].
  unfold preflight_op, preflight_add; rewrite (bool_decide_eq_true_2 (op_action op = _)) by done.
  rewrite (bool_decide_eq_false_2 (trim _ = [])), Hlen, (bool_decide_eq_false_2 (trim _ ∈ _)) by done.
  eexists _, _, _; split_and!; [done|apply generateMemoryId_no_slash|].
  apply list_elem_of_fmap in Hid as (e & -> & He); exists (content e); by eapply listed_lookup.
Qed.

(** What is queued for a batch with a stale add: the operations before it in order,
    and then a write that is refused. *)
Lemma preflight_stale ops : ∀ working m i before writes,
  listed working m → before_stale working ops = Some before → preflight sha256_hex working ops i = inr writes →
  ∃ ws id text k rest working', writes = ws ++ WriteCreate id text k :: rest ∧ valid_writes m ws ∧
    no_slash id ∧ is_Some (foldl apply_write m ws !! id) ∧
    spec_ops (notes working) before = Some (notes working') ∧ listed working' (foldl apply_write m ws).
Proof.
  induction ops as [|op ops IH]; intros working m i before writes Hl Hs Hp; cbn [preflight before_stale] in *; [done|].
  destruct (stale_add working op) eqn:Ha.
  - injection Hs as <-; destruct (stale_write working m op i Hl Ha) as (working' & id & text & E & Hid & Hin).
    rewrite E in Hp; destruct (preflight sha256_hex working' ops (i + 1)) as [|rest]; [done|]; injection Hp as <-.
    exists [], id, text, i, rest, working; by split_and!.
  - pose proof (preflight_op_ok working m op i Hl Ha) as Hop.
    rewrite (preflight_entries working op i (proj1 Hl)) in Hs.
    destruct (preflight_op sha256_hex working op i) as [|working1 write]; [done|]; destruct Hop as (Hsp & Hv & Hl1); simpl in Hs.
    apply fmap_Some in Hs as (before' & Hb & ->).
    destruct (preflight sha256_hex working1 ops (i + 1)) as [|writes1] eqn:E; [done|]; injection Hp as <-.
    destruct (IH working1 _ (i + 1) before' writes1 Hl1 Hb E) as (ws & id & text & k & rest & working' & -> & Hvs & Hid & Hin & Hspec & Hl').
    exists (option_list write ++ ws), id, text, k, rest, working'; rewrite foldl_app; split_and!; try done.
    + by rewrite <- app_assoc.
    + destruct write; simpl in *; [split; [by inversion Hv|done]|done].
    + unfold spec_ops; cbn [foldM]; by rewrite Hsp.
Qed.

Section Calls.
Context {W : Type} {S : MemoryStoreRpcs W} {L : LawfulStore W S}.

Lemma perform_ok t p w write :
  valid_write (contents w t p) write →
  ∃ w', perform t p write w = (Returned tt, w') ∧ contents w' t p = apply_write (contents w t p) write.
Proof.
  destruct write as [id text k|id text k|id k]; simpl.
  - intros [? ?]; by apply law_create.
  - apply law_update.
  - apply law_delete.
Qed.

Lemma commit_ok t p writes : ∀ applied w,
  valid_writes (contents w t p) writes →
  ∃ w', commit t p applied writes w = (Returned tt, w') ∧
    contents w' t p = foldl apply_write (contents w t p) writes.
Proof.
  induction writes as [|write writes IH]; intros applied w Hv; simpl in *; [by exists w|].
  destruct Hv as [Hv Hvs]; destruct (perform_ok t p w write Hv) as (w1 & Hp & Hw1).
  rewrite <- Hw1 in Hvs; destruct (IH (applied ++ [write_index write + 1]) w1 Hvs) as (w' & Hc & Hw').
  exists w'; rewrite <- Hw1; split; [|done].
  unfold mbind, eff_bind, try_catch; by rewrite Hp.
Qed.

(** A commit stops at the first write that is refused. *)
Lemma commit_refused t p ws id text k rest : ∀ applied w,
  valid_writes (contents w t p) ws → no_slash id → is_Some (foldl apply_write (contents w t p) ws !! id) →
  ∃ e w', commit t p applied (ws ++ WriteCreate id text k :: rest) w = (Threw e, w') ∧
    contents w' t p = foldl apply_write (contents w t p) ws.
Proof.
  induction ws as [|write ws IH]; intros applied w Hv Hid Hin; simpl in *.
  - destruct (law_conflict t p id text w Hid Hin) as (e & w' & Hc & _ & Hw'); eexists _, w'; split; [|done].
    unfold mbind, eff_bind, try_catch; by rewrite Hc.
  - destruct Hv as [Hv Hvs]; destruct (perform_ok t p w write Hv) as (w1 & Hp & Hw1); rewrite <- Hw1 in *.
    destruct (IH (applied ++ [write_index write + 1]) w1 Hvs Hid Hin) as (e & w' & Hc & Hw').
    exists e, w'; split; [|done]; unfold mbind, eff_bind, try_catch; by rewrite Hp.
Qed.

(** What the call of a batch comes to. *)
Lemma applyBatch_ok t p ops w es w1 :
  ops ≠ [] → listMemories t p no_options w = (Returned es, w1) → listed es (contents w1 t p) →
  before_stale es ops = None →
  ∃ text w', applyBatch sha256_hex t p ops w = (Returned text, w') ∧
    match spec_ops (notes es) ops with
    | Some X => notes_of (contents w' t p) = X
    | None => contents w' t p = contents w1 t p
    end.
Proof.
  intros Hne Hlist Hl Hs; unfold applyBatch; rewrite bool_decide_eq_false_2 by (by destruct ops).
  unfold mbind, eff_bind; rewrite Hlist.
  pose proof (preflight_ok ops es _ 0 Hl Hs) as Hp.
  destruct (preflight sha256_hex es ops 0) as [[pos reason]|writes].
  - rewrite Hp; by eexists _, w1.
  - destruct Hp as (Hv & working' & -> & Hl').
    destruct (commit_ok t p writes [] w1 Hv) as (w' & -> & Hw').
    eexists _, w'; split; [done|]; rewrite Hw'; by apply listed_notes.
Qed.

(** With a stale add: nothing at all, or what stands before it and an error. *)
Lemma applyBatch_stale t p ops w es w1 before :
  listMemories t p no_options w = (Returned es, w1) → listed es (contents w1 t p) →
  before_stale es ops = Some before →
  ∃ o w', applyBatch sha256_hex t p ops w = (o, w') ∧
    ((contents w' t p = contents w1 t p ∧ ∃ text, o = Returned text) ∨
     (∃ e, o = Threw e ∧ spec_ops (notes es) before = Some (notes_of (contents w' t p)))).
Proof.
  intros Hlist Hl Hs; unfold applyBatch; destruct ops as [|op ops]; [done|]; rewrite bool_decide_eq_false_2 by done.
  unfold mbind, eff_bind; rewrite Hlist; destruct (preflight sha256_hex es (op :: ops) 0) as [[pos reason]|writes] eqn:E.
  { eexists _, w1; split; [done|]; left; eauto. }
  destruct (preflight_stale _ _ _ _ _ _ Hl Hs E) as (ws & id & text & k & rest & working' & -> & Hv & Hid & Hin & Hspec & Hl').
  destruct (commit_refused t p ws id text k rest [] w1 Hv Hid Hin) as (e & w' & Hc & Hw').
  rewrite Hc; exists (Threw e), w'; split; [done|]; right; exists e; split; [done|].
  by rewrite Hw', (listed_notes _ _ Hl').
Qed.

(** ** A single call *)

Definition single_call (t p : jstr) (op : MemoryOp) : Eff W jstr :=
  applyMemoryCall sha256_hex t p (mkArgs (Some (op_action op)) (op_content op) (op_old_text op) None).

(** The effect of a single call is that of the write a batch of it would queue. *)
Definition done_as (t p : jstr) (w : W) (m : gmap jstr jstr) (r : Preflight) (res : Outcome jstr * W) : Prop :=
  ∃ text w', res = (Returned text, w') ∧
    contents w' t p = match r with
                      | Rejected _ => m
                      | Accepted _ write => foldl apply_write m (option_list write)
                      end.

Lemma applyAdd_ok t p op w es w1 :
  op_action op = js "add" → listMemories t p no_options w = (Returned es, w1) →
  listed es (contents w1 t p) → contents w t p = contents w1 t p → stale_add es op = false →
  done_as t p w (contents w1 t p) (preflight_add sha256_hex es op 0)
    (applyAdd sha256_hex t p (default [] (op_content op)) w).
Proof.
  intros Hop Hlist Hl Hw Hs.
  pose proof (preflight_add_ok es _ op 0 Hop Hl Hs) as Hok; revert Hok.
  unfold applyAdd, preflight_add, step_ok; set (text := trim _).
  case_bool_decide; [by eexists _, w|].
  destruct (MEMORY_CONTENT_MAX_RUNES <? countRunes text); [by eexists _, w|].
  unfold mbind, eff_bind; rewrite Hlist.
  case_bool_decide; [by eexists _, w1|].
  intros (_ & Hv & _); inversion Hv as [|? ? Hv' _]; subst.
  destruct (perform_ok t p w1 (WriteCreate (generateMemoryId sha256_hex text) text 0) Hv') as (w' & Hc & Hw').
  cbn [perform] in Hc; unfold try_catch; rewrite Hc; by eexists _, w'.
Qed.

Lemma applyReplace_ok t p op w es w1 :
  op_action op = js "replace" → listMemories t p no_options w = (Returned es, w1) →
  listed es (contents w1 t p) → contents w t p = contents w1 t p →
  done_as t p w (contents w1 t p) (preflight_replace es op 0)
    (applyReplace t p (default [] (op_old_text op)) (default [] (op_content op)) w).
Proof.
  intros Hop Hlist Hl Hw.
  pose proof (preflight_replace_ok es _ op 0 Hop Hl) as Hok; revert Hok.
  unfold applyReplace, preflight_replace, step_ok; cbv zeta; set (text := trim (default [] (op_content op))).
  set (old := default [] (op_old_text op)).
  assert (Hm : trim old = [] → ∃ e, matchBySubstring es old = MatchError e)
    by (intros Ho; unfold matchBySubstring; rewrite (bool_decide_eq_true_2 (trim old = [])) by done; eauto).
  case_bool_decide as Ho.
  - intros _; unfold done_as; case_bool_decide; [by eexists _, w|]; destruct (MEMORY_CONTENT_MAX_RUNES <? countRunes text); [by eexists _, w|].
    unfold mbind, eff_bind; rewrite Hlist; destruct (Hm Ho) as [e ->]; by eexists _, w1.
  - case_bool_decide; [by eexists _, w|]; destruct (MEMORY_CONTENT_MAX_RUNES <? countRunes text); [by eexists _, w|].
    unfold mbind, eff_bind; rewrite Hlist; destruct (matchBySubstring es old) as [e|e]; [|by eexists _, w1].
    intros (_ & Hv & _); inversion Hv as [|? ? Hv' _]; subst.
    destruct (perform_ok t p w1 (WriteUpdate (memory_id e) text 0) Hv') as (w' & Hc & Hw').
    cbn [perform] in Hc; rewrite Hc; by eexists _, w'.
Qed.

Lemma applyRemove_ok t p op w es w1 :
  op_action op = js "remove" → listMemories t p no_options w = (Returned es, w1) →
  listed es (contents w1 t p) → contents w t p = contents w1 t p →
  done_as t p w (contents w1 t p) (preflight_remove es op 0)
    (applyRemove t p (default [] (op_old_text op)) w).
Proof.
  intros Hop Hlist Hl Hw.
  pose proof (preflight_remove_ok es _ op 0 Hop Hl) as Hok; revert Hok.
  unfold applyRemove, preflight_remove, step_ok; cbv zeta; set (old := default [] (op_old_text op)).
  unfold mbind, eff_bind; rewrite Hlist.
  case_bool_decide as Ho.
  - intros _; unfold matchBySubstring; rewrite (bool_decide_eq_true_2 (trim old = [])) by done; by eexists _, w1.
  - destruct (matchBySubstring es old) as [e|e]; [|by eexists _, w1].
    intros (_ & Hv & _); inversion Hv as [|? ? Hv' _]; subst.
    destruct (perform_ok t p w1 (WriteDelete (memory_id e) 0) Hv') as (w' & Hc & Hw').
    cbn [perform] in Hc; rewrite Hc; by eexists _, w'.
Qed.

Lemma single_ok t p op w es w1 :
  listMemories t p no_options w = (Returned es, w1) →
  listed es (contents w1 t p) → contents w t p = contents w1 t p → stale_add es op = false →
  ∃ text w', single_call t p op w = (Returned text, w') ∧
    match spec_op (notes es) op with
    | Some X => notes_of (contents w' t p) = X
    | None => contents w' t p = contents w1 t p
    end.
Proof.
  intros Hlist Hl Hw Hs.
  assert (Hd : done_as t p w (contents w1 t p) (preflight_op sha256_hex es op 0) (single_call t p op w)).
  { unfold single_call, applyMemoryCall, preflight_op; cbn [ma_action ma_operations ma_content ma_old_text].
    case_bool_decide; [by apply applyAdd_ok|].
    case_bool_decide; [by apply applyReplace_ok|].
    case_bool_decide; [by apply applyRemove_ok|].
    by eexists _, w. }
  pose proof (preflight_op_ok es _ op 0 Hl Hs) as Hok.
  destruct Hd as (text & w' & Hr & Hw'); exists text, w'; split; [done|].
  destruct (preflight_op sha256_hex es op 0) as [|working' write]; simpl in Hok; [by rewrite Hok|].
  destruct Hok as (-> & _ & Hl'); rewrite Hw'; by apply listed_notes.
Qed.

(** A stale add alone changes nothing. *)
Lemma single_stale t p op w es w1 :
  listMemories t p no_options w = (Returned es, w1) →
  listed es (contents w1 t p) → stale_add es op = true →
  ∃ w', single_call t p op w = (Returned DEDUPE_TEXT, w') ∧ contents w' t p = contents w1 t p.
Proof.
  intros Hlist Hl Hs; destruct (stale_write es _ op 0 Hl Hs) as (working' & id & text & E & Hid & Hin); revert E.
  unfold stale_add in Hs; rewrite !andb_true_iff in Hs; destruct Hs as [[[Ha _] _] _]; apply bool_decide_eq_true in Ha.
  unfold single_call, applyMemoryCall, preflight_op; cbn [ma_action ma_operations ma_content].
  rewrite (bool_decide_eq_true_2 (op_action op = js "add")) by done; unfold preflight_add, applyAdd.
  case_bool_decide; [done|]; destruct (MEMORY_CONTENT_MAX_RUNES <? _); [done|].
  unfold mbind, eff_bind; rewrite Hlist; case_bool_decide; [done|]; intros [= _ Hid' Htext]; rewrite Hid', Htext.
  destruct (law_conflict t p id text w1 Hid Hin) as (e & w' & Hc & Hcode & Hw').
  exists w'; split; [|done]; unfold try_catch; rewrite Hc, Hcode; by rewrite bool_decide_eq_true_2.
Qed.
End Calls.
End Refinement.

(** C8: Over a healthy store that lists the whole collection (it holds no more entries
    than a listing returns), with a digest free of slashes, one call of the tool,
    single or batch, does exactly what the specification of notes says: the whole of
    it when every operation is acceptable in turn, nothing otherwise, and it returns a
    text.  The one exception is an add whose digest is already the id of another
    content (a note that was replaced keeps the digest of its first content): a call
    that reaches one changes nothing, or throws having performed exactly the
    operations before it. *)
Theorem memory_call_refines {W} {S : MemoryStoreRpcs W} {L : LawfulStore W S}
    (sha256_hex : jstr → jstr) (t p : jstr) (args : MemoryToolArgs) (w : W) :
  (∀ c, no_slash (sha256_hex c)) →
  (size (contents w t p) ≤ room)%nat →
  ∃ es w1, listMemories t p no_options w = (Returned es, w1) ∧ listed es (contents w t p) ∧
  match before_stale sha256_hex es (call_operations args) with
  | None =>
      ∃ text w', applyMemoryCall sha256_hex t p args w = (Returned text, w') ∧
        match spec_ops (notes_of (contents w t p)) (call_operations args) with
        | Some X => notes_of (contents w' t p) = X
        | None => contents w' t p = contents w t p
        end
  | Some before =>
      ∃ o w', applyMemoryCall sha256_hex t p args w = (o, w') ∧
        ((contents w' t p = contents w t p ∧ ∃ text, o = Returned text) ∨
         (∃ e, o = Threw e ∧ spec_ops (notes_of (contents w t p)) before = Some (notes_of (contents w' t p))))
  end.
Proof.
  intros Hhex Hroom.
  destruct (law_list t p w Hroom) as (es & w1 & Hlist & Hl & Hw).
  exists es, w1; split; [done|]; split; [done|]; rewrite <- Hw in Hl |- *; rewrite (listed_notes es _ Hl).
  assert (Hnone : ∀ text : jstr, ∃ text' w', (mret text : Eff W jstr) w = (Returned text', w') ∧ notes_of (contents w' t p) = notes es)
    by (intros text; eexists _, w; split; [done|]; by rewrite <- Hw, (listed_notes es _ Hl)).
  destruct args as [[action|] c o [ops|]]; cbn [call_operations ma_action ma_operations ma_content ma_old_text before_stale];
    try apply Hnone.
  - destruct (stale_add sha256_hex es (mkOp action c o)) eqn:Hs.
    + destruct (single_stale sha256_hex Hhex t p (mkOp action c o) w es w1 Hlist Hl Hs) as (w' & Hr & Hw').
      exists (Returned DEDUPE_TEXT), w'; split; [exact Hr|]; left; eauto.
    + destruct (single_ok sha256_hex Hhex t p (mkOp action c o) w es w1) as (text & w' & Hr & Hspec); [done..|].
      assert ((spec_entries sha256_hex es (mkOp action c o) ≫= λ _, cons (mkOp action c o) <$> None) = None) as ->
        by (by destruct (spec_entries _ _ _)).
      exists text, w'; split; [exact Hr|]; unfold spec_ops; simpl; by destruct (spec_op _ _).
  - destruct (before_stale sha256_hex es ops) as [before|] eqn:Hs.
    + by apply (applyBatch_stale sha256_hex Hhex t p ops w es w1).
    + destruct (decide (ops = [])) as [->|Hne]; [apply Hnone|]. by apply (applyBatch_ok sha256_hex Hhex t p ops w es w1).
Qed.

(** The three operations of the batch, over the five notes of the server. *)
Definition demo_args : MemoryToolArgs :=
  mkArgs None None None (Some
    [ mkOp (js "replace") (Some (js " flag first ")) (Some (js "last"));
      mkOp (js "remove") None (Some (js "count"));
      mkOp (js "add") (Some (js "count once")) None ]).

#[local] Instance demo_client : MemoryStoreRpcs DemoStore := memory_client (H := demo_service) 6.
#[local] Instance demo_client_lawful : LawfulStore DemoStore demo_client := client_lawful demo_lawful 5.

Lemma memory_call_refines_witness :
  ∃ text w', applyMemoryCall demo_digest demo_template demo_preset demo_args demo_notes = (Returned text, w') ∧
    match spec_ops (notes_of (contents demo_notes demo_template demo_preset)) (call_operations demo_args) with
    | Some X => notes_of (contents w' demo_template demo_preset) = X
    | None => contents w' demo_template demo_preset = contents demo_notes demo_template demo_preset
    end.
Proof.
  destruct (memory_call_refines demo_digest demo_template demo_preset demo_args demo_notes) as (es & w1 & Hlist & _ & H).
  - exact demo_digest_no_slash.
  - by vm_compute; lia.
  - assert (He : before_stale demo_digest (match listMemories demo_template demo_preset no_options demo_notes with
      | (Returned es, _) => es | _ => [] end) (call_operations demo_args) = None) by (by vm_compute).
    rewrite Hlist in He; rewrite He in H; exact H.
Defined.

(** The exception about digests occurs: a replaced note keeps the digest of
    its first content, and adding that content again is taken for a duplicate. *)
Lemma replaced_note_blocks_add :
  let op a c o := mkArgs (Some (js a)) c o None in
  let '(r1, w1) := applyMemoryCall demo_digest demo_template demo_preset
                     (op "replace" (Some (js "y")) (Some (js "x"))) demo_single in
  let '(r2, w2) := applyMemoryCall demo_digest demo_template demo_preset (op "add" (Some (js "x")) None) w1 in
  r1 = Returned REPLACED_TEXT ∧ r2 = Returned DEDUPE_TEXT ∧
  bool_decide (js "x" ∈ (map_to_list (contents w2 demo_template demo_preset)).*2) = false.
Proof. vm_compute; by split_and!. Qed.
