(* ===== verification/MemoryLog.v ===== *)
(** * What the memory tool sends, and what it reports

    The facts of this file hold over any store whatever: a store that records the
    requests it gets shows what a call may send, and what the error of an
    interrupted batch says about it; the snapshot is frozen only by a read that
    succeeded; the walk of the pages ends on any server whose tokens advance. *)

From S2P Require Import Prelude JsText MemoryStore MemoryService Memory.

(** ** A recording store *)

Inductive Request : Type :=
| ReqCreate (t p id content : jstr)
| ReqUpdate (t p id content : jstr)
| ReqDelete (t p id : jstr)
| ReqList (t p : jstr) (options : ListMemoriesOptions).

Definition recorded {W A} (q : Request) (m : Eff W A) : Eff (W * list Request) A := λ '(w, log),
  let '(r, w') := m w in (r, (w', log ++ [q])).

Definition recording {W} (S : MemoryStoreRpcs W) : MemoryStoreRpcs (W * list Request) := {|
  createMemory t p id c := recorded (ReqCreate t p id c) (createMemory t p id c);
  updateMemory t p id c := recorded (ReqUpdate t p id c) (updateMemory t p id c);
  deleteMemory t p id := recorded (ReqDelete t p id) (deleteMemory t p id);
  listMemories t p o := recorded (ReqList t p o) (listMemories t p o);
|}.

(** ** The bounds of a call *)

(** A content the tool may store. *)
Definition bounded_content (text : jstr) : Prop :=
  trimmed text ∧ text ≠ [] ∧ countRunes text ≤ MEMORY_CONTENT_MAX_RUNES.

Definition request_ok (t p : jstr) (q : Request) : Prop :=
  match q with
  | ReqCreate t' p' _ c | ReqUpdate t' p' _ c => t' = t ∧ p' = p ∧ bounded_content c
  | ReqDelete t' p' _ | ReqList t' p' _ => t' = t ∧ p' = p
  end.

Definition is_list (q : Request) : bool := match q with ReqList _ _ _ => true | _ => false end.

(** At most so many listings and so many writes, all of them acceptable. *)
Definition within (t p : jstr) (lists writes : Z) (qs : list Request) : Prop :=
  Forall (request_ok t p) qs ∧ countb is_list qs ≤ lists ∧ countb (λ q, negb (is_list q)) qs ≤ writes.

Definition sends {W A} (t p : jstr) (lists writes : Z) (m : Eff (W * list Request) A) : Prop :=
  ∀ w log, ∃ w' qs, (m (w, log)).2 = (w', log ++ qs) ∧ within t p lists writes qs.

Section Sends.
Context {W : Type} (t p : jstr).
Implicit Types (l k : Z).

Lemma sends_weaken {A} l l' k k' (m : Eff (W * list Request) A) :
  l ≤ l' → k ≤ k' → sends t p l k m → sends t p l' k' m.
Proof.
  intros Hl Hk Hm w log; destruct (Hm w log) as (w' & qs & ? & ? & ? & ?).
  exists w', qs; split; [done|]; split_and!; [done|lia..].
Qed.

Lemma sends_nothing {A} (f : Outcome A) : sends t p 0 0 (λ s : W * list Request, (f, s)).
Proof. intros w log; exists w, []; rewrite app_nil_r; split; [done|]; by split_and!. Qed.

Lemma sends_ret {A} (a : A) : sends t p 0 0 (mret a : Eff (W * list Request) A).
Proof. apply sends_nothing. Qed.

Lemma within_app l1 k1 l2 k2 qs1 qs2 :
  within t p l1 k1 qs1 → within t p l2 k2 qs2 → within t p (l1 + l2) (k1 + k2) (qs1 ++ qs2).
Proof.
  intros (H1 & H2 & H3) (H4 & H5 & H6); split_and!.
  - by apply Forall_app.
  - rewrite countb_app; lia.
  - rewrite countb_app; lia.
Qed.

(** Sequencing adds the bounds, whether or not the first computation returns. *)
Lemma sends_case {A B} l1 k1 l2 k2 (m : Eff (W * list Request) A)
    (f : Outcome A → Eff (W * list Request) B) :
  sends t p l1 k1 m → (∀ r, sends t p l2 k2 (f r)) →
  sends t p (l1 + l2) (k1 + k2) (λ s, f (m s).1 (m s).2).
Proof.
  intros Hm Hf w log; destruct (Hm w log) as (w1 & qs1 & Hs1 & Hin1).
  destruct (m (w, log)) as [r s] eqn:E; simpl in *; subst s.
  destruct (Hf r w1 (log ++ qs1)) as (w2 & qs2 & Hs2 & Hin2).
  exists w2, (qs1 ++ qs2); rewrite app_assoc; split; [done|]; by apply within_app.
Qed.

Lemma sends_ext {A} l k (m m' : Eff (W * list Request) A) :
  (∀ s, m s = m' s) → sends t p l k m → sends t p l k m'.
Proof. intros He Hm w log; rewrite <- He; apply Hm. Qed.

Lemma sends_bind {A B} l1 k1 l2 k2 (m : Eff (W * list Request) A) (f : A → Eff (W * list Request) B) :
  0 ≤ l2 → 0 ≤ k2 → sends t p l1 k1 m → (∀ a, sends t p l2 k2 (f a)) →
  sends t p (l1 + l2) (k1 + k2) (m ≫= f).
Proof.
  intros Hl Hk Hm Hf; eapply sends_ext; [|eapply (sends_case _ _ _ _ m
    (λ r, match r with Returned a => f a | Threw e => λ s, (Threw e, s) | OutOfFuel => λ s, (OutOfFuel, s) end)); [done|]].
  - intros s; unfold mbind, eff_bind; by destruct (m s) as [[a|e|] s'].
  - intros [a|e|]; [done|apply (sends_weaken 0 _ 0); [done..|apply sends_nothing]..].
Qed.

Lemma sends_catch {A} l1 k1 l2 k2 (m : Eff (W * list Request) A) h :
  0 ≤ l2 → 0 ≤ k2 → sends t p l1 k1 m → (∀ e, sends t p l2 k2 (h e)) →
  sends t p (l1 + l2) (k1 + k2) (try_catch m h).
Proof.
  intros Hl Hk Hm Hf; eapply sends_ext; [|eapply (sends_case _ _ _ _ m
    (λ r, match r with Returned a => λ s, (Returned a, s) | Threw e => h e | OutOfFuel => λ s, (OutOfFuel, s) end)); [done|]].
  - intros s; unfold try_catch; by destruct (m s) as [[a|e|] s'].
  - intros [a|e|]; [|done|]; (apply (sends_weaken 0 _ 0); [done..|apply sends_nothing]).
Qed.

Lemma sends_recorded {A} q l k (m : Eff W A) : within t p l k [q] → sends t p l k (recorded q m).
Proof. intros Hq w log; unfold recorded; destruct (m w) as [r w']; by exists w', [q]. Qed.

End Sends.

Definition write_content (w : MemoryWrite) : option jstr :=
  match w with
  | WriteCreate _ c _ | WriteUpdate _ c _ => Some c
  | WriteDelete _ _ => None
  end.

Definition write_bounded (w : MemoryWrite) : Prop := ∀ c, write_content w = Some c → bounded_content c.

Section Bounds.
Context (sha256_hex : jstr → jstr).

Lemma bounded_trim c :
  bool_decide (trim c = []) = false → (MEMORY_CONTENT_MAX_RUNES <? countRunes (trim c)) = false →
  bounded_content (trim c).
Proof.
  intros Hne Hr; split_and!; [apply trim_trimmed|by eapply bool_decide_eq_false_1|lia].
Qed.

Lemma preflight_op_bounded working op i working' write :
  preflight_op sha256_hex working op i = Accepted working' write → Forall write_bounded (option_list write).
Proof.
  unfold preflight_op, preflight_add, preflight_replace, preflight_remove; intros H.
  repeat case_match; simplify_eq/=; try done;
    (apply Forall_singleton; intros c Hc; simplify_eq/=); by apply bounded_trim.
Qed.

Lemma preflight_bounded ops : ∀ working i writes,
  preflight sha256_hex working ops i = inr writes →
  Forall write_bounded writes ∧ (length writes ≤ length ops)%nat.
Proof.
  induction ops as [|op ops IH]; intros working i writes H; cbn [preflight] in H; simplify_eq/=; [by split|].
  destruct (preflight_op _ _ _ _) as [|working' write] eqn:E; [done|].
  destruct (preflight _ _ _ _) as [|writes'] eqn:E'; [done|]; simplify_eq.
  apply IH in E' as [Hb Hlen]; apply preflight_op_bounded in E; split; [by apply Forall_app|].
  rewrite length_app; assert (length (option_list write) ≤ 1)%nat by (destruct write; simpl; lia); simpl; lia.
Qed.

Context {W : Type} (S : MemoryStoreRpcs W).
Existing Instance recording.

Lemma sends_list t p o : sends t p 1 0 (listMemories (MemoryStoreRpcs := recording S) t p o).
Proof. apply sends_recorded; split_and!; [by repeat constructor|done..]. Qed.

Lemma sends_perform t p w : write_bounded w → sends t p 0 1 (perform (H := recording S) t p w).
Proof.
  intros Hw; destruct w as [id c i|id c i|id i]; apply sends_recorded; split_and!; try done;
    repeat constructor; by apply Hw.
Qed.

Lemma sends_commit t p writes : ∀ applied, Forall write_bounded writes →
  sends t p 0 (Z.of_nat (length writes)) (commit (H := recording S) t p applied writes).
Proof.
  induction writes as [|w writes IH]; intros applied Hw; [apply sends_ret|].
  inversion Hw; subst; cbn [commit length].
  apply (sends_weaken _ _ (0 + 0) _ (1 + 0 + Z.of_nat (length writes))); [lia..|].
  apply sends_bind; [lia..| |by intros; apply IH].
  apply (sends_catch _ _ 0 1 0 0); [lia..|by apply sends_perform|intros e; apply sends_nothing].
Qed.

End Bounds.

(** Whatever the store answers and whatever the model asked for, a call reads
    its own collection at most once and writes only to it, at most one write per
    operation, and every content it stores is trimmed, not blank and at most 1024
    code points long. *)
Theorem call_sends_bounded {W} (S : MemoryStoreRpcs W) (sha256_hex : jstr → jstr) (t p : jstr)
    (args : MemoryToolArgs) :
  sends t p 1 (match ma_operations args with Some ops => Z.of_nat (length ops) | None => 1 end)
    (applyMemoryCall (H := recording S) sha256_hex t p args).
Proof.
  assert (Hret : ∀ k (text : jstr), 0 ≤ k → sends (W := W) t p 1 k (mret text))
    by (intros k text Hk; apply (sends_weaken t p 0 1 0 k); [lia..|apply sends_ret]).
  assert (Hret0 : ∀ (text : jstr), sends (W := W) t p 0 1 (mret text))
    by (intros text; apply (sends_weaken t p 0 0 0 1); [lia..|apply sends_ret]).
  assert (Hthen : ∀ w (text : jstr), write_bounded w →
    sends t p 0 1 (_ ← perform (H := recording S) t p w; mret text))
    by (intros w text Hw; apply (sends_bind t p 0 1 0 0); [lia..|by apply sends_perform|intros; apply sends_ret]).
  destruct args as [[action|] c o [ops|]]; cbn [ma_action ma_operations ma_content ma_old_text applyMemoryCall];
    unfold applyMemoryCall; cbn [ma_action ma_operations ma_content ma_old_text]; [apply Hret; lia| | |apply Hret; lia].
  - case_bool_decide; [|case_bool_decide; [|case_bool_decide; [|apply Hret; lia]]].
    + unfold applyAdd; destruct (bool_decide (trim _ = [])) eqn:E1; [apply Hret; lia|].
      destruct (MEMORY_CONTENT_MAX_RUNES <? _) eqn:E2; [apply Hret; lia|].
      apply (sends_bind t p 1 0 0 1); [lia..|apply sends_list|intros es].
      destruct (bool_decide (_ ∈ content <$> es)); [apply Hret0|].
      apply (sends_catch t p 0 1 0 0); [lia..| |intros e; destruct (bool_decide (thrown_code _ = _)); [apply sends_ret|apply sends_nothing]].
      apply (Hthen (WriteCreate (generateMemoryId sha256_hex (trim (default [] c))) (trim (default [] c)) 0)).
      intros c' [= <-]; by apply bounded_trim.
    + unfold applyReplace; destruct (bool_decide (trim _ = [])) eqn:E1; [apply Hret; lia|].
      destruct (MEMORY_CONTENT_MAX_RUNES <? _) eqn:E2; [apply Hret; lia|].
      apply (sends_bind t p 1 0 0 1); [lia..|apply sends_list|intros es].
      destruct (matchBySubstring es _) as [e|e]; [|apply Hret0].
      apply (Hthen (WriteUpdate (memory_id e) (trim (default [] c)) 0)); intros c' [= <-]; by apply bounded_trim.
    + unfold applyRemove; apply (sends_bind t p 1 0 0 1); [lia..|apply sends_list|intros es].
      destruct (matchBySubstring es _) as [e|e]; [|apply Hret0].
      by apply (Hthen (WriteDelete (memory_id e) 0)).
  - unfold applyBatch; case_bool_decide; [apply Hret; lia|].
    apply (sends_bind t p 1 0 0 (Z.of_nat (length ops))); [lia..|apply sends_list|intros es].
    destruct (preflight sha256_hex es ops 0) as [[pos reason]|writes] eqn:E;
      [apply (sends_weaken t p 0 0 0); [lia..|apply sends_ret]|].
    apply preflight_bounded in E as [Hb Hlen].
    apply (sends_weaken t p (0 + 0) 0 (Z.of_nat (length writes) + 0)); [lia..|].
    apply sends_bind; [lia..|by apply sends_commit|intros; apply sends_ret].
Qed.

(** ** An interrupted batch *)

Definition request_of (t p : jstr) (w : MemoryWrite) : Request :=
  match w with
  | WriteCreate id c _ => ReqCreate t p id c
  | WriteUpdate id c _ => ReqUpdate t p id c
  | WriteDelete id _ => ReqDelete t p id
  end.

(** The 1-based positions of the operations some writes stand for. *)
Definition positions (ws : list MemoryWrite) : list Z := (λ w, write_index w + 1) <$> ws.

Section Interrupted.
Context {W : Type} (S : MemoryStoreRpcs W).

Fixpoint run_writes (t p : jstr) (ws : list MemoryWrite) : Eff W unit :=
  match ws with
  | [] => mret tt
  | w :: ws => _ ← perform t p w; run_writes t p ws
  end.

Lemma perform_recorded t p write w log :
  perform (H := recording S) t p write (w, log) =
  ((perform t p write w).1, ((perform t p write w).2, log ++ [request_of t p write])).
Proof.
  destruct write as [id c i|id c i|id i]; cbn; unfold recorded;
    [destruct (createMemory t p id c w)|destruct (updateMemory t p id c w)|destruct (deleteMemory t p id w)]; done.
Qed.

Definition stopped_at (t p : jstr) (writes : list MemoryWrite) (w w' : W) (sent : list Request)
    (k : nat) (r : Outcome unit) : Prop :=
  ∃ wk write, writes !! k = Some write ∧ run_writes t p (take k writes) w = (Returned tt, wk) ∧
    perform t p write wk = (r, w') ∧ sent = request_of t p <$> take (Datatypes.S k) writes.

Lemma commit_outcome t p writes : ∀ applied w log,
  let '(r, (w', log')) := commit (H := recording S) t p applied writes (w, log) in
  ∃ sent, log' = log ++ sent ∧
  match r with
  | Returned _ => run_writes t p writes w = (Returned tt, w') ∧ sent = request_of t p <$> writes
  | Threw e => ∃ k err, stopped_at t p writes w w' sent k (Threw err) ∧
      e = commit_error (applied ++ positions (take k writes)) err
  | OutOfFuel => ∃ k, stopped_at t p writes w w' sent k OutOfFuel
  end.
Proof.
  induction writes as [|write writes IH]; intros applied w log; cbn [commit run_writes].
  { exists []; by rewrite app_nil_r. }
  unfold mbind, eff_bind, try_catch; rewrite perform_recorded.
  destruct (perform t p write w) as [[[]|err|] w1] eqn:E; cbn [fst snd].
  - specialize (IH (applied ++ [write_index write + 1]) w1 (log ++ [request_of t p write])).
    destruct (commit t p _ writes _) as [r [w' log']].
    destruct IH as (sent & -> & Hr); exists (request_of t p write :: sent).
    rewrite <- app_assoc; split; [done|].
    assert (Hst : ∀ k r, stopped_at t p writes w1 w' sent k r →
      stopped_at t p (write :: writes) w w' (request_of t p write :: sent) (Datatypes.S k) r).
    { intros k r' (wk & x & Hk & Hrun & Hx & ->); exists wk, x; split_and!; [done| |done|done].
      cbn [take run_writes]; unfold mbind, eff_bind; by rewrite E. }
    destruct r as [[]|e|].
    + destruct Hr as [Hr ->]; by rewrite Hr.
    + destruct Hr as (k & err & Hs & ->); exists (Datatypes.S k), err; split; [by apply Hst|].
      by rewrite <- app_assoc.
    + destruct Hr as (k & Hs); exists (Datatypes.S k); by apply Hst.
  - exists [request_of t p write]; split; [done|]; exists 0%nat, err; split; [by eexists _, write|].
    by rewrite app_nil_r.
  - exists [request_of t p write]; split; [done|]; exists 0%nat; by eexists _, write.
Qed.

End Interrupted.

(** C39: A batch that fails in the middle of its writes has performed exactly the
    writes before the failing one, in order; its error is the failure itself when
    nothing was applied, and otherwise names the failure and the positions of
    exactly the operations that took effect. *)
Theorem interrupted_batch_reported {W} (S : MemoryStoreRpcs W) (sha256_hex : jstr → jstr) (t p : jstr)
    (ops : list MemoryOp) (es : list MemoryEntry) (writes : list MemoryWrite) (w w1 w' : W)
    (e : Thrown) (log : list Request) :
  listMemories t p no_options w = (Returned es, w1) →
  preflight sha256_hex es ops 0 = inr writes →
  applyBatch (H := recording S) sha256_hex t p ops (w, []) = (Threw e, (w', log)) →
  ∃ k wk err write,
    run_writes S t p (take k writes) w1 = (Returned tt, wk) ∧
    writes !! k = Some write ∧ perform t p write wk = (Threw err, w') ∧
    log = ReqList t p no_options :: (request_of t p <$> take (Datatypes.S k) writes) ∧
    e = if bool_decide (k = 0%nat) then err
        else new_Error (describeErr err ++ js "; " ++ js (if bool_decide (k = 1%nat) then "operation" else "operations")
          ++ js " " ++ formatAppliedPositions (positions (take k writes)) ++ js " "
          ++ js (if bool_decide (k = 1%nat) then "was" else "were") ++ js " applied before the failure").
Proof.
  intros Hlist Hpre; unfold applyBatch; case_bool_decide; [done|].
  unfold mbind, eff_bind; cbn [listMemories recording]; unfold recorded; rewrite Hlist, Hpre.
  pose proof (commit_outcome S t p writes [] w1 ([] ++ [ReqList t p no_options])) as Hc.
  destruct (commit t p [] writes _) as [[[]|e'|] [w2 log']]; intros [= <- <- <-].
  destruct Hc as (sent & -> & k & err & (wk & write & Hk & Hrun & Hx & ->) & ->).
  exists k, wk, err, write; split_and!; try done.
  apply lookup_lt_Some in Hk; unfold commit_error; cbn [app].
  assert (Hlen : length (positions (take k writes)) = k)
    by (unfold positions; rewrite length_fmap, length_take; lia).
  rewrite Hlen; destruct k as [|k]; [done|]; by destruct (positions _).
Qed.

(** The replaced note still occupies its digest: adding its content again fails. *)
Definition demo_batch : list MemoryOp :=
  [ mkOp (js "replace") (Some (js "y")) (Some (js "x"));
    mkOp (js "add") (Some (js "x")) None;
    mkOp (js "remove") None (Some (js "y")) ].

Lemma interrupted_batch_reported_witness :
  ∃ k wk err write,
    run_writes (memory_client (H := demo_service) 3) demo_template demo_preset
      (take k [WriteUpdate (demo_digest (js "x")) (js "y") 0; WriteCreate (demo_digest (js "x")) (js "x") 1;
               WriteDelete (demo_digest (js "x")) 2]) demo_single = (Returned tt, wk) ∧
    [WriteUpdate (demo_digest (js "x")) (js "y") 0; WriteCreate (demo_digest (js "x")) (js "x") 1;
     WriteDelete (demo_digest (js "x")) 2] !! k = Some write ∧
    new_Error (js "ALREADY_EXISTS; operation 1 was applied before the failure") =
      if bool_decide (k = 0%nat) then err
      else new_Error (describeErr err ++ js "; " ++ js (if bool_decide (k = 1%nat) then "operation" else "operations")
        ++ js " " ++ formatAppliedPositions (positions (take k
          [WriteUpdate (demo_digest (js "x")) (js "y") 0; WriteCreate (demo_digest (js "x")) (js "x") 1;
           WriteDelete (demo_digest (js "x")) 2])) ++ js " "
        ++ js (if bool_decide (k = 1%nat) then "was" else "were") ++ js " applied before the failure").
Proof.
  destruct (interrupted_batch_reported (memory_client (H := demo_service) 3) demo_digest demo_template demo_preset
    demo_batch [mkEntry (demo_digest (js "x")) (js "x")]
    [WriteUpdate (demo_digest (js "x")) (js "y") 0; WriteCreate (demo_digest (js "x")) (js "x") 1;
     WriteDelete (demo_digest (js "x")) 2]
    demo_single demo_single (demo_world {[ demo_digest (js "x") := js "y" ]})
    (new_Error (js "ALREADY_EXISTS; operation 1 was applied before the failure"))
    [ReqList demo_template demo_preset no_options;
     ReqUpdate demo_template demo_preset (demo_digest (js "x")) (js "y");
     ReqCreate demo_template demo_preset (demo_digest (js "x")) (js "x")]) as (k & wk & err & write & H1 & H2 & _ & _ & H3);
    [vm_refl..|].
  exists k, wk, err, write; split_and!; assumption.
Defined.

(** ** Reading the positions back *)

Definition comma : Z := 44.
Definition dash : Z := 45.

Fixpoint fields (sep : Z) (s : jstr) : list jstr :=
  match s with
  | [] => [[]]
  | c :: s' =>
      if c =? sep then [] :: fields sep s'
      else match fields sep s' with
           | [] => [[c]]
           | f :: fs => (c :: f) :: fs
           end
  end.

Definition read_number (s : jstr) : Z := foldl (λ acc c, 10 * acc + (c - 48)) 0 s.

Definition without_spaces (s : list Z) : list Z := filter (λ c, c ≠ 32) s.

(** A run: a number, or two around a dash; the space after a comma is ignored. *)
Definition read_run (s : jstr) : list Z :=
  match fields dash (without_spaces s) with
  | [a; b] => zrange (read_number a) (read_number b + 1)
  | a :: _ => [read_number a]
  | [] => []
  end.

Definition read_positions (s : jstr) : list Z := fields comma s ≫= read_run.

Definition is_digit (c : Z) : Prop := 48 ≤ c ≤ 57.

Lemma js_cons c s : js (String c s) = Z.of_nat (Ascii.nat_of_ascii c) :: js s.
Proof. done. Qed.

Lemma pretty_char_digit x : (x < 10)%N →
  Z.of_nat (Ascii.nat_of_ascii (pretty_N_char x)) = 48 + Z.of_N x.
Proof.
  intros Hx; assert (Hd : In x [0;1;2;3;4;5;6;7;8;9]%N) by (simpl; lia).
  simpl in Hd; repeat (destruct Hd as [<-|Hd]; [reflexivity|]); destruct Hd.
Qed.

Lemma digit_bounds d : (d < 10)%N → is_digit (48 + Z.of_N d).
Proof. unfold is_digit; lia. Qed.

Lemma js_pretty_go x s : (0 < x)%N →
  ∃ ds, js (pretty_N_go x s) = ds ++ js s ∧ Forall is_digit ds ∧ read_number ds = Z.of_N x.
Proof.
  revert s; induction (N.lt_wf_0 x) as [x _ IH]; intros s Hx.
  assert (Hm : (x `mod` 10 < 10)%N) by (apply N.mod_lt; lia).
  rewrite pretty_N_go_step by done.
  destruct (decide (x < 10)%N) as [Hlt|Hge].
  - rewrite (N.div_small x 10), pretty_N_go_0, js_cons, pretty_char_digit by done.
    exists [48 + Z.of_N (x `mod` 10)]; split_and!; [done| |].
    + apply Forall_singleton, digit_bounds; done.
    + unfold read_number; simpl; rewrite N.mod_small by done; lia.
  - destruct (IH (x / 10)%N ltac:(apply N.div_lt; lia) (String (pretty_N_char (x `mod` 10)) s)
      ltac:(apply N.div_str_pos; lia)) as (ds & Hds & Hdig & Hval).
    rewrite js_cons, pretty_char_digit in Hds by done.
    exists (ds ++ [48 + Z.of_N (x `mod` 10)]); split_and!.
    + by rewrite Hds, <- app_assoc.
    + apply Forall_app; split; [done|]; apply Forall_singleton, digit_bounds; done.
    + unfold read_number in *; rewrite foldl_app, Hval; simpl.
      rewrite (N.div_mod x 10) at 3 by lia; lia.
Qed.

Lemma jnum_digits n : 0 < n → Forall is_digit (jnum n) ∧ read_number (jnum n) = n.
Proof.
  intros Hn; destruct n as [|q|q]; [lia| |lia].
  destruct (js_pretty_go (N.pos q) "" ltac:(lia)) as (ds & Hds & Hd & Hv).
  change (jnum (Z.pos q)) with (js (pretty_N_go (N.pos q) "")); rewrite Hds, app_nil_r; by split.
Qed.

Lemma fields_nosep sep s : sep ∉ s → fields sep s = [s].
Proof.
  induction s as [|c s IH]; simpl; [done|]; rewrite not_elem_of_cons; intros [Hc Hs].
  rewrite IH by done; by destruct (Z.eqb_spec c sep).
Qed.

Lemma fields_app sep s t : sep ∉ s → fields sep (s ++ sep :: t) = s :: fields sep t.
Proof.
  induction s as [|c s IH]; simpl; [by rewrite Z.eqb_refl|]; rewrite not_elem_of_cons; intros [Hc Hs].
  rewrite IH by done; by destruct (Z.eqb_spec c sep).
Qed.

Lemma digits_without c s : ¬ is_digit c → Forall is_digit s → c ∉ s.
Proof. intros Hc Hs Hin; rewrite Forall_forall in Hs; by apply Hc, Hs. Qed.

Lemma without_spaces_app (a b : list Z) : without_spaces (a ++ b) = without_spaces a ++ without_spaces b.
Proof. apply filter_app. Qed.

Lemma without_spaces_digits (s : list Z) : Forall is_digit s → without_spaces s = s.
Proof.
  unfold without_spaces; induction 1 as [|c s Hc _ IH]; [done|].
  rewrite filter_cons_True by (unfold is_digit in Hc; lia); by rewrite IH.
Qed.

Lemma render_run_plain start stop :
  0 < start → 0 < stop → comma ∉ render_run start stop ∧ without_spaces (render_run start stop) = render_run start stop.
Proof.
  intros H1 H2; destruct (jnum_digits start H1) as [D1 _], (jnum_digits stop H2) as [D2 _].
  assert (Hc : ¬ is_digit comma) by (unfold is_digit, comma; lia).
  unfold render_run; destruct (start =? stop).
  - split; [by apply digits_without|by apply without_spaces_digits].
  - split.
    + rewrite !not_elem_of_app; split_and!; [by apply digits_without| |by apply digits_without].
      by apply (bool_decide_eq_true_1 _).
    + rewrite !without_spaces_app, (without_spaces_digits _ D1), (without_spaces_digits _ D2); done.
Qed.

Lemma read_render_run start stop :
  0 < start ≤ stop → read_run (render_run start stop) = zrange start (stop + 1).
Proof.
  intros H; destruct (jnum_digits start) as [D1 V1], (jnum_digits stop) as [D2 V2]; [lia..|].
  unfold read_run; rewrite (proj2 (render_run_plain start stop ltac:(lia) ltac:(lia))).
  assert (Hd : ¬ is_digit dash) by (unfold is_digit, dash; lia).
  unfold render_run; destruct (Z.eqb_spec start stop) as [<-|Hne].
  - rewrite fields_nosep by (by apply digits_without).
    rewrite V1; unfold zrange; by replace (start + 1 - start) with 1 by lia.
  - change (js "-") with [dash]; cbn [app]; rewrite fields_app, fields_nosep by (by apply digits_without).
    by rewrite V1, V2.
Qed.

Lemma zrange_snoc a b : a ≤ b → zrange a (b + 1) = zrange a b ++ [b].
Proof.
  intros H; unfold zrange; replace (b + 1 - a) with ((b - a) + 1) by lia.
  rewrite seqZ_app by lia; f_equal; unfold seqZ; simpl; f_equal; lia.
Qed.

(** The space after a comma is read over. *)
Lemma read_positions_space s : read_positions (32 :: s) = read_positions s.
Proof.
  unfold read_positions; change (32 :: s) with ([32] ++ s); simpl.
  destruct (fields comma s) as [|f fs] eqn:E; [|done].
  destruct s as [|c s]; simpl in E; [done|]; destruct (c =? comma); [done|]; by destruct (fields comma s).
Qed.

Lemma position_parts_cons rest : ∀ start stop, ∃ r rs, position_parts start stop rest = r :: rs.
Proof.
  induction rest as [|q rest IH]; intros start stop; cbn [position_parts]; [by eexists _, _|].
  destruct (q =? stop + 1); [apply IH|by eexists _, _].
Qed.

Lemma read_parts rest : ∀ start stop,
  0 < start ≤ stop → Forall (λ q, 0 < q) rest →
  read_positions (jjoin (js ", ") (position_parts start stop rest)) = zrange start (stop + 1) ++ rest.
Proof.
  induction rest as [|q rest IH]; intros start stop Hs Hr; cbn [position_parts jjoin].
  - unfold read_positions; rewrite fields_nosep by (apply render_run_plain; lia).
    simpl; by rewrite app_nil_r, read_render_run, app_nil_r.
  - inversion Hr; subst; destruct (Z.eqb_spec q (stop + 1)) as [->|Hq].
    + rewrite IH by (done || lia); rewrite (zrange_snoc start (stop + 1)) by lia; by rewrite <- app_assoc.
    + assert (Hj : jjoin (js ", ") (render_run start stop :: position_parts q q rest) =
        render_run start stop ++ js ", " ++ jjoin (js ", ") (position_parts q q rest))
        by (destruct (position_parts_cons rest q q) as (r & rs & ->); done).
      rewrite Hj; unfold read_positions; change (js ", ") with [comma; 32]; cbn [app].
      rewrite fields_app by (apply render_run_plain; lia); cbn [mbind list_bind].
      rewrite read_render_run by done; f_equal.
      fold (read_positions (32 :: jjoin [comma; 32] (position_parts q q rest))).
      rewrite read_positions_space; change [comma; 32] with (js ", "); rewrite IH by (done || lia).
      unfold zrange; by replace (q + 1 - q) with 1 by lia.
Qed.

(** The positions an interrupted batch reports read back as exactly the
    positions of the operations applied. *)
Theorem positions_roundtrip (applied : list Z) :
  applied ≠ [] → Forall (λ q, 0 < q) applied → read_positions (formatAppliedPositions applied) = applied.
Proof.
  intros Hne Hp; destruct applied as [|q rest]; [done|]; inversion Hp; subst.
  unfold formatAppliedPositions; rewrite read_parts by (done || lia).
  unfold zrange; by replace (q + 1 - q) with 1 by lia.
Qed.

Lemma positions_roundtrip_witness :
  formatAppliedPositions [1; 2; 4] = js "1-2, 4" ∧ read_positions (formatAppliedPositions [1; 2; 4]) = [1; 2; 4].
Proof.
  split; [by vm_compute|]; apply positions_roundtrip; [done|]; repeat constructor; done.
Defined.

(** ** Reading: the walk of the pages, the snapshot *)

(** On every server whose page tokens advance, listing a whole collection
    comes to an end: once the fuel exceeds what there is to walk, the loop returns
    or throws, and more fuel changes nothing. *)
Theorem listMemories_terminates {W} (C : MemoryServiceCalls W) (left : W → jstr → jstr → nat)
    (t p : jstr) (o : ListMemoriesOptions) (w : W) (fuel more : nat) :
  tokens_advance left → (∀ q w, (rpc_listMemories q w).1 ≠ OutOfFuel) →
  (left w (presetName t p) [] < fuel)%nat →
  (client_listMemories fuel t p o w).1 ≠ OutOfFuel ∧
  client_listMemories (fuel + more) t p o w = client_listMemories fuel t p o w.
Proof.
  intros Hadv Hrpc Hf.
  destruct (list_pages_enough left (presetName t p) o Hadv Hrpc fuel [] [] w Hf) as [H1 H2].
  split; [done|apply H2].
Qed.

Lemma listMemories_terminates_witness :
  (client_listMemories (H := demo_service) 6 demo_template demo_preset no_options demo_notes).1 ≠ OutOfFuel ∧
  client_listMemories (H := demo_service) (6 + 100) demo_template demo_preset no_options demo_notes =
  client_listMemories (H := demo_service) 6 demo_template demo_preset no_options demo_notes.
Proof.
  apply (listMemories_terminates demo_service
    (λ w parent token, size (demo_stored w parent) - length token)%nat);
    [exact demo_advance|done|by vm_compute; lia].
Defined.

(** The snapshot is one page of the ten most recent notes: freezing it makes a
    single request, whatever continuation the server offers, replaces the frozen
    text when the read succeeds, and leaves the face as it was when it fails. *)
Theorem snapshot_reads_one_page {W} (C : MemoryServiceCalls W) (fuel : nat) (face : MemoryFace) (w : W) :
  let scope := face_scope face in
  let request := mkListMemories (presetName (sc_template scope) (sc_preset scope)) None (Some 10)
                   (Some (js "update_time desc")) in
  prefetch (H := memory_client (S fuel)) face w =
  match rpc_listMemories request w with
  | (Returned r, w') => (Returned tt, mkFace scope (renderMemorySnapshot (response_entries r)), w')
  | (Threw e, w') => (Threw e, face, w')
  | (OutOfFuel, w') => (OutOfFuel, face, w')
  end.
Proof.
  cbv zeta; unfold prefetch; cbn [listMemories memory_client]; unfold client_listMemories.
  rewrite list_pages_step; cbn [pageSize orderBy].
  change (token_field []) with (@None jstr).
  unfold SNAPSHOT_ENTRY_LIMIT, SNAPSHOT_ORDER_BY.
  destruct (rpc_listMemories _ w) as [[r|e|] w']; [|done..].
  by rewrite bool_decide_eq_true_2 by (left; by eexists).
Qed.

(** The tool never throws: every failure is a text. *)
Lemma memory_tool_answers {W} (S : MemoryStoreRpcs W) (sha256_hex : jstr → jstr) (args : MemoryToolArgs)
    (exec : ToolRunContext) (w : W) (e : Thrown) (w' : W) :
  executeMemoryTool sha256_hex args exec w ≠ (Threw e, w').
Proof.
  unfold executeMemoryTool, try_catch; by repeat case_match; simplify_eq.
Qed.
