(* ===== verification/Wiki.v ===== *)
(** * The wiki tools' operations (wiki-operations.ts, wiki-tools.ts)

    Searching by title, retrieving by exact title and writing entries, against
    the store interface.  Unicode normalization, lower-casing and the digest are
    parameters.

    In the second half, what the tools promise: a template's wikis are a map from
    normalized titles to a title and a content; writing upserts, reading looks up.
    [LawfulWiki] states the documented behaviour of the wiki service the proofs rely
    on; the writes refine the map, batches being all or nothing. *)

From S2P Require Import Prelude JsText MemoryStore MemoryService Memory.

Definition WIKI_SEARCH_PAGE_SIZE : Z := 100.
Definition WIKI_TITLE_MAX_RUNES : Z := 128.
Definition WIKI_CONTENT_MAX_BYTES : Z := 64 * 1024.

Record WikiWriteEntry : Type := mkWriteEntry { we_title : option jstr; we_content : option jstr }.

Record WikiWriteArgs : Type := mkWriteArgs {
  wa_title : option jstr;
  wa_content : option jstr;
  wa_entries : option (list WikiWriteEntry);
}.

Definition WIKI_SEARCH_EMPTY_QUERY_TEXT : jstr :=
  js "wiki: query cannot be empty. Provide a keyword or phrase to search titles.".
Definition WIKI_GET_EMPTY_TITLES_TEXT : jstr :=
  js "wiki: titles cannot be empty. Provide one or more titles to retrieve.".
Definition WIKI_WRITE_AMBIGUOUS_ARGS_TEXT : jstr :=
  js "wiki: provide EITHER title/content (single entry) OR entries (batch), not both.".
Definition WIKI_WRITE_MISSING_ARGS_TEXT : jstr :=
  js "wiki: provide EITHER title/content (single entry) OR entries (batch).".
Definition WIKI_WRITE_EMPTY_ENTRIES_TEXT : jstr :=
  js "wiki: entries cannot be empty. Provide title/content (single entry) or a non-empty entries list (batch).".

(** A text between single quotes. *)
Definition squoted (s : jstr) : jstr := js "'" ++ s ++ js "'".

(** One preflighted write. *)
Inductive WikiKind : Type := KindCreate | KindUpdate.

#[global] Instance WikiKind_eq_dec : EqDecision WikiKind.
Proof. solve_decision. Defined.

Record PlannedWikiWrite : Type := mkPlanned {
  pl_kind : WikiKind;
  pl_id : jstr;
  pl_title : jstr;
  pl_content : jstr;
}.

Definition normalizeWriteEntries (args : WikiWriteArgs) : list WikiWriteEntry :=
  match wa_entries args with
  | Some entries => entries
  | None => [mkWriteEntry (wa_title args) (wa_content args)]
  end.

Definition entry_title (entry : WikiWriteEntry) : jstr := trim (default [] (we_title entry)).
Definition entry_content (entry : WikiWriteEntry) : jstr := default [] (we_content entry).

(** The checks of the preflight on one entry, in order. *)
Definition entry_failure (entry : WikiWriteEntry) : option jstr :=
  if bool_decide (entry_title entry = []) then Some (js "title is required")
  else if WIKI_TITLE_MAX_RUNES <? countRunes (entry_title entry) then
    Some (js "title exceeds " ++ jnum WIKI_TITLE_MAX_RUNES ++ js " characters")
  else if bool_decide (trim (entry_content entry) = []) then Some (js "content is required")
  else if WIKI_CONTENT_MAX_BYTES <? byteLength (entry_content entry) then
    Some (js "content exceeds " ++ jnum WIKI_CONTENT_MAX_BYTES ++ js " bytes")
  else None.

Definition failureText (hasBatch : bool) (pos reason : jstr) : jstr :=
  if hasBatch then js "wiki: " ++ pos ++ js " failed: " ++ reason ++ js ". No entries were written."
  else js "wiki: " ++ reason ++ js ". Nothing was written.".

(** A planned write before the rest of the plan. *)
Definition plan_cons (w : PlannedWikiWrite) (plan : jstr + list PlannedWikiWrite)
    : jstr + list PlannedWikiWrite :=
  match plan with
  | inl text => inl text
  | inr writes => inr (w :: writes)
  end.

(** The hits of one page not seen before, and the names seen. *)
Fixpoint collect (seen : gset jstr) (wikis : list WikiSummary) : list WikiSummary * gset jstr :=
  match wikis with
  | [] => ([], seen)
  | wiki :: wikis =>
      if bool_decide (ws_name wiki ∈ seen) then collect seen wikis
      else let '(hits, seen) := collect ({[ws_name wiki]} ∪ seen) wikis in (wiki :: hits, seen)
  end.

Section Operations.
Context (nfkc lower sha256_hex : jstr → jstr).

Definition normalizeWikiTitle (title : jstr) : jstr := lower (nfkc title).

Definition generateWikiId (titleNorm : jstr) : jstr := slice_to (sha256_hex titleNorm) 32.

Section Calls.
Context {W : Type} `{WikiStore W} (fuel : nat).

(** The page loop of [searchAll]. *)
Fixpoint search_pages (n : nat) (template query : jstr) (hits : list WikiSummary) (seen : gset jstr)
    (pageToken : option jstr) : Eff W (list WikiSummary) :=
  match n with
  | O => λ w, (OutOfFuel, w)
  | S n =>
      page ← searchWikis template query (mkPageOptions (Some WIKI_SEARCH_PAGE_SIZE) pageToken);
      let '(fresh, seen) := collect seen (sp_wikis page) in
      let pageToken := if 0 <? jlen (sp_nextPageToken page) then Some (sp_nextPageToken page) else None in
      match pageToken with
      | Some token => search_pages n template query (hits ++ fresh) seen (Some token)
      | None => mret (hits ++ fresh)
      end
  end.

Definition searchAll (template query : jstr) : Eff W (list WikiSummary) :=
  search_pages fuel template query [] ∅ None.

Definition find_title (norm : jstr) (hits : list WikiSummary) : option WikiSummary :=
  snd <$> list_find (λ hit, normalizeWikiTitle (ws_title hit) = norm) hits.

Definition resolveWiki (template title : jstr) : Eff W (option WikiSummary) :=
  let norm := normalizeWikiTitle title in
  hits ← searchAll template norm;
  mret (find_title norm hits).

Definition wikiSearch (template query : jstr) : Eff W jstr :=
  let trimmed := trim query in
  if bool_decide (length trimmed = 0%nat) then mret WIKI_SEARCH_EMPTY_QUERY_TEXT
  else
    hits ← searchAll template trimmed;
    if bool_decide (length hits = 0%nat) then
      mret (js "wiki: no titles matched " ++ squoted trimmed
            ++ js ". Try a different or shorter keyword, or a different term for the same idea.")
    else
      mret (jjoin jnl ((js "wiki: " ++ jnum (Z.of_nat (length hits)) ++ js " title(s) matched "
                        ++ squoted trimmed ++ js ":") :: ((λ hit, js "- " ++ ws_title hit) <$> hits))).

(** The loop of [wikiGet], with what it found and missed so far. *)
Fixpoint get_loop (template : jstr) (found missing titles : list jstr) : Eff W (list jstr * list jstr) :=
  match titles with
  | [] => mret (found, missing)
  | raw :: titles =>
      let title := trim raw in
      if bool_decide (length title = 0%nat) then get_loop template found (missing ++ [title]) titles
      else
        hit ← resolveWiki template title;
        match hit with
        | None => get_loop template found (missing ++ [title]) titles
        | Some hit =>
            wiki ← getWiki template (parseWikiName (ws_name hit));
            get_loop template (found ++ [js "## " ++ wk_title wiki ++ jnl ++ wk_content wiki]) missing titles
        end
  end.

Definition get_parts (found missing : list jstr) : list jstr :=
  (if bool_decide (found = []) then []
   else (js "wiki: " ++ jnum (Z.of_nat (length found)) ++ js " entry(ies) retrieved.") :: found)
  ++ (if bool_decide (missing = []) then []
      else [js "wiki: " ++ jnum (Z.of_nat (length missing)) ++ js " title(s) not found: "
            ++ jjoin (js ", ") (squoted <$> missing)
            ++ js ". Run wiki_search with a keyword to find the exact title, then retry wiki_get."]).

Definition wikiGet (template : jstr) (titles : list jstr) : Eff W jstr :=
  if bool_decide (length titles = 0%nat) then mret WIKI_GET_EMPTY_TITLES_TEXT
  else
    r ← get_loop template [] [] titles;
    mret (jjoin (jnl ++ jnl) (get_parts r.1 r.2)).

(** The preflight of [wikiWrite]: the failure text, or the planned writes. *)
Fixpoint wiki_preflight (template : jstr) (hasBatch : bool) (planned : gmap jstr jstr) (i : Z)
    (entries : list WikiWriteEntry) : Eff W (jstr + list PlannedWikiWrite) :=
  match entries with
  | [] => mret (inr [])
  | entry :: entries =>
      match entry_failure entry with
      | Some reason => mret (inl (failureText hasBatch (js "entry " ++ jnum (i + 1)) reason))
      | None =>
          let title := entry_title entry in
          let norm := normalizeWikiTitle title in
          match planned !! norm with
          | Some plannedId =>
              rest ← wiki_preflight template hasBatch planned (i + 1) entries;
              mret (plan_cons (mkPlanned KindUpdate plannedId title (entry_content entry)) rest)
          | None =>
              hit ← resolveWiki template title;
              let '(id, kind) := match hit with
                                 | None => (generateWikiId norm, KindCreate)
                                 | Some hit => (parseWikiName (ws_name hit), KindUpdate)
                                 end in
              rest ← wiki_preflight template hasBatch (<[norm := id]> planned) (i + 1) entries;
              mret (plan_cons (mkPlanned kind id title (entry_content entry)) rest)
          end
      end
  end.

Definition wiki_perform (template : jstr) (write : PlannedWikiWrite) : Eff W unit :=
  match pl_kind write with
  | KindCreate => createWiki template (pl_id write) (pl_title write) (pl_content write)
  | KindUpdate => updateWiki template (pl_id write) (pl_content write)
  end.

Definition wiki_commit_error (written : list jstr) (err : Thrown) : Thrown :=
  if bool_decide (written = []) then err
  else new_Error (describeErr err ++ js "; entries written before the failure: "
                  ++ jjoin (js ", ") (squoted <$> written)).

Fixpoint wiki_commit (template : jstr) (written : list jstr) (writes : list PlannedWikiWrite) : Eff W unit :=
  match writes with
  | [] => mret tt
  | write :: writes =>
      _ ← try_catch (wiki_perform template write) (λ err, throw (wiki_commit_error written err));
      wiki_commit template (written ++ [pl_title write]) writes
  end.

Definition write_line (write : PlannedWikiWrite) : jstr :=
  js (match pl_kind write with KindCreate => "created" | KindUpdate => "updated" end) ++ js ": "
  ++ squoted (pl_title write).

Definition wikiWrite (template : jstr) (args : WikiWriteArgs) : Eff W jstr :=
  let hasSingle := bool_decide (is_Some (wa_title args) ∨ is_Some (wa_content args)) in
  let hasBatch := bool_decide (is_Some (wa_entries args)) in
  if hasSingle && hasBatch then mret WIKI_WRITE_AMBIGUOUS_ARGS_TEXT
  else if negb hasSingle && negb hasBatch then mret WIKI_WRITE_MISSING_ARGS_TEXT
  else if bool_decide ((length <$> wa_entries args) = Some 0%nat) then mret WIKI_WRITE_EMPTY_ENTRIES_TEXT
  else
    plan ← wiki_preflight template hasBatch ∅ 0 (normalizeWriteEntries args);
    match plan with
    | inl text => mret text
    | inr writes =>
        _ ← wiki_commit template [] writes;
        mret (jjoin jnl ((js "wiki: " ++ jnum (Z.of_nat (length writes)) ++ js " entry(ies) applied")
                         :: (write_line <$> writes)))
    end.

(** ** The tools *)

(** An agent's context may hold a wiki face, which is its template. *)
Record WikiRunContext : Type := mkWikiRun { wrun_agent : option (jstr * option jstr) }.

Definition resolveWikiFace (exec : WikiRunContext) (toolName : jstr) : Eff W jstr :=
  match wrun_agent exec with
  | None =>
      throw (new_Error (toolName ++ js " tool requires an agent caller: no agent on the tool execution"))
  | Some (id, None) =>
      throw (new_Error (js "wiki tools require the agent-scoped " ++ quoted (js "wiki") ++ js " service; agent "
        ++ quoted id ++ js " has none" ++ jnl
        ++ js "(the team-layer materialization setup registers it from the wiki capability mount)"))
  | Some (_, Some template) => mret template
  end.

Definition or_text (m : Eff W jstr) : Eff W jstr :=
  try_catch m (λ err, mret (js "wiki failed: " ++ describeErr err)).

Definition executeWikiSearchTool (query : option jstr) (exec : WikiRunContext) : Eff W jstr :=
  or_text (template ← resolveWikiFace exec (js "wiki_search"); wikiSearch template (default [] query)).

Definition executeWikiGetTool (titles : option (list jstr)) (exec : WikiRunContext) : Eff W jstr :=
  or_text (template ← resolveWikiFace exec (js "wiki_get"); wikiGet template (default [] titles)).

Definition executeWikiWriteTool (args : WikiWriteArgs) (exec : WikiRunContext) : Eff W jstr :=
  or_text (template ← resolveWikiFace exec (js "wiki_write"); wikiWrite template args).
End Calls.
End Operations.

(** ** The store *)

Section Pages.
Context {W : Type} `{WikiStore W}.

(** The pages of a search from a token on. *)
Inductive SearchPages (template query : jstr) : option jstr → W → list WikiSummary → nat → W → Prop :=
| SearchPages_last token w page w' :
    searchWikis template query (mkPageOptions (Some WIKI_SEARCH_PAGE_SIZE) token) w = (Returned page, w') →
    sp_nextPageToken page = [] →
    SearchPages template query token w (sp_wikis page) 1 w'
| SearchPages_more token w page w1 hits n w' :
    searchWikis template query (mkPageOptions (Some WIKI_SEARCH_PAGE_SIZE) token) w = (Returned page, w1) →
    sp_nextPageToken page ≠ [] →
    SearchPages template query (Some (sp_nextPageToken page)) w1 hits n w' →
    SearchPages template query token w (sp_wikis page ++ hits) (S n) w'.

End Pages.

Class LawfulWiki (W : Type) (S : WikiStore W) (norm : jstr → jstr) := {
  wikis : W → jstr → gmap jstr (jstr * jstr);
  wiki_room : nat;
  law_search t q w :
    norm q ≠ [] → (size (wikis w t) ≤ wiki_room)%nat →
    ∃ hits n w', SearchPages t q None w hits n w' ∧ (n ≤ wiki_room)%nat ∧ wikis w' t = wikis w t ∧
      ∀ h, h ∈ hits ↔ ∃ id title c, wikis w t !! id = Some (title, c) ∧
        h = mkSummary (wikiName t id) title ∧ includes (norm title) (norm q) = true;
  law_getWiki t id title c w :
    no_slash id → wikis w t !! id = Some (title, c) →
    ∃ w', getWiki t id w = (Returned (mkWiki (wikiName t id) title c), w') ∧ wikis w' t = wikis w t;
  law_createWiki t id title c w :
    no_slash id → wikis w t !! id = None →
    (∀ id' tc, wikis w t !! id' = Some tc → norm tc.1 ≠ norm title) →
    ∃ w', createWiki t id title c w = (Returned tt, w') ∧ wikis w' t = <[id := (title, c)]> (wikis w t);
  law_updateWiki t id title c c' w :
    no_slash id → wikis w t !! id = Some (title, c) →
    ∃ w', updateWiki t id c' w = (Returned tt, w') ∧ wikis w' t = <[id := (title, c')]> (wikis w t);
}.

Lemma parseWikiName_wikiName t id : no_slash id → parseWikiName (wikiName t id) = id.
Proof.
  intros Hid; unfold parseWikiName, wikiName.
  change (js "/wikis/") with (js "/wikis" ++ [slash]).
  rewrite <- (app_assoc (js "/wikis")), !app_assoc, <- (app_assoc _ [slash] id).
  by apply after_last_app.
Qed.

(** ** Searching *)

Lemma collect_spec ws : ∀ seen,
  (∀ h, h ∈ (collect seen ws).1 → h ∈ ws) ∧
  (∀ x, x ∈ (collect seen ws).2 ↔ x ∈ seen ∨ x ∈ ws_name <$> (collect seen ws).1) ∧
  (∀ h, h ∈ ws → ws_name h ∈ (collect seen ws).2).
Proof.
  induction ws as [|w ws IH]; intros seen; cbn [collect].
  { split_and!; [done|set_solver|set_solver]. }
  case_bool_decide as Hs.
  - destruct (IH seen) as (H1 & H2 & H3); split_and!; [set_solver|done|].
    intros h [->|Hh]%elem_of_cons; [apply H2; by left|by apply H3].
  - destruct (IH ({[ws_name w]} ∪ seen)) as (H1 & H2 & H3).
    destruct (collect _ ws) as [hits seen']; simpl in *; split_and!; [set_solver| |set_solver].
    intros x; rewrite H2; set_solver.
Qed.

Section Search.
Context {W : Type} {S : WikiStore W}.

(** What the page loop returns: hits of the pages, one for every name. *)
Lemma search_pages_spec t q : ∀ n token w hits k w' acc seen,
  SearchPages t q token w hits k w' → (k ≤ n)%nat →
  ∃ found, search_pages n t q acc seen token w = (Returned (acc ++ found), w') ∧
    (∀ h, h ∈ found → h ∈ hits) ∧
    (∀ h, h ∈ hits → ws_name h ∈ seen ∨ ws_name h ∈ ws_name <$> found).
Proof.
  intros n token w hits k w' acc seen Hp; revert n acc seen.
  induction Hp as [token w page w' Hr Hn|token w page w1 hits k w' Hr Hn _ IH]; intros n acc seen Hk;
    (destruct n as [|n]; [lia|]); cbn [search_pages]; unfold mbind, eff_bind; rewrite Hr;
    destruct (collect_spec (sp_wikis page) seen) as (H1 & H2 & H3);
    destruct (collect seen (sp_wikis page)) as [fresh seen']; cbn [fst snd] in *; rewrite jlen_pos.
  - rewrite bool_decide_eq_false_2 by (rewrite Hn; tauto).
    exists fresh; split_and!; [done|done|]; intros h Hh; apply H2; auto.
  - rewrite bool_decide_eq_true_2 by done.
    destruct (IH n (acc ++ fresh) seen' ltac:(lia)) as (found & -> & F1 & F2).
    exists (fresh ++ found); rewrite app_assoc; split_and!; [done|set_solver|].
    intros h Hh; rewrite fmap_app, elem_of_app; apply elem_of_app in Hh as [Hh|Hh].
    + specialize (H3 h Hh); apply H2 in H3; tauto.
    + destruct (F2 h Hh) as [Hs|Hs]; [apply H2 in Hs; tauto|tauto].
Qed.

End Search.

Section Facts.
Context (nfkc lower sha256_hex : jstr → jstr) (Hhex : ∀ c, no_slash (sha256_hex c)).
Let norm := normalizeWikiTitle nfkc lower.
Let wiki_id := generateWikiId sha256_hex.
Context {W : Type} {S : WikiStore W} {L : LawfulWiki W S norm}.

(** Every wiki is stored under the digest of its normalized title, and the digest
    tells apart the normalized titles [R] that are in play. *)
Definition wiki_ok (R : jstr → Prop) (m : gmap jstr (jstr * jstr)) : Prop :=
  ∀ id tc, m !! id = Some tc → id = wiki_id (norm tc.1) ∧ R (norm tc.1).

Definition collision_free (R : jstr → Prop) : Prop :=
  ∀ a b, R a → R b → wiki_id a = wiki_id b → a = b.

(** A title the service finds again under its normalized form. *)
Definition proper_title (title : jstr) : Prop := norm title ≠ [] ∧ norm (norm title) = norm title.

Lemma wiki_id_no_slash n : no_slash (wiki_id n).
Proof.
  unfold wiki_id, generateWikiId, slice_to; intros Hs; apply (Hhex n).
  apply list_elem_of_In in Hs; apply list_elem_of_In.
  rewrite <- (take_drop (Z.to_nat 32) (sha256_hex n)); apply in_or_app; by left.
Qed.

Lemma includes_refl s : includes s s = true.
Proof. apply includes_spec; exists [], []; by rewrite app_nil_r. Qed.

(** Resolving a title finds the entry with its normalized title, if there is one. *)
Lemma resolveWiki_spec R t title w :
  wiki_ok R (wikis w t) → proper_title title → (size (wikis w t) ≤ wiki_room)%nat →
  ∃ r w', resolveWiki nfkc lower wiki_room t title w = (Returned r, w') ∧ wikis w' t = wikis w t ∧
    match r with
    | Some h => ∃ c, wikis w t !! wiki_id (norm title) = Some (ws_title h, c) ∧
        norm (ws_title h) = norm title ∧ parseWikiName (ws_name h) = wiki_id (norm title)
    | None => ∀ id tc, wikis w t !! id = Some tc → norm tc.1 ≠ norm title
    end.
Proof.
  intros Hok [Hne Hid] Hroom.
  assert (Hq : norm (norm title) ≠ []) by by rewrite Hid.
  destruct (law_search t (norm title) w Hq Hroom) as (hits & n & w' & Hp & Hn & Hw & Hh).
  destruct (search_pages_spec t (norm title) wiki_room None w hits n w' [] ∅ Hp Hn) as (found & Hs & F1 & F2).
  exists (find_title nfkc lower (norm title) found), w'; split_and!; [|done|].
  { unfold resolveWiki, searchAll, mbind, eff_bind; fold norm; by rewrite Hs. }
  unfold find_title; fold norm; destruct (list_find _ found) as [[i h]|] eqn:E; simpl.
  - apply list_find_Some in E as (Hi & Hnorm & _).
    apply list_elem_of_lookup_2, F1, Hh in Hi as (id & title' & c & Hid' & -> & _); simpl in *.
    destruct (Hok _ _ Hid') as [-> _]; simpl in *; fold norm in Hnorm; rewrite Hnorm in *.
    exists c; split_and!; [done|done|]; apply parseWikiName_wikiName, wiki_id_no_slash.
  - apply list_find_None in E; rewrite Forall_forall in E.
    intros id [title' c] Htc Hn'; simpl in Hn'.
    assert (Hin : mkSummary (wikiName t id) title' ∈ hits).
    { apply Hh; exists id, title', c; split_and!; [done..|]; rewrite Hid, Hn'; apply includes_refl. }
    destruct (F2 _ Hin) as [?|Hf]; [set_solver|].
    apply list_elem_of_fmap in Hf as (h & Hname & Hf).
    assert (Hf' := Hf); apply F1, Hh in Hf' as (id2 & title2 & c2 & Hid2 & -> & _); simpl in *.
    apply (E _ Hf); simpl; fold norm.
    destruct (Hok _ _ Htc) as [Hi1 _], (Hok _ _ Hid2) as [Hi2 _].
    assert (id = id2) as <-.
    { rewrite <- (parseWikiName_wikiName t id), Hname, (parseWikiName_wikiName t id2); [done|..];
        [rewrite Hi2|rewrite Hi1]; apply wiki_id_no_slash. }
    by simplify_eq.
Qed.

(** ** Writing *)

(** The abstract state: normalized title to title and content. *)
Definition repr (m v : gmap jstr (jstr * jstr)) : Prop :=
  ∀ n tc, v !! n = Some tc ↔ m !! wiki_id n = Some tc ∧ norm tc.1 = n.

Definition upsert (v : gmap jstr (jstr * jstr)) (entry : WikiWriteEntry) : gmap jstr (jstr * jstr) :=
  let title := entry_title entry in
  <[norm title := (default title (fst <$> v !! norm title), entry_content entry)]> v.

Definition apply_wiki (m : gmap jstr (jstr * jstr)) (w : PlannedWikiWrite) : gmap jstr (jstr * jstr) :=
  match pl_kind w with
  | KindCreate => <[pl_id w := (pl_title w, pl_content w)]> m
  | KindUpdate => alter (λ tc, (tc.1, pl_content w)) (pl_id w) m
  end.

Definition valid_wiki_write (m : gmap jstr (jstr * jstr)) (w : PlannedWikiWrite) : Prop :=
  no_slash (pl_id w) ∧
  match pl_kind w with
  | KindCreate => m !! pl_id w = None ∧ ∀ id tc, m !! id = Some tc → norm tc.1 ≠ norm (pl_title w)
  | KindUpdate => is_Some (m !! pl_id w)
  end.

Fixpoint valid_wiki_writes (m : gmap jstr (jstr * jstr)) (ws : list PlannedWikiWrite) : Prop :=
  match ws with
  | [] => True
  | w :: ws => valid_wiki_write m w ∧ valid_wiki_writes (apply_wiki m w) ws
  end.

Section Plan.
Context (R : jstr → Prop) (Hcf : collision_free R).

(** An entry that has a wiki: the write that updates it. *)
Lemma update_step m v entry t0 c0 :
  wiki_ok R m → repr m v → m !! wiki_id (norm (entry_title entry)) = Some (t0, c0) →
  norm t0 = norm (entry_title entry) →
  let w := mkPlanned KindUpdate (wiki_id (norm (entry_title entry))) (entry_title entry) (entry_content entry) in
  valid_wiki_write m w ∧ wiki_ok R (apply_wiki m w) ∧ repr (apply_wiki m w) (upsert v entry).
Proof.
  intros Hok Hr Hm Ht; set (n := norm (entry_title entry)) in *; cbv zeta.
  assert (Hv : v !! n = Some (t0, c0)) by by apply Hr.
  assert (Ha : apply_wiki m (mkPlanned KindUpdate (wiki_id n) (entry_title entry) (entry_content entry))
    = <[wiki_id n := (t0, entry_content entry)]> m)
    by (unfold apply_wiki; cbn; apply map_eq; intros i; destruct (decide (i = wiki_id n)) as [->|Hi];
        [by rewrite lookup_alter_eq, Hm, lookup_insert_eq|by rewrite lookup_alter_ne, lookup_insert_ne]).
  rewrite Ha; split_and!.
  - by split; [apply wiki_id_no_slash|exists (t0, c0)].
  - intros id tc Hi; apply lookup_insert_Some in Hi as [[<- <-]|[_ Hi]]; [|by apply Hok].
    cbn; rewrite Ht; split; [done|]; destruct (Hok _ _ Hm) as [_ HR]; cbn in HR; by rewrite Ht in HR.
  - intros n' tc; unfold upsert; fold n; rewrite Hv; cbn.
    destruct (decide (n' = n)) as [->|Hn].
    + rewrite !lookup_insert_eq; split; [intros [= <-]; by split|by intros [? ?]].
    + rewrite lookup_insert_ne by done; rewrite (Hr n' tc); destruct (decide (wiki_id n' = wiki_id n)) as [He|He].
      * rewrite He, lookup_insert_eq, Hm; split; intros [[= <-] Hn']; cbn in Hn'; congruence.
      * by rewrite lookup_insert_ne by done.
Qed.

(** An entry without a wiki: the write that creates it. *)
Lemma create_step m v entry :
  wiki_ok R m → repr m v → R (norm (entry_title entry)) →
  (∀ tc, m !! wiki_id (norm (entry_title entry)) = Some tc → norm tc.1 ≠ norm (entry_title entry)) →
  let w := mkPlanned KindCreate (wiki_id (norm (entry_title entry))) (entry_title entry) (entry_content entry) in
  valid_wiki_write m w ∧ wiki_ok R (apply_wiki m w) ∧ repr (apply_wiki m w) (upsert v entry).
Proof.
  intros Hok Hr HR Hno; set (n := norm (entry_title entry)) in *; cbv zeta.
  assert (Hm : m !! wiki_id n = None).
  { apply eq_None_not_Some; intros [tc Htc]; destruct (Hok _ _ Htc) as [Hi HR'].
    apply (Hno tc Htc); by rewrite (Hcf n (norm tc.1) HR HR' Hi). }
  assert (Hv : v !! n = None)
    by (apply eq_None_not_Some; intros [tc Htc]; apply Hr in Htc as [Htc _]; congruence).
  unfold apply_wiki; cbn; split_and!.
  - split; [apply wiki_id_no_slash|]; cbn; split; [done|]; fold n.
    intros id tc Htc He; destruct (Hok _ _ Htc) as [-> _]; rewrite He in Htc; congruence.
  - intros id tc Hi; apply lookup_insert_Some in Hi as [[<- <-]|[_ Hi]]; [|by apply Hok]; by split.
  - intros n' tc; unfold upsert; fold n; rewrite Hv; cbn.
    destruct (decide (n' = n)) as [->|Hn].
    + rewrite !lookup_insert_eq; split; [intros [= <-]; by split|by intros [? ?]].
    + rewrite lookup_insert_ne by done; rewrite (Hr n' tc); destruct (decide (wiki_id n' = wiki_id n)) as [He|He].
      * rewrite He, lookup_insert_eq, Hm; split; [by intros [? _]|intros [[= <-] Hn']; exfalso; by apply Hn].
      * by rewrite lookup_insert_ne by done.
Qed.

(** Where the plan stands: the store it was resolved against, the titles planned
    and the contents after the writes planned so far. *)
Definition plan_at (m0 : gmap jstr (jstr * jstr)) (planned : gmap jstr jstr) (m : gmap jstr (jstr * jstr)) : Prop :=
  wiki_ok R m ∧
  (∀ n id, planned !! n = Some id → id = wiki_id n ∧ ∃ tc, m !! id = Some tc ∧ norm tc.1 = n) ∧
  (∀ n tc, planned !! n = None → norm tc.1 = n → m !! wiki_id n = Some tc ↔ m0 !! wiki_id n = Some tc).

(** Planning a write of a title keeps the plan coherent. *)
Lemma plan_at_step m0 planned m m' n :
  plan_at m0 planned m → wiki_ok R m' →
  (∃ tc, m' !! wiki_id n = Some tc ∧ norm tc.1 = n) →
  (∀ id, id ≠ wiki_id n → m' !! id = m !! id) →
  plan_at m0 (<[n := wiki_id n]> planned) m'.
Proof.
  intros (Hok & Hp & Hm) Hok' (tc & Htc & Hn) Hother; split_and!; [done| |].
  - intros n' id Hi; apply lookup_insert_Some in Hi as [[<- <-]|[Hne Hi]]; [by split; [|exists tc]|].
    destruct (Hp _ _ Hi) as (-> & tc' & Htc' & Hn'); split; [done|].
    destruct (decide (wiki_id n' = wiki_id n)) as [He|He].
    + exfalso; apply Hne.
      destruct (Hok _ _ Htc') as [_ HR1], (Hok' _ _ Htc) as [_ HR2].
      rewrite Hn' in HR1; rewrite Hn in HR2; by symmetry; apply Hcf.
    + exists tc'; by rewrite Hother.
  - intros n' tc' Hi Hn'; apply lookup_insert_None in Hi as [Hi Hne].
    rewrite <- (Hm n' tc') by done.
    destruct (decide (wiki_id n' = wiki_id n)) as [He|He]; [|by rewrite Hother].
    rewrite He, Htc; split.
    + intros [= ->]; by rewrite Hn in Hn'.
    + intros Hmn; exfalso; apply Hne.
      destruct (Hok _ _ Hmn) as [_ HR1], (Hok' _ _ Htc) as [_ HR2].
      rewrite Hn' in HR1; rewrite Hn in HR2; symmetry; apply Hcf; done.
Qed.

(** What a plan is worth: the writes are accepted one after the other, and lead
    to the upserts of the entries. *)
Definition plan_spec (m v : gmap jstr (jstr * jstr)) (entries : list WikiWriteEntry)
    (plan : jstr + list PlannedWikiWrite) : Prop :=
  match plan with
  | inl _ => Exists (λ e, is_Some (entry_failure e)) entries
  | inr writes => Forall (λ e, entry_failure e = None) entries ∧ valid_wiki_writes m writes ∧
      repr (foldl apply_wiki m writes) (foldl upsert v entries) ∧ wiki_ok R (foldl apply_wiki m writes) ∧
      length writes = length entries
  end.

Lemma plan_spec_cons m v entry entries write plan :
  entry_failure entry = None → valid_wiki_write m write →
  plan_spec (apply_wiki m write) (upsert v entry) entries plan →
  plan_spec m v (entry :: entries) (plan_cons write plan).
Proof.
  intros He Hw; destruct plan as [text|writes]; simpl; [by intros; right|].
  intros (Hf & Hv & Hr & Hok & Hl); split_and!; [by constructor|done..|by rewrite Hl].
Qed.

Definition admissible (entry : WikiWriteEntry) : Prop :=
  entry_failure entry = None → proper_title (entry_title entry) ∧ R (norm (entry_title entry)).

(** The plan of an entry with a known kind of write. *)
Lemma plan_step m0 planned m v entry kind :
  plan_at m0 planned m → repr m v → R (norm (entry_title entry)) →
  (if bool_decide (kind = KindUpdate)
   then ∃ tc, m !! wiki_id (norm (entry_title entry)) = Some tc ∧ norm tc.1 = norm (entry_title entry)
   else ∀ tc, m !! wiki_id (norm (entry_title entry)) = Some tc → norm tc.1 ≠ norm (entry_title entry)) →
  let w := mkPlanned kind (wiki_id (norm (entry_title entry))) (entry_title entry) (entry_content entry) in
  valid_wiki_write m w ∧ repr (apply_wiki m w) (upsert v entry) ∧
  plan_at m0 (<[norm (entry_title entry) := wiki_id (norm (entry_title entry))]> planned) (apply_wiki m w).
Proof.
  intros Hpl Hr HR Hk; assert (Hok := proj1 Hpl); destruct kind; cbn in Hk.
  - destruct (create_step m v entry Hok Hr HR Hk) as (Hv & Hok' & Hr').
    split_and!; [done|done|]; eapply plan_at_step; [done|done| |].
    + eexists; unfold apply_wiki; cbn; by rewrite lookup_insert_eq.
    + intros id Hid; unfold apply_wiki; cbn; by rewrite lookup_insert_ne.
  - destruct Hk as ([t0 c0] & Hm & Ht).
    destruct (update_step m v entry t0 c0 Hok Hr Hm Ht) as (Hv & Hok' & Hr').
    split_and!; [done|done|]; eapply plan_at_step; [done|done| |].
    + exists (t0, entry_content entry); unfold apply_wiki; cbn; by rewrite lookup_alter_eq, Hm.
    + intros id Hid; unfold apply_wiki; cbn; by rewrite lookup_alter_ne.
Qed.

Lemma planned_again (planned : gmap jstr jstr) n id : planned !! n = Some id → <[n := id]> planned = planned.
Proof. apply insert_id. Qed.

Lemma wiki_preflight_spec t hb m0 entries :
  wiki_ok R m0 → (size m0 ≤ wiki_room)%nat → Forall admissible entries →
  ∀ i planned m v w, wikis w t = m0 → plan_at m0 planned m → repr m v →
  ∃ plan w', wiki_preflight nfkc lower sha256_hex wiki_room t hb planned i entries w = (Returned plan, w') ∧
    wikis w' t = m0 ∧ plan_spec m v entries plan.
Proof.
  intros Hok Hroom Hadm; induction Hadm as [|entry entries Ha _ IH]; intros i planned m v w Hw Hpl Hr;
    cbn [wiki_preflight].
  { eexists _, w; split_and!; [done..|]; split_and!; [done..|exact (proj1 Hpl)|done]. }
  destruct (entry_failure entry) as [reason|] eqn:He.
  { eexists _, w; split_and!; [done..|]; left; by exists reason. }
  destruct (Ha He) as [Hprop HR]; fold norm; set (n := norm (entry_title entry)) in *.
  destruct (planned !! n) as [id|] eqn:Ep.
  - destruct (proj1 (proj2 Hpl) _ _ Ep) as [-> Htc].
    destruct (plan_step m0 planned m v entry KindUpdate Hpl Hr HR Htc) as (Hv & Hr' & Hpl').
    fold n in Hv, Hr', Hpl'; rewrite (planned_again _ _ _ Ep) in Hpl'.
    destruct (IH (i + 1) _ _ _ w Hw Hpl' Hr') as (plan & w' & Hrun & Hw' & Hps).
    eexists _, w'; unfold mbind, eff_bind; rewrite Hrun; split_and!; [done|done|]; by apply plan_spec_cons.
  - rewrite <- Hw in Hok, Hroom.
    destruct (resolveWiki_spec R t (entry_title entry) w Hok Hprop Hroom)
      as (r & w1 & Hres & Hw1 & Hr1); rewrite Hw in Hw1, Hr1; fold norm wiki_id in Hr1; fold n in Hr1.
    unfold mbind at 1, eff_bind at 1; rewrite Hres.
    destruct r as [h|].
    + destruct Hr1 as (c & Hh & Hn & Hid); rewrite Hid.
      assert (Htc : ∃ tc, m !! wiki_id n = Some tc ∧ norm tc.1 = n)
        by (exists (ws_title h, c); split; [by apply (proj2 (proj2 Hpl))|done]).
      destruct (plan_step m0 planned m v entry KindUpdate Hpl Hr HR Htc) as (Hv & Hr' & Hpl').
      fold n in Hv, Hr', Hpl'.
      destruct (IH (i + 1) _ _ _ w1 Hw1 Hpl' Hr') as (plan & w' & Hrun & Hw' & Hps).
      eexists _, w'; unfold mbind, eff_bind; rewrite Hrun; split_and!; [done|done|]; by apply plan_spec_cons.
    + assert (Hno : ∀ tc, m !! wiki_id n = Some tc → norm tc.1 ≠ n).
      { intros tc Htc Hn; apply (proj2 (proj2 Hpl) n tc Ep Hn) in Htc; by apply (Hr1 _ _ Htc). }
      destruct (plan_step m0 planned m v entry KindCreate Hpl Hr HR Hno) as (Hv & Hr' & Hpl').
      fold n in Hv, Hr', Hpl'.
      destruct (IH (i + 1) _ _ _ w1 Hw1 Hpl' Hr') as (plan & w' & Hrun & Hw' & Hps).
      eexists _, w'; unfold mbind, eff_bind; fold wiki_id; rewrite Hrun; split_and!; [done|done|]; by apply plan_spec_cons.
Qed.

Lemma wiki_perform_ok t write w :
  valid_wiki_write (wikis w t) write →
  ∃ w', wiki_perform t write w = (Returned tt, w') ∧ wikis w' t = apply_wiki (wikis w t) write.
Proof.
  destruct write as [[] id title c]; unfold valid_wiki_write, wiki_perform, apply_wiki; cbn.
  - intros (Hs & Hn & Hu); by apply law_createWiki.
  - intros (Hs & [t0 c0] & Htc); destruct (law_updateWiki t id t0 c0 c w Hs Htc) as (w' & Hr & Hw').
    exists w'; split; [done|]; rewrite Hw'; apply map_eq; intros i; destruct (decide (i = id)) as [->|Hi].
    + by rewrite lookup_insert_eq, lookup_alter_eq, Htc.
    + by rewrite lookup_insert_ne, lookup_alter_ne.
Qed.

Lemma wiki_commit_ok t writes : ∀ written w,
  valid_wiki_writes (wikis w t) writes →
  ∃ w', wiki_commit t written writes w = (Returned tt, w') ∧ wikis w' t = foldl apply_wiki (wikis w t) writes.
Proof.
  induction writes as [|write writes IH]; intros written w Hv; simpl in *; [by exists w|].
  destruct Hv as [Hv Hvs]; destruct (wiki_perform_ok t write w Hv) as (w1 & Hp & Hw1).
  rewrite <- Hw1 in Hvs; destruct (IH (written ++ [pl_title write]) w1 Hvs) as (w' & Hc & Hw').
  exists w'; rewrite <- Hw1; split; [|done]; unfold mbind, eff_bind, try_catch; by rewrite Hp.
Qed.

(** The entries a call writes: none when its forms are mixed or absent. *)
Definition write_entries (args : WikiWriteArgs) : list WikiWriteEntry :=
  if bool_decide (is_Some (wa_title args) ∨ is_Some (wa_content args)) &&
     bool_decide (is_Some (wa_entries args)) then []
  else if negb (bool_decide (is_Some (wa_title args) ∨ is_Some (wa_content args))) &&
          negb (bool_decide (is_Some (wa_entries args))) then []
  else normalizeWriteEntries args.

Definition all_valid (entries : list WikiWriteEntry) : bool :=
  forallb (λ e, bool_decide (entry_failure e = None)) entries.

Lemma apply_wiki_size m w : (size (apply_wiki m w) ≤ 1 + size m)%nat.
Proof.
  assert (Hi : ∀ i x, (size (<[i:=x]> m) ≤ 1 + size m)%nat)
    by (intros i x; rewrite map_size_insert; destruct (m !! i); simpl; lia).
  unfold apply_wiki; destruct (pl_kind w); [apply Hi|].
  destruct (m !! pl_id w) as [tc|] eqn:E.
  - rewrite <- (insert_id m _ _ E) at 1; rewrite alter_insert_eq; apply Hi.
  - rewrite alter_id; [lia|congruence].
Qed.

Lemma writes_size writes : ∀ m, (size (foldl apply_wiki m writes) ≤ length writes + size m)%nat.
Proof.
  induction writes as [|w writes IH]; intros m; simpl; [lia|].
  specialize (IH (apply_wiki m w)); pose proof (apply_wiki_size m w); lia.
Qed.

Lemma plan_at_start m : wiki_ok R m → plan_at m ∅ m.
Proof. intros H; split_and!; [done| |done]; intros n id Hn; by rewrite lookup_empty in Hn. Qed.

Lemma wikiWrite_ok t args w v :
  wiki_ok R (wikis w t) → (size (wikis w t) ≤ wiki_room)%nat → repr (wikis w t) v →
  Forall admissible (write_entries args) →
  ∃ text w', wikiWrite nfkc lower sha256_hex wiki_room t args w = (Returned text, w') ∧
    repr (wikis w' t) (if all_valid (write_entries args) then foldl upsert v (write_entries args) else v) ∧
    wiki_ok R (wikis w' t) ∧ (size (wikis w' t) ≤ length (write_entries args) + size (wikis w t))%nat.
Proof.
  intros Hok Hroom Hr; unfold wikiWrite, write_entries; intros Hadm.
  destruct (bool_decide (is_Some (wa_title args) ∨ _) && _); [by eexists _, w; split_and!|].
  destruct (negb _ && negb _); [by eexists _, w; split_and!|].
  case_bool_decide as H0.
  { eexists _, w; unfold normalizeWriteEntries.
    destruct (wa_entries args) as [[|? ?]|]; simplify_eq/=; by split_and!. }
  destruct (wiki_preflight_spec t (bool_decide (is_Some (wa_entries args))) (wikis w t) _ Hok Hroom Hadm
    0 ∅ (wikis w t) v w eq_refl (plan_at_start _ Hok) Hr) as (plan & w1 & Hp & Hw1 & Hs).
  unfold mbind, eff_bind; rewrite Hp; destruct plan as [text|writes]; cbn [plan_spec] in Hs.
  - eexists _, w1; rewrite Hw1; split_and!; [done| |done|lia].
    replace (all_valid _) with false; [done|]; symmetry; apply not_true_iff_false; unfold all_valid.
    rewrite forallb_forall; intros Ha; apply Exists_exists in Hs as (e & Hin & [reason He]).
    apply list_elem_of_In in Hin; apply Ha, bool_decide_eq_true in Hin; congruence.
  - destruct Hs as (Hf & Hv & Hr' & Hok' & Hlen); rewrite <- Hw1 in Hv.
    destruct (wiki_commit_ok t writes [] w1 Hv) as (w' & -> & Hw'); rewrite Hw1 in Hw'.
    eexists _, w'; rewrite Hw'; split_and!; [done| |done|rewrite <- Hlen; apply writes_size].
    replace (all_valid _) with true; [done|]; symmetry; apply forallb_forall; intros e He.
    apply bool_decide_eq_true; rewrite Forall_forall in Hf; by apply Hf, list_elem_of_In.
Qed.

(** ** Reading *)

Definition lookup_title (v : gmap jstr (jstr * jstr)) (raw : jstr) : option (jstr * jstr) :=
  if bool_decide (trim raw = []) then None else v !! norm (trim raw).

Definition found_texts (v : gmap jstr (jstr * jstr)) (titles : list jstr) : list jstr :=
  omap (λ raw, (λ tc : jstr * jstr, js "## " ++ tc.1 ++ jnl ++ tc.2) <$> lookup_title v raw) titles.

Definition missing_titles (v : gmap jstr (jstr * jstr)) (titles : list jstr) : list jstr :=
  trim <$> filter (λ raw, lookup_title v raw = None) titles.

Definition readable (raw : jstr) : Prop := trim raw ≠ [] → proper_title (trim raw).

Lemma get_loop_ok t v titles : Forall readable titles → ∀ found missing w,
  wiki_ok R (wikis w t) → (size (wikis w t) ≤ wiki_room)%nat → repr (wikis w t) v →
  ∃ w', get_loop nfkc lower wiki_room t found missing titles w =
      (Returned (found ++ found_texts v titles, missing ++ missing_titles v titles), w') ∧
    wikis w' t = wikis w t.
Proof.
  induction 1 as [|raw titles Hraw _ IH]; intros found missing w Hok Hroom Hr; cbn [get_loop].
  { exists w; by rewrite !app_nil_r. }
  unfold found_texts, missing_titles; cbn [omap list_omap]; unfold lookup_title at 1.
  destruct (decide (trim raw = [])) as [Ht|Ht].
  - rewrite (bool_decide_eq_true_2 (length _ = _)) by by rewrite Ht.
    rewrite (bool_decide_eq_true_2 (trim raw = [])) by done; cbn [fmap option_fmap option_map].
    destruct (IH found (missing ++ [trim raw]) w Hok Hroom Hr) as (w' & -> & Hw').
    exists w'; split; [|done].
    rewrite filter_cons_True by (unfold lookup_title; by rewrite bool_decide_eq_true_2).
    by rewrite fmap_cons, <- app_assoc.
  - rewrite (bool_decide_eq_false_2 (length _ = _)) by (by intros ?%nil_length_inv).
    rewrite (bool_decide_eq_false_2 (trim raw = [])) by done.
    destruct (resolveWiki_spec R t (trim raw) w Hok (Hraw Ht) Hroom) as (r & w1 & Hres & Hw1 & Hr1).
    assert (Hlt : lookup_title v raw = v !! norm (trim raw))
      by (unfold lookup_title; by rewrite bool_decide_eq_false_2).
    unfold mbind at 1, eff_bind at 1; rewrite Hres.
    destruct r as [h|].
    + destruct Hr1 as (c & Hc & Hn & Hid).
      assert (Hv : v !! norm (trim raw) = Some (ws_title h, c)) by by apply Hr.
      rewrite Hv, Hid; unfold mbind at 1, eff_bind at 1; rewrite <- Hw1 in Hc.
      destruct (law_getWiki t _ _ _ w1 (wiki_id_no_slash _) Hc) as (w2 & -> & Hw2); cbn [wk_title wk_content].
      rewrite <- Hw1, <- Hw2 in Hok, Hroom, Hr; rewrite <- Hw1, <- Hw2.
      destruct (IH (found ++ [js "## " ++ ws_title h ++ jnl ++ c]) missing w2 Hok Hroom Hr) as (w' & -> & Hw').
      exists w'; split; [|done]; rewrite filter_cons_False by (rewrite Hlt, Hv; done).
      cbn [fmap option_fmap option_map fst snd]; by rewrite <- app_assoc.
    + assert (Hv : v !! norm (trim raw) = None).
      { apply eq_None_not_Some; intros [tc Htc]; apply Hr in Htc as [Htc Hn]; by apply (Hr1 _ _ Htc). }
      rewrite Hv; cbn [fmap option_fmap option_map]; rewrite <- Hw1 in Hok, Hroom, Hr; rewrite <- Hw1.
      destruct (IH found (missing ++ [trim raw]) w1 Hok Hroom Hr) as (w' & -> & Hw').
      exists w'; split; [|done]; rewrite filter_cons_True by by rewrite Hlt.
      by rewrite fmap_cons, <- app_assoc.
Qed.

Lemma wikiGet_ok t v titles w :
  titles ≠ [] → Forall readable titles → wiki_ok R (wikis w t) → (size (wikis w t) ≤ wiki_room)%nat →
  repr (wikis w t) v →
  ∃ w', wikiGet nfkc lower wiki_room t titles w =
      (Returned (jjoin (jnl ++ jnl) (get_parts (found_texts v titles) (missing_titles v titles))), w') ∧
    wikis w' t = wikis w t.
Proof.
  intros Hne Hrd Hok Hroom Hr; unfold wikiGet; rewrite bool_decide_eq_false_2 by (by destruct titles).
  destruct (get_loop_ok t v titles Hrd [] [] w Hok Hroom Hr) as (w' & Hg & Hw').
  exists w'; unfold mbind, eff_bind; by rewrite Hg.
Qed.
End Plan.
End Facts.

(** Over a healthy wiki service a write, single or batch, returns a text and
    upserts every entry, in order and by normalized title, when all of them are
    valid; when one is not, or the forms are mixed, nothing is written. *)
Theorem wiki_write_refines {W} {S : WikiStore W} (nfkc lower sha256_hex : jstr → jstr)
    {L : LawfulWiki W S (normalizeWikiTitle nfkc lower)} (R : jstr → Prop) (t : jstr)
    (args : WikiWriteArgs) (w : W) (v : gmap jstr (jstr * jstr)) :
  (∀ c, no_slash (sha256_hex c)) → collision_free sha256_hex R →
  wiki_ok nfkc lower sha256_hex R (wikis w t) → (size (wikis w t) ≤ wiki_room)%nat →
  repr nfkc lower sha256_hex (wikis w t) v →
  Forall (admissible nfkc lower R) (write_entries args) →
  ∃ text w', wikiWrite nfkc lower sha256_hex wiki_room t args w = (Returned text, w') ∧
    repr nfkc lower sha256_hex (wikis w' t)
      (if all_valid (write_entries args) then foldl (upsert nfkc lower) v (write_entries args) else v).
Proof.
  intros Hhex Hcf Hok Hroom Hr Hadm.
  destruct (wikiWrite_ok nfkc lower sha256_hex Hhex R Hcf t args w v Hok Hroom Hr Hadm)
    as (text & w' & Hw & Hr' & _); by exists text, w'.
Qed.

(** What was written reads back: after a valid single write of a title, asking
    for any spelling of it returns exactly the content written, under the title the
    entry had before, or the one just given for a new entry. *)
Theorem written_entry_reads_back {W} {S : WikiStore W} (nfkc lower sha256_hex : jstr → jstr)
    {L : LawfulWiki W S (normalizeWikiTitle nfkc lower)} (R : jstr → Prop) (t : jstr)
    (title content asked : jstr) (w : W) (v : gmap jstr (jstr * jstr)) :
  (∀ c, no_slash (sha256_hex c)) → collision_free sha256_hex R →
  wiki_ok nfkc lower sha256_hex R (wikis w t) → (1 + size (wikis w t) ≤ wiki_room)%nat →
  repr nfkc lower sha256_hex (wikis w t) v →
  let norm := normalizeWikiTitle nfkc lower in
  let entry := mkWriteEntry (Some title) (Some content) in
  entry_failure entry = None → proper_title nfkc lower (trim title) → R (norm (trim title)) →
  trim asked ≠ [] → proper_title nfkc lower (trim asked) → norm (trim asked) = norm (trim title) →
  ∃ text w1 w2,
    wikiWrite nfkc lower sha256_hex wiki_room t (mkWriteArgs (Some title) (Some content) None) w
      = (Returned text, w1) ∧
    wikiGet nfkc lower wiki_room t [asked] w1 =
      (Returned (jjoin (jnl ++ jnl)
         [js "wiki: 1 entry(ies) retrieved.";
          js "## " ++ default (trim title) (fst <$> v !! norm (trim title)) ++ jnl ++ content]), w2).
Proof.
  intros Hhex Hcf Hok Hroom Hr norm entry He Hp HR Hne Hpa Hn.
  destruct (wikiWrite_ok nfkc lower sha256_hex Hhex R Hcf t (mkWriteArgs (Some title) (Some content) None) w v
    Hok ltac:(lia) Hr) as (text & w1 & Hw & Hr1 & Hok1 & Hsz).
  { apply Forall_singleton; intros _; by split. }
  replace (all_valid _) with true in Hr1 by (symmetry; cbn; unfold entry in He; by rewrite He).
  change (length _ + _)%nat with (1 + size (wikis w t))%nat in Hsz.
  destruct (wikiGet_ok nfkc lower sha256_hex Hhex R t _ [asked] w1 ltac:(done)
    (proj2 (Forall_singleton _ _) (λ _, Hpa)) Hok1 ltac:(lia) Hr1) as (w2 & Hg & _).
  exists text, w1, w2; split; [done|]; rewrite Hg; do 3 f_equal.
  assert (Hl : lookup_title nfkc lower (foldl (upsert nfkc lower) v [entry]) asked =
    Some (default (trim title) (fst <$> v !! norm (trim title)), content)).
  { unfold lookup_title; rewrite bool_decide_eq_false_2 by done; fold norm; rewrite Hn.
    cbn [foldl]; unfold upsert; change (entry_title entry) with (trim title); fold norm.
    by rewrite lookup_insert_eq. }
  change (foldl _ v _) with (foldl (upsert nfkc lower) v [entry]).
  unfold get_parts, found_texts, missing_titles; cbn [omap list_omap]; rewrite Hl.
  rewrite filter_cons_False by (by rewrite Hl); done.
Qed.

(** ** A server

    The wikis of one template, every search answered in one page; titles are
    normalized by lower-casing ASCII letters. *)

Notation DemoWiki := (gmap jstr (jstr * jstr)).

Definition demo_lower (s : jstr) : jstr :=
  (λ c, if (65 <=? c) && (c <=? 90) then c + 32 else c) <$> s.
Definition demo_nfkc (s : jstr) : jstr := s.
Notation demo_norm := (normalizeWikiTitle demo_nfkc demo_lower).

Definition demo_hits (w : DemoWiki) (parent query : jstr) : list ListedWikiSummary :=
  omap (λ '(id, (title, _)),
    if includes (demo_norm title) (demo_norm query)
    then Some (mkListedSummary (Some (parent ++ js "/wikis/" ++ id)) (Some title)) else None) (map_to_list w).

Definition demo_taken (w : DemoWiki) (title : jstr) : bool :=
  existsb (λ e : jstr * (jstr * jstr), bool_decide (demo_norm e.2.1 = demo_norm title)) (map_to_list w).

Definition demo_wiki : WikiServiceCalls DemoWiki := {|
  rpc_searchWikis q w := (Returned (Some (mkSearchResponse (demo_hits w (sq_parent q) (sq_query q)) None)), w);
  rpc_getWiki name w :=
    match w !! parseWikiName name with
    | Some (title, c) => (Returned (Some (mkListedWiki (Some name) (Some title) (Some c))), w)
    | None => (Threw not_found, w)
    end;
  rpc_createWiki q w :=
    if bool_decide (is_Some (w !! cw_wikiId q)) || demo_taken w (cw_title q) then (Threw already_exists, w)
    else (Returned tt, <[cw_wikiId q := (cw_title q, cw_content q)]> w);
  rpc_updateWiki q w :=
    match w !! parseWikiName (uw_name q) with
    | Some (title, _) => (Returned tt, <[parseWikiName (uw_name q) := (title, uw_content q)]> w)
    | None => (Threw not_found, w)
    end;
  rpc_deleteWiki name w := (Returned tt, delete (parseWikiName name) w);
  rpc_listWikis q w :=
    (Returned (Some (mkListWikisResponse
       ((λ '(id, (title, c)), mkListedWiki (Some (wq_parent q ++ js "/wikis/" ++ id)) (Some title) (Some c))
        <$> map_to_list w) None)), w);
|}.

#[global] Instance demo_wiki_store : WikiStore DemoWiki := wiki_client (H := demo_wiki).

Lemma wikiName_parent t id : templateName t ++ js "/wikis/" ++ id = wikiName t id.
Proof. unfold wikiName, templateName; by rewrite <- app_assoc. Qed.

Lemma demo_search (t q : jstr) (w : DemoWiki) :
  searchWikis t q (mkPageOptions (Some WIKI_SEARCH_PAGE_SIZE) None) w =
  (Returned (mkSearchPage (omap listed_summary (demo_hits w (templateName t) q)) []), w).
Proof. done. Qed.

Lemma demo_hits_spec (t q : jstr) (w : DemoWiki) h :
  h ∈ omap listed_summary (demo_hits w (templateName t) q) ↔
  ∃ id title c, w !! id = Some (title, c) ∧ h = mkSummary (wikiName t id) title ∧
    includes (demo_norm title) (demo_norm q) = true.
Proof.
  unfold demo_hits; rewrite list_elem_of_omap; split.
  - intros (s & Hs & Hh); apply list_elem_of_omap in Hs as ([id [title c]] & Hin & Hc).
    apply elem_of_map_to_list in Hin; destruct (includes _ _) eqn:E; [|done].
    assert (s = mkListedSummary (Some (templateName t ++ js "/wikis/" ++ id)) (Some title)) as -> by congruence.
    unfold listed_summary in Hh; cbn [ls_name ls_title] in Hh; rewrite wikiName_parent in Hh.
    assert (h = mkSummary (wikiName t id) title) as -> by congruence; by exists id, title, c.
  - intros (id & title & c & Hin & -> & Hinc).
    exists (mkListedSummary (Some (templateName t ++ js "/wikis/" ++ id)) (Some title)); split.
    + apply list_elem_of_omap; exists (id, (title, c)); split; [by apply elem_of_map_to_list|by rewrite Hinc].
    + unfold listed_summary; cbn [ls_name ls_title]; by rewrite wikiName_parent.
Qed.

#[global] Program Instance demo_wiki_lawful : LawfulWiki DemoWiki demo_wiki_store demo_norm := {|
  wikis w _ := w;
  wiki_room := 5;
|}.
Next Obligation.
  intros t q w Hq _; exists (omap listed_summary (demo_hits w (templateName t) q)), 1%nat, w.
  split_and!; [|lia|done|apply demo_hits_spec].
  eapply (SearchPages_last t q None w (mkSearchPage _ []) w); [apply demo_search|done].
Qed.
Next Obligation.
  intros t id title c w Hs Hw; cbv beta in Hw; exists w; split; [|done].
  unfold getWiki, demo_wiki_store, wiki_client, client_getWiki, mbind, eff_bind, rpc_getWiki, demo_wiki.
  by rewrite parseWikiName_wikiName, Hw.
Qed.
Next Obligation.
  intros t id title c w Hs Hw Hu; cbv beta in Hw, Hu; eexists; split; [|done].
  unfold createWiki, demo_wiki_store, wiki_client, client_createWiki, rpc_createWiki, demo_wiki; cbn.
  rewrite Hw, bool_decide_eq_false_2 by (by intros [? ?]); simpl.
  replace (demo_taken w title) with false; [done|]; symmetry; apply not_true_iff_false; unfold demo_taken.
  rewrite existsb_exists; intros ([id' tc] & Hin & He); apply list_elem_of_In, elem_of_map_to_list in Hin.
  apply bool_decide_eq_true in He; by apply (Hu id' tc).
Qed.
Next Obligation.
  intros t id title c c' w Hs Hw; cbv beta in Hw; eexists; split; [|done].
  unfold updateWiki, demo_wiki_store, wiki_client, client_updateWiki, rpc_updateWiki, demo_wiki;
    cbn [uw_name uw_content].
  by rewrite parseWikiName_wikiName, Hw.
Qed.

(** A wiki titled [Opening], stored under its digest. *)
Definition demo_titles (n : jstr) : Prop := n = js "opening" ∨ n = js "endgame".
Definition demo_world_wiki : DemoWiki :=
  {[ generateWikiId demo_digest (js "opening") := (js "Opening", js "Start in a corner.") ]}.
Definition demo_view : gmap jstr (jstr * jstr) :=
  {[ js "opening" := (js "Opening", js "Start in a corner.") ]}.

Lemma demo_collision_free : collision_free demo_digest demo_titles.
Proof.
  intros a b [->| ->] [->| ->] H; try done; exfalso; revert H; by apply (bool_decide_eq_false_1 _).
Qed.

Lemma demo_wiki_ok : wiki_ok demo_nfkc demo_lower demo_digest demo_titles demo_world_wiki.
Proof.
  intros id tc Hi; unfold demo_world_wiki in Hi; apply lookup_singleton_Some in Hi as [<- <-].
  split; [vm_refl|left; vm_refl].
Qed.

Lemma demo_repr : repr demo_nfkc demo_lower demo_digest demo_world_wiki demo_view.
Proof.
  intros n tc; unfold demo_view, demo_world_wiki; rewrite !lookup_singleton_Some; split.
  - intros [<- <-]; split; [done|vm_refl].
  - intros [[_ <-] Hn]; split; [rewrite <- Hn; vm_refl|done].
Qed.

Lemma wiki_write_refines_witness :
  let args := mkWriteArgs None None (Some [mkWriteEntry (Some (js "OPENING ")) (Some (js "Start anywhere."));
                                           mkWriteEntry (Some (js "Endgame")) (Some (js "Count."))]) in
  ∃ text w', wikiWrite demo_nfkc demo_lower demo_digest wiki_room (js "saolei") args demo_world_wiki
      = (Returned text, w') ∧
    repr demo_nfkc demo_lower demo_digest (wikis w' (js "saolei"))
      (if all_valid (write_entries args) then foldl (upsert demo_nfkc demo_lower) demo_view (write_entries args)
       else demo_view).
Proof.
  apply (wiki_write_refines demo_nfkc demo_lower demo_digest demo_titles (js "saolei") _ demo_world_wiki demo_view).
  - exact demo_digest_no_slash.
  - exact demo_collision_free.
  - exact demo_wiki_ok.
  - by vm_compute; lia.
  - exact demo_repr.
  - constructor; [|constructor; [|constructor]]; intros _; split.
    + split; [by apply (bool_decide_eq_true_1 _)|vm_refl].
    + left; vm_refl.
    + split; [by apply (bool_decide_eq_true_1 _)|vm_refl].
    + right; vm_refl.
Defined.

Lemma written_entry_reads_back_witness :
  ∃ text w1 w2,
    wikiWrite demo_nfkc demo_lower demo_digest wiki_room (js "saolei")
      (mkWriteArgs (Some (js "opening")) (Some (js "Start anywhere.")) None) demo_world_wiki = (Returned text, w1) ∧
    wikiGet demo_nfkc demo_lower wiki_room (js "saolei") [js " OPENING"] w1 =
      (Returned (jjoin (jnl ++ jnl)
         [js "wiki: 1 entry(ies) retrieved.";
          js "## " ++ default (trim (js "opening"))
            (fst <$> demo_view !! normalizeWikiTitle demo_nfkc demo_lower (trim (js "opening"))) ++ jnl
          ++ js "Start anywhere."]), w2).
Proof.
  apply (written_entry_reads_back demo_nfkc demo_lower demo_digest demo_titles (js "saolei") (js "opening")
    (js "Start anywhere.") (js " OPENING") demo_world_wiki demo_view).
  - exact demo_digest_no_slash.
  - exact demo_collision_free.
  - exact demo_wiki_ok.
  - by vm_compute; lia.
  - exact demo_repr.
  - vm_refl.
  - split; [by apply (bool_decide_eq_true_1 _)|vm_refl].
  - left; vm_refl.
  - by apply (bool_decide_eq_true_1 _).
  - split; [by apply (bool_decide_eq_true_1 _)|vm_refl].
  - vm_refl.
Defined.
