(* ===== verification/SessionConfig.v ===== *)
(** * The configuration of a team (session.ts, first half; scenes.ts)

    Resource names, model selectors and the validation [doMaterialize] performs
    before it touches anything: structure, then the scene's roster, then every
    preset, then every model.  What the preset store and the model catalog answer
    during the call is given per role. *)

From S2P Require Import Prelude.

#[local] Open Scope Z_scope.

(** ** Errors *)

Inductive TeamSessionErrorCode : Type := INVALID_ARGUMENT | NOT_FOUND | FAILED_PRECONDITION.

#[export] Instance TeamSessionErrorCode_eq_dec : EqDecision TeamSessionErrorCode.
Proof. solve_decision. Defined.

(** A request-level error with its stable code, or an error of another kind passed
    on as it is. *)
Inductive SessionError : Type :=
| TeamSessionError (code : TeamSessionErrorCode) (message : string)
| OtherError (message : string).

#[export] Instance SessionError_eq_dec : EqDecision SessionError.
Proof. solve_decision. Defined.

Definition invalid {A} (message : string) : SessionError + A := inl (TeamSessionError INVALID_ARGUMENT message).

Definition bind_ok {A B} (r : SessionError + A) (f : A → SessionError + B) : SessionError + B :=
  match r with
  | inl e => inl e
  | inr a => f a
  end.

Notation "x ⇠ m ; f" := (bind_ok m (λ x, f)) (at level 100, m at level 99, f at level 200, right associativity).

(** ** Names *)

Definition slash_char : Ascii.ascii := Ascii.ascii_of_nat 47.

(** The segments between slashes. *)
Fixpoint segments (s : string) : list string :=
  match s with
  | "" => [""]
  | String c s' =>
      if bool_decide (c = slash_char) then "" :: segments s'
      else match segments s' with
           | [] => [String c ""]
           | f :: fs => String c f :: fs
           end
  end.

(** [/^templates\/([^/]+)\/sessions\/([^/]+)$/] *)
Definition parseSessionResource (name : string) : option (string * string) :=
  match segments name with
  | [a; template; b; session] =>
      if bool_decide (a = "templates") && bool_decide (template ≠ "")
         && bool_decide (b = "sessions") && bool_decide (session ≠ "")
      then Some (template, session) else None
  | _ => None
  end.

Definition parsePresetResource (name : string) : option (string * string) :=
  match segments name with
  | [a; template; b; preset] =>
      if bool_decide (a = "templates") && bool_decide (template ≠ "")
         && bool_decide (b = "presets") && bool_decide (preset ≠ "")
      then Some (template, preset) else None
  | _ => None
  end.

Definition presetResourceName (template preset : string) : string :=
  "templates/" +:+ template +:+ "/presets/" +:+ preset.

(** A text between double quotes. *)
Definition quote (s : string) : string := String (Ascii.ascii_of_nat 34) (s +:+ String (Ascii.ascii_of_nat 34) "").

Record ParsedModelIdentifier : Type := mkRoute { rt_provider : string; rt_model : string }.

Definition COMPOSITE_MODEL_HINT : string :=
  "model selectors use the composite form " +:+ quote "provider/model-id" +:+ " (see ListModels)".

(** The text before the first slash and the text after it. *)
Fixpoint cut_slash (s : string) : option (string * string) :=
  match s with
  | "" => None
  | String c s' =>
      if bool_decide (c = slash_char) then Some ("", s')
      else (λ '(a, b), (String c a, b)) <$> cut_slash s'
  end.

Definition parseModelIdentifier (selector : string) : SessionError + ParsedModelIdentifier :=
  match cut_slash selector with
  | Some (provider, model) =>
      if bool_decide (provider = "") || bool_decide (model = "")
      then invalid ("model " +:+ quote selector +:+ " is not a valid selector; " +:+ COMPOSITE_MODEL_HINT)
      else inr (mkRoute provider model)
  | None => invalid ("model " +:+ quote selector +:+ " is not a valid selector; " +:+ COMPOSITE_MODEL_HINT)
  end.

(** ** Scenes and requests *)

Record SceneSpec : Type := mkScene {
  roster : list string;
  orchestratable : bool;
  faceMembers : list string;
}.

Definition saoleiScene : SceneSpec := mkScene ["player"; "planner"] true ["player"; "planner"; "announcer"].
Definition sts2Scene : SceneSpec := mkScene ["main"] true ["main"].

Definition SceneRegistry : Type := list (string * SceneSpec).
Definition SCENES : SceneRegistry := [("saolei", saoleiScene); ("sts2", sts2Scene)].

Definition scene_of (scenes : SceneRegistry) (template : string) : option SceneSpec :=
  snd <$> (list_find (λ s, s.1 = template) scenes ≫= λ r, Some r.2).

Definition wiredScene (scenes : SceneRegistry) (template : string) : option SceneSpec :=
  match scene_of scenes template with
  | Some scene => if orchestratable scene then Some scene else None
  | None => None
  end.

Definition sceneNotWiredMessage (template : string) : string :=
  "scene " +:+ quote template +:+ " is not wired for team orchestration yet".

Definition isMemberRole (scenes : SceneRegistry) (value : string) : bool :=
  existsb (λ s, bool_decide (value ∈ faceMembers s.2)) scenes.

Definition memberRoster (scenes : SceneRegistry) (template : string) : string :=
  join "/" (default [] (faceMembers <$> scene_of scenes template)).

Definition sceneRoster (scenes : SceneRegistry) (template : string) : list string :=
  default [] (roster <$> scene_of scenes template).

Record TeamMemberOptions : Type := mkOptions { mo_role : string; mo_preset : string; mo_model : option string }.

Record SceneMemberConfig : Type := mkConfig {
  sm_role : string;
  sm_preset : string;
  sm_provider : string;
  sm_model : string;
}.

Definition compositeModel (m : SceneMemberConfig) : string := sm_provider m +:+ "/" +:+ sm_model m.

(** What the preset store answers to a read of a preset, and the catalog to a
    listing of a provider's models. *)
Inductive PresetAnswer : Type :=
| PresetView (role : option string)
| PresetMissing
| PresetOutage (message : string).

Inductive CatalogAnswer : Type :=
| CatalogModels (models : list string)
| CatalogOutage (message : string).

Record Answers : Type := mkAnswers {
  an_preset : string → string → PresetAnswer;
  an_models : string → string → CatalogAnswer;
}.

(** ** Validation *)

Definition check_structure (template : string) (member : TeamMemberOptions) : SessionError + unit :=
  if bool_decide (mo_role member = "") then invalid "every team member must carry a non-empty role"
  else
    match parsePresetResource (mo_preset member) with
    | None =>
        invalid ("member " +:+ quote (mo_role member) +:+ " preset must be a preset resource name ("
          +:+ quote "templates/{template}/presets/{preset}" +:+ "), got " +:+ quote (mo_preset member))
    | Some (t, _) =>
        if bool_decide (t = template) then inr tt
        else invalid ("member " +:+ quote (mo_role member) +:+ " preset template " +:+ t
               +:+ " does not match session template " +:+ template)
    end.

Fixpoint each {A} (check : A → SessionError + unit) (l : list A) : SessionError + unit :=
  match l with
  | [] => inr tt
  | a :: l => _ ⇠ check a; each check l
  end.

Definition validateMemberStructure (members : list TeamMemberOptions) (template : string) : SessionError + unit :=
  if bool_decide (length members = 0%nat) then invalid "team.members must not be empty"
  else each (check_structure template) members.

Definition validateSceneRoster (members : list TeamMemberOptions) (template : string) (scene : SceneSpec)
    : SessionError + unit :=
  if bool_decide (length members ≠ length (roster scene)) then
    invalid (template +:+ " team materialization requires exactly " +:+ num_str (Z.of_nat (length (roster scene)))
      +:+ " members (" +:+ join " and " (roster scene) +:+ "), got " +:+ num_str (Z.of_nat (length members)))
  else if forallb (λ role, bool_decide (role ∈ mo_role <$> members)) (roster scene) then inr tt
  else
    invalid (template +:+ " team member roles must be exactly {" +:+ join ", " (quote <$> roster scene)
      +:+ "}, got [" +:+ join ", " (mo_role <$> members) +:+ "]").

Definition memberFor (members : list TeamMemberOptions) (role template : string) : SessionError + TeamMemberOptions :=
  match list_find (λ m, mo_role m = role) members with
  | Some (_, m) => inr m
  | None => invalid (template +:+ " team member " +:+ quote role +:+ " is missing")
  end.

Definition presetId (presetName : string) : SessionError + string :=
  match parsePresetResource presetName with
  | Some (_, preset) => inr preset
  | None =>
      invalid ("preset must be a preset resource name (" +:+ quote "templates/{template}/presets/{preset}"
        +:+ "), got " +:+ quote presetName)
  end.

Definition validateMemberPreset (a : Answers) (presetName role : string) : SessionError + unit :=
  id ⇠ presetId presetName;
  match an_preset a role id with
  | PresetMissing =>
      invalid ("unknown preset " +:+ quote id +:+ "; create a preset in the " +:+ role +:+ " pool first")
  | PresetOutage message => inl (OtherError message)
  | PresetView view =>
      if bool_decide (view = Some role) then inr tt
      else invalid ("scene check failed: preset " +:+ quote id +:+ " carries role " +:+ quote (default "" view)
             +:+ " but member " +:+ quote role +:+ " requires the matching role")
  end.

Definition validateModel (a : Answers) (role selector : string) : SessionError + ParsedModelIdentifier :=
  route ⇠ parseModelIdentifier selector;
  match an_models a role (rt_provider route) with
  | CatalogOutage message => inl (OtherError message)
  | CatalogModels models =>
      if bool_decide (rt_model route ∈ models) then inr route
      else invalid ("unknown model " +:+ quote selector +:+ " for provider " +:+ quote (rt_provider route)
             +:+ "; " +:+ COMPOSITE_MODEL_HINT)
  end.

(** [member.request.model || DEFAULT_MODEL] *)
Definition effective_model (DEFAULT_MODEL : string) (m : TeamMemberOptions) : string :=
  let model := default "" (mo_model m) in if bool_decide (model = "") then DEFAULT_MODEL else model.

Fixpoint traverse {A B} (f : A → SessionError + B) (l : list A) : SessionError + list B :=
  match l with
  | [] => inr []
  | a :: l => b ⇠ f a; bs ⇠ traverse f l; inr (b :: bs)
  end.

Definition member_config (DEFAULT_MODEL : string) (a : Answers) (m : string * TeamMemberOptions)
    : SessionError + SceneMemberConfig :=
  let '(role, request) := m in
  route ⇠ validateModel a role (effective_model DEFAULT_MODEL request);
  preset ⇠ presetId (mo_preset request);
  inr (mkConfig role preset (rt_provider route) (rt_model route)).

(** The whole validation, in the order of [doMaterialize]: the template, and the
    configuration of every role of the roster. *)
Definition configure (scenes : SceneRegistry) (DEFAULT_MODEL session : string)
    (members : list TeamMemberOptions) (a : Answers) : SessionError + (string * list SceneMemberConfig) :=
  match parseSessionResource session with
  | None =>
      invalid ("session must be a game session resource name ("
        +:+ quote "templates/{template}/sessions/{session}" +:+ "), got " +:+ quote session)
  | Some (template, _) =>
      match wiredScene scenes template with
      | None => invalid (sceneNotWiredMessage template)
      | Some scene =>
          _ ⇠ validateMemberStructure members template;
          _ ⇠ validateSceneRoster members template scene;
          configured ⇠ traverse (λ role, m ⇠ memberFor members role template; inr (role, m)) (roster scene);
          _ ⇠ each (λ m : string * TeamMemberOptions, validateMemberPreset a (mo_preset m.2) m.1) configured;
          configs ⇠ traverse (member_config DEFAULT_MODEL a) configured;
          inr (template, configs)
      end
  end.
