(* ===== verification/Session.v ===== *)
(** * Sessions and their teams (session.ts, second half)

    The class [TeamSessions] between two awaits is a step.  Entries are shared
    objects — a watcher, a stream subscription or a detach closure outlives the
    entry's place in the registry — so they live on a heap and are named by their
    position, their generation.  The orchestration is an interface: what its
    snapshot, its submit, its disposal and its materialization answer comes with
    the step.  What the streams of the clients receive is logged. *)

From S2P Require Import Prelude ChatWire History Collector SessionConfig.

#[local] Open Scope Z_scope.

(** ** State *)

(** An agent member and the position of its collector, or the announce-only
    member. *)
Inductive MemberRuntime : Type :=
| AgentRuntime (role preset model : string) (collector : nat)
| AnnounceRuntime (role : string).

Definition runtime_role (m : MemberRuntime) : string :=
  match m with AgentRuntime r _ _ _ => r | AnnounceRuntime r => r end.

(** The last failure of an orchestration, as the watcher reads it. *)
Record SceneFailure : Type := mkSceneFailure {
  sf_message : string;
  sf_code : string;
  sf_orchestration : bool;
}.

Record SceneSnapshot : Type := mkSnapshot {
  sn_active : option string;
  sn_activation : string;
  sn_paused : bool;
  sn_queued : Z;
  sn_lastError : option SceneFailure;
}.

Record TeamEntry : Type := mkTeamEntry {
  te_session : string;
  te_template : string;
  te_host : Collector.Host;
  te_members : list MemberRuntime;
  te_dynamic : list ((string * string) * nat);
  te_subscribed : bool;
  te_streams : list nat;
  te_createTime : Z;
  te_updateTime : Z;
  te_watching : bool;
  te_disposed : bool;
}.

(** A teardown is over once it unsubscribed; from then on the entry is inert. *)
Definition with_host (e : TeamEntry) h :=
  mkTeamEntry (te_session e) (te_template e) h (te_members e) (te_dynamic e) (te_subscribed e) (te_streams e)
    (te_createTime e) (te_updateTime e) (te_watching e) (te_disposed e).
Definition with_dynamic (e : TeamEntry) d :=
  mkTeamEntry (te_session e) (te_template e) (te_host e) (te_members e) d (te_subscribed e) (te_streams e)
    (te_createTime e) (te_updateTime e) (te_watching e) (te_disposed e).
Definition with_subscribed (e : TeamEntry) b :=
  mkTeamEntry (te_session e) (te_template e) (te_host e) (te_members e) (te_dynamic e) b (te_streams e)
    (te_createTime e) (te_updateTime e) (te_watching e) (te_disposed e).
Definition with_streams (e : TeamEntry) ks :=
  mkTeamEntry (te_session e) (te_template e) (te_host e) (te_members e) (te_dynamic e) (te_subscribed e) ks
    (te_createTime e) (te_updateTime e) (te_watching e) (te_disposed e).
Definition with_watching (e : TeamEntry) b :=
  mkTeamEntry (te_session e) (te_template e) (te_host e) (te_members e) (te_dynamic e) (te_subscribed e)
    (te_streams e) (te_createTime e) (te_updateTime e) b (te_disposed e).
Definition with_disposed (e : TeamEntry) :=
  mkTeamEntry (te_session e) (te_template e) (te_host e) (te_members e) (te_dynamic e) (te_subscribed e)
    (te_streams e) (te_createTime e) (te_updateTime e) (te_watching e) true.

(** What a client's stream receives. *)
Inductive StreamAction : Type :=
| StreamWrite (event : ChatEvent)
| StreamEnd
| StreamFail (code message : string).

Definition Wire : Type := list (nat * StreamAction).

(** A materialization: queued behind the others of its session, waiting for the old
    team to be disposed of, or for the new orchestration to be built. *)
Inductive Phase : Type :=
| Queued_job
| Disposing (old : nat) (template : string) (configs : list SceneMemberConfig) (createTime : Z)
| Building (template : string) (configs : list SceneMemberConfig) (createTime updateTime : Z).

Record Job : Type := mkJob { jb_options : list TeamMemberOptions; jb_phase : Phase }.

Record Sessions : Type := mkSessions {
  ss_entries : list TeamEntry;
  ss_teams : gmap string nat;
  ss_jobs : gmap string (list Job);
  ss_closing : list nat;
  ss_wire : Wire;
}.

(** [ss_entries] is the heap, [ss_teams] the registry, [ss_jobs] the chain of the
    materializations of a session, [ss_closing] the teardowns a shutdown awaits, and
    [ss_wire] what the streams were given. *)

Definition new_Sessions : Sessions := mkSessions [] ∅ ∅ [] [].

Definition set_entry (s : Sessions) (g : nat) (e : TeamEntry) (w : Wire) : Sessions :=
  mkSessions (<[g := e]> (ss_entries s)) (ss_teams s) (ss_jobs s) (ss_closing s) (ss_wire s ++ w).

(** ** Streams *)

(** The [broadcast] closure on one frame: the streams whose write throws are
    dropped, the others get the frame. *)
Definition broadcast (broken : list nat) (streams : list nat) (event : ChatEvent) : list nat * Wire :=
  (filter (λ k, k ∉ broken) streams,
   (λ k, (k, StreamWrite event)) <$> filter (λ k, k ∉ broken) streams).

Fixpoint broadcast_all (broken : list nat) (streams : list nat) (events : list ChatEvent) : list nat * Wire :=
  match events with
  | [] => (streams, [])
  | event :: events =>
      let '(streams, w) := broadcast broken streams event in
      let '(streams, w') := broadcast_all broken streams events in (streams, w ++ w')
  end.

(** The history of an entry changed: the frames it sank go out. *)
Definition project (broken : list nat) (e : TeamEntry) (h : Collector.Host) : TeamEntry * Wire :=
  let fresh := drop (length (sunk (hs_history (te_host e)))) (sunk (hs_history h)) in
  let '(streams, w) := broadcast_all broken (te_streams e) fresh in
  (with_streams (with_host e h) streams, w).

(** [endStreams]; an [end] that throws is ignored. *)
Definition endStreams (e : TeamEntry) : TeamEntry * Wire :=
  (with_streams e [], (λ k, (k, StreamEnd)) <$> te_streams e).

Definition LOOP_ERROR_TEXT (code : string) : string :=
  if bool_decide (code = "TRANSIENT") then "服务暂不可用，稍后重试"
  else if bool_decide (code = "QUOTA") then "配额耗尽"
  else if bool_decide (code = "CREDENTIAL") then "检查 API 凭证"
  else if bool_decide (code = "CONFIG") then "模型配置错误"
  else if bool_decide (code = "INPUT_TOO_LARGE") then "上下文超限"
  else "内部错误".

Definition loopErrorText (code : string) : string := LOOP_ERROR_TEXT code.

(** [failStreams], on streams that can fail ([fail] is optional) or end. *)
Definition failStreams (can_fail : nat → bool) (e : TeamEntry) (failure : SceneFailure) : TeamEntry * Wire :=
  (with_streams e [],
   (λ k, (k, if can_fail k
             then StreamFail "INTERNAL" (sf_message failure +:+ " — " +:+ loopErrorText (sf_code failure))
             else StreamEnd)) <$> te_streams e).

(** ** Lookup *)

Definition liveEntry (s : Sessions) (session : string) : option (nat * TeamEntry) :=
  g ← ss_teams s !! session; e ← ss_entries s !! g;
  if te_disposed e then None else Some (g, e).

Definition not_materialized (code : TeamSessionErrorCode) (session : string) : SessionError :=
  TeamSessionError code ("team not materialized for session " +:+ session +:+ "; send UpdateTeam first").

Definition requireEntry (s : Sessions) (session : string) (code : TeamSessionErrorCode)
    : SessionError + (nat * TeamEntry) :=
  match liveEntry s session with
  | Some r => inr r
  | None => inl (not_materialized code session)
  end.

Definition findMember (e : TeamEntry) (role : string) : option MemberRuntime :=
  snd <$> list_find (λ m, runtime_role m = role) (te_members e).

Definition findAgentMember (e : TeamEntry) (role : string) : option MemberRuntime :=
  match findMember e role with
  | Some (AgentRuntime r p m k) => Some (AgentRuntime r p m k)
  | _ => None
  end.

Definition agentMemberInFlight (e : TeamEntry) (active : option string) : option nat :=
  role ← active;
  match findAgentMember e role with
  | Some (AgentRuntime _ _ _ k) => Some k
  | _ => None
  end.

(** [agentMemberInFlight(entry)?.collector.markOutcome({status})] *)
Definition mark_in_flight (e : TeamEntry) (active : option string) (status : OutcomeStatus) : TeamEntry :=
  match agentMemberInFlight e active with
  | Some k => with_host e (host_step (te_host e) (HostMark k (mkOutcome status None)))
  | None => e
  end.

Definition watchQuiescence (e : TeamEntry) : TeamEntry :=
  if te_watching e || te_disposed e then e else with_watching e true.

(** ** Sending and cancelling *)

(** What submitting a message does: nothing, or a throw — of a scene state error,
    or of another one. *)
Inductive SubmitAnswer : Type :=
| SubmitOk
| SubmitState (message : string)
| SubmitThrow (message : string).

Definition mapOrchestratorError (a : SubmitAnswer) : option SessionError :=
  match a with
  | SubmitOk => None
  | SubmitState message => Some (TeamSessionError FAILED_PRECONDITION message)
  | SubmitThrow message => Some (OtherError message)
  end.

Definition queued_frame (session : string) (position : Z) : ChatEvent :=
  mkChatEvent (Some session) (Some "") None (Some (Queued position)).

Definition send (s : Sessions) (session text : string) (stream : nat) (before : SceneSnapshot)
    (answer : SubmitAnswer) (broken : list nat) (now : Z) : Sessions * option SessionError :=
  match requireEntry s session FAILED_PRECONDITION with
  | inl err => (s, Some err)
  | inr (g, e) =>
      let willQueue := bool_decide (is_Some (sn_active before)) in
      if willQueue && bool_decide (stream ∈ broken) then (s, Some (OtherError "stream write failed"))
      else
        let w0 := if willQueue then [(stream, StreamWrite (queued_frame session (sn_queued before + 1)))] else [] in
        let attached := if bool_decide (stream ∈ te_streams e) then te_streams e else te_streams e ++ [stream] in
        let '(e, w1) := project broken (with_streams e attached) (host_step (te_host e) (HostUser now text)) in
        match mapOrchestratorError answer with
        | Some err =>
            (set_entry s g (with_streams e (filter (λ k, k ≠ stream) (te_streams e))) (w0 ++ w1), Some err)
        | None => (set_entry s g (watchQuiescence e) (w0 ++ w1), None)
        end
  end.

(** The detach returned to the transport: it removes the stream from the entry it
    was attached to. *)
Definition detach (s : Sessions) (g : nat) (stream : nat) : Sessions :=
  match ss_entries s !! g with
  | Some e => set_entry s g (with_streams e (filter (λ k, k ≠ stream) (te_streams e))) []
  | None => s
  end.

Definition cancel (s : Sessions) (session : string) (active : option string) : Sessions * option SessionError :=
  match requireEntry s session FAILED_PRECONDITION with
  | inl err => (s, Some err)
  | inr (g, e) => (set_entry s g (watchQuiescence (mark_in_flight e active CANCELED)) [], None)
  end.

(** The watcher resumes: it goes on waiting, or settles the streams. *)
Definition watcher (s : Sessions) (g : nat) (snapshot : SceneSnapshot) (can_fail : nat → bool) : Sessions :=
  match ss_entries s !! g with
  | None => s
  | Some e =>
      if negb (te_watching e) then s
      else if sn_paused snapshot || (bool_decide (sn_active snapshot = None) && (sn_queued snapshot =? 0)) then
        let e := with_watching e false in
        if te_disposed e then set_entry s g e []
        else
          let '(e, w) :=
            match sn_lastError snapshot with
            | Some failure => if sf_orchestration failure then failStreams can_fail e failure else endStreams e
            | None => endStreams e
            end in
          set_entry s g e w
      else s
  end.

(** ** The member events *)

(** The text of an announcement: the text blocks, in order. *)
Definition announcement_text (content : list DshContentBlockView) : string :=
  join (nl +:+ nl) ((λ b, if bool_decide (cv_type b = "text") then or_empty (cv_text b) else "") <$> content).

Definition projectAnnouncement (h : Collector.Host) (now : Z) (role : string) (envelope : TeamMemberEvent) : Collector.Host :=
  match en_channel envelope with
  | LogChannel (SE_AssistantMessage content _ _) =>
      let text := announcement_text content in
      if bool_decide (text = "") then h else host_step h (HostAnnounce now role text)
  | _ => h
  end.

(** The lazy collector of a producer outside the projection. *)
Definition dynamicCollector (e : TeamEntry) (envelope : TeamMemberEvent) : TeamEntry * nat :=
  let key := (en_role envelope, en_memberId envelope) in
  match list_find (λ d, d.1 = key) (te_dynamic e) with
  | Some (_, d) => (e, d.2)
  | None =>
      let h := te_host e in
      let k := length (hs_collectors h) in
      let c := new_MemberCollector (en_memberId envelope) (en_role envelope) (te_session e) false in
      (with_dynamic (with_host e (mkHost (hs_collectors h ++ [c]) (hs_history h))) (te_dynamic e ++ [(key, k)]), k)
  end.

(** The entry's subscription to the member stream of its orchestration. *)
Definition on_envelope (s : Sessions) (g : nat) (envelope : TeamMemberEvent) (now : Z) (uuid : string)
    (broken : list nat) : Sessions :=
  match ss_entries s !! g with
  | None => s
  | Some e =>
      if negb (te_subscribed e) then s
      else
        let '(e, w) :=
          match findMember e (en_role envelope) with
          | None =>
              let '(e, k) := dynamicCollector e envelope in
              project broken e (host_step (te_host e) (HostEvent k now uuid envelope))
          | Some (AnnounceRuntime role) => project broken e (projectAnnouncement (te_host e) now role envelope)
          | Some (AgentRuntime _ _ _ k) => project broken e (host_step (te_host e) (HostEvent k now uuid envelope))
          end in
        set_entry s g e w
  end.

(** ** Materializing *)

(** [teardownEntry] up to its await, and after it. *)
Definition teardown_begin (e : TeamEntry) (active : option string) : TeamEntry :=
  mark_in_flight (with_disposed e) active ABORTED.

Definition dispose_collectors (e : TeamEntry) : Collector.Host :=
  let ks := omap (λ m, match m with AgentRuntime _ _ _ k => Some k | _ => None end) (te_members e)
            ++ (snd <$> te_dynamic e) in
  mkHost (imap (λ i c, if bool_decide (i ∈ ks) then collector_dispose c else c) (hs_collectors (te_host e)))
    (hs_history (te_host e)).

Definition teardown_end (e : TeamEntry) : TeamEntry * Wire :=
  let e := with_subscribed e false in
  let e := with_dynamic (with_host e (dispose_collectors e)) [] in
  endStreams e.

(** The members an orchestration projects after its materialization. *)
Inductive SceneMember : Type :=
| SceneAgent (role memberId : string)
| SceneAnnounceOnly (role : string).

(** The runtimes of the projection, and the collectors of its agents. *)
Fixpoint member_runtimes (template : string) (configs : list SceneMemberConfig) (session : string)
    (k : nat) (projection : list SceneMember) : option (list MemberRuntime * list MemberCollector) :=
  match projection with
  | [] => Some ([], [])
  | SceneAnnounceOnly role :: projection =>
      '(ms, cs) ← member_runtimes template configs session k projection;
      Some (AnnounceRuntime role :: ms, cs)
  | SceneAgent role memberId :: projection =>
      config ← snd <$> list_find (λ c, sm_role c = role) configs;
      '(ms, cs) ← member_runtimes template configs session (S k) projection;
      Some (AgentRuntime role (presetResourceName template (sm_preset config)) (compositeModel config) k :: ms,
            new_MemberCollector memberId role session true :: cs)
  end.

Definition new_entry (session template : string) (configs : list SceneMemberConfig) (projection : list SceneMember)
    (createTime updateTime : Z) : option TeamEntry :=
  '(members, collectors) ← member_runtimes template configs session 0 projection;
  Some (mkTeamEntry session template (mkHost collectors (new_TeamHistory session)) members [] true []
    createTime updateTime false false).

Definition set_jobs (s : Sessions) (session : string) (jobs : list Job) : Sessions :=
  mkSessions (ss_entries s) (ss_teams s) (<[session := jobs]> (ss_jobs s)) (ss_closing s) (ss_wire s).

(** [materialize]: the job waits for those of its session. *)
Definition materialize (s : Sessions) (session : string) (options : list TeamMemberOptions) : Sessions :=
  set_jobs s session (default [] (ss_jobs s !! session) ++ [mkJob options Queued_job]).

(** What the outside answers to a job that waits; a team built without the handle of a
    member it lists is a failed build. *)
Inductive JobAnswer : Type :=
| Validated (answers : Answers) (active : option string) (now : Z)
| Disposed (ok : bool) (now : Z)
| Built (projection : list SceneMember)
| BuildFailed (message : string).

(** How a step of a job leaves it: it waits again, or its promise settles. *)
Definition JobResult : Type := option (SessionError + nat).

Definition job_start (s : Sessions) (scenes : SceneRegistry) (DEFAULT_MODEL session : string)
    (options : list TeamMemberOptions) (rest : list Job) (answers : Answers) (active : option string) (now : Z)
    : Sessions * JobResult :=
  match configure scenes DEFAULT_MODEL session options answers with
  | inl err => (set_jobs s session rest, Some (inl err))
  | inr (template, configs) =>
      match ss_teams s !! session ≫= λ g, (λ e, (g, e)) <$> ss_entries s !! g with
      | Some (g, e) =>
          let s := mkSessions (<[g := teardown_begin e active]> (ss_entries s)) (delete session (ss_teams s))
                     (ss_jobs s) (ss_closing s) (ss_wire s) in
          (set_jobs s session (mkJob options (Disposing g template configs (te_createTime e)) :: rest), None)
      | None => (set_jobs s session (mkJob options (Building template configs now now) :: rest), None)
      end
  end.

Definition job_step (scenes : SceneRegistry) (DEFAULT_MODEL : string) (s : Sessions) (session : string)
    (answer : JobAnswer) : Sessions * JobResult :=
  match ss_jobs s !! session with
  | Some (mkJob options phase :: rest) =>
      match phase, answer with
      | Queued_job, Validated answers active now =>
          job_start s scenes DEFAULT_MODEL session options rest answers active now
      | Disposing g template configs createTime, Disposed ok now =>
          match ss_entries s !! g with
          | Some e =>
              if ok then
                let '(e, w) := teardown_end e in
                (set_jobs (set_entry s g e w) session
                   (mkJob options (Building template configs createTime now) :: rest), None)
              else (set_jobs s session rest, Some (inl (OtherError "dispose failed")))
          | None => (s, None)
          end
      | Building template configs createTime updateTime, Built projection =>
          match new_entry session template configs projection createTime updateTime with
          | Some e =>
              let g := length (ss_entries s) in
              (mkSessions (ss_entries s ++ [e]) (<[session := g]> (ss_teams s)) (<[session := rest]> (ss_jobs s))
                 (ss_closing s) (ss_wire s),
               Some (inr g))
          | None =>
              (set_jobs s session rest,
               Some (inl (OtherError "team materialization invariant violated: members are missing")))
          end
      | Building _ _ _ _, BuildFailed message => (set_jobs s session rest, Some (inl (OtherError message)))
      | _, _ => (s, None)
      end
  | _ => (s, None)
  end.

(** [shutdown]: every team of the registry is torn down. *)
Definition shutdown (s : Sessions) (active : nat → option string) : Sessions :=
  let live := (map_to_list (ss_teams s)).*2 in
  mkSessions (imap (λ g e, if bool_decide (g ∈ live) then teardown_begin e (active g) else e) (ss_entries s))
    ∅ (ss_jobs s) (ss_closing s ++ live) (ss_wire s).

(** A teardown of the shutdown resumes: its orchestration is disposed of, or the
    disposal was rejected. *)
Definition shutdown_disposed (s : Sessions) (g : nat) (ok : bool) : Sessions :=
  if bool_decide (g ∈ ss_closing s) then
    let s := mkSessions (ss_entries s) (ss_teams s) (ss_jobs s) (filter (λ g', g' ≠ g) (ss_closing s)) (ss_wire s) in
    match ss_entries s !! g with
    | Some e => if ok then let '(e, w) := teardown_end e in set_entry s g e w else s
    | None => s
    end
  else s.

(** ** Reading *)

Record TeamMemberView : Type := mkMemberView {
  mv_name : string;
  mv_role : string;
  mv_preset : string;
  mv_model : string;
  mv_systemPrompt : string;
}.

Record TeamView : Type := mkTeamView {
  tv_name : string;
  tv_activeMember : string;
  tv_members : list TeamMemberView;
  tv_createTime : Z;
  tv_updateTime : Z;
}.

Definition memberStateView (e : TeamEntry) (m : MemberRuntime) : TeamMemberView :=
  let name := te_session e +:+ "/team/members/" +:+ runtime_role m in
  match m with
  | AgentRuntime role preset model _ => mkMemberView name role preset model ""
  | AnnounceRuntime role => mkMemberView name role "" "" ""
  end.

Definition toTeamView (e : TeamEntry) (snapshot : SceneSnapshot) : TeamView :=
  mkTeamView (te_session e +:+ "/team") (default (sn_activation snapshot) (sn_active snapshot))
    (memberStateView e <$> te_members e) (te_createTime e) (te_updateTime e).

Definition getTeam (s : Sessions) (session : string) (snapshot : SceneSnapshot) : SessionError + TeamView :=
  bind_ok (requireEntry s session NOT_FOUND) (λ r, inr (toTeamView r.2 snapshot)).

Definition session_listTeamMessages (s : Sessions) (session : string) : SessionError + list TeamMergeEntry :=
  bind_ok (requireEntry s session NOT_FOUND) (λ r, inr (listTeamMessages (hs_history (te_host r.2)))).

Definition session_listMemberMessages (scenes : SceneRegistry) (s : Sessions) (session member : string)
    : SessionError + list History.MemberViewEntry :=
  bind_ok (requireEntry s session NOT_FOUND) (λ r,
    match findMember r.2 member with
    | Some (AgentRuntime role _ _ _) => inr (listMemberMessages (hs_history (te_host r.2)) role)
    | _ =>
        inl (TeamSessionError NOT_FOUND ("team member " +:+ quote member
          +:+ " has no message view; the member-view roster is " +:+ join "/" (sceneRoster scenes (te_template r.2))))
    end).

(** One attempt of [getTeamMember]: the state when it samples the live entry, the
    live handle being there or not, what the assembly answers, and the state when
    it resumes. *)
Record Attempt : Type := mkAttempt {
  ar_before : Sessions;
  ar_handle : bool;
  ar_prompt : SessionError + string;
  ar_after : Sessions;
}.

Definition MEMBER_READ_ATTEMPTS : nat := 3.

Definition not_a_member (member : string) : SessionError :=
  TeamSessionError NOT_FOUND ("team member " +:+ quote member +:+ " is not materialized").

Fixpoint member_reads (session member : string) (attempts : list Attempt) (n : nat) : SessionError + TeamMemberView :=
  match n, attempts with
  | S n, attempt :: attempts =>
      r ⇠ requireEntry (ar_before attempt) session NOT_FOUND;
      match findAgentMember r.2 member with
      | None => inl (not_a_member member)
      | Some runtime =>
          if negb (ar_handle attempt) then inl (not_a_member member)
          else if bool_decide ((fst <$> liveEntry (ar_after attempt) session) = Some r.1) then
            prompt ⇠ ar_prompt attempt;
            let v := memberStateView r.2 runtime in
            inr (mkMemberView (mv_name v) (mv_role v) (mv_preset v) (mv_model v) prompt)
          else member_reads session member attempts n
      end
  | _, _ => inl (TeamSessionError NOT_FOUND ("team for session " +:+ session +:+ " is being refreshed; retry the read"))
  end.

Definition getTeamMember (scenes : SceneRegistry) (s : Sessions) (session member : string)
    (attempts : list Attempt) : SessionError + TeamMemberView :=
  match parseSessionResource session with
  | None =>
      invalid ("session must be a game session resource name ("
        +:+ quote "templates/{template}/sessions/{session}" +:+ "), got " +:+ quote session)
  | Some (template, _) =>
      if negb (isMemberRole scenes member) then
        inl (TeamSessionError NOT_FOUND ("team member " +:+ quote member +:+ " does not exist; the roster is "
               +:+ memberRoster scenes template))
      else
        r ⇠ requireEntry s session NOT_FOUND;
        match findMember r.2 member with
        | None => inl (not_a_member member)
        | Some (AnnounceRuntime role) => inr (memberStateView r.2 (AnnounceRuntime role))
        | Some (AgentRuntime _ _ _ _) => member_reads session member attempts MEMBER_READ_ATTEMPTS
        end
  end.
