(* ===== verification/SessionFacts.v ===== *)
(** * Facts about sessions and their teams

    A run interleaves requests, continuations and member events in any order.  Two
    invariants hold throughout: one about the registry (one live team per session,
    replaced by its own chain of jobs) and one about the streams (what a client was
    given).  As long as disposals are not rejected, a third one accounts for the
    teardowns under way, and every attached stream is settled. *)

From S2P Require Import Prelude ChatWire History Collector SessionConfig Session.

#[local] Open Scope Z_scope.

(** ** Runs *)

(** Every synchronous piece of the server.  A send comes with a stream of its own,
    numbered by a counter. *)
Inductive session_op : Type :=
| OpMaterialize (session : string) (options : list TeamMemberOptions)
| OpJob (session : string) (answer : JobAnswer)
| OpSend (session text : string) (before : SceneSnapshot) (answer : SubmitAnswer) (broken : list nat) (now : Z)
| OpDetach (g stream : nat)
| OpCancel (session : string) (active : option string)
| OpWatcher (g : nat) (snapshot : SceneSnapshot) (can_fail : nat → bool)
| OpEnvelope (g : nat) (envelope : TeamMemberEvent) (now : Z) (uuid : string) (broken : list nat)
| OpShutdown (active : nat → option string)
| OpShutdownDisposed (g : nat) (ok : bool).

Section Runs.

Context (scenes : SceneRegistry) (DEFAULT_MODEL : string).

Definition session_step (st : Sessions * nat) (op : session_op) : Sessions * nat :=
  let '(s, n) := st in
  match op with
  | OpMaterialize session options => (materialize s session options, n)
  | OpJob session answer => ((job_step scenes DEFAULT_MODEL s session answer).1, n)
  | OpSend session text before answer broken now => ((send s session text n before answer broken now).1, S n)
  | OpDetach g stream => (detach s g stream, n)
  | OpCancel session active => ((cancel s session active).1, n)
  | OpWatcher g snapshot can_fail => (watcher s g snapshot can_fail, n)
  | OpEnvelope g envelope now uuid broken => (on_envelope s g envelope now uuid broken, n)
  | OpShutdown active => (shutdown s active, n)
  | OpShutdownDisposed g ok => (shutdown_disposed s g ok, n)
  end.

Definition session_run (ops : list session_op) : Sessions * nat := fold_left session_step ops (new_Sessions, 0%nat).

End Runs.

(** The disposal of an orchestration was not rejected in this piece. *)
Definition clean_op (op : session_op) : Prop :=
  match op with
  | OpJob _ (Disposed false _) | OpShutdownDisposed _ false => False
  | _ => True
  end.

(** ** The streams *)

(** What one stream was given, in order. *)
Definition actions (k : nat) (w : Wire) : list StreamAction := omap (λ p, if bool_decide (p.1 = k) then Some p.2 else None) w.

Definition is_write (a : StreamAction) : bool := match a with StreamWrite _ => true | _ => false end.

(** Frames, then at most one end or failure, and nothing after it. *)
Definition stream_ok (acts : list StreamAction) : Prop :=
  ∃ frames last, acts = (StreamWrite <$> frames) ++ last ∧
    (last = [] ∨ ∃ a, last = [a] ∧ is_write a = false).

Definition queue_notice (q : list ChatEvent) : Prop := q = [] ∨ ∃ session p, q = [queued_frame session p].

Definition history_of (e : TeamEntry) : list ChatEvent := sunk (hs_history (te_host e)).

(** An attached stream got a notice of its place in the queue, perhaps, and then the
    frames of the history from some point on, every one, in order. *)
Definition follows (e : TeamEntry) (acts : list StreamAction) : Prop :=
  ∃ q old new, queue_notice q ∧ history_of e = old ++ new ∧ acts = StreamWrite <$> (q ++ new).

Record stream_inv (s : Sessions) (n : nat) : Prop := {
  sv_nodup : ∀ g e, ss_entries s !! g = Some e → NoDup (te_streams e);
  sv_lt : ∀ g e k, ss_entries s !! g = Some e → k ∈ te_streams e → (k < n)%nat;
  sv_disjoint : ∀ g g' e e' k, ss_entries s !! g = Some e → ss_entries s !! g' = Some e' →
    k ∈ te_streams e → k ∈ te_streams e' → g = g';
  sv_fresh : ∀ k, (n ≤ k)%nat → actions k (ss_wire s) = [];
  sv_ok : ∀ k, stream_ok (actions k (ss_wire s));
  sv_follows : ∀ g e k, ss_entries s !! g = Some e → k ∈ te_streams e → follows e (actions k (ss_wire s));
}.

Lemma actions_app k w w' : actions k (w ++ w') = actions k w ++ actions k w'.
Proof. apply omap_app. Qed.

Lemma actions_map k (f : nat → StreamAction) ks :
  NoDup ks → actions k ((λ k : nat, (k, f k)) <$> ks) = if bool_decide (k ∈ ks) then [f k] else [].
Proof.
  induction 1 as [|x ks Hx Hnd IH]; [done|]; rewrite fmap_cons.
  change (actions k ((x, f x) :: ((λ k : nat, (k, f k)) <$> ks)))
    with (match (if bool_decide (x = k) then Some (f x) else None) with
          | Some a => a :: actions k ((λ k : nat, (k, f k)) <$> ks)
          | None => actions k ((λ k : nat, (k, f k)) <$> ks) end).
  rewrite IH.
  destruct (decide (x = k)) as [->|Hne].
  - rewrite (bool_decide_eq_true_2 (k = k)), (bool_decide_eq_false_2 (k ∈ ks)), (bool_decide_eq_true_2 (k ∈ k :: ks)); set_solver.
  - rewrite (bool_decide_eq_false_2 (x = k)) by done.
    by rewrite (bool_decide_ext (k ∈ x :: ks) (k ∈ ks)) by set_solver.
Qed.

Lemma writes_ok fs : stream_ok (StreamWrite <$> fs).
Proof. exists fs, []; rewrite app_nil_r; auto. Qed.

Lemma ok_after_writes fs acts : stream_ok acts → stream_ok ((StreamWrite <$> fs) ++ acts).
Proof. intros (gs & l & -> & Hl); exists (fs ++ gs), l; by rewrite fmap_app, app_assoc. Qed.

Lemma last_ok a : is_write a = false → stream_ok [a].
Proof. intros H; exists [], [a]; split; [done|]; eauto. Qed.

(** The frames of one change of the history, on the streams it reaches. *)
Lemma broadcast_all_spec broken streams events :
  NoDup streams →
  (broadcast_all broken streams events).1 =
    (if bool_decide (events = []) then streams else filter (λ k, k ∉ broken) streams) ∧
  ∀ k, actions k (broadcast_all broken streams events).2 =
    if bool_decide (k ∈ streams ∧ k ∉ broken) then StreamWrite <$> events else [].
Proof.
  revert streams; induction events as [|ev events IH]; intros streams Hnd.
  - rewrite bool_decide_eq_true_2 by done; split; [done|]; intros k; by case_bool_decide.
  - rewrite (bool_decide_eq_false_2 (ev :: events = [])) by done; cbn [broadcast_all broadcast].
    assert (Hnd' : NoDup (filter (λ k, k ∉ broken) streams)) by by apply NoDup_filter.
    destruct (IH _ Hnd') as [H1 H2].
    destruct (broadcast_all broken (filter (λ k, k ∉ broken) streams) events) as [ks w]; cbn [fst snd] in H1, H2 |- *; split.
    + rewrite H1; case_bool_decide; [done|].
      apply list_filter_filter_l; naive_solver.
    + intros k; rewrite actions_app, H2, (actions_map k (λ _, StreamWrite ev)) by done.
      rewrite (bool_decide_ext (k ∈ filter (λ k, k ∉ broken) streams) (k ∈ streams ∧ k ∉ broken))
        by (rewrite list_elem_of_filter; tauto).
      rewrite (bool_decide_ext (k ∈ filter (λ k, k ∉ broken) streams ∧ k ∉ broken) (k ∈ streams ∧ k ∉ broken))
        by (rewrite list_elem_of_filter; tauto).
      by destruct (bool_decide (k ∈ streams ∧ k ∉ broken)).
Qed.

(** ** Histories only grow *)

Definition grows (h h' : TeamHistory) : Prop := sunk h `prefix_of` sunk h'.

#[export] Instance grows_preorder : PreOrder grows.
Proof. split; [by intros h; unfold grows|intros h1 h2 h3 H1 H2; unfold grows in *; by etrans]. Qed.

Lemma writes_grow h h' : writes_team_level h h' → grows h h'.
Proof. intros (fs & H & _); by exists fs. Qed.

Lemma sink_grows h h' e : grows h h' → grows h (sink h' e).
Proof. intros [fs H]; exists (fs ++ [e]); cbn; by rewrite H, app_assoc. Qed.

Lemma ensureActive_grows c h uuid : grows h (ensureActive c h uuid).1.2.
Proof. unfold ensureActive; destruct (mc_active c); [done|by apply sink_grows]. Qed.

Lemma onChunk_grows c h uuid chunk step : grows h (onChunk c h uuid chunk step).2.
Proof.
  pose proof (ensureActive_grows c h uuid) as HE; unfold onChunk.
  destruct (ensureActive c h uuid) as [[c' h'] a]; case_bool_decide; [done|].
  destruct (chunkToChatEvent _ _ _ _ _ _) as [a' [e|]]; cbn; [by apply sink_grows|done].
Qed.

Lemma onAssistantStream_grows c h uuid frame : grows h (onAssistantStream c h uuid frame).2.
Proof.
  unfold onAssistantStream; destruct frame as [f|]; [|done].
  destruct (sf_attemptId f) as [id|]; [|done].
  case_bool_decide; [|case_bool_decide; [|done]].
  - destruct (sf_step f) as [step|]; [|done]; unfold enterStep.
    set (c1 := set_attempts _ _); pose proof (ensureActive_grows c1 h uuid) as HE.
    destruct (ensureActive c1 h uuid) as [[c' h'] a]; by case_bool_decide.
  - destruct (mc_attempts c !! id); [|done]; destruct (sf_chunk f); [|done]; apply onChunk_grows.
Qed.

Lemma onStatus_grows c h now uuid status : grows h (onStatus c h now uuid status).2.
Proof.
  unfold onStatus; case_bool_decide.
  - pose proof (ensureActive_grows c h uuid) as HE; by destruct (ensureActive c h uuid) as [[c' h'] a].
  - case_bool_decide; [done|]; destruct (mc_active c) as [a|]; [|done]; cbn; apply sink_grows.
    destruct (_ && _ && _); [|done]; apply writes_grow, appendMemberOutput_writes.
Qed.

Lemma onSessionEvent_grows c h now uuid e : grows h (onSessionEvent c h now uuid e).2.
Proof.
  destruct e as [ue|content usage i| |id er ct|[[[kind|] err]|]|ty]; cbn [onSessionEvent]; try done.
  - apply writes_grow, appendMemberViewUser_writes.
  - pose proof (ensureActive_grows c h uuid) as HE; destruct (ensureActive c h uuid) as [[c' h'] a]; cbn in HE |- *.
    etrans; [exact HE|]; apply writes_grow, appendMemberOutput_writes.
  - unfold onToolResult; set (h1 := (settleToolResult _ _ _ _ _).1).
    assert (H1 : grows h h1) by (unfold grows, h1; by rewrite (proj1 (settleToolResult_sunk h _ _ _ _))).
    pose proof (ensureActive_grows c h1 uuid) as HE; destruct (ensureActive c h1 uuid) as [[c' h'] a]; cbn in HE |- *.
    apply sink_grows; by etrans.
Qed.

Lemma applyEvent_grows c h now uuid e : grows h (applyEvent c h now uuid e).2.
Proof.
  unfold applyEvent; case_bool_decide; [done|].
  destruct (en_channel e) as [se|[f|status|err]]; cbn [onLiveEvent];
    [apply onSessionEvent_grows|apply onAssistantStream_grows|apply onStatus_grows|done].
Qed.

Lemma host_step_grows h op : grows (hs_history h) (hs_history (host_step h op)).
Proof.
  destruct op as [k now uuid ev|k o|now text|now role text]; cbn [host_step]; [|done| |];
    [|apply writes_grow, appendUser_writes|apply writes_grow, appendAnnouncement_writes].
  destruct (hs_collectors h !! k) as [c|]; [|done].
  pose proof (applyEvent_grows c (hs_history h) now uuid ev) as HE; by destruct (applyEvent _ _ _ _ _).
Qed.

Lemma announcement_grows h now role ev : grows (hs_history h) (hs_history (projectAnnouncement h now role ev)).
Proof.
  unfold projectAnnouncement; destruct (en_channel ev) as [ch|ch]; [|done]; destruct ch; try done.
  case_bool_decide; [done|apply host_step_grows].
Qed.

(** ** The stream invariant, piece by piece *)

(** One entry changes and the streams it reaches are given [w]. *)
Lemma stream_inv_entry s n n' g e e' w fs :
  stream_inv s n → ss_entries s !! g = Some e → (n ≤ n')%nat →
  history_of e' = history_of e ++ fs → NoDup (te_streams e') →
  (∀ k, k ∈ te_streams e' →
     (k ∈ te_streams e ∧ actions k w = StreamWrite <$> fs) ∨
     ((n ≤ k < n')%nat ∧ ∃ q, queue_notice q ∧ actions k w = StreamWrite <$> q)) →
  (∀ k, actions k w ≠ [] → k ∈ te_streams e ∨ (n ≤ k < n')%nat) →
  (∀ k, stream_ok (actions k w)) →
  stream_inv (set_entry s g e' w) n'.
Proof.
  intros [Hnd Hlt Hdis Hfr Hok Hfol] Hg Hn Hh Hnd' Hatt Hacts Hw.
  assert (Hlk : ∀ g1 e1, ss_entries (set_entry s g e' w) !! g1 = Some e1 →
    (g1 = g ∧ e1 = e') ∨ (g1 ≠ g ∧ ss_entries s !! g1 = Some e1)).
  { intros g1 e1; cbn [set_entry ss_entries]; destruct (decide (g1 = g)) as [->|Hne].
    - rewrite list_lookup_insert_eq by (by eapply lookup_lt_Some); intros [= ->]; auto.
    - rewrite list_lookup_insert_ne by done; auto. }
  assert (Hother : ∀ g1 e1 k, g1 ≠ g → ss_entries s !! g1 = Some e1 → k ∈ te_streams e1 →
    k ∉ te_streams e' ∧ actions k w = []).
  { intros g1 e1 k Hne H1 Hk.
    assert (Hke : k ∉ te_streams e) by (intros Hk'; apply Hne; eauto).
    assert (Hkn : (k < n)%nat) by eauto.
    split.
    - intros Hk'; destruct (Hatt k Hk') as [[? _]|[? _]]; [done|lia].
    - destruct (actions k w) eqn:E; [done|]; destruct (Hacts k) as [?|?]; [by rewrite E|done|lia]. }
  split.
  - intros g1 e1 [[-> ->]|[_ H1]]%Hlk; eauto.
  - intros g1 e1 k [[-> ->]|[_ H1]]%Hlk Hk; [|specialize (Hlt _ _ _ H1 Hk); lia].
    destruct (Hatt k Hk) as [[Hk' _]|[? _]]; [specialize (Hlt _ _ _ Hg Hk')|]; lia.
  - intros g1 g2 e1 e2 k [[-> ->]|[N1 H1]]%Hlk [[-> ->]|[N2 H2]]%Hlk K1 K2; [done| | |by eauto].
    + by destruct (Hother _ _ k N2 H2 K2) as [[] _].
    + by destruct (Hother _ _ k N1 H1 K1) as [[] _].
  - intros k Hk; cbn [set_entry ss_wire]; rewrite actions_app, Hfr by lia.
    destruct (actions k w) eqn:E; [done|]; destruct (Hacts k) as [?|?]; [by rewrite E| |lia].
    specialize (Hlt _ _ k Hg); lia || (exfalso; specialize (Hlt ltac:(done)); lia).
  - intros k; cbn [set_entry ss_wire]; rewrite actions_app.
    destruct (actions k w) as [|a l] eqn:E; [rewrite app_nil_r; apply Hok|].
    rewrite <- E; destruct (Hacts k) as [Hk|Hk]; [by rewrite E| |rewrite Hfr by lia; apply Hw].
    destruct (Hfol _ _ _ Hg Hk) as (q & old & new & _ & _ & ->); by apply ok_after_writes.
  - intros g1 e1 k [[-> ->]|[N1 H1]]%Hlk Hk; cbn [set_entry ss_wire]; rewrite actions_app.
    + destruct (Hatt k Hk) as [[Hk' ->]|(Hk' & q & Hq & ->)].
      * destruct (Hfol _ _ _ Hg Hk') as (q & old & new & Hq & Hon & ->).
        exists q, old, (new ++ fs); rewrite Hh, Hon, <- fmap_app, <- !app_assoc; auto.
      * exists q, (history_of e'), []; rewrite Hfr, !app_nil_r by lia; auto.
    + destruct (Hother _ _ k N1 H1 Hk) as [_ ->]; rewrite app_nil_r; eauto.
Qed.

(** Nothing is written: entries keep their history, and their streams or none. *)
Lemma stream_inv_silent s s' n :
  stream_inv s n → ss_wire s' = ss_wire s →
  (∀ g e', ss_entries s' !! g = Some e' → te_streams e' = [] ∨
     ∃ e, ss_entries s !! g = Some e ∧ te_streams e' = te_streams e ∧ history_of e' = history_of e) →
  stream_inv s' n.
Proof.
  intros [Hnd Hlt Hdis Hfr Hok Hfol] Hw He.
  assert (Hatt : ∀ g e' k, ss_entries s' !! g = Some e' → k ∈ te_streams e' →
    ∃ e, ss_entries s !! g = Some e ∧ k ∈ te_streams e ∧ history_of e' = history_of e).
  { intros g e' k Hg Hk; destruct (He g e' Hg) as [H0|(e & H1 & H2 & H3)]; [by rewrite H0, elem_of_nil in Hk|].
    exists e; rewrite <- H2; auto. }
  split; rewrite ?Hw; auto.
  - intros g e' Hg; destruct (He g e' Hg) as [->|(e & H1 & -> & _)]; [constructor|eauto].
  - intros g e' k Hg Hk; destruct (Hatt _ _ _ Hg Hk) as (e & H1 & H2 & _); eauto.
  - intros g g' e e' k Hg Hg' Hk Hk'.
    destruct (Hatt _ _ _ Hg Hk) as (e1 & ? & ? & _), (Hatt _ _ _ Hg' Hk') as (e2 & ? & ? & _); eauto.
  - intros g e' k Hg Hk; destruct (Hatt _ _ _ Hg Hk) as (e & H1 & H2 & H3).
    destruct (Hfol g e k H1 H2) as (q & old & new & A & B & C); exists q, old, new; rewrite H3; auto.
Qed.

(** Streams leave an entry without being told. *)
Lemma stream_inv_leave s n g e e' (P : nat → Prop) `{∀ k, Decision (P k)} :
  stream_inv s n → ss_entries s !! g = Some e → history_of e' = history_of e →
  te_streams e' = filter P (te_streams e) → stream_inv (set_entry s g e' []) n.
Proof.
  intros Hinv Hg Hh Hs; eapply (stream_inv_entry s n n g e e' [] []); rewrite ?Hs, ?app_nil_r; eauto; [| | |intros; exists [], []; auto].
  - eapply NoDup_filter, sv_nodup; eauto.
  - intros k [_ Hk]%list_elem_of_filter; auto.
  - by intros k [].
Qed.

(** Every stream of an entry gets its last action. *)
Lemma stream_inv_settle s n g e e' (f : nat → StreamAction) :
  stream_inv s n → ss_entries s !! g = Some e → history_of e' = history_of e → te_streams e' = [] →
  (∀ k, is_write (f k) = false) →
  stream_inv (set_entry s g e' ((λ k, (k, f k)) <$> te_streams e)) n.
Proof.
  intros Hinv Hg Hh Hs Hf; pose proof (sv_nodup _ _ Hinv _ _ Hg) as Hnd.
  eapply (stream_inv_entry s n n g e e' _ []); rewrite ?Hs, ?app_nil_r; eauto; [constructor|by intros k ?%elem_of_nil| |];
    intros k; rewrite actions_map by done; case_bool_decide; auto; [by intros []|by apply last_ok|exists [], []; auto].
Qed.

(** A new stream joins. *)
Lemma stream_inv_attach s n g e e' q :
  stream_inv s n → ss_entries s !! g = Some e → history_of e' = history_of e →
  te_streams e' = te_streams e ++ [n] → queue_notice q →
  stream_inv (set_entry s g e' ((λ ev, (n, StreamWrite ev)) <$> q)) (S n).
Proof.
  intros Hinv Hg Hh Hs Hq.
  assert (Ha : ∀ k, actions k ((λ ev, (n, StreamWrite ev)) <$> q) = if bool_decide (k = n) then StreamWrite <$> q else []).
  { intros k; destruct Hq as [->|(x & p & ->)]; [by case_bool_decide|].
    cbn; rewrite (bool_decide_ext (n = k) (k = n)) by naive_solver; by case_bool_decide. }
  assert (Hn : n ∉ te_streams e) by (intros Hk; pose proof (sv_lt _ _ Hinv _ _ _ Hg Hk); lia).
  eapply (stream_inv_entry s n (S n) g e e' _ []); rewrite ?Hs, ?app_nil_r; eauto.
  - apply NoDup_app; split; [by eapply sv_nodup|]; split; [by intros k Hk ->%list_elem_of_singleton|apply NoDup_singleton].
  - intros k [Hk|Hk%list_elem_of_singleton]%elem_of_app; rewrite Ha.
    + left; split; [done|]; case_bool_decide; [by subst|done].
    + subst; right; split; [lia|]; rewrite bool_decide_eq_true_2 by done; eauto.
  - intros k; rewrite Ha; case_bool_decide; [intros _; right; lia|by intros []].
  - intros k; rewrite Ha; case_bool_decide; [apply writes_ok|exists [], []; auto].
Qed.

(** What a change of the history does to an entry. *)
Lemma project_spec broken e h :
  NoDup (te_streams e) → grows (hs_history (te_host e)) (hs_history h) →
  ∃ fs, history_of (project broken e h).1 = history_of e ++ fs ∧
    te_streams (project broken e h).1 = (if bool_decide (fs = []) then te_streams e else filter (λ k, k ∉ broken) (te_streams e)) ∧
    ∀ k, actions k (project broken e h).2 = if bool_decide (k ∈ te_streams e ∧ k ∉ broken) then StreamWrite <$> fs else [].
Proof.
  intros Hnd [fs H]; exists fs; unfold project; rewrite H, drop_app_length.
  destruct (broadcast_all_spec broken (te_streams e) fs Hnd) as [H1 H2].
  destruct (broadcast_all broken (te_streams e) fs) as [ks w]; cbn [fst snd] in *; auto.
Qed.

Lemma stream_inv_project s n g e e0 h broken :
  stream_inv s n → ss_entries s !! g = Some e →
  te_streams e0 = te_streams e → te_host e0 = te_host e ∨ history_of e0 = history_of e →
  grows (hs_history (te_host e0)) (hs_history h) →
  stream_inv (set_entry s g (project broken e0 h).1 (project broken e0 h).2) n.
Proof.
  intros Hinv Hg Hs Hh Hgr; pose proof (sv_nodup _ _ Hinv _ _ Hg) as Hnd.
  destruct (project_spec broken e0 h) as (fs & H1 & H2 & H3); [by rewrite Hs|done|].
  assert (Hh' : history_of e0 = history_of e) by (destruct Hh as [Hh|Hh]; [unfold history_of; by rewrite Hh|done]).
  rewrite Hs in H2, H3; rewrite Hh' in H1.
  eapply (stream_inv_entry s n n g e _ _ fs); eauto.
  - rewrite H2; case_bool_decide; [done|by apply NoDup_filter].
  - intros k; rewrite H2, H3; case_bool_decide as Hfs; [subst fs|]; intros Hk; left.
    + by case_bool_decide.
    + apply list_elem_of_filter in Hk as [? ?]; by rewrite bool_decide_eq_true_2.
  - intros k; rewrite H3; destruct (decide (k ∈ te_streams e ∧ k ∉ broken)) as [[Hk _]|Hk];
      [auto|by rewrite bool_decide_eq_false_2].
  - intros k; rewrite H3; destruct (bool_decide (k ∈ te_streams e ∧ k ∉ broken)); [apply writes_ok|exists [], []; auto].
Qed.

Lemma stream_inv_weaken s n n' : stream_inv s n → (n ≤ n')%nat → stream_inv s n'.
Proof.
  intros [H1 H2 H3 H4 H5 H6] Hn; split; eauto.
  - intros g e k Hg Hk; specialize (H2 _ _ _ Hg Hk); lia.
  - intros k Hk; apply H4; lia.
Qed.

Lemma stream_inv_same s n g e e' :
  stream_inv s n → ss_entries s !! g = Some e → history_of e' = history_of e → te_streams e' = te_streams e →
  stream_inv (set_entry s g e' []) n.
Proof.
  intros Hinv Hg Hh Hs; apply (stream_inv_silent s _ n Hinv); [apply app_nil_r|].
  intros g1 e1; cbn [set_entry ss_entries]; destruct (decide (g1 = g)) as [->|Hne].
  - rewrite list_lookup_insert_eq by (by eapply lookup_lt_Some); intros [= ->]; eauto.
  - rewrite list_lookup_insert_ne by done; eauto.
Qed.

Lemma set_entry_twice s g e1 w1 e2 w2 : set_entry (set_entry s g e1 w1) g e2 w2 = set_entry s g e2 (w1 ++ w2).
Proof. unfold set_entry; cbn; by rewrite list_insert_insert_eq, app_assoc. Qed.

Lemma set_entry_lookup s g e e' w : ss_entries s !! g = Some e → ss_entries (set_entry s g e' w) !! g = Some e'.
Proof. intros H; cbn; apply list_lookup_insert_eq; by eapply lookup_lt_Some. Qed.

Lemma liveEntry_spec s session g e :
  liveEntry s session = Some (g, e) ↔
  ss_teams s !! session = Some g ∧ ss_entries s !! g = Some e ∧ te_disposed e = false.
Proof.
  unfold liveEntry; split.
  - intros (g' & Ht & (e' & He & H)%bind_Some)%bind_Some; destruct (te_disposed e') eqn:Hd; simplify_eq; auto.
  - intros (Ht & He & Hd); rewrite Ht; cbn; rewrite He; cbn; by rewrite Hd.
Qed.

Lemma requireEntry_spec s session code g e :
  requireEntry s session code = inr (g, e) → liveEntry s session = Some (g, e).
Proof. unfold requireEntry; destruct (liveEntry s session); by intros [= ->]. Qed.

Lemma mark_history e active st : history_of (mark_in_flight e active st) = history_of e.
Proof. unfold mark_in_flight; by destruct (agentMemberInFlight e active). Qed.

Lemma mark_streams e active st : te_streams (mark_in_flight e active st) = te_streams e.
Proof. unfold mark_in_flight; by destruct (agentMemberInFlight e active). Qed.

Lemma watch_history e : history_of (watchQuiescence e) = history_of e.
Proof. unfold watchQuiescence; by destruct (_ || _). Qed.

Lemma watch_streams e : te_streams (watchQuiescence e) = te_streams e.
Proof. unfold watchQuiescence; by destruct (_ || _). Qed.

Lemma dynamic_history e envelope :
  let '(e', _) := dynamicCollector e envelope in history_of e' = history_of e ∧ te_streams e' = te_streams e.
Proof. unfold dynamicCollector; by destruct (list_find _ _) as [[? ?]|]. Qed.

Lemma stream_inv_send s n session text before answer broken now :
  stream_inv s n → stream_inv (send s session text n before answer broken now).1 (S n).
Proof.
  intros Hinv; unfold send.
  destruct (requireEntry s session FAILED_PRECONDITION) as [err|[g e]] eqn:Hreq; [apply stream_inv_weaken with n; auto|].
  apply requireEntry_spec, liveEntry_spec in Hreq as (_ & Hg & _).
  set (will := bool_decide (is_Some (sn_active before))).
  destruct (will && bool_decide (n ∈ broken)); [apply stream_inv_weaken with n; auto|].
  rewrite bool_decide_eq_false_2 by (intros Hk; pose proof (sv_lt _ _ Hinv _ _ _ Hg Hk); lia).
  set (ea := with_streams e (te_streams e ++ [n])).
  set (q := if will then [queued_frame session (sn_queued before + 1)] else []).
  replace (if will then _ else _) with ((λ ev, (n, StreamWrite ev)) <$> q) by (unfold q; by destruct will).
  assert (Ha : stream_inv (set_entry s g ea ((λ ev, (n, StreamWrite ev)) <$> q)) (S n)).
  { apply stream_inv_attach with e; auto; unfold q, queue_notice; destruct will; eauto. }
  set (s1 := set_entry s g ea _) in Ha.
  assert (Hg1 : ss_entries s1 !! g = Some ea) by by apply set_entry_lookup with e.
  pose proof (stream_inv_project s1 (S n) g ea ea (host_step (te_host e) (HostUser now text)) broken Ha Hg1
    eq_refl (or_introl eq_refl) (host_step_grows _ _)) as Hp.
  destruct (project broken ea (host_step (te_host e) (HostUser now text))) as [e' w1]; cbn [fst snd] in Hp.
  unfold s1 in Hp; rewrite set_entry_twice in Hp.
  set (s2 := set_entry s g e' _) in Hp.
  assert (Hg2 : ss_entries s2 !! g = Some e') by by apply set_entry_lookup with e.
  destruct (mapOrchestratorError answer); cbn [fst].
  - pose proof (stream_inv_leave s2 (S n) g e' (with_streams e' (filter (λ k, k ≠ n) (te_streams e')))
      (λ k, k ≠ n) Hp Hg2 eq_refl eq_refl) as HL.
    unfold s2 in HL; by rewrite set_entry_twice, app_nil_r in HL.
  - pose proof (stream_inv_same s2 (S n) g e' (watchQuiescence e') Hp Hg2 (watch_history _) (watch_streams _)) as HL.
    unfold s2 in HL; by rewrite set_entry_twice, app_nil_r in HL.
Qed.

Lemma stream_inv_envelope s n g envelope now uuid broken :
  stream_inv s n → stream_inv (on_envelope s g envelope now uuid broken) n.
Proof.
  intros Hinv; unfold on_envelope; destruct (ss_entries s !! g) as [e|] eqn:Hg; [|done].
  destruct (te_subscribed e); [|done]; cbn [negb].
  destruct (findMember e (en_role envelope)) as [[role preset model k|role]|].
  - pose proof (stream_inv_project s n g e e (host_step (te_host e) (HostEvent k now uuid envelope)) broken Hinv Hg
      eq_refl (or_introl eq_refl) (host_step_grows _ _)) as Hp.
    by destruct (project _ _ _).
  - pose proof (stream_inv_project s n g e e (projectAnnouncement (te_host e) now role envelope) broken Hinv Hg
      eq_refl (or_introl eq_refl) (announcement_grows _ _ _ _)) as Hp.
    by destruct (project _ _ _).
  - pose proof (dynamic_history e envelope) as Hd; destruct (dynamicCollector e envelope) as [e0 k].
    destruct Hd as [Hd1 Hd2].
    pose proof (stream_inv_project s n g e e0 (host_step (te_host e0) (HostEvent k now uuid envelope)) broken Hinv Hg
      Hd2 (or_intror Hd1) (host_step_grows _ _)) as Hp.
    by destruct (project _ _ _).
Qed.

Lemma stream_inv_watcher s n g snapshot can_fail :
  stream_inv s n → stream_inv (watcher s g snapshot can_fail) n.
Proof.
  intros Hinv; unfold watcher; destruct (ss_entries s !! g) as [e|] eqn:Hg; [|done].
  destruct (te_watching e); [cbn [negb]|done]; destruct (_ || _); [|done].
  destruct (te_disposed (with_watching e false)); [by apply stream_inv_same with e|].
  destruct (sn_lastError snapshot) as [failure|]; [destruct (sf_orchestration failure)|].
  - unfold failStreams.
    apply (stream_inv_settle s n g e _ (λ k, if can_fail k then _ else StreamEnd)); auto; intros k; by destruct (can_fail k).
  - by apply (stream_inv_settle s n g e _ (λ k, StreamEnd)).
  - by apply (stream_inv_settle s n g e _ (λ k, StreamEnd)).
Qed.

Lemma stream_inv_teardown_end s n g e :
  stream_inv s n → ss_entries s !! g = Some e →
  stream_inv (set_entry s g (teardown_end e).1 (teardown_end e).2) n.
Proof. intros Hinv Hg; by apply (stream_inv_settle s n g e _ (λ k, StreamEnd)). Qed.

Lemma teardown_begin_history e active : history_of (teardown_begin e active) = history_of e.
Proof. unfold teardown_begin; by rewrite mark_history. Qed.

Lemma teardown_begin_streams e active : te_streams (teardown_begin e active) = te_streams e.
Proof. unfold teardown_begin; by rewrite mark_streams. Qed.

Lemma stream_inv_bookkeeping s s' n :
  stream_inv s n → ss_wire s' = ss_wire s → ss_entries s' = ss_entries s → stream_inv s' n.
Proof. intros Hinv Hw He; apply (stream_inv_silent s s' n Hinv Hw); intros g e'; rewrite He; eauto. Qed.

Lemma new_entry_streams session template configs projection c u e :
  new_entry session template configs projection c u = Some e → te_streams e = [].
Proof. unfold new_entry; intros ([ms cs] & _ & [= <-])%bind_Some; done. Qed.

Section Registry.

Context (scenes : SceneRegistry) (DEFAULT_MODEL : string).

Lemma stream_inv_job_start s n session options rest answers active now :
  stream_inv s n → stream_inv (job_start s scenes DEFAULT_MODEL session options rest answers active now).1 n.
Proof.
  intros Hinv; unfold job_start.
  destruct (configure _ _ _ _ _) as [err|[template configs]]; [by apply stream_inv_bookkeeping with s|].
  destruct (ss_teams s !! session ≫= _) as [[g e]|] eqn:E; [|by apply stream_inv_bookkeeping with s].
  apply bind_Some in E as (g' & _ & (e' & He & [= <- <-])%fmap_Some); cbn [fst].
  apply stream_inv_silent with s; [done..|].
  intros g1 e1; cbn [set_jobs ss_entries]; destruct (decide (g1 = g)) as [->|Hne].
  - rewrite list_lookup_insert_eq by (by eapply lookup_lt_Some); intros [= <-].
    right; exists e; split; [done|]; split; [apply teardown_begin_streams|apply teardown_begin_history].
  - rewrite list_lookup_insert_ne by done; eauto.
Qed.

Lemma stream_inv_job s n session answer :
  stream_inv s n → stream_inv (job_step scenes DEFAULT_MODEL s session answer).1 n.
Proof.
  intros Hinv; unfold job_step; destruct (ss_jobs s !! session) as [[|[options phase] rest]|]; [done| |done].
  destruct phase as [|g template configs c|template configs c u], answer as [answers active now|ok now|projection|msg]; try done.
  - by apply stream_inv_job_start.
  - destruct (ss_entries s !! g) as [e|] eqn:Hg; [|done]; destruct ok; [|by apply stream_inv_bookkeeping with s].
    pose proof (stream_inv_teardown_end s n g e Hinv Hg) as He; destruct (teardown_end e) as [e' w].
    by apply stream_inv_bookkeeping with (set_entry s g e' w).
  - destruct (new_entry _ _ _ _ _ _) as [e|] eqn:He; [|by apply stream_inv_bookkeeping with s].
    apply stream_inv_silent with s; [done..|].
    intros g1 e1; cbn [fst ss_entries]; rewrite lookup_app.
    destruct (ss_entries s !! g1) as [e0|] eqn:H0; [intros [= ->]; eauto|].
    intros [-> _]%list_lookup_singleton_Some || intros H1%list_elem_of_lookup_2%list_elem_of_singleton; left.
    subst; by eapply new_entry_streams.
  - by apply stream_inv_bookkeeping with s.
Qed.

Lemma stream_inv_shutdown s n active : stream_inv s n → stream_inv (shutdown s active) n.
Proof.
  intros Hinv; apply stream_inv_silent with s; [done..|].
  intros g e'; cbn [shutdown ss_entries]; rewrite list_lookup_imap.
  intros (e & He & ->)%fmap_Some; right; exists e; split; [done|].
  destruct (bool_decide (g ∈ (map_to_list (ss_teams s)).*2)); [|done]; split; [apply teardown_begin_streams|apply teardown_begin_history].
Qed.

Lemma stream_inv_shutdown_disposed s n g ok : stream_inv s n → stream_inv (shutdown_disposed s g ok) n.
Proof.
  intros Hinv; unfold shutdown_disposed; case_bool_decide; [|done].
  set (s1 := mkSessions _ _ _ _ _); assert (H1 : stream_inv s1 n) by by apply stream_inv_bookkeeping with s.
  destruct (ss_entries s1 !! g) as [e|] eqn:Hg; [|done]; destruct ok; [|done].
  pose proof (stream_inv_teardown_end s1 n g e H1 Hg) as He; by destruct (teardown_end e).
Qed.

Lemma stream_inv_step s n op :
  stream_inv s n → let '(s', n') := session_step scenes DEFAULT_MODEL (s, n) op in stream_inv s' n'.
Proof.
  intros Hinv; destruct op as [session options|session answer|session text before answer broken now|g k
    |session active|g snapshot can_fail|g envelope now uuid broken|active|g ok]; cbn [session_step].
  - by apply stream_inv_bookkeeping with s.
  - by apply stream_inv_job.
  - by apply stream_inv_send.
  - unfold detach; destruct (ss_entries s !! g) as [e|] eqn:Hg; [|done].
    by apply (stream_inv_leave s n g e _ (λ k', k' ≠ k)).
  - unfold cancel; destruct (requireEntry _ _ _) as [err|[g e]] eqn:Hreq; [done|]; cbn [fst].
    apply requireEntry_spec, liveEntry_spec in Hreq as (_ & Hg & _).
    apply stream_inv_same with e; [done..| |]; [by rewrite watch_history, mark_history|by rewrite watch_streams, mark_streams].
  - by apply stream_inv_watcher.
  - by apply stream_inv_envelope.
  - by apply stream_inv_shutdown.
  - by apply stream_inv_shutdown_disposed.
Qed.

Lemma stream_inv_start : stream_inv new_Sessions 0.
Proof.
  assert (Hno : ∀ g e, ss_entries new_Sessions !! g = Some e → False) by (intros g e; cbn; by rewrite lookup_nil).
  split; try (intros g; intros; exfalso; by eapply Hno); [done|intros k; exists [], []; auto].
Qed.

Lemma stream_inv_run ops :
  stream_inv (session_run scenes DEFAULT_MODEL ops).1 (session_run scenes DEFAULT_MODEL ops).2.
Proof.
  unfold session_run; generalize stream_inv_start; generalize new_Sessions, 0%nat.
  induction ops as [|op ops IH]; intros s n Hinv; [done|]; cbn [fold_left].
  pose proof (stream_inv_step s n op Hinv) as H; destruct (session_step _ _ (s, n) op); by apply IH.
Qed.

(** C7: However requests, continuations, member events, refreshes and a shutdown
    interleave, a client's stream is given frames, then at most one end or failure,
    and nothing after it.  While it is attached, it is attached to one team only and
    has missed nothing: after an optional notice of its place in the queue, it was
    given the frames of that team's history from some point on, every one, in
    order. *)
Theorem stream_protocol (ops : list session_op) (k : nat) :
  let s := (session_run scenes DEFAULT_MODEL ops).1 in
  stream_ok (actions k (ss_wire s)) ∧
  ∀ g e, ss_entries s !! g = Some e → k ∈ te_streams e →
    follows e (actions k (ss_wire s)) ∧
    ∀ g' e', ss_entries s !! g' = Some e' → k ∈ te_streams e' → g' = g.
Proof.
  intros s; pose proof (stream_inv_run ops) as [H1 H2 H3 H4 H5 H6]; split; [apply H5|].
  intros g e Hg Hk; split; [by apply H6 with g|]; intros g' e' Hg' Hk'; eauto.
Qed.

(** ** The registry *)

(** The chain of a session: its head may be at work — the old team is then out of
    the registry — and the others wait. *)
Definition phase_ok (s : Sessions) (session : string) (p : Phase) : Prop :=
  match p with
  | Queued_job => True
  | Disposing g _ _ _ => ss_teams s !! session = None ∧
      ∃ e, ss_entries s !! g = Some e ∧ te_session e = session ∧ te_disposed e = true
  | Building _ _ _ _ => ss_teams s !! session = None
  end.

Definition jobs_ok (s : Sessions) (session : string) (js : list Job) : Prop :=
  match js with
  | [] => True
  | j :: js => phase_ok s session (jb_phase j) ∧ Forall (λ j, jb_phase j = Queued_job) js
  end.

Record registry_inv (s : Sessions) : Prop := {
  rg_team : ∀ session g, ss_teams s !! session = Some g →
    ∃ e, ss_entries s !! g = Some e ∧ te_session e = session ∧ te_disposed e = false;
  rg_current : ∀ g e, ss_entries s !! g = Some e → te_disposed e = false →
    ss_teams s !! te_session e = Some g ∧ te_subscribed e = true;
  rg_jobs : ∀ session js, ss_jobs s !! session = Some js → jobs_ok s session js;
  rg_quiet : ∀ g e, ss_entries s !! g = Some e → te_subscribed e = false → te_streams e = [];
  rg_watched : ∀ g e, ss_entries s !! g = Some e → te_streams e ≠ [] →
    te_watching e = true ∨ te_disposed e = true;
  rg_closing : ∀ g, g ∈ ss_closing s → ∃ e, ss_entries s !! g = Some e ∧ te_disposed e = true;
}.

(** An entry changes without changing sides. *)
Record stays (e e' : TeamEntry) : Prop := {
  sy_session : te_session e' = te_session e;
  sy_disposed : te_disposed e' = te_disposed e;
  sy_subscribed : te_subscribed e' = te_subscribed e ∨
    (te_disposed e = true ∧ te_streams e' = []);
  sy_quiet : te_streams e = [] → te_subscribed e = false → te_streams e' = [];
  sy_watched : te_streams e' ≠ [] → te_watching e' = true ∨ te_disposed e' = true;
}.

Lemma set_entry_inv s g e e' w g1 e1 :
  ss_entries s !! g = Some e → ss_entries (set_entry s g e' w) !! g1 = Some e1 →
  (g1 = g ∧ e1 = e') ∨ (g1 ≠ g ∧ ss_entries s !! g1 = Some e1).
Proof.
  intros Hg; cbn [set_entry ss_entries]; destruct (decide (g1 = g)) as [->|Hne].
  - rewrite list_lookup_insert_eq by (by eapply lookup_lt_Some); intros [= ->]; auto.
  - rewrite list_lookup_insert_ne by done; auto.
Qed.

Lemma registry_inv_entry s g e e' w :
  registry_inv s → ss_entries s !! g = Some e → stays e e' → registry_inv (set_entry s g e' w).
Proof.
  intros [H1 H2 H3 H4 H5 H6] Hg [S1 S2 S3 S4 S5].
  assert (Hkeep : ∀ g1 e1, ss_entries s !! g1 = Some e1 → ∃ e2, ss_entries (set_entry s g e' w) !! g1 = Some e2 ∧
    te_session e2 = te_session e1 ∧ te_disposed e2 = te_disposed e1).
  { intros g1 e1 H; destruct (decide (g1 = g)) as [->|Hne].
    - exists e'; rewrite (set_entry_lookup s g e e' w Hg); simplify_eq; auto.
    - exists e1; split; [|done]; cbn; by rewrite list_lookup_insert_ne. }
  split.
  - intros session g1 Ht; destruct (H1 session g1 Ht) as (e1 & A & B & C).
    destruct (Hkeep g1 e1 A) as (e2 & A' & B' & C'); exists e2; by rewrite B', C'.
  - intros g1 e1 [[-> ->]|[_ Hl]]%(set_entry_inv _ _ _ _ _ _ _ Hg) Hd; [|by apply H2].
    rewrite S2 in Hd; destruct (H2 g e Hg Hd) as [A B]; rewrite S1; split; [done|].
    destruct S3 as [->|[Hd' _]]; [done|congruence].
  - intros session js Hj; specialize (H3 session js Hj); destruct js as [|j js]; [done|].
    destruct H3 as [A B]; split; [|done]; destruct (jb_phase j) as [|g1 ? ? ?|]; [done| |done].
    destruct A as (A & e1 & C & D & E); split; [done|].
    destruct (Hkeep g1 e1 C) as (e2 & C' & D' & E'); exists e2; by rewrite D', E'.
  - intros g1 e1 [[-> ->]|[_ Hl]]%(set_entry_inv _ _ _ _ _ _ _ Hg) Hs; [|by eapply H4].
    destruct S3 as [Hs'|[_ ?]]; [|done]; rewrite Hs' in Hs; apply S4; [by eapply H4|done].
  - intros g1 e1 [[-> ->]|[_ Hl]]%(set_entry_inv _ _ _ _ _ _ _ Hg) Hs; [by apply S5|by eapply H5].
  - intros g1 Hc; destruct (H6 g1 Hc) as (e1 & A & B); destruct (Hkeep g1 e1 A) as (e2 & A' & _ & C').
    exists e2; by rewrite C'.
Qed.

(** A chain of jobs moves on. *)
Lemma registry_inv_jobs s session js :
  registry_inv s → jobs_ok s session js → registry_inv (set_jobs s session js).
Proof.
  intros [H1 H2 H3 H4 H5 H6] Hjs; split; [done..| |done|done|done].
  intros session' js'; cbn [set_jobs ss_jobs]; destruct (decide (session' = session)) as [->|Hne].
  - rewrite lookup_insert_eq; intros [= <-]; destruct js; [done|exact Hjs].
  - rewrite lookup_insert_ne by done; intros Hj; specialize (H3 _ _ Hj); destruct js'; [done|exact H3].
Qed.

Lemma queued_jobs_ok s session js : Forall (λ j, jb_phase j = Queued_job) js → jobs_ok s session js.
Proof. destruct js as [|j js']; [done|]; intros [Hj Hjs]%Forall_cons_1; cbn; by rewrite Hj. Qed.

Lemma jobs_tail s session j js :
  registry_inv s → ss_jobs s !! session = Some (j :: js) → Forall (λ j, jb_phase j = Queued_job) js.
Proof. intros H Hj; exact (proj2 (rg_jobs _ H _ _ Hj)). Qed.

(** Some teams leave the registry, their entries being retired. *)
Record retired (e e' : TeamEntry) : Prop := {
  rt_session : te_session e' = te_session e;
  rt_disposed : te_disposed e' = true;
  rt_subscribed : te_subscribed e' = te_subscribed e;
  rt_streams : te_streams e' = te_streams e;
}.

Lemma registry_inv_retire s s' (G : nat → Prop) :
  registry_inv s → ss_jobs s' = ss_jobs s →
  (∀ g e', ss_entries s' !! g = Some e' → ∃ e, ss_entries s !! g = Some e ∧ (G g ∧ retired e e' ∨ ¬ G g ∧ e' = e)) →
  (∀ g e, ss_entries s !! g = Some e → ∃ e', ss_entries s' !! g = Some e' ∧ (G g ∧ retired e e' ∨ ¬ G g ∧ e' = e)) →
  (∀ session g, ss_teams s' !! session = Some g ↔ ss_teams s !! session = Some g ∧ ¬ G g) →
  (∀ g, g ∈ ss_closing s' → g ∈ ss_closing s ∨ G g ∧ is_Some (ss_entries s !! g)) →
  registry_inv s'.
Proof.
  intros [H1 H2 H3 H4 H5 H6] Hj Hback Hforth Ht Hc; split.
  - intros session g [Hg HG]%Ht; destruct (H1 _ _ Hg) as (e & A & B & C).
    destruct (Hforth g e A) as (e' & A' & [[? _]|[_ ->]]); [done|eauto].
  - intros g e' Hg Hd; destruct (Hback g e' Hg) as (e & A & [[? R]|[HG ->]]); [by rewrite (rt_disposed _ _ R) in Hd|].
    destruct (H2 g e A Hd) as [B C]; split; [|done]; by apply Ht.
  - intros session js; rewrite Hj; intros Hjs; specialize (H3 _ _ Hjs); destruct js as [|j js]; [done|].
    assert (Hnone : ss_teams s !! session = None → ss_teams s' !! session = None).
    { intros Hn; destruct (ss_teams s' !! session) as [g|] eqn:E; [|done]; apply Ht in E as [E _]; congruence. }
    destruct H3 as [A B]; split; [|done]; destruct (jb_phase j) as [|g ? ? ?|]; [done| |by apply Hnone].
    destruct A as (A & e & C & D & E); split; [by apply Hnone|].
    destruct (Hforth g e C) as (e' & C' & [[_ R]|[_ ->]]); [|eauto].
    exists e'; rewrite (rt_session _ _ R); split; [done|]; split; [done|apply R].
  - intros g e' Hg Hs; destruct (Hback g e' Hg) as (e & A & [[_ R]|[_ ->]]); [|eauto].
    rewrite (rt_streams _ _ R); rewrite (rt_subscribed _ _ R) in Hs; eauto.
  - intros g e' Hg Hs; destruct (Hback g e' Hg) as (e & A & [[_ R]|[_ ->]]); [right; apply R|eauto].
  - intros g Hg; assert (∃ e, ss_entries s !! g = Some e ∧ (G g ∨ te_disposed e = true)) as (e & A & B)
      by (destruct (Hc g Hg) as [Hg'|[HG [e He]]]; [destruct (H6 g Hg') as (e & ? & ?)|]; eauto).
    destruct (Hforth g e A) as (e' & A' & [[_ R]|[HG ->]]); [exists e'; split; [done|apply R]|].
    destruct B; [done|eauto].
Qed.

Lemma mark_flags e active st :
  let e' := mark_in_flight e active st in
  te_session e' = te_session e ∧ te_disposed e' = te_disposed e ∧ te_subscribed e' = te_subscribed e ∧
  te_watching e' = te_watching e.
Proof. unfold mark_in_flight; by destruct (agentMemberInFlight e active). Qed.

Lemma teardown_begin_retired e active : retired e (teardown_begin e active).
Proof.
  destruct (mark_flags (with_disposed e) active ABORTED) as (A & B & C & _).
  split; unfold teardown_begin; [done..|by rewrite mark_streams].
Qed.

Lemma project_flags broken e h :
  let e' := (project broken e h).1 in
  te_session e' = te_session e ∧ te_disposed e' = te_disposed e ∧ te_subscribed e' = te_subscribed e ∧
  te_watching e' = te_watching e.
Proof. unfold project; by destruct (broadcast_all _ _ _). Qed.

Lemma broadcast_all_nil broken events : (broadcast_all broken [] events).1 = [].
Proof.
  induction events as [|ev events IH]; [done|]; cbn [broadcast_all broadcast filter].
  change (filter (λ k, k ∉ broken) []) with (@nil nat); by destruct (broadcast_all broken [] events).
Qed.

Lemma project_streams_nil broken e h : te_streams e = [] → te_streams (project broken e h).1 = [].
Proof.
  intros He; unfold project; rewrite He; pose proof (broadcast_all_nil broken
    (drop (length (sunk (hs_history (te_host e)))) (sunk (hs_history h)))) as H.
  by destruct (broadcast_all _ _ _).
Qed.

(** An entry whose subscription is alive takes in a change of its history. *)
Lemma project_stays s g broken e e0 h :
  registry_inv s → ss_entries s !! g = Some e →
  te_session e0 = te_session e → te_disposed e0 = te_disposed e → te_subscribed e0 = te_subscribed e →
  te_watching e0 = te_watching e → te_streams e0 = te_streams e → stays e (project broken e0 h).1.
Proof.
  intros Hinv Hg E1 E2 E3 E4 E5; destruct (project_flags broken e0 h) as (A & B & C & D).
  assert (Hnil : te_streams e = [] → te_streams (project broken e0 h).1 = [])
    by (intros; apply project_streams_nil; congruence).
  split; [congruence..|left; congruence|auto|].
  intros Hs; rewrite B, D, E2, E4; apply (rg_watched _ Hinv g e Hg); auto.
Qed.

Lemma teardown_end_stays e : te_disposed e = true → stays e (teardown_end e).1.
Proof. intros Hd; split; cbn; auto; by intros []. Qed.

Lemma watch_flags e :
  let e' := watchQuiescence e in
  te_session e' = te_session e ∧ te_disposed e' = te_disposed e ∧ te_subscribed e' = te_subscribed e ∧
  (te_watching e' = true ∨ te_disposed e' = true).
Proof.
  unfold watchQuiescence; destruct (te_watching e) eqn:W, (te_disposed e) eqn:D; cbn; rewrite ?W, ?D; auto.
Qed.

Lemma registry_inv_send s session text n before answer broken now :
  registry_inv s → stream_inv s n → registry_inv (send s session text n before answer broken now).1.
Proof.
  intros Hinv Hst; unfold send; destruct (requireEntry _ _ _) as [err|[g e]] eqn:Hreq; [done|].
  apply requireEntry_spec, liveEntry_spec in Hreq as (_ & Hg & Hd).
  destruct (rg_current _ Hinv g e Hg Hd) as [_ Hsub].
  destruct (_ && _); [done|].
  rewrite bool_decide_eq_false_2 by (intros Hk; pose proof (sv_lt _ _ Hst _ _ _ Hg Hk); lia).
  set (ea := with_streams e (te_streams e ++ [n])).
  destruct (project_flags broken ea (host_step (te_host e) (HostUser now text))) as (A & B & C & D).
  change (te_session ea) with (te_session e) in A; change (te_disposed ea) with (te_disposed e) in B.
  change (te_subscribed ea) with (te_subscribed e) in C; change (te_watching ea) with (te_watching e) in D.
  destruct (project_spec broken ea (host_step (te_host e) (HostUser now text))) as (fs & _ & F & _).
  { cbn [ea with_streams te_streams]; apply NoDup_app; split; [by apply Hst with g|].
    split; [intros k Hk ->%list_elem_of_singleton; pose proof (sv_lt _ _ Hst _ _ _ Hg Hk); lia|apply NoDup_singleton]. }
  { apply host_step_grows. }
  destruct (project broken ea _) as [e' w1]; cbn [fst] in A, B, C, D, F.
  destruct (mapOrchestratorError answer); cbn [fst]; apply registry_inv_entry with e; auto.
  - split; cbn; [done..|by left|congruence|]; intros Hne.
    rewrite B, D; apply (rg_watched _ Hinv g e Hg); intros He; apply Hne; rewrite F; cbn; rewrite He.
    destruct (bool_decide _); cbn; repeat (rewrite ?filter_cons, ?filter_nil; case_decide); done.
  - destruct (watch_flags e') as (W1 & W2 & W3 & W4); split; [congruence..|left; congruence|intros _ Hs; congruence|intros _; congruence || done].
Qed.

Lemma registry_inv_envelope s g envelope now uuid broken :
  registry_inv s → registry_inv (on_envelope s g envelope now uuid broken).
Proof.
  intros Hinv; unfold on_envelope; destruct (ss_entries s !! g) as [e|] eqn:Hg; [|done].
  destruct (te_subscribed e); [cbn [negb]|done].
  destruct (findMember e (en_role envelope)) as [[role preset model k|role]|].
  - pose proof (project_stays s g broken e e (host_step (te_host e) (HostEvent k now uuid envelope)) Hinv Hg
      eq_refl eq_refl eq_refl eq_refl eq_refl) as Hp.
    destruct (project _ _ _); by apply registry_inv_entry with e.
  - pose proof (project_stays s g broken e e (projectAnnouncement (te_host e) now role envelope) Hinv Hg
      eq_refl eq_refl eq_refl eq_refl eq_refl) as Hp.
    destruct (project _ _ _); by apply registry_inv_entry with e.
  - destruct (dynamicCollector e envelope) as [e0 k] eqn:Hd.
    assert (Hp : stays e (project broken e0 (host_step (te_host e0) (HostEvent k now uuid envelope))).1).
    { unfold dynamicCollector in Hd; destruct (list_find _ _) as [[? ?]|]; simplify_eq;
        by apply project_stays with s g. }
    destruct (project _ _ _); by apply registry_inv_entry with e.
Qed.

Lemma registry_inv_watcher s g snapshot can_fail : registry_inv s → registry_inv (watcher s g snapshot can_fail).
Proof.
  intros Hinv; unfold watcher; destruct (ss_entries s !! g) as [e|] eqn:Hg; [|done].
  destruct (te_watching e) eqn:Hw; [cbn [negb]|done]; destruct (_ || _); [|done].
  assert (Hend : ∀ e', te_session e' = te_session e → te_disposed e' = te_disposed e →
    te_subscribed e' = te_subscribed e → te_streams e' = [] → stays e e').
  { intros e' A B C D; split; [done..|by left|done|by rewrite D]. }
  destruct (te_disposed (with_watching e false)) eqn:Hd.
  - apply registry_inv_entry with e; [done..|]; split; [done..|by left|done|by right].
  - destruct (sn_lastError snapshot) as [failure|]; [destruct (sf_orchestration failure)|];
      apply registry_inv_entry with e; auto.
Qed.

Lemma registry_inv_job_start s session options rest answers active now :
  registry_inv s → Forall (λ j, jb_phase j = Queued_job) rest →
  registry_inv (job_start s scenes DEFAULT_MODEL session options rest answers active now).1.
Proof.
  intros Hinv Hq; unfold job_start.
  destruct (configure _ _ _ _ _) as [err|[template configs]]; [by apply registry_inv_jobs; [|apply queued_jobs_ok]|].
  destruct (ss_teams s !! session ≫= _) as [[g e]|] eqn:E; cbn [fst].
  - apply bind_Some in E as (g' & Ht & (e' & He & [= <- <-])%fmap_Some).
    destruct (rg_team _ Hinv _ _ Ht) as (e' & He' & Hs & _); rewrite He in He'; injection He' as <-.
    assert (Hlt : (g < length (ss_entries s))%nat) by by eapply lookup_lt_Some.
    apply registry_inv_jobs.
    + apply registry_inv_retire with s (λ g', g' = g); [done|done| | | |by left].
      * intros g1 e1; cbn [ss_entries]; destruct (decide (g1 = g)) as [->|Hne].
        -- rewrite list_lookup_insert_eq by done; intros [= <-]; exists e; auto using teardown_begin_retired.
        -- rewrite list_lookup_insert_ne by done; eauto.
      * intros g1 e1 H1; cbn [ss_entries]; destruct (decide (g1 = g)) as [->|Hne].
        -- rewrite list_lookup_insert_eq by done; simplify_eq; eauto using teardown_begin_retired.
        -- rewrite list_lookup_insert_ne by done; eauto.
      * intros session' g1; cbn [ss_teams]; rewrite lookup_delete_Some; split; [|].
        -- intros [Hne H1]; split; [done|]; intros ->; destruct (rg_team _ Hinv _ _ H1) as (e2 & H2 & H3 & _); congruence.
        -- intros [H1 Hne]; split; [|done]; intros <-; congruence.
    + split; [|done]; cbn; split; [apply lookup_delete_eq|].
      exists (teardown_begin e active); rewrite list_lookup_insert_eq by done.
      destruct (teardown_begin_retired e active) as [R1 R2 _ _]; by rewrite R1.
  - apply registry_inv_jobs; [done|]; split; [|done]; cbn.
    destruct (ss_teams s !! session) as [g|] eqn:Ht; [|done].
    destruct (rg_team _ Hinv _ _ Ht) as (e & He & _); cbn in E; by rewrite He in E.
Qed.

Lemma registry_inv_built s session template configs projection c u e rest :
  registry_inv s → ss_teams s !! session = None → Forall (λ j, jb_phase j = Queued_job) rest →
  new_entry session template configs projection c u = Some e →
  registry_inv (mkSessions (ss_entries s ++ [e]) (<[session := length (ss_entries s)]> (ss_teams s))
    (<[session := rest]> (ss_jobs s)) (ss_closing s) (ss_wire s)).
Proof.
  intros Hinv Hnone Hq He.
  assert (Hflags : te_session e = session ∧ te_disposed e = false ∧ te_subscribed e = true ∧ te_streams e = [])
    by (unfold new_entry in He; by apply bind_Some in He as ([ms cs] & _ & [= <-])).
  destruct Hflags as (F1 & F2 & F3 & F4), Hinv as [H1 H2 H3 H4 H5 H6].
  assert (Hold : ∀ g1 e1, ss_entries s !! g1 = Some e1 → (ss_entries s ++ [e]) !! g1 = Some e1)
    by (intros; by apply lookup_app_l_Some).
  assert (Hlk : ∀ g1 e1, (ss_entries s ++ [e]) !! g1 = Some e1 →
    ss_entries s !! g1 = Some e1 ∨ g1 = length (ss_entries s) ∧ e1 = e).
  { intros g1 e1 [H|[Hle H]]%lookup_app_Some; [by left|]; right.
    apply list_lookup_singleton_Some in H as [H ->]; split; [lia|done]. }
  split; cbn [ss_entries ss_teams ss_jobs].
  - intros session' g1 [[<- <-]|[Hne Ht]]%lookup_insert_Some.
    + exists e; split; [|done]; rewrite lookup_app_r, Nat.sub_diag by lia; done.
    + destruct (H1 _ _ Ht) as (e1 & A & B & C); eauto.
  - intros g1 e1 [Hl|[-> ->]]%Hlk Hd; [|by rewrite F1, lookup_insert_eq].
    destruct (H2 _ _ Hl Hd) as [A B]; split; [|done]; rewrite lookup_insert_ne; [done|]; congruence.
  - intros session' js [[<- <-]|[Hne Hj]]%lookup_insert_Some.
    + by apply queued_jobs_ok.
    + specialize (H3 _ _ Hj); destruct js as [|j js]; [done|]; destruct H3 as [A B]; split; [|done].
      destruct (jb_phase j) as [|g1 ? ? ?|]; [done| |by cbn; rewrite lookup_insert_ne].
      destruct A as (A & e1 & C & D & E); split; [by cbn; rewrite lookup_insert_ne|eauto].
  - intros g1 e1 [Hl|[-> ->]]%Hlk; [eauto|done].
  - intros g1 e1 [Hl|[-> ->]]%Hlk; [eauto|by rewrite F4].
  - intros g1 Hc; destruct (H6 g1 Hc) as (e1 & A & B); eauto.
Qed.

Lemma registry_inv_job s session answer :
  registry_inv s → registry_inv (job_step scenes DEFAULT_MODEL s session answer).1.
Proof.
  intros Hinv; unfold job_step; destruct (ss_jobs s !! session) as [[|[options phase] rest]|] eqn:Hj; [done| |done].
  pose proof (jobs_tail _ _ _ _ Hinv Hj) as Hq; pose proof (proj1 (rg_jobs _ Hinv _ _ Hj)) as Hp; cbn [jb_phase] in Hp.
  assert (Hdrop : registry_inv (set_jobs s session rest)) by (by apply registry_inv_jobs, queued_jobs_ok).
  destruct phase as [|g template configs c|template configs c u], answer as [answers active now|ok now|projection|msg]; try done.
  - by apply registry_inv_job_start.
  - destruct Hp as (Hn & e & Hg & Hs & Hd); rewrite Hg; destruct ok; [|done].
    pose proof (teardown_end_stays e Hd) as Hstay; destruct (teardown_end e) as [e' w]; cbn [fst] in Hstay |- *.
    apply registry_inv_jobs; [by apply registry_inv_entry with e|by split].
  - destruct (new_entry _ _ _ _ _ _) as [e|] eqn:He; [|done]; by eapply registry_inv_built.
Qed.

Lemma registry_inv_shutdown s active : registry_inv s → registry_inv (shutdown s active).
Proof.
  intros Hinv; set (G := λ g, g ∈ (map_to_list (ss_teams s)).*2).
  assert (Hre : ∀ g e, let e' := if bool_decide (g ∈ (map_to_list (ss_teams s)).*2) then teardown_begin e (active g) else e in
    G g ∧ retired e e' ∨ ¬ G g ∧ e' = e).
  { intros g e; cbn; destruct (decide (G g)) as [Hd|Hd]; [left|right].
    - rewrite bool_decide_eq_true_2 by done; auto using teardown_begin_retired.
    - by rewrite bool_decide_eq_false_2. }
  apply registry_inv_retire with s G; [done|done| | | |].
  - intros g e'; cbn [shutdown ss_entries]; rewrite list_lookup_imap; intros (e & He & ->)%fmap_Some; eauto.
  - intros g e He; cbn [shutdown ss_entries]; rewrite list_lookup_imap, He; cbn; eauto.
  - intros session g; cbn [shutdown ss_teams]; rewrite lookup_empty; split; [done|].
    intros [Ht []]; apply list_elem_of_fmap; exists (session, g); split; [done|by apply elem_of_map_to_list].
  - intros g; cbn [shutdown ss_closing]; intros [Hg|Hg]%elem_of_app; [by left|right; split; [done|]].
    apply list_elem_of_fmap in Hg as ([session g'] & -> & Hg%elem_of_map_to_list); cbn.
    destruct (rg_team _ Hinv _ _ Hg) as (e & He & _); eauto.
Qed.

Lemma registry_inv_shutdown_disposed s g ok : registry_inv s → registry_inv (shutdown_disposed s g ok).
Proof.
  intros Hinv; unfold shutdown_disposed; destruct (decide (g ∈ ss_closing s)) as [Hc|Hc];
    [rewrite bool_decide_eq_true_2 by done|by rewrite bool_decide_eq_false_2].
  set (s1 := mkSessions _ _ _ _ _).
  assert (H1 : registry_inv s1).
  { destruct Hinv as [A B C D E F]; split; [done..|]; intros g1 [_ H]%list_elem_of_filter; by apply F. }
  destruct (rg_closing _ Hinv g Hc) as (e & Hg & Hd); change (ss_entries s1) with (ss_entries s); rewrite Hg.
  destruct ok; [|done]; pose proof (teardown_end_stays e Hd) as Hstay; destruct (teardown_end e) as [e' w].
  by apply registry_inv_entry with e.
Qed.

Lemma registry_inv_step s n op :
  registry_inv s → stream_inv s n → registry_inv (session_step scenes DEFAULT_MODEL (s, n) op).1.
Proof.
  intros Hinv Hst; destruct op as [session options|session answer|session text before answer broken now|g k
    |session active|g snapshot can_fail|g envelope now uuid broken|active|g ok]; cbn [session_step fst].
  - apply registry_inv_jobs; [done|]; destruct (ss_jobs s !! session) as [js|] eqn:Hj; [|by repeat constructor].
    pose proof (rg_jobs _ Hinv _ _ Hj) as Hok; destruct js as [|j js]; [by repeat constructor|].
    destruct Hok as [A B]; split; [done|]; apply Forall_app; auto.
  - by apply registry_inv_job.
  - by apply registry_inv_send.
  - unfold detach; destruct (ss_entries s !! g) as [e|] eqn:Hg; [|done]; apply registry_inv_entry with e; [done..|].
    split; cbn; [done..|by left|by intros -> _|]; intros Hne; apply (rg_watched _ Hinv g e Hg); by intros E; rewrite E in Hne.
  - unfold cancel; destruct (requireEntry _ _ _) as [err|[g e]] eqn:Hreq; [done|]; cbn [fst].
    apply requireEntry_spec, liveEntry_spec in Hreq as (_ & Hg & _); apply registry_inv_entry with e; [done..|].
    destruct (mark_flags e active CANCELED) as (A & B & C & _), (watch_flags (mark_in_flight e active CANCELED)) as (W1 & W2 & W3 & W4).
    split; [congruence..|left; congruence|intros; by rewrite watch_streams, mark_streams|done].
  - by apply registry_inv_watcher.
  - by apply registry_inv_envelope.
  - by apply registry_inv_shutdown.
  - by apply registry_inv_shutdown_disposed.
Qed.

Lemma registry_inv_start : registry_inv new_Sessions.
Proof.
  split; cbn; try (by intros ? ? ?%lookup_empty_Some); try (by intros ? []%elem_of_nil);
    intros g e; by rewrite lookup_nil.
Qed.

Lemma session_run_snoc ops op :
  session_run scenes DEFAULT_MODEL (ops ++ [op]) = session_step scenes DEFAULT_MODEL (session_run scenes DEFAULT_MODEL ops) op.
Proof. unfold session_run; by rewrite fold_left_app. Qed.

Lemma registry_inv_run ops : registry_inv (session_run scenes DEFAULT_MODEL ops).1.
Proof.
  induction ops as [|op ops IH] using rev_ind; [apply registry_inv_start|].
  pose proof (stream_inv_run ops) as Hst; rewrite session_run_snoc.
  destruct (session_run scenes DEFAULT_MODEL ops) as [s n]; by apply registry_inv_step.
Qed.

Definition at_work (p : Phase) : bool := match p with Queued_job => false | _ => true end.

(** C6: A session has at most one live team, which is the one its requests find;
    none while a materialization of the session disposes of the old team or builds
    the new one, and at most one materialization of a session is at work.  A team no
    longer subscribed to its members is disposed of and has no streams. *)
Theorem one_live_team (ops : list session_op) :
  let s := (session_run scenes DEFAULT_MODEL ops).1 in
  (∀ g e, ss_entries s !! g = Some e → te_disposed e = false → liveEntry s (te_session e) = Some (g, e)) ∧
  (∀ session g e, liveEntry s session = Some (g, e) → te_session e = session ∧ te_subscribed e = true) ∧
  (∀ session j js, ss_jobs s !! session = Some (j :: js) →
     (at_work (jb_phase j) = true → liveEntry s session = None) ∧ Forall (λ j, at_work (jb_phase j) = false) js) ∧
  (∀ g e, ss_entries s !! g = Some e → te_subscribed e = false → te_disposed e = true ∧ te_streams e = []).
Proof.
  intros s; pose proof (registry_inv_run ops) as Hinv; fold s in Hinv; repeat split.
  - intros g e Hg Hd; apply liveEntry_spec; destruct (rg_current _ Hinv g e Hg Hd); auto.
  - apply liveEntry_spec in H as (Ht & Hg & _); destruct (rg_team _ Hinv _ _ Ht) as (e' & He' & Hs & _); congruence.
  - apply liveEntry_spec in H as (_ & Hg & Hd); apply (rg_current _ Hinv g e Hg Hd).
  - intros Hw; pose proof (proj1 (rg_jobs _ Hinv _ _ H)) as Hp; unfold liveEntry.
    assert (ss_teams s !! session = None) as -> by (destruct (jb_phase j); [done|apply Hp|apply Hp]); done.
  - pose proof (jobs_tail _ _ _ _ Hinv H) as Hq; eapply Forall_impl; [exact Hq|]; by intros j' ->.
  - destruct (te_disposed e) eqn:Hd; [done|]; destruct (rg_current _ Hinv g e H Hd); congruence.
  - by eapply rg_quiet.
Qed.

(** ** Every attached stream is settled in the end *)

(** A teardown of this entry is waiting for its orchestration. *)
Definition teardown_awaited (s : Sessions) (g : nat) : Prop :=
  g ∈ ss_closing s ∨
  ∃ session options t c ct js, ss_jobs s !! session = Some (mkJob options (Disposing g t c ct) :: js).

Definition pending_inv (s : Sessions) : Prop :=
  ∀ g e, ss_entries s !! g = Some e → te_disposed e = true → te_subscribed e = true → teardown_awaited s g.

Lemma pending_entry s g e e' w :
  pending_inv s → ss_entries s !! g = Some e → te_disposed e' = te_disposed e →
  te_subscribed e' = te_subscribed e ∨ te_subscribed e' = false → pending_inv (set_entry s g e' w).
Proof.
  intros Hp Hg Hd Hs g1 e1 [[-> ->]|[_ Hl]]%(set_entry_inv _ _ _ _ _ _ _ Hg) D1 S1; [|by apply (Hp g1 e1)].
  destruct Hs; apply (Hp g e); congruence.
Qed.

(** A chain moves on, its head tearing nothing down or having just done so. *)
Lemma pending_jobs s s' session js :
  pending_inv s → ss_closing s' = ss_closing s → ss_jobs s' = <[session := js]> (ss_jobs s) →
  (∀ g e', ss_entries s' !! g = Some e' → te_disposed e' = true → te_subscribed e' = true →
     (∃ e, ss_entries s !! g = Some e ∧ te_disposed e = true ∧ te_subscribed e = true) ∨
     ∃ o t c ct rest, js = mkJob o (Disposing g t c ct) :: rest) →
  (∀ g o t c ct rest, ss_jobs s !! session = Some (mkJob o (Disposing g t c ct) :: rest) →
     (∃ o' t' c' ct' rest', js = mkJob o' (Disposing g t' c' ct') :: rest') ∨
     ∃ e', ss_entries s' !! g = Some e' ∧ te_subscribed e' = false) →
  pending_inv s'.
Proof.
  intros Hp Hc Hj He Hh g e' Hg Hd Hs; unfold teardown_awaited; rewrite Hc, Hj.
  destruct (He g e' Hg Hd Hs) as [(e & H1 & H2 & H3)|(o & t & c & ct & rest & ->)];
    [|right; eexists session, _, _, _, _, _; apply lookup_insert_eq].
  destruct (Hp g e H1 H2 H3) as [?|(session' & o & t & c & ct & rest & Hjob)]; [by left|].
  destruct (decide (session' = session)) as [->|Hne].
  - destruct (Hh _ _ _ _ _ _ Hjob) as [(o' & t' & c' & ct' & rest' & ->)|(e2 & H4 & H5)]; [|congruence].
    right; eexists session, _, _, _, _, _; apply lookup_insert_eq.
  - right; eexists session', _, _, _, _, _; rewrite lookup_insert_ne by done; exact Hjob.
Qed.

Lemma same_entries s s' (Q : nat → Prop) :
  ss_entries s' = ss_entries s →
  ∀ g e', ss_entries s' !! g = Some e' → te_disposed e' = true → te_subscribed e' = true →
     (∃ e, ss_entries s !! g = Some e ∧ te_disposed e = true ∧ te_subscribed e = true) ∨ Q g.
Proof. intros He g e'; rewrite He; eauto 6. Qed.

Lemma pending_job s session answer :
  clean_op (OpJob session answer) → registry_inv s → pending_inv s →
  pending_inv (job_step scenes DEFAULT_MODEL s session answer).1.
Proof.
  intros Hclean Hinv Hp; unfold job_step; destruct (ss_jobs s !! session) as [[|[options phase] rest]|] eqn:Hj; [done| |done].
  pose proof (proj1 (rg_jobs _ Hinv _ _ Hj)) as Hok; cbn [jb_phase] in Hok.
  destruct phase as [|g template configs c|template configs c u], answer as [answers active now|ok now|projection|msg]; try done.
  - unfold job_start; destruct (configure _ _ _ _ _) as [err|[template configs]].
    { eapply (pending_jobs s _ session); [done..| |]; [by apply same_entries|by rewrite Hj]. }
    destruct (ss_teams s !! session ≫= _) as [[g e]|] eqn:E; cbn [fst].
    + apply bind_Some in E as (g' & Ht & (e' & He & [= <- <-])%fmap_Some).
      eapply (pending_jobs s _ session); [done..| |by rewrite Hj].
      intros g1 e1; cbn [set_jobs ss_entries]; destruct (decide (g1 = g)) as [->|Hne]; [right; eauto 6|].
      rewrite list_lookup_insert_ne by done; eauto 6.
    + eapply (pending_jobs s _ session); [done..| |by rewrite Hj]; by apply same_entries.
  - destruct Hok as (_ & e & Hg & _ & _); rewrite Hg; destruct ok; [|done].
    destruct (teardown_end e) as [e' w] eqn:Hte; cbn [fst].
    assert (Hs' : te_subscribed e' = false) by (by injection Hte as <- _).
    eapply (pending_jobs s _ session); [done..| |].
    + intros g1 e1 [[-> ->]|[_ Hl]]%(set_entry_inv s g e e' w _ _ Hg) D1 S1; [congruence|eauto 6].
    + rewrite Hj; intros g1 o t c1 ct r [= _ -> _ _ _ _]; right; exists e'; split; [|done].
      by apply (set_entry_lookup s g1 e e' w).
  - destruct (new_entry _ _ _ _ _ _) as [e|] eqn:He; cbn [fst];
      eapply (pending_jobs s _ session); try done; try (by rewrite Hj); [|by apply same_entries].
    intros g1 e1 [Hl|[_ [_ ->]%list_lookup_singleton_Some]]%lookup_app_Some D1 S1; [eauto 6|].
    unfold new_entry in He; apply bind_Some in He as ([ms cs] & _ & [= <-]); done.
  - eapply (pending_jobs s _ session); [done..| |]; [by apply same_entries|by rewrite Hj].
Qed.

Lemma pending_step s n op :
  clean_op op → registry_inv s → pending_inv s → pending_inv (session_step scenes DEFAULT_MODEL (s, n) op).1.
Proof.
  intros Hclean Hinv Hp; destruct op as [session options|session answer|session text before answer broken now|g k
    |session active|g snapshot can_fail|g envelope now uuid broken|active|g ok]; cbn [session_step fst].
  - unfold materialize; eapply (pending_jobs s _ session); [done..|by apply same_entries|].
    intros g o t c ct rest Hj; rewrite Hj; left; cbn; eauto 8.
  - by apply pending_job.
  - unfold send; destruct (requireEntry _ _ _) as [err|[g e]] eqn:Hreq; [done|].
    apply requireEntry_spec, liveEntry_spec in Hreq as (_ & Hg & _); destruct (_ && _); [done|].
    match goal with |- context[project broken ?ea ?h] => destruct (project_flags broken ea h) as (_ & B & C & _);
      destruct (project broken ea h) as [e' w] end; cbn [fst with_streams te_disposed te_subscribed] in B, C.
    destruct (mapOrchestratorError answer); cbn [fst]; apply pending_entry with e; auto;
      destruct (watch_flags e') as (_ & W2 & W3 & _); [congruence|left; congruence].
  - unfold detach; destruct (ss_entries s !! g) as [e|] eqn:Hg; [|done]; apply pending_entry with e; auto.
  - unfold cancel; destruct (requireEntry _ _ _) as [err|[g e]] eqn:Hreq; [done|]; cbn [fst].
    apply requireEntry_spec, liveEntry_spec in Hreq as (_ & Hg & _).
    destruct (mark_flags e active CANCELED) as (_ & B & C & _), (watch_flags (mark_in_flight e active CANCELED)) as (_ & W2 & W3 & _).
    apply pending_entry with e; [done..|congruence|left; congruence].
  - unfold watcher; destruct (ss_entries s !! g) as [e|] eqn:Hg; [|done].
    destruct (te_watching e); [cbn [negb]|done]; destruct (_ || _); [|done].
    destruct (te_disposed (with_watching e false)) eqn:Hd; [apply pending_entry with e; auto|].
    destruct (sn_lastError snapshot) as [failure|]; [destruct (sf_orchestration failure)|]; apply pending_entry with e; auto.
  - unfold on_envelope; destruct (ss_entries s !! g) as [e|] eqn:Hg; [|done].
    destruct (te_subscribed e) eqn:Hs; [cbn [negb]|done].
    assert (Hpr : ∀ e0 h, te_disposed e0 = te_disposed e → te_subscribed e0 = te_subscribed e →
      pending_inv (let '(e', w) := project broken e0 h in set_entry s g e' w)).
    { intros e0 h D0 S0; destruct (project_flags broken e0 h) as (_ & B & C & _).
      destruct (project broken e0 h) as [e' w]; cbn [fst] in B, C; apply pending_entry with e; [done..|congruence|left; congruence]. }
    destruct (findMember e (en_role envelope)) as [[role preset model k|role]|]; [by apply Hpr..|].
    unfold dynamicCollector; destruct (list_find _ _) as [[? ?]|]; by apply Hpr.
  - intros g e'; cbn [shutdown ss_entries]; rewrite list_lookup_imap; intros (e & He & ->)%fmap_Some Hd Hs.
    unfold teardown_awaited; cbn [shutdown ss_closing ss_jobs].
    destruct (decide (g ∈ (map_to_list (ss_teams s)).*2)) as [Hl|Hl]; [left; apply elem_of_app; auto|].
    rewrite bool_decide_eq_false_2 in Hd, Hs by done.
    destruct (Hp g e He Hd Hs) as [Hc|Hj]; [left; apply elem_of_app; auto|by right].
  - unfold shutdown_disposed; destruct (decide (g ∈ ss_closing s)) as [Hc|Hc];
      [rewrite bool_decide_eq_true_2 by done|by rewrite bool_decide_eq_false_2].
    destruct (rg_closing _ Hinv g Hc) as (e & Hg & Hd); cbn [ss_entries]; rewrite Hg; destruct ok; [|done].
    destruct (teardown_end e) as [e' w] eqn:Hte; assert (Hs' : te_subscribed e' = false) by (by injection Hte as <- _).
    intros g1 e1 [[-> ->]|[Hne Hl]]%(set_entry_inv (mkSessions (ss_entries s) _ _ _ _) g e e' w _ _ Hg) D1 S1; [congruence|].
    destruct (Hp g1 e1 Hl D1 S1) as [Hc1|Hj]; [left|by right].
    cbn; apply list_elem_of_filter; auto.
Qed.

Lemma pending_run ops : Forall clean_op ops → pending_inv (session_run scenes DEFAULT_MODEL ops).1.
Proof.
  induction ops as [|op ops IH] using rev_ind; [intros _ g e; cbn; by rewrite lookup_nil|].
  intros [Hc [Hop _]%Forall_cons]%Forall_app; rewrite session_run_snoc.
  pose proof (registry_inv_run ops) as Hreg; specialize (IH Hc).
  destruct (session_run scenes DEFAULT_MODEL ops) as [s n]; cbn [fst] in *; by apply pending_step.
Qed.

(** The orchestration is at a static point. *)
Definition quiescent (sn : SceneSnapshot) : Prop := sn_paused sn = true ∨ (sn_active sn = None ∧ sn_queued sn = 0).

(** In this step the stream is detached and told, with its last action. *)
Definition settles (s s' : Sessions) (g k : nat) : Prop :=
  (∃ e', ss_entries s' !! g = Some e' ∧ k ∉ te_streams e') ∧
  ∃ a, is_write a = false ∧ actions k (ss_wire s') = actions k (ss_wire s) ++ [a].

(** The continuation somebody waits for, once it comes. *)
Definition awaited (s : Sessions) (g : nat) (e : TeamEntry) (op : session_op) : Prop :=
  if te_disposed e then
    teardown_awaited s g ∧
    (g ∈ ss_closing s ∧ op = OpShutdownDisposed g true ∨
     ∃ session o t c ct js now, ss_jobs s !! session = Some (mkJob o (Disposing g t c ct) :: js) ∧
       op = OpJob session (Disposed true now))
  else te_watching e = true ∧ ∃ snapshot can_fail, quiescent snapshot ∧ op = OpWatcher g snapshot can_fail.

Lemma settles_entry s s' g e e' k (f : nat → StreamAction) :
  NoDup (te_streams e) → k ∈ te_streams e → te_streams e' = [] → (∀ k, is_write (f k) = false) →
  ss_entries s' !! g = Some e' → ss_wire s' = ss_wire s ++ ((λ k, (k, f k)) <$> te_streams e) → settles s s' g k.
Proof.
  intros Hnd Hk He' Hf Hg Hw; split; [exists e'; rewrite He'; split; [done|by intros ?%elem_of_nil]|].
  exists (f k); split; [done|]; by rewrite Hw, actions_app, actions_map, bool_decide_eq_true_2.
Qed.

(** C3: As long as no disposal of an orchestration is rejected, every attached stream
    has a continuation pending that settles it — the watcher of a live team at the
    next static point, or the teardown of a retired one — and any such continuation
    tells the stream its last action and detaches it. *)
Theorem attached_stream_settles (ops : list session_op) (g k : nat) (e : TeamEntry)
    (Hclean : Forall clean_op ops)
    (Hg : ss_entries (session_run scenes DEFAULT_MODEL ops).1 !! g = Some e) (Hk : k ∈ te_streams e) :
  let s := (session_run scenes DEFAULT_MODEL ops).1 in
  (∃ op, awaited s g e op) ∧
  ∀ op, awaited s g e op → settles s (session_run scenes DEFAULT_MODEL (ops ++ [op])).1 g k.
Proof.
  pose proof (registry_inv_run ops) as Hinv; pose proof (pending_run ops Hclean) as Hp; pose proof (stream_inv_run ops) as Hst.
  destruct (session_run scenes DEFAULT_MODEL ops) as [s n] eqn:Hrun; cbn [fst snd] in *.
  pose proof (sv_nodup _ _ Hst _ _ Hg) as Hnd.
  assert (Hne : te_streams e ≠ []) by (intros E; by rewrite E, elem_of_nil in Hk).
  unfold awaited; destruct (te_disposed e) eqn:Hd; split.
  - assert (Hs : te_subscribed e = true) by (destruct (te_subscribed e) eqn:Hs; [done|]; by rewrite (rg_quiet _ Hinv g e Hg Hs) in Hne).
    destruct (Hp g e Hg Hd Hs) as [Hc|(session & o & t & c & ct & js & Hj)].
    + exists (OpShutdownDisposed g true); split; [by left|]; auto.
    + exists (OpJob session (Disposed true 0)); split; [right; eauto 8|]; right; by exists session, o, t, c, ct, js, 0.
  - intros op (_ & [[Hc ->]|(session & o & t & c & ct & js & now & Hj & ->)]);
      rewrite session_run_snoc, Hrun; cbn [session_step fst];
      apply (settles_entry s _ g e (teardown_end e).1 k (λ _, StreamEnd)); try done.
    + unfold shutdown_disposed; rewrite bool_decide_eq_true_2 by done; cbn [ss_entries]; rewrite Hg.
      by apply (set_entry_lookup (mkSessions _ _ _ _ _) g e).
    + unfold shutdown_disposed; rewrite bool_decide_eq_true_2 by done; cbn [ss_entries]; by rewrite Hg.
    + unfold job_step; rewrite Hj, Hg; cbn [fst]; by apply (set_entry_lookup s g e).
    + unfold job_step; by rewrite Hj, Hg.
  - destruct (rg_watched _ Hinv g e Hg Hne) as [Hw|?]; [|congruence].
    set (sn := mkSnapshot None "" true 0 None); exists (OpWatcher g sn (λ _, true)); split; [done|].
    exists sn, (λ _, true); split; [by left|done].
  - intros op (Hw & snapshot & can_fail & Hq & ->); rewrite session_run_snoc, Hrun; cbn [session_step fst]; unfold watcher; rewrite Hg, Hw; cbn [negb].
    assert (sn_paused snapshot || (bool_decide (sn_active snapshot = None) && (sn_queued snapshot =? 0)) = true) as ->.
    { destruct Hq as [->|[-> ->]]; [done|by destruct (sn_paused snapshot)]. }
    change (te_disposed (with_watching e false)) with (te_disposed e); rewrite Hd.
    assert (Hend : ∀ f, (∀ k, is_write (f k) = false) →
      settles s (set_entry s g (with_streams (with_watching e false) []) ((λ k, (k, f k)) <$> te_streams e)) g k).
    { intros f Hf; apply (settles_entry s _ g e (with_streams (with_watching e false) []) k f); try done.
      by apply (set_entry_lookup s g e). }
    destruct (sn_lastError snapshot) as [failure|]; [destruct (sf_orchestration failure)|]; apply Hend; auto.
    intros k'; by destruct (can_fail k').
Qed.

End Registry.

(** ** A run *)

Definition demo_session : string := "templates/saolei/sessions/s1".

Definition demo_member (role : string) : TeamMemberOptions :=
  mkOptions role ("templates/saolei/presets/" +:+ role) None.

Definition demo_request : list TeamMemberOptions := [demo_member "planner"; demo_member "player"].

Definition demo_answers : Answers := mkAnswers (λ role _, PresetView (Some role)) (λ _ _, CatalogModels ["m1"]).

Definition demo_projection : list SceneMember :=
  [SceneAgent "player" "a1"; SceneAgent "planner" "a2"; SceneAnnounceOnly "announcer"].

Definition demo_build : list session_op :=
  [OpMaterialize demo_session demo_request;
   OpJob demo_session (Validated demo_answers None 1);
   OpJob demo_session (Built demo_projection)].

(** A team is built, a message is sent. *)
Definition demo_sent : list session_op :=
  demo_build ++ [OpSend demo_session "hello" (mkSnapshot None "player" false 0 None) SubmitOk [] 2].

(** Then the team is refreshed, and the disposal of the old one is rejected. *)
Definition demo_rejected : list session_op :=
  demo_sent ++
  [OpMaterialize demo_session demo_request;
   OpJob demo_session (Validated demo_answers None 3);
   OpJob demo_session (Disposed false 4)].

Lemma attached_stream_settles_witness :
  ∃ e, ss_entries (session_run SCENES "p1/m1" demo_sent).1 !! 0%nat = Some e ∧ 0%nat ∈ te_streams e ∧
    ∃ op, awaited (session_run SCENES "p1/m1" demo_sent).1 0 e op ∧
      settles (session_run SCENES "p1/m1" demo_sent).1 (session_run SCENES "p1/m1" (demo_sent ++ [op])).1 0 0.
Proof.
  destruct (ss_entries (session_run SCENES "p1/m1" demo_sent).1 !! 0%nat) as [e|] eqn:He; [|by vm_compute in He].
  assert (Hk : te_streams <$> ss_entries (session_run SCENES "p1/m1" demo_sent).1 !! 0%nat = Some [0%nat]) by vm_refl.
  rewrite He in Hk; injection Hk as Hk.
  assert (Hin : 0%nat ∈ te_streams e) by (rewrite Hk; left).
  assert (Hc : Forall clean_op demo_sent) by (repeat constructor).
  destruct (attached_stream_settles SCENES "p1/m1" demo_sent 0 0 e Hc He Hin) as [[op Hop] Hall].
  exists e; split; [done|]; split; [done|]; exists op; auto.
Defined.

(** After the rejected disposal the stream is still attached to the retired team,
    nothing will tear that team down, and its watcher settles nothing. *)
Lemma rejected_disposal_strands :
  let s := (session_run SCENES "p1/m1" demo_rejected).1 in
  (λ e, (te_disposed e, te_streams e)) <$> ss_entries s !! 0%nat = Some (true, [0%nat]) ∧
  ss_closing s = [] ∧ ss_jobs s !! demo_session = Some [] ∧ liveEntry s demo_session = None ∧
  ∀ snapshot can_fail, ss_wire (watcher s 0 snapshot can_fail) = ss_wire s.
Proof.
  cbn zeta; set (s := (session_run SCENES "p1/m1" demo_rejected).1).
  assert (H : (λ e, (te_disposed e, te_streams e)) <$> ss_entries s !! 0%nat = Some (true, [0%nat])) by vm_refl.
  split; [done|]; split; [vm_refl|]; split; [vm_refl|]; split; [vm_refl|].
  intros snapshot can_fail; unfold watcher; destruct (ss_entries s !! 0%nat) as [e|]; [|done]; injection H as Hd _.
  destruct (te_watching e); [cbn [negb]|done]; destruct (_ || _); [|done].
  change (te_disposed (with_watching e false)) with (te_disposed e); rewrite Hd; apply app_nil_r.
Qed.
