(* ===== verification/SessionChecks.v ===== *)
(** * Configuring a team and reading a member

    Which requests [configure] accepts and with what configuration, how it refuses
    the others, and which team the answer of [getTeamMember] is about. *)

From S2P Require Import Prelude ChatWire History Collector SessionConfig Session.

#[local] Open Scope Z_scope.

(** ** The checks of the validation *)

Lemma bind_ok_inr {A B} (r : SessionError + A) (f : A → SessionError + B) b :
  bind_ok r f = inr b ↔ ∃ a, r = inr a ∧ f a = inr b.
Proof. destruct r; cbn; naive_solver. Qed.

Lemma each_ok {A} (check : A → SessionError + unit) l : each check l = inr tt ↔ Forall (λ a, check a = inr tt) l.
Proof.
  induction l as [|a l IH]; [done|]; cbn [each]; rewrite bind_ok_inr, Forall_cons.
  split; [intros ([] & ? & ?%IH)|intros [? ?%IH]]; eauto.
Qed.

Lemma traverse_ok {A B} (f : A → SessionError + B) l bs :
  traverse f l = inr bs ↔ Forall2 (λ a b, f a = inr b) l bs.
Proof.
  revert bs; induction l as [|a l IH]; intros bs; cbn [traverse].
  - split; [by intros [= <-]|by intros ->%Forall2_nil_inv_l].
  - split.
    + intros (b & Hb & (bs' & Hbs%IH & [= <-])%bind_ok_inr)%bind_ok_inr; by constructor.
    + intros (b & bs' & Hb & Hbs & ->)%Forall2_cons_inv_l; apply bind_ok_inr; exists b; split; [done|].
      apply bind_ok_inr; exists bs'; split; [by apply IH|done].
Qed.

(** ** The ways a request is refused *)

Definition fails_in {A} (P : SessionError → Prop) (r : SessionError + A) : Prop := ∀ e, r = inl e → P e.

Section Refusals.

Context (P : SessionError → Prop) (Hinvalid : ∀ message, P (TeamSessionError INVALID_ARGUMENT message)).

Lemma fails_inr {A} (a : A) : fails_in P (inr a).
Proof. by intros e. Qed.

Lemma fails_invalid {A} message : fails_in P (@invalid A message).
Proof. intros e [= <-]; apply Hinvalid. Qed.

Lemma fails_bind {A B} (r : SessionError + A) (f : A → SessionError + B) :
  fails_in P r → (∀ a, fails_in P (f a)) → fails_in P (bind_ok r f).
Proof. intros Hr Hf e; destruct r; cbn; [intros [= <-]; by apply Hr|apply Hf]. Qed.

Lemma fails_each {A} (check : A → SessionError + unit) l : (∀ a, fails_in P (check a)) → fails_in P (each check l).
Proof. intros Hc; induction l; cbn [each]; [apply fails_inr|by apply fails_bind]. Qed.

Lemma fails_traverse {A B} (f : A → SessionError + B) l : (∀ a, fails_in P (f a)) → fails_in P (traverse f l).
Proof.
  intros Hf; induction l; cbn [traverse]; [apply fails_inr|].
  apply fails_bind; [done|]; intros b; apply fails_bind; [done|]; intros; apply fails_inr.
Qed.

End Refusals.

#[local] Hint Resolve fails_inr fails_invalid fails_bind fails_each fails_traverse : refusals.

(** A refusal is the client's fault, or passes on an outage of the preset store or
    the model catalog. *)
Definition refusal (a : Answers) (e : SessionError) : Prop :=
  match e with
  | TeamSessionError code _ => code = INVALID_ARGUMENT
  | OtherError message =>
      (∃ role id, an_preset a role id = PresetOutage message) ∨
      (∃ role provider, an_models a role provider = CatalogOutage message)
  end.

Lemma invalid_refusal {A} a message : fails_in (refusal a) (@invalid A message).
Proof. by apply fails_invalid. Qed.

#[local] Hint Resolve invalid_refusal : refusals.

Lemma presetId_refusal a name : fails_in (refusal a) (presetId name).
Proof. unfold presetId; destruct (parsePresetResource name) as [[? ?]|]; auto with refusals. Qed.

Lemma preset_refusal a name role : fails_in (refusal a) (validateMemberPreset a name role).
Proof.
  apply fails_bind; [apply presetId_refusal|]; intros id; destruct (an_preset a role id) as [view| |message] eqn:E.
  - case_bool_decide; auto with refusals.
  - auto with refusals.
  - intros e [= <-]; cbn; eauto.
Qed.

Lemma model_refusal a role selector : fails_in (refusal a) (validateModel a role selector).
Proof.
  apply fails_bind.
  - unfold parseModelIdentifier; destruct (cut_slash selector) as [[p m]|]; [destruct (_ || _)|]; auto with refusals.
  - intros route; destruct (an_models a role (rt_provider route)) as [models|message] eqn:E.
    + case_bool_decide; auto with refusals.
    + intros e [= <-]; cbn; eauto.
Qed.

Lemma configure_refusal scenes D session members a : fails_in (refusal a) (configure scenes D session members a).
Proof.
  unfold configure; destruct (parseSessionResource session) as [[template id]|]; [|auto with refusals].
  destruct (wiredScene scenes template) as [scene|]; [|auto with refusals].
  apply fails_bind; [|intros _; apply fails_bind; [|intros _; apply fails_bind; [|intros configured; apply fails_bind;
    [|intros _; apply fails_bind; [|auto with refusals]]]]].
  - unfold validateMemberStructure; case_bool_decide; [auto with refusals|]; apply fails_each; intros m.
    unfold check_structure; case_bool_decide; [auto with refusals|].
    destruct (parsePresetResource (mo_preset m)) as [[? ?]|]; [case_bool_decide|]; auto with refusals.
  - unfold validateSceneRoster; case_bool_decide; [auto with refusals|]; destruct (forallb _ _); auto with refusals.
  - apply fails_traverse; intros role; apply fails_bind; [|auto with refusals].
    unfold memberFor; destruct (list_find _ _) as [[? ?]|]; auto with refusals.
  - apply fails_each; intros m; apply preset_refusal.
  - apply fails_traverse; intros [role m]; apply fails_bind; [apply model_refusal|].
    intros route; apply fails_bind; [apply presetId_refusal|auto with refusals].
Qed.

(** ** Selectors *)

Lemma cut_slash_spec s a b : cut_slash s = Some (a, b) ↔ s = a +:+ "/" +:+ b ∧ cut_slash a = None.
Proof.
  revert a b; induction s as [|c s IH]; intros a b; cbn [cut_slash].
  - split; [done|]; intros [H _]; by destruct a.
  - case_bool_decide as Hc.
    + subst c; split; [by intros [= <- <-]|]; intros [H Ha]; destruct a as [|x a]; [by injection H as ->|].
      injection H as <- _; by vm_compute in Ha.
    + split.
      * intros ([a' b'] & H & [= -> ->])%fmap_Some; apply IH in H as [-> Ha].
        cbn; rewrite Ha; by rewrite bool_decide_eq_false_2.
      * intros [H Ha]; destruct a as [|x a]; injection H as -> H; [done|]; cbn in Ha.
        rewrite bool_decide_eq_false_2 in Ha by done; apply fmap_None in Ha.
        apply fmap_Some; exists (a, b); split; [by apply IH|done].
Qed.

(** A route is what its composite selector parses to. *)
Definition routes (selector provider model : string) : Prop :=
  selector = provider +:+ "/" +:+ model ∧ provider ≠ "" ∧ model ≠ "" ∧ cut_slash provider = None.

Lemma parse_selector selector r :
  parseModelIdentifier selector = inr r ↔ routes selector (rt_provider r) (rt_model r).
Proof.
  unfold parseModelIdentifier, routes; destruct (cut_slash selector) as [[p m]|] eqn:E.
  - pose proof E as [-> Hp]%cut_slash_spec; split.
    + destruct (bool_decide (p = "")) eqn:E1; [done|]; destruct (bool_decide (m = "")) eqn:E2; [done|].
      apply bool_decide_eq_false_1 in E1, E2; by intros [= <-].
    + intros (Heq & H1 & H2 & H3).
      assert (H : cut_slash (p +:+ "/" +:+ m) = Some (rt_provider r, rt_model r)) by (by apply cut_slash_spec).
      rewrite E in H; injection H as -> ->; rewrite !bool_decide_eq_false_2 by done; by destruct r.
  - split; [done|]; intros (Heq & _ & _ & H3).
    assert (H : cut_slash selector = Some (rt_provider r, rt_model r)) by (by apply cut_slash_spec); congruence.
Qed.

(** ** What is accepted *)

(** The configuration of one member, from its request and the answers. *)
Record configured (D : string) (a : Answers) (template : string) (m : TeamMemberOptions) (c : SceneMemberConfig) : Prop := {
  cf_role : sm_role c = mo_role m;
  cf_preset : parsePresetResource (mo_preset m) = Some (template, sm_preset c);
  cf_view : an_preset a (mo_role m) (sm_preset c) = PresetView (Some (mo_role m));
  cf_route : routes (effective_model D m) (sm_provider c) (sm_model c);
  cf_catalog : ∃ models, an_models a (mo_role m) (sm_provider c) = CatalogModels models ∧ sm_model c ∈ models;
}.

(** A well-formed request for the scene, and the configurations it gives. *)
Record acceptable (D : string) (a : Answers) (template : string) (scene : SceneSpec)
    (members : list TeamMemberOptions) (configs : list SceneMemberConfig) : Prop := {
  ac_members : members ≠ [];
  ac_named : Forall (λ m, mo_role m ≠ "") members;
  ac_roles : mo_role <$> members ≡ₚ roster scene;
  ac_order : sm_role <$> configs = roster scene;
  ac_configs : Forall (λ c, ∃ m, m ∈ members ∧ configured D a template m c) configs;
}.

Lemma structure_ok template members :
  validateMemberStructure members template = inr tt ↔
  members ≠ [] ∧ Forall (λ m, mo_role m ≠ "" ∧ ∃ id, parsePresetResource (mo_preset m) = Some (template, id)) members.
Proof.
  unfold validateMemberStructure; destruct members as [|m0 ms]; [cbn; naive_solver|].
  rewrite bool_decide_eq_false_2 by done; rewrite each_ok; split.
  - intros H; split; [done|]; eapply Forall_impl; [exact H|]; intros m; unfold check_structure; cbn.
    case_bool_decide; [done|]; destruct (parsePresetResource (mo_preset m)) as [[t id]|]; [|done].
    case_bool_decide; [|done]; subst; eauto.
  - intros [_ H]; eapply Forall_impl; [exact H|]; intros m [Hr [id Hid]]; unfold check_structure; cbn.
    by rewrite bool_decide_eq_false_2, Hid, bool_decide_eq_true_2.
Qed.

Lemma roster_ok template members scene :
  NoDup (roster scene) →
  validateSceneRoster members template scene = inr tt ↔ mo_role <$> members ≡ₚ roster scene.
Proof.
  intros Hnd; unfold validateSceneRoster; split.
  - destruct (decide (length members = length (roster scene))) as [Hl|Hl];
      [rewrite bool_decide_eq_false_2 by (by intros [])|by rewrite bool_decide_eq_true_2].
    destruct (forallb _ _) eqn:Hf; [intros _|done].
    symmetry; apply submseteq_length_Permutation; [|rewrite length_fmap; lia].
    apply NoDup_submseteq; [done|]; intros role Hr.
    apply Is_true_eq_left, forallb_True in Hf; rewrite Forall_forall in Hf; specialize (Hf role Hr).
    by apply bool_decide_unpack in Hf.
  - intros Hp; assert (Hl : length members = length (roster scene)) by (rewrite <- Hp; by rewrite length_fmap).
    rewrite bool_decide_eq_false_2 by (intros []; done).
    assert (forallb (λ role, bool_decide (role ∈ mo_role <$> members)) (roster scene) = true) as ->; [|done].
    apply Is_true_eq_true, forallb_True, Forall_forall; intros role Hr; apply bool_decide_pack; by rewrite Hp.
Qed.

Lemma memberFor_ok members role template m :
  NoDup (mo_role <$> members) →
  memberFor members role template = inr m ↔ m ∈ members ∧ mo_role m = role.
Proof.
  intros Hnd; unfold memberFor; destruct (list_find (λ m, mo_role m = role) members) as [[i m']|] eqn:E.
  - apply list_find_Some in E as (Hi & Hr & _); split.
    + intros [= <-]; split; [by eapply list_elem_of_lookup_2|done].
    + intros [(j & Hj)%list_elem_of_lookup Hm]; f_equal.
      assert (i = j) as <-; [|congruence].
      eapply NoDup_lookup; [exact Hnd|rewrite list_lookup_fmap, Hi; cbn; by rewrite Hr|rewrite list_lookup_fmap, Hj; cbn; by rewrite Hm].
  - apply list_find_None in E; split; [done|]; intros [Hm Hr]; rewrite Forall_forall in E; by destruct (E m Hm).
Qed.

Lemma configured_ok D a template role m c :
  mo_role m = role → (∃ id, parsePresetResource (mo_preset m) = Some (template, id)) →
  (validateMemberPreset a (mo_preset m) role = inr tt ∧ member_config D a (role, m) = inr c) ↔ configured D a template m c.
Proof.
  intros <- [id Hid]; unfold validateMemberPreset, member_config, validateModel, presetId; rewrite Hid; cbn [bind_ok].
  split.
  - intros [Hp (route & (r & Hr%parse_selector & Hc)%bind_ok_inr & Heq)%bind_ok_inr].
    destruct (an_preset a (mo_role m) id) as [view| |] eqn:Hv; [|done..]; case_bool_decide; [subst|done].
    destruct (an_models a (mo_role m) (rt_provider r)) as [models|] eqn:Hm; [|done]; case_bool_decide; [|done].
    simplify_eq; split; cbn; eauto.
  - intros [H1 H2 H3 H4 (models & H5 & H6)]; rewrite Hid in H2; injection H2 as H2.
    rewrite H2, H3, bool_decide_eq_true_2 by done; split; [done|].
    apply bind_ok_inr; exists (mkRoute (sm_provider c) (sm_model c)); split.
    + apply bind_ok_inr; exists (mkRoute (sm_provider c) (sm_model c)); split; [by apply parse_selector|]; cbn; by rewrite H5, bool_decide_eq_true_2.
    + cbn; rewrite <- H1; by destruct c.
Qed.

(** A role with its request, for the roster. *)
Definition paired (members : list TeamMemberOptions) (role : string) (p : string * TeamMemberOptions) : Prop :=
  p.1 = role ∧ p.2 ∈ members ∧ mo_role p.2 = role.

Lemma roles_ok members template roles cfg :
  NoDup (mo_role <$> members) →
  traverse (λ role, m ⇠ memberFor members role template; inr (role, m)) roles = inr cfg ↔
  Forall2 (paired members) roles cfg.
Proof.
  intros Hnd; rewrite traverse_ok.
  assert (H : ∀ role p, (m ⇠ memberFor members role template; inr (role, m)) = inr p ↔ paired members role p);
    [|split; intros HF; (eapply Forall2_impl; [exact HF|intros role p Hp; by apply H])].
  intros role [r m]; rewrite bind_ok_inr; unfold paired; cbn; split.
  - intros (m' & Hm & [= <- <-]); apply memberFor_ok in Hm; tauto.
  - intros (-> & Hm & Hr); exists m; split; [by apply memberFor_ok|done].
Qed.

Lemma configs_ok D a template cfg configs :
  Forall (λ p, mo_role p.2 = p.1 ∧ ∃ id, parsePresetResource (mo_preset p.2) = Some (template, id)) cfg →
  (each (λ m : string * TeamMemberOptions, validateMemberPreset a (mo_preset m.2) m.1) cfg = inr tt ∧
   traverse (member_config D a) cfg = inr configs) ↔ Forall2 (λ p c, configured D a template p.2 c) cfg configs.
Proof.
  intros Hp; rewrite each_ok, traverse_ok; revert configs; induction Hp as [|[role m] cfg [Hr Hid] Hp IH]; intros configs.
  - split; [intros [_ ->%Forall2_nil_inv_l]; constructor|intros ->%Forall2_nil_inv_l; auto].
  - cbn [fst snd] in Hr, Hid; split.
    + intros [[H1 H2]%Forall_cons (c & cs & H3 & H4 & ->)%Forall2_cons_inv_l]; constructor; [|by apply IH].
      by apply (configured_ok D a template role m c Hr Hid).
    + intros (c & cs & H3%(configured_ok D a template role m c Hr Hid) & H4%IH & ->)%Forall2_cons_inv_l.
      destruct H3, H4; split; by constructor.
Qed.

Lemma configs_roles D a template members roles cfg configs :
  Forall2 (paired members) roles cfg → Forall2 (λ p c, configured D a template p.2 c) cfg configs →
  sm_role <$> configs = roles ∧ Forall (λ c, ∃ m, m ∈ members ∧ configured D a template m c) configs.
Proof.
  intros H; revert configs; induction H as [|role p roles cfg (H1 & H2 & H3) H IH]; intros configs.
  - intros ->%Forall2_nil_inv_l; auto.
  - intros (c & cs & Hc & Hcs & ->)%Forall2_cons_inv_l; destruct (IH cs Hcs) as [<- Hall].
    rewrite fmap_cons, (cf_role _ _ _ _ _ Hc), H3; split; [done|]; constructor; eauto.
Qed.

Lemma roles_paired D a template members configs :
  Forall (λ c, ∃ m, m ∈ members ∧ configured D a template m c) configs →
  ∃ cfg, Forall2 (paired members) (sm_role <$> configs) cfg ∧ Forall2 (λ p c, configured D a template p.2 c) cfg configs.
Proof.
  induction 1 as [|c cs (m & Hm & Hc) _ (cfg & H1 & H2)]; [by exists []|].
  exists ((sm_role c, m) :: cfg); rewrite fmap_cons; split; constructor; auto.
  split; [done|]; split; [done|]; symmetry; apply Hc.
Qed.

Lemma paired_structure template members roles cfg :
  Forall (λ m, mo_role m ≠ "" ∧ ∃ id, parsePresetResource (mo_preset m) = Some (template, id)) members →
  Forall2 (paired members) roles cfg →
  Forall (λ p, mo_role p.2 = p.1 ∧ ∃ id, parsePresetResource (mo_preset p.2) = Some (template, id)) cfg.
Proof.
  intros Hs; induction 1 as [|role p roles cfg (H1 & H2 & H3) _ IH]; constructor; [|done].
  rewrite Forall_forall in Hs; split; [congruence|by apply Hs].
Qed.

(** Every member of an acceptable request is configured. *)
Lemma acceptable_structure D a template scene members configs :
  NoDup (roster scene) → acceptable D a template scene members configs →
  Forall (λ m, mo_role m ≠ "" ∧ ∃ id, parsePresetResource (mo_preset m) = Some (template, id)) members.
Proof.
  intros Hnd [H1 H2 H3 H4 H5]; rewrite !Forall_forall in *; intros m Hm; split; [by apply H2|].
  assert (Hr : mo_role m ∈ sm_role <$> configs) by (rewrite H4, <- H3; by apply list_elem_of_fmap_2).
  apply list_elem_of_fmap in Hr as (c & Hc & Hin); destruct (H5 c Hin) as (m' & Hm' & C).
  assert (m' = m) as ->; [|exists (sm_preset c); apply C].
  assert (Hnd' : NoDup (mo_role <$> members)) by by rewrite H3.
  apply list_elem_of_lookup in Hm as [i Hi], Hm' as [j Hj].
  assert (i = j) as <-; [|congruence].
  eapply NoDup_lookup; [exact Hnd'|rewrite list_lookup_fmap, Hi; done|rewrite list_lookup_fmap, Hj; cbn].
  by rewrite Hc, (cf_role _ _ _ _ _ C).
Qed.

(** A materialization request is accepted exactly when its session is of a wired
    scene, its members are the roster, each with a preset of the session's template
    that the store knows with the member's own role, and an effective model selector
    [provider/model] of that provider's catalog; the configurations are then those, in
    roster order.  Any other request is refused as an invalid argument, unless the
    store or the catalog is down, whose error is passed on. *)
Theorem configure_spec (scenes : SceneRegistry) (D session : string) (members : list TeamMemberOptions) (a : Answers)
    (Hnd : ∀ template scene, wiredScene scenes template = Some scene → NoDup (roster scene)) :
  (∀ template configs,
     configure scenes D session members a = inr (template, configs) ↔
     ∃ id scene, parseSessionResource session = Some (template, id) ∧ wiredScene scenes template = Some scene ∧
       acceptable D a template scene members configs) ∧
  ∀ e, configure scenes D session members a = inl e → refusal a e.
Proof.
  split; [|apply configure_refusal].
  intros template configs; unfold configure.
  destruct (parseSessionResource session) as [[t id]|]; [|split; [done|by intros (? & ? & ? & _)]].
  destruct (wiredScene scenes t) as [scene|] eqn:Hw; [|split; [done|intros (? & ? & [= -> ->] & ? & _); congruence]].
  specialize (Hnd _ _ Hw); split.
  - intros ([] & H1%structure_ok & ([] & H2%(roster_ok _ _ _ Hnd) & (cfg & H3 & ([] & H4 & (cs & H5 & [= <- <-])%bind_ok_inr)%bind_ok_inr)
      %bind_ok_inr)%bind_ok_inr)%bind_ok_inr.
    exists id, scene; split; [done|]; split; [done|].
    assert (Hnd' : NoDup (mo_role <$> members)) by by rewrite H2.
    apply (roles_ok _ _ _ _ Hnd') in H3; destruct H1 as [Hne Hst].
    pose proof (paired_structure _ _ _ _ Hst H3) as Hcfg.
    pose proof (proj1 (configs_ok D a t cfg cs Hcfg) (conj H4 H5)) as H6.
    destruct (configs_roles _ _ _ _ _ _ _ H3 H6); split; auto.
    eapply Forall_impl; [exact Hst|]; naive_solver.
  - intros (id' & scene' & [= <- <-] & Hw' & Hac); rewrite Hw in Hw'; injection Hw' as <-.
    pose proof (acceptable_structure _ _ _ _ _ _ Hnd Hac) as Hst; destruct Hac as [H1 H2 H3 H4 H5].
    assert (Hnd' : NoDup (mo_role <$> members)) by by rewrite H3.
    apply bind_ok_inr; exists tt; split; [by apply structure_ok|].
    apply bind_ok_inr; exists tt; split; [by apply roster_ok|].
    destruct (roles_paired _ _ _ _ _ H5) as (cfg & H6 & H7); rewrite H4 in H6.
    apply bind_ok_inr; exists cfg; split; [by apply roles_ok|].
    apply (configs_ok D a t cfg configs (paired_structure _ _ _ _ Hst H6)) in H7 as [H7 H8].
    apply bind_ok_inr; exists tt; split; [done|]; apply bind_ok_inr; exists configs; auto.
Qed.

(** ** Reading a member *)

(** The generation the attempt sampled is still the live one when it resumes. *)
Definition current_read (attempt : Attempt) (session : string) (g : nat) (e : TeamEntry) : Prop :=
  liveEntry (ar_before attempt) session = Some (g, e) ∧ fst <$> liveEntry (ar_after attempt) session = Some g.

(** The team was replaced while the attempt assembled the prompt. *)
Definition superseded (attempt : Attempt) (session : string) : Prop :=
  ∃ g e, liveEntry (ar_before attempt) session = Some (g, e) ∧ fst <$> liveEntry (ar_after attempt) session ≠ Some g.

Definition with_prompt (v : TeamMemberView) (prompt : string) : TeamMemberView :=
  mkMemberView (mv_name v) (mv_role v) (mv_preset v) (mv_model v) prompt.

Lemma requireEntry_live s session code g e :
  requireEntry s session code = inr (g, e) ↔ liveEntry s session = Some (g, e).
Proof. unfold requireEntry; destruct (liveEntry s session) as [r|]; split; by intros [= ->]. Qed.

Lemma member_reads_take session member attempts n :
  member_reads session member attempts n = member_reads session member (take n attempts) n.
Proof.
  revert attempts; induction n as [|n IH]; intros attempts; [by destruct attempts|].
  destruct attempts as [|attempt attempts]; [done|]; cbn [member_reads take]; by rewrite IH.
Qed.

Lemma member_reads_spec session member attempts n v :
  member_reads session member attempts n = inr v →
  ∃ i attempt g e m prompt, (i < n)%nat ∧ attempts !! i = Some attempt ∧ current_read attempt session g e ∧
    ar_handle attempt = true ∧ findAgentMember e member = Some m ∧ ar_prompt attempt = inr prompt ∧
    v = with_prompt (memberStateView e m) prompt ∧
    ∀ j attempt', (j < i)%nat → attempts !! j = Some attempt' → superseded attempt' session.
Proof.
  revert attempts; induction n as [|n IH]; intros attempts; [by destruct attempts|].
  destruct attempts as [|attempt attempts]; [done|]; cbn [member_reads].
  intros ([g e] & Hr%requireEntry_live & Hv)%bind_ok_inr; cbn [fst snd] in Hv.
  destruct (findAgentMember e member) as [m|] eqn:Hm; [|done].
  destruct (ar_handle attempt) eqn:Hh; [cbn [negb] in Hv|done].
  destruct (decide (fst <$> liveEntry (ar_after attempt) session = Some g)) as [Ha|Ha].
  - rewrite bool_decide_eq_true_2 in Hv by done; apply bind_ok_inr in Hv as (prompt & Hp & [= <-]).
    exists 0%nat, attempt, g, e, m, prompt; split; [lia|]; do 6 (split; [done|]); intros j; lia.
  - rewrite bool_decide_eq_false_2 in Hv by done.
    destruct (IH attempts Hv) as (i & att & g' & e' & m' & prompt & H1 & H2 & H3 & H4 & H5 & H6 & H7 & H8).
    exists (S i), att, g', e', m', prompt; split; [lia|]; do 6 (split; [done|]); intros [|j] att' Hj Hat.
    + injection Hat as <-; by exists g, e.
    + apply (H8 j); [lia|done].
Qed.

(** A member read looks at three attempts at most, and answers for one team: an
    announce-only member with the configuration of the live team, an agent with the
    configuration and prompt of a team that was live both when the attempt sampled it
    and when its prompt had been assembled, every earlier attempt having been
    overtaken by a refresh. *)
Theorem member_read_current (scenes : SceneRegistry) (s : Sessions) (session member : string) (attempts : list Attempt) :
  getTeamMember scenes s session member attempts = getTeamMember scenes s session member (take 3 attempts) ∧
  ∀ v, getTeamMember scenes s session member attempts = inr v →
    (∃ g e role, liveEntry s session = Some (g, e) ∧ findMember e member = Some (AnnounceRuntime role) ∧
       v = memberStateView e (AnnounceRuntime role)) ∨
    (∃ i attempt g e m prompt, (i < 3)%nat ∧ attempts !! i = Some attempt ∧ current_read attempt session g e ∧
       ar_handle attempt = true ∧ findAgentMember e member = Some m ∧ ar_prompt attempt = inr prompt ∧
       v = with_prompt (memberStateView e m) prompt ∧
       ∀ j attempt', (j < i)%nat → attempts !! j = Some attempt' → superseded attempt' session).
Proof.
  unfold getTeamMember; destruct (parseSessionResource session) as [[template id]|]; [|done].
  destruct (isMemberRole scenes member); [cbn [negb]|done].
  destruct (requireEntry s session NOT_FOUND) as [err|[g e]] eqn:Hr; [done|]; cbn [bind_ok fst snd].
  apply requireEntry_live in Hr.
  destruct (findMember e member) as [[role p m k|role]|] eqn:Hm; [| |done]; split; try done.
  - apply member_reads_take.
  - intros v Hv; right; by apply member_reads_spec.
  - intros v [= <-]; left; by exists g, e, role.
Qed.

(** ** Witnesses *)

Definition ask_members : list TeamMemberOptions :=
  [mkOptions "planner" "templates/saolei/presets/careful" (Some "p2/deep/m2");
   mkOptions "player" "templates/saolei/presets/fast" None].

Definition ask_answers : Answers :=
  mkAnswers (λ role id, if bool_decide (id = "broken") then PresetOutage "store down" else PresetView (Some role))
    (λ _ provider, CatalogModels (if bool_decide (provider = "p2") then ["deep/m2"] else ["m1"])).

Definition ask_configs : list SceneMemberConfig :=
  [mkConfig "player" "fast" "p1" "m1"; mkConfig "planner" "careful" "p2" "deep/m2"].

Lemma wired_rosters template scene : wiredScene SCENES template = Some scene → NoDup (roster scene).
Proof.
  unfold wiredScene, scene_of; destruct (list_find _ SCENES) as [[i s]|] eqn:E; cbn; [|done].
  apply list_find_Some in E as (Hi & _ & _).
  assert (Hin : s ∈ SCENES) by by eapply list_elem_of_lookup_2.
  unfold SCENES in Hin; rewrite !elem_of_cons in Hin; destruct Hin as [->|[->|[]%elem_of_nil]]; intros [= <-];
    apply (bool_decide_unpack _); vm_compute; exact I.
Qed.

Lemma configure_spec_witness :
  configure SCENES "p1/m1" "templates/saolei/sessions/s1" ask_members ask_answers = inr ("saolei", ask_configs) ∧
  ∃ scene, wiredScene SCENES "saolei" = Some scene ∧ acceptable "p1/m1" ask_answers "saolei" scene ask_members ask_configs.
Proof.
  assert (H : configure SCENES "p1/m1" "templates/saolei/sessions/s1" ask_members ask_answers = inr ("saolei", ask_configs)) by vm_refl.
  split; [done|].
  destruct (proj1 (configure_spec SCENES "p1/m1" "templates/saolei/sessions/s1" ask_members ask_answers wired_rosters)
    "saolei" ask_configs) as [Hf _].
  destruct (Hf H) as (id & scene & _ & Hw & Hac); by exists scene.
Defined.
