(* ===== verification/LlmStream.v ===== *)
(** * The stream a model adapter yields

    The vocabulary of chunks both model adapters translate into, and the protocol
    their consumers rely on, as an automaton: blocks are numbered in the order they
    start, grow by deltas of their own kind, end once with what the deltas gave, and
    usage then finish close the stream. *)

From S2P Require Import Prelude.

#[local] Open Scope Z_scope.

(** ** Chunks *)

Inductive BlockKind : Type := KReasoning | KText | KToolCall.

#[export] Instance BlockKind_eq_dec : EqDecision BlockKind.
Proof. solve_decision. Defined.

(** The blocks an adapter assembles, and the others a message may hold. *)
Inductive ContentBlock : Type :=
| ReasoningContent (text : string)
| TextContent (text : string)
| ToolCallContent (id name arguments : string)
| OtherContent (type : string).

Record TokenUsage : Type := mkUsage {
  inputTokens : Z;
  outputTokens : Z;
  reasoningTokens : option Z;
}.

Record LlmFailure : Type := mkLlmFailure { lf_message : string; lf_code : string }.

Inductive FinishReason : Type :=
| FinishStop
| FinishToolCalls
| FinishMaxTokens
| FinishError (failure : LlmFailure)
| FinishAborted (failure : LlmFailure).

Inductive StreamChunk : Type :=
| BlockStart (index : Z) (kind : BlockKind)
| TextDelta (index : Z) (text : string)
| ReasoningDelta (index : Z) (text : string)
| ToolCallDelta (index : Z) (id : string) (name : option string) (argumentsDelta : string)
| BlockEnd (index : Z) (block : ContentBlock)
| UsageChunk (usage : TokenUsage)
| Finish (reason : FinishReason).

(** A typed failure of a model call. *)
Record LlmError : Type := mkLlmError { le_message : string; le_code : string }.

(** ** The protocol *)

Record BlockState : Type := mkBlockState { bk_kind : BlockKind; bk_text : string; bk_ended : bool }.

Record Protocol : Type := mkProtocol {
  pr_blocks : list BlockState;
  pr_usage : bool;
  pr_finish : option FinishReason;
}.

Definition protocol_start : Protocol := mkProtocol [] false None.

Definition set_block (p : Protocol) (i : nat) (b : BlockState) : Protocol :=
  mkProtocol (<[i := b]> (pr_blocks p)) (pr_usage p) (pr_finish p).

(** A delta of the kind [k] reaches an open block of that kind. *)
Definition grow_block (p : Protocol) (index : Z) (k : BlockKind) (text : string) : option Protocol :=
  b ← zget (pr_blocks p) index;
  if bool_decide (bk_kind b = k) && negb (bk_ended b)
  then Some (set_block p (Z.to_nat index) (mkBlockState k (bk_text b +:+ text) false)) else None.

(** The assembled block holds what the deltas gave; the arguments of a call that had
    no delta may come with its end. *)
Definition assembles (b : BlockState) (c : ContentBlock) : bool :=
  match bk_kind b, c with
  | KReasoning, ReasoningContent text => bool_decide (text = bk_text b)
  | KText, TextContent text => bool_decide (text = bk_text b)
  | KToolCall, ToolCallContent _ _ arguments => bool_decide (bk_text b = "") || bool_decide (arguments = bk_text b)
  | _, _ => false
  end.

Definition protocol_step (p : Protocol) (c : StreamChunk) : option Protocol :=
  match pr_finish p, c with
  | Some _, _ => None
  | None, Finish reason => Some (mkProtocol (pr_blocks p) (pr_usage p) (Some reason))
  | None, _ =>
      if pr_usage p then None
      else
        match c with
        | BlockStart index kind =>
            if index =? Z.of_nat (length (pr_blocks p))
            then Some (mkProtocol (pr_blocks p ++ [mkBlockState kind "" false]) false None) else None
        | TextDelta index text => grow_block p index KText text
        | ReasoningDelta index text => grow_block p index KReasoning text
        | ToolCallDelta index _ _ text => grow_block p index KToolCall text
        | BlockEnd index block =>
            b ← zget (pr_blocks p) index;
            if negb (bk_ended b) && assembles b block
            then Some (set_block p (Z.to_nat index) (mkBlockState (bk_kind b) (bk_text b) true)) else None
        | UsageChunk _ => Some (mkProtocol (pr_blocks p) true None)
        | Finish _ => None
        end
  end.

(** Where a sequence of chunks leads, when it keeps to the protocol. *)
Definition protocol_run (cs : list StreamChunk) : option Protocol := foldM protocol_step protocol_start cs.

Definition is_tool (b : BlockState) : bool := bool_decide (bk_kind b = KToolCall).

(** The deltas of one block, concatenated. *)
Definition chunk_text (i : Z) (c : StreamChunk) : string :=
  match c with
  | TextDelta index text | ReasoningDelta index text | ToolCallDelta index _ _ text => if index =? i then text else ""
  | _ => ""
  end.

Definition is_finish (c : StreamChunk) : bool := match c with Finish _ => true | _ => false end.

(** ** Facts *)

Lemma protocol_run_app cs cs' : protocol_run (cs ++ cs') = p ← protocol_run cs; foldM protocol_step p cs'.
Proof. apply foldM_app. Qed.

Lemma zget_nat {A} (l : list A) (i : nat) : zget l (Z.of_nat i) = l !! i.
Proof. unfold zget; rewrite Nat2Z.id; by destruct (Z.leb_spec 0 (Z.of_nat i)); [|lia]. Qed.

Lemma grow_block_spec p i k text s :
  pr_blocks p !! i = Some (mkBlockState k s false) →
  grow_block p (Z.of_nat i) k text = Some (set_block p i (mkBlockState k (s +:+ text) false)).
Proof. intros H; unfold grow_block; rewrite zget_nat, H; cbn; by rewrite bool_decide_eq_true_2, Nat2Z.id. Qed.

Lemma step_end bs i b c :
  bs !! i = Some b → bk_ended b = false → assembles b c = true →
  protocol_step (mkProtocol bs false None) (BlockEnd (Z.of_nat i) c) =
    Some (mkProtocol (<[i := mkBlockState (bk_kind b) (bk_text b) true]> bs) false None).
Proof.
  intros Hb He Ha; unfold protocol_step; cbn [pr_finish pr_usage pr_blocks]; rewrite zget_nat, Hb; cbn [mbind option_bind].
  by rewrite He, Ha, Nat2Z.id.
Qed.

Lemma finished_stuck p c r : pr_finish p = Some r → protocol_step p c = None.
Proof. intros H; unfold protocol_step; by rewrite H. Qed.

(** Nothing follows a finish, and there is one at most. *)
Lemma finish_last cs p : protocol_run cs = Some p → ∀ r, pr_finish p = Some r →
  ∃ cs', cs = cs' ++ [Finish r] ∧ Forall (λ c, is_finish c = false) cs'.
Proof.
  assert (Hnone : ∀ cs p, protocol_run cs = Some p → pr_finish p = None → Forall (λ c, is_finish c = false) cs).
  { clear; induction cs as [|c cs IH] using rev_ind; [constructor|]; intros p.
    rewrite protocol_run_app; intros (p0 & H0 & Hs)%bind_Some Hp; cbn [foldM] in Hs.
    apply bind_Some in Hs as (p1 & Hs & [= ->]).
    destruct (pr_finish p0) as [r0|] eqn:E; [by rewrite (finished_stuck _ _ _ E) in Hs|].
    apply Forall_app; split; [by eapply IH|]; constructor; [|constructor].
    destruct c; try done; unfold protocol_step in Hs; rewrite E in Hs; by injection Hs as <-. }
  induction cs as [|c cs _] using rev_ind; [by intros [= <-]|]; intros H r Hr.
  rewrite protocol_run_app in H; apply bind_Some in H as (p0 & H0 & Hs); cbn [foldM] in Hs.
  apply bind_Some in Hs as (p1 & Hs & [= ->]).
  destruct (pr_finish p0) as [r0|] eqn:E; [by rewrite (finished_stuck _ _ _ E) in Hs|].
  exists cs; split; [|by eapply Hnone]; f_equal.
  unfold protocol_step in Hs; rewrite E in Hs.
  destruct c; repeat case_match; try discriminate Hs; try (apply bind_Some in Hs as (? & ? & Hs); repeat case_match; try discriminate Hs);
    unfold grow_block in *; try (apply bind_Some in Hs as (? & ? & Hs); repeat case_match; try discriminate Hs);
    try (injection Hs as <-; cbn in Hr; congruence).
Qed.
