(* ===== verification/GlmWire.v ===== *)
(** * The Responses wire (llm-glm: wire.ts)

    The translator of one response stream.  The event-source parser is third-party:
    a feed comes with the messages it completes.  A payload is what [JSON.parse]
    gives for the data of a message, read at the shapes the wire declares. *)

From S2P Require Import Prelude LlmStream.

#[local] Open Scope Z_scope.

(** ** The wire *)

Record ResponsesOutputItem : Type := mkItem {
  it_type : option string;
  it_call_id : option string;
  it_name : option string;
  it_arguments : option string;
}.

Record ResponsesUsage : Type := mkResponsesUsage {
  input_tokens : option Z;
  output_tokens : option Z;
  reasoning_tokens : option Z;
}.

(** A code is a string or something else. *)
Record ResponsesErrorView : Type := mkResponsesError { re_code : option string; re_message : option string }.

Record ResponsesResponse : Type := mkResponse {
  rs_error : option ResponsesErrorView;
  rs_usage : option ResponsesUsage;
}.

Inductive ResponsesStreamEvent : Type :=
| ResponseLifecycle
| OutputItemAdded (output_index : Z) (item : ResponsesOutputItem)
| OutputItemDone (output_index : Z) (item : ResponsesOutputItem)
| ReasoningSummaryPartAdded (output_index : Z) (part : option string)
| ReasoningSummaryTextDelta (output_index : Z) (delta : string)
| ReasoningTextDelta (output_index : Z) (delta : string)
| ContentPartAdded (output_index : Z) (part : option string)
| ContentPartDone (output_index : Z)
| OutputTextDelta (output_index : Z) (delta : string)
| FunctionCallArgumentsDelta (output_index : Z) (delta : string)
| ResponseCompleted (response : option ResponsesResponse)
| ResponseIncomplete (response : option ResponsesResponse)
| ResponseFailed (response : option ResponsesResponse)
| ErrorEvent (code message : option string)
| UnknownEvent.

(** The payload of a message: its own type, when that is a string, and the event it
    is under a given type. *)
Record Payload : Type := mkPayload { pl_type : option string; pl_event : string → ResponsesStreamEvent }.

Inductive SseData : Type :=
| BlankData
| MalformedData
| JsonData (payload : Payload).

Record SseMessage : Type := mkSse { sse_event : option string; sse_data : SseData }.

(** ** State *)

Record WireBlock : Type := mkWireBlock {
  wb_index : Z;
  wb_kind : BlockKind;
  wb_callId : option string;
  wb_name : option string;
  wb_text : string;
  wb_ended : bool;
}.

Record ResponsesWire : Type := mkResponsesWire {
  rw_blocks : gmap Z WireBlock;
  rw_pending : list StreamChunk;
  rw_nextIndex : Z;
  rw_finished : bool;
  rw_sawToolCall : bool;
  rw_usage : option TokenUsage;
}.

Definition createResponsesWire : ResponsesWire := mkResponsesWire ∅ [] 0 false false None.

Definition push (w : ResponsesWire) (c : StreamChunk) : ResponsesWire :=
  mkResponsesWire (rw_blocks w) (rw_pending w ++ [c]) (rw_nextIndex w) (rw_finished w) (rw_sawToolCall w) (rw_usage w).

Definition put_block (w : ResponsesWire) (outputIndex : Z) (b : WireBlock) : ResponsesWire :=
  mkResponsesWire (<[outputIndex := b]> (rw_blocks w)) (rw_pending w) (rw_nextIndex w) (rw_finished w)
    (rw_sawToolCall w) (rw_usage w).

Definition set_usage (w : ResponsesWire) (u : option TokenUsage) : ResponsesWire :=
  mkResponsesWire (rw_blocks w) (rw_pending w) (rw_nextIndex w) (rw_finished w) (rw_sawToolCall w) u.

(** ** Blocks *)

Definition startBlock (w : ResponsesWire) (outputIndex : Z) (kind : BlockKind) (item : option ResponsesOutputItem)
    : ResponsesWire :=
  if rw_finished w || bool_decide (is_Some (rw_blocks w !! outputIndex)) then w
  else
    let block := mkWireBlock (rw_nextIndex w) kind (item ≫= it_call_id) (item ≫= it_name) "" false in
    push (mkResponsesWire (<[outputIndex := block]> (rw_blocks w)) (rw_pending w) (rw_nextIndex w + 1)
            (rw_finished w) (rw_sawToolCall w || bool_decide (kind = KToolCall)) (rw_usage w))
      (BlockStart (wb_index block) kind).

Definition delta_chunk (b : WireBlock) (fragment : string) : StreamChunk :=
  match wb_kind b with
  | KToolCall => ToolCallDelta (wb_index b) (default "" (wb_callId b)) None fragment
  | KText => TextDelta (wb_index b) fragment
  | KReasoning => ReasoningDelta (wb_index b) fragment
  end.

Definition delta (w : ResponsesWire) (outputIndex : Z) (kind : BlockKind) (fragment : string) : ResponsesWire :=
  if rw_finished w then w
  else
    let w := match rw_blocks w !! outputIndex with
             | None => startBlock w outputIndex kind None
             | Some _ => w
             end in
    match rw_blocks w !! outputIndex with
    | None => w
    | Some b =>
        if wb_ended b || bool_decide (wb_kind b ≠ kind) then w
        else
          let b := mkWireBlock (wb_index b) (wb_kind b) (wb_callId b) (wb_name b) (wb_text b +:+ fragment) (wb_ended b) in
          push (put_block w outputIndex b) (delta_chunk b fragment)
    end.

Definition assembledBlock (b : WireBlock) (item : option ResponsesOutputItem) : ContentBlock :=
  match wb_kind b with
  | KReasoning => ReasoningContent (wb_text b)
  | KText => TextContent (wb_text b)
  | KToolCall =>
      ToolCallContent
        (match wb_callId b with Some id => id | None => default "" (item ≫= it_call_id) end)
        (match wb_name b with Some name => name | None => default "" (item ≫= it_name) end)
        (if bool_decide (wb_text b = "") then default "" (item ≫= it_arguments) else wb_text b)
  end.

Definition endBlock (w : ResponsesWire) (outputIndex : Z) (item : option ResponsesOutputItem) : ResponsesWire :=
  if rw_finished w then w
  else
    match rw_blocks w !! outputIndex with
    | None => w
    | Some b =>
        if wb_ended b then w
        else
          let b := mkWireBlock (wb_index b) (wb_kind b) (wb_callId b) (wb_name b) (wb_text b) true in
          push (put_block w outputIndex b) (BlockEnd (wb_index b) (assembledBlock b item))
    end.

(** ** The end of the stream *)

Definition extractUsage (response : option ResponsesResponse) : option TokenUsage :=
  u ← response ≫= rs_usage;
  Some (mkUsage (default 0 (input_tokens u)) (default 0 (output_tokens u)) (reasoning_tokens u)).

Definition flushFinish (w : ResponsesWire) (reason : FinishReason) : ResponsesWire :=
  let w := match rw_usage w with
           | Some usage => set_usage (push w (UsageChunk usage)) None
           | None => w
           end in
  let w := push w (Finish reason) in
  mkResponsesWire (rw_blocks w) (rw_pending w) (rw_nextIndex w) true (rw_sawToolCall w) (rw_usage w).

Definition failureOf (response : option ResponsesResponse) (fallback : option ResponsesErrorView) : LlmFailure :=
  match response ≫= rs_error, fallback with
  | Some error, _ | None, Some error =>
      mkLlmFailure (default "GLM Responses stream failed" (re_message error)) (default "UNKNOWN" (re_code error))
  | None, None => mkLlmFailure "GLM Responses stream failed" "UNKNOWN"
  end.

Definition EMPTY_RESPONSE_CODE : string := "EMPTY_RESPONSE".

Definition emptyCompletionFinish : FinishReason :=
  FinishError (mkLlmFailure "GLM Responses stream finished without any content blocks" EMPTY_RESPONSE_CODE).

(** A completion flushes what it carries; without blocks it is an error. *)
Definition complete (w : ResponsesWire) (response : option ResponsesResponse) (reason : FinishReason) : ResponsesWire :=
  let w := set_usage w (extractUsage response) in
  if bool_decide (rw_blocks w = ∅) then flushFinish w emptyCompletionFinish else flushFinish w reason.

(** ** Events *)

Definition item_kind (item : ResponsesOutputItem) : option BlockKind :=
  type ← it_type item;
  if bool_decide (type = "reasoning") then Some KReasoning
  else if bool_decide (type = "message") then Some KText
  else if bool_decide (type = "function_call") then Some KToolCall
  else None.

Definition mapEvent (w : ResponsesWire) (evt : ResponsesStreamEvent) : ResponsesWire :=
  if rw_finished w then w
  else
    match evt with
    | ResponseLifecycle | UnknownEvent => w
    | OutputItemAdded i item =>
        match item_kind item with Some kind => startBlock w i kind (Some item) | None => w end
    | ReasoningSummaryPartAdded i part =>
        if bool_decide (part = Some "summary_text") then startBlock w i KReasoning None else w
    | ReasoningSummaryTextDelta i d | ReasoningTextDelta i d => delta w i KReasoning d
    | ContentPartAdded i part => if bool_decide (part = Some "output_text") then startBlock w i KText None else w
    | OutputTextDelta i d => delta w i KText d
    | FunctionCallArgumentsDelta i d => delta w i KToolCall d
    | OutputItemDone i item => endBlock w i (Some item)
    | ContentPartDone i => endBlock w i None
    | ResponseCompleted r => complete w r (if rw_sawToolCall w then FinishToolCalls else FinishStop)
    | ResponseIncomplete r => complete w r FinishMaxTokens
    | ResponseFailed r => flushFinish w (FinishError (failureOf r None))
    | ErrorEvent code message => flushFinish w (FinishError (failureOf None (Some (mkResponsesError code message))))
    end.

(** ** Feeding *)

Definition malformed : LlmError :=
  mkLlmError "GLM Responses stream carried a malformed event payload" "MALFORMED_RESPONSE".

(** The messages of one feed; a malformed payload leaves the loop. *)
Fixpoint feed_messages (w : ResponsesWire) (messages : list SseMessage) : ResponsesWire * option LlmError :=
  match messages with
  | [] => (w, None)
  | m :: messages =>
      if rw_finished w then (w, None)
      else
        match sse_data m with
        | BlankData => feed_messages w messages
        | MalformedData => (w, Some malformed)
        | JsonData payload =>
            match (match pl_type payload with Some type => Some type | None => sse_event m end) with
            | None => feed_messages w messages
            | Some type => feed_messages (mapEvent w (pl_event payload type)) messages
            end
        end
  end.

(** [feed]: the chunks produced, or the error; after an error they stay pending. *)
Definition feed (w : ResponsesWire) (messages : list SseMessage) : ResponsesWire * (LlmError + list StreamChunk) :=
  match feed_messages w messages with
  | (w, Some err) => (w, inl err)
  | (w, None) =>
      (mkResponsesWire (rw_blocks w) [] (rw_nextIndex w) (rw_finished w) (rw_sawToolCall w) (rw_usage w), inr (rw_pending w))
  end.

(** A stream of feeds, up to the first error. *)
Fixpoint feeds (w : ResponsesWire) (batches : list (list SseMessage)) : ResponsesWire * list StreamChunk * option LlmError :=
  match batches with
  | [] => (w, [], None)
  | messages :: batches =>
      match feed w messages with
      | (w, inl err) => (w, [], Some err)
      | (w, inr chunks) =>
          let '(w, rest, err) := feeds w batches in (w, chunks ++ rest, err)
      end
  end.

(** ** Facts about the Responses wire

    Whatever the provider sends, the chunks keep to the protocol of [LlmStream]; how
    the stream is cut into feeds does not matter. *)

(** ** The wire simulates the protocol *)

(** What the finish reason says of the blocks. *)
Definition reason_ok (bs : list BlockState) (r : FinishReason) : Prop :=
  match r with
  | FinishStop => bs ≠ [] ∧ existsb is_tool bs = false
  | FinishToolCalls => existsb is_tool bs = true
  | FinishMaxTokens => bs ≠ []
  | _ => True
  end.

Definition block_state (b : WireBlock) : BlockState := mkBlockState (wb_kind b) (wb_text b) (wb_ended b).

Record sim (w : ResponsesWire) (p : Protocol) : Prop := {
  sm_finished : rw_finished w = bool_decide (is_Some (pr_finish p));
  sm_next : rw_nextIndex w = Z.of_nat (length (pr_blocks p));
  sm_blocks : ∀ key b, rw_blocks w !! key = Some b →
    ∃ i, wb_index b = Z.of_nat i ∧ pr_blocks p !! i = Some (block_state b);
  sm_inj : ∀ key key' b b', rw_blocks w !! key = Some b → rw_blocks w !! key' = Some b' →
    wb_index b = wb_index b' → key = key';
  sm_empty : rw_blocks w = ∅ ↔ pr_blocks p = [];
  sm_tool : rw_sawToolCall w = existsb is_tool (pr_blocks p);
  sm_usage : rw_finished w = false → pr_usage p = false;
  sm_reason : ∀ r, pr_finish p = Some r → reason_ok (pr_blocks p) r;
}.

(** The chunks [out] were delivered; those pending keep to the protocol. *)
Definition tracks (out : list StreamChunk) (w : ResponsesWire) : Prop :=
  rw_usage w = None ∧ ∃ p, protocol_run (out ++ rw_pending w) = Some p ∧ sim w p.

Lemma sim_push w p c p' w' out :
  protocol_run (out ++ rw_pending w) = Some p → protocol_step p c = Some p' →
  rw_pending w' = rw_pending w ++ [c] → protocol_run (out ++ rw_pending w') = Some p'.
Proof.
  intros H Hs ->; rewrite app_assoc, protocol_run_app, H; cbn; by rewrite Hs.
Qed.

Lemma open_protocol w p :
  sim w p → rw_finished w = false → pr_finish p = None ∧ pr_usage p = false.
Proof.
  intros Hs Hf; split; [|by apply Hs]; rewrite (sm_finished _ _ Hs) in Hf; apply bool_decide_eq_false in Hf.
  by apply eq_None_not_Some.
Qed.

Lemma existsb_snoc {A} (f : A → bool) l a : existsb f (l ++ [a]) = existsb f l || f a.
Proof. rewrite existsb_app; cbn; by rewrite orb_false_r. Qed.

Lemma existsb_insert {A} (f : A → bool) l i a a' :
  l !! i = Some a → f a' = f a → existsb f (<[i := a']> l) = existsb f l.
Proof.
  revert i; induction l as [|x l IH]; intros [|i] Hi Hf; [done..| |]; cbn in Hi |- *.
  - injection Hi as ->; by rewrite Hf.
  - by rewrite IH.
Qed.

Lemma tracks_start out w key kind item : tracks out w → tracks out (startBlock w key kind item).
Proof.
  intros [Hu (p & Hp & Hs)]; unfold startBlock; destruct (rw_finished w) eqn:Hf; [by split; eauto|]; cbn [orb].
  destruct (rw_blocks w !! key) as [b0|] eqn:Hk; [by rewrite bool_decide_eq_true_2; [split; eauto|eauto]|].
  rewrite bool_decide_eq_false_2 by (by intros [? ?]).
  destruct (open_protocol w p Hs Hf) as [Hfin Hus]; split; [done|].
  set (nb := mkBlockState kind "" false).
  exists (mkProtocol (pr_blocks p ++ [nb]) false None); split.
  - eapply sim_push; [exact Hp| |done]; unfold protocol_step; rewrite Hfin, Hus; cbn [wb_index].
    by rewrite (sm_next _ _ Hs), Z.eqb_refl.
  - pose proof (sm_next _ _ Hs) as Hn; split; cbn; try done.
    + rewrite length_app; cbn; lia.
    + intros k b [[<- <-]|[Hne Hb]]%lookup_insert_Some.
      * exists (length (pr_blocks p)); cbn; split; [done|]; by rewrite lookup_app_r, Nat.sub_diag by lia.
      * destruct (sm_blocks _ _ Hs k b Hb) as (i & Hi & Hbi); exists i; split; [done|]; by apply lookup_app_l_Some.
    + assert (Hlt : ∀ k b, rw_blocks w !! k = Some b → wb_index b < rw_nextIndex w).
      { intros k b Hb; destruct (sm_blocks _ _ Hs k b Hb) as (i & Hi & Hbi); apply lookup_lt_Some in Hbi; lia. }
      intros k k' b b' [[<- <-]|[Hne Hb]]%lookup_insert_Some [[<- <-]|[Hne' Hb']]%lookup_insert_Some; cbn; intros Hi; try done.
      * specialize (Hlt _ _ Hb'); lia.
      * specialize (Hlt _ _ Hb); lia.
      * by eapply (sm_inj _ _ Hs).
    + split; [intros H; by apply insert_non_empty in H|by intros []%app_nil].
    + rewrite existsb_snoc, <- (sm_tool _ _ Hs); f_equal.
Qed.

(** A block of the wire changes, and the block of the protocol with it. *)
Lemma tracks_put out w key b b' c p :
  rw_usage w = None → protocol_run (out ++ rw_pending w) = Some p → sim w p → rw_finished w = false →
  rw_blocks w !! key = Some b → wb_index b' = wb_index b → wb_kind b' = wb_kind b →
  (∀ i, wb_index b = Z.of_nat i → pr_blocks p !! i = Some (block_state b) →
     protocol_step p c = Some (set_block p i (block_state b'))) →
  tracks out (push (put_block w key b') c).
Proof.
  intros Hu Hp Hs Hf Hb Hidx Hkind Hstep; split; [done|].
  destruct (sm_blocks _ _ Hs key b Hb) as (i & Hi & Hbi); destruct (open_protocol w p Hs Hf) as [Hfin Hus].
  exists (set_block p i (block_state b')); split; [eapply sim_push; eauto|].
  split; cbn.
  - by rewrite Hf, Hfin.
  - rewrite length_insert; apply Hs.
  - intros k x [[<- <-]|[Hne Hx]]%lookup_insert_Some.
    + exists i; split; [congruence|]; apply list_lookup_insert_eq; by eapply lookup_lt_Some.
    + destruct (sm_blocks _ _ Hs k x Hx) as (j & Hj & Hxj); exists j; split; [done|].
      rewrite list_lookup_insert_ne; [done|]; intros <-; apply Hne; eapply (sm_inj _ _ Hs); eauto; congruence.
  - intros k k' x x' [[<- <-]|[Hne Hx]]%lookup_insert_Some [[<- <-]|[Hne' Hx']]%lookup_insert_Some HH; try done.
    + by eapply (sm_inj _ _ Hs); [exact Hb|exact Hx'|congruence].
    + by eapply (sm_inj _ _ Hs); [exact Hx|exact Hb|congruence].
    + by eapply (sm_inj _ _ Hs).
  - split; [intros H; by apply insert_non_empty in H|].
    intros H; apply (f_equal length) in H; rewrite length_insert in H; apply nil_length_inv in H.
    by rewrite H in Hbi.
  - rewrite (existsb_insert is_tool (pr_blocks p) i (block_state b) (block_state b') Hbi); [apply Hs|].
    unfold is_tool, block_state; cbn [bk_kind]; by rewrite Hkind.
  - done.
  - rewrite Hfin; done.
Qed.

Lemma tracks_delta out w key kind fragment : tracks out w → tracks out (delta w key kind fragment).
Proof.
  intros H; unfold delta; destruct (rw_finished w) eqn:Hf; [done|].
  set (w1 := match rw_blocks w !! key with None => startBlock w key kind None | Some _ => w end).
  assert (H1 : tracks out w1) by (unfold w1; destruct (rw_blocks w !! key); [done|by apply tracks_start]).
  assert (Hf1 : rw_finished w1 = false).
  { unfold w1; destruct (rw_blocks w !! key); [done|]; unfold startBlock; by destruct (_ || _). }
  destruct (rw_blocks w1 !! key) as [b|] eqn:Hb; [|done].
  destruct (wb_ended b) eqn:He; [done|]; cbn [orb].
  destruct (decide (wb_kind b = kind)) as [Hk|Hk];
    [rewrite bool_decide_eq_false_2 by (by intros [])|by rewrite bool_decide_eq_true_2].
  destruct H1 as [Hu (p & Hp & Hs)]; eapply tracks_put; eauto; [done..|].
  intros i Hi Hbi; destruct (open_protocol w1 p Hs Hf1) as [Hfin Hus].
  unfold delta_chunk; cbn [wb_kind wb_index]; unfold protocol_step; rewrite Hfin, Hus, Hi.
  unfold block_state in Hbi; rewrite He in Hbi; destruct (wb_kind b) eqn:Ek; rewrite (grow_block_spec p i _ _ _ Hbi);
    done.
Qed.

Lemma assembled_ok b item : assembles (block_state b) (assembledBlock b item) = true.
Proof.
  unfold assembles, assembledBlock, block_state; cbn [bk_kind bk_text].
  destruct (wb_kind b); try by rewrite bool_decide_eq_true_2.
  case_bool_decide; [done|]; by rewrite bool_decide_eq_true_2.
Qed.

Lemma tracks_end out w key item : tracks out w → tracks out (endBlock w key item).
Proof.
  intros H; unfold endBlock; destruct (rw_finished w) eqn:Hf; [done|].
  destruct (rw_blocks w !! key) as [b|] eqn:Hb; [|done]; destruct (wb_ended b) eqn:He; [done|].
  destruct H as [Hu (p & Hp & Hs)]; eapply tracks_put; eauto; [done..|].
  intros i Hi Hbi; destruct (open_protocol w p Hs Hf) as [Hfin Hus].
  destruct p as [bs us fin]; cbn [pr_finish pr_usage pr_blocks] in Hfin, Hus, Hbi; subst fin us; cbn [wb_index]; rewrite Hi.
  set (b1 := mkWireBlock (Z.of_nat i) (wb_kind b) (wb_callId b) (wb_name b) (wb_text b) true).
  exact (step_end bs i (block_state b) _ Hbi He (assembled_ok b1 item)).
Qed.

(** Usage, when there is one, then the finish. *)
Lemma tracks_flush out w r p u :
  protocol_run (out ++ rw_pending w) = Some p → sim w p → rw_finished w = false → reason_ok (pr_blocks p) r →
  tracks out (flushFinish (set_usage w u) r).
Proof.
  intros Hp Hs Hf Hr; destruct (open_protocol w p Hs Hf) as [Hfin Hus].
  set (usage := match u with Some _ => true | None => false end).
  assert (H1 : protocol_run (out ++ rw_pending w ++ (match u with Some x => [UsageChunk x] | None => [] end)) =
    Some (mkProtocol (pr_blocks p) usage None)).
  { destruct u as [x|]; cbn [usage].
    - rewrite app_assoc, protocol_run_app, Hp; cbn; unfold protocol_step; by rewrite Hfin, Hus.
    - rewrite app_nil_r, Hp; unfold usage; destruct p as [bs us fin]; cbn in Hfin, Hus; by subst. }
  split; [by destruct u|].
  exists (mkProtocol (pr_blocks p) usage (Some r)); split.
  - replace (rw_pending (flushFinish (set_usage w u) r))
      with ((rw_pending w ++ (match u with Some x => [UsageChunk x] | None => [] end)) ++ [Finish r])
      by (destruct u; cbn; by rewrite ?app_nil_r).
    rewrite app_assoc, protocol_run_app, H1; done.
  - destruct Hs as [S1 S2 S3 S4 S5 S6 S7 S8]; split; destruct u; cbn; auto; try done; by intros ? [= <-].
Qed.

Lemma tracks_complete out w response r p :
  protocol_run (out ++ rw_pending w) = Some p → sim w p → rw_finished w = false →
  (pr_blocks p ≠ [] → reason_ok (pr_blocks p) r) → tracks out (complete w response r).
Proof.
  intros Hp Hs Hf Hr; unfold complete; cbn [rw_blocks set_usage].
  destruct (decide (rw_blocks w = ∅)) as [He|He];
    [rewrite bool_decide_eq_true_2 by done; by eapply tracks_flush|].
  rewrite bool_decide_eq_false_2 by done; eapply tracks_flush; eauto; apply Hr; by rewrite <- (sm_empty _ _ Hs).
Qed.

Lemma tracks_event out w evt : tracks out w → tracks out (mapEvent w evt).
Proof.
  intros H; unfold mapEvent; destruct (rw_finished w) eqn:Hf; [done|].
  pose proof H as [Hu (p & Hp & Hs)].
  assert (Hset : w = set_usage w None) by (destruct w; cbn in Hu; by subst).
  destruct evt as [|i item|i item|i part|i d|i d|i part|i|i d|i d|r|r|r|code message|]; try done.
  - destruct (item_kind item); [by apply tracks_start|done].
  - by apply tracks_end.
  - destruct (bool_decide (part = Some "summary_text")); [by apply tracks_start|done].
  - by apply tracks_delta.
  - by apply tracks_delta.
  - destruct (bool_decide (part = Some "output_text")); [by apply tracks_start|done].
  - by apply tracks_end.
  - by apply tracks_delta.
  - by apply tracks_delta.
  - eapply tracks_complete; eauto; intros Hne; pose proof (sm_tool _ _ Hs) as Ht; destruct (rw_sawToolCall w); cbn; auto.
  - eapply tracks_complete; eauto.
  - rewrite Hset; eapply tracks_flush; eauto; done.
  - rewrite Hset; eapply tracks_flush; eauto; done.
Qed.

Lemma tracks_messages out w ms : tracks out w → tracks out (feed_messages w ms).1.
Proof.
  revert w; induction ms as [|m ms IH]; intros w H; [done|]; cbn [feed_messages].
  destruct (rw_finished w); [done|]; destruct (sse_data m) as [| |payload]; [by apply IH|done|].
  destruct (match pl_type payload with Some type => Some type | None => sse_event m end); [|by apply IH].
  by apply IH, tracks_event.
Qed.

Lemma tracks_feed out w ms w' r :
  tracks out w → feed w ms = (w', r) →
  match r with inl _ => tracks out w' | inr chunks => tracks (out ++ chunks) w' end.
Proof.
  intros H; unfold feed; pose proof (tracks_messages out w ms H) as H'.
  destruct (feed_messages w ms) as [w1 [err|]]; intros [= <- <-]; [done|].
  destruct H' as [Hu (p & Hp & [S1 S2 S3 S4 S5 S6 S7 S8])]; split; [done|].
  exists p; split; [by rewrite app_nil_r|]; by split.
Qed.

Lemma tracks_feeds out w batches :
  tracks out w → let '(w', rest, _) := feeds w batches in tracks (out ++ rest) w'.
Proof.
  revert out w; induction batches as [|ms batches IH]; intros out w H; cbn [feeds]; [by rewrite app_nil_r|].
  destruct (feed w ms) as [w1 r] eqn:Hfeed; pose proof (tracks_feed out w ms w1 r H Hfeed) as H1.
  destruct r as [err|chunks]; [by rewrite app_nil_r|].
  specialize (IH _ _ H1); destruct (feeds w1 batches) as [[w2 rest] err]; by rewrite app_assoc.
Qed.

Lemma tracks_create : tracks [] createResponsesWire.
Proof. split; [done|]; exists protocol_start; split; [done|]; by split; cbn; try done; intros ? ? ? ? ?%lookup_empty_Some || intros ? ? ?%lookup_empty_Some. Qed.

(** Whatever the provider sends and however it is cut, the chunks a Responses
    stream delivers keep to the protocol: blocks numbered in the order they start,
    each growing by deltas of its kind and ended at most once with exactly what they
    gave, usage then finish last.  A finish for tool calls means some block is one, a
    plain stop means none is and there is a block. *)
Theorem glm_stream_protocol (batches : list (list SseMessage)) :
  let '(w, chunks, _) := feeds createResponsesWire batches in
  ∃ p, protocol_run chunks = Some p ∧ ∀ r, pr_finish p = Some r → reason_ok (pr_blocks p) r.
Proof.
  pose proof (tracks_feeds [] createResponsesWire batches tracks_create) as H.
  destruct (feeds createResponsesWire batches) as [[w chunks] err]; destruct H as [_ (p & Hp & Hs)]; cbn [app] in Hp.
  rewrite protocol_run_app in Hp; apply bind_Some in Hp as (q & Hq & Hrest); exists q; split; [done|].
  intros r Hr; destruct (rw_pending w) as [|c cs].
  - injection Hrest as ->; by apply (sm_reason _ _ Hs).
  - cbn [foldM] in Hrest; by rewrite (finished_stuck _ _ _ Hr) in Hrest.
Qed.

(** ** Cutting the stream into feeds *)

(** The same wire with chunks before those pending. *)
Definition after (cs : list StreamChunk) (w : ResponsesWire) : ResponsesWire :=
  mkResponsesWire (rw_blocks w) (cs ++ rw_pending w) (rw_nextIndex w) (rw_finished w) (rw_sawToolCall w) (rw_usage w).

Lemma after_push cs w c : push (after cs w) c = after cs (push w c).
Proof. unfold push, after; cbn; by rewrite app_assoc. Qed.

Lemma after_start cs w key kind item : startBlock (after cs w) key kind item = after cs (startBlock w key kind item).
Proof.
  unfold startBlock; cbn [after rw_finished rw_blocks]; destruct (_ || _); [done|].
  unfold push, after; cbn; by rewrite app_assoc.
Qed.

Lemma after_delta cs w key kind fragment : delta (after cs w) key kind fragment = after cs (delta w key kind fragment).
Proof.
  unfold delta; cbn [after rw_finished rw_blocks]; destruct (rw_finished w); [done|].
  destruct (rw_blocks w !! key) as [b0|] eqn:Hk.
  - cbn [after rw_blocks]; rewrite Hk; destruct (_ || _); [done|]; by rewrite <- after_push.
  - rewrite after_start; cbn [after rw_blocks]; destruct (rw_blocks (startBlock w key kind None) !! key); [|done].
    destruct (_ || _); [done|]; by rewrite <- after_push.
Qed.

Lemma after_end cs w key item : endBlock (after cs w) key item = after cs (endBlock w key item).
Proof.
  unfold endBlock; cbn [after rw_finished rw_blocks]; destruct (rw_finished w); [done|].
  destruct (rw_blocks w !! key) as [b|]; [|done]; destruct (wb_ended b); [done|]; by rewrite <- after_push.
Qed.

Lemma after_flush cs w r : flushFinish (after cs w) r = after cs (flushFinish w r).
Proof. unfold flushFinish; cbn [after rw_usage]; destruct (rw_usage w); unfold push, after; cbn; by rewrite !app_assoc. Qed.

Lemma after_complete cs w response r : complete (after cs w) response r = after cs (complete w response r).
Proof.
  unfold complete; change (set_usage (after cs w) (extractUsage response)) with (after cs (set_usage w (extractUsage response))).
  cbn [after rw_blocks]; destruct (bool_decide (rw_blocks (set_usage w (extractUsage response)) = ∅)); apply after_flush.
Qed.

Lemma after_event cs w evt : mapEvent (after cs w) evt = after cs (mapEvent w evt).
Proof.
  unfold mapEvent; cbn [after rw_finished]; destruct (rw_finished w); [done|].
  destruct evt as [|i item|i item|i part|i d|i d|i part|i|i d|i d|r|r|r|code message|];
    try done; try (destruct (item_kind item)); try (case_bool_decide); try done;
    auto using after_start, after_delta, after_end, after_complete, after_flush.
Qed.

Lemma after_messages cs w ms :
  feed_messages (after cs w) ms = (after cs (feed_messages w ms).1, (feed_messages w ms).2).
Proof.
  revert w; induction ms as [|m ms IH]; intros w; [done|]; cbn [feed_messages].
  change (rw_finished (after cs w)) with (rw_finished w); destruct (rw_finished w); [done|].
  destruct (sse_data m) as [| |payload]; [apply IH|done|].
  destruct (match pl_type payload with Some type => Some type | None => sse_event m end); [|apply IH].
  by rewrite after_event, IH.
Qed.

Lemma finished_messages w ms : rw_finished w = true → feed_messages w ms = (w, None).
Proof. intros Hf; destruct ms; [done|]; cbn; by rewrite Hf. Qed.

Lemma messages_app w ms ms' w1 :
  feed_messages w ms = (w1, None) → feed_messages w (ms ++ ms') = feed_messages w1 ms'.
Proof.
  revert w; induction ms as [|m ms IH]; intros w; cbn [feed_messages app]; [by intros [= <-]|].
  destruct (rw_finished w) eqn:Hf; [intros [= <-]; symmetry; by apply finished_messages|].
  destruct (sse_data m) as [| |payload]; [apply IH|done|].
  destruct (match pl_type payload with Some type => Some type | None => sse_event m end); apply IH.
Qed.

(** Nothing pending. *)
Definition drained (w : ResponsesWire) : ResponsesWire :=
  mkResponsesWire (rw_blocks w) [] (rw_nextIndex w) (rw_finished w) (rw_sawToolCall w) (rw_usage w).

Lemma after_drained w : after (rw_pending w) (drained w) = w.
Proof. destruct w; unfold after, drained; cbn; by rewrite app_nil_r. Qed.

(** How the messages of a stream are grouped into feeds does not matter: fed in
    any number of batches without a malformed payload, the wire delivers the chunks,
    and ends in the state, of one feed of them all. *)
Theorem glm_feed_batching (w w' : ResponsesWire) (batches : list (list SseMessage)) (chunks : list StreamChunk)
    (Hdrained : rw_pending w = []) (Hfeeds : feeds w batches = (w', chunks, None)) :
  feed w (concat batches) = (w', inr chunks).
Proof.
  revert w chunks Hdrained Hfeeds; induction batches as [|ms batches IH]; intros w chunks Hdrained; cbn [feeds concat].
  - intros [= <- <-]; destruct w as [bs pend n f t u]; cbn in Hdrained; by subst pend.
  - unfold feed at 1; destruct (feed_messages w ms) as [w1 [err|]] eqn:H1; [done|].
    destruct (feeds (drained w1) batches) as [[w2 rest] err] eqn:Hf; fold (drained w1) in *.
    rewrite Hf; intros [= <- <- ->]; specialize (IH (drained w1) rest eq_refl Hf).
    unfold feed in IH |- *; rewrite (messages_app _ _ _ _ H1).
    pose proof (after_messages (rw_pending w1) (drained w1) (concat batches)) as Ha; rewrite after_drained in Ha; rewrite Ha.
    destruct (feed_messages (drained w1) (concat batches)) as [w3 [err|]]; [done|]; by injection IH as <- <-.
Qed.

(** ** A stream *)

Definition demo_event (event : ResponsesStreamEvent) : SseMessage := mkSse None (JsonData (mkPayload (Some "") (λ _, event))).

Definition demo_call : ResponsesOutputItem := mkItem (Some "function_call") (Some "call_1") (Some "look") (Some "{}").

Definition demo_batches : list (list SseMessage) :=
  [[demo_event (OutputTextDelta 0 "hel"); demo_event (OutputTextDelta 0 "lo")];
   [mkSse None BlankData; demo_event (OutputItemDone 0 (mkItem (Some "message") None None None))];
   [demo_event (OutputItemAdded 1 demo_call); demo_event (OutputItemDone 1 demo_call);
    demo_event (ResponseCompleted (Some (mkResponse None (Some (mkResponsesUsage (Some 10) None None))))); demo_event (OutputTextDelta 0 "!")]].

Definition demo_chunks : list StreamChunk :=
  [BlockStart 0 KText; TextDelta 0 "hel"; TextDelta 0 "lo"; BlockEnd 0 (TextContent "hello");
   BlockStart 1 KToolCall; BlockEnd 1 (ToolCallContent "call_1" "look" "{}");
   UsageChunk (mkUsage 10 0 None); Finish FinishToolCalls].

Lemma glm_feed_batching_witness :
  ∃ w, feeds createResponsesWire demo_batches = (w, demo_chunks, None) ∧
    feed createResponsesWire (concat demo_batches) = (w, inr demo_chunks).
Proof.
  destruct (feeds createResponsesWire demo_batches) as [[w chunks] err] eqn:H.
  assert (Hc : (feeds createResponsesWire demo_batches).1.2 = demo_chunks) by vm_refl.
  assert (He : (feeds createResponsesWire demo_batches).2 = None) by vm_refl.
  rewrite H in Hc, He; cbn in Hc, He; subst chunks err; exists w; split; [done|].
  exact (glm_feed_batching createResponsesWire w demo_batches demo_chunks eq_refl H).
Defined.
