(* ===== verification/OpencodeWire.v ===== *)
(** * The Chat Completions wire (llm-opencode-go: wire.ts)

    The translator of one response stream of the other gateway.  The blocks it opens
    are shared objects, kept in the order they were opened and named by their
    position; the sentinel closes them all. *)

From S2P Require Import Prelude LlmStream.

#[local] Open Scope Z_scope.

(** ** The wire *)

Record ChatCompletionsUsage : Type := mkChatUsage {
  prompt_tokens : option Z;
  completion_tokens : option Z;
  completion_reasoning_tokens : option Z;
}.

Record ChatToolCallDelta : Type := mkToolDelta {
  td_index : option Z;
  td_id : option string;
  td_name : option string;
  td_arguments : option string;
}.

Record ChatDelta : Type := mkChatDelta {
  reasoning_content : option string;
  content : option string;
  tool_calls : option (list ChatToolCallDelta);
}.

Record ChatChoice : Type := mkChoice { cc_delta : option ChatDelta; finish_reason : option string }.

Record ChatCompletionChunk : Type := mkCompletionChunk {
  choices : option (list ChatChoice);
  ch_usage : option ChatCompletionsUsage;
}.

(** The data of an event: the sentinel, a keep-alive, or a payload. *)
Inductive SseData : Type :=
| DoneData
| BlankData
| MalformedData
| JsonData (chunk : ChatCompletionChunk).

(** ** State *)

Record WireBlock : Type := mkWireBlock {
  wb_kind : BlockKind;
  wb_callId : option string;
  wb_name : option string;
  wb_text : string;
}.

(** The index of a block is its position in [cw_order]. *)
Record ChatCompletionsWire : Type := mkWire {
  cw_order : list WireBlock;
  cw_toolBlocks : gmap Z nat;
  cw_pending : list StreamChunk;
  cw_finished : bool;
  cw_reasoning : option nat;
  cw_text : option nat;
  cw_finish : option FinishReason;
  cw_usage : option TokenUsage;
}.

Definition createChatCompletionsWire : ChatCompletionsWire := mkWire [] ∅ [] false None None None None.

Definition push (w : ChatCompletionsWire) (c : StreamChunk) : ChatCompletionsWire :=
  mkWire (cw_order w) (cw_toolBlocks w) (cw_pending w ++ [c]) (cw_finished w) (cw_reasoning w) (cw_text w)
    (cw_finish w) (cw_usage w).

Definition with_order (w : ChatCompletionsWire) order : ChatCompletionsWire :=
  mkWire order (cw_toolBlocks w) (cw_pending w) (cw_finished w) (cw_reasoning w) (cw_text w) (cw_finish w) (cw_usage w).

Definition with_tools (w : ChatCompletionsWire) tools : ChatCompletionsWire :=
  mkWire (cw_order w) tools (cw_pending w) (cw_finished w) (cw_reasoning w) (cw_text w) (cw_finish w) (cw_usage w).

Definition with_singles (w : ChatCompletionsWire) reasoning text : ChatCompletionsWire :=
  mkWire (cw_order w) (cw_toolBlocks w) (cw_pending w) (cw_finished w) reasoning text (cw_finish w) (cw_usage w).

Definition with_terminal (w : ChatCompletionsWire) finished finish usage : ChatCompletionsWire :=
  mkWire (cw_order w) (cw_toolBlocks w) (cw_pending w) finished (cw_reasoning w) (cw_text w) finish usage.

(** [open] and the announcement of the block. *)
Definition open_block (w : ChatCompletionsWire) (kind : BlockKind) : ChatCompletionsWire * nat :=
  let i := length (cw_order w) in
  (push (with_order w (cw_order w ++ [mkWireBlock kind None None ""])) (BlockStart (Z.of_nat i) kind), i).

Definition append_text (w : ChatCompletionsWire) (i : nat) (text : string) : ChatCompletionsWire :=
  with_order w (alter (λ b, mkWireBlock (wb_kind b) (wb_callId b) (wb_name b) (wb_text b +:+ text)) i (cw_order w)).

Definition EMPTY_RESPONSE_CODE : string := "EMPTY_RESPONSE".

Section Wire.

(** [String.prototype.toUpperCase]. *)
Context (toUpperCase : string → string).

Definition mapFinishReason (reason : string) : FinishReason :=
  if bool_decide (reason = "stop") then FinishStop
  else if bool_decide (reason = "tool_calls") then FinishToolCalls
  else if bool_decide (reason = "length") then FinishMaxTokens
  else FinishError (mkLlmFailure ("model stopped: " +:+ reason) (toUpperCase reason)).

Definition mapUsage (u : ChatCompletionsUsage) : TokenUsage :=
  mkUsage (default 0 (prompt_tokens u)) (default 0 (completion_tokens u)) (completion_reasoning_tokens u).

Definition assembledBlock (b : WireBlock) : ContentBlock :=
  match wb_kind b with
  | KReasoning => ReasoningContent (wb_text b)
  | KText => TextContent (wb_text b)
  | KToolCall => ToolCallContent (default "" (wb_callId b)) (default "" (wb_name b)) (wb_text b)
  end.

Definition emptyFinish : FinishReason :=
  FinishError (mkLlmFailure "OpenCode Go stream finished without any content blocks" EMPTY_RESPONSE_CODE).

Definition block_ends (order : list WireBlock) : list StreamChunk :=
  imap (λ i b, BlockEnd (Z.of_nat i) (assembledBlock b)) order.

Definition flushDone (w : ChatCompletionsWire) : ChatCompletionsWire :=
  let w := fold_left push (block_ends (cw_order w)) w in
  let w := match cw_usage w with
           | Some usage => with_terminal (push w (UsageChunk usage)) (cw_finished w) (cw_finish w) None
           | None => w
           end in
  let reason := default FinishStop (cw_finish w) in
  let w := if match reason with FinishStop => bool_decide (cw_order w = []) | _ => false end
           then push w (Finish emptyFinish) else push w (Finish reason) in
  with_terminal w true (cw_finish w) (cw_usage w).

(** The reasoning text of a delta, then its content. *)
Definition map_reasoning (w : ChatCompletionsWire) (text : string) : ChatCompletionsWire :=
  if bool_decide (text = "") then w
  else
    let '(w, i) := match cw_reasoning w with
                   | Some i => (w, i)
                   | None => let '(w, i) := open_block w KReasoning in (with_singles w (Some i) (cw_text w), i)
                   end in
    push (append_text w i text) (ReasoningDelta (Z.of_nat i) text).

Definition map_content (w : ChatCompletionsWire) (text : string) : ChatCompletionsWire :=
  if bool_decide (text = "") then w
  else
    let '(w, i) := match cw_text w with
                   | Some i => (w, i)
                   | None => let '(w, i) := open_block w KText in (with_singles w (cw_reasoning w) (Some i), i)
                   end in
    push (append_text w i text) (TextDelta (Z.of_nat i) text).

(** One fragment of a tool call; a missing index shares block 0. *)
Definition map_call (w : ChatCompletionsWire) (call : ChatToolCallDelta) : ChatCompletionsWire :=
  let key := default 0 (td_index call) in
  let '(w, i) := match cw_toolBlocks w !! key with
                 | Some i => (w, i)
                 | None => let '(w, i) := open_block w KToolCall in (with_tools w (<[key := i]> (cw_toolBlocks w)), i)
                 end in
  let fragment := default "" (td_arguments call) in
  let update b := mkWireBlock (wb_kind b)
    (match td_id call with Some id => Some id | None => wb_callId b end)
    (match td_name call with Some name => Some name | None => wb_name b end)
    (wb_text b +:+ fragment) in
  let w := with_order w (alter update i (cw_order w)) in
  match cw_order w !! i with
  | Some b => push w (ToolCallDelta (Z.of_nat i) (default "" (wb_callId b)) (wb_name b) fragment)
  | None => w
  end.

Definition mapChunk (w : ChatCompletionsWire) (chunk : ChatCompletionChunk) : ChatCompletionsWire :=
  if cw_finished w then w
  else
    let choice := choices chunk ≫= head in
    let delta := choice ≫= cc_delta in
    let w := map_reasoning w (default "" (delta ≫= reasoning_content)) in
    let w := map_content w (default "" (delta ≫= content)) in
    let w := fold_left map_call (default [] (delta ≫= tool_calls)) w in
    let w := match choice ≫= finish_reason with
             | Some reason => with_terminal w (cw_finished w) (Some (mapFinishReason reason)) (cw_usage w)
             | None => w
             end in
    match ch_usage chunk with
    | Some usage => with_terminal w (cw_finished w) (cw_finish w) (Some (mapUsage usage))
    | None => w
    end.

(** ** Feeding *)

Definition malformed : LlmError :=
  mkLlmError "OpenCode Go stream carried a malformed event payload" "MALFORMED_RESPONSE".

Fixpoint feed_messages (w : ChatCompletionsWire) (messages : list SseData) : ChatCompletionsWire * option LlmError :=
  match messages with
  | [] => (w, None)
  | m :: messages =>
      if cw_finished w then (w, None)
      else
        match m with
        | DoneData => (flushDone w, None)
        | BlankData => feed_messages w messages
        | MalformedData => (w, Some malformed)
        | JsonData chunk => feed_messages (mapChunk w chunk) messages
        end
  end.

(** The chunks pending are handed out. *)
Definition splice (w : ChatCompletionsWire) : ChatCompletionsWire :=
  mkWire (cw_order w) (cw_toolBlocks w) [] (cw_finished w) (cw_reasoning w) (cw_text w) (cw_finish w) (cw_usage w).

Definition feed (w : ChatCompletionsWire) (messages : list SseData) : ChatCompletionsWire * (LlmError + list StreamChunk) :=
  match feed_messages w messages with
  | (w, Some err) => (w, inl err)
  | (w, None) => (splice w, inr (cw_pending w))
  end.

Definition wire_end (w : ChatCompletionsWire) : LlmError + list StreamChunk :=
  if cw_finished w then inr (cw_pending w)
  else inl (mkLlmError "OpenCode Go stream ended without [DONE]" "STREAM_CLOSED").

Fixpoint feeds (w : ChatCompletionsWire) (batches : list (list SseData)) : ChatCompletionsWire * list StreamChunk * option LlmError :=
  match batches with
  | [] => (w, [], None)
  | messages :: batches =>
      match feed w messages with
      | (w, inl err) => (w, [], Some err)
      | (w, inr chunks) =>
          let '(w, rest, err) := feeds w batches in (w, chunks ++ rest, err)
      end
  end.

End Wire.

(** ** Facts about the Chat Completions wire

    The chunks keep to the same protocol as those of the other adapter, and here the
    finish comes with every block ended. *)

(** ** The wire simulates the protocol *)

Definition open_state (b : WireBlock) : BlockState := mkBlockState (wb_kind b) (wb_text b) false.
Definition ended_state (b : WireBlock) : BlockState := mkBlockState (wb_kind b) (wb_text b) true.

Definition kind_at (w : ChatCompletionsWire) (i : nat) (k : BlockKind) : Prop :=
  ∃ b, cw_order w !! i = Some b ∧ wb_kind b = k.

(** An unfinished wire after the chunks [out]. *)
Record tracks (out : list StreamChunk) (w : ChatCompletionsWire) : Prop := {
  tk_open : cw_finished w = false;
  tk_run : protocol_run (out ++ cw_pending w) = Some (mkProtocol (open_state <$> cw_order w) false None);
  tk_reasoning : ∀ i, cw_reasoning w = Some i → kind_at w i KReasoning;
  tk_text : ∀ i, cw_text w = Some i → kind_at w i KText;
  tk_tools : ∀ key i, cw_toolBlocks w !! key = Some i → kind_at w i KToolCall;
}.

(** A finished one: everything is ended, a plain stop has content. *)
Definition closed (p : Protocol) : Prop :=
  Forall (λ b, bk_ended b = true) (pr_blocks p) ∧
  (pr_finish p = Some FinishStop → pr_blocks p ≠ []) ∧ is_Some (pr_finish p).

Definition finished_after (out : list StreamChunk) (w : ChatCompletionsWire) : Prop :=
  cw_finished w = true ∧ ∃ p, protocol_run (out ++ cw_pending w) = Some p ∧ closed p.

Lemma run_push out w c p p' :
  protocol_run (out ++ cw_pending w) = Some p → protocol_step p c = Some p' →
  protocol_run (out ++ cw_pending (push w c)) = Some p'.
Proof. intros H Hs; cbn [push cw_pending]; rewrite app_assoc, protocol_run_app, H; cbn; by rewrite Hs. Qed.

Lemma kind_at_app w b i k : kind_at w i k → kind_at (with_order w (cw_order w ++ [b])) i k.
Proof. intros (x & Hx & Hk); exists x; split; [|done]; by apply lookup_app_l_Some. Qed.

(** A block opens; the new position may be recorded under its own kind. *)
Lemma tracks_open out w kind :
  tracks out w → let '(w', i) := open_block w kind in tracks out w' ∧ kind_at w' i kind.
Proof.
  intros [H1 H2 H3 H4 H5]; cbn [open_block].
  set (b := mkWireBlock kind None None ""); split; [split|].
  - done.
  - eapply (run_push out (with_order w (cw_order w ++ [b]))); [exact H2|]; unfold protocol_step; cbn [pr_finish pr_usage pr_blocks].
    rewrite length_fmap, Z.eqb_refl; cbn; by rewrite fmap_app.
  - intros i Hi; apply (kind_at_app w b i), H3, Hi.
  - intros i Hi; apply (kind_at_app w b i), H4, Hi.
  - intros key i Hi; apply (kind_at_app w b i), (H5 key), Hi.
  - exists b; split; [|done]; cbn; by rewrite lookup_app_r, Nat.sub_diag by done.
Qed.

(** A block of that kind grows by a fragment. *)
Lemma tracks_grow out w i kind f text c :
  tracks out w → kind_at w i kind →
  (∀ b, wb_kind (f b) = wb_kind b ∧ wb_text (f b) = wb_text b +:+ text) →
  (∀ p, pr_finish p = None → pr_usage p = false → protocol_step p c = grow_block p (Z.of_nat i) kind text) →
  tracks out (push (with_order w (alter f i (cw_order w))) c).
Proof.
  intros [H1 H2 H3 H4 H5] (b & Hb & Hk) Hf Hc.
  assert (Hkind : ∀ j k, kind_at w j k → kind_at (with_order w (alter f i (cw_order w))) j k).
  { intros j k (x & Hx & Hxk); unfold kind_at; cbn [with_order cw_order]; destruct (decide (j = i)) as [->|Hne].
    - exists (f x); rewrite list_lookup_alter_eq, Hx; split; [done|]; by rewrite (proj1 (Hf x)).
    - exists x; by rewrite list_lookup_alter_ne by done. }
  split; [done| |intros; by apply Hkind, H3|intros; by apply Hkind, H4|intros; by eapply Hkind, H5].
  eapply (run_push out (with_order w (alter f i (cw_order w)))); [exact H2|].
  rewrite Hc by done; erewrite grow_block_spec by (cbn; rewrite list_lookup_fmap, Hb; cbn; unfold open_state; by rewrite Hk).
  unfold set_block; cbn [pr_blocks pr_usage pr_finish]; do 2 f_equal.
  apply list_eq; intros j; rewrite list_lookup_fmap; cbn [with_order push cw_order].
  destruct (decide (j = i)) as [->|Hne].
  - rewrite list_lookup_insert_eq by (rewrite length_fmap; by eapply lookup_lt_Some).
    rewrite list_lookup_alter_eq, Hb; cbn; unfold open_state; destruct (Hf b) as [-> ->]; by rewrite Hk.
  - by rewrite list_lookup_insert_ne, list_lookup_alter_ne, list_lookup_fmap by done.
Qed.

Lemma tracks_reasoning out w text : tracks out w → tracks out (map_reasoning w text).
Proof.
  intros H; unfold map_reasoning; case_bool_decide; [done|].
  set (r := match cw_reasoning w with Some i => (w, i) | None => _ end).
  assert (Hr : tracks out r.1 ∧ kind_at r.1 r.2 KReasoning).
  { unfold r; destruct (cw_reasoning w) as [i|] eqn:E; [split; [done|by apply (tk_reasoning _ _ H)]|].
    pose proof (tracks_open out w KReasoning H) as Ho; destruct (open_block w KReasoning) as [w1 i].
    destruct Ho as [[T1 T2 T3 T4 T5] Hk]; split; [|done]; split; try done; by intros j [= <-]. }
  destruct r as [w1 i]; destruct Hr as [Ht Hk]; cbn [fst snd] in Ht, Hk.
  eapply tracks_grow; [exact Ht|exact Hk|done|].
  intros p Hp1 Hp2; unfold protocol_step; by rewrite Hp1, Hp2.
Qed.

Lemma tracks_content out w text : tracks out w → tracks out (map_content w text).
Proof.
  intros H; unfold map_content; case_bool_decide; [done|].
  set (r := match cw_text w with Some i => (w, i) | None => _ end).
  assert (Hr : tracks out r.1 ∧ kind_at r.1 r.2 KText).
  { unfold r; destruct (cw_text w) as [i|] eqn:E; [split; [done|by apply (tk_text _ _ H)]|].
    pose proof (tracks_open out w KText H) as Ho; destruct (open_block w KText) as [w1 i].
    destruct Ho as [[T1 T2 T3 T4 T5] Hk]; split; [|done]; split; try done; by intros j [= <-]. }
  destruct r as [w1 i]; destruct Hr as [Ht Hk]; cbn [fst snd] in Ht, Hk.
  eapply tracks_grow; [exact Ht|exact Hk|done|].
  intros p Hp1 Hp2; unfold protocol_step; by rewrite Hp1, Hp2.
Qed.

Lemma tracks_call out w call : tracks out w → tracks out (map_call w call).
Proof.
  intros H; unfold map_call.
  set (r := match cw_toolBlocks w !! default 0 (td_index call) with Some i => (w, i) | None => _ end).
  assert (Hr : tracks out r.1 ∧ kind_at r.1 r.2 KToolCall).
  { unfold r; destruct (cw_toolBlocks w !! _) as [i|] eqn:E; [split; [done|by eapply (tk_tools _ _ H)]|].
    pose proof (tracks_open out w KToolCall H) as Ho; destruct (open_block w KToolCall) as [w1 i].
    destruct Ho as [[T1 T2 T3 T4 T5] Hk]; split; [|done]; split; try done.
    cbn [fst with_tools cw_toolBlocks]; intros key j [[_ <-]|[_ Hj]]%lookup_insert_Some; [done|by apply (T5 key)]. }
  destruct r as [w1 i]; destruct Hr as [Ht Hk]; cbn [fst snd] in Ht, Hk.
  destruct Hk as (b & Hb & Hbk); cbn [with_order cw_order]; rewrite list_lookup_alter_eq, Hb; cbn [fmap option_fmap option_map].
  eapply tracks_grow; [exact Ht|by exists b|done|].
  intros p Hp1 Hp2; unfold protocol_step; by rewrite Hp1, Hp2.
Qed.

Lemma tracks_terminal out w finish usage : tracks out w → tracks out (with_terminal w (cw_finished w) finish usage).
Proof. by intros [H1 H2 H3 H4 H5]; split. Qed.

Section Facts.

Context (toUpperCase : string → string).

Lemma tracks_chunk out w chunk : tracks out w → tracks out (mapChunk toUpperCase w chunk).
Proof.
  intros H; unfold mapChunk; rewrite (tk_open _ _ H).
  set (calls := default [] _).
  assert (Hcalls : ∀ w, tracks out w → tracks out (fold_left map_call calls w)).
  { clear H; induction calls as [|call calls IH]; intros w1 H1; [done|]; apply IH, tracks_call, H1. }
  match goal with |- context[fold_left map_call calls ?w0] => assert (H1 : tracks out (fold_left map_call calls w0))
    by (apply Hcalls, tracks_content, tracks_reasoning, H); generalize dependent (fold_left map_call calls w0) end.
  intros w1 H1; destruct (choices chunk ≫= head) as [choice|]; cbn [mbind option_bind];
    [destruct (finish_reason choice)|]; destruct (ch_usage chunk); auto using tracks_terminal.
Qed.

(** ** The sentinel *)

Lemma fold_push w cs : fold_left push cs w =
  mkWire (cw_order w) (cw_toolBlocks w) (cw_pending w ++ cs) (cw_finished w) (cw_reasoning w) (cw_text w)
    (cw_finish w) (cw_usage w).
Proof.
  revert w; induction cs as [|c cs IH]; intros w; [destruct w; cbn; by rewrite app_nil_r|].
  cbn [fold_left]; rewrite IH; cbn; by rewrite <- app_assoc.
Qed.

Lemma opened_assembles b : assembles (open_state b) (assembledBlock b) = true.
Proof.
  unfold assembles, assembledBlock, open_state; cbn [bk_kind bk_text]; destruct (wb_kind b);
    rewrite ?(bool_decide_eq_true_2 (wb_text b = wb_text b)) by done; [done..|]; apply orb_true_r.
Qed.

(** The blocks end in the order they were opened. *)
Lemma ends_run pre order :
  foldM protocol_step (mkProtocol ((ended_state <$> pre) ++ (open_state <$> order)) false None)
    (imap (λ i b, BlockEnd (Z.of_nat (length pre + i)) (assembledBlock b)) order) =
  Some (mkProtocol (ended_state <$> pre ++ order) false None).
Proof.
  revert pre; induction order as [|b order IH]; intros pre; [by rewrite !app_nil_r|].
  assert (Hl : ((ended_state <$> pre) ++ (open_state <$> b :: order)) !! length pre = Some (open_state b))
    by (rewrite lookup_app_r, length_fmap, Nat.sub_diag by (by rewrite length_fmap); done).
  rewrite imap_cons; cbn [foldM]; rewrite Nat.add_0_r, (step_end _ _ _ _ Hl eq_refl (opened_assembles b)).
  cbn [mbind option_bind bk_kind bk_text open_state].
  replace (<[length pre := mkBlockState (wb_kind b) (wb_text b) true]> ((ended_state <$> pre) ++ (open_state <$> b :: order)))
    with ((ended_state <$> pre ++ [b]) ++ (open_state <$> order)).
  - replace (pre ++ b :: order) with ((pre ++ [b]) ++ order) by (by rewrite <- app_assoc).
    rewrite <- IH; f_equal; apply imap_ext; intros i x _; cbn; do 2 f_equal; rewrite length_app; cbn; lia.
  - rewrite insert_app_r_alt, length_fmap, Nat.sub_diag by (by rewrite length_fmap); cbn.
    by rewrite fmap_app, <- app_assoc.
Qed.

Lemma tracks_done out w : tracks out w → finished_after out (flushDone w).
Proof.
  intros [H1 H2 _ _ _]; split; [done|]; unfold flushDone; rewrite fold_push; cbn [cw_usage cw_finish cw_order].
  set (ended := mkProtocol (ended_state <$> cw_order w) false None).
  assert (He : protocol_run (out ++ cw_pending w ++ block_ends (cw_order w)) = Some ended).
  { rewrite app_assoc, protocol_run_app, H2; cbn [mbind option_bind]; exact (ends_run [] (cw_order w)). }
  set (tail := match cw_usage w with Some u => [UsageChunk u] | None => [] end).
  set (r := if match default FinishStop (cw_finish w) with FinishStop => bool_decide (cw_order w = []) | _ => false end
            then emptyFinish else default FinishStop (cw_finish w)).
  exists (mkProtocol (ended_state <$> cw_order w) (bool_decide (is_Some (cw_usage w))) (Some r)); split.
  - transitivity (protocol_run ((out ++ cw_pending w ++ block_ends (cw_order w)) ++ tail ++ [Finish r])).
    { f_equal; unfold tail, r; destruct (cw_usage w), (match default FinishStop (cw_finish w) with FinishStop => _ | _ => _ end);
        cbn; by rewrite <- ?app_assoc. }
    rewrite protocol_run_app, He; unfold tail, ended; by destruct (cw_usage w).
  - split; cbn; [apply Forall_fmap, Forall_true; done|]; split; [|eauto].
    unfold r; intros Hr; destruct (default FinishStop (cw_finish w)); try done.
    destruct (cw_order w) as [|b order]; [by rewrite bool_decide_eq_true_2 in Hr|done].
Qed.

(** ** Feeds *)

Definition wire_inv (out : list StreamChunk) (w : ChatCompletionsWire) : Prop := tracks out w ∨ finished_after out w.

Lemma inv_messages out w ms : wire_inv out w → wire_inv out (feed_messages toUpperCase w ms).1.
Proof.
  revert w; induction ms as [|m ms IH]; intros w H; [done|]; cbn [feed_messages].
  destruct H as [H|H]; [|rewrite (proj1 H); by right].
  rewrite (tk_open _ _ H); destruct m as [| | |chunk]; cbn [fst]; [right; by apply tracks_done|apply IH; by left|by left|].
  apply IH; left; by apply tracks_chunk.
Qed.

Lemma inv_splice out w : wire_inv out w → wire_inv (out ++ cw_pending w) (splice w).
Proof.
  intros [[H1 H2 H3 H4 H5]|(H1 & p & H2 & H3)]; [left; split; try done|right; split; [done|]; exists p; split; [|done]];
    cbn [splice cw_pending cw_order]; by rewrite app_nil_r.
Qed.

Lemma inv_feeds out w batches :
  wire_inv out w → let '(w', rest, _) := feeds toUpperCase w batches in wire_inv (out ++ rest) w'.
Proof.
  revert out w; induction batches as [|ms batches IH]; intros out w H; cbn [feeds]; [by rewrite app_nil_r|].
  unfold feed; pose proof (inv_messages out w ms H) as H1; destruct (feed_messages toUpperCase w ms) as [w1 [err|]];
    cbn [fst] in H1; [by rewrite app_nil_r|].
  specialize (IH _ _ (inv_splice _ _ H1)); destruct (feeds toUpperCase (splice w1) batches) as [[w2 rest] err].
  by rewrite app_assoc.
Qed.

Lemma inv_create : wire_inv [] createChatCompletionsWire.
Proof. left; split; try done; by intros ? ? ?%lookup_empty_Some. Qed.

(** What a stream of feeds delivers, and how its end is taken. *)
Lemma feeds_end (batches : list (list SseData)) :
  let '(w, chunks, err) := feeds toUpperCase createChatCompletionsWire batches in
  ∃ p, protocol_run chunks = Some p ∧
    (pr_finish p = None ∨ closed p) ∧
    (err = None → wire_end w = (if bool_decide (is_Some (pr_finish p)) then inr []
       else inl (mkLlmError "OpenCode Go stream ended without [DONE]" "STREAM_CLOSED"))).
Proof.
  pose proof (inv_feeds [] createChatCompletionsWire batches inv_create) as H.
  assert (Hpend : (feeds toUpperCase createChatCompletionsWire batches).2 = None →
    cw_pending (feeds toUpperCase createChatCompletionsWire batches).1.1 = []).
  { assert (Hp : cw_pending createChatCompletionsWire = []) by done; revert Hp; generalize createChatCompletionsWire.
    clear H; induction batches as [|ms batches IH]; intros w Hp; [done|]; cbn [feeds]; unfold feed.
    destruct (feed_messages toUpperCase w ms) as [w1 [err|]]; [done|].
    specialize (IH (splice w1) eq_refl); by destruct (feeds toUpperCase (splice w1) batches) as [[w2 rest] err]. }
  destruct (feeds toUpperCase createChatCompletionsWire batches) as [[w chunks] err]; cbn [fst snd app] in H, Hpend.
  assert (Hrun : ∃ p, protocol_run (chunks ++ cw_pending w) = Some p ∧ (pr_finish p = None ∨ closed p) ∧
    cw_finished w = bool_decide (is_Some (pr_finish p))).
  { destruct H as [H|(H1 & p & H2 & H3)].
    - eexists; split; [apply H|]; split; [by left|]; by rewrite (tk_open _ _ H).
    - exists p; split; [done|]; split; [by right|]; rewrite H1; symmetry; apply bool_decide_eq_true_2, H3. }
  destruct Hrun as (p & Hrun & Hp & Hf).
  rewrite protocol_run_app in Hrun; apply bind_Some in Hrun as (q & Hq & Hrest); exists q; split; [done|].
  destruct (cw_pending w) as [|c cs] eqn:Epend.
  - injection Hrest as ->; split; [done|]; intros _; unfold wire_end; rewrite Hf, Epend.
    by destruct (bool_decide _).
  - split; [|intros He; by specialize (Hpend He)].
    left; destruct (pr_finish q) as [r|] eqn:Er; [|done].
    cbn [foldM] in Hrest; by rewrite (finished_stuck _ _ _ Er) in Hrest.
Qed.

(** Whatever the gateway sends and however it is cut, the chunks delivered keep to
    the same protocol as the other adapter's.  A fed stream without errors that saw
    its sentinel has delivered a finish with every block ended, a plain stop only with
    content, and its end is accepted; otherwise its end is refused. *)
Theorem opencode_stream_protocol (batches : list (list SseData)) :
  let '(w, chunks, err) := feeds toUpperCase createChatCompletionsWire batches in
  ∃ p, protocol_run chunks = Some p ∧
    (pr_finish p = None ∨ closed p) ∧
    (err = None → wire_end w = (if bool_decide (is_Some (pr_finish p)) then inr []
       else inl (mkLlmError "OpenCode Go stream ended without [DONE]" "STREAM_CLOSED"))).
Proof. apply feeds_end. Qed.

End Facts.
