(* ===== verification/LlmRequest.v ===== *)
(** * The options of a model call

    What both request bodies are built from, and the walks over a message's content
    the two serializers share.  What passes through unread — temperatures, parameter
    schemas — is a type parameter. *)

From S2P Require Import Prelude LlmStream.

#[local] Open Scope Z_scope.

(** ** Options *)

Inductive Message : Type :=
| SystemMessage (content : list ContentBlock)
| UserMessage (content : list ContentBlock)
| AssistantMessage (content : list ContentBlock)
| ToolMessage (toolCallId : string) (content : list ContentBlock)
| OtherMessage (role : string).

Section Options.

Context (Opaque : Type).

Record Tool : Type := mkTool { tl_name : string; tl_description : string; tl_parameters : Opaque }.

Record GenerateOptions : Type := mkOptions {
  go_model : string;
  go_system : option string;
  go_messages : list Message;
  go_tools : option (list Tool);
  go_temperature : option Opaque;
  go_maxTokens : option Z;
  go_stop : option (list string);
  go_reasoningEffort : option string;
}.

End Options.

Arguments mkTool {Opaque}.
Arguments tl_name {Opaque}.
Arguments tl_description {Opaque}.
Arguments tl_parameters {Opaque}.
Arguments mkOptions {Opaque}.
Arguments go_model {Opaque}.
Arguments go_system {Opaque}.
Arguments go_messages {Opaque}.
Arguments go_tools {Opaque}.
Arguments go_temperature {Opaque}.
Arguments go_maxTokens {Opaque}.
Arguments go_stop {Opaque}.
Arguments go_reasoningEffort {Opaque}.

Definition block_type (b : ContentBlock) : string :=
  match b with
  | ReasoningContent _ => "reasoning"
  | TextContent _ => "text"
  | ToolCallContent _ _ _ => "tool-call"
  | OtherContent type => type
  end.

Definition bindE {A B} (r : LlmError + A) (f : A → LlmError + B) : LlmError + B :=
  match r with inl e => inl e | inr a => f a end.

(** The texts of a text-only content; the first other block is refused. *)
Fixpoint text_only (refusal : string) (content : list ContentBlock) : LlmError + list string :=
  match content with
  | [] => inr []
  | TextContent text :: content => bindE (text_only refusal content) (λ texts, inr (text :: texts))
  | block :: _ => inl (mkLlmError (refusal +:+ "; got " +:+ block_type block) "UNSUPPORTED_CONTENT")
  end.

(** A tool call as both requests replay it. *)
Record ReplayedCall : Type := mkReplayed { rc_id : string; rc_name : string; rc_arguments : string }.

(** The texts and the calls of an assistant message; reasoning is not replayed. *)
Fixpoint assistant_parts (refusal : string) (content : list ContentBlock)
    : LlmError + (list string * list ReplayedCall) :=
  match content with
  | [] => inr ([], [])
  | TextContent text :: content =>
      bindE (assistant_parts refusal content) (λ '(texts, calls), inr (text :: texts, calls))
  | ReasoningContent _ :: content => assistant_parts refusal content
  | ToolCallContent id name arguments :: content =>
      bindE (assistant_parts refusal content) (λ '(texts, calls), inr (texts, mkReplayed id name arguments :: calls))
  | OtherContent type :: _ => inl (mkLlmError (refusal +:+ "; got " +:+ type) "UNSUPPORTED_CONTENT")
  end.

(** [tools] is present when there are any. *)
Definition tools_field {Opaque} (o : GenerateOptions Opaque) : option (list (Tool Opaque)) :=
  match go_tools o with Some (t :: ts) => Some (t :: ts) | _ => None end.
