(* ===== verification/GlmRequest.v ===== *)
(** * The Responses request (llm-glm: serialize.ts)

    The input items, the prompt and the options of one model call. *)

From S2P Require Import Prelude LlmStream LlmRequest.

#[local] Open Scope Z_scope.

Inductive ResponsesInputItem : Type :=
| InputMessage (role : string) (content : list string)
| FunctionCall (call : ReplayedCall)
| FunctionCallOutput (call_id output : string).

Record ResponsesRequest (Opaque : Type) : Type := mkRequest {
  rq_model : string;
  rq_instructions : option string;
  rq_input : list ResponsesInputItem;
  rq_tools : option (list (Tool Opaque));
  rq_temperature : option Opaque;
  rq_max_output_tokens : option Z;
}.

Arguments mkRequest {Opaque}.
Arguments rq_input {Opaque}.
Arguments rq_instructions {Opaque}.

Definition renderToolResultContent (content : list ContentBlock) : LlmError + string :=
  bindE (text_only "GLM Responses adapter supports text-only tool result content" content)
    (λ texts, inr (join (String (Ascii.ascii_of_nat 10) "") texts)).

Definition renderSystemText (content : list ContentBlock) : LlmError + string :=
  bindE (text_only "GLM Responses adapter supports text-only system content" content) (λ texts, inr (join "" texts)).

(** One message: the input items pushed, or a system text. *)
Definition message_step (acc : list ResponsesInputItem * list string) (message : Message)
    : LlmError + (list ResponsesInputItem * list string) :=
  let '(input, systemTexts) := acc in
  match message with
  | SystemMessage content =>
      if bool_decide (input ≠ []) then
        inl (mkLlmError "GLM Responses adapter does not support mid-conversation system messages" "UNSUPPORTED_CONTENT")
      else
        bindE (renderSystemText content) (λ text,
          inr (input, if bool_decide (text = "") then systemTexts else systemTexts ++ [text]))
  | UserMessage content =>
      bindE (text_only "GLM Responses adapter supports text-only user content" content) (λ texts,
        inr (if bool_decide (texts = []) then input else input ++ [InputMessage "user" texts], systemTexts))
  | ToolMessage id content =>
      bindE (renderToolResultContent content) (λ output, inr (input ++ [FunctionCallOutput id output], systemTexts))
  | AssistantMessage content =>
      bindE (assistant_parts "GLM Responses adapter supports text-only assistant history" content) (λ '(texts, calls),
        inr ((if bool_decide (texts = []) then input else input ++ [InputMessage "assistant" texts])
               ++ (FunctionCall <$> calls), systemTexts))
  | OtherMessage role =>
      inl (mkLlmError ("GLM Responses adapter does not accept " +:+ role +:+ " messages in the input array") "UNSUPPORTED_CONTENT")
  end.

Fixpoint messages_loop (acc : list ResponsesInputItem * list string) (messages : list Message)
    : LlmError + (list ResponsesInputItem * list string) :=
  match messages with
  | [] => inr acc
  | m :: messages => bindE (message_step acc m) (λ acc, messages_loop acc messages)
  end.

Definition serializeRequest {Opaque} (o : GenerateOptions Opaque) : LlmError + ResponsesRequest Opaque :=
  if bool_decide (default [] (go_stop o) ≠ []) then
    inl (mkLlmError "GLM Responses adapter does not support stop sequences" "UNSUPPORTED")
  else if bool_decide (is_Some (go_reasoningEffort o)) then
    inl (mkLlmError "GLM Responses adapter does not support reasoning effort selection" "UNSUPPORTED")
  else
    bindE (messages_loop ([], []) (go_messages o)) (λ '(input, systemTexts),
      let instructions := join (String (Ascii.ascii_of_nat 10) (String (Ascii.ascii_of_nat 10) ""))
        (filter (λ text, text ≠ "") (option_list (go_system o) ++ systemTexts)) in
      inr (mkRequest (go_model o) (if bool_decide (instructions = "") then None else Some instructions) input
             (tools_field o) (go_temperature o) (go_maxTokens o))).
