(* ===== verification/OpencodeRequest.v ===== *)
(** * The Chat Completions request (llm-opencode-go: serialize.ts)

    The messages and the options of one model call. *)

From S2P Require Import Prelude LlmStream LlmRequest.

#[local] Open Scope Z_scope.

Inductive ChatRequestMessage : Type :=
| ChatSystem (content : string)
| ChatUser (content : string)
| ChatAssistant (content : string) (tool_calls : option (list ReplayedCall))
| ChatTool (tool_call_id content : string).

Record ChatCompletionsRequest (Opaque : Type) : Type := mkRequest {
  rq_model : string;
  rq_messages : list ChatRequestMessage;
  rq_tools : option (list (Tool Opaque));
  rq_temperature : option Opaque;
  rq_max_tokens : option Z;
  rq_stop : option (list string);
}.

Arguments mkRequest {Opaque}.
Arguments rq_messages {Opaque}.

Definition renderSystemText (content : list ContentBlock) : LlmError + string :=
  bindE (text_only "OpenCode Go adapter supports text-only system content" content) (λ texts, inr (join "" texts)).

Definition renderToolResultContent (content : list ContentBlock) : LlmError + string :=
  bindE (text_only "OpenCode Go adapter supports text-only tool result content" content) (λ texts,
    let rendered := join "" texts in inr (if bool_decide (rendered = "") then "(no output)" else rendered)).

Definition flattenText (content : list ContentBlock) : string :=
  join "" (omap (λ b, match b with TextContent text => Some text | _ => None end) content).

Definition chat_message (message : Message) : LlmError + ChatRequestMessage :=
  match message with
  | SystemMessage content => bindE (renderSystemText content) (λ text, inr (ChatSystem text))
  | UserMessage content =>
      bindE (text_only "OpenCode Go adapter supports text-only user content" content) (λ texts, inr (ChatUser (join "" texts)))
  | ToolMessage id content => bindE (renderToolResultContent content) (λ text, inr (ChatTool id text))
  | AssistantMessage content =>
      bindE (assistant_parts "OpenCode Go adapter supports text-only assistant history" content) (λ '(_, calls),
        inr (ChatAssistant (flattenText content) (if bool_decide (calls = []) then None else Some calls)))
  | OtherMessage role =>
      inl (mkLlmError ("OpenCode Go adapter does not accept " +:+ role +:+ " messages in the messages array") "UNSUPPORTED_CONTENT")
  end.

Fixpoint chat_messages (messages : list Message) : LlmError + list ChatRequestMessage :=
  match messages with
  | [] => inr []
  | m :: messages => bindE (chat_message m) (λ c, bindE (chat_messages messages) (λ cs, inr (c :: cs)))
  end.

Definition serializeRequest {Opaque} (o : GenerateOptions Opaque) : LlmError + ChatCompletionsRequest Opaque :=
  if bool_decide (is_Some (go_reasoningEffort o)) then
    inl (mkLlmError "OpenCode Go adapter does not support reasoning effort selection" "UNSUPPORTED")
  else
    bindE (chat_messages (go_messages o)) (λ messages,
      inr (mkRequest (go_model o) ((ChatSystem <$> option_list (go_system o)) ++ messages)
             (tools_field o) (go_temperature o) (go_maxTokens o) (go_stop o))).
