(* ===== verification/LlmRequestFacts.v ===== *)
(** * Facts about the request bodies

    Which options each adapter accepts, the request as a reference definition over the
    messages, and that both adapters replay the same conversation. *)

From S2P Require Import Prelude LlmStream LlmRequest.
From S2P Require GlmRequest OpencodeRequest.

#[local] Open Scope Z_scope.

(** ** Reference definitions *)

Definition texts_of (content : list ContentBlock) : list string :=
  omap (λ b, match b with TextContent text => Some text | _ => None end) content.

Definition calls_of (content : list ContentBlock) : list ReplayedCall :=
  omap (λ b, match b with ToolCallContent id name arguments => Some (mkReplayed id name arguments) | _ => None end) content.

Definition is_text (b : ContentBlock) : Prop := match b with TextContent _ => True | _ => False end.
Definition is_known (b : ContentBlock) : Prop := match b with OtherContent _ => False | _ => True end.

(** The messages both adapters understand. *)
Definition supported (m : Message) : Prop :=
  match m with
  | SystemMessage content | UserMessage content | ToolMessage _ content => Forall is_text content
  | AssistantMessage content => Forall is_known content
  | OtherMessage _ => False
  end.

(** The Responses items of a message. *)
Definition items (m : Message) : list GlmRequest.ResponsesInputItem :=
  match m with
  | SystemMessage _ | OtherMessage _ => []
  | UserMessage content => if bool_decide (texts_of content = []) then [] else [GlmRequest.InputMessage "user" (texts_of content)]
  | AssistantMessage content =>
      (if bool_decide (texts_of content = []) then [] else [GlmRequest.InputMessage "assistant" (texts_of content)])
        ++ (GlmRequest.FunctionCall <$> calls_of content)
  | ToolMessage id content =>
      [GlmRequest.FunctionCallOutput id (join (String (Ascii.ascii_of_nat 10) "") (texts_of content))]
  end.

Definition system_text (m : Message) : option string :=
  match m with
  | SystemMessage content => let text := join "" (texts_of content) in if bool_decide (text = "") then None else Some text
  | _ => None
  end.

(** No system message comes after an item. *)
Fixpoint systems_lead (started : bool) (messages : list Message) : Prop :=
  match messages with
  | [] => True
  | SystemMessage _ :: messages => started = false ∧ systems_lead started messages
  | m :: messages => systems_lead (started || bool_decide (items m ≠ [])) messages
  end.

(** ** The loops compute them *)

Lemma bindE_inr {A B} (r : LlmError + A) (f : A → LlmError + B) b :
  bindE r f = inr b ↔ ∃ a, r = inr a ∧ f a = inr b.
Proof. destruct r; cbn; naive_solver. Qed.

Lemma text_only_ok refusal content texts :
  text_only refusal content = inr texts ↔ Forall is_text content ∧ texts = texts_of content.
Proof.
  revert texts; induction content as [|[t|t|i n a|t] content IH]; intros texts; cbn [text_only];
    try (split; [done|]; intros [H _]; by apply Forall_cons in H as [[] _]).
  - split; [intros [= <-]; auto|by intros [_ ->]].
  - rewrite bindE_inr, Forall_cons; split.
    + intros (ts & [H ->]%IH & [= <-]); done.
    + intros [[_ H] ->]; exists (texts_of content); split; [by apply IH|done].
Qed.

Lemma assistant_parts_ok refusal content p :
  assistant_parts refusal content = inr p ↔ Forall is_known content ∧ p = (texts_of content, calls_of content).
Proof.
  revert p; induction content as [|[t|t|i n a|t] content IH]; intros p; cbn [assistant_parts].
  - split; [intros [= <-]; auto|by intros [_ ->]].
  - rewrite IH, Forall_cons; cbn; naive_solver.
  - rewrite bindE_inr, Forall_cons; split.
    + intros ([ts cs] & [H [= -> ->]]%IH & [= <-]); done.
    + intros [[_ H] ->]; exists (texts_of content, calls_of content); split; [by apply IH|done].
  - rewrite bindE_inr, Forall_cons; split.
    + intros ([ts cs] & [H [= -> ->]]%IH & [= <-]); done.
    + intros [[_ H] ->]; exists (texts_of content, calls_of content); split; [by apply IH|done].
  - split; [done|]; intros [H _]; by apply Forall_cons in H as [[] _].
Qed.

Lemma message_step_ok input systemTexts m acc :
  GlmRequest.message_step (input, systemTexts) m = inr acc ↔
  supported m ∧ systems_lead (bool_decide (input ≠ [])) [m] ∧
  acc = (input ++ items m, systemTexts ++ option_list (system_text m)).
Proof.
  destruct m as [content|content|content|id content|role]; cbn [GlmRequest.message_step supported items system_text option_list systems_lead];
    rewrite ?app_nil_r.
  - destruct (decide (input = [])) as [->|Hne].
    + rewrite (bool_decide_eq_false_2 ([] ≠ [])) by (by intros []); cbn [negb].
      unfold GlmRequest.renderSystemText; rewrite bindE_inr; setoid_rewrite bindE_inr; setoid_rewrite text_only_ok; split.
      * intros (text & (ts & [H ->] & [= <-]) & [= <-]); split; [done|]; split; [done|].
        case_bool_decide; cbn; by rewrite ?app_nil_r.
      * intros (H & _ & ->); eexists; split; [exists (texts_of content); split; [done|reflexivity]|].
        case_bool_decide; cbn; by rewrite ?app_nil_r.
    + rewrite (bool_decide_eq_true_2 (input ≠ [])) by done; split; [done|]; by intros (_ & [? _] & _).
  - rewrite bindE_inr; setoid_rewrite text_only_ok; split.
    + intros (ts & [H ->] & [= <-]); split; [done|]; split; [done|]; case_bool_decide; by rewrite ?app_nil_r.
    + intros (H & _ & ->); eexists; split; [split; [done|reflexivity]|]; case_bool_decide; by rewrite ?app_nil_r.
  - rewrite bindE_inr; setoid_rewrite assistant_parts_ok; split.
    + intros ([ts cs] & [H [= -> ->]] & [= <-]); split; [done|]; split; [done|]; case_bool_decide; by rewrite <- ?app_assoc.
    + intros (H & _ & ->); eexists (_, _); split; [split; [done|reflexivity]|]; case_bool_decide; by rewrite <- ?app_assoc.
  - unfold GlmRequest.renderToolResultContent; rewrite bindE_inr; setoid_rewrite bindE_inr; setoid_rewrite text_only_ok; split.
    + intros (text & (ts & [H ->] & [= <-]) & [= <-]); done.
    + intros (H & _ & ->); eexists; split; [exists (texts_of content); split; [done|reflexivity]|done].
  - split; [done|by intros [[] _]].
Qed.

Lemma messages_loop_ok input systemTexts ms acc :
  GlmRequest.messages_loop (input, systemTexts) ms = inr acc ↔
  Forall supported ms ∧ systems_lead (bool_decide (input ≠ [])) ms ∧
  acc = (input ++ (ms ≫= items), systemTexts ++ omap system_text ms).
Proof.
  revert input systemTexts; induction ms as [|m ms IH]; intros input systemTexts; cbn [GlmRequest.messages_loop].
  - cbn; rewrite !app_nil_r; split; [intros [= <-]; auto|by intros (_ & _ & ->)].
  - rewrite bindE_inr, Forall_cons.
    assert (Hlead : systems_lead (bool_decide (input ≠ [])) (m :: ms) ↔
      systems_lead (bool_decide (input ≠ [])) [m] ∧ systems_lead (bool_decide (input ++ items m ≠ [])) ms).
    { assert (Hb : bool_decide (input ++ items m ≠ []) = bool_decide (input ≠ []) || bool_decide (items m ≠ [])).
      { destruct input as [|i input]; [done|]; by rewrite (bool_decide_eq_true_2 ((i :: input) ++ items m ≠ [])), (bool_decide_eq_true_2 (i :: input ≠ [])). }
      rewrite Hb; destruct m; cbn [systems_lead]; try tauto.
      cbn [items]; rewrite (bool_decide_eq_false_2 ([] ≠ [])), orb_false_r by (by intros []); tauto. }
    rewrite Hlead; cbn [mbind list_bind omap list_omap]; split.
    + intros (a & (Hm & Hl & ->)%message_step_ok & (Hms & Hls & ->)%IH); split; [done|]; split; [done|].
      rewrite <- !app_assoc; f_equal; f_equal; by destruct (system_text m).
    + intros ([Hm Hms] & [Hl Hls] & ->); eexists; split; [by apply message_step_ok|].
      apply IH; split; [done|]; split; [done|]; rewrite <- !app_assoc; f_equal; f_equal; by destruct (system_text m).
Qed.

Lemma chat_message_supported m c : OpencodeRequest.chat_message m = inr c → supported m.
Proof.
  destruct m as [content|content|content|id content|role]; cbn [OpencodeRequest.chat_message]; unfold OpencodeRequest.renderSystemText, OpencodeRequest.renderToolResultContent;
    rewrite ?bindE_inr; [| | | |done].
  - by intros (t & (ts & [H _]%text_only_ok & _)%bindE_inr & _).
  - by intros (t & [H _]%text_only_ok & _).
  - by intros (t & [H _]%assistant_parts_ok & _).
  - by intros (t & (ts & [H _]%text_only_ok & _)%bindE_inr & _).
Qed.

(** ** The properties *)

Section Requests.

Context {Opaque : Type}.

(** The system prompt of the Responses request. *)
Definition instructions_of (o : GenerateOptions Opaque) : string :=
  join (String (Ascii.ascii_of_nat 10) (String (Ascii.ascii_of_nat 10) ""))
    (filter (λ text, text ≠ "") (option_list (go_system o) ++ omap system_text (go_messages o))).

(** The Responses adapter accepts a call exactly when it asks for no stop sequence
    and no reasoning effort, its messages are of supported content and no system
    message follows an input item; the request then carries, in order, the items of
    every message — texts before calls, no reasoning, nothing for an empty message —
    and one prompt joined from the non-empty system texts.  Any other call is refused
    loudly. *)
Theorem responses_request_spec (o : GenerateOptions Opaque) :
  (∀ rq, GlmRequest.serializeRequest o = inr rq ↔
     default [] (go_stop o) = [] ∧ go_reasoningEffort o = None ∧
     Forall supported (go_messages o) ∧ systems_lead false (go_messages o) ∧
     rq = GlmRequest.mkRequest (go_model o)
            (if bool_decide (instructions_of o = "") then None else Some (instructions_of o))
            (go_messages o ≫= items) (tools_field o) (go_temperature o) (go_maxTokens o)) ∧
  ∀ e, GlmRequest.serializeRequest o = inl e → le_code e = "UNSUPPORTED" ∨ le_code e = "UNSUPPORTED_CONTENT".
Proof.
  unfold GlmRequest.serializeRequest; split.
  - intros rq; destruct (decide (default [] (go_stop o) = [])) as [Hs|Hs];
      [rewrite bool_decide_eq_false_2 by (by intros [])|rewrite bool_decide_eq_true_2 by done; split; [done|by intros [? _]]].
    destruct (go_reasoningEffort o) as [r|]; [rewrite bool_decide_eq_true_2 by eauto; split; [done|by intros (_ & ? & _)]|].
    rewrite bool_decide_eq_false_2 by (by intros [? ?]); rewrite bindE_inr; split.
    + intros ([input texts] & (Hsup & Hlead & [= -> ->])%messages_loop_ok & [= <-]); done.
    + intros (_ & _ & Hsup & Hlead & ->); exists (go_messages o ≫= items, omap system_text (go_messages o)); split; [|done].
      by apply messages_loop_ok.
  - intros e; case_bool_decide; [intros [= <-]; by left|]; case_bool_decide; [intros [= <-]; by left|].
    assert (Htext : ∀ refusal content e', text_only refusal content = inl e' → le_code e' = "UNSUPPORTED_CONTENT").
    { intros refusal content e'; induction content as [|[t|t|i n a|t] content IH]; cbn [text_only]; try done;
        try (by intros [= <-]); destruct (text_only refusal content); cbn; [intros [= <-]; by apply IH|done]. }
    assert (Hparts : ∀ refusal content e', assistant_parts refusal content = inl e' → le_code e' = "UNSUPPORTED_CONTENT").
    { intros refusal content e'; induction content as [|[t|t|i n a|t] content IH]; cbn [assistant_parts]; try done;
        try (by intros [= <-]); destruct (assistant_parts refusal content) as [|[? ?]]; cbn; try done; intros [= <-]; by apply IH. }
    assert (Hloop : ∀ ms acc e', GlmRequest.messages_loop acc ms = inl e' → le_code e' = "UNSUPPORTED_CONTENT").
    { induction ms as [|m ms IH]; intros [input texts] e'; cbn [GlmRequest.messages_loop]; [done|].
      destruct (GlmRequest.message_step (input, texts) m) as [e1|acc] eqn:E; cbn [bindE]; [|apply IH].
      intros [= <-]; revert E; destruct m as [content|content|content|id content|role]; cbn [GlmRequest.message_step];
        unfold GlmRequest.renderSystemText, GlmRequest.renderToolResultContent.
      - case_bool_decide; [by intros [= <-]|]; destruct (text_only _ content) eqn:T; cbn; [intros [= <-]; eauto|done].
      - destruct (text_only _ content) eqn:T; cbn; [intros [= <-]; eauto|done].
      - destruct (assistant_parts _ content) as [|[? ?]] eqn:T; cbn; [intros [= <-]; eauto|done].
      - destruct (text_only _ content) eqn:T; cbn; [intros [= <-]; eauto|done].
      - by intros [= <-]. }
    destruct (GlmRequest.messages_loop ([], []) (go_messages o)) as [e1|[input texts]] eqn:E; cbn [bindE]; [|done].
    intros [= <-]; right; by eapply Hloop.
Qed.

(** What a request replays: its calls and the results it joins to them, in order. *)
Inductive Replay : Type :=
| ReplayText (assistant : bool) (text : string)
| ReplayCall (call : ReplayedCall)
| ReplayResult (id : string).

(** Texts that concatenate to nothing are not part of a conversation. *)
Definition replay_text (assistant : bool) (text : string) : list Replay :=
  if bool_decide (text = "") then [] else [ReplayText assistant text].

Definition replay_item (i : GlmRequest.ResponsesInputItem) : list Replay :=
  match i with
  | GlmRequest.InputMessage role texts => replay_text (bool_decide (role = "assistant")) (join "" texts)
  | GlmRequest.FunctionCall call => [ReplayCall call]
  | GlmRequest.FunctionCallOutput id _ => [ReplayResult id]
  end.

Definition replay_message (m : OpencodeRequest.ChatRequestMessage) : list Replay :=
  match m with
  | OpencodeRequest.ChatSystem _ => []
  | OpencodeRequest.ChatUser text => replay_text false text
  | OpencodeRequest.ChatAssistant text calls => replay_text true text ++ (ReplayCall <$> default [] calls)
  | OpencodeRequest.ChatTool id _ => [ReplayResult id]
  end.

Lemma replay_calls calls : (GlmRequest.FunctionCall <$> calls) ≫= replay_item = ReplayCall <$> calls.
Proof. induction calls as [|c calls IH]; [done|]; cbn in *; by rewrite IH. Qed.

Lemma replay_texts (assistant : bool) texts :
  (if bool_decide (texts = []) then []
   else [GlmRequest.InputMessage (if assistant then "assistant" else "user") texts]) ≫= replay_item =
  replay_text assistant (join "" texts).
Proof.
  destruct texts as [|t ts]; [by destruct assistant|]; rewrite bool_decide_eq_false_2 by done.
  destruct assistant; apply app_nil_r.
Qed.

Lemma replay_agrees m c : OpencodeRequest.chat_message m = inr c → items m ≫= replay_item = replay_message c.
Proof.
  destruct m as [content|content|content|id content|role]; cbn [OpencodeRequest.chat_message items]; try done.
  - unfold OpencodeRequest.renderSystemText; by intros (t & _ & [= <-])%bindE_inr.
  - intros (ts & [_ ->]%text_only_ok & [= <-])%bindE_inr; apply (replay_texts false).
  - intros ([ts cs] & [_ [= -> ->]]%assistant_parts_ok & [= <-])%bindE_inr.
    rewrite bind_app, replay_calls; cbn [replay_message]; unfold OpencodeRequest.flattenText; fold (texts_of content).
    rewrite (replay_texts true); f_equal; by destruct (calls_of content).
  - by intros (t & _ & [= <-])%bindE_inr.
Qed.

(** When both adapters accept the same call, their requests replay the same
    conversation: the same user and assistant texts, calls and results, in the same
    order. *)
Theorem requests_agree (o : GenerateOptions Opaque) (rq : GlmRequest.ResponsesRequest Opaque)
    (rc : OpencodeRequest.ChatCompletionsRequest Opaque)
    (Hresponses : GlmRequest.serializeRequest o = inr rq) (Hchat : OpencodeRequest.serializeRequest o = inr rc) :
  GlmRequest.rq_input rq ≫= replay_item = OpencodeRequest.rq_messages rc ≫= replay_message.
Proof.
  apply responses_request_spec in Hresponses as (_ & _ & _ & _ & ->); cbn [GlmRequest.rq_input].
  revert Hchat; unfold OpencodeRequest.serializeRequest; case_bool_decide; [done|].
  intros (cs & Hcs & [= <-])%bindE_inr; cbn [OpencodeRequest.rq_messages]; rewrite bind_app.
  replace ((OpencodeRequest.ChatSystem <$> option_list (go_system o)) ≫= replay_message) with (@nil Replay) by (by destruct (go_system o)).
  revert cs Hcs; induction (go_messages o) as [|m ms IH]; intros cs; cbn [OpencodeRequest.chat_messages]; [by intros [= <-]|].
  intros (c & Hc & (cs' & Hcs' & [= <-])%bindE_inr)%bindE_inr; cbn [app].
  specialize (IH cs' Hcs'); cbn [mbind list_bind app] in IH |- *.
  change (list_bind _ _ ?f ?l) with (l ≫= f); rewrite bind_app, (replay_agrees m c Hc); by f_equal.
Qed.

End Requests.

(** ** A call both accept *)

Definition sample_options : GenerateOptions unit :=
  mkOptions "m" (Some "You play.") 
    [SystemMessage [TextContent "Rules."]; UserMessage [TextContent "look"; TextContent " here"];
     AssistantMessage [ReasoningContent "hm"; TextContent "ok"; ToolCallContent "c1" "look" "{}"];
     ToolMessage "c1" [TextContent "a board"]; UserMessage []]
    None None (Some 100) None None.

Lemma requests_agree_witness :
  ∃ rq rc, GlmRequest.serializeRequest sample_options = inr rq ∧ OpencodeRequest.serializeRequest sample_options = inr rc ∧
    GlmRequest.rq_input rq ≫= replay_item = OpencodeRequest.rq_messages rc ≫= replay_message.
Proof.
  eexists _, _; split; [reflexivity|]; split; [reflexivity|].
  eapply (requests_agree sample_options); reflexivity.
Defined.
