(* ===== verification/Adapter.v ===== *)
(** * A model call (llm-glm and llm-opencode-go: adapter.ts)

    The two adapters drive their calls the same way, over the wire of their endpoint:
    an interface here.  [request] is the transport half; [stream] guards it with an
    idle watchdog and the caller's signal.  The watchdog, the fetch and the text
    decoder are third-party or the host's: what they do comes with the call. *)

From S2P Require Import Prelude LlmStream GlmWire.
From S2P Require OpencodeWire.

#[local] Open Scope Z_scope.

(** ** The wire of an endpoint *)

Class WireOps : Type := {
  Wire : Type;
  Msg : Type;
  wire_create : Wire;
  wire_feed : Wire → list Msg → Wire * (LlmError + list StreamChunk);
  wire_close : Wire → bool → LlmError + list StreamChunk;
  endpoint : string;
}.

(** What [request] does at the end of a body: with the sentinel or the finish seen it
    yields nothing more, otherwise the stream was cut short. *)
Definition closed_early {W : WireOps} (message : string) : LlmError := mkLlmError (endpoint +:+ message) "STREAM_CLOSED".

Section Call.

Context {W : WireOps}.

Fixpoint wire_feeds (w : Wire) (batches : list (list Msg)) : Wire * list StreamChunk * option LlmError :=
  match batches with
  | [] => (w, [], None)
  | messages :: batches =>
      match wire_feed w messages with
      | (w, inl err) => (w, [], Some err)
      | (w, inr chunks) =>
          let '(w, rest, err) := wire_feeds w batches in (w, chunks ++ rest, err)
      end
  end.

(** ** The transport half *)

(** A read of the body: bytes completing some messages, the end with what the decoder
    still held, or a rejection. *)
Inductive Read : Type :=
| ReadData (messages : list Msg)
| ReadDone (messages : list Msg)
| ReadFailed (message : string).

Inductive FetchAnswer : Type :=
| FetchFailed (message : string)
| HttpError (status : Z) (detail : string)
| HttpBodyFailed (message : string)
| NoBody
| Body (reads : list Read).

(** How an iterator ends: it returns, it throws, or it still waits for the outside. *)
Inductive Outcome : Type :=
| Returned
| Threw (error : LlmError)
| Waiting.

(** The chunks of a feed, then what follows; an error of the wire is thrown. *)
Definition yield_feed (r : LlmError + list StreamChunk) (k : list StreamChunk → list StreamChunk * Outcome)
    : list StreamChunk * Outcome :=
  match r with
  | inl err => ([], Threw err)
  | inr chunks => let '(rest, out) := k chunks in (chunks ++ rest, out)
  end.

(** The loop over the body; [saw] is [sawFinish]. *)
Fixpoint read_body (w : Wire) (saw : bool) (reads : list Read) : list StreamChunk * Outcome :=
  match reads with
  | [] => ([], Waiting)
  | ReadFailed message :: _ => ([], Threw (mkLlmError (endpoint +:+ " stream interrupted: " +:+ message) "TRANSPORT"))
  | ReadData messages :: reads =>
      let '(w, r) := wire_feed w messages in
      yield_feed r (λ chunks, read_body w (saw || existsb is_finish chunks) reads)
  | ReadDone messages :: _ =>
      let '(w, r) := wire_feed w messages in
      yield_feed r (λ chunks,
        match wire_close w (saw || existsb is_finish chunks) with
        | inl err => ([], Threw err)
        | inr rest => (rest, Returned)
        end)
  end.

(** Quota and context-window wording are judged by the harness. *)
Context (isQuotaExceededError isContextWindowExceededError : string → bool).

Definition httpErrorCode (status : Z) (detail : string) : string :=
  if (status =? 401) || (status =? 403) then "AUTH"
  else if isQuotaExceededError detail then "QUOTA"
  else if status =? 429 then "RATE_LIMIT"
  else if 500 <=? status then "SERVER"
  else if status =? 400 then (if isContextWindowExceededError detail then "CONTEXT_WINDOW_EXCEEDED" else "INVALID_REQUEST")
  else "HTTP_" +:+ num_str status.

(** [key] is what the check of the credentials throws, [body] what the serialization
    gives. *)
Definition request {R} (key : option LlmError) (body : LlmError + R) (fetch : R → FetchAnswer)
    : list StreamChunk * Outcome :=
  match key, body with
  | Some err, _ | None, inl err => ([], Threw err)
  | None, inr r =>
      match fetch r with
      | FetchFailed message => ([], Threw (mkLlmError (endpoint +:+ " endpoint unreachable: " +:+ message) "TRANSPORT"))
      | HttpError status detail =>
          ([], Threw (mkLlmError (endpoint +:+ " endpoint returned HTTP " +:+ num_str status) (httpErrorCode status detail)))
      (* No error of the adapter: [stream] wraps it. *)
      | HttpBodyFailed message => ([], Threw (mkLlmError (endpoint +:+ " stream failed: " +:+ message) "TRANSPORT"))
      | NoBody => ([], Threw (mkLlmError (endpoint +:+ " endpoint returned a response without a body") "EMPTY_RESPONSE"))
      | Body reads => read_body wire_create false reads
      end
  end.

(** ** The guarded iterator *)

Definition abortedFinish : StreamChunk :=
  Finish (FinishAborted (mkLlmFailure (endpoint +:+ " stream aborted by caller") "ABORTED")).

(** What cuts a call short while its next chunk is awaited: the watchdog, the caller's
    signal, or the consumer leaving. *)
Inductive Cut : Type := IdleTimeout | CallerAbort | ConsumerReturn.

(** [stream]: the chunks of the request and its outcome, or a cut after the first
    [k] chunks. *)
Definition stream (streamIdleTimeoutMs : Z) (call : list StreamChunk * Outcome) (cut : option (nat * Cut))
    : list StreamChunk * Outcome :=
  let '(chunks, out) := call in
  match cut with
  | None => (chunks, out)
  | Some (k, IdleTimeout) =>
      (take k chunks, Threw (mkLlmError (endpoint +:+ " stream idle timeout after " +:+ num_str streamIdleTimeoutMs +:+ "ms") "TIMEOUT"))
  | Some (k, CallerAbort) => (take k chunks ++ [abortedFinish], Returned)
  | Some (k, ConsumerReturn) => (take k chunks, Returned)
  end.

End Call.

Arguments Read : clear implicits.
Arguments Read {_}.
Arguments FetchAnswer : clear implicits.
Arguments FetchAnswer {_}.

(** ** What a wire promises *)

(** The chunks fed keep to the protocol, and a body may end once they hold a finish,
    and only then. *)
Class LawfulWire (W : WireOps) : Prop := {
  wire_law : ∀ batches, let '(w, chunks, err) := wire_feeds wire_create batches in
    ∃ p, protocol_run chunks = Some p ∧
      (err = None → if bool_decide (is_Some (pr_finish p)) then wire_close w (existsb is_finish chunks) = inr []
                    else ∃ e, wire_close w (existsb is_finish chunks) = inl e ∧ le_code e = "STREAM_CLOSED");
}.

(** ** Both endpoints *)

#[export] Instance glm_ops : WireOps := {|
  Wire := ResponsesWire;
  Msg := SseMessage;
  wire_create := createResponsesWire;
  wire_feed := feed;
  wire_close := λ _ saw, if saw then inr [] else inl (mkLlmError "GLM stream ended without a terminal event" "STREAM_CLOSED");
  endpoint := "GLM";
|}.

Definition opencode_ops (toUpperCase : string → string) : WireOps := {|
  Wire := OpencodeWire.ChatCompletionsWire;
  Msg := OpencodeWire.SseData;
  wire_create := OpencodeWire.createChatCompletionsWire;
  wire_feed := OpencodeWire.feed toUpperCase;
  wire_close := λ w _, OpencodeWire.wire_end w;
  endpoint := "OpenCode Go";
|}.

(** A run of the protocol has a finish exactly when a finish was among the chunks. *)
Lemma finish_seen cs p : protocol_run cs = Some p → existsb is_finish cs = bool_decide (is_Some (pr_finish p)).
Proof.
  intros H; destruct (pr_finish p) as [r|] eqn:E.
  - destruct (finish_last cs p H r E) as (cs' & -> & _); rewrite bool_decide_eq_true_2 by eauto.
    rewrite existsb_app; cbn; by rewrite orb_true_r.
  - rewrite bool_decide_eq_false_2 by (by intros [? ?]).
    revert p H E; induction cs as [|c cs IH] using rev_ind; intros p; [done|]; rewrite protocol_run_app.
    intros (q & Hq & Hc)%bind_Some Hp; cbn [foldM] in Hc; apply bind_Some in Hc as (q1 & Hc & [= ->]).
    assert (Hqf : pr_finish q = None) by (destruct (pr_finish q) as [r|] eqn:Er; [by rewrite (finished_stuck _ _ _ Er) in Hc|done]).
    rewrite existsb_app, (IH q Hq Hqf); cbn; rewrite orb_false_r.
    destruct c; try done; unfold protocol_step in Hc; rewrite Hqf in Hc; by injection Hc as <-.
Qed.

#[export] Instance glm_lawful : LawfulWire glm_ops.
Proof.
  split; intros batches; change (@wire_feeds glm_ops) with feeds; cbn [wire_create glm_ops].
  pose proof (tracks_feeds [] createResponsesWire batches tracks_create) as H.
  destruct (feeds createResponsesWire batches) as [[w chunks] err]; destruct H as [_ (q & Hq & _)]; cbn [app] in Hq.
  rewrite protocol_run_app in Hq; apply bind_Some in Hq as (p & Hp & _); exists p; split; [done|]; intros _.
  cbn [wire_close]; rewrite (finish_seen _ _ Hp); destruct (bool_decide _); [done|]; by eexists.
Qed.

#[export] Instance opencode_lawful toUpperCase : LawfulWire (opencode_ops toUpperCase).
Proof.
  split; intros batches; change (@wire_feeds (opencode_ops toUpperCase)) with (OpencodeWire.feeds toUpperCase).
  pose proof (OpencodeWire.feeds_end toUpperCase batches) as H; cbn [wire_create opencode_ops].
  destruct (OpencodeWire.feeds toUpperCase OpencodeWire.createChatCompletionsWire batches) as [[w chunks] err].
  destruct H as (p & Hp & _ & He); exists p; split; [done|]; intros Herr; specialize (He Herr); cbn [wire_close opencode_ops].
  destruct (bool_decide _); [done|]; by eexists.
Qed.

(** ** Calls *)

Lemma protocol_take cs p k : protocol_run cs = Some p → ∃ q, protocol_run (take k cs) = Some q.
Proof. rewrite <- (take_drop k cs) at 1; rewrite protocol_run_app; intros (q & Hq & _)%bind_Some; eauto. Qed.

Section Calls.

Context {W : WireOps} {HW : LawfulWire W}.
Context (isQuota isContext : string → bool).

(** A body is fed in batches; it ends by the wire, by its close, or by its reads. *)
Lemma read_body_feeds w saw reads cs out :
  read_body w saw reads = (cs, out) →
  ∃ batches w' chunks err, wire_feeds w batches = (w', chunks, err) ∧
    match out with
    | Waiting => cs = chunks ∧ err = None
    | Returned => err = None ∧ ∃ rest, wire_close w' (saw || existsb is_finish chunks) = inr rest ∧ cs = chunks ++ rest
    | Threw e => cs = chunks ∧
        (err = Some e ∨ err = None ∧ (le_code e = "TRANSPORT" ∨ wire_close w' (saw || existsb is_finish chunks) = inl e))
    end.
Proof.
  revert w saw cs out; induction reads as [|[messages|messages|message] reads IH]; intros w saw cs out; cbn [read_body].
  - intros [= <- <-]; by exists [], w, [], None.
  - destruct (wire_feed w messages) as [w1 [err|chunks]] eqn:Hf; cbn [yield_feed].
    + intros [= <- <-]; exists [messages], w1, [], (Some err); cbn; rewrite Hf; auto.
    + destruct (read_body w1 (saw || existsb is_finish chunks) reads) as [rest out'] eqn:Hr; intros [= <- <-].
      destruct (IH _ _ _ _ Hr) as (batches & w2 & chunks2 & err & Hb & Hout).
      exists (messages :: batches), w2, (chunks ++ chunks2), err; cbn; rewrite Hf, Hb; split; [done|].
      rewrite existsb_app, orb_assoc; destruct out'; [destruct Hout as (? & r & ? & ->)|destruct Hout as [-> ?]|destruct Hout as [-> ?]]; eauto.
      split; [done|]; exists r; by rewrite app_assoc.
  - destruct (wire_feed w messages) as [w1 [err|chunks]] eqn:Hf; cbn [yield_feed].
    + intros [= <- <-]; exists [messages], w1, [], (Some err); cbn; rewrite Hf; auto.
    + destruct (wire_close w1 (saw || existsb is_finish chunks)) as [err|rest] eqn:Hc; intros [= <- <-];
        exists [messages], w1, chunks, None; cbn [wire_feeds]; rewrite Hf, ?app_nil_r; (split; [done|]); [auto 6|split; [done|by exists rest]].
  - intros [= <- <-]; exists [], w, [], None; auto 7.
Qed.

(** The chunks of a body keep to the protocol; the body returns only when they hold a
    finish, and is reported cut short only when they do not. *)
Lemma body_outcome reads cs out :
  read_body wire_create false reads = (cs, out) →
  ∃ p, protocol_run cs = Some p ∧ (out = Returned → is_Some (pr_finish p)).
Proof.
  intros H; destruct (read_body_feeds _ _ _ _ _ H) as (batches & w' & chunks & err & Hf & Hout).
  pose proof (wire_law batches) as Hl; rewrite Hf in Hl; destruct Hl as (p & Hp & Hclose).
  destruct out as [|e|].
  - destruct Hout as (-> & rest & Hc & ->); cbn [orb] in Hc; specialize (Hclose eq_refl).
    destruct (decide (is_Some (pr_finish p))) as [Hs|Hs].
    + rewrite bool_decide_eq_true_2 in Hclose by done; rewrite Hc in Hclose; injection Hclose as ->.
      exists p; by rewrite app_nil_r.
    + rewrite bool_decide_eq_false_2 in Hclose by done; destruct Hclose as (e & He & _); by rewrite Hc in He.
  - destruct Hout as [-> _]; by exists p.
  - destruct Hout as [-> _]; by exists p.
Qed.

(** C4: Over any lawful wire, whatever the endpoint does, the chunks of a model call
    keep to the stream protocol, and a call that runs to its end returns only after a
    finish: everything else is a typed error.  A stall becomes a TIMEOUT error; a
    caller's abort before the finish ends the stream with the aborted finish; a
    consumer that leaves has had a prefix. *)
Theorem call_outcome {R} (ms : Z) (key : option LlmError) (body : LlmError + R) (fetch : R → FetchAnswer) (k : nat) :
  let call := request isQuota isContext key body fetch in
  (∃ p, protocol_run (stream ms call None).1 = Some p ∧ ((stream ms call None).2 = Returned → is_Some (pr_finish p))) ∧
  (∃ p e, protocol_run (stream ms call (Some (k, IdleTimeout))).1 = Some p ∧
     (stream ms call (Some (k, IdleTimeout))).2 = Threw e ∧ le_code e = "TIMEOUT") ∧
  (∃ p, protocol_run (take k call.1) = Some p ∧ (stream ms call (Some (k, CallerAbort))).2 = Returned ∧
     (pr_finish p = None → ∃ q r, protocol_run (stream ms call (Some (k, CallerAbort))).1 = Some q ∧
        pr_finish q = Some (FinishAborted r))) ∧
  (∃ p, protocol_run (stream ms call (Some (k, ConsumerReturn))).1 = Some p).
Proof.
  assert (Hcall : ∃ p, protocol_run (request isQuota isContext key body fetch).1 = Some p ∧
    ((request isQuota isContext key body fetch).2 = Returned → is_Some (pr_finish p))).
  { unfold request; destruct key as [err|]; [by eexists|]; destruct body as [err|r]; [by eexists|].
    destruct (fetch r) as [m|status detail|m| |reads]; [by eexists..|].
    destruct (read_body wire_create false reads) as [cs out] eqn:H; by apply body_outcome in H. }
  intros call; fold call in Hcall; destruct Hcall as (p & Hp & Hret); destruct call as [cs out]; cbn [fst snd] in *.
  destruct (protocol_take cs p k Hp) as (q & Hq); cbn [stream fst snd].
  split; [by exists p|]; split; [by eexists q, _|]; split; [|by exists q].
  exists q; split; [done|]; split; [done|]; intros Hf; rewrite protocol_run_app, Hq; cbn [mbind option_bind foldM].
  unfold protocol_step, abortedFinish; rewrite Hf; by eexists _, _.
Qed.

(** The code of an HTTP failure is never the transport's, which would be retried
    blindly, nor that of a stream cut short. *)
Lemma http_code status detail :
  400 ≤ status → httpErrorCode isQuota isContext status detail ≠ "TRANSPORT" ∧
  httpErrorCode isQuota isContext status detail ≠ "STREAM_CLOSED".
Proof.
  intros _; unfold httpErrorCode; repeat (match goal with |- context[if ?b then _ else _] => destruct b end; try done).
Qed.

End Calls.

(** ** A call aborted after its finish *)

Definition finished_reads : list (@Read glm_ops) := [ReadData (concat demo_batches)].

(** The response is complete, its connection still open: an abort by the caller then
    yields a second finish, which the protocol has no place for. *)
Lemma abort_after_finish :
  let call := request (λ _, false) (λ _, false) None (inr tt) (λ _ : unit, Body finished_reads) in
  protocol_run call.1 ≠ None ∧
  List.filter is_finish (stream 300000 call (Some (length call.1, CallerAbort))).1 =
    [Finish FinishToolCalls; abortedFinish] ∧
  protocol_run (stream 300000 call (Some (length call.1, CallerAbort))).1 = None.
Proof. cbn zeta; split; [by vm_compute|]; split; vm_refl. Qed.

(** The two calls, over both wires: the first is left open after its finish, the
    second is cut short by the gateway. *)
Lemma call_outcome_witness :
  let call := request (λ _, false) (λ _, false) None (inr tt) (λ _ : unit, Body finished_reads) in
  let cut_short := request (W := opencode_ops id) (λ _, false) (λ _, false) None (inr tt)
    (λ _ : unit, Body [@ReadDone (opencode_ops id) []]) in
  call.1 = demo_chunks ∧ (∃ p, protocol_run (stream 300000 call None).1 = Some p) ∧
  cut_short = ([], Threw (mkLlmError "OpenCode Go stream ended without [DONE]" "STREAM_CLOSED")) ∧
  ∃ p, protocol_run (stream (W := opencode_ops id) 300000 cut_short None).1 = Some p.
Proof.
  intros call cut_short; split; [vm_refl|]; split; [|split; [vm_refl|]].
  - destruct (call_outcome (W := glm_ops) (λ _, false) (λ _, false) 300000 None (inr tt) (λ _ : unit, Body finished_reads) 0)
      as [(p & Hp & _) _]; by exists p.
  - destruct (call_outcome (W := opencode_ops id) (λ _, false) (λ _, false) 300000 None (inr tt)
      (λ _ : unit, Body [@ReadDone (opencode_ops id) []]) 0) as [(p & Hp & _) _]; by exists p.
Defined.
