(* ===== verification/Sts2Drive.v ===== *)
(** * The single-agent driver of the sts2 loop

    [common/js/dsh-plugins/sts2/loop/src/drive.ts]: [MainAgentDriver], which turns
    submitted messages into turns of one agent, counts the ones steered into a
    turn in flight, and keeps the input a cancelled or failed turn left behind.

    The agent is third-party.  The calls made on it are listed ([AgentCall]) and
    its inbox is read as an argument; what the calls do to the inbox is the
    interface [AgentOps] with the laws [LawfulAgent], instantiated at the end of
    the file by a two-queue inbox.

    A turn is asynchronous: [startTurn] runs to its first [await] in one step,
    [turn_idle] is the rest of [runTurn] once the agent falls idle, and
    [turn_reject] is the rejection of the turn's promise.  The reaction that
    clears [activeTurn] is the first one registered on that promise, so it is part
    of the step that ends the turn. *)

From S2P Require Import Prelude.

#[local] Open Scope Z_scope.

(** ** Failure classification *)

Inductive MainDriveErrorCode : Type :=
| TRANSIENT | QUOTA | CREDENTIAL | CONFIG | INPUT_TOO_LARGE | INTERNAL.

#[global] Instance MainDriveErrorCode_eq_dec : EqDecision MainDriveErrorCode.
Proof. solve_decision. Defined.

Definition TRANSIENT_ENGINE_CODES : list string :=
  ["RATE_LIMIT"; "SERVER"; "TIMEOUT"; "TRANSPORT"; "EMPTY_RESPONSE"].
Definition QUOTA_ENGINE_CODES : list string := ["QUOTA"; "ACCOUNT_QUOTA"].
Definition CREDENTIAL_ENGINE_CODES : list string :=
  ["INVALID_CREDENTIAL"; "MISSING_CREDENTIAL"; "AUTH"].
Definition CONFIG_ENGINE_CODES : list string :=
  ["NO_ADAPTER"; "INVALID_REQUEST"; "UNSUPPORTED_CONTENT"; "UNSUPPORTED"].
Definition INPUT_TOO_LARGE_ENGINE_CODES : list string :=
  ["CONTEXT_WINDOW_EXCEEDED"; "IMAGE_OFFLOAD_REQUIRED"].

Definition mapEngineCode (engineCode : option string) : MainDriveErrorCode :=
  match engineCode with
  | None => INTERNAL
  | Some code =>
      if bool_decide (code ∈ TRANSIENT_ENGINE_CODES) then TRANSIENT
      else if bool_decide (code ∈ QUOTA_ENGINE_CODES) then QUOTA
      else if bool_decide (code ∈ CREDENTIAL_ENGINE_CODES) then CREDENTIAL
      else if bool_decide (code ∈ CONFIG_ENGINE_CODES) || String.prefix "HTTP_" code then CONFIG
      else if bool_decide (code ∈ INPUT_TOO_LARGE_ENGINE_CODES) then INPUT_TOO_LARGE
      else INTERNAL
  end.

Record MainDriveFailureDetail : Type := mkDetail { engineCode : option string; fd_message : string }.

Record MainDriveFailure : Type := mkFailure {
  mf_message : string;
  mf_code : MainDriveErrorCode;
  mf_detail : MainDriveFailureDetail;
}.

Inductive MainDriveOutcome : Type :=
| settled
| resting
| aborted
| failed (code : MainDriveErrorCode) (detail : MainDriveFailureDetail).

(** [TurnFailure] has the shape of the detail it becomes. *)
Record TurnFailure : Type := mkTurnFailure { tf_engineCode : option string; tf_message : string }.

#[global] Instance MainDriveFailureDetail_eq_dec : EqDecision MainDriveFailureDetail.
Proof. solve_decision. Defined.
#[global] Instance MainDriveFailure_eq_dec : EqDecision MainDriveFailure.
Proof. solve_decision. Defined.
#[global] Instance MainDriveOutcome_eq_dec : EqDecision MainDriveOutcome.
Proof. solve_decision. Defined.

(** What an [agent/error] payload carries: an [Error] or another object, with or
    without a property [code], or a primitive value.  [text] is the [message] of
    an [Error] and the [String] of anything else. *)
Inductive code_property : Type := CodeAbsent | CodeString (s : string) | CodeNotString.
Inductive error_payload : Type :=
| ErrorObject (code : code_property) (text : string)
| Primitive (text : string).

Definition engineCodeOf (error : error_payload) : option string :=
  match error with
  | Primitive _ => None
  | ErrorObject CodeAbsent _ | ErrorObject CodeNotString _ => None
  | ErrorObject (CodeString code) _ => if bool_decide (code = "") then None else Some code
  end.

Definition turnFailureOf (error : error_payload) : TurnFailure :=
  let message := match error with ErrorObject _ text | Primitive text => text end in
  mkTurnFailure (engineCodeOf error) message.

(** ** The driver *)

Record UserMessage : Type := mkUserMessage { message_id : string; message_text : string }.

#[global] Instance UserMessage_eq_dec : EqDecision UserMessage.
Proof. solve_decision. Defined.

Inductive AgentCancelCause : Type := CauseUser | CauseDisposed.

Inductive AgentCall : Type :=
| CallInject (message : UserMessage)
| CallFollowup (message : UserMessage)
| CallSteer (message : UserMessage)
| CallCancel (cause : AgentCancelCause)
| CallRemove (id : string).

Record MainAgentDriver : Type := mkDriver {
  activeTurn : bool;
  steered : list UserMessage;
  held : list UserMessage;
  abortHeld : option (list UserMessage);
  lastTurnFailure : option TurnFailure;
  abortRequested : bool;
  frozen : bool;
  lastTurnError : option MainDriveFailure;
  observing : bool;
}.

Definition new_driver : MainAgentDriver := mkDriver false [] [] None None false false None true.

Definition busy (d : MainAgentDriver) : bool := activeTurn d.
Definition pendingInput (d : MainAgentDriver) : Z := Z.of_nat (length (steered d)).
Definition paused (d : MainAgentDriver) : bool := frozen d.
Definition has_failed (d : MainAgentDriver) : bool := bool_decide (lastTurnError d ≠ None).
Definition lastError (d : MainAgentDriver) : option MainDriveFailure := lastTurnError d.

(** The [agent/error] observation, which checks the payload's agent. *)
Definition on_error (d : MainAgentDriver) (own_agent : bool) (error : error_payload) : MainAgentDriver :=
  if observing d && own_agent then
    mkDriver (activeTurn d) (steered d) (held d) (abortHeld d) (Some (turnFailureOf error))
      (abortRequested d) (frozen d) (lastTurnError d) (observing d)
  else d.

(** The first part of [runTurn]: inject all but the last, follow up with the last. *)
Fixpoint batch (messages : list UserMessage) : list AgentCall :=
  match messages with
  | [] => []
  | [m] => [CallFollowup m]
  | m :: messages => CallInject m :: batch messages
  end.

(** [None] is the invariant violation, which throws.  [thrown] is the number of
    calls made before one throws: the turn's promise is then rejected and
    [activeTurn] cleared.  The last result says whether the turn is in flight. *)
Definition startTurn (d : MainAgentDriver) (messages : list UserMessage) (thrown : option nat)
    : option (MainAgentDriver * list AgentCall * bool) :=
  if activeTurn d then None
  else match messages with
  | [] => Some (d, [], false)
  | _ =>
      let started b := mkDriver b (steered d) (held d) None None false (frozen d) (lastTurnError d) (observing d) in
      match thrown with
      | Some k => if bool_decide (k < length (batch messages))%nat
                  then Some (started false, take k (batch messages), false)
                  else Some (started true, batch messages, true)
      | None => Some (started true, batch messages, true)
      end
  end.

(** [steer_throws]: the call on the agent throws out of [submit]. *)
Definition submit (d : MainAgentDriver) (message : UserMessage) (steer_throws : bool) (thrown : option nat)
    : option (MainAgentDriver * list AgentCall) :=
  if activeTurn d then
    if steer_throws then None
    else Some (mkDriver true (steered d ++ [message]) (held d) (abortHeld d) (lastTurnFailure d)
                 (abortRequested d) (frozen d) (lastTurnError d) (observing d), [CallSteer message])
  else
    let replay := held d in
    let d := mkDriver false (steered d) [] (abortHeld d) (lastTurnFailure d) (abortRequested d) false
               (lastTurnError d) (observing d) in
    r ← startTurn d (replay ++ [message]) thrown; Some r.1.

Definition cancel (d : MainAgentDriver) (cause : AgentCancelCause) : MainAgentDriver * list AgentCall :=
  if negb (activeTurn d) || abortRequested d then
    (mkDriver (activeTurn d) (steered d) (held d) (abortHeld d) (lastTurnFailure d) (abortRequested d)
       true (lastTurnError d) (observing d), [])
  else
    (mkDriver (activeTurn d) [] (held d) (Some (steered d)) (lastTurnFailure d) true true
       (lastTurnError d) (observing d), [CallCancel cause]).

Definition dispose (d : MainAgentDriver) : MainAgentDriver :=
  mkDriver (activeTurn d) (steered d) (held d) (abortHeld d) (lastTurnFailure d) (abortRequested d)
    (frozen d) (lastTurnError d) false.

(** ** The end of a turn *)

(** [inbox] is [[...inbox.nextStep, ...inbox.nextTurn]]. *)
Definition takeUnclaimed (inbox steered : list UserMessage) : list UserMessage :=
  filter (λ m, message_id m ∈ map message_id inbox) steered.

Definition removals (messages : list UserMessage) : list AgentCall :=
  map (λ m, CallRemove (message_id m)) messages.

Definition turn_idle (d : MainAgentDriver) (inbox : list UserMessage)
    : MainAgentDriver * list AgentCall * MainDriveOutcome :=
  let unclaimed := takeUnclaimed inbox (steered d) in
  if abortRequested d then
    (mkDriver false [] (unclaimed ++ default [] (abortHeld d) ++ held d) None None false (frozen d) None
       (observing d), removals unclaimed, aborted)
  else match lastTurnFailure d with
  | Some f =>
      let detail := mkDetail (tf_engineCode f) (tf_message f) in
      let code := mapEngineCode (tf_engineCode f) in
      (mkDriver false [] (unclaimed ++ held d) (abortHeld d) None false true
         (Some (mkFailure (tf_message f) code detail)) (observing d), removals unclaimed, failed code detail)
  | None =>
      (mkDriver false [] (held d) (abortHeld d) None false (frozen d) None (observing d), [], settled)
  end.

(** The agent's idle promise rejected. *)
Definition turn_reject (d : MainAgentDriver) : MainAgentDriver :=
  mkDriver false (steered d) (held d) (abortHeld d) (lastTurnFailure d) (abortRequested d)
    (frozen d) (lastTurnError d) (observing d).

(** ** The agent's inbox *)

Class AgentOps (A : Type) : Type := {
  inbox : A → list UserMessage;
  agent_call : A → AgentCall → A;
}.

(** A message given to the agent waits in the inbox, once; cancelling the turn
    discards the inbox; a removed message is gone from it. *)
Class LawfulAgent (A : Type) `{AgentOps A} : Prop := {
  inject_inbox a m : inbox (agent_call a (CallInject m)) ≡ₚ inbox a ++ [m];
  followup_inbox a m : inbox (agent_call a (CallFollowup m)) ≡ₚ inbox a ++ [m];
  steer_inbox a m : inbox (agent_call a (CallSteer m)) ≡ₚ inbox a ++ [m];
  cancel_inbox a cause : inbox (agent_call a (CallCancel cause)) = [];
  remove_inbox a i : inbox (agent_call a (CallRemove i)) ≡ₚ filter (λ m, message_id m ≠ i) (inbox a);
}.

Definition agent_calls {A} `{AgentOps A} (a : A) (calls : list AgentCall) : A := fold_left agent_call calls a.

(** ** The driver and its agent *)

Section World.
Context {A : Type} `{AgentOps A}.

(** With the messages submitted and the ones the agent's turns claimed. *)
Record World : Type := mkWorld {
  w_driver : MainAgentDriver;
  w_agent : A;
  w_submitted : list UserMessage;
  w_claimed : list UserMessage;
}.

Inductive event : Type :=
| Submit (message : UserMessage)
| Cancel (cause : AgentCancelCause)
| Claim (messages : list UserMessage)
| AgentError (own_agent : bool) (error : error_payload)
| Idle.

(** The steps of a run in which the calls on the agent return and its idle
    promise resolves.  A submitted message is new ([createUserMessage] mints its
    id), a claim takes messages out of the inbox, at a boundary of a turn. *)
Inductive step (w : World) : event → World → Prop :=
| step_submit m d calls :
    message_id m ∉ map message_id (w_submitted w) →
    submit (w_driver w) m false None = Some (d, calls) →
    step w (Submit m) (mkWorld d (agent_calls (w_agent w) calls) (w_submitted w ++ [m]) (w_claimed w))
| step_cancel cause d calls :
    cancel (w_driver w) cause = (d, calls) →
    step w (Cancel cause) (mkWorld d (agent_calls (w_agent w) calls) (w_submitted w) (w_claimed w))
| step_claim ms a :
    busy (w_driver w) = true →
    inbox (w_agent w) ≡ₚ ms ++ inbox a →
    step w (Claim ms) (mkWorld (w_driver w) a (w_submitted w) (w_claimed w ++ ms))
| step_error own e :
    step w (AgentError own e) (mkWorld (on_error (w_driver w) own e) (w_agent w) (w_submitted w) (w_claimed w))
| step_idle d calls outcome :
    busy (w_driver w) = true →
    turn_idle (w_driver w) (inbox (w_agent w)) = (d, calls, outcome) →
    step w Idle (mkWorld d (agent_calls (w_agent w) calls) (w_submitted w) (w_claimed w)).

(** A run whose steps all satisfy [ok]. *)
Inductive run (ok : World → event → Prop) (w : World) : list event → World → Prop :=
| run_nil : run ok w [] w
| run_snoc es w' e w'' : run ok w es w' → ok w' e → step w' e w'' → run ok w (es ++ [e]) w''.

Definition initial (a : A) : World := mkWorld new_driver a [] [].

Definition any_step (w : World) (e : event) : Prop := True.

Definition no_cancel (w : World) (e : event) : Prop :=
  match e with Cancel _ => False | _ => True end.

(** A turn is cancelled once it has claimed the batch that opened it, while the inbox
    holds nothing but what it was steered with. *)
Definition cancel_after_claim (w : World) (e : event) : Prop :=
  match e with
  | Cancel _ => busy (w_driver w) = true → ∀ m, m ∈ inbox (w_agent w) → m ∈ steered (w_driver w)
  | _ => True
  end.

End World.
Arguments World : clear implicits.

(** ** A two-queue inbox *)

Record queues : Type := mkQueues { nextStep : list UserMessage; nextTurn : list UserMessage }.

#[export] Instance queues_ops : AgentOps queues := {
  inbox q := nextStep q ++ nextTurn q;
  agent_call q call :=
    match call with
    | CallInject m | CallSteer m => mkQueues (nextStep q ++ [m]) (nextTurn q)
    | CallFollowup m => mkQueues (nextStep q) (nextTurn q ++ [m])
    | CallCancel _ => mkQueues [] []
    | CallRemove i => mkQueues (filter (λ m, message_id m ≠ i) (nextStep q))
                        (filter (λ m, message_id m ≠ i) (nextTurn q))
    end;
}.

(** ** The state machine the driver is meant to be *)

Inductive Phase : Type :=
| Quiescent
| MainTurn (cancelled errored : bool)
| Frozen.

Record Spec : Type := mkSpec { sp_phase : Phase; sp_queued : Z; sp_failed : bool }.

Definition spec_init : Spec := mkSpec Quiescent 0 false.

Definition spec_step (s : Spec) (e : event) : Spec :=
  match e, sp_phase s with
  | Submit _, MainTurn c x => mkSpec (MainTurn c x) (sp_queued s + 1) (sp_failed s)
  | Submit _, _ => mkSpec (MainTurn false false) 0 (sp_failed s)
  | Cancel _, MainTurn false x => mkSpec (MainTurn true x) 0 (sp_failed s)
  | Cancel _, MainTurn true x => s
  | Cancel _, _ => mkSpec Frozen (sp_queued s) (sp_failed s)
  | AgentError true _, MainTurn c _ => mkSpec (MainTurn c true) (sp_queued s) (sp_failed s)
  | Idle, MainTurn true _ => mkSpec Frozen 0 false
  | Idle, MainTurn false true => mkSpec Frozen 0 true
  | Idle, MainTurn false false => mkSpec Quiescent 0 false
  | _, _ => s
  end.

Definition spec_of (d : MainAgentDriver) : Spec :=
  mkSpec (if busy d then MainTurn (abortRequested d) (bool_decide (lastTurnFailure d ≠ None))
          else if paused d then Frozen else Quiescent)
    (pendingInput d) (has_failed d).
