(* ===== verification/Sts2DriveFacts.v ===== *)
(** * The single-agent driver: properties

    What [Sts2Drive] promises: every submitted message is accounted for, the
    driver implements the state machine of its design, and its failure classes are
    those of the team loop. *)

From S2P Require Import Prelude Sts2Drive.
From S2P Require Flow Members.

#[local] Open Scope Z_scope.

(** The two classifications of engine codes are the same table. *)
Definition loop_code (code : MainDriveErrorCode) : Flow.LoopErrorCode :=
  match code with
  | TRANSIENT => Flow.TRANSIENT | QUOTA => Flow.QUOTA | CREDENTIAL => Flow.CREDENTIAL
  | CONFIG => Flow.CONFIG | INPUT_TOO_LARGE => Flow.INPUT_TOO_LARGE | INTERNAL => Flow.INTERNAL
  end.

Lemma mapEngineCode_agrees code : loop_code (mapEngineCode code) = Members.mapEngineCode code.
Proof.
  destruct code as [c|]; [|done]. unfold mapEngineCode, Members.mapEngineCode.
  change Members.TRANSIENT_ENGINE_CODES with TRANSIENT_ENGINE_CODES.
  change Members.QUOTA_ENGINE_CODES with QUOTA_ENGINE_CODES.
  change Members.CREDENTIAL_ENGINE_CODES with CREDENTIAL_ENGINE_CODES.
  change Members.CONFIG_ENGINE_CODES with CONFIG_ENGINE_CODES.
  change Members.INPUT_TOO_LARGE_ENGINE_CODES with INPUT_TOO_LARGE_ENGINE_CODES.
  repeat (case_match; try done).
Qed.

(** ** The driver's shape *)

(** At rest nothing is steered, captured or being cancelled, and a failure has
    frozen the driver; in a turn, being frozen, having been cancelled and holding
    the captured set are one fact. *)
Record driver_wf (d : MainAgentDriver) : Prop := {
  wf_rest : busy d = false → steered d = [] ∧ abortHeld d = None ∧ abortRequested d = false;
  wf_failed : busy d = false → lastTurnError d ≠ None → frozen d = true;
  wf_turn : busy d = true → frozen d = abortRequested d ∧ bool_decide (is_Some (abortHeld d)) = abortRequested d;
  wf_observing : observing d = true;
}.

Lemma new_driver_wf : driver_wf new_driver.
Proof. by split. Qed.

Lemma submit_cases d m :
  ∃ r, submit d m false None = Some r ∧
  (busy d = true ∧
   r = (mkDriver true (steered d ++ [m]) (held d) (abortHeld d) (lastTurnFailure d) (abortRequested d)
          (frozen d) (lastTurnError d) (observing d), [CallSteer m]) ∨
   busy d = false ∧
   r = (mkDriver true (steered d) [] None None false false (lastTurnError d) (observing d),
        batch (held d ++ [m]))).
Proof.
  unfold submit, busy. destruct (activeTurn d); [by eauto|]. unfold startTurn. simpl.
  destruct (held d) as [|m' l] eqn:E; simpl; [by eauto|]. eexists. split; [done|]. right. by split.
Qed.

Section Wf.
Context {A : Type} `{AgentOps A}.
Implicit Types w : World A.

Lemma step_wf w e w' : driver_wf (w_driver w) → step w e w' → driver_wf (w_driver w').
Proof.
  intros [W1 W2 W3 W4] Hs.
  destruct Hs as [m d calls _ E|cause d calls E|ms a _ _|own e|d calls o Hb E]; cbn [w_driver].
  - destruct (submit_cases (w_driver w) m) as (r & E' & Hr). rewrite E in E'. simplify_eq.
    destruct Hr as [[Hb Hr]|[Hb Hr]]; simplify_eq/=; split; cbn; auto; done.
  - unfold cancel in E. unfold busy in *. destruct (activeTurn (w_driver w)) eqn:Ea; simpl in E;
      [destruct (abortRequested (w_driver w)) eqn:Eb|]; simplify_eq/=; split; cbn; rewrite ?Ea; auto; try done.
    intros _. split; [done|]. by apply W3.
  - done.
  - unfold on_error. destruct (_ && _); [|done]. by split.
  - unfold turn_idle in E. destruct (W3 Hb) as [Hf Ha].
    destruct (abortRequested (w_driver w)) eqn:Eb; [simplify_eq/=; by split|].
    apply bool_decide_eq_false, eq_None_not_Some in Ha.
    destruct (lastTurnFailure (w_driver w)); simplify_eq/=; by split.
Qed.

Lemma run_wf ok (a : A) es w : run ok (initial a) es w → driver_wf (w_driver w).
Proof.
  remember (initial a) as w0. induction 1 as [|es w' e w'' _ IH _ Hs]; subst.
  - apply new_driver_wf.
  - eapply step_wf; [by apply IH|done].
Qed.

Lemma step_spec w e w' :
  driver_wf (w_driver w) → step w e w' → spec_of (w_driver w') = spec_step (spec_of (w_driver w)) e.
Proof.
  intros [W1 W2 W3 W4] Hs. destruct Hs as [m d calls _ E|cause d calls E|ms a _ _|own e|d calls o Hb E]; simpl.
  - destruct (submit_cases (w_driver w) m) as (r & E' & Hr). rewrite E in E'. simplify_eq.
    destruct Hr as [[Hb Hr]|[Hb Hr]]; simplify_eq; unfold spec_of, spec_step; rewrite Hb; simpl.
    + unfold pendingInput. simpl. f_equal. rewrite length_app. simpl. lia.
    + destruct (W1 Hb) as (-> & ? & ?). by destruct (paused (w_driver w)).
  - unfold cancel in E. unfold spec_of, spec_step, busy, paused in *.
    destruct (activeTurn (w_driver w)) eqn:Ea; [|by simplify_eq/=; destruct (frozen (w_driver w))].
    destruct (abortRequested (w_driver w)) eqn:Eb; simplify_eq/=; by rewrite ?Ea, ?Eb.
  - unfold spec_step. by destruct (sp_phase (spec_of (w_driver w))) as [|[] []|].
  - unfold on_error, spec_of, spec_step, busy, paused. rewrite W4. destruct own; simpl.
    + destruct (activeTurn (w_driver w)) eqn:Ea; simpl; rewrite ?Ea; [done|].
      by destruct (frozen (w_driver w)).
    + by destruct (activeTurn (w_driver w)), (frozen (w_driver w)).
  - unfold turn_idle in E. unfold spec_of, spec_step. rewrite Hb. destruct (W3 Hb) as [Hf Ha].
    destruct (abortRequested (w_driver w)) eqn:Eb; [simplify_eq/=|].
    + unfold paused. simpl. by rewrite Hf.
    + destruct (lastTurnFailure (w_driver w)); simplify_eq/=; unfold paused; simpl; by rewrite ?Hf.
Qed.


Lemma run_spec ok (a : A) es w :
  run ok (initial a) es w → spec_of (w_driver w) = fold_left spec_step es spec_init.
Proof.
  remember (initial a) as w0. induction 1 as [|es w' e w'' Hr IH _ Hs]; subst; [done|].
  rewrite fold_left_app. simpl. rewrite <- IH by done. apply step_spec; [|done]. by eapply run_wf.
Qed.
End Wf.

(** ** Every message is accounted for *)

Lemma elem_of_id_inj (l : list UserMessage) m m' :
  NoDup (map message_id l) → m ∈ l → m' ∈ l → message_id m = message_id m' → m = m'.
Proof.
  intros Hn Hm Hm' E. induction l as [|x l IH]; simpl in *; [by apply elem_of_nil in Hm|].
  apply NoDup_cons in Hn as [Hx Hn]. apply elem_of_cons in Hm as [->|Hm], Hm' as [->|Hm']; try done.
  - exfalso. apply Hx. rewrite E. by apply list_elem_of_fmap_2.
  - exfalso. apply Hx. rewrite <- E. by apply list_elem_of_fmap_2.
  - by apply IH.
Qed.

Section Accounting.
Context {A : Type} `{LawfulAgent A}.
Implicit Types (w : World A) (a : A) (l : list UserMessage).

Lemma batch_inbox a l : inbox (agent_calls a (batch l)) ≡ₚ inbox a ++ l.
Proof.
  revert a. induction l as [|m [|m' l] IH]; intros a; [by rewrite app_nil_r|apply followup_inbox|].
  change (agent_calls a (batch (m :: m' :: l))) with (agent_calls (agent_call a (CallInject m)) (batch (m' :: l))).
  rewrite IH, inject_inbox, <- app_assoc. done.
Qed.

Lemma removals_inbox a l :
  inbox (agent_calls a (removals l)) ≡ₚ filter (λ m, message_id m ∉ map message_id l) (inbox a).
Proof.
  revert a. induction l as [|m l IH]; intros a.
  - change (agent_calls a (removals [])) with a. induction (inbox a) as [|x y IHx]; [done|].
    rewrite filter_cons_True by (simpl; apply not_elem_of_nil). by f_equiv.
  - change (agent_calls a (removals (m :: l)))
      with (agent_calls (agent_call a (CallRemove (message_id m))) (removals l)).
    rewrite IH, remove_inbox, list_filter_filter. simpl.
    erewrite list_filter_iff; [done|]. intros x. simpl. rewrite not_elem_of_cons. tauto.
Qed.

(** The steering messages a turn left unclaimed leave the inbox for the held set. *)
Lemma taken_inbox a l (all : list UserMessage) :
  NoDup (map message_id all) → inbox a ⊆ all → l ⊆ all → NoDup (inbox a) → NoDup l →
  let unclaimed := takeUnclaimed (inbox a) l in
  inbox a ≡ₚ unclaimed ++ inbox (agent_calls a (removals unclaimed)).
Proof.
  intros Hn Ha Hl Hna Hnl unclaimed. rewrite removals_inbox.
  assert (∀ m, m ∈ unclaimed ↔ m ∈ l ∧ m ∈ inbox a) as Hu.
  { intros m. unfold unclaimed, takeUnclaimed. rewrite list_elem_of_filter. split; [|intros [? Hm]].
    - intros [(m' & E & Hm')%list_elem_of_fmap Hm]. split; [done|].
      replace m with m'; [done|]. eapply elem_of_id_inj; [exact Hn|by apply Ha|by apply Hl|done].
    - split; [|done]. by apply list_elem_of_fmap_2. }
  apply NoDup_Permutation; [done| |].
  - apply NoDup_app. split_and!; [by apply NoDup_filter| |by apply NoDup_filter].
    intros m Hm [Hx _]%list_elem_of_filter. apply Hx. by apply list_elem_of_fmap_2.
  - intros m. rewrite elem_of_app, list_elem_of_filter. split.
    + intros Hm. destruct (decide (m ∈ unclaimed)) as [|Hx]; [by left|]. right. split; [|done].
      intros (m' & E & Hm')%list_elem_of_fmap. apply Hx. replace m with m'; [done|].
      eapply elem_of_id_inj; [exact Hn|apply Ha; by apply Hu|by apply Ha|done].
    + intros [Hm%Hu|[_ Hm]]; [by apply Hm|done].
Qed.

(** The driver's lists only hold submitted messages. *)
Record known w : Prop := {
  k_ids : NoDup (map message_id (w_submitted w));
  k_inbox : inbox (w_agent w) ⊆ w_submitted w;
  k_steered : steered (w_driver w) ⊆ w_submitted w;
  k_held : held (w_driver w) ++ default [] (abortHeld (w_driver w)) ⊆ w_submitted w;
}.

Lemma initial_known a : inbox a = [] → known (initial a).
Proof. intros E. split; simpl; rewrite ?E; [constructor|set_solver..]. Qed.

Lemma removals_subset a l : inbox (agent_calls a (removals l)) ⊆ inbox a.
Proof. intros m. rewrite removals_inbox. by intros [_ ?]%list_elem_of_filter. Qed.

Lemma takeUnclaimed_subset l l' : takeUnclaimed l l' ⊆ l'.
Proof. by intros m [_ ?]%list_elem_of_filter. Qed.

(** What a turn that ends leaves: the steering it did not claim is held. *)
Lemma turn_idle_cases d box :
  let '(d', calls, outcome) := turn_idle d box in
  steered d' = [] ∧
  (outcome = settled ∧ abortRequested d = false ∧ calls = [] ∧ held d' = held d ∧ abortHeld d' = abortHeld d ∨
   outcome = aborted ∧ abortRequested d = true ∧ calls = removals (takeUnclaimed box (steered d)) ∧
     held d' = takeUnclaimed box (steered d) ++ default [] (abortHeld d) ++ held d ∧ abortHeld d' = None ∨
   (∃ code detail, outcome = failed code detail) ∧ abortRequested d = false ∧
     calls = removals (takeUnclaimed box (steered d)) ∧
     held d' = takeUnclaimed box (steered d) ++ held d ∧ abortHeld d' = abortHeld d).
Proof.
  unfold turn_idle. destruct (abortRequested d); simpl; [split; [done|]; right; left; by split_and!|].
  destruct (lastTurnFailure d); simpl; (split; [done|]); [right; right|by left].
  split_and!; by eauto.
Qed.

Lemma step_known w e w' : known w → step w e w' → known w'.
Proof.
  intros [K1 K2 K3 K4] Hs.
  destruct Hs as [m d calls Hm E|cause d calls E|ms a Hb Hp|own e|d calls o Hb E].
  - destruct (submit_cases (w_driver w) m) as (r & E' & Hr). rewrite E in E'. simplify_eq.
    assert (NoDup (map message_id (w_submitted w ++ [m]))) as Hn.
    { rewrite map_app. apply NoDup_app. split_and!; [done| |by apply NoDup_singleton].
      intros i Hi ->%list_elem_of_singleton. by apply Hm. }
    destruct Hr as [[_ Hr]|[_ Hr]]; simplify_eq/=; split; simpl; try done.
    + intros x. rewrite steer_inbox. rewrite !elem_of_app. naive_solver.
    + intros x. rewrite !elem_of_app. naive_solver.
    + intros x Hx. apply elem_of_app. left. by apply K4.
    + intros x. rewrite batch_inbox. rewrite !elem_of_app. intros [Hx|[Hx|Hx]]; [by left; apply K2| |by right].
      left. apply K4. apply elem_of_app. by left.
    + intros x Hx. apply elem_of_app. left. by apply K3.
    + intros x Hx. by apply elem_of_nil in Hx.
  - unfold cancel in E. destruct (negb _ || _); simplify_eq/=; split; simpl; try done.
    + rewrite cancel_inbox. intros x Hx. by apply elem_of_nil in Hx.
    + intros x Hx. by apply elem_of_nil in Hx.
    + intros x [Hx|Hx]%elem_of_app; [|by apply K3]. apply K4. apply elem_of_app. by left.
  - split; simpl; try done. intros x Hx. apply K2. rewrite Hp. apply elem_of_app. by right.
  - unfold on_error. destruct (_ && _); by split.
  - pose proof (turn_idle_cases (w_driver w) (inbox (w_agent w))) as Hc. rewrite E in Hc.
    destruct Hc as [Es Hc].
    assert (takeUnclaimed (inbox (w_agent w)) (steered (w_driver w)) ⊆ w_submitted w) as Ht.
    { intros x Hx. by eapply K3, takeUnclaimed_subset. }
    split; simpl; [done| |rewrite Es; intros x Hx; by apply elem_of_nil in Hx|].
    + destruct Hc as [(_ & _ & -> & _)|[(_ & _ & -> & _)|(_ & _ & -> & _)]]; [done|..];
        intros x Hx; by eapply K2, removals_subset.
    + intros x. setoid_rewrite elem_of_subseteq in K4. setoid_rewrite elem_of_app in K4.
      destruct Hc as [(_ & _ & _ & -> & ->)|[(_ & _ & _ & -> & ->)|(_ & _ & _ & -> & ->)]];
        rewrite !elem_of_app; [naive_solver| |naive_solver].
      intros [[?|[?|?]]|Hx]; [by auto|by apply K4; auto|by apply K4; auto|by apply elem_of_nil in Hx].
Qed.

(** Where a submitted message can be. *)
Definition kept w : list UserMessage :=
  w_claimed w ++ inbox (w_agent w) ++ held (w_driver w) ++ default [] (abortHeld (w_driver w)).

Lemma step_kept w e w' :
  known w → driver_wf (w_driver w) → cancel_after_claim w e → step w e w' →
  w_submitted w ⊆ kept w → w_submitted w' ⊆ kept w'.
Proof.
  intros K [W1 _ W3 _] Hok Hs Hkept. unfold kept in *.
  destruct Hs as [m d calls Hm E|cause d calls E|ms a Hb Hp|own e|d calls o Hb E]; simpl;
    intros x; setoid_rewrite elem_of_subseteq in Hkept.
  - destruct (submit_cases (w_driver w) m) as (r & E' & Hr). rewrite E in E'. simplify_eq.
    intros [Hx|Hx]%elem_of_app.
    + specialize (Hkept x Hx). rewrite !elem_of_app in Hkept. destruct Hr as [[_ Hr]|[Hb Hr]]; simplify_eq/=.
      * rewrite !elem_of_app, steer_inbox, !elem_of_app. clear -Hkept. tauto.
      * destruct (W1 Hb) as (_ & Ea & _). rewrite Ea in Hkept.
        rewrite !elem_of_app, batch_inbox, !elem_of_app. clear -Hkept. simpl. rewrite elem_of_nil in Hkept. tauto.
    + destruct Hr as [[_ Hr]|[_ Hr]]; simplify_eq/=; rewrite !elem_of_app, ?steer_inbox, ?batch_inbox, !elem_of_app;
        clear -Hx; tauto.
  - intros Hx. specialize (Hkept x Hx). rewrite !elem_of_app in Hkept. unfold cancel in E.
    destruct (activeTurn (w_driver w)) eqn:Ea; simpl in E; [|by simplify_eq/=; rewrite !elem_of_app; clear -Hkept; tauto].
    destruct (abortRequested (w_driver w)) eqn:Eb; simplify_eq/=; [by rewrite !elem_of_app; clear -Hkept; tauto|].
    rewrite !elem_of_app, cancel_inbox. destruct (W3 Ea) as [_ Hn].
    apply bool_decide_eq_false, eq_None_not_Some in Hn. rewrite Hn in Hkept. simpl in Hkept.
    destruct Hkept as [?|[Hi|[?|?]]]; [by auto|by right; right; right; apply Hok|by auto|by auto].
  - intros Hx. specialize (Hkept x Hx). rewrite Hp, !elem_of_app in Hkept. rewrite !elem_of_app. clear -Hkept. tauto.
  - intros Hx. specialize (Hkept x Hx). rewrite !elem_of_app in Hkept. unfold on_error. destruct (_ && _); simpl; rewrite !elem_of_app; clear -Hkept; tauto.
  - intros Hx. specialize (Hkept x Hx). rewrite !elem_of_app in Hkept.
    pose proof (turn_idle_cases (w_driver w) (inbox (w_agent w))) as Hc. rewrite E in Hc.
    destruct Hc as [_ Hc].
    set (u := takeUnclaimed (inbox (w_agent w)) (steered (w_driver w))) in *.
    assert (x ∈ inbox (w_agent w) → x ∈ u ∨ x ∈ inbox (agent_calls (w_agent w) (removals u))) as Hu.
    { intros Hi. destruct (decide (x ∈ u)) as [|Hn]; [by left|]. right.
      rewrite removals_inbox, list_elem_of_filter. split; [|done].
      intros (y & Ey & Hy)%list_elem_of_fmap. apply Hn. replace x with y; [done|].
      eapply elem_of_id_inj; [apply K|by eapply (k_steered _ K), takeUnclaimed_subset|by apply K|done]. }
    destruct Hc as [(_ & _ & -> & -> & ->)|[(_ & _ & -> & -> & ->)|(_ & _ & -> & -> & ->)]];
      rewrite ?elem_of_app; clear -Hkept Hu; simpl; tauto.
Qed.

Lemma run_known ok a es w : inbox a = [] → run ok (initial a) es w → known w.
Proof.
  intros Ha. remember (initial a) as w0. induction 1 as [|es w' e w'' _ IH _ Hs]; subst.
  - by apply initial_known.
  - eapply step_known; [by apply IH|done].
Qed.

(** C12: No input is lost.  Start from a fresh driver over an agent with an empty
    inbox, and let messages be submitted, the agent claim them at its step
    boundaries, fail, fall idle, and turns be cancelled, in any order, where a
    turn is only cancelled after it has claimed the batch that opened it, while the
    inbox holds nothing but what that turn was steered with.  Then every submitted
    message has been claimed by a turn, waits in the agent's inbox, or is in the set
    the driver replays at the next delivery; at rest that set is [held]. *)
Theorem no_input_lost a es w m :
  inbox a = [] → run cancel_after_claim (initial a) es w → m ∈ w_submitted w →
  m ∈ w_claimed w ∨ m ∈ inbox (w_agent w) ∨ m ∈ held (w_driver w) ∨
  (busy (w_driver w) = true ∧ m ∈ default [] (abortHeld (w_driver w))).
Proof.
  intros Ha Hr Hm.
  assert (w_submitted w ⊆ kept w) as Hk.
  { clear Hm. remember (initial a) as w0. induction Hr as [|es w' e w'' Hr IH Hok Hs]; subst.
    - intros x Hx. by apply elem_of_nil in Hx.
    - eapply step_kept; [by eapply run_known|by eapply run_wf|done|done|by apply IH]. }
  specialize (Hk m Hm). unfold kept in Hk. rewrite !elem_of_app in Hk.
  destruct (busy (w_driver w)) eqn:Hb; [tauto|].
  destruct (wf_rest _ (run_wf _ _ _ _ Hr) Hb) as (_ & E & _). rewrite E in Hk. simpl in Hk.
  rewrite elem_of_nil in Hk. tauto.
Qed.

(** Without cancellations nothing is captured, and what is steered is new. *)
Record exact w : Prop := {
  x_requested : abortRequested (w_driver w) = false;
  x_abort : abortHeld (w_driver w) = None;
  x_steered : NoDup (steered (w_driver w));
  x_perm : w_submitted w ≡ₚ w_claimed w ++ inbox (w_agent w) ++ held (w_driver w);
}.

Lemma step_exact w e w' :
  known w → driver_wf (w_driver w) → no_cancel w e → step w e w' → exact w → exact w'.
Proof.
  intros K Hwf Hok Hs [X1 X2 X3 X4].
  destruct Hs as [m d calls Hm E|cause d calls E|ms a Hb Hp|own e|d calls o Hb E]; [|done|..].
  - destruct (submit_cases (w_driver w) m) as (r & E' & Hr). rewrite E in E'. simplify_eq.
    destruct Hr as [[_ Hr]|[Hb Hr]]; simplify_eq/=; split; simpl; try done.
    + apply NoDup_app. split_and!; [done| |by apply NoDup_singleton].
      intros x Hx ->%list_elem_of_singleton. apply Hm, list_elem_of_fmap_2. by apply (k_steered _ K).
    + rewrite steer_inbox, X4. solve_Permutation.
    + rewrite batch_inbox, X4, app_nil_r. solve_Permutation.
  - split; simpl; try done. rewrite X4, Hp. solve_Permutation.
  - unfold on_error. destruct (_ && _); by split.
  - pose proof (turn_idle_cases (w_driver w) (inbox (w_agent w))) as Hc. rewrite E in Hc.
    destruct Hc as [Es Hc].
    assert (NoDup (inbox (w_agent w))) as Hn.
    { pose proof (NoDup_fmap_1 _ _ (k_ids _ K)) as Hn. rewrite X4 in Hn.
      apply NoDup_app in Hn as (_ & _ & Hn). by apply NoDup_app in Hn as (Hn & _). }
    pose proof (taken_inbox (w_agent w) (steered (w_driver w)) (w_submitted w) (k_ids _ K) (k_inbox _ K)
      (k_steered _ K) Hn X3) as Ht. simpl in Ht.
    destruct Hc as [(_ & _ & -> & Eh & Ea)|[(_ & Ex & _)|(_ & _ & -> & Eh & Ea)]];
      [|by rewrite X1 in Ex|]; split; simpl; rewrite ?Es, ?Ea, ?Eh; try (done || constructor).
    + unfold turn_idle in E. rewrite X1 in E. by destruct (lastTurnFailure (w_driver w)); simplify_eq/=.
    + unfold turn_idle in E. rewrite X1 in E. by destruct (lastTurnFailure (w_driver w)); simplify_eq/=.
    + rewrite X4. rewrite Ht at 1. solve_Permutation.
Qed.

(** Exactly once when nothing is cancelled.  Whatever the turns claim and
    however they fail, the messages submitted so far are, as a multiset, those the
    agent claimed together with those in its inbox and those held for the next
    delivery: a failed turn's unclaimed steering leaves the inbox before it is
    held, so the recovery neither drops an input nor replays one twice. *)
Theorem exactly_once a es w :
  inbox a = [] → run no_cancel (initial a) es w →
  w_submitted w ≡ₚ w_claimed w ++ inbox (w_agent w) ++ held (w_driver w) ∧
  NoDup (map message_id (w_claimed w ++ inbox (w_agent w) ++ held (w_driver w))).
Proof.
  intros Ha Hr. assert (exact w) as [_ _ _ X].
  { remember (initial a) as w0. induction Hr as [|es w' e w'' Hr IH Hok Hs]; subst.
    - split; simpl; rewrite ?Ha; done || constructor.
    - eapply step_exact; [by eapply run_known|by eapply run_wf|done|done|by apply IH]. }
  split; [done|]. rewrite <- X. by eapply k_ids, run_known.
Qed.

End Accounting.

(** ** The state machine *)

(** The driver is the state machine of its design.  From a fresh driver,
    whatever is submitted, cancelled, claimed, reported and awaited, the driver
    observes as quiescent, in a turn or frozen, with its queue count and its
    failure flag, exactly as the specified machine after the same events; and its
    fields are well formed. *)
Theorem driver_implements_spec {A : Type} `{AgentOps A} (a : A) es w :
  run any_step (initial a) es w →
  spec_of (w_driver w) = fold_left spec_step es spec_init ∧ driver_wf (w_driver w).
Proof. intros Hr. split; [by eapply run_spec|by eapply run_wf]. Qed.

(** ** Runs over the two-queue inbox *)

#[export] Instance queues_lawful : LawfulAgent queues.
Proof.
  split; simpl.
  - intros q m. solve_Permutation.
  - intros q m. by rewrite app_assoc.
  - intros q m. solve_Permutation.
  - done.
  - intros q i. by rewrite filter_app.
Qed.

(** A run that claims the whole inbox whenever it claims. *)
Definition exec (w : World queues) (e : event) : option (World queues) :=
  match e with
  | Submit m =>
      if bool_decide (message_id m ∈ map message_id (w_submitted w)) then None
      else r ← submit (w_driver w) m false None;
        Some (mkWorld r.1 (agent_calls (w_agent w) r.2) (w_submitted w ++ [m]) (w_claimed w))
  | Cancel cause =>
      let r := cancel (w_driver w) cause in
      Some (mkWorld r.1 (agent_calls (w_agent w) r.2) (w_submitted w) (w_claimed w))
  | Claim ms =>
      if busy (w_driver w) && bool_decide (inbox (w_agent w) = ms)
      then Some (mkWorld (w_driver w) (mkQueues [] []) (w_submitted w) (w_claimed w ++ ms)) else None
  | AgentError own error =>
      Some (mkWorld (on_error (w_driver w) own error) (w_agent w) (w_submitted w) (w_claimed w))
  | Idle =>
      if busy (w_driver w) then
        let r := turn_idle (w_driver w) (inbox (w_agent w)) in
        Some (mkWorld r.1.1 (agent_calls (w_agent w) r.1.2) (w_submitted w) (w_claimed w))
      else None
  end.

Lemma exec_step w e w' : exec w e = Some w' → step w e w'.
Proof.
  destruct e as [m|cause|ms|own error|]; simpl.
  - case_bool_decide as Hm; [done|]. destruct (submit _ _ _ _) as [[d calls]|] eqn:E; simpl; [|done].
    intros [= <-]. by apply step_submit.
  - intros [= <-]. by apply step_cancel, surjective_pairing.
  - destruct (busy _) eqn:Hb; simpl; [|done]. case_bool_decide as E; [|done]. intros [= <-].
    apply step_claim; [done|]. simpl. by rewrite E, app_nil_r.
  - intros [= <-]. apply step_error.
  - destruct (busy _) eqn:Hb; [|done]. intros [= <-].
    destruct (turn_idle (w_driver w) _) as [[d calls] o] eqn:E. by eapply step_idle.
Qed.

(** The same, with a boolean check of what each step needs. *)
Fixpoint exec_all (okb : World queues → event → bool) (w : World queues) (es : list event) : option (World queues) :=
  match es with
  | [] => Some w
  | e :: es => if okb w e then w' ← exec w e; exec_all okb w' es else None
  end.

Lemma exec_all_run okb (ok : World queues → event → Prop) w es w' :
  (∀ w e, okb w e = true → ok w e) → exec_all okb w es = Some w' → run ok w es w'.
Proof.
  intros Hok. assert (∀ es0 w0, run ok w es0 w0 → exec_all okb w0 es = Some w' → run ok w (es0 ++ es) w') as Hg.
  { induction es as [|e es IH]; intros es0 w0 Hr; simpl.
    - intros [= <-]. by rewrite app_nil_r.
    - destruct (okb w0 e) eqn:E; [|done]. destruct (exec w0 e) as [w1|] eqn:E1; simpl; [|done]. intros Hx.
      rewrite cons_middle, app_assoc. eapply IH; [|done].
      eapply run_snoc; [done|by apply Hok|by apply exec_step]. }
  apply (Hg []). constructor.
Qed.

Definition no_cancelb (w : World queues) (e : event) : bool := match e with Cancel _ => false | _ => true end.
Definition cancel_after_claimb (w : World queues) (e : event) : bool :=
  match e with
  | Cancel _ => negb (busy (w_driver w)) || forallb (λ m, bool_decide (m ∈ steered (w_driver w))) (inbox (w_agent w))
  | _ => true
  end.

Lemma no_cancelb_spec w e : no_cancelb w e = true → no_cancel w e.
Proof. by destruct e. Qed.
Lemma cancel_after_claimb_spec w e : cancel_after_claimb w e = true → cancel_after_claim w e.
Proof.
  destruct e; simpl; try done. intros Hb Hbusy m Hm. rewrite Hbusy in Hb. simpl in Hb.
  rewrite forallb_forall in Hb. apply list_elem_of_In, Hb in Hm. by apply bool_decide_eq_true in Hm.
Qed.

Definition m1 : UserMessage := mkUserMessage "1" "open".
Definition m2 : UserMessage := mkUserMessage "2" "left".
Definition m3 : UserMessage := mkUserMessage "3" "right".
Definition m4 : UserMessage := mkUserMessage "4" "again".
Definition q0 : queues := mkQueues [] [].
Lemma q0_empty : inbox q0 = [].
Proof. done. Qed.

(** A turn fails with a steering it did not claim; the next delivery replays it. *)
Definition failing_run : list event :=
  [Submit m1; Claim [m1]; Submit m2; AgentError true (ErrorObject (CodeString "SERVER") "down"); Idle;
   Submit m3; Claim [m2; m3]].

Lemma exactly_once_witness :
  ∃ w, run no_cancel (initial q0) failing_run w ∧ w_claimed w = [m1; m2; m3] ∧
  w_submitted w ≡ₚ w_claimed w ++ inbox (w_agent w) ++ held (w_driver w).
Proof.
  destruct (exec_all no_cancelb (initial q0) failing_run) as [w|] eqn:E; [|vm_compute in E; discriminate E].
  pose proof (exec_all_run _ _ _ _ _ no_cancelb_spec E) as Hr.
  exists w. split; [exact Hr|]. split; [vm_compute in E; injection E as <-; reflexivity|].
  exact (proj1 (exactly_once q0 failing_run w q0_empty Hr)).
Defined.

(** A turn is cancelled with one steering in the inbox and one after it. *)
Definition cancelled_run : list event :=
  [Submit m1; Claim [m1]; Submit m2; Cancel CauseUser; Submit m3; Idle].

Lemma no_input_lost_witness :
  ∃ w, run cancel_after_claim (initial q0) cancelled_run w ∧ busy (w_driver w) = false ∧
  (m2 ∈ w_claimed w ∨ m2 ∈ inbox (w_agent w) ∨ m2 ∈ held (w_driver w) ∨
   (busy (w_driver w) = true ∧ m2 ∈ default [] (abortHeld (w_driver w)))).
Proof.
  destruct (exec_all cancel_after_claimb (initial q0) cancelled_run) as [w|] eqn:E; [|vm_compute in E; discriminate E].
  pose proof (exec_all_run _ _ _ _ _ cancel_after_claimb_spec E) as Hr.
  exists w. split; [exact Hr|]. split; [vm_compute in E; injection E as <-; reflexivity|].
  apply (no_input_lost q0 cancelled_run w m2 q0_empty Hr).
  vm_compute in E. injection E as <-. in_list.
Defined.

Lemma driver_implements_spec_witness :
  ∃ w, run any_step (initial q0) cancelled_run w ∧ spec_of (w_driver w) = mkSpec Frozen 0 false.
Proof.
  destruct (exec_all (λ _ _, true) (initial q0) cancelled_run) as [w|] eqn:E; [|vm_compute in E; discriminate E].
  pose proof (exec_all_run _ any_step _ _ _ (λ _ _ _, I) E) as Hr.
  exists w. split; [exact Hr|]. rewrite (proj1 (driver_implements_spec q0 cancelled_run w Hr)). reflexivity.
Defined.

(** A message steered after the cancellation is replayed before one steered
    ahead of it. *)
Lemma late_steering_first :
  ∃ w, run cancel_after_claim (initial q0) cancelled_run w ∧
  w_submitted w = [m1; m2; m3] ∧ held (w_driver w) = [m3; m2].
Proof.
  destruct (exec_all cancel_after_claimb (initial q0) cancelled_run) as [w|] eqn:E; [|vm_compute in E; discriminate E].
  exists w. split; [exact (exec_all_run _ _ _ _ _ cancel_after_claimb_spec E)|].
  vm_compute in E. by injection E as <-.
Qed.

(** The captured set is everything steered into the turn, so a steering that the
    cancelled turn had already claimed is claimed a second time. *)
Definition replayed_run : list event :=
  [Submit m1; Claim [m1]; Submit m2; Claim [m2]; Cancel CauseUser; Idle; Submit m3; Claim [m2; m3]].

Lemma cancel_replays_claimed :
  ∃ w, run cancel_after_claim (initial q0) replayed_run w ∧ w_claimed w = [m1; m2; m2; m3].
Proof.
  destruct (exec_all cancel_after_claimb (initial q0) replayed_run) as [w|] eqn:E; [|vm_compute in E; discriminate E].
  exists w. split; [exact (exec_all_run _ _ _ _ _ cancel_after_claimb_spec E)|].
  vm_compute in E. by injection E as <-.
Qed.
