(* ===== verification/Sts2.v ===== *)
(** * The sts2 orchestration

    [common/js/dsh-plugins/sts2/loop/src/events.ts] ([MainAgentEventStream]) and
    [orchestrator.ts] ([Sts2Orchestrator]): one main agent per session, driven by
    [Sts2Drive], presented as a team of one member.

    Agents are numbered in the order of their creation.  [materialize] is one
    transaction: the host serializes it against the other operations of the
    session ([Session]).  [dispose] waits for the turn in flight, so it is two
    steps. *)

From S2P Require Import Prelude Sts2Drive.

#[local] Open Scope Z_scope.

(** ** The main member's event stream *)

Definition MAIN_MEMBER_ROLE : string := "main".

Section Events.
(** The session events, assistant frames, statuses and errors of an agent. *)
Context {Log Frame Status Error : Type}.

(** What the agent's faces publish, with what identifies its origin: a session id,
    or whether the payload's agent is the subscribed one. *)
Inductive production : Type :=
| OnSessionEvent (session : string) (event : Log)
| OnAssistantStream (own_agent : bool) (frame : Frame)
| OnStatus (own_agent : bool) (status : Status)
| OnError (own_agent : bool) (error : Error).

Inductive TeamLiveEvent : Type :=
| LiveAssistantStream (frame : Frame)
| LiveStatus (status : Status)
| LiveError (error : Error).

Inductive channel_event : Type :=
| ChannelLog (event : Log)
| ChannelLive (event : TeamLiveEvent).

Record TeamMemberEvent : Type := mkEnvelope {
  env_role : string;
  env_memberId : string;
  env_event : channel_event;
}.

(** Consumers are numbered; [offs] says whether the faces are subscribed. *)
Record MainAgentEventStream : Type := mkStream {
  memberId : string;
  consumers : list nat;
  offs : bool;
  stream_disposed : bool;
}.

Definition new_stream (agent_id : string) : MainAgentEventStream := mkStream agent_id [] true false.

(** The detach function removes the consumer; after dispose it does nothing. *)
Definition stream_subscribe (s : MainAgentEventStream) (consumer : nat) : MainAgentEventStream :=
  if stream_disposed s then s
  else mkStream (memberId s)
         (if bool_decide (consumer ∈ consumers s) then consumers s else consumers s ++ [consumer])
         (offs s) false.
Definition stream_detach (s : MainAgentEventStream) (consumer : nat) : MainAgentEventStream :=
  mkStream (memberId s) (filter (λ c, c ≠ consumer) (consumers s)) (offs s) (stream_disposed s).

Definition stream_dispose (s : MainAgentEventStream) : MainAgentEventStream :=
  if stream_disposed s then s else mkStream (memberId s) [] false true.

Definition notifyLog (s : MainAgentEventStream) (event : Log) : TeamMemberEvent :=
  mkEnvelope MAIN_MEMBER_ROLE (memberId s) (ChannelLog event).
Definition notifyLive (s : MainAgentEventStream) (event : TeamLiveEvent) : TeamMemberEvent :=
  mkEnvelope MAIN_MEMBER_ROLE (memberId s) (ChannelLive event).

Definition publish (s : MainAgentEventStream) (envelope : TeamMemberEvent) : list (nat * TeamMemberEvent) :=
  map (λ consumer, (consumer, envelope)) (consumers s).

(** The four listeners: who receives what when a face publishes. *)
Definition on_production (s : MainAgentEventStream) (p : production) : list (nat * TeamMemberEvent) :=
  if negb (offs s) then []
  else match p with
  | OnSessionEvent session event =>
      if bool_decide (session = memberId s) then publish s (notifyLog s event) else []
  | OnAssistantStream own frame => if own then publish s (notifyLive s (LiveAssistantStream frame)) else []
  | OnStatus own status => if own then publish s (notifyLive s (LiveStatus status)) else []
  | OnError own error => if own then publish s (notifyLive s (LiveError error)) else []
  end.

End Events.
Arguments production : clear implicits.
Arguments TeamMemberEvent : clear implicits.

(** ** The orchestrator *)

Definition DEFAULT_PROVIDER : string := "glm-responses".

Record Sts2MemberConfig : Type := mkMemberConfig {
  mc_role : string;
  mc_preset : string;
  mc_provider : option string;
  mc_model : option string;
}.

Record Sts2MaterializeInput : Type := mkInput { in_session : string; in_members : list Sts2MemberConfig }.

Inductive Sts2StateErrorCode : Type := UNMATERIALIZED | ALREADY_MATERIALIZED | DISPOSED.

Record Sts2Failure : Type := mkSts2Failure {
  sf_message : string;
  sf_member : option string;
  sf_code : MainDriveErrorCode;
  sf_member_turn : bool;
  sf_detail : MainDriveFailureDetail;
}.

Record Sts2Snapshot : Type := mkSnapshot {
  sn_materialized : bool;
  sn_active : option string;
  sn_activation : string;
  sn_paused : bool;
  sn_queued : Z;
  sn_failed : bool;
  sn_lastError : option Sts2Failure;
}.

(** What the injected reporter is told. *)
Record Report : Type := mkReport {
  rp_session : string;
  rp_member : option string;
  rp_code : MainDriveErrorCode;
  rp_error : string;
}.

(** Errors: a state error with its code, or another one with its message. *)
Inductive Sts2Error : Type :=
| StateError (code : Sts2StateErrorCode)
| OtherError (message : string).

#[local] Notation q := (String (Ascii.ascii_of_nat 34) "").

Definition mainMember (input : Sts2MaterializeInput) : string + Sts2MemberConfig :=
  match in_members input with
  | [member] =>
      if bool_decide (mc_role member ≠ MAIN_MEMBER_ROLE) then
        inl ("sts2-loop materialization requires the " +:+ q +:+ MAIN_MEMBER_ROLE +:+ q +:+ " member; got "
             +:+ q +:+ mc_role member +:+ q)
      else if bool_decide (mc_preset member = "") then
        inl ("sts2-loop materialization requires a preset id for the " +:+ q +:+ MAIN_MEMBER_ROLE +:+ q
             +:+ " member")
      else inr member
  | members =>
      inl ("sts2-loop materialization requires exactly one member; got " +:+
           num_str (Z.of_nat (length members)))
  end.

(** The options handed to the agent registry. *)
Record CreateOptions : Type := mkCreate {
  co_sessionId : string;
  co_agentPreset : string;
  co_provider : string;
  co_model : option string;
}.

Definition agent_route (member deployment : option string) (fallback : string) : string :=
  default (default fallback deployment) member.

Definition agent_model (model : option string) : option string :=
  match model with
  | Some m => if bool_decide (m = "") then None else Some m
  | None => None
  end.

(** The turn in flight, when [observeTurn] watches it, with the session captured
    at its submission. *)
Record Live : Type := mkLive {
  l_handle : nat;
  l_driver : MainAgentDriver;
  l_events : MainAgentEventStream;
  l_observed : option string;
}.

(** [handle], [driver], [events] are assigned and cleared together; [tearing] is
    what a [dispose] under way holds, [created] and [released] the agents created
    and disposed so far. *)
Record Sts2Orchestrator : Type := mkSts2 {
  materialized : option Live;
  session : option string;
  disposed : bool;
  tearing : option Live;
  created : list nat;
  released : list nat;
  reports : list Report;
}.

Definition new_sts2 : Sts2Orchestrator := mkSts2 None None false None [] [] [].

Definition report (o : Sts2Orchestrator) (r : Report) : Sts2Orchestrator :=
  mkSts2 (materialized o) (session o) (disposed o) (tearing o) (created o) (released o) (reports o ++ [r]).

(** [composed] is the compose seam's result: a thrown message, or the resolved
    preset id; [create_agent] is what the agent registry does with the options: it
    rejects with a message (a setup that throws included), or creates the next
    agent with this id.  [attached] is the message of the constructor of the stream
    or of the driver that throws: the agent is then released.  [provider] is the
    deployment's route. *)
Definition materialize (o : Sts2Orchestrator) (provider : option string) (input : Sts2MaterializeInput)
    (composed : string + string) (create_agent : CreateOptions → string + string) (attached : option string)
    : Sts2Orchestrator * option Sts2Error :=
  if disposed o then (o, Some (StateError DISPOSED))
  else if bool_decide (is_Some (materialized o)) then (o, Some (StateError ALREADY_MATERIALIZED))
  else match mainMember input with
  | inl message => (o, Some (OtherError message))
  | inr member =>
      let failure o message :=
        (report o (mkReport (in_session input) (Some MAIN_MEMBER_ROLE) INTERNAL message),
         Some (OtherError message)) in
      match composed with
      | inl message => failure o message
      | inr preset =>
          match create_agent (mkCreate (in_session input +:+ "/" +:+ MAIN_MEMBER_ROLE) preset
                   (agent_route (mc_provider member) provider DEFAULT_PROVIDER)
                   (agent_model (mc_model member))) with
          | inl message => failure o message
          | inr id =>
              let handle := length (created o) in
              match attached with
              | Some message =>
                  failure (mkSts2 (materialized o) (session o) (disposed o) (tearing o) (created o ++ [handle])
                             (released o ++ [handle]) (reports o)) message
              | None =>
              (mkSts2 (Some (mkLive handle new_driver (new_stream id) None)) (Some (in_session input)) false
                 (tearing o) (created o ++ [handle]) (released o) (reports o), None)
              end
          end
      end
  end.

Definition members (o : Sts2Orchestrator) : list string :=
  match materialized o with Some _ => [MAIN_MEMBER_ROLE] | None => [] end.

Definition member (o : Sts2Orchestrator) (role : string) : option nat :=
  if bool_decide (role = MAIN_MEMBER_ROLE) then l_handle <$> materialized o else None.

Definition teamEvents (o : Sts2Orchestrator) : Sts2Error + MainAgentEventStream :=
  if disposed o then inl (StateError DISPOSED)
  else match materialized o with
  | None => inl (StateError UNMATERIALIZED)
  | Some l => inr (l_events l)
  end.

Definition failureOf (failure : option MainDriveFailure) : option Sts2Failure :=
  f ← failure; Some (mkSts2Failure (mf_message f) (Some MAIN_MEMBER_ROLE) (mf_code f) true (mf_detail f)).

Definition snapshot (o : Sts2Orchestrator) : Sts2Snapshot :=
  match materialized o with
  | None => mkSnapshot false None MAIN_MEMBER_ROLE false 0 false None
  | Some l =>
      let driver := l_driver l in
      mkSnapshot true (if busy driver then Some MAIN_MEMBER_ROLE else None) MAIN_MEMBER_ROLE
        (paused driver) (pendingInput driver) (has_failed driver) (failureOf (lastError driver))
  end.

Definition set_live (o : Sts2Orchestrator) (l : Live) : Sts2Orchestrator :=
  mkSts2 (Some l) (session o) (disposed o) (tearing o) (created o) (released o) (reports o).

(** [message] is the user message minted from the text; [thrown] is the call on
    the agent that throws, with its message. *)
Definition submit_text (o : Sts2Orchestrator) (message : UserMessage) (thrown : option (nat * string))
    : Sts2Orchestrator * list AgentCall * option Sts2Error :=
  if disposed o then (o, [], Some (StateError DISPOSED))
  else match materialized o with
  | None => (o, [], Some (StateError UNMATERIALIZED))
  | Some l =>
      let opensTurn := negb (busy (l_driver l)) in
      match submit (l_driver l) message (bool_decide (is_Some thrown)) (fst <$> thrown) with
      | None => (o, [], Some (OtherError (default "" (snd <$> thrown))))
      | Some (driver, calls) =>
          let watched := default "" (session o) in
          if opensTurn then
            if busy driver then
              (set_live o (mkLive (l_handle l) driver (l_events l) (Some watched)), calls, None)
            else
              (report (set_live o (mkLive (l_handle l) driver (l_events l) None))
                 (mkReport watched (Some MAIN_MEMBER_ROLE) INTERNAL (default "" (snd <$> thrown))), calls, None)
          else (set_live o (mkLive (l_handle l) driver (l_events l) (l_observed l)), calls, None)
      end
  end.

Definition cancel_turn (o : Sts2Orchestrator) : Sts2Orchestrator * list AgentCall * option Sts2Error :=
  if disposed o then (o, [], None)
  else match materialized o with
  | None => (o, [], Some (StateError UNMATERIALIZED))
  | Some l =>
      let '(driver, calls) := cancel (l_driver l) CauseUser in
      (set_live o (mkLive (l_handle l) driver (l_events l) (l_observed l)), calls, None)
  end.

(** [dispose] up to its wait. *)
Definition dispose_begin (o : Sts2Orchestrator) : Sts2Orchestrator * list AgentCall :=
  if disposed o then (o, [])
  else match materialized o with
  | None => (mkSts2 None None true (tearing o) (created o) (released o) (reports o), [])
  | Some l =>
      let '(driver, calls) :=
        if busy (l_driver l) then cancel (l_driver l) CauseDisposed else (l_driver l, []) in
      (mkSts2 None None true (Some (mkLive (l_handle l) driver (l_events l) (l_observed l)))
         (created o) (released o) (reports o), calls)
  end.

(** The rest of [dispose], once the turn has settled: the driver's listener, the
    stream and the agent go.  [None] while it has not. *)
Definition dispose_finish (o : Sts2Orchestrator) : option (Sts2Orchestrator * Live) :=
  l ← tearing o;
  if busy (l_driver l) then None
  else Some (mkSts2 (materialized o) (session o) (disposed o) None (created o)
               (released o ++ [l_handle l]) (reports o),
             mkLive (l_handle l) (dispose (l_driver l)) (stream_dispose (l_events l)) (l_observed l)).

(** [observeTurn]'s reaction to the end of the turn. *)
Definition observe_outcome (o : Sts2Orchestrator) (observed : option string) (outcome : string + MainDriveOutcome)
    : Sts2Orchestrator :=
  match observed with
  | None => o
  | Some watched =>
      match outcome with
      | inl message => report o (mkReport watched (Some MAIN_MEMBER_ROLE) INTERNAL message)
      | inr (failed code detail) =>
          report o (mkReport watched (Some MAIN_MEMBER_ROLE) code (fd_message detail))
      | inr _ => o
      end
  end.

(** What the agent does to its driver. *)
Inductive agent_event : Type :=
| AgentFails (own_agent : bool) (error : error_payload)
| AgentIdle (inbox : list UserMessage)
| AgentRejects (message : string).

Definition live_event (l : Live) (e : agent_event)
    : Live * list AgentCall * option (string + MainDriveOutcome) :=
  match e with
  | AgentFails own error =>
      (mkLive (l_handle l) (on_error (l_driver l) own error) (l_events l) (l_observed l), [], None)
  | AgentIdle inbox =>
      if busy (l_driver l) then
        let '(driver, calls, outcome) := turn_idle (l_driver l) inbox in
        (mkLive (l_handle l) driver (l_events l) None, calls, Some (inr outcome))
      else (l, [], None)
  | AgentRejects message =>
      if busy (l_driver l) then
        (mkLive (l_handle l) (turn_reject (l_driver l)) (l_events l) None, [], Some (inl message))
      else (l, [], None)
  end.

(** The agent of the materialized driver, or of the one being disposed. *)
Definition agent_acts (o : Sts2Orchestrator) (e : agent_event) : Sts2Orchestrator :=
  let watch o l ended := match ended with Some outcome => observe_outcome o (l_observed l) outcome | None => o end in
  match materialized o, tearing o with
  | Some l, _ => let '(l', _, ended) := live_event l e in watch (set_live o l') l ended
  | None, Some l =>
      let '(l', _, ended) := live_event l e in
      watch (mkSts2 None (session o) (disposed o) (Some l') (created o) (released o) (reports o)) l ended
  | None, None => o
  end.

(** ** Runs *)

Inductive sts2_op : Type :=
| OpMaterialize (provider : option string) (input : Sts2MaterializeInput) (composed : string + string)
    (create_agent : CreateOptions → string + string) (attached : option string)
| OpSubmit (message : UserMessage) (thrown : option (nat * string))
| OpCancel
| OpDispose
| OpDisposed
| OpAgent (e : agent_event)
| OpSubscribe (consumer : nat).

Definition sts2_step (o : Sts2Orchestrator) (op : sts2_op) : Sts2Orchestrator :=
  match op with
  | OpMaterialize provider input composed create_agent attached =>
      (materialize o provider input composed create_agent attached).1
  | OpSubmit message thrown => (submit_text o message thrown).1.1
  | OpCancel => (cancel_turn o).1.1
  | OpDispose => (dispose_begin o).1
  | OpDisposed => match dispose_finish o with Some r => r.1 | None => o end
  | OpAgent e => agent_acts o e
  | OpSubscribe consumer =>
      match materialized o with
      | Some l => set_live o (mkLive (l_handle l) (l_driver l) (stream_subscribe (l_events l) consumer) (l_observed l))
      | None => o
      end
  end.

Definition sts2_run (ops : list sts2_op) : Sts2Orchestrator := fold_left sts2_step ops new_sts2.

(** ** Every agent is accounted for *)

Definition live_handles (o : Sts2Orchestrator) : list nat :=
  map l_handle (option_list (materialized o) ++ option_list (tearing o)).

Record sts2_inv (o : Sts2Orchestrator) : Prop := {
  si_disposed : disposed o = true → materialized o = None;
  si_tearing : disposed o = false → tearing o = None;
  si_session : is_Some (session o) ↔ is_Some (materialized o);
  si_agents : created o ≡ₚ released o ++ live_handles o;
  si_ids : created o = seq 0 (length (created o));
}.

Lemma new_sts2_inv : sts2_inv new_sts2.
Proof. split; try done. simpl. split; intros [? ?]; done. Qed.

Lemma report_inv o r : sts2_inv o → sts2_inv (report o r).
Proof. by intros []. Qed.

Lemma set_live_inv o l l' :
  materialized o = Some l → l_handle l' = l_handle l → sts2_inv o → sts2_inv (set_live o l').
Proof.
  intros E El [I1 I2 I3 I4 I5]. unfold live_handles in *. rewrite E in *. split; simpl in *; try done.
  - intros Hd. by specialize (I1 Hd).
  - rewrite I3. split; intros _; by eexists.
  - unfold live_handles. simpl. by rewrite El.
Qed.

Lemma observe_inv o observed outcome : sts2_inv o → sts2_inv (observe_outcome o observed outcome).
Proof. intros I. unfold observe_outcome. repeat case_match; by try apply report_inv. Qed.

Lemma live_event_handle l e : l_handle (live_event l e).1.1 = l_handle l.
Proof. destruct e; simpl; [done|destruct (busy _)|by destruct (busy _)]; [|done]. by destruct (turn_idle _ _) as [[] ?]. Qed.

Lemma turn_idle_rests d inbox : busy (turn_idle d inbox).1.1 = false.
Proof. unfold turn_idle. destruct (abortRequested d); [done|]. by destruct (lastTurnFailure d). Qed.

Lemma materialize_inv o provider input composed create_agent attached :
  sts2_inv o → sts2_inv (materialize o provider input composed create_agent attached).1.
Proof.
  intros I. unfold materialize. destruct (disposed o) eqn:Ed; [done|]. case_bool_decide as Em; [done|].
  apply eq_None_not_Some in Em.
  destruct (mainMember input); [done|]. destruct composed; [by apply report_inv|].
  destruct (create_agent _); [by apply report_inv|]. destruct I as [I1 I2 I3 I4 I5].
  assert (tearing o = None) as Et by auto. unfold live_handles in I4. rewrite Em, Et, app_nil_r in I4.
  assert (created o ++ [length (created o)] = seq 0 (length (created o ++ [length (created o)]))) as Hseq.
  { rewrite length_app, seq_app, <- I5. done. }
  destruct attached; [apply report_inv|]; (split; [by rewrite ?Ed|done|..|exact Hseq]).
  - done.
  - unfold live_handles. simpl. rewrite Em, Et. simpl. rewrite app_nil_r. by apply Permutation_app_tail.
  - split; intros _; by eexists.
  - unfold live_handles. simpl. rewrite Et. simpl. by apply Permutation_app_tail.
Qed.

Lemma sts2_step_inv o op : sts2_inv o → sts2_inv (sts2_step o op).
Proof.
  intros I. destruct op as [provider input composed create_agent attached|m thrown| | | |e|c]; simpl.
  - by apply materialize_inv.
  - unfold submit_text. destruct (disposed o); [done|]. destruct (materialized o) as [l|] eqn:E; [|done].
    destruct (submit _ _ _ _) as [[d calls]|]; [|done].
    destruct (negb _); [destruct (busy d)|]; simpl; try apply report_inv; by eapply set_live_inv.
  - unfold cancel_turn. destruct (disposed o); [done|]. destruct (materialized o) as [l|] eqn:E; [|done].
    destruct (cancel _ _). by eapply set_live_inv.
  - unfold dispose_begin. destruct (disposed o) eqn:Ed; [done|]. destruct I as [I1 I2 I3 I4 I5].
    unfold live_handles in I4. rewrite (I2 Ed) in I4.
    destruct (materialized o) as [l|] eqn:E.
    + destruct (if busy _ then _ else _) as [d calls]. by split; simpl.
    + split; simpl; try done. unfold live_handles. simpl. by rewrite (I2 Ed).
  - unfold dispose_finish. destruct (tearing o) as [l|] eqn:E; simpl; [|done]. destruct (busy _); [done|].
    destruct I as [I1 I2 I3 I4 I5]. unfold live_handles in I4. rewrite E in I4.
    destruct (disposed o) eqn:Ed; [|by rewrite (I2 eq_refl) in E]. rewrite (I1 eq_refl) in *.
    split; simpl; rewrite ?Ed; try done. unfold live_handles. simpl. by rewrite app_nil_r.
  - unfold agent_acts. destruct (materialized o) as [l|] eqn:E.
    + pose proof (live_event_handle l e) as Hh. destruct (live_event l e) as [[l' calls] ended]. simpl in Hh.
      assert (sts2_inv (set_live o l')) by by eapply set_live_inv.
      destruct ended; [by apply observe_inv|done].
    + destruct (tearing o) as [l|] eqn:Et; [|done].
      pose proof (live_event_handle l e) as Hh. destruct (live_event l e) as [[l' calls] ended]. simpl in Hh.
      assert (sts2_inv (mkSts2 None (session o) (disposed o) (Some l') (created o) (released o) (reports o))).
      { destruct I as [I1 I2 I3 I4 I5]. unfold live_handles in I4. rewrite E, Et in *.
        split; simpl; try done; [by intros Hd; specialize (I2 Hd)|unfold live_handles; simpl; by rewrite Hh]. }
      destruct ended; [by apply observe_inv|done].
  - destruct (materialized o) as [l|] eqn:E; [|done]. by eapply set_live_inv.
Qed.

Lemma sts2_run_inv ops : sts2_inv (sts2_run ops).
Proof.
  unfold sts2_run. generalize new_sts2 new_sts2_inv.
  induction ops as [|op ops IH]; intros o I; simpl; [done|]. by apply IH, sts2_step_inv.
Qed.

(** No agent is leaked.  Whatever the host asks for and however composing,
    creating, attaching and the turns fail, every agent ever created has been
    released, is the materialized one, or is the one a disposal under way still
    waits for; the orchestrator is materialized exactly while it has a session,
    and never once disposed. *)
Theorem every_agent_accounted_for ops :
  let o := sts2_run ops in
  created o ≡ₚ released o ++ live_handles o ∧ NoDup (created o) ∧
  (is_Some (session o) ↔ is_Some (materialized o)) ∧
  (disposed o = true → materialized o = None) ∧
  (disposed o = false → tearing o = None).
Proof.
  intros o. destruct (sts2_run_inv ops : sts2_inv o) as [I1 I2 I3 I4 I5]. split_and!; try done. rewrite I5. apply NoDup_seq.
Qed.

(** Disposal completes.  In whatever state [dispose] is called, once the agent
    has fallen idle the disposal under way can finish; when none is under way every
    agent created is released, and finishing one releases the rest, with the
    driver's listener dropped and the stream ended. *)
Theorem dispose_releases_everything ops inbox :
  let o := agent_acts (dispose_begin (sts2_run ops)).1 (AgentIdle inbox) in
  match tearing o with
  | None => created o ≡ₚ released o
  | Some _ =>
      ∃ o' l, dispose_finish o = Some (o', l) ∧ created o' ≡ₚ released o' ∧ disposed o' = true ∧
        observing (l_driver l) = false ∧ stream_disposed (l_events l) = true
  end.
Proof.
  intros o.
  assert (sts2_inv o) as I.
  { replace o with (sts2_run (ops ++ [OpDispose; OpAgent (AgentIdle inbox)])); [apply sts2_run_inv|].
    unfold sts2_run. by rewrite fold_left_app. }
  assert (disposed o = true ∧ ∀ l, tearing o = Some l → busy (l_driver l) = false) as [Hd Hbusy].
  { unfold o, dispose_begin. set (o0 := sts2_run ops).
    assert (∀ o1 observed outcome, disposed (observe_outcome o1 observed outcome) = disposed o1 ∧
            tearing (observe_outcome o1 observed outcome) = tearing o1) as Hobs.
    { intros o1 observed outcome. unfold observe_outcome. by repeat case_match. }
    assert (∀ o1, materialized o1 = None → disposed o1 = true →
      disposed (agent_acts o1 (AgentIdle inbox)) = true ∧
      ∀ l, tearing (agent_acts o1 (AgentIdle inbox)) = Some l → busy (l_driver l) = false) as Hacts.
    { intros o1 Hm Hd. unfold agent_acts. rewrite Hm. destruct (tearing o1) as [l|] eqn:Et; [|by rewrite Et].
      unfold live_event. destruct (busy (l_driver l)) eqn:Eb.
      - pose proof (turn_idle_rests (l_driver l) inbox) as Hr.
        destruct (turn_idle _ _) as [[d calls] outcome]. simpl in Hr. cbn [fst snd].
        destruct (Hobs (mkSts2 None (session o1) (disposed o1) (Some (mkLive (l_handle l) d (l_events l) None))
          (created o1) (released o1) (reports o1)) (l_observed l) (inr outcome)) as [E1 E2].
        rewrite E1, E2. simpl. split; [done|]. by intros ? [= <-].
      - simpl. split; [done|]. by intros ? [= <-]. }
    pose proof (sts2_run_inv ops : sts2_inv o0) as I0.
    destruct (disposed o0) eqn:Ed; [by apply Hacts; [apply I0|]|].
    destruct (materialized o0) as [l|] eqn:Em; [|by apply Hacts].
    destruct (if busy _ then _ else _) as [d calls]. by apply Hacts. }
  destruct I as [I1 I2 I3 I4 I5]. unfold live_handles in I4. rewrite (I1 Hd) in I4.
  destruct (tearing o) as [l|] eqn:Et; [|by rewrite I4, app_nil_r].
  eexists _, _. unfold dispose_finish. rewrite Et. simpl. rewrite (Hbusy l eq_refl).
  split; [done|]. simpl. split_and!; try done; unfold stream_dispose;
    destruct (stream_disposed (l_events l)) eqn:Es; try done.
Qed.

(** An empty provider is a route: the deployment's is not used. *)
Lemma empty_provider_kept deployment fallback : agent_route (Some "") deployment fallback = "".
Proof. done. Qed.
