(* ===== verification/JsJson.v ===== *)
(** * JSON text and the order of strings

    [JSON.stringify] of a string, as a prefix code; the order [sort()] puts
    strings in; the numerals [String(n)] writes and [parseInt(s, 10)] reads. *)

From S2P Require Import Prelude JsText.
From stdpp Require Import sorting.

#[local] Open Scope Z_scope.

(** ** JSON.stringify of a string *)

Definition hex_digit (d : Z) : Z := if d <? 10 then 48 + d else 87 + d.
Definition hex4 (c : Z) : jstr :=
  [hex_digit ((c / 4096) `mod` 16); hex_digit ((c / 256) `mod` 16); hex_digit ((c / 16) `mod` 16); hex_digit (c `mod` 16)].

(** The letter of a two-character escape. *)
Definition short_escape (c : Z) : option Z :=
  if c =? 34 then Some 34 else if c =? 92 then Some 92
  else if c =? 8 then Some 98 else if c =? 9 then Some 116 else if c =? 10 then Some 110
  else if c =? 12 then Some 102 else if c =? 13 then Some 114 else None.

(** [paired] says whether a surrogate is one half of a pair. *)
Definition escape (c : Z) (paired : bool) : jstr :=
  match short_escape c with
  | Some e => [92; e]
  | None =>
      if (c <? 32) || ((is_high_surrogate c || is_low_surrogate c) && negb paired)
      then [92; 117] ++ hex4 c else [c]
  end.

(** [after_high]: the preceding code unit opened a pair this one closes. *)
Fixpoint escape_all (after_high : bool) (s : jstr) : jstr :=
  match s with
  | [] => []
  | c :: s' =>
      let opens := negb after_high && is_high_surrogate c &&
                   match s' with d :: _ => is_low_surrogate d | [] => false end in
      escape c (after_high || opens) ++ escape_all opens s'
  end.

Definition stringify (s : jstr) : jstr := [34] ++ escape_all false s ++ [34].

(** ** The order of strings *)

(** [a <= b], by code units. *)
Fixpoint jle (a b : jstr) : bool :=
  match a, b with
  | [], _ => true
  | _ :: _, [] => false
  | x :: a', y :: b' => (x <? y) || ((x =? y) && jle a' b')
  end.

Lemma jle_refl a : jle a a = true.
Proof. induction a as [|x a IH]; simpl; [done|]. by rewrite Z.eqb_refl, IH, orb_true_r. Qed.

Lemma jle_trans a b c : jle a b = true → jle b c = true → jle a c = true.
Proof.
  revert b c. induction a as [|x a IH]; intros [|y b] [|z c]; simpl; try done.
  rewrite !orb_true_iff, !andb_true_iff, !Z.ltb_lt, !Z.eqb_eq.
  intros [?|[-> ?]] [?|[-> ?]]; [left; lia|by left|by left|]. right. split; [done|]. by eapply IH.
Qed.

Lemma jle_antisym a b : jle a b = true → jle b a = true → a = b.
Proof.
  revert b. induction a as [|x a IH]; intros [|y b]; simpl; try done.
  rewrite !orb_true_iff, !andb_true_iff, !Z.ltb_lt, !Z.eqb_eq.
  intros [?|[-> ?]] [?|[? ?]]; try lia. by rewrite (IH b).
Qed.

Lemma jle_total a b : jle a b = true ∨ jle b a = true.
Proof.
  revert b. induction a as [|x a IH]; intros [|y b]; simpl; try by auto.
  rewrite !orb_true_iff, !andb_true_iff, !Z.ltb_lt, !Z.eqb_eq.
  destruct (Z.lt_trichotomy x y) as [?|[->|?]]; [by auto| |by auto]. destruct (IH b); auto.
Qed.

Definition jR (a b : jstr) : Prop := jle a b = true.
#[export] Instance jR_dec : RelDecision jR.
Proof. intros a b. unfold jR. apply _. Defined.
#[export] Instance jR_total : Total jR.
Proof. intros a b. apply jle_total. Qed.
#[export] Instance jR_trans : Transitive jR.
Proof. intros a b c. apply jle_trans. Qed.
#[export] Instance jR_antisymm : AntiSymm (=) jR.
Proof. intros a b. apply jle_antisym. Qed.

(** [[...new Set(l)].sort()]: the set keeps the first occurrence of each string. *)
Definition sort (l : list jstr) : list jstr := merge_sort jR l.

(** ** Numerals *)

Definition is_digit (c : Z) : bool := (48 <=? c) && (c <=? 57).

Definition digits_value (s : jstr) : Z := fold_left (λ n c, 10 * n + (c - 48)) s 0.

Fixpoint digit_prefix (s : jstr) : jstr :=
  match s with
  | c :: s' => if is_digit c then c :: digit_prefix s' else []
  | [] => []
  end.

(** [parseInt(s, 10)]; [None] is [NaN]. *)
Definition parseInt (s : jstr) : option Z :=
  let s := trimStart s in
  let '(sign, s) := match s with
                    | 43 :: s' => (1, s')
                    | 45 :: s' => (-1, s')
                    | _ => (1, s)
                    end in
  match digit_prefix s with
  | [] => None
  | ds => Some (sign * digits_value ds)
  end.

(** ** Facts *)

(** A UTF-16 code unit. *)
Definition code_unit (c : Z) : Prop := 0 ≤ c < 65536.

Lemma hex_digit_inj d e : 0 ≤ d < 16 → 0 ≤ e < 16 → hex_digit d = hex_digit e → d = e.
Proof. unfold hex_digit. intros ? ?. destruct (Z.ltb_spec d 10), (Z.ltb_spec e 10); intros; lia. Qed.

Lemma hex4_value c : code_unit c →
  c = 4096 * ((c / 4096) `mod` 16) + 256 * ((c / 256) `mod` 16) + 16 * ((c / 16) `mod` 16) + c `mod` 16.
Proof.
  unfold code_unit. intros Hc.
  assert (c / 256 = c / 16 / 16) as -> by (rewrite Z.div_div; [done|lia..]).
  assert (c / 4096 = c / 16 / 16 / 16) as -> by (rewrite !Z.div_div; [done|lia..]).
  pose proof (Z.div_mod c 16 ltac:(lia)) as E1. pose proof (Z.div_mod (c / 16) 16 ltac:(lia)) as E2.
  pose proof (Z.div_mod (c / 16 / 16) 16 ltac:(lia)) as E3.
  assert ((c / 16 / 16 / 16) `mod` 16 = c / 16 / 16 / 16) as E4; [|lia].
  apply Z.mod_small. rewrite !Z.div_div by lia. split; [apply Z.div_pos; lia|].
  apply Z.div_lt_upper_bound; lia.
Qed.

Lemma hex4_inj c d x y : code_unit c → code_unit d → hex4 c ++ x = hex4 d ++ y → c = d ∧ x = y.
Proof.
  unfold hex4. intros Hc Hd E. simpl in E. injection E as E1 E2 E3 E4 ->. split; [|done].
  apply hex_digit_inj in E1, E2, E3, E4; try (apply Z.mod_pos_bound; lia).
  rewrite (hex4_value c Hc), (hex4_value d Hd). lia.
Qed.

Lemma short_escape_inj c d e : short_escape c = Some e → short_escape d = Some e → c = d.
Proof. unfold short_escape. intros H1 H2. repeat case_match; simplify_eq; to_prop; lia. Qed.
Lemma short_escape_letter c e : short_escape c = Some e → e ≠ 117.
Proof. unfold short_escape. intros H1. repeat case_match; simplify_eq; lia. Qed.
Lemma short_escape_None c : short_escape c = None → c ≠ 34 ∧ c ≠ 92.
Proof. unfold short_escape. intros H1. repeat case_match; simplify_eq; to_prop; lia. Qed.

(** The escapes of a code unit are a prefix code, apart from the closing quote. *)
Lemma escape_inj c d p q x y :
  code_unit c → code_unit d → escape c p ++ x = escape d q ++ y → c = d ∧ x = y.
Proof.
  intros Hc Hd. unfold escape.
  destruct (short_escape c) as [e|] eqn:Ec, (short_escape d) as [f|] eqn:Ed.
  - intros [= -> ->]. split; [|done]. by eapply short_escape_inj.
  - apply short_escape_None in Ed as [? ?]. apply short_escape_letter in Ec.
    destruct (_ || _); simpl; intros [=]; congruence.
  - apply short_escape_None in Ec as [? ?]. apply short_escape_letter in Ed.
    destruct (_ || _); simpl; intros [=]; congruence.
  - apply short_escape_None in Ec as [? ?], Ed as [? ?].
    destruct ((c <? 32) || _), ((d <? 32) || _); [|by intros [=]..|by intros [=]].
    rewrite <- !app_assoc. intros E. do 2 apply (inj (cons _)) in E. by apply hex4_inj.
Qed.

Lemma escape_not_quote c p x y : escape c p ++ x ≠ 34 :: y.
Proof.
  unfold escape. destruct (short_escape c) eqn:E; [done|]. apply short_escape_None in E as [? ?].
  destruct (_ || _); [done|]. intros [=]. congruence.
Qed.

Lemma escape_all_inj s t b b' x y :
  Forall code_unit s → Forall code_unit t →
  escape_all b s ++ 34 :: x = escape_all b' t ++ 34 :: y → s = t ∧ x = y.
Proof.
  intros Hs. revert t b b'. induction Hs as [|c s Hc _ IH]; intros t b b' Ht; destruct Ht as [|d t Hd Ht]; simpl.
  - by intros [= ->].
  - rewrite <- app_assoc. intros E. by apply symmetry, escape_not_quote in E.
  - rewrite <- app_assoc. intros E. by apply escape_not_quote in E.
  - rewrite <- !app_assoc. intros E. apply escape_inj in E as [-> E]; [|done..].
    apply IH in E as [-> ->]; [done|done].
Qed.

(** [JSON.stringify] distinguishes strings, whatever follows them. *)
Lemma stringify_inj s t x y :
  Forall code_unit s → Forall code_unit t → stringify s ++ x = stringify t ++ y → s = t ∧ x = y.
Proof.
  intros Hs Ht. unfold stringify. simpl. rewrite <- !app_assoc. intros [= E].
  by apply escape_all_inj in E.
Qed.

(** *** Numerals *)

Lemma js_String a s : js (String a s) = Z.of_nat (Ascii.nat_of_ascii a) :: js s.
Proof. done. Qed.

Lemma js_app s t : js (s +:+ t) = js s ++ js t.
Proof.
  induction s as [|a s IH]; [done|].
  change (String a s +:+ t) with (String a (s +:+ t)). by rewrite !js_String, IH.
Qed.

Lemma js_inj s t : js s = js t → s = t.
Proof.
  revert t. induction s as [|a s IH]; intros [|b t]; try done. rewrite (js_String a s), (js_String b t). intros [= E ?].
  f_equal; [|by apply IH]. apply Nat2Z.inj in E. rewrite <- (Ascii.ascii_nat_embedding a), E.
  apply Ascii.ascii_nat_embedding.
Qed.

Lemma pretty_char_code (x : N) : (x < 10)%N → Z.of_nat (Ascii.nat_of_ascii (pretty_N_char x)) = 48 + Z.of_N x.
Proof.
  intros Hx. assert (Hd : In x [0;1;2;3;4;5;6;7;8;9]%N) by (simpl; lia).
  simpl in Hd. by repeat (destruct Hd as [<-|Hd]; [reflexivity|]).
Qed.

Lemma digits_value_snoc ds d : digits_value (ds ++ [d]) = 10 * digits_value ds + (d - 48).
Proof. unfold digits_value. by rewrite fold_left_app. Qed.

(** The decimal digits of a number. *)
Definition numeral (ds : jstr) (n : Z) : Prop :=
  ds ≠ [] ∧ Forall (λ c, is_digit c = true) ds ∧ digits_value ds = n.

Lemma pretty_go_digits (x : N) (s : string) :
  (0 < x)%N → ∃ ds, js (pretty_N_go x s) = ds ++ js s ∧ numeral ds (Z.of_N x).
Proof.
  revert s; induction (N.lt_wf_0 x) as [x _ IH]; intros s Hx.
  assert (x `mod` 10 < 10)%N as Hm by (apply N.mod_lt; lia).
  assert (is_digit (48 + Z.of_N (x `mod` 10)) = true) as Hdig.
  { unfold is_digit. rewrite andb_true_iff, !Z.leb_le.
    clear IH. revert Hm. generalize (x `mod` 10)%N. lia. }
  rewrite pretty_N_go_step by done. destruct (decide (x < 10)%N) as [Hlt|Hge].
  - rewrite (N.div_small x 10) by done. rewrite pretty_N_go_0, js_String, pretty_char_code by done.
    exists [48 + Z.of_N (x `mod` 10)]. split; [done|]. split_and!; [done|by constructor|].
    unfold digits_value. simpl. rewrite N.mod_small by done. lia.
  - destruct (IH (x / 10)%N) with (s := String (pretty_N_char (x `mod` 10)) s) as (ds & E & Hne & Hd & Hv).
    { apply N.div_lt; lia. } { apply N.div_str_pos; lia. }
    exists (ds ++ [48 + Z.of_N (x `mod` 10)]). rewrite E, js_String, pretty_char_code by done.
    split; [by rewrite <- app_assoc|]. split_and!; [by destruct ds|apply Forall_app; by split; [|constructor]|].
    rewrite digits_value_snoc, Hv. pose proof (N.div_mod x 10 ltac:(lia)) as E'. revert E'.
    generalize (x `mod` 10)%N (x / 10)%N. lia.
Qed.

Lemma jnum_numeral n : 0 ≤ n → numeral (jnum n) n.
Proof.
  intros Hn. unfold jnum, num_str. destruct n as [|p|p]; [|change (pretty (Z.pos p)) with (pretty_N_go (N.pos p) "")|lia].
  - by split_and!; [|repeat constructor|].
  - destruct (pretty_go_digits (N.pos p) "") as (ds & -> & Hds); [done|]. by rewrite app_nil_r.
Qed.

Lemma digit_prefix_digits ds s :
  Forall (λ c, is_digit c = true) ds → digit_prefix (ds ++ s) = ds ++ digit_prefix s.
Proof. induction 1 as [|c ds Hc _ IH]; simpl; [done|]. by rewrite Hc, IH. Qed.

Lemma app_terminated c (a b x y : jstr) : c ∉ a → c ∉ b → a ++ c :: x = b ++ c :: y → a = b ∧ x = y.
Proof.
  revert b. induction a as [|d a IH]; intros [|e b] Ha Hb; simpl.
  - by intros [= ->].
  - intros [= <- _]. exfalso. apply Hb. by left.
  - intros [= -> _]. exfalso. apply Ha. by left.
  - intros [= -> E]. apply IH in E as [-> ->]; [done|by intros ?; apply Ha; right|by intros ?; apply Hb; right].
Qed.

(** Texts without NUL are read off their concatenation with NUL between them. *)
Lemma jjoin_nul_inj ds ds' : ds ≠ [] → ds' ≠ [] → Forall (λ d, 0 ∉ d) ds → Forall (λ d, 0 ∉ d) ds' →
  jjoin [0] ds = jjoin [0] ds' → ds = ds'.
Proof.
  assert (Hone : ∀ d e es, 0 ∉ d → d ≠ jjoin [0] (e :: es) ∨ es = []).
  { intros d e [|e' es] Hd; [by right|left; intros ->; apply Hd; simpl; set_solver]. }
  revert ds'; induction ds as [|d [|d2 ds] IH]; intros [|e [|e2 es]] H0 H1 Hd He; try done.
  - by simpl; intros ->.
  - intros Heq; apply Forall_cons in Hd as [Hd _]; by destruct (Hone d e (e2 :: es) Hd) as [[] | ].
  - intros Heq; apply Forall_cons in He as [He _]; by destruct (Hone e d (d2 :: ds) He) as [[] | ].
  - apply Forall_cons in Hd as [Hd Hds], He as [He Hes].
    change (d ++ 0 :: jjoin [0] (d2 :: ds) = e ++ 0 :: jjoin [0] (e2 :: es) → d :: d2 :: ds = e :: e2 :: es).
    intros [-> Heq]%app_terminated; [|done..]; f_equal; by apply IH.
Qed.

Lemma jnum_inj n m : jnum n = jnum m → n = m.
Proof. intros E%js_inj. by apply (inj pretty) in E. Qed.

Lemma jnum_chars n c : c ∈ jnum n → c = 45 ∨ is_digit c = true.
Proof.
  destruct (decide (0 ≤ n)) as [Hn|Hn].
  - destruct (jnum_numeral n Hn) as (_ & Hd & _). rewrite Forall_forall in Hd. intros Hc. right. by apply Hd.
  - destruct n as [|p|p]; [lia..|]. change (jnum (Z.neg p)) with (45 :: jnum (Z.pos p)).
    intros [->|Hc]%elem_of_cons; [by left|]. right.
    destruct (jnum_numeral (Z.pos p)) as (_ & Hd & _); [lia|]. rewrite Forall_forall in Hd. by apply Hd.
Qed.
