(* ===== verification/Resolver.v ===== *)
(** * The service resolver

    [common/js/resolver/src/]: targets ([target.ts]), the environment
    ([environment.ts]), the deploy service's client ([deploy-client.ts]), the
    endpoint filter ([endpoint-filter.ts]) and the two resolvers made of them
    ([resolver.ts], [stateful.ts]).

    A request is one call of the injected [fetch]; what comes back is an argument
    ([FetchAnswer]). *)

From stdpp Require Import sorting.
From S2P Require Import Prelude JsText JsJson.

#[local] Open Scope Z_scope.

(** ** errors.ts *)

Inductive ResolverError : Type :=
| InvalidTargetError (message : jstr)
| MissingEnvironmentError (message : jstr)
| InvalidEnvironmentError (message : jstr)
| DeployServiceError (message : jstr)
| ServiceNotFoundError (message : jstr)
| ServiceNotStatefulError (message : jstr)
| StatefulInstanceNotFoundError (message : jstr)
| StatefulInstanceNoReadyEndpointsError (message : jstr)
| UnreadableBody (message : jstr).

Definition error_message (e : ResolverError) : jstr :=
  match e with
  | InvalidTargetError m | MissingEnvironmentError m | InvalidEnvironmentError m | DeployServiceError m
  | ServiceNotFoundError m | ServiceNotStatefulError m | StatefulInstanceNotFoundError m
  | StatefulInstanceNoReadyEndpointsError m | UnreadableBody m => m
  end.

(** [instanceof DeployServiceError]. *)
Definition is_DeployServiceError (e : ResolverError) : bool :=
  match e with DeployServiceError _ | ServiceNotFoundError _ => true | _ => false end.

Definition Result (A : Type) : Type := (ResolverError + A)%type.

#[global] Instance result_ret : MRet Result := λ A a, inr a.
#[global] Instance result_bind : MBind Result := λ A B f r,
  match r with inl e => inl e | inr a => f a end.

(** ** target.ts *)

Record Target : Type := mkTarget { app : jstr; service : jstr; port : Z }.

#[global] Instance Target_eq_dec : EqDecision Target.
Proof. solve_decision. Defined.

Definition DOMINION_SCHEME_PREFIX : jstr := js "dominion:///".
Definition MAX_PORT : Z := 65535.
Definition colon : Z := 58.
Definition slash_unit : Z := 47.

(** The text before and after the first [c]. *)
Fixpoint cut (c : Z) (s : jstr) : option (jstr * jstr) :=
  match s with
  | [] => None
  | d :: s' => if d =? c then Some ([], s') else r ← cut c s'; Some (d :: r.1, r.2)
  end.

Definition invalid_target {A} (raw detail : jstr) : Result A :=
  inl (InvalidTargetError (js "invalid target " ++ stringify raw ++ js ": " ++ detail)).

Definition WANT : jstr := js "want app/service:port".

(** The text without its scheme. *)
Definition strip_scheme (raw trimmed : jstr) : Result jstr :=
  if bool_decide (DOMINION_SCHEME_PREFIX `prefix_of` trimmed)
  then inr (drop (length DOMINION_SCHEME_PREFIX) trimmed)
  else if includes trimmed (js "://")
  then invalid_target raw (WANT ++ js " or dominion:///app/service:port")
  else inr trimmed.

Definition all_digits (s : jstr) : bool := bool_decide (s ≠ []) && forallb is_digit s.

Definition parse_port (raw : jstr) (portPart : option jstr) : Result Z :=
  let trimmedPortPart := trim (default [] portPart) in
  if bool_decide (trimmedPortPart = []) then
    match portPart with
    | Some _ => invalid_target raw (js "port must be numeric")
    | None => invalid_target raw (js "port is required")
    end
  else if negb (all_digits trimmedPortPart) then
    invalid_target raw (js "port must be numeric, got " ++ stringify trimmedPortPart)
  else
    let numericPort := digits_value trimmedPortPart in
    if (numericPort <? 0) || (MAX_PORT <? numericPort) then invalid_target raw (js "port out of range")
    else inr numericPort.

Definition parseTarget (raw : jstr) : Result Target :=
  let trimmed := trim raw in
  if bool_decide (trimmed = []) then invalid_target raw WANT
  else
    trimmed ← strip_scheme raw trimmed;
    let '(pathPart, portPart) :=
      match cut colon trimmed with
      | Some (pathPart, portPart) => (pathPart, Some portPart)
      | None => (trimmed, None)
      end in
    match cut slash_unit pathPart with
    | None => invalid_target raw WANT
    | Some (appPart, servicePart) =>
        let appPart := trim appPart in
        let servicePart := trim servicePart in
        if bool_decide (appPart = []) || bool_decide (servicePart = []) || bool_decide (slash_unit ∈ servicePart)
        then invalid_target raw WANT
        else numericPort ← parse_port raw portPart; inr (mkTarget appPart servicePart numericPort)
    end.

(** ** environment.ts *)

Record DominionEnvironment : Type := mkEnv { scope : jstr; environment : jstr }.

(** The two variables that are read. *)
Record EnvMap : Type := mkEnvMap { DOMINION_ENVIRONMENT : option jstr; SERVICE_APP : option jstr }.

Definition DOMINION_ENVIRONMENT_KEY : jstr := js "DOMINION_ENVIRONMENT".
Definition SERVICE_APP_KEY : jstr := js "SERVICE_APP".

Definition parseDominionEnvironment (env : EnvMap) : Result DominionEnvironment :=
  match DOMINION_ENVIRONMENT env with
  | None | Some [] => inl (MissingEnvironmentError (js "missing required env " ++ DOMINION_ENVIRONMENT_KEY))
  | Some raw =>
      let invalid := inl (InvalidEnvironmentError
        (js "invalid " ++ DOMINION_ENVIRONMENT_KEY ++ js " " ++ stringify raw ++ js ": want scope.envName")) in
      match cut 46 raw with
      | None => invalid
      | Some (scope, environment) =>
          if bool_decide (scope = []) || bool_decide (environment = []) then invalid
          else inr (mkEnv scope environment)
      end
  end.

Definition validateServiceApp (target : Target) (env : EnvMap) : Result unit :=
  match SERVICE_APP env with
  | None | Some [] => inl (MissingEnvironmentError (js "missing required env " ++ SERVICE_APP_KEY))
  | Some serviceApp =>
      if bool_decide (app target ≠ serviceApp) then
        inl (InvalidTargetError (js "target app " ++ stringify (app target) ++ js " does not match "
          ++ SERVICE_APP_KEY ++ js " " ++ stringify serviceApp))
      else inr ()
  end.

Definition buildResourceName (env : DominionEnvironment) (target : Target) : jstr :=
  js "deploy/scopes/" ++ scope env ++ js "/environments/" ++ environment env ++ js "/apps/" ++ app target
  ++ js "/services/" ++ service target ++ js "/endpoints".

(** ** deploy-client.ts *)

Record StatefulInstance : Type := mkInstance { index : Z; si_endpoints : list jstr }.

Record ServiceEndpoints : Type := mkEndpoints {
  endpoints : list jstr;
  isStateful : bool;
  statefulInstances : list StatefulInstance;
}.

(** The fields of the decoded body, absent or null ones being [None]; the ports
    are never read. *)
Record RawEndpoints : Type := mkRaw {
  raw_endpoints : option (list jstr);
  raw_isStateful : option bool;
  raw_is_stateful : option bool;
  raw_statefulInstances : option (list StatefulInstance);
  raw_stateful_instances : option (list StatefulInstance);
}.

Definition or_else {A} (a b : option A) : option A := match a with Some _ => a | None => b end.

Definition mapServiceEndpoints (raw : RawEndpoints) : ServiceEndpoints :=
  mkEndpoints (default [] (raw_endpoints raw))
    (default false (or_else (raw_isStateful raw) (raw_is_stateful raw)))
    (default [] (or_else (raw_statefulInstances raw) (raw_stateful_instances raw))).

Definition DEFAULT_REQUEST_TIMEOUT_MS : Z := 5000.

(** What [fetch] does: it throws (by the timeout signal or not), or answers with a
    status, a text ([None] when reading it fails) and a decoded body (or the
    message of the decoding error). *)
Inductive FetchAnswer : Type :=
| FetchTimeout
| FetchFails (message : jstr)
| FetchResponds (status : Z) (text : option jstr) (body : jstr + RawEndpoints).

Definition response_ok (status : Z) : bool := (200 <=? status) && (status <=? 299).

Definition request_url (baseUrl resourceName : jstr) : jstr := baseUrl ++ js "/v1/" ++ resourceName.

Definition getServiceEndpoints (requestTimeoutMs : Z) (resourceName : jstr) (answer : FetchAnswer)
    : Result ServiceEndpoints :=
  match answer with
  | FetchTimeout =>
      inl (DeployServiceError (js "deploy service request timed out after " ++ jnum requestTimeoutMs ++ js "ms"))
  | FetchFails message => inl (DeployServiceError (js "deploy service request failed: " ++ message))
  | FetchResponds status text body =>
      if status =? 404 then inl (ServiceNotFoundError (js "service not found: " ++ resourceName))
      else if negb (response_ok status) then
        inl (DeployServiceError (js "deploy service returned status " ++ jnum status ++ js ": " ++ default [] text))
      else match body with
      | inl message => inl (UnreadableBody message)
      | inr raw => inr (mapServiceEndpoints raw)
      end
  end.

(** ** endpoint-filter.ts *)

(** [/:(\d+)$/.exec(ep)?.[1]]: the digits after the last colon, when what follows it
    is digits. *)
Definition port_suffix (ep : jstr) : option jstr :=
  let i := lastIndexOf ep colon in
  if i <? 0 then None
  else let digits := slice_from ep (i + 1) in if all_digits digits then Some digits else None.

(** The set keeps one of each; sorting makes their order of insertion irrelevant. *)
Definition filterEndpoints (eps : list jstr) (p : Z) : list jstr :=
  let portStr := jnum p in
  sort (remove_dups (filter (λ ep, port_suffix ep = Some portStr) eps)).

(** ** resolver.ts and stateful.ts *)

Section Resolve.
(** The environment, the timeout and what [fetch] answers to a URL. *)
Context (deployBaseUrl : jstr) (requestTimeoutMs : Z) (env : EnvMap) (fetch : jstr → FetchAnswer).

(** The part the two resolvers share. *)
Definition fetchServiceEndpoints (target : Target) : Result ServiceEndpoints :=
  _ ← validateServiceApp target env;
  dominionEnv ← parseDominionEnvironment env;
  let resourceName := buildResourceName dominionEnv target in
  getServiceEndpoints requestTimeoutMs resourceName (fetch (request_url deployBaseUrl resourceName)).

(** The input is a text or a parsed target. *)
Definition target_of (input : jstr + Target) : Result Target :=
  match input with inl raw => parseTarget raw | inr target => inr target end.

Definition resolve (input : jstr + Target) : Result (list jstr) :=
  target ← target_of input;
  serviceEndpoints ← fetchServiceEndpoints target;
  inr (filterEndpoints (endpoints serviceEndpoints) (port target)).

Definition resolveInstance (input : jstr + Target) (instance : Z) : Result (list jstr) :=
  parsed ← target_of input;
  serviceEndpoints ← fetchServiceEndpoints parsed;
  if negb (isStateful serviceEndpoints) then
    inl (ServiceNotStatefulError (js "service " ++ stringify (service parsed) ++ js " is not stateful"))
  else match find (λ inst, index inst =? instance) (statefulInstances serviceEndpoints) with
  | None =>
      inl (StatefulInstanceNotFoundError (js "stateful instance " ++ jnum instance ++ js " not found for service "
        ++ stringify (service parsed)))
  | Some instanceData =>
      match filterEndpoints (si_endpoints instanceData) (port parsed) with
      | [] =>
          inl (StatefulInstanceNoReadyEndpointsError (js "stateful instance " ++ jnum instance
            ++ js " has no ready endpoints for service " ++ stringify (service parsed)))
      | filtered => inr filtered
      end
  end.

End Resolve.

(** ** The service resolver: properties

    Targets: what [parseTarget] accepts is well formed and is read back from its
    text.  Endpoints: the filter returns a canonical list, the same for every
    order and repetition of the endpoints it is given. *)

(** ** Text *)

Lemma cut_app c a b : c ∉ a → cut c (a ++ c :: b) = Some (a, b).
Proof.
  induction a as [|d a IH]; simpl; [by rewrite Z.eqb_refl|]. rewrite not_elem_of_cons. intros [Hd Ha].
  destruct (Z.eqb_spec d c); [congruence|]. by rewrite IH.
Qed.

Lemma cut_Some c s a b : cut c s = Some (a, b) → s = a ++ c :: b ∧ c ∉ a.
Proof.
  revert a b. induction s as [|d s IH]; intros a b; simpl; [done|].
  destruct (Z.eqb_spec d c) as [->|Hd].
  - intros [= <- <-]. split; [done|]. apply not_elem_of_nil.
  - destruct (cut c s) as [[a' b']|]; simpl; [|done]. intros [= <- <-].
    destruct (IH a' b' eq_refl) as [-> Ha]. split; [done|]. apply not_elem_of_cons. split; [congruence|done].
Qed.

Lemma cut_None c s : cut c s = None → c ∉ s.
Proof.
  induction s as [|d s IH]; simpl; [intros _; apply not_elem_of_nil|].
  destruct (Z.eqb_spec d c); [done|]. destruct (cut c s); [done|]. intros _.
  apply not_elem_of_cons. split; [congruence|by apply IH].
Qed.

(** A text without white space at its ends, and not empty. *)
Definition word (s : jstr) : Prop := s ≠ [] ∧ trimmed s.

Lemma trimStart_fixed_app s t : s ≠ [] → trimStart s = s → trimStart (s ++ t) = s ++ t.
Proof.
  intros Hne Hs. destruct s as [|c s]; [done|]. simpl in *.
  destruct (is_js_space c) eqn:Hc; [|done]. exfalso.
  destruct (trimStart_suffix s) as [l E]. apply (f_equal length) in E. rewrite Hs in E.
  rewrite length_app in E. simpl in E. lia.
Qed.

Lemma word_app s t u : word s → word u → word (s ++ t ++ u).
Proof.
  intros [Hs [Hs1 _]] [Hu [_ Hu2]]. split; [by destruct s|]. split; [by apply trimStart_fixed_app|].
  unfold trimEnd in *. rewrite !reverse_app, <- app_assoc, trimStart_fixed_app.
  - by rewrite !reverse_app, !reverse_involutive, <- app_assoc.
  - intros E. apply Hu. by rewrite <- (reverse_involutive u), E.
  - rewrite <- (reverse_involutive (trimStart (reverse u))). by rewrite Hu2.
Qed.

Lemma not_space c : is_digit c = true → is_js_space c = false.
Proof.
  unfold is_digit, is_js_space. rewrite andb_true_iff, !Z.leb_le. intros [? ?].
  apply bool_decide_eq_false. intros Hc. unfold js_spaces in Hc.
  repeat (apply elem_of_cons in Hc as [?|Hc]; [lia|]). by apply elem_of_nil in Hc.
Qed.

Lemma trimStart_digits s : Forall (λ c, is_digit c = true) s → trimStart s = s.
Proof. intros Hs. destruct Hs as [|c s Hc _]; simpl; [done|]. by rewrite not_space. Qed.

Lemma numeral_word s n : numeral s n → word s.
Proof.
  intros (Hne & Hd & _). split; [done|]. split; [by apply trimStart_digits|].
  unfold trimEnd. rewrite trimStart_digits by (by apply Forall_reverse). apply reverse_involutive.
Qed.

Lemma numeral_no_colon s n : numeral s n → colon ∉ s.
Proof. intros (_ & Hd & _) Hc. rewrite Forall_forall in Hd. by apply Hd in Hc. Qed.

Lemma numeral_all_digits s n : numeral s n → all_digits s = true.
Proof.
  intros (Hne & Hd & _). unfold all_digits. rewrite bool_decide_eq_true_2 by done. simpl.
  apply forallb_forall. intros c Hc%list_elem_of_In. rewrite Forall_forall in Hd. by apply Hd.
Qed.

Lemma all_digits_numeral s : all_digits s = true → numeral s (digits_value s).
Proof.
  unfold all_digits. rewrite andb_true_iff, bool_decide_eq_true, forallb_forall. intros [Hne Hd].
  split_and!; [done| |done]. apply Forall_forall. intros c Hc. by apply Hd, list_elem_of_In.
Qed.

Lemma digits_value_nonneg s : Forall (λ c, is_digit c = true) s → 0 ≤ digits_value s.
Proof.
  induction s as [|c s IH] using rev_ind; [done|]. rewrite Forall_app, digits_value_snoc.
  intros [Hs [Hc _]%Forall_cons]. specialize (IH Hs). unfold is_digit in Hc. rewrite andb_true_iff, !Z.leb_le in Hc. lia.
Qed.

(** ** Targets *)

Record target_wf (t : Target) : Prop := {
  tw_app : word (app t);
  tw_app_colon : colon ∉ app t;
  tw_app_slash : slash_unit ∉ app t;
  tw_service : word (service t);
  tw_service_colon : colon ∉ service t;
  tw_service_slash : slash_unit ∉ service t;
  tw_port : 0 ≤ port t ≤ MAX_PORT;
}.

(** The text of a target. *)
Definition printTarget (t : Target) : jstr :=
  app t ++ [slash_unit] ++ service t ++ [colon] ++ jnum (port t).

Lemma trim_subset s c : c ∈ trim s → c ∈ s.
Proof.
  unfold trim. intros Hc. destruct (trimEnd_prefix (trimStart s)) as [r E].
  destruct (trimStart_suffix s) as [l E']. rewrite E', E, !elem_of_app. by auto.
Qed.

Lemma parse_port_spec raw p n :
  parse_port raw p = inr n → 0 ≤ n ≤ MAX_PORT ∧ ∃ s, p = Some s ∧ numeral (trim s) n.
Proof.
  unfold parse_port, invalid_target. case_bool_decide as He; [by destruct p|].
  destruct (all_digits _) eqn:Ed; [|done]. simpl.
  destruct (_ || _) eqn:Er; [done|]. intros [= <-]. to_prop. unfold MAX_PORT in *.
  split; [lia|]. destruct p as [s|]; [|done]. exists s. split; [done|]. by apply all_digits_numeral.
Qed.

Lemma parse_port_numeral raw s n : numeral s n → 0 ≤ n ≤ MAX_PORT → parse_port raw (Some s) = inr n.
Proof.
  intros Hn Hr. unfold parse_port. simpl. rewrite trimmed_trim by exact (proj2 (numeral_word _ _ Hn)).
  rewrite bool_decide_eq_false_2 by apply Hn. rewrite (numeral_all_digits _ _ Hn). simpl.
  destruct Hn as (_ & _ & ->). rewrite (proj2 (Z.ltb_ge n 0)), (proj2 (Z.ltb_ge MAX_PORT n)); [done|lia..].
Qed.

(** C40: What is accepted is a target.  Whatever text is given, a target that comes
    back has a non-empty application and service, without white space at their ends
    and without a colon or a slash, and a port of a TCP address. *)
Theorem parseTarget_well_typed raw t : parseTarget raw = inr t → target_wf t.
Proof.
  unfold parseTarget. case_bool_decide; [done|].
  destruct (strip_scheme raw (trim raw)) as [|trimmed]; simpl; [done|].
  set (parts := match cut colon trimmed with Some (p, q) => (p, Some q) | None => (trimmed, None) end).
  assert (colon ∉ parts.1) as Hcolon.
  { unfold parts. destruct (cut colon trimmed) as [[p q]|] eqn:Ec; simpl; [|by apply cut_None].
    by destruct (cut_Some _ _ _ _ Ec). }
  destruct parts as [pathPart portPart]. simpl in Hcolon.
  destruct (cut slash_unit pathPart) as [[a s]|] eqn:Es; [|done].
  apply cut_Some in Es as [-> Ha]. rewrite elem_of_app, elem_of_cons in Hcolon.
  destruct (bool_decide (trim a = [])) eqn:E1; [done|]. destruct (bool_decide (trim s = [])) eqn:E2; [done|].
  destruct (bool_decide (slash_unit ∈ trim s)) eqn:E3; [done|]. simpl.
  apply bool_decide_eq_false in E1, E2, E3.
  destruct (parse_port raw portPart) as [|n] eqn:Ep; simpl; [done|]. intros [= <-].
  apply parse_port_spec in Ep as [Hn _].
  split; simpl; try done.
  - split; [done|apply trim_trimmed].
  - intros Hc%trim_subset. tauto.
  - intros Hc%trim_subset. done.
  - split; [done|apply trim_trimmed].
  - intros Hc%trim_subset. tauto.
Qed.

(** A text with one separator is split at it. *)
Lemma one_separator (c : Z) (a b x y : jstr) : c ∉ a → c ∉ b → x ++ c :: y = a ++ c :: b → c ∉ x.
Proof.
  intros Ha Hb E Hx. apply list_elem_of_split_l in Hx as (l1 & l2 & -> & Hl1).
  rewrite <- app_assoc in E. simpl in E. apply app_terminated in E as [_ <-]; [|done..].
  apply Hb. apply elem_of_app. right. by left.
Qed.

Lemma digits_no_slash s n : numeral s n → slash_unit ∉ s.
Proof. intros (_ & Hd & _) Hc. rewrite Forall_forall in Hd. by apply Hd in Hc. Qed.

Lemma scheme_stripped raw path s n :
  colon ∉ path → numeral s n →
  strip_scheme raw (path ++ colon :: s) = inr (path ++ colon :: s) ∧
  strip_scheme raw (DOMINION_SCHEME_PREFIX ++ path ++ colon :: s) = inr (path ++ colon :: s).
Proof.
  intros Hpath Hn. pose proof (numeral_no_colon _ _ Hn) as Hc. pose proof (digits_no_slash _ _ Hn) as Hs.
  assert (∀ x y, x ++ colon :: slash_unit :: y ≠ path ++ colon :: s) as Hno.
  { intros x y E. assert (colon ∉ x) as Hx by (eapply (one_separator _ _ _ _ _ Hpath Hc), E).
    apply app_terminated in E as [_ <-]; [|done..]. apply Hs. by left. }
  split; unfold strip_scheme.
  - rewrite bool_decide_eq_false_2.
    + destruct (includes _ _) eqn:Ei; [|done]. exfalso. apply includes_spec in Ei as (l & r & E).
      by apply symmetry, Hno in E.
    + intros [r E]. by apply symmetry, (Hno (js "dominion")) in E.
  - rewrite bool_decide_eq_true_2 by (by eexists). by rewrite drop_app_length.
Qed.

Lemma parse_trimmed raw t :
  target_wf t → trim raw = printTarget t ∨ trim raw = DOMINION_SCHEME_PREFIX ++ printTarget t →
  parseTarget raw = inr t.
Proof.
  intros [Ha Hac Has Hs Hsc Hss Hp] Htrim.
  pose proof (jnum_numeral (port t) ltac:(lia)) as Hnum.
  set (path := app t ++ slash_unit :: service t) in *.
  assert (printTarget t = path ++ colon :: jnum (port t)) as Epr.
  { unfold printTarget, path. by rewrite <- app_assoc. }
  assert (colon ∉ path) as Hpath.
  { unfold path. rewrite elem_of_app, elem_of_cons. intros [?|[[=]|?]]; done. }
  destruct (scheme_stripped raw path _ _ Hpath Hnum) as [S1 S2]. rewrite Epr in Htrim.
  unfold parseTarget. rewrite bool_decide_eq_false_2.
  2:{ destruct Htrim as [-> | ->]; [|done]. by destruct path. }
  assert (strip_scheme raw (trim raw) = inr (path ++ colon :: jnum (port t))) as ->.
  { by destruct Htrim as [-> | ->]. }
  simpl. rewrite cut_app by done. unfold path. rewrite cut_app by done.
  rewrite !trimmed_trim by exact (proj2 Ha) || exact (proj2 Hs).
  rewrite !bool_decide_eq_false_2 by (apply Ha || apply Hs || done). simpl.
  rewrite (parse_port_numeral _ _ _ Hnum Hp). simpl. by destruct t.
Qed.

(** A target is read back from its text.  The text [app/service:port] of a well
    formed target, with or without the [dominion:///] scheme, parses to it, also
    with white space around it. *)
Theorem parseTarget_roundtrip t before after :
  target_wf t → Forall (λ c, is_js_space c = true) (before ++ after) →
  parseTarget (before ++ printTarget t ++ after) = inr t ∧
  parseTarget (before ++ DOMINION_SCHEME_PREFIX ++ printTarget t ++ after) = inr t.
Proof.
  intros Ht [Hb Hafter]%Forall_app.
  assert (∀ s, word s → trim (before ++ s ++ after) = s) as Htrim.
  { intros s [Hne [H1 H2]]. unfold trim.
    assert (trimStart (before ++ s ++ after) = s ++ after) as ->.
    { clear Hafter. induction Hb as [|c before Hc _ IH]; simpl; [by apply trimStart_fixed_app|]. by rewrite Hc. }
    unfold trimEnd in *. rewrite reverse_app.
    assert (∀ l u, Forall (λ c, is_js_space c = true) l → trimStart (l ++ u) = trimStart u) as Hsp.
    { intros l u. induction 1 as [|c l Hc _ IH]; simpl; [done|]. by rewrite Hc. }
    rewrite Hsp by (by apply Forall_reverse). done. }
  pose proof (jnum_numeral (port t) ltac:(pose proof (tw_port _ Ht); lia)) as Hnum.
  assert (word (printTarget t)) as Hw.
  { unfold printTarget. rewrite (app_assoc (service t)), (app_assoc [slash_unit]).
    apply word_app; [apply Ht|by eapply numeral_word]. }
  assert (word DOMINION_SCHEME_PREFIX) as Hd by (split; [done|by split]).
  split; apply parse_trimmed; try done.
  - left. by apply Htrim.
  - right. rewrite (app_assoc DOMINION_SCHEME_PREFIX). apply Htrim.
    by apply (word_app _ [] _).
Qed.

Definition demo_target : Target := mkTarget (js "game") (js "agent") 50051.

Lemma demo_target_wf : target_wf demo_target.
Proof.
  split.
  1, 4: split; [done|]; by split.
  5: unfold MAX_PORT; simpl; lia.
  all: apply (bool_decide_unpack _); vm_compute; exact I.
Qed.

Lemma parseTarget_well_typed_witness :
  parseTarget (js " dominion:///game/agent:50051") = inr demo_target ∧ target_wf demo_target.
Proof.
  split; [reflexivity|]. apply (parseTarget_well_typed (js " dominion:///game/agent:50051")). reflexivity.
Defined.

Lemma parseTarget_roundtrip_witness :
  parseTarget ([32] ++ printTarget demo_target ++ [10]) = inr demo_target.
Proof.
  refine (proj1 (parseTarget_roundtrip demo_target [32] [10] demo_target_wf _)).
  repeat constructor.
Defined.

(** ** Endpoints *)

Lemma sort_perm l : sort l ≡ₚ l.
Proof. apply merge_sort_Permutation. Qed.

Lemma sort_sorted l : StronglySorted jR (sort l).
Proof. apply StronglySorted_merge_sort; apply _. Qed.

(** Two lists with the same elements, once each, are sorted alike. *)
Lemma sort_canonical l1 l2 :
  NoDup l1 → NoDup l2 → (∀ x, x ∈ l1 ↔ x ∈ l2) → sort l1 = sort l2.
Proof.
  intros H1 H2 Hx. apply (StronglySorted_unique jR); [apply sort_sorted..|].
  rewrite !sort_perm. by apply NoDup_Permutation.
Qed.

Lemma port_suffix_spec ep p :
  0 ≤ p → port_suffix ep = Some (jnum p) ↔ ∃ host, ep = host ++ colon :: jnum p.
Proof.
  intros Hp. pose proof (jnum_numeral p Hp) as Hn. split.
  - unfold port_suffix. destruct (Z.ltb_spec (lastIndexOf ep colon) 0); [done|].
    destruct (all_digits _) eqn:Ed; [|done]. intros [= E].
    destruct (decide (colon ∈ ep)) as [Hc|Hc]; [|by rewrite lastIndexOf_absent in *].
    apply list_elem_of_split_r in Hc as (l1 & l2 & -> & Hl2). exists l1.
    by rewrite after_last_app in E by done; subst l2.
  - intros [host ->]. unfold port_suffix.
    rewrite after_last_app by (by eapply numeral_no_colon). rewrite lastIndexOf_app by (by eapply numeral_no_colon).
    rewrite (proj2 (Z.ltb_ge _ _)) by (unfold jlen; lia). by rewrite (numeral_all_digits _ _ Hn).
Qed.

Lemma elem_of_filterEndpoints eps p ep :
  0 ≤ p → ep ∈ filterEndpoints eps p ↔ ep ∈ eps ∧ ∃ host, ep = host ++ colon :: jnum p.
Proof.
  intros Hp. unfold filterEndpoints. rewrite sort_perm, elem_of_remove_dups, list_elem_of_filter.
  rewrite port_suffix_spec by done. tauto.
Qed.

(** The endpoints of a port.  The filter returns exactly the endpoints that end
    with the port's canonical numeral after a colon, each once, in the order of
    code units; so the result is the same for endpoints given in another order or
    with repetitions, which is what the refresh compares. *)
Theorem filterEndpoints_canonical eps p :
  0 ≤ p →
  (∀ ep, ep ∈ filterEndpoints eps p ↔ ep ∈ eps ∧ ∃ host, ep = host ++ colon :: jnum p) ∧
  NoDup (filterEndpoints eps p) ∧ StronglySorted jR (filterEndpoints eps p) ∧
  (∀ eps', (∀ ep, ep ∈ eps ↔ ep ∈ eps') → filterEndpoints eps' p = filterEndpoints eps p).
Proof.
  intros Hp. split_and!.
  - intros ep. by apply elem_of_filterEndpoints.
  - unfold filterEndpoints. rewrite sort_perm. apply NoDup_remove_dups.
  - apply sort_sorted.
  - intros eps' He. unfold filterEndpoints. apply sort_canonical; [apply NoDup_remove_dups..|].
    intros x. rewrite !elem_of_remove_dups, !list_elem_of_filter. by rewrite He.
Qed.

Lemma filterEndpoints_canonical_witness :
  filterEndpoints [js "b:80"; js "a:080"; js "a:80"; js "b:80"; js "a:8080"] 80 = [js "a:80"; js "b:80"] ∧
  NoDup (filterEndpoints [js "b:80"; js "a:080"; js "a:80"; js "b:80"; js "a:8080"] 80).
Proof.
  split; [reflexivity|].
  exact (proj1 (proj2 (filterEndpoints_canonical [js "b:80"; js "a:080"; js "a:80"; js "b:80"; js "a:8080"] 80 ltac:(lia)))).
Defined.
