(* ===== verification/GrpcResolver.v ===== *)
(** * The gRPC name resolvers

    [common/js/grpc/resolver/src/grpc-js-resolver.ts]: the two resolvers that turn
    a [dominion] or [dominion-stateful] target into the endpoints of a gRPC
    channel, refreshing them on an interval and on request.

    The resolvers differ in what they resolve and in the text of one message:
    [DominionResolver] has the instance as an option.  [setImmediate] queues a
    callback, run in order; a refresh that awaits the resolver is counted in
    [inflight] until it completes.  The channel's listener is a list of what it was
    told. *)

From stdpp Require Import sorting.
From S2P Require Import Prelude JsText JsJson Resolver.

#[local] Open Scope Z_scope.

(** ** Targets and endpoints *)

Definition authorityFromPath (path : jstr) : jstr :=
  let lastSlash := lastIndexOf path slash_unit in
  if bool_decide (lastSlash ≠ -1) then slice_from path (lastSlash + 1) else path.

Record Endpoint : Type := mkEndpoint { host : jstr; ep_port : Z }.

#[global] Instance Endpoint_eq_dec : EqDecision Endpoint.
Proof. solve_decision. Defined.

Definition address_endpoint (addr : jstr) : Endpoint :=
  let lastColon := lastIndexOf addr colon in
  if lastColon =? -1 then mkEndpoint addr 0
  else mkEndpoint (slice_to addr lastColon) (default 0 (parseInt (slice_from addr (lastColon + 1)))).

Definition addressesToEndpoints (addresses : list jstr) : list Endpoint := map address_endpoint addresses.

(** [JSON.stringify] of the endpoints, each a list of one address. *)
Definition quoted (s : string) : jstr := [34] ++ js s ++ [34].
Definition endpoint_json (e : Endpoint) : jstr :=
  js "{" ++ quoted "addresses" ++ js ":[{" ++ quoted "host" ++ js ":" ++ stringify (host e)
  ++ js "," ++ quoted "port" ++ js ":" ++ jnum (ep_port e) ++ js "}]}".
Definition endpointsKey (eps : list Endpoint) : jstr :=
  js "[" ++ jjoin (js ",") (map endpoint_json eps) ++ js "]".

Section Instance_.
(** [new URLSearchParams(query)], as the pairs it holds. *)
Context (URLSearchParams : jstr → list (jstr * jstr)).

Definition missing_instance (path : jstr) : jstr :=
  js "missing required query parameter " ++ quoted "instance" ++ js " in path " ++ stringify path.

Definition parseInstanceFromPath (path : jstr) : jstr + (jstr * Z) :=
  match cut 63 path with
  | None => inl (missing_instance path)
  | Some (targetPart, queryPart) =>
      match find (λ p, bool_decide (p.1 = js "instance")) (URLSearchParams queryPart) with
      | None => inl (missing_instance path)
      | Some (_, instanceStr) =>
          match parseInt instanceStr with
          | None => inl (js "invalid instance parameter " ++ stringify instanceStr ++ js " in path " ++ stringify path)
          | Some instance => inr (targetPart, instance)
          end
      end
  end.
End Instance_.

(** ** Registration *)

Record Registry (Config : Type) : Type := mkRegistry {
  registered : bool;
  storedConfig : option Config;
  schemes : list string;
}.
Arguments mkRegistry {Config}.
Arguments registered {Config}.
Arguments storedConfig {Config}.
Arguments schemes {Config}.

Definition registerDominionResolver {Config} (r : Registry Config) (config : option Config) : Registry Config :=
  if registered r then r
  else mkRegistry true config (schemes r ++ ["dominion"; "dominion-stateful"]).

(** [None] is the empty configuration. *)
Definition effectiveConfig {Config} (r : Registry Config) (overrides : option Config) : option Config :=
  or_else overrides (storedConfig r).

(** ** A resolver *)

(** [lastUpdatedAt] is written and never read. *)
Inductive ResolverState : Type :=
| unresolved
| ready (addresses : list jstr) (eps : list Endpoint)
| closed.

Inductive StatusOr : Type :=
| StatusValue (eps : list Endpoint)
| StatusUnavailable (details : jstr).

(** A callback given to [setImmediate]. *)
Inductive Immediate : Type :=
| DoRefresh
| Emit (status : StatusOr).

Record DominionResolver : Type := mkResolver {
  targetStr : jstr;
  instanceNum : option Z;
  state : ResolverState;
  refreshHandle : bool;
  lastRefreshFailed : bool;
}.

Record Channel : Type := mkChannel {
  resolver : DominionResolver;
  immediates : list Immediate;
  inflight : nat;
  told : list StatusOr;
}.

Definition is_closed (s : ResolverState) : bool := match s with closed => true | _ => false end.

Definition set_state (r : DominionResolver) (s : ResolverState) (failed : bool) : DominionResolver :=
  mkResolver (targetStr r) (instanceNum r) s (refreshHandle r) failed.

(** The constructor, once the target has been parsed and checked. *)
Definition new_resolver (targetStr : jstr) (instanceNum : option Z) : Channel :=
  mkChannel (mkResolver targetStr instanceNum unresolved true false) [DoRefresh] 0 [].

Definition construct (target_path : jstr) (env : EnvMap) : Result Channel :=
  parsed ← parseTarget target_path;
  _ ← validateServiceApp parsed env;
  inr (new_resolver target_path None).

(** The errors of the instance parameter are plain ones. *)
Definition construct_stateful (URLSearchParams : jstr → list (jstr * jstr)) (target_path : jstr) (env : EnvMap)
    : jstr + Channel :=
  match parseInstanceFromPath URLSearchParams target_path with
  | inl message => inl message
  | inr (targetPart, instance) =>
      match parsed ← parseTarget targetPart; validateServiceApp parsed env with
      | inl e => inl (error_message e)
      | inr _ => inr (new_resolver targetPart (Some instance))
      end
  end.

Definition set_resolver (c : Channel) (r : DominionResolver) : Channel :=
  mkChannel r (immediates c) (inflight c) (told c).
Definition setImmediate (c : Channel) (i : Immediate) : Channel :=
  mkChannel (resolver c) (immediates c ++ [i]) (inflight c) (told c).

Definition updateResolution (c : Channel) : Channel :=
  if is_closed (state (resolver c)) then c else setImmediate c DoRefresh.

Definition destroy (c : Channel) : Channel :=
  if is_closed (state (resolver c)) then c
  else let r := resolver c in
       set_resolver c (mkResolver (targetStr r) (instanceNum r) closed false (lastRefreshFailed r)).

(** [_doRefresh] up to its [await]. *)
Definition doRefresh (c : Channel) : Channel :=
  if is_closed (state (resolver c)) then c
  else mkChannel (resolver c) (immediates c) (S (inflight c)) (told c).

(** The interval's callback. *)
Definition interval (c : Channel) : Channel :=
  if refreshHandle (resolver c) then doRefresh c else c.

Definition no_endpoints (r : DominionResolver) : jstr :=
  js "no endpoints resolved for " ++ targetStr r ++
  match instanceNum r with Some i => js "?instance=" ++ jnum i | None => [] end.

(** The rest of [_doRefresh]: the addresses, or the message of the error. *)
Definition refreshed (c : Channel) (result : jstr + list jstr) : Channel :=
  let r := resolver c in
  match result with
  | inr [] =>
      match state r with
      | ready _ _ => c
      | s => setImmediate (set_resolver c (set_state r s true)) (Emit (StatusUnavailable (no_endpoints r)))
      end
  | inr addresses =>
      let eps := addressesToEndpoints addresses in
      let update := setImmediate (set_resolver c (set_state r (ready addresses eps) false)) (Emit (StatusValue eps)) in
      match state r with
      | ready _ prev =>
          if negb (lastRefreshFailed r) && bool_decide (endpointsKey eps = endpointsKey prev) then c else update
      | _ => update
      end
  | inl message =>
      setImmediate (set_resolver c (set_state r (state r) true)) (Emit (StatusUnavailable message))
  end.

Definition emit (c : Channel) (status : StatusOr) : Channel :=
  if is_closed (state (resolver c)) then c
  else mkChannel (resolver c) (immediates c) (inflight c) (told c ++ [status]).

Definition run_immediate (c : Channel) : Channel :=
  match immediates c with
  | [] => c
  | i :: rest =>
      let c := mkChannel (resolver c) rest (inflight c) (told c) in
      match i with DoRefresh => doRefresh c | Emit status => emit c status end
  end.

(** ** Runs *)

Inductive channel_op : Type :=
| UpdateResolution
| Destroy
| Interval
| RunImmediate
| Refreshed (result : jstr + list jstr).

Definition channel_step (c : Channel) (op : channel_op) : Channel :=
  match op with
  | UpdateResolution => updateResolution c
  | Destroy => destroy c
  | Interval => interval c
  | RunImmediate => run_immediate c
  | Refreshed result =>
      match inflight c with
      | O => c
      | S n => refreshed (mkChannel (resolver c) (immediates c) n (told c)) result
      end
  end.

Definition channel_run (c : Channel) (ops : list channel_op) : Channel := fold_left channel_step ops c.

(** ** The gRPC name resolvers: properties

    The key two endpoint lists are compared by is injective; the channel is never
    told an empty endpoint list and always learns the last outcome; what a
    destroyed resolver does. *)

(** ** The key of an endpoint list *)

Definition endpoint_units (e : Endpoint) : Prop := Forall code_unit (host e).

Lemma endpoint_json_inj e e' x y :
  endpoint_units e → endpoint_units e' → endpoint_json e ++ x = endpoint_json e' ++ y → e = e' ∧ x = y.
Proof.
  intros He He'. unfold endpoint_json. rewrite <- !app_assoc. intros E.
  do 5 apply app_inv_head in E. apply stringify_inj in E as [Eh E]; [|done..].
  do 3 apply app_inv_head in E. change (js "}]}") with [125; 93; 125] in E. simpl in E.
  assert (∀ n, 125 ∉ jnum n) as Hb by (intros n [?|?]%jnum_chars; done).
  apply app_terminated in E as [Ep E]; [|done..]. apply jnum_inj in Ep. injection E as ->.
  split; [|done]. destruct e, e'; simpl in *; congruence.
Qed.

Lemma endpoint_json_head e : ∃ s, endpoint_json e = 123 :: s.
Proof. by eexists. Qed.

Lemma jjoin_cons sep s l : l ≠ [] → jjoin sep (s :: l) = s ++ sep ++ jjoin sep l.
Proof. by destruct l. Qed.

Lemma endpoints_json_inj es es' :
  Forall endpoint_units es → Forall endpoint_units es' →
  jjoin [44] (map endpoint_json es) ++ [93] = jjoin [44] (map endpoint_json es') ++ [93] → es = es'.
Proof.
  intros Hes. revert es'. induction Hes as [|e es He Hes IH]; intros es' Hes'; destruct Hes' as [|e' es' He' Hes'].
  - done.
  - intros E. exfalso. simpl in E. destruct (endpoint_json_head e') as [s Es]. rewrite Es in E.
    destruct (map endpoint_json es'); simplify_eq/=.
  - intros E. exfalso. simpl in E. destruct (endpoint_json_head e) as [s Es]. rewrite Es in E.
    destruct (map endpoint_json es); simplify_eq/=.
  - destruct (decide (es = [])) as [->|Hne], (decide (es' = [])) as [->|Hne'].
    + intros E. simpl in E. by apply endpoint_json_inj in E as [-> _].
    + change (map endpoint_json (e' :: es')) with (endpoint_json e' :: map endpoint_json es').
      rewrite jjoin_cons by (by destruct es'). intros E. cbn [map jjoin] in E. rewrite <- app_assoc in E. by apply endpoint_json_inj in E as [_ E].
    + change (map endpoint_json (e :: es)) with (endpoint_json e :: map endpoint_json es).
      rewrite jjoin_cons by (by destruct es). intros E. cbn [map jjoin] in E. rewrite <- app_assoc in E. by apply endpoint_json_inj in E as [_ E].
    + rewrite !map_cons, !jjoin_cons by (by destruct es, es'). intros E. rewrite <- !app_assoc in E.
      apply endpoint_json_inj in E as [-> E]; [|done..]. simpl in E. injection E as E. f_equal. by apply IH.
Qed.

(** The comparison of the keys is the comparison of the lists. *)
Lemma endpointsKey_inj es es' :
  Forall endpoint_units es → Forall endpoint_units es' → endpointsKey es = endpointsKey es' → es = es'.
Proof.
  intros H1 H2. unfold endpointsKey. intros E%app_inv_head. by apply endpoints_json_inj.
Qed.

Lemma addresses_units addresses :
  Forall (Forall code_unit) addresses → Forall endpoint_units (addressesToEndpoints addresses).
Proof.
  intros Ha. apply Forall_fmap. eapply Forall_impl; [exact Ha|]. intros a Hu. unfold compose, address_endpoint.
  destruct (_ =? _); [done|]. unfold endpoint_units. simpl. by apply Forall_take.
Qed.

(** ** What the channel is told *)

Definition queued_status (i : Immediate) : option StatusOr := match i with Emit s => Some s | DoRefresh => None end.

(** What it has been told, and what is queued to tell it. *)
Definition announced (c : Channel) : list StatusOr := told c ++ omap queued_status (immediates c).

Definition status_ok (s : StatusOr) : Prop :=
  match s with StatusValue eps => eps ≠ [] | StatusUnavailable _ => True end.

(** The results a run's refreshes have: texts of code units. *)
Definition op_ok (op : channel_op) : Prop :=
  match op with Refreshed (inr addresses) => Forall (Forall code_unit) addresses | _ => True end.

Record channel_inv (c : Channel) : Prop := {
  ci_ok : Forall status_ok (announced c);
  ci_ready : ∀ addresses eps, state (resolver c) = ready addresses eps →
    addresses ≠ [] ∧ eps = addressesToEndpoints addresses ∧ Forall endpoint_units eps;
}.

(** The listener knows the outcome of the last refresh. *)
Definition up_to_date (c : Channel) : Prop :=
  match state (resolver c), lastRefreshFailed (resolver c) with
  | closed, _ => True
  | unresolved, false => announced c = []
  | ready _ eps, false => last (announced c) = Some (StatusValue eps)
  | _, true => ∃ details, last (announced c) = Some (StatusUnavailable details)
  end.

Lemma announced_setImmediate c s : announced (setImmediate c (Emit s)) = announced c ++ [s].
Proof. unfold announced, setImmediate. simpl. by rewrite omap_app, app_assoc. Qed.

Lemma announced_refresh c : announced (setImmediate c DoRefresh) = announced c.
Proof. unfold announced, setImmediate. simpl. by rewrite omap_app, app_nil_r. Qed.

Lemma announced_resolver c r : announced (set_resolver c r) = announced c.
Proof. done. Qed.

(** The refresh's cases: nothing, an error, or new endpoints. *)
Lemma refreshed_cases c result :
  (refreshed c result = c ∧
     ((∃ a e, result = inr [] ∧ state (resolver c) = ready a e) ∨
      ∃ addresses a prev, result = inr addresses ∧ addresses ≠ [] ∧ state (resolver c) = ready a prev ∧
        lastRefreshFailed (resolver c) = false ∧
        endpointsKey (addressesToEndpoints addresses) = endpointsKey prev)) ∨
  (∃ details, refreshed c result =
     setImmediate (set_resolver c (set_state (resolver c) (state (resolver c)) true)) (Emit (StatusUnavailable details)) ∧
     ((∃ m, result = inl m) ∨ result = inr [])) ∨
  (∃ addresses, result = inr addresses ∧ addresses ≠ [] ∧
     (∀ a prev, state (resolver c) = ready a prev → lastRefreshFailed (resolver c) = false →
        endpointsKey (addressesToEndpoints addresses) ≠ endpointsKey prev) ∧
     refreshed c result =
     setImmediate (set_resolver c (set_state (resolver c) (ready addresses (addressesToEndpoints addresses)) false))
       (Emit (StatusValue (addressesToEndpoints addresses)))).
Proof.
  destruct result as [message|[|a l]]; simpl.
  - right; left. by eauto.
  - destruct (state (resolver c)) eqn:E; [right; left; by eauto|left; split; [done|left; by eexists _, _]|].
    right; left. by eauto.
  - destruct (state (resolver c)) eqn:E; [right; right; by eexists| |right; right; by eexists].
    destruct (lastRefreshFailed _) eqn:Ef; simpl; [right; right; by eexists|].
    case_bool_decide.
    + left. split; [done|]. right. eexists _, _, _. by split_and!.
    + right; right. eexists. split_and!; [done..| |done]. by intros ? ? [= <- <-].
Qed.

Lemma emits_ok c s : Forall status_ok (announced c) → status_ok s → Forall status_ok (announced (setImmediate c (Emit s))).
Proof. intros ? ?. rewrite announced_setImmediate. apply Forall_app. by split; [|constructor]. Qed.

Lemma addresses_nonempty addresses : addresses ≠ [] → addressesToEndpoints addresses ≠ [].
Proof. by destruct addresses. Qed.

Lemma refreshed_inv c result : op_ok (Refreshed result) → channel_inv c → channel_inv (refreshed c result).
Proof.
  intros Hok [I1 I2]. destruct (refreshed_cases c result) as [[-> _]|[(d & -> & _)|(l & -> & Hne & _ & ->)]]; [done|..].
  - split; [by apply emits_ok|]. exact I2.
  - split; [apply emits_ok; [done|by apply addresses_nonempty]|]. simpl. intros a e [= <- <-].
    split_and!; [done..|by apply addresses_units].
Qed.

Lemma announced_run_immediate c :
  is_closed (state (resolver c)) = false → announced (run_immediate c) = announced c.
Proof.
  intros Hc. unfold run_immediate, announced. destruct (immediates c) as [|[|s] l] eqn:Ei; [by rewrite Ei|..]; simpl.
  - unfold doRefresh. simpl. by rewrite Hc.
  - unfold emit. simpl. rewrite Hc. simpl. by rewrite <- app_assoc.
Qed.

Lemma run_immediate_state c : state (resolver (run_immediate c)) = state (resolver c)
  ∧ lastRefreshFailed (resolver (run_immediate c)) = lastRefreshFailed (resolver c).
Proof.
  unfold run_immediate. destruct (immediates c) as [|[|s] l]; [done|..].
  - unfold doRefresh. by destruct (is_closed _).
  - unfold emit. by destruct (is_closed _).
Qed.

Lemma run_immediate_ok c : Forall status_ok (announced c) → Forall status_ok (announced (run_immediate c)).
Proof.
  destruct (is_closed (state (resolver c))) eqn:E; [|by rewrite announced_run_immediate].
  unfold run_immediate, announced. destruct (immediates c) as [|[|s] l] eqn:Ei; [by rewrite Ei|..]; simpl.
  - unfold doRefresh. simpl. by rewrite E.
  - unfold emit. simpl. rewrite E. simpl. rewrite !Forall_app, Forall_cons. tauto.
Qed.

Lemma channel_step_inv c op : op_ok op → channel_inv c → channel_inv (channel_step c op).
Proof.
  intros Hok I. destruct op as [| | | |result]; simpl.
  - unfold updateResolution. destruct (is_closed _); [done|]. destruct I as [I1 I2].
    split; [by rewrite announced_refresh|exact I2].
  - unfold destroy. destruct (is_closed _); [done|]. destruct I as [I1 I2]. by split.
  - unfold interval, doRefresh. destruct (refreshHandle _); [|done]. destruct (is_closed _); [done|].
    destruct I as [I1 I2]. by split.
  - destruct I as [I1 I2]. split; [by apply run_immediate_ok|].
    by rewrite (proj1 (run_immediate_state c)).
  - destruct (inflight c); [done|]. apply refreshed_inv; [done|]. destruct I as [I1 I2]. by split.
Qed.

Lemma refreshed_up_to_date c result :
  is_closed (state (resolver c)) = false → up_to_date c → up_to_date (refreshed c result).
Proof.
  intros Hc Hu. destruct (refreshed_cases c result) as [[-> _]|[(d & -> & _)|(l & _ & _ & _ & ->)]]; [done|..];
    unfold up_to_date; rewrite announced_setImmediate, last_snoc; simpl.
  - destruct (state (resolver c)); by try eexists.
  - done.
Qed.

Definition not_destroy (op : channel_op) : Prop := op ≠ Destroy.

Lemma channel_step_up_to_date c op :
  is_closed (state (resolver c)) = false → not_destroy op → up_to_date c →
  is_closed (state (resolver (channel_step c op))) = false ∧ up_to_date (channel_step c op).
Proof.
  intros Hc Hop Hu. destruct op as [| | | |result]; simpl; [|done|..].
  - unfold updateResolution. rewrite Hc. split; [done|]. unfold up_to_date. by rewrite announced_refresh.
  - unfold interval, doRefresh. rewrite Hc. by destruct (refreshHandle _).
  - destruct (run_immediate_state c) as [E1 E2]. unfold up_to_date. rewrite E1, E2, announced_run_immediate by done. done.
  - destruct (inflight c) as [|n]; [done|]. set (c' := mkChannel _ _ n _).
    split; [|by apply refreshed_up_to_date].
    by destruct (refreshed_cases c' result) as [[-> _]|[(d & -> & _)|(l & _ & _ & _ & ->)]].
Qed.

(** C13: The channel learns every outcome and never an empty list.  Whatever is
    asked of a resolver that is not destroyed, and however its refreshes complete
    and interleave: no status told or queued carries an empty endpoint list; as
    long as the last refresh to complete did not fail, the last status is the
    endpoints the resolver holds, and otherwise it is an UNAVAILABLE one. *)
Theorem channel_up_to_date target instance ops :
  Forall op_ok ops → Forall not_destroy ops →
  let c := channel_run (new_resolver target instance) ops in
  Forall status_ok (announced c) ∧ up_to_date c ∧
  (∀ addresses eps, state (resolver c) = ready addresses eps → eps = addressesToEndpoints addresses ∧ eps ≠ []).
Proof.
  intros Hok Hnd c.
  assert (channel_inv c ∧ is_closed (state (resolver c)) = false ∧ up_to_date c) as ([I1 I2] & _ & Hu).
  { unfold c, channel_run. clear c.
    assert (channel_inv (new_resolver target instance)) as I by by split.
    assert (is_closed (state (resolver (new_resolver target instance))) = false) as Hc by done.
    assert (up_to_date (new_resolver target instance)) as Hu by done.
    revert I Hc Hu. generalize (new_resolver target instance).
    induction ops as [|op ops IH]; intros c I Hc Hu; simpl; [done|].
    apply Forall_cons in Hok as [? ?], Hnd as [? ?].
    destruct (channel_step_up_to_date c op) as [? ?]; [done..|].
    apply IH; [done..|by apply channel_step_inv|done|done]. }
  split_and!; [done..|]. intros a e E. destruct (I2 _ _ E) as (Hne & -> & _).
  split; [done|by apply addresses_nonempty].
Qed.

(** A refresh installs what it resolved.  A refresh that completes with
    addresses leaves a resolver that is not closed ready with exactly their
    endpoints, and tells the channel only when they changed or the refresh before
    had failed. *)
Theorem refresh_installs target instance ops addresses :
  Forall op_ok ops → Forall not_destroy ops → addresses ≠ [] → Forall (Forall code_unit) addresses →
  let c := channel_run (new_resolver target instance) ops in
  let c' := refreshed c (inr addresses) in
  (∃ held, state (resolver c') = ready held (addressesToEndpoints addresses)) ∧
  lastRefreshFailed (resolver c') = false ∧
  (announced c' = announced c ↔ ∃ held, state (resolver c) = ready held (addressesToEndpoints addresses) ∧
                                        lastRefreshFailed (resolver c) = false).
Proof.
  intros Hok Hnd Hne Hu c c'.
  assert (channel_inv c) as [_ I2].
  { unfold c, channel_run. clear c c'.
    assert (channel_inv (new_resolver target instance)) as I by by split.
    revert I. generalize (new_resolver target instance).
    induction ops as [|op ops IH]; intros c I; simpl; [done|].
    apply Forall_cons in Hok as [? ?], Hnd as [? ?]. apply IH; [done..|by apply channel_step_inv]. }
  pose proof (addresses_units _ Hu) as Hunits. unfold c'.
  destruct (refreshed_cases c (inr addresses))
    as [[-> [(?&?&?&?)|(l&a&prev&[= <-]&_&Es&Ef&Ek)]]|[(d&_&[[? ?]|?])|(l&[= <-]&_&Hk&->)]].
  - by simplify_eq.
  - destruct (I2 _ _ Es) as (_ & _ & Hp). apply endpointsKey_inj in Ek; [|done..]. subst prev.
    split_and!; [by eexists|done|]. split; [by eexists|done].
  - done.
  - by simplify_eq.
  - split_and!; [by eexists|done|]. rewrite announced_setImmediate, announced_resolver. split.
    + intros E. apply (f_equal length) in E. rewrite length_app in E. simpl in E. lia.
    + intros (held & Es & Ef). by destruct (Hk _ _ Es Ef).
Qed.

(** *** Destruction *)

(** A closed resolver with nothing under way stays closed and silent. *)
Lemma closed_silent c op :
  is_closed (state (resolver c)) = true → inflight c = O → refreshHandle (resolver c) = false →
  let c' := channel_step c op in
  is_closed (state (resolver c')) = true ∧ inflight c' = O ∧ refreshHandle (resolver c') = false ∧ told c' = told c.
Proof.
  intros Hc Hi Hh. destruct op as [| | | |result]; simpl.
  - unfold updateResolution. by rewrite Hc.
  - unfold destroy. by rewrite Hc.
  - unfold interval. by rewrite Hh.
  - unfold run_immediate. destruct (immediates c) as [|[|s] l]; [done|..].
    + unfold doRefresh. simpl. by rewrite Hc.
    + unfold emit. simpl. by rewrite Hc.
  - by rewrite Hi.
Qed.

(** A destroyed resolver is silent.  When no refresh awaits its resolution at the
    time of [destroy], the channel is told nothing more, whatever is queued or
    asked afterwards. *)
Theorem destroyed_is_silent c ops :
  inflight c = O → (is_closed (state (resolver c)) = true → refreshHandle (resolver c) = false) →
  told (channel_run (destroy c) ops) = told c ∧ is_closed (state (resolver (channel_run (destroy c) ops))) = true.
Proof.
  intros Hi Hh. unfold destroy.
  set (c0 := if is_closed (state (resolver c)) then c else _).
  assert (is_closed (state (resolver c0)) = true ∧ inflight c0 = O ∧ refreshHandle (resolver c0) = false
          ∧ told c0 = told c) as (H1 & H2 & H3 & H4).
  { unfold c0. destruct (is_closed (state (resolver c))) eqn:E; [by split_and!; auto|done]. }
  rewrite <- H4. clearbody c0. clear -H1 H2 H3. unfold channel_run. revert c0 H1 H2 H3.
  induction ops as [|op ops IH]; intros c0 H1 H2 H3; simpl; [done|].
  destruct (closed_silent c0 op H1 H2 H3) as (? & ? & ? & <-). by apply IH.
Qed.

Definition demo_channel : Channel := new_resolver (js "game/agent:80") None.

Lemma channel_up_to_date_witness :
  up_to_date (channel_run demo_channel
    [RunImmediate; Refreshed (inr [js "a:80"]); RunImmediate; Interval; Refreshed (inl (js "down"))]).
Proof.
  refine (proj1 (proj2 (channel_up_to_date (js "game/agent:80") None
    [RunImmediate; Refreshed (inr [js "a:80"]); RunImmediate; Interval; Refreshed (inl (js "down"))] _ _))).
  - repeat constructor; try done; by apply (bool_decide_unpack _).
  - repeat constructor; done.
Defined.

Lemma refresh_installs_witness :
  lastRefreshFailed (resolver (refreshed (channel_run demo_channel
    [RunImmediate; Refreshed (inl (js "down")); Interval]) (inr [js "a:80"]))) = false.
Proof.
  refine (proj1 (proj2 (refresh_installs (js "game/agent:80") None
    [RunImmediate; Refreshed (inl (js "down")); Interval] [js "a:80"] _ _ _ _))); try done.
  - repeat constructor; done.
  - repeat constructor; done.
  - repeat constructor; done.
Defined.

Lemma destroyed_is_silent_witness :
  told (channel_run (destroy (channel_run demo_channel [RunImmediate; Refreshed (inr [js "a:80"])]))
          [RunImmediate; UpdateResolution; Interval]) = [].
Proof.
  exact (proj1 (destroyed_is_silent (channel_run demo_channel [RunImmediate; Refreshed (inr [js "a:80"])])
    [RunImmediate; UpdateResolution; Interval] eq_refl ltac:(intros E; discriminate E))).
Defined.

(** A resolver destroyed while a refresh awaits comes back: the completed refresh
    makes it ready again and the channel is told its endpoints. *)
Lemma destroyed_resolver_revives :
  let c := channel_run demo_channel [RunImmediate; Destroy; Refreshed (inr [js "a:80"]); RunImmediate] in
  told c = [StatusValue [mkEndpoint (js "a") 80]] ∧ is_closed (state (resolver c)) = false.
Proof. by split. Qed.
