(* ===== verification/Presets.v ===== *)
(** * Preset authoring

    [common/js/dsh-plugins/preset-authoring/src/]: the derivation of a registry
    definition from a stored record ([derive.ts]), the store's interface and its
    in-memory and Mongo implementations ([store.ts], [store.mongo.ts]), and the
    service that keeps the agent-preset registry in step with the store
    ([index.ts]).

    The store is an interface ([PresetStore]); the registry and the Mongo
    collection are third-party and interfaces too.  A call may throw, which is a
    [Thrown] result; the calls of a service operation run in sequence. *)

From stdpp Require Import strings gmap.
From S2P Require Import Prelude.

#[local] Open Scope Z_scope.

(** ** Results and effects *)

Inductive PresetStoreErrorCode : Type := STORE_ALREADY_EXISTS | STORE_NOT_FOUND.

(** What a collaborator throws: a [PresetStoreError], or anything else. *)
Inductive Thrown : Type :=
| PresetStoreError (code : PresetStoreErrorCode) (message : string)
| OtherThrown (message : string).

Definition thrown_message (e : Thrown) : string :=
  match e with PresetStoreError _ m => m | OtherThrown m => m end.

(** A call on a world [W] that may throw an [E]. *)
Definition Call (W E A : Type) : Type := W → (E + A) * W.

#[global] Instance call_ret {W E} : MRet (Call W E) := λ A a w, (inr a, w).
#[global] Instance call_bind {W E} : MBind (Call W E) := λ A B f m w,
  match m w with (inl e, w') => (inl e, w') | (inr a, w') => f a w' end.
Definition raise {W E A} (e : E) : Call W E A := λ w, (inl e, w).
(** [try { m } catch (e) { h(e) }]. *)
Definition catch {W E E' A} (m : Call W E A) (h : E → Call W E' A) : Call W E' A := λ w,
  match m w with (inl e, w') => h e w' | (inr a, w') => (inr a, w') end.

(** ** derive.ts *)

Inductive PresetAuthoringErrorCode : Type :=
| INVALID_ARGUMENT | ALREADY_EXISTS | NOT_FOUND | FAILED_PRECONDITION | INTERNAL.

#[global] Instance PresetAuthoringErrorCode_eq_dec : EqDecision PresetAuthoringErrorCode.
Proof. solve_decision. Defined.

Record PresetAuthoringError : Type := mkError { pe_code : PresetAuthoringErrorCode; pe_message : string }.

#[global] Instance PresetAuthoringError_eq_dec : EqDecision PresetAuthoringError.
Proof. solve_decision. Defined.

#[local] Notation q := (String (Ascii.ascii_of_nat 34) "").

Definition PERSONA_ROW_NAME : string := "@deepseek-ai/dsh-persona".

(** ** store.ts *)

Record PresetRecord : Type := mkRecord {
  pr_id : string;
  pr_template : string;
  pr_role : option string;
  pr_persona : string;
  pr_displayName : option string;
  pr_createTime : Z;
  pr_updateTime : Z;
}.

#[global] Instance PresetRecord_eq_dec : EqDecision PresetRecord.
Proof. solve_decision. Defined.

Section Values.
(** The values of a row's configuration, with the strings among them. *)
Context {V : Type} (string_value : string → V).

Inductive RowConfig : Type :=
| ObjectConfig (fields : gmap string V)
| PlainConfig (value : option V).

Record CompositionRow : Type := mkRow { row_name : string; row_config : RowConfig }.

Record TemplateDeclaration : Type := mkTemplate {
  td_name : option string;
  td_description : option string;
  td_plugins : list CompositionRow;
}.

Record PresetDefinition : Type := mkDefinition {
  pd_id : string;
  pd_plugins : list CompositionRow;
  pd_name : option string;
  pd_description : option string;
}.

(** The positions of the persona rows. *)
Fixpoint persona_indexes (i : nat) (rows : list CompositionRow) : list nat :=
  match rows with
  | [] => []
  | r :: rows =>
      let rest := persona_indexes (S i) rows in
      if bool_decide (row_name r = PERSONA_ROW_NAME) then i :: rest else rest
  end.

Definition locatePersonaRow (rows : list CompositionRow) (templateId : string) : PresetAuthoringError + nat :=
  match persona_indexes 0 rows with
  | [i] => inr i
  | indexes =>
      inl (mkError INVALID_ARGUMENT ("template " +:+ q +:+ templateId +:+ q +:+
        " convention violated: expected exactly one " +:+ PERSONA_ROW_NAME +:+ " row, found " +:+
        num_str (Z.of_nat (length indexes))))
  end.

Definition set_prefix (persona : string) (r : CompositionRow) : CompositionRow :=
  mkRow (row_name r)
    (ObjectConfig (<["prefix" := string_value persona]>
       match row_config r with ObjectConfig fields => fields | PlainConfig _ => ∅ end)).

(** The copies of the rows ([cloneRow]) are values here. *)
Definition deriveRows (rows : list CompositionRow) (persona templateId : string)
    : PresetAuthoringError + list CompositionRow :=
  if bool_decide (persona = "") then inr rows
  else match locatePersonaRow rows templateId with
  | inl e => inl e
  | inr i => inr (alter (set_prefix persona) i rows)
  end.

Definition deriveComposition (record : PresetRecord) (template : TemplateDeclaration)
    : PresetAuthoringError + PresetDefinition :=
  match deriveRows (td_plugins template) (pr_persona record) (pr_template record) with
  | inl e => inl e
  | inr plugins => inr (mkDefinition (pr_id record) plugins (pr_displayName record) (td_description template))
  end.

(** ** The collaborators *)

Class PresetStore (W : Type) : Type := {
  store_create : PresetRecord → Call W Thrown unit;
  store_get : string → Call W Thrown PresetRecord;
  store_list : Call W Thrown (list PresetRecord);
  store_update : PresetRecord → Call W Thrown unit;
  store_remove : string → Call W Thrown unit;
}.

(** The registry: a registration is known by its number, [resolve] reports the
    activation diagnostic. *)
Class AgentPresetsSeam (W : Type) : Type := {
  register : PresetDefinition → Call W Thrown nat;
  unregister : nat → Call W Thrown unit;
  resolve : string → Call W Thrown (option string);
}.

(** ** index.ts *)

Section Service.
Context {W : Type} `{PresetStore W} `{AgentPresetsSeam W} (templates : gmap string TemplateDeclaration).

(** The engine: the live registrations by record, the warnings it logged. *)
Record Engine : Type := mkEngine {
  disposers : gmap string nat;
  warnings : list string;
  world : W;
}.

Definition Op (A : Type) : Type := Call Engine PresetAuthoringError A.

(** A collaborator's call, with the mapping of what it throws. *)
Definition lift {A} (m : Call W Thrown A) (map_error : Thrown → PresetAuthoringError) : Op A := λ g,
  match m (world g) with
  | (inl e, w) => (inl (map_error e), mkEngine (disposers g) (warnings g) w)
  | (inr a, w) => (inr a, mkEngine (disposers g) (warnings g) w)
  end.

(** The same, swallowing what it throws. *)
Definition lift_quiet (m : Call W Thrown unit) : Op unit := λ g,
  (inr (), mkEngine (disposers g) (warnings g) (m (world g)).2).

Definition mapStoreError (e : Thrown) : PresetAuthoringError :=
  match e with
  | PresetStoreError STORE_ALREADY_EXISTS m => mkError ALREADY_EXISTS m
  | PresetStoreError STORE_NOT_FOUND m => mkError NOT_FOUND m
  | OtherThrown m => mkError INTERNAL ("preset store operation failed: " +:+ m)
  end.

Definition mapRegistryError (e : Thrown) : PresetAuthoringError :=
  mkError INTERNAL ("agent preset registry operation failed: " +:+ thrown_message e).

Definition storeGet (id : string) : Op PresetRecord := lift (store_get id) mapStoreError.

Definition set_disposer (id : string) (d : nat) : Op unit := λ g,
  (inr (), mkEngine (<[id := d]> (disposers g)) (warnings g) (world g)).
Definition delete_disposer (id : string) : Op unit := λ g,
  (inr (), mkEngine (delete id (disposers g)) (warnings g) (world g)).
Definition get_disposer (id : string) : Op (option nat) := λ g, (inr (disposers g !! id), g).
Definition warn (message : string) : Op unit := λ g,
  (inr (), mkEngine (disposers g) (warnings g ++ [message]) (world g)).

(** [templates[id]] also finds the properties every object inherits, which are no
    declarations. *)
Inductive TemplateValue : Type :=
| Declared (template : TemplateDeclaration)
| Inherited.

Definition OBJECT_PROPERTIES : list string :=
  ["constructor"; "toString"; "toLocaleString"; "valueOf"; "hasOwnProperty"; "isPrototypeOf";
   "propertyIsEnumerable"; "__proto__"; "__defineGetter__"; "__defineSetter__"; "__lookupGetter__";
   "__lookupSetter__"].

Definition template_value (id : string) : option TemplateValue :=
  match templates !! id with
  | Some t => Some (Declared t)
  | None => if bool_decide (id ∈ OBJECT_PROPERTIES) then Some Inherited else None
  end.

Definition templateFor (templateId : string) : Op TemplateValue :=
  match template_value templateId with
  | Some t => mret t
  | None =>
      raise (mkError INVALID_ARGUMENT ("unknown template " +:+ q +:+ templateId +:+ q +:+ "; available: "
        +:+ join ", " (map_to_list templates).*1))
  end.

(** Deriving over an inherited property reads the rows of something that has none. *)
Definition derive (record : PresetRecord) (template : TemplateValue) : PresetAuthoringError + PresetDefinition :=
  match template with
  | Declared t => deriveComposition record t
  | Inherited => inl (mapRegistryError (OtherThrown "Cannot read properties of undefined (reading 'map')"))
  end.

(** The activation diagnostic of the registered record. *)
Definition registerRecord (record : PresetRecord) (template : TemplateValue) : Op (option string) :=
  disposer ← match derive record template with
             | inl e => raise e
             | inr definition => lift (register definition) mapRegistryError
             end;
  _ ← set_disposer (pr_id record) disposer;
  catch (lift (resolve (pr_id record)) mapRegistryError) (λ e,
    _ ← delete_disposer (pr_id record);
    _ ← lift_quiet (unregister disposer);
    raise e).

(** [setup] binds the agent by the id; the binding is the registry's. *)
Definition compose (presetId : option string) : Op string :=
  match presetId with
  | None => raise (mkError INVALID_ARGUMENT "preset id is required: this deployment configures no default preset")
  | Some id =>
      record ← storeGet id;
      _ ← templateFor (pr_template record);
      mret (pr_id record)
  end.

Record CreatePresetInput : Type := mkCreate {
  ci_id : string;
  ci_template : string;
  ci_role : option string;
  ci_persona : string;
  ci_displayName : option string;
}.

Definition lower_or_digit (c : Ascii.ascii) : bool :=
  let n := Ascii.nat_of_ascii c in
  (bool_decide (97 ≤ n ∧ n ≤ 122) || bool_decide (48 ≤ n ∧ n ≤ 57))%nat.

(** [/^[a-z0-9][a-z0-9-]*$/]. *)
Definition PRESET_ID (id : string) : bool :=
  match id with
  | EmptyString => false
  | String c rest =>
      lower_or_digit c &&
      forallb (λ c, lower_or_digit c || bool_decide (Ascii.nat_of_ascii c = 45%nat)) (String.list_ascii_of_string rest)
  end.

(** The id's collision check; a store miss is the pass case. *)
Definition check_unclaimed (id : string) : Op unit :=
  claimed ← (catch (_ ← storeGet id; mret true)
              (λ e, if bool_decide (pe_code e = NOT_FOUND) then mret false else raise e) : Op bool);
  match claimed with
  | true => raise (mkError ALREADY_EXISTS ("preset " +:+ id +:+ " already exists"))
  | false => mret ()
  end.

Definition activation_failed {A} (id broken : string) : Op A :=
  raise (mkError INVALID_ARGUMENT ("preset " +:+ q +:+ id +:+ q +:+ " activation failed: " +:+ broken)).

(** The view has the record's fields. *)
Definition create (now : Z) (input : CreatePresetInput) : Op PresetRecord :=
  _ ← check_unclaimed (ci_id input);
  if negb (PRESET_ID (ci_id input)) then
    raise (mkError INVALID_ARGUMENT ("preset id " +:+ q +:+ ci_id input +:+ q +:+ " must match ^[a-z0-9][a-z0-9-]*$"))
  else
  template ← templateFor (ci_template input);
  if bool_decide (is_Some (templates !! ci_id input)) then
    raise (mkError ALREADY_EXISTS ("preset " +:+ q +:+ ci_id input +:+ q +:+ " is already supplied by the deployment"))
  else
  let record := mkRecord (ci_id input) (ci_template input) (ci_role input) (ci_persona input)
                  (ci_displayName input) now now in
  _ ← lift (store_create record) mapStoreError;
  broken ← catch (registerRecord record template) (λ e,
    _ ← lift_quiet (store_remove (ci_id input));
    raise e);
  match broken with
  | Some reason => activation_failed (ci_id input) reason
  | None => storeGet (ci_id input)
  end.

Definition get (id : string) : Op PresetRecord := storeGet id.

(** What the store throws is not mapped; the caller sees it as it is. *)
Definition list_presets (role : option string) : Call Engine Thrown (list PresetRecord) := λ g,
  match store_list (world g) with
  | (inl e, w) => (inl e, mkEngine (disposers g) (warnings g) w)
  | (inr records, w) =>
      (inr (filter (λ r, bool_decide (role = None) || bool_decide (pr_role r = role)) records),
       mkEngine (disposers g) (warnings g) w)
  end.

(** Release the former registration, if there is one. *)
Definition release (id : string) : Op unit :=
  previous ← get_disposer id;
  match previous with
  | None => mret ()
  | Some d => _ ← delete_disposer id; lift (unregister d) mapRegistryError
  end.

Definition patched (now : Z) (record : PresetRecord) (persona displayName : option string) : PresetRecord :=
  mkRecord (pr_id record) (pr_template record) (pr_role record) (default (pr_persona record) persona)
    (match displayName with Some d => Some d | None => pr_displayName record end) (pr_createTime record) now.

Definition update (now : Z) (id : string) (persona displayName : option string) : Op PresetRecord :=
  record ← storeGet id;
  if bool_decide (persona = None) && bool_decide (displayName = None) then mret record
  else
  template ← templateFor (pr_template record);
  let updated := patched now record persona displayName in
  _ ← lift (store_update updated) mapStoreError;
  _ ← release id;
  broken ← registerRecord updated template;
  match broken with
  | Some reason => activation_failed id reason
  | None => mret updated
  end.

Definition remove (id : string) : Op unit :=
  _ ← lift (store_remove id) mapStoreError;
  release id.

(** A record that cannot be registered is logged and left out. *)
Definition restore_record (record : PresetRecord) : Op unit :=
  match template_value (pr_template record) with
  | None =>
      warn ("preset-authoring: stored preset " +:+ q +:+ pr_id record +:+ q +:+
        " references undeclared template " +:+ q +:+ pr_template record +:+ q +:+ "; leaving it out of the roster")
  | Some template =>
      catch (_ ← registerRecord record template; mret ()) (λ e,
        warn ("preset-authoring: stored preset " +:+ q +:+ pr_id record +:+ q +:+ " failed to register: "
          +:+ pe_message e))
  end.

Fixpoint restore_records (records : list PresetRecord) : Op unit :=
  match records with
  | [] => mret ()
  | r :: records => _ ← restore_record r; restore_records records
  end.

Definition restore : Op unit :=
  records ← lift store_list mapStoreError;
  restore_records records.

Fixpoint dispose_all (ds : list nat) : Op unit :=
  match ds with
  | [] => mret ()
  | d :: ds =>
      _ ← catch (lift (unregister d) (λ e, mkError INTERNAL (thrown_message e)))
            (λ e, warn ("preset-authoring: unregister failed: " +:+ pe_message e));
      dispose_all ds
  end.

Definition dispose : Op unit := λ g,
  dispose_all (map_to_list (disposers g)).*2 (mkEngine ∅ (warnings g) (world g)).

End Service.
End Values.
