(* ===== verification/PresetStores.v ===== *)
(** * The preset stores

    [MemoryPresetStore] ([common/js/dsh-plugins/preset-authoring/src/store.ts]) and
    [MongoPresetStore] ([store.mongo.ts]), against the contract of the interface: a
    map from ids to records.  The collection behind the second is third-party; it
    is the interface [MongoPresetCollection] with its laws. *)

From stdpp Require Import strings gmap.
From S2P Require Import Prelude Presets.

#[local] Open Scope Z_scope.

(** ** The contract *)

Definition already_exists (id : string) : Thrown :=
  PresetStoreError STORE_ALREADY_EXISTS ("preset " +:+ id +:+ " already exists").
Definition not_found (id : string) : Thrown :=
  PresetStoreError STORE_NOT_FOUND ("preset " +:+ id +:+ " not found").

(** [store_wf] is the store's own invariant, [stored] the records it holds.  A call
    gives the answer of a map, or fails for a reason of its own and then leaves the
    records as they are. *)
Class StoreView (W : Type) : Type := {
  store_wf : W → Prop;
  stored : W → gmap string PresetRecord;
}.

Definition answers {W A} `{StoreView W} (call : Call W Thrown A) (w : W)
    (result : Thrown + A → Prop) (after : gmap string PresetRecord) : Prop :=
  let '(r, w') := call w in
  store_wf w' ∧
  ((result r ∧ stored w' = after) ∨ ((∃ message, r = inl (OtherThrown message)) ∧ stored w' = stored w)).

(** What a call answers when the id is present, or when it is not. *)
Definition by_presence {A} (m : gmap string PresetRecord) (id : string) (present absent : A) : A :=
  match m !! id with Some _ => present | None => absent end.

Class LawfulPresetStore (W : Type) `{PresetStore W, StoreView W} : Prop := {
  create_law r w : store_wf w →
    answers (store_create r) w (eq (by_presence (stored w) (pr_id r) (inl (already_exists (pr_id r))) (inr ())))
      (by_presence (stored w) (pr_id r) (stored w) (<[pr_id r := r]> (stored w)));
  get_law id w : store_wf w →
    answers (store_get id) w (eq (match stored w !! id with Some r => inr r | None => inl (not_found id) end)) (stored w);
  list_law w : store_wf w →
    answers store_list w (λ x, ∃ l, x = inr l ∧ l ≡ₚ (map_to_list (stored w)).*2) (stored w);
  update_law r w : store_wf w →
    answers (store_update r) w (eq (by_presence (stored w) (pr_id r) (inr ()) (inl (not_found (pr_id r)))))
      (by_presence (stored w) (pr_id r) (<[pr_id r := r]> (stored w)) (stored w));
  remove_law id w : store_wf w →
    answers (store_remove id) w (eq (by_presence (stored w) id (inr ()) (inl (not_found id)))) (delete id (stored w));
  stored_ids id r w : store_wf w → stored w !! id = Some r → pr_id r = id;
}.

(** ** The in-memory store *)

(** The records in the map's order of insertion. *)
Record MemoryPresetStore : Type := mkMemory { records : list PresetRecord }.

Definition find_record (id : string) (m : MemoryPresetStore) : option PresetRecord :=
  find (λ r, bool_decide (pr_id r = id)) (records m).

Definition memory_create (r : PresetRecord) : Call MemoryPresetStore Thrown unit := λ m,
  match find_record (pr_id r) m with
  | Some _ => (inl (already_exists (pr_id r)), m)
  | None => (inr (), mkMemory (records m ++ [r]))
  end.

Definition memory_get (id : string) : Call MemoryPresetStore Thrown PresetRecord := λ m,
  match find_record id m with
  | Some r => (inr r, m)
  | None => (inl (not_found id), m)
  end.

Definition memory_list : Call MemoryPresetStore Thrown (list PresetRecord) := λ m, (inr (records m), m).

Definition memory_update (r : PresetRecord) : Call MemoryPresetStore Thrown unit := λ m,
  match find_record (pr_id r) m with
  | None => (inl (not_found (pr_id r)), m)
  | Some _ => (inr (), mkMemory (map (λ r', if bool_decide (pr_id r' = pr_id r) then r else r') (records m)))
  end.

Definition memory_remove (id : string) : Call MemoryPresetStore Thrown unit := λ m,
  match find_record id m with
  | None => (inl (not_found id), m)
  | Some _ => (inr (), mkMemory (filter (λ r, pr_id r ≠ id) (records m)))
  end.

#[export] Instance memory_store : PresetStore MemoryPresetStore := {
  store_create := memory_create;
  store_get := memory_get;
  store_list := memory_list;
  store_update := memory_update;
  store_remove := memory_remove;
}.

(** ** The Mongo store *)

Record MongoPresetDocument : Type := mkDocument {
  d_id : string;
  d_template : string;
  d_role : option string;
  d_persona : string;
  d_display_name : option string;
  d_create_time : Z;
  d_update_time : Z;
}.

Definition toDocument (r : PresetRecord) : MongoPresetDocument :=
  mkDocument (pr_id r) (pr_template r) (pr_role r) (pr_persona r) (pr_displayName r) (pr_createTime r) (pr_updateTime r).

Definition toRecord (d : MongoPresetDocument) : PresetRecord :=
  mkRecord (d_id d) (d_template d) (d_role d) (d_persona d) (d_display_name d) (d_create_time d) (d_update_time d).

(** What the driver throws: its code and code name, when it is an object. *)
Record DriverError : Type := mkDriverError {
  de_code : option Z;
  de_codeName : option string;
  de_message : string;
}.

(** The driver's calls: inserting, finding, replacing, deleting by id, and the
    maintenance calls of the start. *)
Class MongoPresetCollection (C : Type) : Type := {
  insertOne : MongoPresetDocument → Call C DriverError unit;
  findOne : string → Call C DriverError (option MongoPresetDocument);
  replaceOne : string → MongoPresetDocument → Call C DriverError Z;
  deleteOne : string → Call C DriverError Z;
  find_all : Call C DriverError (list MongoPresetDocument);
  deleteMany_without_id : Call C DriverError Z;
  dropIndex : string → Call C DriverError unit;
  createUniqueIdIndex : Call C DriverError unit;
}.

Definition isDuplicateKeyError (e : DriverError) : bool :=
  bool_decide (de_code e = Some 11000) || bool_decide (de_codeName e = Some "DuplicateKey").

Definition isLegacyIndexAbsentError (e : DriverError) : bool :=
  bool_decide (de_code e = Some 27) || bool_decide (de_codeName e = Some "IndexNotFound") ||
  bool_decide (de_code e = Some 26) || bool_decide (de_codeName e = Some "NamespaceNotFound").

Definition rethrow {C A} (e : DriverError) : Call C Thrown A := raise (OtherThrown (de_message e)).

Section Mongo.
Context {C : Type} `{MongoPresetCollection C}.

Definition ensureIndexes : Call C DriverError unit := createUniqueIdIndex.
Definition purgeLegacyDocuments : Call C DriverError unit := _ ← deleteMany_without_id; mret ().
Definition dropLegacyNameIndex : Call C DriverError unit :=
  catch (dropIndex "name_1") (λ e, if isLegacyIndexAbsentError e then mret () else raise e).

Definition mongo_create (r : PresetRecord) : Call C Thrown unit :=
  catch (insertOne (toDocument r)) (λ e,
    if isDuplicateKeyError e then raise (already_exists (pr_id r)) else rethrow e).

Definition mongo_get (id : string) : Call C Thrown PresetRecord :=
  document ← catch (findOne id) rethrow;
  match document with
  | None => raise (not_found id)
  | Some d => mret (toRecord d)
  end.

Definition mongo_list : Call C Thrown (list PresetRecord) :=
  documents ← catch find_all rethrow;
  mret (map toRecord documents).

Definition mongo_update (r : PresetRecord) : Call C Thrown unit :=
  matchedCount ← catch (replaceOne (pr_id r) (toDocument r)) rethrow;
  match matchedCount with
  | 0 => raise (not_found (pr_id r))
  | _ => mret ()
  end.

Definition mongo_remove (id : string) : Call C Thrown unit :=
  deletedCount ← catch (deleteOne id) rethrow;
  match deletedCount with
  | 0 => raise (not_found id)
  | _ => mret ()
  end.

#[export] Instance mongo_store : PresetStore C := {
  store_create := mongo_create;
  store_get := mongo_get;
  store_list := mongo_list;
  store_update := mongo_update;
  store_remove := mongo_remove;
}.

(** The start of the storage on a connected collection. *)
Definition start_storage : Call C DriverError unit :=
  _ ← purgeLegacyDocuments;
  _ ← dropLegacyNameIndex;
  ensureIndexes.

Definition createMongoPresetStore (uri : string) : Call C DriverError unit :=
  if bool_decide (uri = "") then
    raise (mkDriverError None None
      "preset-authoring storage=mongo requires a mongoUri (row config or the host-injected MONGO_URI)")
  else start_storage.

End Mongo.

(** The documented behaviour of a collection with a unique index on [id]: a map from
    ids to documents, whose calls may fail without changing it; a duplicate is
    reported by its code, and no other failure is. *)
Definition driver_fails {C A} (documents : C → gmap string MongoPresetDocument) (r : (DriverError + A) * C) (c : C) : Prop :=
  ∃ e, r.1 = inl e ∧ isDuplicateKeyError e = false ∧ documents r.2 = documents c.

Class LawfulCollection (C : Type) `{MongoPresetCollection C} : Type := {
  documents : C → gmap string MongoPresetDocument;
  insertOne_law d c :
    (if bool_decide (is_Some (documents c !! d_id d))
     then ∃ e, (insertOne d c).1 = inl e ∧ isDuplicateKeyError e = true ∧ documents (insertOne d c).2 = documents c
     else (insertOne d c).1 = inr () ∧ documents (insertOne d c).2 = <[d_id d := d]> (documents c))
    ∨ driver_fails documents (insertOne d c) c;
  findOne_law id c :
    ((findOne id c).1 = inr (documents c !! id) ∧ documents (findOne id c).2 = documents c)
    ∨ driver_fails documents (findOne id c) c;
  replaceOne_law id d c : d_id d = id →
    ((replaceOne id d c).1 = inr (if bool_decide (is_Some (documents c !! id)) then 1 else 0) ∧
     documents (replaceOne id d c).2 = if bool_decide (is_Some (documents c !! id)) then <[id := d]> (documents c) else documents c)
    ∨ driver_fails documents (replaceOne id d c) c;
  deleteOne_law id c :
    ((deleteOne id c).1 = inr (if bool_decide (is_Some (documents c !! id)) then 1 else 0) ∧
     documents (deleteOne id c).2 = delete id (documents c))
    ∨ driver_fails documents (deleteOne id c) c;
  find_all_law c :
    ((∃ l, (find_all c).1 = inr l ∧ l ≡ₚ (map_to_list (documents c)).*2) ∧ documents (find_all c).2 = documents c)
    ∨ driver_fails documents (find_all c) c;
  documents_ids id d c : documents c !! id = Some d → d_id d = id;
}.

(** ** Both stores keep the contract *)

#[export] Instance memory_view : StoreView MemoryPresetStore := {
  store_wf m := NoDup (map pr_id (records m));
  stored m := list_to_map (map (λ r, (pr_id r, r)) (records m));
}.

Lemma find_record_stored m id : find_record id m = stored m !! id.
Proof.
  unfold find_record, stored. simpl. induction (records m) as [|r l IH]; [done|]. simpl.
  destruct (bool_decide (pr_id r = id)) eqn:E; [apply bool_decide_eq_true in E as <-|apply bool_decide_eq_false in E].
  - by rewrite lookup_insert_eq.
  - by rewrite lookup_insert_ne.
Qed.

Lemma memory_pairs (l : list PresetRecord) : NoDup (map pr_id l) → NoDup (map (λ r, (pr_id r, r)) l).*1.
Proof. by rewrite <- list_fmap_compose. Qed.

Lemma memory_stored_Some m id r :
  store_wf m → stored m !! id = Some r ↔ r ∈ records m ∧ pr_id r = id.
Proof.
  intros Hwf. unfold stored. simpl. rewrite <- elem_of_list_to_map by by apply memory_pairs.
  rewrite list_elem_of_fmap. split.
  - by intros (r' & [= -> ->] & ?).
  - intros [? <-]. by exists r.
Qed.

Lemma stored_ext (m : MemoryPresetStore) (M : gmap string PresetRecord) :
  store_wf m → (∀ id r, M !! id = Some r ↔ r ∈ records m ∧ pr_id r = id) → stored m = M.
Proof.
  intros Hwf HM. apply map_eq. intros id. apply option_eq. intros r. by rewrite HM, memory_stored_Some.
Qed.

Lemma NoDup_map_filter (l : list PresetRecord) (P : PresetRecord → Prop) `{∀ r, Decision (P r)} :
  NoDup (map pr_id l) → NoDup (map pr_id (filter P l)).
Proof.
  induction l as [|r l IH]; [done|]. simpl. rewrite NoDup_cons. intros [Hr Hl].
  rewrite filter_cons. case_decide; [|by apply IH]. simpl. apply NoDup_cons. split; [|by apply IH].
  intros (x & E & [_ Hx]%list_elem_of_filter)%list_elem_of_fmap. apply Hr. rewrite E. by apply list_elem_of_fmap_2.
Qed.

#[export] Instance memory_lawful : LawfulPresetStore MemoryPresetStore.
Proof.
  assert (∀ m id, find_record id m = None → id ∉ map pr_id (records m)) as Hnone.
  { intros m id Hn (r & -> & Hr)%list_elem_of_fmap. unfold find_record in Hn.
    eapply find_none in Hn; [|by apply list_elem_of_In]. by rewrite bool_decide_eq_true_2 in Hn. }
  split.
  - intros r m Hwf. unfold answers, store_create, memory_store, memory_create, by_presence.
    destruct (find_record (pr_id r) m) eqn:E; rewrite <- find_record_stored, E; [by split; [|left]|].
    assert (store_wf (mkMemory (records m ++ [r]))) as Hwf'.
    { unfold store_wf. simpl. rewrite map_app. apply NoDup_app. split_and!; [done| |by apply NoDup_singleton].
      intros i Hi ->%list_elem_of_singleton. by apply (Hnone _ _ E). }
    split; [done|]. left. split; [done|]. apply stored_ext; [done|]. intros id r'. cbn [records].
    rewrite elem_of_app, list_elem_of_singleton. destruct (decide (id = pr_id r)) as [->|Hne].
    + rewrite lookup_insert_eq. split; [by intros [= <-]; auto|]. intros [[Hin|Hx] Hid]; [|by subst].
      exfalso. apply (Hnone _ _ E). rewrite <- Hid. by apply list_elem_of_fmap_2.
    + rewrite lookup_insert_ne, memory_stored_Some by done. split; [tauto|]. intros [[?|Hx] ?]; [done|by subst].
  - intros id m Hwf. unfold answers, store_get, memory_store, memory_get. rewrite find_record_stored.
    destruct (stored m !! id); by split; [|left].
  - intros m Hwf. unfold answers. simpl. split; [done|]. left. split; [|done]. eexists. split; [done|].
    unfold stored. simpl. rewrite map_to_list_to_map by by apply memory_pairs.
    rewrite <- list_fmap_compose. by rewrite list_fmap_id.
  - intros r m Hwf. unfold answers, store_update, memory_store, memory_update, by_presence.
    destruct (find_record (pr_id r) m) eqn:E; rewrite <- find_record_stored, E; [|by split; [|left]].
    set (f := λ r', if bool_decide (pr_id r' = pr_id r) then r else r').
    assert (∀ r', pr_id (f r') = pr_id r') as Hf.
    { intros r'. unfold f. by case_bool_decide. }
    assert (store_wf (mkMemory (map f (records m)))) as Hwf'.
    { unfold store_wf. simpl. by rewrite map_map, (map_ext _ pr_id Hf). }
    split; [done|]. left. split; [done|]. apply stored_ext; [done|]. intros id r'. cbn [records].
    rewrite list_elem_of_fmap. rewrite find_record_stored in E. apply (memory_stored_Some _ _ _ Hwf) in E as [Hin Hid].
    destruct (decide (id = pr_id r)) as [->|Hne].
    + rewrite lookup_insert_eq. split.
      * intros [= <-]. split; [|done]. eexists. split; [|exact Hin]. unfold f. by rewrite bool_decide_eq_true_2.
      * intros [(x & -> & _) Hx]. unfold f in *. rewrite Hf in Hx. by rewrite bool_decide_eq_true_2.
    + rewrite lookup_insert_ne, memory_stored_Some by done. split.
      * intros [? <-]. split; [|done]. eexists. split; [|done]. unfold f. by rewrite bool_decide_eq_false_2.
      * intros [(x & -> & Hx) <-]. rewrite Hf in *. unfold f. by rewrite bool_decide_eq_false_2.
  - intros id m Hwf. unfold answers, store_remove, memory_store, memory_remove, by_presence.
    destruct (find_record id m) eqn:E; rewrite <- find_record_stored, E.
    2:{ split; [done|]. left. split; [done|]. rewrite find_record_stored in E. by rewrite delete_id. }
    assert (store_wf (mkMemory (filter (λ r, pr_id r ≠ id) (records m)))) as Hwf'.
    { by apply NoDup_map_filter. }
    split; [done|]. left. split; [done|]. apply stored_ext; [done|]. intros i r'. cbn [records].
    rewrite list_elem_of_filter, lookup_delete_Some, memory_stored_Some by done. naive_solver.
  - intros id r m Hwf. rewrite memory_stored_Some by done. by intros [_ ?].
Qed.

#[export] Instance mongo_view {C} `{LawfulCollection C} : StoreView C := {
  store_wf c := True;
  stored c := toRecord <$> documents c;
}.

Lemma toRecord_toDocument r : toRecord (toDocument r) = r.
Proof. by destruct r. Qed.

#[export] Instance mongo_lawful {C} `{LawfulCollection C} : LawfulPresetStore C.
Proof.
  assert (∀ A B (call : Call C DriverError A) c (h : DriverError → Call C Thrown B),
    driver_fails documents (call c) c → ∃ e c', call c = (inl e, c') ∧ isDuplicateKeyError e = false ∧ documents c' = documents c) as Hfail.
  { intros A B call c h (e & E & Hd & Hs). destruct (call c) as [r c']. simpl in *. subst r. by eexists _, _. }
  split; unfold answers, by_presence.
  - intros r c _. unfold store_create, mongo_store, mongo_create, catch. cbn [stored mongo_view].
    rewrite lookup_fmap. destruct (insertOne_law (toDocument r) c) as [Hi|Hi].
    + change (d_id (toDocument r)) with (pr_id r) in Hi.
      destruct (insertOne (toDocument r) c) as [x c'] eqn:Ec. simpl in Hi.
      destruct (documents c !! pr_id r) as [d|] eqn:Ed; simpl.
      * rewrite bool_decide_eq_true_2 in Hi by by eexists. destruct Hi as (e & -> & Hdup & Hs). rewrite Hdup.
        split; [done|]. left. by rewrite Hs.
      * rewrite bool_decide_eq_false_2 in Hi by apply is_Some_None.
        destruct Hi as [-> Hs]. split; [done|]. left. split; [done|].
        by rewrite Hs, fmap_insert, toRecord_toDocument.
    + apply (Hfail _ unit _ _ (λ _, mret ())) in Hi as (e & c' & -> & Hd & Hs). rewrite Hd. split; [done|]. right.
      split; [by eexists|]. by rewrite Hs.
  - intros id c _. unfold store_get, mongo_store, mongo_get, catch. unfold mbind, call_bind. simpl.
    destruct (findOne_law id c) as [[E Es]|Hi].
    + destruct (findOne id c) as [x c'] eqn:Ec. simpl in *. subst x. rewrite lookup_fmap.
      destruct (documents c !! id); simpl; (split; [done|]; left; by rewrite Es).
    + apply (Hfail _ unit _ _ (λ _, mret ())) in Hi as (e & c' & -> & Hd & Hs). simpl. split; [done|]. right.
      split; [by eexists|]. by rewrite Hs.
  - intros c _. unfold store_list, mongo_store, mongo_list, catch. unfold mbind, call_bind. simpl.
    destruct (find_all_law c) as [[(l & E & Hl) Es]|Hi].
    + destruct (find_all c) as [x c'] eqn:Ec. simpl in *. subst x. simpl. split; [done|]. left. split; [|by rewrite Es].
      eexists. split; [done|]. rewrite Hl, map_to_list_fmap. by rewrite <- !list_fmap_compose.
    + apply (Hfail _ unit _ _ (λ _, mret ())) in Hi as (e & c' & -> & Hd & Hs). simpl. split; [done|]. right.
      split; [by eexists|]. by rewrite Hs.
  - intros r c _. unfold store_update, mongo_store, mongo_update, catch. unfold mbind, call_bind. simpl.
    destruct (replaceOne_law (pr_id r) (toDocument r) c) as [[E Es]|Hi]; [done|..].
    + destruct (replaceOne (pr_id r) (toDocument r) c) as [x c'] eqn:Ec. simpl in *. subst x. rewrite lookup_fmap.
      destruct (documents c !! pr_id r) as [d|] eqn:Ed; simpl.
      * simpl in *. split; [done|]. left. split; [done|].
        by rewrite Es, fmap_insert, toRecord_toDocument.
      * simpl in *. split; [done|]. left. by rewrite Es.
    + apply (Hfail _ unit _ _ (λ _, mret ())) in Hi as (e & c' & -> & Hd & Hs). simpl. split; [done|]. right.
      split; [by eexists|]. by rewrite Hs.
  - intros id c _. unfold store_remove, mongo_store, mongo_remove, catch. unfold mbind, call_bind. simpl.
    destruct (deleteOne_law id c) as [[E Es]|Hi].
    + destruct (deleteOne id c) as [x c'] eqn:Ec. simpl in *. subst x. rewrite lookup_fmap.
      destruct (documents c !! id) as [d|] eqn:Ed; simpl.
      * split; [done|]. left. by rewrite Es, fmap_delete.
      * split; [done|]. left. by rewrite Es, fmap_delete.
    + apply (Hfail _ unit _ _ (λ _, mret ())) in Hi as (e & c' & -> & Hd & Hs). simpl. split; [done|]. right.
      split; [by eexists|]. by rewrite Hs.
  - intros id r c _. simpl. rewrite lookup_fmap. intros (d & Hd & ->)%fmap_Some. by apply documents_ids in Hd.
Qed.

(** ** The two stores agree *)

Inductive store_op : Type :=
| SCreate (r : PresetRecord)
| SGet (id : string)
| SList
| SUpdate (r : PresetRecord)
| SRemove (id : string).

Inductive store_result : Type :=
| RUnit
| RRecord (r : PresetRecord)
| RList (l : list PresetRecord)
| RThrown (e : Thrown).

Definition result_of {A} (f : A → store_result) (r : Thrown + A) : store_result :=
  match r with inl e => RThrown e | inr a => f a end.

Definition run_store {W} `{PresetStore W} (op : store_op) (w : W) : store_result * W :=
  match op with
  | SCreate r => let '(x, w') := store_create r w in (result_of (λ _, RUnit) x, w')
  | SGet id => let '(x, w') := store_get id w in (result_of RRecord x, w')
  | SList => let '(x, w') := store_list w in (result_of RList x, w')
  | SUpdate r => let '(x, w') := store_update r w in (result_of (λ _, RUnit) x, w')
  | SRemove id => let '(x, w') := store_remove id w in (result_of (λ _, RUnit) x, w')
  end.

Fixpoint run_stores {W} `{PresetStore W} (ops : list store_op) (w : W) : list store_result * W :=
  match ops with
  | [] => ([], w)
  | op :: ops =>
      let '(x, w) := run_store op w in
      let '(xs, w) := run_stores ops w in (x :: xs, w)
  end.

(** A call that did not fail for a reason of its own. *)
Definition healthy (x : store_result) : Prop := ∀ message, x ≠ RThrown (OtherThrown message).

(** A list is given in any order. *)
Definition same_result (x y : store_result) : Prop :=
  match x, y with RList l, RList l' => l ≡ₚ l' | _, _ => x = y end.

(** What a map answers to an operation. *)
Definition map_answer (op : store_op) (m : gmap string PresetRecord) : store_result * gmap string PresetRecord :=
  match op with
  | SCreate r => by_presence m (pr_id r) (RThrown (already_exists (pr_id r)), m) (RUnit, <[pr_id r := r]> m)
  | SGet id => (match m !! id with Some r => RRecord r | None => RThrown (not_found id) end, m)
  | SList => (RList (map_to_list m).*2, m)
  | SUpdate r => by_presence m (pr_id r) (RUnit, <[pr_id r := r]> m) (RThrown (not_found (pr_id r)), m)
  | SRemove id => by_presence m id (RUnit, delete id m) (RThrown (not_found id), m)
  end.

(** A healthy call of a lawful store is the map's answer. *)
Lemma run_store_map {W} `{LawfulPresetStore W} op (w : W) :
  store_wf w → healthy (run_store op w).1 →
  store_wf (run_store op w).2 ∧ same_result (run_store op w).1 (map_answer op (stored w)).1 ∧
  stored (run_store op w).2 = (map_answer op (stored w)).2.
Proof.
  intros Hwf Hh. unfold run_store in *. destruct op as [r|id| |r|id]; simpl in *.
  - pose proof (create_law r w Hwf) as Hl. unfold answers, by_presence in *.
    destruct (store_create r w) as [x w']. destruct Hl as [Hwf' [[<- Hs]|[[m ->] _]]]; [|by destruct (Hh m)].
    by destruct (stored w !! pr_id r).
  - pose proof (get_law id w Hwf) as Hl. unfold answers in *.
    destruct (store_get id w) as [x w']. destruct Hl as [Hwf' [[<- Hs]|[[m ->] _]]]; [|by destruct (Hh m)].
    by destruct (stored w !! id).
  - pose proof (list_law w Hwf) as Hl. unfold answers in *.
    destruct (store_list w) as [x w']. destruct Hl as [Hwf' [[(l & -> & Hp) Hs]|[[m ->] _]]]; [done|by destruct (Hh m)].
  - pose proof (update_law r w Hwf) as Hl. unfold answers, by_presence in *.
    destruct (store_update r w) as [x w']. destruct Hl as [Hwf' [[<- Hs]|[[m ->] _]]]; [|by destruct (Hh m)].
    by destruct (stored w !! pr_id r).
  - pose proof (remove_law id w Hwf) as Hl. unfold answers, by_presence in *.
    destruct (store_remove id w) as [x w']. destruct Hl as [Hwf' [[<- Hs]|[[m ->] _]]]; [|by destruct (Hh m)].
    destruct (stored w !! id) eqn:E; [done|]. simpl. split_and!; [done..|].
    rewrite Hs. by apply delete_id.
Qed.

Lemma same_result_trans x y z : same_result x z → same_result y z → same_result x y.
Proof. destruct x, y, z; simpl; try congruence; intros; try by etrans. Qed.

(** C14: The Mongo store is the in-memory store.  Over a collection that behaves as
    documented, from the same records, any sequence of operations is answered the
    same by both stores, errors included, up to the order of a list, and leaves the
    same records; the driver's own failures apart. *)
Theorem mongo_store_agrees {C} `{LawfulCollection C} (c : C) (m : MemoryPresetStore) ops :
  store_wf m → stored c = stored m →
  Forall healthy (run_stores ops c).1 →
  Forall2 same_result (run_stores ops c).1 (run_stores ops m).1 ∧
  stored (run_stores ops c).2 = stored (run_stores ops m).2.
Proof.
  revert c m. induction ops as [|op ops IH]; intros c m Hwf Hs Hh; [done|]. cbn [run_stores] in *.
  destruct (run_store op c) as [x c'] eqn:Ec. destruct (run_stores ops c') as [xs c''] eqn:Ecs. cbn [fst snd] in *.
  apply Forall_cons in Hh as [Hx Hxs].
  assert (store_wf c) as Hc by done.
  destruct (run_store_map op c Hc) as (_ & E1 & E2); [by rewrite Ec|].
  assert (healthy (run_store op m).1) as Hm.
  { destruct op as [r|id| |r|id]; simpl; unfold memory_create, memory_get, memory_list, memory_update, memory_remove;
      try destruct (find_record _ m); by intros ?. }
  destruct (run_store_map op m Hwf Hm) as (Hwf' & F1 & F2).
  destruct (run_store op m) as [y m']. destruct (run_stores ops m') as [ys m''] eqn:Ems.
  rewrite Ec in E1, E2. cbn [fst snd] in *. rewrite Hs in E1, E2.
  destruct (IH c' m' Hwf') as [Hrest Hend]; [by rewrite E2, F2|by rewrite Ecs|].
  rewrite Ecs, Ems in Hrest, Hend. split; [|done]. constructor; [by eapply same_result_trans|done].
Qed.

(** *** A collection held in memory *)

Definition demo_fails (message : string) : DriverError := mkDriverError None None message.

Definition with_id (id : string) (d : MongoPresetDocument) : MongoPresetDocument :=
  mkDocument id (d_template d) (d_role d) (d_persona d) (d_display_name d) (d_create_time d) (d_update_time d).

Definition demo_documents (c : gmap string MongoPresetDocument) : gmap string MongoPresetDocument :=
  map_imap (λ id d, Some (with_id id d)) c.

(** Keyed by id; it never fails, duplicates apart. *)
#[export] Instance demo_collection : MongoPresetCollection (gmap string MongoPresetDocument) := {
  insertOne d c :=
    match c !! d_id d with
    | Some _ => (inl (mkDriverError (Some 11000) None "E11000 duplicate key error"), c)
    | None => (inr (), <[d_id d := d]> c)
    end;
  findOne id c := (inr (with_id id <$> c !! id), c);
  replaceOne id d c := match c !! id with Some _ => (inr 1, <[id := d]> c) | None => (inr 0, c) end;
  deleteOne id c := match c !! id with Some _ => (inr 1, delete id c) | None => (inr 0, c) end;
  find_all c := (inr (map_to_list (demo_documents c)).*2, c);
  deleteMany_without_id c := (inr 0, c);
  dropIndex _ c := (inl (mkDriverError (Some 27) None "index not found"), c);
  createUniqueIdIndex c := (inr (), c);
}.

Lemma demo_lookup c id : demo_documents c !! id = with_id id <$> c !! id.
Proof. unfold demo_documents. rewrite map_lookup_imap. by destruct (c !! id). Qed.

Lemma with_own_id d : with_id (d_id d) d = d.
Proof. by destruct d. Qed.

Lemma demo_insert c id d : d_id d = id → demo_documents (<[id := d]> c) = <[id := d]> (demo_documents c).
Proof.
  intros <-. apply map_eq. intros i. rewrite demo_lookup. destruct (decide (i = d_id d)) as [->|Hne].
  - rewrite !lookup_insert_eq. simpl. by rewrite with_own_id.
  - by rewrite !lookup_insert_ne, demo_lookup by done.
Qed.

Lemma demo_delete c id : demo_documents (delete id c) = delete id (demo_documents c).
Proof.
  apply map_eq. intros i. rewrite demo_lookup. destruct (decide (i = id)) as [->|Hne].
  - by rewrite !lookup_delete_eq.
  - by rewrite !lookup_delete_ne, demo_lookup by done.
Qed.

#[export] Instance demo_lawful : LawfulCollection (gmap string MongoPresetDocument).
Proof.
  refine {| documents := demo_documents |}.
  - intros d c. left. simpl. rewrite demo_lookup. destruct (c !! d_id d); simpl; [by eexists|].
    by rewrite demo_insert.
  - intros id c. left. by rewrite demo_lookup.
  - intros id d c Hd. left. simpl. rewrite demo_lookup. destruct (c !! id); simpl; [|done].
    by rewrite demo_insert.
  - intros id c. left. simpl. rewrite demo_lookup. destruct (c !! id) eqn:E; simpl; [by rewrite demo_delete|].
    split; [done|]. by rewrite delete_id by (by rewrite demo_lookup, E).
  - intros c. left. split; [|done]. by eexists.
  - intros id d c. rewrite demo_lookup. by intros (? & _ & ->)%fmap_Some.
Defined.

Definition demo_record : PresetRecord := mkRecord "bold" "player" (Some "player") "Play boldly." None 1 1.

Lemma mongo_store_agrees_witness :
  Forall2 same_result
    (run_stores [SCreate demo_record; SCreate demo_record; SGet "bold"; SRemove "calm"] (∅ : gmap string MongoPresetDocument)).1
    [RUnit; RThrown (already_exists "bold"); RRecord demo_record; RThrown (not_found "calm")].
Proof.
  refine (proj1 (mongo_store_agrees (∅ : gmap string MongoPresetDocument) (mkMemory [])
    [SCreate demo_record; SCreate demo_record; SGet "bold"; SRemove "calm"] _ _ _)).
  - constructor.
  - reflexivity.
  - repeat constructor; intros message E; discriminate E.
Defined.
