(* ===== verification/PresetsFacts.v ===== *)
(** * Preset authoring: properties

    The derivation of a definition, and the registry kept in step with the store:
    a small program logic for the service's operations, whose triples say what
    holds after an operation returns and after it throws. *)

From stdpp Require Import strings gmap.
From S2P Require Import Prelude Presets PresetStores.

#[local] Open Scope Z_scope.

(** ** The derivation *)

Section Derivation.
Context {V : Type} (string_value : string → V).

Lemma persona_indexes_spec (rows : list (CompositionRow (V:=V))) i k :
  k ∈ persona_indexes i rows ↔ ∃ j r, k = (i + j)%nat ∧ rows !! j = Some r ∧ row_name r = PERSONA_ROW_NAME.
Proof.
  revert i. induction rows as [|r rows IH]; intros i; simpl.
  - split; [by intros ?%elem_of_nil|]. by intros (j & r & _ & E & _).
  - assert (k ∈ persona_indexes (S i) rows ↔ ∃ j r', k = (i + S j)%nat ∧ rows !! j = Some r' ∧ row_name r' = PERSONA_ROW_NAME) as IH'.
    { rewrite IH. split; intros (j & r' & -> & ?); exists j, r'; (split; [lia|done]). }
    case_bool_decide as E; [rewrite elem_of_cons|]; rewrite IH'; split.
    + intros [->|(j & r' & -> & ?)]; [exists O, r; split; [lia|done]|by exists (S j), r'].
    + intros ([|j] & r' & -> & Hr & Hn); [left; lia|right; by exists j, r'].
    + intros (j & r' & -> & ?). by exists (S j), r'.
    + intros ([|j] & r' & -> & Hr & Hn); [simpl in Hr; congruence|by exists j, r'].
Qed.

(** The persona is patched into its one row.  A record without a persona takes
    the template's rows as they are; otherwise a derivation succeeds exactly when
    one row is the persona's, and then that row keeps its name and its other
    configuration fields and gets the persona as its prefix, and every other row is
    the template's. *)
Theorem deriveRows_spec (rows : list CompositionRow) persona templateId :
  match deriveRows string_value rows persona templateId with
  | inr rows' =>
      length rows' = length rows ∧
      ∀ i r, rows !! i = Some r →
        rows' !! i = Some (if bool_decide (persona ≠ "" ∧ row_name r = PERSONA_ROW_NAME)
                           then set_prefix string_value persona r else r)
  | inl e => pe_code e = INVALID_ARGUMENT ∧ persona ≠ "" ∧
      ∀ i, persona_indexes 0 rows ≠ [i]
  end.
Proof.
  unfold deriveRows. case_bool_decide as Hp.
  { split; [done|]. intros i r Hr. by rewrite bool_decide_eq_false_2 by (by intros [? _]). }
  unfold locatePersonaRow. destruct (persona_indexes 0 rows) as [|k [|k' l]] eqn:E; [by split_and!| |by split_and!].
  split; [apply length_alter|]. intros i r Hr.
  assert (∀ j, j = k ↔ ∃ r', rows !! j = Some r' ∧ row_name r' = PERSONA_ROW_NAME) as Hk.
  { intros j. rewrite <- list_elem_of_singleton, <- E, persona_indexes_spec. split.
    - by intros (? & r' & -> & ?); exists r'.
    - intros (r' & ?). by exists j, r'. }
  destruct (decide (i = k)) as [->|Hne].
  - rewrite list_lookup_alter_eq, Hr. simpl. rewrite bool_decide_eq_true_2; [done|]. split; [done|].
    destruct (proj1 (Hk k) eq_refl) as (r' & Hr' & ?). congruence.
  - rewrite list_lookup_alter_ne by done. rewrite bool_decide_eq_false_2; [done|]. intros [_ ?]. apply Hne, Hk. eauto.
Qed.

Lemma deriveComposition_id (r : PresetRecord) t d : deriveComposition string_value r t = inr d → pd_id d = pr_id r.
Proof. unfold deriveComposition. destruct (deriveRows _ _ _ _); [done|]. by intros [= <-]. Qed.

Lemma derive_id r tv d : derive string_value r tv = inr d → pd_id d = pr_id r.
Proof. destruct tv; [apply deriveComposition_id|done]. Qed.

End Derivation.

(** ** The registry's contract *)

(** What is registered, and the registrations whose unregistration has thrown: the
    latter is a history of the world, which nothing reads. *)
Class RegistryView (V W : Type) : Type := {
  registered : W → gmap nat (PresetDefinition (V:=V));
  thrown : W → gset nat;
}.

Definition same_registry {V W} `{RegistryView V W} (w w' : W) : Prop :=
  registered w = registered w' ∧ thrown w = thrown w'.

(** A registration gets a number that is not live; a call that throws leaves the
    registrations as they are; the store and the registry are apart. *)
Class LawfulRegistry (V W : Type) `{StoreView W, PresetStore W, AgentPresetsSeam V W, RegistryView V W} : Prop := {
  register_law d w :
    let '(r, w') := register d w in
    (store_wf w' ↔ store_wf w) ∧ stored w' = stored w ∧
    match r with
    | inr n => registered w !! n = None ∧ registered w' = <[n := d]> (registered w) ∧ thrown w' = thrown w
    | inl _ => same_registry w' w
    end;
  unregister_law n w :
    let '(r, w') := unregister n w in
    (store_wf w' ↔ store_wf w) ∧ stored w' = stored w ∧
    match r with
    | inr _ => registered w' = delete n (registered w) ∧ thrown w' = thrown w
    | inl _ => registered w' = registered w ∧ thrown w' = {[n]} ∪ thrown w
    end;
  resolve_law id w :
    let '(_, w') := resolve id w in
    (store_wf w' ↔ store_wf w) ∧ stored w' = stored w ∧ same_registry w' w;
  store_create_frame r w : same_registry (store_create r w).2 w;
  store_get_frame id w : same_registry (store_get id w).2 w;
  store_list_frame w : same_registry (store_list w).2 w;
  store_update_frame r w : same_registry (store_update r w).2 w;
  store_remove_frame id w : same_registry (store_remove id w).2 w;
}.

Section Logic.
Context {V W : Type} (string_value : string → V) `{LawfulPresetStore W} `{!AgentPresetsSeam (V:=V) W}
  `{!RegistryView V W} `{!LawfulRegistry V W} (templates : gmap string (TemplateDeclaration (V:=V))).

Implicit Types (g : Engine (W:=W)) (P R : Engine (W:=W) → Prop).

(** ** Triples *)

(** From [P], the operation returns in [Q] or throws in [R]. *)
Definition triple {A} P (m : Op (W:=W) A) (Q : A → Engine (W:=W) → Prop) R : Prop :=
  ∀ g, P g → let '(r, g') := m g in match r with inr a => Q a g' | inl _ => R g' end.

Lemma triple_ret {A} P (a : A) (Q : A → Engine (W:=W) → Prop) R : (∀ g, P g → Q a g) → triple P (mret a) Q R.
Proof. intros HQ g Hg. by apply HQ. Qed.

Lemma triple_raise {A} P e (Q : A → Engine (W:=W) → Prop) R : (∀ g, P g → R g) → triple P (raise e) Q R.
Proof. intros HR g Hg. by apply HR. Qed.

Lemma triple_bind {A B} P (m : Op A) (f : A → Op (W:=W) B) Q' Q R :
  triple P m Q' R → (∀ a, triple (Q' a) (f a) Q R) → triple P (m ≫= f) Q R.
Proof.
  intros Hm Hf g Hg. specialize (Hm g Hg). unfold mbind, call_bind. destruct (m g) as [[e|a] g']; [done|].
  by apply Hf.
Qed.

Lemma triple_catch {A} P (m : Op A) (h : PresetAuthoringError → Op (W:=W) A) Q R' R :
  triple P m Q R' → (∀ e, triple R' (h e) Q R) → triple P (catch m h) Q R.
Proof.
  intros Hm Hh g Hg. specialize (Hm g Hg). unfold catch. destruct (m g) as [[e|a] g']; [by apply Hh|done].
Qed.

Lemma triple_conseq {A} P P' (m : Op A) (Q Q' : A → Engine (W:=W) → Prop) R R' :
  triple P' m Q' R' → (∀ g, P g → P' g) → (∀ a g, Q' a g → Q a g) → (∀ g, R' g → R g) → triple P m Q R.
Proof.
  intros Hm HP HQ HR g Hg. specialize (Hm g (HP g Hg)). destruct (m g) as [[e|a] g']; [by apply HR|by apply HQ].
Qed.

(** ** In step *)

(** The definition a stored record stands for. *)
Definition stands_for (r : PresetRecord) (d : PresetDefinition) : Prop :=
  ∃ tv, template_value templates (pr_template r) = Some tv ∧ derive string_value r tv = inr d.

(** Live registrations and disposers are one to one, each definition naming its
    record, but for the registrations whose unregistration threw: they stay live and
    nobody holds their disposer. *)
Record paired g : Prop := {
  pa_wf : store_wf (world g);
  pa_named id n : disposers g !! id = Some n →
    n ∉ thrown (world g) ∧ ∃ d, registered (world g) !! n = Some d ∧ pd_id d = id;
  pa_owned n d : n ∉ thrown (world g) → registered (world g) !! n = Some d → disposers g !! pd_id d = Some n;
  pa_thrown n : n ∈ thrown (world g) → is_Some (registered (world g) !! n);
}.

(** Every such registration but that of [id] is derived from its stored record. *)
Definition derived_but (id : option string) g : Prop :=
  ∀ n d, n ∉ thrown (world g) → registered (world g) !! n = Some d → id ≠ Some (pd_id d) →
  ∃ r, stored (world g) !! pd_id d = Some r ∧ stands_for r d.

Definition in_step g : Prop := paired g ∧ derived_but None g.

(** In step but for the registration of one id. *)
Definition in_step_but (id : string) g : Prop := paired g ∧ derived_but (Some id) g.

Lemma in_step_wf g : in_step g → store_wf (world g).
Proof. intros [I _]. apply I. Qed.

Lemma paired_world g w :
  store_wf w → same_registry w (world g) → paired g → paired (mkEngine (disposers g) (warnings g) w).
Proof. intros Hw [E E'] [I1 I2 I3 I4]. by split; simpl; rewrite ?E, ?E'. Qed.

(** Nothing is registered under an id without a disposer. *)
Lemma unowned g id n d :
  paired g → disposers g !! id = None → n ∉ thrown (world g) → registered (world g) !! n = Some d → pd_id d ≠ id.
Proof. intros I Hid HL Hn <-. by rewrite (pa_owned _ I _ _ HL Hn) in Hid. Qed.

Lemma derived_all g id : paired g → disposers g !! id = None → derived_but (Some id) g → derived_but None g.
Proof. intros I Hid Hd n d HL Hn _. apply (Hd n d HL Hn). intros [= E]. by destruct (unowned g id n d I Hid HL Hn). Qed.

(** *** The registry's side *)

(** A held registration leaves the registry, or its unregistration has thrown. *)
Lemma unregister_paired g id n w' r :
  paired g → disposers g !! id = Some n → unregister n (world g) = (r, w') →
  paired (mkEngine (delete id (disposers g)) (warnings g) w') ∧ stored w' = stored (world g) ∧
  ∀ n' d, n' ∉ thrown w' → registered w' !! n' = Some d →
    n' ∉ thrown (world g) ∧ registered (world g) !! n' = Some d.
Proof.
  intros [I1 I2 I3 I4] E Ew. pose proof (unregister_law n (world g)) as Hl. rewrite Ew in Hl.
  destruct Hl as (Hwf & Hst & Hreg). destruct (I2 _ _ E) as (HnL & d0 & Hd0 & Hid0).
  assert (∀ id' n', id' ≠ id → disposers g !! id' = Some n' → n' ≠ n) as Hne.
  { intros id' n' Hid' E' ->. destruct (I2 _ _ E') as (_ & d' & Hd' & Hn'). congruence. }
  assert (∀ n' d, n' ≠ n → n' ∉ thrown (world g) → registered (world g) !! n' = Some d →
      delete id (disposers g) !! pd_id d = Some n') as Hown.
  { intros n' d Hn' HL Hr. rewrite lookup_delete_ne; [by apply I3|]. intros Heq. apply (I3 _ _ HL) in Hr.
    rewrite <- Heq, E in Hr. congruence. }
  destruct r as [e|u]; destruct Hreg as [Hr Ht].
  - split_and!; [split; simpl; rewrite ?Hr, ?Ht|done|].
    + by apply Hwf.
    + intros id' n' [Hid' E']%lookup_delete_Some. destruct (I2 _ _ E') as (? & d' & ? & ?).
      split; [|by exists d']. assert (n' ≠ n) by (eapply Hne; [by apply not_eq_sym|done]). set_solver.
    + intros n' d HL. apply Hown; set_solver.
    + intros n' [->%elem_of_singleton|Hn']%elem_of_union; [by eexists|by apply I4].
    + rewrite Hr, Ht. intros n' d HL Hn'. split; [set_solver|done].
  - split_and!; [split; simpl; rewrite ?Hr, ?Ht|done|].
    + by apply Hwf.
    + intros id' n' [Hid' E']%lookup_delete_Some. destruct (I2 _ _ E') as (? & d' & Hd' & ?). split; [done|]. exists d'.
      rewrite lookup_delete_ne; [done|]. apply not_eq_sym. eapply Hne; [by apply not_eq_sym|done].
    + intros n' d HL [Hn' Hr']%lookup_delete_Some. apply Hown; [congruence|done..].
    + intros n' Hn'. rewrite lookup_delete_ne by congruence. by apply I4.
    + rewrite Hr, Ht. intros n' d HL [_ ?]%lookup_delete_Some. done.
Qed.

Lemma release_triple id (S : gmap string PresetRecord) :
  triple (λ g, in_step_but id g ∧ stored (world g) = S) (release id)
    (λ _ g, in_step g ∧ disposers g !! id = None ∧ stored (world g) = S) in_step.
Proof.
  intros g ((I & Hd) & HS). unfold release, get_disposer, mbind, call_bind.
  destruct (disposers g !! id) as [n|] eqn:E.
  - unfold delete_disposer, lift. cbn [world disposers warnings].
    destruct (unregister n (world g)) as [r w'] eqn:Ew.
    destruct (unregister_paired g id n w' r I E Ew) as (I' & Hst & Hreg).
    assert (in_step (mkEngine (delete id (disposers g)) (warnings g) w')) as Hstep.
    { split; [done|]. apply (derived_all _ id I'); [apply lookup_delete_eq|].
      intros n' d Hn' Hr. simpl in *. rewrite Hst. destruct (Hreg _ _ Hn' Hr). by apply (Hd n' d). }
    destruct r; [done|]. split_and!; [done|apply lookup_delete_eq|simpl; congruence].
  - simpl. split_and!; [|done|done]. split; [done|by eapply derived_all].
Qed.

(** A definition that was just registered and its disposer kept. *)
Lemma registered_in_step g r tv def n w1 :
  in_step g → disposers g !! pr_id r = None → stored (world g) !! pr_id r = Some r →
  template_value templates (pr_template r) = Some tv → derive string_value r tv = inr def →
  register def (world g) = (inr n, w1) →
  in_step (mkEngine (<[pr_id r := n]> (disposers g)) (warnings g) w1) ∧ stored w1 = stored (world g).
Proof.
  intros ([I1 I2 I3 I4] & Hd) Hid Hst Htv Ed Er. pose proof (derive_id _ _ _ _ Ed) as Hpd.
  pose proof (register_law def (world g)) as Hl. rewrite Er in Hl. destruct Hl as (Hwf1 & Hs1 & Hfresh & Hreg1 & Ht1).
  assert (n ∉ thrown (world g)) as HnL by (intros Hn; destruct (I4 n Hn); congruence).
  split; [|done]. split; [split|]; simpl; rewrite ?Hreg1, ?Ht1.
  - by apply Hwf1.
  - intros id' n' [[<- <-]|[Hne E']]%lookup_insert_Some.
    + split; [done|]. exists def. by rewrite lookup_insert_eq.
    + destruct (I2 _ _ E') as (? & d' & Hd' & ?). split; [done|]. exists d'. rewrite lookup_insert_ne; [done|]. congruence.
  - intros n' d HL [[<- <-]|[Hne E']]%lookup_insert_Some.
    + by rewrite Hpd, lookup_insert_eq.
    + rewrite lookup_insert_ne; [by apply I3|]. intros Heq. apply (I3 _ _ HL) in E'. rewrite <- Heq, Hid in E'. done.
  - intros n' Hn'. rewrite lookup_insert_ne by congruence. by apply I4.
  - intros n' d. simpl. rewrite Hreg1, Hs1, Ht1. intros HL. intros [[<- <-]|[Hne E']]%lookup_insert_Some _.
    + rewrite Hpd, Hst. exists r. split; [done|]. by exists tv.
    + by apply (Hd n' d HL E').
Qed.

Lemma in_step_same g w :
  in_step g → store_wf w → same_registry w (world g) → stored w = stored (world g) →
  in_step (mkEngine (disposers g) (warnings g) w).
Proof.
  intros (I & Hd) Hw Hr Hs. split; [by apply paired_world|]. destruct Hr as [Hr Ht]. intros n d. simpl.
  rewrite Hr, Ht, Hs. apply Hd.
Qed.

Lemma registerRecord_triple r tv (S : gmap string PresetRecord) (D : gmap string nat) :
  S !! pr_id r = Some r → template_value templates (pr_template r) = Some tv →
  triple (λ g, in_step g ∧ disposers g !! pr_id r = None ∧ stored (world g) = S ∧ disposers g = D)
    (registerRecord string_value r tv)
    (λ _ g, in_step g ∧ stored (world g) = S ∧ delete (pr_id r) (disposers g) = delete (pr_id r) D)
    (λ g, in_step g ∧ stored (world g) = S ∧ disposers g = D).
Proof.
  intros HS Htv g (I & Hid & Hst & HD). unfold registerRecord.
  destruct (derive string_value r tv) as [e|def] eqn:Ed; [by split_and!|].
  unfold mbind, call_bind, lift at 1. destruct (register def (world g)) as [[e|n] w1] eqn:Er.
  { pose proof (register_law def (world g)) as Hl. rewrite Er in Hl. destruct Hl as (Hwf & Hs & Hreg).
    split_and!; simpl; [|congruence|done]. apply in_step_same; [done|by apply Hwf, in_step_wf|done|done]. }
  destruct (registered_in_step g r tv def n w1) as [Hg1 Hs1]; [done|done|by rewrite Hst|done..|].
  unfold set_disposer. cbn [world disposers warnings]. set (g1 := mkEngine _ _ w1) in *. unfold catch, lift at 1. change (world g1) with w1.
  pose proof (resolve_law (pr_id r) w1) as Hl. destruct (resolve (pr_id r) w1) as [res w2].
  destruct Hl as (Hwf2 & Hs2 & Hreg2). pose (g2 := mkEngine (disposers g1) (warnings g1) w2).
  assert (in_step g2) as Hg2 by (apply in_step_same; [done|by apply Hwf2, (in_step_wf g1)|done..]).
  destruct res as [e|broken].
  2:{ split_and!; [done|simpl in *; congruence|]. simpl. by rewrite delete_insert_eq, <- HD. }
  unfold delete_disposer, lift_quiet, raise. cbn [world disposers warnings].
  destruct (unregister n w2) as [res w3] eqn:Ew. destruct Hg2 as (I2 & Hd2).
  destruct (unregister_paired g2 (pr_id r) n w3 res I2 (lookup_insert_eq _ _ _) Ew) as (I' & Hs3 & Hreg).
  assert (delete (pr_id r) (disposers g2) = disposers g) as Hdis by by apply delete_insert_id.
  cbn [snd]. split_and!; [|simpl in *; congruence|by rewrite <- HD, <- Hdis].
  split; [done|]. intros n' d Hn' Hr _. simpl in *. rewrite Hs3. destruct (Hreg _ _ Hn' Hr). by apply (Hd2 n' d).
Qed.

(** *** The store's side *)

Lemma in_step_store g w S :
  in_step g → store_wf w → same_registry w (world g) → stored w = S →
  (∀ id, disposers g !! id ≠ None → S !! id = stored (world g) !! id) →
  in_step (mkEngine (disposers g) (warnings g) w).
Proof.
  intros (I & Hd) Hw Hr HS Hk. split; [by apply paired_world|]. destruct Hr as [Hr Ht]. intros n d. simpl.
  rewrite Hr, Ht. intros HL Hn _. rewrite HS, Hk; [by apply (Hd n d HL Hn)|]. by rewrite (pa_owned _ I n d HL Hn).
Qed.

Lemma storeGet_triple id P :
  (∀ g w, P g → store_wf w → same_registry w (world g) → stored w = stored (world g) →
          P (mkEngine (disposers g) (warnings g) w)) →
  (∀ g, P g → store_wf (world g)) →
  triple P (storeGet id) (λ r g, P g ∧ stored (world g) !! id = Some r ∧ pr_id r = id) P ∧
  ∀ g, P g → match storeGet id g with (inl e, g') => pe_code e = NOT_FOUND → stored (world g') !! id = None | _ => True end.
Proof.
  intros HP Hwf.
  assert (∀ g, P g → match storeGet id g with
    | (inr r, g') => P g' ∧ stored (world g') !! id = Some r ∧ pr_id r = id
    | (inl e, g') => P g' ∧ (pe_code e = NOT_FOUND → stored (world g') !! id = None) end) as Hg.
  { intros g Pg. unfold storeGet, lift. pose proof (get_law id (world g) (Hwf g Pg)) as Ha. unfold answers in Ha.
    pose proof (store_get_frame id (world g)) as Hf. destruct (store_get id (world g)) as [x w']. simpl in Hf.
    destruct Ha as [Hw [[<- Hs]|[[message ->] Hs]]].
    - destruct (stored (world g) !! id) as [r|] eqn:E; simpl.
      + split; [by apply HP|]. rewrite Hs. split; [done|]. by eapply stored_ids, E; apply Hwf.
      + split; [by apply HP|]. by rewrite Hs.
    - simpl. split; [by apply HP|done]. }
  split.
  - intros g Pg. specialize (Hg g Pg). destruct (storeGet id g) as [[e|r] g']; [by apply Hg|done].
  - intros g Pg. specialize (Hg g Pg). destruct (storeGet id g) as [[e|r] g']; [by apply Hg|done].
Qed.

Lemma storeGet_in_step id :
  triple in_step (storeGet id) (λ r g, in_step g ∧ stored (world g) !! id = Some r ∧ pr_id r = id) in_step.
Proof. apply storeGet_triple; [apply in_step_same|apply in_step_wf]. Qed.

Lemma check_unclaimed_triple id :
  triple in_step (check_unclaimed id) (λ _ g, in_step g ∧ stored (world g) !! id = None) in_step.
Proof.
  intros g I. unfold check_unclaimed. unfold mbind at 1, call_bind at 1. unfold catch.
  destruct (storeGet_triple id in_step in_step_same in_step_wf) as [G1 G2].
  specialize (G1 g I). specialize (G2 g I). unfold mbind, call_bind.
  destruct (storeGet id g) as [[e|r] g']; simpl; [|by apply G1].
  case_bool_decide as Ec; simpl; [|done]. split; [done|by apply G2].
Qed.

Lemma templateFor_triple P t :
  triple P (templateFor templates t) (λ tv g, P g ∧ template_value templates t = Some tv) P.
Proof.
  unfold templateFor. destruct (template_value templates t) as [tv|]; [by apply triple_ret|by apply triple_raise].
Qed.

Lemma free_disposer g id : in_step g → stored (world g) !! id = None → disposers g !! id = None.
Proof.
  intros (I & Hd) Hs. destruct (disposers g !! id) as [n|] eqn:E; [|done]. exfalso.
  destruct (pa_named _ I _ _ E) as (HL & d & Hr & <-). destruct (Hd n d HL Hr) as (r & Hr' & _); [done|]. congruence.
Qed.

Lemma store_create_triple r :
  triple (λ g, in_step g ∧ stored (world g) !! pr_id r = None) (lift (store_create r) mapStoreError)
    (λ _ g, in_step g ∧ disposers g !! pr_id r = None ∧ stored (world g) !! pr_id r = Some r) in_step.
Proof.
  intros g (I & Hn). pose proof (free_disposer _ _ I Hn) as Hfree.
  pose proof (create_law r (world g) (in_step_wf _ I)) as Ha. pose proof (store_create_frame r (world g)) as Hf.
  unfold answers, by_presence in Ha. rewrite Hn in Ha. unfold lift.
  destruct (store_create r (world g)) as [x w']. simpl in Hf. destruct Ha as [Hw [[<- Hs]|[[m ->] Hs]]]; simpl.
  - split_and!; [|done|by rewrite Hs, lookup_insert_eq]. eapply in_step_store; [done..|]. intros id Hi.
    rewrite lookup_insert_ne; [done|]. congruence.
  - by apply in_step_same.
Qed.

Lemma remove_quiet_triple id :
  triple (λ g, in_step g ∧ disposers g !! id = None) (lift_quiet (store_remove id)) (λ _ g, in_step g) in_step.
Proof.
  intros g (I & Hid). unfold lift_quiet.
  pose proof (remove_law id (world g) (in_step_wf _ I)) as Ha. pose proof (store_remove_frame id (world g)) as Hf.
  unfold answers in Ha. destruct (store_remove id (world g)) as [x w']. simpl in *. destruct Ha as [Hw [[_ Hs]|[_ Hs]]].
  - eapply in_step_store; [done..|]. intros id' Hi. rewrite lookup_delete_ne; [done|]. congruence.
  - by apply in_step_same.
Qed.

(** The registration of a record just stored. *)
Lemma register_stored_triple r tv :
  template_value templates (pr_template r) = Some tv →
  triple (λ g, in_step g ∧ disposers g !! pr_id r = None ∧ stored (world g) !! pr_id r = Some r)
    (registerRecord string_value r tv) (λ _ g, in_step g ∧ stored (world g) !! pr_id r = Some r)
    (λ g, in_step g ∧ disposers g !! pr_id r = None).
Proof.
  intros Htv g (I & Hid & Hs).
  pose proof (registerRecord_triple r tv (stored (world g)) (disposers g) Hs Htv g
    (conj I (conj Hid (conj eq_refl eq_refl)))) as Ht.
  destruct (registerRecord string_value r tv g) as [[e|b] g']; [by destruct Ht as (? & _ & ->)|].
  destruct Ht as (? & -> & _). done.
Qed.

(** The record a creation stores. *)
Definition created_record (now : Z) (input : CreatePresetInput) : PresetRecord :=
  mkRecord (ci_id input) (ci_template input) (ci_role input) (ci_persona input) (ci_displayName input) now now.

Lemma create_triple now input :
  triple in_step (create string_value templates now input)
    (λ r g, in_step g ∧ stored (world g) !! ci_id input = Some r ∧ r = created_record now input) in_step.
Proof.
  unfold create. eapply triple_bind; [apply check_unclaimed_triple|]. intros ?.
  destruct (negb _); [by apply triple_raise; intros ? [? _]|].
  eapply triple_bind; [eapply triple_conseq; [apply (templateFor_triple
    (λ g, in_step g ∧ stored (world g) !! ci_id input = None))|done|intros ? ? Hx; exact Hx|by intros ? [? _]]|].
  intros tv. simpl. case_bool_decide; [by apply triple_raise; intros ? [[? _] _]|].
  fold (created_record now input). set (r := created_record now input).
  intros g ([I Hn] & Htv). revert g I Hn.
  enough (triple (λ g, in_step g ∧ stored (world g) !! pr_id r = None)
    (_ ← lift (store_create r) mapStoreError;
     broken ← catch (registerRecord string_value r tv) (λ e, _ ← lift_quiet (store_remove (ci_id input)); raise e);
     match broken with Some reason => activation_failed (ci_id input) reason | None => storeGet (ci_id input) end)
    (λ r' g, in_step g ∧ stored (world g) !! ci_id input = Some r' ∧ r' = r) in_step) as Ht by by intros g I Hn; apply (Ht g).
  eapply triple_bind; [apply store_create_triple|]. intros ?.
  eapply triple_bind.
  { eapply triple_catch; [by apply register_stored_triple|]. intros e.
    eapply triple_bind; [apply (remove_quiet_triple (ci_id input))|]. intros ?. by apply triple_raise. }
  intros [reason|]; [by apply triple_raise; intros ? [? _]|].
  eapply triple_conseq;
    [apply (proj1 (storeGet_triple (ci_id input) (λ g, in_step g ∧ stored (world g) !! pr_id r = Some r)
       ltac:(intros ? ? [? ?] ? ? Hs; split; [by apply in_step_same|simpl; by rewrite Hs])
       ltac:(intros ? [Hi _]; by apply in_step_wf)))|done| |by intros ? [? _]].
  intros r' g ([I Hr] & Hr' & _). split_and!; [done..|]. simpl in Hr. congruence.
Qed.

Lemma create_in_step now input :
  triple in_step (create string_value templates now input) (λ _ g, in_step g) in_step.
Proof. eapply triple_conseq; [by apply create_triple|done|by intros ? ? [? _]|done]. Qed.

Lemma update_store_triple r S :
  triple (λ g, in_step g ∧ stored (world g) = S ∧ is_Some (S !! pr_id r)) (lift (store_update r) mapStoreError)
    (λ _ g, in_step_but (pr_id r) g ∧ stored (world g) = <[pr_id r := r]> S) in_step.
Proof.
  intros g (I & HS & [r0 Hr0]). pose proof (update_law r (world g) (in_step_wf _ I)) as Ha.
  pose proof (store_update_frame r (world g)) as Hf.
  unfold answers, by_presence in Ha. rewrite HS, Hr0 in Ha. unfold lift.
  destruct (store_update r (world g)) as [x w']. simpl in Hf. destruct Ha as [Hw [[<- Hs]|[[m ->] Hs]]]; simpl.
  - destruct I as (I & Hd). split; [|done]. split; [by apply paired_world|]. destruct Hf as [Hf Ht].
    intros n d. simpl. rewrite Hf, Ht. intros HL Hr Hne. rewrite Hs, lookup_insert_ne by congruence. rewrite <- HS.
    by apply (Hd n d HL Hr).
  - apply in_step_same; [done..|congruence].
Qed.

Lemma update_in_step now id persona displayName :
  triple in_step (update string_value templates now id persona displayName) (λ _ g, in_step g) in_step.
Proof.
  unfold update. eapply triple_bind; [apply storeGet_in_step|]. intros r.
  destruct (bool_decide (persona = None) && _); [by apply triple_ret; intros ? [? _]|].
  eapply triple_bind; [eapply triple_conseq; [apply (templateFor_triple
    (λ g, in_step g ∧ stored (world g) !! id = Some r ∧ pr_id r = id))|done|intros ? ? Hx; exact Hx|by intros ? [? _]]|].
  intros tv. set (r' := patched now r persona displayName).
  intros g ((I & Hr & Hid) & Htv). assert (pr_id r' = id) as Hid' by done.
  remember (stored (world g)) as S eqn:HS.
  enough (triple (λ g, in_step g ∧ stored (world g) = S ∧ is_Some (S !! pr_id r'))
    (_ ← lift (store_update r') mapStoreError; _ ← release id; broken ← registerRecord string_value r' tv;
     match broken with Some reason => activation_failed id reason | None => mret r' end)
    (λ _ g, in_step g) in_step) as Ht by (apply Ht; split_and!; [done..|by rewrite Hid'; eexists]).
  clear g I Hr HS. eapply triple_bind; [apply update_store_triple|]. intros ?. rewrite Hid'.
  eapply triple_bind; [eapply triple_conseq; [by apply release_triple|intros ? Hx; exact Hx|intros ? ? Hx; exact Hx|done]|].
  intros ?. eapply triple_bind.
  { eapply triple_conseq; [apply (register_stored_triple r' tv Htv)| |intros ? ? Hx; exact Hx|by intros ? [? _]].
    intros g (I & Hd & Hs). rewrite Hid', Hs. split_and!; [done..|apply lookup_insert_eq]. }
  intros [reason|]; [apply triple_raise|apply triple_ret]; by intros ? [? _].
Qed.

Lemma remove_in_step id : triple in_step (remove id) (λ _ g, in_step g) in_step.
Proof.
  unfold remove. intros g I. pose (S := delete id (stored (world g))).
  assert (triple (λ g', g' = g) (lift (store_remove id) mapStoreError)
    (λ _ g, in_step_but id g ∧ stored (world g) = S) in_step) as Hstore.
  { intros ? ->. pose proof (remove_law id (world g) (in_step_wf _ I)) as Ha.
    pose proof (store_remove_frame id (world g)) as Hf. unfold answers in Ha. unfold lift.
    destruct (store_remove id (world g)) as [x w']. simpl in Hf.
    destruct Ha as [Hw [[<- Hs]|[[m ->] Hs]]]; [|by apply in_step_same].
    unfold by_presence. destruct (stored (world g) !! id) eqn:E.
    - destruct I as (I & Hd). split; [|done]. split; [by apply paired_world|]. destruct Hf as [Hf Ht].
      intros n d. simpl. rewrite Hf, Ht. intros HL Hr Hne. rewrite Hs, lookup_delete_ne by congruence. by apply (Hd n d HL Hr).
    - apply in_step_same; [done..|]. by rewrite Hs, delete_id. }
  refine (triple_bind (λ g', g' = g) _ _ _ _ _ Hstore _ g eq_refl). intros ?.
  eapply triple_conseq; [by apply (release_triple id S)|done|by intros ? ? [? _]|done].
Qed.

(** *** Boot and unload *)

Lemma restore_records_triple l S :
  NoDup (map pr_id l) → (∀ r, r ∈ l → S !! pr_id r = Some r) →
  triple (λ g, in_step g ∧ stored (world g) = S ∧ ∀ r, r ∈ l → disposers g !! pr_id r = None)
    (restore_records string_value templates l) (λ _ g, in_step g) in_step.
Proof.
  induction l as [|r l IH]; intros Hn HS; simpl; [by apply triple_ret; intros ? [? _]|].
  apply NoDup_cons in Hn as [Hr Hn].
  eapply (triple_bind _ _ _ (λ _ g, in_step g ∧ stored (world g) = S ∧ ∀ r, r ∈ l → disposers g !! pr_id r = None)).
  2:{ intros ?. apply IH; [done|]. intros x Hx. apply HS. by right. }
  intros g (I & Hst & Hfree). unfold restore_record.
  assert (∀ x, x ∈ l → pr_id x ≠ pr_id r) as Hne.
  { intros x Hx E. apply Hr. rewrite <- E. by apply list_elem_of_fmap_2. }
  destruct (template_value templates (pr_template r)) as [tv|] eqn:Etv.
  2:{ simpl. split_and!; [|done|intros x Hx; apply Hfree; by right].
      destruct I as (I & Hd). split; [|done]. by destruct I. }
  pose proof (registerRecord_triple r tv S (disposers g) (HS r ltac:(by left)) Etv g
    (conj I (conj (Hfree r ltac:(by left)) (conj Hst eq_refl)))) as Ht.
  unfold catch, mbind, call_bind. destruct (registerRecord string_value r tv g) as [[e|b] g']; simpl.
  - destruct Ht as ((I' & Hd') & Hs' & HD). split_and!; [|done|intros x Hx; simpl; rewrite HD; apply Hfree; by right].
    split; [|done]. by destruct I'.
  - destruct Ht as (I' & Hs' & HD). split_and!; [done..|]. intros x Hx.
    rewrite <- (lookup_delete_ne (disposers g') (pr_id r)) by (apply not_eq_sym; by apply Hne).
    rewrite HD, lookup_delete_ne by (apply not_eq_sym; by apply Hne). apply Hfree. by right.
Qed.

Lemma restore_in_step :
  triple (λ g, in_step g ∧ disposers g = ∅) (restore string_value templates) (λ _ g, in_step g) in_step.
Proof.
  unfold restore. intros g (I & HD). unfold mbind, call_bind, lift.
  pose proof (list_law (world g) (in_step_wf _ I)) as Ha. pose proof (store_list_frame (world g)) as Hf.
  unfold answers in Ha. destruct (store_list (world g)) as [x w']. simpl in Hf.
  destruct Ha as [Hw [[(l & -> & Hl) Hs]|[[m ->] Hs]]]; simpl; [|by apply in_step_same].
  assert (∀ r, r ∈ l → stored w' !! pr_id r = Some r) as Hstored.
  { intros r. rewrite Hl, list_elem_of_fmap. intros ([id r'] & -> & Hr%elem_of_map_to_list). simpl in *.
    rewrite Hs. by rewrite (stored_ids _ _ _ (in_step_wf _ I) Hr). }
  apply (restore_records_triple l (stored w')).
  - rewrite Hl. replace (map pr_id (map_to_list (stored (world g))).*2) with (map_to_list (stored (world g))).*1.
    { apply NoDup_fst_map_to_list. }
    rewrite <- list_fmap_compose. apply list_fmap_ext. intros i [id r] Hr%list_elem_of_lookup_2%elem_of_map_to_list.
    simpl. by rewrite (stored_ids _ _ _ (in_step_wf _ I) Hr).
  - done.
  - split_and!; [by apply in_step_same|done|]. intros r _. simpl. by rewrite HD.
Qed.

(** What unloading leaves was not held, or its unregistration has thrown. *)
Lemma dispose_all_registered ds g n d :
  let g' := (dispose_all ds g).2 in
  thrown (world g) ⊆ thrown (world g') ∧
  (registered (world g') !! n = Some d →
   registered (world g) !! n = Some d ∧ (n ∈ ds → n ∈ thrown (world g'))).
Proof.
  revert g. induction ds as [|k ds IH]; intros g; [by split; [|split; [|intros ?%elem_of_nil]]|].
  cbn [dispose_all]. unfold mbind, call_bind, catch, lift.
  pose proof (unregister_law k (world g)) as Hl. destruct (unregister k (world g)) as [[e|[]] w'] eqn:Ew;
    destruct Hl as (_ & _ & Hreg & Hthr); cbn [warn].
  - match goal with |- context [dispose_all ds ?g0] => destruct (IH g0) as [Hsub Hl] end. cbn [world] in Hsub, Hl.
    rewrite Hthr in Hsub. rewrite Hreg in Hl. split; [set_solver|]. intros [Hr Hs]%Hl. split; [done|].
    intros [->|?]%elem_of_cons; [set_solver|by apply Hs].
  - match goal with |- context [dispose_all ds ?g0] => destruct (IH g0) as [Hsub Hl] end. cbn [world] in Hsub, Hl.
    rewrite Hthr in Hsub. rewrite Hreg in Hl. split; [done|]. intros [[Hne Hr]%lookup_delete_Some Hs]%Hl. split; [done|].
    intros [->|?]%elem_of_cons; [done|by apply Hs].
Qed.

Lemma dispose_leaves_thrown g n d :
  in_step g → registered (world (dispose g).2) !! n = Some d → n ∈ thrown (world (dispose g).2).
Proof.
  intros (I & _). unfold dispose.
  match goal with |- context [dispose_all ?ds ?g0] => destruct (dispose_all_registered ds g0 n d) as [Hsub Hl] end.
  intros [Hr Hs]%Hl. cbn [world] in Hr, Hsub.
  destruct (decide (n ∈ thrown (world g))) as [HL|HL]; [by apply Hsub|]. apply Hs.
  apply (pa_owned _ I _ _ HL) in Hr. apply list_elem_of_fmap. exists (pd_id d, n).
  split; [done|]. by apply elem_of_map_to_list.
Qed.

(** *** Runs *)

Inductive service_op : Type :=
| OCreate (now : Z) (input : CreatePresetInput)
| OUpdate (now : Z) (id : string) (persona displayName : option string)
| ORemove (id : string)
| OGet (id : string)
| OCompose (id : option string)
| OList (role : option string).

Definition serve g (op : service_op) : Engine :=
  match op with
  | OCreate now input => (create string_value templates now input g).2
  | OUpdate now id persona displayName => (update string_value templates now id persona displayName g).2
  | ORemove id => (remove id g).2
  | OGet id => (get id g).2
  | OCompose id => (compose templates id g).2
  | OList role => (list_presets role g).2
  end.

Lemma triple_after {A} (m : Op A) g : triple in_step m (λ _ g, in_step g) in_step → in_step g → in_step (m g).2.
Proof. intros Ht I. specialize (Ht g I). by destruct (m g) as [[e|a] g']. Qed.

Lemma serve_in_step g op : in_step g → in_step (serve g op).
Proof.
  intros I. destruct op as [now input|now id p dn|id|id|id|role]; simpl.
  - by apply triple_after; [apply create_in_step|].
  - by apply triple_after; [apply update_in_step|].
  - by apply triple_after; [apply remove_in_step|].
  - apply triple_after; [|done]. eapply triple_conseq; [apply storeGet_in_step|done|by intros ? ? [? _]|done].
  - apply triple_after; [|done]. unfold compose. destruct id as [id|]; [|by apply triple_raise].
    eapply triple_bind; [apply storeGet_in_step|]. intros r.
    eapply triple_bind; [eapply triple_conseq; [apply (templateFor_triple in_step)|by intros ? [? _]|
      intros ? ? Hx; exact Hx|done]|]. intros tv. by apply triple_ret; intros ? [? _].
  - unfold list_presets. pose proof (list_law (world g) (in_step_wf _ I)) as Ha.
    pose proof (store_list_frame (world g)) as Hf. unfold answers in Ha.
    destruct (store_list (world g)) as [x w']. simpl in Hf. destruct Ha as [Hw [[(l & -> & _) Hs]|[[m ->] Hs]]];
      by apply in_step_same.
Qed.

(** The state the plugin is activated in: nothing registered. *)
Definition fresh_engine (w : W) : Engine := mkEngine ∅ [] w.

Lemma restored_in_step w :
  store_wf w → registered w = ∅ → thrown w = ∅ → in_step (restore string_value templates (fresh_engine w)).2.
Proof.
  intros Hwf Hreg Hthr.
  assert (in_step (fresh_engine w)) as I0.
  { split; [split; simpl|]; [done|done|by rewrite Hreg|rewrite Hthr; by intros ? ?%elem_of_empty|].
    intros n d. simpl. by rewrite Hreg. }
  pose proof (restore_in_step (fresh_engine w) (conj I0 eq_refl)) as Ht.
  by destruct (restore string_value templates (fresh_engine w)) as [[e|a] g'].
Qed.

(** C11: The registry is in step with the store.  Over any store that keeps its
    contract and any registry (their calls may fail, unregistrations included), after
    the boot's restoration and any service operations, successful or not: every
    registration but those whose unregistration threw in this run names a stored
    record, is the definition derived from it as it is stored now, is the only such
    one for its record, and the plugin holds its disposer; the plugin holds no other
    disposer; and unloading leaves only registrations whose unregistration threw. *)
Theorem registry_in_step w ops :
  store_wf w → registered w = ∅ → thrown w = ∅ →
  let g := fold_left serve ops (restore string_value templates (fresh_engine w)).2 in
  (∀ n d, registered (world g) !! n = Some d → n ∈ thrown (world g) ∨
     (disposers g !! pd_id d = Some n ∧ ∃ r, stored (world g) !! pd_id d = Some r ∧ stands_for r d)) ∧
  (∀ id n, disposers g !! id = Some n → ∃ d, registered (world g) !! n = Some d ∧ pd_id d = id ∧
     ∃ r, stored (world g) !! id = Some r ∧ stands_for r d) ∧
  (∀ n d, registered (world (dispose g).2) !! n = Some d → n ∈ thrown (world (dispose g).2)).
Proof.
  intros Hwf Hreg Hthr g.
  assert (in_step g) as I.
  { unfold g. clear g. pose proof (restored_in_step w Hwf Hreg Hthr) as I. revert I.
    generalize (restore string_value templates (fresh_engine w)).2.
    induction ops as [|op ops IH]; intros g I; simpl; [done|]. by apply IH, serve_in_step. }
  split_and!; [| |intros; by eapply dispose_leaves_thrown]; destruct I as (Ip & Hd).
  - intros n d E. destruct (decide (n ∈ thrown (world g))) as [HL|HL]; [by left|right].
    split; [by apply (pa_owned _ Ip)|]. by apply (Hd n d HL E).
  - intros id n E. destruct (pa_named _ Ip _ _ E) as (HL & d & Hr & <-). exists d. split_and!; [done..|]. by apply (Hd n d HL Hr).
Qed.

End Logic.

(** ** A concrete deployment *)

(** The registry: its live definitions, what it refuses to register, the
    registrations whose disposer throws and those whose disposer has thrown. *)
Record DemoRegistry : Type := mkRegistry {
  live : gmap nat (PresetDefinition (V:=string));
  refused : list string;
  jammed : list nat;
  threw : gset nat;
}.

Definition Deployment : Type := MemoryPresetStore * DemoRegistry.

Definition on_store {A} (m : Call MemoryPresetStore Thrown A) : Call Deployment Thrown A := λ w,
  let '(r, s) := m w.1 in (r, (s, w.2)).

#[export] Instance deployment_store : PresetStore Deployment := {
  store_create r := on_store (store_create r);
  store_get id := on_store (store_get id);
  store_list := on_store store_list;
  store_update r := on_store (store_update r);
  store_remove id := on_store (store_remove id);
}.

#[export] Instance deployment_view : StoreView Deployment := {
  store_wf w := store_wf w.1;
  stored w := stored w.1;
}.

#[export] Instance deployment_registry : AgentPresetsSeam (V:=string) Deployment := {
  register d w :=
    if bool_decide (pd_id d ∈ refused w.2) then (inl (OtherThrown "registry closed"), w)
    else let n := fresh (dom (live w.2)) in (inr n, (w.1, mkRegistry (<[n := d]> (live w.2)) (refused w.2) (jammed w.2) (threw w.2)));
  unregister n w :=
    if bool_decide (n ∈ jammed w.2)
    then (inl (OtherThrown "jammed"), (w.1, mkRegistry (live w.2) (refused w.2) (jammed w.2) ({[n]} ∪ threw w.2)))
    else (inr (), (w.1, mkRegistry (delete n (live w.2)) (refused w.2) (jammed w.2) (threw w.2)));
  resolve id w := (inr None, w);
}.

#[export] Instance deployment_registered : RegistryView string Deployment := {
  registered w := live w.2;
  thrown w := threw w.2;
}.

Lemma on_store_answers {A} (m : Call MemoryPresetStore Thrown A) (w : Deployment) result after :
  answers m w.1 result after → answers (on_store m) w result after.
Proof. unfold answers, on_store. by destruct (m w.1). Qed.

#[export] Instance deployment_lawful : LawfulPresetStore Deployment.
Proof.
  split.
  - intros r w Hw. by apply (on_store_answers _ w), (create_law (W:=MemoryPresetStore)).
  - intros id w Hw. by apply (on_store_answers _ w), (get_law (W:=MemoryPresetStore)).
  - intros w Hw. by apply (on_store_answers _ w), (list_law (W:=MemoryPresetStore)).
  - intros r w Hw. by apply (on_store_answers _ w), (update_law (W:=MemoryPresetStore)).
  - intros id w Hw. by apply (on_store_answers _ w), (remove_law (W:=MemoryPresetStore)).
  - intros id r w. apply (stored_ids (W:=MemoryPresetStore) id r w.1).
Qed.

Lemma on_store_frame {A} (m : Call MemoryPresetStore Thrown A) (w : Deployment) :
  same_registry (V:=string) (on_store m w).2 w.
Proof. unfold on_store, same_registry. by destruct (m w.1). Qed.

#[export] Instance deployment_registry_lawful : LawfulRegistry string Deployment.
Proof.
  split.
  - intros d w. simpl. case_bool_decide; [done|]. split_and!; [done..| |done|done]. apply not_elem_of_dom, is_fresh.
  - intros n w. simpl. by case_bool_decide.
  - intros id w. by simpl.
  - intros r w. apply on_store_frame.
  - intros id w. apply on_store_frame.
  - intros w. apply on_store_frame.
  - intros r w. apply on_store_frame.
  - intros id w. apply on_store_frame.
Qed.

Definition player_template : TemplateDeclaration (V:=string) :=
  mkTemplate None (Some "plays") [mkRow PERSONA_ROW_NAME (ObjectConfig {[ "prefix" := "You play." ]}); mkRow "tools" (PlainConfig None)].

Definition demo_templates : gmap string (TemplateDeclaration (V:=string)) := {[ "player" := player_template ]}.

Definition boot : Deployment := (mkMemory [demo_record], mkRegistry ∅ [] [] ∅).
Definition demo_ops : list service_op :=
  [OCreate 2 (mkCreate "calm" "player" None "Play calmly." None);
   OUpdate 3 "bold" (Some "Play very boldly.") None; ORemove "calm"].

Lemma registry_in_step_witness :
  let g := fold_left (serve (λ s : string, s) demo_templates) demo_ops
    (restore (λ s : string, s) demo_templates (fresh_engine boot)).2 in
  size (registered (world g)) = 1%nat ∧ registered (world (dispose g).2) = ∅.
Proof.
  destruct (registry_in_step (λ s : string, s) demo_templates boot demo_ops) as (_ & _ & H);
    [repeat constructor; intros Hx; by apply elem_of_nil in Hx|done|done|].
  split; [by vm_compute|]. apply map_empty. intros n. apply eq_None_not_Some. intros [d Hd]. specialize (H n d Hd). revert H.
  assert (∀ X : gset nat, X = ∅ → n ∈ X → False) as Hempty by (by intros ? -> ?%elem_of_empty).
  apply Hempty. by vm_compute.
Defined.

(** A removal whose unregistration throws has removed the record and forgotten the
    disposer: the definition stays registered, even after the plugin is unloaded. *)
Lemma jammed_removal_leaks :
  let g := (restore (λ s : string, s) demo_templates
              (fresh_engine (mkMemory [demo_record], mkRegistry ∅ [] [O] ∅))).2 in
  let '(r, g') := remove "bold" g in
  r = inl (mkError INTERNAL "agent preset registry operation failed: jammed") ∧
  stored (world g') !! "bold" = None ∧ disposers g' !! "bold" = None ∧
  size (registered (world (dispose g').2)) = 1%nat.
Proof. by vm_compute. Qed.

(** An update whose registration is refused has replaced the stored record and
    taken the former definition out of the registry: nothing is rolled back. *)
Definition closed_registry (g : Engine (W:=Deployment)) : Engine :=
  mkEngine (disposers g) (warnings g) ((world g).1, mkRegistry (live (world g).2) ["bold"] [] ∅).

Lemma failed_update_not_rolled_back :
  let g := closed_registry (restore (λ s : string, s) demo_templates (fresh_engine boot)).2 in
  let '(r, g') := update (λ s : string, s) demo_templates 3 "bold" (Some "New.") None g in
  r = inl (mkError INTERNAL "agent preset registry operation failed: registry closed") ∧
  pr_persona <$> stored (world g') !! "bold" = Some "New." ∧
  size (live (world g).2) = 1%nat ∧ live (world g').2 = ∅.
Proof. by vm_compute. Qed.

(** A template named like a property every object inherits is not refused as
    unknown: the record is stored and its derivation breaks. *)
Lemma inherited_template_is_internal :
  (create (λ s : string, s) demo_templates 2 (mkCreate "calm" "constructor" None "" None) (fresh_engine boot)).1 =
  inl (mkError INTERNAL
    "agent preset registry operation failed: Cannot read properties of undefined (reading 'map')").
Proof. by vm_compute. Qed.
