(* ===== verification/ServerNames.v ===== *)
(** * Names, errors and messages shared by the service faces (server.ts)

    [projects/game/agent_v2/src/server.ts]: the resource names of the API with
    their regular expressions, the mapping of a failure onto a gRPC status,
    timestamps, and the preset vocabulary of the scenes.  Names are texts of
    bytes in UTF-8. *)

From stdpp Require Import strings.
From S2P Require Import Prelude SessionConfig Presets.

#[local] Open Scope Z_scope.

(** ** Statuses *)

(** The statuses the handlers name, or the number an error carries. *)
Inductive Status : Type :=
| StatusInvalidArgument
| StatusNotFound
| StatusAlreadyExists
| StatusFailedPrecondition
| StatusInternal
| NumericStatus (code : Z).

Record ServiceError : Type := mkServiceError { se_code : Status; se_message : string }.

(** What a collaborator throws: a session error, a preset error, another [Error]
    with its numeric [code] property if it has one, or a value that is none. *)
Inductive Failure : Type :=
| SessionFailure (code : TeamSessionErrorCode) (message : string)
| PresetFailure (e : PresetAuthoringError)
| ErrorFailure (code : option Z) (message : string)
| ValueFailure (text : string).

Definition SESSION_STATUS_BY_CODE (code : TeamSessionErrorCode) : Status :=
  match code with
  | SessionConfig.INVALID_ARGUMENT => StatusInvalidArgument
  | SessionConfig.NOT_FOUND => StatusNotFound
  | SessionConfig.FAILED_PRECONDITION => StatusFailedPrecondition
  end.

Definition PRESET_STATUS_BY_CODE (code : PresetAuthoringErrorCode) : Status :=
  match code with
  | Presets.INVALID_ARGUMENT => StatusInvalidArgument
  | Presets.ALREADY_EXISTS => StatusAlreadyExists
  | Presets.NOT_FOUND => StatusNotFound
  | Presets.FAILED_PRECONDITION => StatusFailedPrecondition
  | Presets.INTERNAL => StatusInternal
  end.

Definition toServiceError (err : Failure) : ServiceError :=
  match err with
  | SessionFailure code message => mkServiceError (SESSION_STATUS_BY_CODE code) message
  | PresetFailure e => mkServiceError (PRESET_STATUS_BY_CODE (pe_code e)) (pe_message e)
  | ErrorFailure (Some code) message => mkServiceError (NumericStatus code) message
  | ErrorFailure None message => mkServiceError StatusInternal message
  | ValueFailure text => mkServiceError StatusInternal text
  end.

(** The failure a result of the session layer stands for. *)
Definition session_failure (e : SessionError) : Failure :=
  match e with
  | TeamSessionError code message => SessionFailure code message
  | OtherError message => ErrorFailure None message
  end.

(** An immediate [INVALID_ARGUMENT]. *)
Definition refuse {A} (message : string) : ServiceError + A := inl (mkServiceError StatusInvalidArgument message).

(** ** Resource names *)

Definition KNOWN_TEMPLATES : list string := SCENES.*1.
Definition known (template : string) : bool := bool_decide (template ∈ KNOWN_TEMPLATES).

Definition parseSessionResource (name : string) : option (string * string) :=
  r ← SessionConfig.parseSessionResource name; if known r.1 then Some r else None.

(** The characters [.] does not match, U+2028 and U+2029 among them. *)
Fixpoint has_line_terminator (s : string) : bool :=
  match s with
  | "" => false
  | String c s' =>
      bool_decide (c = Ascii.ascii_of_nat 10) || bool_decide (c = Ascii.ascii_of_nat 13)
      || String.prefix (String (Ascii.ascii_of_nat 226) (String (Ascii.ascii_of_nat 128) (String (Ascii.ascii_of_nat 168) ""))) s
      || String.prefix (String (Ascii.ascii_of_nat 226) (String (Ascii.ascii_of_nat 128) (String (Ascii.ascii_of_nat 169) ""))) s
      || has_line_terminator s'
  end.

(** [.+] *)
Definition dot_plus (s : string) : bool := bool_decide (s ≠ "") && negb (has_line_terminator s).

(** What is in front of the last segments of a name, when they are [suffix]: the
    group [(.+)] of the expression. *)
Definition before_segments (suffix : list string) (segs : list string) : option string :=
  let n := (length segs - length suffix)%nat in
  let front := join "/" (take n segs) in
  if bool_decide (drop n segs = suffix) && bool_decide (take n segs ≠ []) && dot_plus front
  then Some front else None.

(** [/^(.+)\/team$/] *)
Definition parseTeamResource (name : string) : option (string * string) :=
  before_segments ["team"] (segments name) ≫= parseSessionResource.

(** [/^(.+)\/team\/members\/([^/]+)$/] *)
Definition parseTeamMemberResource (name : string) : option (string * string * string) :=
  let segs := segments name in
  member ← last segs;
  if bool_decide (member = "") then None
  else
    front ← before_segments ["team"; "members"; member] segs;
    session ← parseSessionResource front;
    Some (session, member).

(** [/^templates\/([^/]+)\/presets\/([^/]+)$/] *)
Definition parsePresetResource (name : string) : option (string * string) :=
  r ← SessionConfig.parsePresetResource name; if known r.1 then Some r else None.

(** [/^templates\/([^/]+)$/] *)
Definition parseTemplateParent (parent : string) : option string :=
  match segments parent with
  | [a; template] =>
      if bool_decide (a = "templates") && bool_decide (template ≠ "") && known template then Some template else None
  | _ => None
  end.

Definition sessionResourceName (session : string * string) : string :=
  "templates/" +:+ session.1 +:+ "/sessions/" +:+ session.2.

(** ** Timestamps *)

Record Timestamp : Type := mkTimestamp { seconds : Z; nanos : Z }.

(** [Math.floor] and the remainder of the language, which has the dividend's sign. *)
Definition dateToTimestamp (ms : Z) : Timestamp := mkTimestamp (ms / 1000) (Z.rem ms 1000 * 1000000).

(** ** The preset vocabulary *)

(** The roles of a scene's presets with their pool templates. *)
Definition rolePools (template : string) : list (string * string) :=
  if bool_decide (template = "saolei") then [("player", "player"); ("planner", "planner")]
  else if bool_decide (template = "sts2") then [("main", "main")]
  else [].

Definition scenePresetRoles (template : string) : option (list string) :=
  match (rolePools template).*1 with [] => None | roles => Some roles end.

Definition rolePoolTemplate (template role : string) : option string :=
  snd <$> (list_find (λ p, p.1 = role) (rolePools template) ≫= λ r, Some r.2).

Definition noPresetVocabularyMessage (template : string) : string :=
  "template " +:+ quote template +:+ " has no preset vocabulary (scene not wired)".

Definition quotedRoleList (roles : list string) : string :=
  let quoted := quote <$> roles in
  if (length quoted <=? 1)%nat then join "" quoted
  else join ", " (take (length quoted - 1) quoted) +:+ " or " +:+ default "" (last quoted).

(** ** Lemmas on names *)

(** A text that is one segment. *)
Definition slashless (s : string) : Prop := segments s = [s].

Lemma segments_cons s : ∃ f fs, segments s = f :: fs.
Proof. destruct s as [|c s]; simpl; [by eexists _, _|]. case_bool_decide; [by eexists _, _|]. destruct (segments s); by eexists _, _. Qed.

Lemma slashless_cons c s : slashless (String c s) ↔ c ≠ slash_char ∧ slashless s.
Proof.
  unfold slashless. simpl. destruct (segments_cons s) as (f & fs & Hs). case_bool_decide as Ec; rewrite Hs.
  - split; [done|]. by intros [? _].
  - split; [intros [= -> ->]|intros [_ [= -> ->]]]; done.
Qed.

Lemma join_cons (sep s : string) l : l ≠ [] → join sep (s :: l) = s +:+ sep +:+ join sep l.
Proof. by destruct l. Qed.

Lemma join_segments s : join "/" (segments s) = s.
Proof.
  induction s as [|c s IH]; [done|]. simpl. destruct (segments_cons s) as (f & fs & Hs). rewrite Hs in IH |- *.
  case_bool_decide as Ec.
  - rewrite join_cons, IH by done. by rewrite Ec.
  - destruct fs as [|f' fs]; [by rewrite <- IH|]. rewrite join_cons in IH |- * by done. simpl. by rewrite <- IH.
Qed.

Lemma segments_slashless s : Forall slashless (segments s).
Proof.
  induction s as [|c s IH]; [by constructor|]. simpl. destruct (segments_cons s) as (f & fs & Hs). rewrite Hs in IH |- *.
  case_bool_decide as Ec; [by constructor|]. inversion IH; subst. constructor; [by apply slashless_cons|done].
Qed.

Lemma segments_app a b : slashless a → segments (a +:+ "/" +:+ b) = a :: segments b.
Proof.
  induction a as [|c a IH]; intros Ha.
  - reflexivity.
  - apply slashless_cons in Ha as [Hc Ha]. specialize (IH Ha). simpl in IH |- *.
    rewrite bool_decide_eq_false_2 by done. by rewrite IH.
Qed.

Lemma segments_join l : l ≠ [] → Forall slashless l → segments (join "/" l) = l.
Proof.
  intros Hl H. induction H as [|s l Hs H IH]; [done|]. destruct l as [|s' l]; [done|].
  rewrite join_cons, segments_app, IH by done. done.
Qed.

(** A name is determined by its segments. *)
Lemma segments_name l name : l ≠ [] → Forall slashless l → segments name = l ↔ name = join "/" l.
Proof.
  intros Hl H. split; [intros <-; by rewrite join_segments|intros ->]. by apply segments_join.
Qed.

Lemma known_spec template : known template = true ↔ template = "saolei" ∨ template = "sts2".
Proof.
  unfold known. rewrite bool_decide_eq_true. change KNOWN_TEMPLATES with ["saolei"; "sts2"].
  rewrite !elem_of_cons, elem_of_nil. tauto.
Qed.

Lemma known_slashless template : known template = true → slashless template.
Proof. rewrite known_spec. by intros [-> | ->]. Qed.

(** The four-segment names, of sessions and of presets. *)
Lemma four_segments (kind name t x : string) :
  slashless kind →
  segments name = ["templates"; t; kind; x] ↔
  name = "templates/" +:+ t +:+ "/" +:+ kind +:+ "/" +:+ x ∧ slashless t ∧ slashless x.
Proof.
  intros Hk. split.
  - intros Hs. pose proof (segments_slashless name) as Hf. rewrite Hs in Hf. rewrite !Forall_cons in Hf.
    split_and!; [|by apply Hf..]. by rewrite <- (join_segments name), Hs.
  - intros (-> & Ht & Hx). change ("templates/" +:+ ?r) with ("templates" +:+ "/" +:+ r).
    rewrite (segments_app "templates"), (segments_app t), (segments_app kind) by done. by rewrite Hx.
Qed.

(** A session of a known template. *)
Definition session_ok (session : string * string) : Prop :=
  known session.1 = true ∧ session.2 ≠ "" ∧ slashless session.2.

Lemma parseSessionResource_spec name session :
  parseSessionResource name = Some session ↔ name = sessionResourceName session ∧ session_ok session.
Proof.
  destruct session as [t x]. unfold parseSessionResource, sessionResourceName, session_ok. simpl. split.
  - intros (r & Hr & Hk)%bind_Some. destruct (known r.1) eqn:Ek; [|done]. injection Hk as ->. simpl in Ek.
    unfold SessionConfig.parseSessionResource in Hr.
    destruct (segments name) as [|a [|t' [|b [|x' [|]]]]] eqn:Hs; try done.
    destruct (bool_decide _ && _ && _ && _) eqn:Hb; [|done]. injection Hr as -> ->.
    rewrite !andb_true_iff, !bool_decide_eq_true in Hb. destruct Hb as [[[-> ?] ->] ?].
    apply four_segments in Hs as (-> & ? & ?); [|done]. done.
  - intros (-> & Hk & Hx & Hs). unfold SessionConfig.parseSessionResource.
    rewrite (proj2 (four_segments "sessions" _ t x eq_refl)) by (split_and!; [done|by apply known_slashless|done]).
    rewrite !bool_decide_eq_true_2 by (done || by intros ->; apply known_spec in Hk as [|]). simpl. by rewrite Hk.
Qed.

Lemma parsePresetResource_spec name t x :
  parsePresetResource name = Some (t, x) ↔ name = presetResourceName t x ∧ session_ok (t, x).
Proof.
  unfold parsePresetResource, presetResourceName, session_ok. simpl. split.
  - intros (r & Hr & Hk)%bind_Some. destruct (known r.1) eqn:Ek; [|done]. injection Hk as ->. simpl in Ek.
    unfold SessionConfig.parsePresetResource in Hr.
    destruct (segments name) as [|a [|t' [|b [|x' [|]]]]] eqn:Hs; try done.
    destruct (bool_decide _ && _ && _ && _) eqn:Hb; [|done]. injection Hr as -> ->.
    rewrite !andb_true_iff, !bool_decide_eq_true in Hb. destruct Hb as [[[-> ?] ->] ?].
    apply four_segments in Hs as (-> & ? & ?); [|done]. done.
  - intros (-> & Hk & Hx & Hs). unfold SessionConfig.parsePresetResource.
    rewrite (proj2 (four_segments "presets" _ t x eq_refl)) by (split_and!; [done|by apply known_slashless|done]).
    rewrite !bool_decide_eq_true_2 by (done || by intros ->; apply known_spec in Hk as [|]). simpl. by rewrite Hk.
Qed.

(** No terminator in the session's own segment is none in its name. *)
Lemma session_line session : session_ok session → dot_plus (sessionResourceName session) = negb (has_line_terminator session.2).
Proof. destruct session as [t x]. intros (Hk & _). apply known_spec in Hk as [Hk|Hk]; simpl in Hk; by rewrite Hk. Qed.

Lemma before_segments_spec suffix segs front :
  before_segments suffix segs = Some front ↔
  ∃ fs, fs ≠ [] ∧ segs = fs ++ suffix ∧ front = join "/" fs ∧ dot_plus front = true.
Proof.
  unfold before_segments. split.
  - destruct (bool_decide _ && _ && _) eqn:Hb; [|done]. intros [= <-].
    rewrite !andb_true_iff, !bool_decide_eq_true in Hb. destruct Hb as [[Hd Ht] Hp].
    eexists. split_and!; [exact Ht| |done|done]. rewrite <- (take_drop (length segs - length suffix) segs) at 1.
    by rewrite Hd.
  - intros (fs & Hf & -> & -> & Hp). rewrite length_app, Nat.add_sub, take_app_length, drop_app_length.
    rewrite !bool_decide_eq_true_2 by done. by rewrite Hp.
Qed.

Lemma join_app (a b : list string) : a ≠ [] → b ≠ [] → join "/" (a ++ b) = join "/" a +:+ "/" +:+ join "/" b.
Proof.
  intros Ha Hb. induction a as [|s a IH]; [done|]. destruct a as [|s' a].
  - exact (join_cons "/" s b Hb).
  - change ((s :: s' :: a) ++ b) with (s :: ((s' :: a) ++ b)). rewrite !join_cons, IH by (done || by destruct b).
    by rewrite !str_app_assoc.
Qed.

(** A name with a session's name in front of the segments [suffix]. *)
Lemma session_suffix name suffix session :
  suffix ≠ [] → Forall slashless suffix →
  before_segments suffix (segments name) ≫= parseSessionResource = Some session ↔
  name = sessionResourceName session +:+ "/" +:+ join "/" suffix ∧ session_ok session ∧
  has_line_terminator session.2 = false.
Proof.
  intros Hne Hsl. split.
  - intros (front & Hb & [-> Hok]%parseSessionResource_spec)%bind_Some.
    apply before_segments_spec in Hb as (fs & Hf & Hs & Hj & Hp). split_and!; [|done|].
    + rewrite <- (join_segments name), Hs, join_app by done. by rewrite Hj.
    + rewrite session_line in Hp by done. by apply negb_true_iff.
  - intros (-> & Hok & Hl). apply bind_Some. exists (sessionResourceName session). split; [|by apply parseSessionResource_spec].
    apply before_segments_spec. exists (segments (sessionResourceName session)).
    pose proof (segments_cons (sessionResourceName session)) as (f & fs & Hfs). split_and!.
    + by rewrite Hfs.
    + rewrite <- (join_segments (sessionResourceName session)) at 1. rewrite <- join_app by (done || by rewrite Hfs).
      apply segments_join; [by rewrite Hfs|]. apply Forall_app. split; [apply segments_slashless|done].
    + by rewrite join_segments.
    + rewrite session_line by done. by rewrite Hl.
Qed.

Lemma parseTeamResource_spec name session :
  parseTeamResource name = Some session ↔
  name = sessionResourceName session +:+ "/team" ∧ session_ok session ∧ has_line_terminator session.2 = false.
Proof. unfold parseTeamResource. by rewrite session_suffix by (done || by repeat constructor). Qed.

Lemma parseTeamMemberResource_spec name session member :
  parseTeamMemberResource name = Some (session, member) ↔
  name = sessionResourceName session +:+ "/team/members/" +:+ member ∧ member ≠ "" ∧ slashless member ∧
  session_ok session ∧ has_line_terminator session.2 = false.
Proof.
  assert (∀ m, slashless m → Forall slashless ["team"; "members"; m]) as Hf by by repeat constructor.
  unfold parseTeamMemberResource. split.
  - intros (m & Hm & Hb)%bind_Some. destruct (bool_decide_reflect (m = "")) as [|Hne]; [done|].
    apply bind_Some in Hb as (front & Hb & (session' & Hs & [= -> ->])%bind_Some).
    assert (slashless member) as Hsl by by eapply Forall_forall; [apply segments_slashless|apply last_Some_elem_of].
    pose proof (session_suffix name ["team"; "members"; member] session) as [Hspec _]; [done|by apply Hf|].
    destruct Hspec as (-> & Hok & Hl); [apply bind_Some; by eexists|]. split_and!; [|done..].
    done.
  - intros (Hn & Hne & Hsl & Hok & Hl).
    pose proof (session_suffix name ["team"; "members"; member] session) as [_ Hspec]; [done|by apply Hf|].
    destruct (proj1 (bind_Some _ _ _) (Hspec (conj Hn (conj Hok Hl)))) as (front & Hb & Hs).
    apply bind_Some. exists member. split.
    + apply before_segments_spec in Hb as (fs & _ & -> & _). by rewrite last_app_cons.
    + rewrite bool_decide_eq_false_2 by done. apply bind_Some. exists front. split; [done|].
      apply bind_Some. by exists session.
Qed.

Lemma session_segments session rest :
  session_ok session →
  segments (sessionResourceName session +:+ "/" +:+ rest) =
  ["templates"; session.1; "sessions"; session.2] ++ segments rest.
Proof.
  destruct session as [t x]. intros (Hk & _ & Hx). apply known_slashless in Hk. simpl in *.
  transitivity (segments ("templates" +:+ "/" +:+ (t +:+ "/" +:+ ("sessions" +:+ "/" +:+ (x +:+ "/" +:+ rest))))).
  { unfold sessionResourceName. simpl. by rewrite !str_app_assoc. }
  by rewrite !segments_app by done.
Qed.

(** The names of the team's resources.  A name is taken for a team's or a
    member's exactly when it is the one built from a session of a known template
    (and a member), and it then gives that session (and member) back; no name is
    both. *)
Theorem team_names session member :
  session_ok session → has_line_terminator session.2 = false → member ≠ "" → slashless member →
  parseTeamResource (sessionResourceName session +:+ "/team") = Some session ∧
  parseTeamMemberResource (sessionResourceName session +:+ "/team/members/" +:+ member) = Some (session, member) ∧
  (∀ name, parseTeamResource name = Some session → name = sessionResourceName session +:+ "/team") ∧
  (∀ name, parseTeamMemberResource name = Some (session, member) →
     name = sessionResourceName session +:+ "/team/members/" +:+ member ∧ parseTeamResource name = None).
Proof.
  intros Hok Hl Hne Hsl. split_and!.
  - by apply parseTeamResource_spec.
  - by apply parseTeamMemberResource_spec.
  - by intros name (-> & _)%parseTeamResource_spec.
  - intros name (-> & _)%parseTeamMemberResource_spec. split; [done|].
    destruct (parseTeamResource _) as [session'|] eqn:E; [|done].
    apply parseTeamResource_spec in E as (E & Hok' & _). apply (f_equal segments) in E.
    change ("/team/members/" +:+ member) with ("/" +:+ "team/members/" +:+ member) in E.
    change ("/team") with ("/" +:+ "team") in E. rewrite !session_segments in E by done.
    apply (f_equal length) in E. rewrite !length_app in E.
    change ("team/members/" +:+ member) with ("team" +:+ "/" +:+ "members" +:+ "/" +:+ member) in E.
    rewrite !segments_app in E by done. simpl in E. rewrite Hsl in E. simpl in E. lia.
Qed.

Lemma team_names_witness :
  parseTeamMemberResource "templates/saolei/sessions/s1/team/members/player" = Some (("saolei", "s1"), "player").
Proof. by apply (team_names ("saolei", "s1") "player"). Defined.

(** Timestamps.  From the epoch on, a time in milliseconds becomes the
    timestamp of the same instant, with nanoseconds in range; before the epoch the
    nanoseconds are negative, and the instant another one. *)
Theorem timestamp_bounds ms :
  (0 ≤ ms → 0 ≤ nanos (dateToTimestamp ms) < 1000000000 ∧
            1000000000 * seconds (dateToTimestamp ms) + nanos (dateToTimestamp ms) = 1000000 * ms) ∧
  (ms < 0 → ms `mod` 1000 ≠ 0 →
     nanos (dateToTimestamp ms) < 0 ∧
     1000000000 * seconds (dateToTimestamp ms) + nanos (dateToTimestamp ms) = 1000000 * ms - 1000000000).
Proof.
  unfold dateToTimestamp. simpl. split.
  - intros H. rewrite Z.rem_mod_nonneg by lia. pose proof (Z.mod_pos_bound ms 1000). pose proof (Z.div_mod ms 1000). lia.
  - intros H Hm. pose proof (Z.mod_pos_bound ms 1000 ltac:(lia)) as Hb. pose proof (Z.div_mod ms 1000 ltac:(lia)) as Hdm.
    assert (Z.rem ms 1000 = ms `mod` 1000 - 1000) as ->; [|lia].
    pose proof (Z.quot_rem' ms 1000) as Hq. pose proof (Z.rem_bound_pos_neg ms 1000 ltac:(lia) ltac:(lia)) as Hr.
    destruct (decide (Z.rem ms 1000 = 0)) as [Hz|Hz]; [|clear -Hb Hdm Hq Hr Hz; set (r := Z.rem ms 1000) in *; lia].
    destruct Hm. rewrite Hq, Hz, Z.add_0_r, Z.mul_comm. apply Z.mod_mul. lia.
Qed.
