(* ===== verification/PresetServer.v ===== *)
(** * The preset face of the server (server.ts)

    [buildPresetHandlers] of [projects/game/agent_v2/src/server.ts], over the
    preset-authoring service ([Presets.v]): every handler validates its request,
    calls the service and answers with a resource or a gRPC error.  The list is
    paged in memory by the last id returned; [ServerNames.v] holds the names. *)

From stdpp Require Import strings gmap sorting.
From S2P Require Import Prelude JsText JsJson SessionConfig Presets ServerNames.

#[local] Open Scope Z_scope.

(** ** The wire *)

Record Preset : Type := mkPreset {
  p_name : string;
  p_role : option string;
  p_persona : string;
  p_createTime : Timestamp;
  p_updateTime : Timestamp;
}.

Definition presetToProto (template : string) (view : PresetRecord) : Preset :=
  mkPreset (presetResourceName template (pr_id view)) (pr_role view) (pr_persona view)
    (dateToTimestamp (pr_createTime view)) (dateToTimestamp (pr_updateTime view)).

Record CreatePresetRequest : Type := mkCreateRequest {
  cr_parent : option string;
  cr_presetId : option string;
  cr_role : option string;
  cr_persona : option string;
}.

Record ListPresetsRequest : Type := mkListRequest {
  lr_parent : option string;
  lr_role : option string;
  lr_pageSize : option Z;
  lr_pageToken : option string;
}.

(** [up_mask] is [updateMask?.paths]. *)
Record UpdatePresetRequest : Type := mkUpdateRequest {
  up_name : option string;
  up_persona : option string;
  up_mask : option (list string);
}.

Record ListPresetsResponse : Type := mkListResponse { ls_presets : list Preset; ls_nextPageToken : string }.

(** ** Pages *)

Definition DEFAULT_PAGE_SIZE : Z := 100.
Definition MAX_PAGE_SIZE : Z := 1000.

Definition page_size (pageSize : option Z) : Z :=
  if default 0 pageSize <=? 0 then DEFAULT_PAGE_SIZE else Z.min (default 0 pageSize) MAX_PAGE_SIZE.

(** [a.id <= b.id] *)
Definition id_le (a b : PresetRecord) : Prop := jR (js (pr_id a)) (js (pr_id b)).

#[export] Instance id_le_dec : RelDecision id_le.
Proof. intros a b. unfold id_le. apply _. Defined.

Definition sort_views (views : list PresetRecord) : list PresetRecord := merge_sort id_le views.

(** [view.id > tokenId] *)
Definition beyond (tokenId : string) (view : PresetRecord) : bool := negb (jle (js (pr_id view)) (js tokenId)).

(** [sorted.findIndex(p)], the length when there is none, and what follows. *)
Fixpoint drop_until {A} (p : A → bool) (l : list A) : list A :=
  match l with
  | [] => []
  | a :: l' => if p a then l else drop_until p l'
  end.

Definition token_id (pageToken : option string) : string :=
  match pageToken with Some token => default "" (last (segments token)) | None => "" end.

(** The views of a page, and whether others follow. *)
Definition page_views (views : list PresetRecord) (tokenId : string) (size : Z) : list PresetRecord * bool :=
  let sorted := sort_views views in
  let page := if bool_decide (tokenId = "") then sorted else drop_until (beyond tokenId) sorted in
  let hasMore := size <? Z.of_nat (length page) in
  (if hasMore then take (Z.to_nat size) page else page, hasMore).

Definition list_page (template : string) (views : list PresetRecord) (pageToken : option string) (pageSize : option Z)
    : ListPresetsResponse :=
  let '(page, hasMore) := page_views views (token_id pageToken) (page_size pageSize) in
  let presets := presetToProto template <$> page in
  mkListResponse presets (if hasMore then default "" (p_name <$> last presets) else "").

(** ** The model catalog *)

Record ModelCatalogEntry : Type := mkModel { model_id : string; contextWindow : Z }.

(** One provider's models with the windows its resolution gives them; a resolution
    that fails gives none. *)
Definition providerModelCatalog (listed : Failure + list string) (resolved : string → option Z)
    : Failure + list ModelCatalogEntry :=
  match listed with
  | inl e => inl e
  | inr models => inr ((λ id, mkModel id (default 0 (resolved id))) <$> models)
  end.

(** The union of the providers' catalogs; [settled] lists the providers in the
    order their listings settle, the first to fail rejects the union. *)
Definition listModelCatalog (providers : list string) (listModels : string → Failure + list ModelCatalogEntry)
    (settled : list string) : Failure + list ModelCatalogEntry :=
  match omap (λ p, match listModels p with inl e => Some e | inr _ => None end) settled with
  | e :: _ => inl e
  | [] =>
      inr (providers ≫= λ p, match listModels p with
                             | inr models => (λ m, mkModel (p +:+ "/" +:+ model_id m) (contextWindow m)) <$> models
                             | inl _ => []
                             end)
  end.

Definition ListModels providers listModels settled : ServiceError + list ModelCatalogEntry :=
  match listModelCatalog providers listModels settled with
  | inl e => inl (toServiceError e)
  | inr models => inr models
  end.

(** ** The handlers *)

Section Handlers.
Context {V W : Type} (string_value : string → V) `{PresetStore W} `{AgentPresetsSeam (V:=V) W}
  (templates : gmap string (TemplateDeclaration (V:=V))).

Definition Handler (A : Type) : Type := Call (Engine (W:=W)) ServiceError A.

(** The handler's rejection of a service error. *)
Definition answer {A} (m : Op (W:=W) A) : Handler A := catch m (λ e, raise (toServiceError (PresetFailure e))).

Definition reject {A} (message : string) : Handler A := raise (mkServiceError StatusInvalidArgument message).

Definition parent_message (parent : string) : string :=
  "parent must be a template resource name (" +:+ quote "templates/{template}" +:+ "), got " +:+ quote parent.

Definition preset_name_message (field name : string) : string :=
  field +:+ " must be a preset resource name (" +:+ quote "templates/{template}/presets/{preset}" +:+ "), got " +:+ quote name.

Definition contains_slash (s : string) : bool := bool_decide (segments s ≠ [s]).

Definition CreatePreset (now : Z) (request : CreatePresetRequest) : Handler Preset :=
  let parent := default "" (cr_parent request) in
  match parseTemplateParent parent with
  | None => reject (parent_message parent)
  | Some template =>
  match scenePresetRoles template with
  | None => reject (noPresetVocabularyMessage template)
  | Some presetRoles =>
      let presetId := default "" (cr_presetId request) in
      if bool_decide (presetId = "") || contains_slash presetId then
        reject ("preset_id must be non-empty and free of " +:+ quote "/" +:+ " (AIP-133 caller-supplied id), got "
          +:+ quote presetId)
      else
      let role := default "" (cr_role request) in
      if negb (bool_decide (role ∈ presetRoles)) then
        reject ("role is required and must be a known " +:+ template +:+ " scene role ("
          +:+ quotedRoleList presetRoles +:+ "), got " +:+ quote role)
      else
        view ← answer (create string_value templates now
          (mkCreate presetId (default "" (rolePoolTemplate template role)) (Some role)
             (default "" (cr_persona request)) None));
        mret (presetToProto template view)
  end end.

(** [numeric_code] is the number in the [code] property of an error of the store's
    driver, which reaches the handler unmapped. *)
Definition ListPresets (numeric_code : string → option Z) (request : ListPresetsRequest)
    : Handler ListPresetsResponse :=
  let parent := default "" (lr_parent request) in
  match parseTemplateParent parent with
  | None => reject (parent_message parent)
  | Some template =>
  match scenePresetRoles template with
  | None => reject (noPresetVocabularyMessage template)
  | Some presetRoles =>
      let roleValue := default "" (lr_role request) in
      if bool_decide (roleValue ≠ "") && negb (bool_decide (roleValue ∈ presetRoles)) then
        reject ("role filter must be a known " +:+ template +:+ " scene role ("
          +:+ quotedRoleList presetRoles +:+ "), got " +:+ quote roleValue)
      else
        let roleFilter := if bool_decide (roleValue = "") then None else Some roleValue in
        views ← catch (list_presets roleFilter) (λ e,
          raise (toServiceError (match e with
                                 | PresetStoreError _ message => ErrorFailure None message
                                 | OtherThrown message => ErrorFailure (numeric_code message) message
                                 end)));
        mret (list_page template views (lr_pageToken request) (lr_pageSize request))
  end end.

(** The entry of the handlers that name a preset. *)
Definition named_preset {A} (field : string) (name : string) (f : string → string → Handler A) : Handler A :=
  match parsePresetResource name with
  | None => reject (preset_name_message field name)
  | Some (template, preset) =>
      match scenePresetRoles template with
      | None => reject (noPresetVocabularyMessage template)
      | Some _ => f template preset
      end
  end.

Definition GetPreset (name : option string) : Handler Preset :=
  named_preset "name" (default "" name) (λ template preset,
    view ← answer (get preset); mret (presetToProto template view)).

Definition UpdatePreset (now : Z) (request : UpdatePresetRequest) : Handler Preset :=
  named_preset "preset.name" (default "" (up_name request)) (λ template preset,
    if bool_decide (up_mask request = Some []) then
      reject ("update_mask must be omitted or carry the " +:+ quote "persona" +:+ " path")
    else if existsb (λ path, negb (bool_decide (path = "persona"))) (default [] (up_mask request)) then
      reject ("update_mask paths must be " +:+ quote "persona" +:+ ", got [" +:+ join ", " (default [] (up_mask request))
        +:+ "]")
    else
      view ← answer (update string_value templates now preset (Some (default "" (up_persona request))) None);
      mret (presetToProto template view)).

Definition DeletePreset (name : option string) : Handler unit :=
  named_preset "name" (default "" name) (λ _ preset, answer (remove preset)).

End Handlers.
