(* ===== verification/PresetServerFacts.v ===== *)
(** * The preset face is correct

    Reading every page of a list returns each preset once, whatever happens to the
    roster between the pages; a preset created through the face reads back; the
    catalog that is listed is the one a materialization accepts. *)

From stdpp Require Import strings gmap sorting.
From S2P Require Import Prelude JsText JsJson SessionConfig SessionChecks Presets PresetStores PresetsFacts.
From S2P Require Import ServerNames PresetServer.

#[local] Open Scope Z_scope.

(** ** The order of ids *)

#[export] Instance js_inj : Inj (=) (=) js.
Proof.
  intros a b E. unfold js in E. rewrite <- (String.string_of_list_ascii_of_string a), <- (String.string_of_list_ascii_of_string b).
  f_equal. revert E. apply list_fmap_eq_inj. intros x y Hxy%Nat2Z.inj. rewrite <- (Ascii.ascii_nat_embedding x), Hxy.
  apply Ascii.ascii_nat_embedding.
Qed.

Definition id_lt (a b : string) : Prop := jle (js b) (js a) = false.

Lemma id_lt_irrefl a : ¬ id_lt a a.
Proof. unfold id_lt. by rewrite jle_refl. Qed.

Lemma id_lt_le a b : id_lt a b → jle (js a) (js b) = true.
Proof. unfold id_lt. intros Hlt. destruct (jle_total (js a) (js b)); congruence. Qed.

#[export] Instance id_lt_trans : Transitive id_lt.
Proof.
  intros a b c Hab Hbc. unfold id_lt in *. destruct (jle (js c) (js a)) eqn:E; [|done].
  rewrite <- Hbc. symmetry. eapply jle_trans; [exact E|by apply id_lt_le].
Qed.

Lemma id_le_lt a b : jle (js a) (js b) = true → a ≠ b → id_lt a b.
Proof.
  intros Hle Hne. unfold id_lt. destruct (jle (js b) (js a)) eqn:E; [|done].
  destruct Hne. apply (inj js). by apply jle_antisym.
Qed.

Lemma beyond_spec t r : beyond t r = true ↔ id_lt t (pr_id r).
Proof. unfold beyond, id_lt. by rewrite negb_true_iff. Qed.

Lemma nonempty_beyond r : pr_id r ≠ "" → beyond "" r = true.
Proof. intros Hr. apply beyond_spec. by destruct (pr_id r). Qed.

(** ** A roster in order *)

(** The ids of a store: one record each, and names of one segment. *)
Definition roster_ok (views : list PresetRecord) : Prop :=
  NoDup (map pr_id views) ∧ Forall (λ r, pr_id r ≠ "" ∧ slashless (pr_id r)) views.

Definition ascending (l : list PresetRecord) : Prop := StronglySorted (λ a b, id_lt (pr_id a) (pr_id b)) l.

#[export] Instance id_le_total : Total id_le.
Proof. intros a b. apply jle_total. Qed.
#[export] Instance id_le_trans : Transitive id_le.
Proof. intros a b c. apply jle_trans. Qed.

Lemma sort_views_perm views : sort_views views ≡ₚ views.
Proof. apply merge_sort_Permutation. Qed.

Lemma sorted_strict l : NoDup (map pr_id l) → StronglySorted id_le l → ascending l.
Proof.
  intros Hnd Hs. induction Hs as [|r l Hs IH Hr]; [by constructor|]. simpl in Hnd.
  apply NoDup_cons in Hnd as [Hn Hnd]. constructor; [by apply IH|].
  rewrite Forall_forall in Hr |- *. intros x Hx. apply id_le_lt; [by apply Hr|]. intros E. destruct Hn. rewrite E.
  by apply list_elem_of_fmap_2.
Qed.

Lemma sort_views_ascending views : roster_ok views → ascending (sort_views views).
Proof.
  intros [Hnd _]. apply sorted_strict; [|apply StronglySorted_merge_sort; apply _].
  unfold sort_views. by rewrite (Permutation_map pr_id (merge_sort_Permutation id_le views)).
Qed.

Lemma ascending_app l1 l2 :
  ascending (l1 ++ l2) ↔
  ascending l1 ∧ ascending l2 ∧ ∀ a b, a ∈ l1 → b ∈ l2 → id_lt (pr_id a) (pr_id b).
Proof.
  unfold ascending. induction l1 as [|x l1 IH]; simpl.
  - split; [intros Hs; split_and!; [constructor|done|]|by intros (_ & ? & _)]. intros a b Ha. by apply elem_of_nil in Ha.
  - split.
    + inversion 1 as [|?? Hs Hx]; subst. apply IH in Hs as (H1 & H2 & H3). rewrite Forall_app in Hx. destruct Hx as [Hx1 Hx2].
      split_and!; [by constructor|done|]. intros a b [->|Ha]%elem_of_cons Hb; [|by apply H3].
      rewrite Forall_forall in Hx2. by apply Hx2.
    + intros (H1 & H2 & H3). inversion H1 as [|?? Hs Hx]; subst. constructor.
      * apply IH. split_and!; [done..|]. intros a b Ha. apply H3. by apply elem_of_cons; right.
      * apply Forall_app. split; [done|]. apply Forall_forall. intros b Hb. apply H3; [by left|done].
Qed.

Lemma ascending_filter p l : ascending l → ascending (List.filter p l).
Proof.
  unfold ascending. induction 1 as [|r l Hs IH Hr]; simpl; [constructor|]. destruct (p r); [|done].
  constructor; [done|]. rewrite Forall_forall in Hr |- *. intros x Hx. apply Hr.
  apply list_elem_of_In in Hx. apply List.filter_In in Hx as [Hx _]. by apply list_elem_of_In.
Qed.

(** In order, dropping up to the first beyond is keeping those beyond. *)
Lemma drop_until_beyond t l : ascending l → drop_until (beyond t) l = List.filter (beyond t) l.
Proof.
  induction 1 as [|r l Hs IH Hr]; [done|]. simpl. destruct (beyond t r) eqn:E; [|done]. f_equal.
  symmetry. apply beyond_spec in E. apply forallb_filter_id, List.forallb_forall. intros x Hx%list_elem_of_In.
  apply beyond_spec. rewrite Forall_forall in Hr. by etrans; [|apply Hr].
Qed.

(** ** One page *)

(** What is left of a roster after a token. *)
Definition left_after (views : list PresetRecord) (tokenId : string) : list PresetRecord :=
  List.filter (beyond tokenId) (sort_views views).

Lemma elem_of_left views t r : r ∈ left_after views t ↔ r ∈ views ∧ id_lt t (pr_id r).
Proof.
  unfold left_after. rewrite list_elem_of_In, List.filter_In, <- list_elem_of_In, beyond_spec, sort_views_perm. done.
Qed.

Lemma left_ascending views t : roster_ok views → ascending (left_after views t).
Proof. intros Hv. by apply ascending_filter, sort_views_ascending. Qed.

Lemma left_all views : roster_ok views → left_after views "" = sort_views views.
Proof.
  intros [_ Hv]. apply forallb_filter_id, List.forallb_forall. intros x Hx%list_elem_of_In.
  apply nonempty_beyond. rewrite sort_views_perm in Hx. rewrite Forall_forall in Hv. by apply Hv.
Qed.

Lemma page_views_left views t size :
  roster_ok views →
  page_views views t size =
  (if size <? Z.of_nat (length (left_after views t)) then (take (Z.to_nat size) (left_after views t), true)
   else (left_after views t, false)).
Proof.
  intros Hv. unfold page_views.
  assert ((if bool_decide (t = "") then sort_views views else drop_until (beyond t) (sort_views views)) =
          left_after views t) as ->.
  { case_bool_decide as Et; [by rewrite Et, left_all|]. by apply drop_until_beyond, sort_views_ascending. }
  by destruct (_ <? _).
Qed.

Lemma ascending_NoDup l : ascending l → NoDup (map pr_id l).
Proof.
  induction 1 as [|r l Hs IH Hr]; simpl; constructor; [|done]. intros (x & E & Hx)%list_elem_of_fmap_1.
  rewrite Forall_forall in Hr. specialize (Hr x Hx). rewrite E in Hr. by apply id_lt_irrefl in Hr.
Qed.

Lemma ascending_ext l1 l2 : ascending l1 → ascending l2 → (∀ r, r ∈ l1 ↔ r ∈ l2) → l1 = l2.
Proof.
  intros H1 H2 Hx. apply (StronglySorted_unique_strong (λ a b, id_lt (pr_id a) (pr_id b))); [|done..|].
  - intros a b _ _ Hab Hba. by destruct (id_lt_irrefl (pr_id a)); etrans.
  - apply NoDup_Permutation; [by eapply NoDup_fmap_1, ascending_NoDup..|done].
Qed.

(** What is left after the last preset of a page is what the page left out. *)
Lemma left_after_last views t l1 x l2 :
  roster_ok views → left_after views t = l1 ++ x :: l2 → left_after views (pr_id x) = l2.
Proof.
  intros Hv E. pose proof (left_ascending views t Hv) as Ha. rewrite E in Ha.
  apply ascending_app in Ha as (_ & H2 & H12). inversion H2 as [|?? Hs Hx]; subst. rewrite Forall_forall in Hx.
  assert (id_lt t (pr_id x)) as Ht by (apply (elem_of_left views); rewrite E, elem_of_app; right; by left).
  apply ascending_ext; [by apply left_ascending|done|]. intros r. rewrite elem_of_left. split.
  - intros [Hr Hlt]. assert (r ∈ left_after views t) as Hl by (apply elem_of_left; split; [done|by etrans]).
    rewrite E in Hl. apply elem_of_app in Hl as [Hl|[->|Hl]%elem_of_cons]; [|by apply id_lt_irrefl in Hlt|done].
    destruct (id_lt_irrefl (pr_id r)). etrans; [|exact Hlt]. apply H12; [done|by left].
  - intros Hr. split; [|by apply Hx].
    apply (elem_of_left views t). rewrite E. apply elem_of_app. right. by right.
Qed.

(** ** Every page *)

(** A client that follows the tokens; every request finds a roster of its own, and
    asks for a size of its own.  The flag tells whether the list was read to its end. *)
Fixpoint read_all (template : string) (requests : list (list PresetRecord * option Z)) (pageToken : string)
    : list Preset * bool :=
  match requests with
  | [] => ([], false)
  | (views, pageSize) :: requests =>
      let response := list_page template views (Some pageToken) pageSize in
      if bool_decide (ls_nextPageToken response = "") then (ls_presets response, true)
      else let '(presets, finished) := read_all template requests (ls_nextPageToken response) in
           (ls_presets response ++ presets, finished)
  end.

(** The same on the records. *)
Fixpoint walk (requests : list (list PresetRecord * option Z)) (tokenId : string) : list PresetRecord * bool :=
  match requests with
  | [] => ([], false)
  | (views, pageSize) :: requests =>
      let '(page, hasMore) := page_views views tokenId (page_size pageSize) in
      if hasMore then
        let '(views, finished) := walk requests (default "" (pr_id <$> last page)) in (page ++ views, finished)
      else (page, true)
  end.

Lemma page_size_pos pageSize : 0 < page_size pageSize ≤ MAX_PAGE_SIZE.
Proof. unfold page_size, DEFAULT_PAGE_SIZE, MAX_PAGE_SIZE. destruct (Z.leb_spec (default 0 pageSize) 0); lia. Qed.

Lemma token_of_name template id : slashless template → slashless id → token_id (Some (presetResourceName template id)) = id.
Proof.
  intros Ht Hid. unfold token_id, presetResourceName.
  rewrite (proj2 (four_segments "presets" _ template id eq_refl)) by done. done.
Qed.

(** A full page has a last preset, and what follows it is left. *)
Lemma page_cut views t size :
  roster_ok views → 0 < size → size < Z.of_nat (length (left_after views t)) →
  ∃ l1 x l2, left_after views t = l1 ++ x :: l2 ∧ take (Z.to_nat size) (left_after views t) = l1 ++ [x] ∧
    left_after views (pr_id x) = l2 ∧ l2 ≠ [] ∧ (length l2 < length (left_after views t))%nat.
Proof.
  intros Hv Hs Hlt. pose proof (take_drop (Z.to_nat size) (left_after views t)) as E.
  set (p := take _ _) in *. set (rest := drop _ _) in *.
  assert (length p = Z.to_nat size) as Hp by (unfold p; rewrite length_take; lia).
  destruct p as [|x l1 _] using rev_ind; [simpl in Hp; lia|]. exists l1, x, rest.
  rewrite <- app_assoc in E. simpl in E. split_and!; [done|done|by apply (left_after_last views t l1)| |].
  - intros Hr. rewrite <- E, Hr, length_app in Hlt. rewrite length_app in Hp. simpl in Hlt, Hp. lia.
  - rewrite <- E, length_app. simpl. lia.
Qed.

Definition rosters_ok (requests : list (list PresetRecord * option Z)) : Prop := Forall (λ q, roster_ok q.1) requests.

(** What a walk returns is in order, comes from the rosters, and when it is
    finished misses no id that was there throughout. *)
Lemma walk_spec requests t :
  rosters_ok requests →
  let '(l, finished) := walk requests t in
  ascending l ∧ (∀ r, r ∈ l → id_lt t (pr_id r) ∧ ∃ q, q ∈ requests ∧ r ∈ q.1) ∧
  (finished = true → ∀ id, id_lt t id → (∀ q, q ∈ requests → id ∈ map pr_id q.1) → id ∈ map pr_id l).
Proof.
  intros Hok. revert t. induction Hok as [|[views pageSize] requests Hv Hok IH]; intros t; cbn [walk].
  { split_and!; [constructor| |done]. intros r Hr. by apply elem_of_nil in Hr. }
  simpl in Hv. rewrite page_views_left by done. pose proof (page_size_pos pageSize) as Hsize.
  assert (∀ id, id_lt t id → id ∈ map pr_id views → id ∈ map pr_id (left_after views t)) as Hleft.
  { intros id Ht (r & -> & Hr)%list_elem_of_fmap_1. by apply list_elem_of_fmap_2, elem_of_left. }
  destruct (Z.ltb_spec (page_size pageSize) (Z.of_nat (length (left_after views t)))) as [Hlt|Hge].
  - destruct (page_cut views t (page_size pageSize) Hv) as (l1 & x & l2 & E & Hp & El2 & _); [lia..|].
    rewrite Hp, last_snoc. simpl. specialize (IH (pr_id x)). destruct (walk requests (pr_id x)) as [l finished].
    destruct IH as (IH1 & IH2 & IH3). pose proof (left_ascending views t Hv) as Ha. rewrite E in Ha.
    change (x :: l2) with ([x] ++ l2) in Ha. rewrite app_assoc in Ha. apply ascending_app in Ha as (Ha1 & _ & Ha3).
    assert (∀ r, r ∈ l1 ++ [x] → r ∈ left_after views t) as Hin.
    { intros r. rewrite E, !elem_of_app, list_elem_of_singleton, elem_of_cons. tauto. }
    assert (∀ r, r ∈ l1 ++ [x] → pr_id r = pr_id x ∨ id_lt (pr_id r) (pr_id x)) as Hlast.
    { intros r [Hr| ->%list_elem_of_singleton]%elem_of_app; [|by left]. right.
      apply ascending_app in Ha1 as (_ & _ & Ha1). apply Ha1; [done|by left]. }
    split_and!.
    + apply ascending_app. split_and!; [done..|]. intros a b Haa Hb. destruct (IH2 b Hb) as [Hxb _].
      destruct (Hlast a Haa) as [->|]; [done|by etrans].
    + intros r [Hr|Hr]%elem_of_app.
      * apply Hin, elem_of_left in Hr as [Hr Ht]. split; [done|]. eexists. split; [by left|done].
      * destruct (IH2 r Hr) as [Hxr (q & Hq & Hrq)]. split; [|exists q; split; [by right|done]].
        etrans; [|done]. apply (elem_of_left views t x), Hin, elem_of_app. right. by left.
    + intros Hfin id Ht Hid. rewrite map_app, elem_of_app.
      pose proof (Hleft id Ht (Hid _ (list_elem_of_here _ _))) as Hl. rewrite E in Hl.
      change (x :: l2) with ([x] ++ l2) in Hl. rewrite app_assoc, map_app in Hl.
      apply elem_of_app in Hl as [Hl|Hl]; [by left|right]. apply IH3; [done| |by intros q Hq; apply Hid; right].
      apply list_elem_of_fmap_1 in Hl as (r & -> & Hr). rewrite <- El2 in Hr. by apply elem_of_left in Hr as [_ Hr].
  - split_and!; [by apply left_ascending| |].
    + intros r [Hr Ht]%elem_of_left. split; [done|]. eexists. split; [by left|done].
    + intros _ id Ht Hid. apply Hleft; [done|]. apply (Hid _ (list_elem_of_here _ _)).
Qed.

(** On a roster that does not change, as many requests as presets and one more read
    what is left of it. *)
Lemma walk_fixed views requests t :
  roster_ok views → Forall (λ q, q.1 = views) requests → (length (left_after views t) < length requests)%nat →
  walk requests t = (left_after views t, true).
Proof.
  intros Hv Hf. revert t. induction Hf as [|[views' pageSize] requests Hq Hf IH]; intros t Hlen; [by apply Nat.nlt_0_r in Hlen|].
  cbn [walk length fst] in *. rewrite Hq, page_views_left by done. pose proof (page_size_pos pageSize) as Hsize.
  destruct (Z.ltb_spec (page_size pageSize) (Z.of_nat (length (left_after views t)))) as [Hlt|Hge]; [|done].
  destruct (page_cut views t (page_size pageSize) Hv) as (l1 & x & l2 & E & Hp & El2 & _ & Hl); [lia..|].
  rewrite Hp, last_snoc. simpl. rewrite IH by (rewrite El2; lia). by rewrite El2, E, <- app_assoc.
Qed.

Lemma read_all_walk template requests token :
  slashless template → rosters_ok requests →
  read_all template requests token =
  (presetToProto template <$> (walk requests (token_id (Some token))).1, (walk requests (token_id (Some token))).2).
Proof.
  intros Ht Hok. revert token. induction Hok as [|[views pageSize] requests Hv Hok IH]; intros token; [done|].
  cbn [read_all walk]. unfold list_page. simpl in Hv. rewrite page_views_left by done.
  pose proof (page_size_pos pageSize) as Hsize. set (t := token_id (Some token)).
  destruct (Z.ltb_spec (page_size pageSize) (Z.of_nat (length (left_after views t)))) as [Hlt|Hge]; [|done].
  destruct (page_cut views t (page_size pageSize) Hv) as (l1 & x & l2 & E & Hp & _); [lia..|].
  rewrite Hp. rewrite fmap_app. simpl. rewrite !last_snoc. simpl.
  assert (slashless (pr_id x)) as Hx.
  { destruct Hv as [_ Hv]. rewrite Forall_forall in Hv. apply Hv, (elem_of_left views t). rewrite E, elem_of_app. right. by left. }
  rewrite IH, token_of_name by done. destruct (walk requests (pr_id x)) as [l finished]. simpl. by rewrite !fmap_app.
Qed.

#[export] Instance presetResourceName_inj template : Inj (=) (=) (presetResourceName template).
Proof. intros a b. unfold presetResourceName. intros E.
  apply (inj (String.append "templates/")), (inj (String.append template)), (inj (String.append "/presets/")) in E. done.
Qed.

(** C32: Every page, once.  A client that follows the page tokens, with any page
    sizes and whatever is created and deleted between its requests, is given no
    preset twice and only presets of the rosters it met; when it reaches the end it
    has been given every preset that was there throughout.  On a roster that does
    not change it reaches the end in at most one request more than there are
    presets, and has the whole roster in the order of the ids. *)
Theorem pages_cover template requests :
  slashless template → rosters_ok requests →
  let '(presets, finished) := read_all template requests "" in
  NoDup (map p_name presets) ∧
  (∀ p, p ∈ presets → ∃ q r, q ∈ requests ∧ r ∈ q.1 ∧ p = presetToProto template r) ∧
  (finished = true → ∀ id, id ≠ "" → (∀ q, q ∈ requests → id ∈ map pr_id q.1) →
     presetResourceName template id ∈ map p_name presets) ∧
  (∀ views, Forall (λ q, q.1 = views) requests → (length views < length requests)%nat →
     finished = true ∧ presets = presetToProto template <$> sort_views views).
Proof.
  intros Ht Hok. rewrite read_all_walk by done. change (token_id (Some "")) with "".
  pose proof (walk_spec requests "" Hok) as Hw. destruct (walk requests "") as [l finished] eqn:E.
  simpl. destruct Hw as (Ha & Hin & Hfin).
  assert (map p_name (presetToProto template <$> l) = presetResourceName template <$> map pr_id l) as Hnames
    by (induction l as [|r l' IHl]; [done|simpl; f_equal]; clear; induction l' as [|r' l' IHl]; [done|simpl; by f_equal]).
  rewrite Hnames. split_and!.
  - apply NoDup_fmap; [apply _|]. by apply ascending_NoDup.
  - intros p (r & -> & Hr)%list_elem_of_fmap_1. destruct (Hin r Hr) as (_ & q & Hq & Hrq). by exists q, r.
  - intros -> id Hne Hid. apply list_elem_of_fmap_2, Hfin; [done| |done].
    unfold id_lt. by destruct id.
  - intros views Hf Hlen. destruct requests as [|q requests]; [simpl in Hlen; lia|].
    assert (roster_ok views) as Hv.
    { inversion Hf as [|?? Hq _]; subst. by inversion Hok. }
    rewrite (walk_fixed views) in E.
    + injection E as <- <-. by rewrite left_all.
    + done.
    + done.
    + rewrite left_all by done. by rewrite sort_views_perm.
Qed.

Definition demo_views : list PresetRecord :=
  [mkRecord "calm" "player" (Some "player") "Play calmly." None 2 2; demo_record].
Definition demo_requests : list (list PresetRecord * option Z) :=
  [(demo_views, Some 1); (demo_views, Some 1); (demo_views, None)].

Lemma demo_rosters_ok : rosters_ok demo_requests.
Proof.
  assert (roster_ok demo_views) as Hd.
  { split; [apply (bool_decide_unpack _); by vm_compute|by repeat constructor]. }
  by repeat (apply Forall_cons; split; [done|]); apply Forall_nil.
Qed.

Lemma pages_cover_witness :
  slashless "saolei" ∧ NoDup (map p_name (read_all "saolei" demo_requests "").1).
Proof.
  split; [done|]. pose proof (pages_cover "saolei" demo_requests eq_refl demo_rosters_ok) as Hp.
  destruct (read_all "saolei" demo_requests "") as [presets finished]. exact (proj1 Hp).
Defined.

(** ** Creating through the face *)

Section Face.
Context {V W : Type} (string_value : string → V) `{LawfulPresetStore W} `{!AgentPresetsSeam (V:=V) W}
  `{!RegistryView V W} `{!LawfulRegistry V W} (templates : gmap string (TemplateDeclaration (V:=V))).

Lemma handler_answer {A} (m : Op (W:=W) A) g a g' : answer m g = (inr a, g') → m g = (inr a, g').
Proof. unfold answer, catch, raise. destruct (m g) as [[e|a'] g'']; [done|congruence]. Qed.

Lemma elem_of_roles template roles role :
  known template = true → scenePresetRoles template = Some roles → role ∈ roles →
  is_Some (rolePoolTemplate template role).
Proof.
  intros [-> | ->]%known_spec [= <-] Hr; rewrite !elem_of_cons, elem_of_nil in Hr.
  - destruct Hr as [->|[->|[]]]; by eexists.
  - destruct Hr as [->|[]]; by eexists.
Qed.

Lemma parseTemplateParent_spec parent template :
  parseTemplateParent parent = Some template → parent = "templates/" +:+ template ∧ known template = true.
Proof.
  unfold parseTemplateParent. destruct (segments parent) as [|a [|t [|]]] eqn:Hs; try done.
  destruct (bool_decide _ && _ && _) eqn:Hb; [|done]. intros [= ->].
  rewrite !andb_true_iff, !bool_decide_eq_true in Hb. destruct Hb as [[-> ?] ?]. split; [|done].
  by rewrite <- (join_segments parent), Hs.
Qed.

(** C33: What is created reads back.  A creation the face accepts names a preset of a
    known template, free of slashes; it stores, under the role's pool template, a
    record with the role and the persona asked for, answers with that record, and
    reading the name it answered gives the same preset, unless the store fails. *)
Theorem created_preset_reads_back now request g p g' :
  in_step string_value templates g →
  CreatePreset string_value templates now request g = (inr p, g') →
  ∃ template roles id role pool,
    default "" (cr_parent request) = "templates/" +:+ template ∧ scenePresetRoles template = Some roles ∧
    default "" (cr_presetId request) = id ∧ session_ok (template, id) ∧
    default "" (cr_role request) = role ∧ role ∈ roles ∧ rolePoolTemplate template role = Some pool ∧
    let record := mkRecord id pool (Some role) (default "" (cr_persona request)) None now now in
    stored (world g') !! id = Some record ∧ p = presetToProto template record ∧
    ((GetPreset (Some (p_name p)) g').1 = inr p ∨
     ∃ message, (GetPreset (Some (p_name p)) g').1 = inl (mkServiceError StatusInternal message)).
Proof.
  intros I. unfold CreatePreset. destruct (parseTemplateParent _) as [template|] eqn:Ep; [|done].
  destruct (parseTemplateParent_spec _ _ Ep) as [Hparent Hk].
  destruct (scenePresetRoles template) as [roles|] eqn:Er; [|done].
  destruct (bool_decide _ || _) eqn:Eid; [done|]. apply orb_false_iff in Eid as [Hne%bool_decide_eq_false Hs].
  unfold contains_slash in Hs. apply bool_decide_eq_false, dec_stable in Hs.
  destruct (bool_decide_reflect (default "" (cr_role request) ∈ roles)) as [Hrole|]; [|done].
  destruct (elem_of_roles _ _ _ Hk Er Hrole) as [pool Hpool]. rewrite Hpool. simpl.
  set (id := default "" (cr_presetId request)) in *. set (input := mkCreate _ _ _ _ _).
  unfold mbind, call_bind. destruct (answer _ g) as [[e|r] g1] eqn:Ea; [done|]. intros [= <- <-].
  apply handler_answer in Ea. pose proof (create_triple string_value templates now input g I) as Ht.
  rewrite Ea in Ht. destruct Ht as (I' & Hst & ->). change (ci_id input) with id in Hst.
  exists template, roles, id, (default "" (cr_role request)), pool. split_and!; try done.
  unfold GetPreset, named_preset. cbn [default p_name presetToProto created_record pr_id ci_id input].
  rewrite (proj2 (parsePresetResource_spec _ template id)) by done. rewrite Er.
  unfold mbind, call_bind, answer, catch, get.
  pose proof (proj1 (storeGet_triple id (λ g, in_step string_value templates g ∧ stored (world g) !! id = Some (created_record now input))
       ltac:(intros ? ? [? ?] ? ? Hs'; split; [by apply in_step_same|simpl; by rewrite Hs'])
       ltac:(intros ? [Hi _]; by eapply in_step_wf)) g1 (conj I' Hst)) as Hg.
  pose proof (get_law id (world g1) (in_step_wf _ _ _ I')) as Ha. unfold answers in Ha. rewrite Hst in Ha.
  unfold storeGet, lift in Hg |- *. destruct (store_get id (world g1)) as [x w']. destruct Ha as [_ [[<- _]|[[m ->] _]]].
  - by left.
  - right. by eexists.
Qed.

End Face.

(** ** A deployment *)

Definition demo_engine : Engine (W:=Deployment) := (restore (λ s : string, s) demo_templates (fresh_engine boot)).2.
Definition demo_create : CreatePresetRequest :=
  mkCreateRequest (Some "templates/saolei") (Some "calm") (Some "player") (Some "Play calmly.").

Lemma demo_in_step : in_step (V:=string) (λ s : string, s) demo_templates demo_engine.
Proof.
  apply (restored_in_step (λ s : string, s) demo_templates boot); [|done..].
  repeat constructor. intros Hx. by apply elem_of_nil in Hx.
Qed.

Lemma created_preset_reads_back_witness :
  ∃ p g', CreatePreset (λ s : string, s) demo_templates 5 demo_create demo_engine = (inr p, g') ∧
  (GetPreset (Some (p_name p)) g').1 = inr p.
Proof.
  destruct (CreatePreset (λ s : string, s) demo_templates 5 demo_create demo_engine) as [[e|p] g'] eqn:E;
    [vm_compute in E; discriminate E|].
  exists p, g'. split; [done|].
  destruct (created_preset_reads_back (λ s : string, s) demo_templates 5 demo_create demo_engine p g'
    demo_in_step E) as (template & roles & id & role & pool & _ & _ & _ & _ & _ & _ & _ & Hst & Hp & [Hg|[m Hm]]);
    [exact Hg|].
  exfalso. vm_compute in E. injection E as <- <-. vm_compute in Hm. discriminate Hm.
Defined.

(** A preset is reached, and removed, under the name of another template. *)
Lemma presets_cross_templates :
  p_name <$> match (GetPreset (Some "templates/sts2/presets/bold") demo_engine).1 with inr p => Some p | inl _ => None end
    = Some "templates/sts2/presets/bold" ∧
  (match (ListPresets (λ _, None) (mkListRequest (Some "templates/sts2") None None None) demo_engine).1 with
   | inr response => p_name <$> ls_presets response | inl _ => [] end) = ["templates/sts2/presets/bold"] ∧
  stored (world demo_engine) !! "bold" = Some demo_record ∧
  stored (world (DeletePreset (Some "templates/sts2/presets/bold") demo_engine).2) !! "bold" = None.
Proof. by vm_compute. Qed.

(** The number in an error of the store's driver becomes the status of the list. *)
Lemma driver_code_becomes_status {W} `{PresetStore W} (g : Engine (W:=W)) w code message numeric_code template request :
  parseTemplateParent (default "" (lr_parent request)) = Some template → default "" (lr_role request) = "" →
  store_list (world g) = (inl (OtherThrown message), w) → numeric_code message = Some code →
  (ListPresets numeric_code request g).1 = inl (mkServiceError (NumericStatus code) message).
Proof.
  intros Ht Hr Hs Hc. unfold ListPresets. rewrite Ht, Hr.
  apply parseTemplateParent_spec in Ht as [_ [-> | ->]%known_spec]; simpl;
    unfold mbind, call_bind, catch, list_presets; rewrite Hs; simpl; by rewrite Hc.
Qed.

(** ** The catalog *)

Lemma slashless_cut s : slashless s ↔ cut_slash s = None.
Proof.
  induction s as [|c s IH]; [done|]. rewrite slashless_cons. simpl. case_bool_decide as Ec; [split; [by intros [? _]|done]|].
  rewrite fmap_None, <- IH. tauto.
Qed.

(** What the providers answered: registered under names of one segment, with models
    that have ids; a materialization is given the same catalogs. *)
Record catalog_ok (providers : list string) (listModels : string → Failure + list ModelCatalogEntry)
    (a : Answers) (role : string) : Prop := {
  co_provider p : p ∈ providers → p ≠ "" ∧ slashless p;
  co_models p ms : p ∈ providers → listModels p = inr ms →
    Forall (λ m, model_id m ≠ "") ms ∧ an_models a role p = CatalogModels (model_id <$> ms);
}.

(** The ids of the union. *)
Lemma elem_of_union providers (listModels : string → Failure + list ModelCatalogEntry) selector :
  selector ∈ model_id <$> (providers ≫= λ p,
    match listModels p with
    | inr models => (λ m, mkModel (p +:+ "/" +:+ model_id m) (contextWindow m)) <$> models
    | inl _ => []
    end)
  ↔ ∃ p ms m, p ∈ providers ∧ listModels p = inr ms ∧ m ∈ ms ∧ selector = p +:+ "/" +:+ model_id m.
Proof.
  rewrite list_elem_of_fmap. split.
  - intros (m & -> & (p & Hm & Hpp)%list_elem_of_bind).
    destruct (listModels p) as [|ms'] eqn:Ep; [by apply elem_of_nil in Hm|].
    apply list_elem_of_fmap in Hm as (m' & -> & Hm'). by exists p, ms', m'.
  - intros (p & ms' & m & Hpp & Ep & Hm & ->).
    exists (mkModel (p +:+ "/" +:+ model_id m) (contextWindow m)). split; [done|].
    apply list_elem_of_bind. exists p. split; [|done]. rewrite Ep.
    by apply (list_elem_of_fmap_2 (λ m, mkModel (p +:+ "/" +:+ model_id m) (contextWindow m))).
Qed.

(** The catalog is the one a materialization accepts.  When the listings of all
    providers succeed, a selector of a registered provider is accepted for a member
    exactly when it is an id of the listed union, and it then routes to that
    provider's model; when one of them fails, the whole list fails. *)
Theorem listed_models_accepted providers listModels settled a role :
  catalog_ok providers listModels a role → settled ≡ₚ providers →
  match ListModels providers listModels settled with
  | inr models =>
      ∀ selector route, rt_provider route ∈ providers →
      validateModel a role selector = inr route ↔
      selector ∈ model_id <$> models ∧ selector = rt_provider route +:+ "/" +:+ rt_model route
  | inl e => ∃ p failure, p ∈ providers ∧ listModels p = inl failure ∧ e = toServiceError failure
  end.
Proof.
  intros Hco Hperm. unfold ListModels, listModelCatalog.
  destruct (omap _ settled) as [|e es] eqn:E.
  - assert (∀ p, p ∈ providers → ∃ ms, listModels p = inr ms) as Hall.
    { intros p Hp. destruct (listModels p) as [f|ms] eqn:Ep; [|by eexists]. exfalso.
      assert (f ∈ omap (λ p, match listModels p with inl e => Some e | inr _ => None end) settled) as Hf
        by (apply list_elem_of_omap; exists p; rewrite Hperm, Ep; done).
      rewrite E in Hf. by apply elem_of_nil in Hf. }
    intros selector route Hp. destruct (Hall _ Hp) as [ms Hms].
    destruct (co_provider _ _ _ _ Hco _ Hp) as [Hne Hsl]. destruct (co_models _ _ _ _ Hco _ _ Hp Hms) as [Hids Hcat].
    rewrite elem_of_union.
    split.
    + unfold validateModel, bind_ok. destruct (parseModelIdentifier selector) as [|r] eqn:Er; [done|].
      apply parse_selector in Er as (-> & _). destruct (an_models a role (rt_provider r)) as [models|] eqn:Ea; [|done].
      case_bool_decide as Hin; [|done]. intros [= ->]. rewrite Hcat in Ea. injection Ea as <-.
      apply list_elem_of_fmap in Hin as (m & -> & Hm). split; [|done]. by exists (rt_provider route), ms, m.
    + intros [(p & ms' & m & Hpp & Ep & Hm & ->) Heq].
      destruct (co_provider _ _ _ _ Hco _ Hpp) as [Hne' Hsl'].
      assert (cut_slash (p +:+ "/" +:+ model_id m) = Some (p, model_id m)) as Hc1
        by (apply cut_slash_spec; split; [done|by apply slashless_cut]).
      assert (cut_slash (p +:+ "/" +:+ model_id m) = Some (rt_provider route, rt_model route)) as Hc2
        by (apply cut_slash_spec; split; [done|by apply slashless_cut]).
      rewrite Hc1 in Hc2. injection Hc2 as -> Hmodel. assert (ms' = ms) as -> by congruence.
      unfold validateModel, bind_ok. rewrite (proj2 (parse_selector _ route)).
      * rewrite Hcat, <- Hmodel. rewrite bool_decide_eq_true_2; [done|by apply list_elem_of_fmap_2].
      * rewrite <- Hmodel. rewrite Forall_forall in Hids. split_and!; [done|done|by apply Hids|by apply slashless_cut].
  - assert (e ∈ omap (λ p, match listModels p with inl e => Some e | inr _ => None end) settled) as Hf
      by (rewrite E; by left).
    apply list_elem_of_omap in Hf as (p & Hp & Ep). destruct (listModels p) as [f|] eqn:Ef; [|done]. injection Ep as ->.
    exists p, e. by rewrite <- Hperm.
Qed.

Definition demo_listing (p : string) : Failure + list ModelCatalogEntry :=
  providerModelCatalog (inr ["glm-5"]) (λ _, Some 200000).

Lemma demo_catalog_ok : catalog_ok ["glm"] demo_listing (mkAnswers (λ _ _, PresetMissing) (λ _ _, CatalogModels ["glm-5"])) "player".
Proof.
  split.
  - by intros p ->%list_elem_of_singleton.
  - intros p ms _ [= <-]. split; [by repeat constructor|done].
Qed.

Lemma listed_models_accepted_witness :
  validateModel (mkAnswers (λ _ _, PresetMissing) (λ _ _, CatalogModels ["glm-5"])) "player" "glm/glm-5" = inr (mkRoute "glm" "glm-5").
Proof.
  apply (listed_models_accepted ["glm"] demo_listing ["glm"] _ "player" demo_catalog_ok ltac:(reflexivity)
    "glm/glm-5" (mkRoute "glm" "glm-5")); [by left|]. split; [by left|done].
Defined.
