(* ===== verification/TeamServer.v ===== *)
(** * The team face of the server (server.ts)

    [buildTeamHandlers] of [projects/game/agent_v2/src/server.ts], over the session
    layer ([SessionConfig.v], [Session.v]).  A handler that answers at once is a
    function to a gRPC error or a response; [UpdateTeam] validates, queues the
    materialization and answers when its job settles; a [Send] call lives on, as the
    state its closures share, until the session layer ends it or the peer leaves. *)

From S2P Require Import Prelude ChatWire History SessionConfig Session Presets ServerNames.

#[local] Open Scope Z_scope.

(** ** The wire *)

Record TeamMemberProto : Type := mkMemberProto {
  tm_name : string;
  tm_role : string;
  tm_preset : string;
  tm_model : string;
  tm_systemPrompt : string;
}.

Record TeamProto : Type := mkTeamProto {
  tp_name : string;
  tp_members : list TeamMemberProto;
  tp_desktopConnected : bool;
  tp_activeMember : string;
  tp_createTime : Timestamp;
  tp_updateTime : Timestamp;
}.

Definition teamMemberViewToProto (member : TeamMemberView) : TeamMemberProto :=
  mkMemberProto (mv_name member) (mv_role member) (mv_preset member) (mv_model member) (mv_systemPrompt member).

Definition teamViewToProto (view : TeamView) (desktopConnected : bool) : TeamProto :=
  mkTeamProto (tv_name view) (teamMemberViewToProto <$> tv_members view) desktopConnected (tv_activeMember view)
    (dateToTimestamp (tv_createTime view)) (dateToTimestamp (tv_updateTime view)).

Record WireMember : Type := mkWireMember {
  wm_role : option string;
  wm_preset : option string;
  wm_model : option string;
}.

Record WireTeam : Type := mkWireTeam { wt_name : option string; wt_members : option (list WireMember) }.

(** [ut_mask] is [updateMask?.paths]. *)
Record UpdateTeamRequest : Type := mkUpdateTeam { ut_team : option WireTeam; ut_mask : option (list string) }.

(** The failure of a call on the session layer. *)
Definition of_session {A} (r : SessionError + A) : ServiceError + A :=
  match r with
  | inl e => inl (toServiceError (session_failure e))
  | inr a => inr a
  end.

(** ** UpdateTeam *)

Definition team_name_message (field name : string) : string :=
  field +:+ " must be a team resource name (" +:+ quote "templates/{template}/sessions/{session}/team" +:+ "), got " +:+ quote name.

Definition member_name_message (field name : string) : string :=
  field +:+ " must be a team member resource name ("
    +:+ quote "templates/{template}/sessions/{session}/team/members/{member}" +:+ "), got " +:+ quote name.

(** One member of the request: the options it stands for. *)
Definition wire_member (template : string) (m : WireMember) : ServiceError + TeamMemberOptions :=
  let role := default "" (wm_role m) in
  if bool_decide (role = "") then refuse "every team member must carry a non-empty role"
  else
    let presetName := default "" (wm_preset m) in
    match parsePresetResource presetName with
    | None =>
        refuse ("member " +:+ quote role +:+ " preset must be a preset resource name ("
          +:+ quote "templates/{template}/presets/{preset}" +:+ "), got " +:+ quote presetName)
    | Some (t, _) =>
        if bool_decide (t ≠ template) then
          refuse ("member " +:+ quote role +:+ " preset template " +:+ t +:+ " does not match team template " +:+ template)
        else
          let model := default "" (wm_model m) in
          inr (mkOptions role presetName (if bool_decide (model = "") then None else Some model))
    end.

Fixpoint wire_members (template : string) (ms : list WireMember) : ServiceError + list TeamMemberOptions :=
  match ms with
  | [] => inr []
  | m :: ms =>
      match wire_member template m with
      | inl e => inl e
      | inr options =>
          match wire_members template ms with
          | inl e => inl e
          | inr rest => inr (options :: rest)
          end
      end
  end.

Definition check_mask (mask : option (list string)) : ServiceError + unit :=
  if bool_decide (mask = Some []) then refuse ("update_mask must be omitted or carry the " +:+ quote "members" +:+ " path")
  else
    match list_find (λ path, path ≠ "members") (default [] mask) with
    | Some (_, path) => refuse ("update_mask paths must be " +:+ quote "members" +:+ ", got " +:+ quote path)
    | None => inr tt
    end.

(** The part before the first await: the session and the members to materialize. *)
Definition UpdateTeam_request (request : UpdateTeamRequest) : ServiceError + (string * list TeamMemberOptions) :=
  let name := default "" (ut_team request ≫= wt_name) in
  match parseTeamResource name with
  | None => refuse (team_name_message "team.name" name)
  | Some session =>
      if bool_decide (wiredScene SCENES session.1 = None) then refuse (sceneNotWiredMessage session.1)
      else
        let wireMembers := default [] (ut_team request ≫= wt_members) in
        if bool_decide (length wireMembers = 0%nat) then refuse "team.members must not be empty"
        else
          match wire_members session.1 wireMembers with
          | inl e => inl e
          | inr members =>
              match check_mask (ut_mask request) with
              | inl e => inl e
              | inr _ => inr (sessionResourceName session, members)
              end
          end
  end.

(** The handler up to its wait: a refusal at once, or a materialization queued. *)
Definition UpdateTeam (s : Sessions) (request : UpdateTeamRequest) : Sessions * option ServiceError :=
  match UpdateTeam_request request with
  | inl e => (s, Some e)
  | inr (session, members) => (materialize s session members, None)
  end.

(** The answer, once the materialization settled with an error or a view. *)
Definition UpdateTeam_answer (result : SessionError + TeamView) (connected : bool) : ServiceError + TeamProto :=
  match of_session result with
  | inl e => inl e
  | inr view => inr (teamViewToProto view connected)
  end.

(** ** Reading and cancelling *)

(** The entry of the handlers that name a team. *)
Definition named_team {A} (field : string) (name : option string) (f : string → ServiceError + A) : ServiceError + A :=
  match parseTeamResource (default "" name) with
  | None => refuse (team_name_message field (default "" name))
  | Some session => f (sessionResourceName session)
  end.

Definition GetTeam (s : Sessions) (snapshot : SceneSnapshot) (connected : bool) (name : option string)
    : ServiceError + TeamProto :=
  named_team "name" name (λ session,
    match of_session (getTeam s session snapshot) with
    | inl e => inl e
    | inr view => inr (teamViewToProto view connected)
    end).

Definition GetTeamMember (s : Sessions) (attempts : list Attempt) (name : option string)
    : ServiceError + TeamMemberProto :=
  match parseTeamMemberResource (default "" name) with
  | None => refuse (member_name_message "name" (default "" name))
  | Some (session, member) =>
      match of_session (getTeamMember SCENES s (sessionResourceName session) member attempts) with
      | inl e => inl e
      | inr view => inr (teamMemberViewToProto view)
      end
  end.

Record TeamMessageProto : Type := mkTeamMessage { tg_member : string; tg_message : HistoryMessage; tg_seq : string }.
Record MemberMessageProto : Type := mkMemberMessage { mm_message : HistoryMessage; mm_sender : string }.

Definition ListTeamMessages (s : Sessions) (parent : option string) : ServiceError + (list TeamMessageProto * string) :=
  named_team "parent" parent (λ session,
    match of_session (session_listTeamMessages s session) with
    | inl e => inl e
    | inr entries =>
        inr ((λ entry, mkTeamMessage (mg_member entry) (mg_message entry) (num_str (mg_seq entry))) <$> entries, "")
    end).

Definition ListMemberMessages (s : Sessions) (parent : option string) : ServiceError + (list MemberMessageProto * string) :=
  match parseTeamMemberResource (default "" parent) with
  | None => refuse (member_name_message "parent" (default "" parent))
  | Some (session, member) =>
      match of_session (session_listMemberMessages SCENES s (sessionResourceName session) member) with
      | inl e => inl e
      | inr entries => inr ((λ entry, mkMemberMessage (vw_message entry) (vw_sender entry)) <$> entries, "")
      end
  end.

Definition Cancel (s : Sessions) (active : option string) (name : option string) : Sessions * option ServiceError :=
  match parseTeamResource (default "" name) with
  | None => (s, Some (mkServiceError StatusInvalidArgument (team_name_message "name" (default "" name))))
  | Some session =>
      let '(s, r) := cancel s (sessionResourceName session) active in
      (s, (λ e, toServiceError (session_failure e)) <$> r)
  end.

(** ** Send *)

(** What happens on the call's side of a stream. *)
Inductive CallEffect : Type :=
| CallWrite (event : ChatEvent)
| CallEnd
| CallError (code : Status) (details : string)
| CallDetach (g stream : nat).

(** The variables the closures of a call share, with what was done so far.
    [sd_detach] is the session's detach, for the stream of an entry. *)
Record SendCall : Type := mkSendCall {
  sd_settled : bool;
  sd_detach : option (nat * nat);
  sd_effects : list CallEffect;
}.

Definition new_SendCall : SendCall := mkSendCall false None [].

Definition effect (c : SendCall) (x : CallEffect) : SendCall := mkSendCall (sd_settled c) (sd_detach c) (sd_effects c ++ [x]).

(** [settle]; the same on [cancelled] and on an ['error'] of the call. *)
Definition settle (c : SendCall) : SendCall :=
  if sd_settled c then c
  else mkSendCall true (sd_detach c)
         (sd_effects c ++ match sd_detach c with Some (g, k) => [CallDetach g k] | None => [] end).

(** An ['error'] emitted on the call reaches the call's own listener. *)
Definition emit_error (c : SendCall) (code : Status) (details : string) : SendCall :=
  settle (effect c (CallError code details)).

Definition rejectStream (c : SendCall) (e : ServiceError) : SendCall := emit_error c (se_code e) (se_message e).

(** The stream given to the session layer. *)
Definition on_stream (c : SendCall) (a : StreamAction) : SendCall :=
  match a with
  | StreamWrite event => effect c (CallWrite event)
  | StreamEnd => effect (mkSendCall true (sd_detach c) (sd_effects c)) CallEnd
  | StreamFail _ message => emit_error (mkSendCall true (sd_detach c) (sd_effects c)) StatusInternal message
  end.

(** The actions on stream [k] in a log. *)
Definition actions_of (k : nat) (w : Wire) : list StreamAction :=
  omap (λ x, if bool_decide (x.1 = k) then Some x.2 else None) w.

Definition deliver (k : nat) (w : Wire) (c : SendCall) : SendCall := fold_left on_stream (actions_of k w) c.

(** The handler: [stream] is the new stream's number. *)
Definition Send (s : Sessions) (session text : option string) (stream : nat) (before : SceneSnapshot)
    (answer : SubmitAnswer) (now : Z) : Sessions * SendCall :=
  let name := default "" session in
  let text := default "" text in
  match parseSessionResource name with
  | None =>
      (s, rejectStream new_SendCall (mkServiceError StatusInvalidArgument
            ("session must be a game session resource name ("
              +:+ quote "templates/{template}/sessions/{session}" +:+ "), got " +:+ quote name)))
  | Some _ =>
      if bool_decide (text = "") then
        (s, rejectStream new_SendCall (mkServiceError StatusInvalidArgument "text must be non-empty"))
      else
        let '(s', thrown) := send s name text stream before answer [] now in
        let c := deliver stream (drop (length (ss_wire s)) (ss_wire s')) new_SendCall in
        match thrown with
        | Some err => (s', rejectStream c (toServiceError (session_failure err)))
        | None => (s', mkSendCall (sd_settled c) ((λ e, (e.1, stream)) <$> liveEntry s' name) (sd_effects c))
        end
  end.
