(* ===== verification/TeamServerFacts.v ===== *)
(** * The team face is correct

    What [UpdateTeam] lets through is what the session layer's structure check
    accepts; and a call of [Send], followed through every interleaving of the
    server's other work with the departure of its peer, is given frames and one
    last action, is detached once, and afterwards receives nothing. *)

From stdpp Require Import gmap.
From S2P Require Import Prelude ChatWire History Collector SessionConfig Session SessionChecks SessionFacts.
From S2P Require Import Presets ServerNames TeamServer.

#[local] Open Scope Z_scope.

(** ** UpdateTeam *)

(** The options a member of the request stands for. *)
Definition member_options (m : WireMember) : TeamMemberOptions :=
  mkOptions (default "" (wm_role m)) (default "" (wm_preset m))
    (if bool_decide (default "" (wm_model m) = "") then None else wm_model m).

(** The mask is omitted, or names the members and nothing else. *)
Definition mask_ok (mask : option (list string)) : Prop := mask ≠ Some [] ∧ Forall (λ p, p = "members") (default [] mask).

Lemma check_mask_ok mask : check_mask mask = inr tt ↔ mask_ok mask.
Proof.
  unfold check_mask, mask_ok. case_bool_decide as E; [split; [done|]; by intros [? _]|].
  destruct (list_find _ (default [] mask)) as [[i p]|] eqn:Ef.
  - split; [done|]. intros [_ Hf]. apply list_find_Some in Ef as (Hi & Hp & _).
    destruct Hp. by eapply (Forall_lookup_1 _ _ _ _ Hf).
  - split; [|done]. intros _. split; [done|]. apply list_find_None in Ef. eapply Forall_impl; [exact Ef|].
    intros p Hp. by apply dec_stable.
Qed.

Lemma wire_member_ok template m options :
  known template = true →
  wire_member template m = inr options ↔ options = member_options m ∧ check_structure template options = inr tt.
Proof.
  intros Hk. unfold wire_member, member_options, check_structure. destruct (bool_decide_reflect (default "" (wm_role m) = "")) as [Er|Er].
  - split; [done|]. intros [-> Hc]. simpl in Hc. by rewrite bool_decide_eq_true_2 in Hc.
  - unfold parsePresetResource. destruct (SessionConfig.parsePresetResource (default "" (wm_preset m))) as [[t p]|] eqn:Ep; simpl.
    2:{ split; [done|]. intros [-> Hc]. simpl in Hc. rewrite bool_decide_eq_false_2, Ep in Hc by done. done. }
    destruct (known t) eqn:Et.
    + destruct (bool_decide_reflect (t ≠ template)) as [Hne|He].
      * split; [done|]. intros [-> Hc]. simpl in Hc. rewrite bool_decide_eq_false_2, Ep, bool_decide_eq_false_2 in Hc by done. done.
      * apply dec_stable in He. subst t. split.
        -- intros [= <-]. simpl. rewrite (bool_decide_eq_false_2 (default "" (wm_role m) = "")), Ep, (bool_decide_eq_true_2 (template = template)) by done.
           split; [|done].
           f_equal. case_bool_decide as Em; [done|]. destruct (wm_model m); [done|by destruct Em].
        -- intros [-> _]. do 2 f_equal. case_bool_decide as Em; [done|]. destruct (wm_model m); [done|by destruct Em].
    + split; [done|]. intros [-> Hc]. simpl in Hc. rewrite bool_decide_eq_false_2, Ep in Hc by done.
      rewrite bool_decide_eq_false_2 in Hc; [done|]. intros ->. congruence.
Qed.

Lemma wire_members_ok template ms members :
  known template = true →
  wire_members template ms = inr members ↔
  members = member_options <$> ms ∧ each (check_structure template) members = inr tt.
Proof.
  intros Hk. revert members. induction ms as [|m ms IH]; intros members.
  - split; [by intros [= <-]|by intros [-> _]].
  - cbn [wire_members]. destruct (wire_member template m) as [e|options] eqn:Em.
    + split; [done|]. intros [-> Hc]. cbn in Hc. apply bind_ok_inr in Hc as ([] & Hc & _).
      pose proof (proj2 (wire_member_ok template m (member_options m) Hk) (conj eq_refl Hc)) as H1. congruence.
    + apply wire_member_ok in Em as [-> Hm]; [|done]. destruct (wire_members template ms) as [e|rest] eqn:Es.
      * split; [done|]. intros [-> Hc]. cbn in Hc. apply bind_ok_inr in Hc as ([] & _ & Hc).
        pose proof (proj2 (IH (member_options <$> ms)) (conj eq_refl Hc)). congruence.
      * destruct (proj1 (IH rest) eq_refl) as [-> Hr]. split.
        -- intros [= <-]. split; [done|]. cbn. by rewrite Hm.
        -- intros [-> _]. done.
Qed.

(** The face and the registry agree on the structure of a team.  A request is
    let through exactly when its team is named after a session of a wired scene, its
    mask is omitted or names the members only, and its members, read as options,
    pass the structure check of the session layer; what is queued is that session
    with those members.  So no request is queued that the session layer would refuse
    for its name, its scene or its structure, and none it would accept is refused. *)
Theorem updateTeam_agrees request session members :
  UpdateTeam_request request = inr (session, members) ↔
  ∃ template id,
    default "" (ut_team request ≫= wt_name) = session +:+ "/team" ∧ has_line_terminator id = false ∧
    SessionConfig.parseSessionResource session = Some (template, id) ∧
    is_Some (wiredScene SCENES template) ∧ mask_ok (ut_mask request) ∧
    members = member_options <$> default [] (ut_team request ≫= wt_members) ∧
    validateMemberStructure members template = inr tt.
Proof.
  unfold UpdateTeam_request. set (ws := default [] (ut_team request ≫= wt_members)). split.
  - destruct (parseTeamResource _) as [[template id]|] eqn:Ep; [|done]. apply parseTeamResource_spec in Ep as (Hn & Hok & Hl).
    simpl. case_bool_decide as Hw; [done|]. case_bool_decide as Hlen; [done|].
    destruct (wire_members template ws) as [e|ms] eqn:Em; [done|].
    destruct (check_mask (ut_mask request)) as [e|[]] eqn:Ec; [done|]. intros [= <- <-].
    apply wire_members_ok in Em as [-> Hs]; [|apply Hok]. exists template, id. split_and!; try done.
    + pose proof (proj2 (parseSessionResource_spec (sessionResourceName (template, id)) (template, id)) (conj eq_refl Hok)) as Hp.
      unfold parseSessionResource in Hp. apply bind_Some in Hp as (r & Hr & Hk). destruct (known r.1); [|done]. congruence.
    + destruct (wiredScene SCENES template); [by eexists|done].
    + by apply check_mask_ok.
    + unfold validateMemberStructure. rewrite length_fmap. by rewrite bool_decide_eq_false_2.
  - intros (template & id & Hn & Hl & Hp & Hw & Hm & -> & Hv).
    assert (known template = true) as Hk.
    { apply known_spec. destruct Hw as [scene Hw]. unfold wiredScene, scene_of in Hw.
      destruct (list_find _ SCENES) as [[i [t sc]]|] eqn:Ef; [|done]. apply list_find_Some in Ef as (Hi & Ht & _).
      simpl in Ht. subst t. apply list_elem_of_lookup_2 in Hi. unfold SCENES in Hi.
      rewrite !elem_of_cons, elem_of_nil in Hi. destruct Hi as [[= -> _]|[[= -> _]|[]]]; auto. }
    assert (parseSessionResource session = Some (template, id)) as Hp' by (unfold parseSessionResource; rewrite Hp; simpl; by rewrite Hk).
    apply parseSessionResource_spec in Hp' as [-> Hok].
    rewrite (proj2 (parseTeamResource_spec _ (template, id)) (conj Hn (conj Hok Hl))). simpl.
    rewrite bool_decide_eq_false_2 by (by destruct Hw as [? ->]).
    unfold validateMemberStructure in Hv. rewrite length_fmap in Hv. case_bool_decide; [done|].
    rewrite (proj2 (wire_members_ok template ws _ Hk) (conj eq_refl Hv)).
    by rewrite (proj2 (check_mask_ok _) Hm).
Qed.

Definition demo_update : UpdateTeamRequest :=
  mkUpdateTeam (Some (mkWireTeam (Some "templates/sts2/sessions/s1/team")
    (Some [mkWireMember (Some "main") (Some "templates/sts2/presets/bold") None]))) (Some ["members"]).

Lemma updateTeam_demo :
  UpdateTeam_request demo_update =
  inr ("templates/sts2/sessions/s1", [mkOptions "main" "templates/sts2/presets/bold" None]).
Proof. reflexivity. Qed.

(** ** The server's streams *)

(** What the server does: a client opens a stream, the peer of a stream leaves (its
    call is cancelled or errs), or the session layer takes any other step. *)
Inductive server_op : Type :=
| RpcSend (session text : option string) (before : SceneSnapshot) (answer : SubmitAnswer) (now : Z)
| PeerLeaves (k : nat)
| RpcOther (op : session_op).

(** The calls have a number each, which is their stream's. *)
Record Server : Type := mkServer { sv_sessions : Sessions; sv_next : nat; sv_calls : gmap nat SendCall }.

(** What a step of the session layer added to the wire. *)
Definition fresh_wire (s s' : Sessions) : Wire := drop (length (ss_wire s)) (ss_wire s').

Definition deliver_all (w : Wire) (calls : gmap nat SendCall) : gmap nat SendCall :=
  map_imap (λ k c, Some (deliver k w c)) calls.

(** The writes of the handler never throw, and its streams can all fail. *)
Definition handler_op (op : session_op) : Prop :=
  match op with
  | OpSend _ _ _ _ _ _ | OpDetach _ _ => False
  | OpEnvelope _ _ _ _ broken => broken = []
  | OpWatcher _ _ can_fail => ∀ k, can_fail k = true
  | _ => True
  end.

Section Server.
Context (DEFAULT_MODEL : string).

Definition server_step (v : Server) (op : server_op) : Server :=
  let s := sv_sessions v in
  match op with
  | RpcSend session text before answer now =>
      let '(s', c) := Send s session text (sv_next v) before answer now in
      mkServer s' (S (sv_next v)) (<[sv_next v := c]> (deliver_all (fresh_wire s s') (sv_calls v)))
  | PeerLeaves k =>
      match sv_calls v !! k with
      | None => v
      | Some c =>
          let s' := match sd_settled c, sd_detach c with false, Some (g, k') => detach s g k' | _, _ => s end in
          mkServer s' (sv_next v) (<[k := settle c]> (sv_calls v))
      end
  | RpcOther op =>
      let s' := (session_step SCENES DEFAULT_MODEL (s, sv_next v) op).1 in
      mkServer s' (sv_next v) (deliver_all (fresh_wire s s') (sv_calls v))
  end.

Definition server_run (ops : list server_op) : Server := fold_left server_step ops (mkServer new_Sessions 0 ∅).

Definition server_op_ok (op : server_op) : Prop := match op with RpcOther op => handler_op op | _ => True end.

(** *** How attachments move *)

Definition attached (s : Sessions) (g k : nat) : Prop := ∃ e, ss_entries s !! g = Some e ∧ k ∈ te_streams e.

(** A step moves stream [k] like this: it only loses attachments, gives an
    unattached stream nothing, and takes an attachment away with a last action. *)
Record moves (k : nat) (s s' : Sessions) : Prop := {
  mv_wire : ∃ w, ss_wire s' = ss_wire s ++ w ∧
    ((∀ g, ¬ attached s g k) → actions k w = []) ∧
    (∀ g, attached s g k → attached s' g k ∨ ∃ a, a ∈ actions k w ∧ is_write a = false);
  mv_attached : ∀ g, attached s' g k → attached s g k;
}.

Lemma moves_same k s s' :
  ss_wire s' = ss_wire s → (∀ g, attached s' g k ↔ attached s g k) → moves k s s'.
Proof.
  intros Hw Ha. split; [|intros g; apply Ha]. exists []. rewrite app_nil_r. split_and!; [done..|]. intros g Hg. left. by apply Ha.
Qed.

Lemma attached_entries s s' k : ss_entries s' = ss_entries s → ∀ g, attached s' g k ↔ attached s g k.
Proof. intros E g. unfold attached. by rewrite E. Qed.

(** One entry changes. *)
Lemma moves_entry k s g e e' w :
  ss_entries s !! g = Some e → (k ∈ te_streams e' → k ∈ te_streams e) → (k ∉ te_streams e → actions k w = []) →
  (k ∈ te_streams e → k ∈ te_streams e' ∨ ∃ a, a ∈ actions k w ∧ is_write a = false) →
  moves k s (set_entry s g e' w).
Proof.
  intros Hg H1 H2 H3. pose proof (set_entry_lookup s g e e' w Hg) as Hg'. split.
  - exists w. split_and!; [done| |].
    + intros Hno. apply H2. intros Hk. destruct (Hno g). by exists e.
    + intros g1 (e1 & He1 & Hk). destruct (decide (g1 = g)) as [->|Hne].
      * assert (e1 = e) as -> by congruence. destruct (H3 Hk); [left; by exists e'|by right].
      * left. exists e1. split; [|done]. simpl. by rewrite list_lookup_insert_ne.
  - intros g1 (e1 & He1 & Hk). destruct (decide (g1 = g)) as [->|Hne].
    + exists e. split; [done|]. apply H1. congruence.
    + exists e1. split; [|done]. simpl in He1. by rewrite list_lookup_insert_ne in He1.
Qed.

(** The entry's history grew: those attached stay so. *)
Lemma moves_project k s g e e0 h :
  ss_entries s !! g = Some e → NoDup (te_streams e0) → (k ∈ te_streams e0 ↔ k ∈ te_streams e) →
  grows (hs_history (te_host e0)) (hs_history h) →
  moves k s (set_entry s g (project [] e0 h).1 (project [] e0 h).2).
Proof.
  intros Hg Hnd Hk Hgr. destruct (project_spec [] e0 h Hnd Hgr) as (fs & _ & H2 & H3).
  assert (k ∈ te_streams (project [] e0 h).1 ↔ k ∈ te_streams e) as Hk'.
  { rewrite H2, <- Hk. case_bool_decide; [done|]. rewrite list_elem_of_filter. split; [by intros [_ ?]|].
    intros ?. split; [|done]. by intros ?%elem_of_nil. }
  apply moves_entry with e; [done|apply Hk'| |].
  - intros Hno. rewrite H3. rewrite bool_decide_eq_false_2; [done|]. rewrite Hk. by intros [? _].
  - intros Hin. left. by apply Hk'.
Qed.

(** The entry's streams are all given a last action. *)
Lemma moves_settle k s g e e' (f : nat → StreamAction) :
  ss_entries s !! g = Some e → NoDup (te_streams e) → te_streams e' = [] → (∀ k, is_write (f k) = false) →
  moves k s (set_entry s g e' ((λ k, (k, f k)) <$> te_streams e)).
Proof.
  intros Hg Hnd He Hf. apply moves_entry with e; [done|by rewrite He; intros ?%elem_of_nil| |].
  - intros Hno. rewrite actions_map by done. by rewrite bool_decide_eq_false_2.
  - intros Hin. right. exists (f k). rewrite actions_map by done. rewrite bool_decide_eq_true_2 by done. split; [by left|done].
Qed.

Lemma moves_flags k s g e e' w :
  ss_entries s !! g = Some e → te_streams e' = te_streams e → w = [] → moves k s (set_entry s g e' w).
Proof. intros Hg He ->. apply moves_entry with e; rewrite ?He; auto. Qed.

Lemma moves_after k s s1 s2 :
  moves k s s1 → ss_wire s2 = ss_wire s1 → ss_entries s2 = ss_entries s1 → moves k s s2.
Proof.
  intros [(w & Hw & H1 & H2) H3] E1 E2. pose proof (attached_entries s1 s2 k E2) as Ha. split.
  - exists w. split_and!; [congruence|done|]. intros g Hg. rewrite Ha. by apply H2.
  - intros g Hg. by apply H3, Ha.
Qed.

Lemma moves_before k s s1 s2 :
  moves k s1 s2 → ss_wire s1 = ss_wire s → ss_entries s1 = ss_entries s → moves k s s2.
Proof.
  intros [(w & Hw & H1 & H2) H3] E1 E2. pose proof (attached_entries s s1 k E2) as Ha. split.
  - exists w. split_and!; [congruence| |].
    + intros Hno. apply H1. intros g Hg. by apply (Hno g), Ha.
    + intros g Hg. by apply H2, Ha.
  - intros g Hg. by apply Ha, H3.
Qed.

Lemma moves_watcher k s n g snapshot can_fail :
  stream_inv s n → (∀ k, can_fail k = true) → moves k s (watcher s g snapshot can_fail).
Proof.
  intros Hinv Hcf. unfold watcher. destruct (ss_entries s !! g) as [e|] eqn:Hg; [|by apply moves_same].
  pose proof (sv_nodup _ _ Hinv _ _ Hg) as Hnd.
  destruct (te_watching e); [cbn [negb]|by apply moves_same]. destruct (_ || _); [|by apply moves_same].
  destruct (te_disposed (with_watching e false)); [by apply moves_flags with e|].
  destruct (sn_lastError snapshot) as [failure|]; [destruct (sf_orchestration failure)|].
  - unfold failStreams. apply (moves_settle k s g e _ (λ k, if can_fail k then _ else StreamEnd)); [done..|].
    intros k'. by destruct (can_fail k').
  - by apply (moves_settle k s g e _ (λ k, StreamEnd)).
  - by apply (moves_settle k s g e _ (λ k, StreamEnd)).
Qed.

Lemma moves_envelope k s n g envelope now uuid :
  stream_inv s n → moves k s (on_envelope s g envelope now uuid []).
Proof.
  intros Hinv. unfold on_envelope. destruct (ss_entries s !! g) as [e|] eqn:Hg; [|by apply moves_same].
  pose proof (sv_nodup _ _ Hinv _ _ Hg) as Hnd.
  destruct (te_subscribed e); [cbn [negb]|by apply moves_same].
  destruct (findMember e (en_role envelope)) as [[role preset model c|role]|].
  - pose proof (moves_project k s g e e (host_step (te_host e) (HostEvent c now uuid envelope)) Hg Hnd
      ltac:(done) (host_step_grows _ _)) as Hp. by destruct (project _ _ _).
  - pose proof (moves_project k s g e e (projectAnnouncement (te_host e) now role envelope) Hg Hnd
      ltac:(done) (announcement_grows _ _ _ _)) as Hp. by destruct (project _ _ _).
  - pose proof (dynamic_history e envelope) as Hd. destruct (dynamicCollector e envelope) as [e0 c].
    destruct Hd as [_ Hd].
    pose proof (moves_project k s g e e0 (host_step (te_host e0) (HostEvent c now uuid envelope)) Hg
      ltac:(by rewrite Hd) ltac:(by rewrite Hd) (host_step_grows _ _)) as Hp. by destruct (project _ _ _).
Qed.

Lemma moves_teardown_end k s n g e :
  stream_inv s n → ss_entries s !! g = Some e → moves k s (set_entry s g (teardown_end e).1 (teardown_end e).2).
Proof.
  intros Hinv Hg. pose proof (sv_nodup _ _ Hinv _ _ Hg) as Hnd.
  by apply (moves_settle k s g e _ (λ k, StreamEnd)).
Qed.

(** Entries that begin their teardown keep their streams. *)
Lemma moves_retire k s s' (f : nat → TeamEntry → TeamEntry) :
  ss_wire s' = ss_wire s → ss_entries s' = imap f (ss_entries s) → (∀ g e, te_streams (f g e) = te_streams e) →
  moves k s s'.
Proof.
  intros Hw He Hf. apply moves_same; [done|]. intros g. unfold attached. rewrite He, list_lookup_imap. split.
  - intros (e' & (e & Hg & ->)%fmap_Some & Hk). rewrite Hf in Hk. by exists e.
  - intros (e & Hg & Hk). exists (f g e). rewrite Hg, Hf. done.
Qed.

Lemma moves_job k s n session answer :
  stream_inv s n → moves k s (job_step SCENES DEFAULT_MODEL s session answer).1.
Proof.
  intros Hinv. unfold job_step. destruct (ss_jobs s !! session) as [[|[options phase] rest]|]; [by apply moves_same| |by apply moves_same].
  destruct phase as [|g template configs c|template configs c u], answer as [answers active now|ok now|projection|msg];
    try by apply moves_same.
  - unfold job_start. destruct (configure _ _ _ _ _) as [err|[template configs]]; [by apply moves_same|].
    destruct (ss_teams s !! session ≫= _) as [[g e]|] eqn:E; [|by apply moves_same].
    apply bind_Some in E as (g' & _ & (e' & He & [= <- <-])%fmap_Some). cbn [fst].
    eapply moves_after; [apply (moves_flags k s g e (teardown_begin e active) [] He); [apply teardown_begin_streams|done]| |done].
    simpl. by rewrite app_nil_r.
  - destruct (ss_entries s !! g) as [e|] eqn:Hg; [|by apply moves_same]. destruct ok; [|by apply moves_same].
    pose proof (moves_teardown_end k s n g e Hinv Hg) as Hm. destruct (teardown_end e) as [e' w].
    by eapply moves_after.
  - destruct (new_entry _ _ _ _ _ _) as [e|] eqn:He; [|by apply moves_same].
    apply moves_same; [done|]. intros g. unfold attached. cbn [fst ss_entries]. rewrite lookup_app. split.
    + intros (e' & Hg & Hk). destruct (ss_entries s !! g) as [e0|] eqn:H0; [by exists e0; simplify_eq|].
      apply list_elem_of_lookup_2, list_elem_of_singleton in Hg as ->.
      rewrite (new_entry_streams _ _ _ _ _ _ _ He) in Hk. by apply elem_of_nil in Hk.
    + intros (e' & Hg & Hk). exists e'. by rewrite Hg.
Qed.

Lemma moves_other k s n op :
  stream_inv s n → handler_op op → moves k s (session_step SCENES DEFAULT_MODEL (s, n) op).1.
Proof.
  intros Hinv Hop. destruct op as [session options|session answer|session text before answer broken now|g k'
    |session active|g snapshot can_fail|g envelope now uuid broken|active|g ok]; cbn [session_step fst]; try done.
  - by apply moves_same.
  - by eapply moves_job.
  - unfold cancel. destruct (requireEntry _ _ _) as [err|[g e]] eqn:Hreq; [by apply moves_same|].
    apply requireEntry_spec, liveEntry_spec in Hreq as (_ & Hg & _).
    apply moves_flags with e; [done|by rewrite watch_streams, mark_streams|done].
  - by eapply moves_watcher.
  - simpl in Hop. subst broken. by eapply moves_envelope.
  - eapply (moves_retire k s _ (λ g e, if bool_decide (g ∈ (map_to_list (ss_teams s)).*2) then teardown_begin e (active g) else e));
      [done..|]. intros g e. case_bool_decide; [apply teardown_begin_streams|done].
  - unfold shutdown_disposed. case_bool_decide; [|by apply moves_same].
    set (s1 := mkSessions _ _ _ _ _). assert (stream_inv s1 n) as H1 by by apply stream_inv_bookkeeping with s.
    destruct (ss_entries s1 !! g) as [e|] eqn:Hg; [|by apply moves_same]. destruct ok; [|by apply moves_same].
    pose proof (moves_teardown_end k s1 n g e H1 Hg) as Hm. destruct (teardown_end e) as [e' w].
    by eapply moves_before.
Qed.

(** A send moves the other streams. *)
Lemma moves_send k s n session text before answer now :
  stream_inv s n → k ≠ n → moves k s (send s session text n before answer [] now).1.
Proof.
  intros Hinv Hne. unfold send.
  destruct (requireEntry s session SessionConfig.FAILED_PRECONDITION) as [err|[g e]] eqn:Hreq; [by apply moves_same|].
  apply requireEntry_spec, liveEntry_spec in Hreq as (_ & Hg & _).
  rewrite (bool_decide_eq_false_2 (n ∈ [])) by (intros Hx; by apply elem_of_nil in Hx). rewrite andb_false_r.
  rewrite bool_decide_eq_false_2 by (intros Hk; pose proof (sv_lt _ _ Hinv _ _ _ Hg Hk); lia).
  set (ea := with_streams e (te_streams e ++ [n])).
  set (q := if bool_decide (is_Some (sn_active before)) then _ else []).
  assert (actions k q = []) as Hq.
  { unfold q. case_bool_decide; [|done]. cbn. by rewrite bool_decide_eq_false_2. }
  assert (NoDup (te_streams ea)) as Hnd.
  { apply NoDup_app. split_and!; [by eapply sv_nodup| |apply NoDup_singleton].
    intros x Hx ->%list_elem_of_singleton. pose proof (sv_lt _ _ Hinv _ _ _ Hg Hx). lia. }
  destruct (project_spec [] ea (host_step (te_host e) (HostUser now text)) Hnd (host_step_grows _ _)) as (fs & _ & H2 & H3).
  destruct (project [] ea _) as [e' w1]. cbn [fst snd] in H2, H3.
  assert (∀ x, x ∈ te_streams e' ↔ x ∈ te_streams e ∨ x = n) as Hx.
  { intros x. rewrite H2. case_bool_decide; rewrite ?list_elem_of_filter; cbn [ea te_streams with_streams];
      rewrite elem_of_app, list_elem_of_singleton; [done|]. split; [by intros [_ ?]|]. intros ?. split; [|done]. by intros ?%elem_of_nil. }
  assert (k ∉ te_streams e → actions k (q ++ w1) = []) as Hquiet.
  { intros Hno. rewrite actions_app, Hq, H3. rewrite bool_decide_eq_false_2; [done|].
    cbn [ea te_streams with_streams]. rewrite elem_of_app, list_elem_of_singleton. by intros [[?|?] _]. }
  destruct (mapOrchestratorError answer); cbn [fst]; apply moves_entry with e; try done.
  - cbn [te_streams with_streams]. rewrite list_elem_of_filter, Hx. by intros [? [?|?]].
  - intros Hin. left. cbn [te_streams with_streams]. rewrite list_elem_of_filter, Hx. auto.
  - rewrite watch_streams, Hx. by intros [?|?].
  - intros Hin. left. rewrite watch_streams, Hx. auto.
Qed.

(** *** What a call is given *)

(** The last thing that happens to a call: the server ended it or rejected it, or
    its peer left and it was detached. *)
Definition is_last (x : CallEffect) : bool := match x with CallWrite _ => false | _ => true end.

(** The call of stream [k]: while unsettled it was given frames only and is attached
    where its detach points; settled, one last effect followed the frames and it is
    attached nowhere. *)
Definition call_ok (s : Sessions) (k : nat) (c : SendCall) : Prop :=
  ∃ frames tail, sd_effects c = (CallWrite <$> frames) ++ tail ∧
  ((sd_settled c = false ∧ tail = [] ∧ ∃ g, sd_detach c = Some (g, k) ∧ attached s g k) ∨
   (sd_settled c = true ∧ (∃ x, tail = [x] ∧ is_last x = true) ∧ ∀ g, ¬ attached s g k)).

Lemma deliver_writes fs c :
  fold_left on_stream (StreamWrite <$> fs) c =
  mkSendCall (sd_settled c) (sd_detach c) (sd_effects c ++ (CallWrite <$> fs)).
Proof.
  revert c. induction fs as [|f fs IH]; intros c; cbn [fmap list_fmap fold_left].
  - rewrite app_nil_r. by destruct c.
  - rewrite IH. cbn. by rewrite <- app_assoc.
Qed.

Lemma deliver_last a c :
  is_write a = false →
  ∃ x, is_last x = true ∧ on_stream c a = mkSendCall true (sd_detach c) (sd_effects c ++ [x]).
Proof. destruct a as [ev| |code message]; [done|..]; intros _; [by exists CallEnd|by exists (CallError StatusInternal message)]. Qed.

(** Frames, then more actions with a last one among them: frames and the last one. *)
Lemma last_split ws acts a :
  stream_ok ((StreamWrite <$> ws) ++ acts) → a ∈ acts → is_write a = false →
  ∃ fs x, acts = (StreamWrite <$> fs) ++ [x] ∧ is_write x = false.
Proof.
  intros (frames & l & E & Hl) Ha Hw.
  assert (∀ gs, a ∉ (StreamWrite <$> gs : list StreamAction)) as Hno.
  { intros gs (y & -> & _)%list_elem_of_fmap. done. }
  destruct Hl as [->|(x & -> & Hx)].
  - rewrite app_nil_r in E. destruct (Hno frames). rewrite <- E. apply elem_of_app. by right.
  - destruct acts as [|y acts _] using rev_ind; [by apply elem_of_nil in Ha|]. rewrite app_assoc in E.
    apply app_inj_tail in E as [E ->]. symmetry in E. apply fmap_app_inv in E as (f1 & f2 & _ & -> & ->). by exists f2, x.
Qed.

Lemma actions_deliver k w c : deliver k w c = fold_left on_stream (actions k w) c.
Proof. done. Qed.

(** The calls follow a step of the session layer. *)
Lemma call_follows s s' n n' k c :
  stream_inv s n → stream_inv s' n' → moves k s s' → call_ok s k c → call_ok s' k (deliver k (fresh_wire s s') c).
Proof.
  intros Hs Hs' [(w & Hw & Hquiet & Hkept) Hatt] (frames & tail & He & Hc).
  unfold fresh_wire. rewrite Hw, drop_app_length, actions_deliver.
  destruct Hc as [(Hset & -> & g & Hd & Hg)|(Hset & Hlast & Hno)].
  - rewrite app_nil_r in He. assert (∃ fs, actions k (ss_wire s) = StreamWrite <$> fs) as [ws Hws].
    { destruct Hg as (e & Hge & Hk). destruct (sv_follows _ _ Hs _ _ _ Hge Hk) as (q & old & new & _ & _ & ->). by eexists. }
    destruct (Hkept g Hg) as [Hg'|(a & Ha & Hwa)].
    + assert (∃ fs, actions k w = StreamWrite <$> fs) as [fs ->].
      { destruct Hg' as (e & Hge & Hk). destruct (sv_follows _ _ Hs' _ _ _ Hge Hk) as (q & old & new & _ & _ & E).
        rewrite Hw, actions_app in E. symmetry in E. apply fmap_app_inv in E as (f1 & f2 & _ & -> & _). by eexists. }
      rewrite deliver_writes. exists (frames ++ fs), []. split; [cbn; by rewrite He, fmap_app, app_nil_r|].
      left. split_and!; [done..|]. by exists g.
    + pose proof (sv_ok _ _ Hs' k) as Hok. rewrite Hw, actions_app, Hws in Hok.
      destruct (last_split _ _ _ Hok Ha Hwa) as (fs & x & E & Hx). rewrite E, fold_left_app, deliver_writes. cbn [fold_left].
      destruct (deliver_last x (mkSendCall (sd_settled c) (sd_detach c) (sd_effects c ++ (CallWrite <$> fs))) Hx) as (y & Hy & ->).
      exists (frames ++ fs), [y]. split; [cbn; by rewrite He, fmap_app|]. right. split_and!; [done|by exists y|].
      intros g' Hg'. pose proof Hg' as (e' & Hge' & Hk'). destruct (sv_follows _ _ Hs' _ _ _ Hge' Hk') as (q & old & new & _ & _ & E').
      rewrite Hw, actions_app, E, app_assoc in E'.
      assert (x ∈ (StreamWrite <$> (q ++ new) : list StreamAction)) as (z & -> & _)%list_elem_of_fmap by (rewrite <- E', elem_of_app; right; by left).
      done.
  - rewrite (Hquiet Hno). cbn. exists frames, tail. split; [done|]. right. split_and!; [done..|].
    intros g Hg. by destruct (Hno g (Hatt g Hg)).
Qed.

Lemma unattached_next s n k : stream_inv s n → (n ≤ k)%nat → ∀ g, ¬ attached s g k.
Proof. intros Hinv Hk g (e & Hg & Hin). pose proof (sv_lt _ _ Hinv _ _ _ Hg Hin). lia. Qed.

(** The stream a send comes with: given frames; attached to the live team when the
    send returns, nowhere when it throws. *)
Lemma send_stream s n session text before answer now :
  stream_inv s n →
  let '(s', thrown) := send s session text n before answer [] now in
  (∃ fs, actions n (ss_wire s') = StreamWrite <$> fs) ∧
  match thrown with
  | None => ∃ g e, liveEntry s' session = Some (g, e) ∧ n ∈ te_streams e
  | Some _ => ∀ g, ¬ attached s' g n
  end.
Proof.
  intros Hinv. pose proof (stream_inv_send s n session text before answer [] now Hinv) as Hinv'. unfold send in Hinv' |- *.
  pose proof (sv_fresh _ _ Hinv n (le_n n)) as Hfresh.
  destruct (requireEntry s session SessionConfig.FAILED_PRECONDITION) as [err|[g e]] eqn:Hreq.
  { split; [by exists []|]. by apply unattached_next with n. }
  apply requireEntry_spec, liveEntry_spec in Hreq as (Ht & Hg & Hd).
  rewrite (bool_decide_eq_false_2 (n ∈ [])) in Hinv' |- * by (intros Hx; by apply elem_of_nil in Hx).
  rewrite andb_false_r in Hinv' |- *.
  rewrite bool_decide_eq_false_2 in Hinv' |- * by (intros Hk; pose proof (sv_lt _ _ Hinv _ _ _ Hg Hk); lia).
  set (ea := with_streams e (te_streams e ++ [n])) in *.
  set (q := if bool_decide (is_Some (sn_active before)) then _ else []) in *.
  assert (∃ fs, actions n q = StreamWrite <$> fs) as [qs Hq].
  { unfold q. case_bool_decide; [|by exists []]. eexists [_]. cbn. by rewrite bool_decide_eq_true_2. }
  assert (NoDup (te_streams ea)) as Hnd.
  { apply NoDup_app. split_and!; [exact (sv_nodup _ _ Hinv _ _ Hg)| |apply NoDup_singleton].
    intros x Hx ->%list_elem_of_singleton. pose proof (sv_lt _ _ Hinv _ _ _ Hg Hx). lia. }
  destruct (project_spec [] ea (host_step (te_host e) (HostUser now text)) Hnd (host_step_grows _ _)) as (fs & _ & H2 & H3).
  pose proof (project_flags [] ea (host_step (te_host e) (HostUser now text))) as (_ & Hdis & _).
  destruct (project [] ea _) as [e' w1]. cbn [fst snd] in H2, H3, Hdis.
  assert (n ∈ te_streams ea) as Hin by (apply elem_of_app; right; by left).
  assert (n ∈ te_streams e') as Hin'.
  { rewrite H2. case_bool_decide; [done|]. apply list_elem_of_filter. split; [by intros ?%elem_of_nil|done]. }
  assert (∃ fs, actions n (ss_wire s ++ (q ++ w1)) = StreamWrite <$> fs) as Hacts.
  { exists (qs ++ fs). rewrite !actions_app, Hfresh, Hq, H3, bool_decide_eq_true_2, fmap_app; [done|].
    split; [done|]. by intros ?%elem_of_nil. }
  destruct (mapOrchestratorError answer) as [err|]; cbn [fst] in Hinv'; split; [exact Hacts| |exact Hacts|].
  - intros g' (e1 & Hg1 & Hk). destruct (decide (g' = g)) as [->|Hne].
    + rewrite (set_entry_lookup s g e) in Hg1 by done. injection Hg1 as <-.
      cbn [te_streams with_streams] in Hk. by apply list_elem_of_filter in Hk as [? _].
    + cbn [set_entry ss_entries] in Hg1. rewrite list_lookup_insert_ne in Hg1 by done.
      pose proof (sv_lt _ _ Hinv _ _ _ Hg1 Hk). lia.
  - exists g, (watchQuiescence e'). split; [|by rewrite watch_streams]. apply liveEntry_spec.
    pose proof (watch_flags e') as (_ & Hw & _). split_and!; [done|by eapply set_entry_lookup|]. by rewrite Hw, Hdis.
Qed.

Lemma Send_ok s n session text before answer now :
  stream_inv s n →
  let '(s', c) := Send s session text n before answer now in
  stream_inv s' (S n) ∧ (∀ k, k ≠ n → moves k s s') ∧ call_ok s' n c.
Proof.
  intros Hinv. unfold Send.
  assert (∀ e, stream_inv s (S n) ∧ (∀ k, k ≠ n → moves k s s) ∧ call_ok s n (rejectStream new_SendCall e)) as Hrefuse.
  { intros e. split_and!; [by apply stream_inv_weaken with n; [|lia]|by intros k _; apply moves_same|].
    exists [], [CallError (se_code e) (se_message e)]. split; [done|]. right. split_and!; [done|by eexists|].
    by apply unattached_next with n. }
  destruct (parseSessionResource (default "" session)); [|apply Hrefuse]. case_bool_decide; [apply Hrefuse|].
  pose proof (stream_inv_send s n (default "" session) (default "" text) before answer [] now Hinv) as Hinv'.
  pose proof (send_stream s n (default "" session) (default "" text) before answer now Hinv) as Hstream.
  pose proof (λ k, moves_send k s n (default "" session) (default "" text) before answer now Hinv) as Hmoves.
  destruct (send s (default "" session) (default "" text) n before answer [] now) as [s' thrown]. cbn [fst] in *.
  destruct Hstream as [[fs Hfs] Hend]. destruct (Hmoves (S n) ltac:(lia)) as [(w & Hw & _) _].
  rewrite Hw, actions_app, (sv_fresh _ _ Hinv n (le_n n)) in Hfs. cbn [app] in Hfs.
  rewrite Hw, drop_app_length, actions_deliver, Hfs, deliver_writes. cbn [new_SendCall sd_effects sd_settled sd_detach app].
  destruct thrown as [err|].
  - split_and!; [done..|]. exists fs, [CallError (se_code (toServiceError (session_failure err))) (se_message (toServiceError (session_failure err)))].
    split; [by cbn; rewrite app_nil_r|]. right. split_and!; [done|by eexists|done].
  - split_and!; [done..|]. destruct Hend as (g & e & Hlive & Hin). rewrite Hlive. exists fs, [].
    split; [by cbn; rewrite app_nil_r|]. left. split_and!; [done..|]. exists g. split; [done|]. exists e.
    split; [|done]. by apply liveEntry_spec in Hlive as (_ & ? & _).
Qed.

(** The peer of a call leaves. *)
Lemma leave_ok s n k c :
  stream_inv s n → call_ok s k c →
  let s' := match sd_settled c, sd_detach c with false, Some (g, k') => detach s g k' | _, _ => s end in
  stream_inv s' n ∧ call_ok s' k (settle c) ∧ (∀ k', k' ≠ k → moves k' s s' ∧ fresh_wire s s' = []).
Proof.
  intros Hinv (frames & tail & He & [(Hset & -> & g & Hd & e & Hg & Hk)|(Hset & Hlast & Hno)]); unfold settle; rewrite Hset.
  - rewrite Hd. unfold detach. rewrite Hg. set (e' := with_streams e (filter (λ k', k' ≠ k) (te_streams e))). split_and!.
    + by apply (stream_inv_leave s n g e _ (λ k', k' ≠ k)).
    + exists frames, [CallDetach g k]. split; [by cbn; rewrite He, app_nil_r|]. right. split_and!; [done|by eexists|].
      intros g' (e1 & Hg1 & Hk1). destruct (decide (g' = g)) as [->|Hne].
      * rewrite (set_entry_lookup s g e) in Hg1 by done. injection Hg1 as <-. by apply list_elem_of_filter in Hk1 as [? _].
      * cbn [set_entry ss_entries] in Hg1. rewrite list_lookup_insert_ne in Hg1 by done.
        destruct Hne. by apply (sv_disjoint _ _ Hinv g' g e1 e k).
    + intros k' Hne. split.
      * apply moves_entry with e; [done| |done|]; cbn [e' te_streams with_streams]; rewrite list_elem_of_filter; [by intros [_ ?]|].
        intros Hin. left. done.
      * unfold fresh_wire. cbn [set_entry ss_wire]. by rewrite app_nil_r, drop_all.
  - split_and!; [done| |].
    + exists frames, tail. split; [done|]. by right.
    + intros k' _. split; [by apply moves_same|]. unfold fresh_wire. apply drop_all.
Qed.

Record server_inv (v : Server) : Prop := {
  si_streams : stream_inv (sv_sessions v) (sv_next v);
  si_lt : ∀ k c, sv_calls v !! k = Some c → (k < sv_next v)%nat;
  si_calls : ∀ k c, sv_calls v !! k = Some c → call_ok (sv_sessions v) k c;
}.

Lemma lookup_deliver_all w calls k : deliver_all w calls !! k = deliver k w <$> calls !! k.
Proof. unfold deliver_all. rewrite map_lookup_imap. by destruct (calls !! k). Qed.

Lemma server_inv_step v op : server_inv v → server_op_ok op → server_inv (server_step v op).
Proof.
  intros [I1 I2 I3] Hop. destruct op as [session text before answer now|k|op]; cbn [server_step].
  - pose proof (Send_ok (sv_sessions v) (sv_next v) session text before answer now I1) as Hs.
    destruct (Send _ _ _ _ _ _ _) as [s' c]. destruct Hs as (Hinv & Hmoves & Hc). split; cbn.
    + done.
    + intros k c' [[<- _]|[_ Hk]]%lookup_insert_Some; [lia|]. rewrite lookup_deliver_all in Hk.
      apply fmap_Some in Hk as (c0 & Hk & _). specialize (I2 _ _ Hk). lia.
    + intros k c' [[<- <-]|[Hne Hk]]%lookup_insert_Some; [done|]. rewrite lookup_deliver_all in Hk.
      apply fmap_Some in Hk as (c0 & Hk & ->). eapply call_follows; [done..|by apply Hmoves|by apply I3].
  - destruct (sv_calls v !! k) as [c|] eqn:Ec; [|done].
    pose proof (leave_ok _ _ k c I1 (I3 k c Ec)) as (Hinv & Hc & Hmoves).
    set (s' := match sd_settled c with true => _ | false => _ end) in *. split; cbn.
    + done.
    + intros k' c' [[<- _]|[_ Hk]]%lookup_insert_Some; eauto.
    + intros k' c' [[<- <-]|[Hne Hk]]%lookup_insert_Some; [done|].
      destruct (Hmoves k' ltac:(done)) as [Hm Hw].
      pose proof (call_follows _ _ _ _ k' c' I1 Hinv Hm (I3 _ _ Hk)) as Hf. by rewrite Hw in Hf.
  - assert (stream_inv (session_step SCENES DEFAULT_MODEL (sv_sessions v, sv_next v) op).1 (sv_next v)) as Hinv.
    { pose proof (stream_inv_step SCENES DEFAULT_MODEL _ _ op I1) as Hs.
      destruct (session_step SCENES DEFAULT_MODEL (sv_sessions v, sv_next v) op) as [s' n'] eqn:E.
      assert (n' = sv_next v) as <-; [|done]. destruct op; simpl in E, Hop; by simplify_eq. }
    split; cbn.
    + done.
    + intros k c Hk. rewrite lookup_deliver_all in Hk. apply fmap_Some in Hk as (c0 & Hk & _). by eapply I2.
    + intros k c Hk. rewrite lookup_deliver_all in Hk. apply fmap_Some in Hk as (c0 & Hk & ->).
      eapply call_follows; [done|exact Hinv|by apply moves_other|by apply I3].
Qed.

Lemma server_inv_run ops : Forall server_op_ok ops → server_inv (server_run ops).
Proof.
  intros Hops. unfold server_run.
  assert (server_inv (mkServer new_Sessions 0 ∅)) as H0 by by split; [apply stream_inv_start|..].
  revert H0. generalize (mkServer new_Sessions 0 ∅). induction Hops as [|op ops Hop Hops IH]; intros v Hv; [done|].
  by apply IH, server_inv_step.
Qed.

(** C31: A call of Send, from end to end.  However sends, departing peers,
    materializations, member events, watchers, cancels and a shutdown interleave,
    what happens to a call is frames and then one thing at most: its clean end, an
    error, or its detachment because the peer left.  As long as none of these
    happened the call is attached to one team; from then on it is attached to none,
    so nothing more is written to it, and a peer that leaves neither ends a team's
    work nor detaches twice. *)
Theorem send_call_protocol ops k c :
  Forall server_op_ok ops → sv_calls (server_run ops) !! k = Some c →
  ∃ frames tail, sd_effects c = (CallWrite <$> frames) ++ tail ∧
    (tail = [] ∧ sd_settled c = false ∧
       (∃ g, sd_detach c = Some (g, k) ∧ ∀ g', attached (sv_sessions (server_run ops)) g' k ↔ g' = g) ∨
     (∃ x, tail = [x] ∧ is_last x = true) ∧ sd_settled c = true ∧
       ∀ g, ¬ attached (sv_sessions (server_run ops)) g k).
Proof.
  intros Hops Hc. pose proof (server_inv_run ops Hops) as [I1 _ I3].
  destruct (I3 k c Hc) as (frames & tail & He & Hcase). exists frames, tail. split; [done|].
  destruct Hcase as [(Hset & -> & g & Hd & Hg)|(Hset & Hlast & Hno)]; [left|by right].
  split_and!; [done..|]. exists g. split; [done|]. intros g'. split; [|by intros ->].
  intros (e' & He' & Hk'). destruct Hg as (e & He0 & Hk). by apply (sv_disjoint _ _ I1 g' g e' e k).
Qed.

End Server.

(** A team is built, a stream is opened on it, an event reaches it, its peer leaves. *)
Definition demo_server_ops : list server_op :=
  (RpcOther <$> demo_build) ++
  [RpcSend (Some demo_session) (Some "hello") (mkSnapshot None "player" false 0 None) SubmitOk 7; PeerLeaves 0].

Lemma send_call_protocol_witness :
  ∃ c, sv_calls (server_run "glm/m1" demo_server_ops) !! 0%nat = Some c ∧ sd_settled c = true ∧
    ∃ frames x, sd_effects c = (CallWrite <$> frames) ++ [x] ∧ is_last x = true.
Proof.
  destruct (sv_calls (server_run "glm/m1" demo_server_ops) !! 0%nat) as [c|] eqn:E; [|vm_compute in E; discriminate E].
  exists c. assert (Forall server_op_ok demo_server_ops) as Hops by (repeat constructor).
  destruct (send_call_protocol "glm/m1" demo_server_ops 0 c Hops E) as (frames & tail & He & [(_ & Hs & _)|((x & -> & Hx) & Hs & _)]).
  - exfalso. vm_compute in E. injection E as <-. vm_compute in Hs. discriminate Hs.
  - split; [done|]. split; [done|]. by exists frames, x.
Defined.
