(* ===== verification/Hooks.v ===== *)
(** * The hook engine

    [common/js/dsh-plugins/saolei/hooks/src]: the registry of the planner's scripts
    ([registry.ts]), their validation and execution ([sandbox.ts]), the
    [saolei_hook] tool ([tool.ts]) and the handler that runs every script after a
    board-changing batch ([handler.ts]), with the caps of [limits.ts].

    The interpreter of the host is a parameter: [new_Script] parses a wrapped
    source or throws, [run_in_context] gives the value a script returns on a board
    or what it throws, the interrupt of the budget included.  A thrown value is
    what the code can see of it: the reads of its properties and its string
    conversion, which may themselves throw.  These, and the serialization of a
    returned value, may run code of the script outside the budget, and then may not
    end: the process is stalled.  What a script does otherwise (through host objects it
    reaches from the board, or in microtasks it leaves behind) is not modelled. *)

From S2P Require Import Prelude JsText JsJson BoardTypes Rules GameText Runtime.
From stdpp Require Import sorting.

#[local] Open Scope Z_scope.

(** ** limits.ts *)

Definition MAX_HOOKS : Z := 8.
Definition MAX_SCRIPT_CHARS : Z := 16384.
Definition MAX_OUTPUT_CHARS : Z := 4096.
Definition EXECUTION_TIMEOUT_MS : Z := 500.

(** ** Values that cross the sandbox *)

Inductive Key : Type := key_code | key_message | key_name | key_stack.

(** [key in error], then the type of [error[key]]. *)
Inductive Read (T : Type) : Type :=
| Missing
| NotString
| ReadText (s : jstr)
| ReadRaises (t : T)
| ReadStalls.
#[global] Arguments Missing {T}.
#[global] Arguments NotString {T}.
#[global] Arguments ReadText {T} s.
#[global] Arguments ReadRaises {T} t.
#[global] Arguments ReadStalls {T}.

(** [String(error)]. *)
Inductive Conversion (T : Type) : Type :=
| ConvText (s : jstr)
| ConvRaises (t : T)
| ConvStalls.
#[global] Arguments ConvText {T} s.
#[global] Arguments ConvRaises {T} t.
#[global] Arguments ConvStalls {T}.

(** [th_is_error]: an [Error] of the host's realm; [th_is_object]: [typeof] gives
    ['object'] and it is not [null]; [th_string]: [String(error)]. *)
Inductive ScriptThrown : Type :=
| mkThrown (th_is_error th_is_object : bool) (th_read : Key → Read ScriptThrown) (th_string : Conversion ScriptThrown).

(** An error of the host with a message, such as the budget's interrupt. *)
Definition host_error (code : option jstr) (message : jstr) : ScriptThrown :=
  mkThrown true true
    (λ key, match key with
            | key_message => ReadText message
            | key_code => match code with Some c => ReadText c | None => Missing end
            | key_name => ReadText (js "Error")
            | key_stack => Missing
            end)
    (ConvText (js "Error: " ++ message)).

(** [JSON.stringify(returned)]: it calls the [toJSON] methods and getters of the
    script without the budget, so it may throw and it may not end. *)
Inductive Serialized : Type :=
| SerRaised
| SerText (s : jstr)
| SerOther
| SerStalls.

Inductive JsValue : Type :=
| VString (s : jstr)
| VUndefined
| VOther (serialized : Serialized).

Inductive RunOutcome : Type :=
| ScriptReturned (v : JsValue)
| ScriptRaised (t : ScriptThrown).

(** The board a script sees.  JSON drops the absent counter and writes a value that
    is not a number as [null]. *)
Inductive SnapshotCounter : Type :=
| SnapDecoded (value : option Z)
| SnapUndecoded.

Record BoardSnapshot : Type := mkSnapshotBoard {
  sn_width : Z;
  sn_height : Z;
  sn_grid : list (list CellStatus);
  sn_mineCounter : option SnapshotCounter;
}.

Definition snapshot (board : GameState) : BoardSnapshot :=
  mkSnapshotBoard (width board) (height board) (grid board)
    ((λ m, match m with
           | Decoded (JNum z) => SnapDecoded (Some z)
           | Decoded JNaN => SnapDecoded None
           | Undecoded => SnapUndecoded
           end) <$> mineCounter board).

(** ** sandbox.ts: reading a thrown value *)

(** A computation of the sandbox may throw, and may not end. *)
Inductive Abrupt : Type :=
| Throws (t : ScriptThrown)
| Stalls.

Definition Sandbox (A : Type) : Type := Abrupt + A.

Definition errorText (error : ScriptThrown) (key : Key) : Sandbox (option jstr) :=
  let '(mkThrown _ is_object read _) := error in
  if is_object then
    match read key with
    | Missing | NotString => inr None
    | ReadText s => inr (Some s)
    | ReadRaises t => inl (Throws t)
    | ReadStalls => inl Stalls
    end
  else inr None.

(** [String(error)]. *)
Definition to_string (error : ScriptThrown) : Sandbox jstr :=
  let '(mkThrown _ _ _ text) := error in
  match text with ConvText s => inr s | ConvRaises t => inl (Throws t) | ConvStalls => inl Stalls end.

Definition errorMessage (error : ScriptThrown) : Sandbox jstr :=
  match errorText error key_message with
  | inl t => inl t
  | inr (Some s) => inr s
  | inr None => to_string error
  end.

Definition isTimeout (error : ScriptThrown) : Sandbox bool :=
  match errorText error key_code with
  | inl t => inl t
  | inr code => inr (bool_decide (code = Some (js "ERR_SCRIPT_EXECUTION_TIMEOUT")))
  end.

(** ** sandbox.ts: compilation *)

(** [s.split(sep)]; [skip] counts the units of a separator still to pass. *)
Fixpoint split_go (sep : jstr) (skip : nat) (acc s : jstr) : list jstr :=
  match s with
  | [] => [reverse acc]
  | c :: s' =>
      match skip with
      | S skip => split_go sep skip acc s'
      | O => if bool_decide (sep `prefix_of` s) then reverse acc :: split_go sep (pred (length sep)) [] s'
             else split_go sep O (c :: acc) s'
      end
  end.
Definition jsplit (sep s : jstr) : list jstr := split_go sep O [] s.

(** The V8 position block and the error line; the frames are dropped. *)
Definition stackHead (stack : option jstr) : option jstr :=
  match stack with
  | None => None
  | Some stack =>
      let sections := jsplit (jnl ++ jnl) stack in
      let position := trim (default [] (sections !! 0%nat)) in
      let errorLine := match sections !! 1%nat with
                       | Some s => trim (default [] (jsplit jnl s !! 0%nat))
                       | None => []
                       end in
      let text := jjoin jnl (filter (λ part, part ≠ []) [position; errorLine]) in
      if bool_decide (text = []) then None else Some text
  end.

Definition compileDetail (error : ScriptThrown) : Sandbox jstr :=
  match errorText error key_stack with
  | inl t => inl t
  | inr stack =>
      match stackHead stack with
      | Some block => inr block
      | None =>
          match errorText error key_name with
          | inl t => inl t
          | inr name =>
              match errorMessage error with
              | inl t => inl t
              | inr message =>
                  inr (match name with Some name => name ++ js ": " ++ message | None => message end)
              end
          end
      end
  end.

Definition compileRejection (error : ScriptThrown) : Sandbox jstr :=
  match compileDetail error with
  | inl t => inl t
  | inr detail => inr (js "hook script does not compile:" ++ jnl ++ detail)
  end.

Definition BANNED_PATTERNS : list jstr :=
  js <$> ["require("; "import "; "process."; "globalThis."; "global."; "fetch("; "child_process"; "eval("; "Function("].

Definition wrapSource (source : jstr) : jstr :=
  js "(function(board) {" ++ jnl ++ source ++ jnl ++ js "})(board)".

(** ** sandbox.ts: results *)

Inductive HookRunResult : Type :=
| run_output (text : jstr)
| run_empty
| run_error (message : jstr)
| run_timeout
| run_truncated (text : jstr).

Definition NOT_SERIALIZABLE : jstr := js "output is not serializable".

Definition textResult (text : jstr) : HookRunResult :=
  if jlen text =? 0 then run_empty
  else if MAX_OUTPUT_CHARS <? jlen text then run_truncated (slice_to text MAX_OUTPUT_CHARS)
  else run_output text.

Definition classifyOutput (returned : JsValue) : Sandbox HookRunResult :=
  match returned with
  | VString s => inr (textResult s)
  | VUndefined => inr (run_error NOT_SERIALIZABLE)
  | VOther (SerText s) => inr (textResult s)
  | VOther SerRaised | VOther SerOther => inr (run_error NOT_SERIALIZABLE)
  | VOther SerStalls => inl Stalls
  end.

Section Hooks.
Context {Script : Type} (new_Script : jstr → ScriptThrown + Script).

(** [compileHookScript]: the script, or the text of the refusal. *)
Definition compileHookScript (source : jstr) : Sandbox (jstr + Script) :=
  if MAX_SCRIPT_CHARS <? jlen source then
    inr (inl (js "hook script exceeds the " ++ jnum MAX_SCRIPT_CHARS ++ js "-character limit (got "
              ++ jnum (jlen source) ++ js ")"))
  else
    match list_find (λ pattern, includes source pattern = true) BANNED_PATTERNS with
    | Some (_, banned) => inr (inl (js "hook script uses a banned pattern: " ++ banned))
    | None =>
        match new_Script (wrapSource source) with
        | inr script => inr (inr script)
        | inl error => match compileRejection error with inl t => inl t | inr text => inr (inl text) end
        end
    end.

Definition runHookScript (run_in_context : Script → BoardSnapshot → RunOutcome) (script : Script) (board : GameState)
    : Sandbox HookRunResult :=
  match run_in_context script (snapshot board) with
  | ScriptReturned v => classifyOutput v
  | ScriptRaised error =>
      match isTimeout error with
      | inl t => inl t
      | inr true => inr run_timeout
      | inr false =>
          match errorMessage error with inl t => inl t | inr message => inr (run_error message) end
      end
  end.

(** ** registry.ts *)

Record HookEntry : Type := mkHook {
  he_name : jstr;
  he_script : Script;
  he_source : jstr;
  he_order : Z;
}.

(** [entries] is a [Map], in insertion order. *)
Record HookRegistry : Type := mkRegistry { entries : list HookEntry; nextOrder : Z }.

Definition new_HookRegistry : HookRegistry := mkRegistry [] 0.

(** [Map.get], [Map.set] — a key that is there keeps its place — and [Map.delete]. *)
Definition hooks_get (name : jstr) (l : list HookEntry) : option HookEntry :=
  snd <$> list_find (λ e, he_name e = name) l.

Fixpoint hooks_set (entry : HookEntry) (l : list HookEntry) : list HookEntry :=
  match l with
  | [] => [entry]
  | e :: l => if bool_decide (he_name e = he_name entry) then entry :: l else e :: hooks_set entry l
  end.

Definition hooks_delete (name : jstr) (l : list HookEntry) : list HookEntry :=
  filter (λ e, he_name e ≠ name) l.

(** The sort of [ordered]. *)
Definition order_le (a b : HookEntry) : Prop := he_order a ≤ he_order b.
#[export] Instance order_le_dec : RelDecision order_le.
Proof. intros a b. unfold order_le. apply _. Defined.

Definition ordered (r : HookRegistry) : list HookEntry := merge_sort order_le (entries r).

Definition entriesInOrder (r : HookRegistry) : list HookEntry := ordered r.

Record HookSummary : Type := mkSummary { hs_name : jstr; hs_order : Z; hs_length : Z }.

Definition registry_list (r : HookRegistry) : list HookSummary :=
  (λ e, mkSummary (he_name e) (he_order e) (jlen (he_source e))) <$> ordered r.

Definition names (r : HookRegistry) : jstr :=
  match he_name <$> ordered r with
  | [] => js "(none)"
  | names => jjoin (js ", ") names
  end.

(** [HookWriteResult]: [Some] is the rejection. *)
Definition registry_set (r : HookRegistry) (name source : jstr) : Sandbox (HookRegistry * option jstr) :=
  if jlen (trim name) =? 0 then inr (r, Some (js "hook name must not be empty"))
  else
    let existing := hooks_get name (entries r) in
    if bool_decide (existing = None) && (MAX_HOOKS <=? Z.of_nat (length (entries r))) then
      inr (r, Some (js "at most " ++ jnum MAX_HOOKS ++ js " hooks can be registered (already "
                    ++ jnum (Z.of_nat (length (entries r))) ++ js "); remove one before adding another"))
    else
      match compileHookScript source with
      | inl t => inl t
      | inr (inl rejection) => inr (r, Some rejection)
      | inr (inr script) =>
          let '(order, next) := match existing with
                                | Some e => (he_order e, nextOrder r)
                                | None => (nextOrder r, nextOrder r + 1)
                                end in
          inr (mkRegistry (hooks_set (mkHook name script source order) (entries r)) next, None)
      end.

Definition registry_remove (r : HookRegistry) (name : jstr) : HookRegistry * option jstr :=
  match hooks_get name (entries r) with
  | None =>
      (r, Some (js "no hook named " ++ [34] ++ name ++ [34] ++ js " is registered; registered hooks: " ++ names r))
  | Some _ => (mkRegistry (hooks_delete name (entries r)) (nextOrder r), None)
  end.

(** ** tool.ts *)

Inductive SaoleiHookAction : Type := action_set | action_remove | action_list.

Definition SAOLEI_HOOK_ACTIONS : list (jstr * SaoleiHookAction) :=
  [(js "set", action_set); (js "remove", action_remove); (js "list", action_list)].

Definition ACCEPTED_FIELDS (action : SaoleiHookAction) : list jstr :=
  match action with
  | action_set => [js "name"; js "script"]
  | action_remove => [js "name"]
  | action_list => []
  end.

Definition action_name (action : SaoleiHookAction) : jstr :=
  match action with action_set => js "set" | action_remove => js "remove" | action_list => js "list" end.

(** [ha_action] is the field when it is a string, [ha_others] the other keys whose
    value is not [undefined]. *)
Record SaoleiHookToolArgs : Type := mkHookArgs {
  ha_action : option jstr;
  ha_name : option jstr;
  ha_script : option jstr;
  ha_others : list jstr;
}.

Definition SAOLEI_HOOK_TOOL_NAME : jstr := js "saolei_hook".

(** The arrow of the refusals. *)
Definition jarrow : jstr := [0x2192].

Definition refuse_hook (detail : jstr) : jstr :=
  SAOLEI_HOOK_TOOL_NAME ++ js " " ++ jarrow ++ js " rejected: " ++ detail.

Definition readAction (args : SaoleiHookToolArgs) : option SaoleiHookAction :=
  match ha_action args with
  | Some action => snd <$> (snd <$> list_find (λ a, a.1 = action) SAOLEI_HOOK_ACTIONS)
  | None => None
  end.

(** [Object.keys(record)] without the undefined values, [action] apart. *)
Definition present_fields (args : SaoleiHookToolArgs) : list jstr :=
  match ha_name args with Some _ => [js "name"] | None => [] end
  ++ match ha_script args with Some _ => [js "script"] | None => [] end ++ ha_others args.

Definition unexpectedFields (args : SaoleiHookToolArgs) (action : SaoleiHookAction) : list jstr :=
  JsJson.sort (filter (λ key, key ≠ js "action" ∧ key ∉ ACCEPTED_FIELDS action) (present_fields args)).

Inductive NormalizedCall : Type :=
| call_set (name script : jstr)
| call_remove (name : jstr)
| call_list.

Definition normalizeCall (args : SaoleiHookToolArgs) : jstr + NormalizedCall :=
  match readAction args with
  | None =>
      inl (refuse_hook (js "provide exactly one action: " ++ jjoin (js ", ") (fst <$> SAOLEI_HOOK_ACTIONS)))
  | Some action =>
      match unexpectedFields args action with
      | _ :: _ as unexpected =>
          inl (refuse_hook (js "the " ++ action_name action ++ js " action does not accept: " ++ jjoin (js ", ") unexpected))
      | [] =>
          match action with
          | action_set =>
              match ha_name args, ha_script args with
              | Some name, Some script => inr (call_set name script)
              | name, script =>
                  let missing := match name with None => [js "name"] | Some _ => [] end
                                 ++ match script with None => [js "script"] | Some _ => [] end in
                  inl (refuse_hook (js "the set action requires " ++ jjoin (js " and ") missing))
              end
          | action_remove =>
              match ha_name args with
              | Some name => inr (call_remove name)
              | None => inl (refuse_hook (js "the remove action requires name"))
              end
          | action_list => inr call_list
          end
      end
  end.

Definition list_line (s : HookSummary) : jstr :=
  js "- " ++ hs_name s ++ js " (order " ++ jnum (hs_order s) ++ js ", " ++ jnum (hs_length s) ++ js " chars)".

Definition listText (r : HookRegistry) : jstr :=
  match registry_list r with
  | [] => SAOLEI_HOOK_TOOL_NAME ++ js " " ++ jarrow ++ js " no hooks registered"
  | entries => js "registered hooks (execution order):" ++ jnl ++ jjoin jnl (list_line <$> entries)
  end.

(** [executeSaoleiHook]: the registry after the call and the text of the result. *)
Definition executeSaoleiHook (r : HookRegistry) (args : SaoleiHookToolArgs) : Sandbox (HookRegistry * jstr) :=
  match normalizeCall args with
  | inl rejection => inr (r, rejection)
  | inr (call_set name script) =>
      match registry_set r name script with
      | inl t => inl t
      | inr (r, None) => inr (r, js "registered hook " ++ [34] ++ name ++ [34])
      | inr (r, Some rejection) => inr (r, refuse_hook rejection)
      end
  | inr (call_remove name) =>
      match registry_remove r name with
      | (r, None) => inr (r, js "removed hook " ++ [34] ++ name ++ [34])
      | (r, Some rejection) => inr (r, refuse_hook rejection)
      end
  | inr call_list => inr (r, listText r)
  end.

(** ** handler.ts *)

Definition announcementFor (name : jstr) (result : HookRunResult) : option jstr :=
  match result with
  | run_output text => Some (js "[hook " ++ name ++ js "] " ++ text)
  | run_truncated text => Some (js "[hook " ++ name ++ js "] " ++ text ++ js " ...[truncated]")
  | run_error message => Some (js "[hook " ++ name ++ js "] error: " ++ message)
  | run_timeout => Some (js "[hook " ++ name ++ js "] timeout after " ++ jnum EXECUTION_TIMEOUT_MS ++ js "ms")
  | run_empty => None
  end.

Section Handler.
Context {World : Type}.

(** A call that may throw, on a text. *)
Definition Callback : Type := World → jstr → World * option ScriptThrown.

Context (run_in_context : Script → BoardSnapshot → RunOutcome) (announce : Callback) (logger : option Callback).

(** The loop of the handler; [Some] is how it breaks off. *)
Fixpoint run_hooks (hooks : list HookEntry) (board : GameState) (w : World) : World * option Abrupt :=
  match hooks with
  | [] => (w, None)
  | hook :: hooks =>
      match runHookScript run_in_context (he_script hook) board with
      | inl t => (w, Some t)
      | inr result =>
          match announcementFor (he_name hook) result with
          | None => run_hooks hooks board w
          | Some text =>
              match announce w text with
              | (w, Some t) => (w, Some (Throws t))
              | (w, None) => run_hooks hooks board w
              end
          end
      end
  end.

(** handler.ts [errorMessage]. *)
Definition handler_errorMessage (error : ScriptThrown) : Sandbox jstr :=
  let '(mkThrown is_error _ read _) := error in
  if is_error then
    match read key_message with
    | ReadText s => inr s
    | ReadRaises t => inl (Throws t)
    | ReadStalls => inl Stalls
    | Missing | NotString => inr []
    end
  else to_string error.

(** The callback; [Some (Throws t)] escapes from it, and with [Some Stalls] it never
    returns. *)
Definition onBoardChange (r : HookRegistry) (entry : GameLogEntry) (w : World) : World * option Abrupt :=
  match run_hooks (entriesInOrder r) (le_state entry) w with
  | (w, None) => (w, None)
  | (w, Some Stalls) => (w, Some Stalls)
  | (w, Some (Throws error)) =>
      match logger with
      | None => (w, None)
      | Some warn =>
          match handler_errorMessage error with
          | inl abrupt => (w, Some abrupt)
          | inr message =>
              let '(w, thrown) := warn w (js "saolei hook handler failed: " ++ message) in (w, Throws <$> thrown)
          end
      end
  end.

End Handler.
End Hooks.

#[global] Arguments HookEntry Script : clear implicits.
#[global] Arguments HookRegistry Script : clear implicits.
#[global] Arguments Callback World : clear implicits.
