(* ===== verification/HooksFacts.v ===== *)
(** * The hook engine: properties

    The registry implements an ordered list of named scripts; a board change
    broadcasts the results of the scripts in that order and lets nothing escape;
    and the games of the runtime are played the same with and without hooks. *)

From S2P Require Import Prelude JsText JsJson BoardTypes Rules GameText Wire Runtime Hooks.
From stdpp Require Import sorting.

#[local] Open Scope Z_scope.

Section Facts.
Context {Script : Type} (new_Script : jstr → ScriptThrown + Script).

(** ** Maps in insertion order *)

Lemma hooks_get_Some name (l : list (HookEntry Script)) e :
  hooks_get name l = Some e →
  ∃ l1 l2, l = l1 ++ e :: l2 ∧ he_name e = name ∧ name ∉ he_name <$> l1 ∧
    ∀ entry, he_name entry = name → hooks_set entry l = l1 ++ entry :: l2.
Proof.
  unfold hooks_get. induction l as [|x l IH]; [done|]. simpl. case_decide as Hx.
  - intros [= <-]. exists [], l. split_and!; [done..|by apply not_elem_of_nil|].
    intros entry Hn. simpl. by rewrite bool_decide_eq_true_2 by congruence.
  - destruct (list_find _ l) as [[i y]|]; [|done]. simpl in *. intros [= ->].
    destruct (IH eq_refl) as (l1 & l2 & -> & Hn & Hl1 & Hset). exists (x :: l1), l2.
    split_and!; [done..|by rewrite fmap_cons, not_elem_of_cons|].
    intros entry Hentry. simpl. rewrite bool_decide_eq_false_2 by congruence. by rewrite Hset.
Qed.

Lemma hooks_get_None name (l : list (HookEntry Script)) :
  hooks_get name l = None →
  name ∉ he_name <$> l ∧ ∀ entry, he_name entry = name → hooks_set entry l = l ++ [entry].
Proof.
  unfold hooks_get. rewrite fmap_None, list_find_None, Forall_forall. intros Hn. split.
  - intros (e & -> & He)%list_elem_of_fmap. by apply (Hn e).
  - intros entry Hentry. induction l as [|x l IH]; [done|]. simpl.
    rewrite bool_decide_eq_false_2 by (rewrite Hentry; apply Hn; by left).
    f_equal. apply IH. intros y Hy. apply Hn. by right.
Qed.

(** ** The registry's invariant *)

Definition order_lt (a b : HookEntry Script) : Prop := he_order a < he_order b.

(** What registration established of a script. *)
Definition script_ok (source : jstr) (script : Script) : Prop :=
  jlen source ≤ MAX_SCRIPT_CHARS ∧ Forall (λ p, includes source p = false) BANNED_PATTERNS ∧
  new_Script (wrapSource source) = inr script.

Record registry_inv (r : HookRegistry Script) : Prop := {
  ri_names : NoDup (he_name <$> entries r);
  ri_size : Z.of_nat (length (entries r)) ≤ MAX_HOOKS;
  ri_sorted : StronglySorted order_lt (entries r);
  ri_next : 0 ≤ nextOrder r ∧ Forall (λ e, 0 ≤ he_order e < nextOrder r) (entries r);
  ri_scripts : Forall (λ e, trim (he_name e) ≠ [] ∧ script_ok (he_source e) (he_script e)) (entries r);
}.

#[local] Instance order_le_trans : Transitive (order_le (Script:=Script)).
Proof. intros a b c. unfold order_le. lia. Qed.
#[local] Instance order_le_total : Total (order_le (Script:=Script)).
Proof. intros a b. unfold order_le. lia. Qed.

(** Insertion order is registration order. *)
Lemma ordered_entries r : registry_inv r → ordered r = entries r.
Proof.
  intros [_ _ Hs _ _]. apply (StronglySorted_unique_strong order_le).
  - intros a b Ha Hb Hab Hba. unfold ordered in Ha. rewrite merge_sort_Permutation in Ha.
    unfold order_le in Hab, Hba. clear -Hs Ha Hb Hab Hba. induction Hs as [|x l _ IH Hx]; [by apply elem_of_nil in Ha|].
    rewrite Forall_forall in Hx. unfold order_lt in Hx.
    apply elem_of_cons in Ha as [->|Ha], Hb as [->|Hb]; [done| | |by apply IH].
    + specialize (Hx _ Hb). simpl in *. lia.
    + specialize (Hx _ Ha). simpl in *. lia.
  - apply (StronglySorted_merge_sort _).
  - clear -Hs. induction Hs as [|x l _ IH Hx]; constructor; [done|].
    eapply Forall_impl; [exact Hx|]. intros y. unfold order_lt, order_le. lia.
  - apply merge_sort_Permutation.
Qed.

Lemma new_registry_inv : registry_inv new_HookRegistry.
Proof. split; simpl; [constructor|by vm_compute|constructor|by split|constructor]. Qed.

(** Compilation accepts exactly the valid scripts. *)
Lemma compile_accepts source script :
  compileHookScript new_Script source = inr (inr script) ↔ script_ok source script.
Proof.
  unfold compileHookScript, script_ok.
  destruct (Z.ltb_spec MAX_SCRIPT_CHARS (jlen source)) as [Hl|Hl]; [split; [done|lia]|].
  destruct (list_find _ BANNED_PATTERNS) as [[i p]|] eqn:Ef.
  - apply list_find_Some in Ef as (Hi & Hp & _). apply list_elem_of_lookup_2 in Hi.
    split; [done|]. intros (_ & Hb & _). rewrite Forall_forall in Hb. specialize (Hb p Hi). congruence.
  - apply list_find_None in Ef.
    assert (Forall (λ p, includes source p = false) BANNED_PATTERNS) as Hb
      by (eapply Forall_impl; [exact Ef|]; intros p Hp; by apply not_true_is_false).
    destruct (new_Script _) as [t|s] eqn:E.
    + split; [|by intros (_ & _ & ?)]. by destruct (compileRejection t).
    + split; [by intros [= ->]|intros (_ & _ & [= ->]); done].
Qed.

(** A write: refused, or the script put at its place. *)
Lemma registry_set_cases r name source :
  (∃ t, registry_set new_Script r name source = inl t) ∨
  (∃ rejection, registry_set new_Script r name source = inr (r, Some rejection) ∧
     ¬ (trim name ≠ [] ∧ (name ∈ he_name <$> entries r ∨ Z.of_nat (length (entries r)) < MAX_HOOKS) ∧
        ∃ script, script_ok source script)) ∨
  (∃ script, trim name ≠ [] ∧ script_ok source script ∧
    ((∃ l1 e l2, entries r = l1 ++ e :: l2 ∧ he_name e = name ∧ name ∉ he_name <$> l1 ∧
       registry_set new_Script r name source =
         inr (mkRegistry (l1 ++ mkHook name script source (he_order e) :: l2) (nextOrder r), None)) ∨
     (name ∉ he_name <$> entries r ∧ Z.of_nat (length (entries r)) < MAX_HOOKS ∧
       registry_set new_Script r name source =
         inr (mkRegistry (entries r ++ [mkHook name script source (nextOrder r)]) (nextOrder r + 1), None)))).
Proof.
  unfold registry_set. destruct (Z.eqb_spec (jlen (trim name)) 0) as [Hz|Hz].
  { right; left. eexists. split; [done|]. intros [Hn _]. apply Hn. unfold jlen in Hz. by destruct (trim name). }
  assert (trim name ≠ []) as Hne by (intros E; rewrite E in Hz; by unfold jlen in Hz).
  destruct (hooks_get name (entries r)) as [e|] eqn:Eg.
  - rewrite bool_decide_eq_false_2 by done. simpl.
    destruct (compileHookScript new_Script source) as [t|[rejection|script]] eqn:Ec; [left; by eexists| |].
    + right; left. exists rejection. split; [done|]. intros (_ & _ & script & Hok%compile_accepts). congruence.
    + right; right. apply compile_accepts in Ec. exists script. split_and!; [done..|left].
      destruct (hooks_get_Some _ _ _ Eg) as (l1 & l2 & El & Hn & Hl1 & Hset). exists l1, e, l2.
      split_and!; [done..|]. by rewrite Hset.
  - rewrite bool_decide_eq_true_2 by done. simpl. destruct (hooks_get_None _ _ Eg) as [Hn Hset].
    destruct (Z.leb_spec MAX_HOOKS (Z.of_nat (length (entries r)))) as [Hl|Hl].
    { right; left. eexists. split; [done|]. intros (_ & [?|?] & _); [done|lia]. }
    destruct (compileHookScript new_Script source) as [t|[rejection|script]] eqn:Ec; [left; by eexists| |].
    + right; left. exists rejection. split; [done|]. intros (_ & _ & script & Hok%compile_accepts). congruence.
    + right; right. apply compile_accepts in Ec. exists script. split_and!; [done..|right].
      split_and!; [done..|]. by rewrite Hset.
Qed.

(** Replacing an entry by one of the same name and order keeps the invariant. *)
Lemma replaced_inv l1 e l2 next name script source :
  registry_inv (mkRegistry (l1 ++ e :: l2) next) → he_name e = name → trim name ≠ [] → script_ok source script →
  registry_inv (mkRegistry (l1 ++ mkHook name script source (he_order e) :: l2) next).
Proof.
  intros [Hn Hz Hs Hx Hc] He Ht Hok. simpl in *. split; simpl.
  - rewrite fmap_app, fmap_cons in *. simpl. by rewrite <- He.
  - rewrite length_app in *. done.
  - apply StronglySorted_app in Hs as (Hs1 & Hs2 & Hs12). apply StronglySorted_app. split_and!; [|done|].
    + intros x y Hx1 [->|Hy]%elem_of_cons; [apply (Hs1 x e Hx1); by left|apply (Hs1 x y Hx1); by right].
    + apply StronglySorted_cons in Hs12 as [Hs3 Hs4]. by apply StronglySorted_cons.
  - rewrite Forall_app, Forall_cons in *. naive_solver.
  - rewrite Forall_app, Forall_cons in *. naive_solver.
Qed.

Lemma appended_inv r name script source :
  registry_inv r → name ∉ he_name <$> entries r → Z.of_nat (length (entries r)) < MAX_HOOKS → trim name ≠ [] →
  script_ok source script →
  registry_inv (mkRegistry (entries r ++ [mkHook name script source (nextOrder r)]) (nextOrder r + 1)).
Proof.
  intros [Hn Hz Hs [H0 Hx] Hc] Hname Hlen Ht Hok. split; simpl.
  - rewrite fmap_app. apply NoDup_app. split_and!; [done| |apply NoDup_singleton].
    intros x Hx' ->%list_elem_of_singleton. by apply Hname.
  - rewrite length_app. simpl. lia.
  - apply StronglySorted_app. split_and!; [|done|by repeat constructor].
    intros x y Hx1 ->%list_elem_of_singleton. unfold order_lt. simpl. rewrite Forall_forall in Hx. by apply Hx.
  - split; [lia|]. rewrite Forall_app, Forall_singleton. simpl. split; [|lia]. eapply Forall_impl; [exact Hx|]. simpl. lia.
  - rewrite Forall_app, Forall_singleton. simpl. done.
Qed.

Lemma registry_remove_cases (r : HookRegistry Script) name :
  (name ∉ he_name <$> entries r ∧ ∃ rejection, registry_remove r name = (r, Some rejection)) ∨
  (name ∈ he_name <$> entries r ∧
   registry_remove r name = (mkRegistry (filter (λ e, he_name e ≠ name) (entries r)) (nextOrder r), None)).
Proof.
  unfold registry_remove. destruct (hooks_get name (entries r)) as [e|] eqn:Eg; [right|left].
  - apply hooks_get_Some in Eg as (l1 & l2 & -> & <- & _). split; [|done].
    rewrite fmap_app, fmap_cons. apply elem_of_app. right. by left.
  - apply hooks_get_None in Eg as [Hn _]. split; [done|]. by eexists.
Qed.

Lemma removed_inv r name :
  registry_inv r → registry_inv (mkRegistry (filter (λ e : HookEntry Script, he_name e ≠ name) (entries r)) (nextOrder r)).
Proof.
  intros [Hn Hz Hs [H0 Hx] Hc]. split; simpl.
  - clear -Hn. induction (entries r) as [|e l IH]; [constructor|]. rewrite fmap_cons in Hn. apply NoDup_cons in Hn as [He Hn].
    rewrite filter_cons. case_decide; [|by apply IH]. rewrite fmap_cons. apply NoDup_cons. split; [|by apply IH].
    intros (x & Hx & [_ Hin]%list_elem_of_filter)%list_elem_of_fmap. apply He. rewrite Hx. by apply list_elem_of_fmap_2.
  - etransitivity; [|exact Hz]. apply inj_le, length_filter.
  - clear -Hs. induction Hs as [|e l _ IH He]; [constructor|]. rewrite filter_cons.
    case_decide; [|done]. constructor; [done|]. rewrite Forall_forall in *.
    intros x [_ Hx]%list_elem_of_filter. by apply He.
  - split; [done|]. rewrite Forall_forall in *. intros e [_ He]%list_elem_of_filter. by apply Hx.
  - rewrite Forall_forall in *. intros e [_ He]%list_elem_of_filter. by apply Hc.
Qed.

(** ** The tool implements a list of named scripts *)

(** The scripts in execution order, by name. *)
Definition view (r : HookRegistry Script) : list (jstr * jstr) := (λ e, (he_name e, he_source e)) <$> entriesInOrder r.

Definition valid_source (source : jstr) : bool :=
  (jlen source <=? MAX_SCRIPT_CHARS) && forallb (λ p, negb (includes source p)) BANNED_PATTERNS &&
  match new_Script (wrapSource source) with inr _ => true | inl _ => false end.

Definition acceptable (l : list (jstr * jstr)) (name source : jstr) : bool :=
  negb (bool_decide (trim name = [])) &&
  (bool_decide (name ∈ l.*1) || (Z.of_nat (length l) <? MAX_HOOKS)) && valid_source source.

(** A known name keeps its place. *)
Definition spec_put (l : list (jstr * jstr)) (name source : jstr) : list (jstr * jstr) :=
  if bool_decide (name ∈ l.*1) then (λ p, if bool_decide (p.1 = name) then (name, source) else p) <$> l
  else l ++ [(name, source)].

Definition hook_spec (l : list (jstr * jstr)) (args : SaoleiHookToolArgs) : list (jstr * jstr) :=
  match normalizeCall args with
  | inr (call_set name source) => if acceptable l name source then spec_put l name source else l
  | inr (call_remove name) => filter (λ p, p.1 ≠ name) l
  | inr call_list | inl _ => l
  end.

(** What a call answers. *)
Definition hook_answer (l : list (jstr * jstr)) (args : SaoleiHookToolArgs) (text : jstr) : Prop :=
  match normalizeCall args with
  | inl rejection => text = rejection
  | inr (call_set name source) =>
      if acceptable l name source then text = js "registered hook " ++ [34] ++ name ++ [34]
      else ∃ why, text = refuse_hook why
  | inr (call_remove name) =>
      if bool_decide (name ∈ l.*1) then text = js "removed hook " ++ [34] ++ name ++ [34]
      else ∃ why, text = refuse_hook why
  | inr call_list =>
      ∃ orders, StronglySorted Z.lt orders ∧ length orders = length l ∧
        text = match l with
               | [] => js "saolei_hook " ++ jarrow ++ js " no hooks registered"
               | _ => js "registered hooks (execution order):" ++ jnl ++
                      jjoin jnl (zip_with (λ p order, list_line (mkSummary p.1 order (jlen p.2))) l orders)
               end
  end.

Definition tool_step (r : HookRegistry Script) (args : SaoleiHookToolArgs) : HookRegistry Script :=
  match executeSaoleiHook new_Script r args with inr (r, _) => r | inl _ => r end.

Definition tool_run (calls : list SaoleiHookToolArgs) : HookRegistry Script := fold_left tool_step calls new_HookRegistry.

Lemma valid_source_spec source : valid_source source = true ↔ ∃ script, script_ok source script.
Proof.
  unfold valid_source, script_ok. rewrite !andb_true_iff, Z.leb_le, forallb_forall.
  setoid_rewrite negb_true_iff.
  assert ((∀ x, In x BANNED_PATTERNS → includes source x = false) ↔ Forall (λ p, includes source p = false) BANNED_PATTERNS) as ->
    by (rewrite Forall_forall; by setoid_rewrite list_elem_of_In).
  destruct (new_Script _) as [t|script]; split; try naive_solver.
Qed.

Lemma view_entries r : registry_inv r → view r = (λ e, (he_name e, he_source e)) <$> entries r.
Proof. intros Hr. unfold view, entriesInOrder. by rewrite ordered_entries. Qed.

Lemma view_names r : registry_inv r → (view r).*1 = he_name <$> entries r.
Proof. intros Hr. rewrite view_entries by done. by rewrite <- list_fmap_compose. Qed.

Lemma acceptable_spec r name source : registry_inv r →
  acceptable (view r) name source = true ↔
  trim name ≠ [] ∧ (name ∈ he_name <$> entries r ∨ Z.of_nat (length (entries r)) < MAX_HOOKS) ∧
  ∃ script, script_ok source script.
Proof.
  intros Hr. unfold acceptable. rewrite !andb_true_iff, negb_true_iff, orb_true_iff, bool_decide_eq_false, bool_decide_eq_true,
    Z.ltb_lt, valid_source_spec, view_names by done.
  rewrite view_entries, length_fmap by done. tauto.
Qed.

Lemma spec_put_known (l1 l2 : list (HookEntry Script)) e name source entry :
  NoDup (he_name <$> l1 ++ e :: l2) → he_name e = name → he_name entry = name → he_source entry = source →
  spec_put ((λ e, (he_name e, he_source e)) <$> l1 ++ e :: l2) name source =
  (λ e, (he_name e, he_source e)) <$> l1 ++ entry :: l2.
Proof.
  intros Hnd He Hn Hs. unfold spec_put. rewrite bool_decide_eq_true_2.
  2:{ rewrite <- list_fmap_compose. unfold compose. simpl. rewrite fmap_app, fmap_cons, <- He. apply elem_of_app. right. by left. }
  rewrite fmap_app, fmap_cons in Hnd. apply NoDup_app in Hnd as (_ & Hd & Hnd). apply NoDup_cons in Hnd as [Hn2 _].
  assert (∀ l : list (HookEntry Script), name ∉ he_name <$> l →
    (λ p : jstr * jstr, if bool_decide (p.1 = name) then (name, source) else p) <$> ((λ e, (he_name e, he_source e)) <$> l)
    = (λ e, (he_name e, he_source e)) <$> l) as Hkeep.
  { intros l Hl. induction l as [|x l IH]; [done|]. rewrite fmap_cons in Hl. apply not_elem_of_cons in Hl as [Hx Hl].
    rewrite !fmap_cons, IH by done. simpl. by rewrite bool_decide_eq_false_2. }
  rewrite !fmap_app, !fmap_cons, !Hkeep.
  - simpl. rewrite bool_decide_eq_true_2 by done. by rewrite Hn, Hs.
  - by rewrite <- He.
  - intros H. rewrite <- He in H. apply (Hd _ H). by left.
Qed.

Lemma listing_lines (l : list (HookEntry Script)) :
  list_line <$> ((λ e, mkSummary (he_name e) (he_order e) (jlen (he_source e))) <$> l) =
  zip_with (λ p order, list_line (mkSummary p.1 order (jlen p.2))) ((λ e, (he_name e, he_source e)) <$> l) (he_order <$> l).
Proof. induction l as [|e l IH]; [done|]. rewrite !fmap_cons, IH. done. Qed.

(** One call: the invariant, the list it stands for, the answer. *)
Lemma tool_step_spec r args : registry_inv r →
  registry_inv (tool_step r args) ∧ view (tool_step r args) = hook_spec (view r) args ∧
  match executeSaoleiHook new_Script r args with inr (_, text) => hook_answer (view r) args text | inl _ => True end.
Proof.
  intros Hr. unfold tool_step, executeSaoleiHook, hook_spec, hook_answer.
  destruct (normalizeCall args) as [rejection|[name source|name|]]; [done| | |].
  - destruct (registry_set_cases r name source) as [[t Ht]|[(rejection & E & Hno)|(script & Htrim & Hok & Hcases)]].
    + rewrite Ht. split_and!; [done| |done].
      destruct (acceptable (view r) name source) eqn:Ea; [|done]. apply acceptable_spec in Ea as (_ & _ & script & Hok); [|done].
      exfalso. apply compile_accepts in Hok. unfold registry_set in Ht. rewrite Hok in Ht.
      repeat case_match; done.
    + rewrite E. assert (acceptable (view r) name source = false) as ->
        by (apply not_true_is_false; intros Ha; by apply Hno, (acceptable_spec r)).
      split_and!; [done..|by eexists].
    + assert (acceptable (view r) name source = true) as ->.
      { apply acceptable_spec; [done|]. split_and!; [done| |by eexists].
        destruct Hcases as [(l1 & e & l2 & -> & <- & _)|(_ & ? & _)]; [left|by right].
        rewrite fmap_app, fmap_cons. apply elem_of_app. right. by left. }
      destruct Hcases as [(l1 & e & l2 & El & Hn & _ & ->)|(Hn & Hlen & ->)].
      * destruct r as [l next]. simpl in *. subst l.
        pose proof (replaced_inv l1 e l2 next name script source Hr Hn Htrim Hok) as Hinv.
        split_and!; [done| |done]. rewrite !view_entries by done. simpl.
        symmetry. apply spec_put_known; [apply Hr|done..].
      * pose proof (appended_inv r name script source Hr Hn Hlen Htrim Hok) as Hinv.
        split_and!; [done| |done]. unfold spec_put. rewrite view_names, bool_decide_eq_false_2 by done.
        rewrite !view_entries by done. simpl. by rewrite fmap_app.
  - destruct (registry_remove_cases r name) as [(Hn & rejection & ->)|(Hn & ->)].
    + split_and!; [done| |].
      * rewrite view_entries by done. symmetry. induction (entries r) as [|e l IH]; [done|].
        rewrite fmap_cons in Hn. apply not_elem_of_cons in Hn as [Hne Hn]. rewrite fmap_cons, filter_cons_True by (simpl; congruence).
        f_equal. by apply IH.
      * rewrite view_names, bool_decide_eq_false_2 by done. by eexists.
    + split_and!; [by apply removed_inv| |].
      * rewrite !view_entries by (done || by apply removed_inv). simpl.
        clear Hn. induction (entries r) as [|e l IH]; [done|]. rewrite fmap_cons. destruct (decide (he_name e = name)) as [E|E].
        -- rewrite !filter_cons_False by (simpl; tauto). exact IH.
        -- rewrite !filter_cons_True by done. rewrite fmap_cons. by f_equal.
      * by rewrite view_names, bool_decide_eq_true_2 by done.
  - split_and!; [done..|]. unfold listText, registry_list. rewrite ordered_entries by done.
    exists (he_order <$> entries r). split_and!.
    + apply (StronglySorted_fmap he_order order_lt Z.lt); [done|apply Hr].
    + by rewrite view_entries, !length_fmap.
    + rewrite view_entries, <- listing_lines by done. by destruct (entries r).
Qed.

Lemma tool_run_spec calls :
  registry_inv (tool_run calls) ∧ view (tool_run calls) = fold_left hook_spec calls [].
Proof.
  unfold tool_run. change [] with (view new_HookRegistry).
  generalize (@new_registry_inv). generalize (@new_HookRegistry Script). induction calls as [|args calls IH]; intros r Hr; [done|].
  simpl. destruct (tool_step_spec r args Hr) as (Hr' & Hv & _). rewrite <- Hv. by apply IH.
Qed.

(** C17: The hook tool.  After any calls the registry stands for the list of scripts
    the calls describe, in execution order: a valid script is appended, or put in the
    place of the script of its name, as long as there are at most eight; a removal
    takes out the script of that name; every other call changes nothing.  Each call
    answers accordingly, with a confirmation, the listing or a refusal. *)
Theorem hook_tool_refines calls args :
  let scripts := fold_left hook_spec calls [] in
  view (tool_run calls) = scripts ∧ view (tool_step (tool_run calls) args) = hook_spec scripts args ∧
  match executeSaoleiHook new_Script (tool_run calls) args with
  | inr (_, text) => hook_answer scripts args text
  | inl _ => True
  end.
Proof.
  intros scripts. destruct (tool_run_spec calls) as [Hr Hv]. split; [done|].
  subst scripts. rewrite <- Hv. apply (tool_step_spec _ args Hr).
Qed.

(** Whatever is asked of the tool, the registered names are distinct and not
    blank, there are at most eight of them, every source is within the length cap,
    free of the banned patterns, and compiled to the script that is run, and the
    registration orders ascend with the positions, so that nothing is reordered. *)
Theorem hook_registry_bounded calls :
  let r := tool_run calls in
  NoDup (he_name <$> entries r) ∧ Z.of_nat (length (entries r)) ≤ 8 ∧
  StronglySorted (λ a b, he_order a < he_order b) (entries r) ∧ entriesInOrder r = entries r ∧
  ∀ e, e ∈ entries r →
    trim (he_name e) ≠ [] ∧ jlen (he_source e) ≤ 16384 ∧
    (∀ p, p ∈ BANNED_PATTERNS → includes (he_source e) p = false) ∧
    new_Script (wrapSource (he_source e)) = inr (he_script e).
Proof.
  intros r. destruct (tool_run_spec calls) as [Hr _]. pose proof (ordered_entries _ Hr). destruct Hr as [Hn Hz Hs _ Hc].
  split_and!; [done..|]. intros e He. rewrite Forall_forall in Hc. destruct (Hc e He) as (Ht & Hl & Hb & Hok).
  rewrite Forall_forall in Hb. done.
Qed.

(** ** Running the hooks *)

Section Handler.
Context {World : Type} (run_in_context : Script → BoardSnapshot → RunOutcome) (announce : Callback World).

(** The announcements of a list of scripts, and the world after some announcements. *)
Definition announcements (hooks : list (HookEntry Script)) (board : GameState) : list jstr :=
  omap (λ h, match runHookScript run_in_context (he_script h) board with
             | inr result => announcementFor (he_name h) result
             | inl _ => None
             end) hooks.

Definition announce_all (w : World) (texts : list jstr) : World := foldl (λ w text, (announce w text).1) w texts.

(** A script stops the event: it throws out of the sandbox, it does not end, or its
    announcement throws. *)
Definition stops (board : GameState) (w : World) (h : HookEntry Script) (w' : World) (abrupt : Abrupt) : Prop :=
  (runHookScript run_in_context (he_script h) board = inl abrupt ∧ w' = w) ∨
  (∃ text t, announcements [h] board = [text] ∧ announce w text = (w', Some t) ∧ abrupt = Throws t).

Lemma announcements_cons h hooks board :
  announcements (h :: hooks) board = announcements [h] board ++ announcements hooks board.
Proof. unfold announcements. cbn. by case_match. Qed.

Lemma run_hooks_spec hooks board w w' thrown :
  run_hooks run_in_context announce hooks board w = (w', thrown) →
  ∃ ran rest, hooks = ran ++ rest ∧
    match thrown with
    | None => rest = [] ∧ w' = announce_all w (announcements ran board)
    | Some abrupt => ∃ h rest', rest = h :: rest' ∧ stops board (announce_all w (announcements ran board)) h w' abrupt
    end.
Proof.
  revert w. induction hooks as [|h hooks IH]; intros w.
  - intros [= <- <-]. by exists [], [].
  - simpl. destruct (runHookScript _ _ _) as [t|result] eqn:Er.
    + intros [= <- <-]. exists [], (h :: hooks). split; [done|]. exists h, hooks. split; [done|]. by left.
    + destruct (announcementFor (he_name h) result) as [text|] eqn:Ea.
      * destruct (announce w text) as [w1 [t|]] eqn:Ew.
        -- intros [= <- <-]. exists [], (h :: hooks). split; [done|]. exists h, hooks. split; [done|]. right.
           exists text, t. unfold announcements. simpl. by rewrite Er, Ea.
        -- intros Hrun. destruct (IH w1 Hrun) as (ran & rest & -> & Hcase). exists (h :: ran), rest. split; [done|].
           rewrite announcements_cons. unfold announcements at 1 3. simpl. rewrite Er, Ea. simpl. by rewrite Ew.
      * intros Hrun. destruct (IH w Hrun) as (ran & rest & -> & Hcase). exists (h :: ran), rest. split; [done|].
        rewrite announcements_cons. unfold announcements at 1 3. simpl. by rewrite Er, Ea.
Qed.

(** A text is bounded, unless it reports an error. *)
Lemma announcement_length name script board result text :
  runHookScript run_in_context script board = inr result → announcementFor name result = Some text →
  (∃ message, result = run_error message) ∨ jlen text ≤ jlen name + 4119.
Proof.
  assert (∀ s : jstr, match textResult s with
                      | run_output t => jlen t ≤ 4096 | run_truncated t => jlen t = 4096
                      | run_empty => True | _ => False end) as Htext.
  { intros s. unfold textResult, MAX_OUTPUT_CHARS, slice_to. destruct (Z.eqb_spec (jlen s) 0); [done|].
    destruct (Z.ltb_spec 4096 (jlen s)); [|done]. unfold jlen in *. rewrite length_take. lia. }
  assert (∀ l : jstr, ∀ l', jlen (l ++ l') = jlen l + jlen l') as Happ by (intros; unfold jlen; rewrite length_app; lia).
  assert (∀ s, announcementFor name (textResult s) = Some text → jlen text ≤ jlen name + 4119) as Hres.
  { intros s. specialize (Htext s). destruct (textResult s); try done; intros E; apply (inj Some) in E; subst text; rewrite !Happ;
      change (jlen (js "[hook ")) with 6; change (jlen (js "] ")) with 2; [lia|].
    change (jlen (js " ...[truncated]")) with 15. lia. }
  unfold runHookScript. destruct (run_in_context script (snapshot board)) as [v|t].
  - destruct v as [s| |[| s| |]]; intros [= <-] Ha; simpl in *; eauto.
  - destruct (isTimeout t) as [|[|]]; [done| |].
    + intros [= <-] E. apply (inj Some) in E. subst text. right. rewrite !Happ. change (jlen (js "[hook ")) with 6.
      change (jlen (js "] timeout after ")) with 16. change (jlen (jnum EXECUTION_TIMEOUT_MS)) with 3.
      change (jlen (js "ms")) with 2. lia.
    + destruct (errorMessage t); [done|]. intros [= <-] _. eauto.
Qed.

(** A board change.  Nothing escapes into the game.  The scripts run in
    registration order on the board of the entry, and the announcements made are,
    one after the other, those of the scripts, silent ones left out: of all of them,
    or of those before the first that could not be reported, did not end (then the
    call does not return) or whose announcement failed.  An announcement is at most
    the name, the marker and 4096 characters long unless it reports an error. *)
Theorem board_change_announces calls entry w :
  let r := tool_run calls in
  let '(w', escaped) := onBoardChange run_in_context announce None r entry w in
  (∃ ran rest, entries r = ran ++ rest ∧
    match rest with
    | [] => escaped = None ∧ w' = announce_all w (announcements ran (le_state entry))
    | h :: _ => ∃ abrupt, stops (le_state entry) (announce_all w (announcements ran (le_state entry))) h w' abrupt ∧
        escaped = match abrupt with Throws _ => None | Stalls => Some Stalls end
    end) ∧
  ∀ h text, h ∈ entries r → announcements [h] (le_state entry) = [text] →
    (∃ message, runHookScript run_in_context (he_script h) (le_state entry) = inr (run_error message)) ∨
    jlen text ≤ jlen (he_name h) + 4119.
Proof.
  intros r. unfold onBoardChange, entriesInOrder. destruct (tool_run_spec calls) as [Hr _].
  rewrite ordered_entries by done. fold r.
  destruct (run_hooks _ _ _ _ w) as [w' thrown] eqn:Erun. apply run_hooks_spec in Erun as (ran & rest & El & Hcase).
  assert (∀ h text, h ∈ entries r → announcements [h] (le_state entry) = [text] →
    (∃ message, runHookScript run_in_context (he_script h) (le_state entry) = inr (run_error message)) ∨
    jlen text ≤ jlen (he_name h) + 4119) as Hlen.
  { intros h text _. unfold announcements. simpl. destruct (runHookScript _ _ _) as [|result] eqn:E; [done|].
    destruct (announcementFor _ result) as [text'|] eqn:Ea; [|done]. intros [= ->].
    destruct (announcement_length _ _ _ _ _ E Ea) as [[message ->]|?]; eauto. }
  destruct thrown as [[t|]|]; (split; [|done]); exists ran, rest; (split; [done|]).
  - destruct Hcase as (h & rest' & -> & Hstop). by eexists.
  - destruct Hcase as (h & rest' & -> & Hstop). by eexists.
  - by destruct Hcase as [-> ->].
Qed.

End Handler.
End Facts.

(** ** The hooks and the game

    The hooks unit as the board-change subscriber of a runtime: its registry, the
    scripts' outcomes and the announcer are parts of the world. *)
Section Game.
Context `{SaoleiBoardApi} (E : RuntimeEnv) {Script : Type} (registry : @W E → HookRegistry Script)
  (run_in_context : @W E → Script → BoardSnapshot → RunOutcome) (announce : Callback (@W E)).

Definition with_subscriber (f : option (@W E → GameLogEntry → @W E * bool)) : RuntimeEnv := {|
  W := @W E;
  env_dispatch := env_dispatch;
  env_now := env_now;
  env_onBoardChange := f;
  env_from_base64 := env_from_base64;
|}.

Definition after_hooks (w : @W E) (entry : GameLogEntry) : @W E * option Abrupt :=
  onBoardChange (run_in_context w) announce None (registry w) entry w.

(** The hooks as a subscriber: what a call gives where it ends; where it does not,
    the subscriber may stand for anything. *)
Definition runs_hooks (f : @W E → GameLogEntry → @W E * bool) : Prop :=
  ∀ w entry,
    match after_hooks w entry with
    | (w', None) => f w entry = (w', true)
    | (w', Some (Throws _)) => f w entry = (w', false)
    | (_, Some Stalls) => True
    end.

(** A script that takes the process with it on this board: code of its own that runs
    outside the budget does not end. *)
Definition stalls (w : @W E) (entry : GameLogEntry) : Prop :=
  ∃ h, h ∈ entriesInOrder (registry w) ∧
    runHookScript (run_in_context w) (he_script h) (le_state entry) = inl Stalls.

Definition hooks_env (f : @W E → GameLogEntry → @W E * bool) : RuntimeEnv := with_subscriber (Some f).

Definition plain_env : RuntimeEnv := with_subscriber None.

Lemma run_hooks_stalls run (hooks : list (HookEntry Script)) board w w' :
  run_hooks run announce hooks board w = (w', Some Stalls) →
  ∃ h, h ∈ hooks ∧ runHookScript run (he_script h) board = inl Stalls.
Proof.
  intros Hrun. apply run_hooks_spec in Hrun as (ran & rest & El & h & rest' & Er & [[Hr _]|(text & t & _ & _ & ?)]); [|done].
  exists h. split; [|done]. subst. apply elem_of_app. right. by left.
Qed.

Lemma after_hooks_quiet w entry : (after_hooks w entry).2 = None ∨ stalls w entry.
Proof.
  unfold after_hooks, onBoardChange. destruct (run_hooks _ _ _ _ _) as [w' [[t|]|]] eqn:E'; [by left| |by left].
  right. by eapply run_hooks_stalls.
Qed.

Lemma loop_same f ops l rt w : @operate_loop _ (hooks_env f) ops l rt w = @operate_loop _ plain_env ops l rt w.
Proof. reflexivity. Qed.

(** The entry on which the hooks run: the last of the log, when the batch executed
    something, was committed and left the game in play. *)
Definition hooked (rt rt' : GameRuntime) : option GameLogEntry :=
  entry ← last (gameLog rt');
  if bool_decide (length (gameLog rt') = S (length (gameLog rt)) ∧
                  rt_operationCount rt < rt_operationCount rt' ∧ le_status entry = playing)
  then Some entry else None.

(** What a loop tells when it is left. *)
Lemma loop_facts ops l rt w rt' w' exit :
  @operate_loop _ plain_env ops l rt w = (rt', w', exit) →
  gameLog rt' = gameLog rt ∧
  match exit with
  | LoopDone l' =>
      executed l' - executed l = rt_operationCount rt' - rt_operationCount rt ∧
      (endedStatus l = None → ∀ status, endedStatus l' = Some status →
         status ≠ playing ∧ ∀ s, recognized rt' = Some s → gameStatus s = status)
  | _ => True
  end.
Proof.
  revert l rt w. induction ops as [|op ops IH]; intros l rt w; simpl.
  - intros [= <- <- <-]. split_and!; [done|lia|]. by intros ->.
  - unfold executeOperation. destruct (recognized rt) as [s|] eqn:Hr.
    2:{ intros [= <- <- <-]. simpl. split_and!; [done|lia|]. by intros ->. }
    destruct (validateMove _ _ _ _) as [[|reason]|]; [| |by intros [= <- <- <-]].
    + destruct (env_dispatch w (op_part op)) as [w1 res].
      assert (∀ (rt1 : GameRuntime) o, recognize rt res api_update = (rt1, o) →
        gameLog rt1 = gameLog rt ∧ rt_operationCount rt1 = rt_operationCount rt ∧ recognized rt1 = o) as Hrec.
      { intros rt1 o. unfold recognize. destruct (os_data <$> or_screenshot res) as [[|c data]|];
          [by intros [= <- <-]| |by intros [= <- <-]].
        destruct (api_update _ _) as [a o']. by intros [= <- <-]. }
      destruct (or_status res); [| |by intros [= <- <- <-]].
      all: destruct (recognize rt res api_update) as [rt1 o] eqn:Er; destruct (Hrec _ _ eq_refl) as (Hl1 & Hc1 & Ho).
      all: destruct o as [s'|]; [|by intros [= <- <- <-]].
      all: case_bool_decide as Hst; [intros [= <- <- <-]; simpl; split_and!; [done|lia|]; intros _ status [= <-]; split; [done|]; by intros ? ?; simplify_eq|].
      all: intros Hrun; apply IH in Hrun as (Hl & Hx); simpl in *; split; [congruence|]; destruct exit; try done.
      all: destruct Hx as [Hc He]; simpl in *; split; [lia|exact He].
    + destruct (SKIP_REASONS reason); simpl.
      * intros Hrun. apply IH in Hrun as (Hl & Hx). split; [done|]. by destruct exit.
      * intros [= <- <- <-]. simpl. split_and!; [done|lia|]. by intros ->.
Qed.

(** A subscriber is called last: the state is committed before, and what it makes of
    the world is what is left; the answer waits for it. *)
Lemma subscriber_called_last f rt w input :
  let '(rt', w', res) := @operate _ plain_env rt w input in
  @operate _ (hooks_env f) rt w input =
  match hooked rt rt' with
  | None => (rt', w', res)
  | Some entry => let '(w'', returned) := f w' entry in (rt', w'', if (returned : bool) then res else Threw)
  end.
Proof.
  assert (∀ (rt' : GameRuntime) (w : @W E) (res : CallResult), gameLog rt' = gameLog rt → hooked rt rt' = None) as Hquiet.
  { intros rt' w0 res El. unfold hooked. rewrite El. destruct (last _); [|done]. simpl. by rewrite bool_decide_eq_false_2 by lia. }
  unfold operate. destruct (input_operations input) as [|op ops'] eqn:Ei.
  { destruct (recognized rt) as [s|]; [set (res := Returned _)|]; by rewrite (Hquiet rt w Threw). }
  rewrite loop_same. set (ops := op :: ops').
  destruct (@operate_loop _ plain_env ops no_locals rt w) as [[rt1 w1] exit] eqn:El.
  apply loop_facts in El as [Hlog Hexit].
  destruct exit as [l|m| |]; [|by rewrite (Hquiet rt1 w1 Threw)..].
  destruct Hexit as [Hc He]. specialize (He eq_refl). simpl in Hc. unfold finish_batch.
  destruct (recognized rt1) as [s|] eqn:Hr; [|by rewrite (Hquiet rt1 w1 Threw)].
  set (entry := mkEntry "saolei_operate" (Some ops) s (gameStatus s)).
  unfold publish, end_game, hooked. cbn [env_onBoardChange hooks_env plain_env with_subscriber].
  destruct (endedStatus l) as [status|] eqn:Hend.
  - destruct (He status eq_refl) as [Hst Hs]. specialize (Hs s eq_refl). simpl.
    rewrite (bool_decide_eq_false_2 (gameStatus s = playing)) by congruence. rewrite andb_false_r.
    cbn [gameLog push_log set_event]. rewrite last_snoc. simpl. rewrite bool_decide_eq_false_2; [done|].
    by intros (_ & _ & ?).
  - cbn [gameLog push_log rt_operationCount]. rewrite last_snoc, length_app, Hlog. simpl.
    change (le_status entry) with (gameStatus s).
    assert (bool_decide ((length (gameLog rt) + 1)%nat = S (length (gameLog rt)) ∧
      rt_operationCount rt < rt_operationCount rt1 ∧ gameStatus s = playing) =
      (0 <? executed l) && bool_decide (gameStatus s = playing)) as ->.
    { apply eq_bool_prop_intro. rewrite andb_True, !bool_decide_spec, Is_true_true, Z.ltb_lt. intuition lia. }
    destruct (_ && _); [|done]. by destruct (f w1 entry) as [w2 []].
Qed.

(** C16: The game with hooks.  An [operate] of a team with hooks does exactly what
    it does without: the same board, counters, log, event, dispatches and answer,
    whatever the scripts return or throw and the announcer does, as long as no script
    of the registry stalls the process on the board just committed.  (Serializing a
    returned value, or reading a thrown one, runs code of the script outside the
    execution budget; when it does not end, the call of the hooks does not, and
    neither does the [operate], whose game is committed by then.)  The hooks have run
    once, after all of it, on the last entry of the log, when the batch executed
    something, was committed and left the game in play; otherwise they have not run. *)
Theorem hooks_leave_the_game f rt w input :
  runs_hooks f →
  let '(rt', w', res) := @operate _ plain_env rt w input in
  (@operate _ (hooks_env f) rt w input).1.1 = rt' ∧
  match hooked rt rt' with
  | None => @operate _ (hooks_env f) rt w input = (rt', w', res)
  | Some entry =>
      stalls w' entry ∨ @operate _ (hooks_env f) rt w input = (rt', (after_hooks w' entry).1, res)
  end.
Proof.
  intros Hf. pose proof (subscriber_called_last f rt w input) as Hlast.
  destruct (@operate _ plain_env rt w input) as [[rt' w'] res]. rewrite Hlast.
  destruct (hooked rt rt') as [entry|]; [|done]. split; [by destruct (f w' entry)|].
  specialize (Hf w' entry). destruct (after_hooks_quiet w' entry) as [Hq|]; [right|by left].
  destruct (after_hooks w' entry) as [w'' esc]. simpl in Hq. subst esc. by rewrite Hf.
Qed.

End Game.

(** ** Boundary behaviour *)

(** The text of a thrown error is broadcast in full, however long: the output cap
    applies to returned values only. *)
Lemma thrown_text_not_capped {Script : Type} (run : Script → BoardSnapshot → RunOutcome) script board name message :
  run script (snapshot board) = ScriptRaised (host_error None message) →
  runHookScript run script board = inr (run_error message) ∧
  announcementFor name (run_error message) = Some (js "[hook " ++ name ++ js "] error: " ++ message).
Proof. unfold runHookScript. intros ->. done. Qed.

(** A thrown value whose conversion to a string throws leaves the executor, so the
    remaining hooks of the event do not run. *)
Lemma unprintable_throw_stops_the_event {Script World : Type} (run : Script → BoardSnapshot → RunOutcome)
    (announce : Callback World) (hook : HookEntry Script) hooks board w t :
  run (he_script hook) (snapshot board) = ScriptRaised (mkThrown false false (λ _, Missing) (ConvRaises t)) →
  run_hooks run announce (hook :: hooks) board w = (w, Some (Throws t)).
Proof. intros Hrun. simpl. unfold runHookScript. by rewrite Hrun. Qed.

(** A returned value whose [toJSON] does not end stalls the call, whatever budget the
    script had: the remaining hooks do not run and the call does not return. *)
Lemma endless_serialization_stalls_the_event {Script World : Type} (run : Script → BoardSnapshot → RunOutcome)
    (announce : Callback World) (logger : option (Callback World)) r entry hook hooks w :
  entriesInOrder r = hook :: hooks →
  run (he_script hook) (snapshot (le_state entry)) = ScriptReturned (VOther SerStalls) →
  onBoardChange run announce logger r entry w = (w, Some Stalls).
Proof. intros Hr Hrun. unfold onBoardChange. rewrite Hr. simpl. unfold runHookScript. by rewrite Hrun. Qed.

(** A counter that decoded to no number is [null] for the scripts. *)
Lemma undecoded_value_is_null w h g : sn_mineCounter (snapshot (mkGameState w h g (Some (Decoded JNaN)))) = Some (SnapDecoded None).
Proof. done. Qed.

(** A script that counts, one that fails and a silent one, on an interpreter that
    knows them by their sources. *)
Definition demo_run (script : jstr) (board : BoardSnapshot) : RunOutcome :=
  if bool_decide (script = wrapSource (js "return board.width")) then ScriptReturned (VOther (SerText (jnum (sn_width board))))
  else if bool_decide (script = wrapSource (js "return x")) then ScriptRaised (host_error None (js "x is not defined"))
  else ScriptReturned (VString []).

Definition demo_call (name script : string) : SaoleiHookToolArgs :=
  mkHookArgs (Some (js "set")) (Some (js name)) (Some (js script)) [].

Definition demo_registry : HookRegistry jstr :=
  tool_run inr [demo_call "size" "return board.width"; demo_call "quiet" "return 1"; demo_call "bad" "return x";
                demo_call "quiet" "return 2"; demo_call "evil" "process.exit()"].

Example demo_listing : registry_list demo_registry =
  [mkSummary (js "size") 0 18; mkSummary (js "quiet") 1 8; mkSummary (js "bad") 2 8].
Proof. by vm_compute. Qed.

Example demo_announced :
  onBoardChange demo_run (λ w text, (w ++ [text], None)) None demo_registry
    (mkEntry "saolei_operate" None (mkGameState 9 9 [] None) playing) [] =
  ([js "[hook size] 9"; js "[hook bad] error: x is not defined"], None).
Proof. by vm_compute. Qed.

(** A desktop whose announcements are kept, and the three scripts. *)
Section DemoGame.
Import Runtime.Script.

#[local] Instance announced_env : RuntimeEnv := {|
  W := list OperationResult * list jstr;
  env_dispatch w part := let '(l, res) := env_dispatch (RuntimeEnv := script_env) w.1 part in ((l, w.2), res);
  env_now w := 0;
  env_onBoardChange := None;
  env_from_base64 data := []
|}.

Definition demo_announce : Callback (list OperationResult * list jstr) := λ w text, ((w.1, w.2 ++ [text]), None).

Definition demo_after := after_hooks announced_env (λ _, demo_registry) (λ _, demo_run) demo_announce.

Definition demo_subscriber (w : list OperationResult * list jstr) (entry : GameLogEntry) :=
  let '(w', abrupt) := demo_after w entry in (w', match abrupt with Some (Throws _) => false | _ => true end).

Lemma hooks_leave_the_game_witness :
  runs_hooks announced_env (λ _, demo_registry) (λ _, demo_run) demo_announce demo_subscriber ∧
  (@operate _ (hooks_env announced_env demo_subscriber) started ([shown], []) (Single (mkOp click 0 0))).1 =
  ((@operate _ (plain_env announced_env) started ([shown], []) (Single (mkOp click 0 0))).1.1,
   ([], [js "[hook size] 2"; js "[hook bad] error: x is not defined"])).
Proof.
  assert (runs_hooks announced_env (λ _, demo_registry) (λ _, demo_run) demo_announce demo_subscriber) as Hf.
  { intros w entry. unfold demo_subscriber, demo_after. by destruct (after_hooks _ _ _ _ w entry) as [w' [[t|]|]]. }
  split; [done|].
  pose proof (hooks_leave_the_game announced_env (λ _, demo_registry) (λ _, demo_run) demo_announce demo_subscriber
    started ([shown], []) (Single (mkOp click 0 0)) Hf) as H.
  destruct (@operate _ (plain_env announced_env) _ _ _) as [[rt' w'] res] eqn:E. destruct H as [_ H].
  destruct (hooked started rt') as [entry|] eqn:Eh.
  2:{ exfalso. vm_compute in E. injection E as <- <- <-. vm_compute in Eh. discriminate Eh. }
  destruct H as [(h & Hin & Hs)|H].
  - exfalso. vm_compute in E. injection E as <- <- <-. vm_compute in Eh. injection Eh as <-.
    revert Hs. vm_compute in Hin. repeat (apply elem_of_cons in Hin as [->|Hin]; [by vm_compute|]). by apply elem_of_nil in Hin.
  - rewrite H. vm_compute in E. injection E as <- <- <-. vm_compute in Eh. injection Eh as <-. by vm_compute.
Defined.

End DemoGame.
