(* ===== verification/Assembly.v ===== *)
(** * Assembling and releasing a team

    [materialize], [createMember], [rollback] and [dispose] of [TeamOrchestrator]
    ([common/js/dsh-plugins/saolei/loop/src/orchestrator.ts]); the turns in between
    are the subject of [Orchestrator.v], which also has the landed messages and the
    last error.

    The calls are [async]: the state keeps, for every call of [materialize], the
    await it is suspended at, and an operation is a call of the class or an answer
    one of the awaits gets.  An answer no call waits for changes nothing.  What the
    composition provides is a parameter ([Composition]); agents and registrations
    are the handles the registry of agents and the team service gave out, with what
    was mounted in the scope of an agent and how often each was released. *)

From S2P Require Import Prelude.

#[local] Open Scope Z_scope.

(** ** What the composition provides *)

Record SaoleiToolsUnit : Type := mkUnit { un_tools : list string; un_sections : list string }.

(** [build(scope)]: its faces, tools and sections. *)
Record MemoryCapabilities : Type := mkCapabilities {
  mc_faces : list string;
  mc_tools : list string;
  mc_sections : list string;
}.

Record PlannerMemoryScope : Type := mkScope { sc_template : string; sc_preset : string }.

(** The provide faces and dependencies, absent ones as [None]; [co_hooks] is what
    [buildHooksUnit] gives or throws. *)
Record Composition : Type := mkComposition {
  co_saolei : option string;
  co_saoleiTools : option SaoleiToolsUnit;
  co_hooks : option (string + SaoleiToolsUnit);
  co_memoryMount : option (PlannerMemoryScope → MemoryCapabilities);
  co_desktopBridge : bool;
  co_provider : option string;
}.

Definition TEAM_PROVIDER : string := "glm-responses".

(** ** Options *)

Inductive AgentTeamRole : Type := role_player | role_planner.

#[export] Instance AgentTeamRole_eq_dec : EqDecision AgentTeamRole.
Proof. solve_decision. Defined.

Record TeamMemberOptions : Type := mkMember {
  mo_preset : string;
  mo_provider : option string;
  mo_model : option string;
}.

Record TeamMaterializeOptions : Type := mkOptions {
  op_session : string;
  op_memoryScope : PlannerMemoryScope;
  op_goal : string;
  op_context : option string;
  op_player : TeamMemberOptions;
  op_planner : TeamMemberOptions;
  op_playerSessionId : option string;
  op_plannerSessionId : option string;
  op_playerSummary : option string;
  op_plannerSummary : option string;
}.

(** ** Agents, registrations, the game *)

(** The runtime of a game: its session, and whether it calls the hooks. *)
Record Game : Type := mkGame { gm_session : string; gm_hooked : bool }.

Inductive ScopeItem : Type :=
| PresetItem (name : string)
| ToolItem (name : string)
| SectionItem (name : string)
| Face (key : string)
| GameHandle (game : Game).

Record Agent : Type := mkAgent {
  ag_sessionId : string;
  ag_agentPreset : string;
  ag_provider : string;
  ag_model : option string;
  ag_scope : list ScopeItem;
  ag_releases : nat;
}.

(** The source of a registered member: an agent's, or the announcer's own. *)
Inductive MemberSource : Type :=
| AgentSource (agent : nat)
| AnnouncerSource.

Record TeamRegistration : Type := mkRegistration {
  rg_goal : string;
  rg_context : option string;
  rg_members : list (MemberSource * string * string);
  rg_disposals : nat;
}.

Inductive OrchestratorStateErrorCode : Type := UNMATERIALIZED | ALREADY_MATERIALIZED | DISPOSED.

(** What a call of [materialize] rejects with. *)
Inductive MaterializeError : Type :=
| StateError (code : OrchestratorStateErrorCode)
| Cause (message : string).

(** The awaits of [materialize]. *)
Inductive Stage : Type :=
| Composing (role : AgentTeamRole)
| Creating (role : AgentTeamRole) (agentPreset : string)
| Prefetching (agentPreset : string) (scope : list ScopeItem)
| Settling (role : AgentTeamRole) (agentPreset : string) (setup : string + list ScopeItem)
| RollingBack (error : MaterializeError)
| Resolved
| Rejected (error : MaterializeError).

(** [jb_created] are the agents of the local array [created]. *)
Record Job : Type := mkJob {
  jb_options : TeamMaterializeOptions;
  jb_created : list nat;
  jb_stage : Stage;
}.

Inductive Disposal : Type :=
| NotDisposed
| AwaitingQuiescence (bindings : list nat)
| AwaitingMembers (bindings : list nat)
| DisposeSettled (error : option string).

(** The fields of the orchestrator, the calls of [materialize], and the handles
    given out so far.  [ls_members] are the agents of the player and the planner. *)
Record LoopState : Type := mkLoop {
  ls_members : option (nat * nat);
  ls_registration : option nat;
  ls_game : option Game;
  ls_hooks : option SaoleiToolsUnit;
  ls_announcer : bool;
  ls_flow : bool;
  ls_session : option string;
  ls_disposal : Disposal;
  ls_jobs : list Job;
  ls_agents : list Agent;
  ls_registrations : list TeamRegistration;
}.

Definition new_loop : LoopState := mkLoop None None None None false false None NotDisposed [] [] [].

Definition is_disposed (s : LoopState) : bool :=
  match ls_disposal s with NotDisposed => false | _ => true end.

(** *** Updates *)

Definition set_stage (s : LoopState) (j : nat) (created : list nat) (stage : Stage) : LoopState :=
  mkLoop (ls_members s) (ls_registration s) (ls_game s) (ls_hooks s) (ls_announcer s) (ls_flow s) (ls_session s)
    (ls_disposal s) (alter (λ job, mkJob (jb_options job) created stage) j (ls_jobs s)) (ls_agents s) (ls_registrations s).

Definition set_game (s : LoopState) (game : Game) : LoopState :=
  mkLoop (ls_members s) (ls_registration s) (Some game) (ls_hooks s) (ls_announcer s) (ls_flow s) (ls_session s)
    (ls_disposal s) (ls_jobs s) (ls_agents s) (ls_registrations s).

Definition set_hooks (s : LoopState) (hooks : option SaoleiToolsUnit) : LoopState :=
  mkLoop (ls_members s) (ls_registration s) (ls_game s) hooks (ls_announcer s) (ls_flow s) (ls_session s)
    (ls_disposal s) (ls_jobs s) (ls_agents s) (ls_registrations s).

Definition add_job (s : LoopState) (job : Job) : LoopState :=
  mkLoop (ls_members s) (ls_registration s) (ls_game s) (ls_hooks s) (ls_announcer s) (ls_flow s) (ls_session s)
    (ls_disposal s) (ls_jobs s ++ [job]) (ls_agents s) (ls_registrations s).

Definition add_agent (s : LoopState) (agent : Agent) : LoopState :=
  mkLoop (ls_members s) (ls_registration s) (ls_game s) (ls_hooks s) (ls_announcer s) (ls_flow s) (ls_session s)
    (ls_disposal s) (ls_jobs s) (ls_agents s ++ [agent]) (ls_registrations s).

Definition set_disposal (s : LoopState) (disposal : Disposal) : LoopState :=
  mkLoop (ls_members s) (ls_registration s) (ls_game s) (ls_hooks s) (ls_announcer s) (ls_flow s) (ls_session s)
    disposal (ls_jobs s) (ls_agents s) (ls_registrations s).

(** [handle.dispose()] of the agents in turn. *)
Definition release_agent (agents : list Agent) (i : nat) : list Agent :=
  alter (λ a, mkAgent (ag_sessionId a) (ag_agentPreset a) (ag_provider a) (ag_model a) (ag_scope a) (S (ag_releases a)))
    i agents.
Definition release_agents (indices : list nat) (agents : list Agent) : list Agent :=
  fold_left release_agent indices agents.

(** [registration?.dispose()]. *)
Definition dispose_registration (registration : option nat) (rs : list TeamRegistration) : list TeamRegistration :=
  match registration with
  | Some i => alter (λ r, mkRegistration (rg_goal r) (rg_context r) (rg_members r) (S (rg_disposals r))) i rs
  | None => rs
  end.

(** The fields both [rollback]'s caller and [dispose] empty, with the registration
    and the given agents released. *)
Definition emptied (s : LoopState) (session : option string) (agents : list nat) : LoopState :=
  mkLoop None None None None false false session (ls_disposal s) (ls_jobs s)
    (release_agents agents (ls_agents s)) (dispose_registration (ls_registration s) (ls_registrations s)).

Section Assembly.
Context (c : Composition).

(** *** Creating a member *)

Definition member_options (options : TeamMaterializeOptions) (role : AgentTeamRole) : TeamMemberOptions :=
  match role with role_player => op_player options | role_planner => op_planner options end.

(** [options.playerSessionId ?? `${options.session}/player`], and the planner's. *)
Definition member_session (options : TeamMaterializeOptions) (role : AgentTeamRole) : string :=
  match role with
  | role_player => default (op_session options +:+ "/player") (op_playerSessionId options)
  | role_planner => default (op_session options +:+ "/planner") (op_plannerSessionId options)
  end.

(** The options of [agents().create]; an empty model is left out. *)
Definition agent_of (options : TeamMaterializeOptions) (role : AgentTeamRole) (agentPreset : string)
    (scope : list ScopeItem) : Agent :=
  let member := member_options options role in
  mkAgent (member_session options role) agentPreset
    (match mo_provider member with Some p => p | None => default TEAM_PROVIDER (co_provider c) end)
    (match mo_model member with Some "" => None | model => model end)
    scope 0.

Definition unit_items (unit : SaoleiToolsUnit) : list ScopeItem := (ToolItem <$> un_tools unit) ++ (SectionItem <$> un_sections unit).

(** [registerHooksUnit]. *)
Definition hooks_items (hooks : option SaoleiToolsUnit) : list ScopeItem :=
  match hooks with Some unit => unit_items unit | None => [] end.

Definition capability_items (unit : MemoryCapabilities) : list ScopeItem :=
  (Face <$> mc_faces unit) ++ (ToolItem <$> mc_tools unit) ++ (SectionItem <$> mc_sections unit).

(** The rest of [setup] once the preset mounted its items: the stage that follows. *)
Definition member_setup (s : LoopState) (j : nat) (job : Job) (role : AgentTeamRole) (agentPreset : string)
    (items : list ScopeItem) : LoopState :=
  let foundation := default "" (co_saolei c) in
  match role with
  | role_player =>
      match co_saoleiTools c with
      | None => set_stage s j (jb_created job) (Settling role agentPreset (inl "saoleiTools"))
      | Some unit =>
          if co_desktopBridge c then
            let game := mkGame (op_session (jb_options job)) (bool_decide (is_Some (ls_hooks s))) in
            set_stage (set_game s game) j (jb_created job)
              (Settling role agentPreset
                 (inr (items ++ unit_items unit ++ [SectionItem foundation; GameHandle game])))
          else set_stage s j (jb_created job) (Settling role agentPreset (inl "desktopBridge"))
      end
  | role_planner =>
      match co_memoryMount c with
      | None => set_stage s j (jb_created job) (Settling role agentPreset (inl "memoryMount"))
      | Some build =>
          set_stage s j (jb_created job)
            (Prefetching agentPreset
               (items ++ [SectionItem foundation] ++ hooks_items (ls_hooks s)
                ++ capability_items (build (op_memoryScope (jb_options job)))))
      end
  end.

(** *** Failure *)

(** The [catch] of [materialize] up to the await of [rollback]; [created] is
    released from the last to the first. *)
Definition fail (s : LoopState) (j : nat) (created : list nat) (error : MaterializeError) : LoopState :=
  set_stage (emptied s (ls_session s) (reverse created)) j created (RollingBack error).

(** *** Registration *)

Definition registration_of (options : TeamMaterializeOptions) (player planner : nat) : TeamRegistration :=
  mkRegistration (op_goal options) (op_context options)
    [(AgentSource player, "player", default "执行扫雷操作，独占桌面控制" (op_playerSummary options));
     (AgentSource planner, "planner", default "复盘对局与制定策略，不操作" (op_plannerSummary options));
     (AnnouncerSource, "announcer", "终局播报对局结果与操作统计")] 0.

(** The tail of [materialize]; [refused] is what [register] throws. *)
Definition register_team (s : LoopState) (j : nat) (job : Job) (player planner : nat) (refused : option string) : LoopState :=
  match refused with
  | Some message => fail s j [player; planner] (Cause message)
  | None =>
      set_stage
        (mkLoop (Some (player, planner)) (Some (length (ls_registrations s))) (ls_game s) (ls_hooks s) true true
           (Some (op_session (jb_options job))) (ls_disposal s) (ls_jobs s) (ls_agents s)
           (ls_registrations s ++ [registration_of (jb_options job) player planner]))
        j [player; planner] Resolved
  end.

(** *** The read faces *)

(** [member(role)]. *)
Definition member (s : LoopState) (role : AgentTeamRole) : option nat :=
  (λ m, match role with role_player => fst m | role_planner => snd m end) <$> ls_members s.

(** [teamEvents()]: the stream of a registration. *)
Definition teamEvents (s : LoopState) : OrchestratorStateErrorCode + nat :=
  if is_disposed s then inl DISPOSED
  else match ls_registration s with Some i => inr i | None => inl UNMATERIALIZED end.

(** [announceHookResult(text)]: what the announcer is given; without one the text is
    dropped. *)
Definition announceHookResult (s : LoopState) (text : string) : option string :=
  if ls_announcer s then Some text else None.

(** *** Operations *)

Inductive Operation : Type :=
| Materialize (options : TeamMaterializeOptions)
| Composed (j : nat) (answer : string + string)
| PresetMounted (j : nat) (answer : string + list string)
| MemoryReady (j : nat) (rejection : option string)
| Created (j : nat) (rejection refused : option string)
| RolledBack (j : nat)
| Dispose
| Quiescent
| MembersReleased (rejections : list (option string)).

(** [materialize] up to its first await. *)
Definition materialize (s : LoopState) (options : TeamMaterializeOptions) : LoopState :=
  let reject code := add_job s (mkJob options [] (Rejected (StateError code))) in
  if is_disposed s then reject DISPOSED
  else if bool_decide (is_Some (ls_members s)) then reject ALREADY_MATERIALIZED
  else
    let j := length (ls_jobs s) in
    let s := add_job s (mkJob options [] (Composing role_player)) in
    match co_hooks c with
    | None => set_hooks s None
    | Some (inr unit) => set_hooks s (Some unit)
    | Some (inl message) => fail s j [] (Cause message)
    end.

(** [createMember] once [compose] settled: the foundation is read, the agent asked
    for. *)
Definition composed (s : LoopState) (j : nat) (answer : string + string) : LoopState :=
  match ls_jobs s !! j with
  | Some (mkJob options created (Composing role)) =>
      match answer with
      | inl message => fail s j created (Cause message)
      | inr agentPreset =>
          match co_saolei c with
          | None => fail s j created (Cause "saolei")
          | Some _ => set_stage s j created (Creating role agentPreset)
          end
      end
  | _ => s
  end.

(** [composed.setup] settled, inside the agent's [setup]. *)
Definition preset_mounted (s : LoopState) (j : nat) (answer : string + list string) : LoopState :=
  match ls_jobs s !! j with
  | Some (mkJob _ created (Creating role agentPreset) as job) =>
      match answer with
      | inl message => set_stage s j created (Settling role agentPreset (inl message))
      | inr items => member_setup s j job role agentPreset (PresetItem <$> items)
      end
  | _ => s
  end.

(** [unit.ready()] settled. *)
Definition memory_ready (s : LoopState) (j : nat) (rejection : option string) : LoopState :=
  match ls_jobs s !! j with
  | Some (mkJob _ created (Prefetching agentPreset scope)) =>
      set_stage s j created
        (Settling role_planner agentPreset
           (match rejection with Some message => inl message | None => inr scope end))
  | _ => s
  end.

(** [agents().create] settled, after its setup: a setup that failed rejects it. *)
Definition created (s : LoopState) (j : nat) (rejection refused : option string) : LoopState :=
  match ls_jobs s !! j with
  | Some (mkJob options created (Settling role agentPreset setup) as job) =>
      match setup, rejection with
      | inl message, _ | inr _, Some message => fail s j created (Cause message)
      | inr scope, None =>
          let i := length (ls_agents s) in
          let s := add_agent s (agent_of options role agentPreset scope) in
          match role, created with
          | role_player, _ => set_stage s j [i] (Composing role_planner)
          | role_planner, player :: _ => register_team s j job player i refused
          | role_planner, [] => s
          end
      end
  | _ => s
  end.

(** The await of [rollback] is over: the error is rethrown. *)
Definition rolled_back (s : LoopState) (j : nat) : LoopState :=
  match ls_jobs s !! j with
  | Some (mkJob _ created (RollingBack error)) => set_stage s j created (Rejected error)
  | _ => s
  end.

(** [dispose] up to the end of the turns in flight, from there to the await of the
    handles, and its end. *)
Definition dispose (s : LoopState) : LoopState :=
  if is_disposed s then s
  else set_disposal s (AwaitingQuiescence (match ls_members s with Some (player, planner) => [player; planner] | None => [] end)).

Definition quiescent (s : LoopState) : LoopState :=
  match ls_disposal s with
  | AwaitingQuiescence bindings => set_disposal (emptied s None bindings) (AwaitingMembers bindings)
  | _ => s
  end.

Definition members_released (s : LoopState) (rejections : list (option string)) : LoopState :=
  match ls_disposal s with
  | AwaitingMembers _ => set_disposal s (DisposeSettled (head (omap id rejections)))
  | _ => s
  end.

Definition step (s : LoopState) (op : Operation) : LoopState :=
  match op with
  | Materialize options => materialize s options
  | Composed j answer => composed s j answer
  | PresetMounted j answer => preset_mounted s j answer
  | MemoryReady j rejection => memory_ready s j rejection
  | Created j rejection refused => created s j rejection refused
  | RolledBack j => rolled_back s j
  | Dispose => dispose s
  | Quiescent => quiescent s
  | MembersReleased rejections => members_released s rejections
  end.

Definition run (ops : list Operation) : LoopState := fold_left step ops new_loop.

End Assembly.
