(* ===== verification/AssemblyFacts.v ===== *)
(** * Assembling and releasing a team: properties

    A materialization builds the whole team or nothing, every handle given out is
    released exactly once, and every call settles, as long as the calls of the class
    do not overlap a materialization; that this is needed is shown at the end. *)

From S2P Require Import Prelude Assembly.

#[local] Open Scope Z_scope.

(** ** Jobs *)

Definition running (stage : Stage) : bool :=
  match stage with Resolved | Rejected _ => false | _ => true end.

(** The call of [materialize] under way. *)
Definition current (s : LoopState) : option Job :=
  match last (ls_jobs s) with
  | Some job => if running (jb_stage job) then Some job else None
  | None => None
  end.

(** The calls do not overlap: none is made while a materialization runs. *)
Definition allowed (s : LoopState) (op : Operation) : Prop :=
  match op with Materialize _ | Dispose => current s = None | _ => True end.

Fixpoint serial (c : Composition) (s : LoopState) (ops : list Operation) : Prop :=
  match ops with
  | [] => True
  | op :: ops => allowed s op ∧ serial c (step c s op) ops
  end.

(** At most the last call runs. *)
Definition jobs_ok (jobs : list Job) : Prop :=
  ∀ j job, jobs !! j = Some job → running (jb_stage job) = true → S j = length jobs.

(** The agents that must not have been released. *)
Definition owned (s : LoopState) : list nat :=
  match ls_members s with
  | Some (player, planner) => [player; planner]
  | None => match current s with
            | Some job => match jb_stage job with RollingBack _ => [] | _ => jb_created job end
            | None => []
            end
  end.

Lemma current_Some s j job :
  jobs_ok (ls_jobs s) → ls_jobs s !! j = Some job → running (jb_stage job) = true →
  current s = Some job ∧ S j = length (ls_jobs s).
Proof.
  intros Hok Hj Hr. pose proof (Hok j job Hj Hr) as Hl. split; [|done].
  unfold current. rewrite last_lookup, <- Hl. simpl. by rewrite Hj, Hr.
Qed.

Lemma set_stage_jobs s j job created stage :
  jobs_ok (ls_jobs s) → ls_jobs s !! j = Some job → running (jb_stage job) = true →
  jobs_ok (ls_jobs (set_stage s j created stage)) ∧
  current (set_stage s j created stage) = if running stage then Some (mkJob (jb_options job) created stage) else None.
Proof.
  intros Hok Hj Hr. destruct (current_Some s j job Hok Hj Hr) as [_ Hl]. split.
  - intros j' job'. simpl. rewrite length_alter.
    destruct (decide (j' = j)) as [->|Hne]; [done|]. rewrite list_lookup_alter_ne by done. apply Hok.
  - unfold current. simpl. rewrite last_lookup, length_alter, <- Hl. simpl.
    by rewrite list_lookup_alter_eq, Hj.
Qed.

Lemma add_job_jobs jobs job :
  jobs_ok jobs → (∀ job', last jobs = Some job' → running (jb_stage job') = false) → jobs_ok (jobs ++ [job]).
Proof.
  intros Hok Hl j job'. rewrite length_app. simpl. intros [Hj|[Hlen Hj]]%lookup_app_Some Hr.
  - pose proof (Hok j job' Hj Hr) as E. rewrite (Hl job') in Hr; [done|]. by rewrite last_lookup, <- E.
  - assert (j < length (jobs ++ [job]))%nat; [|rewrite length_app in *; simpl in *; lia].
    apply lookup_lt_Some in Hj. rewrite length_app. simpl in *. lia.
Qed.

Lemma current_None s : current s = None ↔ ∀ job, last (ls_jobs s) = Some job → running (jb_stage job) = false.
Proof.
  unfold current. destruct (last (ls_jobs s)) as [job|]; [|done]. destruct (running (jb_stage job)) eqn:E.
  - split; [done|]. intros H. specialize (H job eq_refl). congruence.
  - split; [|done]. by intros _ ? [= <-].
Qed.

(** ** Releases *)

Definition released_once (a : Agent) : Agent :=
  mkAgent (ag_sessionId a) (ag_agentPreset a) (ag_provider a) (ag_model a) (ag_scope a) (S (ag_releases a)).

Lemma release_agents_lookup idx agents i :
  NoDup idx → release_agents idx agents !! i = (if bool_decide (i ∈ idx) then released_once else id) <$> agents !! i.
Proof.
  unfold release_agents. revert agents. induction idx as [|k idx IH]; intros agents Hnd; simpl.
  - by destruct (agents !! i).
  - apply NoDup_cons in Hnd as [Hk Hnd]. rewrite IH by done. unfold release_agent.
    destruct (decide (i = k)) as [->|Hne].
    + rewrite list_lookup_alter_eq, (bool_decide_eq_false_2 (k ∈ idx)) by done.
      rewrite bool_decide_eq_true_2 by (by left). by destruct (agents !! k).
    + rewrite list_lookup_alter_ne by done.
      rewrite (bool_decide_ext (i ∈ k :: idx) (i ∈ idx)) by (rewrite elem_of_cons; tauto). done.
Qed.

Lemma release_agents_length idx agents : length (release_agents idx agents) = length agents.
Proof.
  unfold release_agents. revert agents. induction idx as [|k idx IH]; intros agents; simpl; [done|].
  rewrite IH. apply length_alter.
Qed.

(** ** What a team is *)

Section Facts.
Context (c : Composition).

(** The hooks unit of the composition. *)
Definition the_hooks : option SaoleiToolsUnit :=
  match co_hooks c with Some (inr unit) => Some unit | _ => None end.

Definition the_game (options : TeamMaterializeOptions) : Game :=
  mkGame (op_session options) (bool_decide (is_Some the_hooks)).

(** The scope of a player, after what its preset mounted: the static tools and
    sections, the section of the game and the handle of the game. *)
Definition player_mounted (options : TeamMaterializeOptions) (scope : list ScopeItem) : Prop :=
  ∃ items unit foundation, co_saoleiTools c = Some unit ∧ co_saolei c = Some foundation ∧ co_desktopBridge c = true ∧
    scope = (PresetItem <$> items) ++ (ToolItem <$> un_tools unit) ++ (SectionItem <$> un_sections unit)
            ++ [SectionItem foundation; GameHandle (the_game options)].

(** That of a planner: the section of the game, the hooks unit if there is one, and
    the memory capability of the scope asked for. *)
Definition planner_mounted (options : TeamMaterializeOptions) (scope : list ScopeItem) : Prop :=
  ∃ items foundation build, co_memoryMount c = Some build ∧ co_saolei c = Some foundation ∧
    scope = (PresetItem <$> items) ++ [SectionItem foundation] ++ hooks_items the_hooks
            ++ capability_items (build (op_memoryScope options)).

Definition mounted (role : AgentTeamRole) : TeamMaterializeOptions → list ScopeItem → Prop :=
  match role with role_player => player_mounted | role_planner => planner_mounted end.

(** Agent [i] is alive and the member of this role a team of these options has. *)
Definition live_member (s : LoopState) (options : TeamMaterializeOptions) (role : AgentTeamRole) (i : nat) : Prop :=
  ∃ agentPreset scope, ls_agents s !! i = Some (agent_of c options role agentPreset scope) ∧ mounted role options scope.

(** The team of a finished materialization. *)
Definition assembled (s : LoopState) (player planner : nat) : Prop :=
  ∃ options i,
    mkJob options [player; planner] Resolved ∈ ls_jobs s ∧ player ≠ planner ∧
    live_member s options role_player player ∧ live_member s options role_planner planner ∧
    ls_registration s = Some i ∧ ls_registrations s !! i = Some (registration_of options player planner) ∧
    ls_game s = Some (the_game options) ∧ ls_hooks s = the_hooks ∧ ls_announcer s = true ∧ ls_flow s = true ∧
    ls_session s = Some (op_session options).

(** No team: nothing is held. *)
Definition vacant (s : LoopState) : Prop :=
  ls_members s = None ∧ ls_registration s = None ∧ ls_announcer s = false ∧ ls_flow s = false.

Definition vacated (s : LoopState) : Prop := vacant s ∧ ls_game s = None ∧ ls_hooks s = None.

(** The state at an await. *)
Definition stage_ok (s : LoopState) (job : Job) : Prop :=
  match jb_stage job with
  | Composing role_player | Creating role_player _ => jb_created job = [] ∧ ls_game s = None ∧ ls_hooks s = the_hooks
  | Settling role_player _ setup =>
      jb_created job = [] ∧ ls_hooks s = the_hooks ∧
      ∀ scope, setup = inr scope → player_mounted (jb_options job) scope ∧ ls_game s = Some (the_game (jb_options job))
  | RollingBack _ => ls_game s = None ∧ ls_hooks s = None
  | Resolved | Rejected _ => False
  | stage =>
      (∃ player, jb_created job = [player] ∧ live_member s (jb_options job) role_player player) ∧
      ls_game s = Some (the_game (jb_options job)) ∧ ls_hooks s = the_hooks ∧
      match stage with
      | Prefetching _ scope | Settling _ _ (inr scope) => planner_mounted (jb_options job) scope
      | _ => True
      end
  end ∧
  match jb_stage job with Creating _ _ => is_Some (co_saolei c) | _ => True end.

Definition phase_ok (s : LoopState) : Prop :=
  match current s with
  | Some job => vacant s ∧ ls_disposal s = NotDisposed ∧ stage_ok s job
  | None =>
      match ls_members s with
      | Some (player, planner) =>
          assembled s player planner ∧
          (ls_disposal s = NotDisposed ∨ ls_disposal s = AwaitingQuiescence [player; planner])
      | None => vacated s ∧ match ls_disposal s with AwaitingQuiescence bindings => bindings = [] | _ => True end
      end
  end.

(** Exactly the handles of [own] and the registration held have not been released,
    every other one has been, once. *)
Record accounts (s : LoopState) (own : list nat) : Prop := {
  ac_own : NoDup own ∧ Forall (λ i, i < length (ls_agents s))%nat own;
  ac_agents : ∀ i a, ls_agents s !! i = Some a → ag_releases a = if bool_decide (i ∈ own) then 0%nat else 1%nat;
  ac_registrations : ∀ i r, ls_registrations s !! i = Some r →
    rg_disposals r = if bool_decide (ls_registration s = Some i) then 0%nat else 1%nat;
}.

Record loop_inv (s : LoopState) : Prop := {
  li_jobs : jobs_ok (ls_jobs s);
  li_accounts : accounts s (owned s);
  li_phase : phase_ok s;
}.

Lemma new_loop_inv : loop_inv new_loop.
Proof. split; [done| |done]. split; [split; constructor|done..]. Qed.

(** Emptying the orchestrator with all it owns leaves nothing unreleased. *)
Lemma emptied_accounts s session idx own : accounts s own → idx ≡ₚ own → accounts (emptied s session idx) [].
Proof.
  intros [[Hnd _] Hag Hreg] Hperm. split; [split; constructor| |].
  - intros i a. simpl. rewrite release_agents_lookup by (by rewrite Hperm).
    intros (a0 & Ha & ->)%fmap_Some. pose proof (Hag i a0 Ha) as Hr.
    rewrite (bool_decide_ext (i ∈ idx) (i ∈ own)) by (by rewrite Hperm).
    case_bool_decide; simpl; by rewrite Hr.
  - intros i r. simpl. unfold dispose_registration.
    destruct (ls_registration s) as [k|] eqn:Ek.
    + destruct (decide (i = k)) as [->|Hne].
      * rewrite list_lookup_alter_eq. intros (r0 & Hr0 & ->)%fmap_Some. simpl.
        rewrite (Hreg k r0 Hr0). by rewrite bool_decide_eq_true_2.
      * rewrite list_lookup_alter_ne by done. intros Hr. rewrite (Hreg i r Hr).
        by rewrite bool_decide_eq_false_2 by congruence.
    + intros Hr. by rewrite (Hreg i r Hr).
Qed.

(** [rollback] releases all there is. *)
Lemma fail_inv s j job created own error :
  jobs_ok (ls_jobs s) → ls_jobs s !! j = Some job → running (jb_stage job) = true → ls_disposal s = NotDisposed →
  accounts s own → reverse created ≡ₚ own → loop_inv (fail s j created error).
Proof.
  intros Hok Hj Hr Hd Hacc Hperm. pose proof (emptied_accounts s (ls_session s) _ own Hacc Hperm) as [_ Ha Hg].
  destruct (set_stage_jobs (emptied s (ls_session s) (reverse created)) j job created (RollingBack error) Hok Hj Hr) as [Hjobs Hcur].
  unfold fail.
  assert (owned (set_stage (emptied s (ls_session s) (reverse created)) j created (RollingBack error)) = []) as Ho
    by (unfold owned; by rewrite Hcur).
  split; [done| |unfold phase_ok; by rewrite Hcur]. rewrite Ho. split; [split; constructor|exact Ha|exact Hg].
Qed.

(** *** Moving to another await *)

Definition with_game (s : LoopState) (game : option Game) : LoopState :=
  mkLoop (ls_members s) (ls_registration s) game (ls_hooks s) (ls_announcer s) (ls_flow s) (ls_session s)
    (ls_disposal s) (ls_jobs s) (ls_agents s) (ls_registrations s).

Lemma current_phase s j job :
  loop_inv s → ls_jobs s !! j = Some job → running (jb_stage job) = true →
  current s = Some job ∧ vacant s ∧ ls_disposal s = NotDisposed ∧ stage_ok s job ∧
  owned s = match jb_stage job with RollingBack _ => [] | _ => jb_created job end.
Proof.
  intros I Hj Hr. destruct (current_Some s j job (li_jobs s I) Hj Hr) as [Hcur _].
  pose proof (li_phase s I) as Hp. unfold phase_ok in Hp. rewrite Hcur in Hp. destruct Hp as (Hv & Hd & Hs).
  split_and!; try done. unfold owned. destruct Hv as [-> _]. by rewrite Hcur.
Qed.

Lemma move_inv s j job game stage :
  loop_inv s → ls_jobs s !! j = Some job → running (jb_stage job) = true → running stage = true →
  (∀ e, jb_stage job ≠ RollingBack e) → (∀ e, stage ≠ RollingBack e) →
  stage_ok (set_stage (with_game s game) j (jb_created job) stage) (mkJob (jb_options job) (jb_created job) stage) →
  loop_inv (set_stage (with_game s game) j (jb_created job) stage).
Proof.
  intros I Hj Hr Hr' Hn Hn' Hok. destruct (current_phase s j job I Hj Hr) as (_ & Hv & Hd & _ & Ho).
  destruct (set_stage_jobs (with_game s game) j job (jb_created job) stage (li_jobs s I) Hj Hr) as [Hjobs Hcur].
  rewrite Hr' in Hcur. split; [done| |].
  - assert (owned (set_stage (with_game s game) j (jb_created job) stage) = owned s) as ->.
    { rewrite Ho. unfold owned. rewrite Hcur. simpl. destruct Hv as [-> _]. by destruct stage, (jb_stage job); naive_solver. }
    by destruct (li_accounts s I).
  - unfold phase_ok. rewrite Hcur. done.
Qed.

Lemma failing s j job error :
  loop_inv s → ls_jobs s !! j = Some job → running (jb_stage job) = true → (∀ e, jb_stage job ≠ RollingBack e) →
  loop_inv (fail s j (jb_created job) error).
Proof.
  intros I Hj Hr Hn. destruct (current_phase s j job I Hj Hr) as (_ & _ & Hd & _ & Ho).
  apply (fail_inv s j job (jb_created job) (owned s)); [apply I|done..|apply I|].
  rewrite Ho. rewrite reverse_Permutation. by destruct (jb_stage job); naive_solver.
Qed.

(** *** The operations *)

Lemma assemble_begin_inv s options : loop_inv s → current s = None → loop_inv (materialize c s options).
Proof.
  intros I Hcur. pose proof (proj1 (current_None s) Hcur) as Hlast. unfold materialize.
  assert (∀ job, jobs_ok (ls_jobs s ++ [job])) as Hjobs by (intros; apply add_job_jobs; [apply I|done]).
  assert (∀ job, current (add_job s job) = if running (jb_stage job) then Some job else None) as Hnew
    by (intros; unfold current; simpl; by rewrite last_snoc).
  assert (∀ code, loop_inv (add_job s (mkJob options [] (Rejected (StateError code))))) as Hrej.
  { intros code. pose proof (Hnew (mkJob options [] (Rejected (StateError code)))) as Hn. simpl in Hn.
    split; [apply Hjobs| |].
    - unfold owned. rewrite Hn. pose proof (li_accounts s I) as Ha. unfold owned in Ha. rewrite Hcur in Ha. by destruct Ha.
    - pose proof (li_phase s I) as Hp. unfold phase_ok in *. rewrite Hn, Hcur in *. simpl.
      destruct (ls_members s) as [[player planner]|] eqn:Em; [|by destruct Hp as [(? & ? & ?) ?]].
      destruct Hp as [(o & i & Hin & Hrest) ?]. split; [|done]. exists o, i. split; [|exact Hrest].
      apply elem_of_app. by left. }
  pose proof (li_phase s I) as Hp. unfold phase_ok in Hp. rewrite Hcur in Hp. unfold is_disposed.
  destruct (ls_disposal s) eqn:Ed; [|apply Hrej..]. case_bool_decide as Hm; [apply Hrej|].
  destruct (ls_members s) as [[? ?]|] eqn:Em; [by destruct Hm|]. destruct Hp as [(Hv & Hg & Hh) _].
  set (job := mkJob options [] (Composing role_player)).
  assert (∀ hooks, hooks = the_hooks → loop_inv (set_hooks (add_job s job) hooks)) as Hstart.
  { intros hooks Hhooks. assert (current (set_hooks (add_job s job) hooks) = Some job) as Hn by apply (Hnew job).
    split; [apply Hjobs| |].
    - assert (owned (set_hooks (add_job s job) hooks) = []) as -> by (unfold owned; rewrite Hn; simpl; by rewrite Em).
      pose proof (li_accounts s I) as Ha. unfold owned in Ha. rewrite Em, Hcur in Ha. by destruct Ha.
    - unfold phase_ok. rewrite Hn. done. }
  unfold the_hooks in Hstart. destruct (co_hooks c) as [[message|unit]|] eqn:Ec; [|by apply Hstart..].
  assert (loop_inv (add_job s job)) as I' by (specialize (Hstart None eq_refl); by rewrite <- Hh in Hstart).
  assert (ls_jobs (add_job s job) !! length (ls_jobs s) = Some job) as Hj
    by (simpl; by rewrite lookup_app_r, Nat.sub_diag by done).
  by apply (failing _ _ job).
Qed.

(** A stage of the same call with nothing new in the orchestrator. *)
Lemma same_game s j created stage : set_stage s j created stage = set_stage (with_game s (ls_game s)) j created stage.
Proof. done. Qed.

Lemma composed_inv s j answer : loop_inv s → loop_inv (composed c s j answer).
Proof.
  intros I. unfold composed. destruct (ls_jobs s !! j) as [[options created [role|role p|p sc|role p st|e| |e]]|] eqn:Hj; try done.
  destruct (current_phase s j _ I Hj eq_refl) as (_ & _ & _ & [Hs _] & _).
  destruct answer as [message|agentPreset]; [by apply (failing s j _ _ I Hj)|].
  destruct (co_saolei c) as [foundation|] eqn:Ef; [|by apply (failing s j _ _ I Hj)].
  rewrite same_game. apply (move_inv s j _ _ _ I Hj); try done.
  split; [by destruct role|]. simpl. by rewrite Ef.
Qed.

Lemma preset_mounted_inv s j answer : loop_inv s → loop_inv (preset_mounted c s j answer).
Proof.
  intros I. unfold preset_mounted. destruct (ls_jobs s !! j) as [[options created [role|role p|p sc|role p st|e| |e]]|] eqn:Hj; try done.
  destruct (current_phase s j _ I Hj eq_refl) as (_ & _ & _ & [Hs [foundation Hf]] & _). simpl in Hf, Hs.
  assert (∀ message, loop_inv (set_stage s j created (Settling role p (inl message)))) as Hthrow.
  { intros message. rewrite same_game. apply (move_inv s j _ _ _ I Hj); try done. split; [|done]. simpl.
    destruct role; simpl in *; naive_solver. }
  destruct answer as [message|items]; [done|]. unfold member_setup. rewrite Hf. simpl.
  destruct role; simpl in Hs.
  - destruct (co_saoleiTools c) as [unit|] eqn:Et; [|done]. destruct (co_desktopBridge c) eqn:Eb; [|done].
    destruct Hs as (Hc & Hg & Hh).
    apply (move_inv s j _ (Some (mkGame (op_session options) (bool_decide (is_Some (ls_hooks s))))) _ I Hj); try done.
    split; [|done]. simpl. split_and!; [done..|]. intros scope [= <-]. rewrite Hh. split; [|done].
    exists items, unit, foundation. split_and!; [done..|]. unfold unit_items. by rewrite <- app_assoc.
  - destruct (co_memoryMount c) as [build|] eqn:Em; [|done]. destruct Hs as (Hp & Hg & Hh & _).
    rewrite same_game. apply (move_inv s j _ _ _ I Hj); try done. split; [|done]. simpl.
    split_and!; [done..|]. exists items, foundation, build. split_and!; [done..|]. by rewrite Hh.
Qed.

Lemma memory_ready_inv s j rejection : loop_inv s → loop_inv (memory_ready s j rejection).
Proof.
  intros I. unfold memory_ready. destruct (ls_jobs s !! j) as [[options created [role|role p|p sc|role p st|e| |e]]|] eqn:Hj; try done.
  destruct (current_phase s j _ I Hj eq_refl) as (_ & _ & _ & [Hs _] & _). simpl in Hs.
  rewrite same_game. apply (move_inv s j _ _ _ I Hj); try done. split; [|done]. simpl.
  by destruct rejection as [message|]; destruct Hs as (? & ? & ? & ?).
Qed.

Lemma live_member_app s s' options role i :
  live_member s options role i → (∃ agents, ls_agents s' = ls_agents s ++ agents) → live_member s' options role i.
Proof.
  intros (p & sc & Hl & Hm) [agents E]. exists p, sc. split; [|done]. rewrite E. by apply lookup_app_l_Some.
Qed.

Lemma add_agent_accounts s own agent :
  accounts s own → ag_releases agent = 0%nat → accounts (add_agent s agent) (own ++ [length (ls_agents s)]).
Proof.
  intros [[Hnd Hlt] Hag Hreg] Ha. rewrite Forall_forall in Hlt. split; [split| |done].
  - apply NoDup_app. split_and!; [done| |apply NoDup_singleton].
    intros x Hx ->%list_elem_of_singleton. apply Hlt in Hx. lia.
  - apply Forall_forall. simpl. rewrite length_app. simpl.
    intros x [Hx| ->%list_elem_of_singleton]%elem_of_app; [apply Hlt in Hx; lia|lia].
  - intros i a. simpl. intros [Hi|[Hlen Hi]]%lookup_app_Some.
    + rewrite (Hag i a Hi). apply lookup_lt_Some in Hi.
      by rewrite (bool_decide_ext (i ∈ own ++ _) (i ∈ own)) by (rewrite elem_of_app, list_elem_of_singleton; lia || (split; [intros [?|?]; [done|lia]|by left])).
    + assert (i = length (ls_agents s)) as -> by (apply lookup_lt_Some in Hi; simpl in Hi; lia).
      rewrite Nat.sub_diag in Hi. injection Hi as <-.
      rewrite bool_decide_eq_true_2; [done|]. apply elem_of_app. right. by left.
Qed.

Lemma created_inv s j rejection refused : loop_inv s → loop_inv (created c s j rejection refused).
Proof.
  intros I. unfold created. destruct (ls_jobs s !! j) as [[options own [role|role p|p sc|role p st|e| |e]]|] eqn:Hj; try done.
  destruct (current_phase s j _ I Hj eq_refl) as (_ & Hv & Hd & [Hs _] & Ho). simpl in Hs, Ho.
  destruct st as [message|scope]; [by apply (failing s j _ _ I Hj)|].
  destruct rejection as [message|]; [by apply (failing s j _ _ I Hj)|].
  set (agent := agent_of c options role p scope). set (i := length (ls_agents s)).
  assert (accounts (add_agent s agent) (own ++ [i])) as Hacc by (apply add_agent_accounts; [rewrite <- Ho; apply I|done]).
  assert (ls_agents (add_agent s agent) !! i = Some agent) as Hi by (simpl; by rewrite lookup_app_r, Nat.sub_diag by done).
  assert (jobs_ok (ls_jobs (add_agent s agent))) as Hok by apply I.
  destruct role.
  - destruct Hs as (-> & Hh & Hm). destruct (Hm scope eq_refl) as [Hmount Hg].
    destruct (set_stage_jobs (add_agent s agent) j _ [i] (Composing role_planner) Hok Hj eq_refl) as [Hjobs Hcur]. simpl in Hcur.
    split; [done| |].
    + unfold owned. rewrite Hcur. simpl. destruct Hv as [-> _]. by destruct Hacc.
    + unfold phase_ok. rewrite Hcur. split_and!; [done..|]. split; [|done]. simpl.
      split_and!; [|done..]. exists i. split; [done|]. by exists p, scope.
  - destruct Hs as ((player & -> & Hplayer) & Hg & Hh & Hmount). unfold register_team.
    destruct refused as [message|].
    + apply (fail_inv _ j (mkJob options [player] (Settling role_planner p (inr scope))) _ [player; i]); try done.
      by rewrite reverse_Permutation.
    + set (s1 := mkLoop _ _ _ _ _ _ _ _ _ _ _).
      destruct (set_stage_jobs s1 j _ [player; i] Resolved Hok Hj eq_refl) as [Hjobs Hcur]. simpl in Hcur.
      split; [done| |].
      * destruct Hacc as [Hown Hag Hreg]. split; [done..|].
        destruct Hv as (_ & Hr & _). simpl in *. rewrite Hr in Hreg.
        intros k r [Hk|[Hlen Hk]]%lookup_app_Some.
        -- rewrite (Hreg k r Hk), bool_decide_eq_false_2 by done. apply lookup_lt_Some in Hk.
           rewrite bool_decide_eq_false_2; [done|]. intros [= E]. lia.
        -- assert (k = length (ls_registrations s)) as -> by (apply lookup_lt_Some in Hk; simpl in Hk; lia).
           rewrite Nat.sub_diag in Hk. injection Hk as <-. by rewrite bool_decide_eq_true_2.
      * unfold phase_ok. rewrite Hcur. cbn [ls_members set_stage s1]. split; [|by left].
        exists options, (length (ls_registrations s)). split_and!; try done.
        -- apply list_elem_of_lookup. exists j. simpl. by rewrite list_lookup_alter_eq, Hj.
        -- destruct Hacc as [[Hnd _] _ _]. intros ->. apply NoDup_cons in Hnd as [Hn _]. apply Hn. by left.
        -- eapply live_member_app; [exact Hplayer|]. by exists [agent].
        -- by exists p, scope.
        -- simpl. by rewrite lookup_app_r, Nat.sub_diag by done.
Qed.

Lemma rolled_back_inv s j : loop_inv s → loop_inv (rolled_back s j).
Proof.
  intros I. unfold rolled_back. destruct (ls_jobs s !! j) as [[options created [role|role p|p sc|role p st|e| |e]]|] eqn:Hj; try done.
  destruct (current_phase s j _ I Hj eq_refl) as (_ & Hv & Hd & [Hs _] & Ho). simpl in Hs, Ho.
  destruct (set_stage_jobs s j _ created (Rejected e) (li_jobs s I) Hj eq_refl) as [Hjobs Hcur]. simpl in Hcur.
  split; [done| |].
  - assert (owned (set_stage s j created (Rejected e)) = owned s) as ->
      by (rewrite Ho; unfold owned; rewrite Hcur; simpl; by destruct Hv as [-> _]).
    by destruct (li_accounts s I).
  - unfold phase_ok. rewrite Hcur. cbn [ls_members set_stage]. pose proof (proj1 Hv) as ->.
    split; [|simpl; by rewrite Hd]. by split.
Qed.

Lemma release_begin_inv s : loop_inv s → current s = None → loop_inv (dispose s).
Proof.
  intros I Hcur. unfold dispose, is_disposed. destruct (ls_disposal s) eqn:Ed; try done.
  pose proof (li_phase s I) as Hp. unfold phase_ok in Hp. rewrite Hcur in Hp.
  set (bindings := match _ with Some _ => _ | None => _ end).
  split; [apply I|by destruct (li_accounts s I)|].
  unfold phase_ok. change (current (set_disposal s (AwaitingQuiescence bindings))) with (current s). rewrite Hcur.
  cbn [ls_members set_disposal]. unfold bindings.
  destruct (ls_members s) as [[player planner]|]; [|by destruct Hp].
  destruct Hp as [Ha _]. split; [exact Ha|]. by right.
Qed.

Lemma awaiting_owned s bindings :
  loop_inv s → ls_disposal s = AwaitingQuiescence bindings → current s = None ∧ bindings = owned s.
Proof.
  intros I Hd. pose proof (li_phase s I) as Hp. unfold phase_ok in Hp.
  destruct (current s) as [job|] eqn:Hcur; [destruct Hp as (_ & ? & _); congruence|]. split; [done|].
  unfold owned. destruct (ls_members s) as [[player planner]|]; [|rewrite Hcur; destruct Hp as [_ Hb]; by rewrite Hd in Hb].
  destruct Hp as [_ [Hb|Hb]]; congruence.
Qed.

Lemma quiescent_inv s : loop_inv s → loop_inv (quiescent s).
Proof.
  intros I. unfold quiescent. destruct (ls_disposal s) as [|bindings| |] eqn:Ed; try done.
  destruct (awaiting_owned s bindings I Ed) as [Hcur ->].
  assert (current (set_disposal (emptied s None (owned s)) (AwaitingMembers (owned s))) = None) as Hcur' by exact Hcur.
  split; [apply I| |].
  - unfold owned at 3. rewrite Hcur'. simpl.
    by destruct (emptied_accounts s None (owned s) (owned s) (li_accounts s I) ltac:(done)).
  - unfold phase_ok. by rewrite Hcur'.
Qed.

Lemma members_released_inv s rejections : loop_inv s → loop_inv (members_released s rejections).
Proof.
  intros I. unfold members_released. destruct (ls_disposal s) as [|bindings|bindings|] eqn:Ed; try done.
  pose proof (li_phase s I) as Hp. unfold phase_ok in Hp.
  destruct (current s) as [job|] eqn:Hcur; [destruct Hp as (_ & ? & _); congruence|].
  set (d := DisposeSettled _). assert (current (set_disposal s d) = None) as Hcur' by exact Hcur.
  split; [apply I|by destruct (li_accounts s I)|].
  unfold phase_ok. rewrite Hcur'. cbn [ls_members set_disposal].
  destruct (ls_members s) as [[player planner]|]; [destruct Hp as [_ [?|?]]; congruence|by destruct Hp].
Qed.

Lemma step_inv s op : loop_inv s → allowed s op → loop_inv (step c s op).
Proof.
  intros I Ha. destruct op; simpl in *;
    [by apply assemble_begin_inv|by apply composed_inv|by apply preset_mounted_inv|by apply memory_ready_inv
    |by apply created_inv|by apply rolled_back_inv|by apply release_begin_inv|by apply quiescent_inv|by apply members_released_inv].
Qed.

Lemma run_inv ops : serial c new_loop ops → loop_inv (run c ops).
Proof.
  unfold run. generalize new_loop new_loop_inv. induction ops as [|op ops IH]; intros s I Hs; [done|].
  destruct Hs as [Ha Hs]. simpl. apply IH; [by apply step_inv|done].
Qed.

(** ** Termination *)

(** The operation answers the await of call [j], suspended at this stage. *)
Definition answers (stage : Stage) (j : nat) (op : Operation) : Prop :=
  match stage, op with
  | Composing _, Composed k _ | Creating _ _, PresetMounted k _ | Prefetching _ _, MemoryReady k _
  | Settling _ _ _, Created k _ _ | RollingBack _, RolledBack k => k = j
  | _, _ => False
  end.

(** What an answer rejects with, after a setup that failed with [setup]. *)
Definition rejection_of (stage : Stage) (op : Operation) : option string :=
  match op with
  | Composed _ (inl message) | PresetMounted _ (inl message) | MemoryReady _ (Some message) => Some message
  | Created _ rejection refused =>
      match stage with
      | Settling _ _ (inl message) => Some message
      | Settling role _ (inr _) =>
          match rejection with
          | Some message => Some message
          | None => match role with role_planner => refused | role_player => None end
          end
      | _ => None
      end
  | _ => None
  end.

(** The awaits a call may still come to. *)
Definition awaits_left (stage : Stage) : nat :=
  match stage with
  | Composing role_player => 8
  | Creating role_player _ => 7
  | Prefetching _ _ => 3
  | Settling role_player _ _ => 6
  | Composing role_planner => 5
  | Creating role_planner _ => 4
  | Settling role_planner _ _ => 2
  | RollingBack _ => 1
  | Resolved | Rejected _ => 0
  end.

Lemma set_stage_at s j job created stage :
  ls_jobs s !! j = Some job → ls_jobs (set_stage s j created stage) !! j = Some (mkJob (jb_options job) created stage).
Proof. intros Hj. simpl. by rewrite list_lookup_alter_eq, Hj. Qed.

Lemma fail_at s j job created error :
  ls_jobs s !! j = Some job → ls_jobs (fail s j created error) !! j = Some (mkJob (jb_options job) created (RollingBack error)).
Proof. intros Hj. unfold fail. by apply set_stage_at. Qed.

(** One answer brings a call at least one await further. *)
Lemma answer_progress s j job op :
  loop_inv s → ls_jobs s !! j = Some job → answers (jb_stage job) j op →
  ∃ own stage, ls_jobs (step c s op) !! j = Some (mkJob (jb_options job) own stage) ∧
    (awaits_left stage < awaits_left (jb_stage job))%nat ∧
    match rejection_of (jb_stage job) op with
    | Some message =>
        stage = RollingBack (Cause message) ∨ ∃ role agentPreset, stage = Settling role agentPreset (inl message)
    | None => True
    end ∧
    ∀ error, jb_stage job = RollingBack error → stage = Rejected error.
Proof.
  intros I Hj Ha. destruct job as [options own [role|role p|p scope|role p setup|e| |e]]; destruct op; simpl in Ha; try done; subst.
  - simpl. unfold composed. rewrite Hj. destruct answer as [message|agentPreset]; [|destruct (co_saolei c)].
    1,3: rewrite (fail_at _ _ _ _ _ Hj); do 2 eexists; split; [done|]; split; [destruct role; simpl; lia|]; (split; [|done]); simpl; by eauto.
    rewrite (set_stage_at _ _ _ _ _ Hj). do 2 eexists. split; [done|]. split; [destruct role; simpl; lia|]. done.
  - simpl. unfold preset_mounted. rewrite Hj. destruct answer as [message|items].
    + rewrite (set_stage_at _ _ _ _ _ Hj). do 2 eexists. split; [done|]. split; [destruct role; simpl; lia|]. (split; [|done]). simpl. by eauto.
    + unfold member_setup. destruct role; [destruct (co_saoleiTools c); [destruct (co_desktopBridge c)|]|destruct (co_memoryMount c)].
      1: rewrite (set_stage_at (set_game s _) _ _ _ _ Hj).
      2-5: rewrite (set_stage_at _ _ _ _ _ Hj).
      all: do 2 eexists; (split; [done|]); (split; [simpl; lia|]); done.
  - simpl. unfold memory_ready. rewrite Hj, (set_stage_at _ _ _ _ _ Hj).
    do 2 eexists. split; [done|]. split; [simpl; lia|]. split; [|done]. simpl. destruct rejection; eauto.
  - simpl. unfold created. rewrite Hj. destruct (current_phase s j _ I Hj eq_refl) as (_ & _ & _ & [Hs _] & _). simpl in Hs.
    destruct setup as [message|scope]; [|destruct rejection as [message|]].
    1,2: rewrite (fail_at _ _ _ _ _ Hj); do 2 eexists; (split; [done|]); (split; [destruct role; simpl; lia|]); (split; [|done]); simpl; by eauto.
    destruct role.
    + rewrite (set_stage_at (add_agent s _) _ _ _ _ Hj). do 2 eexists. split; [done|]. split; [simpl; lia|]. done.
    + destruct Hs as ((player & -> & _) & _). unfold register_team. destruct refused as [message|].
      * rewrite (fail_at (add_agent s _) _ _ _ _ Hj). do 2 eexists. split; [done|]. split; [simpl; lia|]. split; [|done]. simpl. eauto.
      * rewrite (set_stage_at (mkLoop _ _ _ _ _ _ _ _ _ _ _) _ (mkJob options [player] (Settling role_planner p (inr scope)))) by done.
        do 2 eexists. split; [done|]. split; [simpl; lia|]. done.
  - simpl. unfold rolled_back. rewrite Hj, (set_stage_at _ _ _ _ _ Hj). do 2 eexists. split; [done|]. split; [simpl; lia|].
    split; [done|]. by intros ? [= ->].
Qed.

(** ** Properties *)

(** The agents of the team there is. *)
Definition team (s : LoopState) : list nat :=
  match ls_members s with Some (player, planner) => [player; planner] | None => [] end.

(** C15: All or nothing, for calls that do not overlap: neither a materialization nor a
    disposal is asked for while a materialization runs (the condition [serial]; the
    orchestrator does not see to it itself, and without it agents leak, as
    [overlapping_materializations_leak] and [overtaken_dispose_leaks] below show; the
    session layer runs at most one materialization of a session at a time).  However
    compositions, setups, prefetches, creations and registrations fail, after any such
    calls there is, once none of them is under way, either no team, and nothing of one
    is held, or a team with everything a materialization asked for: two agents,
    created on the sessions, presets and routes of its options, with the tools,
    sections and faces of their roles, the game wired to the hooks, and one
    registration with the announcer.  Every other agent was released exactly once, and
    so was every other registration. *)
Theorem materialize_all_or_nothing ops :
  serial c new_loop ops →
  let s := run c ops in
  current s = None →
  match ls_members s with
  | Some (player, planner) => assembled s player planner
  | None => vacated s
  end ∧
  (∀ i a, ls_agents s !! i = Some a → ag_releases a = if bool_decide (i ∈ team s) then 0%nat else 1%nat) ∧
  (∀ i r, ls_registrations s !! i = Some r →
     rg_disposals r = if bool_decide (ls_registration s = Some i) then 0%nat else 1%nat).
Proof.
  intros Hserial s Hcur. pose proof (run_inv ops Hserial) as [_ [_ Ha Hr] Hp]. fold s in Ha, Hr, Hp.
  unfold phase_ok in Hp. rewrite Hcur in Hp. split; [|split; [|done]].
  - destruct (ls_members s) as [[player planner]|]; [apply Hp|apply Hp].
  - intros i a Hi. rewrite (Ha i a Hi). unfold owned, team. rewrite Hcur. by destruct (ls_members s) as [[??]|].
Qed.

(** C19: Every call settles, for calls that do not overlap.  A materialization under way waits for one answer; every
    answer it can get brings it further, past one at least of the eight awaits it may
    come to, so it settles; an answer that rejects is the cause the rollback
    keeps, or the failed setup the creation of the agent then rejects with, and what
    was kept is what the caller gets. *)
Theorem materialize_settles ops j job :
  serial c new_loop ops → ls_jobs (run c ops) !! j = Some job → running (jb_stage job) = true →
  (awaits_left (jb_stage job) ≤ 8)%nat ∧ (∃ op, answers (jb_stage job) j op) ∧
  ∀ op, answers (jb_stage job) j op →
    ∃ own stage, ls_jobs (step c (run c ops) op) !! j = Some (mkJob (jb_options job) own stage) ∧
      (awaits_left stage < awaits_left (jb_stage job))%nat ∧
      match rejection_of (jb_stage job) op with
      | Some message =>
          stage = RollingBack (Cause message) ∨ ∃ role agentPreset, stage = Settling role agentPreset (inl message)
      | None => True
      end ∧
      ∀ error, jb_stage job = RollingBack error → stage = Rejected error.
Proof.
  intros Hserial Hj Hr. split_and!.
  - destruct (jb_stage job) as [[]|[] ?| |[] ? ?| | |]; simpl; lia.
  - destruct (jb_stage job) as [role|role p|p scope|role p setup|e| |e]; try done.
    + by exists (Composed j (inr EmptyString)).
    + by exists (PresetMounted j (inr [])).
    + by exists (MemoryReady j None).
    + by exists (Created j None None).
    + by exists (RolledBack j).
  - intros op. apply answer_progress; [|done]. by apply run_inv.
Qed.

(** C18: Disposal, after calls that never overlapped (no materialization or disposal
    was ever asked for while a materialization ran; after overlapping ones the agents
    of the first team are never released, [overlapping_materializations_leak] below).
    Called when no materialization is under way, [dispose] ends, whatever the releases
    of the members answer, with every agent and every registration there ever was
    released exactly once and nothing held; it rejects with the first rejection of a
    release, and from then on a materialization is refused. *)
Theorem dispose_releases_everything_once ops rejections options :
  serial c new_loop ops → current (run c ops) = None → ls_disposal (run c ops) = NotDisposed →
  let s := run c (ops ++ [Dispose; Quiescent; MembersReleased rejections]) in
  (∀ a, a ∈ ls_agents s → ag_releases a = 1%nat) ∧ (∀ r, r ∈ ls_registrations s → rg_disposals r = 1%nat) ∧
  vacated s ∧ ls_session s = None ∧ ls_disposal s = DisposeSettled (head (omap id rejections)) ∧
  ls_jobs (step c s (Materialize options)) = ls_jobs s ++ [mkJob options [] (Rejected (StateError DISPOSED))].
Proof.
  intros Hserial Hcur Hd s. pose proof (run_inv ops Hserial) as I.
  assert (s = members_released (quiescent (dispose (run c ops))) rejections) as Es
    by (subst s; unfold run; by rewrite fold_left_app).
  pose proof (release_begin_inv _ I Hcur) as I1. pose proof (quiescent_inv _ I1) as I2.
  assert (∃ bindings, ls_disposal (dispose (run c ops)) = AwaitingQuiescence bindings) as [bindings Hb].
  { unfold dispose, is_disposed. rewrite Hd. by eexists. }
  destruct (awaiting_owned _ _ I1 Hb) as [_ Hown].
  assert (quiescent (dispose (run c ops)) = set_disposal (emptied (dispose (run c ops)) None bindings) (AwaitingMembers bindings)) as Eq
    by (unfold quiescent; by rewrite Hb).
  pose proof (emptied_accounts _ None bindings _ (li_accounts _ I1) ltac:(by rewrite Hown)) as [_ Ha Hr].
  rewrite Es, Eq. unfold members_released. cbn [ls_disposal set_disposal]. split_and!; try done.
  - intros a [i Hi]%list_elem_of_lookup. by apply (Ha i a).
  - intros r [i Hi]%list_elem_of_lookup. by apply (Hr i r).
Qed.

End Facts.

(** ** A composition with everything, and one materialization *)

Definition demo_composition : Composition :=
  mkComposition (Some "saolei-game") (Some (mkUnit ["saolei_init"; "saolei_operate"] ["saolei-rules"]))
    (Some (inr (mkUnit ["saolei_hook"] []))) (Some (λ scope, mkCapabilities ["memory"] ["memory"] ["memory:" +:+ sc_preset scope]))
    true None.

Definition demo_options : TeamMaterializeOptions :=
  mkOptions "templates/saolei/sessions/s1" (mkScope "saolei" "bold") "win" None
    (mkMember "saolei-player" None (Some "glm-4.6")) (mkMember "bold" None (Some "")) None None None None.

(** The answers of a materialization in which nothing fails. *)
Definition demo_answers (j : nat) : list Operation :=
  [Composed j (inr "player-preset"); PresetMounted j (inr ["base"]); Created j None None;
   Composed j (inr "planner-preset"); PresetMounted j (inr ["base"]); MemoryReady j None; Created j None None].

Definition demo_ops : list Operation := Materialize demo_options :: demo_answers 0.

Definition demo_failed_ops : list Operation :=
  Materialize demo_options :: take 5 (demo_answers 0) ++ [MemoryReady 0 (Some "prefetch failed")].

Lemma demo_idle : current (run demo_composition demo_ops) = None.
Proof. vm_compute. reflexivity. Qed.

Lemma demo_members : ls_members (run demo_composition demo_ops) = Some (0%nat, 1%nat).
Proof. vm_compute. reflexivity. Qed.

Lemma demo_serial : serial demo_composition new_loop demo_ops.
Proof. vm_compute. repeat split. Qed.

Lemma demo_failed_serial : serial demo_composition new_loop demo_failed_ops.
Proof. vm_compute. repeat split. Qed.

Lemma materialize_all_or_nothing_witness :
  let s := run demo_composition demo_ops in
  ls_members s = Some (0%nat, 1%nat) ∧ assembled demo_composition s 0 1 ∧
  ag_scope <$> ls_agents s =
    [[PresetItem "base"; ToolItem "saolei_init"; ToolItem "saolei_operate"; SectionItem "saolei-rules";
      SectionItem "saolei-game"; GameHandle (mkGame "templates/saolei/sessions/s1" true)];
     [PresetItem "base"; SectionItem "saolei-game"; ToolItem "saolei_hook"; Face "memory"; ToolItem "memory";
      SectionItem "memory:bold"]].
Proof.
  split; [exact demo_members|]. split; [|vm_compute; reflexivity].
  destruct (materialize_all_or_nothing demo_composition demo_ops demo_serial demo_idle) as [H _].
  rewrite demo_members in H. exact H.
Defined.

(** The failed prefetch is a failed setup, which rejects the creation of the planner;
    the player is released and the caller gets the failure. *)
Lemma materialize_settles_witness :
  ∃ own stage, ls_jobs (step demo_composition (run demo_composition demo_failed_ops) (Created 0 None None)) !! 0%nat
                 = Some (mkJob demo_options own stage) ∧ (awaits_left stage < 2)%nat.
Proof.
  assert (ls_jobs (run demo_composition demo_failed_ops) !! 0%nat =
    Some (mkJob demo_options [0%nat] (Settling role_planner "planner-preset" (inl "prefetch failed")))) as Hj by (vm_compute; reflexivity).
  destruct (materialize_settles demo_composition demo_failed_ops 0 _ demo_failed_serial Hj eq_refl) as (_ & _ & H).
  destruct (H (Created 0 None None) eq_refl) as (own & stage & E & Hl & _). exists own, stage. split; [exact E|exact Hl].
Defined.

Lemma dispose_releases_everything_once_witness :
  let s := run demo_composition (demo_ops ++ [Dispose; Quiescent; MembersReleased [None; Some "planner stuck"]]) in
  length (ls_agents s) = 2%nat ∧ (∀ a, a ∈ ls_agents s → ag_releases a = 1%nat) ∧
  ls_disposal s = DisposeSettled (Some "planner stuck").
Proof.
  split; [vm_compute; reflexivity|].
  destruct (dispose_releases_everything_once demo_composition demo_ops [None; Some "planner stuck"] demo_options
    demo_serial demo_idle ltac:(vm_compute; reflexivity)) as (H & _ & _ & _ & Hd & _).
  split; [exact H|exact Hd].
Defined.

(** ** Overlapping calls *)

(** A [dispose] that overtakes a materialization returns with nothing to release; the
    materialization goes on to assemble its team, and no later [dispose] does
    anything: two agents and a registration are never released. *)
Lemma overtaken_dispose_leaks :
  let s := run demo_composition
             (Materialize demo_options :: take 2 (demo_answers 0) ++ [Dispose; Quiescent; MembersReleased []]
              ++ drop 2 (demo_answers 0)) in
  is_disposed s = true ∧ ls_members s = Some (0%nat, 1%nat) ∧ ag_releases <$> ls_agents s = [0%nat; 0%nat] ∧
  rg_disposals <$> ls_registrations s = [0%nat] ∧ step demo_composition s Dispose = s.
Proof. vm_compute. repeat split. Qed.

(** Two materializations that overlap both pass the guard and both resolve; the team
    of the first is lost, and a disposal releases that of the second only. *)
Lemma overlapping_materializations_leak :
  let s := run demo_composition
             ([Materialize demo_options; Materialize demo_options] ++ demo_answers 0 ++ demo_answers 1
              ++ [Dispose; Quiescent; MembersReleased [None; None]]) in
  jb_stage <$> ls_jobs s = [Resolved; Resolved] ∧ ag_releases <$> ls_agents s = [0%nat; 0%nat; 1%nat; 1%nat] ∧
  rg_disposals <$> ls_registrations s = [0%nat; 1%nat].
Proof. vm_compute. repeat split. Qed.
