(* ===== verification/WebApi.v ===== *)
(** * The web client's calls

    [projects/game/web/frontend/src/api]: the NDJSON reading of a team stream and
    [sendStream] ([conversation.ts]), and the requests of the session, preset, team,
    memory and wiki clients ([sessions.ts], [agent.ts], [memory.ts], [wiki.ts]).

    A request is what [fetch] is given; a response is its status, its text and, for
    the calls that read one, the outcome of parsing its JSON.  Bytes are integers
    from 0 to 255; [TextDecoder], [encodeURIComponent] and [URLSearchParams] are
    written out. *)

From S2P Require Import Prelude JsText Memory Wiki JsJson.

#[local] Open Scope Z_scope.

(** ** TextDecoder *)

(** The decoder of UTF-8 in stream mode: the code point being read, the bytes it
    still needs, the bounds of the next one, and whether something was written (a
    leading byte order mark is dropped). *)
Record Decoder : Type := mkDecoder {
  de_point : Z;
  de_needed : nat;
  de_lower : Z;
  de_upper : Z;
  de_started : bool;
}.

Definition new_TextDecoder : Decoder := mkDecoder 0 0 0x80 0xBF false.

(** The UTF-16 code units of a code point. *)
Definition utf16 (p : Z) : jstr :=
  if p <? 0x10000 then [p] else [0xD800 + (p - 0x10000) / 0x400; 0xDC00 + (p - 0x10000) `mod` 0x400].

Definition REPLACEMENT : Z := 0xFFFD.

(** A code point is written. *)
Definition emit_point (started : bool) (p : Z) : Decoder * jstr :=
  (mkDecoder 0 0 0x80 0xBF true, if negb started && (p =? 0xFEFF) then [] else utf16 p).

(** A byte that begins a code point. *)
Definition decode_first (started : bool) (b : Z) : Decoder * jstr :=
  if b <? 0x80 then emit_point started b
  else if (0xC2 <=? b) && (b <=? 0xDF) then (mkDecoder (b - 0xC0) 1 0x80 0xBF started, [])
  else if (0xE0 <=? b) && (b <=? 0xEF) then
    (mkDecoder (b - 0xE0) 2 (if b =? 0xE0 then 0xA0 else 0x80) (if b =? 0xED then 0x9F else 0xBF) started, [])
  else if (0xF0 <=? b) && (b <=? 0xF4) then
    (mkDecoder (b - 0xF0) 3 (if b =? 0xF0 then 0x90 else 0x80) (if b =? 0xF4 then 0x8F else 0xBF) started, [])
  else emit_point started REPLACEMENT.

Definition decode_byte (d : Decoder) (b : Z) : Decoder * jstr :=
  match de_needed d with
  | O => decode_first (de_started d) b
  | S n =>
      if (de_lower d <=? b) && (b <=? de_upper d) then
        let p := 64 * de_point d + (b - 0x80) in
        match n with
        | O => emit_point (de_started d) p
        | S _ => (mkDecoder p n 0x80 0xBF (de_started d), [])
        end
      else
        let '(d1, s1) := emit_point (de_started d) REPLACEMENT in
        let '(d2, s2) := decode_first (de_started d1) b in
        (d2, s1 ++ s2)
  end.

(** [decoder.decode(value, { stream: true })]. *)
Fixpoint decode (d : Decoder) (bytes : list Z) : Decoder * jstr :=
  match bytes with
  | [] => (d, [])
  | b :: bytes =>
      let '(d, s) := decode_byte d b in
      let '(d, s') := decode d bytes in
      (d, s ++ s')
  end.

(** ** conversation.ts *)

(** The loop on [buf]: the lines that end in it, and what is left. *)
Fixpoint take_lines (line buf : jstr) : list jstr * jstr :=
  match buf with
  | [] => ([], line)
  | c :: buf =>
      if c =? 10 then let '(lines, rest) := take_lines [] buf in (line :: lines, rest)
      else take_lines (line ++ [c]) buf
  end.

(** One chunk: the decoder and [buf] before and after, the lines yielded. *)
Definition ndjson_chunk (s : Decoder * jstr) (value : list Z) : (Decoder * jstr) * list jstr :=
  let '(d, text) := decode s.1 value in
  let '(lines, rest) := take_lines [] (s.2 ++ text) in
  ((d, rest), lines).

(** [ndjsonLines]: the lines yielded by the end of a body of these chunks. *)
Fixpoint ndjson_go (s : Decoder * jstr) (chunks : list (list Z)) : list jstr :=
  match chunks with
  | [] => []
  | value :: chunks => let '(s, lines) := ndjson_chunk s value in lines ++ ndjson_go s chunks
  end.
Definition ndjsonLines (chunks : list (list Z)) : list jstr := ndjson_go (new_TextDecoder, []) chunks.

(** [JSON.stringify] of an object of string fields. *)
Definition json_object (fields : list (string * jstr)) : jstr :=
  js "{" ++ jjoin (js ",") ((λ f, [34] ++ js f.1 ++ [34] ++ js ":" ++ stringify f.2) <$> fields) ++ js "}".

(** The arguments of [fetch]; every request with a body is sent as JSON. *)
Record Request : Type := mkRequest { rq_method : string; rq_url : jstr; rq_body : option jstr }.

Definition GET (url : jstr) : Request := mkRequest "GET" url None.

(** [ApiError]. *)
Record ApiError : Type := mkApiError { ae_status : Z; ae_body : jstr }.

(** What a call throws. *)
Inductive CallError : Type :=
| ThrewApiError (e : ApiError)
| ThrewOther (message : jstr).

(** A response: its status, its text, and the value [json()] gives of it or the error
    it throws. *)
Record Response (A : Type) : Type := mkResponse { rs_status : Z; rs_text : jstr; rs_json : jstr + A }.
#[global] Arguments mkResponse {A} _ _ _.
#[global] Arguments rs_status {A} _.
#[global] Arguments rs_text {A} _.
#[global] Arguments rs_json {A} _.

(** [res.ok]. *)
Definition ok (status : Z) : bool := (200 <=? status) && (status <=? 299).

(** [requestJson], after the [fetch]: [inl] is what that threw. *)
Definition requestJson {A} (res : jstr + Response A) : CallError + A :=
  match res with
  | inl message => inl (ThrewOther message)
  | inr res =>
      if ok (rs_status res) then
        match rs_json res with inl message => inl (ThrewOther message) | inr a => inr a end
      else inl (ThrewApiError (mkApiError (rs_status res) (rs_text res)))
  end.

(** The calls that ask for no value. *)
Definition requestNothing {A} (res : jstr + Response A) : CallError + unit :=
  match res with
  | inl message => inl (ThrewOther message)
  | inr res => if ok (rs_status res) then inr tt else inl (ThrewApiError (mkApiError (rs_status res) (rs_text res)))
  end.

Definition send_request (session text : jstr) : Request :=
  mkRequest "POST" (js "/api/v2/" ++ session ++ js ":send") (Some (json_object [("text", text)])).

(** The events of the lines, up to the first that does not parse. *)
Fixpoint parse_lines {E} (parse : jstr → jstr + E) (lines : list jstr) : list E * option CallError :=
  match lines with
  | [] => ([], None)
  | line :: lines =>
      match parse line with
      | inl message => ([], Some (ThrewOther message))
      | inr e => let '(es, err) := parse_lines parse lines in (e :: es, err)
      end
  end.

(** [sendStream]: the events yielded and how the generator ends; [parse] is
    [JSON.parse(line).result].  [body] is [None]
    when the response has none, [broken] what reading it throws after these chunks. *)
Definition sendStream {E} (parse : jstr → jstr + E) (status : Z) (text : jstr) (body : option (list (list Z)))
    (broken : option jstr) : list E * option CallError :=
  match ok status, body with
  | true, Some chunks =>
      match parse_lines parse (ndjsonLines chunks) with
      | (es, None) => (es, ThrewOther <$> broken)
      | r => r
      end
  | _, _ => ([], Some (ThrewApiError (mkApiError status text)))
  end.

(** ** Encodings *)

Definition hex_upper (d : Z) : Z := if d <? 10 then 48 + d else 55 + d.
Definition percent (b : Z) : jstr := [37; hex_upper (b / 16); hex_upper (b `mod` 16)].

(** The UTF-8 bytes of a code point. *)
Definition utf8 (p : Z) : list Z :=
  if p <? 0x80 then [p]
  else if p <? 0x800 then [0xC0 + p / 0x40; 0x80 + p `mod` 0x40]
  else if p <? 0x10000 then [0xE0 + p / 0x1000; 0x80 + (p / 0x40) `mod` 0x40; 0x80 + p `mod` 0x40]
  else [0xF0 + p / 0x40000; 0x80 + (p / 0x1000) `mod` 0x40; 0x80 + (p / 0x40) `mod` 0x40; 0x80 + p `mod` 0x40].

Definition is_surrogate (p : Z) : bool := is_high_surrogate p || is_low_surrogate p.

(** [new TextEncoder().encode(s)]: lone surrogates are replaced. *)
Definition text_encode (s : jstr) : list Z :=
  code_points s ≫= λ p, utf8 (if is_surrogate p then REPLACEMENT else p).

Definition alnum (c : Z) : bool :=
  is_digit c || ((65 <=? c) && (c <=? 90)) || ((97 <=? c) && (c <=? 122)).

(** [encodeURIComponent]: a lone surrogate throws. *)
Definition encodeURIComponent (s : jstr) : option jstr :=
  if existsb is_surrogate (code_points s) then None
  else Some (code_points s ≫= λ p,
         if alnum p || bool_decide (p ∈ js "-_.!~*'()") then [p] else utf8 p ≫= percent).

(** The serialization of [URLSearchParams]. *)
Definition form_encode (s : jstr) : jstr :=
  text_encode s ≫= λ b,
    if b =? 32 then [43] else if alnum b || bool_decide (b ∈ js "*-._") then [b] else percent b.

Definition search_params (params : list (string * jstr)) : jstr :=
  jjoin (js "&") ((λ p, form_encode (js p.1) ++ js "=" ++ form_encode p.2) <$> params).

(** [rendered === '' ? '' : `?${rendered}`]. *)
Definition query_string (params : list (string * jstr)) : jstr :=
  match search_params params with [] => [] | rendered => js "?" ++ rendered end.

(** A parameter that is sent only when it is there and not empty. *)
Definition optional_param (key : string) (value : option jstr) : list (string * jstr) :=
  match value with None | Some [] => [] | Some v => [(key, v)] end.

(** ** sessions.ts *)

Definition sessions_url (template : jstr) : jstr := js "/api/v1/templates/" ++ template ++ js "/sessions".
Definition listSessions (template : jstr) : Request := GET (sessions_url template).
Definition createSession (template : jstr) : Request := mkRequest "POST" (sessions_url template) (Some (js "{}")).
Definition deleteSession (name : jstr) : Request := mkRequest "DELETE" (js "/api/v1/" ++ name) None.

(** [res.sessions ?? []], as in every list. *)
Definition listed_items {A} (items : option (list A)) : list A := default [] items.

(** ** agent.ts *)

Definition presets_url (template : jstr) : jstr := js "/api/v2/templates/" ++ template ++ js "/presets".

(** A request whose URL is encoded; [None] when the encoding throws. *)
Definition listPresets (template : jstr) (role : option jstr) : option Request :=
  match role with
  | None | Some [] => Some (GET (presets_url template))
  | Some role => (λ r, GET (presets_url template ++ js "?role=" ++ r)) <$> encodeURIComponent role
  end.

Definition createPreset (template presetId persona role : jstr) : option Request :=
  id ← encodeURIComponent presetId; r ← encodeURIComponent role;
  Some (mkRequest "POST" (presets_url template ++ js "?preset_id=" ++ id ++ js "&role=" ++ r)
    (Some (json_object [("persona", persona)]))).

Definition getPreset (name : jstr) : Request := GET (js "/api/v2/" ++ name).
Definition updatePreset (name persona : jstr) : Request :=
  mkRequest "PATCH" (js "/api/v2/" ++ name ++ js "?update_mask=persona") (Some (json_object [("persona", persona)])).
Definition deletePreset (name : jstr) : Request := mkRequest "DELETE" (js "/api/v2/" ++ name) None.
Definition listModels : Request := GET (js "/api/v2/models").

(** The input fields of a member. *)
Record MemberInput : Type := mkMemberInput { mi_role : jstr; mi_preset : jstr; mi_model : option jstr }.

Definition getTeam (session : jstr) : Request := GET (js "/api/v2/" ++ session ++ js "/team").
Definition getTeamMember (session member : jstr) : Request :=
  GET (js "/api/v2/" ++ session ++ js "/team/members/" ++ member).

(** The fields of a member in the body: an empty model is left out. *)
Definition member_fields (m : MemberInput) : list (string * jstr) :=
  [("role", mi_role m); ("preset", mi_preset m)] ++ optional_param "model" (mi_model m).

Definition updateTeam (session : jstr) (members : list MemberInput) : Request :=
  mkRequest "PATCH" (js "/api/v2/" ++ session ++ js "/team?allow_missing=true")
    (Some (js "{" ++ [34] ++ js "members" ++ [34] ++ js ":["
           ++ jjoin (js ",") ((λ m, json_object (member_fields m)) <$> members) ++ js "]}")).

Definition cancelTeam (session : jstr) : Request :=
  mkRequest "POST" (js "/api/v2/" ++ session ++ js "/team:cancel") (Some (js "{}")).
Definition listTeamMessages (session : jstr) : Request := GET (js "/api/v2/" ++ session ++ js "/team/messages").
Definition listMemberMessages (session member : jstr) : Request :=
  GET (js "/api/v2/" ++ session ++ js "/team/members/" ++ member ++ js "/messages").

(** ** memory.ts and wiki.ts *)

Record ListOptions : Type := mkListOptions { lo_pageSize : option Z; lo_pageToken : option jstr; lo_orderBy : option jstr }.

Definition page_params (options : option ListOptions) : list (string * jstr) :=
  match options with
  | None => []
  | Some o =>
      match lo_pageSize o with Some n => [("page_size", jnum n)] | None => [] end
      ++ optional_param "page_token" (lo_pageToken o)
  end.

(** memory.ts [listQuery]. *)
Definition listQuery (options : option ListOptions) : jstr :=
  query_string (page_params options ++ optional_param "order_by" (options ≫= lo_orderBy)).

(** wiki.ts [pageQuery]. *)
Definition pageQuery (options : option ListOptions) (query : option jstr) : jstr :=
  query_string (match query with Some q => [("query", q)] | None => [] end ++ page_params options).

(** A page: the items and the continuation, empty on the last one. *)
Definition page_of {A} (items : option (list A)) (nextPageToken : option jstr) : list A * jstr :=
  (default [] items, default [] nextPageToken).

Definition memories_url (template preset : jstr) : jstr :=
  js "/api/v1/templates/" ++ template ++ js "/presets/" ++ preset ++ js "/memories".
Definition wikis_url (template : jstr) : jstr := js "/api/v1/templates/" ++ template ++ js "/wikis".

Definition listMemories (template preset : jstr) (options : option ListOptions) : Request :=
  GET (memories_url template preset ++ listQuery options).
Definition updateMemory (name content : jstr) : Request :=
  mkRequest "PATCH" (js "/api/v1/" ++ name ++ js "?update_mask=content") (Some (json_object [("name", name); ("content", content)])).
Definition deleteMemory (name : jstr) : Request := mkRequest "DELETE" (js "/api/v1/" ++ name) None.

Definition listWikis (template : jstr) (options : option ListOptions) : Request :=
  GET (wikis_url template ++ pageQuery options None).
Definition searchWikis (template query : jstr) (options : option ListOptions) : Request :=
  GET (wikis_url template ++ js ":search" ++ pageQuery options (Some query)).
Definition getWiki (name : jstr) : Request := GET (js "/api/v1/" ++ name).
Definition deleteWiki (name : jstr) : Request := mkRequest "DELETE" (js "/api/v1/" ++ name) None.

(** [updateWiki]: exactly the fields given, in the body and in the mask. *)
Definition wiki_fields (title content : option jstr) : list (string * jstr) :=
  match title with Some t => [("title", t)] | None => [] end
  ++ match content with Some t => [("content", t)] | None => [] end.
Definition updateWiki (name : jstr) (title content : option jstr) : Request :=
  mkRequest "PATCH"
    (js "/api/v1/" ++ name ++ js "?update_mask=" ++ jjoin (js ",") (js ∘ fst <$> wiki_fields title content))
    (Some (json_object (wiki_fields title content))).

(** *** Ids from content *)

Section Ids.
Context (sha256 : list Z → list Z) (nfkc lower : jstr → jstr).

(** [byte.toString(16).padStart(2, '0')]. *)
Definition hex_byte (b : Z) : jstr :=
  if b <? 16 then [48; hex_digit b] else [hex_digit (b / 16); hex_digit (b `mod` 16)].

Definition hex_digest (s : jstr) : jstr := sha256 (text_encode s) ≫= hex_byte.

Definition memoryIdForContent (content : jstr) : jstr := slice_to (hex_digest content) 32.

Definition createMemory (template preset content : jstr) : option Request :=
  id ← encodeURIComponent (memoryIdForContent content);
  Some (mkRequest "POST" (memories_url template preset ++ js "?memory_id=" ++ id) (Some (json_object [("content", content)]))).

Definition web_normalizeWikiTitle (title : jstr) : jstr := lower (nfkc title).

Definition wikiIdForTitle (title : jstr) : jstr := slice_to (hex_digest (web_normalizeWikiTitle title)) 32.

Definition createWiki (template wikiId title content : jstr) : option Request :=
  id ← encodeURIComponent wikiId;
  Some (mkRequest "POST" (wikis_url template ++ js "?wiki_id=" ++ id)
    (Some (json_object [("title", title); ("content", content)]))).

End Ids.

(** ** What the web client's calls guarantee

    The lines of an NDJSON body do not depend on how the network cuts it into chunks
    ([ndjson_lines_of_chunks]); whatever texts the server writes, one per line, come
    back unchanged from any cut of their UTF-8 bytes ([ndjson_reads_what_was_sent]);
    and the ids the client gives to new entries are those the memory library gives
    to the same content. *)

(** ** Cutting *)

Lemma take_lines_app line a b :
  take_lines line (a ++ b)
  = ((take_lines line a).1 ++ (take_lines (take_lines line a).2 b).1, (take_lines (take_lines line a).2 b).2).
Proof.
  revert line; induction a as [|c a IH]; intros line; simpl; [by destruct (take_lines line b)|].
  destruct (c =? 10); [|apply IH].
  rewrite IH; by destruct (take_lines [] a) as [l r].
Qed.

(** A text without a line end is left in the buffer. *)
Lemma take_lines_none line a : (10 ∉ a) → take_lines line a = ([], line ++ a).
Proof.
  revert line; induction a as [|c a IH]; intros line Hn; simpl; [by rewrite app_nil_r|].
  apply not_elem_of_cons in Hn as [Hc Hn].
  replace (c =? 10) with false by (symmetry; apply Z.eqb_neq; congruence).
  rewrite IH by done; by rewrite <-app_assoc.
Qed.

Lemma take_lines_rest line a : (10 ∉ line) → 10 ∉ (take_lines line a).2.
Proof.
  revert line; induction a as [|c a IH]; intros line Hn; simpl; [done|].
  destruct (Z.eqb_spec c 10) as [->|Hc].
  - specialize (IH [] ltac:(apply not_elem_of_nil)); by destruct (take_lines [] a).
  - apply IH, not_elem_of_app; split; [done|]; rewrite list_elem_of_singleton; congruence.
Qed.

Lemma decode_app d a b :
  decode d (a ++ b) = ((decode (decode d a).1 b).1, (decode d a).2 ++ (decode (decode d a).1 b).2).
Proof.
  revert d; induction a as [|c a IH]; intros d; simpl; [by destruct (decode d b)|].
  destruct (decode_byte d c) as [d1 s1]; rewrite IH.
  destruct (decode d1 a) as [d2 s2]; simpl; by rewrite app_assoc.
Qed.

Lemma ndjson_go_lines d buf chunks :
  (10 ∉ buf) →
  ndjson_go (d, buf) chunks = (take_lines [] (buf ++ (decode d (concat chunks)).2)).1.
Proof.
  revert d buf; induction chunks as [|value chunks IH]; intros d buf Hn.
  - simpl; by rewrite app_nil_r, take_lines_none.
  - cbn [ndjson_go concat]; unfold ndjson_chunk; simpl fst; simpl snd.
    rewrite decode_app; destruct (decode d value) as [d1 text]; simpl fst; simpl snd.
    pose proof (take_lines_rest [] (buf ++ text) (not_elem_of_nil _)) as Hrest.
    rewrite (app_assoc buf), (take_lines_app [] (buf ++ text)).
    destruct (take_lines [] (buf ++ text)) as [lines rest]; simpl in *.
    rewrite IH by done.
    by rewrite (take_lines_app [] rest), (take_lines_none [] rest).
Qed.

(** ** Encoding and decoding *)

(** A Unicode scalar value. *)
Definition scalar (p : Z) : Prop := 0 <= p <= 0x10FFFF ∧ is_surrogate p = false.

(** The decoder between two code points. *)
Definition at_rest (started : bool) : Decoder := mkDecoder 0 0 0x80 0xBF started.

#[local] Ltac Zify.zify_post_hook ::= Z.div_mod_to_equations.

(** A comparison of the goal that arithmetic decides. *)
Ltac decide_comparison :=
  match goal with
  | |- context [?a <=? ?b] =>
      first [replace (a <=? b) with true by (symmetry; apply Z.leb_le; lia)
            |replace (a <=? b) with false by (symmetry; apply Z.leb_gt; lia)]
  | |- context [?a <? ?b] =>
      first [replace (a <? b) with true by (symmetry; apply Z.ltb_lt; lia)
            |replace (a <? b) with false by (symmetry; apply Z.ltb_ge; lia)]
  | |- context [?a =? ?b] =>
      first [replace (a =? b) with true by (symmetry; apply Z.eqb_eq; lia)
            |replace (a =? b) with false by (symmetry; apply Z.eqb_neq; lia)]
  end.
Ltac decide_comparisons := repeat (decide_comparison; cbn [andb orb negb]).

(** A byte that goes on with the code point being read. *)
Lemma decode_continuation d n b :
  de_needed d = S n → de_lower d <= b <= de_upper d →
  decode_byte d b
  = match n with
    | O => emit_point (de_started d) (64 * de_point d + (b - 0x80))
    | S _ => (mkDecoder (64 * de_point d + (b - 0x80)) n 0x80 0xBF (de_started d), [])
    end.
Proof.
  intros Hn Hb; unfold decode_byte; rewrite Hn.
  by replace ((de_lower d <=? b) && (b <=? de_upper d)) with true by (symmetry; rewrite andb_true_iff; lia).
Qed.

Lemma decode_cons d b bytes :
  decode d (b :: bytes) = ((decode (decode_byte d b).1 bytes).1, (decode_byte d b).2 ++ (decode (decode_byte d b).1 bytes).2).
Proof. simpl; destruct (decode_byte d b) as [d' s]; simpl; by destruct (decode d' bytes). Qed.

Lemma decode_one d b : decode d [b] = decode_byte d b.
Proof. rewrite decode_cons; simpl; rewrite app_nil_r; by destruct (decode_byte d b). Qed.

Lemma scalar_not_surrogate p : scalar p → 0 <= p < 0xD800 ∨ 0xE000 <= p <= 0x10FFFF.
Proof.
  unfold scalar, is_surrogate, is_high_surrogate, is_low_surrogate.
  rewrite orb_false_iff, !andb_false_iff, !Z.leb_gt; lia.
Qed.

(** The first byte of a code point. *)
Lemma decode_start1 s b : 0 <= b < 0x80 → decode_byte (at_rest s) b = emit_point s b.
Proof. intros; unfold decode_byte, at_rest, decode_first; cbn [de_needed de_started]; by decide_comparisons. Qed.

Lemma decode_start2 s b : 0xC2 <= b <= 0xDF → decode_byte (at_rest s) b = (mkDecoder (b - 0xC0) 1 0x80 0xBF s, []).
Proof. intros; unfold decode_byte, at_rest, decode_first; cbn [de_needed de_started]; by decide_comparisons. Qed.

Lemma decode_start3 s b :
  0xE0 <= b <= 0xEF →
  decode_byte (at_rest s) b
  = (mkDecoder (b - 0xE0) 2 (if b =? 0xE0 then 0xA0 else 0x80) (if b =? 0xED then 0x9F else 0xBF) s, []).
Proof.
  intros; unfold decode_byte, at_rest, decode_first; cbn [de_needed de_started].
  by do 5 (decide_comparison; cbn [andb]).
Qed.

Lemma decode_start4 s b :
  0xF0 <= b <= 0xF4 →
  decode_byte (at_rest s) b
  = (mkDecoder (b - 0xF0) 3 (if b =? 0xF0 then 0x90 else 0x80) (if b =? 0xF4 then 0x8F else 0xBF) s, []).
Proof.
  intros; unfold decode_byte, at_rest, decode_first; cbn [de_needed de_started].
  by do 7 (decide_comparison; cbn [andb]).
Qed.

Lemma utf8_decodes started p : scalar p → decode (at_rest started) (utf8 p) = emit_point started p.
Proof.
  intros Hp%scalar_not_surrogate; unfold utf8.
  destruct (Z.ltb_spec p 0x80); [rewrite decode_one; apply decode_start1; lia|].
  destruct (Z.ltb_spec p 0x800); [|destruct (Z.ltb_spec p 0x10000)].
  - rewrite decode_cons, decode_start2 by lia; cbn [fst snd]; rewrite decode_one.
    rewrite (decode_continuation _ 0) by (cbn; lia); cbn [de_point de_started].
    replace (64 * _ + _) with p by lia; by destruct (emit_point started p).
  - rewrite decode_cons, decode_start3 by lia; cbn [fst snd].
    rewrite decode_cons, (decode_continuation _ 1) by (cbn; repeat case_match; lia); cbn [fst snd de_point de_started].
    rewrite decode_one, (decode_continuation _ 0) by (cbn; lia); cbn [de_point de_started].
    replace (64 * _ + _) with p by lia; by destruct (emit_point started p).
  - rewrite decode_cons, decode_start4 by lia; cbn [fst snd].
    rewrite decode_cons, (decode_continuation _ 2) by (cbn; repeat case_match; lia); cbn [fst snd de_point de_started].
    rewrite decode_cons, (decode_continuation _ 1) by (cbn; lia); cbn [fst snd de_point de_started].
    rewrite decode_one, (decode_continuation _ 0) by (cbn; lia); cbn [de_point de_started].
    replace (64 * _ + _) with p by lia; by destruct (emit_point started p).
Qed.

Lemma emit_point_scalar s p : s = true ∨ p ≠ 0xFEFF → emit_point s p = (at_rest true, utf16 p).
Proof.
  intros H; unfold emit_point; replace (negb s && (p =? 0xFEFF)) with false; [done|].
  symmetry; apply andb_false_iff; destruct H as [->|H]; [by left|right; by apply Z.eqb_neq].
Qed.

(** A sequence of code points is read back, a leading byte order mark apart. *)
Lemma decode_started ps : Forall scalar ps → decode (at_rest true) (ps ≫= utf8) = (at_rest true, ps ≫= utf16).
Proof.
  induction 1 as [|p ps Hp _ IH]; [done|]; rewrite !bind_cons, decode_app, utf8_decodes by done.
  rewrite emit_point_scalar by (by left); cbn [fst snd]; by rewrite IH.
Qed.

Lemma decode_points ps :
  Forall scalar ps → head ps ≠ Some 0xFEFF → (decode new_TextDecoder (ps ≫= utf8)).2 = ps ≫= utf16.
Proof.
  destruct 1 as [|p ps Hp Hps]; [done|]; intros Hbom; rewrite !bind_cons, decode_app.
  change new_TextDecoder with (at_rest false); rewrite utf8_decodes by done.
  rewrite emit_point_scalar by (right; simpl in Hbom; congruence); cbn [fst snd].
  by rewrite decode_started.
Qed.

(** A string of the language without a lone surrogate. *)
Definition proper_text (t : jstr) : Prop := Forall (λ c, 0 <= c <= 0xFFFF) t ∧ Forall scalar (code_points t).

Lemma code_points_two c d t :
  code_points (c :: d :: t)
  = if is_high_surrogate c && is_low_surrogate d then 0x10000 + (c - 0xD800) * 0x400 + (d - 0xDC00) :: code_points t
    else c :: code_points (d :: t).
Proof. done. Qed.

Lemma utf16_code_points t : Forall (λ c, 0 <= c <= 0xFFFF) t → code_points t ≫= utf16 = t.
Proof.
  induction t as [t IH] using (induction_ltof1 _ length); unfold ltof in IH.
  intros Ht; destruct t as [|c t]; [done|]; apply Forall_cons in Ht as [Hc Ht].
  assert (Hone : utf16 c = [c]) by (unfold utf16; by replace (c <? 0x10000) with true by (symmetry; apply Z.ltb_lt; lia)).
  destruct t as [|d t]; [simpl; by rewrite Hone|].
  rewrite code_points_two; destruct (is_high_surrogate c && is_low_surrogate d) eqn:Hs.
  - apply Forall_cons in Ht as [Hd Ht]; rewrite bind_cons, IH by (done || (simpl; lia)).
    apply andb_true_iff in Hs; unfold is_high_surrogate, is_low_surrogate in Hs; rewrite !andb_true_iff, !Z.leb_le in Hs.
    unfold utf16; replace (_ <? 0x10000) with false by (symmetry; apply Z.ltb_ge; lia).
    simpl; f_equal; [|f_equal]; lia.
  - rewrite bind_cons, Hone, IH by (done || (simpl; lia)); done.
Qed.

Lemma text_encode_proper t : Forall scalar (code_points t) → text_encode t = code_points t ≫= utf8.
Proof.
  unfold text_encode; induction 1 as [|p ps [_ Hp] _ IH]; [done|]; by rewrite !bind_cons, IH, Hp.
Qed.

(** ** NDJSON *)

(** What a server writes: each text and a line end. *)
Definition ndjson_bytes (texts : list jstr) : list Z := texts ≫= λ t, text_encode t ++ [10].

Lemma ndjson_bytes_points texts :
  Forall proper_text texts → ndjson_bytes texts = (texts ≫= λ t, code_points t ++ [10]) ≫= utf8.
Proof.
  induction 1 as [|t texts [_ Ht] _ IH]; [done|].
  unfold ndjson_bytes in *; rewrite !bind_cons, IH, !bind_app, text_encode_proper by done; done.
Qed.

Lemma ndjson_points_text texts :
  Forall proper_text texts → (texts ≫= λ t, code_points t ++ [10]) ≫= utf16 = texts ≫= λ t, t ++ [10].
Proof.
  induction 1 as [|t texts [Ht _] _ IH]; [done|].
  rewrite !bind_cons, !bind_app, IH, utf16_code_points by done; done.
Qed.

Lemma scalar_10 : scalar 10.
Proof. split; [lia|done]. Qed.

Lemma take_lines_texts texts :
  Forall (λ t, 10 ∉ t) texts → take_lines [] (texts ≫= λ t, t ++ [10]) = (texts, []).
Proof.
  induction 1 as [|t texts Ht _ IH]; [done|].
  rewrite bind_cons, <-app_assoc, take_lines_app, (take_lines_none [] t) by done; simpl.
  by rewrite IH.
Qed.

(** ** Ids *)

Definition is_hex_digit (c : Z) : bool := is_digit c || ((97 <=? c) && (c <=? 102)).

Lemma hex_digit_ok d : 0 <= d < 16 → is_hex_digit (hex_digit d) = true.
Proof.
  intros Hd; assert (Hin : Forall (λ d, is_hex_digit (hex_digit d) = true) (seqZ 0 16)) by by repeat constructor.
  rewrite Forall_forall in Hin; apply Hin, elem_of_seqZ; lia.
Qed.

Lemma hex_byte_ok b : 0 <= b < 256 → length (hex_byte b) = 2%nat ∧ Forall (λ c, is_hex_digit c = true) (hex_byte b).
Proof.
  intros Hb; unfold hex_byte; destruct (Z.ltb_spec b 16).
  - split; [done|]; repeat constructor; apply hex_digit_ok; lia.
  - split; [done|]; repeat constructor; apply hex_digit_ok; lia.
Qed.

Lemma hex_bytes_ok bytes :
  Forall (λ b, 0 <= b < 256) bytes →
  length (bytes ≫= hex_byte) = (2 * length bytes)%nat ∧ Forall (λ c, is_hex_digit c = true) (bytes ≫= hex_byte).
Proof.
  induction 1 as [|b bytes [Hlen Hall]%hex_byte_ok _ [IHlen IHall]]; [split; [done|constructor]|].
  rewrite bind_cons, length_app, Hlen, IHlen; split; [simpl; lia|by apply Forall_app_2].
Qed.

(** Text of letters and digits is not escaped. *)
Lemma encode_alnum t : Forall (λ c, alnum c = true) t → encodeURIComponent t = Some t.
Proof.
  intros Ht; assert (Hsur : ∀ c, alnum c = true → is_high_surrogate c = false ∧ is_surrogate c = false).
  { unfold alnum, is_digit, is_surrogate, is_high_surrogate, is_low_surrogate; intros c.
    rewrite !orb_true_iff, !andb_true_iff, orb_false_iff, !andb_false_iff, !Z.leb_le, !Z.leb_gt; lia. }
  assert (Hpts : code_points t = t).
  { induction Ht as [|c t Hc Ht IH]; [done|]; destruct t as [|d t]; [done|].
    by rewrite code_points_two, (proj1 (Hsur c Hc)), IH. }
  unfold encodeURIComponent; rewrite Hpts.
  replace (existsb is_surrogate t) with false.
  - f_equal; clear Hpts; induction Ht as [|c t Hc _ IH]; [done|]; by rewrite bind_cons, Hc, IH.
  - clear Hpts; induction Ht as [|c t Hc _ IH]; [done|]; simpl; by rewrite (proj2 (Hsur c Hc)).
Qed.

Lemma hex_alnum c : is_hex_digit c = true → alnum c = true.
Proof.
  unfold is_hex_digit, alnum, is_digit; rewrite !orb_true_iff, !andb_true_iff, !Z.leb_le; lia.
Qed.

(** ** Properties *)

(** The lines [ndjsonLines] yields are those of the decoded text of the whole
    body, however the network cuts it into chunks — also inside a character, or with
    several lines in one chunk. *)
Theorem ndjson_lines_of_chunks (chunks : list (list Z)) :
  ndjsonLines chunks = (take_lines [] (decode new_TextDecoder (concat chunks)).2).1.
Proof. apply ndjson_go_lines, not_elem_of_nil. Qed.

(** C21: The texts a server writes one per line — without a line end inside, a lone
    surrogate or a byte order mark at the very beginning — are read back exactly,
    one line each and in order, from every cut of their UTF-8 bytes into chunks. *)
Theorem ndjson_reads_what_was_sent (texts : list jstr) (chunks : list (list Z))
    (Hproper : Forall proper_text texts) (Hlines : Forall (λ t, 10 ∉ t) texts)
    (Hbom : head texts ≫= head ≠ Some 0xFEFF) (Hbytes : concat chunks = ndjson_bytes texts) :
  ndjsonLines chunks = texts.
Proof.
  unfold ndjsonLines; rewrite ndjson_go_lines by apply not_elem_of_nil.
  rewrite Hbytes, ndjson_bytes_points, decode_points, ndjson_points_text, app_nil_l, take_lines_texts; try done.
  - clear -Hproper; induction Hproper as [|t texts [_ Ht] _ IH]; [constructor|].
    rewrite bind_cons; repeat apply Forall_app_2; [done|by constructor; [apply scalar_10|]|done].
  - destruct Hproper as [|t texts [_ Ht] _]; [done|]; rewrite bind_cons.
    destruct t as [|c t]; [done|]; simpl in Hbom.
    destruct t as [|d t]; [simpl; congruence|].
    rewrite code_points_two; destruct (is_high_surrogate c && is_low_surrogate d) eqn:Hs; [|simpl; congruence].
    apply andb_true_iff in Hs; unfold is_high_surrogate, is_low_surrogate in Hs; rewrite !andb_true_iff, !Z.leb_le in Hs.
    simpl; intros [=]; lia.
Qed.

(** A memory made in the web client has the id the memory tool gives to the same
    content: 32 hexadecimal digits, which the request carries unescaped. *)
Theorem web_memory_id_is_the_tools (sha256 : list Z → list Z) (template preset content : jstr)
    (Hsha : ∀ bytes, length (sha256 bytes) = 32%nat ∧ Forall (λ b, 0 <= b < 256) (sha256 bytes)) :
  let id := Memory.generateMemoryId (hex_digest sha256) content in
  length id = 32%nat ∧ Forall (λ c, is_hex_digit c = true) id ∧
  createMemory sha256 template preset content
  = Some (mkRequest "POST" (memories_url template preset ++ js "?memory_id=" ++ id)
            (Some (json_object [("content", content)]))).
Proof.
  intros id; destruct (Hsha (text_encode content)) as [Hlen Hall].
  apply hex_bytes_ok in Hall as [Hlen' Hall].
  assert (Hid : length id = 32%nat ∧ Forall (λ c, is_hex_digit c = true) id).
  { unfold id, Memory.generateMemoryId, slice_to, hex_digest; split; [|by apply Forall_take].
    rewrite length_take, Hlen', Hlen; done. }
  destruct Hid as [Hid1 Hid2]; split_and!; [done..|].
  unfold createMemory; change (memoryIdForContent sha256 content) with id.
  rewrite encode_alnum; [done|]; eapply Forall_impl; [done|]; apply hex_alnum.
Qed.

(** A wiki made in the web client has the id the memory library gives to its
    normalized title. *)
Lemma web_wiki_id_is_the_librarys sha256 nfkc lower title :
  wikiIdForTitle sha256 nfkc lower title
  = Wiki.generateWikiId (hex_digest sha256) (web_normalizeWikiTitle nfkc lower title).
Proof. done. Qed.

(** ** Witnesses *)

Definition sample_lines : list jstr := [js "{}"; [0x4E2D; 0xD83D; 0xDE00; 65]].

Lemma ndjson_reads_what_was_sent_witness :
  ndjsonLines [[123; 125; 10; 0xE4; 0xB8]; [0xAD; 0xF0; 0x9F]; []; [0x98; 0x80; 65; 10]] = sample_lines.
Proof.
  apply (ndjson_reads_what_was_sent sample_lines).
  - repeat constructor; vm_compute; intros; discriminate.
  - repeat constructor; unfold sample_lines; intros Hin; vm_compute in Hin; set_solver.
  - vm_compute; discriminate.
  - vm_compute; reflexivity.
Defined.

Definition constant_digest (bytes : list Z) : list Z := replicate 32 171.

Lemma web_memory_id_is_the_tools_witness :
  length (Memory.generateMemoryId (hex_digest constant_digest) (js "a")) = 32%nat ∧
  Forall (λ c, is_hex_digit c = true) (Memory.generateMemoryId (hex_digest constant_digest) (js "a")) ∧
  createMemory constant_digest (js "saolei") (js "p") (js "a")
  = Some (mkRequest "POST" (memories_url (js "saolei") (js "p") ++ js "?memory_id="
                            ++ Memory.generateMemoryId (hex_digest constant_digest) (js "a"))
            (Some (json_object [("content", js "a")]))).
Proof.
  apply (web_memory_id_is_the_tools constant_digest).
  intros bytes; split; [done|]; apply Forall_replicate; lia.
Defined.
