(* ===== verification/ChatView.v ===== *)
(** * The conversation view

    [projects/game/web/frontend/src/components/ChatView.tsx]: what the view renders
    of the chat state — the blocks of a step, the turns of the merged sequence and of
    a member's view, the folding of a finished turn — and the component's own state
    (the draft, the turns opened by hand, the pending cancel, following the bottom).

    A rendered element is a value of [Rendered]; the [null]s are left out.  Texts are
    the UTF-8 bytes of their characters, decoded where the code trims them. *)

From S2P Require Import Prelude ChatWire Chat JsText WebApi.

#[local] Open Scope Z_scope.

Definition TEAM_VIEW : string := "team".
Definition FOLLOW_THRESHOLD : Z := 24.

(** The characters of a text. *)
Definition text_units (s : string) : jstr :=
  (decode (mkDecoder 0 0 0x80 0xBF true)
     ((λ a, Z.of_nat (Ascii.nat_of_ascii a)) <$> String.list_ascii_of_string s)).2.

(** [text.trim() === '']. *)
Definition is_blank (s : string) : bool := bool_decide (trim (text_units s) = []).

(** ** Blocks *)

(** [ContentBlock | BlockDraft]. *)
Definition ViewBlock : Type := ContentBlock + BlockDraft.

Definition blockText (b : ViewBlock) : option string :=
  match b with
  | inl (TextBlock t) => Some t
  | inr (TextDraft _ TEXT t) => Some t
  | _ => None
  end.

Definition blockThink (b : ViewBlock) : option string :=
  match b with
  | inl (ThinkBlock t) => Some t
  | inr (TextDraft _ THINK t) => Some t
  | _ => None
  end.

Inductive ToolCardStatus : Type := CARD_RUNNING | CARD_SUCCEEDED | CARD_FAILED | CARD_INTERRUPTED.

Definition toolCardStatus (status : string) (result : option string) (historical : bool) : ToolCardStatus :=
  if historical && bool_decide (status = TOOL_STATUS_RUNNING) && bool_decide (result = None) then CARD_INTERRUPTED
  else if bool_decide (status = TOOL_STATUS_SUCCEEDED) then CARD_SUCCEEDED
  else if bool_decide (status = TOOL_STATUS_FAILED) then CARD_FAILED
  else CARD_RUNNING.

Record ToolCallView : Type := mkToolView {
  tv_toolId : string;
  tv_name : string;
  tv_argsJson : string;
  tv_status : ToolCardStatus;
  tv_result : option string;
}.

Definition blockToolCall (b : ViewBlock) (historical : bool) : option ToolCallView :=
  match b with
  | inr (ToolDraft _ toolId name args status result) =>
      Some (mkToolView toolId name args (toolCardStatus status result historical) result)
  | inl (ToolBlock c) =>
      Some (mkToolView (tc_toolId c) (tc_name c) (tc_argsJson c)
              (toolCardStatus (tc_status c) (tc_result c) historical) (tc_result c))
  | _ => None
  end.

(** What one block becomes. *)
Inductive BlockView : Type :=
| ReasoningRow (text : string) (running : bool)
| ToolCard (tool : ToolCallView)
| MarkdownText (text : string) (streaming : bool).

Definition render_block (historical : bool) (running : bool) (b : ViewBlock) : option BlockView :=
  match blockThink b with
  | Some think => Some (ReasoningRow think running)
  | None =>
      match blockToolCall b historical with
      | Some tool => Some (ToolCard tool)
      | None =>
          match blockText b with
          | Some text => if is_blank text then None else Some (MarkdownText text running)
          | None => None
          end
      end
  end.

(** [AgentStep]: only the last block of a running step is running. *)
Definition AgentStep (blocks : list ViewBlock) (running historical : bool) : list BlockView :=
  omap id (imap (λ i b, render_block historical (running && bool_decide (S i = length blocks)) b) blocks).

(** A step of a message: [running] is false, [historical] as given or [!running]. *)
Definition message_step (historical : bool) (m : HistoryMessage) : list BlockView :=
  AgentStep (inl <$> hm_blocks m) false historical.

(** ** A finished turn *)

Definition is_tool_block (b : ContentBlock) : bool := match b with ToolBlock _ => true | _ => false end.

(** [b.text?.content ?? '']. *)
Definition text_content (b : ContentBlock) : string := match b with TextBlock t => t | _ => "" end.

Definition is_interrupted (m : HistoryMessage) : bool := default false (hm_interrupted m).

Definition isFinalAnswer (m : HistoryMessage) : bool :=
  negb (is_interrupted m) && negb (existsb is_tool_block (hm_blocks m))
  && existsb (λ b, negb (is_blank (text_content b))) (hm_blocks m).

(** The loop from the last message to the first. *)
Fixpoint last_final (i : Z) (messages : list HistoryMessage) : Z :=
  match messages with
  | [] => -1
  | m :: messages =>
      let later := last_final (i + 1) messages in
      if 0 <=? later then later else if isFinalAnswer m then i else -1
  end.

Definition anchorIndex (messages : list HistoryMessage) : Z :=
  let found := last_final 0 messages in
  if (found <? 0) && negb (existsb is_interrupted messages) then Z.of_nat (length messages) - 1 else found.

(** What a turn shows: all of its steps, or a summary of the steps before the anchor
    (with the steps when it is open) and the steps from the anchor on. *)
Inductive TurnBody : Type :=
| Steps (steps : list HistoryMessage) (historical : bool)
| Folded (process : list HistoryMessage) (toolCount : nat) (expanded : bool) (visible : list HistoryMessage).

Definition tool_count (m : HistoryMessage) : nat := length (filter is_tool_block (hm_blocks m)).

Definition CompletedTurn (messages : list HistoryMessage) (expanded : bool) : TurnBody :=
  let anchor := anchorIndex messages in
  if anchor <=? 0 then Steps messages true
  else
    let process := take (Z.to_nat anchor) messages in
    Folded process (sum_list (tool_count <$> process)) expanded (drop (Z.to_nat anchor) messages).

(** [OpenSteps] when an entry of the group is open. *)
Definition turn_body (open : bool) (messages : list HistoryMessage) (expanded : bool) : TurnBody :=
  if open then Steps messages false else CompletedTurn messages expanded.

(** ** The sequences *)

Inductive Rendered : Type :=
| UserBubble (message : HistoryMessage)
| MemberTurn (tag : option string) (member : string) (body : TurnBody)
| Relay (sender : string) (message : HistoryMessage)
| LiveTurn (tag : option string) (member : string) (steps : list (list BlockView)).

(** The texts of a bubble, one per block, and the text of a relay. *)
Definition bubble_texts (m : HistoryMessage) : list string := text_content <$> hm_blocks m.
Definition messageText (m : HistoryMessage) : string := foldr String.append "" (bubble_texts m).

(** The loop on [end]: the entries from here on that go on with the group. *)
Fixpoint group_run {A} (p : A → bool) (entries : list A) : list A :=
  match entries with
  | [] => []
  | e :: entries => if p e then e :: group_run p entries else []
  end.

(** [expanded.has(`${view}:${i}`)]. *)
Definition turn_key (view : string) (i : nat) : string := view +:+ ":" +:+ num_str (Z.of_nat i).

Definition team_groups (member : string) (e : TeamMessageEntry) : bool :=
  bool_decide (te_member e = member) && bool_decide (hm_role (te_message e) = ROLE_AGENT).

(** An entry of the merged sequence. *)
Definition team_element (history : list TeamMessageEntry) (expanded : gset string) (i : nat) (e : TeamMessageEntry)
    : option Rendered :=
  if bool_decide (te_member e = USER_MEMBER) then Some (UserBubble (te_message e))
  else if bool_decide (0 < i)%nat && (if history !! (i - 1)%nat is Some p then team_groups (te_member e) p else false)
  then None
  else
    let group := group_run (team_groups (te_member e)) (drop i history) in
    Some (MemberTurn (Some (te_member e)) (te_member e)
      (turn_body (existsb te_open group) (te_message <$> group) (bool_decide (turn_key TEAM_VIEW i ∈ expanded)))).

(** The steps of a live turn that are not in the sequence yet; the last one runs. *)
Definition live_steps (turn : LiveMemberTurn) : list (list BlockView) :=
  let steps := drop (lt_fixedSteps turn) (lt_steps turn) in
  imap (λ i s, let running := bool_decide (S i = length steps) in
               AgentStep (inr <$> sd_blocks s) running (negb running)) steps.

Definition live_element (tagged : bool) (turn : LiveMemberTurn) : option Rendered :=
  match live_steps turn with
  | [] => None
  | steps => Some (LiveTurn (if tagged then Some (lt_member turn) else None) (lt_member turn) steps)
  end.

Definition TeamMessages (history : list TeamMessageEntry) (live : list LiveMemberTurn) (expanded : gset string)
    : list Rendered :=
  omap id (imap (team_element history expanded) history) ++ omap (live_element true) live.

Definition member_groups (e : MemberViewEntry) : bool := bool_decide (hm_role (me_message e) = ROLE_AGENT).

(** An entry of a member's view. *)
Definition member_element (member : string) (entries : list MemberViewEntry) (expanded : gset string) (i : nat)
    (e : MemberViewEntry) : option Rendered :=
  if member_groups e then
    if bool_decide (0 < i)%nat && (if entries !! (i - 1)%nat is Some p then member_groups p else false) then None
    else
      let group := group_run member_groups (drop i entries) in
      Some (MemberTurn None member
        (turn_body (existsb me_open group) (me_message <$> group) (bool_decide (turn_key member i ∈ expanded))))
  else if bool_decide (me_sender e = "") || bool_decide (me_sender e = USER_MEMBER) then Some (UserBubble (me_message e))
  else Some (Relay (me_sender e) (me_message e)).

Definition MemberMessages (member : string) (entries : list MemberViewEntry) (live : list LiveMemberTurn)
    (expanded : gset string) : list Rendered :=
  omap id (imap (member_element member entries expanded) entries) ++ omap (live_element false) live.

(** ** The component *)

Record ViewState : Type := mkViewState {
  vs_draft : string;
  vs_expandedTurns : gset string;
  vs_cancelPending : bool;
  vs_atBottom : bool;
}.

(** The initial values of the hooks. *)
Definition initial_view : ViewState := mkViewState "" ∅ false true.

(** The effect of another session. *)
Definition session_changed (s : ViewState) : ViewState := mkViewState (vs_draft s) ∅ (vs_cancelPending s) true.

(** The scroll listener. *)
Definition onScroll (scrollHeight scrollTop clientHeight : Z) (s : ViewState) : ViewState :=
  let next := scrollHeight - scrollTop - clientHeight <=? FOLLOW_THRESHOLD in
  mkViewState (vs_draft s) (vs_expandedTurns s) (vs_cancelPending s) next.

(** The effect of grown content: the new scroll position. *)
Definition follow (scrollHeight scrollTop : Z) (s : ViewState) : Z :=
  if vs_atBottom s then scrollHeight else scrollTop.

Definition toBottom (s : ViewState) : ViewState :=
  mkViewState (vs_draft s) (vs_expandedTurns s) (vs_cancelPending s) true.

(** [submit], on the characters of the draft: the text that is sent. *)
Definition submit (s : ViewState) : ViewState * option jstr :=
  match trim (text_units (vs_draft s)) with
  | [] => (s, None)
  | text => (toBottom (mkViewState "" (vs_expandedTurns s) (vs_cancelPending s) (vs_atBottom s)), Some text)
  end.

(** [cancel]: the pending mark and whether [onCancel] is called; it is taken back when
    the call settles, either way. *)
Definition cancel (s : ViewState) : ViewState * bool :=
  if vs_cancelPending s then (s, false)
  else (mkViewState (vs_draft s) (vs_expandedTurns s) true (vs_atBottom s), true).
Definition cancel_settled (s : ViewState) : ViewState :=
  mkViewState (vs_draft s) (vs_expandedTurns s) false (vs_atBottom s).

Definition toggleTurn (key : string) (s : ViewState) : ViewState :=
  mkViewState (vs_draft s)
    (if bool_decide (key ∈ vs_expandedTurns s) then vs_expandedTurns s ∖ {[key]} else {[key]} ∪ vs_expandedTurns s)
    (vs_cancelPending s) (vs_atBottom s).

(** What is on the page: the messages, the queue positions, the banners and the
    buttons shown under a condition. *)
Record Page : Type := mkPage {
  pg_messages : list Rendered;
  pg_queue : list Z;
  pg_error : option string;
  pg_canceled : bool;
  pg_to_bottom : bool;
  pg_cancel_button : bool;
}.

Definition render (view : string) (c : ChatState) (s : ViewState) : Page :=
  mkPage
    (if bool_decide (view = TEAM_VIEW) then TeamMessages (cs_history c) (cs_live c) (vs_expandedTurns s)
     else MemberMessages view (default [] (cs_memberHistory c !! view))
            (filter (λ t, bool_decide (lt_member t = view)) (cs_live c)) (vs_expandedTurns s))
    (q_position <$> cs_queue c) (cs_error c) (cs_canceled c)
    (negb (vs_atBottom s)) (bool_decide (0 < length (cs_live c))%nat).

(** ** What the conversation view shows

    What is on the page of the merged sequence, and of a member's view, is each entry
    once, in order and under the right name, but for the entries a folded turn hides,
    which come before its answer and are shown as soon as it is expanded, and the steps
    of the live turns that are not in the sequence yet ([team_view_shows_everything],
    [member_view_shows_everything], [turn_folding]). *)

(** ** Grouping

    A list in which an element is shown alone, or with those after it that go on with
    its group, or not at all when the one before it shows it. *)
Section Grouping.
Context {A B : Type} (single : A → bool) (q : A → A → bool) (show : nat → list A → list B).

(** The list cut into turns, and what they show at their positions. *)
Fixpoint turns (l : list A) : list (list A) :=
  match l with
  | [] => []
  | e :: l =>
      match turns l with
      | (x :: g) :: rest => if negb (single e) && q e x then (e :: x :: g) :: rest else [e] :: (x :: g) :: rest
      | rest => [e] :: rest
      end
  end.

Fixpoint page_of (i : nat) (ts : list (list A)) : list B :=
  match ts with
  | [] => []
  | t :: ts => show i t ++ page_of (i + length t) ts
  end.

(** What an element of the list shows at its position. *)
Definition shown_at (l : list A) (i : nat) (e : A) : list B :=
  if single e then show i [e]
  else if bool_decide (0 < i)%nat && (if l !! (i - 1)%nat is Some p then q e p else false) then []
  else show i (group_run (q e) (drop i l)).

Lemma turns_concat l : concat (turns l) = l.
Proof.
  induction l as [|e l IH]; [done|]; simpl; destruct (turns l) as [|[|x g] rest]; simpl in *; [congruence..|].
  case_match; simpl; congruence.
Qed.

Context (Hq : ∀ e x, single e = false → q e x = true → single x = false ∧ ∀ y, q x y = q e y).

(** The elements that the last one before them shows. *)
Definition lead (pre suf : list A) : list A :=
  match last pre with
  | Some p => if single p then [] else group_run (q p) suf
  | None => []
  end.

Lemma group_run_ext (p p' : A → bool) (l : list A) : (∀ y, p y = p' y) → group_run p l = group_run p' l.
Proof. intros Hp; induction l as [|x l IH]; simpl; [done|]; rewrite Hp, IH; done. Qed.

Lemma turns_single e l : single e = true → turns (e :: l) = [e] :: turns l.
Proof. intros He; simpl; destruct (turns l) as [|[|x g] rest]; [done..|]; by rewrite He. Qed.

(** A turn goes on as the group of its first element does. *)
Lemma turns_group e l : single e = false →
  turns (e :: l) = (e :: group_run (q e) l) :: turns (drop (length (group_run (q e) l)) l).
Proof.
  revert e; induction l as [|x l IH]; intros e He; [done|].
  change (turns (e :: x :: l)) with (match turns (x :: l) with
    | (x :: g) :: rest => if negb (single e) && q e x then (e :: x :: g) :: rest else [e] :: (x :: g) :: rest
    | rest => [e] :: rest end).
  cbn [group_run]; destruct (q e x) eqn:Hx.
  - destruct (Hq e x He Hx) as [Hsx Hext]; rewrite (IH x Hsx), He, Hx; simpl.
    by rewrite (group_run_ext (q x) (q e)).
  - cbn [length drop]; destruct (turns (x :: l)) as [|[|y g] rest] eqn:E; [done..|].
    assert (y = x) as ->; [|by rewrite He, Hx].
    pose proof (turns_concat (x :: l)) as Hc; rewrite E in Hc; simpl in Hc; congruence.
Qed.

(** The element before. *)
Lemma lookup_before (pre suf : list A) (f : A → bool) :
  bool_decide (0 < length pre)%nat && (if (pre ++ suf) !! (length pre - 1)%nat is Some p then f p else false)
  = if last pre is Some p then f p else false.
Proof.
  destruct pre as [|x pre _] using rev_ind; [done|].
  rewrite last_snoc, length_app, lookup_app_l by (rewrite length_app; simpl; lia); simpl.
  replace (length pre + 1 - 1)%nat with (length pre) by lia; rewrite list_lookup_middle by done.
  by rewrite bool_decide_true by lia.
Qed.

Lemma lead_snoc pre e suf : lead (pre ++ [e]) suf = if single e then [] else group_run (q e) suf.
Proof. unfold lead; by rewrite last_snoc. Qed.

(** Whether the element before shows this one. *)
Lemma lead_cons pre e suf :
  Forall (λ e, single e = false → q e e = true) pre → (single e = false → q e e = true) →
  lead pre (e :: suf) =
  if negb (single e) && (if last pre is Some p then q e p else false) then e :: group_run (q e) suf else [].
Proof.
  intros Hself Hee; unfold lead; destruct (last pre) as [p|] eqn:Hlast; [|by rewrite andb_false_r].
  assert (Hpp : single p = false → q p p = true).
  { rewrite Forall_forall in Hself; apply Hself; by apply last_Some_elem_of. }
  destruct (single e) eqn:He; simpl.
  - destruct (single p) eqn:Hp; [done|]; destruct (q p e) eqn:Hpe; [|done]; by apply Hq in Hpe as [? _]; [congruence|].
  - destruct (q e p) eqn:Hep.
    + destruct (Hq e p He Hep) as [Hp Hext]; rewrite Hp, Hext, Hee by done; by rewrite (group_run_ext (q p) (q e)).
    + destruct (single p) eqn:Hp; [done|]; destruct (q p e) eqn:Hpe; [|done].
      destruct (Hq p e Hp Hpe) as [_ Hext]; rewrite Hext, Hpp in Hep by done; discriminate.
Qed.

Lemma shown_suffix (pre suf : list A) :
  Forall (λ e, single e = false → q e e = true) (pre ++ suf) →
  concat (imap (λ i, shown_at (pre ++ suf) (length pre + i)) suf) =
  page_of (length pre + length (lead pre suf)) (turns (drop (length (lead pre suf)) suf)).
Proof.
  revert pre; induction suf as [|e suf IH]; intros pre Hself; [by rewrite drop_nil|].
  assert (Hrest : concat (imap (λ i, shown_at (pre ++ e :: suf) (length pre + S i)) suf) =
    page_of (S (length pre) + length (lead (pre ++ [e]) suf)) (turns (drop (length (lead (pre ++ [e]) suf)) suf))).
  { specialize (IH (pre ++ [e])); rewrite <-app_assoc in IH; specialize (IH Hself).
    replace (length (pre ++ [e])) with (S (length pre)) in IH by (rewrite length_app; simpl; lia); rewrite <-IH.
    f_equal; apply imap_ext; intros i x _; simpl; by rewrite Nat.add_succ_r. }
  apply Forall_app in Hself as [Hpre [He _]%Forall_cons].
  cbn [imap concat]; rewrite Nat.add_0_r.
  change (concat _) with (concat (imap (λ i, shown_at (pre ++ e :: suf) (length pre + S i)) suf)); rewrite Hrest.
  rewrite lead_snoc, lead_cons by done; unfold shown_at; rewrite lookup_before, drop_app_length.
  destruct (single e) eqn:Hse; cbn [negb andb].
  - cbn [length drop]; rewrite (turns_single e suf Hse), !Nat.add_0_r; simpl; by rewrite Nat.add_1_r.
  - destruct (if last pre is Some p then q e p else false).
    + simpl; by rewrite Nat.add_succ_r.
    + cbn [length drop]; rewrite (turns_group e suf Hse), Nat.add_0_r; cbn [group_run page_of length].
      by rewrite (He eq_refl), Nat.add_succ_r.
Qed.

Lemma shown_is_page (l : list A) :
  Forall (λ e, single e = false → q e e = true) l → concat (imap (shown_at l) l) = page_of 0 (turns l).
Proof. intros Hl; exact (shown_suffix [] l Hl). Qed.

(** A page on which every turn shows all it has. *)
Lemma page_of_all (f : A → B) ts i :
  (∀ k t, t ∈ ts → (i ≤ k < i + length (concat ts))%nat → show k t = f <$> t) → Forall (λ t, t ≠ []) ts →
  page_of i ts = f <$> concat ts.
Proof.
  revert i; induction ts as [|t ts IH]; intros i Hs Hne; [done|]; apply Forall_cons in Hne as [Ht Hne]; simpl in *.
  rewrite length_app in Hs; rewrite fmap_app, Hs; [f_equal|by left|destruct t; [done|simpl; lia]].
  apply IH; [|done]; intros k x Hx Hk; apply Hs; [by right|lia].
Qed.

Lemma turns_nonempty l : Forall (λ t, t ≠ []) (turns l).
Proof.
  induction l as [|e l IH]; [constructor|]; simpl; destruct (turns l) as [|[|x g] rest]; [repeat constructor; done|by inversion IH|].
  inversion IH; subst; case_match; by repeat constructor.
Qed.
End Grouping.

Lemma turns_ext {A} (single : A → bool) (q q' : A → A → bool) l :
  (∀ e x, e ∈ l → x ∈ l → single e = false → q e x = q' e x) → turns single q l = turns single q' l.
Proof.
  induction l as [|e l IH]; intros Hext; [done|]; simpl.
  rewrite <- IH by (intros; apply Hext; [by right..|done]).
  pose proof (turns_concat single q l) as Hc; destruct (turns single q l) as [|[|x g] rest] eqn:E; [done..|].
  destruct (single e) eqn:He; [done|]; simpl; rewrite (Hext e x) by (by left || done || (right; rewrite <- Hc; by left)); done.
Qed.

(** ** What is on the page *)

(** The entries an element shows, each under a name: a folded turn that is not
    expanded shows those that follow its summary only. *)
Definition body_visible (body : TurnBody) : list HistoryMessage :=
  match body with
  | Steps l _ => l
  | Folded process _ expanded visible => (if expanded then process else []) ++ visible
  end.

Definition on_page (r : Rendered) : list (string * HistoryMessage) :=
  match r with
  | UserBubble m => [(USER_MEMBER, m)]
  | MemberTurn _ member body => (λ m, (member, m)) <$> body_visible body
  | Relay sender m => [(sender, m)]
  | LiveTurn _ _ _ => []
  end.

(** The steps an element streams. *)
Definition streaming (r : Rendered) : list (string * list (list BlockView)) :=
  match r with LiveTurn _ member steps => [(member, steps)] | _ => [] end.

(** ** What is to be on the page *)

(** The part of a finished turn that is never hidden: from its last answer on; without
    one, all of it when it was interrupted, and its last message otherwise. *)
Definition shown_part (messages : list HistoryMessage) : list HistoryMessage :=
  match list_find (λ m, isFinalAnswer m = true) (reverse messages) with
  | Some (after, _) => drop (length messages - S after) messages
  | None => if existsb is_interrupted messages then messages else drop (length messages - 1) messages
  end.

(** What a turn shows: all of it while it goes on or when it is expanded. *)
Definition turn_shows (still_open expanded : bool) (messages : list HistoryMessage) : list HistoryMessage :=
  if still_open || expanded then messages else shown_part messages.

(** The merged sequence: a user entry is a turn, and so are the entries in a row of a
    member; a turn is expanded by its key, the position of its first entry. *)
Definition is_user_entry (e : TeamMessageEntry) : bool := bool_decide (te_member e = USER_MEMBER).
Definition same_member (e x : TeamMessageEntry) : bool := bool_decide (te_member x = te_member e).

Definition team_turn_shows (expanded : gset string) (i : nat) (turn : list TeamMessageEntry) : list (string * HistoryMessage) :=
  match turn with
  | [] => []
  | e :: _ => (λ m, (te_member e, m)) <$>
      turn_shows (existsb te_open turn) (bool_decide (turn_key TEAM_VIEW i ∈ expanded)) (te_message <$> turn)
  end.

Definition team_page (expanded : gset string) (history : list TeamMessageEntry) : list (string * HistoryMessage) :=
  page_of (team_turn_shows expanded) 0 (turns is_user_entry same_member history).

(** A live turn streams the steps that are not in the sequence yet, those from
    [fixedSteps] on: the last as running, those before as done. *)
Definition unfixed (turn : LiveMemberTurn) : list (string * list (list BlockView)) :=
  match reverse (drop (lt_fixedSteps turn) (lt_steps turn)) with
  | [] => []
  | current :: done =>
      [(lt_member turn,
        ((λ s, AgentStep (inr <$> sd_blocks s) false true) <$> reverse done) ++ [AgentStep (inr <$> sd_blocks current) true false])]
  end.

(** *** Live turns *)

Lemma live_streaming tagged live : omap (live_element tagged) live ≫= streaming = live ≫= unfixed.
Proof.
  induction live as [|t live IH]; [done|]; rewrite bind_cons, <- IH; simpl; unfold live_element at 1, live_steps, unfixed.
  destruct (drop _ _) as [|s steps _] using rev_ind; [done|].
  rewrite reverse_snoc, imap_app; simpl; rewrite length_app; simpl.
  rewrite bool_decide_eq_true_2 by lia; simpl.
  assert (imap (λ i s0, AgentStep (inr <$> sd_blocks s0) (bool_decide (S i = length steps + 1)%nat)
      (negb (bool_decide (S i = length steps + 1)%nat))) steps = (λ s, AgentStep (inr <$> sd_blocks s) false true) <$> steps) as ->.
  { rewrite <- imap_const; apply imap_ext; intros i x Hx%lookup_lt_Some; by rewrite bool_decide_eq_false_2 by lia. }
  rewrite reverse_involutive; by destruct (_ <$> steps).
Qed.

Lemma live_on_page tagged live : omap (live_element tagged) live ≫= on_page = [].
Proof.
  induction live as [|t live IH]; [done|]; simpl; unfold live_element at 1.
  destruct (live_steps t); [done|]; by rewrite bind_cons.
Qed.

(** An imap with omissions, element by element. *)
Lemma omap_imap_bind {A B} (f : nat → A → option Rendered) (h : Rendered → list B) (g : nat → A → list B) l :
  (∀ i e, l !! i = Some e → from_option h [] (f i e) = g i e) →
  omap id (imap f l) ≫= h = concat (imap g l).
Proof.
  revert f g; induction l as [|e l IH]; intros f g Hfg; [done|]; cbn [imap concat].
  rewrite <-(IH (f ∘ S) (g ∘ S)) by (intros i x Hx; by apply (Hfg (S i))).
  rewrite <-(Hfg 0%nat e) by done; simpl; by destruct (f 0%nat e).
Qed.

Lemma concat_imap_nil {A B} (l : list A) : concat (imap (λ _ _, [] : list B) l) = [].
Proof. induction l as [|e l IH]; [done|]; exact IH. Qed.

(** *** Folding *)

Lemma last_final_bound i messages : 0 <= i → last_final i messages = -1 ∨ i <= last_final i messages < i + Z.of_nat (length messages).
Proof.
  revert i; induction messages as [|m messages IH]; intros i Hi; [by left|]; cbn [last_final length].
  destruct (IH (i + 1)) as [->|Hl]; [lia| |].
  - simpl; case_match; [right; lia|by left].
  - right; rewrite (proj2 (Z.leb_le 0 _)) by lia; lia.
Qed.

Lemma last_final_none i messages :
  0 <= i → Forall (λ m, isFinalAnswer m = false) messages → last_final i messages = -1.
Proof.
  intros Hi Hm; revert i Hi; induction Hm as [|m messages Hm _ IH]; intros i Hi; [done|].
  cbn [last_final]; rewrite IH by lia; simpl; by rewrite Hm.
Qed.

Lemma last_final_some i before answer after :
  0 <= i → isFinalAnswer answer = true → Forall (λ m, isFinalAnswer m = false) after →
  last_final i (before ++ answer :: after) = i + Z.of_nat (length before).
Proof.
  intros Hi Ha Hafter; revert i Hi; induction before as [|m before IH]; intros i Hi; cbn [app last_final length].
  - rewrite last_final_none by (done || lia); simpl; rewrite Ha; lia.
  - rewrite IH by lia; rewrite (proj2 (Z.leb_le 0 _)) by lia; lia.
Qed.

(** The last message that satisfies a test, if there is one. *)
Lemma last_match {A} (p : A → bool) (l : list A) :
  Forall (λ x, p x = false) l ∨ ∃ before x after, l = before ++ x :: after ∧ p x = true ∧ Forall (λ x, p x = false) after.
Proof.
  induction l as [|x l [Hnone|(before & y & after & -> & Hy & Hafter)]].
  - by left.
  - destruct (p x) eqn:Hx; [right; by exists [], x, l|left; by constructor].
  - right; by exists (x :: before), y, after.
Qed.

(** A turn folded after [before]; there is nothing to fold when that is empty. *)
Definition folded (before visible : list HistoryMessage) (expanded : bool) : TurnBody :=
  match before with
  | [] => Steps visible true
  | _ => Folded before (sum_list (tool_count <$> before)) expanded visible
  end.

Lemma folded_at_anchor messages expanded before visible :
  messages = before ++ visible → anchorIndex messages = Z.of_nat (length before) →
  CompletedTurn messages expanded = folded before visible expanded.
Proof.
  intros -> Ha; unfold CompletedTurn; rewrite Ha, Nat2Z.id, take_app_length, drop_app_length.
  destruct before as [|m before]; [done|]; rewrite (proj2 (Z.leb_gt _ 0)) by (simpl; lia); done.
Qed.

(** What a finished turn hides.  With a final answer — an uninterrupted message
    with text and no tool call — exactly the messages before the last one are folded,
    and it and all after it stay on the page; without one, a turn that was not
    interrupted folds all but its last message, and an interrupted turn folds nothing.
    Nothing is folded when nothing comes before. *)
Theorem turn_folding (messages : list HistoryMessage) (expanded : bool) :
  (∃ before answer after,
     messages = before ++ answer :: after ∧ isFinalAnswer answer = true ∧
     Forall (λ m, isFinalAnswer m = false) after ∧
     CompletedTurn messages expanded = folded before (answer :: after) expanded) ∨
  (Forall (λ m, isFinalAnswer m = false) messages ∧ Forall (λ m, is_interrupted m = false) messages ∧
   ∃ before visible, messages = before ++ visible ∧ length visible = (length messages `min` 1)%nat ∧
     CompletedTurn messages expanded = folded before visible expanded) ∨
  (Forall (λ m, isFinalAnswer m = false) messages ∧ Exists (λ m, is_interrupted m = true) messages ∧
   CompletedTurn messages expanded = Steps messages true).
Proof.
  destruct (last_match isFinalAnswer messages) as [Hnone|(before & answer & after & Hm & Ha & Hafter)].
  - right; assert (Hanchor : last_final 0 messages = -1) by (by apply last_final_none).
    destruct (existsb is_interrupted messages) eqn:Hint.
    + right; split_and!; [done| |].
      * apply existsb_exists in Hint as (m & Hm & Hi); apply Exists_exists; exists m; by rewrite list_elem_of_In.
      * unfold CompletedTurn, anchorIndex; by rewrite Hanchor, Hint.
    + left; split_and!; [done| |].
      * apply Forall_forall; intros m Hm; apply not_true_is_false; intros Hi.
        enough (existsb is_interrupted messages = true) by congruence.
        apply existsb_exists; exists m; by rewrite <-list_elem_of_In.
      * destruct messages as [|m messages _] using rev_ind; [by exists [], []|].
        exists messages, [m]; split_and!; [done|rewrite length_app; simpl; lia|].
        apply folded_at_anchor; [done|]; unfold anchorIndex; rewrite Hanchor, Hint; simpl.
        rewrite length_app; simpl; lia.
  - left; exists before, answer, after; split_and!; [done..|].
    apply folded_at_anchor; [done|]; unfold anchorIndex; rewrite Hm, last_final_some by (done || lia).
    by rewrite (proj2 (Z.ltb_ge _ 0)) by lia.
Qed.

(** A turn shows what it is to show. *)
Lemma body_shows still_open messages expanded :
  body_visible (turn_body still_open messages expanded) = turn_shows still_open expanded messages.
Proof.
  unfold turn_body, turn_shows; destruct still_open; [done|]; simpl.
  assert (Hfold : ∀ before visible, body_visible (folded before visible expanded) = if expanded then before ++ visible else visible)
    by (intros [|] visible; by destruct expanded).
  assert (Hnone : Forall (λ m, isFinalAnswer m = false) messages → list_find (λ m, isFinalAnswer m = true) (reverse messages) = None).
  { intros Hm; apply list_find_None; rewrite Forall_reverse; eapply Forall_impl; [exact Hm|]; by intros m ->. }
  unfold shown_part; destruct (turn_folding messages expanded) as
    [(before & answer & after & -> & Ha & Hafter & ->)|[(Hm & Hi & before & visible & -> & Hl & ->)|(Hm & Hi & ->)]].
  - rewrite Hfold; destruct expanded; [done|].
    assert (list_find (λ m, isFinalAnswer m = true) (reverse (before ++ answer :: after)) = Some (length after, answer)) as ->.
    { apply list_find_Some; rewrite reverse_app, reverse_cons, <- app_assoc; split_and!; [|done|].
      - rewrite lookup_app_r by (by rewrite length_reverse); by rewrite length_reverse, Nat.sub_diag.
      - intros j y Hj Hlt; rewrite lookup_app_l in Hj by (by rewrite length_reverse); apply list_elem_of_lookup_2 in Hj.
        rewrite elem_of_reverse in Hj; rewrite Forall_forall in Hafter; by rewrite (Hafter y Hj). }
    rewrite length_app; simpl; replace (length before + S (length after) - S (length after))%nat with (length before) by lia.
    by rewrite drop_app_length.
  - rewrite Hfold, (Hnone Hm); destruct expanded; [done|].
    assert (existsb is_interrupted (before ++ visible) = false) as ->.
    { apply not_true_is_false; intros (m & Hin & Hx)%existsb_exists; rewrite Forall_forall in Hi.
      rewrite (Hi m) in Hx by (by apply list_elem_of_In); done. }
    rewrite length_app in *; destruct visible as [|v [|]]; simpl in *; [|by rewrite Nat.add_sub, drop_app_length|lia].
    destruct before; simpl in *; [done|lia].
  - rewrite (Hnone Hm); destruct expanded; [done|].
    assert (existsb is_interrupted messages = true) as ->; [|done].
    apply Exists_exists in Hi as (m & Hin & Hx); apply existsb_exists; exists m; by rewrite <- list_elem_of_In.
Qed.

(** *** The merged sequence *)

Lemma team_groups_spec member e :
  team_groups member e = true ↔ te_member e = member ∧ hm_role (te_message e) = ROLE_AGENT.
Proof. unfold team_groups; by rewrite andb_true_iff, !bool_decide_eq_true. Qed.

Lemma group_run_head {A} (p : A → bool) e l : p e = true → group_run p (e :: l) = e :: group_run p l.
Proof. simpl; by intros ->. Qed.

Lemma shown_part_single m : shown_part [m] = [m].
Proof. unfold shown_part; simpl; repeat case_match; simplify_eq/=; try done; by repeat case_match. Qed.

Lemma team_element_on_page history expanded i e :
  hm_role (te_message e) = ROLE_AGENT ∨ te_member e = USER_MEMBER → history !! i = Some e →
  from_option on_page [] (team_element history expanded i e)
  = shown_at is_user_entry (λ e, team_groups (te_member e)) (team_turn_shows expanded) history i e.
Proof.
  intros Hrole Hi; unfold team_element, shown_at, is_user_entry.
  destruct (bool_decide (te_member e = USER_MEMBER)) eqn:Hu.
  { apply bool_decide_eq_true in Hu; simpl; rewrite Hu; unfold turn_shows; by destruct (_ || _); rewrite ?shown_part_single. }
  destruct (_ && _); [done|]; rewrite (drop_S history e i Hi).
  apply bool_decide_eq_false in Hu; rewrite group_run_head by (apply team_groups_spec; naive_solver); simpl.
  by rewrite body_shows.
Qed.

(** *** A member's view *)

Definition view_name (member : string) (e : MemberViewEntry) : string :=
  if member_groups e then member
  else if bool_decide (me_sender e = "") then USER_MEMBER else me_sender e.

Definition member_turn_shows (member : string) (expanded : gset string) (i : nat) (turn : list MemberViewEntry)
    : list (string * HistoryMessage) :=
  match turn with
  | [] => []
  | e :: _ => (λ m, (view_name member e, m)) <$>
      turn_shows (existsb me_open turn) (bool_decide (turn_key member i ∈ expanded)) (me_message <$> turn)
  end.

Definition member_page (member : string) (expanded : gset string) (entries : list MemberViewEntry) : list (string * HistoryMessage) :=
  page_of (member_turn_shows member expanded) 0 (turns (λ e, negb (member_groups e)) (λ _, member_groups) entries).

Lemma member_element_on_page member entries expanded i e :
  entries !! i = Some e →
  from_option on_page [] (member_element member entries expanded i e)
  = shown_at (λ e, negb (member_groups e)) (λ _, member_groups) (member_turn_shows member expanded) entries i e.
Proof.
  intros Hi; unfold member_element, shown_at; destruct (member_groups e) eqn:Hg; cbn [negb].
  - destruct (_ && _); [done|]; rewrite (drop_S entries e i Hi), group_run_head by done; simpl.
    unfold view_name; by rewrite Hg, body_shows.
  - assert (Hone : ∀ b c, turn_shows b c [me_message e] = [me_message e])
      by (intros b c; unfold turn_shows; by destruct (b || c); rewrite ?shown_part_single).
    cbn [member_turn_shows fmap list_fmap]; rewrite Hone; unfold view_name; rewrite Hg; simpl.
    destruct (bool_decide (me_sender e = "")) eqn:He; [done|]; simpl.
    destruct (bool_decide (me_sender e = USER_MEMBER)) eqn:Hu; [|done]; apply bool_decide_eq_true in Hu; simpl; by rewrite Hu.
Qed.

(** *** All turns expanded *)

Lemma team_turns_name history t e :
  t ∈ turns is_user_entry same_member history → e ∈ t → ∀ x, head t = Some x → te_member e = te_member x.
Proof.
  revert t e; induction history as [|h history IH]; intros t e Ht He x Hx; [by apply elem_of_nil in Ht|]; simpl in Ht.
  destruct (turns is_user_entry same_member history) as [|[|y g] rest] eqn:E.
  - apply list_elem_of_singleton in Ht as ->; apply list_elem_of_singleton in He as ->; simpl in Hx; congruence.
  - apply elem_of_cons in Ht as [->|Ht]; [|by apply (IH t e)].
    apply list_elem_of_singleton in He as ->; simpl in Hx; congruence.
  - destruct (negb (is_user_entry h) && same_member h y) eqn:Hc.
    + apply elem_of_cons in Ht as [->|Ht]; [|apply (IH t e); [by right|done..]]; injection Hx as <-.
      apply andb_true_iff in Hc as [_ Hc%bool_decide_eq_true]; apply elem_of_cons in He as [->|He]; [done|].
      rewrite <- Hc; apply (IH (y :: g) e); [by left|done..].
    + apply elem_of_cons in Ht as [->|Ht]; [|by apply (IH t e)].
      apply list_elem_of_singleton in He as ->; simpl in Hx; congruence.
Qed.

Lemma team_page_all expanded history :
  (∀ i, (i < length history)%nat → turn_key TEAM_VIEW i ∈ expanded) →
  team_page expanded history = (λ e, (te_member e, te_message e)) <$> history.
Proof.
  intros Hall; unfold team_page; rewrite <- (turns_concat is_user_entry same_member history) at 2.
  apply page_of_all; [|apply turns_nonempty]; intros k [|x t] Ht Hk; [done|]; cbn [team_turn_shows].
  rewrite turns_concat in Hk; rewrite bool_decide_eq_true_2 by (apply Hall; lia); unfold turn_shows; rewrite orb_true_r.
  rewrite <- list_fmap_compose; apply list_fmap_ext; intros i e He%list_elem_of_lookup_2; simpl; f_equal.
  symmetry; by apply (team_turns_name history (x :: t)).
Qed.

(** ** Properties *)

(** C22: What is on the page of the team view, provided the producers other than the
    user wrote agent messages, as the server's history does.  Of the merged sequence:
    each entry once, in order and under its producer's name, turn by turn, but for the
    entries of finished turns that are not expanded and come before their answer
    (without an answer: before their last message, and none when they were
    interrupted) — so with every turn expanded the whole sequence, exactly once.  Of
    the live turns: exactly the steps that are not consolidated into the sequence yet,
    once each and in order, the last one running. *)
Theorem team_view_shows_everything (history : list TeamMessageEntry) (live : list LiveMemberTurn) (expanded : gset string)
    (Hroles : Forall (λ e, te_member e ≠ USER_MEMBER → hm_role (te_message e) = ROLE_AGENT) history) :
  TeamMessages history live expanded ≫= on_page = team_page expanded history ∧
  ((∀ i, (i < length history)%nat → turn_key TEAM_VIEW i ∈ expanded) →
   TeamMessages history live expanded ≫= on_page = (λ e, (te_member e, te_message e)) <$> history) ∧
  TeamMessages history live expanded ≫= streaming = live ≫= unfixed.
Proof.
  assert (Hpage : TeamMessages history live expanded ≫= on_page = team_page expanded history).
  { unfold TeamMessages; rewrite bind_app, live_on_page, app_nil_r.
    rewrite (omap_imap_bind _ on_page (shown_at is_user_entry (λ e, team_groups (te_member e)) (team_turn_shows expanded) history)).
    2: { intros i e Hi; apply team_element_on_page; [|done]; rewrite Forall_lookup in Hroles.
         destruct (decide (te_member e = USER_MEMBER)); [by right|left; by eapply Hroles]. }
    rewrite shown_is_page; [unfold team_page; f_equal; apply turns_ext| |].
    - intros e x He Hx Hu; unfold same_member; apply eq_bool_prop_intro; rewrite !Is_true_true, team_groups_spec, bool_decide_eq_true.
      split; [by intros [? _]|]; intros Hm; split; [done|]; rewrite Forall_forall in Hroles; apply Hroles; [done|].
      apply bool_decide_eq_false in Hu; congruence.
    - intros e x He [Hm Hr]%team_groups_spec; unfold is_user_entry in *; rewrite Hm; by split.
    - eapply Forall_impl; [exact Hroles|]; intros e He Hu%bool_decide_eq_false; apply team_groups_spec; auto. }
  split_and!; [done|intros Hall; by rewrite Hpage, team_page_all|].
  unfold TeamMessages; rewrite bind_app, live_streaming.
  rewrite (omap_imap_bind _ streaming (λ _ _, [])), concat_imap_nil; [done|].
  intros i e _; unfold team_element; by repeat case_match.
Qed.

(** A member's view shows its entries in the same way, the member's own messages under
    its name, the others under their sender's, without any condition on what the server
    sent. *)
Theorem member_view_shows_everything (member : string) (entries : list MemberViewEntry) (live : list LiveMemberTurn)
    (expanded : gset string) :
  MemberMessages member entries live expanded ≫= on_page = member_page member expanded entries ∧
  MemberMessages member entries live expanded ≫= streaming = live ≫= unfixed.
Proof.
  unfold MemberMessages; rewrite !bind_app, live_on_page, live_streaming, app_nil_r; split.
  - rewrite (omap_imap_bind _ on_page _ _ (λ i e Hi, member_element_on_page member entries expanded i e Hi)).
    apply shown_is_page; [intros e x _ Hx; by rewrite Hx|]; apply Forall_true; intros e He%negb_false_iff; done.
  - rewrite (omap_imap_bind _ streaming (λ _ _, [])), concat_imap_nil; [done|].
    intros i e _; unfold member_element; by repeat case_match.
Qed.

(** Two turns of a member in a row are one group: the answer of the first is folded
    away with its process. *)
Definition answer_of (text : string) : HistoryMessage := mkHistoryMessage None ROLE_AGENT None [TextBlock text] None.
Definition entry_of (member text : string) : TeamMessageEntry := mkEntry member (answer_of text) (JNum 1) false false.

Lemma earlier_answer_is_folded :
  TeamMessages [entry_of "announcer" "first"; entry_of "announcer" "second"] [] ∅
  = [MemberTurn (Some "announcer") "announcer" (Folded [answer_of "first"] 0 false [answer_of "second"])].
Proof. vm_compute; reflexivity. Qed.

(** ** Witnesses *)

Definition sample_history : list TeamMessageEntry :=
  [mkEntry USER_MEMBER (answer_of "hi") (JNum 1) false false; entry_of "player" "a"; entry_of "player" "b"].

Lemma team_view_shows_everything_witness :
  TeamMessages sample_history [] ∅ ≫= on_page = [(USER_MEMBER, answer_of "hi"); ("player", answer_of "b")] ∧
  TeamMessages sample_history [] {[turn_key TEAM_VIEW 0; turn_key TEAM_VIEW 1; turn_key TEAM_VIEW 2]} ≫= on_page
  = (λ e, (te_member e, te_message e)) <$> sample_history.
Proof.
  assert (Hroles : Forall (λ e, te_member e ≠ USER_MEMBER → hm_role (te_message e) = ROLE_AGENT) sample_history) by repeat constructor.
  split.
  - rewrite (proj1 (team_view_shows_everything sample_history [] ∅ Hroles)); vm_compute; reflexivity.
  - apply (proj1 (proj2 (team_view_shows_everything sample_history []
      {[turn_key TEAM_VIEW 0; turn_key TEAM_VIEW 1; turn_key TEAM_VIEW 2]} Hroles))).
    intros [|[|[|i]]] Hi; [set_solver..|]; simpl in Hi; lia.
Defined.
