(* ===== verification/Panel.v ===== *)
(** * The conversation panel

    [ChatPanel] of [projects/game/web/frontend/src/App.tsx]: the requests it keeps in
    flight for one session and what their responses do to the page and to the session's
    store, with [probeTeam] of [TeamSettingsPanel.tsx].

    A handler of the code that waits is cut at its [await]: the first part puts the
    request in flight, the second one lands its response.  Responses land in any
    order; a request of the mount effect remembers that it belongs to it. *)

From S2P Require Import Prelude ChatWire Chat ChatView.

#[local] Open Scope Z_scope.

(** ** Requests *)

(** What a call of the client throws, with its message. *)
Inductive Failure : Type :=
| FailedApi (status : Z) (message : string)
| FailedOther (message : string).

Definition errorMessage (e : Failure) : string :=
  match e with FailedApi _ m => m | FailedOther m => m end.

(** [isUnmaterializedError]. *)
Definition isUnmaterializedError (e : Failure) : bool :=
  match e with FailedApi status _ => status =? 404 | FailedOther _ => false end.

Inductive TeamStatus : Type := unknown | unmaterialized | materialized.
Inductive DesktopConn : Type := connected | disconnected | conn_unknown.

#[export] Instance TeamStatus_eq_dec : EqDecision TeamStatus.
Proof. solve_decision. Defined.
#[export] Instance DesktopConn_eq_dec : EqDecision DesktopConn.
Proof. solve_decision. Defined.

(** agent.ts [TeamMember] and [Team]. *)
Record TeamMember : Type := mkTeamMember { wm_role : string; wm_preset : string; wm_model : option string }.
Record Team : Type := mkTeam {
  wt_activeMember : option string;
  wt_members : list TeamMember;
  wt_desktopConnected : option bool;
  wt_updateTime : option string;
}.

Definition conn_of (t : Team) : DesktopConn :=
  if bool_decide (wt_desktopConnected t = Some true) then connected else disconnected.

Definition probeTeam (res : Failure + Team) : TeamStatus * option Team :=
  match res with
  | inr team => (materialized, Some team)
  | inl e => (if isUnmaterializedError e then unmaterialized else unknown, None)
  end.

Definition MEMBER_VIEWS : list string := ["player"; "planner"].

(** The requests in flight. *)
Inductive Pending : Type :=
| AwaitProbe
| AwaitTeam
| AwaitMessages (mount : bool)
| AwaitMembers (mount : bool) (epoch : nat)
| AwaitSendProbe (streamId : Z) (e : Failure)
| AwaitCancel.

#[export] Instance Failure_eq_dec : EqDecision Failure.
Proof. solve_decision. Defined.
#[export] Instance Pending_eq_dec : EqDecision Pending.
Proof. solve_decision. Defined.

(** ** ChatPanel *)

Record Panel : Type := mkPanel {
  p_store : ChatStore;
  p_backfillError : option string;
  p_teamStatus : TeamStatus;
  p_team : option Team;
  p_desktopConn : DesktopConn;
  p_panelOpen : bool;
  p_chatView : string;
  p_cancelError : option string;
  p_sentSinceBackfill : bool;
  p_memberEpoch : nat;
  p_hadLive : bool;
  p_cancelled : bool;
  p_pending : list Pending;
}.

Definition p_with_store (p : Panel) c := mkPanel c (p_backfillError p) (p_teamStatus p) (p_team p) (p_desktopConn p)
  (p_panelOpen p) (p_chatView p) (p_cancelError p) (p_sentSinceBackfill p) (p_memberEpoch p) (p_hadLive p) (p_cancelled p) (p_pending p).
Definition p_with_error (p : Panel) e := mkPanel (p_store p) e (p_teamStatus p) (p_team p) (p_desktopConn p)
  (p_panelOpen p) (p_chatView p) (p_cancelError p) (p_sentSinceBackfill p) (p_memberEpoch p) (p_hadLive p) (p_cancelled p) (p_pending p).
Definition p_with_team (p : Panel) st t := mkPanel (p_store p) (p_backfillError p) st t (p_desktopConn p)
  (p_panelOpen p) (p_chatView p) (p_cancelError p) (p_sentSinceBackfill p) (p_memberEpoch p) (p_hadLive p) (p_cancelled p) (p_pending p).
Definition p_with_conn (p : Panel) c := mkPanel (p_store p) (p_backfillError p) (p_teamStatus p) (p_team p) c
  (p_panelOpen p) (p_chatView p) (p_cancelError p) (p_sentSinceBackfill p) (p_memberEpoch p) (p_hadLive p) (p_cancelled p) (p_pending p).
Definition p_with_open (p : Panel) o := mkPanel (p_store p) (p_backfillError p) (p_teamStatus p) (p_team p) (p_desktopConn p)
  o (p_chatView p) (p_cancelError p) (p_sentSinceBackfill p) (p_memberEpoch p) (p_hadLive p) (p_cancelled p) (p_pending p).
Definition p_with_view (p : Panel) v := mkPanel (p_store p) (p_backfillError p) (p_teamStatus p) (p_team p) (p_desktopConn p)
  (p_panelOpen p) v (p_cancelError p) (p_sentSinceBackfill p) (p_memberEpoch p) (p_hadLive p) (p_cancelled p) (p_pending p).
Definition p_with_cancelError (p : Panel) e := mkPanel (p_store p) (p_backfillError p) (p_teamStatus p) (p_team p) (p_desktopConn p)
  (p_panelOpen p) (p_chatView p) e (p_sentSinceBackfill p) (p_memberEpoch p) (p_hadLive p) (p_cancelled p) (p_pending p).
Definition p_with_sent (p : Panel) s := mkPanel (p_store p) (p_backfillError p) (p_teamStatus p) (p_team p) (p_desktopConn p)
  (p_panelOpen p) (p_chatView p) (p_cancelError p) s (p_memberEpoch p) (p_hadLive p) (p_cancelled p) (p_pending p).
Definition p_with_epoch (p : Panel) n := mkPanel (p_store p) (p_backfillError p) (p_teamStatus p) (p_team p) (p_desktopConn p)
  (p_panelOpen p) (p_chatView p) (p_cancelError p) (p_sentSinceBackfill p) n (p_hadLive p) (p_cancelled p) (p_pending p).
Definition p_with_live (p : Panel) h := mkPanel (p_store p) (p_backfillError p) (p_teamStatus p) (p_team p) (p_desktopConn p)
  (p_panelOpen p) (p_chatView p) (p_cancelError p) (p_sentSinceBackfill p) (p_memberEpoch p) h (p_cancelled p) (p_pending p).
Definition p_with_cancelled (p : Panel) c := mkPanel (p_store p) (p_backfillError p) (p_teamStatus p) (p_team p) (p_desktopConn p)
  (p_panelOpen p) (p_chatView p) (p_cancelError p) (p_sentSinceBackfill p) (p_memberEpoch p) (p_hadLive p) c (p_pending p).
Definition p_with_pending (p : Panel) l := mkPanel (p_store p) (p_backfillError p) (p_teamStatus p) (p_team p) (p_desktopConn p)
  (p_panelOpen p) (p_chatView p) (p_cancelError p) (p_sentSinceBackfill p) (p_memberEpoch p) (p_hadLive p) (p_cancelled p) l.

(** The initial values of the hooks, on the session's store. *)
Definition new_panel (store : ChatStore) : Panel :=
  mkPanel store None unknown None conn_unknown false TEAM_VIEW None false 0 false false [].

Definition request (r : Pending) (p : Panel) : Panel := p_with_pending p (p_pending p ++ [r]).

Fixpoint remove_first {A} `{EqDecision A} (r : A) (l : list A) : list A :=
  match l with [] => [] | r' :: l => if decide (r = r') then l else r' :: remove_first r l end.
Definition landed (r : Pending) (p : Panel) : Panel := p_with_pending p (remove_first r (p_pending p)).

(** [isCancelled()] of a request. *)
Definition isCancelled (mount : bool) (p : Panel) : bool := mount && p_cancelled p.

(** [refreshTeam]. *)
Definition refreshTeam (p : Panel) : Panel := request AwaitTeam p.
Definition team_landed (res : Failure + Team) (p : Panel) : Panel :=
  match res with
  | inr view => p_with_conn (p_with_team p (p_teamStatus p) (Some view)) (conn_of view)
  | inl _ => p_with_conn p conn_unknown
  end.

(** [runBackfill]. *)
Definition runBackfill (mount : bool) (p : Panel) : Panel := request (AwaitMessages mount) (p_with_sent p false).
Definition load_unless_sent (messages : list TeamMessage) (p : Panel) : Panel :=
  if p_sentSinceBackfill p then p else p_with_store p (loadHistory (p_store p) messages).
Definition messages_landed (mount : bool) (res : Failure + list TeamMessage) (p : Panel) : Panel :=
  if isCancelled mount p then p
  else
    match res with
    | inr messages => load_unless_sent messages (p_with_error p None)
    | inl e =>
        if isUnmaterializedError e then load_unless_sent [] (p_with_team p unmaterialized None)
        else p_with_error p (Some (errorMessage e))
    end.

(** [runMemberBackfill]: the outcomes, in the order of [MEMBER_VIEWS]. *)
Definition MemberOutcome : Type := string * (Failure + list (HistoryMessage * option string)).
Definition runMemberBackfill (mount : bool) (p : Panel) : Panel := request (AwaitMembers mount (p_memberEpoch p)) p.
Definition member_outcome (p : Panel) (r : MemberOutcome) : Panel :=
  match r.2 with
  | inr messages => p_with_store p (loadMemberHistory (p_store p) r.1 messages)
  | inl e => if isUnmaterializedError e then p else p_with_error p (Some (errorMessage e))
  end.
Definition members_landed (mount : bool) (epoch : nat) (results : list MemberOutcome) (p : Panel) : Panel :=
  if isCancelled mount p || negb (bool_decide (epoch = p_memberEpoch p)) then p
  else fold_left member_outcome results p.

(** The mount effect and its cleanup. *)
Definition mount_panel (p : Panel) : Panel :=
  runMemberBackfill true (runBackfill true (refreshTeam (request AwaitProbe p))).
Definition unmount_panel (p : Panel) : Panel := p_with_cancelled p true.
Definition probe_landed (res : Failure + Team) (p : Panel) : Panel :=
  if p_cancelled p then p else p_with_team p (probeTeam res).1 (probeTeam res).2.

(** [onSend]: the store's send begins; the new stream is [st_nextStreamId]. *)
Definition onSend (text : string) (p : Panel) : Panel :=
  let p := refreshTeam (p_with_cancelError (p_with_sent p true) None) in
  p_with_store p (send_start (p_store p) text).1.

(** An event of a stream, and its end; [then] runs when the send has settled. *)
Definition stream_event (streamId : Z) (e : ChatEvent) (p : Panel) : Panel :=
  p_with_store p (send_event (p_store p) streamId e).
Definition after_send (p : Panel) : Panel :=
  if bool_decide (is_Some (cs_error (st_state (p_store p)))) then runBackfill false p else p.
Definition stream_end (streamId : Z) (p : Panel) : Panel :=
  after_send (p_with_store p (send_end (p_store p) streamId)).

(** [guidedSend] when the stream throws. *)
Definition throw_to_store (streamId : Z) (e : Failure) (p : Panel) : Panel :=
  after_send (p_with_store p (send_error (p_store p) streamId (errorMessage e))).
Definition probes (e : Failure) : bool :=
  match e with FailedApi status _ => (status =? 400) || (status =? 404) | FailedOther _ => false end.
Definition stream_error (streamId : Z) (e : Failure) (p : Panel) : Panel :=
  if probes e then request (AwaitSendProbe streamId e) p else throw_to_store streamId e p.
Definition send_probe_landed (streamId : Z) (e : Failure) (res : Failure + Team) (p : Panel) : Panel :=
  throw_to_store streamId e
    (if bool_decide ((probeTeam res).1 = unmaterialized) then p_with_team p unmaterialized None else p).

(** [onCancel]. *)
Definition onCancel (p : Panel) : Panel := request AwaitCancel (p_with_cancelError p None).
Definition cancel_landed (res : option Failure) (p : Panel) : Panel :=
  match res with None => p | Some e => p_with_cancelError p (Some (errorMessage e)) end.

(** [onApplied]. *)
Definition onApplied (team : Team) (p : Panel) : Panel :=
  let p := p_with_open (p_with_conn (p_with_team p materialized (Some team)) (conn_of team)) false in
  let p := p_with_epoch p (S (p_memberEpoch p)) in
  let p := p_with_store p (clearMemberHistory (loadHistory (p_store p) [])) in
  runMemberBackfill false (runBackfill false p).

(** The effect on the live turns. *)
Definition live_effect (p : Panel) : Panel :=
  match cs_live (st_state (p_store p)) with
  | _ :: _ => p_with_live p true
  | [] => if p_hadLive p then runMemberBackfill false (refreshTeam (p_with_live p false)) else p
  end.

(** [liveMember ?? team?.activeMember]. *)
Definition activeMember (p : Panel) : option string :=
  match last (cs_live (st_state (p_store p))) with
  | Some t => Some (lt_member t)
  | None => p_team p ≫= wt_activeMember
  end.

(** The error on the page. *)
Definition shown_error (p : Panel) : option string :=
  match cs_error (st_state (p_store p)) with
  | Some e => Some e
  | None => match p_cancelError p with Some e => Some e | None => p_backfillError p end
  end.

(** The two guides. *)
Definition team_guide (p : Panel) : bool := bool_decide (p_teamStatus p = unmaterialized) && negb (p_panelOpen p).
Definition team_ready_guide (p : Panel) : bool :=
  bool_decide (p_teamStatus p = materialized) && negb (p_panelOpen p)
  && bool_decide (cs_history (st_state (p_store p)) = []) && bool_decide (cs_live (st_state (p_store p)) = []).

(** Everything that can happen to a panel that is mounted. *)
Inductive PanelEvent : Type :=
| LandProbe (res : Failure + Team)
| LandTeam (res : Failure + Team)
| LandMessages (mount : bool) (res : Failure + list TeamMessage)
| LandMembers (mount : bool) (epoch : nat) (results : list MemberOutcome)
| LandSendProbe (streamId : Z) (e : Failure) (res : Failure + Team)
| LandCancel (res : option Failure)
| Send (text : string)
| StreamEvent (streamId : Z) (e : ChatEvent)
| StreamEnd (streamId : Z)
| StreamError (streamId : Z) (e : Failure)
| Cancel
| Applied (team : Team)
| LiveEffect
| Poll
| OpenPanel (open : bool)
| SetView (view : string)
| Unmount.

(** A response lands only when its request is in flight. *)
Definition land (r : Pending) (f : Panel → Panel) (p : Panel) : option Panel :=
  if bool_decide (r ∈ p_pending p) then Some (f (landed r p)) else None.

Definition panel_step (ev : PanelEvent) (p : Panel) : option Panel :=
  match ev with
  | LandProbe res => land AwaitProbe (probe_landed res) p
  | LandTeam res => land AwaitTeam (team_landed res) p
  | LandMessages mount res => land (AwaitMessages mount) (messages_landed mount res) p
  | LandMembers mount epoch results => land (AwaitMembers mount epoch) (members_landed mount epoch results) p
  | LandSendProbe streamId e res => land (AwaitSendProbe streamId e) (send_probe_landed streamId e res) p
  | LandCancel res => land AwaitCancel (cancel_landed res) p
  | Send text => Some (onSend text p)
  | StreamEvent streamId e => Some (stream_event streamId e p)
  | StreamEnd streamId => Some (stream_end streamId p)
  | StreamError streamId e => Some (stream_error streamId e p)
  | Cancel => Some (onCancel p)
  | Applied team => Some (onApplied team p)
  | LiveEffect => Some (live_effect p)
  | Poll => Some (refreshTeam p)
  | OpenPanel open => Some (p_with_open p open)
  | SetView view => Some (p_with_view p view)
  | Unmount => Some (unmount_panel p)
  end.

Definition run_panel (evs : list PanelEvent) (p : Panel) : option Panel := foldM (λ p ev, panel_step ev p) p evs.

(** ** What the conversation panel guarantees

    Responses may land in any order and long after the page has moved on.  A member
    view never takes a response of an earlier life of the team
    ([earlier_members_are_dropped]); a conversation under way is not overwritten by the
    history that was asked for before it ([send_wins_over_backfill]); and what the page
    says of the team and of the desktop comes from a response ([status_comes_from_a_response]).
    The merged history has no such epoch: the last section shows what a late response
    can undo. *)

(** ** Frames *)

Lemma run_panel_app evs evs' p : run_panel (evs ++ evs') p = run_panel evs p ≫= run_panel evs'.
Proof. apply foldM_app. Qed.

Lemma panel_ind (P : Panel → Prop) evs p p' :
  P p → (∀ ev q q', P q → panel_step ev q = Some q' → P q') → run_panel evs p = Some p' → P p'.
Proof.
  unfold run_panel; revert p; induction evs as [|ev evs IH]; intros p Hp Hstep; simpl; [by intros [= <-]|].
  destruct (panel_step ev p) as [q|] eqn:Hq; simpl; [|done]; eauto.
Qed.

Lemma land_spec r f p p' : land r f p = Some p' ↔ r ∈ p_pending p ∧ p' = f (landed r p).
Proof. unfold land; case_bool_decide; naive_solver. Qed.

(** A step case by case, with the requests that land. *)
Ltac step_cases H :=
  match type of H with
  | panel_step ?ev _ = Some _ => destruct ev; simpl in H; rewrite ?land_spec in H; destruct_and?; simplify_eq
  end.

(** Where a landed response leaves a field alone. *)
Section Frames.
Context {A : Type} (field : Panel → A).
Context (Hstore : ∀ p c, field (p_with_store p c) = field p).
Context (Herror : ∀ p c, field (p_with_error p c) = field p).

Lemma outcomes_frame results p : field (fold_left member_outcome results p) = field p.
Proof.
  revert p; induction results as [|r results IH]; intros p; [done|]; simpl; rewrite IH.
  unfold member_outcome; repeat case_match; by rewrite ?Hstore, ?Herror.
Qed.

Lemma members_frame mount epoch results p : field (members_landed mount epoch results p) = field p.
Proof. unfold members_landed; case_match; [done|]; apply outcomes_frame. Qed.

Lemma load_frame messages p : field (load_unless_sent messages p) = field p.
Proof. unfold load_unless_sent; case_match; by rewrite ?Hstore. Qed.
End Frames.

(** ** Epochs *)

Lemma remove_first_sub {A} `{EqDecision A} (r : A) l x : x ∈ remove_first r l → x ∈ l.
Proof.
  induction l as [|y l IH]; simpl; [done|]; destruct (decide (r = y)); rewrite !elem_of_cons; [auto|].
  intros [->|Hx]; auto.
Qed.

(** The handlers, unfolded. *)
Ltac unfold_handlers :=
  unfold landed, refreshTeam, runBackfill, runMemberBackfill, mount_panel, unmount_panel, probe_landed, team_landed,
    messages_landed, onSend, stream_event, stream_end, stream_error, send_probe_landed, throw_to_store, after_send,
    onCancel, cancel_landed, onApplied, live_effect, request in *.
Ltac frames :=
  repeat (first [rewrite (members_frame p_memberEpoch) by done | rewrite (members_frame p_pending) by done
                |rewrite (members_frame p_teamStatus) by done | rewrite (members_frame p_desktopConn) by done
                |rewrite (members_frame p_sentSinceBackfill) by done
                |rewrite (load_frame p_memberEpoch) by done | rewrite (load_frame p_pending) by done
                |rewrite (load_frame p_teamStatus) by done | rewrite (load_frame p_desktopConn) by done
                |rewrite (load_frame p_sentSinceBackfill) by done]).

Lemma step_epoch ev p p' :
  panel_step ev p = Some p' →
  p_memberEpoch p' = (match ev with Applied _ => S (p_memberEpoch p) | _ => p_memberEpoch p end).
Proof. intros H; step_cases H; unfold_handlers; repeat case_match; frames; done. Qed.

(** The requests of a step: those that were in flight, and member requests of the
    epoch that it ends in. *)
Lemma step_requests ev p p' r :
  panel_step ev p = Some p' → r ∈ p_pending p' →
  r ∈ p_pending p ∨ match r with AwaitMembers _ n => n = p_memberEpoch p' | _ => True end.
Proof.
  intros H Hr; step_cases H; unfold_handlers; repeat case_match; frames; simpl in *;
    rewrite ?(members_frame p_pending) in Hr by done; rewrite ?(load_frame p_pending) in Hr by done; simpl in *;
    repeat (rewrite elem_of_app in Hr); set_solver by eauto using remove_first_sub.
Qed.

(** Every request for the members' views knows an epoch that has begun. *)
Definition epochs_ok (p : Panel) : Prop := ∀ mount n, AwaitMembers mount n ∈ p_pending p → (n ≤ p_memberEpoch p)%nat.

Lemma step_epochs_ok ev p p' : epochs_ok p → panel_step ev p = Some p' → epochs_ok p'.
Proof.
  intros Hok Hstep mount n Hr; pose proof (step_epoch _ _ _ Hstep) as He.
  destruct (step_requests _ _ _ _ Hstep Hr) as [Hr'| ->]; [|lia].
  apply Hok in Hr'; destruct ev; lia.
Qed.

Lemma mounted_epochs_ok store : epochs_ok (mount_panel (new_panel store)).
Proof. intros mount n; simpl; set_solver. Qed.

Lemma run_epoch evs p p' : run_panel evs p = Some p' → (p_memberEpoch p ≤ p_memberEpoch p')%nat.
Proof.
  intros H; revert H; apply (panel_ind (λ q, p_memberEpoch p ≤ p_memberEpoch q)%nat); [done|].
  intros ev q q' Hq Hstep%step_epoch; destruct ev; lia.
Qed.

(** ** Sends *)

(** What happens while the streams of a page run and no team is applied. *)
Definition while_streaming (ev : PanelEvent) : bool :=
  match ev with Applied _ | StreamEnd _ | StreamError _ _ | LandSendProbe _ _ _ => false | _ => true end.

Lemma step_sent ev p p' :
  while_streaming ev = true → panel_step ev p = Some p' → p_sentSinceBackfill p = true → p_sentSinceBackfill p' = true.
Proof. intros Hev H Hs; step_cases H; try discriminate; unfold_handlers; repeat case_match; frames; done. Qed.

(** ** Status *)

Definition says_unmaterialized {A} (res : Failure + A) : bool :=
  match res with inl e => isUnmaterializedError e | inr _ => false end.

(** A response by which the server says that there is no team. *)
Definition is_absence (ev : PanelEvent) : bool :=
  match ev with
  | LandProbe res | LandSendProbe _ _ res => says_unmaterialized res
  | LandMessages _ res => says_unmaterialized res
  | _ => false
  end.

(** A response by which it says that the desktop is connected. *)
Definition is_connection (ev : PanelEvent) : bool :=
  match ev with
  | LandTeam (inr t) | Applied t => bool_decide (wt_desktopConnected t = Some true)
  | _ => false
  end.

(** ** Properties *)

(** A response to a member-view request made before a team was applied never
    reaches the page, however late it lands and whatever happens in between. *)
Theorem earlier_members_are_dropped (store : ChatStore) (evs evs' : list PanelEvent) (team : Team) (p p' : Panel)
    (mount : bool) (epoch : nat) (results : list MemberOutcome)
    (Hbefore : run_panel evs (mount_panel (new_panel store)) = Some p)
    (Hmade : AwaitMembers mount epoch ∈ p_pending p)
    (Hafter : run_panel evs' (onApplied team p) = Some p') :
  members_landed mount epoch results p' = p'.
Proof.
  assert (Hok : epochs_ok p).
  { revert Hbefore; apply panel_ind; [apply mounted_epochs_ok|]; eauto using step_epochs_ok. }
  apply Hok in Hmade; apply run_epoch in Hafter; simpl in Hafter.
  unfold members_landed; rewrite (bool_decide_false (epoch = p_memberEpoch p')) by lia.
  by rewrite orb_true_r.
Qed.

(** C30: From the moment of a send, and as long as streams are running and no team is
    applied, no history that lands replaces the conversation — neither one asked for
    before the send nor an empty one. *)
Theorem send_wins_over_backfill (text : string) (evs : list PanelEvent) (p p' : Panel) (mount : bool)
    (res : Failure + list TeamMessage)
    (Hevs : Forall (λ ev, while_streaming ev = true) evs) (Hrun : run_panel evs (onSend text p) = Some p') :
  p_store (messages_landed mount res p') = p_store p'.
Proof.
  assert (Hsent : p_sentSinceBackfill p' = true).
  { assert (H0 : p_sentSinceBackfill (onSend text p) = true) by done.
    revert Hrun H0; generalize (onSend text p) as q; induction Hevs as [|ev evs Hev _ IH]; intros q; unfold run_panel; simpl.
    - by intros [= <-].
    - destruct (panel_step ev q) as [q'|] eqn:Hq; simpl; [|done]; eauto using step_sent. }
  unfold messages_landed, load_unless_sent; repeat case_match; simpl in *; congruence.
Qed.

(** The page never makes up a state of the team or of the desktop: it turns to the
    unmaterialized guide only on a response 404, and to connected only on a team that
    says so. *)
Theorem status_comes_from_a_response (ev : PanelEvent) (p p' : Panel) (Hstep : panel_step ev p = Some p') :
  (p_teamStatus p' = unmaterialized → p_teamStatus p = unmaterialized ∨ is_absence ev = true) ∧
  (p_desktopConn p' = connected → p_desktopConn p = connected ∨ is_connection ev = true).
Proof.
  split; intros Hst; step_cases Hstep; unfold_handlers; repeat case_match; frames; simpl in *;
    rewrite ?(members_frame p_teamStatus) in Hst by done; rewrite ?(load_frame p_teamStatus) in Hst by done;
    rewrite ?(members_frame p_desktopConn) in Hst by done; rewrite ?(load_frame p_desktopConn) in Hst by done;
    simpl in *; unfold probeTeam, conn_of in *; repeat case_match; simplify_eq/=; auto.
Qed.

(** ** What a late response undoes *)

Definition said (text : string) : TeamMessage :=
  mkTeamMessage (Some USER_MEMBER) (mkHistoryMessage None ROLE_USER None [TextBlock text] None) (WireString "1").
Definition sample_team : Team := mkTeam None [] (Some true) None.
Definition mounted : Panel := mount_panel (new_panel new_ChatStore).

Definition texts_of (p : Panel) : list (list string) :=
  (λ e, bubble_texts (te_message e)) <$> cs_history (st_state (p_store p)).

(** The history of the life of the team before an Apply comes back after it. *)
Lemma old_history_comes_back :
  texts_of <$> run_panel [Applied sample_team; LandMessages false (inr []); LandMessages true (inr [said "old"])] mounted
  = Some [["old"]].
Proof. vm_compute; reflexivity. Qed.

(** A probe answered before an Apply takes the page back to the guide. *)
Lemma old_probe_hides_the_team :
  team_guide <$> run_panel [Applied sample_team; LandProbe (inl (FailedApi 404 ""))] mounted = Some true.
Proof. vm_compute; reflexivity. Qed.

(** A failed send asks for the history again, and with that lets the response of the
    first request, which the send was to hold back, replace the conversation. *)
Lemma failed_send_lets_the_old_response_in :
  texts_of <$> run_panel [Send "new"; StreamError 1 (FailedOther "lost"); LandMessages false (inr [said "old"; said "new"]);
                          LandMessages true (inr [said "old"])] mounted
  = Some [["old"]].
Proof. vm_compute; reflexivity. Qed.

(** ** Witnesses *)

Lemma earlier_members_are_dropped_witness :
  members_landed true 0 [("player", inr [])] (onApplied sample_team mounted) = onApplied sample_team mounted.
Proof.
  apply (earlier_members_are_dropped new_ChatStore [] [] sample_team mounted (onApplied sample_team mounted) true 0 _);
    [done| |done].
  vm_compute; repeat constructor.
Defined.

Lemma send_wins_over_backfill_witness :
  p_store (messages_landed true (inr [said "old"]) (refreshTeam (onSend "new" mounted)))
  = p_store (refreshTeam (onSend "new" mounted)).
Proof. apply (send_wins_over_backfill "new" [Poll] mounted); [by repeat constructor|done]. Defined.

Lemma status_comes_from_a_response_witness :
  (p_teamStatus (team_landed (inr sample_team) (landed AwaitTeam mounted)) = unmaterialized →
   p_teamStatus mounted = unmaterialized ∨ is_absence (LandTeam (inr sample_team)) = true) ∧
  (p_desktopConn (team_landed (inr sample_team) (landed AwaitTeam mounted)) = connected →
   p_desktopConn mounted = connected ∨ is_connection (LandTeam (inr sample_team)) = true).
Proof. apply (status_comes_from_a_response (LandTeam (inr sample_team)) mounted); vm_compute; reflexivity. Defined.
