(* ===== verification/WebApp.v ===== *)
(** * The application around the panels

    [App] of [projects/game/web/frontend/src/App.tsx] — the sessions listed, opened
    and selected, each with its store — and the components beside the conversation:
    [SessionList] ([SessionList.tsx]), the system prompt overlay
    ([SystemPromptOverlay.tsx]) and the team settings ([TeamSettingsPanel.tsx]).

    Handlers are cut at their [await]s; responses land in any order.  An effect that
    only mirrors a state is run with the change it follows, as React runs it before
    the next task. *)

From S2P Require Import Prelude ChatWire Chat ChatView Panel.

#[local] Open Scope Z_scope.

(** ** App *)

Inductive AppView : Type := view_sessions | view_presets | view_wiki | view_memory.

#[export] Instance AppView_eq_dec : EqDecision AppView.
Proof. solve_decision. Defined.

Definition SECONDARY_VIEWS : list AppView := [view_wiki; view_memory].
Definition secondaryView (v : AppView) : bool := bool_decide (v ∈ SECONDARY_VIEWS).

(** The calls in flight of the list: the list itself, a create, a delete. *)
Inductive AppCall : Type := CallList | CallCreate | CallDelete (name : string).

#[export] Instance AppCall_eq_dec : EqDecision AppCall.
Proof. solve_decision. Defined.

Record AppState : Type := mkApp {
  a_view : AppView;
  a_secondaryMenuOpen : bool;
  a_sessions : list string;
  a_loading : bool;
  a_listError : option string;
  a_selected : option string;
  a_opened : list string;
  a_notice : option string;
  a_stores : gmap string ChatStore;
  a_calls : list AppCall;
}.

(** The first render and its effect, which asks for the list. *)
Definition initial_app : AppState := mkApp view_sessions false [] true None None [] None ∅ [CallList].

Definition with_list (s : AppState) sessions loading error :=
  mkApp (a_view s) (a_secondaryMenuOpen s) sessions loading error (a_selected s) (a_opened s) (a_notice s) (a_stores s) (a_calls s).
Definition with_calls (s : AppState) calls :=
  mkApp (a_view s) (a_secondaryMenuOpen s) (a_sessions s) (a_loading s) (a_listError s) (a_selected s) (a_opened s)
    (a_notice s) (a_stores s) calls.

Definition selectView (next : AppView) (s : AppState) : AppState :=
  mkApp next false (a_sessions s) (a_loading s) (a_listError s) (a_selected s) (a_opened s) (a_notice s) (a_stores s) (a_calls s).
Definition setMenuOpen (open : bool) (s : AppState) : AppState :=
  mkApp (a_view s) open (a_sessions s) (a_loading s) (a_listError s) (a_selected s) (a_opened s) (a_notice s) (a_stores s)
    (a_calls s).

Definition openSession (name : string) (s : AppState) : AppState :=
  mkApp view_sessions (a_secondaryMenuOpen s) (a_sessions s) (a_loading s) (a_listError s) (Some name)
    (if bool_decide (name ∈ a_opened s) then a_opened s else a_opened s ++ [name]) None
    (match a_stores s !! name with Some _ => a_stores s | None => <[name := new_ChatStore]> (a_stores s) end)
    (a_calls s).

(** [refresh]. *)
Definition refresh (s : AppState) : AppState :=
  with_calls (with_list s (a_sessions s) true (a_listError s)) (a_calls s ++ [CallList]).
Definition list_landed (res : Failure + list string) (s : AppState) : AppState :=
  match res with
  | inr sessions => with_list s sessions false None
  | inl e => with_list s (a_sessions s) false (Some (errorMessage e))
  end.

Definition onCreate (s : AppState) : AppState := with_calls s (a_calls s ++ [CallCreate]).
Definition create_landed (res : Failure + string) (s : AppState) : AppState :=
  match res with
  | inr name => openSession name (with_list s (a_sessions s ++ [name]) (a_loading s) None)
  | inl e => with_list s (a_sessions s) (a_loading s) (Some (errorMessage e))
  end.

Definition deleted_notice : string := "会话已删除，已返回列表".

Definition onDelete (name : string) (s : AppState) : AppState :=
  with_calls (with_list s (a_sessions s) true (a_listError s)) (a_calls s ++ [CallDelete name]).
Definition delete_landed (name : string) (res : option Failure) (s : AppState) : AppState :=
  match res with
  | Some e => with_list s (a_sessions s) false (Some (errorMessage e))
  | None =>
      let gone := bool_decide (a_selected s = Some name) in
      mkApp (a_view s) (a_secondaryMenuOpen s) (filter (λ n, n ≠ name) (a_sessions s)) false (a_listError s)
        (if gone then None else a_selected s) (filter (λ n, n ≠ name) (a_opened s))
        (if gone then Some deleted_notice else a_notice s) (delete name (a_stores s)) (a_calls s)
  end.

(** The panels on the page, the active one marked. *)
Definition panels (s : AppState) : list (string * bool) :=
  (λ n, (n, bool_decide (a_selected s = Some n))) <$> filter (λ n, is_Some (a_stores s !! n)) (a_opened s).

Inductive AppEvent : Type :=
| SelectView (next : AppView)
| SetMenuOpen (open : bool)
| OpenSession (name : string)
| ClickRefresh
| ClickCreate
| ConfirmDelete (name : string)
| ListLanded (res : Failure + list string)
| CreateLanded (res : Failure + string)
| DeleteLanded (name : string) (res : option Failure).

Definition call_landed (c : AppCall) (f : AppState → AppState) (s : AppState) : option AppState :=
  if bool_decide (c ∈ a_calls s) then Some (f (with_calls s (remove_first c (a_calls s)))) else None.

(** The buttons of the list are disabled while it loads. *)
Definition app_step (ev : AppEvent) (s : AppState) : option AppState :=
  match ev with
  | SelectView next => Some (selectView next s)
  | SetMenuOpen open => Some (setMenuOpen open s)
  | OpenSession name => Some (openSession name s)
  | ClickRefresh => if a_loading s then None else Some (refresh s)
  | ClickCreate => if a_loading s then None else Some (onCreate s)
  | ConfirmDelete name => Some (onDelete name s)
  | ListLanded res => call_landed CallList (list_landed res) s
  | CreateLanded res => call_landed CallCreate (create_landed res) s
  | DeleteLanded name res => call_landed (CallDelete name) (delete_landed name res) s
  end.

Definition run_app (evs : list AppEvent) (s : AppState) : option AppState := foldM (λ s ev, app_step ev s) s evs.

(** ** SessionList

    The menu, the entry armed for deletion, the entry being deleted. *)
Record ListState : Type := mkList { l_menuFor : option string; l_armedFor : option string; l_deleting : option string }.

Definition initial_list : ListState := mkList None None None.

(** [onMenuSelect]: the state and the name that is passed to [onDelete]. *)
Definition onMenuSelect (name id : string) (s : ListState) : ListState * option string :=
  if bool_decide (id = "delete") then (mkList (l_menuFor s) (Some name) (l_deleting s), None)
  else if bool_decide (id = "confirm-delete") then (mkList None None (Some name), Some name)
  else if bool_decide (id = "cancel-delete") then (mkList (l_menuFor s) None (l_deleting s), None)
  else (s, None).

(** [runDelete] when [onDelete] has settled. *)
Definition delete_settled (name : string) (s : ListState) : ListState :=
  mkList (l_menuFor s) (l_armedFor s) (if bool_decide (l_deleting s = Some name) then None else l_deleting s).

(** The entries of a menu: its id and whether it is disabled. *)
Definition menuEntries (name : string) (s : ListState) : list (string * bool) :=
  let busy := bool_decide (l_deleting s = Some name) in
  if bool_decide (l_armedFor s = Some name) then [("confirm-delete", busy); ("cancel-delete", false)]
  else [("delete", busy)].

(** ** The system prompt overlay *)

Record Overlay : Type := mkOverlay {
  o_member : option string;
  o_text : option string;
  o_error : option string;
  o_loading : bool;
  o_request : Z;
}.

Definition initial_overlay : Overlay := mkOverlay None None None false 0.

(** The effect of another session or team, and [close]. *)
Definition overlay_close (o : Overlay) : Overlay := mkOverlay None None None false (o_request o + 1).

(** [open]: the request's number is the new [o_request]. *)
Definition overlay_open (role : string) (o : Overlay) : Overlay := mkOverlay (Some role) None None true (o_request o + 1).
Definition prompt_landed (id : Z) (res : Failure + option string) (o : Overlay) : Overlay :=
  if o_request o =? id then
    match res with
    | inr text => mkOverlay (o_member o) (Some (default "" text)) (o_error o) false (o_request o)
    | inl e => mkOverlay (o_member o) (o_text o) (Some (errorMessage e)) false (o_request o)
    end
  else o.

(** ** The team settings *)

Record Settings : Type := mkSettings {
  t_playerPresets : list string;
  t_plannerPresets : list string;
  t_models : list string;
  t_loading : bool;
  t_error : option string;
  t_playerPreset : string;
  t_plannerPreset : string;
  t_playerModel : string;
  t_plannerModel : string;
  t_applying : bool;
}.

Definition memberOf (team : option Team) (role : string) : option TeamMember :=
  team ≫= λ t, List.find (λ m, bool_decide (wm_role m = role)) (wt_members t).

Definition new_settings (team : option Team) : Settings :=
  mkSettings [] [] [] true None
    (default "" (wm_preset <$> memberOf team "player")) (default "" (wm_preset <$> memberOf team "planner"))
    (default "" (memberOf team "player" ≫= wm_model)) (default "" (memberOf team "planner" ≫= wm_model)) false.

(** The three lists of the mount effect, or what one of them threw. *)
Definition choices_landed (cancelled : bool) (res : Failure + (list string * list string * list string)) (s : Settings) : Settings :=
  if cancelled then s
  else
    match res with
    | inr (players, planners, models) =>
        mkSettings players planners models false (t_error s) (t_playerPreset s) (t_plannerPreset s)
          (t_playerModel s) (t_plannerModel s) (t_applying s)
    | inl e =>
        mkSettings (t_playerPresets s) (t_plannerPresets s) (t_models s) false (Some (errorMessage e))
          (t_playerPreset s) (t_plannerPreset s) (t_playerModel s) (t_plannerModel s) (t_applying s)
    end.

Definition t_with (s : Settings) (error : option string) (applying : bool) : Settings :=
  mkSettings (t_playerPresets s) (t_plannerPresets s) (t_models s) (t_loading s) error (t_playerPreset s)
    (t_plannerPreset s) (t_playerModel s) (t_plannerModel s) applying.

Definition optional_model (model : string) : option string := if bool_decide (model = "") then None else Some model.

(** [apply]: the members that are sent, if they are. *)
Definition apply_settings (s : Settings) : Settings * option (list TeamMember) :=
  if bool_decide (t_playerPreset s = "") then (t_with s (Some "必须选择一个 player preset") (t_applying s), None)
  else if bool_decide (t_plannerPreset s = "") then (t_with s (Some "必须选择一个 planner preset") (t_applying s), None)
  else
    (t_with s (t_error s) true,
     Some [mkTeamMember "player" (t_playerPreset s) (optional_model (t_playerModel s));
           mkTeamMember "planner" (t_plannerPreset s) (optional_model (t_plannerModel s))]).
Definition apply_landed (res : Failure + Team) (s : Settings) : Settings * option Team :=
  match res with
  | inr team => (t_with s (t_error s) false, Some team)
  | inl e => (t_with s (Some (errorMessage e)) false, None)
  end.

(** The options of a preset select: the chosen one is among them even when the pool
    has lost it. *)
Definition presetOptions (presets : list string) (selected : string) : list string :=
  "" :: presets ++ (if bool_decide (selected = "") || bool_decide (selected ∈ presets) then [] else [selected]).

(** ** What the application guarantees

    The selected session always has its panel and an open session never loses its
    store to another ([open_sessions_keep_their_panels]); nothing is deleted that was
    not armed ([delete_needs_confirmation]); the overlay never shows the prompt of
    another member ([prompt_is_of_the_open_member]). *)

(** ** The sessions *)

Record app_ok (s : AppState) : Prop := {
  ok_nodup : NoDup (a_opened s);
  ok_stores : ∀ n, is_Some (a_stores s !! n) ↔ n ∈ a_opened s;
  ok_selected : ∀ n, a_selected s = Some n → n ∈ a_opened s;
}.

Lemma initial_app_ok : app_ok initial_app.
Proof.
  split; simpl; [constructor| |done].
  intros n; rewrite lookup_empty, elem_of_nil; split; [intros []; done|done].
Qed.

(** The invariant is about three fields. *)
Lemma app_ok_frame s s' :
  a_opened s' = a_opened s → a_stores s' = a_stores s → a_selected s' = a_selected s → app_ok s → app_ok s'.
Proof. intros Ho Hs Hsel [H1 H2 H3]; split; rewrite ?Ho, ?Hs, ?Hsel; auto; intros n; rewrite ?Hs, ?Hsel; auto. Qed.

Lemma openSession_ok name s : app_ok s → app_ok (openSession name s).
Proof.
  intros [H1 H2 H3]; unfold openSession; split; simpl.
  - case_bool_decide; [done|]; apply NoDup_app; split_and!; [done|set_solver|apply NoDup_singleton].
  - intros n; destruct (a_stores s !! name) as [c|] eqn:Hc.
    + rewrite bool_decide_true by (apply H2; eauto); apply H2.
    + rewrite bool_decide_false by (rewrite <-H2, Hc; intros []; done).
      rewrite elem_of_app, list_elem_of_singleton, lookup_insert_is_Some', H2; naive_solver.
  - intros n [= <-]; case_bool_decide; set_solver.
Qed.

Lemma delete_landed_ok name s : app_ok s → app_ok (delete_landed name None s).
Proof.
  intros [H1 H2 H3]; split; simpl.
  - by apply NoDup_filter.
  - intros n; rewrite list_elem_of_filter, lookup_delete_is_Some, H2; naive_solver.
  - intros n; case_bool_decide; [done|]; intros Hn; rewrite list_elem_of_filter; split; [congruence|auto].
Qed.

Lemma app_step_ok ev s s' : app_ok s → app_step ev s = Some s' → app_ok s'.
Proof.
  intros Hok; destruct ev; simpl; unfold call_landed; repeat case_match; intros [= <-];
    try (eapply app_ok_frame; [..|exact Hok]; done); auto using openSession_ok.
  - destruct res; (eapply app_ok_frame; [..|exact Hok]; done).
  - destruct res; [eapply app_ok_frame; [..|exact Hok]; done|].
    apply openSession_ok; eapply app_ok_frame; [..|exact Hok]; done.
  - destruct res; [eapply app_ok_frame; [..|exact Hok]; done|].
    apply delete_landed_ok; eapply app_ok_frame; [..|exact Hok]; done.
Qed.

Lemma run_app_ok evs s s' : app_ok s → run_app evs s = Some s' → app_ok s'.
Proof.
  unfold run_app; revert s; induction evs as [|ev evs IH]; intros s Hok; simpl; [by intros [= <-]|].
  destruct (app_step ev s) as [q|] eqn:Hq; simpl; [|done]; eauto using app_step_ok.
Qed.

(** A step deletes this session. *)
Definition deletes (name : string) (ev : AppEvent) : bool :=
  match ev with DeleteLanded n None => bool_decide (n = name) | _ => false end.

Lemma step_keeps_store ev s s' name c :
  app_step ev s = Some s' → deletes name ev = false → a_stores s !! name = Some c → a_stores s' !! name = Some c.
Proof.
  destruct ev; simpl; unfold call_landed; repeat case_match; intros [= <-] Hev Hc; try done;
    unfold list_landed, create_landed, delete_landed; repeat case_match; simpl; try done;
    unfold openSession; simpl; repeat case_match; try done.
  - rewrite lookup_insert_ne; congruence.
  - rewrite lookup_insert_ne; simpl in *; congruence.
  - apply bool_decide_eq_false in Hev; by rewrite lookup_delete_ne.
  - apply bool_decide_eq_false in Hev; by rewrite lookup_delete_ne.
Qed.

Lemma filter_keeps_all {A} (P : A → Prop) `{∀ x, Decision (P x)} (l : list A) : Forall P l → filter P l = l.
Proof. induction 1 as [|x l Hx _ IH]; [done|]; by rewrite filter_cons_True, IH. Qed.

(** ** The overlay *)

(** The overlay with the requests it has made, each with the member it asked for. *)
Record OverlaySystem : Type := mkSystem { y_overlay : Overlay; y_requests : list (Z * string) }.

Inductive OverlayEvent : Type :=
| Open (role : string)
| Close
| Land (id : Z) (role : string).

Section Prompts.
(** What the server answers for a member. *)
Context (answer : string → Failure + option string).

Definition overlay_step (ev : OverlayEvent) (y : OverlaySystem) : option OverlaySystem :=
  match ev with
  | Open role => Some (mkSystem (overlay_open role (y_overlay y)) ((o_request (y_overlay y) + 1, role) :: y_requests y))
  | Close => Some (mkSystem (overlay_close (y_overlay y)) (y_requests y))
  | Land id role =>
      if bool_decide ((id, role) ∈ y_requests y) then
        Some (mkSystem (prompt_landed id (answer role) (y_overlay y)) (y_requests y))
      else None
  end.

Definition run_overlay (evs : list OverlayEvent) : option OverlaySystem :=
  foldM (λ y ev, overlay_step ev y) (mkSystem initial_overlay []) evs.

Record overlay_ok (y : OverlaySystem) : Prop := {
  oo_past : ∀ id role, (id, role) ∈ y_requests y → id <= o_request (y_overlay y);
  oo_current : ∀ role, (o_request (y_overlay y), role) ∈ y_requests y → o_member (y_overlay y) = Some role ∨ o_member (y_overlay y) = None;
  oo_closed : o_member (y_overlay y) = None → ∀ role, (o_request (y_overlay y), role) ∉ y_requests y;
  oo_text : ∀ text, o_text (y_overlay y) = Some text →
    ∃ role t, o_member (y_overlay y) = Some role ∧ answer role = inr t ∧ text = default "" t;
}.

Lemma overlay_step_ok ev y y' : overlay_ok y → overlay_step ev y = Some y' → overlay_ok y'.
Proof.
  intros [Hpast Hcur Hclosed Htext]; destruct ev as [role| |id role]; simpl.
  - intros [= <-]; split; simpl; [|intros r [[= ->]|Hr%Hpast]%elem_of_cons; [by left|lia]|done|done].
    intros i r [[= -> ->]|Hr%Hpast]%elem_of_cons; lia.
  - intros [= <-]; split; simpl; [intros i r Hr%Hpast; lia|by right|intros _ r Hr%Hpast; lia|done].
  - case_bool_decide as Hin; [|done]; intros [= <-]; unfold prompt_landed.
    destruct (Z.eqb_spec (o_request (y_overlay y)) id) as [<-|]; [|by split].
    destruct (Hcur _ Hin) as [Hm|Hm]; [|by destruct (Hclosed Hm role)].
    destruct (answer role) as [e|t] eqn:Ha; split; simpl; eauto.
    intros text [= <-]; eauto.
Qed.
End Prompts.

(** ** Properties *)

(** C29: Whatever is clicked and in whatever order the calls land, every open session
    has one panel on its own store, the selected session is one of them and the only
    active one, and a session keeps the store it has — with the streams under way in
    it — until its own deletion succeeds. *)
Theorem open_sessions_keep_their_panels (evs : list AppEvent) (s : AppState) (Hrun : run_app evs initial_app = Some s) :
  NoDup (a_opened s) ∧
  panels s = (λ n, (n, bool_decide (a_selected s = Some n))) <$> a_opened s ∧
  (∀ n, a_selected s = Some n → (n, true) ∈ panels s) ∧
  ∀ ev s' n c, app_step ev s = Some s' → deletes n ev = false → a_stores s !! n = Some c → a_stores s' !! n = Some c.
Proof.
  destruct (run_app_ok _ _ _ initial_app_ok Hrun) as [H1 H2 H3].
  assert (Hpanels : panels s = (λ n, (n, bool_decide (a_selected s = Some n))) <$> a_opened s).
  { unfold panels; f_equal; apply filter_keeps_all, Forall_forall; intros n Hn; by apply H2. }
  split_and!; [done|done| |].
  - intros n Hn; rewrite Hpanels; apply list_elem_of_fmap; exists n; split; [by rewrite bool_decide_true|auto].
  - intros ev s' n c Hstep Hev Hc; by eapply step_keeps_store.
Qed.

(** A session is deleted only from the menu of an entry that was armed by a first
    click, and not while its deletion is under way. *)
Theorem delete_needs_confirmation (s : ListState) (entry name id : string)
    (Hshown : (id, false) ∈ menuEntries entry s) (Hdelete : (onMenuSelect entry id s).2 = Some name) :
  name = entry ∧ l_armedFor s = Some entry ∧ l_deleting s ≠ Some entry.
Proof.
  unfold menuEntries, onMenuSelect in *; revert Hshown Hdelete.
  case_bool_decide as Harmed; rewrite ?elem_of_cons, ?elem_of_nil.
  - intros [[= -> Hb]|[[= ->]|[]]]; simpl; [|done]; intros [= <-].
    symmetry in Hb; apply bool_decide_eq_false in Hb; done.
  - intros [[= -> _]|[]]; done.
Qed.

(** The prompt in the overlay is the server's answer for the member it is open on,
    whatever was opened and closed before and however late the answers land. *)
Theorem prompt_is_of_the_open_member (answer : string → Failure + option string) (evs : list OverlayEvent)
    (y : OverlaySystem) (text : string)
    (Hrun : run_overlay answer evs = Some y) (Htext : o_text (y_overlay y) = Some text) :
  ∃ role t, o_member (y_overlay y) = Some role ∧ answer role = inr t ∧ text = default "" t.
Proof.
  enough (Hok : overlay_ok answer y) by by apply Hok.
  revert Hrun; unfold run_overlay; assert (H0 : overlay_ok answer (mkSystem initial_overlay [])) by (split; simpl; set_solver).
  revert H0; generalize (mkSystem initial_overlay []) as q; induction evs as [|ev evs IH]; intros q Hq; simpl.
  - by intros [= <-].
  - destruct (overlay_step answer ev q) as [q'|] eqn:Hstep; simpl; [|done]; eauto using overlay_step_ok.
Qed.

(** The team settings send both roles with a chosen preset, and a model only when one
    is chosen; a chosen preset can always be seen in its select. *)
Lemma settings_send_what_is_chosen (s : Settings) (members : list TeamMember) :
  (apply_settings s).2 = Some members →
  wm_role <$> members = ["player"; "planner"] ∧ Forall (λ m, wm_preset m ≠ "" ∧ wm_model m ≠ Some "") members.
Proof.
  unfold apply_settings, optional_model; case_bool_decide; [done|]; case_bool_decide; [done|]; intros [= <-]; split; [done|].
  repeat constructor; simpl; repeat case_bool_decide; congruence.
Qed.

Lemma chosen_preset_is_an_option (presets : list string) (selected : string) : selected ∈ presetOptions presets selected.
Proof.
  unfold presetOptions; case_bool_decide as H1; [set_solver|]; case_bool_decide; set_solver.
Qed.

(** ** What the list shows twice, or again *)

(** A list that lands between the making of a session and its response. *)
Lemma created_session_is_listed_twice :
  a_sessions <$> run_app [ListLanded (inr []); ClickCreate; ClickRefresh; ListLanded (inr ["a"]); CreateLanded (inr "a")]
                   initial_app
  = Some ["a"; "a"].
Proof. vm_compute; reflexivity. Qed.

(** A list asked for before a deletion and landed after it. *)
Lemma deleted_session_is_listed_again :
  a_sessions <$> run_app [ListLanded (inr ["a"]); ClickRefresh; ConfirmDelete "a"; DeleteLanded "a" None; ListLanded (inr ["a"])]
                   initial_app
  = Some ["a"].
Proof. vm_compute; reflexivity. Qed.

(** ** Witnesses *)

Definition sample_app_events : list AppEvent := [ListLanded (inr ["a"; "b"]); OpenSession "a"; OpenSession "b"; OpenSession "a"].

Lemma open_sessions_keep_their_panels_witness :
  match run_app sample_app_events initial_app with
  | Some s =>
      NoDup (a_opened s) ∧
      panels s = (λ n, (n, bool_decide (a_selected s = Some n))) <$> a_opened s ∧
      (∀ n, a_selected s = Some n → (n, true) ∈ panels s) ∧
      ∀ ev s' n c, app_step ev s = Some s' → deletes n ev = false → a_stores s !! n = Some c → a_stores s' !! n = Some c
  | None => False
  end.
Proof.
  destruct (run_app sample_app_events initial_app) as [s|] eqn:Hrun; [|vm_compute in Hrun; discriminate].
  exact (open_sessions_keep_their_panels sample_app_events s Hrun).
Defined.

Lemma delete_needs_confirmation_witness :
  "a" = "a" ∧ l_armedFor (onMenuSelect "a" "delete" initial_list).1 = Some "a" ∧
  l_deleting (onMenuSelect "a" "delete" initial_list).1 ≠ Some "a".
Proof.
  apply (delete_needs_confirmation (onMenuSelect "a" "delete" initial_list).1 "a" "a" "confirm-delete");
    vm_compute; repeat constructor.
Defined.

Definition sample_answer (role : string) : Failure + option string := inr (Some role).
Definition sample_overlay_events : list OverlayEvent := [Open "player"; Open "planner"; Land 1 "player"; Land 2 "planner"].

Lemma prompt_is_of_the_open_member_witness :
  ∃ role t, o_member (default initial_overlay (y_overlay <$> run_overlay sample_answer sample_overlay_events)) = Some role ∧
    sample_answer role = inr t ∧ "planner" = default "" t.
Proof.
  destruct (run_overlay sample_answer sample_overlay_events) as [y|] eqn:Hrun; [|vm_compute in Hrun; discriminate].
  apply (prompt_is_of_the_open_member sample_answer sample_overlay_events y "planner" Hrun).
  vm_compute in Hrun; by injection Hrun as <-.
Defined.
