(* ===== verification/Views.v ===== *)
(** * What the management views share

    [projects/game/web/frontend/src/components/MemoryView.tsx], [WikiView.tsx] and
    [PresetsView.tsx]: the failures they show and the chain of page tokens of a paged
    list.  Each view has a file of its own.

    In all of them a handler is cut at its [await]s, and a refresh that a handler waits
    for carries what the handler does next; the effect that lists again when the page
    changes runs with the handler that changes it; the [disabled] conditions of the
    buttons are guards of the events. *)

From S2P Require Import Prelude JsText.

#[local] Open Scope Z_scope.

(** What a call throws: here the body is shown. *)
Inductive CallFailure : Type :=
| ApiFailure (status : Z) (body : jstr)
| OtherFailure (message : jstr).

Definition failure_message (e : CallFailure) : jstr :=
  match e with
  | ApiFailure status body => js "api request failed: " ++ jnum status ++ js " " ++ body
  | OtherFailure m => m
  end.

Definition is_404 (e : CallFailure) : bool := match e with ApiFailure status _ => status =? 404 | _ => false end.

(** [name.split('/').pop()]. *)
Definition last_segment (name : jstr) : jstr := drop (Z.to_nat (lastIndexOf name 47 + 1)) name.

(** The chain of page tokens: the last one is the current page's. *)
Definition current_token (tokens : list jstr) : jstr := default [] (last tokens).
Definition previous_page (tokens : list jstr) : list jstr :=
  if (1 <? length tokens)%nat then take (length tokens - 1) tokens else tokens.
