(* ===== verification/MemoryView.v ===== *)
(** * The memory view

    [projects/game/web/frontend/src/components/MemoryView.tsx]: the memories of the
    selected preset, page by page, with the guards that keep a late page of another
    preset away; the form that adds or changes one; the deletion in two steps. *)

From S2P Require Import Prelude JsText Memory MemoryFacts ChatView Panel Views.

#[local] Open Scope Z_scope.

Definition MEMORY_PAGE_SIZE : Z := 20.
Definition MEMORY_ORDER_BY : jstr := js "update_time desc".
Definition MEMORY_CONTENT_MAX_RUNES : Z := 1024.

(** [countRunes]. *)
Definition countRunes (value : jstr) : Z := Z.of_nat (length (code_points value)).

Record Memory : Type := mkMemory { m_name : jstr; m_content : jstr }.

#[export] Instance Memory_eq_dec : EqDecision Memory.
Proof. solve_decision. Defined.

Inductive FormMode : Type := Closed | Create | Edit (memory : Memory).

(** What follows a refresh: nothing, the end of a save or the end of a deletion, with
    the error it shows. *)
Inductive Then : Type := ThenNothing | ThenSaved (error : option jstr) | ThenDeleted (error : option jstr).

(** The calls in flight; a write remembers the preset and the page it was made on. *)
Inductive Call : Type :=
| ListCall (epoch : nat) (preset token : jstr) (next : Then)
| WriteCall (edited : option jstr) (content : jstr) (preset : jstr) (token : jstr)
| DeleteCall (name : jstr) (preset : option jstr) (token : jstr).

#[export] Instance Then_eq_dec : EqDecision Then.
Proof. solve_decision. Defined.
#[export] Instance Call_eq_dec : EqDecision Call.
Proof. solve_decision. Defined.

Record View : Type := mkView {
  v_presetKey : option jstr;
  v_items : list Memory;
  v_loading : bool;
  v_busy : bool;
  v_error : option jstr;
  v_pageTokens : list jstr;
  v_nextToken : jstr;
  v_form : FormMode;
  v_contentDraft : jstr;
  v_deletePending : option jstr;
  v_refreshEpoch : nat;
  v_presetRef : option jstr;
  v_calls : list Call;
}.

Definition initial : View := mkView None [] false false None [[]] [] Closed [] None 0 None [].

Definition set_items (v : View) items next := mkView (v_presetKey v) items (v_loading v) (v_busy v) (v_error v)
  (v_pageTokens v) next (v_form v) (v_contentDraft v) (v_deletePending v) (v_refreshEpoch v) (v_presetRef v) (v_calls v).
Definition set_loading (v : View) l := mkView (v_presetKey v) (v_items v) l (v_busy v) (v_error v)
  (v_pageTokens v) (v_nextToken v) (v_form v) (v_contentDraft v) (v_deletePending v) (v_refreshEpoch v) (v_presetRef v) (v_calls v).
Definition set_busy (v : View) b := mkView (v_presetKey v) (v_items v) (v_loading v) b (v_error v)
  (v_pageTokens v) (v_nextToken v) (v_form v) (v_contentDraft v) (v_deletePending v) (v_refreshEpoch v) (v_presetRef v) (v_calls v).
Definition set_error (v : View) e := mkView (v_presetKey v) (v_items v) (v_loading v) (v_busy v) e
  (v_pageTokens v) (v_nextToken v) (v_form v) (v_contentDraft v) (v_deletePending v) (v_refreshEpoch v) (v_presetRef v) (v_calls v).
Definition set_tokens (v : View) t := mkView (v_presetKey v) (v_items v) (v_loading v) (v_busy v) (v_error v)
  t (v_nextToken v) (v_form v) (v_contentDraft v) (v_deletePending v) (v_refreshEpoch v) (v_presetRef v) (v_calls v).
Definition set_form (v : View) f d := mkView (v_presetKey v) (v_items v) (v_loading v) (v_busy v) (v_error v)
  (v_pageTokens v) (v_nextToken v) f d (v_deletePending v) (v_refreshEpoch v) (v_presetRef v) (v_calls v).
Definition set_deletePending (v : View) d := mkView (v_presetKey v) (v_items v) (v_loading v) (v_busy v) (v_error v)
  (v_pageTokens v) (v_nextToken v) (v_form v) (v_contentDraft v) d (v_refreshEpoch v) (v_presetRef v) (v_calls v).
Definition set_calls (v : View) c := mkView (v_presetKey v) (v_items v) (v_loading v) (v_busy v) (v_error v)
  (v_pageTokens v) (v_nextToken v) (v_form v) (v_contentDraft v) (v_deletePending v) (v_refreshEpoch v) (v_presetRef v) c.

(** [bumpInflight]. *)
Definition bumpInflight (v : View) : View := mkView (v_presetKey v) (v_items v) (v_loading v) (v_busy v) (v_error v)
  (v_pageTokens v) (v_nextToken v) (v_form v) (v_contentDraft v) (v_deletePending v) (S (v_refreshEpoch v)) (v_presetRef v)
  (v_calls v).

(** What the handler that waited for a refresh does when it is over. *)
Definition continue (next : Then) (v : View) : View :=
  match next with
  | ThenNothing => v
  | ThenSaved error => set_busy (match error with Some _ => set_error v error | None => v end) false
  | ThenDeleted error => match error with Some _ => set_error v error | None => v end
  end.

(** [refresh], of the preset and the page its closure has. *)
Definition refresh (preset : option jstr) (token : jstr) (next : Then) (v : View) : View :=
  if bool_decide (v_presetRef v = preset) then
    let v := bumpInflight v in
    match preset with
    | None => continue next (set_loading (set_items v [] []) false)
    | Some preset => set_calls (set_loading v true) (v_calls v ++ [ListCall (v_refreshEpoch v) preset token next])
    end
  else continue next v.

(** The refresh of the current page. *)
Definition refresh_now (next : Then) (v : View) : View := refresh (v_presetKey v) (current_token (v_pageTokens v)) next v.

(** A page lands, or what its call throws. *)
Definition list_landed (epoch : nat) (preset : jstr) (next : Then) (res : CallFailure + (list Memory * jstr)) (v : View) : View :=
  let expired := negb (bool_decide (epoch = v_refreshEpoch v) && bool_decide (v_presetRef v = Some preset)) in
  let v' :=
    if expired then v
    else
      match res with
      | inr (memories, nextPageToken) => set_error (set_items v memories nextPageToken) None
      | inl e => set_error v (Some (failure_message e))
      end in
  continue next (if bool_decide (epoch = v_refreshEpoch v) then set_loading v' false else v').

Definition selectPreset (value : jstr) (v : View) : View :=
  let next := if bool_decide (value = []) then None else Some value in
  let v := bumpInflight v in
  refresh_now ThenNothing
    (mkView next [] (v_loading v) (v_busy v) None [[]] [] Closed (v_contentDraft v) None (v_refreshEpoch v) next (v_calls v)).

Definition goNext (v : View) : View :=
  match v_nextToken v with
  | [] => v
  | token => refresh_now ThenNothing (set_deletePending (set_tokens v (v_pageTokens v ++ [token])) None)
  end.

Definition goPrev (v : View) : View :=
  refresh_now ThenNothing (set_deletePending (set_tokens v (previous_page (v_pageTokens v))) None).

Definition closeForm (v : View) : View := set_error (set_form v Closed (v_contentDraft v)) None.
Definition openCreate (v : View) : View := set_error (set_deletePending (set_form v Create []) None) None.
Definition openEdit (memory : Memory) (v : View) : View :=
  set_error (set_deletePending (set_form v (Edit memory) (m_content memory)) None) None.

Definition limit_message (runes : Z) : jstr :=
  text_units "content 超过 " ++ jnum MEMORY_CONTENT_MAX_RUNES ++ text_units " 字符上限（当前 " ++ jnum runes ++ text_units "）。".

(** [save]: the call it makes, if it makes one. *)
Definition save_call (v : View) : option (jstr + Call) :=
  match v_presetKey v, v_form v with
  | None, _ | _, Closed => None
  | Some preset, form =>
      let content := trim (v_contentDraft v) in
      if bool_decide (content = []) then None
      else if MEMORY_CONTENT_MAX_RUNES <? countRunes content then Some (inl (limit_message (countRunes content)))
      else
        Some (inr (WriteCall (match form with Edit m => Some (m_name m) | _ => None end) content preset
                     (current_token (v_pageTokens v))))
  end.
Definition save (v : View) : View :=
  match save_call v with
  | None => v
  | Some (inl error) => set_error v (Some error)
  | Some (inr call) => set_calls (set_busy v true) (v_calls v ++ [call])
  end.

Section Errors.
(** The [message] of a body that is JSON with one. *)
Context (json_message : jstr → option jstr).

Definition serverMessage (body : jstr) : jstr :=
  match json_message body with Some ((_ :: _) as m) => m | _ => body end.

Definition presentError (e : CallFailure) : jstr :=
  match e with
  | ApiFailure status body =>
      if status =? 409 then text_units "该内容已存在（相同内容的条目不会重复创建）。"
      else if status =? 404 then text_units "条目不存在或已被删除。"
      else if status =? 400 then text_units "content 不合法：" ++ serverMessage body
      else failure_message e
  | OtherFailure _ => failure_message e
  end.

(** The rest of [save]. *)
Definition write_landed (edited : option jstr) (preset token : jstr) (res : option CallFailure) (v : View) : View :=
  match res with
  | None => refresh (Some preset) token (ThenSaved None) (set_form v Closed (v_contentDraft v))
  | Some e =>
      if bool_decide (is_Some edited) && is_404 e then
        refresh (Some preset) token (ThenSaved (Some (presentError e))) (set_form v Closed (v_contentDraft v))
      else set_busy (set_error v (Some (presentError e))) false
  end.

(** [confirmDelete]. *)
Definition confirmDelete (name : jstr) (v : View) : View :=
  set_calls (set_busy v true) (v_calls v ++ [DeleteCall name (v_presetKey v) (current_token (v_pageTokens v))]).
Definition delete_landed (preset : option jstr) (token : jstr) (res : option CallFailure) (v : View) : View :=
  refresh preset token (ThenDeleted (presentError <$> res)) (set_busy (set_deletePending v None) false).

(** *** Events *)

Inductive Event : Type :=
| SelectPreset (value : jstr)
| ClickRefresh
| ClickNext
| ClickPrev
| ClickCreate
| ClickEdit (memory : Memory)
| ClickCancel
| TypeContent (text : jstr)
| ClickSave
| ClickDelete (name : jstr)
| CancelDelete
| ClickConfirm (name : jstr)
| ListLanded (epoch : nat) (preset token : jstr) (next : Then) (res : CallFailure + (list Memory * jstr))
| WriteLanded (edited : option jstr) (content preset token : jstr) (res : option CallFailure)
| DeleteLanded (name : jstr) (preset : option jstr) (token : jstr) (res : option CallFailure).

Definition when (enabled : bool) (v : View) : option View := if enabled then Some v else None.
Definition landed (c : Call) (f : View → View) (v : View) : option View :=
  if bool_decide (c ∈ v_calls v) then Some (f (set_calls v (remove_first c (v_calls v)))) else None.

Definition step (ev : Event) (v : View) : option View :=
  let idle := negb (v_loading v || v_busy v) in
  let shown := bool_decide (is_Some (v_presetKey v)) in
  let closed := match v_form v with Closed => true | _ => false end in
  match ev with
  | SelectPreset value => when (negb (v_busy v)) (selectPreset value v)
  | ClickRefresh => when (shown && idle) (refresh_now ThenNothing v)
  | ClickNext => when (shown && closed && idle && bool_decide (v_nextToken v ≠ [])) (goNext v)
  | ClickPrev => when (shown && closed && idle && (1 <? length (v_pageTokens v))%nat) (goPrev v)
  | ClickCreate => when (shown && closed) (openCreate v)
  | ClickEdit memory => when (shown && closed && negb (v_busy v) && bool_decide (memory ∈ v_items v)) (openEdit memory v)
  | ClickCancel => when (shown && negb closed && negb (v_busy v)) (closeForm v)
  | TypeContent text => when (shown && negb closed) (set_form v (v_form v) text)
  | ClickSave => when (shown && negb closed && negb (v_busy v)) (save v)
  | ClickDelete name => when (shown && closed && negb (v_busy v)) (set_deletePending v (Some name))
  | CancelDelete => when (shown && closed && negb (v_busy v)) (set_deletePending v None)
  | ClickConfirm name =>
      when (shown && closed && negb (v_busy v) && bool_decide (v_deletePending v = Some name)) (confirmDelete name v)
  | ListLanded epoch preset token next res => landed (ListCall epoch preset token next) (list_landed epoch preset next res) v
  | WriteLanded edited content preset token res =>
      landed (WriteCall edited content preset token) (write_landed edited preset token res) v
  | DeleteLanded name preset token res => landed (DeleteCall name preset token) (delete_landed preset token res) v
  end.

Definition run (evs : list Event) (v : View) : option View := foldM (λ v ev, step ev v) v evs.

End Errors.

(** ** What the memory view guarantees

    The memory view never shows the memories of one preset under another
    ([memories_are_of_the_selected_preset]), never has two writes under way and is
    never left busy with none ([one_write_at_a_time]), and sends only content the
    memory tool would take ([saved_content_is_valid]). *)

(** ** Steps *)

Lemma landed_spec c f v v' : landed c f v = Some v' ↔ c ∈ v_calls v ∧ v' = f (set_calls v (remove_first c (v_calls v))).
Proof. unfold landed; case_bool_decide; naive_solver. Qed.

Lemma when_spec b v v' : when b v = Some v' ↔ b = true ∧ v' = v.
Proof. unfold when; destruct b; naive_solver. Qed.

Lemma view_run_ind json (P : View → Prop) (Q : Event → Prop) evs v v' :
  P v → (∀ ev w w', Q ev → P w → step json ev w = Some w' → P w') → Forall Q evs → run json evs v = Some v' → P v'.
Proof.
  intros Hv Hstep Hevs; revert v Hv; unfold run; induction Hevs as [|ev evs Hev _ IH]; intros v Hv; simpl; [by intros [= <-]|].
  destruct (step json ev v) as [w|] eqn:Hw; simpl; [|done]; eauto.
Qed.

(** A step, event by event. *)
Ltac step_inv H :=
  match type of H with
  | step _ ?ev _ = Some _ =>
      destruct ev; cbn [step] in H; rewrite ?when_spec, ?landed_spec in H; destruct H as [?Hguard ->]
  end.

(** ** The preset of the memories *)

Section Belongs.
(** Whether a memory is one of a preset's. *)
Context (json : jstr → option jstr) (belongs : jstr → Memory → Prop).

(** The server lists memories of the preset it was asked for. *)
Definition honest (ev : Event) : Prop :=
  match ev with ListLanded _ preset _ _ (inr (memories, _)) => Forall (belongs preset) memories | _ => True end.

Definition items_ok (key : option jstr) (items : list Memory) : Prop :=
  match key with Some preset => Forall (belongs preset) items | None => items = [] end.

Definition view_ok (v : View) : Prop := v_presetRef v = v_presetKey v ∧ items_ok (v_presetKey v) (v_items v).

(** The invariant is about three fields. *)
Lemma view_ok_frame v v' :
  v_presetRef v' = v_presetRef v → v_presetKey v' = v_presetKey v → v_items v' = v_items v → view_ok v → view_ok v'.
Proof. unfold view_ok; intros -> -> ->; done. Qed.

Lemma continue_ok next v : view_ok v → view_ok (continue next v).
Proof. unfold continue; repeat case_match; apply view_ok_frame; done. Qed.

Lemma refresh_ok preset token next v : view_ok v → view_ok (refresh preset token next v).
Proof.
  intros Hv; unfold refresh; case_bool_decide as Hp; [|by apply continue_ok].
  destruct preset as [preset|]; [revert Hv; by apply view_ok_frame|].
  apply continue_ok; destruct Hv as [Href _]; split; simpl; [done|]; by rewrite <-Href, Hp.
Qed.

Lemma list_landed_ok epoch preset next res v :
  (∀ memories token, res = inr (memories, token) → Forall (belongs preset) memories) →
  view_ok v → view_ok (list_landed epoch preset next res v).
Proof.
  intros Hres Hv; unfold list_landed; apply continue_ok.
  destruct (negb _) eqn:Hexp; [case_bool_decide; [revert Hv; by apply view_ok_frame|done]|].
  apply negb_false_iff, andb_true_iff in Hexp as [_ Href%bool_decide_eq_true].
  assert (Hv' : view_ok (match res with
    | inr (memories, nextPageToken) => set_error (set_items v memories nextPageToken) None
    | inl e => set_error v (Some (failure_message e)) end)).
  { destruct res as [e|[memories token]]; [revert Hv; by apply view_ok_frame|].
    destruct Hv as [Hv _]; split; simpl; [done|]; rewrite <-Hv, Href; simpl; eauto. }
  case_bool_decide; [revert Hv'; by apply view_ok_frame|done].
Qed.

Lemma step_view_ok ev v v' : honest ev → view_ok v → step json ev v = Some v' → view_ok v'.
Proof.
  intros Hhon Hv H; step_inv H; try (revert Hv; by apply view_ok_frame).
  - unfold selectPreset; apply refresh_ok; split; simpl; [done|]; case_bool_decide; [done|constructor].
  - by apply refresh_ok.
  - unfold goNext; destruct (v_nextToken v); [done|]; apply refresh_ok; revert Hv; by apply view_ok_frame.
  - apply refresh_ok; revert Hv; by apply view_ok_frame.
  - unfold save; repeat case_match; revert Hv; by apply view_ok_frame.
  - apply list_landed_ok; [intros memories t ->; exact Hhon|revert Hv; by apply view_ok_frame].
  - unfold write_landed; repeat case_match; try apply refresh_ok; revert Hv; by apply view_ok_frame.
  - apply refresh_ok; revert Hv; by apply view_ok_frame.
Qed.
End Belongs.

(** ** Writes under way *)

(** A call after which the view is no longer busy. *)
Definition weight (c : Call) : nat :=
  match c with ListCall _ _ _ (ThenSaved _) | WriteCall _ _ _ _ | DeleteCall _ _ _ => 1 | ListCall _ _ _ _ => 0 end.
Definition calls_weight (v : View) : nat := sum_list_with weight (v_calls v).
Definition busy_ok (v : View) : Prop := calls_weight v = (if v_busy v then 1 else 0)%nat.

Lemma remove_weight c l : c ∈ l → (sum_list_with weight (remove_first c l) + weight c = sum_list_with weight l)%nat.
Proof.
  induction l as [|d l IH]; [by rewrite elem_of_nil|]; simpl; destruct (decide (c = d)) as [->|Hne]; [lia|].
  rewrite elem_of_cons; intros [?|Hin]; [done|]; simpl; specialize (IH Hin); lia.
Qed.

Lemma busy_ok_frame v v' : v_calls v' = v_calls v → v_busy v' = v_busy v → busy_ok v → busy_ok v'.
Proof. unfold busy_ok, calls_weight; by intros -> ->. Qed.

(** What a continuation needs: its own call is gone, its busy mark is not. *)
Definition next_weight (next : Then) : nat := match next with ThenSaved _ => 1 | _ => 0 end.

Lemma continue_busy next v :
  (calls_weight v + next_weight next = (if v_busy v then 1 else 0))%nat → busy_ok (continue next v).
Proof.
  unfold busy_ok, calls_weight, continue; destruct next as [|[e|]|[e|]]; simpl; destruct (v_busy v); lia.
Qed.

Lemma refresh_busy preset token next v :
  (calls_weight v + next_weight next = (if v_busy v then 1 else 0))%nat → busy_ok (refresh preset token next v).
Proof.
  intros Hw; unfold refresh; case_bool_decide; [|by apply continue_busy].
  destruct preset; [|by apply continue_busy].
  unfold busy_ok, calls_weight in *; simpl; rewrite sum_list_with_app; simpl; rewrite <-Hw.
  destruct next; simpl; lia.
Qed.

Lemma list_landed_busy epoch preset next res v :
  (calls_weight v + next_weight next = (if v_busy v then 1 else 0))%nat → busy_ok (list_landed epoch preset next res v).
Proof.
  intros Hw; unfold list_landed; apply continue_busy.
  destruct (negb _), (bool_decide (epoch = _)), res as [e|[memories token]]; exact Hw.
Qed.

(** A call that has landed. *)
Lemma landed_weight c v :
  c ∈ v_calls v → (calls_weight (set_calls v (remove_first c (v_calls v))) + weight c = calls_weight v)%nat.
Proof. apply remove_weight. Qed.

Lemma step_busy_ok json ev v v' : busy_ok v → step json ev v = Some v' → busy_ok v'.
Proof.
  unfold busy_ok at 1; intros Hv H; step_inv H; try (revert Hv; by apply busy_ok_frame).
  - apply refresh_busy; revert Hv; unfold calls_weight; simpl; lia.
  - apply refresh_busy; unfold calls_weight in *; simpl; lia.
  - unfold goNext; destruct (v_nextToken v); [done|]; apply refresh_busy; unfold calls_weight in *; simpl; lia.
  - apply refresh_busy; unfold calls_weight in *; simpl; lia.
  - rewrite !andb_true_iff, !negb_true_iff in Hguard; destruct Hguard as [_ Hb]; rewrite Hb in Hv.
    unfold save, save_call; repeat case_match; simplify_eq; unfold busy_ok, calls_weight in *; simpl; rewrite ?Hb;
      rewrite ?sum_list_with_app; simpl; lia.
  - rewrite !andb_true_iff, !negb_true_iff in Hguard; destruct Hguard as [[_ Hb] _]; rewrite Hb in Hv.
    unfold confirmDelete, busy_ok, calls_weight in *; simpl; rewrite sum_list_with_app; simpl; lia.
  - apply landed_weight in Hguard; apply list_landed_busy; simpl in *; rewrite <-Hv, <-Hguard; destruct next; simpl; lia.
  - apply landed_weight in Hguard; simpl in *; destruct (v_busy v) eqn:Hb; [|lia].
    unfold write_landed; destruct res as [e|]; [case_match|].
    + apply refresh_busy; unfold calls_weight in *; simpl in *; rewrite Hb; lia.
    + unfold busy_ok, calls_weight in *; simpl in *; lia.
    + apply refresh_busy; unfold calls_weight in *; simpl in *; rewrite Hb; lia.
  - apply landed_weight in Hguard; simpl in *; apply refresh_busy; unfold calls_weight in *; simpl in *.
    destruct (v_busy v); lia.
Qed.

(** ** The content of the writes *)

(** A write has content that the memory tool stores as it is. *)
Definition write_ok (c : Call) : Prop :=
  match c with WriteCall _ content _ _ => storable content = true ∧ trim content = content | _ => True end.
Definition writes_ok (v : View) : Prop := ∀ c, c ∈ v_calls v → write_ok c.

Lemma refresh_calls preset token next v c :
  c ∈ v_calls (refresh preset token next v) → c ∈ v_calls v ∨ write_ok c.
Proof.
  assert (Hcont : ∀ next w, v_calls (continue next w) = v_calls w) by (intros [|[?|]|[?|]] w; done).
  unfold refresh; case_bool_decide; [|rewrite Hcont; by left].
  destruct preset; [|rewrite Hcont; by left]; simpl; rewrite elem_of_app, list_elem_of_singleton.
  intros [?| ->]; [by left|by right].
Qed.

Lemma saved_call_ok v c : save_call v = Some (inr c) → write_ok c.
Proof.
  unfold save_call; repeat case_match; intros [= <-]; simpl; (split; [|apply trim_idemp]); unfold storable;
    rewrite bool_decide_true by (by eapply bool_decide_eq_false_1); simpl; apply Z.leb_le, Z.ltb_ge; assumption.
Qed.

Lemma step_writes_ok json ev v v' : writes_ok v → step json ev v = Some v' → writes_ok v'.
Proof.
  intros Hv H c Hc; assert (Hsub : ∀ d, c ∈ remove_first d (v_calls v) → write_ok c) by eauto using remove_first_sub.
  step_inv H; try (by apply Hv); try (apply refresh_calls in Hc as [Hc|Hc]; [|done]; simpl in Hc; eauto; fail).
  - unfold goNext in Hc; destruct (v_nextToken v); [by apply Hv|].
    apply refresh_calls in Hc as [Hc|Hc]; [by apply Hv|done].
  - unfold save in Hc; destruct (save_call v) as [[error|call]|] eqn:Hcall; try (by apply Hv); simpl in Hc.
    rewrite elem_of_app, list_elem_of_singleton in Hc; destruct Hc as [Hc| ->]; [by apply Hv|by eapply saved_call_ok].
  - simpl in Hc; rewrite elem_of_app, list_elem_of_singleton in Hc; destruct Hc as [Hc| ->]; [by apply Hv|done].
  - apply (Hsub (ListCall epoch preset token next)); revert Hc; unfold list_landed.
    assert (Hcont : ∀ next w, v_calls (continue next w) = v_calls w) by (intros [|[?|]|[?|]] w; done).
    rewrite Hcont; repeat case_match; done.
  - unfold write_landed in Hc; repeat case_match;
      try (apply refresh_calls in Hc as [Hc|Hc]; [|done]); simpl in Hc; eauto.
Qed.

(** ** Properties *)

(** C23: The memory view shows only memories of the selected preset, and none when none
    is selected: whatever is clicked and however late a page of another preset lands,
    if the server lists under a preset its own memories. *)
Theorem memories_are_of_the_selected_preset (json : jstr → option jstr) (belongs : jstr → Memory → Prop)
    (evs : list Event) (v : View) (Hhonest : Forall (honest belongs) evs) (Hrun : run json evs initial = Some v) :
  match v_presetKey v with Some preset => Forall (belongs preset) (v_items v) | None => v_items v = [] end.
Proof.
  assert (Hok : view_ok belongs v) by
    (revert Hrun; apply (view_run_ind json (view_ok belongs) (honest belongs)); [done|intros; by eapply step_view_ok|done]).
  exact (proj2 Hok).
Qed.

(** In the memory view at most one write or deletion is under way, and the view is
    busy exactly while one is — it never stays busy with nothing under way. *)
Theorem one_write_at_a_time (json : jstr → option jstr) (evs : list Event) (v : View) (Hrun : run json evs initial = Some v) :
  calls_weight v = (if v_busy v then 1 else 0)%nat.
Proof.
  revert Hrun; apply (view_run_ind json busy_ok (λ _, True)); [done|intros; by eapply step_busy_ok|by apply Forall_true].
Qed.

(** Every write that the memory view has under way carries content the memory tool
    would store as it is: trimmed, not empty and within the bound. *)
Theorem saved_content_is_valid (json : jstr → option jstr) (evs : list Event) (v : View) (edited : option jstr)
    (content preset token : jstr)
    (Hrun : run json evs initial = Some v) (Hcall : WriteCall edited content preset token ∈ v_calls v) :
  storable content = true ∧ trim content = content.
Proof.
  assert (Hok : writes_ok v).
  { revert Hrun; apply (view_run_ind json writes_ok (λ _, True)); [|intros; by eapply step_writes_ok|by apply Forall_true].
    intros c Hc; by apply elem_of_nil in Hc. }
  exact (Hok _ Hcall).
Qed.

(** ** What the view shows after a failure *)

(** A page that cannot be read leaves the rows of the one before, and closing a form
    takes the error away: the rows of page 1 stand as page 2. *)
Definition row (n : string) : Memory := mkMemory (js n) (js n).
Definition no_json (body : jstr) : option jstr := None.

Lemma rows_of_another_page :
  (λ v, (v_items v, v_pageTokens v, v_error v, v_loading v)) <$>
    run no_json [SelectPreset (js "p"); ListLanded 2 (js "p") [] ThenNothing (inr ([row "a"], js "t")); ClickNext;
                 ListLanded 3 (js "p") (js "t") ThenNothing (inl (OtherFailure (js "x"))); ClickCreate; ClickCancel] initial
  = Some ([row "a"], [[]; js "t"], None, false).
Proof. vm_compute; reflexivity. Qed.

(** ** Witnesses *)

Definition of_preset (preset : jstr) (m : Memory) : Prop := m_name m = preset.
Definition sample_events : list Event :=
  [SelectPreset (js "p"); SelectPreset (js "q"); ListLanded 2 (js "p") [] ThenNothing (inr ([row "p"], []));
   ListLanded 4 (js "q") [] ThenNothing (inr ([row "q"], [])); ClickCreate; TypeContent (js " a "); ClickSave].

Definition sample_view : View := default initial (run no_json sample_events initial).

Lemma sample_view_run : run no_json sample_events initial = Some sample_view.
Proof. vm_compute; reflexivity. Qed.

Lemma memories_are_of_the_selected_preset_witness :
  match v_presetKey sample_view with
  | Some preset => Forall (of_preset preset) (v_items sample_view)
  | None => v_items sample_view = []
  end.
Proof.
  apply (memories_are_of_the_selected_preset no_json of_preset sample_events sample_view); [|exact sample_view_run].
  repeat constructor.
Defined.

Lemma one_write_at_a_time_witness : calls_weight sample_view = (if v_busy sample_view then 1 else 0)%nat.
Proof. apply (one_write_at_a_time no_json sample_events sample_view sample_view_run). Defined.

Lemma saved_content_is_valid_witness : storable (js "a") = true ∧ trim (js "a") = js "a".
Proof.
  apply (saved_content_is_valid no_json sample_events sample_view None (js "a") (js "q") [] sample_view_run).
  vm_compute; repeat constructor.
Defined.
