(* ===== verification/WikiView.v ===== *)
(** * The wiki view

    [projects/game/web/frontend/src/components/WikiView.tsx]: the wikis of the template
    or the hits of a search, page by page; the form that adds or changes one; the
    article that is read; the deletion in two steps.  The last section shows what a
    save sends and what the list shows after it. *)

From S2P Require Import Prelude JsText WebApi Views.

#[local] Open Scope Z_scope.

Definition WIKI_PAGE_SIZE : Z := 20.

Record Wiki : Type := mkWiki { w_name : jstr; w_title : jstr; w_content : jstr }.

#[export] Instance Wiki_eq_dec : EqDecision Wiki.
Proof. solve_decision. Defined.

Inductive FormMode : Type := Closed | Create | Edit (wiki : Wiki).

#[export] Instance FormMode_eq_dec : EqDecision FormMode.
Proof. solve_decision. Defined.

Inductive Then : Type := ThenNothing | ThenSaved (error : option jstr) | ThenDeleted (error : option jstr).

(** The fields of an update: those that were changed. *)
Record WikiUpdate : Type := mkUpdate { u_title : option jstr; u_content : option jstr }.

Inductive Call : Type :=
| ListCall (query token : jstr) (next : Then)
| GetCall (editing : bool) (name : jstr)
| CreateCall (title content query token : jstr)
| UpdateCall (name : jstr) (update : WikiUpdate) (query token : jstr)
| DeleteCall (name : jstr) (detail : option Wiki) (query token : jstr).

#[export] Instance WikiThen_eq_dec : EqDecision Then.
Proof. solve_decision. Defined.
#[export] Instance WikiUpdate_eq_dec : EqDecision WikiUpdate.
Proof. solve_decision. Defined.
#[export] Instance WikiCall_eq_dec : EqDecision Call.
Proof. solve_decision. Defined.

Record View : Type := mkView {
  v_items : list (jstr * jstr);
  v_loading : bool;
  v_busy : bool;
  v_error : option jstr;
  v_query : jstr;
  v_keywordDraft : jstr;
  v_pageTokens : list jstr;
  v_nextToken : jstr;
  v_form : FormMode;
  v_titleDraft : jstr;
  v_contentDraft : jstr;
  v_detail : option Wiki;
  v_deletePending : option jstr;
  v_calls : list Call;
}.

Definition set_list (v : View) items loading error nextToken := mkView items loading (v_busy v) error (v_query v)
  (v_keywordDraft v) (v_pageTokens v) nextToken (v_form v) (v_titleDraft v) (v_contentDraft v) (v_detail v)
  (v_deletePending v) (v_calls v).
Definition set_busy (v : View) busy error := mkView (v_items v) (v_loading v) busy error (v_query v)
  (v_keywordDraft v) (v_pageTokens v) (v_nextToken v) (v_form v) (v_titleDraft v) (v_contentDraft v) (v_detail v)
  (v_deletePending v) (v_calls v).
Definition set_search (v : View) query keywordDraft tokens := mkView (v_items v) (v_loading v) (v_busy v) (v_error v) query
  keywordDraft tokens (v_nextToken v) (v_form v) (v_titleDraft v) (v_contentDraft v) (v_detail v)
  (v_deletePending v) (v_calls v).
Definition set_form (v : View) form title content error := mkView (v_items v) (v_loading v) (v_busy v) error (v_query v)
  (v_keywordDraft v) (v_pageTokens v) (v_nextToken v) form title content (v_detail v) (v_deletePending v) (v_calls v).
Definition set_detail (v : View) detail deletePending error := mkView (v_items v) (v_loading v) (v_busy v) error (v_query v)
  (v_keywordDraft v) (v_pageTokens v) (v_nextToken v) (v_form v) (v_titleDraft v) (v_contentDraft v) detail
  deletePending (v_calls v).
Definition set_calls (v : View) calls := mkView (v_items v) (v_loading v) (v_busy v) (v_error v) (v_query v)
  (v_keywordDraft v) (v_pageTokens v) (v_nextToken v) (v_form v) (v_titleDraft v) (v_contentDraft v) (v_detail v)
  (v_deletePending v) calls.

(** [refresh], of the search and the page its closure has. *)
Definition refresh (query token : jstr) (next : Then) (v : View) : View :=
  set_calls (set_list v (v_items v) true (v_error v) (v_nextToken v)) (v_calls v ++ [ListCall query token next]).
Definition refresh_now (next : Then) (v : View) : View := refresh (v_query v) (current_token (v_pageTokens v)) next v.

Definition continue (next : Then) (v : View) : View :=
  match next with
  | ThenNothing => v
  | ThenSaved error => set_busy v false (match error with Some _ => error | None => v_error v end)
  | ThenDeleted error => set_busy v (v_busy v) (match error with Some _ => error | None => v_error v end)
  end.

(** A page of names and titles lands. *)
Definition list_landed (next : Then) (res : CallFailure + (list (jstr * jstr) * jstr)) (v : View) : View :=
  continue next
    (match res with
     | inr (items, nextPageToken) => set_list v items false None nextPageToken
     | inl e => set_list v (v_items v) false (Some (failure_message e)) (v_nextToken v)
     end).

(** The first render and its effect. *)
Definition initial : View :=
  refresh_now ThenNothing (mkView [] true false None [] [] [[]] [] Closed [] [] None None []).

Definition submitSearch (v : View) : View :=
  refresh_now ThenNothing (set_detail (set_search v (trim (v_keywordDraft v)) (v_keywordDraft v) [[]]) (v_detail v) None None).

Definition goNext (v : View) : View :=
  match v_nextToken v with
  | [] => v
  | token =>
      refresh_now ThenNothing
        (set_detail (set_search v (v_query v) (v_keywordDraft v) (v_pageTokens v ++ [token])) (v_detail v) None (v_error v))
  end.
Definition goPrev (v : View) : View :=
  refresh_now ThenNothing
    (set_detail (set_search v (v_query v) (v_keywordDraft v) (previous_page (v_pageTokens v))) (v_detail v) None (v_error v)).

Definition closeForm (v : View) : View := set_form v Closed (v_titleDraft v) (v_contentDraft v) None.
Definition openCreate (v : View) : View := set_detail (set_form v Create [] [] None) None None None.
Definition openEdit (wiki : Wiki) (v : View) : View :=
  set_detail (set_form v (Edit wiki) (w_title wiki) (w_content wiki) None) None None None.

(** [startEdit] and [openDetail]. *)
Definition get_wiki (editing : bool) (name : jstr) (v : View) : View :=
  set_calls (set_busy v true (v_error v)) (v_calls v ++ [GetCall editing name]).
Definition get_landed (editing : bool) (res : CallFailure + Wiki) (v : View) : View :=
  match res with
  | inr wiki => set_busy (if editing then openEdit wiki v else set_detail v (Some wiki) None None) false None
  | inl e => set_busy v false (Some (failure_message e))
  end.

Definition changes (wiki : Wiki) (title content : jstr) : WikiUpdate :=
  mkUpdate (if bool_decide (title = w_title wiki) then None else Some title)
           (if bool_decide (content = w_content wiki) then None else Some content).

(** [save], up to its call. *)
Definition save (v : View) : View :=
  let title := trim (v_titleDraft v) in
  let token := current_token (v_pageTokens v) in
  let send c := set_calls (set_busy v true (v_error v)) (v_calls v ++ [c]) in
  if bool_decide (title = []) then v
  else
    match v_form v with
    | Closed => v
    | Create => send (CreateCall title (v_contentDraft v) (v_query v) token)
    | Edit wiki =>
        match changes wiki title (v_contentDraft v) with
        | mkUpdate None None => closeForm v
        | update => send (UpdateCall (w_name wiki) update (v_query v) token)
        end
    end.

Section Titles.
Context (nfkc lower : jstr → jstr).

(** Whether the list shows a title under a search. *)
Definition matches (query title : jstr) : bool :=
  bool_decide (query = []) || includes (web_normalizeWikiTitle nfkc lower title) (web_normalizeWikiTitle nfkc lower query).

(** The rest of [save], after a create and after an update. *)
Definition create_landed (query token : jstr) (res : CallFailure + Wiki) (v : View) : View :=
  match res with
  | inl e => set_busy v false (Some (failure_message e))
  | inr created =>
      let v := closeForm v in
      if matches query (w_title created) then refresh query token (ThenSaved None) v
      else refresh_now ThenNothing (set_busy (set_search v [] [] [[]]) false (v_error v))
  end.
End Titles.

Definition update_landed (query token : jstr) (res : option CallFailure) (v : View) : View :=
  match res with
  | None => refresh query token (ThenSaved None) (closeForm v)
  | Some e =>
      if is_404 e then
        refresh query token (ThenSaved (Some (failure_message e)))
          (set_form v Closed (v_titleDraft v) (v_contentDraft v) (v_error v))
      else set_busy v false (Some (failure_message e))
  end.

(** [confirmDelete]. *)
Definition confirmDelete (name : jstr) (v : View) : View :=
  set_calls (set_busy v true (v_error v))
    (v_calls v ++ [DeleteCall name (v_detail v) (v_query v) (current_token (v_pageTokens v))]).
Definition delete_landed (name : jstr) (detail : option Wiki) (query token : jstr) (res : option CallFailure) (v : View) : View :=
  refresh query token (ThenDeleted (failure_message <$> res))
    (set_busy (set_detail v (if bool_decide (w_name <$> detail = Some name) then None else v_detail v) None (v_error v))
       false (v_error v)).

(** ** What a save sends and shows *)

(** A save of the wiki view sends exactly the fields that were changed, and nothing
    when none was. *)
Lemma wiki_save_sends_changes (v : View) (wiki : Wiki) :
  v_form v = Edit wiki → trim (v_titleDraft v) ≠ [] →
  let update := changes wiki (trim (v_titleDraft v)) (v_contentDraft v) in
  v_calls (save v)
  = v_calls v ++
    match update with
    | mkUpdate None None => []
    | _ => [UpdateCall (w_name wiki) update (v_query v) (current_token (v_pageTokens v))]
    end.
Proof.
  intros Hf Ht update; unfold save; rewrite (bool_decide_false _ Ht), Hf; fold update.
  destruct update as [[title|] [content|]]; simpl; rewrite ?app_nil_r; done.
Qed.

(** After a create the list that is asked for shows the new title. *)
Lemma created_wiki_is_listed nfkc lower query token created v :
  ∃ q t next, last (v_calls (create_landed nfkc lower query token (inr created) v)) = Some (ListCall q t next) ∧
    matches nfkc lower q (w_title created) = true.
Proof.
  unfold create_landed; destruct (matches nfkc lower query (w_title created)) eqn:Hm;
    simpl; rewrite last_snoc; eauto.
Qed.

(** The list has no guard: a page asked for before a search and landed
    after its hits takes their place. *)
Lemma late_list_replaces_the_search :
  let v := submitSearch (set_search initial [] (js "b") [[]]) in
  let v := list_landed ThenNothing (inr ([(js "2", js "b")], [])) v in
  let v := list_landed ThenNothing (inr ([(js "1", js "a"); (js "2", js "b")], [])) v in
  (v_query v, v_items v) = (js "b", [(js "1", js "a"); (js "2", js "b")]).
Proof. vm_compute; reflexivity. Qed.
