(* ===== verification/PresetsView.v ===== *)
(** * The preset view

    [projects/game/web/frontend/src/components/PresetsView.tsx]: the presets of a role
    or of all, the form that adds or changes one, the deletion in two steps.  The last
    section shows that the form never edits a preset that has gone. *)

From S2P Require Import Prelude JsText Panel Views.

#[local] Open Scope Z_scope.

Record Preset : Type := mkPreset { p_name : jstr; p_role : jstr; p_persona : option jstr }.

#[export] Instance Preset_eq_dec : EqDecision Preset.
Proof. solve_decision. Defined.

Inductive FormMode : Type := Closed | Create | Edit (preset : Preset).
Inductive Then : Type := ThenNothing | ThenSaved.

Inductive Call : Type :=
| ListCall (role : jstr) (next : Then)
| CreateCall (presetId persona role roleFilter : jstr)
| UpdateCall (name persona roleFilter : jstr)
| DeleteCall (name roleFilter : jstr).

#[export] Instance PresetThen_eq_dec : EqDecision Then.
Proof. solve_decision. Defined.
#[export] Instance PresetCall_eq_dec : EqDecision Call.
Proof. solve_decision. Defined.

Record View : Type := mkView {
  v_presets : list Preset;
  v_loading : bool;
  v_error : option jstr;
  v_form : FormMode;
  v_nameDraft : jstr;
  v_promptDraft : jstr;
  v_roleDraft : jstr;
  v_roleFilter : jstr;
  v_deletePending : option jstr;
  v_saving : bool;
  v_calls : list Call;
}.

Definition set_list (v : View) presets loading error := mkView presets loading error (v_form v) (v_nameDraft v)
  (v_promptDraft v) (v_roleDraft v) (v_roleFilter v) (v_deletePending v) (v_saving v) (v_calls v).
Definition set_form (v : View) form name prompt role pending error := mkView (v_presets v) (v_loading v) error form name prompt role
  (v_roleFilter v) pending (v_saving v) (v_calls v).
Definition set_filter (v : View) role := mkView (v_presets v) (v_loading v) (v_error v) (v_form v) (v_nameDraft v)
  (v_promptDraft v) (v_roleDraft v) role (v_deletePending v) (v_saving v) (v_calls v).
Definition set_pending (v : View) pending := mkView (v_presets v) (v_loading v) (v_error v) (v_form v) (v_nameDraft v)
  (v_promptDraft v) (v_roleDraft v) (v_roleFilter v) pending (v_saving v) (v_calls v).
Definition set_saving (v : View) saving error := mkView (v_presets v) (v_loading v) error (v_form v) (v_nameDraft v)
  (v_promptDraft v) (v_roleDraft v) (v_roleFilter v) (v_deletePending v) saving (v_calls v).
Definition set_calls (v : View) calls := mkView (v_presets v) (v_loading v) (v_error v) (v_form v) (v_nameDraft v)
  (v_promptDraft v) (v_roleDraft v) (v_roleFilter v) (v_deletePending v) (v_saving v) calls.

Definition refresh (role : jstr) (next : Then) (v : View) : View :=
  set_calls (set_list v (v_presets v) true (v_error v)) (v_calls v ++ [ListCall role next]).

Definition closeForm (v : View) : View :=
  set_form v Closed (v_nameDraft v) (v_promptDraft v) (v_roleDraft v) (v_deletePending v) None.

(** The effect that closes the form of a preset that is no longer listed. *)
Definition drop_stale_form (v : View) : View :=
  match v_form v with
  | Edit preset => if bool_decide (p_name preset ∈ p_name <$> v_presets v) then v else closeForm v
  | _ => v
  end.

Definition list_landed (next : Then) (res : CallFailure + list Preset) (v : View) : View :=
  let v :=
    drop_stale_form
      (match res with
       | inr presets => set_list v presets false None
       | inl e => set_list v (v_presets v) false (Some (failure_message e))
       end) in
  match next with ThenNothing => v | ThenSaved => set_saving v false (v_error v) end.

(** The first render and its effect. *)
Definition initial : View := refresh [] ThenNothing (mkView [] true None Closed [] [] [] [] None false []).

(** The select of the filter, whose effect lists again. *)
Definition setRoleFilter (role : jstr) (v : View) : View := refresh role ThenNothing (set_filter v role).

Definition openCreate (v : View) : View := set_form v Create [] [] (v_roleFilter v) None None.
Definition openEdit (preset : Preset) (v : View) : View :=
  set_form v (Edit preset) (last_segment (p_name preset)) (default [] (p_persona preset)) (v_roleDraft v) None None.

(** [save], up to its call. *)
Definition save (v : View) : View :=
  let presetId := trim (v_nameDraft v) in
  let send c := set_calls (set_saving v true (v_error v)) (v_calls v ++ [c]) in
  if bool_decide (presetId = []) then v
  else
    match v_form v with
    | Closed => v
    | Create =>
        if bool_decide (v_roleDraft v = []) then v
        else send (CreateCall presetId (v_promptDraft v) (v_roleDraft v) (v_roleFilter v))
    | Edit preset => send (UpdateCall (p_name preset) (v_promptDraft v) (v_roleFilter v))
    end.

(** The rest of [save]: after a create, the list that shows the new preset. *)
Definition create_landed (role roleFilter : jstr) (res : option CallFailure) (v : View) : View :=
  match res with
  | Some e => set_saving v false (Some (failure_message e))
  | None =>
      let v := closeForm v in
      if bool_decide (roleFilter ≠ []) && bool_decide (roleFilter ≠ role)
      then setRoleFilter role (set_saving v false (v_error v))
      else refresh roleFilter ThenSaved v
  end.
Definition update_landed (roleFilter : jstr) (res : option CallFailure) (v : View) : View :=
  match res with
  | Some e => set_saving v false (Some (failure_message e))
  | None => refresh roleFilter ThenSaved (closeForm v)
  end.

Definition confirmDelete (name : jstr) (v : View) : View :=
  set_calls (set_saving v true (v_error v)) (v_calls v ++ [DeleteCall name (v_roleFilter v)]).
Definition delete_landed (roleFilter : jstr) (res : option CallFailure) (v : View) : View :=
  match res with
  | Some e => set_saving v false (Some (failure_message e))
  | None => refresh roleFilter ThenSaved (set_pending v None)
  end.

Inductive Event : Type :=
| ClickRefresh
| SetFilter (role : jstr)
| ClickCreate
| ClickEdit (preset : Preset)
| ClickCancel
| TypeName (text : jstr)
| TypePrompt (text : jstr)
| ChooseRole (role : jstr)
| ClickSave
| ClickDelete (name : jstr)
| CancelDelete
| ClickConfirm (name : jstr)
| ListLanded (role : jstr) (next : Then) (res : CallFailure + list Preset)
| CreateLanded (presetId persona role roleFilter : jstr) (res : option CallFailure)
| UpdateLanded (name persona roleFilter : jstr) (res : option CallFailure)
| DeleteLanded (name roleFilter : jstr) (res : option CallFailure).

Definition when (enabled : bool) (v : View) : option View := if enabled then Some v else None.
Definition landed (c : Call) (f : View → View) (v : View) : option View :=
  if bool_decide (c ∈ v_calls v) then Some (f (set_calls v (remove_first c (v_calls v)))) else None.

(** The list and its buttons are not rendered while a form is open. *)
Definition step (ev : Event) (v : View) : option View :=
  let closed := match v_form v with Closed => true | _ => false end in
  let type name prompt role := set_form v (v_form v) name prompt role (v_deletePending v) (v_error v) in
  match ev with
  | ClickRefresh => when (negb (v_loading v)) (refresh (v_roleFilter v) ThenNothing v)
  | SetFilter role => when closed (setRoleFilter role v)
  | ClickCreate => when closed (openCreate v)
  | ClickEdit preset => when (closed && negb (v_saving v) && bool_decide (preset ∈ v_presets v)) (openEdit preset v)
  | ClickCancel => when (negb closed && negb (v_saving v)) (closeForm v)
  | TypeName text => when (negb closed) (type text (v_promptDraft v) (v_roleDraft v))
  | TypePrompt text => when (negb closed) (type (v_nameDraft v) text (v_roleDraft v))
  | ChooseRole role => when (negb closed) (type (v_nameDraft v) (v_promptDraft v) role)
  | ClickSave => when (negb closed && negb (v_saving v)) (save v)
  | ClickDelete name => when (closed && negb (v_saving v)) (set_pending v (Some name))
  | CancelDelete => when (closed && negb (v_saving v)) (set_pending v None)
  | ClickConfirm name =>
      when (closed && negb (v_saving v) && bool_decide (v_deletePending v = Some name)) (confirmDelete name v)
  | ListLanded role next res => landed (ListCall role next) (list_landed next res) v
  | CreateLanded presetId persona role roleFilter res =>
      landed (CreateCall presetId persona role roleFilter) (create_landed role roleFilter res) v
  | UpdateLanded name persona roleFilter res => landed (UpdateCall name persona roleFilter) (update_landed roleFilter res) v
  | DeleteLanded name roleFilter res => landed (DeleteCall name roleFilter) (delete_landed roleFilter res) v
  end.

Definition run (evs : list Event) (v : View) : option View := foldM (λ v ev, step ev v) v evs.

(** ** The form *)

(** A preset being edited is one of the list. *)
Definition form_listed (v : View) : Prop :=
  match v_form v with
  | Edit preset => p_name preset ∈ p_name <$> v_presets v
  | _ => True
  end.

Lemma form_listed_frame v v' :
  v_form v' = v_form v → v_presets v' = v_presets v →
  form_listed v → form_listed v'.
Proof. unfold form_listed; by intros -> ->. Qed.

Lemma drop_stale_form_listed v : form_listed (drop_stale_form v).
Proof.
  unfold drop_stale_form; destruct (v_form v) as [| |preset] eqn:Hf; unfold form_listed.
  - by rewrite Hf.
  - by rewrite Hf.
  - case_bool_decide as Hin; [by rewrite Hf|done].
Qed.

Lemma preset_step_listed ev v v' : form_listed v → step ev v = Some v' → form_listed v'.
Proof.
  unfold step, when, landed; intros Hv.
  destruct ev; simpl; (case_match eqn:Hg || idtac); try discriminate; intros [= <-]; try done;
    try (revert Hv; by apply form_listed_frame).
  - apply andb_true_iff in Hg as [_ Hin%bool_decide_eq_true]; unfold form_listed; simpl; by apply list_elem_of_fmap_2.
  - unfold save; repeat case_match; revert Hv; by apply form_listed_frame.
  - unfold list_landed; destruct next; [apply drop_stale_form_listed|].
    eapply form_listed_frame; [..|apply drop_stale_form_listed]; done.
  - unfold create_landed; repeat case_match; done || (revert Hv; by apply form_listed_frame).
  - unfold update_landed; repeat case_match; done || (revert Hv; by apply form_listed_frame).
  - unfold delete_landed; repeat case_match; revert Hv; by apply form_listed_frame.
Qed.

(** The form of the preset view never edits a preset that is gone from the list. *)
Lemma edited_preset_is_listed (evs : list Event) (v : View) :
  run evs initial = Some v → form_listed v.
Proof.
  unfold run; assert (H0 : form_listed initial) by done.
  revert H0; generalize initial; induction evs as [|ev evs IH]; intros w Hw; simpl; [by intros [= <-]|].
  destruct (step ev w) as [w'|] eqn:Hstep; simpl; [|done]; eauto using preset_step_listed.
Qed.

(** The list has no guard against a late response: the presets of one role stay under the filter
    of another. *)
Lemma presets_of_another_role :
  (λ v, (v_roleFilter v, p_role <$> v_presets v, v_loading v)) <$>
    run [SetFilter (js "player"); SetFilter (js "planner");
                     ListLanded (js "planner") ThenNothing (inr []);
                     ListLanded (js "player") ThenNothing (inr [mkPreset [] (js "player") None])]
      initial
  = Some (js "planner", [js "player"], false).
Proof. vm_compute; reflexivity. Qed.
