(* ===== verification/Bootstrap.v ===== *)
(** * The bootstrap of a service

    [common/js/bootstrap/src/bootstrap.ts] with [component.ts] and [signal.ts]: the
    registration of components, and [run] — components started one after the other,
    then the health endpoint, then the wait for a reason to exit, then everything
    stopped in reverse within one budget.

    [run] is cut at its [await]s: the state says what it waits for, and an operation is
    the answer of what it waits for, or something that happens meanwhile — a signal, the
    death of a component, the end of the budget.  The calls made so far are kept as a
    log. *)

From stdpp Require Import sorting.
From S2P Require Import Prelude JsText JsJson.

#[local] Open Scope Z_scope.

(** ** Components *)

(** component.ts [Stage]. *)
Definition Foundation : Z := 100.
Definition Client : Z := 200.
Definition Daemon_stage : Z := 250.
Definition Server : Z := 300.

(** [cp_exits]: the component has [exited]. *)
Record Component : Type := mkComponent { cp_name : jstr; cp_stage : Z; cp_exits : bool }.

#[export] Instance Component_eq_dec : EqDecision Component.
Proof. solve_decision. Defined.

(** An [Error] the orchestrator makes: its kind, and the message that is wrapped. *)
Inductive BootError : Type :=
| FailedToStart (name : jstr) (detail : jstr)
| HealthFailedToStart (detail : jstr)
| ExitedUnexpectedly (name : jstr) (detail : jstr)
| StopFailed (name : jstr) (detail : jstr)
| StopTimedOut (name : jstr).

#[export] Instance BootError_eq_dec : EqDecision BootError.
Proof. solve_decision. Defined.

(** What [run] comes to: it resolves, or throws an [AggregateError]. *)
Inductive Outcome : Type := Resolved | Threw (errors : list BootError).

(** ** register *)

Record Registry : Type := mkRegistry { rg_components : list Component; rg_runStarted : bool }.

Inductive RegisterError : Type := AfterRun (name : jstr) | Duplicate (name : jstr).

Definition register (c : Component) (r : Registry) : RegisterError + Registry :=
  if rg_runStarted r then inl (AfterRun (cp_name c))
  else if existsb (λ e, bool_decide (cp_name e = cp_name c)) (rg_components r) then inl (Duplicate (cp_name c))
  else inr (mkRegistry (rg_components r ++ [c]) false).

(** The comparator of [sort]: [a] is not after [b]. *)
Definition not_after (a b : Component) : bool :=
  if cp_stage a =? cp_stage b then jle (cp_name a) (cp_name b) else cp_stage a <? cp_stage b.

Fixpoint insert_component (c : Component) (l : list Component) : list Component :=
  match l with
  | [] => [c]
  | d :: l => if not_after c d then c :: d :: l else d :: insert_component c l
  end.
Definition sorted (components : list Component) : list Component := foldr insert_component [] components.

(** ** run *)

(** The calls of [run], in order. *)
Inductive Logged : Type :=
| CallStart (name : jstr)
| CallHealthStart
| CallStop (name : jstr).

Definition health_name : jstr := js "health".

(** What [run] waits for; [started] is in the order of the starts. *)
Inductive Phase : Type :=
| Starting (current : Component) (rest : list Component)
| HealthStarting
| Waiting
| Stopping (target : jstr) (rest : list jstr) (errors cause : list BootError)
| Settled (outcome : Outcome).

Record Run : Type := mkRun {
  rn_phase : Phase;
  rn_started : list Component;
  rn_aborted : bool;
  rn_deaths : list (jstr * option jstr);
  rn_log : list Logged;
  rn_health : bool;
  rn_listeners : bool;
}.

Definition set_phase (r : Run) p := mkRun p (rn_started r) (rn_aborted r) (rn_deaths r) (rn_log r) (rn_health r) (rn_listeners r).
Definition log (r : Run) l := mkRun (rn_phase r) (rn_started r) (rn_aborted r) (rn_deaths r) (rn_log r ++ [l]) (rn_health r) (rn_listeners r).

(** The [finally] of [run]: the listeners go, and the health handle. *)
Definition settle (o : Outcome) (r : Run) : Run :=
  mkRun (Settled o) (rn_started r) (rn_aborted r) (rn_deaths r) (rn_log r) false false.

(** [stopWithinBudget] has gone through its targets. *)
Definition stopped (errors cause : list BootError) (r : Run) : Run :=
  match cause, errors with
  | [], [] => settle Resolved r
  | _, _ => settle (Threw (cause ++ errors)) r
  end.

(** [stopWithinBudget]: the next target is asked to stop. *)
Definition stop_next (targets : list jstr) (errors cause : list BootError) (r : Run) : Run :=
  match targets with
  | [] => stopped errors cause r
  | t :: rest => log (set_phase r (Stopping t rest errors cause)) (CallStop t)
  end.

(** The targets of a rollback and of a shutdown. *)
Definition rollback_targets (r : Run) : list jstr := reverse (cp_name <$> rn_started r).
Definition shutdown_targets (r : Run) : list jstr := health_name :: rollback_targets r.

(** Step 3: the race.  A component that has died with an error wins over a signal. *)
Definition first_death (r : Run) : option BootError :=
  head (omap (λ c, if cp_exits c then
                     match List.find (λ d, bool_decide (d.1 = cp_name c)) (rn_deaths r) with
                     | Some (name, Some detail) => Some (ExitedUnexpectedly name detail)
                     | _ => None
                     end
                   else None) (rn_started r)).
Definition race (r : Run) : Run :=
  match first_death r with
  | Some cause => stop_next (shutdown_targets r) [] [cause] r
  | None => if rn_aborted r then stop_next (shutdown_targets r) [] [] r else set_phase r Waiting
  end.

(** Steps 1 and 2: the next start. *)
Definition start_next (rest : list Component) (r : Run) : Run :=
  match rest with
  | c :: rest => log (set_phase r (Starting c rest)) (CallStart (cp_name c))
  | [] => log (set_phase r HealthStarting) CallHealthStart
  end.

(** The call of [run]. *)
Definition run_begin (components : list Component) (aborted : bool) : Run :=
  start_next (sorted components) (mkRun Waiting [] aborted [] [] false true).

Inductive Event : Type :=
| StartAnswer (res : option jstr)
| HealthAnswer (res : option jstr)
| Abort
| Exited (name : jstr) (error : option jstr)
| StopAnswer (res : option jstr)
| BudgetExpired.

#[export] Instance Event_eq_dec : EqDecision Event.
Proof. solve_decision. Defined.

(** Every remaining target is asked to stop and recorded as failed. *)
Definition expire (t : jstr) (rest : list jstr) (errors cause : list BootError) (r : Run) : Run :=
  stopped (errors ++ (StopTimedOut <$> t :: rest)) cause
    (mkRun (rn_phase r) (rn_started r) (rn_aborted r) (rn_deaths r) (rn_log r ++ (CallStop <$> rest)) (rn_health r) (rn_listeners r)).

Definition run_step (ev : Event) (r : Run) : option Run :=
  match ev, rn_phase r with
  | StartAnswer None, Starting c rest =>
      Some (start_next rest
        (mkRun (rn_phase r) (rn_started r ++ [c]) (rn_aborted r) (rn_deaths r) (rn_log r) (rn_health r) (rn_listeners r)))
  | StartAnswer (Some detail), Starting c rest =>
      Some (stop_next (rollback_targets r) [] [FailedToStart (cp_name c) detail] r)
  | HealthAnswer None, HealthStarting =>
      Some (race (mkRun (rn_phase r) (rn_started r) (rn_aborted r) (rn_deaths r) (rn_log r) true (rn_listeners r)))
  | HealthAnswer (Some detail), HealthStarting =>
      Some (stop_next (rollback_targets r) [] [HealthFailedToStart detail] r)
  | Abort, Waiting =>
      Some (stop_next (shutdown_targets r) [] []
        (mkRun (rn_phase r) (rn_started r) true (rn_deaths r) (rn_log r) (rn_health r) (rn_listeners r)))
  | Abort, Settled _ => None
  | Abort, _ => Some (mkRun (rn_phase r) (rn_started r) true (rn_deaths r) (rn_log r) (rn_health r) (rn_listeners r))
  | Exited name error, Settled _ => None
  | Exited name error, phase =>
      (* A promise settles once. *)
      if existsb (λ d, bool_decide (d.1 = name)) (rn_deaths r) then None
      else
        let r := mkRun phase (rn_started r) (rn_aborted r) (rn_deaths r ++ [(name, error)]) (rn_log r) (rn_health r) (rn_listeners r) in
        Some (match phase with Waiting => race r | _ => r end)
  | StopAnswer res, Stopping t rest errors cause =>
      Some (stop_next rest (errors ++ match res with Some detail => [StopFailed t detail] | None => [] end) cause r)
  | BudgetExpired, Stopping t rest errors cause => Some (expire t rest errors cause r)
  | _, _ => None
  end.

Definition run_events (evs : list Event) (r : Run) : option Run := foldM (λ r ev, run_step ev r) r evs.

(** ** What the bootstrap of a service guarantees

    Components start in the order of their stages and names, one at a time; whatever
    happens — a start that fails, a signal, a component that dies, a budget that runs
    out — what was started, and only that, is asked to stop, exactly once and in
    reverse, the health endpoint first ([everything_started_is_stopped_in_reverse]); a
    run resolves only when nothing failed ([resolves_only_when_clean]); and it does not
    go on forever ([run_answers_bounded]). *)

(** ** The order of the starts *)

Lemma not_after_total a b : not_after a b = true ∨ not_after b a = true.
Proof.
  unfold not_after; destruct (Z.eqb_spec (cp_stage a) (cp_stage b)) as [->|Hne].
  - rewrite Z.eqb_refl; apply jle_total.
  - replace (cp_stage b =? cp_stage a) with false by (symmetry; apply Z.eqb_neq; congruence).
    rewrite !Z.ltb_lt; lia.
Qed.

Lemma not_after_trans a b c : not_after a b = true → not_after b c = true → not_after a c = true.
Proof.
  unfold not_after; repeat case_match; rewrite ?Z.eqb_eq, ?Z.eqb_neq, ?Z.ltb_lt in *; try lia.
  apply jle_trans.
Qed.

Definition before (a b : Component) : Prop := not_after a b = true.

Lemma insert_component_perm c l : insert_component c l ≡ₚ c :: l.
Proof. induction l as [|d l IH]; simpl; [done|]; case_match; [done|]; rewrite IH; constructor. Qed.

Lemma insert_component_sorted c l : StronglySorted before l → StronglySorted before (insert_component c l).
Proof.
  induction 1 as [|d l Hl IH Hd]; simpl; [repeat constructor|]; destruct (not_after c d) eqn:Hcd.
  - constructor; [by constructor|]; constructor; [done|].
    eapply Forall_impl; [exact Hd|]; intros e He; by eapply not_after_trans.
  - constructor; [done|]; rewrite insert_component_perm; constructor; [|done].
    destruct (not_after_total c d) as [H|H]; [congruence|done].
Qed.

Lemma sorted_perm l : sorted l ≡ₚ l.
Proof. induction l as [|c l IH]; simpl; [done|]; by rewrite insert_component_perm, IH. Qed.
Lemma sorted_sorted l : StronglySorted before (sorted l).
Proof. induction l as [|c l IH]; simpl; [constructor|]; by apply insert_component_sorted. Qed.

(** ** What the events of a run call for *)

Definition starts (cs : list Component) : list Logged := (λ c, CallStart (cp_name c)) <$> cs.
Definition stops (names : list jstr) : list Logged := CallStop <$> names.

(** How many components came up, which, and what the targets answered that were asked
    to stop. *)
Definition started_ok (evs : list Event) : nat := length (filter (λ ev, ev = StartAnswer None) evs).
Definition up (order : list Component) (evs : list Event) : list Component := take (started_ok evs) order.
Definition stop_answers (evs : list Event) : list (option jstr) :=
  omap (λ ev, match ev with StopAnswer res => Some res | _ => None end) evs.

(** The starts: up to the first that failed, and the health endpoint after all. *)
Definition start_calls (order : list Component) (evs : list Event) : list Logged :=
  starts (take (S (started_ok evs)) order) ++
  (if bool_decide (started_ok evs = length order) then [CallHealthStart] else []).

(** What came up, in reverse: the health endpoint first. *)
Definition to_stop (order : list Component) (evs : list Event) : list jstr :=
  (if bool_decide (HealthAnswer None ∈ evs) then [health_name] else []) ++ reverse (cp_name <$> up order evs).

(** An error for each target that answered one, and for each that did not answer. *)
Definition answered_errors (targets : list jstr) (answers : list (option jstr)) : list BootError :=
  concat (zip_with (λ t res, match res with Some detail => [StopFailed t detail] | None => [] end) targets answers).
Definition stop_failures (targets : list jstr) (answers : list (option jstr)) : list BootError :=
  answered_errors targets answers ++ (StopTimedOut <$> drop (length answers) targets).

(** Every target answered, or the budget ran out. *)
Definition all_answered (order : list Component) (evs : list Event) : Prop :=
  length (stop_answers evs) = length (to_stop order evs) ∨
  BudgetExpired ∈ evs ∧ (length (stop_answers evs) < length (to_stop order evs))%nat.

(** No component exited with an error while the run had still to come up, or waited
    for a signal. *)
Definition none_died (order : list Component) (aborted : bool) (evs : list Event) : Prop :=
  ∀ before after c detail, evs = before ++ after →
    HealthAnswer None ∈ after ∨ (aborted = false ∧ Abort ∉ before) →
    c ∈ order → cp_exits c = true → Exited (cp_name c) (Some detail) ∉ before.

(** Why a run stops: a start that failed, the health endpoint's, a component that died
    or a signal. *)
Inductive Cause (order : list Component) (aborted : bool) (evs : list Event) : list BootError → Prop :=
| StartFailed c detail :
    order !! started_ok evs = Some c → StartAnswer (Some detail) ∈ evs → HealthAnswer None ∉ evs →
    Cause order aborted evs [FailedToStart (cp_name c) detail]
| HealthFailed detail :
    started_ok evs = length order → HealthAnswer (Some detail) ∈ evs → HealthAnswer None ∉ evs →
    Cause order aborted evs [HealthFailedToStart detail]
| Died c detail :
    started_ok evs = length order → HealthAnswer None ∈ evs →
    c ∈ order → cp_exits c = true → Exited (cp_name c) (Some detail) ∈ evs →
    Cause order aborted evs [ExitedUnexpectedly (cp_name c) detail]
| Signalled :
    started_ok evs = length order → HealthAnswer None ∈ evs → aborted = true ∨ Abort ∈ evs →
    none_died order aborted evs → Cause order aborted evs [].

Lemma started_ok_snoc evs ev : ev ≠ StartAnswer None → started_ok (evs ++ [ev]) = started_ok evs.
Proof. intros Hev; unfold started_ok; rewrite filter_app, filter_cons_False by done; simpl; by rewrite app_nil_r. Qed.

Lemma started_ok_started evs : started_ok (evs ++ [StartAnswer None]) = S (started_ok evs).
Proof. unfold started_ok; rewrite filter_app, filter_cons_True, length_app by done; simpl; lia. Qed.

Lemma start_calls_next order evs s c rest :
  order = s ++ c :: rest → length s = started_ok evs → start_calls order evs = starts (s ++ [c]).
Proof.
  intros -> Hs; unfold start_calls; rewrite <- Hs, bool_decide_eq_false_2 by (rewrite length_app; simpl; lia).
  rewrite app_nil_r; do 2 f_equal; replace (s ++ c :: rest) with ((s ++ [c]) ++ rest) by (by rewrite <- app_assoc).
  apply take_app_length'; rewrite length_app; simpl; lia.
Qed.

Lemma start_calls_all order evs : started_ok evs = length order → start_calls order evs = starts order ++ [CallHealthStart].
Proof. intros Hs; unfold start_calls; rewrite bool_decide_eq_true_2, take_ge by (done || lia); done. Qed.

Lemma up_all order evs : started_ok evs = length order → up order evs = order.
Proof. intros Hs; unfold up; by rewrite take_ge by lia. Qed.

Lemma stop_answers_snoc evs ev :
  stop_answers (evs ++ [ev]) = stop_answers evs ++ match ev with StopAnswer res => [res] | _ => [] end.
Proof. unfold stop_answers; rewrite omap_app; by destruct ev. Qed.

Lemma answered_errors_snoc gone t answers res :
  length gone = length answers →
  answered_errors (gone ++ [t]) (answers ++ [res]) =
  answered_errors gone answers ++ match res with Some detail => [StopFailed t detail] | None => [] end.
Proof. intros Hl; unfold answered_errors; rewrite zip_with_app, concat_app by done; simpl; by rewrite app_nil_r. Qed.

Lemma stop_failures_split gone more answers :
  length gone = length answers → stop_failures (gone ++ more) answers = answered_errors gone answers ++ (StopTimedOut <$> more).
Proof.
  intros Hl; unfold stop_failures, answered_errors; rewrite drop_app_length' by done.
  rewrite <- (app_nil_r answers) at 1; rewrite zip_with_app by done; by rewrite zip_with_nil_r, app_nil_r.
Qed.

(** No failure: every target answered, and none with an error. *)
Lemma stop_failures_nil targets answers :
  (length answers ≤ length targets)%nat → stop_failures targets answers = [] → answers = replicate (length targets) None.
Proof.
  intros Hl; unfold stop_failures; intros [Ha Hd]%app_nil; apply fmap_nil_inv in Hd.
  assert (Hlen : length answers = length targets)
    by (apply (f_equal length) in Hd; rewrite length_drop in Hd; simpl in Hd; lia).
  clear Hl Hd; revert targets Ha Hlen; induction answers as [|res answers IH]; intros [|t targets] Ha Hlen; try done.
  unfold answered_errors in Ha; simpl in Ha; apply app_nil in Ha as [Hres Ha]; destruct res; [done|].
  simpl; f_equal; apply IH; [done|]; by injection Hlen.
Qed.

(** ** The state of a run after its events *)

(** What [run] noted. *)
Record noted (order : list Component) (aborted : bool) (evs : list Event) (r : Run) : Prop := {
  nt_started : rn_started r = up order evs;
  nt_bound : (started_ok evs ≤ length order)%nat;
  nt_aborted : rn_aborted r = true ↔ aborted = true ∨ Abort ∈ evs;
  nt_deaths name error : (name, error) ∈ rn_deaths r ↔ Exited name error ∈ evs;
  nt_names : NoDup (rn_deaths r).*1;
}.

(** The calls a phase comes with, and the errors so far. *)
Definition phase_ok (order : list Component) (aborted : bool) (evs : list Event) (r : Run) : Prop :=
  match rn_phase r with
  | Starting c rest =>
      order = rn_started r ++ c :: rest ∧ HealthAnswer None ∉ evs ∧ stop_answers evs = [] ∧ rn_log r = start_calls order evs
  | HealthStarting =>
      started_ok evs = length order ∧ HealthAnswer None ∉ evs ∧ stop_answers evs = [] ∧ rn_log r = start_calls order evs
  | Waiting =>
      started_ok evs = length order ∧ HealthAnswer None ∈ evs ∧ stop_answers evs = [] ∧ rn_log r = start_calls order evs ∧
      first_death r = None ∧ rn_aborted r = false
  | Stopping t rest errors cause =>
      ∃ gone, to_stop order evs = gone ++ t :: rest ∧ length gone = length (stop_answers evs) ∧
        errors = answered_errors gone (stop_answers evs) ∧ rn_log r = start_calls order evs ++ stops (gone ++ [t]) ∧
        Cause order aborted evs cause
  | Settled o =>
      ∃ cause, Cause order aborted evs cause ∧ rn_log r = start_calls order evs ++ stops (to_stop order evs) ∧
        all_answered order evs ∧
        let errors := cause ++ stop_failures (to_stop order evs) (stop_answers evs) in
        o = match errors with [] => Resolved | _ => Threw errors end
  end.

Definition trace_ok order aborted evs r : Prop := noted order aborted evs r ∧ phase_ok order aborted evs r.

(** Changes of phase, log and handles leave what was noted. *)
Definition same_notes (r r' : Run) : Prop :=
  rn_started r = rn_started r' ∧ rn_aborted r = rn_aborted r' ∧ rn_deaths r = rn_deaths r'.

Lemma noted_same order aborted evs r r' : same_notes r r' → noted order aborted evs r → noted order aborted evs r'.
Proof. intros (E1 & E2 & E3) [N1 N2 N3 N4 N5]; split; by rewrite <-?E1, <-?E2, <-?E3. Qed.

Lemma stopped_notes errors cause r : same_notes r (stopped errors cause r).
Proof. unfold stopped; by repeat case_match. Qed.

Lemma stop_next_notes targets errors cause r : same_notes r (stop_next targets errors cause r).
Proof. destruct targets; [apply stopped_notes|done]. Qed.

Lemma race_notes r : same_notes r (race r).
Proof. unfold race; repeat case_match; (apply stop_next_notes || done). Qed.

Lemma start_next_notes rest r : same_notes r (start_next rest r).
Proof. by destruct rest. Qed.

(** An event that starts, aborts or kills nothing. *)
Definition plain (ev : Event) : bool :=
  match ev with StartAnswer None | Abort | Exited _ _ => false | _ => true end.

Lemma noted_plain order aborted evs ev r : plain ev = true → noted order aborted evs r → noted order aborted (evs ++ [ev]) r.
Proof.
  intros Hev [N1 N2 N3 N4 N5].
  assert (ev ≠ StartAnswer None ∧ ev ≠ Abort ∧ ∀ name error, ev ≠ Exited name error) as (E1 & E2 & E3) by (by destruct ev as [[]| | | | |]).
  split; unfold up; rewrite ?started_ok_snoc by done; [done..| | |done].
  - rewrite N3, elem_of_app, list_elem_of_singleton; naive_solver.
  - intros name error; rewrite N4, elem_of_app, list_elem_of_singleton; naive_solver.
Qed.

Lemma noted_started order aborted evs r c rest :
  order = rn_started r ++ c :: rest → noted order aborted evs r →
  noted order aborted (evs ++ [StartAnswer None])
    (mkRun (rn_phase r) (rn_started r ++ [c]) (rn_aborted r) (rn_deaths r) (rn_log r) (rn_health r) (rn_listeners r)).
Proof.
  intros Ho [N1 N2 N3 N4 N5].
  assert (Hl : length (rn_started r) = started_ok evs) by (rewrite N1; unfold up; rewrite length_take; lia).
  split; simpl; rewrite ?started_ok_started; [| | | |done].
  - unfold up; rewrite started_ok_started, Ho; replace (rn_started r ++ c :: rest) with ((rn_started r ++ [c]) ++ rest)
      by (by rewrite <- app_assoc); symmetry; apply take_app_length'; rewrite length_app; simpl; lia.
  - rewrite Ho, length_app; simpl; lia.
  - rewrite N3, elem_of_app, list_elem_of_singleton; naive_solver.
  - intros name error; rewrite N4, elem_of_app, list_elem_of_singleton; naive_solver.
Qed.

Lemma noted_abort order aborted evs r :
  noted order aborted evs r →
  noted order aborted (evs ++ [Abort])
    (mkRun (rn_phase r) (rn_started r) true (rn_deaths r) (rn_log r) (rn_health r) (rn_listeners r)).
Proof.
  intros [N1 N2 N3 N4 N5]; split; simpl; unfold up; rewrite ?started_ok_snoc by done; [done..| | |done].
  - rewrite elem_of_app, list_elem_of_singleton; naive_solver.
  - intros name error; rewrite N4, elem_of_app, list_elem_of_singleton; naive_solver.
Qed.

Lemma noted_exited order aborted evs r name error :
  existsb (λ d, bool_decide (d.1 = name)) (rn_deaths r) = false → noted order aborted evs r →
  noted order aborted (evs ++ [Exited name error])
    (mkRun (rn_phase r) (rn_started r) (rn_aborted r) (rn_deaths r ++ [(name, error)]) (rn_log r) (rn_health r) (rn_listeners r)).
Proof.
  intros Hn [N1 N2 N3 N4 N5]; split; simpl; unfold up; rewrite ?started_ok_snoc by done; [done..| | |].
  - rewrite N3, elem_of_app, list_elem_of_singleton; naive_solver.
  - intros n e; rewrite !elem_of_app, !list_elem_of_singleton, N4; naive_solver.
  - rewrite fmap_app; apply NoDup_app; split_and!; [done| |by apply NoDup_singleton].
    intros n Hin ->%list_elem_of_singleton; simpl in *; apply list_elem_of_fmap in Hin as (d & -> & Hd).
    apply not_true_iff_false in Hn; apply Hn, existsb_exists; exists d; split; [by apply list_elem_of_In|by apply bool_decide_eq_true].
Qed.

(** ** The causes *)

Lemma first_death_Some order aborted evs r e :
  noted order aborted evs r → first_death r = Some e →
  ∃ c detail, e = ExitedUnexpectedly (cp_name c) detail ∧ c ∈ order ∧ cp_exits c = true ∧ Exited (cp_name c) (Some detail) ∈ evs.
Proof.
  intros N; unfold first_death; intros He%head_Some_elem_of; apply list_elem_of_omap in He as (c & Hc & He).
  destruct (cp_exits c) eqn:Hx; [|done]; destruct (List.find _ _) as [[name [detail|]]|] eqn:Hf; [|done..]; injection He as <-.
  apply List.find_some in Hf as [Hin Hn]; apply bool_decide_eq_true in Hn; simpl in Hn; subst name.
  exists c, detail; split_and!; [done| |done|by apply (nt_deaths _ _ _ _ N), list_elem_of_In].
  rewrite (nt_started _ _ _ _ N) in Hc; unfold up in Hc; rewrite <- (take_drop (started_ok evs)); apply elem_of_app; by left.
Qed.

Lemma first_death_None order aborted evs r c detail :
  noted order aborted evs r → started_ok evs = length order → first_death r = None →
  c ∈ order → cp_exits c = true → Exited (cp_name c) (Some detail) ∉ evs.
Proof.
  intros N Hall Hnone Hc Hx Hin; apply (nt_deaths _ _ _ _ N) in Hin; unfold first_death in Hnone.
  destruct (List.find (λ d : jstr * option jstr, bool_decide (d.1 = cp_name c)) (rn_deaths r)) as [[name error]|] eqn:Hf.
  - assert (Hcons : ExitedUnexpectedly (cp_name c) detail ∈ omap (λ c, if cp_exits c then
        match List.find (λ d, bool_decide (d.1 = cp_name c)) (rn_deaths r) with
        | Some (name, Some detail) => Some (ExitedUnexpectedly name detail) | _ => None end else None) (rn_started r)).
    { apply list_elem_of_omap; exists c; split; [by rewrite (nt_started _ _ _ _ N), (up_all _ _ Hall)|]; rewrite Hx, Hf.
      apply List.find_some in Hf as [Hd Hn]; apply bool_decide_eq_true in Hn; simpl in Hn; subst name.
      apply list_elem_of_In in Hd; assert (error = Some detail) as ->; [|done].
      apply list_elem_of_lookup in Hd as [i Hi], Hin as [j Hj].
      assert (i = j) as -> by (eapply (NoDup_lookup _ _ _ (cp_name c) (nt_names _ _ _ _ N)); rewrite list_lookup_fmap; [by rewrite Hi|by rewrite Hj]).
      congruence. }
    destruct (omap _ _); [by apply elem_of_nil in Hcons|done].
  - apply list_elem_of_In in Hin; eapply List.find_none in Hf; [|exact Hin]; by rewrite bool_decide_eq_true_2 in Hf.
Qed.

(** An event that answers no start. *)
Definition later (ev : Event) : bool := match ev with StartAnswer _ | HealthAnswer _ => false | _ => true end.

Lemma healthy_later evs ev : later ev = true → HealthAnswer None ∈ evs ++ [ev] ↔ HealthAnswer None ∈ evs.
Proof. intros Hev; rewrite elem_of_app, list_elem_of_singleton; by destruct ev; naive_solver. Qed.

Lemma started_later evs ev : later ev = true → started_ok (evs ++ [ev]) = started_ok evs.
Proof. intros Hev; apply started_ok_snoc; by intros ->. Qed.

(** A cause stays what it is while the run stops. *)
Lemma cause_later order aborted evs ev cause :
  later ev = true → Cause order aborted evs cause → Cause order aborted (evs ++ [ev]) cause.
Proof.
  intros Hev; pose proof (healthy_later evs ev Hev) as Hh; destruct 1 as [c detail H1 H2 H3|detail H1 H2 H3|c detail H1 H2 H3 H4 H5|H1 H2 H3 H4].
  - constructor; [by rewrite started_later|apply elem_of_app; by left|by rewrite Hh].
  - constructor; [by rewrite started_later|apply elem_of_app; by left|by rewrite Hh].
  - constructor; [by rewrite started_later|by rewrite Hh|done..|apply elem_of_app; by left].
  - constructor; [by rewrite started_later|by rewrite Hh|rewrite elem_of_app; tauto|].
    intros before after c detail Heq Hcond; destruct after as [|x after _] using rev_ind.
    + rewrite app_nil_r in Heq; subst before; destruct Hcond as [H|[Ha Hn]]; [by apply elem_of_nil in H|].
      destruct H3 as [?|?]; [congruence|]; destruct Hn; apply elem_of_app; by left.
    + rewrite app_assoc in Heq; apply app_inj_tail in Heq as [-> <-]; apply H4 with after; [done|].
      destruct Hcond as [H|?]; [left; by apply (healthy_later after ev)|by right].
Qed.

Lemma to_stop_later order evs ev : later ev = true → to_stop order (evs ++ [ev]) = to_stop order evs.
Proof.
  intros Hev; unfold to_stop, up; rewrite started_later by done.
  by rewrite (bool_decide_ext _ _ (healthy_later evs ev Hev)).
Qed.

Lemma start_calls_later order evs ev : later ev = true → start_calls order (evs ++ [ev]) = start_calls order evs.
Proof. intros Hev; unfold start_calls; by rewrite started_later. Qed.

(** ** The steps *)

Lemma stopped_ok order aborted evs r errors cause :
  Cause order aborted evs cause → rn_log r = start_calls order evs ++ stops (to_stop order evs) →
  all_answered order evs →
  errors = stop_failures (to_stop order evs) (stop_answers evs) → phase_ok order aborted evs (stopped errors cause r).
Proof.
  intros Hc Hl Hlen ->; unfold stopped.
  destruct cause as [|e l]; [destruct (stop_failures _ _) as [|e l] eqn:E|];
    unfold phase_ok; simpl; eexists; (split_and!; [exact Hc|done|done|]); by rewrite ?E.
Qed.

Lemma stop_next_ok order aborted evs r gone targets cause :
  Cause order aborted evs cause → to_stop order evs = gone ++ targets → length gone = length (stop_answers evs) →
  rn_log r = start_calls order evs ++ stops gone →
  phase_ok order aborted evs (stop_next targets (answered_errors gone (stop_answers evs)) cause r).
Proof.
  intros Hc Ht Hl Hlog; destruct targets as [|t rest]; simpl.
  - rewrite app_nil_r in Ht; apply stopped_ok; [done|by rewrite Ht|left; by rewrite Ht|].
    rewrite Ht; pose proof (stop_failures_split gone [] _ Hl) as E; rewrite app_nil_r in E; rewrite E; by rewrite app_nil_r.
  - exists gone; split_and!; [done..| |done]; simpl; rewrite Hlog; unfold stops; by rewrite fmap_app, <-app_assoc.
Qed.

Lemma stop_all_ok order aborted evs r targets cause :
  Cause order aborted evs cause → to_stop order evs = targets → stop_answers evs = [] →
  rn_log r = start_calls order evs → phase_ok order aborted evs (stop_next targets [] cause r).
Proof.
  intros Hc Ht Ha Hlog; pose proof (stop_next_ok order aborted evs r [] targets cause Hc) as H; rewrite Ha in H.
  apply H; [done..|]; by rewrite app_nil_r.
Qed.

Lemma rollback_to_stop order aborted evs r :
  noted order aborted evs r → HealthAnswer None ∉ evs → to_stop order evs = rollback_targets r.
Proof. intros N Hh; unfold to_stop, rollback_targets; by rewrite bool_decide_eq_false_2, (nt_started _ _ _ _ N). Qed.

Lemma shutdown_to_stop order aborted evs r :
  noted order aborted evs r → HealthAnswer None ∈ evs → to_stop order evs = shutdown_targets r.
Proof. intros N Hh; unfold to_stop, shutdown_targets, rollback_targets; by rewrite bool_decide_eq_true_2, (nt_started _ _ _ _ N). Qed.

Lemma race_ok order aborted evs r :
  noted order aborted evs r → started_ok evs = length order → HealthAnswer None ∈ evs → stop_answers evs = [] →
  rn_log r = start_calls order evs → phase_ok order aborted evs (race r).
Proof.
  intros N Hall Hh Ha Hlog; pose proof (shutdown_to_stop _ _ _ _ N Hh) as Ht; unfold race.
  destruct (first_death r) as [e|] eqn:He.
  - destruct (first_death_Some _ _ _ _ _ N He) as (c & detail & -> & Hc & Hx & Hin); apply stop_all_ok; [by constructor|done..].
  - destruct (rn_aborted r) eqn:Hab; [|by split_and!].
    apply stop_all_ok; [|done..]; constructor; [done..|by apply (nt_aborted _ _ _ _ N)|].
    intros before after c detail -> _ Hc Hx Hin; eapply (first_death_None _ _ _ _ c detail N); [done..|]; apply elem_of_app; by left.
Qed.

Lemma start_next_ok order aborted evs r rest :
  noted order aborted evs r → order = rn_started r ++ rest → HealthAnswer None ∉ evs → stop_answers evs = [] →
  rn_log r = starts (rn_started r) → phase_ok order aborted evs (start_next rest r).
Proof.
  intros N Ho Hh Ha Hlog.
  assert (Hl : length (rn_started r) = started_ok evs)
    by (rewrite (nt_started _ _ _ _ N); unfold up; rewrite length_take; pose proof (nt_bound _ _ _ _ N); lia).
  destruct rest as [|c rest]; unfold phase_ok; simpl.
  - rewrite app_nil_r in Ho; assert (started_ok evs = length order) by (by rewrite Ho).
    split_and!; [done..|]; by rewrite start_calls_all, Hlog, Ho by done.
  - split_and!; [done..|]; rewrite (start_calls_next order evs (rn_started r) c rest) by done; rewrite Hlog.
    unfold starts; by rewrite fmap_app.
Qed.

(** A signal or a death while the run starts, stops or has settled. *)
Lemma happens_ok order aborted evs ev r r' :
  later ev = true → stop_answers (evs ++ [ev]) = stop_answers evs → rn_phase r ≠ Waiting →
  rn_phase r' = rn_phase r → rn_log r' = rn_log r → rn_started r' = rn_started r →
  phase_ok order aborted evs r → phase_ok order aborted (evs ++ [ev]) r'.
Proof.
  intros Hev Ha Hw Hp Hl Hs; unfold phase_ok.
  rewrite Hp, Hl, Hs, Ha; destruct (rn_phase r) as [c rest| | |t rest errors cause|o]; [..|done| |];
    rewrite ?start_calls_later, ?to_stop_later, ?started_later by done.
  - by rewrite (healthy_later evs ev Hev).
  - by rewrite (healthy_later evs ev Hev).
  - intros (gone & H1 & H2 & H3 & H4 & H5); exists gone; split_and!; [done..|]; by apply cause_later.
  - intros (cause & H1 & H2 & H3 & H4); exists cause; split_and!; [by apply cause_later|done| |done].
    unfold all_answered in *; rewrite Ha, to_stop_later, elem_of_app by done; tauto.
Qed.

Lemma answer_ok order aborted evs ev r :
  trace_ok order aborted evs r → plain ev = true →
  match run_step ev r with Some r' => trace_ok order aborted (evs ++ [ev]) r' | None => True end.
Proof.
  intros [N Hph] Hev; pose proof (noted_plain _ _ _ _ _ Hev N) as N'; unfold phase_ok in Hph.
  pose proof (stop_answers_snoc evs ev) as Hans; unfold run_step.
  destruct ev as [[detail|]|[detail|]| |name error|res|]; try done; clear Hev;
    destruct (rn_phase r) as [c rest| | |t rest errors cause|o] eqn:Hp; try done; simpl in Hans.
  - destruct Hph as (Ho & Hh & Ha & Hlog); split; [eapply noted_same; [apply stop_next_notes|done]|].
    assert (Hh' : HealthAnswer None ∉ evs ++ [StartAnswer (Some detail)]) by (rewrite elem_of_app, list_elem_of_singleton; naive_solver).
    apply stop_all_ok; [|by eapply rollback_to_stop|by rewrite Hans, Ha|unfold start_calls; by rewrite started_ok_snoc].
    apply StartFailed; [|apply elem_of_app; right; by left|done]; rewrite started_ok_snoc, Ho by done.
    rewrite lookup_app_r; [|rewrite (nt_started _ _ _ _ N); unfold up; rewrite length_take; lia].
    rewrite (nt_started _ _ _ _ N); unfold up; rewrite length_take; replace (_ - _)%nat with O; [done|].
    pose proof (nt_bound _ _ _ _ N); lia.
  - destruct Hph as (Hall & Hh & Ha & Hlog); split; [eapply noted_same; [apply stop_next_notes|done]|].
    assert (Hh' : HealthAnswer None ∉ evs ++ [HealthAnswer (Some detail)]) by (rewrite elem_of_app, list_elem_of_singleton; naive_solver).
    apply stop_all_ok; [|by eapply rollback_to_stop|by rewrite Hans, Ha|unfold start_calls; by rewrite started_ok_snoc].
    apply HealthFailed; [by rewrite started_ok_snoc|apply elem_of_app; right; by left|done].
  - destruct Hph as (Hall & Hh & Ha & Hlog); set (r1 := mkRun _ _ _ _ _ true _).
    assert (N1 : noted order aborted (evs ++ [HealthAnswer None]) r1) by (by eapply noted_same; [|exact N']).
    split; [eapply noted_same; [apply race_notes|done]|].
    apply race_ok; [done|by rewrite started_ok_snoc|apply elem_of_app; right; by left|by rewrite Hans, Ha|].
    unfold start_calls; by rewrite started_ok_snoc.
  - destruct Hph as (gone & Ht & Hl & -> & Hlog & Hc); split; [eapply noted_same; [apply stop_next_notes|done]|].
    rewrite <- answered_errors_snoc, <- Hans by done; apply stop_next_ok.
    + by apply cause_later.
    + by rewrite to_stop_later, Ht, <- app_assoc.
    + rewrite Hans, !length_app; simpl; lia.
    + by rewrite start_calls_later.
  - destruct Hph as (gone & Ht & Hl & -> & Hlog & Hc); unfold expire; rewrite app_nil_r in Hans.
    split; [eapply noted_same; [apply stopped_notes|by eapply noted_same; [|exact N']]|].
    apply stopped_ok; unfold all_answered; rewrite ?start_calls_later, ?to_stop_later, ?Hans, ?Ht by done.
    + by apply cause_later.
    + simpl; rewrite Hlog; unfold stops; by rewrite !fmap_app, <- !app_assoc.
    + right; rewrite length_app, elem_of_app, list_elem_of_singleton; simpl; split; [by right|lia].
    + by rewrite stop_failures_split.
Qed.

Lemma step_trace_ok order aborted evs ev r r' :
  trace_ok order aborted evs r → run_step ev r = Some r' → trace_ok order aborted (evs ++ [ev]) r'.
Proof.
  intros Hok Hstep; destruct (plain ev) eqn:Hev; [pose proof (answer_ok _ _ _ _ _ Hok Hev) as H; by rewrite Hstep in H|].
  destruct Hok as [N Hph]; pose proof (stop_answers_snoc evs ev) as Hans; unfold run_step in Hstep.
  destruct ev as [[detail|]|[detail|]| |name error|res|]; try done; clear Hev; simpl in Hans.
  - destruct (rn_phase r) as [c rest| | |t rest errors cause|o] eqn:Hp; try done; apply (inj Some) in Hstep as <-.
    unfold phase_ok in Hph; rewrite Hp in Hph; destruct Hph as (Ho & Hh & Ha & Hlog).
    pose proof (noted_started _ _ _ _ _ _ Ho N) as N'; rewrite Hp in N'; split; [eapply noted_same; [apply start_next_notes|exact N']|].
    apply start_next_ok; simpl; [done|by rewrite <- app_assoc|rewrite elem_of_app, list_elem_of_singleton; naive_solver|
      by rewrite Hans, Ha|].
    rewrite Hlog, (start_calls_next order evs (rn_started r) c rest); [done..|].
    rewrite (nt_started _ _ _ _ N); unfold up; rewrite length_take; pose proof (nt_bound _ _ _ _ N); lia.
  - rewrite app_nil_r in Hans; pose proof (noted_abort _ _ _ _ N) as N'.
    destruct (rn_phase r) as [c rest| | |t rest errors cause|o] eqn:Hp; try done; apply (inj Some) in Hstep as <-; try rewrite <- Hp in *;
      try (split; [done|]; apply (happens_ok _ _ _ _ r); try done; by rewrite Hp).
    unfold phase_ok in Hph; rewrite Hp in Hph; destruct Hph as (Hall & Hh & Ha & Hlog & Hd & Hab).
    split; [eapply noted_same; [apply stop_next_notes|exact N']|]; set (r1 := mkRun _ _ true _ _ _ _) in *.
    apply stop_all_ok; [|eapply (shutdown_to_stop _ _ _ r1); [exact N'|apply elem_of_app; by left]|by rewrite Hans|
      simpl; rewrite start_calls_later by done; done].
    apply Signalled; [by rewrite started_later|apply elem_of_app; by left|right; apply elem_of_app; right; by left|].
    intros before after c detail Heq _ Hc Hx Hin; eapply (first_death_None _ _ _ _ c detail N); [done..|].
    assert (Hin' : Exited (cp_name c) (Some detail) ∈ evs ++ [Abort]) by (rewrite Heq; apply elem_of_app; by left).
    apply elem_of_app in Hin' as [?|?%list_elem_of_singleton]; done.
  - rewrite app_nil_r in Hans; destruct (rn_phase r) as [c rest| | |t rest errors cause|o] eqn:Hp; try done;
      (destruct (existsb _ _) eqn:Hex; [done|]); apply (inj Some) in Hstep as <-; pose proof (noted_exited _ _ _ _ _ error Hex N) as N';
      try (split; [by rewrite Hp in N'|]; apply (happens_ok _ _ _ _ r); try done; by rewrite Hp).
    unfold phase_ok in Hph; rewrite Hp in Hph; destruct Hph as (Hall & Hh & Ha & Hlog & Hd & Hab); rewrite Hp in N'.
    split; [eapply noted_same; [apply race_notes|exact N']|].
    apply race_ok; [exact N'|by rewrite started_later|apply elem_of_app; by left|by rewrite Hans|by rewrite start_calls_later].
Qed.

Lemma begin_trace_ok components aborted : trace_ok (sorted components) aborted [] (run_begin components aborted).
Proof.
  assert (N : noted (sorted components) aborted [] (mkRun Waiting [] aborted [] [] false true)).
  { split; simpl; [done|unfold started_ok; simpl; lia| | |constructor].
    - rewrite elem_of_nil; tauto.
    - intros; by rewrite !elem_of_nil. }
  split; [eapply noted_same; [apply start_next_notes|exact N]|]; apply start_next_ok; try done; apply not_elem_of_nil.
Qed.

Lemma run_trace_ok components aborted evs r :
  run_events evs (run_begin components aborted) = Some r → trace_ok (sorted components) aborted evs r.
Proof.
  assert (Hgen : ∀ evs past q r, trace_ok (sorted components) aborted past q → run_events evs q = Some r →
    trace_ok (sorted components) aborted (past ++ evs) r).
  { clear; unfold run_events; induction evs as [|ev evs IH]; intros past q r Hq; simpl; [intros [= <-]; by rewrite app_nil_r|].
    destruct (run_step ev q) as [q'|] eqn:Hs; simpl; [|done]; intros Hrest.
    replace (past ++ ev :: evs) with ((past ++ [ev]) ++ evs) by (by rewrite <- app_assoc).
    eapply IH; [by eapply step_trace_ok|exact Hrest]. }
  intros Hrun; apply (Hgen evs [] _ _ (begin_trace_ok components aborted) Hrun).
Qed.

(** ** How long a run goes on *)

(** The answers a run can still take. *)
Definition answers_left (r : Run) : nat :=
  match rn_phase r with
  | Starting _ rest => 2 * length rest + length (rn_started r) + 4
  | HealthStarting => length (rn_started r) + 2
  | Waiting => length (rn_started r) + 1
  | Stopping _ rest _ _ => length rest + 1
  | Settled _ => 0
  end.

(** An answer of something the run called. *)
Definition is_answer (ev : Event) : bool :=
  match ev with StartAnswer _ | HealthAnswer _ | StopAnswer _ | BudgetExpired => true | _ => false end.

Lemma stopped_left errors cause r : answers_left (stopped errors cause r) = 0%nat.
Proof. unfold stopped; by repeat case_match. Qed.

Lemma stopped_settles errors cause r :
  ∃ o, rn_phase (stopped errors cause r) = Settled o ∧ rn_listeners (stopped errors cause r) = false.
Proof. unfold stopped; repeat case_match; by eexists. Qed.

Lemma stop_next_left targets errors cause r : answers_left (stop_next targets errors cause r) = length targets.
Proof. destruct targets as [|t rest]; simpl; [apply stopped_left|]; unfold answers_left; simpl; lia. Qed.

Lemma targets_length r : length (rollback_targets r) = length (rn_started r) ∧ length (shutdown_targets r) = S (length (rn_started r)).
Proof. unfold shutdown_targets, rollback_targets; simpl; rewrite length_reverse, length_fmap; done. Qed.

Lemma race_left r : (answers_left (race r) ≤ length (rn_started r) + 1)%nat.
Proof.
  destruct (targets_length r) as [_ H]; unfold race; repeat case_match; rewrite ?stop_next_left, ?H; try lia.
  unfold answers_left; simpl; lia.
Qed.

Lemma step_left ev r r' :
  run_step ev r = Some r' → (answers_left r' + (if is_answer ev then 1 else 0) ≤ answers_left r)%nat.
Proof.
  intros Hstep; destruct (targets_length r) as [Hroll Hshut]; unfold run_step in Hstep.
  destruct ev as [[detail|]|[detail|]| |name error|res|]; destruct (rn_phase r) as [c rest| | |t rest errors cause|o] eqn:Hp;
    try discriminate; try (case_match; [discriminate|]); apply (inj Some) in Hstep as <-;
    unfold answers_left at 2; rewrite Hp; rewrite ?stop_next_left; rewrite ?Hroll; simpl;
    try (unfold answers_left; simpl; lia).
  - unfold start_next; destruct rest; unfold answers_left; simpl; rewrite length_app; simpl; lia.
  - eapply Nat.le_trans; [apply Nat.add_le_mono_r, race_left|]; simpl; lia.
  - eapply Nat.le_trans; [apply Nat.add_le_mono_r, race_left|]; simpl; lia.
  - unfold expire; rewrite stopped_left; lia.
Qed.

Lemma begin_left components aborted : (answers_left (run_begin components aborted) ≤ 2 * length components + 2)%nat.
Proof.
  unfold run_begin; pose proof (Permutation_length (sorted_perm components)) as Hlen.
  destruct (sorted components) as [|c rest]; unfold answers_left; simpl in *; lia.
Qed.

(** ** Properties *)

(** C20: When a run of registered components has settled — whichever way — the calls it
    made are these: the components started one by one in the order of their stages and
    names up to the first that failed, the health endpoint only when all had started,
    and then the endpoint, if it came up, and every component that had started asked
    to stop, once each, in reverse.  What came up is read off the answers of the run. *)
Theorem everything_started_is_stopped_in_reverse (components : list Component) (aborted : bool) (evs : list Event) (r : Run)
    (o : Outcome) (Hrun : run_events evs (run_begin components aborted) = Some r) (Hsettled : rn_phase r = Settled o) :
  let order := sorted components in
  let came_up := take (started_ok evs) order in
  order ≡ₚ components ∧ StronglySorted before order ∧ (HealthAnswer None ∈ evs → came_up = order) ∧
  rn_log r =
    starts (take (S (started_ok evs)) order) ++ (if bool_decide (came_up = order) then [CallHealthStart] else []) ++
    stops ((if bool_decide (HealthAnswer None ∈ evs) then [health_name] else []) ++ reverse (cp_name <$> came_up)).
Proof.
  intros order came_up; destruct (run_trace_ok _ _ _ _ Hrun) as [N Hph]; fold order in N, Hph; unfold phase_ok in Hph; rewrite Hsettled in Hph.
  destruct Hph as (cause & Hc & Hlog & _).
  assert (Hup : came_up = order ↔ started_ok evs = length order).
  { split; [|apply up_all]; intros Heq; apply (f_equal length) in Heq; unfold came_up in Heq; rewrite length_take in Heq.
    pose proof (nt_bound _ _ _ _ N); lia. }
  split_and!; [apply sorted_perm|apply sorted_sorted| |].
  - intros Hh; apply Hup; destruct Hc; done.
  - rewrite Hlog; unfold start_calls; by rewrite (bool_decide_ext _ _ Hup), <- app_assoc.
Qed.

(** C25: A run resolves only when every component and the health endpoint came up, a
    signal asked it to end, none of the components that report their exit had exited
    with an error by then, and each of them and the endpoint answered the request to
    stop, in time and without an error.  Otherwise it throws the cause, if there is
    one (the start that failed, or the component that exited), followed by exactly one
    error for each target that answered with one and, in their order, for each that did
    not answer in time: all answered, unless the budget ran out. *)
Theorem resolves_only_when_clean (components : list Component) (aborted : bool) (evs : list Event) (r : Run) (o : Outcome)
    (Hrun : run_events evs (run_begin components aborted) = Some r) (Hsettled : rn_phase r = Settled o) :
  let order := sorted components in
  match o with
  | Resolved =>
      started_ok evs = length components ∧ HealthAnswer None ∈ evs ∧ (aborted = true ∨ Abort ∈ evs) ∧
      none_died order aborted evs ∧ stop_answers evs = replicate (S (length components)) None
  | Threw errors =>
      ∃ cause, Cause order aborted evs cause ∧ all_answered order evs ∧ errors ≠ [] ∧
        errors = cause ++ stop_failures (to_stop order evs) (stop_answers evs)
  end.
Proof.
  intros order; destruct (run_trace_ok _ _ _ _ Hrun) as [N Hph]; fold order in N, Hph; unfold phase_ok in Hph; rewrite Hsettled in Hph.
  destruct Hph as (cause & Hc & _ & Hlen & Ho); simpl in Ho.
  assert (Hsize : length order = length components) by apply Permutation_length, sorted_perm.
  destruct (cause ++ _) as [|e l] eqn:Hall; subst o.
  - apply app_nil in Hall as [-> Hstop]; inversion Hc; subst; split_and!; [congruence|done..|].
    assert (length (stop_answers evs) ≤ length (to_stop order evs))%nat as Hle by (destruct Hlen as [?|[_ ?]]; lia).
    rewrite (stop_failures_nil _ _ Hle Hstop); f_equal; unfold to_stop.
    rewrite bool_decide_eq_true_2, up_all by done; simpl; by rewrite length_reverse, length_fmap, Hsize.
  - exists cause; split_and!; [done..|]; by rewrite Hall.
Qed.

(** A run of n components takes at most 2n + 2 answers of what it calls, whatever
    happens in between, and once it stops the end of the budget settles it at once. *)
Theorem run_answers_bounded (components : list Component) (aborted : bool) (evs : list Event) (r : Run)
    (Hrun : run_events evs (run_begin components aborted) = Some r) :
  (length (List.filter is_answer evs) ≤ 2 * length components + 2)%nat ∧
  match rn_phase r with
  | Stopping _ _ _ _ => ∃ r' o, run_step BudgetExpired r = Some r' ∧ rn_phase r' = Settled o ∧ rn_listeners r' = false
  | _ => True
  end.
Proof.
  split.
  - enough (H : (length (List.filter is_answer evs) + answers_left r ≤ answers_left (run_begin components aborted))%nat)
      by (pose proof (begin_left components aborted); lia).
    revert Hrun; generalize (run_begin components aborted) as q; unfold run_events.
    induction evs as [|ev evs IH]; intros q; simpl; [intros [= ->]; lia|].
    destruct (run_step ev q) as [q'|] eqn:Hq; simpl; [|done]; intros Hrest%IH; apply step_left in Hq.
    destruct (is_answer ev); simpl; lia.
  - destruct (rn_phase r) as [c rest| | |t rest errors cause|o] eqn:Hp; try done.
    unfold run_step; rewrite Hp; unfold expire.
    edestruct (stopped_settles (errors ++ (StopTimedOut <$> t :: rest)) cause) as (o & Ho & Hl).
    exists (expire t rest errors cause r), o; split_and!; [done|exact Ho|exact Hl].
Qed.

(** ** Witnesses *)

Definition sample_components : list Component :=
  [mkComponent (js "grpc") Server false; mkComponent (js "redis") Client false; mkComponent (js "http") Server true].
Definition sample_events : list Event :=
  [StartAnswer None; StartAnswer None; StartAnswer None; HealthAnswer None; Abort; StopAnswer None;
   StopAnswer (Some (js "x")); BudgetExpired].
Definition sample_end : Run := default (run_begin [] false) (run_events sample_events (run_begin sample_components false)).
Definition sample_outcome : Outcome :=
  Threw [StopFailed (js "http") (js "x"); StopTimedOut (js "grpc"); StopTimedOut (js "redis")].

Lemma sample_settles :
  run_events sample_events (run_begin sample_components false) = Some sample_end ∧ rn_phase sample_end = Settled sample_outcome.
Proof. split; vm_compute; reflexivity. Qed.

Lemma everything_started_is_stopped_in_reverse_witness :
  rn_log sample_end = starts (sorted sample_components) ++ CallHealthStart :: stops (health_name :: [js "http"; js "grpc"; js "redis"]).
Proof.
  destruct (everything_started_is_stopped_in_reverse sample_components false sample_events sample_end sample_outcome
              (proj1 sample_settles) (proj2 sample_settles)) as (_ & _ & _ & Hlog).
  rewrite Hlog; vm_compute; reflexivity.
Defined.

Lemma resolves_only_when_clean_witness :
  ∃ cause, Cause (sorted sample_components) false sample_events cause ∧
    [StopFailed (js "http") (js "x"); StopTimedOut (js "grpc"); StopTimedOut (js "redis")] =
      cause ++ stop_failures (to_stop (sorted sample_components) sample_events) (stop_answers sample_events).
Proof.
  destruct (resolves_only_when_clean sample_components false sample_events sample_end sample_outcome
              (proj1 sample_settles) (proj2 sample_settles)) as (cause & Hc & _ & _ & Herrors).
  exists cause; split; [exact Hc|exact Herrors].
Defined.

Lemma run_answers_bounded_witness : (length (List.filter is_answer sample_events) ≤ 2 * length sample_components + 2)%nat.
Proof. exact (proj1 (run_answers_bounded sample_components false sample_events sample_end (proj1 sample_settles))). Defined.
