(* ===== verification/Daemon.v ===== *)
(** * The daemon supervisor

    [common/js/bootstrap/src/daemon.ts]: a worker that is built, run, and built again
    after a growing pause when it fails, until it ends, is stopped, or has failed too
    often.

    [supervise] is cut at its [await]s: the state says what it waits for.  The
    classification of errors is a parameter; [default_classify] is the one the code
    uses when none is given. *)

From S2P Require Import Prelude JsText.

#[local] Open Scope Z_scope.

Inductive DaemonDecision : Type := Restart | Stop | Fatal.

(** What a worker or a build throws: its text, and whether it is an [AbortError]. *)
Record DaemonError : Type := mkDaemonError { de_text : jstr; de_abort : bool }.

(** [defaultClassify], of no error when the worker ended by itself. *)
Definition default_classify (aborted : bool) (err : option DaemonError) : DaemonDecision :=
  match err with
  | None => Stop
  | Some e => if de_abort e && aborted then Stop else Restart
  end.

Record DaemonOptions : Type := mkDaemonOptions {
  do_initialBackoffMs : Z;
  do_maxBackoffMs : Z;
  do_maxRestarts : Z;
}.

Definition default_options : DaemonOptions := mkDaemonOptions 1000 30000 5.

(** What [supervise] waits for; [Ended] when it has returned. *)
Inductive Waits : Type :=
| NotStarted
| Building
| Running
| Sleeping
| Ended.

#[export] Instance Waits_eq_dec : EqDecision Waits.
Proof. solve_decision. Defined.

(** [dm_aborted] is the state of the supervision signal; [dm_exited] what [exited]
    settled with; [dm_sleeps] the pauses so far, [dm_builds] the calls of
    [buildWorker]. *)
Record Daemon : Type := mkDaemon {
  dm_waits : Waits;
  dm_aborted : bool;
  dm_restarts : Z;
  dm_backoff : Z;
  dm_exited : option jstr;
  dm_sleeps : list Z;
  dm_builds : nat;
}.

Section Supervise.
Context (options : DaemonOptions) (name : jstr).
Context (classifyError : bool → option DaemonError → DaemonError + DaemonDecision).

Definition createDaemon : Daemon := mkDaemon NotStarted false 0 (do_initialBackoffMs options) None [] 0.

Definition set_waits (d : Daemon) w :=
  mkDaemon w (dm_aborted d) (dm_restarts d) (dm_backoff d) (dm_exited d) (dm_sleeps d) (dm_builds d).

(** [err instanceof Error ? err.message : String(err)]; [String(undefined)]. *)
Definition error_text (err : option DaemonError) : jstr :=
  match err with Some e => de_text e | None => js "undefined" end.

Definition reportFatal (err : option DaemonError) (d : Daemon) : Daemon :=
  match dm_exited d with
  | Some _ => d
  | None =>
      mkDaemon (dm_waits d) (dm_aborted d) (dm_restarts d) (dm_backoff d)
        (Some (js "bootstrap: daemon " ++ [34] ++ name ++ [34] ++ js " fatal: " ++ error_text err)) (dm_sleeps d) (dm_builds d)
  end.

(** The head of the loop. *)
Definition loop (d : Daemon) : Daemon :=
  if dm_aborted d then set_waits d Ended
  else mkDaemon Building (dm_aborted d) (dm_restarts d) (dm_backoff d) (dm_exited d) (dm_sleeps d) (S (dm_builds d)).

(** [applyRestartPolicy], up to its pause; what a classification throws ends the
    supervision as a fatal error. *)
Definition applyRestartPolicy (err : option DaemonError) (d : Daemon) : Daemon :=
  match classifyError (dm_aborted d) err with
  | inl thrown => set_waits (reportFatal (Some thrown) d) Ended
  | inr Stop => set_waits d Ended
  | inr Fatal => set_waits (reportFatal err d) Ended
  | inr Restart =>
      let restarts := dm_restarts d + 1 in
      let d := mkDaemon (dm_waits d) (dm_aborted d) restarts (dm_backoff d) (dm_exited d) (dm_sleeps d) (dm_builds d) in
      if (0 <=? do_maxRestarts options) && (do_maxRestarts options <? restarts) then
        set_waits (reportFatal err d) Ended
      else
        mkDaemon Sleeping (dm_aborted d) restarts (dm_backoff d) (dm_exited d) (dm_sleeps d ++ [dm_backoff d]) (dm_builds d)
  end.

(** The rest of the policy when the whole pause has passed. *)
Definition woken (d : Daemon) : Daemon :=
  loop (mkDaemon (dm_waits d) (dm_aborted d) (dm_restarts d) (Z.min (dm_backoff d * 2) (do_maxBackoffMs options))
          (dm_exited d) (dm_sleeps d) (dm_builds d)).

Inductive Event : Type :=
| Start (aborted : bool)
| Built (error : option DaemonError)
| WorkerEnded (error : option DaemonError)
| Woken
| Aborted.

(** An answer is classified only while the signal has not been aborted. *)
Definition answered (err : option DaemonError) (d : Daemon) : Daemon :=
  if dm_aborted d then set_waits d Ended else applyRestartPolicy err d.

Definition daemon_step (ev : Event) (d : Daemon) : option Daemon :=
  match ev, dm_waits d with
  | Start aborted, NotStarted =>
      Some (loop (mkDaemon NotStarted (dm_aborted d || aborted) (dm_restarts d) (dm_backoff d) (dm_exited d) (dm_sleeps d) (dm_builds d)))
  | Built None, Building => Some (set_waits d Running)
  | Built (Some e), Building => Some (answered (Some e) d)
  | WorkerEnded err, Running => Some (answered err d)
  | Woken, Sleeping => Some (woken d)
  | Aborted, waits =>
      let d := mkDaemon (dm_waits d) true (dm_restarts d) (dm_backoff d) (dm_exited d) (dm_sleeps d) (dm_builds d) in
      Some (match waits with Sleeping => set_waits d Ended | _ => d end)
  | _, _ => None
  end.

Definition run_daemon (evs : list Event) (d : Daemon) : option Daemon := foldM (λ d ev, daemon_step ev d) d evs.

End Supervise.

(** [stop]: the signal is aborted when the daemon has been started, and the wait for
    the end of the supervision is given up when the budget ends first. *)
Definition stop_request (d : Daemon) : option Event := if bool_decide (dm_waits d = NotStarted) then None else Some Aborted.

(** ** What the daemon supervisor guarantees

    The pauses double up to the bound and there are no more restarts than allowed
    ([pauses_and_restarts_bounded]); a fatal error is reported once and ends the
    supervision, and no worker is built after a stop ([nothing_is_built_after_a_stop]). *)

Section Facts.
Context (options : DaemonOptions) (name : jstr).
Context (classifyError : bool → option DaemonError → DaemonError + DaemonDecision).
Context (Hinitial : 0 <= do_initialBackoffMs options <= do_maxBackoffMs options).

(** The k-th pause: the first one doubled k times, up to the bound. *)
Definition pause (k : nat) : Z := Z.min (do_initialBackoffMs options * 2 ^ Z.of_nat k) (do_maxBackoffMs options).
Definition pauses (n : nat) : list Z := pause <$> seq 0 n.

Lemma pauses_S n : pauses (S n) = pauses n ++ [pause n].
Proof. unfold pauses; rewrite seq_S, fmap_app; done. Qed.

Lemma pause_next k : Z.min (pause k * 2) (do_maxBackoffMs options) = pause (S k).
Proof.
  unfold pause; rewrite Nat2Z.inj_succ, Z.pow_succ_r by lia.
  pose proof (Z.pow_pos_nonneg 2 (Z.of_nat k)); nia.
Qed.

(** What a daemon has done when it waits for something. *)
Definition daemon_ok (d : Daemon) : Prop :=
  let n := length (dm_sleeps d) in
  dm_sleeps d = pauses n ∧ (0 <= do_maxRestarts options → Z.of_nat n <= do_maxRestarts options) ∧
  match dm_waits d with
  | NotStarted => n = 0%nat ∧ dm_builds d = 0%nat ∧ dm_restarts d = 0 ∧ dm_backoff d = pause 0 ∧ dm_exited d = None
  | Building | Running =>
      dm_builds d = S n ∧ dm_restarts d = Z.of_nat n ∧ dm_backoff d = pause n ∧ dm_exited d = None
  | Sleeping =>
      (0 < n)%nat ∧ dm_builds d = n ∧ dm_restarts d = Z.of_nat n ∧ dm_backoff d = pause (n - 1) ∧ dm_exited d = None
  | Ended => (dm_builds d ≤ S n)%nat
  end.

Lemma built_ok : daemon_ok (createDaemon options).
Proof. unfold daemon_ok; simpl; split_and!; try done. unfold pause; simpl; lia. Qed.

(** The loop goes on with one more build. *)
Lemma loop_ok d n :
  length (dm_sleeps d) = n → dm_sleeps d = pauses n → (0 <= do_maxRestarts options → Z.of_nat n <= do_maxRestarts options) →
  dm_builds d = n → dm_restarts d = Z.of_nat n → dm_backoff d = pause n → dm_exited d = None → daemon_ok (loop d).
Proof.
  intros Hn Hs Hl Hb Hr Hk He; unfold loop, daemon_ok; destruct (dm_aborted d); simpl; rewrite Hn; split_and!; try done; lia.
Qed.

(** An answer while a worker is built or runs. *)
Lemma policy_ok err d n :
  length (dm_sleeps d) = n → dm_sleeps d = pauses n → (0 <= do_maxRestarts options → Z.of_nat n <= do_maxRestarts options) →
  dm_builds d = S n → dm_restarts d = Z.of_nat n → dm_backoff d = pause n → dm_exited d = None →
  daemon_ok (applyRestartPolicy options name classifyError err d).
Proof.
  intros Hn Hs Hl Hb Hr Hk He; unfold applyRestartPolicy.
  assert (Hend : ∀ d', dm_waits d' = Ended → dm_sleeps d' = dm_sleeps d → dm_builds d' = dm_builds d → daemon_ok d').
  { intros d' Hw' Hs' Hb'; unfold daemon_ok; rewrite Hw', Hs', Hb', Hn; split_and!; [done..|lia]. }
  assert (Hfatal : ∀ err d', dm_sleeps d' = dm_sleeps d → dm_builds d' = dm_builds d → daemon_ok (set_waits (reportFatal name err d') Ended)).
  { intros err' d' Hs' Hb'; apply Hend; [done|..]; unfold reportFatal; simpl; destruct (dm_exited d'); done. }
  destruct (classifyError (dm_aborted d) err) as [thrown|[| |]]; [by apply Hfatal| |by apply Hend|by apply Hfatal].
  destruct ((0 <=? do_maxRestarts options) && _) eqn:Hlim; [by apply Hfatal|].
  apply andb_false_iff in Hlim; rewrite Z.leb_gt, Z.ltb_ge, Hr in Hlim.
  unfold daemon_ok; cbn [dm_sleeps dm_waits dm_builds dm_restarts dm_backoff dm_exited].
  rewrite length_app, Hn, Hk, Hs; cbn [length]; replace (n + 1)%nat with (S n) by lia; rewrite pauses_S.
  replace (S n - 1)%nat with n by lia; split_and!; [done|lia|lia|done|lia|done|done].
Qed.

Lemma answered_ok err d n :
  length (dm_sleeps d) = n → dm_sleeps d = pauses n → (0 <= do_maxRestarts options → Z.of_nat n <= do_maxRestarts options) →
  dm_builds d = S n → dm_restarts d = Z.of_nat n → dm_backoff d = pause n → dm_exited d = None →
  daemon_ok (answered options name classifyError err d).
Proof.
  intros Hn Hs Hl Hb Hr Hk He; unfold answered; destruct (dm_aborted d); [|by eapply policy_ok].
  unfold daemon_ok; simpl; rewrite Hn; split_and!; [done..|lia].
Qed.

Lemma step_ok ev d d' : daemon_ok d → daemon_step options name classifyError ev d = Some d' → daemon_ok d'.
Proof.
  intros Hok Hstep; pose proof Hok as (Hs & Hl & Hw); unfold daemon_step in Hstep.
  destruct ev as [aborted|[e|]|err| |]; destruct (dm_waits d) eqn:Hd; try discriminate; apply (inj Some) in Hstep as <-.
  - destruct Hw as (Hn & Hb & Hr & Hk & He); rewrite Hn in Hs, Hl; by apply (loop_ok _ 0%nat).
  - destruct Hw as (Hb & Hr & Hk & He); by eapply answered_ok.
  - unfold daemon_ok; by cbn.
  - destruct Hw as (Hb & Hr & Hk & He); by eapply answered_ok.
  - destruct Hw as (Hn & Hb & Hr & Hk & He); apply (loop_ok _ (length (dm_sleeps d))); cbn; try assumption; [done|].
    rewrite Hk, pause_next; f_equal; lia.
  - unfold daemon_ok; cbn; by rewrite ?Hd.
  - unfold daemon_ok; cbn; by rewrite ?Hd.
  - unfold daemon_ok; cbn; by rewrite ?Hd.
  - destruct Hw as (Hn & Hb & _); unfold daemon_ok; cbn; split_and!; [done..|lia].
  - unfold daemon_ok; cbn; by rewrite ?Hd.
Qed.

Lemma run_daemon_ok evs d d' : daemon_ok d → run_daemon options name classifyError evs d = Some d' → daemon_ok d'.
Proof.
  unfold run_daemon; revert d; induction evs as [|ev evs IH]; intros d Hok; simpl; [by intros [= <-]|].
  destruct (daemon_step options name classifyError ev d) as [q|] eqn:Hq; simpl; [|done]; eauto using step_ok.
Qed.
End Facts.

(** ** After a stop *)

Lemma aborted_step options name classify ev d d' :
  dm_aborted d = true → daemon_step options name classify ev d = Some d' →
  dm_aborted d' = true ∧ dm_builds d' = dm_builds d ∧ dm_exited d' = dm_exited d ∧
  (ev ≠ Aborted → ev ≠ Built None → dm_waits d' = Ended).
Proof.
  intros Ha Hstep; unfold daemon_step in Hstep.
  destruct ev as [aborted|[e|]|err| |]; destruct (dm_waits d) eqn:Hd; try discriminate; apply (inj Some) in Hstep as <-;
    unfold answered, loop, woken, loop; cbn; rewrite ?Ha; cbn; split_and!; done.
Qed.

(** The classification a daemon has by default. *)
Definition classify (aborted : bool) (err : option DaemonError) : DaemonError + DaemonDecision := inr (default_classify aborted err).

(** ** Properties *)

(** C24: With a first pause within the bound, the pauses of a daemon are the first one
    doubled each time up to the bound, there are never more of them than the allowed
    restarts, and never more than one worker per restart besides the first — for
    every sequence of failures and every classification of errors, one that throws
    included. *)
Theorem pauses_and_restarts_bounded (options : DaemonOptions) (name : jstr)
    (classifyError : bool → option DaemonError → DaemonError + DaemonDecision) (evs : list Event) (d : Daemon)
    (Hinitial : 0 <= do_initialBackoffMs options <= do_maxBackoffMs options)
    (Hrun : run_daemon options name classifyError evs (createDaemon options) = Some d) :
  dm_sleeps d = (λ k, Z.min (do_initialBackoffMs options * 2 ^ Z.of_nat k) (do_maxBackoffMs options)) <$> seq 0 (length (dm_sleeps d)) ∧
  (0 <= do_maxRestarts options → Z.of_nat (length (dm_sleeps d)) <= do_maxRestarts options) ∧
  (dm_builds d ≤ S (length (dm_sleeps d)))%nat.
Proof.
  assert (Hok : daemon_ok options d) by (eapply run_daemon_ok; [done|by apply built_ok|done]).
  destruct Hok as (Hs & Hl & Hw); split_and!; [exact Hs|exact Hl|].
  destruct (dm_waits d); destruct Hw; lia.
Qed.

(** Once it is stopped a daemon builds no worker and reports no fatal error any
    more, and the next answer it gets ends its supervision: the end of its worker, of
    its pause, or a build that failed. *)
Theorem nothing_is_built_after_a_stop (options : DaemonOptions) (name : jstr)
    (classifyError : bool → option DaemonError → DaemonError + DaemonDecision) (evs : list Event) (d d' : Daemon)
    (Hstopped : dm_aborted d = true) (Hrun : run_daemon options name classifyError evs d = Some d') :
  dm_builds d' = dm_builds d ∧ dm_exited d' = dm_exited d ∧
  (∀ ev d'', daemon_step options name classifyError ev d' = Some d'' → ev ≠ Aborted → ev ≠ Built None → dm_waits d'' = Ended).
Proof.
  enough (H : dm_aborted d' = true ∧ dm_builds d' = dm_builds d ∧ dm_exited d' = dm_exited d).
  { destruct H as (Ha & Hb & He); split_and!; [done..|]; intros ev d'' Hstep; by apply (aborted_step _ _ _ _ _ _ Ha Hstep). }
  revert d Hstopped Hrun; unfold run_daemon; induction evs as [|ev evs IH]; intros d Ha; simpl; [by intros [= <-]|].
  destruct (daemon_step options name classifyError ev d) as [q|] eqn:Hq; simpl; [|done]; intros Hrun.
  destruct (aborted_step _ _ _ _ _ _ Ha Hq) as (Ha' & Hb & He & _).
  destruct (IH q Ha' Hrun) as (H1 & H2 & H3); split_and!; congruence.
Qed.

(** A first pause beyond the bound is not cut down to it. *)
Lemma first_pause_is_not_capped :
  dm_sleeps <$> run_daemon (mkDaemonOptions 60000 30000 5) (js "d") classify
      [Start false; Built None; WorkerEnded (Some (mkDaemonError (js "x") false))] (createDaemon (mkDaemonOptions 60000 30000 5))
  = Some [60000].
Proof. vm_compute; reflexivity. Qed.

(** ** Witnesses *)

Definition failure : DaemonError := mkDaemonError (js "x") false.
Definition sample_events : list Event :=
  [Start false; Built None; WorkerEnded (Some failure); Woken; Built (Some failure); Woken; Built None].
Definition sample_daemon : Daemon :=
  default (createDaemon default_options) (run_daemon default_options (js "d") classify sample_events (createDaemon default_options)).

Lemma sample_run :
  run_daemon default_options (js "d") classify sample_events (createDaemon default_options) = Some sample_daemon.
Proof. vm_compute; reflexivity. Qed.

Lemma pauses_and_restarts_bounded_witness : (dm_builds sample_daemon ≤ S (length (dm_sleeps sample_daemon)))%nat.
Proof.
  exact (proj2 (proj2 (pauses_and_restarts_bounded default_options (js "d") classify sample_events sample_daemon
    ltac:(split; vm_compute; discriminate) sample_run))).
Defined.

Definition stopped_daemon : Daemon := mkDaemon Running true 0 1000 None [] 1.
Definition ended_daemon : Daemon := mkDaemon Ended true 0 1000 None [] 1.

Lemma nothing_is_built_after_a_stop_witness : dm_builds ended_daemon = dm_builds stopped_daemon.
Proof.
  exact (proj1 (nothing_is_built_after_a_stop default_options (js "d") classify [WorkerEnded (Some failure)]
    stopped_daemon ended_daemon ltac:(reflexivity) ltac:(vm_compute; reflexivity))).
Defined.
