(* ===== verification/Servers.v ===== *)
(** * The server components and the health endpoint

    [common/js/bootstrap/src/http-server.ts], [grpc-server.ts], [grpc-conn.ts] and
    [health.ts]: how the components of a service start and stop a server, and what the
    health endpoint answers.  The servers are Node's and grpc-js's: the model has the
    calls made on them and takes their callbacks as operations.  The last section has
    what the components guarantee. *)

From S2P Require Import Prelude JsText.

#[local] Open Scope Z_scope.

(** ** The HTTP component *)

(** The calls on the server, in order. *)
Inductive ServerCall : Type :=
| Listen
| CloseServer
| CloseAllConnections
| BindAsync
| StartServer
| TryShutdown
| ForceShutdown.

(** [hs_stop]: a stop that waits for the close; [true] while it listens for the end of
    the budget.  [hs_exited]: what [exited] settled with, [inl] an error. *)
Record HttpServer : Type := mkHttp {
  hs_started : bool;
  hs_stopping : bool;
  hs_listening : bool;
  hs_start : bool;
  hs_stop : option bool;
  hs_exited : option (option jstr);
  hs_calls : list ServerCall;
}.

Definition new_http : HttpServer := mkHttp false false false false None None [].

Definition http_calls (s : HttpServer) (cs : list ServerCall) : HttpServer :=
  mkHttp (hs_started s) (hs_stopping s) (hs_listening s) (hs_start s) (hs_stop s) (hs_exited s) (hs_calls s ++ cs).

Definition settleExitedOnce (err : option jstr) (s : HttpServer) : HttpServer :=
  match hs_exited s with
  | Some _ => s
  | None => mkHttp (hs_started s) (hs_stopping s) (hs_listening s) (hs_start s) (hs_stop s) (Some err) (hs_calls s)
  end.

(** [`bootstrap: ${kind} server "${name}" ${what}`]. *)
Definition server_message (kind : string) (name : jstr) (what : string) : jstr :=
  js "bootstrap: " ++ js kind ++ js " server " ++ [34] ++ name ++ [34] ++ js " " ++ js what.

(** The results of the calls of [start] and [stop]. *)
Inductive CallResult : Type := Done | Rejected (message : jstr).

(** [start], and the callbacks it waits for. *)
Definition http_start (name : jstr) (s : HttpServer) : HttpServer * option CallResult :=
  if hs_started s then (s, Some (Rejected (server_message "http" name "already started")))
  else
    (http_calls (mkHttp (hs_started s) (hs_stopping s) (hs_listening s) true (hs_stop s) (hs_exited s) (hs_calls s)) [Listen], None).
Definition http_listening (s : HttpServer) : HttpServer * CallResult :=
  (mkHttp true (hs_stopping s) true false (hs_stop s) (hs_exited s) (hs_calls s), Done).

(** The [error] event: while it starts, and while it serves. *)
Definition http_error (message : jstr) (s : HttpServer) : HttpServer * option CallResult :=
  if hs_start s then
    (mkHttp (hs_started s) (hs_stopping s) (hs_listening s) false (hs_stop s) (hs_exited s) (hs_calls s), Some (Rejected message))
  else if hs_listening s then (settleExitedOnce (Some message) s, None)
  else (s, None).

(** The [close] event. *)
Definition http_closed (name : jstr) (s : HttpServer) : HttpServer :=
  settleExitedOnce (if hs_stopping s then None else Some (server_message "http" name "closed unexpectedly")) s.

(** [stop]: [None] while it waits for the callback of [close]. *)
Definition http_stop (aborted : bool) (s : HttpServer) : HttpServer * option CallResult :=
  if hs_started s then
    (http_calls (mkHttp (hs_started s) true (hs_listening s) (hs_start s) (Some (negb aborted)) (hs_exited s) (hs_calls s))
       (CloseServer :: if aborted then [CloseAllConnections] else []), None)
  else (s, Some Done).

(** The end of the budget, and the callback of [close]: [None], or the code and the
    message of an error. *)
Definition http_budget (s : HttpServer) : HttpServer :=
  match hs_stop s with Some true => http_calls s [CloseAllConnections] | _ => s end.
Definition ERR_SERVER_NOT_RUNNING : jstr := js "ERR_SERVER_NOT_RUNNING".
Definition http_close_callback (err : option (jstr * jstr)) (s : HttpServer) : HttpServer * CallResult :=
  let s := mkHttp (hs_started s) (hs_stopping s) (hs_listening s) (hs_start s) None (hs_exited s) (hs_calls s) in
  match err with
  | Some (code, message) =>
      if bool_decide (code = ERR_SERVER_NOT_RUNNING)
      then (mkHttp false (hs_stopping s) (hs_listening s) (hs_start s) None (hs_exited s) (hs_calls s), Done)
      else (s, Rejected message)
  | None => (mkHttp false (hs_stopping s) (hs_listening s) (hs_start s) None (hs_exited s) (hs_calls s), Done)
  end.

Inductive HttpEvent : Type :=
| HttpStart
| HttpListening
| HttpError (message : jstr)
| HttpClosed
| HttpStop (aborted : bool)
| HttpBudget
| HttpCloseCallback (err : option (jstr * jstr)).

Definition http_step (name : jstr) (ev : HttpEvent) (s : HttpServer) : HttpServer :=
  match ev with
  | HttpStart => (http_start name s).1
  | HttpListening => if hs_start s then (http_listening s).1 else s
  | HttpError message => (http_error message s).1
  | HttpClosed => http_closed name s
  | HttpStop aborted => (http_stop aborted s).1
  | HttpBudget => http_budget s
  | HttpCloseCallback err => if hs_stop s then (http_close_callback err s).1 else s
  end.

Definition run_http (name : jstr) (evs : list HttpEvent) : HttpServer := fold_left (λ s ev, http_step name ev s) evs new_http.

(** ** The gRPC component *)

Record GrpcServer : Type := mkGrpc { gs_started : bool; gs_stop : option bool; gs_calls : list ServerCall }.

Definition new_grpc : GrpcServer := mkGrpc false None [].

Definition grpc_start (name : jstr) (s : GrpcServer) : GrpcServer * option CallResult :=
  if gs_started s then (s, Some (Rejected (server_message "grpc" name "already started")))
  else (mkGrpc false (gs_stop s) (gs_calls s ++ [BindAsync]), None).
Definition grpc_bound (err : option jstr) (s : GrpcServer) : GrpcServer * CallResult :=
  match err with
  | Some message => (s, Rejected message)
  | None => (mkGrpc true (gs_stop s) (gs_calls s ++ [StartServer]), Done)
  end.
Definition grpc_stop (aborted : bool) (s : GrpcServer) : GrpcServer * option CallResult :=
  if gs_started s then
    (mkGrpc true (Some (negb aborted)) (gs_calls s ++ (if aborted then [ForceShutdown] else []) ++ [TryShutdown]), None)
  else (s, Some Done).
Definition grpc_budget (s : GrpcServer) : GrpcServer :=
  match gs_stop s with Some true => mkGrpc (gs_started s) (Some false) (gs_calls s ++ [ForceShutdown]) | _ => s end.
Definition grpc_shutdown_callback (err : option jstr) (s : GrpcServer) : GrpcServer * CallResult :=
  match err with
  | Some message => (mkGrpc (gs_started s) None (gs_calls s), Rejected message)
  | None => (mkGrpc false None (gs_calls s), Done)
  end.

(** ** The health endpoint *)

Definition HEALTH_PORT : Z := 38080.
Definition HEALTH_PATH : jstr := js "/healthz".
Definition HEALTH_BODY : jstr := js "ok" ++ jnl.

(** [(req.url ?? '').split('?')[0]]. *)
Fixpoint before_query (url : jstr) : jstr :=
  match url with [] => [] | c :: url => if c =? 63 then [] else c :: before_query url end.

(** The request handler: status and body. *)
Definition health_response (method : jstr) (url : option jstr) : Z * jstr :=
  if bool_decide (method = js "GET") && bool_decide (before_query (default [] url) = HEALTH_PATH) then (200, HEALTH_BODY)
  else (404, []).

(** The service: whether it listens and where; a second start throws. *)
Record HealthService : Type := mkHealth { he_started : bool; he_port : Z }.

Definition new_health : HealthService := mkHealth false HEALTH_PORT.
Definition health_start (port : Z) (res : option jstr) (s : HealthService) : HealthService * CallResult :=
  if he_started s then (s, Rejected (js "bootstrap: health server already listening on :" ++ jnum (he_port s)))
  else match res with Some message => (s, Rejected message) | None => (mkHealth true port, Done) end.

(** [stop]: the callback of [close], or the reason of the signal when the budget ends
    first. *)
Definition health_stop (res : jstr + option (jstr * jstr)) (s : HealthService) : HealthService * CallResult :=
  if he_started s then
    match res with
    | inl reason => (s, Rejected (js "bootstrap: health server stop timed out: " ++ reason))
    | inr (Some (code, message)) =>
        if bool_decide (code = ERR_SERVER_NOT_RUNNING) then (mkHealth false (he_port s), Done) else (s, Rejected message)
    | inr None => (mkHealth false (he_port s), Done)
    end
  else (s, Done).

(** ** What they guarantee *)

(** The exit of a server that has started is reported as unexpected unless a stop was
    asked for before it. *)
Definition http_ok (s : HttpServer) : Prop := hs_exited s = Some None → hs_stopping s = true.

Lemma http_step_ok name ev s : http_ok s → http_ok (http_step name ev s).
Proof.
  unfold http_ok; destruct ev as [| |m| |ab| |err]; simpl;
    unfold http_start, http_listening, http_error, http_closed, http_stop, http_budget, http_close_callback, settleExitedOnce;
    repeat case_match; simpl; try done; intros; simplify_eq/=; auto.
Qed.

(** What [exited] settled with stays. *)
Lemma http_exit_once name ev s x : hs_exited s = Some x → hs_exited (http_step name ev s) = Some x.
Proof.
  intros Hx; destruct ev as [| |m| |ab| |err]; simpl;
    unfold http_start, http_listening, http_error, http_closed, http_stop, http_budget, http_close_callback, settleExitedOnce;
    rewrite ?Hx; repeat case_match; simpl; simplify_eq/=; done.
Qed.

(** A server component reports a normal exit only after it was asked to stop, and
    reports once: later events change nothing. *)
Lemma exit_is_reported_once name evs evs' :
  (hs_exited (run_http name evs) = Some None → hs_stopping (run_http name evs) = true) ∧
  (∀ x, hs_exited (run_http name evs) = Some x → hs_exited (run_http name (evs ++ evs')) = Some x).
Proof.
  unfold run_http; split.
  - assert (H0 : http_ok new_http) by done; revert H0; generalize new_http.
    induction evs as [|ev evs IH]; intros s Hs; simpl; [done|]; by apply IH, http_step_ok.
  - intros x; rewrite fold_left_app; generalize (fold_left (λ s ev, http_step name ev s) evs new_http) as s.
    induction evs' as [|ev evs' IH]; intros s Hx; simpl; [done|]; by apply IH, http_exit_once.
Qed.

(** A stop that failed leaves the component started, so that it can be tried again. *)
Lemma failed_stop_can_be_retried s code message :
  code ≠ ERR_SERVER_NOT_RUNNING → hs_started s = true →
  let s' := (http_close_callback (Some (code, message)) s).1 in (http_stop false s').2 = None.
Proof. intros Hc Hs; unfold http_close_callback, http_stop; rewrite bool_decide_false by done; simpl; by rewrite Hs. Qed.

(** The endpoint answers [ok] to every GET of its path, with or without a query, and
    404 to all else. *)
Lemma health_answers method url :
  health_response method url = (200, HEALTH_BODY) ↔
  method = js "GET" ∧ ∃ query, default [] url = HEALTH_PATH ++ query ∧ (query = [] ∨ head query = Some 63).
Proof.
  assert (Hpath : ∀ u, before_query u = HEALTH_PATH ↔ ∃ query, u = HEALTH_PATH ++ query ∧ (query = [] ∨ head query = Some 63)).
  { assert (Hgen : ∀ p u, 63 ∉ p → before_query u = p ↔ ∃ query, u = p ++ query ∧ (query = [] ∨ head query = Some 63)).
    { intros p; induction p as [|c p IH]; intros u Hp.
      - destruct u as [|d u]; simpl; [by naive_solver|]; destruct (Z.eqb_spec d 63) as [->|Hd]; split; try done; [by exists (63 :: u); auto|].
        intros (q & <- & [?|[= ?]]); congruence.
      - apply not_elem_of_cons in Hp as [Hc Hp]; destruct u as [|d u]; simpl.
        + split; [done|]; by intros (q & Hq & _).
        + destruct (Z.eqb_spec d 63) as [->|Hd]; split; try done.
          * intros (q & [= ? _] & _); congruence.
          * intros [= -> Hu]; apply (IH u Hp) in Hu as (q & -> & Hq); by exists q.
          * intros (q & [= -> ->] & Hq); f_equal; apply (IH _ Hp); by exists q. }
    intros u; apply Hgen; vm_compute; intros H; repeat (apply elem_of_cons in H as [H|H]; [discriminate|]); by apply elem_of_nil in H. }
  unfold health_response; rewrite <-Hpath.
  destruct (bool_decide (method = js "GET")) eqn:Hm, (bool_decide (before_query (default [] url) = HEALTH_PATH)) eqn:Hu;
    rewrite ?bool_decide_eq_true, ?bool_decide_eq_false in *; simpl; split; try done; by intros [? ?].
Qed.
