(* ===== verification/Config.v ===== *)
(** * Reading a configuration

    [common/js/config/src/merge.ts] and [index.ts]: the deep merge of a configuration
    entry over its defaults, and [readConfig] around it.  The YAML parser and the file
    system are parameters.  The second half has what the merge guarantees.

    Objects are lists of fields with distinct keys; a value the parser makes that is
    neither a plain object nor an array — a date, say — is [Opaque]. *)

From S2P Require Import Prelude.

#[local] Open Scope Z_scope.

Inductive Value : Type :=
| Undefined
| Null
| Boolean (b : bool)
| Number (text : string)
| Text (s : string)
| Opaque (text : string)
| Array (items : list Value)
| Object (fields : list (string * Value)).

Definition Fields : Type := list (string * Value).

Definition POLLUTING_KEYS : list string := ["__proto__"; "constructor"; "prototype"].
Definition polluting (key : string) : bool := bool_decide (key ∈ POLLUTING_KEYS).

Fixpoint get_field (key : string) (fields : Fields) : option Value :=
  match fields with
  | [] => None
  | (k, v) :: fields => if bool_decide (k = key) then Some v else get_field key fields
  end.

(** [target[key] = value]: in place, or at the end. *)
Fixpoint set_field (key : string) (value : Value) (fields : Fields) : Fields :=
  match fields with
  | [] => [(key, value)]
  | (k, v) :: fields => if bool_decide (k = key) then (k, value) :: fields else (k, v) :: set_field key value fields
  end.

Definition is_undefined (v : Value) : bool := match v with Undefined => true | _ => false end.

(** [deepMerge] of two plain objects; of any other two values, the source. *)
Fixpoint merge (source target : Value) : Value :=
  match source, target with
  | Object sf, Object tf =>
      Object
        ((fix go (sf tf : Fields) : Fields :=
            match sf with
            | [] => tf
            | (key, srcValue) :: sf =>
                if polluting key || is_undefined srcValue then go sf tf
                else
                  go sf
                    (set_field key (match get_field key tf with Some t => merge srcValue t | None => srcValue end) tf)
            end) sf tf)
  | _, _ => source
  end.

(** One field of the loop, and the loop. *)
Definition merge_field (tf : Fields) (f : string * Value) : Fields :=
  if polluting f.1 || is_undefined f.2 then tf
  else set_field f.1 (match get_field f.1 tf with Some t => merge f.2 t | None => f.2 end) tf.
Definition deepMerge (target source : Fields) : Fields := fold_left merge_field source target.

(** ** readConfig *)

Inductive ConfigError : Type :=
| NotDeployed (block key : string)
| NotFound (block key path message : string)
| NotParsed (block key path : string) (position : option (Z * Z))
| NotAMapping (block key path : string).

Section Read.
(** [path.join], the file system and the parser: its error has the mark of a YAML
    error, if it has one. *)
Context (join : string → string → string → string).
Context (readFile : string → string + string).
Context (load : string → option (Z * Z) + Value).

(** [parseErrorPosition]: lines and columns from 1. *)
Definition parseErrorPosition (mark : option (Z * Z)) : option (Z * Z) :=
  (λ m, (m.1 + 1, m.2 + 1)) <$> mark.

Definition readConfig (configDir : option string) (block key : string) (defaults : Fields) : ConfigError + Fields :=
  match configDir with
  | None | Some EmptyString => inl (NotDeployed block key)
  | Some dir =>
      let filePath := join dir block key in
      match readFile filePath with
      | inl message => inl (NotFound block key filePath message)
      | inr content =>
          match load content with
          | inl mark => inl (NotParsed block key filePath (parseErrorPosition mark))
          | inr (Object config) => inr (deepMerge defaults config)
          | inr _ => inl (NotAMapping block key filePath)
          end
      end
  end.
End Read.

(** ** Fields *)

Lemma get_set_field key key' v fields :
  get_field key (set_field key' v fields) = if bool_decide (key' = key) then Some v else get_field key fields.
Proof.
  induction fields as [|[k w] fields IH]; simpl; [done|].
  destruct (bool_decide (k = key')) eqn:Hk; simpl.
  - apply bool_decide_eq_true in Hk as ->; by case_bool_decide.
  - rewrite IH; apply bool_decide_eq_false in Hk.
    destruct (bool_decide (k = key)) eqn:Hk'; [|done].
    apply bool_decide_eq_true in Hk' as ->; rewrite bool_decide_false by congruence; done.
Qed.

Lemma merge_objects sf tf : merge (Object sf) (Object tf) = Object (deepMerge tf sf).
Proof.
  simpl; f_equal; unfold deepMerge; revert tf; induction sf as [|[key v] sf IH]; intros tf; simpl; [done|].
  unfold merge_field at 2; simpl; destruct (polluting key || is_undefined v); apply IH.
Qed.

Lemma merge_replaces s t : (∀ sf tf, s = Object sf → t = Object tf → False) → merge s t = s.
Proof. destruct s, t; try done; intros H; by destruct (H _ _ eq_refl eq_refl). Qed.

(** A field of the result: the source's, over the target's. *)
Definition merged_field (key : string) (tf sf : Fields) : option Value :=
  if polluting key then get_field key tf
  else
    match get_field key sf with
    | None | Some Undefined => get_field key tf
    | Some v => Some (match get_field key tf with Some t => merge v t | None => v end)
    end.

Lemma get_field_None key fields : key ∉ fields.*1 → get_field key fields = None.
Proof.
  induction fields as [|[k v] fields IH]; simpl; [done|]; rewrite not_elem_of_cons; intros [Hk Hin].
  rewrite bool_decide_false by congruence; auto.
Qed.

Lemma deepMerge_field key tf sf : NoDup sf.*1 → get_field key (deepMerge tf sf) = merged_field key tf sf.
Proof.
  revert tf; induction sf as [|[k v] sf IH]; intros tf; simpl; [intros _; unfold merged_field; by destruct (polluting key)|].
  intros [Hk Hnd]%NoDup_cons; change (deepMerge tf ((k, v) :: sf)) with (deepMerge (merge_field tf (k, v)) sf).
  rewrite IH by done; unfold merged_field, merge_field; simpl.
  destruct (polluting key) eqn:Hpk.
  - destruct (polluting k || is_undefined v) eqn:Hs; [done|]; rewrite get_set_field, bool_decide_false; [done|].
    intros ->; by rewrite Hpk in Hs.
  - destruct (bool_decide (k = key)) eqn:Hkk.
    + apply bool_decide_eq_true in Hkk as ->; rewrite (get_field_None key sf Hk), Hpk; simpl.
      destruct v; simpl; try done; by rewrite get_set_field, bool_decide_true.
    + destruct (polluting k || is_undefined v); [done|].
      by rewrite !get_set_field, Hkk.
Qed.

(** ** Paths *)

Fixpoint at_path (path : list string) (v : Value) : option Value :=
  match path with
  | [] => Some v
  | key :: path => match v with Object fields => get_field key fields ≫= at_path path | _ => None end
  end.

(** Objects with distinct keys, all the way down. *)
Inductive well_formed : Value → Prop :=
| wf_object fields : NoDup fields.*1 → (∀ key v, get_field key fields = Some v → well_formed v) → well_formed (Object fields)
| wf_other v : (∀ fields, v ≠ Object fields) → well_formed v.

(** The source says nothing about the path: on the way it has no field, an undefined
    one, or a key that is passed over. *)
Fixpoint silent (path : list string) (source : Value) : Prop :=
  match path, source with
  | key :: path, Object fields =>
      polluting key = true ∨ match get_field key fields with None | Some Undefined => True | Some v => silent path v end
  | _, _ => False
  end.

Definition is_object (v : Value) : bool := match v with Object _ => true | _ => false end.

(** ** Properties *)

(** What the configuration says wins: every value it has that is not a mapping — a
    null as well — is at the same path of the result, unless a key on the way is one
    of the three that are passed over. *)
Theorem configuration_wins (source target : Value) (path : list string) (leaf : Value)
    (Hwf : well_formed source) (Hleaf : at_path path source = Some leaf) (Hvalue : is_object leaf = false)
    (Hdefined : leaf ≠ Undefined) (Hpath : Forall (λ key, polluting key = false) path) :
  at_path path (merge source target) = Some leaf.
Proof.
  revert source target Hwf Hleaf; induction Hpath as [|key path Hkey _ IH]; intros source target Hwf Hleaf.
  - injection Hleaf as ->; by destruct leaf.
  - destruct source as [| | | | | | |sf]; try discriminate; simpl in Hleaf.
    destruct target as [| | | | | | |tf]; try exact Hleaf.
    inversion Hwf as [fields Hnd Hsub|v Hno]; [subst|by destruct (Hno sf)].
    rewrite merge_objects; cbn [at_path]; rewrite deepMerge_field by done; unfold merged_field; rewrite Hkey.
    destruct (get_field key sf) as [v|] eqn:Hv; [|discriminate]; simpl in Hleaf.
    assert (Hundef : v ≠ Undefined) by (intros ->; destruct path; simplify_eq/=).
    destruct v; try done; cbn [mbind option_bind]; (destruct (get_field key tf); [apply IH|]; eauto).
Qed.

(** What the configuration does not speak of keeps its default: a value the
    defaults have at a path on which the configuration has no field, an undefined one,
    or one of the keys that are passed over, is at that path of the result. *)
Theorem defaults_are_kept (source target default : Value) (path : list string)
    (Hwf : well_formed source) (Hdefault : at_path path target = Some default) (Hsilent : silent path source) :
  at_path path (merge source target) = Some default.
Proof.
  revert source target Hwf Hdefault Hsilent; induction path as [|key path IH]; intros source target Hwf Hdefault Hsilent; [done|].
  destruct source as [| | | | | | |sf]; try done; destruct target as [| | | | | | |tf]; try discriminate.
  inversion Hwf as [fields Hnd Hsub|v Hno]; [subst|by destruct (Hno sf)].
  rewrite merge_objects; cbn [at_path] in *; rewrite deepMerge_field by done; unfold merged_field.
  destruct (polluting key) eqn:Hkey; [done|]; destruct Hsilent as [Hp|Hs]; [congruence|].
  destruct (get_field key sf) as [v|] eqn:Hv; [|done].
  destruct (get_field key tf) as [t|] eqn:Ht; [|discriminate]; cbn [mbind option_bind] in *.
  destruct v; try done; try (by destruct path); by apply IH; eauto.
Qed.

(** A polluting key is passed over only where objects are merged: in an object that
    has no counterpart in the defaults it is kept. *)
Lemma polluting_key_of_a_new_object :
  merge (Object [("a", Object [("constructor", Null)])]) (Object []) = Object [("a", Object [("constructor", Null)])] ∧
  merge (Object [("a", Object [("constructor", Null)])]) (Object [("a", Object [])]) = Object [("a", Object [])].
Proof. done. Qed.

(** ** Witnesses *)

Definition sample_config : Value := Object [("port", Null); ("log", Object [("level", Text "debug")])].
Definition sample_defaults : Value := Object [("port", Number "80"); ("log", Object [("level", Text "info"); ("json", Boolean true)])].

Lemma sample_well_formed : well_formed sample_config.
Proof.
  constructor; [vm_compute; repeat constructor; set_solver|]; intros key v; simpl; repeat case_bool_decide; try done.
  - intros [= <-]; by constructor 2.
  - intros [= <-]; constructor; [apply NoDup_singleton|]; intros k w; simpl; case_bool_decide; [|done].
    intros [= <-]; by constructor 2.
Qed.

Lemma configuration_wins_witness : at_path ["log"; "level"] (merge sample_config sample_defaults) = Some (Text "debug").
Proof. apply (configuration_wins sample_config sample_defaults); [apply sample_well_formed|done..|repeat constructor]. Defined.

Lemma defaults_are_kept_witness : at_path ["log"; "json"] (merge sample_config sample_defaults) = Some (Boolean true).
Proof. apply (defaults_are_kept sample_config sample_defaults); [apply sample_well_formed|done|]. vm_compute; right; right; exact I. Defined.
