(* ===== verification/Logs.v ===== *)
(** * Structured logs

    [common/js/logs/src/logger.ts], [reporter.ts] and [context.ts]: the logger, the
    reporter it writes to or the console, the installation of reporters, and the
    attributes and the logger of a scope.  Writing to the process's output and the
    OpenTelemetry logger are parameters: the model has the line or the record that is
    written.  The last section has what the package guarantees. *)

From S2P Require Import Prelude JsText JsJson.

#[local] Open Scope Z_scope.

(** ** Values *)

Inductive LogLevel : Type := level_debug | level_info | level_warn | level_error.

#[export] Instance LogLevel_eq_dec : EqDecision LogLevel.
Proof. solve_decision. Defined.

Definition level_name (l : LogLevel) : jstr :=
  js match l with level_debug => "debug" | level_info => "info" | level_warn => "warn" | level_error => "error" end.

(** [LogAttributeValue]: numbers, booleans and records as the JSON they have; an
    [Error] as its message and the JSON of its own enumerable fields. *)
Inductive AttributeValue : Type :=
| AttrText (s : jstr)
| AttrJson (json : jstr)
| AttrError (message own : jstr)
| AttrUndefined.

Definition LogAttributes : Type := list (jstr * AttributeValue).

Fixpoint set_attr (key : jstr) (v : AttributeValue) (attrs : LogAttributes) : LogAttributes :=
  match attrs with
  | [] => [(key, v)]
  | (k, w) :: attrs => if bool_decide (k = key) then (k, v) :: attrs else (k, w) :: set_attr key v attrs
  end.

(** [{ ...base, ...attrs }]. *)
Definition spread (base attrs : LogAttributes) : LogAttributes := fold_left (λ b a, set_attr a.1 a.2 b) attrs base.

(** [JSON.stringify]: undefined fields are left out. *)
Definition attr_json (v : AttributeValue) : option jstr :=
  match v with
  | AttrText s => Some (stringify s)
  | AttrJson json => Some json
  | AttrError _ own => Some own
  | AttrUndefined => None
  end.
Definition entry_json (entry : LogAttributes) : jstr :=
  js "{" ++ jjoin (js ",") (omap (λ f, (λ j, stringify f.1 ++ js ":" ++ j) <$> attr_json f.2) entry) ++ js "}".

(** ** Reporters *)

(** A reporter by its identity; the console one and one of OpenTelemetry, that may have
    found no logger. *)
Inductive Reporter : Type :=
| ConsoleReporter (id : nat)
| OTelReporter (id : nat) (found : bool).

#[export] Instance Reporter_eq_dec : EqDecision Reporter.
Proof. solve_decision. Defined.

(** What is written: a line of the process's output, a line of the console, or a
    record of OpenTelemetry. *)
Inductive Written : Type :=
| OutputLine (line : jstr)
| ConsoleLine (line : jstr)
| Emitted (severity : Z) (severityText body : jstr) (attributes : LogAttributes).

(** The numbers of [SeverityNumber]. *)
Definition severityFromLevel (l : LogLevel) : Z :=
  match l with level_debug => 5 | level_info => 9 | level_warn => 13 | level_error => 17 end.

Definition toOTelAttributes (attrs : LogAttributes) : LogAttributes :=
  omap (λ f, match f.2 with
             | AttrUndefined => None
             | AttrError message _ => Some (f.1, AttrText message)
             | v => Some (f.1, v)
             end) attrs.

Definition base_entry (level : LogLevel) (msg : jstr) : LogAttributes :=
  [(js "level", AttrText (level_name level)); (js "msg", AttrText msg)].

(** [write]; [now] is the time's ISO text. *)
Definition reporter_write (r : Reporter) (now : jstr) (level : LogLevel) (msg : jstr) (attrs : LogAttributes) : list Written :=
  match r with
  | ConsoleReporter _ =>
      [OutputLine (entry_json (set_attr (js "time") (AttrText now) (spread (base_entry level msg) attrs)) ++ jnl)]
  | OTelReporter _ found =>
      if found then [Emitted (severityFromLevel level) (level_name level) msg (toOTelAttributes attrs)] else []
  end.

(** The installed reporter; an uninstall function is what it closes over. *)
Record Uninstall : Type := mkUninstall { un_reporter : Reporter; un_previous : option Reporter }.

Definition installReporter (installed : option Reporter) (r : Reporter) : option Reporter * Uninstall :=
  (Some r, mkUninstall r installed).
Definition uninstall (u : Uninstall) (installed : option Reporter) : option Reporter :=
  if bool_decide (installed = Some (un_reporter u)) then un_previous u else installed.

(** ** Logger *)

(** ASCII lower case, which is what the comparison with [debug] sees. *)
Definition lower_ascii (c : Z) : Z := if (65 <=? c) && (c <=? 90) then c + 32 else c.
Definition resolveLogLevel (LOG_LEVEL : option jstr) : LogLevel :=
  if bool_decide (lower_ascii <$> default [] LOG_LEVEL = js "debug") then level_debug else level_info.

(** A call of a logger of this level, with the installed reporter. *)
Definition log (logger_level : LogLevel) (installed : option Reporter) (now : jstr) (level : LogLevel) (msg : jstr)
    (attrs : option LogAttributes) : list Written :=
  if bool_decide (level = level_debug) && negb (bool_decide (logger_level = level_debug)) then []
  else
    match installed with
    | Some r => reporter_write r now level msg (default [] attrs)
    | None => [ConsoleLine (entry_json (spread (base_entry level msg) (default [] attrs)))]
    end.

(** ** Context *)

Record ContextState : Type := mkContext { cx_logger : option LogLevel; cx_attributes : option LogAttributes }.

Definition currentLogger (state : option ContextState) (default_logger : LogLevel) : LogLevel :=
  default default_logger (state ≫= cx_logger).
Definition currentAttributes (state : option ContextState) : LogAttributes := default [] (state ≫= cx_attributes).

(** The state that [fn] runs in. *)
Definition withAttributes (attrs : LogAttributes) (parent : option ContextState) : ContextState :=
  mkContext (parent ≫= cx_logger) (Some (spread (currentAttributes parent) attrs)).
Definition withLogger (logger : option LogLevel) (default_logger : LogLevel) (parent : option ContextState) : ContextState :=
  mkContext (Some (match logger with Some l => l | None => currentLogger parent default_logger end)) (parent ≫= cx_attributes).

(** ** What the package guarantees *)

(** Only debug is ever filtered: every other call writes exactly one line or record,
    unless the installed reporter has no logger to write to. *)
Lemma only_debug_is_filtered logger_level installed now level msg attrs :
  match installed with Some (OTelReporter _ false) => False | _ => True end →
  length (log logger_level installed now level msg attrs)
  = if bool_decide (level = level_debug) && negb (bool_decide (logger_level = level_debug)) then 0%nat else 1%nat.
Proof. unfold log; intros H; destruct (_ && _); [done|]; destruct installed as [[id|id []]|]; done. Qed.

(** Reporters that are uninstalled in the reverse order of their installation leave
    what was installed before. *)
Fixpoint nest (rs : list Reporter) (installed : option Reporter) : option Reporter :=
  match rs with
  | [] => installed
  | r :: rs => let '(installed, u) := installReporter installed r in uninstall u (nest rs installed)
  end.

Lemma nested_reporters_restore rs installed : nest rs installed = installed.
Proof.
  revert installed; induction rs as [|r rs IH]; intros installed; simpl; [done|].
  rewrite IH; unfold uninstall; simpl; by rewrite bool_decide_true.
Qed.

(** A scope of attributes keeps the logger of its parent, a scope of a logger its
    attributes. *)
Lemma inner_scope_keeps_logger attrs parent d : currentLogger (Some (withAttributes attrs parent)) d = currentLogger parent d.
Proof. destruct parent; done. Qed.

Lemma logger_scope_keeps_attributes logger d parent :
  currentAttributes (Some (withLogger logger d parent)) = currentAttributes parent.
Proof. destruct parent; done. Qed.

(** ** What is lost, and what comes back *)

(** An error that is logged to the console is an empty object there: its message is
    written only by the OpenTelemetry reporter. *)
Lemma console_loses_the_error :
  log level_info None [] level_error (js "m") (Some [(js "err", AttrError (js "boom") (js "{}"))])
  = [ConsoleLine (entry_json [(js "level", AttrText (js "error")); (js "msg", AttrText (js "m")); (js "err", AttrJson (js "{}"))])].
Proof. vm_compute; reflexivity. Qed.

(** A reporter that was uninstalled is installed again by the uninstall of one
    installed after it. *)
Lemma uninstalled_reporter_comes_back :
  let a := ConsoleReporter 0 in
  let b := ConsoleReporter 1 in
  let '(s, ua) := installReporter None a in
  let '(s, ub) := installReporter s b in
  uninstall ub (uninstall ua s) = Some a.
Proof. vm_compute; reflexivity. Qed.

(** An attribute named like a field of the entry takes its place. *)
Lemma attribute_replaces_the_message :
  spread (base_entry level_info (js "m")) [(js "msg", AttrText (js "x"))]
  = [(js "level", AttrText (js "info")); (js "msg", AttrText (js "x"))].
Proof. vm_compute; reflexivity. Qed.
