(* ===== verification/Tools.v ===== *)
(** * The tools of the minesweeper agent

    [common/js/dsh-plugins/saolei/tools/src/index.ts]: the two forms of the arguments
    of [saolei_operate], the runtime a call finds, and what becomes of its outcome.
    The runtime is the one of [Runtime.v]; what the framework does with a thrown error
    and with [concludeTurn] is outside the model. *)

From S2P Require Import Prelude BoardTypes Rules GameText Wire Runtime.

#[local] Open Scope Z_scope.

Definition AMBIGUOUS_ARGS_TEXT : string :=
  "saolei_operate → rejected: provide EITHER type/x/y (single operation) OR operations (batch), not both.".
Definition MISSING_ARGS_TEXT : string :=
  "saolei_operate → rejected: provide EITHER type/x/y (single operation) OR an operations array (batch).".
Definition INCOMPLETE_ARGS_TEXT : string :=
  "saolei_operate → rejected: the single-operation form requires ALL of type, x and y together.".

(** The arguments, absent or null as [None]. *)
Record OperateToolArgs : Type := mkArgs {
  oa_type : option OperationType;
  oa_x : option Z;
  oa_y : option Z;
  oa_operations : option (list CellOperation);
}.

(** [normalizeOperateArgs]: the rejection text, or the input. *)
Definition normalizeOperateArgs (args : OperateToolArgs) : string + OperateInput :=
  match args with
  | mkArgs None None None None => inl MISSING_ARGS_TEXT
  | mkArgs None None None (Some operations) => inr (Batch operations)
  | mkArgs _ _ _ (Some _) => inl AMBIGUOUS_ARGS_TEXT
  | mkArgs (Some type) (Some x) (Some y) None => inr (Single (mkOp type x y))
  | mkArgs _ _ _ None => inl INCOMPLETE_ARGS_TEXT
  end.

Definition in_quotes (s : string) : string :=
  String (Ascii.ascii_of_nat 34) s +:+ String (Ascii.ascii_of_nat 34) EmptyString.

Section Tools.
Context `{SaoleiBoardApi} `{RuntimeEnv}.

(** [exec.agent]: its id, and whether the runtime is registered in its scope. *)
Record ToolRunContext : Type := mkExec { ex_agent : option (string * bool) }.

(** What a tool call comes to: its result, after concluding the turn or not, or an
    error with its message; the promise of the runtime may reject. *)
Inductive ToolCall : Type :=
| ToolResult (result : string) (concluded : bool)
| ToolThrew (message : string)
| ToolRejected.

Definition no_agent_message : string :=
  "saolei tools require a loop-driven agent caller: no agent on the tool execution".
Definition no_game_message (id : string) : string :=
  "saolei tools require the agent-scoped " +:+ in_quotes "saoleiGame" +:+ " service; agent " +:+ in_quotes id +:+
  " has none (the materialization setup registers it on agent.ctx via createAgentGameRuntime)".

(** [resolveRuntime]: the error, if it throws. *)
Definition resolveRuntime (exec : ToolRunContext) : option string :=
  match ex_agent exec with
  | None => Some no_agent_message
  | Some (id, false) => Some (no_game_message id)
  | Some (_, true) => None
  end.

(** [executeOutcome], of what the call of the runtime gave. *)
Definition outcome_of (outcome : CallResult) : ToolCall :=
  match outcome with
  | Returned (ToolError message) => ToolThrew message
  | Returned (ToolText text concludesTurn) => ToolResult text concludesTurn
  | Threw => ToolRejected
  end.

Definition executeOutcome (exec : ToolRunContext) (run : GameRuntime → W → GameRuntime * W * CallResult)
    (rt : GameRuntime) (w : W) : GameRuntime * W * ToolCall :=
  match resolveRuntime exec with
  | Some message => (rt, w, ToolThrew message)
  | None => let '(rt, w, outcome) := run rt w in (rt, w, outcome_of outcome)
  end.

(** The three tools. *)
Definition saolei_init (exec : ToolRunContext) : GameRuntime → W → GameRuntime * W * ToolCall :=
  executeOutcome exec (λ rt w, let '(rt, w, o) := init rt w in (rt, w, Returned o)).

Definition saolei_operate (exec : ToolRunContext) (args : OperateToolArgs) (rt : GameRuntime) (w : W)
    : GameRuntime * W * ToolCall :=
  match normalizeOperateArgs args with
  | inl rejection => (rt, w, ToolResult rejection false)
  | inr input => executeOutcome exec (λ rt w, operate rt w input) rt w
  end.

Definition saolei_remain (exec : ToolRunContext) : GameRuntime → W → GameRuntime * W * ToolCall :=
  executeOutcome exec (λ rt w, (rt, w, remain rt)).

(** ** What the tools guarantee *)

(** A call that is refused for its arguments, or made outside the scope of a game,
    leaves the game and the desktop alone. *)
Lemma refused_call_touches_nothing exec args rt w :
  (∃ rejection, normalizeOperateArgs args = inl rejection) ∨ is_Some (resolveRuntime exec) →
  ∃ answer, saolei_operate exec args rt w = (rt, w, answer).
Proof.
  unfold saolei_operate, executeOutcome; intros [[rejection ->]|[message Hm]]; [by eexists|].
  destruct (normalizeOperateArgs args); [by eexists|]; rewrite Hm; by eexists.
Qed.

(** The two forms of one operation are the same call, in everything it does. *)
Lemma single_form_is_a_batch_of_one exec type x y rt w :
  saolei_operate exec (mkArgs (Some type) (Some x) (Some y) None) rt w
  = saolei_operate exec (mkArgs None None None (Some [mkOp type x y])) rt w.
Proof. unfold saolei_operate; simpl; unfold executeOutcome; by destruct (resolveRuntime exec). Qed.

(** The arguments are accepted exactly in the two forms. *)
Lemma accepted_arguments args :
  (∃ input, normalizeOperateArgs args = inr input) ↔
  (∃ type x y, args = mkArgs (Some type) (Some x) (Some y) None) ∨ (∃ operations, args = mkArgs None None None (Some operations)).
Proof.
  split.
  - intros [input Hn]; destruct args as [[] [] [] []]; simplify_eq/=; eauto 6.
  - intros [(type & x & y & ->)|[operations ->]]; by eexists.
Qed.

(** A turn is concluded only by a board that is won or lost. *)
Lemma only_a_finished_board_concludes exec args rt w rt' w' text :
  saolei_operate exec args rt w = (rt', w', ToolResult text true) →
  ∃ s, recognized rt' = Some s ∧ gameStatus s ≠ playing.
Proof.
  assert (Hmark : ∀ s, concludeMarker s = true → gameStatus s ≠ playing).
  { intros s; unfold concludeMarker; by destruct (gameStatus s). }
  unfold saolei_operate, executeOutcome; destruct (normalizeOperateArgs args) as [rejection|input]; [done|].
  destruct (resolveRuntime exec); [done|]; unfold operate.
  assert (Hfinish : ∀ ops l q v, finish_batch ops l q v = (rt', w', Returned (ToolText text true)) →
            ∃ s, recognized rt' = Some s ∧ gameStatus s ≠ playing).
  { intros ops l q v; unfold finish_batch; destruct (recognized q) as [s|] eqn:Hs; [|by intros [= _ _ ?]].
    destruct (publish _ _ _) as [v' []]; [|done]; intros [= <- _ _ Hc]; exists s; split; [|by apply Hmark].
    unfold end_game; destruct (endedStatus l); done. }
  assert (Hout : ∀ o, outcome_of o = ToolResult text true → o = Returned (ToolText text true)).
  { intros [[t c|m]|]; simpl; congruence. }
  destruct (input_operations input) as [|op ops].
  - destruct (recognized rt) as [s|] eqn:Hs; simpl; [|done]; intros [= -> -> _ Hc]; eauto.
  - destruct (operate_loop (op :: ops) no_locals rt w) as [[q v] [l|m| |]]; simpl; try done.
    destruct (finish_batch (op :: ops) l q v) as [[q' v'] o] eqn:Hf; intros Heq.
    injection Heq as -> -> Ho; apply Hout in Ho as ->; eauto.
Qed.

End Tools.
