(* ===== verification/Databases.v ===== *)
(** * The database clients

    [common/js/mongo/src/{target,credentials,client}.ts] and
    [common/js/redis/src/{target,credentials,client}.ts]: targets, derived passwords
    and connection strings.  The endpoint resolver is what it answers, the HMAC of the
    host and the conversion of a text to a number are parameters, and connecting is
    left to the drivers. *)

From S2P Require Import Prelude JsText JsJson Resolver.

#[local] Open Scope Z_scope.

(** ** mongo: target.ts *)

Definition MONGO_DEFAULT_PORT : Z := 27017.

Definition invalidTarget (raw : jstr) : jstr :=
  js "invalid mongo target " ++ stringify raw ++ js ": want " ++ [34] ++ js "app/name" ++ [34] ++ js " or " ++ [34]
    ++ js "dominion:///app/service:port" ++ [34].

(** The last separator of the rest: what is before it and after it. *)
Definition cut_last (c : Z) (s : jstr) : option (jstr * jstr) :=
  let i := lastIndexOf s c in if i =? -1 then None else Some (slice_to s i, slice_from s (i + 1)).

(** The body, without a scheme. *)
Definition mongo_body (trimmed : jstr) : option jstr :=
  if bool_decide (trimmed = []) then None
  else if bool_decide (DOMINION_SCHEME_PREFIX `prefix_of` trimmed) then Some (drop (length DOMINION_SCHEME_PREFIX) trimmed)
  else if includes trimmed (js "://") then None
  else Some trimmed.

(** The service and the port of what follows the slash. *)
Definition service_port (rest : jstr) : option (jstr * Z) :=
  match cut_last colon rest with
  | None => Some (trim rest, MONGO_DEFAULT_PORT)
  | Some (before, after) =>
      let portPart := trim after in
      if all_digits portPart then Some (trim before, digits_value portPart) else None
  end.

Definition valid_parts (t : Target) : bool :=
  negb (bool_decide (app t = []) || bool_decide (service t = []) || bool_decide (slash_unit ∈ service t)
        || bool_decide (colon ∈ service t) || (port t <=? 0) || (MAX_PORT <? port t)).

Definition parseMongoTarget (raw : jstr) : jstr + Target :=
  match
    body ← mongo_body (trim raw);
    '(app, rest) ← cut slash_unit body;
    '(service, port) ← service_port rest;
    let t := mkTarget (trim app) service port in
    if valid_parts t then Some t else None
  with
  | Some t => inr t
  | None => inl (invalidTarget raw)
  end.

Definition mongo_resolveTarget (t : Target) : jstr := app t ++ js "/" ++ service t ++ js ":" ++ jnum (port t).

(** ** redis: target.ts *)

Definition REDIS_DEFAULT_PORT : Z := 6379.

Record RedisTarget : Type := mkRedisTarget { rt_app : jstr; rt_service : jstr }.

Definition parseRedisTarget (raw : jstr) : jstr + RedisTarget :=
  let invalid := inl (js "invalid redis target " ++ stringify raw ++ js ": want " ++ [34] ++ js "app/name" ++ [34]) in
  match cut slash_unit (trim raw) with
  | None => invalid
  | Some (app, service) =>
      let app := trim app in
      let service := trim service in
      if bool_decide (app = []) || bool_decide (service = []) || bool_decide (slash_unit ∈ service) || bool_decide (colon ∈ service)
      then invalid
      else inr (mkRedisTarget app service)
  end.

Definition redis_resolveTarget (t : RedisTarget) : jstr :=
  rt_app t ++ js "/" ++ rt_service t ++ js ":" ++ jnum REDIS_DEFAULT_PORT.

(** ** credentials.ts *)

Definition PASSWORD_ALPHABET : jstr := js "abcdefghijklmnopqrstuvwxyzABCDEFGHIJKLMNOPQRSTUVWXYZ0123456789".
Definition PASSWORD_MIN_LEN : nat := 24.

Definition encode_byte (byte : Z) : Z := nth (Z.to_nat (byte `mod` 62)) PASSWORD_ALPHABET 0.

(** The loop that extends a short digest, which stops inside its round. *)
Fixpoint extend (fuel : nat) (sum : list Z) (encoded : jstr) : option jstr :=
  if (PASSWORD_MIN_LEN <=? length encoded)%nat then Some encoded
  else
    match fuel with
    | O => None
    | S fuel => extend fuel sum (encoded ++ take (PASSWORD_MIN_LEN - length encoded) (encode_byte <$> sum))
    end.

(** What is authenticated for some inputs. *)
Definition mac_text (inputs : list jstr) : jstr := jjoin [0] (trim <$> inputs).

Section Databases.
(** The HMAC-SHA256 of the host: a key and a text. *)
Context (hmac : jstr → jstr → list Z).

Definition MONGO_PASSWORD_HMAC_KEY : jstr := js "dominion-mongo-stable-password".
Definition REDIS_PASSWORD_HMAC_KEY : jstr := js "dominion-redis-stable-password".

Definition deriveStablePassword (key : jstr) (inputs : list jstr) : option jstr :=
  let sum := hmac key (mac_text inputs) in
  extend PASSWORD_MIN_LEN sum (encode_byte <$> sum).

(** ** client.ts *)

Definition environmentName (DOMINION_ENVIRONMENT : option jstr) : jstr :=
  match trim (default [] DOMINION_ENVIRONMENT) with [] => js "default" | name => name end.

(** What a connection comes to before the driver: an error of its own, one of the
    resolver, or the password loop never ending. *)
Inductive ClientError : Type := ClientError_text (message : jstr) | ResolverRejected | NoPassword.

Context (resolve : jstr → option (list jstr)).

Definition resolveMongoUri (target : jstr) (env : option jstr) : ClientError + jstr :=
  match parseMongoTarget target with
  | inl message => inl (ClientError_text message)
  | inr parsed =>
      match resolve (mongo_resolveTarget parsed) with
      | None => inl ResolverRejected
      | Some [] => inl (ClientError_text (js "no ready endpoints resolved for mongo target " ++ stringify target))
      | Some (endpoint :: _) =>
          match deriveStablePassword MONGO_PASSWORD_HMAC_KEY [app parsed; environmentName env; service parsed] with
          | None => inl NoPassword
          | Some password =>
              inr (js "mongodb://admin:" ++ password ++ js "@" ++ endpoint ++ js "/admin?authSource=admin")
          end
      end
  end.

(** [Number] of a text: its value when it is an integer. *)
Context (Number : jstr → option Z).

(** [replace(/^\[|\]$/g, '')]. *)
Definition strip_brackets (s : jstr) : jstr :=
  let s := if bool_decide (head s = Some 91) then tail s else s in
  if bool_decide (last s = Some 93) then take (length s - 1) s else s.

Definition parseEndpoint (endpoint : jstr) : jstr + (jstr * Z) :=
  let invalid := inl (js "invalid redis endpoint " ++ stringify endpoint ++ js ": want host:port") in
  let separator := lastIndexOf endpoint colon in
  if separator <=? 0 then invalid
  else
    match Number (slice_from endpoint (separator + 1)) with
    | Some port => if (port <=? 0) || (MAX_PORT <? port) then invalid else inr (strip_brackets (slice_to endpoint separator), port)
    | None => invalid
    end.

(** [createRedisClient] up to the driver: the socket and the password. *)
Definition createRedisClient (target : jstr) (env : option jstr) : ClientError + (jstr * Z * jstr) :=
  match parseRedisTarget target with
  | inl message => inl (ClientError_text message)
  | inr parsed =>
      match resolve (redis_resolveTarget parsed) with
      | None => inl ResolverRejected
      | Some [] => inl (ClientError_text (js "no ready endpoints resolved for redis target " ++ stringify target))
      | Some (endpoint :: _) =>
          match deriveStablePassword REDIS_PASSWORD_HMAC_KEY [rt_app parsed; environmentName env; rt_service parsed] with
          | None => inl NoPassword
          | Some password =>
              match parseEndpoint endpoint with
              | inl message => inl (ClientError_text message)
              | inr socket => inr (socket, password)
              end
          end
      end
  end.

End Databases.

(** ** What the clients guarantee *)

Lemma valid_parts_spec t : valid_parts t = true →
  app t ≠ [] ∧ service t ≠ [] ∧ slash_unit ∉ service t ∧ colon ∉ service t ∧ 0 < port t <= MAX_PORT.
Proof.
  unfold valid_parts; rewrite negb_true_iff, !orb_false_iff, !bool_decide_eq_false, Z.leb_gt, Z.ltb_ge; tauto.
Qed.

Lemma trim_word s : trim s ≠ [] → word (trim s).
Proof. split; [done|apply trim_trimmed]. Qed.

Lemma cut_last_spec c s a b : cut_last c s = Some (a, b) → a = slice_to s (lastIndexOf s c).
Proof. unfold cut_last; destruct (_ =? _); [done|]; by intros [= <- _]. Qed.

Lemma service_port_trimmed rest s n : service_port rest = Some (s, n) → trimmed s.
Proof.
  unfold service_port; destruct (cut_last colon rest) as [[a b]|]; [|by intros [= <- _]; apply trim_trimmed].
  destruct (all_digits _); [|done]; intros [= <- _]; apply trim_trimmed.
Qed.

(** Whatever the mongo client takes for a target is one. *)
Lemma parseMongoTarget_wf raw t : parseMongoTarget raw = inr t → colon ∉ app t → target_wf t ∧ 0 < port t.
Proof.
  unfold parseMongoTarget; destruct (mongo_body (trim raw)) as [body|]; simpl; [|done].
  destruct (cut slash_unit body) as [[a rest]|] eqn:Hcut; simpl; [|done]; apply cut_Some in Hcut as [_ Ha].
  destruct (service_port rest) as [[s n]|] eqn:Hs; simpl; [|done]; apply service_port_trimmed in Hs.
  destruct (valid_parts _) eqn:Hv; [|done]; apply valid_parts_spec in Hv as (H1 & H2 & H3 & H4 & H5).
  intros [= <-] Hc; split; [|apply H5]; split; simpl in *; try done; [by apply trim_word| |lia].
  by intros ?%trim_subset.
Qed.

Lemma printTarget_word t : target_wf t → word (printTarget t).
Proof.
  intros H; unfold printTarget; replace (app t ++ [slash_unit] ++ service t ++ [colon] ++ jnum (port t))
    with (app t ++ ([slash_unit] ++ service t ++ [colon]) ++ jnum (port t)) by by rewrite <- !app_assoc.
  apply word_app; [apply H|]; eapply numeral_word, jnum_numeral, H.
Qed.

Lemma mongo_body_print t : target_wf t → mongo_body (printTarget t) = Some (printTarget t).
Proof.
  intros Ht; pose proof (jnum_numeral (port t) (proj1 (tw_port _ Ht))) as Hn.
  assert (Hp : colon ∉ app t ++ slash_unit :: service t) by (destruct Ht; set_solver).
  destruct (scheme_stripped [] _ _ _ Hp Hn) as [Hs _].
  replace ((app t ++ slash_unit :: service t) ++ colon :: jnum (port t)) with (printTarget t) in Hs
    by (unfold printTarget; by rewrite <- app_assoc).
  pose proof (printTarget_word t Ht) as [Hne _]; revert Hs Hne; generalize (printTarget t) as x; intros x Hs Hne.
  unfold mongo_body, strip_scheme in *; rewrite bool_decide_eq_false_2 by done.
  case_bool_decide as Hpre; [exfalso|by destruct (includes x _)].
  injection Hs as Hd; apply (f_equal length) in Hd; rewrite length_drop in Hd; destruct Hpre as [y ->].
  rewrite length_app in Hd; simpl in Hd; lia.
Qed.

Lemma service_port_print s n : word s → colon ∉ s → 0 ≤ n → service_port (s ++ colon :: jnum n) = Some (s, n).
Proof.
  intros [_ Hs] Hc Hn; pose proof (jnum_numeral n Hn) as Hnum; pose proof (numeral_no_colon _ _ Hnum) as Hnc.
  unfold service_port, cut_last; rewrite (lastIndexOf_app _ _ _ Hnc).
  destruct (jlen s =? -1) eqn:E; [unfold jlen in E; to_prop; lia|]; simpl.
  replace (slice_from (s ++ colon :: jnum n) (jlen s + 1)) with (jnum n)
    by (rewrite <- (lastIndexOf_app s colon (jnum n) Hnc); by rewrite after_last_app).
  rewrite (trimmed_trim (jnum n)) by apply (numeral_word _ _ Hnum); rewrite (numeral_all_digits _ _ Hnum).
  unfold slice_to, jlen; rewrite Nat2Z.id, take_app_length, (trimmed_trim s Hs).
  by destruct Hnum as (_ & _ & ->).
Qed.

(** C28: Every target the mongo client accepts, if its application has no colon, means the
    same to the endpoint resolver: the text the client hands over parses there to the
    same application, service and port, a port that is not 0 — and reads back in the
    client itself. *)
Theorem mongo_target_resolves raw t (Haccepted : parseMongoTarget raw = inr t) (Hcolon : colon ∉ app t) :
  parseTarget (mongo_resolveTarget t) = inr t ∧ parseMongoTarget (mongo_resolveTarget t) = inr t ∧ 0 < port t <= MAX_PORT.
Proof.
  destruct (parseMongoTarget_wf _ _ Haccepted Hcolon) as [Ht Hport]; pose proof (printTarget_word t Ht) as [Hne Htrim].
  change (mongo_resolveTarget t) with (printTarget t); split; [|split; [|destruct (tw_port _ Ht); lia]].
  - apply parse_trimmed; [done|left; by apply trimmed_trim].
  - unfold parseMongoTarget; rewrite (trimmed_trim _ Htrim), (mongo_body_print t Ht); simpl.
    unfold printTarget; change ([slash_unit] ++ ?x) with (slash_unit :: x); rewrite (cut_app _ _ _ (tw_app_slash _ Ht)); simpl.
    change ([colon] ++ ?x) with (colon :: x).
    rewrite (service_port_print (service t) (port t)) by (apply Ht || destruct (tw_port _ Ht); lia); simpl.
    rewrite (trimmed_trim (app t)) by apply (tw_app _ Ht).
    assert (Hv : valid_parts (mkTarget (app t) (service t) (port t)) = true).
    { unfold valid_parts; simpl; rewrite negb_true_iff, !orb_false_iff, !bool_decide_eq_false, Z.leb_gt, Z.ltb_ge.
      destruct Ht as [[] ? ? [] ? ? []]; repeat split; done || lia. }
    rewrite Hv; by destruct t.
Qed.

(** The bare form has the default port. *)
Lemma mongo_target_resolves_witness :
  parseMongoTarget (js " game/agent-db ") = inr (mkTarget (js "game") (js "agent-db") 27017) ∧
  parseTarget (js "game/agent-db:27017") = inr (mkTarget (js "game") (js "agent-db") 27017).
Proof.
  split; [vm_compute; reflexivity|].
  refine (proj1 (mongo_target_resolves (js " game/agent-db ") (mkTarget (js "game") (js "agent-db") 27017) _ _));
    [vm_compute; reflexivity|apply (bool_decide_unpack _); vm_compute; exact I].
Defined.

(** So does every target of the redis client, with its default port. *)
Lemma redis_target_resolves raw t : parseRedisTarget raw = inr t → colon ∉ rt_app t →
  parseTarget (redis_resolveTarget t) = inr (mkTarget (rt_app t) (rt_service t) REDIS_DEFAULT_PORT).
Proof.
  unfold parseRedisTarget; destruct (cut slash_unit (trim raw)) as [[a s]|] eqn:Hcut; [|done].
  apply cut_Some in Hcut as [_ Ha]; destruct (_ || _) eqn:Hv; [done|]; intros [= <-] Hc; simpl in *.
  rewrite !orb_false_iff, !bool_decide_eq_false in Hv; destruct Hv as [[[H1 H2] H3] H4].
  set (t := mkTarget (trim a) (trim s) REDIS_DEFAULT_PORT).
  assert (Ht : target_wf t) by (split; simpl; try done; [by apply trim_word|by intros ?%trim_subset|by apply trim_word]).
  change (redis_resolveTarget _) with (printTarget t); apply parse_trimmed; [done|left].
  by apply trimmed_trim, (printTarget_word t).
Qed.

(** An application with a colon is accepted here and refused by the resolver. *)
Lemma colon_in_the_application :
  parseMongoTarget (js "a:b/c") = inr (mkTarget (js "a:b") (js "c") 27017) ∧
  ∃ e, parseTarget (mongo_resolveTarget (mkTarget (js "a:b") (js "c") 27017)) = inl e.
Proof. split; [vm_compute; reflexivity|eexists; vm_compute; reflexivity]. Qed.

(** *** Passwords *)

Lemma encode_byte_alphabet b : encode_byte b ∈ PASSWORD_ALPHABET.
Proof.
  apply list_elem_of_In, nth_In; change (length PASSWORD_ALPHABET) with 62%nat.
  pose proof (Z.mod_pos_bound b 62); lia.
Qed.

Lemma extend_spec fuel sum encoded : sum ≠ [] → (PASSWORD_MIN_LEN <= length encoded + fuel)%nat →
  Forall (.∈ PASSWORD_ALPHABET) encoded →
  ∃ pw, extend fuel sum encoded = Some pw ∧ length pw = (length encoded `max` PASSWORD_MIN_LEN)%nat ∧
        Forall (.∈ PASSWORD_ALPHABET) pw.
Proof.
  intros Hsum; revert encoded; induction fuel as [|fuel IH]; intros encoded Hf He; cbn [extend];
    destruct (PASSWORD_MIN_LEN <=? length encoded)%nat eqn:E;
    try (exists encoded; split; [done|]; split; [|done]; apply Nat.leb_le in E; lia); apply Nat.leb_gt in E; [lia|].
  set (more := take _ _).
  assert (Hlen : (0 < length more ∧ length encoded + length more <= PASSWORD_MIN_LEN)%nat).
  { unfold more; rewrite length_take, length_fmap; destruct sum; [done|]; simpl; lia. }
  destruct (IH (encoded ++ more)) as (pw & -> & Hl & Hpw); rewrite ?length_app; [lia| |].
  - apply Forall_app; split; [done|]; apply Forall_take, Forall_fmap, Forall_true; intros; apply encode_byte_alphabet.
  - exists pw; split; [done|]; split; [|done]; rewrite Hl, length_app; lia.
Qed.

(** The password of a service is made of letters and digits, which a connection string
    carries as they are, and has at least 24 of them; the loop that extends a short
    digest ends. *)
Lemma derived_password hmac key inputs : hmac key (mac_text inputs) ≠ [] →
  ∃ pw, deriveStablePassword hmac key inputs = Some pw ∧ Forall (.∈ PASSWORD_ALPHABET) pw ∧
        length pw = (length (hmac key (mac_text inputs)) `max` PASSWORD_MIN_LEN)%nat.
Proof.
  intros Hsum; unfold deriveStablePassword.
  destruct (extend_spec PASSWORD_MIN_LEN _ (encode_byte <$> hmac key (mac_text inputs)) Hsum) as (pw & H1 & H2 & H3).
  - lia.
  - apply Forall_fmap, Forall_true; intros; apply encode_byte_alphabet.
  - rewrite length_fmap in H2; eauto.
Qed.

(** Different services are authenticated by different texts: the inputs, but for the
    white space at their ends, can be read off. *)
Lemma mac_text_inj inputs inputs' : inputs ≠ [] → inputs' ≠ [] →
  Forall (λ s, 0 ∉ s) inputs → Forall (λ s, 0 ∉ s) inputs' →
  mac_text inputs = mac_text inputs' → trim <$> inputs = trim <$> inputs'.
Proof.
  assert (Hf : ∀ l, Forall (λ s : jstr, 0 ∉ s) l → Forall (λ s, 0 ∉ s) (trim <$> l)).
  { intros l H; apply Forall_fmap; eapply Forall_impl; [apply H|]; by intros s Hs ?%trim_subset. }
  intros H1 H2 H3 H4; apply jjoin_nul_inj; [by destruct inputs|by destruct inputs'|auto..].
Qed.

(** A connection string is made only for an endpoint that was resolved, and is of
    exactly this form. *)
Lemma mongo_uri_form hmac resolve target env uri : resolveMongoUri hmac resolve target env = inr uri →
  ∃ t endpoint rest password, parseMongoTarget target = inr t ∧ resolve (mongo_resolveTarget t) = Some (endpoint :: rest) ∧
    deriveStablePassword hmac MONGO_PASSWORD_HMAC_KEY [app t; environmentName env; service t] = Some password ∧
    uri = js "mongodb://admin:" ++ password ++ js "@" ++ endpoint ++ js "/admin?authSource=admin".
Proof.
  unfold resolveMongoUri; destruct (parseMongoTarget target) as [|t]; [done|].
  destruct (resolve _) as [[|e es]|] eqn:Hr; [done| |done].
  destruct (deriveStablePassword _ _ _) as [pw|] eqn:Hp; [|done]; intros [= <-]; eauto 10.
Qed.

(** An endpoint is taken apart at its last colon, and the brackets of an address with
    colons are dropped. *)
Lemma parseEndpoint_host_port Number host port :
  (∀ n, 0 < n <= MAX_PORT → Number (jnum n) = Some n) → host ≠ [] → 0 < port <= MAX_PORT →
  parseEndpoint Number (host ++ colon :: jnum port) = inr (strip_brackets host, port).
Proof.
  intros HN Hh Hp; pose proof (jnum_numeral port ltac:(lia)) as Hnum; pose proof (numeral_no_colon _ _ Hnum) as Hnc.
  unfold parseEndpoint; rewrite (lastIndexOf_app _ _ _ Hnc).
  assert (Hl : 0 < jlen host) by (unfold jlen; destruct host; simpl; [done|lia]).
  rewrite (proj2 (Z.leb_gt _ _) Hl).
  replace (slice_from (host ++ colon :: jnum port) (jlen host + 1)) with (jnum port)
    by (rewrite <- (lastIndexOf_app host colon (jnum port) Hnc); by rewrite after_last_app).
  rewrite HN by done; rewrite (proj2 (Z.leb_gt _ _)), (proj2 (Z.ltb_ge _ _)) by lia; simpl.
  unfold slice_to, jlen; by rewrite Nat2Z.id, take_app_length.
Qed.

Lemma brackets_are_dropped : strip_brackets (js "[::1]") = js "::1".
Proof. reflexivity. Qed.
