(* ===== verification/GrpcRuntime.v ===== *)
(** * The gRPC client runtime of a composition

    [common/js/dsh-plugins/grpc-runtime/src/{channel,client,unary}.ts]: the channel
    cache, the construction of service clients, and the policy of unary calls.  The
    file system, the proto loader, the channel constructor and the host's clock are
    what a call finds when it is made; the module path of the service root is a
    parameter. *)

From S2P Require Import Prelude JsText JsJson.

#[local] Open Scope Z_scope.

(** ** channel.ts *)

Definition TLS_CA_CERT : jstr := js "/etc/tls/ca.crt".

Inductive ChannelCredentials : Type := Insecure | Ssl (rootCert : jstr).
Inductive OptionValue : Type := OptInt (n : Z) | OptText (s : jstr).
Definition ChannelOptions : Type := list (jstr * OptionValue).

(** The values of a loaded proto: the namespaces and types, which are objects and
    inherit the properties of every object, and the client constructors. *)
Inductive ProtoNode : Type :=
| Namespace (fields : list (jstr * ProtoNode))
| ObjectPrototype
| NullNode
| Constructor (name : jstr).

Section Runtime.
Context {D : Type}.

(** What a call finds: the files, of which one may be unreadable, [TLS_SERVER_NAME],
    what the channel constructor throws for a target, and the two loaders. *)
Record Host : Type := mkHost {
  ho_file : jstr → option (jstr + jstr);
  ho_serverName : option jstr;
  ho_channelError : jstr → option jstr;
  ho_loadSync : jstr → list jstr → jstr + D;
  ho_loadPackageDefinition : D → jstr + ProtoNode;
}.

Definition existsSync (h : Host) (path : jstr) : bool := bool_decide (is_Some (ho_file h path)).

Definition buildClientCredentials (h : Host) (caCertPath : jstr) : jstr + ChannelCredentials :=
  match ho_file h caCertPath with
  | None => inr Insecure
  | Some (inl err) => inl err
  | Some (inr rootCert) => inr (Ssl rootCert)
  end.

Definition ROUND_ROBIN_SERVICE_CONFIG : jstr :=
  js "{" ++ stringify (js "loadBalancingConfig") ++ js ":[{" ++ stringify (js "round_robin") ++ js ":{}}]}".

Definition RECONNECT_OPTIONS : ChannelOptions :=
  [(js "grpc.initial_reconnect_backoff_ms", OptInt 1000); (js "grpc.max_reconnect_backoff_ms", OptInt 15000)].

Definition buildChannelOptions (h : Host) (caCertPath : jstr) : ChannelOptions :=
  let options := RECONNECT_OPTIONS ++ [(js "grpc.service_config", OptText ROUND_ROBIN_SERVICE_CONFIG)] in
  match ho_serverName h with
  | None | Some [] => options
  | Some serverName =>
      if existsSync h caCertPath then options ++ [(js "grpc.ssl_target_name_override", OptText serverName)] else options
  end.

Record Channel : Type := mkChannel {
  ch_target : jstr;
  ch_credentials : ChannelCredentials;
  ch_options : ChannelOptions;
}.

(** The cache, with the channels ever made (a channel is its place in that list) and
    those that were closed. *)
Record ChannelPool : Type := mkPool {
  po_channels : list (jstr * nat);
  po_created : list Channel;
  po_closed : list nat;
}.

Definition new_ChannelPool : ChannelPool := mkPool [] [] [].

Fixpoint map_get {A} (key : jstr) (entries : list (jstr * A)) : option A :=
  match entries with
  | [] => None
  | (k, v) :: entries => if bool_decide (k = key) then Some v else map_get key entries
  end.

Definition pool_get (h : Host) (target : jstr) (p : ChannelPool) : (jstr + nat) * ChannelPool :=
  match map_get target (po_channels p) with
  | Some id => (inr id, p)
  | None =>
      match buildClientCredentials h TLS_CA_CERT, ho_channelError h target with
      | inl err, _ | inr _, Some err => (inl err, p)
      | inr credentials, None =>
          let id := length (po_created p) in
          (inr id, mkPool (po_channels p ++ [(target, id)])
                          (po_created p ++ [mkChannel target credentials (buildChannelOptions h TLS_CA_CERT)])
                          (po_closed p))
      end
  end.

Definition closeAll (p : ChannelPool) : ChannelPool := mkPool [] (po_created p) (po_closed p ++ (po_channels p).*2).

Definition pool_size (p : ChannelPool) : nat := length (po_channels p).

(** ** client.ts *)

Record GrpcClientOptions : Type := mkOptions {
  go_target : jstr;
  go_protoPath : jstr;
  go_includeDirs : option (list jstr);
  go_serviceName : jstr;
  go_label : option jstr;
}.

(** [s.split(sep)] for a separator of one unit. *)
Fixpoint split_on (sep : Z) (s : jstr) : list jstr :=
  match s with
  | [] => [[]]
  | c :: s =>
      if c =? sep then [] :: split_on sep s
      else match split_on sep s with [] => [[c]] | w :: ws => (c :: w) :: ws end
  end.

(** [path.join] of an absolute directory and a path below it. *)
Definition path_segment (segments : list jstr) (s : jstr) : list jstr :=
  if bool_decide (s = []) || bool_decide (s = js ".") then segments
  else if bool_decide (s = js "..") then take (length segments - 1) segments
  else segments ++ [s].

Definition path_join (root p : jstr) : jstr :=
  let joined := if bool_decide (p = []) then root else root ++ js "/" ++ p in
  let segments := fold_left path_segment (split_on 47 joined) [] in
  js "/" ++ jjoin (js "/") segments
    ++ (if bool_decide (last joined = Some 47) && negb (bool_decide (segments = [])) then js "/" else []).

Context (SERVICE_ROOT : jstr).

Definition resolveProtoPath (protoPath : jstr) : jstr :=
  if bool_decide (head protoPath = Some 47) then protoPath else path_join SERVICE_ROOT protoPath.

Definition defaultIncludeDirs : list jstr := [SERVICE_ROOT].

(** The properties every object inherits; all but the last are functions. *)
Definition INHERITED : list jstr :=
  js <$> ["constructor"; "toString"; "toLocaleString"; "valueOf"; "hasOwnProperty"; "isPrototypeOf";
          "propertyIsEnumerable"; "__defineGetter__"; "__defineSetter__"; "__lookupGetter__"; "__lookupSetter__"].

Definition inherited (base : ProtoNode) (segment : jstr) : option ProtoNode :=
  if bool_decide (segment = js "__proto__") then Some base
  else if bool_decide (segment ∈ INHERITED) then Some (Constructor segment) else None.

(** [segment in node], and its value. *)
Definition node_member (node : ProtoNode) (segment : jstr) : option ProtoNode :=
  match node with
  | Namespace fields =>
      match map_get segment fields with Some n => Some n | None => inherited ObjectPrototype segment end
  | ObjectPrototype => inherited NullNode segment
  | NullNode | Constructor _ => None
  end.

Definition in_double_quotes (s : jstr) : jstr := [34] ++ s ++ [34].

Definition missing_segment (label segment : jstr) : jstr :=
  js "grpc-runtime: service " ++ in_double_quotes label ++ js " not found in the loaded proto (missing segment "
    ++ in_double_quotes segment ++ js ")".
Definition not_a_service (label : jstr) : jstr :=
  js "grpc-runtime: " ++ in_double_quotes label ++ js " resolves to a proto type, not a service client constructor".

Fixpoint walk (label : jstr) (node : ProtoNode) (segments : list jstr) : jstr + ProtoNode :=
  match segments with
  | [] => inr node
  | segment :: segments =>
      match node_member node segment with
      | None => inl (missing_segment label segment)
      | Some node => walk label node segments
      end
  end.

Definition resolveServiceConstructor (proto : ProtoNode) (serviceName label : jstr) : jstr + jstr :=
  match walk label proto (split_on 46 serviceName) with
  | inl err => inl err
  | inr (Constructor name) => inr name
  | inr _ => inl (not_a_service label)
  end.

(** A runtime instance: the pool and the definitions it has loaded. *)
Record GrpcRuntime : Type := mkRuntime {
  rt_pool : ChannelPool;
  rt_packageDefinitions : list (jstr * D);
}.

Definition createGrpcRuntime : GrpcRuntime := mkRuntime new_ChannelPool [].

Definition cache_key (protoPath : jstr) (includeDirs : list jstr) : jstr := protoPath ++ [0] ++ jjoin [0] includeDirs.

Definition getPackageDefinition (h : Host) (protoPath : jstr) (includeDirs : list jstr) (r : GrpcRuntime)
    : (jstr + D) * GrpcRuntime :=
  let key := cache_key protoPath includeDirs in
  match map_get key (rt_packageDefinitions r) with
  | Some cached => (inr cached, r)
  | None =>
      match ho_loadSync h protoPath includeDirs with
      | inl err => (inl err, r)
      | inr loaded => (inr loaded, mkRuntime (rt_pool r) (rt_packageDefinitions r ++ [(key, loaded)]))
      end
  end.

(** A client: the constructor it was made with, its target and its channel. *)
Record Client : Type := mkClient { cl_service : jstr; cl_target : jstr; cl_channel : nat }.

Definition client (h : Host) (options : GrpcClientOptions) (r : GrpcRuntime) : (jstr + Client) * GrpcRuntime :=
  let includeDirs := default defaultIncludeDirs (go_includeDirs options) in
  let protoPath := resolveProtoPath (go_protoPath options) in
  match getPackageDefinition h protoPath includeDirs r with
  | (inl err, r) => (inl err, r)
  | (inr packageDefinition, r) =>
      match ho_loadPackageDefinition h packageDefinition with
      | inl err => (inl err, r)
      | inr proto =>
          let label := default (go_serviceName options) (go_label options) in
          match resolveServiceConstructor proto (go_serviceName options) label with
          | inl err => (inl err, r)
          | inr service =>
              match pool_get h (go_target options) (rt_pool r) with
              | (inl err, p) => (inl err, mkRuntime p (rt_packageDefinitions r))
              | (inr channel, p) => (inr (mkClient service (go_target options) channel), mkRuntime p (rt_packageDefinitions r))
              end
          end
      end
  end.

Definition close (r : GrpcRuntime) : GrpcRuntime := mkRuntime (closeAll (rt_pool r)) (rt_packageDefinitions r).

(** The calls made of a runtime, and the clients it gave out. *)
Inductive RuntimeCall : Type := ClientCall (h : Host) (options : GrpcClientOptions) | CloseCall.

Definition runtime_step (s : GrpcRuntime * list Client) (c : RuntimeCall) : GrpcRuntime * list Client :=
  match c with
  | CloseCall => (close s.1, s.2)
  | ClientCall h options =>
      match client h options s.1 with
      | (inl _, r) => (r, s.2)
      | (inr c, r) => (r, s.2 ++ [c])
      end
  end.
Definition run_runtime (calls : list RuntimeCall) : GrpcRuntime * list Client :=
  fold_left runtime_step calls (createGrpcRuntime, []).

End Runtime.

Arguments Host : clear implicits.
Arguments GrpcRuntime : clear implicits.
Arguments RuntimeCall : clear implicits.

(** ** unary.ts *)

(** What the connectivity probe finds. *)
Inductive Probe : Type :=
| NoChannel
| ChannelState (value : Z)
| ProbeThrew (detail : jstr).

Inductive UnaryLog : Type :=
| InfoState (label state : jstr)
| ErrorCall (label message code state : jstr).

Section Unary.
(** The names the enumeration of the library has. *)
Context (connectivityState : Z → option jstr).

Definition probe_state (probe : Probe) : jstr :=
  match probe with
  | NoChannel => js "no-channel"
  | ChannelState value => default (jnum value) (connectivityState value)
  | ProbeThrew detail => js "error:" ++ detail
  end.

Definition probeChannel (label : jstr) (probe : Probe) : jstr * UnaryLog :=
  let state := probe_state probe in (state, InfoState (label ++ js ": channel state") state).

Record ServiceError : Type := mkServiceError { se_message : jstr; se_code : jstr }.

(** A call: its deadline, what was logged, and what its promise settled with; an error
    that [invoke] throws has no code. *)
Record UnaryCall (T : Type) : Type := mkUnary {
  uc_deadline : Z;
  uc_log : list UnaryLog;
  uc_result : option (ServiceError + T);
}.
Arguments mkUnary {T}.
Arguments uc_deadline {T}.
Arguments uc_log {T}.
Arguments uc_result {T}.

Definition DEFAULT_DEADLINE_MS : Z := 10000.

(** The executor of the promise, up to the return of [invoke]. *)
Definition callUnary {T} (now : Z) (label : jstr) (deadlineMs : option Z) (probe : Probe) (thrown : option ServiceError)
    : UnaryCall T :=
  mkUnary (now + default DEFAULT_DEADLINE_MS deadlineMs) [(probeChannel label probe).2] (inl <$> thrown).

(** The callback; a promise settles once. *)
Definition unary_callback {T} (label : jstr) (res : ServiceError + T) (probe : Probe) (c : UnaryCall T) : UnaryCall T :=
  let settled := match uc_result c with Some r => Some r | None => Some res end in
  match res with
  | inl err =>
      let '(state, line) := probeChannel (label ++ js " (after failure)") probe in
      mkUnary (uc_deadline c) (uc_log c ++ [line; ErrorCall (label ++ js " failed") (se_message err) (se_code err) state]) settled
  | inr _ => mkUnary (uc_deadline c) (uc_log c) settled
  end.

End Unary.

(** ** What the runtime guarantees *)

Lemma entry_get_elem {A} (key : jstr) (v : A) l : map_get key l = Some v → (key, v) ∈ l.
Proof.
  induction l as [|[k w] l IH]; simpl; [done|]; case_bool_decide as E; [intros [= ->]; subst|intros H; right; eauto]; left.
Qed.

Lemma map_get_None {A} (key : jstr) (l : list (jstr * A)) : map_get key l = None → key ∉ l.*1.
Proof.
  induction l as [|[k w] l IH]; simpl; [by intros _ ?%elem_of_nil|]; case_bool_decide; [done|].
  intros Hn [->|Hin]%elem_of_cons; [done|by apply IH].
Qed.

Lemma map_get_app {A} (key : jstr) (v : A) (l l' : list (jstr * A)) : map_get key l = Some v → map_get key (l ++ l') = Some v.
Proof. induction l as [|[k w] l IH]; simpl; [done|]; by case_bool_decide. Qed.

Section RuntimeFacts.
Context {D : Type} (SERVICE_ROOT : jstr).

(** One open channel per target: the cached ones, each made for its target. *)
Definition pool_ok (p : ChannelPool) : Prop :=
  NoDup (po_channels p).*1 ∧ seq 0 (length (po_created p)) ≡ₚ (po_channels p).*2 ++ po_closed p ∧
  ∀ target id, (target, id) ∈ po_channels p → ch_target <$> po_created p !! id = Some target.

(** The channel of a client that was given out: made for its target, and the cached
    one as long as it is open. *)
Definition client_ok (p : ChannelPool) (c : Client) : Prop :=
  ch_target <$> po_created p !! cl_channel c = Some (cl_target c) ∧
  (cl_channel c ∈ po_closed p ∨ (cl_target c, cl_channel c) ∈ po_channels p).

Lemma pool_get_ok (h : Host D) target p : pool_ok p →
  let '(res, p') := pool_get h target p in
  pool_ok p' ∧ (∀ c, client_ok p c → client_ok p' c) ∧
  match res with
  | inr id => ch_target <$> po_created p' !! id = Some target ∧ (target, id) ∈ po_channels p'
  | inl _ => p' = p
  end.
Proof.
  intros (Hnd & Hperm & Htargets); unfold pool_get; destruct (map_get target (po_channels p)) as [id|] eqn:Hget.
  { apply entry_get_elem in Hget; split; [done|]; split; [done|]; split; [by apply Htargets|done]. }
  destruct (buildClientCredentials h TLS_CA_CERT) as [err|cred]; [by split|].
  destruct (ho_channelError h target); [by split|]; simpl.
  assert (Hold : ∀ id x, ch_target <$> po_created p !! id = Some x →
    ch_target <$> (po_created p ++ [mkChannel target cred (buildChannelOptions h TLS_CA_CERT)]) !! id = Some x).
  { intros id x Hx; destruct (po_created p !! id) as [ch|] eqn:E; [|done]; by rewrite (lookup_app_l_Some _ _ _ _ E). }
  assert (Hnew : ch_target <$> (po_created p ++ [mkChannel target cred (buildChannelOptions h TLS_CA_CERT)]) !! length (po_created p)
                 = Some target) by (by rewrite list_lookup_middle).
  split; [|split; [|split; [done|set_solver]]].
  - split; simpl; rewrite ?fmap_app; simpl; [|split].
    + apply NoDup_app; repeat split; [done| |apply NoDup_singleton].
      intros k Hk ->%list_elem_of_singleton; by apply (map_get_None _ _ Hget).
    + rewrite length_app; simpl; rewrite Nat.add_1_r, seq_S, Hperm; simpl; solve_Permutation.
    + intros t id [Hin|[= -> ->]%list_elem_of_singleton]%elem_of_app; auto.
  - intros c [H1 H2]; split; [by apply Hold|]; simpl; set_solver.
Qed.

Lemma closeAll_ok p : pool_ok p →
  pool_ok (closeAll p) ∧ (∀ c, client_ok p c → client_ok (closeAll p) c) ∧
  ∀ id, (id < length (po_created p))%nat → id ∈ po_closed (closeAll p).
Proof.
  intros (Hnd & Hperm & Htargets); repeat split; simpl.
  - constructor.
  - rewrite Hperm; solve_Permutation.
  - by intros ? ? ?%elem_of_nil.
  - apply H.
  - left; apply elem_of_app; destruct H as [_ [Hc|Hc]]; [by left|right].
    by apply (list_elem_of_fmap_2 snd) in Hc.
  - intros id Hid; assert (id ∈ (po_channels p).*2 ++ po_closed p) by (rewrite <- Hperm; apply elem_of_seq; lia); set_solver.
Qed.

Lemma getPackageDefinition_pool (h : Host D) protoPath includeDirs r :
  rt_pool (getPackageDefinition h protoPath includeDirs r).2 = rt_pool r.
Proof. unfold getPackageDefinition; destruct (map_get _ _); [done|]; by destruct (ho_loadSync _ _ _). Qed.

Lemma run_runtime_ok (calls : list (RuntimeCall D)) :
  let '(r, issued) := run_runtime SERVICE_ROOT calls in pool_ok (rt_pool r) ∧ Forall (client_ok (rt_pool r)) issued.
Proof.
  unfold run_runtime; induction calls as [|c calls IH] using rev_ind.
  { split; [|done]; split; simpl; [constructor|split; [done|by intros ? ? ?%elem_of_nil]]. }
  rewrite fold_left_app; destruct (fold_left _ calls _) as [r issued]; destruct IH as [Hp Hi]; destruct c as [h o|]; simpl.
  - unfold client; pose proof (getPackageDefinition_pool h (resolveProtoPath SERVICE_ROOT (go_protoPath o))
      (default (defaultIncludeDirs SERVICE_ROOT) (go_includeDirs o)) r) as Hg.
    destruct (getPackageDefinition _ _ _ r) as [[e|d] r1]; simpl in Hg |- *; [by rewrite Hg|].
    destruct (ho_loadPackageDefinition h d) as [e|proto]; simpl; [by rewrite Hg|].
    destruct (resolveServiceConstructor _ _ _) as [e|service]; simpl; [by rewrite Hg|]; rewrite Hg.
    pose proof (pool_get_ok h (go_target o) (rt_pool r) Hp) as H; destruct (pool_get _ _ _) as [[e|id] p]; simpl.
    + by destruct H as (_ & _ & ->).
    + destruct H as (Hp' & Hc & H1 & H2); split; [done|]; apply Forall_app; split; [by eapply Forall_impl|].
      constructor; [|done]; split; [done|by right].
  - destruct (closeAll_ok (rt_pool r) Hp) as (H1 & H2 & _); split; [done|by eapply Forall_impl].
Qed.

(** C26: Whatever clients are asked for, and however constructions fail, there is at most one
    open channel for a target: two clients of one target whose channels are open share
    the channel, every client has a channel of its own target, no channel is closed
    twice, and when the runtime is closed none it ever made stays open. *)
Theorem one_channel_per_target (calls : list (RuntimeCall D)) :
  let '(r, issued) := run_runtime SERVICE_ROOT calls in
  let p := rt_pool r in
  (∀ c, c ∈ issued → ch_target <$> po_created p !! cl_channel c = Some (cl_target c)) ∧
  (∀ c c', c ∈ issued → c' ∈ issued → cl_target c = cl_target c' → cl_channel c ∉ po_closed p → cl_channel c' ∉ po_closed p →
     cl_channel c = cl_channel c') ∧
  NoDup (po_closed p) ∧
  ∀ id, (id < length (po_created p))%nat → id ∈ po_closed (rt_pool (close r)).
Proof.
  pose proof (run_runtime_ok calls) as H; destruct (run_runtime SERVICE_ROOT calls) as [r issued].
  destruct H as [Hok Hi]; rewrite Forall_forall in Hi; destruct (Hok) as (Hnd & Hperm & _); repeat split.
  - intros c Hc; by apply Hi.
  - intros c c' [_ Hc]%Hi [_ Hc']%Hi Ht Ho Ho'; destruct Hc as [?|Hc]; [done|]; destruct Hc' as [?|Hc']; [done|].
    rewrite <- Ht in Hc'; apply list_elem_of_lookup in Hc as [i Hi1], Hc' as [j Hj].
    assert (i = j) as ->; [|congruence].
    eapply NoDup_lookup; [apply Hnd| |]; rewrite list_lookup_fmap; [by rewrite Hi1|by rewrite Hj].
  - assert (Hall : NoDup ((po_channels (rt_pool r)).*2 ++ po_closed (rt_pool r))) by (rewrite <- Hperm; apply NoDup_seq).
    by apply NoDup_app in Hall as (_ & _ & ?).
  - by apply closeAll_ok.
Qed.

(** A client that is refused opens no channel. *)
Lemma refused_client_opens_nothing (h : Host D) options r err r' :
  client SERVICE_ROOT h options r = (inl err, r') → rt_pool r' = rt_pool r.
Proof.
  unfold client; pose proof (getPackageDefinition_pool h (resolveProtoPath SERVICE_ROOT (go_protoPath options))
    (default (defaultIncludeDirs SERVICE_ROOT) (go_includeDirs options)) r) as Hg.
  destruct (getPackageDefinition _ _ _ r) as [[e|d] r1]; simpl in Hg |- *; [by intros [= _ <-]|].
  destruct (ho_loadPackageDefinition h d); [by intros [= _ <-]|].
  destruct (resolveServiceConstructor _ _ _); [by intros [= _ <-]|]; rewrite Hg; unfold pool_get.
  destruct (map_get _ _); [done|]; destruct (buildClientCredentials _ _); [by intros [= _ <-]|].
  by destruct (ho_channelError _ _); intros [= _ <-].
Qed.

(** A definition is loaded once: what a later call finds for its key is the first. *)
Lemma definitions_are_kept (s : GrpcRuntime D * list Client) c key d :
  map_get key (rt_packageDefinitions s.1) = Some d →
  map_get key (rt_packageDefinitions (runtime_step SERVICE_ROOT s c).1) = Some d.
Proof.
  intros Hk; destruct c as [h o|]; [|done]; simpl; unfold client.
  destruct (getPackageDefinition _ _ _ s.1) as [res r] eqn:Hg.
  assert (Hr : map_get key (rt_packageDefinitions r) = Some d).
  { unfold getPackageDefinition in Hg; repeat case_match; simplify_eq; [done..|by apply map_get_app]. }
  destruct res as [e|d']; [done|]; destruct (ho_loadPackageDefinition h d'); [done|].
  destruct (resolveServiceConstructor _ _ _); [done|]; by destruct (pool_get _ _ _) as [[|] ?].
Qed.

End RuntimeFacts.

(** A definition is cached under exactly the path and the directories it was read from. *)
Lemma cache_key_inj path path' dirs dirs' :
  0 ∉ path → 0 ∉ path' → dirs ≠ [] → dirs' ≠ [] → Forall (λ d, 0 ∉ d) dirs → Forall (λ d, 0 ∉ d) dirs' →
  cache_key path dirs = cache_key path' dirs' → path = path' ∧ dirs = dirs'.
Proof.
  intros Hp Hp' ????; unfold cache_key; change (?p ++ [0] ++ ?x) with (p ++ 0 :: x).
  intros [-> Heq]%app_terminated; [|done..]; split; [done|]; by apply jjoin_nul_inj.
Qed.

(** A name that every object inherits passes for a service. *)
Lemma inherited_name_is_a_service : resolveServiceConstructor (Namespace []) (js "toString") (js "l") = inr (js "toString").
Proof. reflexivity. Qed.

(** A unary call settles with its first answer, whatever is called back later, and
    every failure it is given is logged with the state of the channel. *)
Lemma unary_first_answer {T} names now label ms probe (answers : list ((ServiceError + T) * Probe)) :
  let c := fold_left (λ c a, unary_callback names label a.1 a.2 c) answers (callUnary names now label ms probe None) in
  uc_result _ c = head answers.*1 ∧ uc_deadline _ c = now + default 10000 ms ∧
  Forall (λ a, match a with
               | (inl err, probe) => ErrorCall (label ++ js " failed") (se_message err) (se_code err) (probe_state names probe) ∈ uc_log _ c
               | _ => True end) answers.
Proof.
  induction answers as [|[a q] answers IH] using rev_ind; [by split|]; rewrite fold_left_app; cbn zeta in *; simpl.
  destruct IH as (Hr & Hd & Hl); destruct (fold_left _ answers _) as [dl lg res]; simpl in *; subst.
  assert (Hhead : match head answers.*1 with Some r => Some r | None => Some a end = head (answers ++ [(a, q)]).*1) by (by destruct answers).
  destruct a as [err|t]; simpl; (split; [done|]; split; [done|]); apply Forall_app; (split; [|constructor; [simpl|done]]).
  - eapply Forall_impl; [apply Hl|]; intros [[]]; set_solver.
  - set_solver.
  - done.
  - done.
Qed.
