(* ===== verification/AdapterHttp.v ===== *)
(** * The HTTP side of a model call

    [llm-glm/src/adapter.ts] and [llm-opencode-go/src/adapter.ts], around the transport
    of [Adapter.v]: the request with its conditional credentials, the classification
    of an HTTP failure with its retry delay, the mapping of what the guarded iterator
    throws, and the model catalog.  The check of a key, the attribution headers, the
    parsers of JSON and of dates and the clock are parameters. *)

From Stdlib Require Import SpecFloat.
From S2P Require Import Prelude JsText JsJson LlmStream Adapter.
From S2P Require PresetServer.

#[local] Open Scope Z_scope.

(** ** Configuration and identity *)

Record AdapterConfig : Type := mkConfig {
  ac_apiKeyEnv : string;
  ac_baseURL : string;
  ac_models : list (string * Z);
  ac_streamIdleTimeoutMs : option Z;
}.

Definition DEFAULT_STREAM_IDLE_TIMEOUT_MS : Z := 300000.
Definition streamIdleTimeoutMs (c : AdapterConfig) : Z := default DEFAULT_STREAM_IDLE_TIMEOUT_MS (ac_streamIdleTimeoutMs c).

#[local] Notation Headers := (list (string * string)).

(** [headers[name] = value]. *)
Fixpoint set_header (name value : string) (headers : Headers) : Headers :=
  match headers with
  | [] => [(name, value)]
  | (n, v) :: headers => if bool_decide (n = name) then (n, value) :: headers else (n, v) :: set_header name value headers
  end.
Definition set_headers (headers more : Headers) : Headers := fold_left (λ h m, set_header m.1 m.2 h) more headers.

Record AppIdentity : Type := mkIdentity { ai_product : string; ai_version : string; ai_url : string }.

(** What tells the two adapters apart. *)
Record Endpoint : Type := mkEndpoint {
  ep_name : string;
  ep_package : string;
  ep_provider : string;
  ep_path : string;
  ep_identity : option AppIdentity;
  ep_session : bool;
}.

Definition glm_endpoint : Endpoint :=
  mkEndpoint "GLM" "@dominion/dsh-llm-glm" "GLM (OpenAI Responses)" "/responses" None false.

Definition APP_IDENTITY : AppIdentity := mkIdentity "dominion-agent-v2" "1.0.0" "https://github.com/LiuKexin255/dominion".

Definition opencode_endpoint : Endpoint :=
  mkEndpoint "OpenCode Go" "@dominion/dsh-llm-opencode-go" "OpenCode Go (Chat Completions)" "/chat/completions"
    (Some APP_IDENTITY) true.

Section Http.
Context (ep : Endpoint).
(** Third party: the attribution headers of an identity, and the check of a key, given
    the package and the reference that its diagnostics name. *)
Context (attributionHeaders : option AppIdentity → Headers).
Context (assertUsableApiKey : string → string → string → LlmError + string).

(** [rawApiKey.trim() !== ""]. *)
Definition has_key (rawApiKey : string) : bool := negb (bool_decide (trim (js rawApiKey) = [])).

Definition base_headers : Headers :=
  set_headers [("Content-Type", "application/json"); ("Accept", "text/event-stream")] (attributionHeaders (ep_identity ep)).

(** The headers with the credentials, if there are any. *)
Definition keyed_headers (c : AdapterConfig) (env : string → option string) : LlmError + Headers :=
  let rawApiKey := default "" (env (ac_apiKeyEnv c)) in
  if has_key rawApiKey then
    match assertUsableApiKey rawApiKey (ep_package ep) ("env " +:+ ac_apiKeyEnv c) with
    | inl err => inl err
    | inr apiKey => inr (set_header "Authorization" ("Bearer " +:+ apiKey) base_headers)
    end
  else inr base_headers.

Definition request_headers (c : AdapterConfig) (env : string → option string) (sessionId : option string) : LlmError + Headers :=
  match keyed_headers c env with
  | inl err => inl err
  | inr headers =>
      inr (match sessionId with
           | Some id => if ep_session ep then set_header "x-opencode-session" id headers else headers
           | None => headers
           end)
  end.

Definition request_url (c : AdapterConfig) : string := ac_baseURL c +:+ ep_path ep.

(** ** HTTP failures *)

Inductive JsonValue : Type :=
| JNull
| JBool (b : bool)
| JNumber (text : string)
| JString (s : string)
| JArray (items : list JsonValue)
| JObject (fields : list (string * JsonValue)).

Context (JSON_parse : string → option JsonValue).

(** A field of a parsed value; an array has none of those read here. *)
Definition json_field (name : string) (v : JsonValue) : option JsonValue :=
  match v with JObject fields => snd <$> last (filter (λ f, f.1 = name) fields) | _ => None end.

Definition is_json_object (v : JsonValue) : bool := match v with JObject _ | JArray _ => true | _ => false end.

Definition string_field (name : string) (v : JsonValue) : option string :=
  match json_field name v with Some (JString s) => Some s | _ => None end.

Definition providerErrorDetail (rawBody : string) : string :=
  match JSON_parse rawBody with
  | None => ""
  | Some parsed =>
      match json_field "error" parsed with
      | Some error =>
          if is_json_object error then
            join " " (omap id [string_field "code" error; string_field "type" error; string_field "message" error])
          else ""
      | None => ""
      end
  end.

(** A number of JavaScript, and the two operations that are used. *)
Definition double : Type := spec_float.
Definition number_of (n : Z) : double := binary_normalize 53 1024 n 0 false.
Definition times (a b : double) : double := SFmul 53 1024 a b.

Definition positive_finite (d : double) : option double :=
  match d with S754_finite false _ _ => Some d | _ => None end.

(** [Date.parse], NaN as [None]; an hour in whole milliseconds. *)
Context (Date_parse : string → option Z).

Definition digits_only (s : jstr) : bool := bool_decide (s ≠ []) && forallb is_digit s.

Definition providerRetryAfterMs (now : Z) (value : option string) : option double :=
  match value with
  | None => None
  | Some value =>
      if digits_only (js value) then positive_finite (times (number_of (digits_value (js value))) (number_of 1000))
      else Date_parse value ≫= λ t, positive_finite (number_of (t - now))
  end.

Context (isQuotaExceededError isContextWindowExceededError : string → bool).

Record HttpFailure : Type := mkHttpFailure {
  hf_message : string;
  hf_code : string;
  hf_cause : string;
  hf_status : Z;
  hf_retryAfterMs : option double;
}.

Definition http_failure (now status : Z) (rawBody : string) (retryAfter : option string) : HttpFailure :=
  let message := ep_name ep +:+ " endpoint returned HTTP " +:+ num_str status in
  mkHttpFailure message
    (httpErrorCode isQuotaExceededError isContextWindowExceededError status (providerErrorDetail rawBody))
    (if (0 <? slen rawBody) then rawBody else message)
    status
    (providerRetryAfterMs now retryAfter).

(** ** What the guarded iterator throws *)

Inductive Caught : Type :=
| ThrowError (error : LlmError)
| YieldAborted.

(** [timedOut] is the watchdog's, [aborted] the caller's; an error is a typed one or
    any other, with its message. *)
Definition caught (c : AdapterConfig) (timedOut aborted : bool) (error : LlmError + string) : Caught :=
  if timedOut then
    ThrowError (mkLlmError (ep_name ep +:+ " stream idle timeout after " +:+ num_str (streamIdleTimeoutMs c) +:+ "ms") "TIMEOUT")
  else if aborted then YieldAborted
  else
    match error with
    | inl error => ThrowError error
    | inr message => ThrowError (mkLlmError (ep_name ep +:+ " stream failed: " +:+ message) "TRANSPORT")
    end.

(** ** The catalog *)

Record LlmModelInfo : Type := mkModelInfo { lm_provider : string; lm_id : string; lm_name : string; lm_contextWindow : option Z }.

Definition providerInfo (provider : string) : string * string := (provider, ep_provider ep).

Definition listModels (c : AdapterConfig) (provider : string) : list LlmModelInfo :=
  (λ entry, mkModelInfo provider entry.1 entry.1 None) <$> ac_models c.

Definition resolveModel (c : AdapterConfig) (provider model : string) : LlmModelInfo :=
  mkModelInfo provider model model (snd <$> head (filter (λ entry, entry.1 = model) (ac_models c))).

End Http.

(** ** What the adapters guarantee *)

(** A header that is set leaves the others alone. *)
Lemma set_header_other name value headers :
  filter (λ h, h.1 ≠ name) (set_header name value headers) = filter (λ h, h.1 ≠ name) headers.
Proof.
  induction headers as [|[n v] headers IH]; cbn [set_header]; [by rewrite filter_cons_False by (simpl; tauto)|].
  case_bool_decide as E; [subst; by rewrite !filter_cons_False by (simpl; tauto)|].
  by rewrite !filter_cons_True, IH by done.
Qed.

Lemma set_header_apart name name' value headers headers' : name ≠ name' →
  filter (λ h, h.1 ≠ name) headers = filter (λ h, h.1 ≠ name) headers' →
  filter (λ h, h.1 ≠ name) (set_header name' value headers) = filter (λ h, h.1 ≠ name) (set_header name' value headers').
Proof.
  intros Hne; assert (Hcomm : ∀ l, filter (λ h, h.1 ≠ name) (set_header name' value l)
                              = set_header name' value (filter (λ h, h.1 ≠ name) l)).
  { intros l; induction l as [|[n v] l IH]; cbn [set_header]; [by rewrite filter_cons_True by (simpl; congruence)|].
    case_bool_decide as E; [subst|destruct (decide (n = name)) as [->|Hn]].
    - rewrite !filter_cons_True by (simpl; congruence); simpl; by rewrite bool_decide_eq_true_2.
    - by rewrite !filter_cons_False by (simpl; tauto).
    - rewrite !filter_cons_True by done; simpl; rewrite bool_decide_eq_false_2 by done; by rewrite IH. }
  rewrite !Hcomm; by intros ->.
Qed.

(** The credentials of an adapter go into one header and nowhere else: whatever two
    environments hold — a key, another one, or none — the requests they make for one
    call differ in [Authorization] only, and the message of an HTTP failure is the same
    for every body, headers reflected in it included. *)
Theorem token_stays_in_its_header ep attribution assertKey c env env' sessionId h h'
    (Hh : request_headers ep attribution assertKey c env sessionId = inr h)
    (Hh' : request_headers ep attribution assertKey c env' sessionId = inr h') :
  filter (λ x, x.1 ≠ "Authorization") h = filter (λ x, x.1 ≠ "Authorization") h' ∧
  ∀ JSON_parse Date_parse isQuota isContext now status body body' retry retry',
    hf_message (http_failure ep JSON_parse Date_parse isQuota isContext now status body retry)
    = hf_message (http_failure ep JSON_parse Date_parse isQuota isContext now status body' retry').
Proof.
  split; [|done].
  assert (Hkeyed : ∀ e x, keyed_headers ep attribution assertKey c e = inr x →
    filter (λ x, x.1 ≠ "Authorization") x = filter (λ x, x.1 ≠ "Authorization") (base_headers ep attribution)).
  { intros e x; unfold keyed_headers; destruct (has_key _); [|by intros [= <-]].
    destruct (assertKey _ _ _); [done|]; intros [= <-]; apply set_header_other. }
  revert Hh Hh'; unfold request_headers.
  destruct (keyed_headers _ _ _ _ env) as [|x] eqn:E1, (keyed_headers _ _ _ _ env') as [|x'] eqn:E2; try done.
  apply Hkeyed in E1, E2; intros [= <-] [= <-]; destruct sessionId as [id|]; [destruct (ep_session ep)|]; try congruence.
  by apply set_header_apart; [|congruence].
Qed.

Definition sample_config : AdapterConfig := mkConfig "KEY" "https://opencode.ai/zen/go/v1" [("m", 1000)] None.
Definition sample_env (key : string) (name : string) : option string := if bool_decide (name = "KEY") then Some key else None.

Lemma token_stays_in_its_header_witness :
  let built key := request_headers opencode_endpoint (λ _, [("User-Agent", "dominion")]) (λ k _ _, inr k) sample_config
                     (sample_env key) (Some "s") in
  built " " = inr [("Content-Type", "application/json"); ("Accept", "text/event-stream"); ("User-Agent", "dominion");
                   ("x-opencode-session", "s")] ∧
  ∃ h h', built "a" = inr h ∧ built " " = inr h' ∧
    filter (λ x, x.1 ≠ "Authorization") h = filter (λ x, x.1 ≠ "Authorization") h'.
Proof.
  cbn zeta; split; [vm_compute; reflexivity|]; do 2 eexists; split; [vm_compute; reflexivity|]; split; [vm_compute; reflexivity|].
  refine (proj1 (token_stays_in_its_header opencode_endpoint (λ _, [("User-Agent", "dominion")]) (λ k _ _, inr k) sample_config
                   (sample_env "a") (sample_env " ") (Some "s") _ _ _ _)); vm_compute; reflexivity.
Defined.

(** The failure is the one the call of [Adapter.v] throws. *)
Lemma http_failure_is_thrown {W : WireOps} {R} ep JSON_parse Date_parse isQuota isContext now status rawBody retry
    (r : R) (fetch : R → FetchAnswer) :
  endpoint = ep_name ep → fetch r = HttpError status (providerErrorDetail JSON_parse rawBody) →
  let f := http_failure ep JSON_parse Date_parse isQuota isContext now status rawBody retry in
  request isQuota isContext None (inr r) fetch = ([], Threw (mkLlmError (hf_message f) (hf_code f))).
Proof. intros He Hf; unfold request; by rewrite Hf, He. Qed.

(** A retry delay is positive and finite. *)
Lemma retry_delay_positive Date_parse now value d :
  providerRetryAfterMs Date_parse now value = Some d → ∃ m e, d = S754_finite false m e.
Proof.
  assert (H : ∀ x, positive_finite x = Some d → ∃ m e, d = S754_finite false m e)
    by (intros [| | |[] m e]; simpl; try done; intros [= <-]; eauto).
  unfold providerRetryAfterMs; destruct value as [value|]; [|done]; destruct (digits_only _); [apply H|].
  intros (t & _ & Ht)%bind_Some; by apply H in Ht.
Qed.

(** Seconds become milliseconds; zero, and a number of seconds too large for a number,
    give no delay. *)
Lemma retry_delays : let retry value := providerRetryAfterMs (λ _, None) 0 (Some value) in
  retry "120" = positive_finite (number_of 120000) ∧ retry "0" = None ∧ retry (str_repeat "9" 400) = None ∧
  retry "-5" = None.
Proof. vm_compute; auto. Qed.

(** Every listed model resolves to itself with its window, an unlisted one without. *)
Lemma resolved_window c provider model :
  lm_contextWindow (resolveModel c provider model) = snd <$> head (filter (λ e, e.1 = model) (ac_models c)) ∧
  (is_Some (lm_contextWindow (resolveModel c provider model)) ↔ model ∈ lm_id <$> listModels c provider).
Proof.
  split; [done|]; unfold resolveModel, listModels; simpl; induction (ac_models c) as [|[m w] l IH]; simpl.
  { split; [by intros [? ?]|by intros ?%elem_of_nil]. }
  destruct (decide (m = model)) as [->|Hne].
  - rewrite filter_cons_True by done; simpl; split; [by left|by eexists].
  - rewrite filter_cons_False by done; rewrite IH, elem_of_cons; split; [by right|by intros [?|?]].
Qed.

(** The catalog the server builds from an adapter is the configured one. *)
Lemma served_catalog c provider : NoDup (ac_models c).*1 →
  PresetServer.providerModelCatalog (inr (lm_id <$> listModels c provider))
    (λ id, lm_contextWindow (resolveModel c provider id))
  = inr ((λ m, PresetServer.mkModel m.1 m.2) <$> ac_models c).
Proof.
  intros Hnd; simpl; f_equal; unfold listModels; rewrite <- !list_fmap_compose; apply list_fmap_ext.
  intros i [m w] Hi; simpl; f_equal; revert i Hi; induction (ac_models c) as [|[m' w'] l IH]; [done|].
  apply NoDup_cons in Hnd as [Hm' Hnd]; intros [|i] Hi; simpl in *.
  - injection Hi as -> ->; by rewrite filter_cons_True.
  - rewrite filter_cons_False; [by eapply IH|]; simpl; intros ->; apply Hm', list_elem_of_fmap; exists (m, w).
    split; [done|by eapply list_elem_of_lookup_2].
Qed.
