(* ===== verification/DesktopApp.v ===== *)
(** * The desktop terminal

    [projects/game/desktop/frontend/src/App.svelte], with the log of [logger.ts] and the
    constants of [api.ts]: the pages, the connection of a session, the window dropdown,
    the debug switch and the drawer of held operations, cut at the calls of the Go
    backend, which are answered by events.  Rendering and the Wails bindings are
    outside. *)

From S2P Require Import Prelude.

#[local] Open Scope Z_scope.

Definition TEMPLATE_SAOLEI : string := "saolei".
Definition TEMPLATE_STS2 : string := "sts2".
Definition TEMPLATES : list string := [TEMPLATE_SAOLEI; TEMPLATE_STS2].

Inductive PageName : Type := PageSessions | PageSession.
Inductive ConnectionState : Type := Disconnected | Connecting | Connected | ConnectionError.

#[export] Instance PageName_eq_dec : EqDecision PageName.
Proof. solve_decision. Defined.
#[export] Instance ConnectionState_eq_dec : EqDecision ConnectionState.
Proof. solve_decision. Defined.

Record Session : Type := mkSession { ds_name : string; ds_sessionId : string }.
Record HeldOperation : Type := mkHeld { ho_toolId : string; ho_kind : string; ho_summary : string }.
Record WindowRef : Type := mkWindow { wr_handle : Z; wr_title : string }.
Record LogEntry : Type := mkLog { lg_level : string; lg_source : string; lg_message : string }.

#[export] Instance Session_eq_dec : EqDecision Session.
Proof. solve_decision. Defined.

(** The calls of the backend that are waited for; a list of windows may be followed by
    the restoring of the selection, a close by the way back. *)
Inductive BackendCall : Type :=
| CallListSessions (template : string)
| CallConnect (template sessionId : string)
| CallCloseAgent
| CallListWindows (restore : bool)
| CallGetSelectedWindow
| CallSetConfig (url env : string).

#[export] Instance BackendCall_eq_dec : EqDecision BackendCall.
Proof. solve_decision. Defined.

(** Those whose answer is only logged when it is an error. *)
Inductive Pushed : Type :=
| PushWindow (handle : Z)
| PushDebug (enabled : bool)
| PushConfirm (toolId : string).

(** The state of the page; [debugEnabled] is the one of the logger. *)
Record Desktop : Type := mkDesktop {
  d_page : PageName;
  d_template : string;
  d_selectedSession : option Session;
  d_sessions : list Session;
  d_connectionState : ConnectionState;
  d_loading : bool;
  d_error : option string;
  d_debugMode : bool;
  d_debugEnabled : bool;
  d_held : list HeldOperation;
  d_windows : list WindowRef;
  d_selectedWindow : option Z;
  d_logs : list LogEntry;
  d_calls : list BackendCall;
  d_pushed : list Pushed;
}.

Definition set_nav (d : Desktop) page session :=
  mkDesktop page (d_template d) session (d_sessions d) (d_connectionState d) (d_loading d) (d_error d) (d_debugMode d)
    (d_debugEnabled d) (d_held d) (d_windows d) (d_selectedWindow d) (d_logs d) (d_calls d) (d_pushed d).
Definition set_template (d : Desktop) template :=
  mkDesktop (d_page d) template (d_selectedSession d) (d_sessions d) (d_connectionState d) (d_loading d) (d_error d) (d_debugMode d)
    (d_debugEnabled d) (d_held d) (d_windows d) (d_selectedWindow d) (d_logs d) (d_calls d) (d_pushed d).
Definition set_sessions (d : Desktop) sessions loading error :=
  mkDesktop (d_page d) (d_template d) (d_selectedSession d) sessions (d_connectionState d) loading error (d_debugMode d)
    (d_debugEnabled d) (d_held d) (d_windows d) (d_selectedWindow d) (d_logs d) (d_calls d) (d_pushed d).
Definition set_connection (d : Desktop) state error :=
  mkDesktop (d_page d) (d_template d) (d_selectedSession d) (d_sessions d) state (d_loading d) error (d_debugMode d)
    (d_debugEnabled d) (d_held d) (d_windows d) (d_selectedWindow d) (d_logs d) (d_calls d) (d_pushed d).
Definition set_debug (d : Desktop) mode enabled pushed :=
  mkDesktop (d_page d) (d_template d) (d_selectedSession d) (d_sessions d) (d_connectionState d) (d_loading d) (d_error d) mode
    enabled (d_held d) (d_windows d) (d_selectedWindow d) (d_logs d) (d_calls d) pushed.
Definition set_held (d : Desktop) held :=
  mkDesktop (d_page d) (d_template d) (d_selectedSession d) (d_sessions d) (d_connectionState d) (d_loading d) (d_error d) (d_debugMode d)
    (d_debugEnabled d) held (d_windows d) (d_selectedWindow d) (d_logs d) (d_calls d) (d_pushed d).
Definition set_windows (d : Desktop) windows selected pushed :=
  mkDesktop (d_page d) (d_template d) (d_selectedSession d) (d_sessions d) (d_connectionState d) (d_loading d) (d_error d) (d_debugMode d)
    (d_debugEnabled d) (d_held d) windows selected (d_logs d) (d_calls d) pushed.
Definition set_logs (d : Desktop) logs :=
  mkDesktop (d_page d) (d_template d) (d_selectedSession d) (d_sessions d) (d_connectionState d) (d_loading d) (d_error d) (d_debugMode d)
    (d_debugEnabled d) (d_held d) (d_windows d) (d_selectedWindow d) logs (d_calls d) (d_pushed d).
Definition set_backend (d : Desktop) calls pushed :=
  mkDesktop (d_page d) (d_template d) (d_selectedSession d) (d_sessions d) (d_connectionState d) (d_loading d) (d_error d) (d_debugMode d)
    (d_debugEnabled d) (d_held d) (d_windows d) (d_selectedWindow d) (d_logs d) calls pushed.

(** [log]: the sink appends. *)
Definition log_line (level source message : string) (d : Desktop) : Desktop :=
  set_logs d (d_logs d ++ [mkLog level source message]).

Definition call_backend (c : BackendCall) (d : Desktop) : Desktop := set_backend d (d_calls d ++ [c]) (d_pushed d).

(** [applyDebugMode], both layers. *)
Definition applyDebugMode (d : Desktop) : Desktop :=
  set_debug d (d_debugMode d) (d_debugMode d) (d_pushed d ++ [PushDebug (d_debugMode d)]).

(** The selected handle, and the effect that pushes a new one. *)
Definition selectWindow (handle : option Z) (d : Desktop) : Desktop :=
  set_windows d (d_windows d) handle
    (match handle with
     | Some h => if bool_decide (d_selectedWindow d = Some h) then d_pushed d else d_pushed d ++ [PushWindow h]
     | None => d_pushed d
     end).

Definition resetSessionViewState (d : Desktop) : Desktop :=
  let d := set_windows d [] None (d_pushed d) in
  let d := if d_debugMode d then applyDebugMode (set_debug d false (d_debugEnabled d) (d_pushed d)) else d in
  set_held d [].

Definition handleRefresh (d : Desktop) : Desktop :=
  call_backend (CallListSessions (d_template d)) (set_sessions d (d_sessions d) true None).
Definition sessions_landed (res : string + list Session) (d : Desktop) : Desktop :=
  match res with
  | inr sessions => log_line "info" "sessions" ("Listed " +:+ num_str (Z.of_nat (length sessions)) +:+ " sessions")
                      (set_sessions d sessions false (d_error d))
  | inl e => log_line "error" "sessions" ("Refresh failed: " +:+ e) (set_sessions d (d_sessions d) false (Some e))
  end.

(** The first render, and [onMount]. *)
Definition initial_desktop : Desktop :=
  handleRefresh (mkDesktop PageSessions TEMPLATE_SAOLEI None [] Disconnected false None false false [] [] None [] [] []).

Definition handleTemplateChange (template : string) (d : Desktop) : Desktop :=
  log_line "info" "template" ("Switched template (local constant, no request): " +:+ template)
    (handleRefresh (set_nav (set_template d template) PageSessions None)).

Definition handleConnect (d : Desktop) : Desktop :=
  match d_selectedSession d with
  | None => d
  | Some s => call_backend (CallConnect (d_template d) (ds_sessionId s)) (set_connection d Connecting (d_error d))
  end.
Definition connect_landed (res : option string) (d : Desktop) : Desktop :=
  match res with
  | None => log_line "info" "session" "Session connected via WebSocket" (set_connection d Connected (d_error d))
  | Some e => log_line "error" "session" ("Connect failed: " +:+ e) (set_connection d ConnectionError (Some e))
  end.

Definition handleSelectSession (s : Session) (d : Desktop) : Desktop :=
  let d := set_nav (resetSessionViewState d) PageSession (Some s) in
  let d := set_connection d Disconnected None in
  handleConnect (call_backend (CallListWindows true) d).

(** The way back, after the close if there was something to close. *)
Definition back_to_sessions (d : Desktop) : Desktop :=
  handleRefresh (set_nav (resetSessionViewState d) PageSessions None).
Definition handleBackToSessions (d : Desktop) : Desktop :=
  let d := set_connection d (d_connectionState d) None in
  if bool_decide (d_connectionState d ∈ [Connected; Connecting]) then call_backend CallCloseAgent d else back_to_sessions d.
Definition close_landed (d : Desktop) : Desktop := back_to_sessions (set_connection d Disconnected (d_error d)).

Definition windows_landed (restore : bool) (res : string + list WindowRef) (d : Desktop) : Desktop :=
  let d := match res with
           | inr windows => set_windows d windows (d_selectedWindow d) (d_pushed d)
           | inl e => log_line "warn" "windows" ("Failed to list windows: " +:+ e) d
           end in
  if restore then call_backend CallGetSelectedWindow d else d.
Definition selected_landed (res : string + Z) (d : Desktop) : Desktop :=
  match res with
  | inr hwnd =>
      if negb (hwnd =? 0) && existsb (λ w, wr_handle w =? hwnd) (d_windows d) then selectWindow (Some hwnd) d else d
  | inl e => log_line "warn" "windows" ("GetSelectedWindow failed: " +:+ e) d
  end.

Definition handleApplyConfig (url env : string) (d : Desktop) : Desktop :=
  call_backend (CallSetConfig url env) (set_sessions d (d_sessions d) true None).
(** [shown] is the URL in the field when the answer comes. *)
Definition config_landed (shown : string) (res : option string) (d : Desktop) : Desktop :=
  match res with
  | None => log_line "info" "config" ("Config applied: " +:+ shown) (set_sessions d (d_sessions d) false (d_error d))
  | Some e => log_line "error" "config" ("Apply config failed: " +:+ e) (set_sessions d (d_sessions d) false (Some e))
  end.

(** The two events of the backend, of an operation that has an id. *)
Definition result_held (op : HeldOperation) (d : Desktop) : Desktop :=
  if bool_decide (ho_toolId op = "") then d else set_held d (d_held d ++ [op]).
Definition result_released (toolId : string) (d : Desktop) : Desktop :=
  if bool_decide (toolId = "") then d else set_held d (filter (λ h, ho_toolId h ≠ toolId) (d_held d)).

Definition handleConfirm (toolId : string) (d : Desktop) : Desktop := set_backend d (d_calls d) (d_pushed d ++ [PushConfirm toolId]).

Inductive DesktopEvent : Type :=
| ChangeTemplate (template : string)
| ClickRefresh
| SelectSession (s : Session)
| ClickBack
| PickWindow (handle : Z)
| FocusWindows
| ToggleDebug
| Confirm (toolId : string)
| ApplyConfig (url env : string)
| ClearLogs
| ResultHeld (op : HeldOperation)
| ResultReleased (toolId : string)
| SessionsLanded (template : string) (res : string + list Session)
| ConnectLanded (template sessionId : string) (res : option string)
| CloseLanded
| WindowsLanded (restore : bool) (res : string + list WindowRef)
| SelectedLanded (res : string + Z)
| ConfigLanded (url env shown : string) (res : option string)
| PushFailed (source message : string).

Fixpoint drop_call (c : BackendCall) (calls : list BackendCall) : list BackendCall :=
  match calls with
  | [] => []
  | c' :: calls => if bool_decide (c' = c) then calls else c' :: drop_call c calls
  end.

(** A call under way lands. *)
Definition call_lands (c : BackendCall) (f : Desktop → Desktop) (d : Desktop) : option Desktop :=
  if bool_decide (c ∈ d_calls d) then Some (f (set_backend d (drop_call c (d_calls d)) (d_pushed d))) else None.

Definition when (enabled : bool) (d : Desktop) : option Desktop := if enabled then Some d else None.

(** The controls of a page can be used while it is shown; the template, the
    configuration and the log always. *)
Definition desktop_step (ev : DesktopEvent) (d : Desktop) : option Desktop :=
  let in_session := bool_decide (d_page d = PageSession) in
  match ev with
  | ChangeTemplate t => when (bool_decide (t ∈ TEMPLATES)) (handleTemplateChange t d)
  | ClickRefresh => when (negb in_session && negb (d_loading d)) (handleRefresh d)
  | SelectSession s => when (negb in_session && negb (d_loading d) && bool_decide (d_error d ∈ [None; Some ""]) && bool_decide (s ∈ d_sessions d))
                            (handleSelectSession s d)
  | ClickBack => when in_session (handleBackToSessions d)
  | PickWindow h => when (in_session && existsb (λ w, wr_handle w =? h) (d_windows d)) (selectWindow (Some h) d)
  | FocusWindows => when in_session (call_backend (CallListWindows false) d)
  | ToggleDebug => when in_session (applyDebugMode (set_debug d (negb (d_debugMode d)) (d_debugEnabled d) (d_pushed d)))
  | Confirm id => when (in_session && existsb (λ h, bool_decide (ho_toolId h = id)) (d_held d)) (handleConfirm id d)
  | ApplyConfig url env => when (negb (d_loading d)) (handleApplyConfig url env d)
  | ClearLogs => Some (set_logs d [])
  | ResultHeld op => Some (result_held op d)
  | ResultReleased id => Some (result_released id d)
  | SessionsLanded t res => call_lands (CallListSessions t) (sessions_landed res) d
  | ConnectLanded t id res => call_lands (CallConnect t id) (connect_landed res) d
  | CloseLanded => call_lands CallCloseAgent close_landed d
  | WindowsLanded r res => call_lands (CallListWindows r) (windows_landed r res) d
  | SelectedLanded res => call_lands CallGetSelectedWindow (selected_landed res) d
  | ConfigLanded url env shown res => call_lands (CallSetConfig url env) (config_landed shown res) d
  | PushFailed source message => Some (log_line "error" source message d)
  end.

Definition run_desktop (evs : list DesktopEvent) (d : Desktop) : option Desktop := foldM (λ d ev, desktop_step ev d) d evs.

(** ** The drawer *)

(** The event leaves an operation of the id in the drawer: surely, or unless the way back
    was taken at once. *)
Definition may_keep (id : string) (ev : DesktopEvent) : bool :=
  match ev with
  | ResultReleased id' => bool_decide (id' ≠ id)
  | SelectSession _ | CloseLanded => false
  | _ => true
  end.
Definition keeps (id : string) (ev : DesktopEvent) : bool :=
  match ev with ClickBack => false | _ => may_keep id ev end.

Lemma run_snoc evs ev d : run_desktop (evs ++ [ev]) d = run_desktop evs d ≫= desktop_step ev.
Proof.
  revert d. induction evs as [|ev' evs IH]; intros d; cbn; [by destruct (desktop_step ev d)|].
  destruct (desktop_step ev' d) as [d'|]; [apply IH|done].
Qed.

(** Induction on the events of a run, from the last. *)
Lemma desktop_run_ind (P : list DesktopEvent → Desktop → Prop) d0 :
  P [] d0 →
  (∀ evs d ev d', run_desktop evs d0 = Some d → P evs d → desktop_step ev d = Some d' → P (evs ++ [ev]) d') →
  ∀ evs d, run_desktop evs d0 = Some d → P evs d.
Proof.
  intros H0 HS evs. induction evs as [|ev evs IH] using rev_ind; intros d; [cbn; by intros [= <-]|].
  rewrite run_snoc. intros (d' & Hd' & Hd)%bind_Some. eauto.
Qed.

(** Opens the step that an event takes, one case per event. *)
Ltac step_cases H :=
  match type of H with desktop_step ?ev _ = Some _ => first [is_var ev; destruct ev|idtac]; cbn [desktop_step] in H end;
  unfold call_lands, when in H; repeat case_match; simplify_eq.

(** The parts of the page a step leaves alone are read off by computation. *)
Ltac open_handlers :=
  unfold result_held, result_released, handleTemplateChange, handleBackToSessions, close_landed, back_to_sessions,
    handleSelectSession, handleConnect, handleRefresh, handleConfirm, handleApplyConfig, config_landed, connect_landed,
    sessions_landed, windows_landed, selected_landed, selectWindow, resetSessionViewState, applyDebugMode, log_line, call_backend in *;
  cbn in *; repeat case_match; cbn in *.

(** What one event does to the drawer. *)
Lemma step_held ev d d' :
  desktop_step ev d = Some d' →
  match ev with
  | ResultHeld op => d_held d' = if bool_decide (ho_toolId op = "") then d_held d else d_held d ++ [op]
  | ResultReleased id => d_held d' = if bool_decide (id = "") then d_held d else filter (λ h, ho_toolId h ≠ id) (d_held d)
  | SelectSession _ | CloseLanded => d_held d' = []
  | ClickBack => d_held d' = [] ∨ d_held d' = d_held d
  | _ => d_held d' = d_held d
  end.
Proof.
  intros H. step_cases H; open_handlers; try done; try (by left); by right.
Qed.

Lemma step_keeps ev d d' op :
  desktop_step ev d = Some d' → ho_toolId op ≠ "" → keeps (ho_toolId op) ev = true → op ∈ d_held d → op ∈ d_held d'.
Proof.
  intros H Hid Hk Hin. apply step_held in H.
  destruct ev; cbn in *; try done; try (by rewrite H); rewrite H.
  - case_bool_decide; [done|]. apply elem_of_app. by left.
  - apply bool_decide_eq_true in Hk. case_bool_decide; [done|]. apply list_elem_of_filter. split; [congruence|done].
Qed.

Lemma held_of_step ev d d' op :
  desktop_step ev d = Some d' → op ∈ d_held d' →
  (ev = ResultHeld op ∧ ho_toolId op ≠ "") ∨ (op ∈ d_held d ∧ (ho_toolId op ≠ "" → may_keep (ho_toolId op) ev = true)).
Proof.
  intros H Hin. apply step_held in H.
  destruct ev; cbn in *; try (right; by rewrite H in Hin); try (rewrite H in Hin; by apply elem_of_nil in Hin).
  - right. destruct H as [H|H]; rewrite H in Hin; [by apply elem_of_nil in Hin|done].
  - rewrite H in Hin. case_bool_decide; [by right|].
    apply elem_of_app in Hin as [Hin| ->%list_elem_of_singleton]; [by right|by left].
  - right. rewrite H in Hin. case_bool_decide as Hi.
    + subst. split; [done|]. intros Hne. by rewrite bool_decide_eq_true.
    + apply list_elem_of_filter in Hin as [Hne Hin]. split; [done|]. intros _. rewrite bool_decide_eq_true. congruence.
Qed.

Lemma drawer_sound evs d :
  run_desktop evs initial_desktop = Some d → ∀ op, op ∈ d_held d →
  ho_toolId op ≠ "" ∧ ∃ pre post, evs = pre ++ ResultHeld op :: post ∧ Forall (λ ev, may_keep (ho_toolId op) ev = true) post.
Proof.
  revert evs d. refine (desktop_run_ind _ _ _ _); [intros op Hin; by apply elem_of_nil in Hin|].
  intros evs d ev d' _ IH Hs op Hin. destruct (held_of_step _ _ _ _ Hs Hin) as [[-> Hid]|[Hin' Hk]].
  - split; [done|]. by exists evs, [].
  - destruct (IH op Hin') as (Hid & pre & post & -> & Hp). split; [done|].
    exists pre, (post ++ [ev]). rewrite <- app_assoc. split; [done|]. apply Forall_app; auto.
Qed.

Lemma drawer_complete evs d :
  run_desktop evs initial_desktop = Some d → ∀ op pre post, ho_toolId op ≠ "" →
  evs = pre ++ ResultHeld op :: post → Forall (λ ev, keeps (ho_toolId op) ev = true) post → op ∈ d_held d.
Proof.
  revert evs d. refine (desktop_run_ind _ _ _ _); [by intros op []|].
  intros evs d ev d' _ IH Hs op pre post Hid Heq Hp. destruct post as [|ev' post _] using rev_ind.
  - apply app_inj_tail in Heq as [_ ->]. apply step_held in Hs. rewrite Hs, bool_decide_false by done.
    apply elem_of_app. right. by apply list_elem_of_singleton.
  - rewrite app_comm_cons, app_assoc in Heq. apply app_inj_tail in Heq as [-> ->].
    apply Forall_app in Hp as [Hp Hev]. inversion Hev; subst. eapply step_keeps; eauto.
Qed.

(** The drawer shows what is held.  An operation is in it only if it was reported
    held, with an id, and since then neither reported released nor the session left; and
    it is in it whenever it was reported so and nothing of the kind, nor a press of the
    way back, came after. *)
Theorem drawer_shows_what_is_held evs d op :
  run_desktop evs initial_desktop = Some d →
  (op ∈ d_held d → ho_toolId op ≠ "" ∧ ∃ pre post, evs = pre ++ ResultHeld op :: post ∧ Forall (λ ev, may_keep (ho_toolId op) ev = true) post) ∧
  (ho_toolId op ≠ "" → ∀ pre post, evs = pre ++ ResultHeld op :: post → Forall (λ ev, keeps (ho_toolId op) ev = true) post → op ∈ d_held d).
Proof.
  intros Hrun. split; [by apply drawer_sound|]. intros Hid pre post. by eapply drawer_complete.
Qed.

#[local] Definition swap : HeldOperation := mkHeld "op-1" "swap" "swap two cards".
#[local] Definition play : HeldOperation := mkHeld "op-2" "play" "play a card".
#[local] Definition one_session : list DesktopEvent :=
  [SessionsLanded TEMPLATE_SAOLEI (inr [mkSession "sessions/a" "a"]); SelectSession (mkSession "sessions/a" "a"); ToggleDebug].

Lemma drawer_shows_what_is_held_witness :
  ∃ d, run_desktop (one_session ++ [ResultHeld swap; ResultHeld play; ResultReleased "op-1"]) initial_desktop = Some d ∧ play ∈ d_held d.
Proof.
  eexists. assert (Hrun : run_desktop (one_session ++ [ResultHeld swap; ResultHeld play; ResultReleased "op-1"]) initial_desktop = Some _)
    by (vm_compute; reflexivity).
  split; [exact Hrun|].
  destruct (drawer_shows_what_is_held _ _ play Hrun) as [_ Hin].
  refine (Hin _ (one_session ++ [ResultHeld swap]) [ResultReleased "op-1"] eq_refl _); [discriminate|].
  constructor; [vm_compute; reflexivity|constructor].
Defined.

(** ** The layers *)

(** What was pushed to the backend last, of a kind. *)
Definition pushed_debug (l : list Pushed) : bool :=
  foldl (λ b p, match p with PushDebug b' => b' | _ => b end) false l.
Definition pushed_window (l : list Pushed) : option Z :=
  foldl (λ b p, match p with PushWindow h => Some h | _ => b end) None l.

Lemma pushed_debug_app l p : pushed_debug (l ++ [p]) = match p with PushDebug b => b | _ => pushed_debug l end.
Proof. unfold pushed_debug. by rewrite foldl_app. Qed.
Lemma pushed_window_app l p : pushed_window (l ++ [p]) = match p with PushWindow h => Some h | _ => pushed_window l end.
Proof. unfold pushed_window. by rewrite foldl_app. Qed.

#[local] Arguments pushed_debug : simpl never.
#[local] Arguments pushed_window : simpl never.

(** Page and session go together, the logger and the backend have the debug mode of the
    switch, and the backend the window of the dropdown. *)
Record in_step (d : Desktop) : Prop := {
  page_session : d_page d = PageSession ↔ is_Some (d_selectedSession d);
  logger_debug : d_debugEnabled d = d_debugMode d;
  backend_debug : pushed_debug (d_pushed d) = d_debugMode d;
  backend_window : ∀ h, d_selectedWindow d = Some h → pushed_window (d_pushed d) = Some h;
}.

Lemma step_in_step ev d d' : in_step d → desktop_step ev d = Some d' → in_step d'.
Proof.
  intros [Hp Hl Hb Hw] H.
  step_cases H; open_handlers; repeat case_bool_decide; try done;
    split; cbn; rewrite ?pushed_debug_app, ?pushed_window_app; try done; try congruence;
    try (intros h [= <-]; by auto); (split; [by eauto|by intros []]).
Qed.

(** What one event asks of the backend without waiting. *)
Lemma step_pushed ev d d' :
  desktop_step ev d = Some d' →
  match ev with
  | Confirm id => d_pushed d' = d_pushed d ++ [PushConfirm id] ∧ existsb (λ h, bool_decide (ho_toolId h = id)) (d_held d) = true
  | _ => d_pushed d' = d_pushed d ∨ ∃ p, d_pushed d' = d_pushed d ++ [p] ∧ ∀ id, p ≠ PushConfirm id
  end.
Proof.
  intros H. step_cases H; open_handlers; repeat case_bool_decide; try done;
    try (by left); right; by eexists.
Qed.

Lemma confirm_of_step ev d d' id :
  desktop_step ev d = Some d' → PushConfirm id ∈ d_pushed d' →
  PushConfirm id ∈ d_pushed d ∨ ∃ op, ho_toolId op = id ∧ op ∈ d_held d.
Proof.
  intros H%step_pushed Hin.
  assert (Hcase : (∃ id', d_pushed d' = d_pushed d ++ [PushConfirm id'] ∧ existsb (λ h, bool_decide (ho_toolId h = id')) (d_held d) = true) ∨
                  d_pushed d' = d_pushed d ∨ ∃ p, d_pushed d' = d_pushed d ++ [p] ∧ ∀ id, p ≠ PushConfirm id) by (destruct ev; eauto).
  clear H. destruct Hcase as [(id' & Heq & (op & Hop & Hid%bool_decide_eq_true)%existsb_exists)|[Heq|(p & Heq & Hp)]];
    rewrite Heq in Hin; [..|by left|]; apply elem_of_app in Hin as [Hin|Hin%list_elem_of_singleton]; try (by left).
  - simplify_eq. right. exists op. by rewrite list_elem_of_In.
  - by destruct (Hp id).
Qed.

(** C27: In every state the terminal reaches, whatever the order in which the answers of
    the backend and its events come in, the session page is shown exactly when a session
    is selected, the debug mode of the switch is the one of the logger and the one last
    pushed to the backend, and the window of the dropdown is the one last pushed; and the
    backend is asked to confirm only operations that were reported held. *)
Theorem terminal_stays_in_step evs d :
  run_desktop evs initial_desktop = Some d →
  in_step d ∧ ∀ id, PushConfirm id ∈ d_pushed d → ∃ op, ho_toolId op = id ∧ ResultHeld op ∈ evs.
Proof.
  revert evs d. refine (desktop_run_ind _ _ _ _).
  - split; [by split; cbn; rewrite ?is_Some_alt|]. intros id Hin. by apply elem_of_nil in Hin.
  - intros evs d ev d' Hrun [Hin Hc] Hs. split; [by eapply step_in_step|].
    intros id Hid. destruct (confirm_of_step _ _ _ _ Hs Hid) as [Hid'|(op & <- & Hop)].
    + destruct (Hc id Hid') as (op & ? & ?). exists op. set_solver.
    + destruct (drawer_sound _ _ Hrun op Hop) as (_ & pre & post & -> & _). exists op. set_solver.
Qed.

Lemma terminal_stays_in_step_witness :
  ∃ d, run_desktop (one_session ++ [ResultHeld swap; Confirm "op-1"]) initial_desktop = Some d ∧
       in_step d ∧ PushConfirm "op-1" ∈ d_pushed d.
Proof.
  eexists. assert (Hrun : run_desktop (one_session ++ [ResultHeld swap; Confirm "op-1"]) initial_desktop = Some _)
    by (vm_compute; reflexivity).
  split; [exact Hrun|]. split; [exact (proj1 (terminal_stays_in_step _ _ Hrun))|].
  cbn. set_solver.
Defined.

(** ** Leaving by the template *)

#[local] Definition session_a : Session := mkSession "templates/saolei/sessions/a" "a".
#[local] Definition session_b : Session := mkSession "templates/sts2/sessions/b" "b".

(** A change of the template leaves the page of the session, but neither closes the
    connection nor resets the debug mode and the drawer. *)
Lemma template_change_keeps_debug d t :
  let d' := handleTemplateChange t d in
  d_page d' = PageSessions ∧ d_selectedSession d' = None ∧ d_debugMode d' = d_debugMode d ∧ d_pushed d' = d_pushed d ∧
  d_connectionState d' = d_connectionState d ∧ d_held d' = d_held d ∧ count_occ BackendCall_eq_dec (d_calls d') CallCloseAgent = count_occ BackendCall_eq_dec (d_calls d) CallCloseAgent.
Proof. repeat split; try done. cbn. by rewrite count_occ_app, Nat.add_0_r. Qed.

(** A connection that lands late is shown as the one of the session selected since. *)
Lemma connect_of_another_session :
  ∃ d, run_desktop [SessionsLanded TEMPLATE_SAOLEI (inr [session_a]); SelectSession session_a; ChangeTemplate TEMPLATE_STS2;
                    SessionsLanded TEMPLATE_STS2 (inr [session_b]); SelectSession session_b; ConnectLanded TEMPLATE_SAOLEI "a" None] initial_desktop = Some d ∧
       d_selectedSession d = Some session_b ∧ d_connectionState d = Connected ∧ CallConnect TEMPLATE_STS2 "b" ∈ d_calls d.
Proof. eexists. split; [vm_compute; reflexivity|]. split; [done|]. split; [done|]. cbn. set_solver. Qed.
