(* ===== verification/Cli.v ===== *)
(** * The command line of the board library

    [projects/game/pkg/saolei-board/src/cli/cli.ts]: the arguments, and what a run prints
    and returns.  Reading a file is a parameter. *)

From Stdlib Require Import QArith Qround.
From S2P Require Import Prelude BoardTypes Image Classify Counter Render Recognize.
From S2P Require JsText JsJson Resolver.

#[local] Open Scope Z_scope.

(** A dimension is absent or [NaN], which the library takes alike, or a number. *)
Record ParsedArgs : Type := mkArgs {
  pa_path : string;
  pa_json : bool;
  pa_debug : bool;
  pa_width : option Z;
  pa_height : option Z;
}.

#[export] Instance ParsedArgs_eq_dec : EqDecision ParsedArgs.
Proof. solve_decision. Defined.

(** [parseInt(rest[++i], 10)], of an argument that may be missing. *)
Definition parse_dimension (arg : option string) : option Z := arg ≫= λ a, JsJson.parseInt (JsText.js a).

Definition args_json (p : ParsedArgs) := mkArgs (pa_path p) true (pa_debug p) (pa_width p) (pa_height p).
Definition args_debug (p : ParsedArgs) := mkArgs (pa_path p) (pa_json p) true (pa_width p) (pa_height p).
Definition args_width (w : option Z) (p : ParsedArgs) := mkArgs (pa_path p) (pa_json p) (pa_debug p) w (pa_height p).
Definition args_height (h : option Z) (p : ParsedArgs) := mkArgs (pa_path p) (pa_json p) (pa_debug p) (pa_width p) h.
Definition args_path (path : string) (p : ParsedArgs) := mkArgs path (pa_json p) (pa_debug p) (pa_width p) (pa_height p).

(** The loop over the arguments; [None] is the request of help. *)
Fixpoint parse_loop (rest : list string) (p : ParsedArgs) : option ParsedArgs :=
  match rest with
  | [] => Some p
  | a :: rest =>
      if bool_decide (a = "--json") then parse_loop rest (args_json p)
      else if bool_decide (a = "--debug") then parse_loop rest (args_debug p)
      else if bool_decide (a = "--width") then
        match rest with
        | [] => Some (args_width None p)
        | n :: rest => parse_loop rest (args_width (parse_dimension (Some n)) p)
        end
      else if bool_decide (a = "--height") then
        match rest with
        | [] => Some (args_height None p)
        | n :: rest => parse_loop rest (args_height (parse_dimension (Some n)) p)
        end
      else if bool_decide (a = "-h") || bool_decide (a = "--help") then None
      else if negb (String.prefix "--" a) && bool_decide (pa_path p = "") then parse_loop rest (args_path a p)
      else parse_loop rest p
  end.

(** [rest] is [argv.slice(2)]. *)
Definition parseArgs (rest : list string) : option ParsedArgs :=
  if bool_decide (rest = []) then None
  else
    p ← parse_loop rest (mkArgs "" false false None None);
    if bool_decide (pa_path p = "") then None else Some p.

Definition usage : string :=
  join nl
    ["usage: cli <screenshot.png> [options]";
     "";
     "options:";
     "  --json            output JSON GameState";
     "  --debug           per-cell diagnostics (sampled color, bevel, winner) + counter";
     "  --width N         override auto-detected column count";
     "  --height N        override auto-detected row count";
     "  -h, --help        show this help"].

Definition formatCounter (counter : option MineCounter) : string :=
  match counter with
  | Some (Decoded (JNum value)) =>
      let glyphs := if value <? 0 then "-" +:+ padStart 2 "0" (num_str (Z.abs value)) else padStart 3 "0" (num_str value) in
      glyphs +:+ " (decoded, value " +:+ num_str value +:+ ")"
  | Some (Decoded JNaN) => "NaN (decoded, value NaN)"
  | Some Undecoded | None => "undecodable"
  end.

(** [JSON.stringify] of a state; the names of the statuses need no escapes. *)
Definition text_json (s : string) : string := String (Ascii.ascii_of_nat 34) s +:+ String (Ascii.ascii_of_nat 34) EmptyString.
Definition array_json (items : list string) : string := "[" +:+ join "," items +:+ "]".
Definition object_json (fields : list (string * string)) : string :=
  "{" +:+ join "," ((λ f, text_json f.1 +:+ ":" +:+ f.2) <$> fields) +:+ "}".
Definition counter_json (c : MineCounter) : string :=
  object_json
    match c with
    | Decoded (JNum v) => [("decoded", "true"); ("value", num_str v)]
    | Decoded JNaN => [("decoded", "true"); ("value", "null")]
    | Undecoded => [("decoded", "false")]
    end.
Definition state_json (s : GameState) : string :=
  object_json
    ([("width", num_str (width s)); ("height", num_str (height s));
      ("grid", array_json ((λ row, array_json ((λ c, text_json (status_name c)) <$> row)) <$> grid s))]
     ++ match mineCounter s with Some c => [("mineCounter", counter_json c)] | None => [] end).

(** [x.toFixed(0)]: the nearest integer, the farther from zero of two; the sign of a
    negative number stays. *)
Definition toFixed0 (x : Q) : string :=
  let nearest (x : Q) := num_str (Qfloor (x + (1 # 2))%Q) in
  if Qle_bool 0 x then nearest x else "-" +:+ nearest (- x)%Q.

Definition diag_line (d : CellDiagInternal) : string :=
  let g := cd_diag d in
  let '(mr, mg, mb) := d_centerMean g in
  "(" +:+ num_str (cd_x d) +:+ "," +:+ num_str (cd_y d) +:+ ") " +:+ padEnd 8 " " (status_name (cd_status d)) +:+ " "
    +:+ "bevel=" +:+ (if d_beveled g then "Y" else "n") +:+ " "
    +:+ "glyph=" +:+ padStart 3 " " (num_str (d_glyphPixels g)) +:+ " "
    +:+ "blk=" +:+ padStart 3 " " (num_str (d_blackPixels g)) +:+ " "
    +:+ "red=" +:+ padStart 3 " " (num_str (d_redPixels g)) +:+ " "
    +:+ "bgR=" +:+ padStart 3 " " (toFixed0 (d_bgRedness g)) +:+ " "
    +:+ "win=" +:+ default "-" (d_winnerRef g) +:+ " "
    +:+ "mean=(" +:+ toFixed0 mr +:+ "," +:+ toFixed0 mg +:+ "," +:+ toFixed0 mb +:+ ")" +:+ nl.

Section Cli.
Context `{PngDecoder}.
(** The file system: the bytes of a path, or why it cannot be read. *)
Context (readFile : string → string + png_bytes).

(** What is written to the two outputs, and the exit status. *)
Record CliRun : Type := mkCli { cli_out : list string; cli_err : list string; cli_status : Z }.

Definition options_of (args : ParsedArgs) : RecognizeOptions :=
  mkRecognizeOptions None None None (pa_width args) (pa_height args).

(** [main]; [None] is an exception of the recognition, which nothing catches. *)
Definition main (rest : list string) : option CliRun :=
  match parseArgs rest with
  | None => Some (mkCli [usage +:+ nl] [] (if bool_decide (rest = []) then 0 else 1))
  | Some args =>
      match readFile (pa_path args) with
      | inl err => Some (mkCli [] ["error: cannot read " +:+ pa_path args +:+ ": " +:+ err +:+ nl] 2)
      | inr bytes =>
          result ← recognizeBoard bytes (options_of args) (pa_debug args);
          let state := res_state result in
          if pa_json args then Some (mkCli [state_json state +:+ nl] [] 0)
          else
            Some (mkCli
              ([renderBoardText state +:+ nl]
               ++ match res_diagnostics result with
                  | Some rows =>
                      if pa_debug args then
                        [nl +:+ "--- per-cell diagnostics ---" +:+ nl] ++ (diag_line <$> concat rows)
                          ++ [nl +:+ "mine counter: " +:+ formatCounter (mineCounter state) +:+ nl]
                      else []
                  | None => []
                  end) [] 0)
      end
  end.

End Cli.

(** ** What the command line guarantees *)

(** A well-formed argument: the screenshot, or an option. *)
Inductive CliToken : Type :=
| TokPath (path : string)
| TokJson
| TokDebug
| TokWidth (n : Z)
| TokHeight (n : Z).

Definition token_args (t : CliToken) : list string :=
  match t with
  | TokPath path => [path]
  | TokJson => ["--json"]
  | TokDebug => ["--debug"]
  | TokWidth n => ["--width"; num_str n]
  | TokHeight n => ["--height"; num_str n]
  end.

Definition token_ok (t : CliToken) : Prop :=
  match t with
  | TokPath path => path ≠ "" ∧ String.prefix "--" path = false ∧ path ≠ "-h"
  | TokWidth n | TokHeight n => 0 ≤ n
  | _ => True
  end.

(** What it means: the first path counts, and the last of a dimension. *)
Definition token_effect (p : ParsedArgs) (t : CliToken) : ParsedArgs :=
  match t with
  | TokPath path => if bool_decide (pa_path p = "") then args_path path p else p
  | TokJson => args_json p
  | TokDebug => args_debug p
  | TokWidth n => args_width (Some n) p
  | TokHeight n => args_height (Some n) p
  end.

Lemma parse_dimension_num n : 0 ≤ n → parse_dimension (Some (num_str n)) = Some n.
Proof.
  intros Hn. cbn. change (JsText.js (num_str n)) with (JsText.jnum n).
  destruct (JsJson.jnum_numeral n Hn) as (Hne & Hd & Hv). unfold JsJson.parseInt.
  rewrite (Resolver.trimStart_digits _ Hd). pose proof (JsJson.digit_prefix_digits _ [] Hd) as Hp. rewrite !app_nil_r in Hp.
  destruct (JsText.jnum n) as [|c ds]; [done|]. pose proof (Forall_inv Hd) as Hc.
  assert (c = 48 ∨ c = 49 ∨ c = 50 ∨ c = 51 ∨ c = 52 ∨ c = 53 ∨ c = 54 ∨ c = 55 ∨ c = 56 ∨ c = 57) as Hcase
    by (unfold JsJson.is_digit in Hc; lia).
  destruct_or! Hcase; subst c; cbv iota beta; rewrite Hp, Hv; f_equal; lia.
Qed.

Lemma parse_loop_token t rest p : token_ok t → parse_loop (token_args t ++ rest) p = parse_loop rest (token_effect p t).
Proof.
  destruct t as [path| | |n|n]; cbn [token_args app]; intros Hok; try done.
  - destruct Hok as (Hne & Hpre & Hh). cbn [parse_loop token_effect].
    repeat (rewrite bool_decide_eq_false_2 by (intros ->; discriminate || done)). rewrite Hpre. cbn.
    by case_bool_decide.
  - cbn [parse_loop]. cbn -[parse_loop parse_dimension token_effect]. by rewrite parse_dimension_num.
  - cbn [parse_loop]. cbn -[parse_loop parse_dimension token_effect]. by rewrite parse_dimension_num.
Qed.

(** Options can be given in any order, before and after the screenshot. *)
Lemma arguments_read_back ts : Forall token_ok ts → (∃ path, TokPath path ∈ ts) →
  parseArgs (concat (token_args <$> ts)) = Some (fold_left token_effect ts (mkArgs "" false false None None)).
Proof.
  intros Hok [path Hpath].
  assert (Hloop : ∀ p, parse_loop (concat (token_args <$> ts)) p = Some (fold_left token_effect ts p)).
  { clear Hpath. induction Hok as [|t ts Ht _ IH]; intros p; [done|].
    rewrite fmap_cons, concat_cons, parse_loop_token by done. apply IH. }
  assert (Hkept : ∀ ts p, pa_path p ≠ "" → pa_path (fold_left token_effect ts p) ≠ "").
  { clear. induction ts as [|t ts IH]; intros p Hp; [done|]. apply IH. destruct t; cbn; try done. by rewrite bool_decide_eq_false_2. }
  assert (Hset : ∀ p, pa_path (fold_left token_effect ts p) ≠ "").
  { clear Hloop. induction Hok as [|t ts Ht _ IH]; intros p; [by apply elem_of_nil in Hpath|]. cbn [fold_left].
    apply elem_of_cons in Hpath as [<-|Hin]; [|by apply IH]. apply Hkept. cbn. case_bool_decide; [apply Ht|done]. }
  unfold parseArgs. rewrite Hloop. rewrite bool_decide_eq_false_2; [|intros Hnil; rewrite Hnil in Hloop].
  - cbn. by rewrite bool_decide_eq_false_2.
  - specialize (Hset (mkArgs "" false false None None)). specialize (Hloop (mkArgs "" false false None None)). cbn in Hloop. injection Hloop as Hl. by rewrite <- Hl in Hset.
Qed.

Lemma arguments_read_back_witness :
  parseArgs ["--width"; "9"; "shot.png"; "--json"; "--height"; "10"] = Some (mkArgs "shot.png" true false (Some 9) (Some 10)).
Proof.
  refine (arguments_read_back [TokWidth 9; TokPath "shot.png"; TokJson; TokHeight 10] _ _).
  - repeat constructor; cbn; lia || discriminate.
  - exists "shot.png". right. left.
Defined.

(** The counter is shown as the three glyphs of its display. *)
Lemma counter_as_displayed v : -99 ≤ v ≤ 999 →
  ∃ glyphs, formatCounter (Some (Decoded (JNum v))) = glyphs +:+ " (decoded, value " +:+ num_str v +:+ ")" ∧ slen glyphs = 3.
Proof.
  intros Hv. eexists. split; [reflexivity|].
  assert (Hall : forallb (λ v, slen (if v <? 0 then "-" +:+ padStart 2 "0" (num_str (Z.abs v)) else padStart 3 "0" (num_str v)) =? 3)
                   (zrange (-99) 1000) = true) by (vm_compute; reflexivity).
  rewrite forallb_forall in Hall. apply Z.eqb_eq, Hall. apply list_elem_of_In, elem_of_zrange. lia.
Qed.

Section Runs.
Context `{PngDecoder} (readFile : string → string + png_bytes).

(** The exit status says what happened: 2 that the file could not be read, with a
    message; 1 that the arguments were wrong or help was asked for; 0 anything else. *)
Lemma status_of_a_run rest run : main readFile rest = Some run →
  (cli_status run = 2 ↔ ∃ args err, parseArgs rest = Some args ∧ readFile (pa_path args) = inl err) ∧
  (cli_status run = 1 ↔ parseArgs rest = None ∧ rest ≠ []) ∧
  (cli_status run = 0 ∨ cli_status run = 1 ∨ cli_status run = 2) ∧
  (cli_err run = [] ↔ cli_status run ≠ 2).
Proof.
  unfold main. destruct (parseArgs rest) as [args|].
  - destruct (readFile (pa_path args)) as [err|bytes] eqn:R.
    + intros [= <-]. cbn. split_and!; [split; [intros _; by exists args, err|done]|split; [done|by intros [??]]|by auto|by split].
    + intros (result & _ & Hrun)%bind_Some.
      assert (cli_status run = 0 ∧ cli_err run = []) as [-> ->] by (by destruct (pa_json args); simplify_eq).
      split_and!; [split; [done|intros (? & ? & [= <-] & ?); congruence]|split; [done|by intros [??]]|by auto|by split].
  - intros [= <-]. cbn. case_bool_decide as Hr.
    + split_and!; [split; [done|by intros (? & ? & ? & ?)]|split; [done|by intros [??]]|by auto|by split].
    + split_and!; [split; [done|by intros (? & ? & ? & ?)]|by split|by auto|by split].
Qed.

(** A dimension given alone is ignored. *)
Lemma lone_width_is_ignored path n : token_ok (TokPath path) → 0 ≤ n →
  main readFile [path; "--width"; num_str n] = main readFile [path].
Proof.
  intros Hp Hn.
  assert (H1 : parseArgs [path; "--width"; num_str n] = Some (mkArgs path false false (Some n) None)).
  { apply (arguments_read_back [TokPath path; TokWidth n]); [constructor; [done|by constructor]|exists path; left]. }
  assert (H2 : parseArgs [path] = Some (mkArgs path false false None None)).
  { apply (arguments_read_back [TokPath path]); [by constructor|exists path; left]. }
  unfold main. rewrite H1, H2. cbn [pa_path pa_json pa_debug]. destruct (readFile path); [done|].
  unfold recognizeBoard, board_size. cbn [options_of opt_width opt_height pa_width pa_height truthy]. by destruct (n =? 0).
Qed.

End Runs.

(** An option without its number takes the next one away. *)
Lemma width_takes_the_next_option : parseArgs ["shot.png"; "--width"; "--json"] = Some (mkArgs "shot.png" false false None None).
Proof. reflexivity. Qed.
